(* ===== verification/_CoqProject ===== *)
-Q . S2P
Prelude.v
Interleave.v
Http2Base.v
Http2Frame.v
Http2FlowControl.v
Http2Dispatcher.v
Http2Scheduler.v
HpackTables.v
HpackHuffman.v
HpackTable.v
Hpack.v
RingBuffer.v
WsPayload.v
WsFrame.v
WsReader.v
Charconv.v
Resp.v
RedisClient.v
HttpBase.v
HttpReader.v
HttpHeaders.v
HttpUri.v
HttpRequestHeader.v
HttpChunk.v
HttpRequest.v
HttpRouteParams.v
HttpRouter.v
HttpProxy.v
HttpServer.v
Timeout.v
AsyncMutex.v
RingCursor.v
MpmcChannel.v
MpmcPump.v
SpscChannel.v
TimerWheel.v
Crc32c.v
MongoValue.v
Bson.v
MongoProtocol.v
MongoClient.v
Base64.v
Sha256.v
MongoAuth.v
