(* ===== verification/Prelude.v ===== *)
(** * galay: a verification library

    galay is a C++ network framework on coroutines: a kernel (schedulers, timers, channels, locks) and
    protocol modules on top of it (HTTP/1, HTTP/2, WebSocket, Redis, databases, RPC). This library models
    the parts that decide what the framework does with octets, windows, timers and threads, and proves
    that they do it. File names below are under [src/cpp/].

    ** What is modelled

    - Shared: this file (octets, 64-bit integers, bounded reads, results), [Charconv] (numbers as text, as
      [<charconv>] reads and writes them) and [Interleave] (threads of atomic steps over a shared store).
    - HTTP/2: [Http2Base] (constants, [galay-http2/protoc/http2_base.h]); [Http2Frame] (the frame codec,
      [protoc/http2_frame.{h,cc}]); [Http2FlowControl] (send windows, [kernel/flow_control.{h,cc}]);
      [Http2Dispatcher] (what a connection does with each inbound frame, [kernel/frame_dispacher.{h,cc}]);
      [Http2Scheduler] (which DATA frames are sent next, [kernel/out_scheduler.{h,cc}]).
    - HPACK, [protoc/http2_hpack.{h,cc}]: [HpackTables] (the constant tables), [HpackHuffman],
      [HpackTable] (static and dynamic tables and the interface [HeaderTable] between them and the coder)
      and [Hpack] (encoder and decoder, proved against that interface).
    - [RingBuffer] ([galay-utils/cache/ring_buffer.hpp]): two implementations of one interface, [ByteRing],
      through which the readers below take their input.
    - WebSocket, [galay-ws/]: [WsPayload] (masking, UTF-8), [WsFrame] (the frame codec, [protoc/ws_frame.cc])
      and [WsReader] (messages out of the ring, [kernel/ws_reader.h]).
    - Redis, [galay-redis/]: [Resp] (the protocol, [protoc/redis_protocol.cc]) and [RedisClient]
      (pipelines, [protoc/builder.cc], and exchanges, [async/redis_client.cc]).
    - HTTP/1, [galay-http/]: [HttpBase] (methods, versions and the helpers of [protoc/parse_utils.h]),
      [HttpHeaders] (the container of fields), [HttpUri] (targets, their escapes and arguments) and
      [HttpRequestHeader] (the two parsers and the serializer), all of [protoc/http_header.cc]; [HttpChunk]
      (chunked bodies, [protoc/http_chunk.cc]); [HttpRequest] (framing and bodies,
      [protoc/http_request.cc], and the request reader of [kernel/http_reader.h]); [HttpReader] is the read
      machine of that file, which both readers instantiate with their state. [HttpRouteParams]
      ([protoc/route_params.h]) and [HttpRouter] ([server/http_router.cc]: patterns, registration, lookup);
      [HttpProxy] (the same file: the request a proxy forwards, and its exchange with the upstream);
      [HttpServer] (the session of a connection in route mode, [server/http_server.h]), where reader and
      router meet.
    - MongoDB, [galay-mongo/]: [MongoValue] (the tagged variant of [base/mongo_value.{h,cc}], documents and
      arrays nested in it), [Bson] ([protoc/bson.cc]), [Crc32c] ([protoc/crc32c.cc]), [MongoProtocol]
      (OP_MSG messages, commands and pipelines, [protoc/mongo_protocol.cc] and [protoc/builder.cc]),
      [MongoClient] (commands and pipelines over a connection, [async/client.cc], on a [ByteRing]) and
      [MongoAuth] (the hello and SCRAM-SHA-256 conversation that opens one, same file). What they need of
      [galay-utils/] is [Base64] ([encoding/base64.hpp]) and [Sha256] ([crypto/hmac.hpp], [crypto/pbkdf2.hpp]).
    - Kernel, [galay-kernel/]: [Timeout] (who wins, the operation or its timeout, [core/timeout.hpp]),
      [AsyncMutex] ([async/async_mutex.h]) and [TimerWheel] ([common/timer_manager.hpp]). Of the channels,
      [concurrency/]: [MpmcChannel] and [MpmcPump] ([mpmc/bounded_channel.h]: its ring, and who goes through
      the queues of its waiters) and [SpscChannel] ([spsc/bounded_channel.h]), both on [RingCursor].

    ** How

    A class of the code is a record of its members, a method a function from the state to the state and the
    result; [std::expected] is a sum ([Value], [Unexpected]). A buffer argument is a list of octets and a
    read past its end is the outcome [OutOfBounds], or [None], never a default, so that a theorem that a
    function returns also says it stays in bounds. Unsigned arithmetic is on [Z] with [wrap64] where the
    code does not bound it. A routine whose recursion is not structural takes fuel: the fuel is computed
    from the input inside the definition that models the public function (the length of the buffer, the
    number of ticks to catch up, the number of chunks queued), and running out is the result [None], which
    the theorems exclude. Concurrent code is a program of atomic steps, a step per access to a shared
    variable; theorems hold for every interleaving of any number of threads, sequentially consistent.

    ** What is proved

    - Codecs: decoding inverts encoding whatever follows in the buffer, accepted input is well formed and
      is what its encoding is, rejected input is rejected with the code's error, nothing is read out of
      bounds, and the answer does not depend on how input was cut into reads.
    - State machines: the dispatcher, the flow controller, the scheduler, the rings and the dynamic table
      refine small abstract machines; their invariants hold after every sequence of calls.
    - Readers: a message, reply, chunked body or request cut into arbitrary reads is delivered whole and
      once, and what follows it stays in the ring. The request reader is shown to accept exactly what a
      reference that sees all octets at once accepts, and nothing with two framings.
    - HTTP/1 end to end: the router is a table of routes with an order of preference; pipelined requests
      reach the handlers their routes give; what a proxy forwards is read by another server as exactly the
      request that came in, without the fields of its hop.
    - MongoDB: documents survive encoding at every depth and decoding ends on every input; a checksum finds
      any changed octet, for it is the shift register of its polynomial; a pipeline is cut back into its
      commands; however a socket splits octets, commands and pipelines return the replies given to them,
      pipelines in whatever order those come. A decoder of nested documents has its length as fuel, for
      every level takes five octets; a world ends after its list of socket events.
    - Authentication: the hash fed through a block buffer is FIPS 180-4 SHA-256, and HMAC, PBKDF2 and Base64
      are what their standards say; a server of RFC 5802 that knows the password, one that SASLprep leaves
      as it is, accepts the client's proof and is accepted, however the socket cuts octets, and a client
      that connects has received over that connection a signature made with the keys of its password. The loop of [connect] has four turns as its bound, proved never to
      be met, since every turn moves to a later phase.
    - Kernel: a coroutine is resumed at most once and, once the threads are done, at least once; the
      mutex excludes; timers are neither lost nor repeated, nor late by two ticks.
    - Channels: under every interleaving a bounded channel is a queue, each message received once and from
      the send that put it there; closing is final, and what it answers to its receivers too; no call waits
      for another one, and with one producer and one consumer none can be held up.

    [Example]s at the ends of the files show inputs on which the code departs from its standard or from
    its comments.

    ** What is not modelled

    Sockets, files, event loops, C++ coroutine frames, memory allocation, error texts and logging; TLS,
    JSON and the lock-free queues, which are libraries; weak memory orders; and, of the parts within reach,
    the unbounded channels and the coroutines suspended on the bounded ones, the stream manager, HTTP/1
    responses, ranges and entity tags, the MySQL, PostgreSQL and RPC codecs. Handlers of routes are opaque values,
    and the system's random octets an argument. *)

From Stdlib Require Import ZArith Lia Strings.Byte.
From stdpp Require Import base list numbers strings gmap.

Open Scope Z_scope.

(** ** Bytes and byte strings *)

(** A [uint8_t] or [char] of the code is a [byte]; a [std::string] or a byte buffer is [bytes]. *)
Abbreviation byte := Byte.byte.
Abbreviation bytes := (list Byte.byte).

#[export] Instance byte_eq_dec : EqDecision byte.
Proof. intros x y. exact (Byte.byte_eq_dec x y). Defined.

#[export] Instance byte_inhabited : Inhabited byte := populate Byte.x00.
#[export] Instance byte_countable : Countable byte := inj_countable Byte.to_N Byte.of_N Byte.of_to_N.

(** Zero-extension of a byte to a wider unsigned integer. *)
Definition b2z (b : byte) : Z := Z.of_N (Byte.to_N b).

(** [static_cast<uint8_t>(z)]: the low eight bits. *)
Definition z2b (z : Z) : byte :=
  match Byte.of_N (Z.to_N (z mod 256)) with
  | Some b => b
  | None => Byte.x00
  end.

(** The bytes of a C string literal. *)
Definition bs (s : string) : bytes := String.list_byte_of_string s.
Arguments bs s%_string.

(** Conversion of an integer to a [uint32_t] and to a [size_t]. *)
Definition wrap32 (z : Z) : Z := z mod 2 ^ 32.
Definition wrap64 (z : Z) : Z := z mod 2 ^ 64.

(** Length of a byte string as a [size_t]. *)
Definition blen {A} (l : list A) : Z := Z.of_nat (length l).

Arguments b2z : simpl never.
Arguments z2b : simpl never.
Arguments wrap32 : simpl never.
Arguments wrap64 : simpl never.
Arguments blen : simpl never.

Lemma b2z_range b : 0 <= b2z b < 256.
Proof. unfold b2z. pose proof (Byte.to_N_bounded b). lia. Qed.

Lemma b2z_z2b z : b2z (z2b z) = z mod 256.
Proof.
  unfold b2z, z2b. pose proof (Z.mod_pos_bound z 256 eq_refl) as Hr.
  destruct (Byte.of_N (Z.to_N (z mod 256))) as [b|] eqn:E.
  - apply Byte.to_of_N in E. rewrite E. lia.
  - apply Byte.of_N_None_iff in E. lia.
Qed.

Lemma b2z_inj a b : b2z a = b2z b -> a = b.
Proof.
  unfold b2z. intros H%N2Z.inj.
  assert (Byte.of_N (Byte.to_N a) = Byte.of_N (Byte.to_N b)) as E by congruence.
  rewrite !Byte.of_to_N in E. congruence.
Qed.

Lemma z2b_b2z b : z2b (b2z b) = b.
Proof. apply b2z_inj. rewrite b2z_z2b. apply Z.mod_small, b2z_range. Qed.

Lemma z2b_mod z : z2b (z mod 256) = z2b z.
Proof. apply b2z_inj. rewrite !b2z_z2b. apply Z.mod_mod. lia. Qed.

Lemma b2z_z2b_small z : 0 <= z < 256 -> b2z (z2b z) = z.
Proof. intros. rewrite b2z_z2b. by apply Z.mod_small. Qed.

Lemma lxor_octet a b : 0 <= a < 256 -> 0 <= b < 256 -> 0 <= Z.lxor a b < 256.
Proof.
  intros Ha Hb. assert (Z.lxor a b = Z.lxor a b mod 2 ^ 8) as ->; [|by apply Z.mod_pos_bound].
  apply Z.bits_inj'. intros n Hn. destruct (Z.lt_ge_cases n 8).
  - by rewrite Z.mod_pow2_bits_low.
  - rewrite Z.mod_pow2_bits_high, Z.lxor_spec by lia.
    rewrite <- (Z.mod_small a (2 ^ 8)), <- (Z.mod_small b (2 ^ 8)) by lia.
    by rewrite !Z.mod_pow2_bits_high by lia.
Qed.

Lemma blen_nonneg {A} (l : list A) : 0 <= blen l.
Proof. unfold blen. lia. Qed.

Lemma blen_app {A} (l k : list A) : blen (l ++ k) = blen l + blen k.
Proof. unfold blen. rewrite length_app. lia. Qed.

Lemma blen_cons {A} (x : A) (l : list A) : blen (x :: l) = 1 + blen l.
Proof. unfold blen. simpl. lia. Qed.

Lemma blen_nil {A} : blen (@nil A) = 0.
Proof. done. Qed.

Lemma blen_pos {A} (l : list A) : l <> [] -> 0 < blen l.
Proof. destruct l as [|x l]; [done|]. rewrite blen_cons. pose proof (blen_nonneg l). lia. Qed.

Lemma blen_replicate {A} n (x : A) : blen (replicate n x) = Z.of_nat n.
Proof. unfold blen. by rewrite length_replicate. Qed.

(** ** Big-endian fields *)

(** [(x >> 24) & 0xFF, ...]: how the encoders write a field. *)
Definition byte_at (x n : Z) : byte := z2b (Z.land (Z.shiftr x n) 255).
Definition put_be16 (x : Z) : bytes := [byte_at x 8; byte_at x 0].
Definition put_be24 (x : Z) : bytes := [byte_at x 16; byte_at x 8; byte_at x 0].
Definition put_be32 (x : Z) : bytes :=
  [byte_at x 24; byte_at x 16; byte_at x 8; byte_at x 0].

(** [(b0 << 24) | (b1 << 16) | ...]: how the decoders read it back. *)
Definition get_be16 (b0 b1 : byte) : Z := Z.lor (Z.shiftl (b2z b0) 8) (b2z b1).
Definition get_be24 (b0 b1 b2 : byte) : Z :=
  Z.lor (Z.lor (Z.shiftl (b2z b0) 16) (Z.shiftl (b2z b1) 8)) (b2z b2).
Definition get_be32 (b0 b1 b2 b3 : byte) : Z :=
  Z.lor (Z.lor (Z.lor (Z.shiftl (b2z b0) 24) (Z.shiftl (b2z b1) 16))
               (Z.shiftl (b2z b2) 8)) (b2z b3).

Arguments byte_at : simpl never.
Arguments put_be16 : simpl never.
Arguments put_be24 : simpl never.
Arguments put_be32 : simpl never.
Arguments get_be16 : simpl never.
Arguments get_be24 : simpl never.
Arguments get_be32 : simpl never.

Lemma land_255 x : Z.land x 255 = x mod 256.
Proof. change 255 with (Z.ones 8). by rewrite Z.land_ones. Qed.

Lemma land_mul_pow2_small a b n : 0 <= n -> 0 <= b < 2 ^ n -> Z.land (a * 2 ^ n) b = 0.
Proof.
  intros Hn Hb. apply Z.bits_inj'. intros i Hi. rewrite Z.land_spec, Z.bits_0.
  destruct (Z.lt_ge_cases i n).
  - by rewrite Z.mul_pow2_bits_low.
  - apply andb_false_intro2. rewrite <- (Z.mod_small b (2 ^ n)) by done.
    by apply Z.mod_pow2_bits_high.
Qed.

Lemma lor_shiftl_add a b n : 0 <= n -> 0 <= b < 2 ^ n -> Z.lor (Z.shiftl a n) b = a * 2 ^ n + b.
Proof.
  intros Hn Hb. rewrite Z.shiftl_mul_pow2 by done.
  pose proof (land_mul_pow2_small a b n Hn Hb) as H0.
  rewrite <- Z.lxor_lor by done. symmetry. by apply Z.add_nocarry_lxor.
Qed.

Lemma b2z_byte_at x n : 0 <= n -> b2z (byte_at x n) = (x / 2 ^ n) mod 256.
Proof.
  intros. unfold byte_at. rewrite land_255, b2z_z2b, Z.mod_mod, Z.shiftr_div_pow2 by lia. done.
Qed.

Lemma byte_at_eq x n b : 0 <= n -> (x / 2 ^ n) mod 256 = b2z b -> byte_at x n = b.
Proof. intros. apply b2z_inj. by rewrite b2z_byte_at. Qed.

(** Evaluation of the shift-and-or readers as sums. *)
Lemma get_be16_eq b0 b1 : get_be16 b0 b1 = b2z b0 * 256 + b2z b1.
Proof.
  unfold get_be16. pose proof (b2z_range b1). by rewrite lor_shiftl_add.
Qed.

Lemma get_be24_eq b0 b1 b2 : get_be24 b0 b1 b2 = b2z b0 * 65536 + b2z b1 * 256 + b2z b2.
Proof.
  unfold get_be24. pose proof (b2z_range b1). pose proof (b2z_range b2).
  rewrite <- Z.lor_assoc, (lor_shiftl_add (b2z b1)) by lia.
  rewrite lor_shiftl_add by lia. lia.
Qed.

Lemma get_be32_eq b0 b1 b2 b3 :
  get_be32 b0 b1 b2 b3 =
  b2z b0 * 16777216 + b2z b1 * 65536 + b2z b2 * 256 + b2z b3.
Proof.
  unfold get_be32. pose proof (b2z_range b1). pose proof (b2z_range b2).
  pose proof (b2z_range b3).
  rewrite <- !Z.lor_assoc, (lor_shiftl_add (b2z b2)) by lia.
  rewrite (lor_shiftl_add (b2z b1)) by lia. rewrite lor_shiftl_add by lia. lia.
Qed.

Lemma get_be16_range b0 b1 : 0 <= get_be16 b0 b1 < 2 ^ 16.
Proof. rewrite get_be16_eq. pose proof (b2z_range b0). pose proof (b2z_range b1). lia. Qed.

Lemma get_be24_range b0 b1 b2 : 0 <= get_be24 b0 b1 b2 < 2 ^ 24.
Proof.
  rewrite get_be24_eq. pose proof (b2z_range b0). pose proof (b2z_range b1).
  pose proof (b2z_range b2). lia.
Qed.

Lemma get_be32_range b0 b1 b2 b3 : 0 <= get_be32 b0 b1 b2 b3 < 2 ^ 32.
Proof.
  rewrite get_be32_eq. pose proof (b2z_range b0). pose proof (b2z_range b1).
  pose proof (b2z_range b2). pose proof (b2z_range b3). lia.
Qed.

Ltac be_solve :=
  rewrite ?get_be16_eq, ?get_be24_eq, ?get_be32_eq, !b2z_byte_at by lia;
  change (2 ^ 0) with 1; change (2 ^ 8) with 256; change (2 ^ 16) with 65536;
  change (2 ^ 24) with 16777216;
  Z.div_mod_to_equations; lia.

Lemma get_put_be16 x : 0 <= x < 2 ^ 16 -> get_be16 (byte_at x 8) (byte_at x 0) = x.
Proof. intros. be_solve. Qed.

Lemma get_put_be24 x :
  0 <= x < 2 ^ 24 -> get_be24 (byte_at x 16) (byte_at x 8) (byte_at x 0) = x.
Proof. intros. be_solve. Qed.

Lemma get_put_be32 x :
  0 <= x < 2 ^ 32 ->
  get_be32 (byte_at x 24) (byte_at x 16) (byte_at x 8) (byte_at x 0) = x.
Proof. intros. be_solve. Qed.

Lemma put_get_be16 b0 b1 : put_be16 (get_be16 b0 b1) = [b0; b1].
Proof.
  unfold put_be16. pose proof (b2z_range b0). pose proof (b2z_range b1).
  repeat f_equal; apply byte_at_eq; try lia; rewrite get_be16_eq;
    Z.div_mod_to_equations; lia.
Qed.

Lemma put_get_be32 b0 b1 b2 b3 : put_be32 (get_be32 b0 b1 b2 b3) = [b0; b1; b2; b3].
Proof.
  unfold put_be32. pose proof (b2z_range b0). pose proof (b2z_range b1).
  pose proof (b2z_range b2). pose proof (b2z_range b3).
  repeat f_equal; apply byte_at_eq; try lia; rewrite get_be32_eq;
    Z.div_mod_to_equations; lia.
Qed.

(** Masks on the top bit of a 32-bit field. *)
Lemma land_7fffffff x : Z.land x 0x7FFFFFFF = x mod 2 ^ 31.
Proof. change 0x7FFFFFFF with (Z.ones 31). by rewrite Z.land_ones. Qed.

Lemma lor_top_bit x : 0 <= x < 2 ^ 31 -> Z.lor x 0x80000000 = x + 2 ^ 31.
Proof.
  intros. rewrite Z.lor_comm. change 0x80000000 with (Z.shiftl 1 31).
  rewrite lor_shiftl_add by lia. lia.
Qed.

Lemma land_top_bit x : 0 <= x < 2 ^ 32 -> Z.land x 0x80000000 = x / 2 ^ 31 * 2 ^ 31.
Proof.
  intros. change 0x80000000 with (Z.ones 32 - Z.ones 31).
  pose proof (Z.div_mod x (2 ^ 31) ltac:(lia)) as E.
  rewrite E at 1. rewrite Z.mul_comm.
  rewrite <- (lor_shiftl_add (x / 2 ^ 31) (x mod 2 ^ 31) 31)
    by (try apply Z.mod_pos_bound; lia).
  rewrite Z.land_lor_distr_l. rewrite (Z.land_comm (x mod _)).
  change (Z.ones 32 - Z.ones 31) with (1 * 2 ^ 31).
  rewrite land_mul_pow2_small by (try apply Z.mod_pos_bound; lia).
  rewrite Z.lor_0_r, Z.shiftl_mul_pow2 by lia.
  assert (x / 2 ^ 31 = 0 \/ x / 2 ^ 31 = 1) as [-> | ->].
  { assert (0 <= x / 2 ^ 31 < 2); [|lia].
    split; [by apply Z.div_pos; lia | apply Z.div_lt_upper_bound; lia]. }
  all: reflexivity.
Qed.

(** ** Results *)

(** The outcome of a fallible C++ routine that reads a raw buffer: a [std::expected] value, its
    [std::unexpected] error, or a read outside the buffer (undefined behaviour). *)
Inductive outcome (E A : Type) : Type :=
| Value (a : A)
| Unexpected (e : E)
| OutOfBounds.
Arguments Value {E A} a.
Arguments Unexpected {E A} e.
Arguments OutOfBounds {E A}.

Definition obind {E A B} (m : outcome E A) (k : A -> outcome E B) : outcome E B :=
  match m with
  | Value a => k a
  | Unexpected e => Unexpected e
  | OutOfBounds => OutOfBounds
  end.

Declare Scope galay_scope.
Delimit Scope galay_scope with galay.
Open Scope galay_scope.
Notation "x <-- m ;; k" := (obind m (fun x => k))
  (at level 100, m at next level, right associativity) : galay_scope.

(** [data[i]] and [std::string(data + off, len)] on a buffer of known extent. *)
Definition rd {E} (d : bytes) (i : Z) : outcome E byte :=
  if i <? 0 then OutOfBounds
  else match nth_error d (Z.to_nat i) with Some b => Value b | None => OutOfBounds end.

Definition slice {E} (d : bytes) (off len : Z) : outcome E bytes :=
  if (0 <=? off) && (0 <=? len) && (off + len <=? blen d)
  then Value (take (Z.to_nat len) (drop (Z.to_nat off) d))
  else OutOfBounds.

(** A routine is memory safe when it never leaves the buffer. *)
Definition safe {E A} (m : outcome E A) : Prop := m <> OutOfBounds.

Lemma rd_in {E} d i : 0 <= i < blen d -> exists b, @rd E d i = Value b.
Proof.
  unfold rd, blen. intros Hi. destruct (Z.ltb_spec i 0); [lia|].
  destruct (nth_error d (Z.to_nat i)) eqn:Hd; [eauto|].
  apply nth_error_None in Hd. lia.
Qed.

Lemma slice_in {E} d off len :
  0 <= off -> 0 <= len -> off + len <= blen d ->
  @slice E d off len = Value (take (Z.to_nat len) (drop (Z.to_nat off) d)).
Proof.
  intros. unfold slice.
  rewrite (proj2 (Z.leb_le 0 off)), (proj2 (Z.leb_le 0 len)), (proj2 (Z.leb_le _ (blen d)))
    by lia. done.
Qed.

(** Reading back what was appended. *)
Lemma rd_app {E} pre b suf : @rd E (pre ++ b :: suf) (blen pre) = Value b.
Proof.
  unfold rd, blen. destruct (Z.ltb_spec (Z.of_nat (length pre)) 0); [lia|].
  rewrite Nat2Z.id, nth_error_app2, Nat.sub_diag by done. done.
Qed.

(** Evaluates reads at constant offsets of a buffer whose first bytes are explicit. *)
Ltac rd_eval :=
  cbv [rd Z.ltb Z.compare Z.to_nat Pos.to_nat Pos.iter_op Init.Nat.add nth_error obind
       Z.add Pos.add Pos.succ
       put_be16 put_be24 put_be32 app].

Lemma rd_app_at {E} d pre b suf i :
  d = pre ++ b :: suf -> i = blen pre -> @rd E d i = Value b.
Proof. intros -> ->. apply rd_app. Qed.

Lemma slice_app {E} pre d suf : @slice E (pre ++ d ++ suf) (blen pre) (blen d) = Value d.
Proof.
  rewrite slice_in by (rewrite ?blen_app; unfold blen; lia).
  unfold blen. rewrite !Nat2Z.id, drop_app_length, take_app_length. done.
Qed.

Lemma slice_app_at {E} e pre d suf off len :
  e = pre ++ d ++ suf -> off = blen pre -> len = blen d -> @slice E e off len = Value d.
Proof. intros -> -> ->. apply slice_app. Qed.

Lemma wrap64_small z : 0 <= z < 2 ^ 64 -> wrap64 z = z.
Proof. apply Z.mod_small. Qed.

Lemma wrap32_small z : 0 <= z < 2 ^ 32 -> wrap32 z = z.
Proof. apply Z.mod_small. Qed.

Lemma take_plus {A} n m (l : list A) : take (n + m) l = take n l ++ take m (drop n l).
Proof.
  revert l. induction n as [|n IH]; intros [|x l]; simpl; rewrite ?take_nil; f_equal; auto.
Qed.

Lemma drop_blen {A} (l k : list A) : drop (Z.to_nat (blen l)) (l ++ k) = k.
Proof. unfold blen. by rewrite Nat2Z.id, drop_app_length. Qed.

(** Two ways of cutting a list: the second cut is inside the first part, or behind it. *)
Lemma app_cut {A} (a b p q : list A) :
  a ++ b = p ++ q -> q <> [] ->
  (exists q', a = p ++ q' /\ q' <> []) \/ (exists p', p = a ++ p' /\ b = p' ++ q).
Proof.
  intros E Hq. apply app_eq_inv in E as [(k & -> & ->)|(k & -> & ->)].
  - destruct k as [|x k]; [right; exists []; by rewrite !app_nil_r|left; by exists (x :: k)].
  - right. by exists k.
Qed.

(** [memcpy(buf + off, data, data.size())]. *)
Definition write_at {A} (buf : list A) (off : nat) (data : list A) : list A :=
  take off buf ++ data ++ drop (off + length data) buf.

Lemma write_at_app {A} (a b c data : list A) n :
  n = length a -> length data = length b -> write_at (a ++ b ++ c) n data = a ++ data ++ c.
Proof.
  intros -> Hl. unfold write_at. rewrite take_app_length, Hl. do 2 f_equal.
  by rewrite (app_assoc a b c), <- length_app, drop_app_length.
Qed.

Create Rewrite HintDb blen.
#[export] Hint Rewrite @blen_app @blen_cons @blen_nil @blen_replicate : blen.
Ltac blen_simpl := autorewrite with blen in *.

(** Opens every conjunction and existential among the hypotheses. *)
Ltac split_hyps :=
  repeat match goal with
         | H : _ /\ _ |- _ => destruct H
         | H : exists _, _ |- _ => destruct H
         end.
