(* ===== verification/Interleave.v ===== *)
(** * Interleavings

    Threads that take atomic steps over a shared store, in any order: the step relation of the
    concurrent components, invariants of everything reachable, and sums over the threads, which an
    invariant uses to say how many threads are at a place of their program. *)

From stdpp Require Import base list relations.
From Stdlib Require Import Lia.

(** One atomic step of a thread. The choice resolves what the code leaves open: the branch taken on an
    outcome that is not modelled, or a [compare_exchange_weak] that fails without a reason. *)
Class ThreadProgram (S P C : Type) : Type := thread_step : C -> S -> P -> option (S * P).

(** What holds of [a] and is kept by every step holds of all that [a] reaches. *)
Lemma reachable_invariant {A} (R : relation A) (Inv : A -> Prop) a b :
  Inv a -> (forall x y, Inv x -> R x y -> Inv y) -> rtc R a b -> Inv b.
Proof. intros H0 Hstep Hr. induction Hr as [|x y z Hxy _ IH]; [done|]. apply IH. by eapply Hstep. Qed.

Section Interleave.
Context {S P C : Type} `{ThreadProgram S P C}.

Definition config : Type := S * list P.

Inductive step : config -> config -> Prop :=
| step_thread c i s ts p s' p' :
    ts !! i = Some p -> thread_step c s p = Some (s', p') -> step (s, ts) (s', <[i := p']> ts).

(** The step of thread [i] with a choice, and a schedule of such steps. *)
Definition exec_step (k : nat * C) (cfg : config) : option config :=
  match cfg.2 !! k.1 with
  | None => None
  | Some p =>
      match thread_step k.2 cfg.1 p with
      | None => None
      | Some (s, p) => Some (s, <[k.1 := p]> cfg.2)
      end
  end.

Fixpoint exec (schedule : list (nat * C)) (cfg : config) : option config :=
  match schedule with
  | [] => Some cfg
  | k :: schedule => match exec_step k cfg with None => None | Some cfg => exec schedule cfg end
  end.

Lemma exec_step_sound k cfg cfg' : exec_step k cfg = Some cfg' -> step cfg cfg'.
Proof.
  destruct cfg as [s ts], k as [i c]. unfold exec_step. cbn. intros E.
  destruct (ts !! i) as [p|] eqn:Hi; [|done]. destruct (thread_step c s p) as [[s' p']|] eqn:Hp; [|done].
  injection E as <-. by econstructor.
Qed.

Lemma exec_sound schedule cfg cfg' : exec schedule cfg = Some cfg' -> rtc step cfg cfg'.
Proof.
  revert cfg. induction schedule as [|k schedule IH]; intros cfg; cbn [exec]; [by intros [= ->]|].
  destruct (exec_step k cfg) as [cfg1|] eqn:E; [|done]. intros Hs.
  eapply rtc_l; [by eapply exec_step_sound|by apply IH].
Qed.

(** How many threads, each counted with a weight. *)
Fixpoint total (w : P -> nat) (ts : list P) : nat :=
  match ts with [] => 0 | p :: ts => w p + total w ts end.

Lemma total_insert w ts i p p' : ts !! i = Some p -> total w (<[i := p']> ts) + w p = total w ts + w p'.
Proof.
  revert i. induction ts as [|q ts IH]; intros [|i] Hi; [done|done|injection Hi as ->; cbn; lia|].
  specialize (IH i Hi). change (<[Datatypes.S i := p']> (q :: ts)) with (q :: <[i := p']> ts). cbn [total]. lia.
Qed.

Lemma total_lookup w ts i p : ts !! i = Some p -> w p <= total w ts.
Proof.
  revert i. induction ts as [|q ts IH]; intros [|i] Hi; [done|done|injection Hi as ->; cbn; lia|].
  specialize (IH i Hi). cbn [total]. lia.
Qed.

Lemma total_zero w ts : total w ts = 0 <-> Forall (fun p => w p = 0) ts.
Proof. induction ts as [|q ts IH]; cbn [total]; [done|]. rewrite Forall_cons, <- IH. lia. Qed.

Lemma total_le w v ts : (forall p, w p <= v p) -> total w ts <= total v ts.
Proof. intros Hw. induction ts as [|q ts IH]; cbn [total]; [done|]. specialize (Hw q). lia. Qed.

Lemma total_add w v u ts : (forall p, w p <= v p + u p) -> total w ts <= total v ts + total u ts.
Proof. intros Hw. induction ts as [|q ts IH]; cbn [total]; [done|]. specialize (Hw q). lia. Qed.

Lemma total_ext w v ts : (forall p, w p = v p) -> total w ts = total v ts.
Proof. intros Hw. induction ts as [|q ts IH]; cbn [total]; [done|]. by rewrite Hw, IH. Qed.

Lemma total_app w ts us : total w (ts ++ us) = total w ts + total w us.
Proof. induction ts as [|q ts IH]; cbn [total app]; [done|]. lia. Qed.

Lemma total_one w p : total w [p] = w p.
Proof. cbn [total]. lia. Qed.

Lemma total_witness w ts : 1 <= total w ts -> exists i p, ts !! i = Some p /\ 1 <= w p.
Proof.
  induction ts as [|q ts IH]; cbn [total]; [lia|]. intros Ht. destruct (decide (1 <= w q)) as [Hq|Hq].
  - by exists 0, q.
  - destruct IH as (i & p & Hi & Hp); [lia|]. by exists (Datatypes.S i), p.
Qed.

Lemma total_two w ts i j p q :
  ts !! i = Some p -> ts !! j = Some q -> i <> j -> w p + w q <= total w ts.
Proof.
  revert i j. induction ts as [|r ts IH]; intros [|i] [|j] Hi Hj Hn; try done; cbn [total].
  - injection Hi as ->. pose proof (total_lookup w ts j q Hj). lia.
  - injection Hj as ->. pose proof (total_lookup w ts i p Hi). lia.
  - specialize (IH i j Hi Hj ltac:(congruence)). lia.
Qed.
End Interleave.
Arguments config S P : clear implicits.
#[global] Arguments total : simpl never.

(** The change of every sum of an invariant at the step of one thread. *)
Ltac totals Hi p' :=
  repeat match goal with
  | |- context [total ?w (<[?i := p']> ?ts)] =>
      lazymatch goal with
      | _ : total w (<[i := p']> ts) + _ = _ |- _ => fail
      | _ => pose proof (total_insert w ts i _ p' Hi)
      end
  end.
