(* ===== verification/Http2Base.v ===== *)
(** * HTTP/2 constants and enumerations

    [galay-http2/protoc/http2_base.h]: the connection constants, the frame types, frame flags,
    settings identifiers and error codes.  The C++ enumerations have a fixed underlying type and
    the decoder casts arbitrary wire values into them, so each inductive type below has a
    constructor for the values the source gives no name. *)

From Stdlib Require Import ZArith Lia.
From stdpp Require Import base list.
From S2P Require Import Prelude.

Open Scope Z_scope.

(** ** Constants *)

Definition kHttp2FrameHeaderLength : Z := 9.
Definition kDefaultHeaderTableSize : Z := 4096.
Definition kDefaultInitialWindowSize : Z := 65535.
Definition kDefaultMaxFrameSize : Z := 16384.

(** ** Frame types *)

Inductive Http2FrameType : Type :=
| Data | Headers | Priority | RstStream | Settings
| PushPromise | Ping | GoAway | WindowUpdate | Continuation
| UnnamedType (v : byte).

#[export] Instance Http2FrameType_eq_dec : EqDecision Http2FrameType.
Proof. solve_decision. Defined.

(** [static_cast<uint8_t>(type)] *)
Definition type_to_u8 (t : Http2FrameType) : byte :=
  match t with
  | Data => z2b 0x0 | Headers => z2b 0x1 | Priority => z2b 0x2 | RstStream => z2b 0x3
  | Settings => z2b 0x4 | PushPromise => z2b 0x5 | Ping => z2b 0x6 | GoAway => z2b 0x7
  | WindowUpdate => z2b 0x8 | Continuation => z2b 0x9
  | UnnamedType v => v
  end.

(** [static_cast<Http2FrameType>(byte)] *)
Definition type_of_u8 (b : byte) : Http2FrameType :=
  match b2z b with
  | 0 => Data | 1 => Headers | 2 => Priority | 3 => RstStream | 4 => Settings
  | 5 => PushPromise | 6 => Ping | 7 => GoAway | 8 => WindowUpdate | 9 => Continuation
  | _ => UnnamedType b
  end.

Lemma type_of_to_u8 t :
  match t with UnnamedType v => 10 <= b2z v | _ => True end -> type_of_u8 (type_to_u8 t) = t.
Proof.
  destruct t; try done. intros Hv. unfold type_of_u8, type_to_u8.
  pose proof (b2z_range v). destruct (b2z v) as [|p|p] eqn:E; try lia.
  do 4 (destruct p as [p|p|]; try reflexivity; try lia).
Qed.

(** ** Frame flags *)

Definition kEndStream : Z := 0x1.
Definition kPadded : Z := 0x8.
Definition kEndHeaders : Z := 0x4.
Definition kPriority : Z := 0x20.
Definition kAck : Z := 0x1.

(** ** Error codes *)

Inductive Http2ErrorCode : Type :=
| NoError | ProtocolError | InternalError | FlowControlError | SettingsTimeout
| StreamClosed | FrameSizeError | RefusedStream | Cancel | CompressionError
| ConnectError | EnhanceYourCalm | InadequateSecurity | Http11Required
| UnnamedError (v : Z).

#[export] Instance Http2ErrorCode_eq_dec : EqDecision Http2ErrorCode.
Proof. solve_decision. Defined.

Definition error_to_u32 (c : Http2ErrorCode) : Z :=
  match c with
  | NoError => 0x0 | ProtocolError => 0x1 | InternalError => 0x2 | FlowControlError => 0x3
  | SettingsTimeout => 0x4 | StreamClosed => 0x5 | FrameSizeError => 0x6
  | RefusedStream => 0x7 | Cancel => 0x8 | CompressionError => 0x9 | ConnectError => 0xa
  | EnhanceYourCalm => 0xb | InadequateSecurity => 0xc | Http11Required => 0xd
  | UnnamedError v => v
  end.

Definition error_of_u32 (v : Z) : Http2ErrorCode :=
  match v with
  | 0 => NoError | 1 => ProtocolError | 2 => InternalError | 3 => FlowControlError
  | 4 => SettingsTimeout | 5 => StreamClosed | 6 => FrameSizeError | 7 => RefusedStream
  | 8 => Cancel | 9 => CompressionError | 10 => ConnectError | 11 => EnhanceYourCalm
  | 12 => InadequateSecurity | 13 => Http11Required
  | _ => UnnamedError v
  end.

(** The values a [Http2ErrorCode] object holds: a named code, or one of the other words. *)
Definition wf_error (c : Http2ErrorCode) : Prop :=
  match c with UnnamedError v => 13 < v < 2 ^ 32 | _ => True end.

Lemma error_of_to_u32 c : wf_error c -> error_of_u32 (error_to_u32 c) = c.
Proof.
  destruct c; try done. simpl. intros Hv.
  destruct v as [|p|p]; try lia.
  do 4 (destruct p as [p|p|]; try reflexivity; try lia).
Qed.

Lemma error_to_u32_range c : wf_error c -> 0 <= error_to_u32 c < 2 ^ 32.
Proof. destruct c; simpl; lia. Qed.

Lemma wf_error_of_u32 v : 0 <= v < 2 ^ 32 -> wf_error (error_of_u32 v).
Proof.
  intros Hv. unfold error_of_u32. destruct v as [|p|p]; try done; try lia.
  do 4 (destruct p as [p|p|]; simpl; try done; try lia).
Qed.

(** ** Settings identifiers *)

Inductive Http2SettingsId : Type :=
| HeaderTableSize | EnablePush | MaxConcurrentStreams
| InitialWindowSize | MaxFrameSize | MaxHeaderListSize
| UnnamedSetting (v : Z).

#[export] Instance Http2SettingsId_eq_dec : EqDecision Http2SettingsId.
Proof. solve_decision. Defined.

Definition setting_to_u16 (i : Http2SettingsId) : Z :=
  match i with
  | HeaderTableSize => 0x1 | EnablePush => 0x2 | MaxConcurrentStreams => 0x3
  | InitialWindowSize => 0x4 | MaxFrameSize => 0x5 | MaxHeaderListSize => 0x6
  | UnnamedSetting v => v
  end.

Definition setting_of_u16 (v : Z) : Http2SettingsId :=
  match v with
  | 1 => HeaderTableSize | 2 => EnablePush | 3 => MaxConcurrentStreams
  | 4 => InitialWindowSize | 5 => MaxFrameSize | 6 => MaxHeaderListSize
  | _ => UnnamedSetting v
  end.

Definition wf_setting_id (i : Http2SettingsId) : Prop :=
  match i with UnnamedSetting v => v = 0 \/ 6 < v < 2 ^ 16 | _ => True end.

Lemma setting_of_to_u16 i : wf_setting_id i -> setting_of_u16 (setting_to_u16 i) = i.
Proof.
  destruct i; try done. simpl. intros Hv.
  destruct v as [|p|p]; try done; try lia.
  do 3 (destruct p as [p|p|]; try reflexivity; try lia).
Qed.

Lemma setting_to_u16_range i : wf_setting_id i -> 0 <= setting_to_u16 i < 2 ^ 16.
Proof. destruct i; simpl; lia. Qed.

Lemma wf_setting_of_u16 v : 0 <= v < 2 ^ 16 -> wf_setting_id (setting_of_u16 v).
Proof.
  intros Hv. unfold setting_of_u16. destruct v as [|p|p]; simpl; try lia.
  do 3 (destruct p as [p|p|]; simpl; try done; try lia).
Qed.
