(* ===== verification/Http2Frame.v ===== *)
(** * HTTP/2 frames

    [galay-http2/protoc/http2_frame.{h,cc}]: the frame classes, their serializers and payload
    parsers, and the frame parser and codec on top of them.  A buffer argument
    [(const uint8_t* data, size_t length)] is a [bytes] value of exactly [length] bytes, so that
    any access past [length] is the outcome [OutOfBounds]. *)

From Stdlib Require Import ZArith Lia.
From stdpp Require Import base list strings.
From S2P Require Import Prelude Http2Base.

Open Scope Z_scope.

(** ** Frame header *)

Record Http2FrameHeader : Type := mkHeader {
  fh_length : Z;
  fh_stream_id : Z;
  fh_type : Http2FrameType;
  fh_flags : byte
}.

Definition hasFlag (h : Http2FrameHeader) (flag : Z) : bool :=
  negb (Z.land (b2z (fh_flags h)) flag =? 0).
Definition setFlag (h : Http2FrameHeader) (flag : Z) : Http2FrameHeader :=
  mkHeader (fh_length h) (fh_stream_id h) (fh_type h) (z2b (Z.lor (b2z (fh_flags h)) flag)).
Definition clearFlag (h : Http2FrameHeader) (flag : Z) : Http2FrameHeader :=
  mkHeader (fh_length h) (fh_stream_id h) (fh_type h)
           (z2b (Z.land (b2z (fh_flags h)) (Z.lnot flag))).

Definition set_length (h : Http2FrameHeader) (n : Z) : Http2FrameHeader :=
  mkHeader n (fh_stream_id h) (fh_type h) (fh_flags h).
Definition set_stream_id (h : Http2FrameHeader) (sid : Z) : Http2FrameHeader :=
  mkHeader (fh_length h) sid (fh_type h) (fh_flags h).

Definition serialize_header (h : Http2FrameHeader) : bytes :=
  put_be24 (fh_length h) ++
  [type_to_u8 (fh_type h); fh_flags h] ++
  put_be32 (Z.land (fh_stream_id h) 0x7FFFFFFF).

Arguments serialize_header : simpl never.

Definition deserialize_header {E} (buffer : bytes) : outcome E Http2FrameHeader :=
  b0 <-- rd buffer 0 ;; b1 <-- rd buffer 1 ;; b2 <-- rd buffer 2 ;;
  b3 <-- rd buffer 3 ;; b4 <-- rd buffer 4 ;;
  b5 <-- rd buffer 5 ;; b6 <-- rd buffer 6 ;; b7 <-- rd buffer 7 ;; b8 <-- rd buffer 8 ;;
  Value (mkHeader (get_be24 b0 b1 b2) (Z.land (get_be32 b5 b6 b7 b8) 0x7FFFFFFF)
                  (type_of_u8 b3) b4).

(** ** Frame objects *)

Record Setting : Type := mkSetting { s_value : Z; s_id : Http2SettingsId }.

(** One constructor per frame class, with the members of the class after the header. *)
Inductive Http2Frame : Type :=
| DataFrame (h : Http2FrameHeader) (m_data : bytes) (m_pad_length : byte)
| HeadersFrame (h : Http2FrameHeader) (m_stream_dependency : Z) (m_header_block : bytes)
    (m_exclusive : bool) (m_weight m_pad_length : byte)
| PriorityFrame (h : Http2FrameHeader) (m_stream_dependency : Z) (m_exclusive : bool)
    (m_weight : byte)
| RstStreamFrame (h : Http2FrameHeader) (m_error_code : Http2ErrorCode)
| SettingsFrame (h : Http2FrameHeader) (m_settings : list Setting)
| PushPromiseFrame (h : Http2FrameHeader) (m_promised_stream_id : Z) (m_header_block : bytes)
    (m_pad_length : byte)
| PingFrame (h : Http2FrameHeader) (m_opaque_data : bytes)
| GoAwayFrame (h : Http2FrameHeader) (m_last_stream_id : Z) (m_debug_data : bytes)
    (m_error_code : Http2ErrorCode)
| WindowUpdateFrame (h : Http2FrameHeader) (m_window_size_increment : Z)
| ContinuationFrame (h : Http2FrameHeader) (m_header_block : bytes).

Definition header (f : Http2Frame) : Http2FrameHeader :=
  match f with
  | DataFrame h _ _ => h | HeadersFrame h _ _ _ _ _ => h | PriorityFrame h _ _ _ => h
  | RstStreamFrame h _ => h | SettingsFrame h _ => h | PushPromiseFrame h _ _ _ => h
  | PingFrame h _ => h | GoAwayFrame h _ _ _ => h | WindowUpdateFrame h _ => h
  | ContinuationFrame h _ => h
  end.

(** [frame->header() = h] *)
Definition set_header (f : Http2Frame) (h : Http2FrameHeader) : Http2Frame :=
  match f with
  | DataFrame _ d p => DataFrame h d p
  | HeadersFrame _ a b c d e => HeadersFrame h a b c d e
  | PriorityFrame _ a b c => PriorityFrame h a b c
  | RstStreamFrame _ a => RstStreamFrame h a
  | SettingsFrame _ a => SettingsFrame h a
  | PushPromiseFrame _ a b c => PushPromiseFrame h a b c
  | PingFrame _ a => PingFrame h a
  | GoAwayFrame _ a b c => GoAwayFrame h a b c
  | WindowUpdateFrame _ a => WindowUpdateFrame h a
  | ContinuationFrame _ a => ContinuationFrame h a
  end.

(** The class of the object, which the constructors store in [m_header.type]. *)
Definition class_type (f : Http2Frame) : Http2FrameType :=
  match f with
  | DataFrame _ _ _ => Data | HeadersFrame _ _ _ _ _ _ => Headers
  | PriorityFrame _ _ _ _ => Priority | RstStreamFrame _ _ => RstStream
  | SettingsFrame _ _ => Settings | PushPromiseFrame _ _ _ _ => PushPromise
  | PingFrame _ _ => Ping | GoAwayFrame _ _ _ _ => GoAway
  | WindowUpdateFrame _ _ => WindowUpdate | ContinuationFrame _ _ => Continuation
  end.

Definition streamId (f : Http2Frame) : Z := fh_stream_id (header f).
Definition isPadded (h : Http2FrameHeader) : bool := hasFlag h kPadded.
Definition hasPriority (h : Http2FrameHeader) : bool := hasFlag h kPriority.
Definition isAck (h : Http2FrameHeader) : bool := hasFlag h kAck.
Definition isEndStream (h : Http2FrameHeader) : bool := hasFlag h kEndStream.
Definition isEndHeaders (h : Http2FrameHeader) : bool := hasFlag h kEndHeaders.

(** The header a default-constructed frame of each class starts with. *)
Definition fresh_header (t : Http2FrameType) : Http2FrameHeader := mkHeader 0 0 t (z2b 0).

(** [Http2FrameParser::createFrame] *)
Definition createFrame (t : Http2FrameType) : option Http2Frame :=
  let h := fresh_header t in
  match t with
  | Data => Some (DataFrame h [] (z2b 0))
  | Headers => Some (HeadersFrame h 0 [] false (z2b 16) (z2b 0))
  | Priority => Some (PriorityFrame h 0 false (z2b 16))
  | RstStream => Some (RstStreamFrame h NoError)
  | Settings => Some (SettingsFrame h [])
  | PushPromise => Some (PushPromiseFrame h 0 [] (z2b 0))
  | Ping => Some (PingFrame h (replicate 8 (z2b 0)))
  | GoAway => Some (GoAwayFrame h 0 [] NoError)
  | WindowUpdate => Some (WindowUpdateFrame h 0)
  | Continuation => Some (ContinuationFrame h [])
  | UnnamedType _ => None
  end.

(** ** Serializers *)

Definition pad_size (h : Http2FrameHeader) (pad : byte) : Z :=
  if isPadded h then 1 + b2z pad else 0.
Definition pad_prefix (h : Http2FrameHeader) (pad : byte) : bytes :=
  if isPadded h then [pad] else [].
Definition pad_suffix (h : Http2FrameHeader) (pad : byte) : bytes :=
  if isPadded h then replicate (Z.to_nat (b2z pad)) (z2b 0) else [].

Definition dep_word (dep : Z) (exclusive : bool) : Z :=
  if exclusive then Z.lor dep 0x80000000 else dep.

Definition serialize_DataFrame (h : Http2FrameHeader) (data : bytes) (pad : byte) : bytes :=
  let payload_length := blen data + pad_size h pad in
  serialize_header (set_length h (wrap32 payload_length)) ++
  pad_prefix h pad ++ data ++ pad_suffix h pad.

Definition serialize_HeadersFrame (h : Http2FrameHeader) (dep : Z) (block : bytes)
    (exclusive : bool) (weight pad : byte) : bytes :=
  let payload_length :=
    blen block + (if hasPriority h then 5 else 0) + pad_size h pad in
  serialize_header (set_length h (wrap32 payload_length)) ++
  pad_prefix h pad ++
  (if hasPriority h then put_be32 (dep_word dep exclusive) ++ [weight] else []) ++
  block ++ pad_suffix h pad.

Definition serialize_PriorityFrame (h : Http2FrameHeader) (dep : Z) (exclusive : bool)
    (weight : byte) : bytes :=
  serialize_header (set_length h 5) ++ put_be32 (dep_word dep exclusive) ++ [weight].

Definition serialize_RstStreamFrame (h : Http2FrameHeader) (code : Http2ErrorCode) : bytes :=
  serialize_header (set_length h 4) ++ put_be32 (error_to_u32 code).

Definition serialize_Setting (s : Setting) : bytes :=
  put_be16 (setting_to_u16 (s_id s)) ++ put_be32 (s_value s).

Definition serialize_SettingsFrame (h : Http2FrameHeader) (settings : list Setting) : bytes :=
  if isAck h then serialize_header (set_stream_id (set_length h 0) 0)
  else
    let payload_length := blen settings * 6 in
    serialize_header (set_stream_id (set_length h (wrap32 payload_length)) 0) ++
    concat (serialize_Setting <$> settings).

Definition serialize_PushPromiseFrame (h : Http2FrameHeader) (psid : Z) (block : bytes)
    (pad : byte) : bytes :=
  let payload_length := 4 + blen block + pad_size h pad in
  serialize_header (set_length h (wrap32 payload_length)) ++
  pad_prefix h pad ++ put_be32 (Z.land psid 0x7FFFFFFF) ++ block ++ pad_suffix h pad.

Definition serialize_PingFrame (h : Http2FrameHeader) (opaque : bytes) : bytes :=
  serialize_header (set_stream_id (set_length h 8) 0) ++ opaque.

Definition serialize_GoAwayFrame (h : Http2FrameHeader) (lsid : Z) (debug : bytes)
    (code : Http2ErrorCode) : bytes :=
  let payload_length := 8 + blen debug in
  serialize_header (set_stream_id (set_length h (wrap32 payload_length)) 0) ++
  put_be32 (Z.land lsid 0x7FFFFFFF) ++ put_be32 (error_to_u32 code) ++ debug.

Definition serialize_WindowUpdateFrame (h : Http2FrameHeader) (inc : Z) : bytes :=
  serialize_header (set_length h 4) ++ put_be32 (Z.land inc 0x7FFFFFFF).

Definition serialize_ContinuationFrame (h : Http2FrameHeader) (block : bytes) : bytes :=
  serialize_header (set_length h (wrap32 (blen block))) ++ block.

(** The virtual [serialize()]; [Http2FrameCodec::encode] calls it. *)
Definition encode (f : Http2Frame) : bytes :=
  match f with
  | DataFrame h d p => serialize_DataFrame h d p
  | HeadersFrame h a b c d e => serialize_HeadersFrame h a b c d e
  | PriorityFrame h a b c => serialize_PriorityFrame h a b c
  | RstStreamFrame h a => serialize_RstStreamFrame h a
  | SettingsFrame h a => serialize_SettingsFrame h a
  | PushPromiseFrame h a b c => serialize_PushPromiseFrame h a b c
  | PingFrame h a => serialize_PingFrame h a
  | GoAwayFrame h a b c => serialize_GoAwayFrame h a b c
  | WindowUpdateFrame h a => serialize_WindowUpdateFrame h a
  | ContinuationFrame h a => serialize_ContinuationFrame h a
  end.

(** ** Payload parsers

    [length - offset] is computed on [size_t], so the subtraction wraps; [rd32] is the
    four-byte read the parsers write out. *)

Definition rd32 {E} (d : bytes) (off : Z) : outcome E Z :=
  b0 <-- rd d off ;; b1 <-- rd d (off + 1) ;; b2 <-- rd d (off + 2) ;; b3 <-- rd d (off + 3) ;;
  Value (get_be32 b0 b1 b2 b3).

Definition parse_DataFrame (h : Http2FrameHeader) (pad0 : byte) (d : bytes) :
    outcome Http2ErrorCode Http2Frame :=
  let length := blen d in
  if isPadded h then
    if length <? 1 then Unexpected FrameSizeError
    else
      pad <-- rd d 0 ;;
      if length <=? b2z pad then Unexpected ProtocolError
      else
        m_data <-- slice d 1 (wrap64 (length - 1 - b2z pad)) ;;
        Value (DataFrame h m_data pad)
  else
    m_data <-- slice d 0 (wrap64 (length - 0 - 0)) ;;
    Value (DataFrame h m_data pad0).

(** The optional Pad Length byte: the new offset and the frame's [m_pad_length]. *)
Definition parse_pad_length (h : Http2FrameHeader) (pad0 : byte) (d : bytes) :
    outcome Http2ErrorCode (Z * byte) :=
  if isPadded h then
    if blen d <? 1 then Unexpected FrameSizeError
    else pad <-- rd d 0 ;; Value (1, pad)
  else Value (0, pad0).

(** The rest of the payload after [offset], less the padding. *)
Definition parse_block (h : Http2FrameHeader) (pad : byte) (d : bytes) (offset : Z) :
    outcome Http2ErrorCode bytes :=
  let padding := if isPadded h then b2z pad else 0 in
  if blen d <? wrap64 (offset + padding) then Unexpected ProtocolError
  else slice d offset (wrap64 (blen d - offset - padding)).

Definition parse_HeadersFrame (h : Http2FrameHeader) (dep0 : Z) (excl0 : bool)
    (weight0 pad0 : byte) (d : bytes) : outcome Http2ErrorCode Http2Frame :=
  r <-- parse_pad_length h pad0 d ;;
  let '(offset, pad) := r in
  p <-- (if hasPriority h then
           if wrap64 (blen d - offset) <? 5 then Unexpected FrameSizeError
           else
             dep <-- rd32 d offset ;;
             weight <-- rd d (offset + 4) ;;
             Value (offset + 5, Z.land dep 0x7FFFFFFF,
                    negb (Z.land dep 0x80000000 =? 0), weight)
         else Value (offset, dep0, excl0, weight0)) ;;
  let '(offset, dep, exclusive, weight) := p in
  block <-- parse_block h pad d offset ;;
  Value (HeadersFrame h dep block exclusive weight pad).

Definition parse_PriorityFrame (h : Http2FrameHeader) (d : bytes) :
    outcome Http2ErrorCode Http2Frame :=
  if negb (blen d =? 5) then Unexpected FrameSizeError
  else
    dep <-- rd32 d 0 ;;
    weight <-- rd d 4 ;;
    Value (PriorityFrame h (Z.land dep 0x7FFFFFFF) (negb (Z.land dep 0x80000000 =? 0)) weight).

Definition parse_RstStreamFrame (h : Http2FrameHeader) (d : bytes) :
    outcome Http2ErrorCode Http2Frame :=
  if negb (blen d =? 4) then Unexpected FrameSizeError
  else code <-- rd32 d 0 ;; Value (RstStreamFrame h (error_of_u32 code)).

(** The settings loop, [for (size_t i = 0; i < length; i += 6)], on [n] remaining turns. *)
Fixpoint parse_settings (n : nat) (d : bytes) (i : Z) : outcome Http2ErrorCode (list Setting) :=
  match n with
  | O => Value []
  | S n =>
      b0 <-- rd d i ;; b1 <-- rd d (i + 1) ;;
      value <-- rd32 d (i + 2) ;;
      rest <-- parse_settings n d (i + 6) ;;
      Value (mkSetting value (setting_of_u16 (get_be16 b0 b1)) :: rest)
  end.

Definition parse_SettingsFrame (h : Http2FrameHeader) (settings0 : list Setting) (d : bytes) :
    outcome Http2ErrorCode Http2Frame :=
  if isAck h then
    if negb (blen d =? 0) then Unexpected FrameSizeError
    else Value (SettingsFrame h settings0)
  else if negb (blen d mod 6 =? 0) then Unexpected FrameSizeError
  else
    settings <-- parse_settings (Z.to_nat (blen d / 6)) d 0 ;;
    Value (SettingsFrame h settings).

Definition parse_PushPromiseFrame (h : Http2FrameHeader) (pad0 : byte) (d : bytes) :
    outcome Http2ErrorCode Http2Frame :=
  r <-- parse_pad_length h pad0 d ;;
  let '(offset, pad) := r in
  if wrap64 (blen d - offset) <? 4 then Unexpected FrameSizeError
  else
    psid <-- rd32 d offset ;;
    block <-- parse_block h pad d (offset + 4) ;;
    Value (PushPromiseFrame h (Z.land psid 0x7FFFFFFF) block pad).

Definition parse_PingFrame (h : Http2FrameHeader) (d : bytes) :
    outcome Http2ErrorCode Http2Frame :=
  if negb (blen d =? 8) then Unexpected FrameSizeError
  else opaque <-- slice d 0 8 ;; Value (PingFrame h opaque).

Definition parse_GoAwayFrame (h : Http2FrameHeader) (debug0 : bytes) (d : bytes) :
    outcome Http2ErrorCode Http2Frame :=
  if blen d <? 8 then Unexpected FrameSizeError
  else
    lsid <-- rd32 d 0 ;;
    code <-- rd32 d 4 ;;
    debug <-- (if 8 <? blen d then slice d 8 (blen d - 8) else Value debug0) ;;
    Value (GoAwayFrame h (Z.land lsid 0x7FFFFFFF) debug (error_of_u32 code)).

Definition parse_WindowUpdateFrame (h : Http2FrameHeader) (d : bytes) :
    outcome Http2ErrorCode Http2Frame :=
  if negb (blen d =? 4) then Unexpected FrameSizeError
  else
    w <-- rd32 d 0 ;;
    let inc := Z.land w 0x7FFFFFFF in
    if inc =? 0 then Unexpected ProtocolError else Value (WindowUpdateFrame h inc).

Definition parse_ContinuationFrame (h : Http2FrameHeader) (d : bytes) :
    outcome Http2ErrorCode Http2Frame :=
  block <-- slice d 0 (blen d) ;; Value (ContinuationFrame h block).

(** The virtual [parsePayload]: [NoError] with the updated object, or the error code. *)
Definition parsePayload (f : Http2Frame) (d : bytes) : outcome Http2ErrorCode Http2Frame :=
  match f with
  | DataFrame h _ pad => parse_DataFrame h pad d
  | HeadersFrame h dep _ excl weight pad => parse_HeadersFrame h dep excl weight pad d
  | PriorityFrame h _ _ _ => parse_PriorityFrame h d
  | RstStreamFrame h _ => parse_RstStreamFrame h d
  | SettingsFrame h settings => parse_SettingsFrame h settings d
  | PushPromiseFrame h _ _ pad => parse_PushPromiseFrame h pad d
  | PingFrame h _ => parse_PingFrame h d
  | GoAwayFrame h _ debug _ => parse_GoAwayFrame h debug d
  | WindowUpdateFrame h _ => parse_WindowUpdateFrame h d
  | ContinuationFrame h _ => parse_ContinuationFrame h d
  end.

(** [Http2FrameParser::parseFrame], which [Http2FrameCodec::decode] calls. *)
Definition decode (data : bytes) : outcome Http2ErrorCode Http2Frame :=
  if blen data <? kHttp2FrameHeaderLength then Unexpected FrameSizeError
  else
    h <-- deserialize_header data ;;
    if blen data <? kHttp2FrameHeaderLength + fh_length h then Unexpected FrameSizeError
    else
      match createFrame (fh_type h) with
      | None => Unexpected ProtocolError
      | Some frame =>
          payload <-- slice data kHttp2FrameHeaderLength (fh_length h) ;;
          parsePayload (set_header frame h) payload
      end.

(** ** Well-formed frames *)

(** Payload octets a frame occupies on the wire, from its members. *)
Definition payload_size (f : Http2Frame) : Z :=
  match f with
  | DataFrame h d pad => blen d + pad_size h pad
  | HeadersFrame h _ block _ _ pad =>
      blen block + (if hasPriority h then 5 else 0) + pad_size h pad
  | PriorityFrame _ _ _ _ => 5
  | RstStreamFrame _ _ => 4
  | SettingsFrame h settings => if isAck h then 0 else blen settings * 6
  | PushPromiseFrame h _ block pad => 4 + blen block + pad_size h pad
  | PingFrame _ _ => 8
  | GoAwayFrame _ _ debug _ => 8 + blen debug
  | WindowUpdateFrame _ _ => 4
  | ContinuationFrame _ block => blen block
  end.

Definition wf_setting (s : Setting) : Prop :=
  0 <= s_value s < 2 ^ 32 /\ wf_setting_id (s_id s).

(** Members whose flag is clear keep the value the constructor gave them. *)
Definition wf_members (f : Http2Frame) : Prop :=
  match f with
  | DataFrame h _ pad => isPadded h = false -> pad = z2b 0
  | HeadersFrame h dep _ excl weight pad =>
      (isPadded h = false -> pad = z2b 0) /\ 0 <= dep < 2 ^ 31 /\
      (hasPriority h = false -> dep = 0 /\ excl = false /\ weight = z2b 16)
  | PriorityFrame _ dep _ _ => 0 <= dep < 2 ^ 31
  | RstStreamFrame _ code => wf_error code
  | SettingsFrame h settings =>
      Forall wf_setting settings /\ (isAck h = true -> settings = [])
  | PushPromiseFrame h psid _ pad => (isPadded h = false -> pad = z2b 0) /\ 0 <= psid < 2 ^ 31
  | PingFrame _ opaque => blen opaque = 8
  | GoAwayFrame _ lsid _ code => 0 <= lsid < 2 ^ 31 /\ wf_error code
  | WindowUpdateFrame _ inc => 0 < inc < 2 ^ 31
  | ContinuationFrame _ _ => True
  end.

Record wf_frame (f : Http2Frame) : Prop := {
  wf_stream : 0 <= streamId f < 2 ^ 31;
  wf_type : fh_type (header f) = class_type f;
  wf_len : fh_length (header f) = payload_size f;
  wf_len24 : payload_size f < 2 ^ 24;
  wf_mem : wf_members f
}.

(** SETTINGS, PING and GOAWAY are always written on stream 0. *)
Definition on_stream0 (f : Http2Frame) : bool :=
  match f with SettingsFrame _ _ | PingFrame _ _ | GoAwayFrame _ _ _ _ => true | _ => false end.
Definition canon (f : Http2Frame) : Http2Frame :=
  if on_stream0 f then set_header f (set_stream_id (header f) 0) else f.

(** ** Lemmas on the wire format *)

Lemma payload_size_nonneg f : 0 <= payload_size f.
Proof.
  assert (forall h p, 0 <= pad_size h p) as Hp.
  { intros h p. unfold pad_size. pose proof (b2z_range p). destruct (isPadded h); lia. }
  destruct f; simpl; try lia;
    repeat match goal with |- context [pad_size ?h ?p] => pose proof (Hp h p); generalize dependent (pad_size h p); intros end;
    repeat match goal with |- context [@blen ?A ?l] => pose proof (@blen_nonneg A l); generalize dependent (@blen A l); intros end;
    try (destruct (hasPriority _)); try (destruct (isAck _)); lia.
Qed.

Lemma blen_pad_prefix h pad : blen (pad_prefix h pad) = if isPadded h then 1 else 0.
Proof. unfold pad_prefix. by destruct (isPadded h). Qed.

Lemma blen_pad_suffix h pad :
  blen (pad_suffix h pad) = if isPadded h then b2z pad else 0.
Proof.
  unfold pad_suffix. destruct (isPadded h); [|done].
  rewrite blen_replicate. pose proof (b2z_range pad). lia.
Qed.

Lemma blen_be32 x : blen (put_be32 x) = 4.
Proof. done. Qed.

Lemma blen_be16 x : blen (put_be16 x) = 2.
Proof. done. Qed.

Lemma blen_serialize_header h : blen (serialize_header h) = 9.
Proof. done. Qed.

#[export] Hint Rewrite blen_pad_prefix blen_pad_suffix blen_be32 blen_be16
  blen_serialize_header : blen.

Lemma rd32_app {E} pre x suf :
  0 <= x < 2 ^ 32 -> @rd32 E (pre ++ put_be32 x ++ suf) (blen pre) = Value x.
Proof.
  intros Hx. unfold rd32, put_be32. cbn [app].
  rewrite (rd_app_at _ pre (byte_at x 24) (byte_at x 16 :: byte_at x 8 :: byte_at x 0 :: suf))
    by done. cbn [obind].
  rewrite (rd_app_at _ (pre ++ [byte_at x 24]) (byte_at x 16) (byte_at x 8 :: byte_at x 0 :: suf))
    by (rewrite ?blen_app, <- ?app_assoc; done). cbn [obind].
  rewrite (rd_app_at _ (pre ++ [byte_at x 24; byte_at x 16]) (byte_at x 8) (byte_at x 0 :: suf))
    by (rewrite ?blen_app, <- ?app_assoc; done). cbn [obind].
  rewrite (rd_app_at _ (pre ++ [byte_at x 24; byte_at x 16; byte_at x 8]) (byte_at x 0) suf)
    by (rewrite ?blen_app, <- ?app_assoc; done). cbn [obind].
  by rewrite get_put_be32.
Qed.

Lemma rd32_app_at {E} d pre x suf off :
  d = pre ++ put_be32 x ++ suf -> off = blen pre -> 0 <= x < 2 ^ 32 ->
  @rd32 E d off = Value x.
Proof. intros -> -> Hx. by apply rd32_app. Qed.

Lemma deserialize_serialize {E} h suf :
  0 <= fh_length h < 2 ^ 24 -> 0 <= fh_stream_id h < 2 ^ 31 ->
  match fh_type h with UnnamedType v => 10 <= b2z v | _ => True end ->
  @deserialize_header E (serialize_header h ++ suf) = Value h.
Proof.
  intros Hl Hs Ht. destruct h as [l s t fl]. simpl in *.
  unfold serialize_header, deserialize_header. cbn [fh_length fh_type fh_flags fh_stream_id].
  rd_eval. rewrite get_put_be24 by done.
  rewrite (land_7fffffff s), (Z.mod_small s) by done.
  rewrite get_put_be32, type_of_to_u8 by (try done; lia).
  by rewrite land_7fffffff, (Z.mod_small s).
Qed.

Lemma decode_wire h fr p rest :
  0 <= fh_length h < 2 ^ 24 -> 0 <= fh_stream_id h < 2 ^ 31 ->
  createFrame (fh_type h) = Some fr -> blen p = fh_length h ->
  decode (serialize_header h ++ p ++ rest) = parsePayload (set_header fr h) p.
Proof.
  intros Hl Hs Hc Hp. unfold decode, kHttp2FrameHeaderLength.
  pose proof (blen_nonneg rest). blen_simpl.
  destruct (Z.ltb_spec (9 + (blen p + blen rest)) 9); [lia|].
  rewrite deserialize_serialize by (try done; by destruct (fh_type h)).
  cbn [obind]. blen_simpl.
  destruct (Z.ltb_spec (9 + (blen p + blen rest)) (9 + fh_length h)); [lia|].
  rewrite Hc. rewrite (slice_app_at _ (serialize_header h) p rest); done.
Qed.

(** ** Payload lemmas, one per field group *)

Lemma parse_pad_length_prefix h pad suf :
  (isPadded h = false -> pad = z2b 0) ->
  parse_pad_length h (z2b 0) (pad_prefix h pad ++ suf) = Value (blen (pad_prefix h pad), pad).
Proof.
  intros Hz. unfold parse_pad_length, pad_prefix. destruct (isPadded h).
  - cbn [app]. rewrite blen_cons. pose proof (blen_nonneg suf).
    destruct (Z.ltb_spec (1 + blen suf) 1); [lia|]. done.
  - by rewrite Hz.
Qed.

Lemma parse_block_suffix h pad pre block :
  blen pre + blen block + 256 < 2 ^ 64 ->
  parse_block h pad (pre ++ block ++ pad_suffix h pad) (blen pre) = Value block.
Proof.
  intros Hlt. unfold parse_block. pose proof (b2z_range pad).
  pose proof (blen_nonneg pre). pose proof (blen_nonneg block). blen_simpl.
  set (padding := if isPadded h then b2z pad else 0) in *.
  assert (0 <= padding < 256) by (unfold padding; destruct (isPadded h); lia).
  rewrite !wrap64_small by lia.
  destruct (Z.ltb_spec (blen pre + (blen block + padding)) (blen pre + padding)); [lia|].
  apply slice_app_at with (pre := pre) (suf := pad_suffix h pad); [done|done|lia].
Qed.

Lemma parse_block_suffix_at h pad d pre block off :
  d = pre ++ block ++ pad_suffix h pad -> off = blen pre ->
  blen pre + blen block + 256 < 2 ^ 64 -> parse_block h pad d off = Value block.
Proof. intros -> ->. apply parse_block_suffix. Qed.

Lemma dep_word_range dep excl : 0 <= dep < 2 ^ 31 -> 0 <= dep_word dep excl < 2 ^ 32.
Proof. intros. unfold dep_word. destruct excl; rewrite ?lor_top_bit; lia. Qed.

Lemma dep_word_split dep excl :
  0 <= dep < 2 ^ 31 ->
  Z.land (dep_word dep excl) 0x7FFFFFFF = dep /\
  negb (Z.land (dep_word dep excl) 0x80000000 =? 0) = excl.
Proof.
  intros Hd. rewrite land_7fffffff, land_top_bit by (by apply dep_word_range).
  unfold dep_word. destruct excl; rewrite ?lor_top_bit by done.
  - replace (dep + 2 ^ 31) with (dep + 1 * 2 ^ 31) by lia.
    rewrite Z.mod_add, Z.div_add, Z.mod_small, Z.div_small by lia. done.
  - rewrite Z.mod_small, Z.div_small by lia. done.
Qed.

Lemma land31_range x : 0 <= Z.land x 0x7FFFFFFF < 2 ^ 31.
Proof. rewrite land_7fffffff. by apply Z.mod_pos_bound. Qed.

Lemma land31_id x : 0 <= x < 2 ^ 31 -> Z.land x 0x7FFFFFFF = x.
Proof. intros. by rewrite land_7fffffff, Z.mod_small. Qed.

Lemma blen_concat_settings settings :
  blen (concat (serialize_Setting <$> settings)) = blen settings * 6.
Proof.
  induction settings as [|s l IH]; [done|].
  cbn [fmap list_fmap concat]. rewrite blen_app, IH, blen_cons.
  change (blen (serialize_Setting s)) with 6. lia.
Qed.

Lemma parse_settings_wire settings pre :
  Forall wf_setting settings ->
  parse_settings (length settings) (pre ++ concat (serialize_Setting <$> settings)) (blen pre) =
  Value settings.
Proof.
  intros Hwf. revert pre. induction Hwf as [|s l [Hv Hid] _ IH]; intros pre; [done|].
  cbn [length parse_settings fmap list_fmap concat].
  pose proof (setting_to_u16_range _ Hid) as Hr. set (i := setting_to_u16 (s_id s)) in *.
  set (more := concat (serialize_Setting <$> l)) in *.
  assert (serialize_Setting s ++ more = byte_at i 8 :: byte_at i 0 :: put_be32 (s_value s) ++ more)
    as -> by done.
  rewrite rd_app. cbn [obind].
  rewrite (rd_app_at _ (pre ++ [byte_at i 8]) (byte_at i 0) (put_be32 (s_value s) ++ more))
    by (rewrite ?blen_app, <- ?app_assoc; done). cbn [obind].
  rewrite (rd32_app_at _ (pre ++ [byte_at i 8; byte_at i 0]) (s_value s) more)
    by (rewrite ?blen_app, <- ?app_assoc; done). cbn [obind].
  specialize (IH (pre ++ serialize_Setting s)).
  rewrite blen_app, <- app_assoc in IH. change (blen (serialize_Setting s)) with 6 in IH.
  change (serialize_Setting s ++ more) with
    (byte_at i 8 :: byte_at i 0 :: put_be32 (s_value s) ++ more) in IH.
  rewrite IH. cbn [obind].
  rewrite get_put_be16 by done. unfold i. rewrite setting_of_to_u16 by done.
  by destruct s.
Qed.

Lemma set_length_id h n : fh_length h = n -> 0 <= n < 2 ^ 24 -> set_length h (wrap32 n) = h.
Proof. intros <- Hn. rewrite wrap32_small by lia. by destruct h. Qed.

Lemma set_length_const h n : fh_length h = n -> set_length h n = h.
Proof. intros <-. by destruct h. Qed.

Lemma create_class f fr h :
  createFrame (class_type f) = Some fr -> fh_type h = class_type f -> createFrame (fh_type h) = Some fr.
Proof. intros ? ->. done. Qed.

(** Reduces [decode (serialize_header h ++ p ++ rest)] to the payload parser of the class. *)
Ltac wire_step :=
  rewrite <- ?app_assoc;
  erewrite decode_wire;
    [ cbn [set_header parsePayload]
    | simpl in *; lia | simpl in *; lia
    | match goal with H : fh_type _ = _ |- _ => rewrite H end; reflexivity
    | blen_simpl; simpl in *; lia ].

Lemma wf_length_range f : wf_frame f -> 0 <= fh_length (header f) < 2 ^ 24.
Proof. intros [_ _ Hl H24 _]. pose proof (payload_size_nonneg f). lia. Qed.

Section Roundtrip.
Variables (h : Http2FrameHeader) (rest : bytes).
Hypothesis Hstream : 0 <= fh_stream_id h < 2 ^ 31.

Lemma roundtrip_data data pad :
  wf_frame (DataFrame h data pad) ->
  decode (encode (DataFrame h data pad) ++ rest) = Value (DataFrame h data pad).
Proof using Hstream.
  intros Hwf. pose proof (wf_length_range _ Hwf) as Hr. destruct Hwf as [Hs Ht Hl Hl24 Hpad].
  simpl in Hr. simpl in Hs, Ht, Hl, Hl24, Hpad. cbn [encode]. pose proof (blen_nonneg data).
  unfold pad_size in *. pose proof (b2z_range pad).
  unfold serialize_DataFrame, pad_size.
  rewrite set_length_id by (destruct (isPadded h); lia).
  rewrite <- app_assoc. erewrite decode_wire; [|lia|lia|by rewrite Ht| ].
  2: { blen_simpl. destruct (isPadded h); lia. }
  cbn [set_header parsePayload]. unfold parse_DataFrame, pad_prefix, pad_suffix.
  destruct (isPadded h) eqn:Hp; cbn [app].
  - blen_simpl. rewrite Z2Nat.id by lia.
    destruct (Z.ltb_spec (1 + (blen data + b2z pad)) 1); [lia|].
    cbn [obind]. change (rd (pad :: _) 0) with (@Value Http2ErrorCode _ pad). cbn [obind].
    destruct (Z.leb_spec (1 + (blen data + b2z pad)) (b2z pad)); [lia|].
    rewrite wrap64_small by lia.
    rewrite (slice_app_at _ [pad] data (replicate (Z.to_nat (b2z pad)) (z2b 0)));
      [done|done|done|lia].
  - rewrite app_nil_r, wrap64_small by lia.
    rewrite (slice_app_at _ [] data []); [|by rewrite app_nil_r|done|lia].
    cbn [obind]. by rewrite Hpad.
Qed.

Lemma roundtrip_headers dep block excl weight pad :
  wf_frame (HeadersFrame h dep block excl weight pad) ->
  decode (encode (HeadersFrame h dep block excl weight pad) ++ rest) =
  Value (HeadersFrame h dep block excl weight pad).
Proof using Hstream.
  intros Hwf. pose proof (wf_length_range _ Hwf) as Hr.
  destruct Hwf as [Hs Ht Hl Hl24 (Hpad & Hdep & Hprio)].
  simpl in Hr. simpl in Hs, Ht, Hl, Hl24. cbn [encode]. pose proof (blen_nonneg block).
  unfold pad_size in *. pose proof (b2z_range pad).
  unfold serialize_HeadersFrame, pad_size.
  rewrite set_length_id by (destruct (isPadded h), (hasPriority h); lia).
  rewrite <- app_assoc. erewrite decode_wire; [|lia|lia|by rewrite Ht| ].
  2: { blen_simpl. destruct (isPadded h), (hasPriority h); blen_simpl; lia. }
  cbn [set_header parsePayload]. unfold parse_HeadersFrame.
  rewrite parse_pad_length_prefix by done. cbn [obind].
  destruct (hasPriority h) eqn:Hpr.
  - assert (blen (pad_prefix h pad) <= 1) by (rewrite blen_pad_prefix; destruct (isPadded h); lia).
    pose proof (blen_nonneg (pad_prefix h pad)). pose proof (blen_nonneg (pad_suffix h pad)).
    rewrite wrap64_small; [|blen_simpl; destruct (isPadded h); simpl in *; lia].
    match goal with |- context [?a <? 5] => destruct (Z.ltb_spec a 5) as [Hlt|] end.
    { rewrite !blen_app in Hlt. change (blen (put_be32 (dep_word dep excl))) with 4 in Hlt.
      change (blen [weight]) with 1 in Hlt. lia. }
    rewrite (rd32_app_at _ (pad_prefix h pad) (dep_word dep excl)
               ([weight] ++ block ++ pad_suffix h pad))
      by (try done; try (by apply dep_word_range); by rewrite <- !app_assoc).
    cbn [obind].
    rewrite (rd_app_at _ (pad_prefix h pad ++ put_be32 (dep_word dep excl)) weight
               (block ++ pad_suffix h pad))
      by (rewrite ?blen_app, <- ?app_assoc; done).
    cbn [obind].
    destruct (dep_word_split dep excl Hdep) as [-> ->].
    rewrite (parse_block_suffix_at h pad _
               (pad_prefix h pad ++ put_be32 (dep_word dep excl) ++ [weight]) block)
      ; [|by rewrite <- !app_assoc|by rewrite blen_app|blen_simpl; destruct (isPadded h); lia].
    done.
  - cbn [obind app]. rewrite parse_block_suffix.
    + cbn [obind]. by destruct (Hprio eq_refl) as (-> & -> & ->).
    + rewrite blen_pad_prefix. destruct (isPadded h); lia.
Qed.

Lemma roundtrip_push_promise psid block pad :
  wf_frame (PushPromiseFrame h psid block pad) ->
  decode (encode (PushPromiseFrame h psid block pad) ++ rest) =
  Value (PushPromiseFrame h psid block pad).
Proof using Hstream.
  intros Hwf. pose proof (wf_length_range _ Hwf) as Hr.
  destruct Hwf as [Hs Ht Hl Hl24 (Hpad & Hpsid)].
  simpl in Hr, Ht, Hl, Hl24. cbn [encode]. pose proof (blen_nonneg block).
  unfold serialize_PushPromiseFrame. rewrite set_length_id by lia.
  unfold pad_size in *. pose proof (b2z_range pad).
  rewrite <- app_assoc. erewrite decode_wire; [|lia|lia|by rewrite Ht| ].
  2: { blen_simpl. destruct (isPadded h); lia. }
  cbn [set_header parsePayload]. unfold parse_PushPromiseFrame.
  rewrite parse_pad_length_prefix by done. cbn [obind].
  pose proof (blen_pad_prefix h pad). pose proof (blen_pad_suffix h pad).
  rewrite wrap64_small by (blen_simpl; destruct (isPadded h); lia).
  match goal with |- context [?a <? 4] => destruct (Z.ltb_spec a 4) as [Hlt|] end.
  { blen_simpl. destruct (isPadded h); lia. }
  rewrite land31_id by done.
  rewrite (rd32_app_at _ (pad_prefix h pad) psid (block ++ pad_suffix h pad)) by (done || lia).
  cbn [obind].
  rewrite (parse_block_suffix_at h pad _ (pad_prefix h pad ++ put_be32 psid) block)
    ; [|by rewrite <- !app_assoc|by rewrite blen_app|blen_simpl; destruct (isPadded h); lia].
  cbn [obind]. by rewrite land31_id.
Qed.

Lemma roundtrip_settings settings :
  wf_frame (SettingsFrame h settings) ->
  decode (encode (SettingsFrame h settings) ++ rest) =
  Value (SettingsFrame (set_stream_id h 0) settings).
Proof using Hstream.
  intros Hwf. pose proof (wf_length_range _ Hwf) as Hr.
  destruct Hwf as [Hs Ht Hl Hl24 (Hset & Hack)].
  simpl in Hr, Ht, Hl, Hl24. cbn [encode].
  unfold serialize_SettingsFrame. pose proof (blen_nonneg settings).
  destruct (isAck h) eqn:Ha.
  - rewrite set_length_const by done.
    rewrite <- (app_nil_l rest).
    erewrite decode_wire; [|simpl; lia|simpl; lia|simpl; by rewrite Ht|simpl; by rewrite Hl].
    cbn [set_header parsePayload]. unfold parse_SettingsFrame.
    change (isAck (set_stream_id h 0)) with (isAck h). rewrite Ha. by rewrite Hack.
  - rewrite set_length_id by lia. rewrite <- app_assoc.
    erewrite decode_wire; [|simpl; lia|simpl; lia|simpl; by rewrite Ht| ].
    2: { simpl. by rewrite blen_concat_settings. }
    cbn [set_header parsePayload]. unfold parse_SettingsFrame.
    change (isAck (set_stream_id h 0)) with (isAck h).
    rewrite Ha, blen_concat_settings, Z.mod_mul, Z.div_mul by lia. cbn [negb Z.eqb].
    unfold blen. rewrite Nat2Z.id.
    pose proof (parse_settings_wire settings [] Hset) as Hp. rewrite app_nil_l in Hp.
    change (blen []) with 0 in Hp. rewrite Hp. done.
Qed.

(** The classes whose payload is a fixed sequence of fields. *)
Lemma roundtrip_priority dep excl weight :
  wf_frame (PriorityFrame h dep excl weight) ->
  decode (encode (PriorityFrame h dep excl weight) ++ rest) =
  Value (PriorityFrame h dep excl weight).
Proof using Hstream.
  intros [Hs Ht Hl Hl24 Hdep]. simpl in Ht, Hl, Hdep. cbn [encode].
  unfold serialize_PriorityFrame. rewrite set_length_const by done. rewrite <- app_assoc.
  erewrite decode_wire; [|lia|lia|by rewrite Ht|by rewrite Hl].
  cbn [set_header parsePayload]. unfold parse_PriorityFrame. cbn [negb Z.eqb].
  rewrite blen_app. cbn [negb Z.eqb].
  rewrite (rd32_app_at _ [] (dep_word dep excl) [weight]) by first [done | by apply dep_word_range].
  cbn [obind]. rewrite (rd_app_at _ (put_be32 (dep_word dep excl)) weight []) by done.
  cbn [obind]. by destruct (dep_word_split dep excl Hdep) as [-> ->].
Qed.

Lemma roundtrip_rst code :
  wf_frame (RstStreamFrame h code) ->
  decode (encode (RstStreamFrame h code) ++ rest) = Value (RstStreamFrame h code).
Proof using Hstream.
  intros [Hs Ht Hl Hl24 Hc]. simpl in Ht, Hl, Hc. cbn [encode].
  unfold serialize_RstStreamFrame. rewrite set_length_const by done. rewrite <- app_assoc.
  erewrite decode_wire; [|lia|lia|by rewrite Ht|by rewrite Hl].
  cbn [set_header parsePayload]. unfold parse_RstStreamFrame. cbn [negb Z.eqb].
  rewrite (rd32_app_at _ [] (error_to_u32 code) [])
    by first [by rewrite ?app_nil_r | by apply error_to_u32_range].
  cbn [obind]. by rewrite error_of_to_u32.
Qed.

Lemma roundtrip_ping opaque :
  wf_frame (PingFrame h opaque) ->
  decode (encode (PingFrame h opaque) ++ rest) = Value (PingFrame (set_stream_id h 0) opaque).
Proof using Hstream.
  intros [Hs Ht Hl Hl24 Hop]. simpl in Ht, Hl, Hop. cbn [encode].
  unfold serialize_PingFrame. rewrite set_length_const by done. rewrite <- app_assoc.
  erewrite decode_wire; [|simpl; lia|simpl; lia|simpl; by rewrite Ht|simpl; by rewrite Hl].
  cbn [set_header parsePayload]. unfold parse_PingFrame. rewrite Hop. cbn [negb Z.eqb].
  rewrite (slice_app_at _ [] opaque []) by (by rewrite ?app_nil_r). done.
Qed.

Lemma roundtrip_goaway lsid debug code :
  wf_frame (GoAwayFrame h lsid debug code) ->
  decode (encode (GoAwayFrame h lsid debug code) ++ rest) =
  Value (GoAwayFrame (set_stream_id h 0) lsid debug code).
Proof using Hstream.
  intros Hwf. pose proof (wf_length_range _ Hwf) as Hr.
  destruct Hwf as [Hs Ht Hl Hl24 (Hls & Hc)]. simpl in Hr, Ht, Hl, Hl24. cbn [encode].
  unfold serialize_GoAwayFrame. rewrite set_length_id by lia. rewrite <- app_assoc.
  erewrite decode_wire; [|simpl; lia|simpl; lia|simpl; by rewrite Ht|].
  2: { simpl. blen_simpl. lia. }
  cbn [set_header parsePayload]. unfold parse_GoAwayFrame. blen_simpl.
  pose proof (blen_nonneg debug). rewrite land31_id by done.
  destruct (Z.ltb_spec (4 + (4 + blen debug)) 8); [lia|].
  rewrite (rd32_app_at _ [] lsid (put_be32 (error_to_u32 code) ++ debug)) by (done || lia).
  cbn [obind].
  rewrite (rd32_app_at _ (put_be32 lsid) (error_to_u32 code) debug)
    by first [done | by apply error_to_u32_range].
  cbn [obind]. rewrite error_of_to_u32, land31_id by done.
  destruct (Z.ltb_spec 8 (4 + (4 + blen debug))).
  - rewrite (slice_app_at _ (put_be32 lsid ++ put_be32 (error_to_u32 code)) debug []);
      [done|by rewrite app_nil_r, <- app_assoc|done|lia].
  - destruct debug; [done|]. rewrite blen_cons in *. pose proof (blen_nonneg debug). lia.
Qed.

Lemma roundtrip_window_update inc :
  wf_frame (WindowUpdateFrame h inc) ->
  decode (encode (WindowUpdateFrame h inc) ++ rest) = Value (WindowUpdateFrame h inc).
Proof using Hstream.
  intros [Hs Ht Hl Hl24 Hi]. simpl in Ht, Hl, Hi. cbn [encode].
  unfold serialize_WindowUpdateFrame. rewrite set_length_const by done. rewrite <- app_assoc.
  erewrite decode_wire; [|lia|lia|by rewrite Ht|by rewrite Hl].
  cbn [set_header parsePayload]. unfold parse_WindowUpdateFrame. cbn [negb Z.eqb].
  rewrite land31_id by lia.
  rewrite (rd32_app_at _ [] inc []) by first [by rewrite ?app_nil_r | lia].
  cbn [obind]. rewrite land31_id by lia. destruct (Z.eqb_spec inc 0); [lia|done].
Qed.

Lemma roundtrip_continuation block :
  wf_frame (ContinuationFrame h block) ->
  decode (encode (ContinuationFrame h block) ++ rest) = Value (ContinuationFrame h block).
Proof using Hstream.
  intros Hwf. pose proof (wf_length_range _ Hwf) as Hr.
  destruct Hwf as [Hs Ht Hl Hl24 _]. simpl in Hr, Ht, Hl, Hl24. cbn [encode].
  unfold serialize_ContinuationFrame. pose proof (blen_nonneg block).
  rewrite set_length_id by lia. rewrite <- app_assoc.
  erewrite decode_wire; [|lia|lia|by rewrite Ht|by rewrite Hl].
  cbn [set_header parsePayload]. unfold parse_ContinuationFrame.
  rewrite (slice_app_at _ [] block []) by (by rewrite ?app_nil_r). done.
Qed.
End Roundtrip.

Lemma codec_roundtrip f rest : wf_frame f -> decode (encode f ++ rest) = Value (canon f).
Proof.
  intros Hwf. pose proof (wf_stream f Hwf) as Hs. unfold streamId in Hs.
  destruct f; simpl in Hs;
    [ by apply roundtrip_data | by apply roundtrip_headers | by apply roundtrip_priority
    | by apply roundtrip_rst | by apply roundtrip_settings | by apply roundtrip_push_promise
    | by apply roundtrip_ping | by apply roundtrip_goaway | by apply roundtrip_window_update
    | by apply roundtrip_continuation ].
Qed.

(** C1: the codec round-trips: a well-formed frame followed by any bytes decodes to the same
    frame, up to the stream identifier 0 that SETTINGS, PING and GOAWAY are written with. *)
Theorem decode_encode f rest : wf_frame f -> decode (encode f ++ rest) = Value (canon f).
Proof. apply codec_roundtrip. Qed.

Lemma decode_encode_witness :
  let f := HeadersFrame (mkHeader 9 7 Headers (z2b 0x2C)) 3 (bs "ab") true (z2b 20) (z2b 1) in
  decode (encode f ++ bs "zz") = Value (canon f).
Proof.
  apply decode_encode. split; [done..|]. simpl. split_and!; [done|lia|lia|done].
Defined.

(** ** What the parser accepts and rejects *)

Definition pad_bytes (h : Http2FrameHeader) : Z := if isPadded h then 1 else 0.
Definition prio_bytes (h : Http2FrameHeader) : Z := if hasPriority h then 5 else 0.

(** The declared padding: the first payload octet of a PADDED frame. *)
Definition declared_pad (h : Http2FrameHeader) (d : bytes) : Z :=
  if isPadded h then b2z (List.hd (z2b 0) d) else 0.

(** The frame size rule of each type, on a payload of [L] octets. *)
Definition size_ok (h : Http2FrameHeader) (L : Z) : Prop :=
  match fh_type h with
  | Data => pad_bytes h <= L
  | Headers => pad_bytes h + prio_bytes h <= L
  | Priority => L = 5
  | RstStream | WindowUpdate => L = 4
  | Settings => if isAck h then L = 0 else L mod 6 = 0
  | PushPromise => pad_bytes h + 4 <= L
  | Ping => L = 8
  | GoAway => 8 <= L
  | Continuation | UnnamedType _ => True
  end.

(** The remaining rules: padding fits in the payload, window increments are positive. *)
Definition content_ok (h : Http2FrameHeader) (d : bytes) : Prop :=
  match fh_type h with
  | Data => pad_bytes h + declared_pad h d <= blen d
  | Headers => pad_bytes h + prio_bytes h + declared_pad h d <= blen d
  | PushPromise => pad_bytes h + 4 + declared_pad h d <= blen d
  | WindowUpdate =>
      match d with
      | [b0; b1; b2; b3] => Z.land (get_be32 b0 b1 b2 b3) 0x7FFFFFFF <> 0
      | _ => True
      end
  | _ => True
  end.

(** The contract of a payload parser run on an object whose header is [h]. *)
Definition parse_post (h : Http2FrameHeader) (d : bytes)
    (out : outcome Http2ErrorCode Http2Frame) : Prop :=
  match out with
  | Value f =>
      header f = h /\ class_type f = fh_type h /\ payload_size f = blen d /\ wf_members f /\
      size_ok h (blen d) /\ content_ok h d
  | Unexpected e =>
      (e = FrameSizeError /\ ~ size_ok h (blen d)) \/
      (e = ProtocolError /\ size_ok h (blen d) /\ ~ content_ok h d)
  | OutOfBounds => False
  end.

Lemma rd32_in {E} d off :
  0 <= off -> off + 4 <= blen d -> exists x, 0 <= x < 2 ^ 32 /\ @rd32 E d off = Value x.
Proof.
  intros. unfold rd32.
  destruct (@rd_in E d off) as [b0 ->]; [lia|]. destruct (@rd_in E d (off + 1)) as [b1 ->]; [lia|].
  destruct (@rd_in E d (off + 2)) as [b2 ->]; [lia|].
  destruct (@rd_in E d (off + 3)) as [b3 ->]; [lia|]. cbn [obind].
  eauto using get_be32_range.
Qed.

Lemma slice_in_len {E} d off len :
  0 <= off -> 0 <= len -> off + len <= blen d ->
  exists s, blen s = len /\ @slice E d off len = Value s.
Proof.
  intros. rewrite slice_in by done. eexists. split; [|done].
  unfold blen in *. rewrite length_take, length_drop. lia.
Qed.

Lemma declared_pad_range h d : 0 <= declared_pad h d < 256.
Proof. unfold declared_pad. pose proof (b2z_range (List.hd (z2b 0) d)). destruct (isPadded h); lia. Qed.

Lemma parse_pad_length_spec h d :
  (pad_bytes h <= blen d /\
   exists pad, parse_pad_length h (z2b 0) d = Value (pad_bytes h, pad) /\
     declared_pad h d = (if isPadded h then b2z pad else 0) /\
     (isPadded h = false -> pad = z2b 0)) \/
  (blen d < pad_bytes h /\ parse_pad_length h (z2b 0) d = Unexpected FrameSizeError).
Proof.
  unfold parse_pad_length, pad_bytes, declared_pad. pose proof (blen_nonneg d).
  destruct (isPadded h).
  - destruct d as [|p d].
    + right. done.
    + left. pose proof (blen_nonneg d). rewrite blen_cons in *.
      destruct (Z.ltb_spec (1 + blen d) 1); [lia|]. split; [lia|].
      exists p. split_and!; done.
  - left. split; [done|]. by exists (z2b 0).
Qed.

Lemma parse_block_spec h pad d off :
  0 <= off <= blen d -> blen d < 2 ^ 24 ->
  let padding := if isPadded h then b2z pad else 0 in
  (off + padding <= blen d /\
   exists s, blen s = blen d - off - padding /\ parse_block h pad d off = Value s) \/
  (blen d < off + padding /\ parse_block h pad d off = Unexpected ProtocolError).
Proof.
  intros Ho Hd padding. unfold parse_block. fold padding. pose proof (b2z_range pad).
  assert (0 <= padding < 256) by (unfold padding; destruct (isPadded h); lia).
  rewrite (wrap64_small (off + padding)) by lia.
  destruct (Z.ltb_spec (blen d) (off + padding)); [by right|left; split; [lia|]].
  rewrite wrap64_small by lia. apply slice_in_len; lia.
Qed.

Section Post.
Variables (h : Http2FrameHeader) (d : bytes).
Hypothesis Hd : blen d < 2 ^ 24.

Lemma post_data : fh_type h = Data -> parse_post h d (parse_DataFrame h (z2b 0) d).
Proof using Hd.
  intros Ht. unfold parse_DataFrame, parse_post, size_ok, content_ok, pad_bytes, declared_pad.
  rewrite Ht. pose proof (blen_nonneg d).
  destruct (isPadded h) eqn:Hp.
  - destruct d as [|p d']; [rewrite !blen_nil; left; split; [done|lia]|].
    rewrite blen_cons in *. pose proof (blen_nonneg d'). pose proof (b2z_range p).
    destruct (Z.ltb_spec (1 + blen d') 1); [lia|].
    change (rd (p :: d') 0) with (@Value Http2ErrorCode _ p). cbn [obind List.hd].
    destruct (Z.leb_spec (1 + blen d') (b2z p)); [right; split_and!; [done|lia|lia]|].
    rewrite wrap64_small by lia.
    destruct (@slice_in_len Http2ErrorCode (p :: d') 1 (1 + blen d' - 1 - b2z p))
      as (s & Hs & ->); [lia|lia|rewrite blen_cons; lia|].
    cbn [obind]. simpl. unfold pad_size. rewrite Hp, Hs. split_and!; first [done | lia].
  - rewrite wrap64_small by lia.
    destruct (@slice_in_len Http2ErrorCode d 0 (blen d - 0 - 0)) as (s & Hs & ->); [lia..|].
    cbn [obind]. simpl. unfold pad_size. rewrite Hp, Hs. split_and!; first [done | lia].
Qed.

Lemma post_headers :
  fh_type h = Headers -> parse_post h d (parse_HeadersFrame h 0 false (z2b 16) (z2b 0) d).
Proof using Hd.
  intros Ht. unfold parse_HeadersFrame, parse_post, size_ok, content_ok. rewrite Ht.
  pose proof (blen_nonneg d). pose proof (declared_pad_range h d).
  destruct (parse_pad_length_spec h d) as [(Hl & pad & -> & Hdp & Hz)|(Hl & ->)]; cbn [obind].
  2: { left. split; [done|]. unfold prio_bytes. destruct (hasPriority h); lia. }
  assert (0 <= pad_bytes h <= 1) by (unfold pad_bytes; destruct (isPadded h); lia).
  unfold prio_bytes. destruct (hasPriority h) eqn:Hpr.
  - rewrite wrap64_small by lia.
    destruct (Z.ltb_spec (blen d - pad_bytes h) 5); [left; split; [done|lia]|].
    destruct (@rd32_in Http2ErrorCode d (pad_bytes h)) as (dep & Hdep & ->); [lia..|].
    cbn [obind]. destruct (@rd_in Http2ErrorCode d (pad_bytes h + 4)) as (w & ->); [lia|].
    cbn [obind].
    destruct (parse_block_spec h pad d (pad_bytes h + 5)) as [(Hb & s & Hs & ->)|(Hb & ->)];
      [lia|done| |]; cbn [obind].
    + simpl. unfold pad_size. rewrite Hpr, Hs.
      pose proof (land31_range dep).
      unfold pad_bytes in *. split_and!; try done; destruct (isPadded h); lia.
    + right. split_and!; [done|lia|lia].
  - cbn [obind]. destruct (parse_block_spec h pad d (pad_bytes h)) as [(Hb & s & Hs & ->)|(Hb & ->)];
      [lia|done| |]; cbn [obind].
    + simpl. unfold pad_size. rewrite Hpr, Hs.
      unfold pad_bytes in *. split_and!; try done; destruct (isPadded h); lia.
    + right. split_and!; [done|lia|lia].
Qed.

Lemma post_push_promise :
  fh_type h = PushPromise -> parse_post h d (parse_PushPromiseFrame h (z2b 0) d).
Proof using Hd.
  intros Ht. unfold parse_PushPromiseFrame, parse_post, size_ok, content_ok. rewrite Ht.
  pose proof (blen_nonneg d).
  destruct (parse_pad_length_spec h d) as [(Hl & pad & -> & Hdp & Hz)|(Hl & ->)]; cbn [obind];
    [|left; split; [done|lia]].
  assert (0 <= pad_bytes h <= 1) by (unfold pad_bytes; destruct (isPadded h); lia).
  rewrite wrap64_small by lia.
  destruct (Z.ltb_spec (blen d - pad_bytes h) 4); [left; split; [done|lia]|].
  destruct (@rd32_in Http2ErrorCode d (pad_bytes h)) as (psid & Hpsid & ->); [lia..|].
  cbn [obind].
  destruct (parse_block_spec h pad d (pad_bytes h + 4)) as [(Hb & s & Hs & ->)|(Hb & ->)];
    [lia|done| |]; cbn [obind].
  - simpl. unfold pad_size. rewrite Hs. pose proof (land31_range psid).
    unfold pad_bytes in *. split_and!; try done; destruct (isPadded h); lia.
  - right. split_and!; [done|lia|lia].
Qed.

Lemma parse_settings_total n i :
  0 <= i -> i + 6 * Z.of_nat n <= blen d ->
  exists l, length l = n /\ Forall wf_setting l /\ parse_settings n d i = Value l.
Proof using Hd.
  revert i. induction n as [|n IH]; intros i Hi Hn; cbn [parse_settings].
  { exists []. split_and!; [done|constructor|done]. }
  destruct (@rd_in Http2ErrorCode d i) as (b0 & ->); [lia|].
  destruct (@rd_in Http2ErrorCode d (i + 1)) as (b1 & ->); [lia|]. cbn [obind].
  destruct (@rd32_in Http2ErrorCode d (i + 2)) as (v & Hv & ->); [lia..|]. cbn [obind].
  destruct (IH (i + 6)) as (l & <- & Hl & ->); [lia..|]. cbn [obind].
  eexists. split_and!; [| |done]; [done|]. constructor; [|done].
  split; [done|]. simpl. by apply wf_setting_of_u16, get_be16_range.
Qed.

Lemma post_settings :
  fh_type h = Settings -> parse_post h d (parse_SettingsFrame h [] d).
Proof using Hd.
  intros Ht. unfold parse_SettingsFrame, parse_post, size_ok, content_ok. rewrite Ht.
  pose proof (blen_nonneg d). destruct (isAck h) eqn:Ha.
  - destruct (Z.eqb_spec (blen d) 0) as [E|E]; cbn [negb]; [|by left].
    simpl. rewrite Ha. split_and!; done.
  - destruct (Z.eqb_spec (blen d mod 6) 0) as [E|E]; cbn [negb]; [|by left].
    assert (0 <= blen d / 6) by (apply Z.div_pos; lia).
    pose proof (Z.div_mod (blen d) 6).
    destruct (parse_settings_total (Z.to_nat (blen d / 6)) 0) as (l & Hl & Hwf & ->); [lia..|].
    cbn [obind]. simpl. rewrite Ha. unfold blen at 1. rewrite Hl.
    split_and!; try done. lia.
Qed.

Lemma post_priority :
  fh_type h = Priority -> parse_post h d (parse_PriorityFrame h d).
Proof using Hd.
  intros Ht. unfold parse_PriorityFrame, parse_post, size_ok, content_ok. rewrite Ht.
  destruct (Z.eqb_spec (blen d) 5) as [E|E]; cbn [negb]; [|by left].
  destruct (@rd32_in Http2ErrorCode d 0) as (dep & Hdep & ->); [lia..|]. cbn [obind].
  destruct (@rd_in Http2ErrorCode d 4) as (w & ->); [lia|]. cbn [obind]. simpl.
  pose proof (land31_range dep). split_and!; try done; lia.
Qed.

Lemma post_rst : fh_type h = RstStream -> parse_post h d (parse_RstStreamFrame h d).
Proof using Hd.
  intros Ht. unfold parse_RstStreamFrame, parse_post, size_ok, content_ok. rewrite Ht.
  destruct (Z.eqb_spec (blen d) 4) as [E|E]; cbn [negb]; [|by left].
  destruct (@rd32_in Http2ErrorCode d 0) as (c & Hc & ->); [lia..|]. cbn [obind]. simpl.
  split_and!; try done; try lia. by apply wf_error_of_u32.
Qed.

Lemma post_ping : fh_type h = Ping -> parse_post h d (parse_PingFrame h d).
Proof using Hd.
  intros Ht. unfold parse_PingFrame, parse_post, size_ok, content_ok. rewrite Ht.
  destruct (Z.eqb_spec (blen d) 8) as [E|E]; cbn [negb]; [|by left].
  destruct (@slice_in_len Http2ErrorCode d 0 8) as (s & Hs & ->); [lia..|]. cbn [obind].
  simpl. split_and!; done.
Qed.

Lemma post_goaway : fh_type h = GoAway -> parse_post h d (parse_GoAwayFrame h [] d).
Proof using Hd.
  intros Ht. unfold parse_GoAwayFrame, parse_post, size_ok, content_ok. rewrite Ht.
  destruct (Z.ltb_spec (blen d) 8); [left; split; [done|lia]|].
  destruct (@rd32_in Http2ErrorCode d 0) as (l & Hl & ->); [lia..|]. cbn [obind].
  destruct (@rd32_in Http2ErrorCode d 4) as (c & Hc & ->); [lia..|]. cbn [obind].
  pose proof (land31_range l). pose proof (wf_error_of_u32 c Hc).
  destruct (Z.ltb_spec 8 (blen d)).
  - destruct (@slice_in_len Http2ErrorCode d 8 (blen d - 8)) as (s & Hs & ->); [lia..|].
    cbn [obind]. simpl. rewrite Hs. split_and!; try done; lia.
  - cbn [obind]. simpl. rewrite blen_nil. split_and!; try done; lia.
Qed.

Lemma post_window_update :
  fh_type h = WindowUpdate -> parse_post h d (parse_WindowUpdateFrame h d).
Proof using Hd.
  intros Ht. unfold parse_WindowUpdateFrame, parse_post, size_ok, content_ok. rewrite Ht.
  destruct (Z.eqb_spec (blen d) 4) as [E|E]; cbn [negb]; [|by left].
  destruct d as [|b0 [|b1 [|b2 [|b3 [|b4 d']]]]];
    try (exfalso; unfold blen in E; simpl in E; lia).
  unfold rd32. rd_eval. pose proof (land31_range (get_be32 b0 b1 b2 b3)).
  destruct (Z.eqb_spec (Z.land (get_be32 b0 b1 b2 b3) 0x7FFFFFFF) 0) as [E0|E0].
  - right. split_and!; [done|done|]. intros Hne. by apply Hne.
  - cbn [header class_type payload_size wf_members]. split_and!; try done; lia.
Qed.

Lemma post_continuation :
  fh_type h = Continuation -> parse_post h d (parse_ContinuationFrame h d).
Proof using Hd.
  intros Ht. unfold parse_ContinuationFrame, parse_post, size_ok, content_ok. rewrite Ht.
  pose proof (blen_nonneg d).
  destruct (@slice_in_len Http2ErrorCode d 0 (blen d)) as (s & Hs & ->); [lia..|].
  cbn [obind]. simpl. split_and!; done.
Qed.

Lemma parsePayload_post fr :
  createFrame (fh_type h) = Some fr -> parse_post h d (parsePayload (set_header fr h) d).
Proof using Hd.
  destruct (fh_type h) eqn:Ht; cbn [createFrame]; intros Hc; simplify_eq;
    cbn [set_header parsePayload];
    auto using post_data, post_headers, post_priority, post_rst, post_settings,
      post_push_promise, post_ping, post_goaway, post_window_update, post_continuation.
Qed.
End Post.

(** ** The parser's guarantees *)

(** The header a buffer starts with, and the payload that follows it. *)
Lemma deserialize_total {E} data :
  9 <= blen data ->
  exists h, @deserialize_header E data = Value h /\
    0 <= fh_length h < 2 ^ 24 /\ 0 <= fh_stream_id h < 2 ^ 31.
Proof.
  intros Hl. unfold deserialize_header.
  destruct (@rd_in E data 0) as [b0 ->]; [lia|]. destruct (@rd_in E data 1) as [b1 ->]; [lia|].
  destruct (@rd_in E data 2) as [b2 ->]; [lia|]. destruct (@rd_in E data 3) as [b3 ->]; [lia|].
  destruct (@rd_in E data 4) as [b4 ->]; [lia|]. destruct (@rd_in E data 5) as [b5 ->]; [lia|].
  destruct (@rd_in E data 6) as [b6 ->]; [lia|]. destruct (@rd_in E data 7) as [b7 ->]; [lia|].
  destruct (@rd_in E data 8) as [b8 ->]; [lia|]. cbn [obind].
  eexists. split; [done|]. simpl. auto using get_be24_range, land31_range.
Qed.

(** Case analysis of [decode]: too short, incomplete, of unknown type, or one payload parse. *)
Lemma decode_cases data :
  (blen data < 9 /\ decode data = Unexpected FrameSizeError) \/
  (exists h, 9 <= blen data /\ @deserialize_header Http2ErrorCode data = Value h /\
     0 <= fh_length h < 2 ^ 24 /\ 0 <= fh_stream_id h < 2 ^ 31 /\
     ((blen data < 9 + fh_length h /\ decode data = Unexpected FrameSizeError) \/
      (9 + fh_length h <= blen data /\ createFrame (fh_type h) = None /\
       decode data = Unexpected ProtocolError) \/
      (exists d, blen d = fh_length h /\ @slice Http2ErrorCode data 9 (fh_length h) = Value d /\
         parse_post h d (decode data)))).
Proof.
  unfold decode, kHttp2FrameHeaderLength.
  destruct (Z.ltb_spec (blen data) 9); [by left|right].
  destruct (@deserialize_total Http2ErrorCode data) as (h & -> & Hl & Hs); [done|].
  cbn [obind]. exists h. split_and!; [done|done|lia|lia|lia|lia|].
  destruct (Z.ltb_spec (blen data) (9 + fh_length h)); [by left|right].
  destruct (createFrame (fh_type h)) as [fr|] eqn:Hc; [right|by left].
  destruct (@slice_in_len Http2ErrorCode data 9 (fh_length h)) as (d & Hd & ->); [lia..|].
  cbn [obind]. exists d. split_and!; [done|done|].
  apply parsePayload_post; [lia|done].
Qed.

(** decoding never reads outside the buffer it is given, whatever the bytes. *)
Theorem decode_memory_safe data : safe (decode data).
Proof.
  unfold safe. destruct (decode_cases data)
    as [[_ ->]|(h & _ & _ & _ & _ & [[_ ->]|[(_ & _ & ->)|(d & _ & _ & Hp)]])]; try done.
  by destruct (decode data).
Qed.

Lemma decode_value_wf data f : decode data = Value f -> wf_frame f.
Proof.
  intros Hf. destruct (decode_cases data)
    as [[_ E]|(h & _ & _ & Hl & Hs & [[_ E]|[(_ & _ & E)|(d & Hd & _ & Hp)]])]; try congruence.
  rewrite Hf in Hp. destruct Hp as (Hh & Ht & Hp & Hm & _).
  split; unfold streamId; rewrite ?Hh; try done; lia.
Qed.

(** C27: every frame the decoder accepts is well formed: its header agrees with its class and with
    the size of its members, stream identifiers and dependencies have 31 bits, members whose flag
    is clear have their initial value, a PING has eight octets and a window increment is
    positive. *)
Theorem decode_wf data f : decode data = Value f -> wf_frame f.
Proof. apply decode_value_wf. Qed.

Lemma decode_wf_witness : wf_frame (WindowUpdateFrame (mkHeader 4 5 WindowUpdate (z2b 0)) 10).
Proof.
  apply (decode_wf (put_be24 4 ++ [z2b 8; z2b 0] ++ put_be32 5 ++ put_be32 10)).
  vm_compute. reflexivity.
Defined.

(** C26: which buffers are rejected, and with which error: a complete frame of a known type is
    rejected with FRAME_SIZE_ERROR exactly when its size breaks the rule of its type, and with
    PROTOCOL_ERROR exactly when the size is right but the padding does not fit or a window
    increment is zero. *)
Theorem decode_rejects data h d fr :
  @deserialize_header Http2ErrorCode data = Value h ->
  @slice Http2ErrorCode data 9 (fh_length h) = Value d ->
  createFrame (fh_type h) = Some fr ->
  (decode data = Unexpected FrameSizeError <-> ~ size_ok h (blen d)) /\
  (decode data = Unexpected ProtocolError <-> size_ok h (blen d) /\ ~ content_ok h d) /\
  ((exists f, decode data = Value f) <-> size_ok h (blen d) /\ content_ok h d).
Proof.
  intros Hh Hsl Hc.
  assert (parse_post h d (decode data)) as Hpost.
  { destruct (decode_cases data)
      as [[Hlt E]|(h' & H9 & Hh' & Hl & Hs & [[Hlt E]|[(_ & Hn & E)|(d' & Hd & Hsl' & Hp)]])].
    - exfalso. unfold slice in Hsl. case_match eqn:Hb; [|done].
      unfold deserialize_header, rd in Hh.
      destruct (nth_error data (Z.to_nat 8)) eqn:H8.
      + assert (Z.to_nat 8 < length data)%nat by (apply nth_error_Some; congruence).
        unfold blen in *. lia.
      + by repeat (case_match; simpl in Hh; try done).
    - exfalso. rewrite Hh in Hh'. simplify_eq. unfold slice in Hsl.
      case_match eqn:Hb; [|done]. rewrite !andb_true_iff, !Z.leb_le in Hb. lia.
    - exfalso. congruence.
    - congruence. }
  destruct (decode data) as [f|e|]; simpl in Hpost; [| |done].
  - destruct Hpost as (_ & _ & _ & _ & Hs & Hcont).
    split_and!; split; try done; try tauto. intros _. by exists f.
  - destruct Hpost as [[-> Hs]|(-> & Hs & Hcont)]; split_and!; split; try done; try tauto.
    all: intros [? ?]; congruence.
Qed.

Lemma decode_rejects_witness :
  decode (put_be24 4 ++ [z2b 8; z2b 0] ++ put_be32 5 ++ put_be32 0) = Unexpected ProtocolError.
Proof.
  eapply (decode_rejects _ (mkHeader 4 5 WindowUpdate (z2b 0)) (put_be32 0)
           (WindowUpdateFrame (fresh_header WindowUpdate) 0)); [reflexivity..|].
  split; [reflexivity|]. intros H. by apply H.
Defined.

(** a proxy that decodes a frame and encodes it again sends bytes that decode to the frame it
    received, up to the stream identifier 0 of SETTINGS, PING and GOAWAY. *)
Theorem decode_encode_decode data f rest :
  decode data = Value f -> decode (encode f ++ rest) = Value (canon f).
Proof. intros Hf. apply codec_roundtrip. by eapply decode_value_wf. Qed.

Lemma decode_encode_decode_witness :
  let f := DataFrame (mkHeader 5 1 Data (z2b 9)) (bs "hi") (z2b 2) in
  decode (encode f ++ []) = Value f.
Proof.
  apply (decode_encode_decode
           (put_be24 5 ++ [z2b 0; z2b 9] ++ put_be32 1 ++ z2b 2 :: bs "hi" ++ bs "??")).
  vm_compute. reflexivity.
Defined.
