(* ===== verification/Http2FlowControl.v ===== *)
(** * HTTP/2 send-side flow control

    [galay-http2/kernel/flow_control.{h,cc}]: the windows of a connection and of its streams, the
    operations of [H2FlowController], and the credit ledger they implement. *)

From Stdlib Require Import ZArith Lia.
From stdpp Require Import base list gmap.
From S2P Require Import Prelude Http2Base.

Open Scope Z_scope.

Definition kH2MaxFlowControlWindow : Z := 0x7fffffff.

Inductive H2FlowControlError : Type := WindowOverflow | UnknownStream | InsufficientWindow.

#[export] Instance H2FlowControlError_eq_dec : EqDecision H2FlowControlError.
Proof. solve_decision. Defined.

(** ** The controller *)

Record H2SendWindow : Type := mkSendWindow {
  conn_window : Z;
  initial_stream_window : Z;
  stream_windows : gmap Z Z
}.

Definition initial_send_window : H2SendWindow :=
  mkSendWindow kDefaultInitialWindowSize kDefaultInitialWindowSize ∅.

(** [std::expected<void, H2FlowControlError>]: [None] is success. *)
Definition status : Type := option H2FlowControlError.

Definition wouldExceedMaxWindow (current increment : Z) : bool :=
  kH2MaxFlowControlWindow - increment <? current.

Definition ensureStream (sid : Z) (w : H2SendWindow) : status * H2SendWindow :=
  (None,
   match stream_windows w !! sid with
   | Some _ => w
   | None => mkSendWindow (conn_window w) (initial_stream_window w)
               (<[sid := initial_stream_window w]> (stream_windows w))
   end).

Definition applyConnectionWindowUpdate (inc : Z) (w : H2SendWindow) : status * H2SendWindow :=
  if wouldExceedMaxWindow (conn_window w) inc then (Some WindowOverflow, w)
  else (None, mkSendWindow (conn_window w + inc) (initial_stream_window w) (stream_windows w)).

Definition applyStreamWindowUpdate (sid inc : Z) (w : H2SendWindow) : status * H2SendWindow :=
  match stream_windows w !! sid with
  | None => (Some UnknownStream, w)
  | Some window =>
      if wouldExceedMaxWindow window inc then (Some WindowOverflow, w)
      else (None, mkSendWindow (conn_window w) (initial_stream_window w)
                    (<[sid := window + inc]> (stream_windows w)))
  end.

Definition applyInitialStreamWindowSize (new_size : Z) (w : H2SendWindow) :
    status * H2SendWindow :=
  if kH2MaxFlowControlWindow <? new_size then (Some WindowOverflow, w)
  else
    let delta := new_size - initial_stream_window w in
    if decide (map_Forall (fun _ window => window + delta <= kH2MaxFlowControlWindow)
                 (stream_windows w))
    then (None, mkSendWindow (conn_window w) new_size
                  ((fun window => window + delta) <$> stream_windows w))
    else (Some WindowOverflow, w).

Definition availableToSend (sid requested max_frame_size : Z) (w : H2SendWindow) : Z :=
  match stream_windows w !! sid with
  | None => 0
  | Some window =>
      if (conn_window w <=? 0) || (window <=? 0) || (requested =? 0) || (max_frame_size =? 0)
      then 0
      else Z.min requested (Z.min max_frame_size (Z.min (conn_window w) window))
  end.

Definition consumeSendWindow (sid n : Z) (w : H2SendWindow) : status * H2SendWindow :=
  match stream_windows w !! sid with
  | None => (Some UnknownStream, w)
  | Some window =>
      if (Z.max 0 (conn_window w) <? n) || (Z.max 0 window <? n)
      then (Some InsufficientWindow, w)
      else (None, mkSendWindow (conn_window w - n) (initial_stream_window w)
                    (<[sid := window - n]> (stream_windows w)))
  end.

(** The calls a connection makes on its controller; arguments are [uint32_t] or [size_t]. *)
Inductive fc_op : Type :=
| EnsureStream (sid : Z)
| ConnectionUpdate (inc : Z)
| StreamUpdate (sid inc : Z)
| InitialSize (new_size : Z)
| Consume (sid n : Z).

Definition wf_op (op : fc_op) : Prop :=
  match op with
  | EnsureStream _ => True
  | ConnectionUpdate inc | StreamUpdate _ inc => 0 <= inc < 2 ^ 32
  | InitialSize n => 0 <= n < 2 ^ 32
  | Consume _ n => 0 <= n < 2 ^ 64
  end.

Definition run_op (op : fc_op) : H2SendWindow -> status * H2SendWindow :=
  match op with
  | EnsureStream sid => ensureStream sid
  | ConnectionUpdate inc => applyConnectionWindowUpdate inc
  | StreamUpdate sid inc => applyStreamWindowUpdate sid inc
  | InitialSize n => applyInitialStreamWindowSize n
  | Consume sid n => consumeSendWindow sid n
  end.

Fixpoint run_ops (ops : list fc_op) (w : H2SendWindow) : list status * H2SendWindow :=
  match ops with
  | [] => ([], w)
  | op :: ops =>
      let '(s, w') := run_op op w in
      let '(ss, w'') := run_ops ops w' in
      (s :: ss, w'')
  end.

(** ** The abstract ledger

    What flow control promises, with no windows: for the connection and for each stream, the
    octets of credit granted by WINDOW_UPDATE and the octets sent.  A change of
    SETTINGS_INITIAL_WINDOW_SIZE is one assignment here; the controller has to shift every stream
    window to achieve it. *)

Record ledger : Type := mkLedger {
  l_init : Z;
  l_granted : Z;
  l_sent : Z;
  l_streams : gmap Z (Z * Z)
}.

Definition ledger0 : ledger := mkLedger kDefaultInitialWindowSize 0 0 ∅.

Definition conn_credit (l : ledger) : Z := kDefaultInitialWindowSize + l_granted l - l_sent l.
Definition stream_credit (init : Z) (gs : Z * Z) : Z := init + gs.1 - gs.2.

Definition ledger_op (op : fc_op) (l : ledger) : status * ledger :=
  match op with
  | EnsureStream sid =>
      (None, match l_streams l !! sid with
             | Some _ => l
             | None => mkLedger (l_init l) (l_granted l) (l_sent l)
                         (<[sid := (0, 0)]> (l_streams l))
             end)
  | ConnectionUpdate inc =>
      if decide (conn_credit l + inc <= kH2MaxFlowControlWindow)
      then (None, mkLedger (l_init l) (l_granted l + inc) (l_sent l) (l_streams l))
      else (Some WindowOverflow, l)
  | StreamUpdate sid inc =>
      match l_streams l !! sid with
      | None => (Some UnknownStream, l)
      | Some (g, s) =>
          if decide (stream_credit (l_init l) (g, s) + inc <= kH2MaxFlowControlWindow)
          then (None, mkLedger (l_init l) (l_granted l) (l_sent l)
                        (<[sid := (g + inc, s)]> (l_streams l)))
          else (Some WindowOverflow, l)
      end
  | InitialSize n =>
      if decide (n <= kH2MaxFlowControlWindow /\
                 map_Forall (fun _ gs => stream_credit n gs <= kH2MaxFlowControlWindow)
                   (l_streams l))
      then (None, mkLedger n (l_granted l) (l_sent l) (l_streams l))
      else (Some WindowOverflow, l)
  | Consume sid n =>
      match l_streams l !! sid with
      | None => (Some UnknownStream, l)
      | Some (g, s) =>
          if decide (n = 0 \/ (n <= conn_credit l /\ n <= stream_credit (l_init l) (g, s)))
          then (None, mkLedger (l_init l) (l_granted l) (l_sent l + n)
                        (<[sid := (g, s + n)]> (l_streams l)))
          else (Some InsufficientWindow, l)
      end
  end.

Fixpoint ledger_ops (ops : list fc_op) (l : ledger) : list status * ledger :=
  match ops with
  | [] => ([], l)
  | op :: ops =>
      let '(s, l') := ledger_op op l in
      let '(ss, l'') := ledger_ops ops l' in
      (s :: ss, l'')
  end.

(** The windows a ledger stands for. *)
Definition windows_of (l : ledger) : H2SendWindow :=
  mkSendWindow (conn_credit l) (l_init l) (stream_credit (l_init l) <$> l_streams l).

(** ** Refinement *)

Lemma refine_op op l :
  wf_op op -> run_op op (windows_of l) = (let '(s, l') := ledger_op op l in (s, windows_of l')).
Proof.
  intros Hwf. destruct op as [sid|inc|sid inc|n|sid n]; simpl in *.
  - unfold ensureStream, windows_of; simpl. rewrite lookup_fmap.
    destruct (l_streams l !! sid) as [gs|] eqn:E; [done|]. simpl.
    rewrite fmap_insert. unfold stream_credit at 2. simpl. do 3 f_equal. lia.
  - unfold applyConnectionWindowUpdate, wouldExceedMaxWindow; simpl.
    destruct (Z.ltb_spec (kH2MaxFlowControlWindow - inc) (conn_credit l));
      case_decide; try lia; [done|]. unfold windows_of, conn_credit; simpl. do 2 f_equal. lia.
  - unfold applyStreamWindowUpdate, wouldExceedMaxWindow; simpl. rewrite lookup_fmap.
    destruct (l_streams l !! sid) as [[g s]|] eqn:E; [|done]. simpl.
    destruct (Z.ltb_spec (kH2MaxFlowControlWindow - inc) (stream_credit (l_init l) (g, s)));
      case_decide; try lia; [done|].
    unfold windows_of; simpl. rewrite fmap_insert. unfold conn_credit, stream_credit; simpl.
    do 3 f_equal. lia.
  - unfold applyInitialStreamWindowSize; simpl.
    assert (forall (g s : Z), stream_credit (l_init l) (g, s) + (n - l_init l) = stream_credit n (g, s))
      as Hshift by (intros; unfold stream_credit; simpl; lia).
    destruct (Z.ltb_spec kH2MaxFlowControlWindow n); [case_decide; [lia|done]|].
    case_decide as H1; case_decide as H2; [| | |done].
    + unfold windows_of; simpl. do 2 f_equal. rewrite <- map_fmap_compose.
      apply map_fmap_ext. intros i [g s] _. simpl. apply Hshift.
    + exfalso. apply H2. split; [done|]. intros i [g s] Hi. rewrite <- Hshift.
      apply (H1 i). by rewrite lookup_fmap, Hi.
    + exfalso. apply H1. intros i w Hw. rewrite lookup_fmap in Hw.
      destruct (l_streams l !! i) as [[g s]|] eqn:Hi; [|done]. simplify_eq/=. rewrite Hshift.
      by apply (proj2 H2 i).
  - unfold consumeSendWindow; simpl. rewrite lookup_fmap.
    destruct (l_streams l !! sid) as [[g s]|] eqn:E; [|done]. simpl.
    destruct (Z.ltb_spec (Z.max 0 (conn_credit l)) n); simpl; [case_decide; [lia|done]|].
    destruct (Z.ltb_spec (Z.max 0 (stream_credit (l_init l) (g, s))) n);
      [case_decide; [lia|done]|].
    case_decide; [|lia]. unfold windows_of; simpl. rewrite fmap_insert.
    unfold conn_credit, stream_credit; simpl. do 2 f_equal; [lia|f_equal; lia].
Qed.

(** C24: the controller implements the credit ledger: on any sequence of calls it returns the same
    results, and its windows are always the initial window plus the credit granted minus the
    octets sent, for the connection and for every stream. *)
Theorem controller_refines_ledger ops :
  Forall wf_op ops ->
  run_ops ops initial_send_window =
  (let '(ss, l) := ledger_ops ops ledger0 in (ss, windows_of l)).
Proof.
  intros Hwf. change initial_send_window with (windows_of ledger0).
  generalize ledger0. induction Hwf as [|op ops Hop _ IH]; intros l; [done|].
  cbn [run_ops ledger_ops]. rewrite refine_op by done.
  destruct (ledger_op op l) as [s l']. rewrite IH. by destruct (ledger_ops ops l').
Qed.

Lemma controller_refines_ledger_witness :
  run_ops [EnsureStream 1; Consume 1 100; InitialSize 50; StreamUpdate 1 7] initial_send_window =
  ([None; None; None; None], mkSendWindow 65435 50 (<[1 := -43]> ∅)).
Proof.
  rewrite controller_refines_ledger; [vm_compute; reflexivity|].
  repeat constructor; simpl; lia.
Defined.

(** ** Bounds *)

(** Every window fits in 32 bits, signed, so the [int64_t] arithmetic of the controller never
    overflows and [static_cast<size_t>] of a positive window is exact. *)
Definition window_bounds (w : H2SendWindow) : Prop :=
  0 <= conn_window w <= kH2MaxFlowControlWindow /\
  0 <= initial_stream_window w <= kH2MaxFlowControlWindow /\
  map_Forall (fun _ window => - kH2MaxFlowControlWindow <= window - initial_stream_window w /\
                              window <= kH2MaxFlowControlWindow) (stream_windows w).

Lemma run_op_bounds op w : wf_op op -> window_bounds w -> window_bounds (run_op op w).2.
Proof.
  intros Hop (Hc & Hi & Hs). destruct op as [sid|inc|sid inc|n|sid n]; simpl in *.
  - unfold ensureStream. destruct (stream_windows w !! sid) eqn:E; simpl; [by split|].
    split_and!; simpl; try lia. apply map_Forall_insert_2; [lia|done].
  - unfold applyConnectionWindowUpdate, wouldExceedMaxWindow.
    destruct (Z.ltb_spec (kH2MaxFlowControlWindow - inc) (conn_window w)); simpl; [by split|].
    split_and!; simpl; try lia. done.
  - unfold applyStreamWindowUpdate, wouldExceedMaxWindow.
    destruct (stream_windows w !! sid) as [x|] eqn:E; simpl; [|by split].
    destruct (Z.ltb_spec (kH2MaxFlowControlWindow - inc) x); simpl; [by split|].
    pose proof (Hs _ _ E) as Hx; simpl in Hx.
    split_and!; simpl; try lia. apply map_Forall_insert_2; [lia|done].
  - unfold applyInitialStreamWindowSize.
    destruct (Z.ltb_spec kH2MaxFlowControlWindow n); simpl; [by split|].
    case_decide as Hd; simpl; [|by split].
    split_and!; simpl; try lia. apply map_Forall_fmap. intros i x Hx. simpl.
    pose proof (Hd _ _ Hx) as Hd'. pose proof (Hs _ _ Hx) as Hs'. simpl in *. lia.
  - unfold consumeSendWindow. destruct (stream_windows w !! sid) as [x|] eqn:E; simpl; [|by split].
    destruct (Z.ltb_spec (Z.max 0 (conn_window w)) n); simpl; [by split|].
    destruct (Z.ltb_spec (Z.max 0 x) n); simpl; [by split|].
    pose proof (Hs _ _ E) as Hx; simpl in Hx.
    split_and!; simpl; try lia. apply map_Forall_insert_2; [lia|done].
Qed.

(** C28: after any sequence of calls, whatever their outcomes, the connection window is within
    [0, 2^31-1] and every stream window within [-(2^31-1), 2^31-1]: SETTINGS changes may drive a
    stream window negative, but never past one maximum window. *)
Theorem windows_bounded ops :
  Forall wf_op ops ->
  let w := (run_ops ops initial_send_window).2 in
  0 <= conn_window w <= kH2MaxFlowControlWindow /\
  map_Forall (fun _ window => - kH2MaxFlowControlWindow <= window <= kH2MaxFlowControlWindow)
    (stream_windows w).
Proof.
  intros Hwf.
  assert (forall w, window_bounds w -> window_bounds (run_ops ops w).2) as Hall.
  { induction Hwf as [|op ops Hop _ IH]; intros w Hw; [done|]. cbn [run_ops].
    pose proof (run_op_bounds op w Hop Hw) as Hw'. destruct (run_op op w) as [s w'].
    specialize (IH w' Hw'). by destruct (run_ops ops w'). }
  destruct (Hall initial_send_window) as (Hc & Hi & Hs).
  { split_and!; simpl; [done..|]. apply map_Forall_empty. }
  split; [done|]. intros i x Hx. pose proof (Hs i x Hx) as Hb. simpl in Hb. lia.
Qed.

Lemma windows_bounded_witness :
  let ops := [EnsureStream 3; Consume 3 65535; InitialSize 0] in
  map_Forall (fun _ window => - kH2MaxFlowControlWindow <= window <= kH2MaxFlowControlWindow)
    (stream_windows (run_ops ops initial_send_window).2).
Proof. apply windows_bounded. repeat constructor; simpl; lia. Defined.

(** [availableToSend] and [consumeSendWindow] agree: the number of octets the first offers is
    always accepted by the second, and is the largest number within the request and the frame size
    that the second accepts. *)
Theorem available_is_maximal_consumable sid requested max_frame w :
  0 <= requested -> 0 <= max_frame ->
  let n := availableToSend sid requested max_frame w in
  0 <= n <= requested /\ n <= max_frame /\
  (is_Some (stream_windows w !! sid) -> (consumeSendWindow sid n w).1 = None) /\
  (forall m, n < m -> m <= requested -> m <= max_frame ->
     (consumeSendWindow sid m w).1 <> None).
Proof.
  intros Hr Hm n. subst n. unfold availableToSend, consumeSendWindow.
  destruct (stream_windows w !! sid) as [x|] eqn:E; [|split_and!; [lia..|by intros [? ?]|done]].
  destruct (Z.leb_spec (conn_window w) 0); simpl.
  { split_and!; [lia..| |].
    - intros _. destruct (Z.ltb_spec (Z.max 0 (conn_window w)) 0); [lia|].
      destruct (Z.ltb_spec (Z.max 0 x) 0); [lia|done].
    - intros m ???. destruct (Z.ltb_spec (Z.max 0 (conn_window w)) m); [done|lia]. }
  destruct (Z.leb_spec x 0); simpl.
  { split_and!; [lia..| |].
    - intros _. destruct (Z.ltb_spec (Z.max 0 (conn_window w)) 0); [lia|].
      destruct (Z.ltb_spec (Z.max 0 x) 0); [lia|done].
    - intros m ???. destruct (Z.ltb_spec (Z.max 0 (conn_window w)) m); [done|].
      destruct (Z.ltb_spec (Z.max 0 x) m); [done|lia]. }
  set (n := if (requested =? 0) || (max_frame =? 0) then 0
            else Z.min requested (Z.min max_frame (Z.min (conn_window w) x))).
  assert (n = Z.min requested (Z.min max_frame (Z.min (conn_window w) x))) as Hn.
  { unfold n. destruct (Z.eqb_spec requested 0); simpl; [lia|].
    destruct (Z.eqb_spec max_frame 0); lia. }
  clearbody n. split_and!; [lia..| |].
  - intros _. destruct (Z.ltb_spec (Z.max 0 (conn_window w)) n); [lia|].
    destruct (Z.ltb_spec (Z.max 0 x) n); [lia|done].
  - intros m ???. destruct (Z.ltb_spec (Z.max 0 (conn_window w)) m); [done|].
    destruct (Z.ltb_spec (Z.max 0 x) m); [done|lia].
Qed.

Lemma available_is_maximal_consumable_witness :
  (consumeSendWindow 1 4000 (mkSendWindow 9000 65535 {[1 := 4000]})).1 = None.
Proof.
  destruct (available_is_maximal_consumable 1 8000 16384 (mkSendWindow 9000 65535 {[1 := 4000]}))
    as (_ & _ & Haccepted & _); [lia|lia|].
  apply Haccepted. vm_compute. eauto.
Defined.
