(* ===== verification/Http2Dispatcher.v ===== *)
(** * HTTP/2 frame dispatcher

    [galay-http2/kernel/frame_dispacher.{h,cc}]: the connection-level protocol state, the decision
    taken on each inbound frame, and the receive life cycle it implements for every stream. *)

From Stdlib Require Import ZArith Lia.
From stdpp Require Import base list gmap.
From S2P Require Import Prelude Http2Base Http2Frame.

Open Scope Z_scope.

(** ** Data *)

Inductive H2DispatchActionType : Type :=
| DeliverToStream | SendGoaway | SendRstStream | AckSettings | AckPing | UpdateWindow | Ignore.

Inductive H2DispatchErrorScope : Type := ScopeNone | ScopeConnection | ScopeStream.

Record H2DispatchAction : Type := mkAction {
  act_type : H2DispatchActionType;
  act_stream_id : Z;
  act_error_code : Http2ErrorCode
}.

Record H2DispatchResult : Type := mkResult {
  actions : list H2DispatchAction;
  error_code : Http2ErrorCode;
  error_scope : H2DispatchErrorScope;
  ok : bool
}.

Inductive H2StreamLifecycleState : Type :=
| Idle | ReservedLocal | ReservedRemote | Open | HalfClosedLocal | HalfClosedRemote | Closed.

#[export] Instance lifecycle_eq_dec : EqDecision H2StreamLifecycleState.
Proof. solve_decision. Defined.

Record H2DispatcherConnectionState : Type := mkDispatch {
  streams : gmap Z H2StreamLifecycleState;
  last_peer_stream_id : Z;
  goaway_last_stream_id : Z;
  continuation_stream_id : Z;
  expecting_continuation : bool;
  goaway_received : bool
}.

Definition initial_dispatch : H2DispatcherConnectionState := mkDispatch ∅ 0 0 0 false false.

(** ** Helpers of the anonymous namespace *)

Definition default_result : H2DispatchResult := mkResult [] NoError ScopeNone true.

Definition connectionError (code : Http2ErrorCode) : H2DispatchResult :=
  mkResult [mkAction SendGoaway 0 code] code ScopeConnection false.

Definition streamError (sid : Z) (code : Http2ErrorCode) : H2DispatchResult :=
  mkResult [mkAction SendRstStream sid code] code ScopeStream false.

Definition deliver (sid : Z) : H2DispatchResult :=
  mkResult [mkAction DeliverToStream sid NoError] NoError ScopeNone true.

Definition is_type (t : Http2FrameType) (f : Http2Frame) : bool :=
  bool_decide (fh_type (header f) = t).

Definition requiresNonZeroStream (f : Http2Frame) : bool :=
  is_type Data f || is_type Headers f || is_type Priority f || is_type RstStream f ||
  is_type Continuation f.

Definition requiresZeroStream (f : Http2Frame) : bool :=
  is_type Settings f || is_type Ping f || is_type GoAway f.

Definition isStreamFrame (f : Http2Frame) : bool :=
  requiresNonZeroStream f || is_type PushPromise f.

(** [state.streams.try_emplace(stream_id).first->second] *)
Definition streamState (st : H2DispatcherConnectionState) (sid : Z) : H2StreamLifecycleState :=
  default Idle (streams st !! sid).

Definition isRemoteClosed (s : H2StreamLifecycleState) : bool :=
  match s with HalfClosedRemote | Closed => true | _ => false end.

Definition markRemoteEndStream (s : H2StreamLifecycleState) : H2StreamLifecycleState :=
  match s with
  | Idle | Open => HalfClosedRemote
  | HalfClosedLocal => Closed
  | ReservedLocal | ReservedRemote | HalfClosedRemote | Closed => s
  end.

Definition canReceiveData (s : H2StreamLifecycleState) : bool :=
  match s with Open | HalfClosedLocal => true | _ => false end.

Definition isNewStreamRejectedByGoaway (f : Http2Frame) (st : H2DispatcherConnectionState)
    (sid : Z) : bool :=
  if negb (goaway_received st) || negb (is_type Headers f) then false
  else if sid <=? goaway_last_stream_id st then false
  else match streams st !! sid with Some _ => false | None => true end.

Definition set_stream (st : H2DispatcherConnectionState) (sid : Z) (s : H2StreamLifecycleState) :
    H2DispatcherConnectionState :=
  mkDispatch (<[sid := s]> (streams st)) (last_peer_stream_id st) (goaway_last_stream_id st)
    (continuation_stream_id st) (expecting_continuation st) (goaway_received st).

Definition set_last_peer (st : H2DispatcherConnectionState) (sid : Z) :
    H2DispatcherConnectionState :=
  mkDispatch (streams st) sid (goaway_last_stream_id st) (continuation_stream_id st)
    (expecting_continuation st) (goaway_received st).

Definition set_continuation (st : H2DispatcherConnectionState) (expecting : bool) (sid : Z) :
    H2DispatcherConnectionState :=
  mkDispatch (streams st) (last_peer_stream_id st) (goaway_last_stream_id st) sid expecting
    (goaway_received st).

Definition set_goaway (st : H2DispatcherConnectionState) (last : Z) :
    H2DispatcherConnectionState :=
  mkDispatch (streams st) (last_peer_stream_id st) last (continuation_stream_id st)
    (expecting_continuation st) true.

(** ** Http2FrameDispatcher::dispatch *)

(** The [isHeaders()] branch. *)
Definition dispatch_headers (f : Http2Frame) (sid : Z) (st : H2DispatcherConnectionState) :
    H2DispatchResult * H2DispatcherConnectionState :=
  let stream := streamState st sid in
  if isRemoteClosed stream then (streamError sid ProtocolError, set_stream st sid stream)
  else
    let '(stream, st) :=
      if decide (stream = Idle)
      then (Open, if last_peer_stream_id st <? sid then set_last_peer st sid else st)
      else (stream, st) in
    let stream := if isEndStream (header f) then markRemoteEndStream stream else stream in
    let st := set_stream st sid stream in
    let st := if negb (isEndHeaders (header f)) then set_continuation st true sid
              else set_continuation st false 0 in
    (deliver sid, st).

(** The [isData()] branch. *)
Definition dispatch_data (f : Http2Frame) (sid : Z) (st : H2DispatcherConnectionState) :
    H2DispatchResult * H2DispatcherConnectionState :=
  match streams st !! sid with
  | None => (streamError sid ProtocolError, st)
  | Some stream =>
      if negb (canReceiveData stream) then (streamError sid ProtocolError, st)
      else
        (deliver sid,
         if isEndStream (header f) then set_stream st sid (markRemoteEndStream stream) else st)
  end.

(** The [isContinuation()] branch. *)
Definition dispatch_continuation (f : Http2Frame) (sid : Z) (st : H2DispatcherConnectionState) :
    H2DispatchResult * H2DispatcherConnectionState :=
  if negb (expecting_continuation st) || negb (sid =? continuation_stream_id st)
  then (connectionError ProtocolError, st)
  else (deliver sid, if isEndHeaders (header f) then set_continuation st false 0 else st).

Definition dispatch (f : Http2Frame) (st : H2DispatcherConnectionState) :
    H2DispatchResult * H2DispatcherConnectionState :=
  let sid := streamId f in
  if requiresNonZeroStream f && (sid =? 0) then (connectionError ProtocolError, st)
  else if requiresZeroStream f && negb (sid =? 0) then (connectionError ProtocolError, st)
  else if expecting_continuation st &&
          (negb (is_type Continuation f) || negb (sid =? continuation_stream_id st))
  then (connectionError ProtocolError, st)
  else if isNewStreamRejectedByGoaway f st sid then (streamError sid ProtocolError, st)
  else if is_type Headers f then dispatch_headers f sid st
  else if is_type Data f then dispatch_data f sid st
  else if is_type Continuation f then dispatch_continuation f sid st
  else if is_type RstStream f then (deliver sid, set_stream st sid Closed)
  else if is_type GoAway f then
    (default_result,
     set_goaway st (match f with GoAwayFrame _ last _ _ => last | _ => goaway_last_stream_id st end))
  else if is_type WindowUpdate f then
    if match f with WindowUpdateFrame _ inc => inc =? 0 | _ => false end
    then if sid =? 0 then (connectionError ProtocolError, st)
         else (streamError sid ProtocolError, st)
    else (mkResult [mkAction UpdateWindow sid NoError] NoError ScopeNone true, st)
  else if isStreamFrame f then (deliver sid, st)
  else (default_result, st).

(** ** Facts about one call *)

Lemma set_stream_id_eq st sid s : streams st !! sid = Some s -> set_stream st sid s = st.
Proof. intros H. unfold set_stream. rewrite insert_id by done. by destruct st. Qed.

Lemma streamState_closed st sid :
  isRemoteClosed (streamState st sid) = true -> streams st !! sid = Some (streamState st sid).
Proof. unfold streamState. by destruct (streams st !! sid). Qed.

(** The three outcomes of a call, with the state each leaves. *)
Inductive verdict (f : Http2Frame) (st : H2DispatcherConnectionState) :
    H2DispatchResult * H2DispatcherConnectionState -> Prop :=
| verdict_connection : verdict f st (connectionError ProtocolError, st)
| verdict_stream : verdict f st (streamError (streamId f) ProtocolError, st)
| verdict_ok r st' : ok r = true -> error_scope r = ScopeNone -> verdict f st (r, st').

Lemma dispatch_headers_cases f sid st :
  dispatch_headers f sid st = (streamError sid ProtocolError, st) /\
    isRemoteClosed (streamState st sid) = true \/
  isRemoteClosed (streamState st sid) = false /\
  exists st', dispatch_headers f sid st = (deliver sid, st') /\
    streams st' = <[sid := if isEndStream (header f)
                           then markRemoteEndStream
                                  (if decide (streamState st sid = Idle) then Open
                                   else streamState st sid)
                           else (if decide (streamState st sid = Idle) then Open
                                 else streamState st sid)]> (streams st).
Proof.
  unfold dispatch_headers. destruct (isRemoteClosed (streamState st sid)) eqn:Hr.
  - left. split; [|done]. rewrite set_stream_id_eq; [done|by apply streamState_closed].
  - right. split; [done|]. destruct (decide (streamState st sid = Idle)) as [Hi|Hi].
    + destruct (last_peer_stream_id st <? sid), (isEndHeaders (header f)); simpl;
        eexists; (split; [reflexivity|]); done.
    + destruct (isEndHeaders (header f)); simpl; eexists; (split; [reflexivity|]); done.
Qed.

Lemma dispatch_verdict f st : verdict f st (dispatch f st).
Proof.
  unfold dispatch. set (sid := streamId f).
  destruct (requiresNonZeroStream f && (sid =? 0)); [constructor|].
  destruct (requiresZeroStream f && negb (sid =? 0)); [constructor|].
  destruct (expecting_continuation st &&
            (negb (is_type Continuation f) || negb (sid =? continuation_stream_id st)));
    [constructor|].
  destruct (isNewStreamRejectedByGoaway f st sid); [constructor|].
  destruct (is_type Headers f).
  { destruct (dispatch_headers_cases f sid st) as [[-> _]|(_ & st' & -> & _)]; by constructor. }
  destruct (is_type Data f).
  { unfold dispatch_data. destruct (streams st !! sid) as [s|]; [|constructor].
    destruct (canReceiveData s); simpl; by constructor. }
  destruct (is_type Continuation f).
  { unfold dispatch_continuation. case_match; by constructor. }
  destruct (is_type RstStream f); [by constructor|].
  destruct (is_type GoAway f); [by constructor|].
  destruct (is_type WindowUpdate f).
  { destruct (match f with WindowUpdateFrame _ inc => inc =? 0 | _ => false end);
      [destruct (sid =? 0)|]; by constructor. }
  destruct (isStreamFrame f); by constructor.
Qed.

Lemma dispatch_outcome f st :
  let '(r, st') := dispatch f st in
  (ok r = false ->
     st' = st /\ error_code r = ProtocolError /\
     ((error_scope r = ScopeConnection /\ actions r = [mkAction SendGoaway 0 ProtocolError]) \/
      (error_scope r = ScopeStream /\
       actions r = [mkAction SendRstStream (streamId f) ProtocolError]))) /\
  (ok r = true ->
     error_scope r = ScopeNone /\ error_code r = NoError /\
     Forall (fun a => act_type a <> SendGoaway /\ act_type a <> SendRstStream) (actions r)).
Proof.
  assert (forall r st', dispatch f st = (r, st') -> ok r = true ->
          error_code r = NoError /\
          Forall (fun a => act_type a <> SendGoaway /\ act_type a <> SendRstStream) (actions r))
    as Hok.
  { intros r st'. unfold dispatch, dispatch_headers, dispatch_data, dispatch_continuation.
    intros E Hr. repeat (case_match; simplify_eq/=; try done);
      (split; [done|]; repeat constructor; done). }
  destruct (dispatch f st) as [r st'] eqn:E.
  pose proof (dispatch_verdict f st) as Hv. rewrite E in Hv.
  inversion Hv; subst; simpl; (split; [|try done]).
  - intros _. split_and!; [done|done|by left].
  - intros _. split_and!; [done|done|by right].
  - congruence.
  - intros Hr. destruct (Hok _ _ eq_refl Hr). done.
Qed.

(** error reporting is exact and atomic: a rejected frame leaves the protocol state untouched
    and produces exactly one action - GOAWAY for a connection error, RST_STREAM on the frame's
    stream for a stream error; an accepted frame produces neither. *)
Theorem dispatch_error_atomic f st :
  let '(r, st') := dispatch f st in
  (ok r = false ->
     st' = st /\ error_code r = ProtocolError /\
     ((error_scope r = ScopeConnection /\ actions r = [mkAction SendGoaway 0 ProtocolError]) \/
      (error_scope r = ScopeStream /\
       actions r = [mkAction SendRstStream (streamId f) ProtocolError]))) /\
  (ok r = true ->
     error_scope r = ScopeNone /\ error_code r = NoError /\
     Forall (fun a => act_type a <> SendGoaway /\ act_type a <> SendRstStream) (actions r)).
Proof. apply dispatch_outcome. Qed.

(** ** Histories

    A history is the list of the frames dispatched so far with the results they got, oldest
    first.  The abstract views below are functions of the history alone: they never look at the
    dispatcher's tables. *)

Definition history : Type := list (Http2Frame * H2DispatchResult).

Fixpoint dispatch_all (fs : list Http2Frame) (st : H2DispatcherConnectionState) :
    history * H2DispatcherConnectionState :=
  match fs with
  | [] => ([], st)
  | f :: fs =>
      let '(r, st') := dispatch f st in
      let '(tr, st'') := dispatch_all fs st' in
      ((f, r) :: tr, st'')
  end.

(** What the peer may still send on one stream. *)
Inductive recv_state : Type := Never | Receiving | Finished.

#[export] Instance recv_state_eq_dec : EqDecision recv_state.
Proof. solve_decision. Defined.

Definition recv_event (sid : Z) (s : recv_state) (e : Http2Frame * H2DispatchResult) :
    recv_state :=
  let '(f, r) := e in
  if ok r && (streamId f =? sid) then
    match fh_type (header f) with
    | Headers =>
        match s with
        | Finished => Finished
        | _ => if isEndStream (header f) then Finished else Receiving
        end
    | Data => if isEndStream (header f) then Finished else s
    | RstStream => Finished
    | _ => s
    end
  else s.

Definition recv_of (tr : history) (sid : Z) : recv_state := foldl (recv_event sid) Never tr.

(** The stream whose header block is open, if any. *)
Definition block_event (s : option Z) (e : Http2Frame * H2DispatchResult) : option Z :=
  let '(f, r) := e in
  if ok r then
    match fh_type (header f) with
    | Headers => if isEndHeaders (header f) then None else Some (streamId f)
    | Continuation => if isEndHeaders (header f) then None else s
    | _ => s
    end
  else s.

Definition open_block (tr : history) : option Z := foldl block_event None tr.

(** The last stream the peer's latest GOAWAY promises to process, if one came. *)
Definition goaway_event (s : option Z) (e : Http2Frame * H2DispatchResult) : option Z :=
  let '(f, r) := e in
  if ok r then
    match fh_type (header f) with
    | GoAway => Some (match f with GoAwayFrame _ last _ _ => last | _ => default 0 s end)
    | _ => s
    end
  else s.

Definition goaway_of (tr : history) : option Z := foldl goaway_event None tr.

(** How a table entry is read: entries other than these are never created. *)
Definition entry_view (e : option H2StreamLifecycleState) : option recv_state :=
  match e with
  | None => Some Never
  | Some Open => Some Receiving
  | Some (HalfClosedRemote | Closed) => Some Finished
  | Some _ => None
  end.

Record dispatch_inv (tr : history) (st : H2DispatcherConnectionState) : Prop := {
  inv_recv : forall sid, entry_view (streams st !! sid) = Some (recv_of tr sid);
  inv_block : open_block tr =
    if expecting_continuation st then Some (continuation_stream_id st) else None;
  inv_goaway : goaway_of tr = if goaway_received st then Some (goaway_last_stream_id st) else None;
  inv_no_goaway : goaway_received st = false -> goaway_last_stream_id st = 0
}.

Lemma recv_of_snoc tr e sid : recv_of (tr ++ [e]) sid = recv_event sid (recv_of tr sid) e.
Proof. unfold recv_of. by rewrite foldl_snoc. Qed.

Lemma open_block_snoc tr e : open_block (tr ++ [e]) = block_event (open_block tr) e.
Proof. unfold open_block. by rewrite foldl_snoc. Qed.

Lemma goaway_of_snoc tr e : goaway_of (tr ++ [e]) = goaway_event (goaway_of tr) e.
Proof. unfold goaway_of. by rewrite foldl_snoc. Qed.

Lemma is_type_iff t f : is_type t f = true <-> fh_type (header f) = t.
Proof. unfold is_type. apply bool_decide_eq_true. Qed.

Lemma is_type_at t f : fh_type (header f) = t -> forall t', is_type t' f = bool_decide (t = t').
Proof. intros <- t'. done. Qed.

(** An accepted frame of each type, with its effect on the table. *)
Lemma dispatch_ok_cases f st r st' :
  dispatch f st = (r, st') -> ok r = true ->
  (expecting_continuation st = true ->
     fh_type (header f) = Continuation /\ streamId f = continuation_stream_id st) /\
  match fh_type (header f) with
  | Headers =>
      isRemoteClosed (streamState st (streamId f)) = false /\
      streams st' = <[streamId f := if isEndStream (header f)
                      then markRemoteEndStream
                             (if decide (streamState st (streamId f) = Idle) then Open
                              else streamState st (streamId f))
                      else (if decide (streamState st (streamId f) = Idle) then Open
                            else streamState st (streamId f))]> (streams st) /\
      expecting_continuation st' = negb (isEndHeaders (header f)) /\
      continuation_stream_id st' = (if isEndHeaders (header f) then 0 else streamId f)
  | Data =>
      exists s, streams st !! streamId f = Some s /\ canReceiveData s = true /\
      streams st' = (if isEndStream (header f)
                     then <[streamId f := markRemoteEndStream s]> (streams st)
                     else streams st) /\
      expecting_continuation st' = expecting_continuation st /\
      continuation_stream_id st' = continuation_stream_id st
  | Continuation =>
      expecting_continuation st = true /\ streamId f = continuation_stream_id st /\
      streams st' = streams st /\
      expecting_continuation st' = negb (isEndHeaders (header f)) /\
      (isEndHeaders (header f) = false -> continuation_stream_id st' = continuation_stream_id st)
  | RstStream =>
      streams st' = <[streamId f := Closed]> (streams st) /\
      expecting_continuation st' = expecting_continuation st /\
      continuation_stream_id st' = continuation_stream_id st
  | _ =>
      streams st' = streams st /\
      expecting_continuation st' = expecting_continuation st /\
      continuation_stream_id st' = continuation_stream_id st
  end.
Proof.
  intros E Hok. unfold dispatch in E.
  destruct (requiresNonZeroStream f && (streamId f =? 0)); [by simplify_eq|].
  destruct (requiresZeroStream f && negb (streamId f =? 0)); [by simplify_eq|].
  destruct (expecting_continuation st &&
    (negb (is_type Continuation f) || negb (streamId f =? continuation_stream_id st))) eqn:Hexp;
    [by simplify_eq|].
  destruct (isNewStreamRejectedByGoaway f st (streamId f)); [by simplify_eq|].
  split.
  { intros He. rewrite He in Hexp. simpl in Hexp.
    apply orb_false_iff in Hexp as [H1 H2]. apply negb_false_iff in H1, H2.
    apply is_type_iff in H1. apply Z.eqb_eq in H2. done. }
  clear Hexp. unfold isStreamFrame, requiresNonZeroStream in E.
  destruct (fh_type (header f)) eqn:Ht; rewrite !(is_type_at _ _ Ht) in E; simpl in E;
    try (by simplify_eq).
  - unfold dispatch_data in E. destruct (streams st !! streamId f) as [s|]; [|by simplify_eq].
    exists s. destruct (canReceiveData s); simpl in E; [|by simplify_eq].
    destruct (isEndStream (header f)); simplify_eq/=; done.
  - unfold dispatch_headers in E.
    destruct (isRemoteClosed (streamState st (streamId f))); [by simplify_eq|].
    split; [done|].
    destruct (decide (streamState st (streamId f) = Idle));
      destruct (isEndHeaders (header f)); simpl in E;
      try destruct (last_peer_stream_id st <? streamId f); simplify_eq/=; done.
  - case_match; [destruct (streamId f =? 0)|]; by simplify_eq.
  - unfold dispatch_continuation in E.
    destruct (expecting_continuation st) eqn:He; simpl in E; [|by simplify_eq].
    destruct (Z.eqb_spec (streamId f) (continuation_stream_id st)); simpl in E; [|by simplify_eq].
    destruct (isEndHeaders (header f)); simplify_eq/=; rewrite ?He; done.
Qed.

(** Only GOAWAY frames change what is known of GOAWAY. *)
Lemma dispatch_goaway f st r st' : dispatch f st = (r, st') -> ok r = true ->
  (goaway_received st', goaway_last_stream_id st') =
  if decide (fh_type (header f) = GoAway)
  then (true, match f with GoAwayFrame _ last _ _ => last | _ => goaway_last_stream_id st end)
  else (goaway_received st, goaway_last_stream_id st).
Proof.
  intros E Hok. unfold dispatch in E. repeat match type of E with
    | (if ?b then (connectionError _, _) else _) = _ => destruct b; [by simplify_eq|]
    | (if ?b then (streamError _ _, _) else _) = _ => destruct b; [by simplify_eq|]
    end.
  unfold is_type in E. destruct (fh_type (header f)) eqn:Ht; simpl in E;
    unfold dispatch_headers, dispatch_data, dispatch_continuation in E;
    repeat (case_match; simplify_eq/=; try done).
Qed.

Lemma dispatch_inv_step tr st f :
  dispatch_inv tr st ->
  dispatch_inv (tr ++ [(f, (dispatch f st).1)]) (dispatch f st).2.
Proof.
  intros [Hr Hb Hg Hn]. destruct (dispatch f st) as [r st'] eqn:E. simpl.
  destruct (ok r) eqn:Hok.
  2: { pose proof (dispatch_outcome f st) as Ha. rewrite E in Ha.
       destruct Ha as [Ha _]. destruct (Ha Hok) as [-> _].
       split; [intros sid; rewrite recv_of_snoc|rewrite open_block_snoc|rewrite goaway_of_snoc|done];
         simpl; by rewrite Hok. }
  destruct (dispatch_ok_cases f st r st' E Hok) as [Hexp Hc].
  pose proof (dispatch_goaway f st r st' E Hok) as Hgo. split.
  3: { rewrite goaway_of_snoc, Hg. unfold goaway_event. rewrite Hok.
       destruct (decide (fh_type (header f) = GoAway)) as [Ht|Ht]; injection Hgo as -> ->.
       - rewrite Ht. destruct f; try done; destruct (goaway_received st); try done; by rewrite Hn.
       - by destruct (fh_type (header f)). }
  3: { destruct (decide (fh_type (header f) = GoAway)); injection Hgo as -> ->; done. }
  - intros sid. rewrite recv_of_snoc. simpl. rewrite Hok. specialize (Hr sid).
    destruct (Z.eqb_spec (streamId f) sid) as [<-|Hne]; simpl.
    + unfold streamState, canReceiveData in Hc.
      destruct (fh_type (header f)); split_hyps;
        repeat match goal with H : streams st' = _ |- _ => rewrite H; clear H end;
        rewrite ?lookup_insert_eq; try done.
      * destruct (recv_of tr (streamId f)), (streams st !! streamId f) as [[]|] eqn:Hs;
          simplify_eq/=; destruct (isEndStream (header f)); rewrite ?lookup_insert_eq, ?Hs; done.
      * destruct (recv_of tr (streamId f)), (streams st !! streamId f) as [[]|];
          simplify_eq/=; destruct (isEndStream (header f)); done.
    + destruct (fh_type (header f)); split_hyps;
        repeat match goal with H : streams st' = _ |- _ => rewrite H; clear H end;
        destruct (isEndStream (header f)); rewrite ?lookup_insert_ne by done; done.
  - rewrite open_block_snoc. simpl. rewrite Hok, Hb.
    destruct (fh_type (header f)); split_hyps;
      repeat match goal with H : expecting_continuation st' = _ |- _ => rewrite H end;
      repeat match goal with H : continuation_stream_id st' = _ |- _ => rewrite H end;
      try done.
    + by destruct (isEndHeaders (header f)).
    + destruct (isEndHeaders (header f)) eqn:Heh; simpl; [done|].
      match goal with H : false = false -> _ |- _ => rewrite (H eq_refl) end.
      by match goal with H : expecting_continuation st = true |- _ => rewrite H end.
Qed.

Lemma dispatch_inv_initial : dispatch_inv [] initial_dispatch.
Proof. split; [intros sid; simpl; by rewrite lookup_empty|done..]. Qed.

Lemma dispatch_all_inv fs tr0 st0 :
  dispatch_inv tr0 st0 ->
  let '(tr, st) := dispatch_all fs st0 in dispatch_inv (tr0 ++ tr) st.
Proof.
  revert tr0 st0. induction fs as [|f fs IH]; intros tr0 st0 Hinv; cbn [dispatch_all].
  { by rewrite app_nil_r. }
  pose proof (dispatch_inv_step tr0 st0 f Hinv) as Hstep.
  destruct (dispatch f st0) as [r st1]. specialize (IH _ _ Hstep). simpl in IH.
  destruct (dispatch_all fs st1) as [tr st]. by rewrite <- app_assoc in IH.
Qed.

Lemma reachable_inv fs :
  let '(tr, st) := dispatch_all fs initial_dispatch in dispatch_inv tr st.
Proof. apply (dispatch_all_inv fs [] initial_dispatch), dispatch_inv_initial. Qed.

(** ** The contract *)

Definition refuse_connection : H2DispatchResult :=
  mkResult [mkAction SendGoaway 0 ProtocolError] ProtocolError ScopeConnection false.
Definition refuse_stream (sid : Z) : H2DispatchResult :=
  mkResult [mkAction SendRstStream sid ProtocolError] ProtocolError ScopeStream false.
Definition accept (acts : list H2DispatchAction) : H2DispatchResult := mkResult acts NoError ScopeNone true.
Definition pass_to_stream (sid : Z) : H2DispatchResult := accept [mkAction DeliverToStream sid NoError].

(** What is due to a frame, from the frames accepted before it alone. *)
Definition contract (tr : history) (f : Http2Frame) : H2DispatchResult :=
  let sid := streamId f in
  let t := fh_type (header f) in
  let wrong_stream :=
    match t with
    | Data | Headers | Priority | RstStream | Continuation => sid =? 0
    | Settings | Ping | GoAway => negb (sid =? 0)
    | _ => false
    end in
  let breaks_block :=
    match open_block tr, t with
    | Some open, Continuation => negb (sid =? open)
    | Some _, _ | None, Continuation => true
    | None, _ => false
    end in
  if wrong_stream || breaks_block then refuse_connection
  else
    match t with
    | Headers =>
        match recv_of tr sid, goaway_of tr with
        | Finished, _ => refuse_stream sid
        | Never, Some last => if sid <=? last then pass_to_stream sid else refuse_stream sid
        | _, _ => pass_to_stream sid
        end
    | Data => match recv_of tr sid with Receiving => pass_to_stream sid | _ => refuse_stream sid end
    | Continuation | RstStream | Priority | PushPromise => pass_to_stream sid
    | WindowUpdate =>
        if match f with WindowUpdateFrame _ increment => increment =? 0 | _ => false end
        then if sid =? 0 then refuse_connection else refuse_stream sid
        else accept [mkAction UpdateWindow sid NoError]
    | _ => accept []
    end.

(** C25: the dispatcher answers every frame of every sequence as the contract says, actions and codes
    included, from the history of accepted frames alone: DATA reach their stream exactly while its HEADERS
    were accepted and nothing accepted has ended it; HEADERS unless the stream is finished or a GOAWAY
    excludes it as new; a header block is not interrupted; what breaks a rule is answered by one GOAWAY or
    one RST_STREAM. *)
Theorem dispatch_receive_contract fs f :
  let '(tr, st) := dispatch_all fs initial_dispatch in (dispatch f st).1 = contract tr f.
Proof.
  pose proof (reachable_inv fs) as Hinv.
  destruct (dispatch_all fs initial_dispatch) as [tr st]. destruct Hinv as [Hr Hb Hg _].
  specialize (Hr (streamId f)). unfold contract. rewrite Hb, Hg. unfold dispatch.
  unfold requiresNonZeroStream, requiresZeroStream, isStreamFrame, isNewStreamRejectedByGoaway.
  destruct (fh_type (header f)) eqn:Ht; rewrite ?(is_type_at _ _ Ht); simpl;
    unfold requiresNonZeroStream; rewrite ?(is_type_at _ _ Ht); simpl;
    unfold dispatch_headers, dispatch_data, dispatch_continuation, streamState;
    destruct (streamId f =? 0); simpl; try done;
    destruct (expecting_continuation st); simpl; try done;
    try (destruct (streamId f =? continuation_stream_id st); simpl; done);
    destruct (goaway_received st); simpl;
    destruct (streams st !! streamId f) as [[]|]; simplify_eq/=; rewrite <- ?Hr; simpl; try done;
    repeat (case_match; simplify_eq/=; try done).
Qed.

(** header blocks are contiguous: while the history has a HEADERS without END_HEADERS that no
    CONTINUATION has completed, the only frame that is accepted is a CONTINUATION on that very
    stream; and a CONTINUATION is never accepted otherwise. *)
Theorem header_block_exclusive fs f :
  let '(tr, st) := dispatch_all fs initial_dispatch in
  ok (dispatch f st).1 = true ->
  (forall sid, open_block tr = Some sid ->
     fh_type (header f) = Continuation /\ streamId f = sid) /\
  (fh_type (header f) = Continuation -> open_block tr = Some (streamId f)).
Proof.
  pose proof (reachable_inv fs) as Hinv.
  destruct (dispatch_all fs initial_dispatch) as [tr st]. destruct Hinv as [_ Hb _ _].
  destruct (dispatch f st) as [r st'] eqn:E. simpl. intros Hok.
  destruct (dispatch_ok_cases f st r st' E Hok) as [Hexp Hc]. rewrite Hb.
  destruct (expecting_continuation st).
  - destruct (Hexp eq_refl) as [Ht Hs]. split; [intros sid [= <-]; done|]. by rewrite Hs.
  - split; [done|]. intros Ht. rewrite Ht in Hc. by destruct Hc.
Qed.

