(* ===== verification/Http2Scheduler.v ===== *)
(** * HTTP/2 outbound scheduler

    [galay-http2/kernel/out_scheduler.{h,cc}] and the DATA builders of
    [galay-http2/builder/http2_frame_builder.cc] and [galay-http2/utils/h2_helper.cc]: the deficit
    round robin that picks DATA frames under the connection and stream windows, in its two
    versions (frame objects, serialized bytes). *)

From Stdlib Require Import ZArith Lia.
From stdpp Require Import base list strings.
From S2P Require Import Prelude Http2Base Http2Frame.

Open Scope Z_scope.

(** ** Data *)

Record H2OutboundBudget : Type := mkBudget {
  budget_conn_window : Z;
  budget_max_frame_size : Z
}.

Record H2PendingData : Type := mkPending {
  chunks : list bytes;
  front_offset : Z;
  end_stream : bool
}.

Record H2StreamSendState : Type := mkStream {
  pending : H2PendingData;
  deficit : Z;
  stream_id : Z;
  stream_window : Z;
  weight : Z;
  queued : bool
}.

Record H2SchedulerConfig : Type := mkConfig { base_quantum : Z }.

Definition size_max : Z := 2 ^ 64 - 1.

(** ** Frame builders *)

(** [setEndStream] on a DATA frame. *)
Definition setEndStream (h : Http2FrameHeader) (value : bool) : Http2FrameHeader :=
  if value then setFlag h kEndStream else clearFlag h kEndStream.

(** [Http2FrameBuilder::data] *)
Definition build_data (sid : Z) (payload : bytes) (end_ : bool) : Http2Frame :=
  DataFrame (setEndStream (set_stream_id (fresh_header Data) sid) end_) payload (z2b 0).

(** [frame->setEndStream(value)] *)
Definition frame_setEndStream (f : Http2Frame) (value : bool) : Http2Frame :=
  set_header f (setEndStream (header f) value).

(** [buildH2FrameBytes]; [buildH2FrameHeaderBytes] writes the nine octets of the header. *)
Definition buildH2FrameHeaderBytes (t : Http2FrameType) (flags : byte) (sid len : Z) : bytes :=
  put_be24 len ++ [type_to_u8 t; flags] ++ put_be32 (Z.land sid 0x7FFFFFFF).

Definition buildH2FrameBytes (t : Http2FrameType) (flags : byte) (sid : Z) (payload : bytes) :
    bytes :=
  buildH2FrameHeaderBytes t flags sid (wrap32 (blen payload)) ++ payload.

Definition data_flags (end_ : bool) : byte :=
  if end_ then z2b (Z.lor 0 kEndStream) else z2b 0.

(** [Http2FrameBuilder::dataBytes] on a payload of at most [kDefaultMaxFrameSize] octets. *)
Definition dataBytes_one (sid : Z) (payload : bytes) (end_ : bool) : bytes :=
  buildH2FrameBytes Data (data_flags end_) sid payload.

(** Its splitting loop, on the part of the payload that is left; one turn per frame. *)
Fixpoint dataBytes_loop (turns : nat) (sid : Z) (rest : bytes) (end_ : bool) : bytes :=
  match turns with
  | O => []
  | S turns =>
      let chunk := take (Z.to_nat kDefaultMaxFrameSize) rest in
      let rest' := drop (Z.to_nat kDefaultMaxFrameSize) rest in
      dataBytes_one sid chunk (end_ && (length rest' =? 0)%nat) ++
      dataBytes_loop turns sid rest' end_
  end.

Definition dataBytes (sid : Z) (payload : bytes) (end_ : bool) : bytes :=
  if kDefaultMaxFrameSize <? blen payload
  then
    let frame_count := (blen payload + kDefaultMaxFrameSize - 1) / kDefaultMaxFrameSize in
    dataBytes_loop (Z.to_nat frame_count) sid payload end_
  else dataBytes_one sid payload end_.

(** ** Pending data *)

Fixpoint normalize_chunks (cs : list bytes) (off : Z) : list bytes * Z :=
  match cs with
  | [] => ([], off)
  | c :: cs' => if blen c <=? off then normalize_chunks cs' 0 else (cs, off)
  end.

Definition normalizePending (p : H2PendingData) : H2PendingData :=
  let '(cs, off) := normalize_chunks (chunks p) (front_offset p) in
  mkPending cs off (end_stream p).

Definition frontPendingSize (p : H2PendingData) : Z :=
  match chunks p with
  | [] => 0
  | c :: _ => if blen c <=? front_offset p then 0 else blen c - front_offset p
  end.

(** [front.substr(front_offset, n)] *)
Definition front_bytes (p : H2PendingData) (n : Z) : bytes :=
  take (Z.to_nat n) (drop (Z.to_nat (front_offset p)) (default [] (head (chunks p)))).

(** [front_offset += n; normalizePending(pending)] *)
Definition advance (p : H2PendingData) (n : Z) : H2PendingData :=
  normalizePending (mkPending (chunks p) (front_offset p + n) (end_stream p)).

Definition clear_end (p : H2PendingData) : H2PendingData :=
  mkPending (chunks p) (front_offset p) false.

Definition no_chunks (p : H2PendingData) : bool :=
  match chunks p with [] => true | _ => false end.

Definition shouldSendEndStreamOnly (p : H2PendingData) : bool := end_stream p && no_chunks p.

Definition quantumFor (s : H2StreamSendState) (cfg : H2SchedulerConfig) : Z :=
  let base := if base_quantum cfg =? 0 then 1 else base_quantum cfg in
  let w := if weight s =? 0 then 1 else weight s in
  if size_max / w <? base then size_max else base * w.

Definition set_pending (s : H2StreamSendState) (p : H2PendingData) : H2StreamSendState :=
  mkStream p (deficit s) (stream_id s) (stream_window s) (weight s) (queued s).

Definition set_queued (s : H2StreamSendState) (q : bool) : H2StreamSendState :=
  mkStream (pending s) (deficit s) (stream_id s) (stream_window s) (weight s) q.

(** ** The scheduler

    The two overloads on [std::vector<H2StreamSendState>&] differ in how a chunk becomes a frame
    and in when END_STREAM is decided; [emit] is that step and [emit_end] builds the frame that
    only ends a stream. *)

Section Scheduler.
Context {F : Type}.
(** [emit sid p n]: the frame carrying the next [n] octets, the pending data after it, and
    whether it carries END_STREAM. *)
Variable emit : Z -> H2PendingData -> Z -> F * H2PendingData * bool.
Variable emit_end : Z -> F.
Variable max_frame_size : Z.
Variable cfg : H2SchedulerConfig.

(** First loop: streams with nothing left but their END_STREAM. *)
Fixpoint end_only_pass (ss : list H2StreamSendState) : list H2StreamSendState * list F :=
  match ss with
  | [] => ([], [])
  | s :: ss =>
      let p := normalizePending (pending s) in
      let '(ss', fs) := end_only_pass ss in
      if shouldSendEndStreamOnly p
      then (set_pending s (clear_end p) :: ss', emit_end (stream_id s) :: fs)
      else (set_pending s p :: ss', fs)
  end.

(** What one stream and the connection look like inside the inner loop. *)
Record loop_state : Type := mkLoop {
  ls_conn : Z;
  ls_stream : H2StreamSendState;
  ls_frames : list F;
  ls_total : Z
}.

Definition may_send (ls : loop_state) : bool :=
  negb (no_chunks (pending (ls_stream ls))) && (0 <? stream_window (ls_stream ls)) &&
  (0 <? ls_conn ls) && (0 <? deficit (ls_stream ls)).

Definition chunk_size (ls : loop_state) : Z :=
  let s := ls_stream ls in
  Z.min (ls_conn ls) (Z.min (stream_window s) (Z.min max_frame_size
    (Z.min (frontPendingSize (pending s)) (deficit s)))).

(** One turn of the inner [while]. *)
Definition send_chunk (ls : loop_state) (n : Z) : loop_state :=
  let s := ls_stream ls in
  let '(frame, p', send_end) := emit (stream_id s) (pending s) n in
  mkLoop (ls_conn ls - n)
    (mkStream (if send_end then clear_end p' else p') (deficit s - n) (stream_id s)
       (stream_window s - n) (weight s) (if send_end then false else queued s))
    (ls_frames ls ++ [frame]) (ls_total ls + n).

(** The inner [while] on one stream; [None] is running out of fuel. *)
Fixpoint drain (fuel : nat) (ls : loop_state) : option loop_state :=
  if may_send ls then
    let n := chunk_size ls in
    if n =? 0 then Some ls
    else
      match fuel with
      | O => None
      | S fuel =>
          let ls' := send_chunk ls n in
          if ls_conn ls' <=? 0 then Some ls' else drain fuel ls'
      end
  else Some ls.

Record pass_result : Type := mkPass {
  pr_conn : Z;
  pr_streams : list H2StreamSendState;
  pr_frames : list F;
  pr_total : Z
}.

(** The [for] over the streams: one round. *)
Fixpoint pass (conn : Z) (ss : list H2StreamSendState) (fs : list F) (total : Z) :
    option pass_result :=
  match ss with
  | [] => Some (mkPass conn [] fs total)
  | s :: ss =>
      let s := set_pending s (normalizePending (pending s)) in
      if no_chunks (pending s) || (stream_window s <=? 0) then
        match pass conn ss fs total with
        | Some r => Some (mkPass (pr_conn r) (set_queued s false :: pr_streams r)
                            (pr_frames r) (pr_total r))
        | None => None
        end
      else
        let quantum := quantumFor s cfg in
        let s := mkStream (pending s) (Z.min (size_max - quantum) (deficit s) + quantum)
                   (stream_id s) (stream_window s) (weight s) true in
        match drain (Z.to_nat conn) (mkLoop conn s fs total) with
        | None => None
        | Some ls =>
            if ls_conn ls <=? 0
            then Some (mkPass (ls_conn ls) (ls_stream ls :: ss) (ls_frames ls) (ls_total ls))
            else
              match pass (ls_conn ls) ss (ls_frames ls) (ls_total ls) with
              | Some r => Some (mkPass (pr_conn r) (ls_stream ls :: pr_streams r)
                                  (pr_frames r) (pr_total r))
              | None => None
              end
        end
  end.

(** The outer [while (budget.conn_window > 0)]: rounds until one makes no progress. *)
Fixpoint rounds (fuel : nat) (conn : Z) (ss : list H2StreamSendState) (fs : list F)
    (total : Z) : option pass_result :=
  if 0 <? conn then
    match fuel with
    | O => None
    | S fuel =>
        match pass conn ss fs total with
        | None => None
        | Some r =>
            if pr_total r =? total then Some r
            else rounds fuel (pr_conn r) (pr_streams r) (pr_frames r) (pr_total r)
        end
    end
  else Some (mkPass conn ss fs total).

Definition pick (conn : Z) (ss : list H2StreamSendState) : option pass_result :=
  if max_frame_size =? 0 then Some (mkPass conn ss [] 0)
  else
    let '(ss, fs) := end_only_pass ss in
    rounds (S (Z.to_nat conn)) conn ss fs 0.
End Scheduler.

(** [pickSendableFrames]: the chunk is taken first, then END_STREAM goes with it if nothing is
    left after normalization. *)
Definition emit_frame (sid : Z) (p : H2PendingData) (n : Z) : Http2Frame * H2PendingData * bool :=
  let payload := front_bytes p n in
  let p' := advance p n in
  let send_end := end_stream p' && no_chunks p' in
  (frame_setEndStream (build_data sid payload false) send_end, p', send_end).

Definition emit_frame_end (sid : Z) : Http2Frame := build_data sid [] true.

(** [pickSendableBytes]: END_STREAM is decided before the chunk is consumed, when the chunk ends
    the last one queued. *)
Definition emit_bytes (sid : Z) (p : H2PendingData) (n : Z) : bytes * H2PendingData * bool :=
  let payload := front_bytes p n in
  let front := default [] (head (chunks p)) in
  let send_end := end_stream p && (length (chunks p) =? 1)%nat &&
                  (front_offset p + n =? blen front) in
  (dataBytes sid payload send_end, advance p n, send_end).

Definition emit_bytes_end (sid : Z) : bytes := dataBytes sid [] true.

Definition pickSendableFrames (b : H2OutboundBudget) (ss : list H2StreamSendState)
    (cfg : H2SchedulerConfig) : option (@pass_result Http2Frame) :=
  pick emit_frame emit_frame_end (budget_max_frame_size b) cfg (budget_conn_window b) ss.

Definition pickSendableBytes (b : H2OutboundBudget) (ss : list H2StreamSendState)
    (cfg : H2SchedulerConfig) : option (@pass_result bytes) :=
  pick emit_bytes emit_bytes_end (budget_max_frame_size b) cfg (budget_conn_window b) ss.

(** *** Control and header queues *)

Record H2OutboundQueues : Type := mkQueues {
  control_frames : list Http2Frame;
  header_frames : list Http2Frame;
  data_streams : list H2StreamSendState
}.

Record H2OutboundSelection {F : Type} : Type := mkSelection {
  frames : list F;
  total_data_bytes : Z
}.
Arguments H2OutboundSelection F : clear implicits.
Arguments mkSelection {F}.

(** [drainFrameQueue], [drainFrameQueueBytes]: the queue is emptied, oldest first. *)
Fixpoint drainFrameQueue {F} (take_frame : Http2Frame -> F) (queue : list Http2Frame)
    (out : list F) : list Http2Frame * list F :=
  match queue with
  | [] => ([], out)
  | f :: queue => drainFrameQueue take_frame queue (out ++ [take_frame f])
  end.

(** The overloads on [H2OutboundQueues&], with the selection on the DATA streams they call. *)
Definition pick_queues {F} (take_frame : Http2Frame -> F)
    (pick_data : list H2StreamSendState -> option (@pass_result F)) (q : H2OutboundQueues) :
    option (H2OutboundSelection F * H2OutboundQueues) :=
  let '(control, out) := drainFrameQueue take_frame (control_frames q) [] in
  let '(headers, out) := drainFrameQueue take_frame (header_frames q) out in
  match pick_data (data_streams q) with
  | None => None
  | Some r =>
      Some (mkSelection (out ++ pr_frames r) (pr_total r), mkQueues control headers (pr_streams r))
  end.

Definition pickSendableFrames_queues (b : H2OutboundBudget) (q : H2OutboundQueues)
    (cfg : H2SchedulerConfig) : option (H2OutboundSelection Http2Frame * H2OutboundQueues) :=
  pick_queues (fun f => f) (fun ss => pickSendableFrames b ss cfg) q.

Definition pickSendableBytes_queues (b : H2OutboundBudget) (q : H2OutboundQueues)
    (cfg : H2SchedulerConfig) : option (H2OutboundSelection bytes * H2OutboundQueues) :=
  pick_queues encode (fun ss => pickSendableBytes b ss cfg) q.

(** ** The abstract sender

    What a selection promises, without chunks, offsets, deficits or rounds: each frame is the next
    piece of one stream, within every limit. *)

(** The octets a stream still has to send. *)
Definition remaining (p : H2PendingData) : bytes :=
  match chunks p with
  | [] => []
  | c :: cs => drop (Z.to_nat (front_offset p)) c ++ concat cs
  end.

Record sender : Type := mkSender { v_id : Z; v_rest : bytes; v_end : bool; v_window : Z }.

Definition view (s : H2StreamSendState) : sender :=
  mkSender (stream_id s) (remaining (pending s)) (end_stream (pending s)) (stream_window s).

(** A connection window and the senders sharing it. *)
Definition sender_state : Type := Z * list sender.

Section Sender.
Context {F : Type}.
Variable mk : Z -> bytes -> bool -> F.
(** Whether END_STREAM always goes with the last octets. *)
Variable eager : bool.
Variable max_frame_size : Z.

Inductive step : sender_state -> F -> sender_state -> Prop :=
| step_data conn l r sid payload rest end_ fin window :
    0 < blen payload -> blen payload <= max_frame_size ->
    blen payload <= conn -> blen payload <= window ->
    (fin = true -> end_ = true /\ rest = []) ->
    (eager = true -> end_ = true -> rest = [] -> fin = true) ->
    step (conn, l ++ mkSender sid (payload ++ rest) end_ window :: r)
         (mk sid payload fin)
         (conn - blen payload,
          l ++ mkSender sid rest (end_ && negb fin) (window - blen payload) :: r)
| step_end conn l r sid window :
    step (conn, l ++ mkSender sid [] true window :: r)
         (mk sid [] true)
         (conn, l ++ mkSender sid [] false window :: r).

Inductive steps : sender_state -> list F -> sender_state -> Prop :=
| steps_nil c : steps c [] c
| steps_cons c1 f c2 fs c3 : step c1 f c2 -> steps c2 fs c3 -> steps c1 (f :: fs) c3.

Lemma steps_app c1 fs1 c2 fs2 c3 :
  steps c1 fs1 c2 -> steps c2 fs2 c3 -> steps c1 (fs1 ++ fs2) c3.
Proof.
  induction 1 as [|c1 f c fs c2 Hs _ IH]; intros H2; [done|].
  simpl. eapply steps_cons; [done|by apply IH].
Qed.

Lemma steps_one c1 f c2 : step c1 f c2 -> steps c1 [f] c2.
Proof. intros. eapply steps_cons; [done|constructor]. Qed.

(** The senders of another part of the table are not concerned. *)
Lemma step_frame l c1 f c2 :
  step c1 f c2 -> step (c1.1, l ++ c1.2) f (c2.1, l ++ c2.2).
Proof.
  destruct 1 as [conn l' r sid pl rest e fin w|conn l' r sid w]; simpl;
    rewrite !(app_assoc l l'); by constructor.
Qed.

Lemma steps_frame l c1 fs c2 :
  steps c1 fs c2 -> steps (c1.1, l ++ c1.2) fs (c2.1, l ++ c2.2).
Proof.
  induction 1 as [|c1 f c2 fs c3 Hs _ IH]; [constructor|].
  eapply steps_cons; [by apply step_frame|done].
Qed.
End Sender.

(** ** Pending data *)

(** Offsets point into the first chunk, as [normalizePending] leaves them. *)
Definition normal (p : H2PendingData) : Prop :=
  0 <= front_offset p /\
  match chunks p with [] => True | c :: _ => front_offset p < blen c end.

Lemma normalize_spec p :
  0 <= front_offset p ->
  remaining (normalizePending p) = remaining p /\ normal (normalizePending p) /\
  end_stream (normalizePending p) = end_stream p.
Proof.
  destruct p as [cs off e]. unfold normalizePending, remaining, normal. simpl.
  revert off. induction cs as [|c cs IH]; intros off Ho; simpl; [done|].
  destruct (Z.leb_spec (blen c) off) as [Hle|Hlt]; simpl; [|done].
  destruct (IH 0 ltac:(lia)) as (IHr & IHn & IHe).
  destruct (normalize_chunks cs 0) as [cs' off']. simpl in *. split_and!; [|apply IHn..|done].
  rewrite IHr, drop_ge by (unfold blen in Hle; lia).
  destruct cs; simpl; [done|]. by rewrite drop_0.
Qed.

Lemma normal_no_chunks p : normal p -> no_chunks p = true <-> remaining p = [].
Proof.
  unfold normal, no_chunks, remaining. destruct (chunks p) as [|c cs]; [done|].
  intros [? ?]. split; [done|]. intros [Hd _]%app_nil. apply (f_equal length) in Hd.
  rewrite length_drop in Hd. unfold blen in *. simpl in Hd. lia.
Qed.

Lemma normal_no_chunks_false p : normal p -> no_chunks p = false -> remaining p <> [].
Proof. intros Hn Hf Hr. apply normal_no_chunks in Hr; [congruence|done]. Qed.

Lemma advance_spec p n :
  normal p -> 0 <= n <= frontPendingSize p ->
  remaining p = front_bytes p n ++ remaining (advance p n) /\
  blen (front_bytes p n) = n /\ normal (advance p n) /\
  end_stream (advance p n) = end_stream p.
Proof.
  intros [Ho Hc] Hn. unfold advance.
  destruct (normalize_spec (mkPending (chunks p) (front_offset p + n) (end_stream p)))
    as (-> & Hnorm & He); [simpl; lia|]. rewrite He. simpl.
  unfold frontPendingSize in Hn. unfold front_bytes, remaining. simpl.
  destruct (chunks p) as [|c cs]; simpl.
  { split_and!; [by rewrite take_drop_commute, take_nil, drop_nil| |done|done].
    rewrite drop_nil, take_nil. unfold blen. simpl. lia. }
  destruct (Z.leb_spec (blen c) (front_offset p)); [lia|].
  split_and!; [| |done|done].
  - rewrite Z2Nat.inj_add by lia. rewrite <- drop_drop, app_assoc, take_drop. done.
  - unfold blen in *. rewrite length_take, length_drop. lia.
Qed.

(** ** Both schedulers implement the abstract sender *)

(** [size_t] and [uint8_t] members in range. *)
Record wf_stream (s : H2StreamSendState) : Prop := {
  wfs_offset : 0 <= front_offset (pending s);
  wfs_deficit : 0 <= deficit s <= size_max;
  wfs_weight : 0 <= weight s < 256
}.

(** Nothing can be sent on the stream, whatever the connection window. *)
Definition blocked (s : H2StreamSendState) : Prop :=
  remaining (pending s) = [] \/ stream_window s <= 0.

Section Refinement.
Context {F : Type}.
Variable mk : Z -> bytes -> bool -> F.
Variable eager : bool.
Variable emit : Z -> H2PendingData -> Z -> F * H2PendingData * bool.
Variable max_frame_size : Z.
Variable cfg : H2SchedulerConfig.
Hypothesis Hmax : 0 < max_frame_size.
Hypothesis Hcfg : 0 <= base_quantum cfg <= size_max.
(** [emit] takes the next [n] octets, and says END_STREAM only on the last ones. *)
Hypothesis Hemit : forall sid p n,
  normal p -> 0 < n <= frontPendingSize p ->
  exists fin, emit sid p n = (mk sid (front_bytes p n) fin, advance p n, fin) /\
    (fin = true -> end_stream p = true /\ remaining (advance p n) = []) /\
    (eager = true -> end_stream p = true -> remaining (advance p n) = [] -> fin = true).

#[local] Abbreviation steps := (steps mk eager max_frame_size).
#[local] Abbreviation step := (step mk eager max_frame_size).

Lemma quantumFor_pos s : 0 <= weight s < 256 -> 1 <= quantumFor s cfg <= size_max.
Proof using Hcfg.
  intros Hw. unfold quantumFor, size_max in *.
  set (b := if base_quantum cfg =? 0 then 1 else base_quantum cfg).
  set (w := if weight s =? 0 then 1 else weight s).
  assert (1 <= b) by (unfold b; destruct (Z.eqb_spec (base_quantum cfg) 0); lia).
  assert (1 <= w) by (unfold w; destruct (Z.eqb_spec (weight s) 0); lia).
  destruct (Z.ltb_spec ((2 ^ 64 - 1) / w) b) as [Hlt|Hge]; [lia|].
  pose proof (Z.mul_div_le (2 ^ 64 - 1) w ltac:(lia)). nia.
Qed.

(** What the inner loop has done when it went from [ls] to [ls']. *)
Record drained (ls ls' : @loop_state F) : Prop := {
  dr_steps : exists fs, ls_frames ls' = ls_frames ls ++ fs /\
    forall r, steps (ls_conn ls, view (ls_stream ls) :: r) fs
                    (ls_conn ls', view (ls_stream ls') :: r);
  dr_total : ls_total ls' - ls_total ls = ls_conn ls - ls_conn ls';
  dr_conn : ls_conn ls' <= ls_conn ls;
  dr_wf : wf_stream (ls_stream ls')
}.

Lemma chunk_size_bounds (ls : @loop_state F) :
  normal (pending (ls_stream ls)) -> may_send ls = true ->
  let n := chunk_size max_frame_size ls in
  0 < n /\ n <= ls_conn ls /\ n <= stream_window (ls_stream ls) /\ n <= max_frame_size /\
  n <= frontPendingSize (pending (ls_stream ls)) /\ n <= deficit (ls_stream ls).
Proof using Hmax.
  unfold may_send, chunk_size. intros [Ho Hn] Hs.
  rewrite !andb_true_iff, !Z.ltb_lt, negb_true_iff in Hs. destruct Hs as [[[Hc ?] ?] ?].
  unfold frontPendingSize, no_chunks in *.
  destruct (chunks (pending (ls_stream ls))) as [|c cs]; [done|].
  destruct (Z.leb_spec (blen c) (front_offset (pending (ls_stream ls)))); lia.
Qed.

Lemma send_chunk_step ls n :
  normal (pending (ls_stream ls)) -> wf_stream (ls_stream ls) ->
  0 < n -> n <= ls_conn ls -> n <= stream_window (ls_stream ls) -> n <= max_frame_size ->
  n <= frontPendingSize (pending (ls_stream ls)) -> n <= deficit (ls_stream ls) ->
  let ls' := send_chunk emit ls n in
  ls_conn ls' = ls_conn ls - n /\ ls_total ls' = ls_total ls + n /\
  normal (pending (ls_stream ls')) /\ wf_stream (ls_stream ls') /\
  exists f, ls_frames ls' = ls_frames ls ++ [f] /\
    forall r, step (ls_conn ls, view (ls_stream ls) :: r) f
                   (ls_conn ls', view (ls_stream ls') :: r).
Proof using Hemit.
  intros Hn [_ Hdef Hw] H0 Hc Hsw Hm Hf Hd. unfold send_chunk.
  destruct (Hemit (stream_id (ls_stream ls)) (pending (ls_stream ls)) n) as (fin & -> & Hfin & Heager);
    [done|lia|].
  destruct (advance_spec (pending (ls_stream ls)) n) as (Hrem & Hlen & Hnorm & Hend); [done|lia|].
  destruct Hnorm as [Ho Hch]. simpl. split_and!; [done|done| | |].
  - by destruct fin.
  - split; simpl; [by destruct fin|lia|done].
  - eexists. split; [done|]. intros r.
    assert (view (ls_stream ls) = mkSender (stream_id (ls_stream ls))
              (front_bytes (pending (ls_stream ls)) n ++
               remaining (advance (pending (ls_stream ls)) n))
              (end_stream (pending (ls_stream ls))) (stream_window (ls_stream ls))) as ->
      by (unfold view; by rewrite Hrem).
    pose proof (step_data mk eager max_frame_size (ls_conn ls) [] r (stream_id (ls_stream ls))
      (front_bytes (pending (ls_stream ls)) n) (remaining (advance (pending (ls_stream ls)) n))
      (end_stream (pending (ls_stream ls))) fin (stream_window (ls_stream ls))) as Hstep.
    rewrite Hlen in Hstep. specialize (Hstep H0 Hm Hc Hsw Hfin Heager). simpl in Hstep.
    destruct fin; simpl in Hstep.
    + by rewrite andb_false_r in Hstep.
    + unfold view; simpl. by rewrite Hend, andb_true_r in *.
Qed.

Lemma drained_refl ls : wf_stream (ls_stream ls) -> drained ls ls.
Proof.
  intros Hwf. split; [|lia|lia|done]. exists []. rewrite app_nil_r. split; [done|constructor].
Qed.

Lemma drain_ok fuel ls :
  normal (pending (ls_stream ls)) -> wf_stream (ls_stream ls) ->
  (Z.to_nat (ls_conn ls) <= fuel)%nat ->
  exists ls', drain emit max_frame_size fuel ls = Some ls' /\ drained ls ls' /\
    (may_send ls = true -> ls_conn ls' < ls_conn ls).
Proof using Hemit Hmax.
  revert ls. induction fuel as [|fuel IH]; intros ls Hn Hwf Hfuel; cbn [drain];
    (destruct (may_send ls) eqn:Hms; [|by exists ls; split_and!; auto using drained_refl]);
    destruct (chunk_size_bounds ls Hn Hms) as (H0 & Hc & Hw & Hm & Hf & Hd);
    (destruct (Z.eqb_spec (chunk_size max_frame_size ls) 0); [lia|]); [lia|].
  destruct (send_chunk_step ls _ Hn Hwf H0 Hc Hw Hm Hf Hd) as (Hc' & Ht' & Hn' & Hwf' & f & Hfr & Hst).
  set (ls1 := send_chunk emit ls (chunk_size max_frame_size ls)) in *.
  destruct (Z.leb_spec (ls_conn ls1) 0) as [Hle|Hgt].
  - exists ls1. split_and!; [done| |lia]. split; [|lia|lia|done].
    exists [f]. split; [done|]. intros r. apply steps_one, Hst.
  - destruct (IH ls1) as (ls2 & -> & [(fs & Hfs & Hsts) Ht Hcc Hw2] & _); [done|done|lia|].
    exists ls2. split_and!; [done| |lia]. split; [|lia|lia|done].
    exists (f :: fs). split; [by rewrite Hfs, Hfr, <- app_assoc|].
    intros r. eapply steps_cons; [apply Hst|apply Hsts].
Qed.

(** The same for a round, and for a sequence of rounds. *)
Record passed (conn : Z) (ss : list H2StreamSendState) (fs : list F) (total : Z)
    (r : @pass_result F) : Prop := {
  pa_steps : exists fs', pr_frames r = fs ++ fs' /\
    steps (conn, map view ss) fs' (pr_conn r, map view (pr_streams r));
  pa_total : pr_total r - total = conn - pr_conn r;
  pa_conn : pr_conn r <= conn;
  pa_wf : Forall wf_stream (pr_streams r)
}.

Lemma passed_refl conn ss fs total :
  Forall wf_stream ss -> passed conn ss fs total (mkPass conn ss fs total).
Proof.
  intros Hwf. split; simpl; [|lia|lia|done]. exists []. rewrite app_nil_r.
  split; [done|constructor].
Qed.

Lemma passed_trans conn ss fs total r r' :
  passed conn ss fs total r ->
  passed (pr_conn r) (pr_streams r) (pr_frames r) (pr_total r) r' ->
  passed conn ss fs total r'.
Proof.
  intros [(f1 & E1 & S1) T1 C1 W1] [(f2 & E2 & S2) T2 C2 W2].
  split; [|lia|lia|done]. exists (f1 ++ f2). split; [by rewrite E2, E1, app_assoc|].
  by eapply steps_app.
Qed.

(** A stream whose turn changes nothing the peer can see. *)
Lemma passed_skip conn s s' ss fs total r :
  view s' = view s -> wf_stream s' -> passed conn ss fs total r ->
  passed conn (s :: ss) fs total
    (mkPass (pr_conn r) (s' :: pr_streams r) (pr_frames r) (pr_total r)).
Proof.
  intros Hv Hw [(f & E & S) T C W]. split; simpl; [|lia|lia|by constructor].
  exists f. split; [done|]. rewrite Hv. apply (steps_frame mk eager max_frame_size [view s] _ _ _ S).
Qed.

(** A stream whose turn was [drained]. *)
Lemma passed_head conn s s0 ss fs total ls :
  view s0 = view s -> drained (mkLoop conn s0 fs total) ls -> Forall wf_stream ss ->
  passed conn (s :: ss) fs total
    (mkPass (ls_conn ls) (ls_stream ls :: ss) (ls_frames ls) (ls_total ls)).
Proof.
  intros Hv [(f & E & S) T C W] Hss. simpl in *. split; simpl; [|lia|lia|by constructor].
  exists f. split; [done|]. rewrite <- Hv. apply S.
Qed.

Definition turn (s : H2StreamSendState) : H2StreamSendState :=
  let p := normalizePending (pending s) in
  let quantum := quantumFor (set_pending s p) cfg in
  mkStream p (Z.min (size_max - quantum) (deficit s) + quantum) (stream_id s)
    (stream_window s) (weight s) true.

Lemma turn_ok s :
  wf_stream s -> view (turn s) = view s /\ normal (pending (turn s)) /\ wf_stream (turn s) /\
  0 < deficit (turn s).
Proof using Hcfg.
  intros [Ho Hd Hw]. destruct (normalize_spec (pending s) Ho) as (Hr & Hn & He).
  pose proof (quantumFor_pos (set_pending s (normalizePending (pending s))) Hw) as Hq.
  unfold turn, view. simpl. rewrite Hr, He. split_and!; [done|done| |lia].
  split; simpl; [apply Hn|lia|done].
Qed.

Lemma pass_ok conn ss fs total :
  Forall wf_stream ss ->
  exists r, pass emit max_frame_size cfg conn ss fs total = Some r /\
    passed conn ss fs total r /\
    (0 < conn -> pr_conn r = conn -> Forall blocked (pr_streams r)).
Proof using Hemit Hmax Hcfg.
  intros Hwf. revert conn fs total.
  induction Hwf as [|s ss Hs Hss IH]; intros conn fs total; cbn [pass].
  { eexists. split_and!; [done|by apply passed_refl|done]. }
  destruct (turn_ok s Hs) as (Hv & Hn & Hw & Hdef). pose proof Hs as [Ho Hd Hwt].
  destruct (normalize_spec (pending s) Ho) as (Hr & Hnp & He).
  set (s0 := set_pending s (normalizePending (pending s))).
  destruct (no_chunks (pending s0) || (stream_window s0 <=? 0)) eqn:Hskip.
  - destruct (IH conn fs total) as (r & -> & Hp & Hb).
    eexists. split_and!; [done| |].
    + apply passed_skip; [unfold view; simpl; by rewrite Hr, He| |done].
      split; simpl; [apply Hnp|done|done].
    + simpl. intros Hc E. constructor; [|by apply Hb].
      unfold blocked. simpl. apply orb_true_iff in Hskip as [H0|H0%Z.leb_le]; [left|by right].
      by apply normal_no_chunks.
  - change (mkStream (pending s0) _ _ _ _ true) with (turn s).
    destruct (drain_ok (Z.to_nat conn) (mkLoop conn (turn s) fs total))
      as (ls & -> & Hdr & Hprog); [done|done|done|].
    assert (may_send (mkLoop conn (turn s) fs total) = true \/ conn <= 0) as Hmay.
    { apply orb_false_iff in Hskip as [H1 H2]. unfold may_send. simpl in *. rewrite H1.
      apply Z.leb_gt in H2. destruct (Z.ltb_spec 0 (stream_window s)); [|lia].
      destruct (Z.ltb_spec 0 conn); [left|by right].
      simpl in Hdef. by rewrite (proj2 (Z.ltb_lt 0 _) Hdef). }
    pose proof (passed_head conn s (turn s) ss fs total ls Hv Hdr Hss) as Hhead.
    simpl in Hprog. destruct (Z.leb_spec (ls_conn ls) 0).
    + eexists. split_and!; [done|done|]. simpl. destruct Hmay; [specialize (Hprog ltac:(done)); lia|lia].
    + destruct (IH (ls_conn ls) (ls_frames ls) (ls_total ls)) as (r & -> & Hp & _).
      eexists. split_and!; [done| |].
      * eapply passed_trans; [exact Hhead|]. simpl.
        apply passed_skip; [done|apply Hdr|done].
      * simpl. intros Hc E. pose proof (pa_conn _ _ _ _ _ Hp).
        destruct Hmay as [Hmay|]; [specialize (Hprog Hmay)|]; lia.
Qed.

Lemma rounds_ok fuel conn ss fs total :
  Forall wf_stream ss -> (Z.to_nat conn < fuel)%nat ->
  exists r, rounds emit max_frame_size cfg fuel conn ss fs total = Some r /\
    passed conn ss fs total r /\ (0 < pr_conn r -> Forall blocked (pr_streams r)).
Proof using Hemit Hmax Hcfg.
  revert conn ss fs total. induction fuel as [|fuel IH]; intros conn ss fs total Hwf Hf; [lia|].
  cbn [rounds]. destruct (Z.ltb_spec 0 conn) as [Hc|Hc].
  2: { eexists. split_and!; [done|by apply passed_refl|simpl; lia]. }
  destruct (pass_ok conn ss fs total Hwf) as (r & -> & Hp & Hb).
  pose proof (pa_total _ _ _ _ _ Hp). pose proof (pa_conn _ _ _ _ _ Hp).
  destruct (Z.eqb_spec (pr_total r) total).
  { exists r. split_and!; [done|done|]. intros _. apply Hb; lia. }
  destruct (IH (pr_conn r) (pr_streams r) (pr_frames r) (pr_total r)) as (r' & -> & Hp' & Hb');
    [apply Hp|lia|].
  exists r'. split_and!; [done|by eapply passed_trans|done].
Qed.

Lemma end_only_ok ss conn :
  Forall wf_stream ss ->
  let '(ss', fs) := end_only_pass (fun sid => mk sid [] true) ss in
  Forall wf_stream ss' /\ steps (conn, map view ss) fs (conn, map view ss') /\
  Forall (fun s => remaining (pending s) = [] -> end_stream (pending s) = false) ss'.
Proof.
  induction 1 as [|s ss [Ho Hd Hw] Hss IH]; cbn [end_only_pass].
  { split_and!; constructor. }
  destruct (end_only_pass _ ss) as [ss' fs]. destruct IH as (IHw & IHs & IHe).
  destruct (normalize_spec (pending s) Ho) as (Hr & Hn & He).
  pose proof (normal_no_chunks _ Hn) as Hnc. rewrite Hr in Hnc.
  assert (wf_stream (set_pending s (normalizePending (pending s)))) as Hw1
    by (split; simpl; [apply Hn|done|done]).
  unfold shouldSendEndStreamOnly.
  destruct (end_stream (normalizePending (pending s)) && no_chunks _) eqn:Hcond.
  - apply andb_true_iff in Hcond as [H1 H2].
    split_and!; [constructor; [|done]; split; simpl; [apply Hn|done|done]| |by constructor].
    pose proof (proj1 Hnc H2) as Hrem. simpl.
    eapply steps_cons; [|apply (steps_frame mk eager max_frame_size
                                  [view (set_pending s (clear_end _))] _ _ _ IHs)].
    rewrite He in H1. unfold view. simpl. rewrite Hrem, H1.
    change (remaining (clear_end (normalizePending (pending s)))) with
      (remaining (normalizePending (pending s))). rewrite Hr, Hrem.
    apply (step_end mk eager max_frame_size conn [] (map view ss)).
  - split_and!; [by constructor| |constructor; [|done]].
    + simpl. assert (view (set_pending s (normalizePending (pending s))) = view s) as ->
        by (unfold view; simpl; by rewrite Hr, He).
      apply (steps_frame mk eager max_frame_size [view s] _ _ _ IHs).
    + simpl. rewrite Hr. intros H0. apply Hnc in H0. rewrite H0, andb_true_r in Hcond. done.
Qed.

(** The whole selection: it always returns; the frames are a run of the abstract sender; the
    total is the connection credit used; it stops only when nothing more may be sent. *)
Lemma pick_ok conn ss :
  Forall wf_stream ss ->
  exists r mid fs0 fs1,
    pick emit (fun sid => mk sid [] true) max_frame_size cfg conn ss = Some r /\
    pr_frames r = fs0 ++ fs1 /\
    steps (conn, map view ss) fs0 (conn, map view mid) /\
    Forall (fun s => remaining (pending s) = [] -> end_stream (pending s) = false) mid /\
    steps (conn, map view mid) fs1 (pr_conn r, map view (pr_streams r)) /\
    pr_total r = conn - pr_conn r /\ Forall wf_stream (pr_streams r) /\
    (0 < pr_conn r -> Forall blocked (pr_streams r)).
Proof using Hemit Hmax Hcfg.
  intros Hwf. unfold pick. destruct (Z.eqb_spec max_frame_size 0); [lia|].
  pose proof (end_only_ok ss conn Hwf) as Hend.
  destruct (end_only_pass _ ss) as [mid fs0]. destruct Hend as (Hw & Hs & He).
  destruct (rounds_ok (S (Z.to_nat conn)) conn mid fs0 0 Hw ltac:(lia))
    as (r & -> & [(fs1 & Hfs & Hs1) Ht Hc Hw1] & Hb).
  exists r, mid, fs0, fs1. split_and!; try done. lia.
Qed.
End Refinement.

(** ** The two instances *)

Definition mk_frame (sid : Z) (payload : bytes) (fin : bool) : Http2Frame :=
  frame_setEndStream (build_data sid payload false) fin.

Lemma mk_frame_end sid : mk_frame sid [] true = emit_frame_end sid.
Proof. reflexivity. Qed.

Lemma emit_frame_ok sid p n :
  normal p -> 0 < n <= frontPendingSize p ->
  exists fin, emit_frame sid p n = (mk_frame sid (front_bytes p n) fin, advance p n, fin) /\
    (fin = true -> end_stream p = true /\ remaining (advance p n) = []) /\
    (true = true -> end_stream p = true -> remaining (advance p n) = [] -> fin = true).
Proof.
  intros Hn Hp. destruct (advance_spec p n Hn ltac:(lia)) as (_ & _ & Hn' & He).
  eexists. split_and!; [done| |].
  - intros [H1 H2]%andb_true_iff. split; [congruence|by apply normal_no_chunks].
  - intros _ H1 H2. apply andb_true_iff. split; [congruence|by apply normal_no_chunks].
Qed.

Lemma emit_bytes_ok sid p n :
  normal p -> 0 < n <= frontPendingSize p ->
  exists fin, emit_bytes sid p n = (dataBytes sid (front_bytes p n) fin, advance p n, fin) /\
    (fin = true -> end_stream p = true /\ remaining (advance p n) = []) /\
    (false = true -> end_stream p = true -> remaining (advance p n) = [] -> fin = true).
Proof.
  intros Hn Hp. destruct (advance_spec p n Hn ltac:(lia)) as (Hrem & Hlen & _ & _).
  eexists. split_and!; [done| |done].
  intros [[H1 H2]%andb_true_iff H3%Z.eqb_eq]%andb_true_iff. split; [done|].
  destruct Hn as [Ho Hc]. unfold remaining in Hrem at 1.
  destruct (chunks p) as [|c [|]]; [done| |done]. simpl in *.
  apply (f_equal length) in Hrem. rewrite !length_app, length_drop in Hrem.
  unfold blen in *. simpl in Hrem. apply nil_length_inv. lia.
Qed.

(** ** What the peer receives *)

Definition payload (f : Http2Frame) : bytes := match f with DataFrame _ d _ => d | _ => [] end.

(** The octets a list of frames carries on stream [sid], and their END_STREAM flags. *)
Definition on_stream (sid : Z) (fs : list Http2Frame) : list Http2Frame :=
  base.filter (fun f => streamId f = sid) fs.
Definition stream_bytes (sid : Z) (fs : list Http2Frame) : bytes :=
  concat (map payload (on_stream sid fs)).
Definition end_flags (sid : Z) (fs : list Http2Frame) : list bool :=
  map (fun f => isEndStream (header f)) (on_stream sid fs).

(** The frames [fs] bring the sender from [v] to [v']: they carry exactly the octets it no longer
    has, in order and within its window; END_STREAM is on at most one of them, the last one of
    the stream, and only when nothing is left. *)
Record sent_on (fs : list Http2Frame) (v v' : sender) : Prop := {
  so_id : v_id v' = v_id v;
  so_data : v_rest v = stream_bytes (v_id v) fs ++ v_rest v';
  so_window : v_window v' = v_window v - blen (stream_bytes (v_id v) fs);
  so_credit : blen (stream_bytes (v_id v) fs) <= Z.max 0 (v_window v);
  so_flags : exists k, end_flags (v_id v) fs =
    replicate k false ++ (if v_end v && negb (v_end v') then [true] else []);
  so_mono : v_end v' = true -> v_end v = true;
  so_last : v_end v = true -> v_end v' = false -> v_rest v' = [];
  so_quiet : v_rest v = [] -> v_end v = false -> end_flags (v_id v) fs = []
}.

Lemma mk_frame_facts sid d fin :
  streamId (mk_frame sid d fin) = sid /\ payload (mk_frame sid d fin) = d /\
  isEndStream (header (mk_frame sid d fin)) = fin.
Proof. by destruct fin. Qed.

Lemma on_stream_cons_eq sid f fs : streamId f = sid -> on_stream sid (f :: fs) = f :: on_stream sid fs.
Proof. intros. unfold on_stream. by rewrite filter_cons_True. Qed.

Lemma on_stream_cons_ne sid f fs : streamId f <> sid -> on_stream sid (f :: fs) = on_stream sid fs.
Proof. intros. unfold on_stream. by rewrite filter_cons_False. Qed.

Lemma sent_on_nil v : sent_on [] v v.
Proof.
  split; unfold stream_bytes, end_flags; simpl; rewrite ?blen_nil; try lia; try done.
  - exists 0%nat. simpl. by destruct (v_end v).
  - intros. congruence.
Qed.

Lemma sent_on_other f fs v v' :
  streamId f <> v_id v -> sent_on fs v v' -> sent_on (f :: fs) v v'.
Proof.
  intros Hne [Hid Hd Hw Hc Hf Hm Hl Hq]. unfold stream_bytes, end_flags in *.
  split; unfold stream_bytes, end_flags; rewrite ?(on_stream_cons_ne _ _ _ Hne); done.
Qed.

(** One more frame in front, on this stream. *)
Lemma sent_on_cons sid d fin fs rest e window v' :
  (fin = true -> e = true /\ rest = []) -> (d = [] -> fin = true) -> blen d <= Z.max 0 window ->
  sent_on fs (mkSender sid rest (e && negb fin) (window - blen d)) v' ->
  sent_on (mk_frame sid d fin :: fs) (mkSender sid (d ++ rest) e window) v'.
Proof.
  intros Hfin Hd0 Hcr [Hid Hd Hw Hc (k & Hk) Hm Hl Hq]. simpl in *.
  destruct (mk_frame_facts sid d fin) as (Es & Ep & Ee).
  pose proof (blen_nonneg d). pose proof (blen_nonneg (stream_bytes sid fs)).
  unfold stream_bytes, end_flags in *.
  split; simpl; unfold stream_bytes, end_flags;
    rewrite ?(on_stream_cons_eq sid _ fs Es); simpl; rewrite ?Ep, ?Ee, ?blen_app; try done.
  - by rewrite Hd, <- app_assoc.
  - lia.
  - destruct (Z.eq_dec (blen d) 0) as [E0|]; lia.
  - destruct fin.
    + destruct (Hfin eq_refl) as [-> ->]. rewrite andb_false_r in *.
      rewrite Hq by done. exists 0%nat. destruct (v_end v'); [by specialize (Hm eq_refl)|done].
    + rewrite andb_true_r in Hk. exists (S k). simpl. by rewrite Hk.
  - intros He. specialize (Hm He). by destruct e.
  - intros -> He. destruct fin; simpl in *; [|by apply Hl].
    destruct (Hfin eq_refl) as [_ ->]. symmetry in Hd. by apply app_nil in Hd as [_ ?].
  - intros [-> ->]%app_nil ->. specialize (Hd0 eq_refl). destruct (Hfin Hd0). done.
Qed.

Lemma Forall2_sent_others f fs vs vs' :
  Forall (fun v => streamId f <> v_id v) vs -> Forall2 (sent_on fs) vs vs' ->
  Forall2 (sent_on (f :: fs)) vs vs'.
Proof.
  intros Hne. induction 1 as [|v v' vs vs' Hs _ IH]; [constructor|].
  inversion_clear Hne. constructor; [by apply sent_on_other|by apply IH].
Qed.

Lemma step_ids max c1 f c2 : step mk_frame true max c1 f c2 -> map v_id c2.2 = map v_id c1.2.
Proof. by destruct 1; simpl; rewrite !map_app. Qed.

Lemma Forall2_sent_mid f fs (l r vs : list sender) v v1 :
  NoDup (map v_id (l ++ v :: r)) -> streamId f = v_id v ->
  (forall v', sent_on fs v1 v' -> sent_on (f :: fs) v v') ->
  Forall2 (sent_on fs) (l ++ v1 :: r) vs -> Forall2 (sent_on (f :: fs)) (l ++ v :: r) vs.
Proof.
  rewrite map_app. simpl. intros (_ & Hl & [Hv Hr]%NoDup_cons)%NoDup_app Hf Hs HF.
  apply Forall2_app_inv_l in HF as (vl & vr & HFl & HFr & ->).
  inversion_clear HFr as [|? v' ? vr' H1 H2].
  apply Forall2_app; [|constructor; [by apply Hs|]]; (apply Forall2_sent_others; [|done]);
    apply Forall_forall; intros u Hu E; rewrite Hf in E.
  - apply (Hl (v_id v)); [|by left]. rewrite E. by apply list_elem_of_fmap_2.
  - apply Hv. rewrite E. by apply list_elem_of_fmap_2.
Qed.

Lemma steps_sent max c1 fs c2 :
  steps mk_frame true max c1 fs c2 -> NoDup (map v_id c1.2) -> Forall2 (sent_on fs) c1.2 c2.2.
Proof.
  induction 1 as [c|c1 f c fs c2 Hst _ IH]; intros Hnd.
  { apply Forall_Forall2_diag, Forall_forall. intros v _. apply sent_on_nil. }
  specialize (IH ltac:(by rewrite (step_ids _ _ _ _ Hst))).
  destruct Hst as [conn l r sid d rest e fin w H0 Hm Hc Hw Hfin _|conn l r sid w]; simpl in *.
  - eapply Forall2_sent_mid; [done|apply mk_frame_facts| |exact IH].
    intros v'. apply sent_on_cons; [done| |lia]. intros ->. done.
  - eapply Forall2_sent_mid; [done|apply mk_frame_facts| |exact IH].
    intros v' Hv'. apply (sent_on_cons sid [] true fs [] true w v'); [done|done| |].
    + rewrite blen_nil. lia.
    + rewrite blen_nil, Z.sub_0_r. exact Hv'.
Qed.

(** Frame sizes and the connection window. *)
Definition total_payload (fs : list Http2Frame) : Z :=
  foldr (fun f n => blen (payload f) + n) 0 fs.

Lemma steps_sizes max c1 fs c2 :
  steps mk_frame true max c1 fs c2 -> 0 < max ->
  Forall (fun f => blen (payload f) <= max) fs /\ c2.1 = c1.1 - total_payload fs /\
  total_payload fs <= Z.max 0 c1.1.
Proof.
  intros Hs Hmax. induction Hs as [c|c1 f c fs c2 Hst _ IH]; simpl.
  { split_and!; [constructor|lia|lia]. }
  destruct IH as (IHf & IHc & IHt).
  destruct Hst as [conn l r sid d rest e fin w H0 Hm Hc Hw Hfin _|conn l r sid w]; simpl in *.
  - split_and!; [by constructor|lia|lia].
  - pose proof (@blen_nil byte).
    split_and!; [constructor; [simpl; lia|done]|lia..].
Qed.

(** With END_STREAM always fused, a stream left with nothing to send has ended. *)
Definition no_dangling_end (vs : list sender) : Prop :=
  Forall (fun v => v_rest v = [] -> v_end v = false) vs.

Lemma steps_no_dangling {F} (mk : Z -> bytes -> bool -> F) max c1 fs c2 :
  steps mk true max c1 fs c2 -> no_dangling_end c1.2 -> no_dangling_end c2.2.
Proof.
  induction 1 as [|c1 f c fs c2 Hst _ IH]; intros H1; [done|]. apply IH. clear IH. revert H1.
  unfold no_dangling_end.
  destruct Hst as [conn l r sid d rest e fin w H0 Hm Hc Hw Hfin Heg|conn l r sid w]; simpl;
    intros [Hl [Hv Hr]%Forall_cons]%Forall_app; simpl in Hv;
    apply Forall_app; (split; [done|]); constructor; [|done| |done]; simpl; [|done].
  intros ->. destruct e; [|done]. by rewrite (Heg eq_refl eq_refl eq_refl).
Qed.

(** ** Properties *)

Definition wf_budget (b : H2OutboundBudget) : Prop :=
  - 2 ^ 31 <= budget_conn_window b < 2 ^ 31 /\ 0 < budget_max_frame_size b < 2 ^ 32.
Definition wf_config (cfg : H2SchedulerConfig) : Prop := 0 <= base_quantum cfg <= size_max.

(** C5: the deficit round robin terminates and implements the abstract sender, for frame objects
    and for serialized frames: for any budget, weights, quanta and pending data it returns, every
    frame it emits is the next piece of one stream within the frame size, the stream window and
    the connection window, the total it reports is the connection credit used, and it is work
    conserving: with connection credit left, no stream has both data and window. *)
Theorem pick_refines_sender b ss cfg :
  wf_budget b -> wf_config cfg -> Forall wf_stream ss ->
  (exists r, pickSendableFrames b ss cfg = Some r /\
     steps mk_frame true (budget_max_frame_size b) (budget_conn_window b, map view ss)
       (pr_frames r) (pr_conn r, map view (pr_streams r)) /\
     pr_total r = budget_conn_window b - pr_conn r /\
     (0 < pr_conn r -> Forall blocked (pr_streams r))) /\
  (exists r, pickSendableBytes b ss cfg = Some r /\
     steps dataBytes false (budget_max_frame_size b) (budget_conn_window b, map view ss)
       (pr_frames r) (pr_conn r, map view (pr_streams r)) /\
     pr_total r = budget_conn_window b - pr_conn r /\
     (0 < pr_conn r -> Forall blocked (pr_streams r))).
Proof.
  intros [_ [Hmax _]] Hcfg Hwf. split.
  - destruct (pick_ok mk_frame true emit_frame _ cfg Hmax Hcfg emit_frame_ok
                (budget_conn_window b) ss Hwf)
      as (r & mid & f0 & f1 & Hp & Hf & H0 & _ & H1 & Ht & _ & Hb).
    exists r. split_and!; [exact Hp| |done|done]. rewrite Hf. by eapply steps_app.
  - destruct (pick_ok dataBytes false emit_bytes _ cfg Hmax Hcfg emit_bytes_ok
                (budget_conn_window b) ss Hwf)
      as (r & mid & f0 & f1 & Hp & Hf & H0 & _ & H1 & Ht & _ & Hb).
    exists r. split_and!; [exact Hp| |done|done]. rewrite Hf. by eapply steps_app.
Qed.

Lemma pick_refines_sender_witness :
  exists r, pickSendableBytes (mkBudget 5 3)
    [mkStream (mkPending [bs "abcd"] 1 true) 0 1 9 16 false;
     mkStream (mkPending [bs "xyzw"] 0 false) 0 3 9 0 false] (mkConfig 0) = Some r /\
    pr_total r = 5 - pr_conn r.
Proof.
  destruct (pick_refines_sender (mkBudget 5 3)
    [mkStream (mkPending [bs "abcd"] 1 true) 0 1 9 16 false;
     mkStream (mkPending [bs "xyzw"] 0 false) 0 3 9 0 false] (mkConfig 0))
    as [_ (r & Hr & _ & Ht & _)].
  - split; simpl; lia.
  - split; vm_compute; congruence.
  - repeat constructor; simpl; unfold size_max; lia.
  - exists r. split; [exact Hr|exact Ht].
Defined.

(** what a selection delivers, with distinct stream identifiers: on every stream the DATA
    frames carry exactly the octets removed from its pending data, in order, and debit its window
    by as much; END_STREAM is on at most one frame, the stream's last, sent only when nothing is
    left, and is never left dangling on a stream that has been drained; no frame exceeds the frame
    size and the total never exceeds the connection window. *)
Theorem pickSendableFrames_delivers b ss cfg :
  wf_budget b -> wf_config cfg -> Forall wf_stream ss -> NoDup (map stream_id ss) ->
  exists r, pickSendableFrames b ss cfg = Some r /\
    Forall2 (sent_on (pr_frames r)) (map view ss) (map view (pr_streams r)) /\
    no_dangling_end (map view (pr_streams r)) /\
    Forall (fun f => blen (payload f) <= budget_max_frame_size b) (pr_frames r) /\
    total_payload (pr_frames r) = pr_total r /\
    pr_total r <= Z.max 0 (budget_conn_window b).
Proof.
  intros [_ [Hmax _]] Hcfg Hwf Hnd.
  destruct (pick_ok mk_frame true emit_frame _ cfg Hmax Hcfg emit_frame_ok
              (budget_conn_window b) ss Hwf)
    as (r & mid & f0 & f1 & Hp & Hf & H0 & Hm & H1 & Ht & _).
  exists r. split; [exact Hp|].
  pose proof (steps_app _ _ _ _ _ _ _ _ H0 H1) as Hs. rewrite <- Hf in Hs.
  destruct (steps_sizes _ _ _ _ Hs Hmax) as (Hsz & Hc & Htot). simpl in Hc, Htot.
  split_and!; [|  |done|lia|lia].
  - apply (steps_sent _ _ _ _ Hs). simpl. by rewrite map_map.
  - apply (steps_no_dangling _ _ _ _ _ H1). simpl. apply Forall_map. exact Hm.
Qed.

Lemma pickSendableFrames_delivers_witness :
  exists r, pickSendableFrames (mkBudget 6 3)
    [mkStream (mkPending [bs "abcd"; []] 1 true) 0 1 9 16 false;
     mkStream (mkPending [] 0 true) 0 3 9 0 false] (mkConfig 16384) = Some r /\
    no_dangling_end (map view (pr_streams r)) /\ pr_total r <= Z.max 0 6.
Proof.
  destruct (pickSendableFrames_delivers (mkBudget 6 3)
    [mkStream (mkPending [bs "abcd"; []] 1 true) 0 1 9 16 false;
     mkStream (mkPending [] 0 true) 0 3 9 0 false] (mkConfig 16384))
    as (r & Hr & _ & Hd & _ & _ & Hle).
  - split; simpl; lia.
  - split; vm_compute; congruence.
  - repeat constructor; simpl; unfold size_max; lia.
  - apply (bool_decide_unpack (NoDup [1; 3])). vm_compute. exact I.
  - exists r. split; [exact Hr|split; [exact Hd|exact Hle]].
Defined.

(** ** The byte version against the frame version *)

Section Simulation.
Context {F G : Type}.
Variable g : F -> G.
Variable I : Z -> H2PendingData -> Prop.
Variable emit1 : Z -> H2PendingData -> Z -> F * H2PendingData * bool.
Variable emit2 : Z -> H2PendingData -> Z -> G * H2PendingData * bool.
Variable end1 : Z -> F.
Variable end2 : Z -> G.
Variable max_frame_size : Z.
Variable cfg : H2SchedulerConfig.
Hypothesis Hmax : 0 < max_frame_size.
Hypothesis I_normalize : forall sid p, I sid p -> I sid (normalizePending p) /\ normal (normalizePending p).
Hypothesis I_clear : forall sid p, I sid p -> I sid (clear_end p).
Hypothesis Hend : forall sid p, I sid p -> end2 sid = g (end1 sid).
Hypothesis Hemit : forall sid p n,
  I sid p -> normal p -> 0 < n <= frontPendingSize p -> n <= max_frame_size ->
  let '(f, p', e) := emit1 sid p n in
  emit2 sid p n = (g f, p', e) /\ I sid p' /\ normal p'.

Definition good (s : H2StreamSendState) : Prop := I (stream_id s) (pending s).

Definition map_loop (ls : @loop_state F) : @loop_state G :=
  mkLoop (ls_conn ls) (ls_stream ls) (map g (ls_frames ls)) (ls_total ls).
Definition map_pass (r : @pass_result F) : @pass_result G :=
  mkPass (pr_conn r) (pr_streams r) (map g (pr_frames r)) (pr_total r).

Lemma send_chunk_sim ls n :
  good (ls_stream ls) -> normal (pending (ls_stream ls)) ->
  0 < n <= frontPendingSize (pending (ls_stream ls)) -> n <= max_frame_size ->
  send_chunk emit2 (map_loop ls) n = map_loop (send_chunk emit1 ls n) /\
  good (ls_stream (send_chunk emit1 ls n)) /\ normal (pending (ls_stream (send_chunk emit1 ls n))).
Proof using Hemit I_clear.
  intros Hg Hn Hp Hm. pose proof (Hemit _ _ n Hg Hn Hp Hm) as H. unfold send_chunk. simpl.
  destruct (emit1 (stream_id (ls_stream ls)) (pending (ls_stream ls)) n) as [[f p'] e].
  destruct H as (-> & HI & Hn'). unfold map_loop. simpl. rewrite map_app.
  split_and!; [done| |]; unfold good; simpl; destruct e; auto.
Qed.

Lemma drain_sim fuel ls :
  good (ls_stream ls) -> normal (pending (ls_stream ls)) ->
  drain emit2 max_frame_size fuel (map_loop ls) =
    option_map map_loop (drain emit1 max_frame_size fuel ls) /\
  forall ls', drain emit1 max_frame_size fuel ls = Some ls' -> good (ls_stream ls').
Proof using Hemit I_clear Hmax.
  revert ls. induction fuel as [|fuel IH]; intros ls Hg Hn; cbn [drain];
    change (may_send (map_loop ls)) with (may_send ls);
    change (chunk_size max_frame_size (map_loop ls)) with (chunk_size max_frame_size ls);
    (destruct (may_send ls) eqn:Hms; [|split; [done|congruence]]);
    destruct (Z.eqb_spec (chunk_size max_frame_size ls) 0) as [|Hc]; try (split; [done|congruence]).
  destruct (chunk_size_bounds max_frame_size Hmax ls Hn Hms) as (H0 & _ & _ & Hm & Hf & _).
  destruct (send_chunk_sim ls (chunk_size max_frame_size ls)) as (-> & Hg' & Hn'); [done..|].
  change (ls_conn (map_loop ?x)) with (ls_conn x).
  destruct (ls_conn (send_chunk emit1 ls (chunk_size max_frame_size ls)) <=? 0).
  - split; [done|congruence].
  - by apply IH.
Qed.

Lemma pass_sim conn ss fs total :
  Forall good ss ->
  pass emit2 max_frame_size cfg conn ss (map g fs) total =
    option_map map_pass (pass emit1 max_frame_size cfg conn ss fs total) /\
  forall r, pass emit1 max_frame_size cfg conn ss fs total = Some r -> Forall good (pr_streams r).
Proof using Hemit I_clear Hmax I_normalize.
  intros Hss. revert conn fs total. induction Hss as [|s ss Hs Hss IH]; intros conn fs total;
    cbn [pass]; [split; [done|by intros ? [= <-]]|].
  destruct (I_normalize _ _ Hs) as [HI Hn].
  set (s0 := set_pending s (normalizePending (pending s))).
  destruct (no_chunks (pending s0) || (stream_window s0 <=? 0)).
  - destruct (IH conn fs total) as [-> Hr].
    destruct (pass emit1 max_frame_size cfg conn ss fs total) as [r|]; [|done].
    split; [done|]. intros ? [= <-]. simpl. constructor; [done|by apply Hr].
  - set (s1 := mkStream (pending s0) _ _ _ _ true).
    destruct (drain_sim (Z.to_nat conn) (mkLoop conn s1 fs total)) as [Hd Hg]; [done|done|].
    unfold map_loop in Hd at 1. simpl in Hd. rewrite Hd.
    destruct (drain emit1 max_frame_size (Z.to_nat conn) (mkLoop conn s1 fs total)) as [ls|];
      [|done]. specialize (Hg ls eq_refl). simpl.
    destruct (ls_conn ls <=? 0); [split; [done|]; intros ? [= <-]; by constructor|].
    destruct (IH (ls_conn ls) (ls_frames ls) (ls_total ls)) as [-> Hr].
    destruct (pass emit1 max_frame_size cfg (ls_conn ls) ss _ _) as [r|]; [|done].
    split; [done|]. intros ? [= <-]. simpl. constructor; [done|by apply Hr].
Qed.

Lemma rounds_sim fuel conn ss fs total :
  Forall good ss ->
  rounds emit2 max_frame_size cfg fuel conn ss (map g fs) total =
    option_map map_pass (rounds emit1 max_frame_size cfg fuel conn ss fs total).
Proof using Hemit I_clear Hmax I_normalize.
  revert conn ss fs total. induction fuel as [|fuel IH]; intros conn ss fs total Hss;
    cbn [rounds]; destruct (0 <? conn); try done.
  destruct (pass_sim conn ss fs total Hss) as [-> Hr].
  destruct (pass emit1 max_frame_size cfg conn ss fs total) as [r|]; [|done]. simpl.
  destruct (pr_total r =? total); [done|]. apply IH. by apply Hr.
Qed.

Lemma end_only_sim ss :
  Forall good ss ->
  (end_only_pass end2 ss = let '(ss', fs) := end_only_pass end1 ss in (ss', map g fs)) /\
  Forall good (end_only_pass end1 ss).1.
Proof using Hend I_clear I_normalize.
  induction 1 as [|s ss Hs Hss IH]; cbn [end_only_pass]; [by split|].
  destruct (I_normalize _ _ Hs) as [HI Hn]. destruct IH as [-> Hg].
  destruct (end_only_pass end1 ss) as [ss' fs]. simpl in Hg.
  destruct (shouldSendEndStreamOnly (normalizePending (pending s))); simpl.
  - rewrite (Hend _ _ Hs). split; [done|]. constructor; [by apply I_clear|done].
  - split; [done|by constructor].
Qed.

Lemma pick_sim conn ss :
  Forall good ss ->
  pick emit2 end2 max_frame_size cfg conn ss =
    option_map map_pass (pick emit1 end1 max_frame_size cfg conn ss).
Proof using Hemit Hend I_clear Hmax I_normalize.
  intros Hss. unfold pick. destruct (max_frame_size =? 0); [done|].
  destruct (end_only_sim ss Hss) as [-> Hg].
  destruct (end_only_pass end1 ss) as [ss' fs]. by apply rounds_sim.
Qed.
End Simulation.

(** Chunks as [enqueueData] queues them, none of them empty. *)
Definition full_chunks (sid : Z) (p : H2PendingData) : Prop :=
  0 <= front_offset p /\ Forall (fun c => c <> []) (chunks p).

Lemma dataBytes_encode sid d fin :
  blen d <= kDefaultMaxFrameSize -> dataBytes sid d fin = encode (mk_frame sid d fin).
Proof.
  intros Hd. unfold dataBytes, kDefaultMaxFrameSize in *.
  destruct (Z.ltb_spec 16384 (blen d)); [lia|].
  unfold dataBytes_one, buildH2FrameBytes, buildH2FrameHeaderBytes.
  cbn [mk_frame frame_setEndStream build_data header set_header encode].
  unfold serialize_DataFrame, serialize_header.
  destruct fin.
  - change (pad_size _ _) with 0. change (pad_prefix _ _) with (@nil byte).
    change (pad_suffix _ _) with (@nil byte). rewrite Z.add_0_r, app_nil_r. reflexivity.
  - change (pad_size _ _) with 0. change (pad_prefix _ _) with (@nil byte).
    change (pad_suffix _ _) with (@nil byte). rewrite Z.add_0_r, app_nil_r. reflexivity.
Qed.

Lemma full_chunks_normalize sid p :
  full_chunks sid p -> full_chunks sid (normalizePending p) /\ normal (normalizePending p).
Proof.
  intros [Ho Hc]. destruct (normalize_spec p Ho) as (_ & Hn & _). split; [|done].
  split; [apply Hn|]. clear Hn. destruct p as [cs off e]. unfold normalizePending. simpl in *.
  revert off Ho. induction Hc as [|c cs Hc Hcs IH]; intros off Ho; simpl; [constructor|].
  destruct (blen c <=? off); simpl; [by apply IH|by constructor].
Qed.

(** Both versions decide END_STREAM alike when no empty chunk is queued. *)
Lemma emit_bytes_encode sid p n :
  full_chunks sid p -> normal p -> 0 < n <= frontPendingSize p -> n <= kDefaultMaxFrameSize ->
  let '(f, p', e) := emit_frame sid p n in
  emit_bytes sid p n = (encode f, p', e) /\ full_chunks sid p' /\ normal p'.
Proof.
  intros Hfc Hn Hp Hm. destruct (advance_spec p n Hn ltac:(lia)) as (_ & Hlen & Hn' & He).
  cbn [emit_frame]. unfold emit_frame, emit_bytes.
  assert ((end_stream (advance p n) && no_chunks (advance p n))%bool =
          (end_stream p && (length (chunks p) =? 1)%nat &&
           (front_offset p + n =? blen (default [] (head (chunks p)))))%bool) as <-.
  { rewrite He. destruct (end_stream p); simpl; [|done].
    destruct Hfc as [Ho Hc]. unfold advance, no_chunks, normalizePending. simpl.
    unfold frontPendingSize in Hp. destruct (chunks p) as [|c cs]; simpl in *; [lia|].
    destruct (Z.leb_spec (blen c) (front_offset p)); [lia|].
    destruct (Z.eqb_spec (front_offset p + n) (blen c)) as [E|E].
    - destruct (Z.leb_spec (blen c) (front_offset p + n)); [|lia].
      destruct cs as [|c' cs]; simpl; [done|].
      inversion_clear Hc as [|? ? _ Hc']. inversion_clear Hc' as [|? ? Hne _].
      destruct (Z.leb_spec (blen c') 0); [|done].
      destruct c'; [done|]. rewrite blen_cons in *. pose proof (blen_nonneg c'). lia.
    - destruct (Z.leb_spec (blen c) (front_offset p + n)); [lia|]. simpl. by rewrite andb_false_r. }
  split_and!; [|by apply full_chunks_normalize with (p := mkPending _ _ _); destruct Hfc; split;
    [simpl; lia|]|done].
  rewrite dataBytes_encode by lia. done.
Qed.

(** the hot path that writes serialized frames is the frame path followed by the codec: for
    frame sizes up to the default and no empty chunk queued, [pickSendableBytes] returns the
    encodings of the frames [pickSendableFrames] returns, and leaves the same windows, deficits
    and pending data; so do the overloads that first empty the control and header queues. *)
Theorem pickSendableBytes_encodes b q cfg :
  wf_budget b -> budget_max_frame_size b <= kDefaultMaxFrameSize ->
  Forall (fun s => full_chunks (stream_id s) (pending s)) (data_streams q) ->
  pickSendableBytes_queues b q cfg =
  match pickSendableFrames_queues b q cfg with
  | Some (sel, q') =>
      Some (mkSelection (map encode (frames sel)) (total_data_bytes sel), q')
  | None => None
  end.
Proof.
  intros [_ [Hmax _]] Hle Hss.
  assert (forall fs out, drainFrameQueue encode fs (map encode out) =
            let '(fs', out') := drainFrameQueue (fun f => f) fs out in (fs', map encode out'))
    as Hdrain.
  { induction fs as [|f fs IH]; intros out; simpl; [done|]. by rewrite <- IH, map_app. }
  unfold pickSendableBytes_queues, pickSendableFrames_queues, pick_queues.
  rewrite (Hdrain _ []). destruct (drainFrameQueue (fun f => f) (control_frames q) []) as [c out].
  rewrite Hdrain. destruct (drainFrameQueue (fun f => f) (header_frames q) out) as [h out'].
  unfold pickSendableBytes, pickSendableFrames.
  rewrite (pick_sim encode full_chunks emit_frame emit_bytes emit_frame_end emit_bytes_end _ cfg Hmax);
    [|apply full_chunks_normalize|done|done| |done].
  - destruct (pick emit_frame _ _ _ _ _) as [r|]; [|done]. simpl. by rewrite map_app.
  - intros sid p n Hf Hn Hp Hm. apply emit_bytes_encode; [done..|lia].
Qed.

Lemma pickSendableBytes_encodes_witness :
  let q := mkQueues [build_data 0 [] false] []
             [mkStream (mkPending [bs "abcd"; bs "e"] 1 true) 0 1 9 16 false] in
  pickSendableBytes_queues (mkBudget 6 3) q (mkConfig 1) =
  match pickSendableFrames_queues (mkBudget 6 3) q (mkConfig 1) with
  | Some (sel, q') =>
      Some (mkSelection (map encode (frames sel)) (total_data_bytes sel), q')
  | None => None
  end.
Proof.
  intros q. apply (pickSendableBytes_encodes (mkBudget 6 3) q (mkConfig 1)).
  - split; simpl; lia.
  - vm_compute. congruence.
  - repeat constructor; simpl; [lia|discriminate|discriminate].
Defined.

(** With an empty chunk queued last the two versions differ: the frame version ends the stream
    with its last octet, the byte version sends no END_STREAM in this selection. *)
Example empty_chunk_splits_versions :
  let ss := [mkStream (mkPending [bs "a"; []] 0 true) 0 1 9 16 false] in
  let b := mkBudget 6 3 in
  option_map pr_frames (pickSendableBytes b ss (mkConfig 1)) = Some [dataBytes 1 (bs "a") false] /\
  option_map pr_frames (pickSendableFrames b ss (mkConfig 1)) = Some [mk_frame 1 (bs "a") true].
Proof. split; vm_compute; reflexivity. Qed.
