(* ===== verification/HpackTables.v ===== *)
(** * HPACK tables

    The constant tables of [galay-http2/protoc/http2_hpack.cc], entry by entry: the Huffman code
    (RFC 7541, Appendix B), the four-bit Huffman decoder and its accepting states, and the static
    header table (Appendix A). *)

From Stdlib Require Import ZArith.
From stdpp Require Import base list strings.
From S2P Require Import Prelude.

Open Scope Z_scope.

Record HuffmanCode : Type := mkCode { hc_code : Z; hc_bits : Z }.

(** [kHuffmanCodes[257]]: one code per octet, then EOS. *)
Definition kHuffmanCodes : list HuffmanCode := Eval cbv in
  map (fun cb => mkCode cb.1 cb.2) [
   (0x1ff8, 13); (0x7fffd8, 23); (0xfffffe2, 28); (0xfffffe3, 28); (0xfffffe4, 28); (0xfffffe5, 28);
   (0xfffffe6, 28); (0xfffffe7, 28); (0xfffffe8, 28); (0xffffea, 24); (0x3ffffffc, 30); (0xfffffe9, 28);
   (0xfffffea, 28); (0x3ffffffd, 30); (0xfffffeb, 28); (0xfffffec, 28); (0xfffffed, 28); (0xfffffee, 28);
   (0xfffffef, 28); (0xffffff0, 28); (0xffffff1, 28); (0xffffff2, 28); (0x3ffffffe, 30); (0xffffff3, 28);
   (0xffffff4, 28); (0xffffff5, 28); (0xffffff6, 28); (0xffffff7, 28); (0xffffff8, 28); (0xffffff9, 28);
   (0xffffffa, 28); (0xffffffb, 28); (0x14, 6); (0x3f8, 10); (0x3f9, 10); (0xffa, 12);
   (0x1ff9, 13); (0x15, 6); (0xf8, 8); (0x7fa, 11); (0x3fa, 10); (0x3fb, 10);
   (0xf9, 8); (0x7fb, 11); (0xfa, 8); (0x16, 6); (0x17, 6); (0x18, 6);
   (0x0, 5); (0x1, 5); (0x2, 5); (0x19, 6); (0x1a, 6); (0x1b, 6);
   (0x1c, 6); (0x1d, 6); (0x1e, 6); (0x1f, 6); (0x5c, 7); (0xfb, 8);
   (0x7ffc, 15); (0x20, 6); (0xffb, 12); (0x3fc, 10); (0x1ffa, 13); (0x21, 6);
   (0x5d, 7); (0x5e, 7); (0x5f, 7); (0x60, 7); (0x61, 7); (0x62, 7);
   (0x63, 7); (0x64, 7); (0x65, 7); (0x66, 7); (0x67, 7); (0x68, 7);
   (0x69, 7); (0x6a, 7); (0x6b, 7); (0x6c, 7); (0x6d, 7); (0x6e, 7);
   (0x6f, 7); (0x70, 7); (0x71, 7); (0x72, 7); (0xfc, 8); (0x73, 7);
   (0xfd, 8); (0x1ffb, 13); (0x7fff0, 19); (0x1ffc, 13); (0x3ffc, 14); (0x22, 6);
   (0x7ffd, 15); (0x3, 5); (0x23, 6); (0x4, 5); (0x24, 6); (0x5, 5);
   (0x25, 6); (0x26, 6); (0x27, 6); (0x6, 5); (0x74, 7); (0x75, 7);
   (0x28, 6); (0x29, 6); (0x2a, 6); (0x7, 5); (0x2b, 6); (0x76, 7);
   (0x2c, 6); (0x8, 5); (0x9, 5); (0x2d, 6); (0x77, 7); (0x78, 7);
   (0x79, 7); (0x7a, 7); (0x7b, 7); (0x7ffe, 15); (0x7fc, 11); (0x3ffd, 14);
   (0x1ffd, 13); (0xffffffc, 28); (0xfffe6, 20); (0x3fffd2, 22); (0xfffe7, 20); (0xfffe8, 20);
   (0x3fffd3, 22); (0x3fffd4, 22); (0x3fffd5, 22); (0x7fffd9, 23); (0x3fffd6, 22); (0x7fffda, 23);
   (0x7fffdb, 23); (0x7fffdc, 23); (0x7fffdd, 23); (0x7fffde, 23); (0xffffeb, 24); (0x7fffdf, 23);
   (0xffffec, 24); (0xffffed, 24); (0x3fffd7, 22); (0x7fffe0, 23); (0xffffee, 24); (0x7fffe1, 23);
   (0x7fffe2, 23); (0x7fffe3, 23); (0x7fffe4, 23); (0x1fffdc, 21); (0x3fffd8, 22); (0x7fffe5, 23);
   (0x3fffd9, 22); (0x7fffe6, 23); (0x7fffe7, 23); (0xffffef, 24); (0x3fffda, 22); (0x1fffdd, 21);
   (0xfffe9, 20); (0x3fffdb, 22); (0x3fffdc, 22); (0x7fffe8, 23); (0x7fffe9, 23); (0x1fffde, 21);
   (0x7fffea, 23); (0x3fffdd, 22); (0x3fffde, 22); (0xfffff0, 24); (0x1fffdf, 21); (0x3fffdf, 22);
   (0x7fffeb, 23); (0x7fffec, 23); (0x1fffe0, 21); (0x1fffe1, 21); (0x3fffe0, 22); (0x1fffe2, 21);
   (0x7fffed, 23); (0x3fffe1, 22); (0x7fffee, 23); (0x7fffef, 23); (0xfffea, 20); (0x3fffe2, 22);
   (0x3fffe3, 22); (0x3fffe4, 22); (0x7ffff0, 23); (0x3fffe5, 22); (0x3fffe6, 22); (0x7ffff1, 23);
   (0x3ffffe0, 26); (0x3ffffe1, 26); (0xfffeb, 20); (0x7fff1, 19); (0x3fffe7, 22); (0x7ffff2, 23);
   (0x3fffe8, 22); (0x1ffffec, 25); (0x3ffffe2, 26); (0x3ffffe3, 26); (0x3ffffe4, 26); (0x7ffffde, 27);
   (0x7ffffdf, 27); (0x3ffffe5, 26); (0xfffff1, 24); (0x1ffffed, 25); (0x7fff2, 19); (0x1fffe3, 21);
   (0x3ffffe6, 26); (0x7ffffe0, 27); (0x7ffffe1, 27); (0x3ffffe7, 26); (0x7ffffe2, 27); (0xfffff2, 24);
   (0x1fffe4, 21); (0x1fffe5, 21); (0x3ffffe8, 26); (0x3ffffe9, 26); (0xffffffd, 28); (0x7ffffe3, 27);
   (0x7ffffe4, 27); (0x7ffffe5, 27); (0xfffec, 20); (0xfffff3, 24); (0xfffed, 20); (0x1fffe6, 21);
   (0x3fffe9, 22); (0x1fffe7, 21); (0x1fffe8, 21); (0x7ffff3, 23); (0x3fffea, 22); (0x3fffeb, 22);
   (0x1ffffee, 25); (0x1ffffef, 25); (0xfffff4, 24); (0xfffff5, 24); (0x3ffffea, 26); (0x7ffff4, 23);
   (0x3ffffeb, 26); (0x7ffffe6, 27); (0x3ffffec, 26); (0x3ffffed, 26); (0x7ffffe7, 27); (0x7ffffe8, 27);
   (0x7ffffe9, 27); (0x7ffffea, 27); (0x7ffffeb, 27); (0xffffffe, 28); (0x7ffffec, 27); (0x7ffffed, 27);
   (0x7ffffee, 27); (0x7ffffef, 27); (0x7fffff0, 27); (0x3ffffee, 26); (0x3fffffff, 30)].

Inductive HuffmanDecodeFlag : Type := HUFFMAN_NONE | HUFFMAN_EMIT | HUFFMAN_FAIL.

Record HuffmanDecodeEntry : Type := mkEntry {
  hd_state : Z;
  hd_flags : HuffmanDecodeFlag;
  hd_symbol : Z
}.

(** One row of the table below: [N], [E] and [X] stand for the three flags. *)
#[local] Abbreviation N s := (mkEntry s HUFFMAN_NONE 0).
#[local] Abbreviation E s y := (mkEntry s HUFFMAN_EMIT y).
#[local] Abbreviation X := (mkEntry 0 HUFFMAN_FAIL 0).

(** [kHuffmanDecodeTable[256][16]]: one row per state, one entry per nibble. *)
Definition kHuffmanDecodeTable : list (list HuffmanDecodeEntry) := [
  [N 1; N 2; N 3; N 4; N 5; N 6; N 7; N 8;
   N 9; N 10; N 11; N 12; N 13; N 14; N 15; N 16];
  [E 17 48; E 18 48; E 19 48; E 20 48; E 21 48; E 22 48; E 23 48; E 24 48;
   E 17 49; E 18 49; E 19 49; E 20 49; E 21 49; E 22 49; E 23 49; E 24 49];
  [E 17 50; E 18 50; E 19 50; E 20 50; E 21 50; E 22 50; E 23 50; E 24 50;
   E 17 97; E 18 97; E 19 97; E 20 97; E 21 97; E 22 97; E 23 97; E 24 97];
  [E 17 99; E 18 99; E 19 99; E 20 99; E 21 99; E 22 99; E 23 99; E 24 99;
   E 17 101; E 18 101; E 19 101; E 20 101; E 21 101; E 22 101; E 23 101; E 24 101];
  [E 17 105; E 18 105; E 19 105; E 20 105; E 21 105; E 22 105; E 23 105; E 24 105;
   E 17 111; E 18 111; E 19 111; E 20 111; E 21 111; E 22 111; E 23 111; E 24 111];
  [E 17 115; E 18 115; E 19 115; E 20 115; E 21 115; E 22 115; E 23 115; E 24 115;
   E 17 116; E 18 116; E 19 116; E 20 116; E 21 116; E 22 116; E 23 116; E 24 116];
  [E 25 32; E 26 32; E 27 32; E 28 32; E 25 37; E 26 37; E 27 37; E 28 37;
   E 25 45; E 26 45; E 27 45; E 28 45; E 25 46; E 26 46; E 27 46; E 28 46];
  [E 25 47; E 26 47; E 27 47; E 28 47; E 25 51; E 26 51; E 27 51; E 28 51;
   E 25 52; E 26 52; E 27 52; E 28 52; E 25 53; E 26 53; E 27 53; E 28 53];
  [E 25 54; E 26 54; E 27 54; E 28 54; E 25 55; E 26 55; E 27 55; E 28 55;
   E 25 56; E 26 56; E 27 56; E 28 56; E 25 57; E 26 57; E 27 57; E 28 57];
  [E 25 61; E 26 61; E 27 61; E 28 61; E 25 65; E 26 65; E 27 65; E 28 65;
   E 25 95; E 26 95; E 27 95; E 28 95; E 25 98; E 26 98; E 27 98; E 28 98];
  [E 25 100; E 26 100; E 27 100; E 28 100; E 25 102; E 26 102; E 27 102; E 28 102;
   E 25 103; E 26 103; E 27 103; E 28 103; E 25 104; E 26 104; E 27 104; E 28 104];
  [E 25 108; E 26 108; E 27 108; E 28 108; E 25 109; E 26 109; E 27 109; E 28 109;
   E 25 110; E 26 110; E 27 110; E 28 110; E 25 112; E 26 112; E 27 112; E 28 112];
  [E 25 114; E 26 114; E 27 114; E 28 114; E 25 117; E 26 117; E 27 117; E 28 117;
   E 29 58; E 30 58; E 29 66; E 30 66; E 29 67; E 30 67; E 29 68; E 30 68];
  [E 29 69; E 30 69; E 29 70; E 30 70; E 29 71; E 30 71; E 29 72; E 30 72;
   E 29 73; E 30 73; E 29 74; E 30 74; E 29 75; E 30 75; E 29 76; E 30 76];
  [E 29 77; E 30 77; E 29 78; E 30 78; E 29 79; E 30 79; E 29 80; E 30 80;
   E 29 81; E 30 81; E 29 82; E 30 82; E 29 83; E 30 83; E 29 84; E 30 84];
  [E 29 85; E 30 85; E 29 86; E 30 86; E 29 87; E 30 87; E 29 89; E 30 89;
   E 29 106; E 30 106; E 29 107; E 30 107; E 29 113; E 30 113; E 29 118; E 30 118];
  [E 29 119; E 30 119; E 29 120; E 30 120; E 29 121; E 30 121; E 29 122; E 30 122;
   E 0 38; E 0 42; E 0 44; E 0 59; E 0 88; E 0 90; N 31; N 32];
  [E 25 48; E 26 48; E 27 48; E 28 48; E 25 49; E 26 49; E 27 49; E 28 49;
   E 25 50; E 26 50; E 27 50; E 28 50; E 25 97; E 26 97; E 27 97; E 28 97];
  [E 25 99; E 26 99; E 27 99; E 28 99; E 25 101; E 26 101; E 27 101; E 28 101;
   E 25 105; E 26 105; E 27 105; E 28 105; E 25 111; E 26 111; E 27 111; E 28 111];
  [E 25 115; E 26 115; E 27 115; E 28 115; E 25 116; E 26 116; E 27 116; E 28 116;
   E 29 32; E 30 32; E 29 37; E 30 37; E 29 45; E 30 45; E 29 46; E 30 46];
  [E 29 47; E 30 47; E 29 51; E 30 51; E 29 52; E 30 52; E 29 53; E 30 53;
   E 29 54; E 30 54; E 29 55; E 30 55; E 29 56; E 30 56; E 29 57; E 30 57];
  [E 29 61; E 30 61; E 29 65; E 30 65; E 29 95; E 30 95; E 29 98; E 30 98;
   E 29 100; E 30 100; E 29 102; E 30 102; E 29 103; E 30 103; E 29 104; E 30 104];
  [E 29 108; E 30 108; E 29 109; E 30 109; E 29 110; E 30 110; E 29 112; E 30 112;
   E 29 114; E 30 114; E 29 117; E 30 117; E 0 58; E 0 66; E 0 67; E 0 68];
  [E 0 69; E 0 70; E 0 71; E 0 72; E 0 73; E 0 74; E 0 75; E 0 76;
   E 0 77; E 0 78; E 0 79; E 0 80; E 0 81; E 0 82; E 0 83; E 0 84];
  [E 0 85; E 0 86; E 0 87; E 0 89; E 0 106; E 0 107; E 0 113; E 0 118;
   E 0 119; E 0 120; E 0 121; E 0 122; N 33; N 34; N 35; N 36];
  [E 29 48; E 30 48; E 29 49; E 30 49; E 29 50; E 30 50; E 29 97; E 30 97;
   E 29 99; E 30 99; E 29 101; E 30 101; E 29 105; E 30 105; E 29 111; E 30 111];
  [E 29 115; E 30 115; E 29 116; E 30 116; E 0 32; E 0 37; E 0 45; E 0 46;
   E 0 47; E 0 51; E 0 52; E 0 53; E 0 54; E 0 55; E 0 56; E 0 57];
  [E 0 61; E 0 65; E 0 95; E 0 98; E 0 100; E 0 102; E 0 103; E 0 104;
   E 0 108; E 0 109; E 0 110; E 0 112; E 0 114; E 0 117; N 37; N 38];
  [N 39; N 40; N 41; N 42; N 43; N 44; N 45; N 46;
   N 47; N 48; N 49; N 50; N 51; N 52; N 53; N 54];
  [E 0 48; E 0 49; E 0 50; E 0 97; E 0 99; E 0 101; E 0 105; E 0 111;
   E 0 115; E 0 116; N 55; N 56; N 57; N 58; N 59; N 60];
  [N 61; N 62; N 63; N 64; N 65; N 66; N 67; N 68;
   N 69; N 70; N 71; N 72; N 73; N 74; N 75; N 76];
  [E 25 33; E 26 33; E 27 33; E 28 33; E 25 34; E 26 34; E 27 34; E 28 34;
   E 25 40; E 26 40; E 27 40; E 28 40; E 25 41; E 26 41; E 27 41; E 28 41];
  [E 25 63; E 26 63; E 27 63; E 28 63; E 29 39; E 30 39; E 29 43; E 30 43;
   E 29 124; E 30 124; E 0 35; E 0 62; N 77; N 78; N 79; N 80];
  [E 17 38; E 18 38; E 19 38; E 20 38; E 21 38; E 22 38; E 23 38; E 24 38;
   E 17 42; E 18 42; E 19 42; E 20 42; E 21 42; E 22 42; E 23 42; E 24 42];
  [E 17 44; E 18 44; E 19 44; E 20 44; E 21 44; E 22 44; E 23 44; E 24 44;
   E 17 59; E 18 59; E 19 59; E 20 59; E 21 59; E 22 59; E 23 59; E 24 59];
  [E 17 88; E 18 88; E 19 88; E 20 88; E 21 88; E 22 88; E 23 88; E 24 88;
   E 17 90; E 18 90; E 19 90; E 20 90; E 21 90; E 22 90; E 23 90; E 24 90];
  [E 29 33; E 30 33; E 29 34; E 30 34; E 29 40; E 30 40; E 29 41; E 30 41;
   E 29 63; E 30 63; E 0 39; E 0 43; E 0 124; N 81; N 82; N 83];
  [E 17 58; E 18 58; E 19 58; E 20 58; E 21 58; E 22 58; E 23 58; E 24 58;
   E 17 66; E 18 66; E 19 66; E 20 66; E 21 66; E 22 66; E 23 66; E 24 66];
  [E 17 67; E 18 67; E 19 67; E 20 67; E 21 67; E 22 67; E 23 67; E 24 67;
   E 17 68; E 18 68; E 19 68; E 20 68; E 21 68; E 22 68; E 23 68; E 24 68];
  [E 17 69; E 18 69; E 19 69; E 20 69; E 21 69; E 22 69; E 23 69; E 24 69;
   E 17 70; E 18 70; E 19 70; E 20 70; E 21 70; E 22 70; E 23 70; E 24 70];
  [E 17 71; E 18 71; E 19 71; E 20 71; E 21 71; E 22 71; E 23 71; E 24 71;
   E 17 72; E 18 72; E 19 72; E 20 72; E 21 72; E 22 72; E 23 72; E 24 72];
  [E 17 73; E 18 73; E 19 73; E 20 73; E 21 73; E 22 73; E 23 73; E 24 73;
   E 17 74; E 18 74; E 19 74; E 20 74; E 21 74; E 22 74; E 23 74; E 24 74];
  [E 17 75; E 18 75; E 19 75; E 20 75; E 21 75; E 22 75; E 23 75; E 24 75;
   E 17 76; E 18 76; E 19 76; E 20 76; E 21 76; E 22 76; E 23 76; E 24 76];
  [E 17 77; E 18 77; E 19 77; E 20 77; E 21 77; E 22 77; E 23 77; E 24 77;
   E 17 78; E 18 78; E 19 78; E 20 78; E 21 78; E 22 78; E 23 78; E 24 78];
  [E 17 79; E 18 79; E 19 79; E 20 79; E 21 79; E 22 79; E 23 79; E 24 79;
   E 17 80; E 18 80; E 19 80; E 20 80; E 21 80; E 22 80; E 23 80; E 24 80];
  [E 17 81; E 18 81; E 19 81; E 20 81; E 21 81; E 22 81; E 23 81; E 24 81;
   E 17 82; E 18 82; E 19 82; E 20 82; E 21 82; E 22 82; E 23 82; E 24 82];
  [E 17 83; E 18 83; E 19 83; E 20 83; E 21 83; E 22 83; E 23 83; E 24 83;
   E 17 84; E 18 84; E 19 84; E 20 84; E 21 84; E 22 84; E 23 84; E 24 84];
  [E 17 85; E 18 85; E 19 85; E 20 85; E 21 85; E 22 85; E 23 85; E 24 85;
   E 17 86; E 18 86; E 19 86; E 20 86; E 21 86; E 22 86; E 23 86; E 24 86];
  [E 17 87; E 18 87; E 19 87; E 20 87; E 21 87; E 22 87; E 23 87; E 24 87;
   E 17 89; E 18 89; E 19 89; E 20 89; E 21 89; E 22 89; E 23 89; E 24 89];
  [E 17 106; E 18 106; E 19 106; E 20 106; E 21 106; E 22 106; E 23 106; E 24 106;
   E 17 107; E 18 107; E 19 107; E 20 107; E 21 107; E 22 107; E 23 107; E 24 107];
  [E 17 113; E 18 113; E 19 113; E 20 113; E 21 113; E 22 113; E 23 113; E 24 113;
   E 17 118; E 18 118; E 19 118; E 20 118; E 21 118; E 22 118; E 23 118; E 24 118];
  [E 17 119; E 18 119; E 19 119; E 20 119; E 21 119; E 22 119; E 23 119; E 24 119;
   E 17 120; E 18 120; E 19 120; E 20 120; E 21 120; E 22 120; E 23 120; E 24 120];
  [E 17 121; E 18 121; E 19 121; E 20 121; E 21 121; E 22 121; E 23 121; E 24 121;
   E 17 122; E 18 122; E 19 122; E 20 122; E 21 122; E 22 122; E 23 122; E 24 122];
  [E 25 38; E 26 38; E 27 38; E 28 38; E 25 42; E 26 42; E 27 42; E 28 42;
   E 25 44; E 26 44; E 27 44; E 28 44; E 25 59; E 26 59; E 27 59; E 28 59];
  [E 25 88; E 26 88; E 27 88; E 28 88; E 25 90; E 26 90; E 27 90; E 28 90;
   E 0 33; E 0 34; E 0 40; E 0 41; E 0 63; N 84; N 85; N 86];
  [E 17 32; E 18 32; E 19 32; E 20 32; E 21 32; E 22 32; E 23 32; E 24 32;
   E 17 37; E 18 37; E 19 37; E 20 37; E 21 37; E 22 37; E 23 37; E 24 37];
  [E 17 45; E 18 45; E 19 45; E 20 45; E 21 45; E 22 45; E 23 45; E 24 45;
   E 17 46; E 18 46; E 19 46; E 20 46; E 21 46; E 22 46; E 23 46; E 24 46];
  [E 17 47; E 18 47; E 19 47; E 20 47; E 21 47; E 22 47; E 23 47; E 24 47;
   E 17 51; E 18 51; E 19 51; E 20 51; E 21 51; E 22 51; E 23 51; E 24 51];
  [E 17 52; E 18 52; E 19 52; E 20 52; E 21 52; E 22 52; E 23 52; E 24 52;
   E 17 53; E 18 53; E 19 53; E 20 53; E 21 53; E 22 53; E 23 53; E 24 53];
  [E 17 54; E 18 54; E 19 54; E 20 54; E 21 54; E 22 54; E 23 54; E 24 54;
   E 17 55; E 18 55; E 19 55; E 20 55; E 21 55; E 22 55; E 23 55; E 24 55];
  [E 17 56; E 18 56; E 19 56; E 20 56; E 21 56; E 22 56; E 23 56; E 24 56;
   E 17 57; E 18 57; E 19 57; E 20 57; E 21 57; E 22 57; E 23 57; E 24 57];
  [E 17 61; E 18 61; E 19 61; E 20 61; E 21 61; E 22 61; E 23 61; E 24 61;
   E 17 65; E 18 65; E 19 65; E 20 65; E 21 65; E 22 65; E 23 65; E 24 65];
  [E 17 95; E 18 95; E 19 95; E 20 95; E 21 95; E 22 95; E 23 95; E 24 95;
   E 17 98; E 18 98; E 19 98; E 20 98; E 21 98; E 22 98; E 23 98; E 24 98];
  [E 17 100; E 18 100; E 19 100; E 20 100; E 21 100; E 22 100; E 23 100; E 24 100;
   E 17 102; E 18 102; E 19 102; E 20 102; E 21 102; E 22 102; E 23 102; E 24 102];
  [E 17 103; E 18 103; E 19 103; E 20 103; E 21 103; E 22 103; E 23 103; E 24 103;
   E 17 104; E 18 104; E 19 104; E 20 104; E 21 104; E 22 104; E 23 104; E 24 104];
  [E 17 108; E 18 108; E 19 108; E 20 108; E 21 108; E 22 108; E 23 108; E 24 108;
   E 17 109; E 18 109; E 19 109; E 20 109; E 21 109; E 22 109; E 23 109; E 24 109];
  [E 17 110; E 18 110; E 19 110; E 20 110; E 21 110; E 22 110; E 23 110; E 24 110;
   E 17 112; E 18 112; E 19 112; E 20 112; E 21 112; E 22 112; E 23 112; E 24 112];
  [E 17 114; E 18 114; E 19 114; E 20 114; E 21 114; E 22 114; E 23 114; E 24 114;
   E 17 117; E 18 117; E 19 117; E 20 117; E 21 117; E 22 117; E 23 117; E 24 117];
  [E 25 58; E 26 58; E 27 58; E 28 58; E 25 66; E 26 66; E 27 66; E 28 66;
   E 25 67; E 26 67; E 27 67; E 28 67; E 25 68; E 26 68; E 27 68; E 28 68];
  [E 25 69; E 26 69; E 27 69; E 28 69; E 25 70; E 26 70; E 27 70; E 28 70;
   E 25 71; E 26 71; E 27 71; E 28 71; E 25 72; E 26 72; E 27 72; E 28 72];
  [E 25 73; E 26 73; E 27 73; E 28 73; E 25 74; E 26 74; E 27 74; E 28 74;
   E 25 75; E 26 75; E 27 75; E 28 75; E 25 76; E 26 76; E 27 76; E 28 76];
  [E 25 77; E 26 77; E 27 77; E 28 77; E 25 78; E 26 78; E 27 78; E 28 78;
   E 25 79; E 26 79; E 27 79; E 28 79; E 25 80; E 26 80; E 27 80; E 28 80];
  [E 25 81; E 26 81; E 27 81; E 28 81; E 25 82; E 26 82; E 27 82; E 28 82;
   E 25 83; E 26 83; E 27 83; E 28 83; E 25 84; E 26 84; E 27 84; E 28 84];
  [E 25 85; E 26 85; E 27 85; E 28 85; E 25 86; E 26 86; E 27 86; E 28 86;
   E 25 87; E 26 87; E 27 87; E 28 87; E 25 89; E 26 89; E 27 89; E 28 89];
  [E 25 106; E 26 106; E 27 106; E 28 106; E 25 107; E 26 107; E 27 107; E 28 107;
   E 25 113; E 26 113; E 27 113; E 28 113; E 25 118; E 26 118; E 27 118; E 28 118];
  [E 25 119; E 26 119; E 27 119; E 28 119; E 25 120; E 26 120; E 27 120; E 28 120;
   E 25 121; E 26 121; E 27 121; E 28 121; E 25 122; E 26 122; E 27 122; E 28 122];
  [E 29 38; E 30 38; E 29 42; E 30 42; E 29 44; E 30 44; E 29 59; E 30 59;
   E 29 88; E 30 88; E 29 90; E 30 90; N 87; N 88; N 89; N 90];
  [E 17 0; E 18 0; E 19 0; E 20 0; E 21 0; E 22 0; E 23 0; E 24 0;
   E 17 36; E 18 36; E 19 36; E 20 36; E 21 36; E 22 36; E 23 36; E 24 36];
  [E 17 64; E 18 64; E 19 64; E 20 64; E 21 64; E 22 64; E 23 64; E 24 64;
   E 17 91; E 18 91; E 19 91; E 20 91; E 21 91; E 22 91; E 23 91; E 24 91];
  [E 17 93; E 18 93; E 19 93; E 20 93; E 21 93; E 22 93; E 23 93; E 24 93;
   E 17 126; E 18 126; E 19 126; E 20 126; E 21 126; E 22 126; E 23 126; E 24 126];
  [E 25 94; E 26 94; E 27 94; E 28 94; E 25 125; E 26 125; E 27 125; E 28 125;
   E 29 60; E 30 60; E 29 96; E 30 96; E 29 123; E 30 123; N 91; N 92];
  [E 17 35; E 18 35; E 19 35; E 20 35; E 21 35; E 22 35; E 23 35; E 24 35;
   E 17 62; E 18 62; E 19 62; E 20 62; E 21 62; E 22 62; E 23 62; E 24 62];
  [E 25 0; E 26 0; E 27 0; E 28 0; E 25 36; E 26 36; E 27 36; E 28 36;
   E 25 64; E 26 64; E 27 64; E 28 64; E 25 91; E 26 91; E 27 91; E 28 91];
  [E 25 93; E 26 93; E 27 93; E 28 93; E 25 126; E 26 126; E 27 126; E 28 126;
   E 29 94; E 30 94; E 29 125; E 30 125; E 0 60; E 0 96; E 0 123; N 93];
  [E 17 39; E 18 39; E 19 39; E 20 39; E 21 39; E 22 39; E 23 39; E 24 39;
   E 17 43; E 18 43; E 19 43; E 20 43; E 21 43; E 22 43; E 23 43; E 24 43];
  [E 17 124; E 18 124; E 19 124; E 20 124; E 21 124; E 22 124; E 23 124; E 24 124;
   E 25 35; E 26 35; E 27 35; E 28 35; E 25 62; E 26 62; E 27 62; E 28 62];
  [E 29 0; E 30 0; E 29 36; E 30 36; E 29 64; E 30 64; E 29 91; E 30 91;
   E 29 93; E 30 93; E 29 126; E 30 126; E 0 94; E 0 125; N 94; N 95];
  [E 17 33; E 18 33; E 19 33; E 20 33; E 21 33; E 22 33; E 23 33; E 24 33;
   E 17 34; E 18 34; E 19 34; E 20 34; E 21 34; E 22 34; E 23 34; E 24 34];
  [E 17 40; E 18 40; E 19 40; E 20 40; E 21 40; E 22 40; E 23 40; E 24 40;
   E 17 41; E 18 41; E 19 41; E 20 41; E 21 41; E 22 41; E 23 41; E 24 41];
  [E 17 63; E 18 63; E 19 63; E 20 63; E 21 63; E 22 63; E 23 63; E 24 63;
   E 25 39; E 26 39; E 27 39; E 28 39; E 25 43; E 26 43; E 27 43; E 28 43];
  [E 25 124; E 26 124; E 27 124; E 28 124; E 29 35; E 30 35; E 29 62; E 30 62;
   E 0 0; E 0 36; E 0 64; E 0 91; E 0 93; E 0 126; N 96; N 97];
  [E 29 92; E 30 92; E 29 195; E 30 195; E 29 208; E 30 208; E 0 128; E 0 130;
   E 0 131; E 0 162; E 0 184; E 0 194; E 0 224; E 0 226; N 98; N 99];
  [N 100; N 101; N 102; N 103; N 104; N 105; N 106; N 107;
   N 108; N 109; N 110; N 111; N 112; N 113; N 114; N 115];
  [E 0 92; E 0 195; E 0 208; N 116; N 117; N 118; N 119; N 120;
   N 121; N 122; N 123; N 124; N 125; N 126; N 127; N 128];
  [E 17 60; E 18 60; E 19 60; E 20 60; E 21 60; E 22 60; E 23 60; E 24 60;
   E 17 96; E 18 96; E 19 96; E 20 96; E 21 96; E 22 96; E 23 96; E 24 96];
  [E 17 123; E 18 123; E 19 123; E 20 123; E 21 123; E 22 123; E 23 123; E 24 123;
   N 129; N 130; N 131; N 132; N 133; N 134; N 135; N 136];
  [E 17 94; E 18 94; E 19 94; E 20 94; E 21 94; E 22 94; E 23 94; E 24 94;
   E 17 125; E 18 125; E 19 125; E 20 125; E 21 125; E 22 125; E 23 125; E 24 125];
  [E 25 60; E 26 60; E 27 60; E 28 60; E 25 96; E 26 96; E 27 96; E 28 96;
   E 25 123; E 26 123; E 27 123; E 28 123; N 137; N 138; N 139; N 140];
  [E 17 153; E 18 153; E 19 153; E 20 153; E 21 153; E 22 153; E 23 153; E 24 153;
   E 17 161; E 18 161; E 19 161; E 20 161; E 21 161; E 22 161; E 23 161; E 24 161];
  [E 17 167; E 18 167; E 19 167; E 20 167; E 21 167; E 22 167; E 23 167; E 24 167;
   E 17 172; E 18 172; E 19 172; E 20 172; E 21 172; E 22 172; E 23 172; E 24 172];
  [E 17 176; E 18 176; E 19 176; E 20 176; E 21 176; E 22 176; E 23 176; E 24 176;
   E 17 177; E 18 177; E 19 177; E 20 177; E 21 177; E 22 177; E 23 177; E 24 177];
  [E 17 179; E 18 179; E 19 179; E 20 179; E 21 179; E 22 179; E 23 179; E 24 179;
   E 17 209; E 18 209; E 19 209; E 20 209; E 21 209; E 22 209; E 23 209; E 24 209];
  [E 17 216; E 18 216; E 19 216; E 20 216; E 21 216; E 22 216; E 23 216; E 24 216;
   E 17 217; E 18 217; E 19 217; E 20 217; E 21 217; E 22 217; E 23 217; E 24 217];
  [E 17 227; E 18 227; E 19 227; E 20 227; E 21 227; E 22 227; E 23 227; E 24 227;
   E 17 229; E 18 229; E 19 229; E 20 229; E 21 229; E 22 229; E 23 229; E 24 229];
  [E 17 230; E 18 230; E 19 230; E 20 230; E 21 230; E 22 230; E 23 230; E 24 230;
   E 25 129; E 26 129; E 27 129; E 28 129; E 25 132; E 26 132; E 27 132; E 28 132];
  [E 25 133; E 26 133; E 27 133; E 28 133; E 25 134; E 26 134; E 27 134; E 28 134;
   E 25 136; E 26 136; E 27 136; E 28 136; E 25 146; E 26 146; E 27 146; E 28 146];
  [E 25 154; E 26 154; E 27 154; E 28 154; E 25 156; E 26 156; E 27 156; E 28 156;
   E 25 160; E 26 160; E 27 160; E 28 160; E 25 163; E 26 163; E 27 163; E 28 163];
  [E 25 164; E 26 164; E 27 164; E 28 164; E 25 169; E 26 169; E 27 169; E 28 169;
   E 25 170; E 26 170; E 27 170; E 28 170; E 25 173; E 26 173; E 27 173; E 28 173];
  [E 25 178; E 26 178; E 27 178; E 28 178; E 25 181; E 26 181; E 27 181; E 28 181;
   E 25 185; E 26 185; E 27 185; E 28 185; E 25 186; E 26 186; E 27 186; E 28 186];
  [E 25 187; E 26 187; E 27 187; E 28 187; E 25 189; E 26 189; E 27 189; E 28 189;
   E 25 190; E 26 190; E 27 190; E 28 190; E 25 196; E 26 196; E 27 196; E 28 196];
  [E 25 198; E 26 198; E 27 198; E 28 198; E 25 228; E 26 228; E 27 228; E 28 228;
   E 25 232; E 26 232; E 27 232; E 28 232; E 25 233; E 26 233; E 27 233; E 28 233];
  [E 29 1; E 30 1; E 29 135; E 30 135; E 29 137; E 30 137; E 29 138; E 30 138;
   E 29 139; E 30 139; E 29 140; E 30 140; E 29 141; E 30 141; E 29 143; E 30 143];
  [E 29 147; E 30 147; E 29 149; E 30 149; E 29 150; E 30 150; E 29 151; E 30 151;
   E 29 152; E 30 152; E 29 155; E 30 155; E 29 157; E 30 157; E 29 158; E 30 158];
  [E 29 165; E 30 165; E 29 166; E 30 166; E 29 168; E 30 168; E 29 174; E 30 174;
   E 29 175; E 30 175; E 29 180; E 30 180; E 29 182; E 30 182; E 29 183; E 30 183];
  [E 29 188; E 30 188; E 29 191; E 30 191; E 29 197; E 30 197; E 29 231; E 30 231;
   E 29 239; E 30 239; E 0 9; E 0 142; E 0 144; E 0 145; E 0 148; E 0 159];
  [E 0 171; E 0 206; E 0 215; E 0 225; E 0 236; E 0 237; N 141; N 142;
   N 143; N 144; N 145; N 146; N 147; N 148; N 149; N 150];
  [E 17 128; E 18 128; E 19 128; E 20 128; E 21 128; E 22 128; E 23 128; E 24 128;
   E 17 130; E 18 130; E 19 130; E 20 130; E 21 130; E 22 130; E 23 130; E 24 130];
  [E 17 131; E 18 131; E 19 131; E 20 131; E 21 131; E 22 131; E 23 131; E 24 131;
   E 17 162; E 18 162; E 19 162; E 20 162; E 21 162; E 22 162; E 23 162; E 24 162];
  [E 17 184; E 18 184; E 19 184; E 20 184; E 21 184; E 22 184; E 23 184; E 24 184;
   E 17 194; E 18 194; E 19 194; E 20 194; E 21 194; E 22 194; E 23 194; E 24 194];
  [E 17 224; E 18 224; E 19 224; E 20 224; E 21 224; E 22 224; E 23 224; E 24 224;
   E 17 226; E 18 226; E 19 226; E 20 226; E 21 226; E 22 226; E 23 226; E 24 226];
  [E 25 153; E 26 153; E 27 153; E 28 153; E 25 161; E 26 161; E 27 161; E 28 161;
   E 25 167; E 26 167; E 27 167; E 28 167; E 25 172; E 26 172; E 27 172; E 28 172];
  [E 25 176; E 26 176; E 27 176; E 28 176; E 25 177; E 26 177; E 27 177; E 28 177;
   E 25 179; E 26 179; E 27 179; E 28 179; E 25 209; E 26 209; E 27 209; E 28 209];
  [E 25 216; E 26 216; E 27 216; E 28 216; E 25 217; E 26 217; E 27 217; E 28 217;
   E 25 227; E 26 227; E 27 227; E 28 227; E 25 229; E 26 229; E 27 229; E 28 229];
  [E 25 230; E 26 230; E 27 230; E 28 230; E 29 129; E 30 129; E 29 132; E 30 132;
   E 29 133; E 30 133; E 29 134; E 30 134; E 29 136; E 30 136; E 29 146; E 30 146];
  [E 29 154; E 30 154; E 29 156; E 30 156; E 29 160; E 30 160; E 29 163; E 30 163;
   E 29 164; E 30 164; E 29 169; E 30 169; E 29 170; E 30 170; E 29 173; E 30 173];
  [E 29 178; E 30 178; E 29 181; E 30 181; E 29 185; E 30 185; E 29 186; E 30 186;
   E 29 187; E 30 187; E 29 189; E 30 189; E 29 190; E 30 190; E 29 196; E 30 196];
  [E 29 198; E 30 198; E 29 228; E 30 228; E 29 232; E 30 232; E 29 233; E 30 233;
   E 0 1; E 0 135; E 0 137; E 0 138; E 0 139; E 0 140; E 0 141; E 0 143];
  [E 0 147; E 0 149; E 0 150; E 0 151; E 0 152; E 0 155; E 0 157; E 0 158;
   E 0 165; E 0 166; E 0 168; E 0 174; E 0 175; E 0 180; E 0 182; E 0 183];
  [E 0 188; E 0 191; E 0 197; E 0 231; E 0 239; N 151; N 152; N 153;
   N 154; N 155; N 156; N 157; N 158; N 159; N 160; N 161];
  [E 17 92; E 18 92; E 19 92; E 20 92; E 21 92; E 22 92; E 23 92; E 24 92;
   E 17 195; E 18 195; E 19 195; E 20 195; E 21 195; E 22 195; E 23 195; E 24 195];
  [E 17 208; E 18 208; E 19 208; E 20 208; E 21 208; E 22 208; E 23 208; E 24 208;
   E 25 128; E 26 128; E 27 128; E 28 128; E 25 130; E 26 130; E 27 130; E 28 130];
  [E 25 131; E 26 131; E 27 131; E 28 131; E 25 162; E 26 162; E 27 162; E 28 162;
   E 25 184; E 26 184; E 27 184; E 28 184; E 25 194; E 26 194; E 27 194; E 28 194];
  [E 25 224; E 26 224; E 27 224; E 28 224; E 25 226; E 26 226; E 27 226; E 28 226;
   E 29 153; E 30 153; E 29 161; E 30 161; E 29 167; E 30 167; E 29 172; E 30 172];
  [E 29 176; E 30 176; E 29 177; E 30 177; E 29 179; E 30 179; E 29 209; E 30 209;
   E 29 216; E 30 216; E 29 217; E 30 217; E 29 227; E 30 227; E 29 229; E 30 229];
  [E 29 230; E 30 230; E 0 129; E 0 132; E 0 133; E 0 134; E 0 136; E 0 146;
   E 0 154; E 0 156; E 0 160; E 0 163; E 0 164; E 0 169; E 0 170; E 0 173];
  [E 0 178; E 0 181; E 0 185; E 0 186; E 0 187; E 0 189; E 0 190; E 0 196;
   E 0 198; E 0 228; E 0 232; E 0 233; N 162; N 163; N 164; N 165];
  [N 166; N 167; N 168; N 169; N 170; N 171; N 172; N 173;
   N 174; N 175; N 176; N 177; N 178; N 179; N 180; N 181];
  [E 25 92; E 26 92; E 27 92; E 28 92; E 25 195; E 26 195; E 27 195; E 28 195;
   E 25 208; E 26 208; E 27 208; E 28 208; E 29 128; E 30 128; E 29 130; E 30 130];
  [E 29 131; E 30 131; E 29 162; E 30 162; E 29 184; E 30 184; E 29 194; E 30 194;
   E 29 224; E 30 224; E 29 226; E 30 226; E 0 153; E 0 161; E 0 167; E 0 172];
  [E 0 176; E 0 177; E 0 179; E 0 209; E 0 216; E 0 217; E 0 227; E 0 229;
   E 0 230; N 182; N 183; N 184; N 185; N 186; N 187; N 188];
  [N 189; N 190; N 191; N 192; N 193; N 194; N 195; N 196;
   N 197; N 198; N 199; N 200; N 201; N 202; N 203; N 204];
  [E 17 199; E 18 199; E 19 199; E 20 199; E 21 199; E 22 199; E 23 199; E 24 199;
   E 17 207; E 18 207; E 19 207; E 20 207; E 21 207; E 22 207; E 23 207; E 24 207];
  [E 17 234; E 18 234; E 19 234; E 20 234; E 21 234; E 22 234; E 23 234; E 24 234;
   E 17 235; E 18 235; E 19 235; E 20 235; E 21 235; E 22 235; E 23 235; E 24 235];
  [E 25 192; E 26 192; E 27 192; E 28 192; E 25 193; E 26 193; E 27 193; E 28 193;
   E 25 200; E 26 200; E 27 200; E 28 200; E 25 201; E 26 201; E 27 201; E 28 201];
  [E 25 202; E 26 202; E 27 202; E 28 202; E 25 205; E 26 205; E 27 205; E 28 205;
   E 25 210; E 26 210; E 27 210; E 28 210; E 25 213; E 26 213; E 27 213; E 28 213];
  [E 25 218; E 26 218; E 27 218; E 28 218; E 25 219; E 26 219; E 27 219; E 28 219;
   E 25 238; E 26 238; E 27 238; E 28 238; E 25 240; E 26 240; E 27 240; E 28 240];
  [E 25 242; E 26 242; E 27 242; E 28 242; E 25 243; E 26 243; E 27 243; E 28 243;
   E 25 255; E 26 255; E 27 255; E 28 255; E 29 203; E 30 203; E 29 204; E 30 204];
  [E 29 211; E 30 211; E 29 212; E 30 212; E 29 214; E 30 214; E 29 221; E 30 221;
   E 29 222; E 30 222; E 29 223; E 30 223; E 29 241; E 30 241; E 29 244; E 30 244];
  [E 29 245; E 30 245; E 29 246; E 30 246; E 29 247; E 30 247; E 29 248; E 30 248;
   E 29 250; E 30 250; E 29 251; E 30 251; E 29 252; E 30 252; E 29 253; E 30 253];
  [E 29 254; E 30 254; E 0 2; E 0 3; E 0 4; E 0 5; E 0 6; E 0 7;
   E 0 8; E 0 11; E 0 12; E 0 14; E 0 15; E 0 16; E 0 17; E 0 18];
  [E 0 19; E 0 20; E 0 21; E 0 23; E 0 24; E 0 25; E 0 26; E 0 27;
   E 0 28; E 0 29; E 0 30; E 0 31; E 0 127; E 0 220; E 0 249; N 205];
  [E 17 9; E 18 9; E 19 9; E 20 9; E 21 9; E 22 9; E 23 9; E 24 9;
   E 17 142; E 18 142; E 19 142; E 20 142; E 21 142; E 22 142; E 23 142; E 24 142];
  [E 17 144; E 18 144; E 19 144; E 20 144; E 21 144; E 22 144; E 23 144; E 24 144;
   E 17 145; E 18 145; E 19 145; E 20 145; E 21 145; E 22 145; E 23 145; E 24 145];
  [E 17 148; E 18 148; E 19 148; E 20 148; E 21 148; E 22 148; E 23 148; E 24 148;
   E 17 159; E 18 159; E 19 159; E 20 159; E 21 159; E 22 159; E 23 159; E 24 159];
  [E 17 171; E 18 171; E 19 171; E 20 171; E 21 171; E 22 171; E 23 171; E 24 171;
   E 17 206; E 18 206; E 19 206; E 20 206; E 21 206; E 22 206; E 23 206; E 24 206];
  [E 17 215; E 18 215; E 19 215; E 20 215; E 21 215; E 22 215; E 23 215; E 24 215;
   E 17 225; E 18 225; E 19 225; E 20 225; E 21 225; E 22 225; E 23 225; E 24 225];
  [E 17 236; E 18 236; E 19 236; E 20 236; E 21 236; E 22 236; E 23 236; E 24 236;
   E 17 237; E 18 237; E 19 237; E 20 237; E 21 237; E 22 237; E 23 237; E 24 237];
  [E 25 199; E 26 199; E 27 199; E 28 199; E 25 207; E 26 207; E 27 207; E 28 207;
   E 25 234; E 26 234; E 27 234; E 28 234; E 25 235; E 26 235; E 27 235; E 28 235];
  [E 29 192; E 30 192; E 29 193; E 30 193; E 29 200; E 30 200; E 29 201; E 30 201;
   E 29 202; E 30 202; E 29 205; E 30 205; E 29 210; E 30 210; E 29 213; E 30 213];
  [E 29 218; E 30 218; E 29 219; E 30 219; E 29 238; E 30 238; E 29 240; E 30 240;
   E 29 242; E 30 242; E 29 243; E 30 243; E 29 255; E 30 255; E 0 203; E 0 204];
  [E 0 211; E 0 212; E 0 214; E 0 221; E 0 222; E 0 223; E 0 241; E 0 244;
   E 0 245; E 0 246; E 0 247; E 0 248; E 0 250; E 0 251; E 0 252; E 0 253];
  [E 0 254; N 206; N 207; N 208; N 209; N 210; N 211; N 212;
   N 213; N 214; N 215; N 216; N 217; N 218; N 219; N 220];
  [E 17 1; E 18 1; E 19 1; E 20 1; E 21 1; E 22 1; E 23 1; E 24 1;
   E 17 135; E 18 135; E 19 135; E 20 135; E 21 135; E 22 135; E 23 135; E 24 135];
  [E 17 137; E 18 137; E 19 137; E 20 137; E 21 137; E 22 137; E 23 137; E 24 137;
   E 17 138; E 18 138; E 19 138; E 20 138; E 21 138; E 22 138; E 23 138; E 24 138];
  [E 17 139; E 18 139; E 19 139; E 20 139; E 21 139; E 22 139; E 23 139; E 24 139;
   E 17 140; E 18 140; E 19 140; E 20 140; E 21 140; E 22 140; E 23 140; E 24 140];
  [E 17 141; E 18 141; E 19 141; E 20 141; E 21 141; E 22 141; E 23 141; E 24 141;
   E 17 143; E 18 143; E 19 143; E 20 143; E 21 143; E 22 143; E 23 143; E 24 143];
  [E 17 147; E 18 147; E 19 147; E 20 147; E 21 147; E 22 147; E 23 147; E 24 147;
   E 17 149; E 18 149; E 19 149; E 20 149; E 21 149; E 22 149; E 23 149; E 24 149];
  [E 17 150; E 18 150; E 19 150; E 20 150; E 21 150; E 22 150; E 23 150; E 24 150;
   E 17 151; E 18 151; E 19 151; E 20 151; E 21 151; E 22 151; E 23 151; E 24 151];
  [E 17 152; E 18 152; E 19 152; E 20 152; E 21 152; E 22 152; E 23 152; E 24 152;
   E 17 155; E 18 155; E 19 155; E 20 155; E 21 155; E 22 155; E 23 155; E 24 155];
  [E 17 157; E 18 157; E 19 157; E 20 157; E 21 157; E 22 157; E 23 157; E 24 157;
   E 17 158; E 18 158; E 19 158; E 20 158; E 21 158; E 22 158; E 23 158; E 24 158];
  [E 17 165; E 18 165; E 19 165; E 20 165; E 21 165; E 22 165; E 23 165; E 24 165;
   E 17 166; E 18 166; E 19 166; E 20 166; E 21 166; E 22 166; E 23 166; E 24 166];
  [E 17 168; E 18 168; E 19 168; E 20 168; E 21 168; E 22 168; E 23 168; E 24 168;
   E 17 174; E 18 174; E 19 174; E 20 174; E 21 174; E 22 174; E 23 174; E 24 174];
  [E 17 175; E 18 175; E 19 175; E 20 175; E 21 175; E 22 175; E 23 175; E 24 175;
   E 17 180; E 18 180; E 19 180; E 20 180; E 21 180; E 22 180; E 23 180; E 24 180];
  [E 17 182; E 18 182; E 19 182; E 20 182; E 21 182; E 22 182; E 23 182; E 24 182;
   E 17 183; E 18 183; E 19 183; E 20 183; E 21 183; E 22 183; E 23 183; E 24 183];
  [E 17 188; E 18 188; E 19 188; E 20 188; E 21 188; E 22 188; E 23 188; E 24 188;
   E 17 191; E 18 191; E 19 191; E 20 191; E 21 191; E 22 191; E 23 191; E 24 191];
  [E 17 197; E 18 197; E 19 197; E 20 197; E 21 197; E 22 197; E 23 197; E 24 197;
   E 17 231; E 18 231; E 19 231; E 20 231; E 21 231; E 22 231; E 23 231; E 24 231];
  [E 17 239; E 18 239; E 19 239; E 20 239; E 21 239; E 22 239; E 23 239; E 24 239;
   E 25 9; E 26 9; E 27 9; E 28 9; E 25 142; E 26 142; E 27 142; E 28 142];
  [E 25 144; E 26 144; E 27 144; E 28 144; E 25 145; E 26 145; E 27 145; E 28 145;
   E 25 148; E 26 148; E 27 148; E 28 148; E 25 159; E 26 159; E 27 159; E 28 159];
  [E 25 171; E 26 171; E 27 171; E 28 171; E 25 206; E 26 206; E 27 206; E 28 206;
   E 25 215; E 26 215; E 27 215; E 28 215; E 25 225; E 26 225; E 27 225; E 28 225];
  [E 25 236; E 26 236; E 27 236; E 28 236; E 25 237; E 26 237; E 27 237; E 28 237;
   E 29 199; E 30 199; E 29 207; E 30 207; E 29 234; E 30 234; E 29 235; E 30 235];
  [E 0 192; E 0 193; E 0 200; E 0 201; E 0 202; E 0 205; E 0 210; E 0 213;
   E 0 218; E 0 219; E 0 238; E 0 240; E 0 242; E 0 243; E 0 255; N 221];
  [N 222; N 223; N 224; N 225; N 226; N 227; N 228; N 229;
   N 230; N 231; N 232; N 233; N 234; N 235; N 236; N 237];
  [E 17 129; E 18 129; E 19 129; E 20 129; E 21 129; E 22 129; E 23 129; E 24 129;
   E 17 132; E 18 132; E 19 132; E 20 132; E 21 132; E 22 132; E 23 132; E 24 132];
  [E 17 133; E 18 133; E 19 133; E 20 133; E 21 133; E 22 133; E 23 133; E 24 133;
   E 17 134; E 18 134; E 19 134; E 20 134; E 21 134; E 22 134; E 23 134; E 24 134];
  [E 17 136; E 18 136; E 19 136; E 20 136; E 21 136; E 22 136; E 23 136; E 24 136;
   E 17 146; E 18 146; E 19 146; E 20 146; E 21 146; E 22 146; E 23 146; E 24 146];
  [E 17 154; E 18 154; E 19 154; E 20 154; E 21 154; E 22 154; E 23 154; E 24 154;
   E 17 156; E 18 156; E 19 156; E 20 156; E 21 156; E 22 156; E 23 156; E 24 156];
  [E 17 160; E 18 160; E 19 160; E 20 160; E 21 160; E 22 160; E 23 160; E 24 160;
   E 17 163; E 18 163; E 19 163; E 20 163; E 21 163; E 22 163; E 23 163; E 24 163];
  [E 17 164; E 18 164; E 19 164; E 20 164; E 21 164; E 22 164; E 23 164; E 24 164;
   E 17 169; E 18 169; E 19 169; E 20 169; E 21 169; E 22 169; E 23 169; E 24 169];
  [E 17 170; E 18 170; E 19 170; E 20 170; E 21 170; E 22 170; E 23 170; E 24 170;
   E 17 173; E 18 173; E 19 173; E 20 173; E 21 173; E 22 173; E 23 173; E 24 173];
  [E 17 178; E 18 178; E 19 178; E 20 178; E 21 178; E 22 178; E 23 178; E 24 178;
   E 17 181; E 18 181; E 19 181; E 20 181; E 21 181; E 22 181; E 23 181; E 24 181];
  [E 17 185; E 18 185; E 19 185; E 20 185; E 21 185; E 22 185; E 23 185; E 24 185;
   E 17 186; E 18 186; E 19 186; E 20 186; E 21 186; E 22 186; E 23 186; E 24 186];
  [E 17 187; E 18 187; E 19 187; E 20 187; E 21 187; E 22 187; E 23 187; E 24 187;
   E 17 189; E 18 189; E 19 189; E 20 189; E 21 189; E 22 189; E 23 189; E 24 189];
  [E 17 190; E 18 190; E 19 190; E 20 190; E 21 190; E 22 190; E 23 190; E 24 190;
   E 17 196; E 18 196; E 19 196; E 20 196; E 21 196; E 22 196; E 23 196; E 24 196];
  [E 17 198; E 18 198; E 19 198; E 20 198; E 21 198; E 22 198; E 23 198; E 24 198;
   E 17 228; E 18 228; E 19 228; E 20 228; E 21 228; E 22 228; E 23 228; E 24 228];
  [E 17 232; E 18 232; E 19 232; E 20 232; E 21 232; E 22 232; E 23 232; E 24 232;
   E 17 233; E 18 233; E 19 233; E 20 233; E 21 233; E 22 233; E 23 233; E 24 233];
  [E 25 1; E 26 1; E 27 1; E 28 1; E 25 135; E 26 135; E 27 135; E 28 135;
   E 25 137; E 26 137; E 27 137; E 28 137; E 25 138; E 26 138; E 27 138; E 28 138];
  [E 25 139; E 26 139; E 27 139; E 28 139; E 25 140; E 26 140; E 27 140; E 28 140;
   E 25 141; E 26 141; E 27 141; E 28 141; E 25 143; E 26 143; E 27 143; E 28 143];
  [E 25 147; E 26 147; E 27 147; E 28 147; E 25 149; E 26 149; E 27 149; E 28 149;
   E 25 150; E 26 150; E 27 150; E 28 150; E 25 151; E 26 151; E 27 151; E 28 151];
  [E 25 152; E 26 152; E 27 152; E 28 152; E 25 155; E 26 155; E 27 155; E 28 155;
   E 25 157; E 26 157; E 27 157; E 28 157; E 25 158; E 26 158; E 27 158; E 28 158];
  [E 25 165; E 26 165; E 27 165; E 28 165; E 25 166; E 26 166; E 27 166; E 28 166;
   E 25 168; E 26 168; E 27 168; E 28 168; E 25 174; E 26 174; E 27 174; E 28 174];
  [E 25 175; E 26 175; E 27 175; E 28 175; E 25 180; E 26 180; E 27 180; E 28 180;
   E 25 182; E 26 182; E 27 182; E 28 182; E 25 183; E 26 183; E 27 183; E 28 183];
  [E 25 188; E 26 188; E 27 188; E 28 188; E 25 191; E 26 191; E 27 191; E 28 191;
   E 25 197; E 26 197; E 27 197; E 28 197; E 25 231; E 26 231; E 27 231; E 28 231];
  [E 25 239; E 26 239; E 27 239; E 28 239; E 29 9; E 30 9; E 29 142; E 30 142;
   E 29 144; E 30 144; E 29 145; E 30 145; E 29 148; E 30 148; E 29 159; E 30 159];
  [E 29 171; E 30 171; E 29 206; E 30 206; E 29 215; E 30 215; E 29 225; E 30 225;
   E 29 236; E 30 236; E 29 237; E 30 237; E 0 199; E 0 207; E 0 234; E 0 235];
  [N 238; N 239; N 240; N 241; N 242; N 243; N 244; N 245;
   N 246; N 247; N 248; N 249; N 250; N 251; N 252; N 253];
  [E 25 10; E 26 10; E 27 10; E 28 10; E 25 13; E 26 13; E 27 13; E 28 13;
   E 25 22; E 26 22; E 27 22; E 28 22; X; X; X; X];
  [E 17 2; E 18 2; E 19 2; E 20 2; E 21 2; E 22 2; E 23 2; E 24 2;
   E 17 3; E 18 3; E 19 3; E 20 3; E 21 3; E 22 3; E 23 3; E 24 3];
  [E 17 4; E 18 4; E 19 4; E 20 4; E 21 4; E 22 4; E 23 4; E 24 4;
   E 17 5; E 18 5; E 19 5; E 20 5; E 21 5; E 22 5; E 23 5; E 24 5];
  [E 17 6; E 18 6; E 19 6; E 20 6; E 21 6; E 22 6; E 23 6; E 24 6;
   E 17 7; E 18 7; E 19 7; E 20 7; E 21 7; E 22 7; E 23 7; E 24 7];
  [E 17 8; E 18 8; E 19 8; E 20 8; E 21 8; E 22 8; E 23 8; E 24 8;
   E 17 11; E 18 11; E 19 11; E 20 11; E 21 11; E 22 11; E 23 11; E 24 11];
  [E 17 12; E 18 12; E 19 12; E 20 12; E 21 12; E 22 12; E 23 12; E 24 12;
   E 17 14; E 18 14; E 19 14; E 20 14; E 21 14; E 22 14; E 23 14; E 24 14];
  [E 17 15; E 18 15; E 19 15; E 20 15; E 21 15; E 22 15; E 23 15; E 24 15;
   E 17 16; E 18 16; E 19 16; E 20 16; E 21 16; E 22 16; E 23 16; E 24 16];
  [E 17 17; E 18 17; E 19 17; E 20 17; E 21 17; E 22 17; E 23 17; E 24 17;
   E 17 18; E 18 18; E 19 18; E 20 18; E 21 18; E 22 18; E 23 18; E 24 18];
  [E 17 19; E 18 19; E 19 19; E 20 19; E 21 19; E 22 19; E 23 19; E 24 19;
   E 17 20; E 18 20; E 19 20; E 20 20; E 21 20; E 22 20; E 23 20; E 24 20];
  [E 17 21; E 18 21; E 19 21; E 20 21; E 21 21; E 22 21; E 23 21; E 24 21;
   E 17 23; E 18 23; E 19 23; E 20 23; E 21 23; E 22 23; E 23 23; E 24 23];
  [E 17 24; E 18 24; E 19 24; E 20 24; E 21 24; E 22 24; E 23 24; E 24 24;
   E 17 25; E 18 25; E 19 25; E 20 25; E 21 25; E 22 25; E 23 25; E 24 25];
  [E 17 26; E 18 26; E 19 26; E 20 26; E 21 26; E 22 26; E 23 26; E 24 26;
   E 17 27; E 18 27; E 19 27; E 20 27; E 21 27; E 22 27; E 23 27; E 24 27];
  [E 17 28; E 18 28; E 19 28; E 20 28; E 21 28; E 22 28; E 23 28; E 24 28;
   E 17 29; E 18 29; E 19 29; E 20 29; E 21 29; E 22 29; E 23 29; E 24 29];
  [E 17 30; E 18 30; E 19 30; E 20 30; E 21 30; E 22 30; E 23 30; E 24 30;
   E 17 31; E 18 31; E 19 31; E 20 31; E 21 31; E 22 31; E 23 31; E 24 31];
  [E 17 127; E 18 127; E 19 127; E 20 127; E 21 127; E 22 127; E 23 127; E 24 127;
   E 17 220; E 18 220; E 19 220; E 20 220; E 21 220; E 22 220; E 23 220; E 24 220];
  [E 17 249; E 18 249; E 19 249; E 20 249; E 21 249; E 22 249; E 23 249; E 24 249;
   E 29 10; E 30 10; E 29 13; E 30 13; E 29 22; E 30 22; X; X];
  [E 17 203; E 18 203; E 19 203; E 20 203; E 21 203; E 22 203; E 23 203; E 24 203;
   E 17 204; E 18 204; E 19 204; E 20 204; E 21 204; E 22 204; E 23 204; E 24 204];
  [E 17 211; E 18 211; E 19 211; E 20 211; E 21 211; E 22 211; E 23 211; E 24 211;
   E 17 212; E 18 212; E 19 212; E 20 212; E 21 212; E 22 212; E 23 212; E 24 212];
  [E 17 214; E 18 214; E 19 214; E 20 214; E 21 214; E 22 214; E 23 214; E 24 214;
   E 17 221; E 18 221; E 19 221; E 20 221; E 21 221; E 22 221; E 23 221; E 24 221];
  [E 17 222; E 18 222; E 19 222; E 20 222; E 21 222; E 22 222; E 23 222; E 24 222;
   E 17 223; E 18 223; E 19 223; E 20 223; E 21 223; E 22 223; E 23 223; E 24 223];
  [E 17 241; E 18 241; E 19 241; E 20 241; E 21 241; E 22 241; E 23 241; E 24 241;
   E 17 244; E 18 244; E 19 244; E 20 244; E 21 244; E 22 244; E 23 244; E 24 244];
  [E 17 245; E 18 245; E 19 245; E 20 245; E 21 245; E 22 245; E 23 245; E 24 245;
   E 17 246; E 18 246; E 19 246; E 20 246; E 21 246; E 22 246; E 23 246; E 24 246];
  [E 17 247; E 18 247; E 19 247; E 20 247; E 21 247; E 22 247; E 23 247; E 24 247;
   E 17 248; E 18 248; E 19 248; E 20 248; E 21 248; E 22 248; E 23 248; E 24 248];
  [E 17 250; E 18 250; E 19 250; E 20 250; E 21 250; E 22 250; E 23 250; E 24 250;
   E 17 251; E 18 251; E 19 251; E 20 251; E 21 251; E 22 251; E 23 251; E 24 251];
  [E 17 252; E 18 252; E 19 252; E 20 252; E 21 252; E 22 252; E 23 252; E 24 252;
   E 17 253; E 18 253; E 19 253; E 20 253; E 21 253; E 22 253; E 23 253; E 24 253];
  [E 17 254; E 18 254; E 19 254; E 20 254; E 21 254; E 22 254; E 23 254; E 24 254;
   E 25 2; E 26 2; E 27 2; E 28 2; E 25 3; E 26 3; E 27 3; E 28 3];
  [E 25 4; E 26 4; E 27 4; E 28 4; E 25 5; E 26 5; E 27 5; E 28 5;
   E 25 6; E 26 6; E 27 6; E 28 6; E 25 7; E 26 7; E 27 7; E 28 7];
  [E 25 8; E 26 8; E 27 8; E 28 8; E 25 11; E 26 11; E 27 11; E 28 11;
   E 25 12; E 26 12; E 27 12; E 28 12; E 25 14; E 26 14; E 27 14; E 28 14];
  [E 25 15; E 26 15; E 27 15; E 28 15; E 25 16; E 26 16; E 27 16; E 28 16;
   E 25 17; E 26 17; E 27 17; E 28 17; E 25 18; E 26 18; E 27 18; E 28 18];
  [E 25 19; E 26 19; E 27 19; E 28 19; E 25 20; E 26 20; E 27 20; E 28 20;
   E 25 21; E 26 21; E 27 21; E 28 21; E 25 23; E 26 23; E 27 23; E 28 23];
  [E 25 24; E 26 24; E 27 24; E 28 24; E 25 25; E 26 25; E 27 25; E 28 25;
   E 25 26; E 26 26; E 27 26; E 28 26; E 25 27; E 26 27; E 27 27; E 28 27];
  [E 25 28; E 26 28; E 27 28; E 28 28; E 25 29; E 26 29; E 27 29; E 28 29;
   E 25 30; E 26 30; E 27 30; E 28 30; E 25 31; E 26 31; E 27 31; E 28 31];
  [E 25 127; E 26 127; E 27 127; E 28 127; E 25 220; E 26 220; E 27 220; E 28 220;
   E 25 249; E 26 249; E 27 249; E 28 249; E 0 10; E 0 13; E 0 22; X];
  [E 17 192; E 18 192; E 19 192; E 20 192; E 21 192; E 22 192; E 23 192; E 24 192;
   E 17 193; E 18 193; E 19 193; E 20 193; E 21 193; E 22 193; E 23 193; E 24 193];
  [E 17 200; E 18 200; E 19 200; E 20 200; E 21 200; E 22 200; E 23 200; E 24 200;
   E 17 201; E 18 201; E 19 201; E 20 201; E 21 201; E 22 201; E 23 201; E 24 201];
  [E 17 202; E 18 202; E 19 202; E 20 202; E 21 202; E 22 202; E 23 202; E 24 202;
   E 17 205; E 18 205; E 19 205; E 20 205; E 21 205; E 22 205; E 23 205; E 24 205];
  [E 17 210; E 18 210; E 19 210; E 20 210; E 21 210; E 22 210; E 23 210; E 24 210;
   E 17 213; E 18 213; E 19 213; E 20 213; E 21 213; E 22 213; E 23 213; E 24 213];
  [E 17 218; E 18 218; E 19 218; E 20 218; E 21 218; E 22 218; E 23 218; E 24 218;
   E 17 219; E 18 219; E 19 219; E 20 219; E 21 219; E 22 219; E 23 219; E 24 219];
  [E 17 238; E 18 238; E 19 238; E 20 238; E 21 238; E 22 238; E 23 238; E 24 238;
   E 17 240; E 18 240; E 19 240; E 20 240; E 21 240; E 22 240; E 23 240; E 24 240];
  [E 17 242; E 18 242; E 19 242; E 20 242; E 21 242; E 22 242; E 23 242; E 24 242;
   E 17 243; E 18 243; E 19 243; E 20 243; E 21 243; E 22 243; E 23 243; E 24 243];
  [E 17 255; E 18 255; E 19 255; E 20 255; E 21 255; E 22 255; E 23 255; E 24 255;
   E 25 203; E 26 203; E 27 203; E 28 203; E 25 204; E 26 204; E 27 204; E 28 204];
  [E 25 211; E 26 211; E 27 211; E 28 211; E 25 212; E 26 212; E 27 212; E 28 212;
   E 25 214; E 26 214; E 27 214; E 28 214; E 25 221; E 26 221; E 27 221; E 28 221];
  [E 25 222; E 26 222; E 27 222; E 28 222; E 25 223; E 26 223; E 27 223; E 28 223;
   E 25 241; E 26 241; E 27 241; E 28 241; E 25 244; E 26 244; E 27 244; E 28 244];
  [E 25 245; E 26 245; E 27 245; E 28 245; E 25 246; E 26 246; E 27 246; E 28 246;
   E 25 247; E 26 247; E 27 247; E 28 247; E 25 248; E 26 248; E 27 248; E 28 248];
  [E 25 250; E 26 250; E 27 250; E 28 250; E 25 251; E 26 251; E 27 251; E 28 251;
   E 25 252; E 26 252; E 27 252; E 28 252; E 25 253; E 26 253; E 27 253; E 28 253];
  [E 25 254; E 26 254; E 27 254; E 28 254; E 29 2; E 30 2; E 29 3; E 30 3;
   E 29 4; E 30 4; E 29 5; E 30 5; E 29 6; E 30 6; E 29 7; E 30 7];
  [E 29 8; E 30 8; E 29 11; E 30 11; E 29 12; E 30 12; E 29 14; E 30 14;
   E 29 15; E 30 15; E 29 16; E 30 16; E 29 17; E 30 17; E 29 18; E 30 18];
  [E 29 19; E 30 19; E 29 20; E 30 20; E 29 21; E 30 21; E 29 23; E 30 23;
   E 29 24; E 30 24; E 29 25; E 30 25; E 29 26; E 30 26; E 29 27; E 30 27];
  [E 29 28; E 30 28; E 29 29; E 30 29; E 29 30; E 30 30; E 29 31; E 30 31;
   E 29 127; E 30 127; E 29 220; E 30 220; E 29 249; E 30 249; N 254; N 255];
  [E 17 10; E 18 10; E 19 10; E 20 10; E 21 10; E 22 10; E 23 10; E 24 10;
   E 17 13; E 18 13; E 19 13; E 20 13; E 21 13; E 22 13; E 23 13; E 24 13];
  [E 17 22; E 18 22; E 19 22; E 20 22; E 21 22; E 22 22; E 23 22; E 24 22;
   X; X; X; X; X; X; X; X]].

(** [kHuffmanDecodeAccepting[256]] *)
Definition kHuffmanDecodeAccepting : list bool := [
   true; false; false; false; false; false; false; false; false; false; false; false; false; false; false; false;
   true; false; false; false; false; false; false; false; true; false; false; false; true; false; true; false;
   true; false; false; false; true; false; false; false; false; false; false; false; false; false; false; false;
   false; false; false; false; false; false; true; false; false; false; false; false; false; false; false; false;
   false; false; false; false; false; false; false; false; false; false; false; false; true; false; false; false;
   true; false; false; true; false; false; true; false; false; false; true; false; true; true; false; true;
   false; true; false; false; false; false; false; false; false; false; false; false; false; false; false; false;
   false; false; false; true; false; false; false; false; false; false; false; false; false; false; false; false;
   true; false; false; false; false; false; false; false; true; false; false; false; true; false; false; false;
   false; false; false; false; false; false; true; false; false; false; false; false; false; false; false; false;
   false; true; false; false; false; false; false; false; false; false; false; false; false; false; false; false;
   false; false; false; false; false; true; false; false; false; false; false; false; false; false; false; false;
   false; false; false; false; false; false; false; false; false; false; false; false; true; true; false; false;
   false; false; false; false; false; false; false; false; false; false; false; false; true; false; false; false;
   false; false; false; false; false; false; false; false; false; false; false; false; false; true; false; false;
   false; false; false; false; false; false; false; false; false; false; false; false; false; true; false; true].

(** [kStaticTableEntries] *)
Definition kStaticTableEntries : list (bytes * bytes) := Eval cbv in
  map (fun nv => (bs nv.1, bs nv.2)) [
   (":authority"%string, EmptyString);
   (":method"%string, "GET"%string);
   (":method"%string, "POST"%string);
   (":path"%string, "/"%string);
   (":path"%string, "/index.html"%string);
   (":scheme"%string, "http"%string);
   (":scheme"%string, "https"%string);
   (":status"%string, "200"%string);
   (":status"%string, "204"%string);
   (":status"%string, "206"%string);
   (":status"%string, "304"%string);
   (":status"%string, "400"%string);
   (":status"%string, "404"%string);
   (":status"%string, "500"%string);
   ("accept-charset"%string, EmptyString);
   ("accept-encoding"%string, "gzip, deflate"%string);
   ("accept-language"%string, EmptyString);
   ("accept-ranges"%string, EmptyString);
   ("accept"%string, EmptyString);
   ("access-control-allow-origin"%string, EmptyString);
   ("age"%string, EmptyString);
   ("allow"%string, EmptyString);
   ("authorization"%string, EmptyString);
   ("cache-control"%string, EmptyString);
   ("content-disposition"%string, EmptyString);
   ("content-encoding"%string, EmptyString);
   ("content-language"%string, EmptyString);
   ("content-length"%string, EmptyString);
   ("content-location"%string, EmptyString);
   ("content-range"%string, EmptyString);
   ("content-type"%string, EmptyString);
   ("cookie"%string, EmptyString);
   ("date"%string, EmptyString);
   ("etag"%string, EmptyString);
   ("expect"%string, EmptyString);
   ("expires"%string, EmptyString);
   ("from"%string, EmptyString);
   ("host"%string, EmptyString);
   ("if-match"%string, EmptyString);
   ("if-modified-since"%string, EmptyString);
   ("if-none-match"%string, EmptyString);
   ("if-range"%string, EmptyString);
   ("if-unmodified-since"%string, EmptyString);
   ("last-modified"%string, EmptyString);
   ("link"%string, EmptyString);
   ("location"%string, EmptyString);
   ("max-forwards"%string, EmptyString);
   ("proxy-authenticate"%string, EmptyString);
   ("proxy-authorization"%string, EmptyString);
   ("range"%string, EmptyString);
   ("referer"%string, EmptyString);
   ("refresh"%string, EmptyString);
   ("retry-after"%string, EmptyString);
   ("server"%string, EmptyString);
   ("set-cookie"%string, EmptyString);
   ("strict-transport-security"%string, EmptyString);
   ("transfer-encoding"%string, EmptyString);
   ("user-agent"%string, EmptyString);
   ("vary"%string, EmptyString);
   ("via"%string, EmptyString);
   ("www-authenticate"%string, EmptyString)].
