(* ===== verification/HpackHuffman.v ===== *)
(** * HPACK Huffman coding

    [HpackHuffman] of [galay-http2/protoc/http2_hpack.{h,cc}]: the encoder's bit buffer, the
    decoder's four-bit state machine, and their specification over bit strings. *)

From Stdlib Require Import ZArith Lia.
From stdpp Require Import base list strings.
From S2P Require Import Prelude Http2Base HpackTables.

Open Scope Z_scope.

(** ** Encoder *)

(** [kHuffmanCodes[c]] *)
Definition huffman_code (c : byte) : HuffmanCode :=
  nth (Z.to_nat (b2z c)) kHuffmanCodes (mkCode 0 0).

(** [while (bits_in_buffer >= 8)]: the octets pushed and the bits left. *)
Fixpoint flush (fuel : nat) (buffer n : Z) : bytes * Z :=
  if 8 <=? n then
    match fuel with
    | O => ([], n)
    | S fuel =>
        let n := n - 8 in
        let '(out, n') := flush fuel buffer n in
        (z2b (Z.land (Z.shiftr buffer n) 0xFF) :: out, n')
    end
  else ([], n).

(** The [for] over the input: output so far, [buffer], [bits_in_buffer]. *)
Fixpoint huffman_encode_loop (input : bytes) (output : bytes) (buffer n : Z) : bytes * Z * Z :=
  match input with
  | [] => (output, buffer, n)
  | c :: input =>
      let hc := huffman_code c in
      let buffer := wrap64 (Z.lor (Z.shiftl buffer (hc_bits hc)) (hc_code hc)) in
      let n := n + hc_bits hc in
      let '(out, n') := flush (Z.to_nat n) buffer n in
      huffman_encode_loop input (output ++ out) buffer n'
  end.

Definition huffman_encode (input : bytes) : bytes :=
  let '(output, buffer, n) := huffman_encode_loop input [] 0 0 in
  if 0 <? n then
    let buffer := wrap64 (Z.lor (Z.shiftl buffer (8 - n)) (Z.shiftr 0xFF n)) in
    output ++ [z2b (Z.land buffer 0xFF)]
  else output.

Definition encodedLength (input : bytes) : Z :=
  (foldl (fun n c => n + hc_bits (huffman_code c)) 0 input + 7) / 8.

(** ** Decoder *)

(** One table access, for the high or the low nibble of an octet. *)
Definition huffman_nibble (st v : Z) (output : bytes) : outcome Http2ErrorCode (Z * bytes) :=
  match nth_error kHuffmanDecodeTable (Z.to_nat st) with
  | None => OutOfBounds
  | Some row =>
      match nth_error row (Z.to_nat v) with
      | None => OutOfBounds
      | Some e =>
          match hd_flags e with
          | HUFFMAN_FAIL => Unexpected CompressionError
          | HUFFMAN_EMIT => Value (hd_state e, output ++ [z2b (hd_symbol e)])
          | HUFFMAN_NONE => Value (hd_state e, output)
          end
      end
  end.

Fixpoint huffman_decode_loop (data : bytes) (st : Z) (output : bytes) :
    outcome Http2ErrorCode (Z * bytes) :=
  match data with
  | [] => Value (st, output)
  | b :: data =>
      hi <-- huffman_nibble st (Z.shiftr (b2z b) 4) output ;;
      lo <-- huffman_nibble hi.1 (Z.land (b2z b) 0x0F) hi.2 ;;
      huffman_decode_loop data lo.1 lo.2
  end.

Definition huffman_decode (data : bytes) : outcome Http2ErrorCode bytes :=
  r <-- huffman_decode_loop data 0 [] ;;
  match nth_error kHuffmanDecodeAccepting (Z.to_nat r.1) with
  | None => OutOfBounds
  | Some accepting => if accepting then Value r.2 else Unexpected CompressionError
  end.

(** ** Bit strings *)

(** The low [n] bits of [z], most significant first. *)
Fixpoint bits_of (n : nat) (z : Z) : list bool :=
  match n with
  | O => []
  | S n => Z.testbit z (Z.of_nat n) :: bits_of n z
  end.

Definition octet_bits (b : byte) : list bool := bits_of 8 (b2z b).
Definition bits_in (d : bytes) : list bool := concat (map octet_bits d).

(** The code of a symbol, and of a string: what RFC 7541 calls its Huffman encoding. *)
Definition code_of (hc : HuffmanCode) : list bool := bits_of (Z.to_nat (hc_bits hc)) (hc_code hc).
Definition symbol_bits (c : byte) : list bool := code_of (huffman_code c).
Definition string_bits (s : bytes) : list bool := concat (map symbol_bits s).
Definition eos_bits : list bool := replicate 30 true.

Lemma length_bits_of n z : length (bits_of n z) = n.
Proof. induction n; simpl; congruence. Qed.

Lemma bits_of_ext n a b :
  (forall i, 0 <= i < Z.of_nat n -> Z.testbit a i = Z.testbit b i) -> bits_of n a = bits_of n b.
Proof.
  induction n as [|n IH]; intros Hab; simpl; [done|].
  rewrite (Hab (Z.of_nat n)) by lia. f_equal. apply IH. intros. apply Hab. lia.
Qed.

Lemma bits_of_add n m z : bits_of (n + m) z = bits_of n (Z.shiftr z (Z.of_nat m)) ++ bits_of m z.
Proof.
  induction n as [|n IH]; simpl; [done|]. rewrite IH, Z.shiftr_spec by lia.
  by rewrite Nat2Z.inj_add.
Qed.

Lemma bits_of_mod n k z : Z.of_nat n <= k -> bits_of n (z mod 2 ^ k) = bits_of n z.
Proof. intros. apply bits_of_ext. intros i Hi. apply Z.mod_pow2_bits_low. lia. Qed.

(** Appending the [m] bits of [c] to a buffer. *)
Lemma bits_of_push n m z c :
  0 <= c < 2 ^ Z.of_nat m ->
  bits_of (n + m) (Z.lor (Z.shiftl z (Z.of_nat m)) c) = bits_of n z ++ bits_of m c.
Proof.
  intros Hc. rewrite bits_of_add. f_equal; apply bits_of_ext; intros i Hi.
  - rewrite Z.shiftr_spec, Z.lor_spec, Z.shiftl_spec by lia.
    replace (i + Z.of_nat m - Z.of_nat m) with i by lia.
    rewrite <- (Z.mod_small c (2 ^ Z.of_nat m)) by done.
    rewrite Z.mod_pow2_bits_high by lia. apply orb_false_r.
  - rewrite Z.lor_spec, Z.shiftl_spec_low by lia. done.
Qed.

Lemma octet_bits_z2b z : octet_bits (z2b (Z.land z 0xFF)) = bits_of 8 z.
Proof.
  unfold octet_bits. rewrite land_255, b2z_z2b, Z.mod_mod by lia. by apply (bits_of_mod 8 8).
Qed.

Lemma bits_in_app a b : bits_in (a ++ b) = bits_in a ++ bits_in b.
Proof. unfold bits_in. by rewrite map_app, concat_app. Qed.

Lemma length_bits_in d : length (bits_in d) = (8 * length d)%nat.
Proof.
  induction d as [|b d IH]; [done|]. change (bits_in (b :: d)) with (octet_bits b ++ bits_in d).
  rewrite length_app, IH. unfold octet_bits. rewrite length_bits_of. simpl. lia.
Qed.

Lemma octet_bits_nibbles b :
  octet_bits b = bits_of 4 (Z.shiftr (b2z b) 4) ++ bits_of 4 (Z.land (b2z b) 0x0F).
Proof.
  unfold octet_bits. change 8%nat with (4 + 4)%nat. rewrite bits_of_add. f_equal.
  change 0x0F with (Z.ones 4). rewrite Z.land_ones by lia. symmetry. by apply (bits_of_mod 4 4).
Qed.

(** ** The encoder writes the code of its input, padded with ones *)

Lemma huffman_code_range c :
  5 <= hc_bits (huffman_code c) <= 30 /\
  0 <= hc_code (huffman_code c) < 2 ^ hc_bits (huffman_code c).
Proof.
  assert (forallb (fun hc => (5 <=? hc_bits hc) && (hc_bits hc <=? 30) && (0 <=? hc_code hc) &&
                             (hc_code hc <? 2 ^ hc_bits hc)) kHuffmanCodes = true) as H
    by (vm_compute; reflexivity).
  rewrite forallb_forall in H. unfold huffman_code. pose proof (b2z_range c).
  set (hc := nth _ _ _). assert (In hc kHuffmanCodes) as Hin.
  { apply nth_In. change (length kHuffmanCodes) with 257%nat. lia. }
  apply H in Hin. lia.
Qed.

Lemma flush_spec fuel buffer n :
  0 <= n -> (Z.to_nat n <= fuel)%nat ->
  let '(out, n') := flush fuel buffer n in
  0 <= n' < 8 /\
  bits_of (Z.to_nat n) buffer = bits_in out ++ bits_of (Z.to_nat n') buffer.
Proof.
  revert n. induction fuel as [|fuel IH]; intros n Hn Hf; cbn [flush];
    destruct (Z.leb_spec 8 n); try lia; try (split; [lia|done]).
  specialize (IH (n - 8) ltac:(lia) ltac:(lia)).
  destruct (flush fuel buffer (n - 8)) as [out n']. destruct IH as [Hn' IH].
  split; [done|]. change (bits_in (?b :: out)) with (octet_bits b ++ bits_in out).
  rewrite octet_bits_z2b, <- app_assoc, <- IH.
  replace (Z.to_nat n) with (8 + Z.to_nat (n - 8))%nat by lia. rewrite bits_of_add.
  by rewrite Z2Nat.id by lia.
Qed.

Lemma huffman_encode_loop_spec input output buffer n :
  0 <= n < 8 ->
  let '(output', buffer', n') := huffman_encode_loop input output buffer n in
  0 <= n' < 8 /\
  bits_in output' ++ bits_of (Z.to_nat n') buffer' =
  bits_in output ++ bits_of (Z.to_nat n) buffer ++ string_bits input.
Proof.
  revert output buffer n. induction input as [|c input IH]; intros output buffer n Hn;
    cbn [huffman_encode_loop].
  { split; [done|]. unfold string_bits. simpl. by rewrite app_nil_r. }
  destruct (huffman_code_range c) as [Hb Hc].
  set (hc := huffman_code c) in *.
  set (buffer1 := wrap64 _).
  pose proof (flush_spec (Z.to_nat (n + hc_bits hc)) buffer1 (n + hc_bits hc)) as Hfl.
  destruct (flush _ buffer1 _) as [out n1]. destruct Hfl as [Hn1 Hfl]; [lia|lia|].
  specialize (IH (output ++ out) buffer1 n1 Hn1).
  destruct (huffman_encode_loop input (output ++ out) buffer1 n1) as [[output' buffer'] n'].
  destruct IH as [Hn' IH]. split; [done|]. rewrite IH, bits_in_app, <- app_assoc. f_equal.
  rewrite (app_assoc (bits_in out)), <- Hfl.
  change (string_bits (c :: input)) with (code_of hc ++ string_bits input).
  rewrite app_assoc. f_equal. unfold buffer1, wrap64.
  rewrite bits_of_mod by lia. unfold code_of.
  rewrite <- (Z2Nat.id (hc_bits hc)) at 2 by lia.
  rewrite Z2Nat.inj_add by lia. apply bits_of_push. by rewrite Z2Nat.id by lia.
Qed.

Lemma bits_of_ones m : bits_of m (Z.ones (Z.of_nat m)) = replicate m true.
Proof.
  assert (forall k, (k <= m)%nat -> bits_of k (Z.ones (Z.of_nat m)) = replicate k true) as H.
  { induction k as [|k IH]; intros Hk; simpl; [done|].
    rewrite IH, Z.ones_spec_low by lia. done. }
  by apply H.
Qed.

Lemma huffman_encode_bits input :
  exists k, (k < 8)%nat /\ bits_in (huffman_encode input) = string_bits input ++ replicate k true.
Proof.
  unfold huffman_encode. pose proof (huffman_encode_loop_spec input [] 0 0 ltac:(lia)) as H.
  destruct (huffman_encode_loop input [] 0 0) as [[output buffer] n]. destruct H as [Hn H].
  simpl in H. destruct (Z.ltb_spec 0 n).
  - exists (Z.to_nat (8 - n)). split; [lia|]. rewrite bits_in_app, <- H, <- app_assoc. f_equal.
    change (bits_in [?b]) with (octet_bits b ++ []). rewrite app_nil_r, octet_bits_z2b.
    unfold wrap64. rewrite bits_of_mod by lia.
    assert (Z.shiftr 255 n = Z.ones (8 - n)) as ->.
    { rewrite Z.shiftr_div_pow2, Z.ones_equiv by lia.
      assert (n = 1 \/ n = 2 \/ n = 3 \/ n = 4 \/ n = 5 \/ n = 6 \/ n = 7) as Hcases by lia.
      destruct_or! Hcases; subst n; reflexivity. }
    rewrite <- bits_of_ones.
    replace 8%nat with (Z.to_nat n + Z.to_nat (8 - n))%nat at 1 by lia.
    rewrite <- (Z2Nat.id (8 - n)) at 2 by lia. rewrite <- (Z2Nat.id (8 - n)) at 3 by lia.
    rewrite bits_of_push; [done|]. rewrite Z.ones_equiv. lia.
  - exists 0%nat. split; [lia|]. rewrite app_nil_r, <- H.
    replace (Z.to_nat n) with 0%nat by lia. simpl. by rewrite app_nil_r.
Qed.

(** ** The decoder's states

    The bits a state remembers: those read since the last complete symbol, as a pair of a length
    and a value. *)

Definition state_paths : list (Z * Z) := [
   (0, 0); (4, 0); (4, 1); (4, 2); (4, 3); (4, 4); (4, 5); (4, 6);
   (4, 7); (4, 8); (4, 9); (4, 10); (4, 11); (4, 12); (4, 13); (4, 14);
   (4, 15); (3, 0); (3, 1); (3, 2); (3, 3); (3, 4); (3, 5); (3, 6);
   (3, 7); (2, 0); (2, 1); (2, 2); (2, 3); (1, 0); (1, 1); (8, 254);
   (8, 255); (7, 124); (7, 125); (7, 126); (7, 127); (6, 46); (6, 47); (6, 48);
   (6, 49); (6, 50); (6, 51); (6, 52); (6, 53); (6, 54); (6, 55); (6, 56);
   (6, 57); (6, 58); (6, 59); (6, 60); (6, 61); (6, 62); (6, 63); (5, 10);
   (5, 11); (5, 12); (5, 13); (5, 14); (5, 15); (5, 16); (5, 17); (5, 18);
   (5, 19); (5, 20); (5, 21); (5, 22); (5, 23); (5, 24); (5, 25); (5, 26);
   (5, 27); (5, 28); (5, 29); (5, 30); (5, 31); (12, 4092); (12, 4093); (12, 4094);
   (12, 4095); (11, 2045); (11, 2046); (11, 2047); (10, 1021); (10, 1022); (10, 1023); (9, 508);
   (9, 509); (9, 510); (9, 511); (16, 65534); (16, 65535); (15, 32767); (14, 16382); (14, 16383);
   (13, 8190); (13, 8191); (20, 1048558); (20, 1048559); (20, 1048560); (20, 1048561); (20, 1048562); (20, 1048563);
   (20, 1048564); (20, 1048565); (20, 1048566); (20, 1048567); (20, 1048568); (20, 1048569); (20, 1048570); (20, 1048571);
   (20, 1048572); (20, 1048573); (20, 1048574); (20, 1048575); (19, 524275); (19, 524276); (19, 524277); (19, 524278);
   (19, 524279); (19, 524280); (19, 524281); (19, 524282); (19, 524283); (19, 524284); (19, 524285); (19, 524286);
   (19, 524287); (18, 262136); (18, 262137); (18, 262138); (18, 262139); (18, 262140); (18, 262141); (18, 262142);
   (18, 262143); (17, 131068); (17, 131069); (17, 131070); (17, 131071); (24, 16777206); (24, 16777207); (24, 16777208);
   (24, 16777209); (24, 16777210); (24, 16777211); (24, 16777212); (24, 16777213); (24, 16777214); (24, 16777215); (23, 8388597);
   (23, 8388598); (23, 8388599); (23, 8388600); (23, 8388601); (23, 8388602); (23, 8388603); (23, 8388604); (23, 8388605);
   (23, 8388606); (23, 8388607); (22, 4194284); (22, 4194285); (22, 4194286); (22, 4194287); (22, 4194288); (22, 4194289);
   (22, 4194290); (22, 4194291); (22, 4194292); (22, 4194293); (22, 4194294); (22, 4194295); (22, 4194296); (22, 4194297);
   (22, 4194298); (22, 4194299); (22, 4194300); (22, 4194301); (22, 4194302); (22, 4194303); (21, 2097129); (21, 2097130);
   (21, 2097131); (21, 2097132); (21, 2097133); (21, 2097134); (21, 2097135); (21, 2097136); (21, 2097137); (21, 2097138);
   (21, 2097139); (21, 2097140); (21, 2097141); (21, 2097142); (21, 2097143); (21, 2097144); (21, 2097145); (21, 2097146);
   (21, 2097147); (21, 2097148); (21, 2097149); (21, 2097150); (21, 2097151); (28, 268435455); (27, 134217713); (27, 134217714);
   (27, 134217715); (27, 134217716); (27, 134217717); (27, 134217718); (27, 134217719); (27, 134217720); (27, 134217721); (27, 134217722);
   (27, 134217723); (27, 134217724); (27, 134217725); (27, 134217726); (27, 134217727); (26, 67108847); (26, 67108848); (26, 67108849);
   (26, 67108850); (26, 67108851); (26, 67108852); (26, 67108853); (26, 67108854); (26, 67108855); (26, 67108856); (26, 67108857);
   (26, 67108858); (26, 67108859); (26, 67108860); (26, 67108861); (26, 67108862); (26, 67108863); (25, 33554416); (25, 33554417);
   (25, 33554418); (25, 33554419); (25, 33554420); (25, 33554421); (25, 33554422); (25, 33554423); (25, 33554424); (25, 33554425);
   (25, 33554426); (25, 33554427); (25, 33554428); (25, 33554429); (25, 33554430); (25, 33554431); (29, 536870910); (29, 536870911)].

Definition path_of (st : Z) : list bool :=
  let '(len, v) := nth (Z.to_nat st) state_paths (0, 0) in bits_of (Z.to_nat len) v.

(** The four facts about the tables everything below rests on, checked by evaluation. *)
Definition bits_eqb (a b : list bool) : bool := bool_decide (a = b).

Fixpoint starts_with (p l : list bool) : bool :=
  match p, l with
  | [], _ => true
  | a :: p, b :: l => Bool.eqb a b && starts_with p l
  | _ :: _, [] => false
  end.

Definition symbol_code (c : Z) : list bool := code_of (nth (Z.to_nat c) kHuffmanCodes (mkCode 0 0)).

Definition nibbles : list Z := map Z.of_nat (seq 0 16).
Definition states : list Z := map Z.of_nat (seq 0 256).
Definition symbols : list Z := map Z.of_nat (seq 0 256).

(** An entry extends the path, completes one symbol, or runs into EOS. *)
Definition check_entry (st v : Z) (e : HuffmanDecodeEntry) : bool :=
  let read := path_of st ++ bits_of 4 v in
  match hd_flags e with
  | HUFFMAN_NONE => bits_eqb (path_of (hd_state e)) read
  | HUFFMAN_EMIT =>
      (0 <=? hd_symbol e) && (hd_symbol e <? 256) &&
      bits_eqb (symbol_code (hd_symbol e) ++ path_of (hd_state e)) read
  | HUFFMAN_FAIL => starts_with eos_bits read
  end && (0 <=? hd_state e) && (hd_state e <? 256).

Definition check_table (table : list (list HuffmanDecodeEntry)) : bool :=
  forallb (fun st =>
    match nth_error table (Z.to_nat st) with
    | None => false
    | Some row =>
        forallb (fun v =>
          match nth_error row (Z.to_nat v) with
          | None => false
          | Some e => check_entry st v e
          end) nibbles
    end) states.

Lemma check_table_ok : check_table kHuffmanDecodeTable = true.
Proof. vm_compute. reflexivity. Qed.

(** Every code, EOS last. *)
Definition all_codes : list (Z * list bool) :=
  map (fun c => (c, symbol_code c)) (symbols ++ [256]).

(** No path contains a complete symbol or EOS. *)
Definition check_path (codes : list (Z * list bool)) (path : list bool) : bool :=
  forallb (fun cx => negb (starts_with cx.2 path)) codes.

Lemma check_paths_ok : forallb (check_path all_codes) (map path_of states) = true.
Proof. vm_compute. reflexivity. Qed.

(** No code is a prefix of another, EOS included. *)
Definition check_prefix_free (codes : list (Z * list bool)) : bool :=
  forallb (fun cx => forallb (fun dy => (cx.1 =? dy.1) || negb (starts_with cx.2 dy.2)) codes) codes.

Lemma check_prefix_free_ok : check_prefix_free all_codes = true.
Proof. vm_compute. reflexivity. Qed.

(** The accepting states are those whose path is made of ones. *)
Definition check_accepting (table : list bool) : bool :=
  forallb (fun st =>
    match nth_error table (Z.to_nat st) with
    | None => false
    | Some a => Bool.eqb a (bits_eqb (path_of st) (replicate (length (path_of st)) true))
    end) states.

Lemma accepting_ok : check_accepting kHuffmanDecodeAccepting = true.
Proof. vm_compute. reflexivity. Qed.

Lemma starts_with_spec p l : starts_with p l = true <-> exists r, l = p ++ r.
Proof.
  revert l. induction p as [|a p IH]; intros l; simpl; [split; [by exists l|done]|].
  destruct l as [|b l]; [split; [done|by intros (r & ?)]|].
  rewrite andb_true_iff, Bool.eqb_true_iff, IH. split.
  - intros [-> (r & ->)]. by exists r.
  - intros (r & [= -> ->]). split; [done|by exists r].
Qed.

Lemma in_range (n : nat) z : In z (map Z.of_nat (seq 0 n)) <-> 0 <= z < Z.of_nat n.
Proof.
  rewrite in_map_iff. split.
  - intros (i & <- & Hi%in_seq). lia.
  - intros Hz. exists (Z.to_nat z). rewrite in_seq. lia.
Qed.

Lemma eos_code : eos_bits = symbol_code 256.
Proof. vm_compute. reflexivity. Qed.

Lemma symbol_bits_code c : symbol_bits c = symbol_code (b2z c).
Proof. unfold symbol_bits, symbol_code, huffman_code. reflexivity. Qed.

(** A code: that of an octet, or EOS. *)
Definition is_code (x : list bool) : Prop := x = eos_bits \/ exists c : byte, x = symbol_bits c.

Lemma is_code_in x : is_code x -> exists c, In (c, x) all_codes.
Proof.
  intros [->|(c & ->)].
  - exists 256. rewrite eos_code. unfold all_codes. rewrite in_map_iff. exists 256.
    split; [done|]. apply in_app_iff. right. by left.
  - exists (b2z c). unfold all_codes. rewrite in_map_iff. exists (b2z c).
    rewrite symbol_bits_code. split; [done|]. apply in_app_iff. left.
    apply in_range. apply b2z_range.
Qed.

Lemma check_path_sound codes path c x r :
  check_path codes path = true -> In (c, x) codes -> path <> x ++ r.
Proof.
  unfold check_path. intros H Hin Hp. rewrite forallb_forall in H. specialize (H _ Hin).
  cbn [snd] in H. rewrite (proj2 (starts_with_spec x path)) in H; [done|by exists r].
Qed.

Lemma path_no_code st x r : 0 <= st < 256 -> is_code x -> path_of st <> x ++ r.
Proof.
  intros Hst Hx. destruct (is_code_in x Hx) as (c & Hc).
  apply (check_path_sound all_codes _ c); [|done].
  pose proof (proj1 (forallb_forall _ _) check_paths_ok) as H. apply H.
  apply in_map, in_range. done.
Qed.

Lemma check_prefix_free_sound codes c d x y r :
  check_prefix_free codes = true -> In (c, x) codes -> In (d, y) codes -> x = y ++ r -> c = d.
Proof.
  unfold check_prefix_free. intros H Hc Hd Hxy. rewrite forallb_forall in H. specialize (H _ Hd).
  rewrite forallb_forall in H. specialize (H _ Hc). cbn [fst snd] in H.
  apply orb_true_iff in H as [H%Z.eqb_eq|H]; [done|].
  rewrite (proj2 (starts_with_spec y x)) in H; [done|by exists r].
Qed.

Lemma codes_prefix_free c d r : symbol_code c = symbol_code d ++ r ->
  0 <= c < 257 -> 0 <= d < 257 -> c = d.
Proof.
  intros Hcd Hc Hd.
  assert (forall z, 0 <= z < 257 -> In (z, symbol_code z) all_codes) as Hin.
  { intros z Hz. unfold all_codes. apply in_map_iff. exists z. split; [done|].
    apply in_app_iff. destruct (Z.eq_dec z 256) as [->|]; [right; by left|left].
    apply in_range. lia. }
  eapply check_prefix_free_sound; [apply check_prefix_free_ok|by apply Hin..|done].
Qed.

(** Two codes at the start of the same bits are equal. *)
Lemma codes_comparable c d x y : 0 <= c < 257 -> 0 <= d < 257 ->
  symbol_code c ++ x = symbol_code d ++ y -> c = d /\ x = y.
Proof.
  intros Hc Hd E.
  assert (c = d) as ->; [|split; [done|by apply app_inv_head in E]].
  apply app_eq_app in E as (l & [[E _]|[E _]]).
  - by eapply codes_prefix_free.
  - symmetry. by eapply codes_prefix_free.
Qed.

Lemma symbol_bits_inj (c d : byte) x y :
  symbol_bits c ++ x = symbol_bits d ++ y -> c = d /\ x = y.
Proof.
  rewrite !symbol_bits_code. pose proof (b2z_range c). pose proof (b2z_range d). intros E.
  apply codes_comparable in E as [E ->]; [|lia..]. split; [by apply b2z_inj|done].
Qed.

(** The bits left of a parse, when no octet's code starts them. *)
Definition residue (x : list bool) : Prop := forall (c : byte) r, x <> symbol_bits c ++ r.

(** A bit string has one reading as a string followed by a residue. *)
Lemma string_bits_unique a b x y :
  residue x -> residue y -> string_bits a ++ x = string_bits b ++ y -> a = b /\ x = y.
Proof.
  intros Hx Hy. revert b. induction a as [|c a IH]; intros [|d b]; simpl.
  - done.
  - intros E. exfalso. rewrite E in Hx. change (string_bits (d :: b)) with
      (symbol_bits d ++ string_bits b) in Hx. rewrite <- app_assoc in Hx. by eapply Hx.
  - intros E. exfalso. rewrite <- E in Hy. change (string_bits (c :: a)) with
      (symbol_bits c ++ string_bits a) in Hy. rewrite <- app_assoc in Hy. by eapply Hy.
  - change (string_bits (?z :: ?l)) with (symbol_bits z ++ string_bits l).
    rewrite <- !app_assoc. intros [-> E]%symbol_bits_inj. by destruct (IH b E) as [-> ->].
Qed.

Lemma residue_path st : 0 <= st < 256 -> residue (path_of st).
Proof. intros Hst c r. apply path_no_code; [done|]. right. by exists c. Qed.

Lemma residue_eos r : residue (eos_bits ++ r).
Proof.
  intros c x. rewrite eos_code, symbol_bits_code. pose proof (b2z_range c).
  intros [E _]%codes_comparable; lia.
Qed.

Lemma replicate_prefix {A} (a : A) n l r :
  replicate n a = l ++ r -> l = replicate (length l) a.
Proof.
  revert n. induction l as [|b l IH]; intros [|n]; simpl; try done.
  intros [= <- H]. f_equal. by eapply IH.
Qed.

Lemma residue_ones k : (k < 30)%nat -> residue (replicate k true).
Proof.
  intros Hk c r E. pose proof (f_equal length E) as Hl.
  rewrite length_replicate, length_app in Hl.
  pose proof (replicate_prefix _ _ _ _ E) as Hc.
  apply (residue_eos [] c (replicate (30 - length (symbol_bits c)) true)).
  rewrite Hc at 1. unfold eos_bits. rewrite <- replicate_add, app_nil_r. f_equal. lia.
Qed.

(** ** The decoder follows the bits *)

Lemma table_lookup st v :
  0 <= st < 256 -> 0 <= v < 16 ->
  exists row e, nth_error kHuffmanDecodeTable (Z.to_nat st) = Some row /\
    nth_error row (Z.to_nat v) = Some e /\ check_entry st v e = true.
Proof.
  intros Hst Hv. generalize check_table_ok. generalize kHuffmanDecodeTable. intros table H.
  unfold check_table in H. rewrite forallb_forall in H. specialize (H st ltac:(by apply in_range)).
  destruct (nth_error table (Z.to_nat st)) as [row|]; [|done].
  rewrite forallb_forall in H. specialize (H v ltac:(by apply in_range)).
  destruct (nth_error row (Z.to_nat v)) as [e|] eqn:He; [|done]. by exists row, e.
Qed.

(** What a table access, or a run of them, does to the bits read. *)
Definition follows (st : Z) (read : list bool) (output : bytes)
    (r : outcome Http2ErrorCode (Z * bytes)) : Prop :=
  match r with
  | Value (st', output') =>
      0 <= st' < 256 /\
      exists new, output' = output ++ new /\ path_of st ++ read = string_bits new ++ path_of st'
  | Unexpected e =>
      e = CompressionError /\
      exists new rest, path_of st ++ read = string_bits new ++ eos_bits ++ rest
  | OutOfBounds => False
  end.

Lemma huffman_nibble_follows st v output :
  0 <= st < 256 -> 0 <= v < 16 -> follows st (bits_of 4 v) output (huffman_nibble st v output).
Proof.
  intros Hst Hv. destruct (table_lookup st v Hst Hv) as (row & e & H1 & H2 & Hc).
  unfold huffman_nibble. rewrite H1, H2. unfold check_entry in Hc. cbv zeta in Hc.
  rewrite !andb_true_iff, Z.leb_le, Z.ltb_lt in Hc. destruct Hc as [[Hc Hs1] Hs2].
  destruct (hd_flags e); unfold follows.
  - apply bool_decide_eq_true in Hc. split; [done|]. exists []. by rewrite app_nil_r, Hc.
  - rewrite !andb_true_iff, Z.leb_le, Z.ltb_lt in Hc. destruct Hc as [[Hy1 Hy2] Hc].
    apply bool_decide_eq_true in Hc. split; [done|]. exists [z2b (hd_symbol e)].
    split; [done|]. rewrite <- Hc. unfold string_bits. simpl.
    by rewrite symbol_bits_code, b2z_z2b_small, app_nil_r.
  - apply starts_with_spec in Hc as (r & Hc). split; [done|]. by exists [], r.
Qed.

Lemma string_bits_app a b : string_bits (a ++ b) = string_bits a ++ string_bits b.
Proof. unfold string_bits. by rewrite map_app, concat_app. Qed.

Lemma follows_bind st read1 read2 output m k :
  follows st read1 output m ->
  (forall st' output', 0 <= st' < 256 -> follows st' read2 output' (k (st', output'))) ->
  follows st (read1 ++ read2) output (r <-- m ;; k r).
Proof.
  intros Hm Hk. destruct m as [[st1 out1]|e|]; [| |done].
  - destruct Hm as (Hst1 & new1 & -> & E1). specialize (Hk st1 (output ++ new1) Hst1).
    cbn [obind]. destruct (k (st1, output ++ new1)) as [[st2 out2]|e|]; [| |done].
    + destruct Hk as (Hst2 & new2 & -> & E2). split; [done|]. exists (new1 ++ new2).
      split; [by rewrite app_assoc|].
      by rewrite app_assoc, E1, <- app_assoc, E2, app_assoc, string_bits_app.
    + destruct Hk as (-> & new2 & rest & E2). split; [done|]. exists (new1 ++ new2), rest.
      by rewrite app_assoc, E1, <- app_assoc, E2, app_assoc, string_bits_app.
  - destruct Hm as (-> & new & rest & E). split; [done|]. exists new, (rest ++ read2).
    by rewrite app_assoc, E, <- !app_assoc.
Qed.

Lemma huffman_decode_loop_follows data st output :
  0 <= st < 256 -> follows st (bits_in data) output (huffman_decode_loop data st output).
Proof.
  revert st output. induction data as [|b data IH]; intros st output Hst; cbn [huffman_decode_loop].
  { split; [done|]. exists []. by rewrite !app_nil_r. }
  change (bits_in (b :: data)) with (octet_bits b ++ bits_in data).
  rewrite octet_bits_nibbles, <- app_assoc. pose proof (b2z_range b).
  assert (0 <= Z.shiftr (b2z b) 4 < 16) as Hhi.
  { rewrite Z.shiftr_div_pow2 by lia. Z.div_mod_to_equations. lia. }
  assert (0 <= Z.land (b2z b) 0x0F < 16) as Hlo.
  { change 0x0F with (Z.ones 4). rewrite Z.land_ones by lia. apply Z.mod_pos_bound. lia. }
  apply follows_bind; [by apply huffman_nibble_follows|]. intros st1 out1 Hst1. cbn [fst snd].
  apply follows_bind; [by apply huffman_nibble_follows|]. intros st2 out2 Hst2. cbn [fst snd].
  by apply IH.
Qed.

Lemma accepting_spec st :
  0 <= st < 256 ->
  exists a, nth_error kHuffmanDecodeAccepting (Z.to_nat st) = Some a /\
    (a = true <-> path_of st = replicate (length (path_of st)) true).
Proof.
  intros Hst. generalize accepting_ok. generalize kHuffmanDecodeAccepting. intros table H.
  unfold check_accepting in H. rewrite forallb_forall in H.
  specialize (H st ltac:(by apply in_range)).
  destruct (nth_error table (Z.to_nat st)) as [a|]; [|done].
  exists a. split; [done|]. apply Bool.eqb_true_iff in H as ->. apply bool_decide_eq_true.
Qed.

Lemma huffman_decode_cases data :
  (exists s k, (k < 30)%nat /\ bits_in data = string_bits s ++ replicate k true /\
     huffman_decode data = Value s) \/
  ((forall s k, (k < 30)%nat -> bits_in data <> string_bits s ++ replicate k true) /\
   huffman_decode data = Unexpected CompressionError).
Proof.
  unfold huffman_decode. pose proof (huffman_decode_loop_follows data 0 [] ltac:(lia)) as H.
  unfold follows in H. change (path_of 0) with (@nil bool) in H. rewrite app_nil_l in H.
  destruct (huffman_decode_loop data 0 []) as [[st out]|e|]; [| |done].
  - destruct H as (Hst & new & -> & E). cbn [obind fst snd].
    destruct (accepting_spec st Hst) as (a & -> & Ha).
    pose proof (residue_path st Hst) as Hres. destruct a.
    + left. exists new, (length (path_of st)).
      rewrite (proj1 Ha eq_refl) in E. split_and!; [|done|done].
      destruct (decide (length (path_of st) < 30)%nat) as [|Hge]; [done|exfalso].
      eapply (path_no_code st eos_bits); [done|by left|].
      rewrite (proj1 Ha eq_refl). unfold eos_bits. rewrite <- replicate_add. f_equal.
      instantiate (1 := (length (path_of st) - 30)%nat). lia.
    + right. split; [|done]. intros s k Hk E'. rewrite E in E'.
      apply string_bits_unique in E' as [_ Hp]; [|done|by apply residue_ones].
      assert (false = true) as [=]. apply Ha. rewrite Hp. by rewrite length_replicate.
  - destruct H as (-> & new & rest & E). right. split; [|done]. intros s k Hk E'.
    rewrite E in E'. apply string_bits_unique in E' as [_ Hp];
      [|apply residue_eos|by apply residue_ones].
    apply (f_equal length) in Hp. rewrite length_app, length_replicate in Hp.
    unfold eos_bits in Hp. rewrite length_replicate in Hp. lia.
Qed.

(** C29: the Huffman decoder computes the inverse of the code: it returns [s] exactly when the
    input is the code of [s] followed by fewer than thirty one-bits, answers COMPRESSION_ERROR
    to everything else, and never looks outside its tables. *)
Theorem huffman_decode_spec data :
  (forall s, huffman_decode data = Value s <->
     exists k, (k < 30)%nat /\ bits_in data = string_bits s ++ replicate k true) /\
  ((forall s, huffman_decode data <> Value s) -> huffman_decode data = Unexpected CompressionError).
Proof.
  destruct (huffman_decode_cases data) as [(s & k & Hk & E & ->)|[Hno ->]]; (split; [|congruence || done]).
  - intros s'. split.
    + intros [= <-]. by exists k.
    + intros (k' & Hk' & E'). rewrite E in E'.
      apply string_bits_unique in E' as [-> _]; [done|by apply residue_ones..].
  - intros s. split; [done|]. intros (k & Hk & E). by destruct (Hno s k Hk).
Qed.

Lemma huffman_decode_encode s : huffman_decode (huffman_encode s) = Value s.
Proof.
  destruct (huffman_encode_bits s) as (k & Hk & E).
  destruct (huffman_decode_cases (huffman_encode s)) as [(s' & k' & Hk' & E' & ->)|[Hno _]].
  - rewrite E in E'. apply string_bits_unique in E' as [-> _]; [done|apply residue_ones; lia..].
  - exfalso. apply (Hno s k); [lia|done].
Qed.

Lemma length_huffman_encode s :
  blen (huffman_encode s) = encodedLength s /\ encodedLength s <= 4 * blen s.
Proof.
  destruct (huffman_encode_bits s) as (k & Hk & E). unfold encodedLength.
  apply (f_equal length) in E. rewrite length_bits_in, length_app, length_replicate in E.
  assert (forall l n, foldl (fun n c => n + hc_bits (huffman_code c)) n l =
            n + Z.of_nat (length (string_bits l))) as Hf.
  { induction l as [|c l IH]; intros n; simpl; [lia|]. rewrite IH.
    change (string_bits (c :: l)) with (symbol_bits c ++ string_bits l). rewrite length_app.
    unfold symbol_bits, code_of. rewrite length_bits_of.
    pose proof (huffman_code_range c). lia. }
  assert (Z.of_nat (length (string_bits s)) <= 30 * blen s) as Hle.
  { clear. induction s as [|c s IH]; [done|]. rewrite blen_cons.
    change (string_bits (c :: s)) with (symbol_bits c ++ string_bits s). rewrite length_app.
    unfold symbol_bits at 1, code_of. rewrite length_bits_of.
    pose proof (huffman_code_range c). lia. }
  rewrite Hf. unfold blen in *. Z.div_mod_to_equations. lia.
Qed.

(** decoding the Huffman encoding of any string gives it back, and the encoding has the
    length [encodedLength] announces. *)
Theorem huffman_roundtrip s :
  huffman_decode (huffman_encode s) = Value s /\ blen (huffman_encode s) = encodedLength s.
Proof. split; [apply huffman_decode_encode|apply length_huffman_encode]. Qed.

(** RFC 7541 (5.2) allows at most seven bits of padding; the decoder accepts up to 29. *)
Example huffman_accepts_long_padding : huffman_decode [z2b 255; z2b 255] = Value [].
Proof. vm_compute. reflexivity. Qed.
