(* ===== verification/HpackTable.v ===== *)
(** * HPACK header tables

    [HpackStaticTable] and [HpackDynamicTable] of [galay-http2/protoc/http2_hpack.{h,cc}]: the
    static table with its name index, the ring buffer of the dynamic table, and the interface the
    encoder and the decoder use it through. *)

From Stdlib Require Import ZArith Lia.
From stdpp Require Import base list strings.
From S2P Require Import Prelude HpackTables.

Open Scope Z_scope.

(** ** Header fields *)

Record Http2HeaderField : Type := mkField { name : bytes; value : bytes }.

#[export] Instance field_eq_dec : EqDecision Http2HeaderField.
Proof. solve_decision. Defined.

Definition empty_field : Http2HeaderField := mkField [] [].

(** [Http2HeaderField::size] *)
Definition field_size (f : Http2HeaderField) : Z := blen (name f) + blen (value f) + 32.

Definition SIZE_MAX : Z := 2 ^ 64 - 1.

(** ** The static table *)

Definition kStaticTableSize : Z := blen kStaticTableEntries.

(** [HpackStaticTable::get]: indices start at 1. *)
Definition static_get (index : Z) : option Http2HeaderField :=
  if (index <=? 0) || (kStaticTableSize <? index) then None
  else match nth_error kStaticTableEntries (Z.to_nat (index - 1)) with
       | Some (n, v) => Some (mkField n v)
       | None => None
       end.

(** [m_name_to_indices]: the indices of a name, in table order. *)
Fixpoint name_to_indices (i : Z) (entries : list (bytes * bytes)) (n : bytes) : list Z :=
  match entries with
  | [] => []
  | (n', _) :: entries =>
      if decide (n' = n) then i :: name_to_indices (i + 1) entries n
      else name_to_indices (i + 1) entries n
  end.

(** The search for the value among them. *)
Fixpoint find_value (indices : list Z) (v : bytes) : option Z :=
  match indices with
  | [] => None
  | i :: indices =>
      match static_get i with
      | Some f => if decide (value f = v) then Some i else find_value indices v
      | None => find_value indices v
      end
  end.

(** [HpackStaticTable::find]: the index, and whether only the name matched. *)
Definition static_find (n v : bytes) : Z * bool :=
  match name_to_indices 1 kStaticTableEntries n with
  | [] => (0, false)
  | i :: indices =>
      match find_value (i :: indices) v with
      | Some j => (j, false)
      | None => (i, true)
      end
  end.

(** ** The dynamic table *)

Record HpackDynamicTable : Type := mkTable {
  m_ring : list Http2HeaderField;
  m_head : Z;
  m_count : Z;
  m_max_size : Z;
  m_current_size : Z
}.

Definition ring_at (ring : list Http2HeaderField) (pos : Z) : Http2HeaderField :=
  nth (Z.to_nat pos) ring empty_field.

Definition new_table (max_size : Z) : HpackDynamicTable := mkTable [] 0 0 max_size 0.

Definition clear (t : HpackDynamicTable) : HpackDynamicTable := mkTable [] 0 0 (m_max_size t) 0.

Definition evict (t : HpackDynamicTable) : HpackDynamicTable :=
  if m_count t =? 0 then t
  else
    let cap := blen (m_ring t) in
    let oldest := (m_head t + cap - m_count t) mod cap in
    mkTable (<[Z.to_nat oldest := empty_field]> (m_ring t)) (m_head t) (m_count t - 1)
      (m_max_size t) (m_current_size t - field_size (ring_at (m_ring t) oldest)).

(** [while (m_current_size + extra > m_max_size) evict();] *)
Fixpoint evict_loop (fuel : nat) (extra : Z) (t : HpackDynamicTable) : HpackDynamicTable :=
  if m_max_size t <? m_current_size t + extra then
    match fuel with
    | O => t
    | S fuel => evict_loop fuel extra (evict t)
    end
  else t.

(** [get]: index 0 is the entry below [m_head]. *)
Definition table_get (t : HpackDynamicTable) (index : Z) : option Http2HeaderField :=
  if m_count t <=? index then None
  else
    let cap := blen (m_ring t) in
    Some (ring_at (m_ring t) ((m_head t + cap - 1 - index) mod cap)).

(** The buffer of [add] when it grows: the new entry, the old ones, and empty slots. *)
Definition grown_ring (t : HpackDynamicTable) (field : Http2HeaderField) : list Http2HeaderField :=
  let cap := blen (m_ring t) in
  let new_cap := if m_count t =? 0 then 8 else m_count t * 2 in
  let old i := ring_at (m_ring t) ((m_head t + cap - 1 - i) mod cap) in
  field :: map (fun i => old (Z.of_nat i)) (seq 0 (Z.to_nat (m_count t))) ++
  replicate (Z.to_nat (new_cap - m_count t - 1)) empty_field.

Definition table_add (field : Http2HeaderField) (t : HpackDynamicTable) : HpackDynamicTable :=
  let entry_size := field_size field in
  if m_max_size t <? entry_size then clear t
  else
    let t := evict_loop (Z.to_nat (m_count t)) entry_size t in
    if m_count t <? blen (m_ring t)
    then
      mkTable (<[Z.to_nat (m_head t) := field]> (m_ring t))
        ((m_head t + 1) mod blen (m_ring t)) (m_count t + 1) (m_max_size t)
        (m_current_size t + entry_size)
    else
      let ring := grown_ring t field in
      mkTable ring ((m_count t + 1) mod blen ring) (m_count t + 1) (m_max_size t)
        (m_current_size t + entry_size).

(** The loop of [find]: [name_match] is 0 or one more than the index of the first entry with this
    name. *)
Fixpoint find_loop (ring : list Http2HeaderField) (turns : nat) (i pos name_match : Z)
    (n v : bytes) : Z * bool :=
  match turns with
  | O => if 0 <? name_match then (name_match - 1, true) else (SIZE_MAX, false)
  | S turns =>
      let entry := ring_at ring pos in
      let pos' := if pos =? 0 then blen ring - 1 else pos - 1 in
      if decide (name entry = n) then
        if decide (value entry = v) then (i, false)
        else find_loop ring turns (i + 1) pos' (if name_match =? 0 then i + 1 else name_match) n v
      else find_loop ring turns (i + 1) pos' name_match n v
  end.

Definition table_find (t : HpackDynamicTable) (n v : bytes) : Z * bool :=
  if m_count t =? 0 then (SIZE_MAX, false)
  else
    let cap := blen (m_ring t) in
    find_loop (m_ring t) (Z.to_nat (m_count t)) 0 ((m_head t + cap - 1) mod cap) 0 n v.

Definition table_setMaxSize (max_size : Z) (t : HpackDynamicTable) : HpackDynamicTable :=
  evict_loop (Z.to_nat (m_count t)) 0
    (mkTable (m_ring t) (m_head t) (m_count t) max_size (m_current_size t)).

(** ** The entries of a table *)

Definition slot (t : HpackDynamicTable) (i : Z) : Z :=
  (m_head t + blen (m_ring t) - 1 - i) mod blen (m_ring t).

(** What [get] shows, index 0 first; whether that is the newest first is not said here. *)
Definition entries (t : HpackDynamicTable) : list Http2HeaderField :=
  map (fun i => ring_at (m_ring t) (slot t (Z.of_nat i))) (seq 0 (Z.to_nat (m_count t))).

Definition total_size (l : list Http2HeaderField) : Z := foldr (fun f n => field_size f + n) 0 l.

(** The ring represents its entries. *)
Record ring_ok (t : HpackDynamicTable) : Prop := {
  ok_count : 0 <= m_count t <= blen (m_ring t);
  ok_head : 0 <= m_head t /\ (m_ring t <> [] -> m_head t < blen (m_ring t));
  ok_size : m_current_size t = total_size (entries t)
}.

(** The invariant of the class: besides, the size limit holds. *)
Definition table_ok (t : HpackDynamicTable) : Prop :=
  ring_ok t /\ m_current_size t <= m_max_size t.

Lemma ring_nonempty t : 0 < m_count t -> m_count t <= blen (m_ring t) -> m_ring t <> [].
Proof. intros H0 H1 E. rewrite E in H1. unfold blen in H1. simpl in H1. lia. Qed.

Lemma slot_eq t i :
  0 <= i < m_count t -> ring_ok t ->
  slot t i = (if i <? m_head t then m_head t - 1 - i else m_head t + blen (m_ring t) - 1 - i) /\
  0 <= slot t i < blen (m_ring t).
Proof.
  intros Hi [Hc [H0 Hh] _]. unfold slot.
  specialize (Hh (ring_nonempty t ltac:(lia) ltac:(lia))). split; [|apply Z.mod_pos_bound; lia].
  destruct (Z.ltb_spec i (m_head t)).
  - replace (m_head t + blen (m_ring t) - 1 - i) with (m_head t - 1 - i + 1 * blen (m_ring t))
      by lia.
    rewrite Z.mod_add by lia. apply Z.mod_small. lia.
  - apply Z.mod_small. lia.
Qed.

Lemma ring_at_insert_eq ring pos f :
  0 <= pos < blen ring -> ring_at (<[Z.to_nat pos := f]> ring) pos = f.
Proof.
  intros H. unfold ring_at. apply nth_lookup_Some. apply list_lookup_insert_eq. unfold blen in H. lia.
Qed.

Lemma ring_at_insert_ne ring pos pos' f :
  0 <= pos -> 0 <= pos' -> pos <> pos' -> ring_at (<[Z.to_nat pos := f]> ring) pos' = ring_at ring pos'.
Proof.
  intros. unfold ring_at. rewrite !nth_lookup, list_lookup_insert_ne by lia. done.
Qed.

Lemma length_entries t : 0 <= m_count t -> blen (entries t) = m_count t.
Proof. intros. unfold entries, blen. rewrite length_map, length_seq. lia. Qed.

Lemma entries_lookup t i :
  0 <= i < m_count t -> nth_error (entries t) (Z.to_nat i) = Some (ring_at (m_ring t) (slot t i)).
Proof.
  intros Hi. unfold entries. rewrite nth_error_map, nth_error_nth' with (d := 0%nat)
    by (rewrite length_seq; lia).
  rewrite seq_nth by lia. simpl. do 2 f_equal. f_equal. lia.
Qed.

Lemma total_size_app a b : total_size (a ++ b) = total_size a + total_size b.
Proof. induction a as [|f a IH]; simpl; lia. Qed.

Lemma field_size_pos f : 32 <= field_size f.
Proof. unfold field_size. pose proof (blen_nonneg (name f)). pose proof (blen_nonneg (value f)). lia. Qed.

Lemma total_size_ge l : 32 * blen l <= total_size l.
Proof.
  induction l as [|f l IH]; simpl; [done|]. rewrite blen_cons. pose proof (field_size_pos f). lia.
Qed.

(** Reading a mapped sequence of positions. *)
Lemma map_seq_ext {A} (f g : nat -> A) a b n :
  (forall i, (i < n)%nat -> f (a + i)%nat = g (b + i)%nat) -> map f (seq a n) = map g (seq b n).
Proof.
  revert a b. induction n as [|n IH]; intros a b Hfg; simpl; [done|].
  pose proof (Hfg 0%nat ltac:(lia)) as H0. rewrite !Nat.add_0_r in H0. rewrite H0. f_equal.
  apply IH. intros i Hi. pose proof (Hfg (S i) ltac:(lia)) as Hi'.
  by rewrite !Nat.add_succ_r in Hi'.
Qed.

(** ** Eviction *)

Lemma evict_entries t :
  ring_ok t -> 0 < m_count t ->
  exists l f, entries t = l ++ [f] /\ entries (evict t) = l /\ ring_ok (evict t) /\
    m_current_size (evict t) = m_current_size t - field_size f /\
    m_max_size (evict t) = m_max_size t /\ m_count (evict t) = m_count t - 1 /\
    blen (m_ring (evict t)) = blen (m_ring t).
Proof.
  intros Hok Hc. pose proof Hok as [Hcnt [Hh0 Hh] Hsz].
  unfold evict. destruct (Z.eqb_spec (m_count t) 0); [lia|].
  set (oldest := (m_head t + blen (m_ring t) - m_count t) mod blen (m_ring t)).
  assert (oldest = slot t (m_count t - 1)) as Eo by (unfold oldest, slot; f_equal; lia).
  destruct (slot_eq t (m_count t - 1) ltac:(lia) Hok) as [Es Hs].
  set (t' := mkTable _ _ _ _ _).
  assert (blen (m_ring t') = blen (m_ring t)) as Hcap
    by (unfold t', blen; simpl; by rewrite length_insert).
  assert (entries t = entries t' ++ [ring_at (m_ring t) oldest]) as E.
  { unfold entries at 1.
    replace (Z.to_nat (m_count t)) with (Z.to_nat (m_count t - 1) + 1)%nat by lia.
    rewrite seq_app, map_app. simpl. f_equal.
    - unfold entries. apply map_seq_ext. intros i Hi. simpl.
      change (m_count t') with (m_count t - 1) in Hi.
      assert (slot t' (Z.of_nat i) = slot t (Z.of_nat i)) as -> by (unfold slot; by rewrite Hcap).
      destruct (slot_eq t (Z.of_nat i) ltac:(lia) Hok) as [Es' Hs'].
      symmetry. apply ring_at_insert_ne; [lia|lia|].
      rewrite Eo, Es, Es'.
      destruct (Z.ltb_spec (m_count t - 1) (m_head t)), (Z.ltb_spec (Z.of_nat i) (m_head t)); lia.
    - rewrite Eo, Z2Nat.id by lia. done. }
  exists (entries t'), (ring_at (m_ring t) oldest). split_and!; try done.
  rewrite E, total_size_app in Hsz. simpl in Hsz.
  pose proof (field_size_pos (ring_at (m_ring t) oldest)).
  split.
  - rewrite Hcap. simpl. lia.
  - rewrite Hcap. simpl. split; [done|]. intros _. apply Hh, ring_nonempty; lia.
  - simpl. lia.
Qed.

(** The eviction loop, for an entry of [extra] octets: it keeps the longest prefix of the entries
    that leaves room, and always has the fuel it needs. *)
Fixpoint keep (fuel : nat) (limit : Z) (l : list Http2HeaderField) : list Http2HeaderField :=
  match fuel with
  | O => l
  | S fuel => if limit <? total_size l then keep fuel limit (take (length l - 1) l) else l
  end.

Lemma evict_loop_spec fuel extra t :
  ring_ok t -> 0 <= extra <= m_max_size t -> Z.of_nat fuel = m_count t ->
  let t' := evict_loop fuel extra t in
  ring_ok t' /\ m_max_size t' = m_max_size t /\ m_current_size t' + extra <= m_max_size t /\
  entries t' = keep fuel (m_max_size t - extra) (entries t) /\
  blen (m_ring t') = blen (m_ring t).
Proof.
  revert t. induction fuel as [|fuel IH]; intros t Hok He Hf; cbn [evict_loop keep].
  - assert (m_current_size t = 0) as Hz.
    { rewrite (ok_size t Hok). unfold entries. by rewrite <- Hf. }
    destruct (Z.ltb_spec (m_max_size t) (m_current_size t + extra)); [lia|].
    split_and!; [done|done|lia|done|done].
  - rewrite <- (ok_size t Hok).
    destruct (Z.ltb_spec (m_max_size t) (m_current_size t + extra));
      destruct (Z.ltb_spec (m_max_size t - extra) (m_current_size t)); try lia;
      [|split_and!; [done|done|lia|done|done]].
    destruct (evict_entries t Hok ltac:(lia)) as (l & f & El & Ee & Hok' & Hs & Hm & Hc & Hr).
    destruct (IH (evict t) Hok' ltac:(rewrite Hm; lia) ltac:(lia)) as (H1 & H2 & H3 & H4 & H5).
    rewrite Hm in *. split_and!; [done|done|lia| |lia].
    rewrite H4, Ee, El, length_app. simpl. f_equal. symmetry.
    replace (length l + 1 - 1)%nat with (length l) by lia. by rewrite take_app_length.
Qed.

(** ** The operations preserve the invariant *)

Lemma new_table_ok max_size : 0 <= max_size -> table_ok (new_table max_size).
Proof.
  intros. split; [|done]. split; simpl; [by unfold blen; simpl|by split|done].
Qed.

Lemma max_size_nonneg t : table_ok t -> 0 <= m_max_size t.
Proof.
  intros [[Hc _ Hs] Hm]. pose proof (total_size_ge (entries t)).
  pose proof (blen_nonneg (entries t)). lia.
Qed.

(** A smaller size after a larger one leaves the table that the smaller one leaves. *)
Lemma setMaxSize_twice m n t : n <= m -> table_setMaxSize n (table_setMaxSize m t) = table_setMaxSize n t.
Proof.
  intros Hmn. unfold table_setMaxSize. remember (Z.to_nat (m_count t)) as k eqn:Hk.
  revert t Hk. induction k as [|k IH]; intros t Hk; cbn [evict_loop m_max_size m_current_size].
  { destruct (m <? _); cbn [m_count m_ring m_head m_current_size]; by rewrite <- Hk. }
  destruct (Z.ltb_spec m (m_current_size t + 0)) as [Hm|Hm].
  - rewrite (proj2 (Z.ltb_lt n _)) by lia.
    specialize (IH (evict t)). unfold evict in *. cbn [m_count m_ring m_head m_max_size m_current_size] in *.
    destruct (m_count t =? 0) eqn:E; [lia|]. cbn [m_count m_ring m_head m_max_size m_current_size] in *.
    apply IH. lia.
  - cbn [m_count m_ring m_head m_current_size]. by rewrite <- Hk.
Qed.

Lemma setMaxSize_spec max_size t :
  table_ok t -> 0 <= max_size ->
  let t' := table_setMaxSize max_size t in
  table_ok t' /\ m_max_size t' = max_size /\
  entries t' = keep (Z.to_nat (m_count t)) max_size (entries t).
Proof.
  intros [[Hc Hh Hs] Hm] Hmax. unfold table_setMaxSize.
  set (t0 := mkTable (m_ring t) (m_head t) (m_count t) max_size (m_current_size t)).
  destruct (evict_loop_spec (Z.to_nat (m_count t)) 0 t0) as (H1 & H2 & H3 & H4 & _);
    [by split|simpl; lia|simpl; lia|]. simpl in H2, H3, H4.
  rewrite Z.sub_0_r in H4. split_and!; [split; [done|lia]|done|done].
Qed.

(** [add] without growth puts the entry first; with growth it reverses what it found. *)
Lemma add_room_entries f t :
  ring_ok t -> m_count t < blen (m_ring t) ->
  let t' := mkTable (<[Z.to_nat (m_head t) := f]> (m_ring t))
              ((m_head t + 1) mod blen (m_ring t)) (m_count t + 1) (m_max_size t)
              (m_current_size t + field_size f) in
  entries t' = f :: entries t /\ ring_ok t'.
Proof.
  intros Hok Hroom t'. pose proof Hok as [Hc [H0 Hh] Hs].
  specialize (Hh ltac:(intros E; rewrite E in Hroom; unfold blen in Hroom; simpl in Hroom; lia)).
  assert (blen (m_ring t') = blen (m_ring t)) as Hcap
    by (unfold t', blen; simpl; by rewrite length_insert).
  assert (forall i, 0 <= i <= m_count t ->
            slot t' i = if i <? m_head t + 1 then m_head t - i else m_head t - i + blen (m_ring t))
    as Hslot.
  { intros i Hi. unfold slot. rewrite Hcap. simpl.
    destruct (Z.eq_dec (m_head t + 1) (blen (m_ring t))) as [E|E].
    - rewrite E, Z.mod_same by lia. destruct (Z.ltb_spec i (blen (m_ring t))); [|lia].
      rewrite Z.mod_small; lia.
    - rewrite (Z.mod_small (m_head t + 1)) by lia. destruct (Z.ltb_spec i (m_head t + 1)).
      + replace (m_head t + 1 + blen (m_ring t) - 1 - i) with (m_head t - i + 1 * blen (m_ring t))
          by lia. rewrite Z.mod_add by lia. apply Z.mod_small. lia.
      + rewrite Z.mod_small; lia. }
  assert (entries t' = f :: entries t) as E.
  { unfold entries at 1. change (m_count t') with (m_count t + 1).
    replace (Z.to_nat (m_count t + 1)) with (1 + Z.to_nat (m_count t))%nat by lia.
    rewrite seq_app, map_app. simpl. f_equal.
    - change (Z.of_nat 0) with 0. rewrite Hslot by lia.
      destruct (Z.ltb_spec 0 (m_head t + 1)); [|lia].
      rewrite Z.sub_0_r. apply ring_at_insert_eq. lia.
    - apply map_seq_ext. intros i Hi. simpl. rewrite Hslot by lia.
      destruct (slot_eq t (Z.of_nat i) ltac:(lia) Hok) as [Es Hs'].
      replace (Z.of_nat (S i)) with (Z.of_nat i + 1) by lia.
      rewrite ring_at_insert_ne; [f_equal; rewrite Es| | |];
        destruct (Z.ltb_spec (Z.of_nat i + 1) (m_head t + 1)), (Z.ltb_spec (Z.of_nat i) (m_head t)); lia. }
  split; [done|]. split.
  - rewrite Hcap. simpl. lia.
  - rewrite Hcap. simpl. split; [apply Z.mod_pos_bound; lia|]. intros _. apply Z.mod_pos_bound. lia.
  - rewrite E. simpl. lia.
Qed.

Lemma add_grow_entries f t :
  ring_ok t -> m_count t = blen (m_ring t) ->
  let ring := grown_ring t f in
  let t' := mkTable ring ((m_count t + 1) mod blen ring) (m_count t + 1) (m_max_size t)
              (m_current_size t + field_size f) in
  entries t' = rev (f :: entries t) /\ ring_ok t'.
Proof.
  intros Hok Hfull ring t'. pose proof Hok as [Hc [H0 Hh] Hs].
  assert (ring = f :: entries t ++ replicate (Z.to_nat
            ((if m_count t =? 0 then 8 else m_count t * 2) - m_count t - 1)) empty_field) as Er by done.
  assert (blen ring = if m_count t =? 0 then 8 else m_count t * 2) as Hcap.
  { rewrite Er, blen_cons, blen_app, length_entries, blen_replicate by lia.
    destruct (Z.eqb_spec (m_count t) 0); lia. }
  assert (forall i, 0 <= i <= m_count t -> slot t' i = m_count t - i) as Hslot.
  { intros i Hi. unfold slot. simpl. rewrite Hcap. destruct (Z.eqb_spec (m_count t) 0) as [E|E].
    - rewrite E in *. replace i with 0 by lia. done.
    - destruct (Z.eq_dec (m_count t) 1) as [E1|E1].
      + rewrite E1 in *. assert (i = 0 \/ i = 1) as [-> | ->] by lia; done.
      + rewrite (Z.mod_small (m_count t + 1)) by lia.
        replace (m_count t + 1 + m_count t * 2 - 1 - i)
          with (m_count t - i + 1 * (m_count t * 2)) by lia.
        rewrite Z.mod_add by lia. apply Z.mod_small. lia. }
  assert (entries t' = rev (f :: entries t)) as E.
  { apply nth_ext with (d := empty_field) (d' := empty_field).
    { rewrite length_rev. simpl. unfold entries. rewrite !length_map, !length_seq. simpl. lia. }
    intros k Hk. unfold entries in Hk. rewrite length_map, length_seq in Hk.
    change (m_count t') with (m_count t + 1) in Hk.
    pose proof (length_entries t ltac:(lia)) as Hle. unfold blen in Hle.
    rewrite rev_nth by (simpl; lia).
    assert (nth_error (entries t') k = Some (ring_at ring (m_count t - Z.of_nat k))) as Hn.
    { rewrite <- Hslot by lia. rewrite <- (Nat2Z.id k) at 1.
      apply entries_lookup. simpl. lia. }
    rewrite (nth_error_nth _ _ _ Hn). unfold ring_at. rewrite Er.
    cbn [length]. replace (Z.to_nat (m_count t - Z.of_nat k)) with
      (S (length (entries t)) - S k)%nat by lia.
    rewrite app_comm_cons. apply app_nth1. simpl. lia. }
  assert (0 <= (m_count t + 1) mod blen ring < blen ring) as Hmod.
  { apply Z.mod_pos_bound. rewrite Hcap. destruct (Z.eqb_spec (m_count t) 0); lia. }
  split; [done|]. split.
  - simpl. rewrite Hcap. destruct (Z.eqb_spec (m_count t) 0); lia.
  - simpl. split; [lia|intros _; lia].
  - rewrite E. change (rev (f :: entries t)) with (rev (entries t) ++ [f]).
    assert (forall l, total_size (rev l) = total_size l) as Hrev.
    { induction l as [|x l IH]; [done|]. simpl. rewrite total_size_app, IH. simpl. lia. }
    rewrite total_size_app, Hrev. simpl. lia.
Qed.

(** The whole of [add]: what it drops, and the order it leaves. *)
Lemma table_add_spec f t :
  table_ok t ->
  let t' := table_add f t in
  let kept := keep (Z.to_nat (m_count t)) (m_max_size t - field_size f) (entries t) in
  table_ok t' /\ m_max_size t' = m_max_size t /\
  (m_max_size t < field_size f -> entries t' = [] /\ m_ring t' = []) /\
  (field_size f <= m_max_size t ->
     if blen kept <? blen (m_ring t)
     then entries t' = f :: kept /\ blen (m_ring t') = blen (m_ring t)
     else entries t' = rev (f :: kept) /\ 8 <= blen (m_ring t') \/ 0 < blen (m_ring t) < 8).
Proof.
  intros [Hok Hm]. pose proof (max_size_nonneg t (conj Hok Hm)) as H0.
  pose proof (field_size_pos f) as Hf. unfold table_add.
  destruct (Z.ltb_spec (m_max_size t) (field_size f)) as [Hbig|Hfit].
  { split_and!; [by apply new_table_ok|done|done|lia]. }
  destruct (evict_loop_spec (Z.to_nat (m_count t)) (field_size f) t) as (H1 & H2 & H3 & H4 & H5);
    [done|lia|destruct Hok; lia|].
  set (t1 := evict_loop _ _ t) in *. pose proof (ok_count t1 H1) as Hc1.
  rewrite <- H4, length_entries, <- H5 by lia.
  destruct (Z.ltb_spec (m_count t1) (blen (m_ring t1))).
  - destruct (add_room_entries f t1 H1) as [E Hok']; [done|].
    split_and!; [split; [done|simpl; lia]|simpl; lia|lia|].
    intros _. split; [exact E|]. unfold blen. simpl. by rewrite length_insert.
  - destruct (add_grow_entries f t1 H1) as [E Hok']; [lia|].
    split_and!; [split; [done|simpl; lia]|simpl; lia|lia|].
    intros _. destruct (Z.eq_dec (m_count t1) 0) as [Ez|].
    + left. split; [exact E|]. simpl. unfold grown_ring.
      rewrite blen_cons, blen_app, blen_replicate. rewrite Ez. simpl. unfold blen. simpl. lia.
    + destruct (decide (8 <= blen (m_ring t1))); [|right; lia].
      left. split; [exact E|]. simpl. unfold grown_ring. rewrite blen_cons, blen_app, blen_replicate.
      unfold blen at 1. rewrite length_map, length_seq.
      destruct (Z.eqb_spec (m_count t1) 0); lia.
Qed.

(** ** Lookup *)

(** [find] over a list of entries, from index [i] on. *)
Fixpoint find_list (l : list Http2HeaderField) (i name_match : Z) (n v : bytes) : Z * bool :=
  match l with
  | [] => if 0 <? name_match then (name_match - 1, true) else (SIZE_MAX, false)
  | e :: l =>
      if decide (name e = n) then
        if decide (value e = v) then (i, false)
        else find_list l (i + 1) (if name_match =? 0 then i + 1 else name_match) n v
      else find_list l (i + 1) name_match n v
  end.

Lemma slot_next t i :
  ring_ok t -> 0 <= i -> i + 1 < m_count t ->
  (if slot t i =? 0 then blen (m_ring t) - 1 else slot t i - 1) = slot t (i + 1).
Proof.
  intros Hok H0 Hi. destruct (slot_eq t i ltac:(lia) Hok) as [E1 B1].
  destruct (slot_eq t (i + 1) ltac:(lia) Hok) as [E2 B2].
  rewrite E1, E2 in *. destruct Hok as [Hc _ _].
  destruct (Z.ltb_spec i (m_head t)), (Z.ltb_spec (i + 1) (m_head t)); try lia;
    match goal with |- context [?a =? 0] => destruct (Z.eqb_spec a 0) end; lia.
Qed.

Lemma drop_entries t i :
  0 <= i < m_count t ->
  drop (Z.to_nat i) (entries t) =
  ring_at (m_ring t) (slot t i) :: drop (Z.to_nat (i + 1)) (entries t).
Proof.
  intros Hi. pose proof (entries_lookup t i Hi) as Hl.
  replace (Z.to_nat (i + 1)) with (S (Z.to_nat i)) by lia.
  revert Hl. generalize (entries t) (Z.to_nat i). intros l k.
  revert k. induction l as [|x l IH]; intros [|k] Hl; simpl in *; try done.
  - by injection Hl as ->.
  - by apply IH.
Qed.

Lemma find_loop_list t turns i nm n v :
  ring_ok t -> 0 <= i -> Z.of_nat turns + i = m_count t -> (0 < turns)%nat ->
  find_loop (m_ring t) turns i (slot t i) nm n v =
  find_list (drop (Z.to_nat i) (entries t)) i nm n v.
Proof.
  intros Hok. revert i nm. induction turns as [|turns IH]; intros i nm H0 Hi Hpos; [lia|].
  cbn [find_loop]. rewrite drop_entries by lia. cbn [find_list].
  destruct turns as [|turns'].
  - rewrite (drop_ge (entries t)) by (unfold entries; rewrite length_map, length_seq; lia).
    done.
  - rewrite slot_next by first [done | lia].
    destruct (decide (name _ = n)); [destruct (decide (value _ = v)); [done|]|]; apply IH; lia.
Qed.

Lemma table_find_list t n v : ring_ok t -> table_find t n v = find_list (entries t) 0 0 n v.
Proof.
  intros Hok. unfold table_find. pose proof (ok_count t Hok). destruct (Z.eqb_spec (m_count t) 0) as [E|E].
  - unfold entries. by rewrite E.
  - replace ((m_head t + blen (m_ring t) - 1) mod blen (m_ring t)) with (slot t 0)
      by (unfold slot; f_equal; lia).
    rewrite (find_loop_list t) by first [done | lia]. done.
Qed.

(** What a result of [find] means. *)
Definition found (l : list Http2HeaderField) (n v : bytes) (r : Z * bool) : Prop :=
  match r with
  | (i, false) =>
      (i = SIZE_MAX /\ Forall (fun e => name e <> n) l) \/
      (0 <= i < blen l /\ nth_error l (Z.to_nat i) = Some (mkField n v))
  | (i, true) =>
      0 <= i < blen l /\ exists v', nth_error l (Z.to_nat i) = Some (mkField n v') /\ v' <> v
  end.

Lemma find_list_found pre l nm n v :
  Forall (fun e => e <> mkField n v) pre ->
  (if nm =? 0 then Forall (fun e => name e <> n) pre
   else 0 < nm <= blen pre /\ exists v', nth_error pre (Z.to_nat (nm - 1)) = Some (mkField n v')) ->
  found (pre ++ l) n v (find_list l (blen pre) nm n v).
Proof.
  revert pre nm. induction l as [|e l IH]; intros pre nm Hpre Hnm; cbn [find_list].
  { rewrite app_nil_r. destruct (Z.eqb_spec nm 0) as [->|Hne]; [by left|].
    destruct Hnm as (Hr & v' & Hv'). destruct (Z.ltb_spec 0 nm); [|lia].
    simpl. split; [lia|]. exists v'. split; [done|]. intros ->.
    apply nth_error_In in Hv'. rewrite Forall_forall in Hpre.
    eapply Hpre; [|done]. by apply list_elem_of_In. }
  assert (pre ++ e :: l = (pre ++ [e]) ++ l) as Eapp by by rewrite <- app_assoc.
  assert (blen (pre ++ [e]) = blen pre + 1) as El by (rewrite blen_app; unfold blen at 2; simpl; lia).
  assert (forall k x, nth_error pre k = Some x -> nth_error (pre ++ [e]) k = Some x) as Hext.
  { intros k x Hk. rewrite nth_error_app1; [done|]. apply nth_error_Some. congruence. }
  destruct (decide (name e = n)) as [En|En]; [destruct (decide (value e = v)) as [Ev|Ev]|].
  - simpl. right. pose proof (blen_nonneg pre). pose proof (blen_nonneg l).
    rewrite blen_app, blen_cons. split; [lia|]. unfold blen.
    rewrite Nat2Z.id, nth_error_app2, Nat.sub_diag by done. simpl. destruct e. simpl in *. by subst.
  - rewrite Eapp, <- El. apply IH.
    + apply Forall_app. split; [done|]. constructor; [|done]. intros ->. done.
    + destruct (Z.eqb_spec nm 0) as [E0|E0].
      * pose proof (blen_nonneg pre). destruct (Z.eqb_spec (blen (pre ++ [e])) 0); [lia|].
        rewrite El. split; [lia|]. exists (value e).
        replace (Z.to_nat (blen pre + 1 - 1)) with (length pre) by (unfold blen; lia).
        rewrite nth_error_app2, Nat.sub_diag by done. destruct e. simpl in *. by subst.
      * destruct (Z.eqb_spec nm 0); [lia|]. destruct Hnm as (Hr & v' & Hv').
        split; [lia|]. exists v'. by apply Hext.
  - rewrite Eapp, <- El. apply IH.
    + apply Forall_app. split; [done|]. constructor; [|done]. intros ->. done.
    + destruct (nm =? 0).
      * apply Forall_app. split; [done|]. by constructor.
      * destruct Hnm as (Hr & v' & Hv'). split; [lia|]. exists v'. by apply Hext.
Qed.

Lemma table_find_found t n v : ring_ok t -> found (entries t) n v (table_find t n v).
Proof.
  intros Hok. rewrite table_find_list by done.
  apply (find_list_found [] (entries t) 0 n v); constructor.
Qed.

Lemma table_get_entries t i :
  ring_ok t -> 0 <= i -> table_get t i = nth_error (entries t) (Z.to_nat i).
Proof.
  intros Hok Hi. unfold table_get. destruct (Z.leb_spec (m_count t) i).
  - symmetry. apply nth_error_None. unfold entries. rewrite length_map, length_seq. lia.
  - rewrite entries_lookup by lia. done.
Qed.

(** ** What every use of a dynamic table guarantees *)

Inductive table_op : Type := Add (f : Http2HeaderField) | SetMaxSize (n : Z).

Definition wf_table_op (op : table_op) : Prop :=
  match op with Add _ => True | SetMaxSize n => 0 <= n end.

Definition run_table_op (t : HpackDynamicTable) (op : table_op) : HpackDynamicTable :=
  match op with Add f => table_add f t | SetMaxSize n => table_setMaxSize n t end.

Lemma run_table_op_ok t op : wf_table_op op -> table_ok t -> table_ok (run_table_op t op).
Proof.
  intros Hop Hok. destruct op as [f|n]; simpl in *; [by apply table_add_spec|by apply setMaxSize_spec].
Qed.

(** after any sequence of insertions and resizings the accounting of the table is exact: its
    size is the sum of the sizes of the entries [get] shows, within the limit in force, there are
    as many of them as it counts, and [find] agrees with them: a full match is an entry with that
    name and value, a name match one with that name, and it misses only when no entry has it. *)
Theorem dynamic_table_invariant ops max_size n v :
  Forall wf_table_op ops -> 0 <= max_size ->
  let t := foldl run_table_op (new_table max_size) ops in
  m_current_size t = total_size (entries t) /\ m_current_size t <= m_max_size t /\
  m_count t = blen (entries t) /\ 32 * m_count t <= m_max_size t /\
  (forall i, 0 <= i -> table_get t i = nth_error (entries t) (Z.to_nat i)) /\
  found (entries t) n v (table_find t n v).
Proof.
  intros Hops Hmax t.
  assert (table_ok t) as [Hok Hm].
  { unfold t. clear t. pose proof (new_table_ok max_size Hmax) as Ht. revert Ht.
    generalize (new_table max_size). induction Hops as [|op ops Hop _ IH]; intros t Ht; [done|].
    apply IH. by apply run_table_op_ok. }
  pose proof (total_size_ge (entries t)) as Hge.
  pose proof (length_entries t ltac:(destruct Hok; lia)) as Hlen. pose proof (ok_size t Hok).
  split_and!; [done|done|done|lia|by intros; apply table_get_entries|by apply table_find_found].
Qed.

Lemma dynamic_table_invariant_witness :
  let t := foldl run_table_op (new_table 70)
             [Add (mkField (bs "a") (bs "1")); Add (mkField (bs "b") []); SetMaxSize 40] in
  m_current_size t = 33 /\ 32 * m_count t <= m_max_size t.
Proof.
  intros t. destruct (dynamic_table_invariant
    [Add (mkField (bs "a") (bs "1")); Add (mkField (bs "b") []); SetMaxSize 40] 70 [] [])
    as (Hs & _ & _ & Hc & _); [repeat constructor; simpl; lia|lia|].
  split; [|exact Hc]. etransitivity; [exact Hs|]. vm_compute. reflexivity.
Defined.

(** ** Against RFC 7541

    The dynamic table of the standard (2.3.2, 4.3, 4.4): a list, newest entry first, whose oldest
    entries are dropped to make room. *)

Definition rfc_table : Type := Z * list Http2HeaderField.

Definition rfc_op (m : rfc_table) (op : table_op) : rfc_table :=
  match op with
  | Add f =>
      if m.1 <? field_size f then (m.1, [])
      else (m.1, f :: keep (length m.2) (m.1 - field_size f) m.2)
  | SetMaxSize n => (n, keep (length m.2) n m.2)
  end.

(** The table holds at most eight entries all along. *)
Fixpoint at_most_eight (m : rfc_table) (ops : list table_op) : Prop :=
  blen m.2 <= 8 /\ match ops with [] => True | op :: ops => at_most_eight (rfc_op m op) ops end.

Definition ring_sized (t : HpackDynamicTable) : Prop :=
  m_ring t = [] \/ 8 <= blen (m_ring t).

Lemma rfc_step t m op :
  table_ok t -> ring_sized t -> m = (m_max_size t, entries t) -> wf_table_op op ->
  blen (rfc_op m op).2 <= 8 ->
  table_ok (run_table_op t op) /\ ring_sized (run_table_op t op) /\
  rfc_op m op = (m_max_size (run_table_op t op), entries (run_table_op t op)).
Proof.
  intros Hok Hr -> Hop Hlen. pose proof (length_entries t) as Hle. pose proof (max_size_nonneg t Hok).
  assert (length (entries t) = Z.to_nat (m_count t)) as El
    by (destruct Hok as [[]]; unfold blen in Hle; lia).
  destruct op as [f|n]; simpl in *.
  - destruct (table_add_spec f t Hok) as (Hok' & Hm & Hbig & Hfit). rewrite El in *.
    destruct (Z.ltb_spec (m_max_size t) (field_size f)) as [Hlt|Hge].
    { destruct (Hbig Hlt) as [E1 E2]. split_and!; [done|by left|]. by rewrite Hm, E1. }
    specialize (Hfit Hge). simpl in Hlen. rewrite blen_cons in Hlen.
    set (kept := keep _ _ _) in *.
    destruct (Z.ltb_spec (blen kept) (blen (m_ring t))) as [Hroom|Hfull].
    + destruct Hfit as [E Hb]. split_and!; [done| |by rewrite Hm, E].
      destruct Hr as [Hr|Hr]; [|right; lia].
      rewrite Hr in Hroom. pose proof (blen_nonneg kept). unfold blen in Hroom at 2. simpl in Hroom. lia.
    + destruct Hr as [Hr|Hr]; [|lia].
      destruct Hfit as [[E Hb]|[Hb _]]; [|rewrite Hr in Hb; unfold blen in Hb; simpl in Hb; lia].
      split_and!; [done|by right|]. rewrite Hm, E.
      assert (kept = []) as ->; [|done].
      assert (m_count t = 0) as Ec.
      { destruct Hok as [[Hc _ _] _]. rewrite Hr in Hc. unfold blen in Hc. simpl in Hc. lia. }
      unfold kept, entries. rewrite Ec. done.
  - destruct (setMaxSize_spec n t Hok Hop) as (Hok' & Hm & E). rewrite El in *.
    split_and!; [done| |by rewrite Hm, E].
    unfold ring_sized, table_setMaxSize in *.
    destruct (evict_loop_spec (Z.to_nat (m_count t)) 0
      (mkTable (m_ring t) (m_head t) (m_count t) n (m_current_size t))) as (_ & _ & _ & _ & Hb);
      [destruct Hok as [[] _]; by split|simpl; lia|destruct Hok as [[] _]; simpl; lia|].
    simpl in Hb. destruct Hr as [Hr|Hr]; [left|right; lia].
    rewrite Hr in *. unfold blen in Hb. simpl in Hb. apply nil_length_inv. lia.
Qed.

(** C30: as long as the standard's table holds at most eight entries, the ring buffer implements
    it: the same entries in the same order, hence the same indices on the wire. *)
Theorem dynamic_table_refines_rfc ops max_size :
  Forall wf_table_op ops -> 0 <= max_size -> at_most_eight (max_size, []) ops ->
  let t := foldl run_table_op (new_table max_size) ops in
  (m_max_size t, entries t) = foldl rfc_op (max_size, []) ops.
Proof.
  intros Hops Hmax H8.
  assert (forall t m, table_ok t -> ring_sized t -> m = (m_max_size t, entries t) ->
            at_most_eight m ops ->
            (m_max_size (foldl run_table_op t ops), entries (foldl run_table_op t ops)) =
            foldl rfc_op m ops) as Hgen.
  { clear H8. induction Hops as [|op ops Hop _ IH]; intros t m Hok Hr Em [_ Ha]; [by rewrite Em|].
    simpl. destruct (rfc_step t m op Hok Hr Em Hop) as (Hok' & Hr' & E').
    { destruct ops; apply Ha. }
    by apply IH. }
  apply Hgen; [by apply new_table_ok|by left|done|done].
Qed.

Lemma dynamic_table_refines_rfc_witness :
  let ops := [Add (mkField (bs "a") (bs "1")); Add (mkField (bs "b") []); SetMaxSize 40] in
  let t := foldl run_table_op (new_table 70) ops in
  (m_max_size t, entries t) = (40, [mkField (bs "b") []]).
Proof.
  intros ops t. etransitivity.
  - apply (dynamic_table_refines_rfc ops 70); [repeat constructor; simpl; lia|lia|].
    repeat split; vm_compute; congruence.
  - vm_compute. reflexivity.
Defined.

(** The ninth entry: the buffer grows and the table it leaves is in the opposite order. *)
Definition numbered (k : nat) : Http2HeaderField := mkField [z2b (Z.of_nat k)] [].

Example growth_reverses_table :
  let t := foldl run_table_op (new_table 4096) (map (fun k => Add (numbered k)) (seq 0 9)) in
  entries t = map numbered (seq 0 9) /\
  (foldl rfc_op (4096, []) (map (fun k => Add (numbered k)) (seq 0 9))).2 =
    rev (map numbered (seq 0 9)).
Proof. split; vm_compute; reflexivity. Qed.

(** ** The static table *)

Lemma name_to_indices_in k es n i :
  In i (name_to_indices k es n) ->
  k <= i < k + blen es /\ exists v, nth_error es (Z.to_nat (i - k)) = Some (n, v).
Proof.
  revert k. induction es as [|[n' v'] es IH]; intros k; simpl; [done|]. rewrite blen_cons.
  pose proof (blen_nonneg es).
  assert (In i (name_to_indices (k + 1) es n) ->
          k <= i < k + (1 + blen es) /\
          exists v, nth_error ((n', v') :: es) (Z.to_nat (i - k)) = Some (n, v)) as Hrec.
  { intros (Hr & v & Hv)%IH. split; [lia|]. exists v.
    replace (Z.to_nat (i - k)) with (S (Z.to_nat (i - (k + 1)))) by lia. done. }
  destruct (decide (n' = n)) as [->|]; [|done]. intros [->|Hin]; [|by apply Hrec].
  split; [lia|]. exists v'. by rewrite Z.sub_diag.
Qed.

Lemma static_indices n i :
  In i (name_to_indices 1 kStaticTableEntries n) ->
  1 <= i <= kStaticTableSize /\ exists v, static_get i = Some (mkField n v).
Proof.
  intros (Hr & v & Hv)%name_to_indices_in. change (blen kStaticTableEntries) with kStaticTableSize in Hr.
  split; [lia|]. exists v. unfold static_get.
  destruct (Z.leb_spec i 0); [lia|]. destruct (Z.ltb_spec kStaticTableSize i); [lia|]. simpl.
  by rewrite Hv.
Qed.

Lemma static_find_spec n v :
  match static_find n v with
  | (i, false) => i = 0 \/ (1 <= i <= kStaticTableSize /\ static_get i = Some (mkField n v))
  | (i, true) => 1 <= i <= kStaticTableSize /\ exists v', static_get i = Some (mkField n v')
  end.
Proof.
  unfold static_find. pose proof (static_indices n) as Hin.
  destruct (name_to_indices 1 kStaticTableEntries n) as [|i0 l]; [by left|].
  destruct (find_value (i0 :: l) v) as [j|] eqn:Hf.
  - right. assert (In j (i0 :: l) /\ exists f, static_get j = Some f /\ value f = v) as (Hj & f & Hg & Hv).
    { clear Hin. revert Hf. generalize (i0 :: l). intros l'. induction l' as [|i l' IH]; [done|].
      cbn [find_value]. intros Hf. destruct (static_get i) as [f|] eqn:Hg.
      - destruct (decide (value f = v)).
        + simplify_eq. split; [by left|by exists f].
        + destruct (IH Hf) as [? ?]. split; [by right|done].
      - destruct (IH Hf) as [? ?]. split; [by right|done]. }
    destruct (Hin j Hj) as (Hr & v' & Hg'). split; [done|]. rewrite Hg' in Hg. by simplify_eq/=.
  - by apply Hin; left.
Qed.

(** ** The interface of the dynamic table

    What the encoder and the decoder rely on: they are proved against these laws, for any table. *)

Class HeaderTable (T : Type) : Type := {
  ht_new : Z -> T;
  ht_add : Http2HeaderField -> T -> T;
  ht_get : T -> Z -> option Http2HeaderField;
  ht_find : T -> bytes -> bytes -> Z * bool;
  ht_setMaxSize : Z -> T -> T
}.

Class HeaderTableLaws (T : Type) `{HeaderTable T} : Type := {
  ht_ok : T -> Prop;
  ht_max : T -> Z;
  ht_new_law max_size : 0 <= max_size -> ht_ok (ht_new max_size) /\ ht_max (ht_new max_size) = max_size;
  ht_add_law f t : ht_ok t -> ht_ok (ht_add f t) /\ ht_max (ht_add f t) = ht_max t;
  ht_setMaxSize_law max_size t :
    ht_ok t -> 0 <= max_size ->
    ht_ok (ht_setMaxSize max_size t) /\ ht_max (ht_setMaxSize max_size t) = max_size;
  ht_find_law t n v :
    ht_ok t ->
    match ht_find t n v with
    | (i, false) =>
        i = SIZE_MAX \/ (0 <= i /\ 32 * (i + 1) <= ht_max t /\ ht_get t i = Some (mkField n v))
    | (i, true) =>
        0 <= i /\ 32 * (i + 1) <= ht_max t /\ exists v', ht_get t i = Some (mkField n v')
    end
}.

#[export] Instance dynamic_header_table : HeaderTable HpackDynamicTable := {
  ht_new := new_table;
  ht_add := table_add;
  ht_get := table_get;
  ht_find := table_find;
  ht_setMaxSize := table_setMaxSize
}.

Lemma table_find_law t n v :
  table_ok t ->
  match table_find t n v with
  | (i, false) =>
      i = SIZE_MAX \/ (0 <= i /\ 32 * (i + 1) <= m_max_size t /\ table_get t i = Some (mkField n v))
  | (i, true) =>
      0 <= i /\ 32 * (i + 1) <= m_max_size t /\ exists v', table_get t i = Some (mkField n v')
  end.
Proof.
  intros [Hok Hm]. pose proof (table_find_found t n v Hok) as Hf.
  pose proof (total_size_ge (entries t)). pose proof (ok_size t Hok).
  destruct (table_find t n v) as [i []]; simpl in Hf.
  - destruct Hf as (Hi & v' & Hv' & _). split_and!; [lia|lia|]. exists v'.
    rewrite table_get_entries by first [done | lia]. done.
  - destruct Hf as [[-> _]|[Hi Hv]]; [by left|right]. split_and!; [lia|lia|].
    rewrite table_get_entries by first [done | lia]. done.
Qed.

#[export] Instance dynamic_header_table_laws : HeaderTableLaws HpackDynamicTable.
Proof.
  refine {| ht_ok := table_ok; ht_max := m_max_size |}.
  - intros. split; [by apply new_table_ok|done].
  - intros f t Hok. by destruct (table_add_spec f t Hok) as (? & ? & _).
  - intros n t Hok Hn. by destruct (setMaxSize_spec n t Hok Hn) as (? & ? & _).
  - intros t n v Hok. by apply table_find_law.
Defined.
