(* ===== verification/Hpack.v ===== *)
(** * HPACK encoder and decoder

    [HpackEncoder] and [HpackDecoder] of [galay-http2/protoc/http2_hpack.{h,cc}], over any dynamic
    table that satisfies [HpackTable.HeaderTableLaws]. *)

From Stdlib Require Import ZArith Lia.
From stdpp Require Import base list strings.
From S2P Require Import Prelude Http2Base HpackTables HpackHuffman HpackTable.

Open Scope Z_scope.

(** ** Integers *)

(** [(1 << prefix_bits) - 1], a [uint8_t] *)
Definition max_prefix (prefix_bits : Z) : Z := (Z.shiftl 1 prefix_bits - 1) mod 256.

(** [while (value >= 128)]: a [uint32_t] takes at most five groups of seven bits. *)
Fixpoint put_groups (fuel : nat) (value : Z) : bytes :=
  if 128 <=? value then
    match fuel with
    | O => []
    | S fuel => z2b (Z.lor (Z.land value 0x7F) 0x80) :: put_groups fuel (Z.shiftr value 7)
    end
  else [z2b value].

Definition encodeInteger (value prefix_bits prefix : Z) : bytes :=
  if value <? max_prefix prefix_bits then [z2b (Z.lor prefix value)]
  else z2b (Z.lor prefix (max_prefix prefix_bits)) :: put_groups 5 (value - max_prefix prefix_bits).

(** [while (data < end)]; the list is what is left between the two pointers. *)
Fixpoint get_groups (data : bytes) (value shift : Z) : outcome Http2ErrorCode (Z * bytes) :=
  match data with
  | [] => Unexpected CompressionError
  | b :: data =>
      let payload := Z.land (b2z b) 0x7F in
      if (32 <=? shift) || (Z.shiftr (2 ^ 32 - 1 - value) shift <? payload)
      then Unexpected CompressionError
      else
        let value := wrap32 (value + wrap32 (Z.shiftl payload shift)) in
        if Z.land (b2z b) 0x80 =? 0 then Value (value, data)
        else
          let shift := shift + 7 in
          if 32 <=? shift then Unexpected CompressionError else get_groups data value shift
  end.

Definition decodeInteger (data : bytes) (prefix_bits : Z) : outcome Http2ErrorCode (Z * bytes) :=
  match data with
  | [] => Unexpected CompressionError
  | b :: data =>
      let value := Z.land (b2z b) (max_prefix prefix_bits) in
      if value <? max_prefix prefix_bits then Value (value, data) else get_groups data value 0
  end.

(** ** Strings *)

Definition encodeString (str : bytes) (use_huffman : bool) : bytes :=
  if use_huffman
  then let encoded := huffman_encode str in encodeInteger (wrap32 (blen encoded)) 7 0x80 ++ encoded
  else encodeInteger (wrap32 (blen str)) 7 0x00 ++ str.

Definition decodeString (data : bytes) : outcome Http2ErrorCode (bytes * bytes) :=
  match data with
  | [] => Unexpected CompressionError
  | b :: _ =>
      let huffman := negb (Z.land (b2z b) 0x80 =? 0) in
      r <-- decodeInteger data 7 ;;
      let '(length, data) := r in
      if blen data <? length then Unexpected CompressionError
      else
        let str := take (Z.to_nat length) data in
        let rest := drop (Z.to_nat length) data in
        if huffman then s <-- huffman_decode str ;; Value (s, rest)
        else Value (str, rest)
  end.

(** ** The encoder *)

Record HpackEncoder (T : Type) : Type := mkEncoder {
  e_dynamic_table : T;
  e_pending_table_size : Z;
  e_use_huffman : bool;
  e_table_size_update_pending : bool
}.
Arguments mkEncoder {T}.
Arguments e_dynamic_table {T}.
Arguments e_pending_table_size {T}.
Arguments e_use_huffman {T}.
Arguments e_table_size_update_pending {T}.

Record HpackDecoder (T : Type) : Type := mkDecoder {
  d_dynamic_table : T;
  d_max_table_size : Z;
  d_max_header_list_size : Z
}.
Arguments mkDecoder {T}.
Arguments d_dynamic_table {T}.
Arguments d_max_table_size {T}.
Arguments d_max_header_list_size {T}.

(** One field of a header block, once read. *)
Inductive field_repr : Type :=
| Indexed (f : Http2HeaderField)
| LiteralIndexed (f : Http2HeaderField)
| SizeUpdate (n : Z)
| LiteralNotIndexed (f : Http2HeaderField).

Record RequestTarget : Type := mkTarget {
  method : bytes;
  path : bytes;
  if_none_match : bytes;
  range : bytes
}.

(** The header names the encoder never puts in its table. *)
Definition sensitive (n : bytes) : bool :=
  bool_decide (n = bs "authorization") || bool_decide (n = bs "cookie") ||
  bool_decide (n = bs "set-cookie") || bool_decide (n = bs "proxy-authorization").

Section Hpack.
Context {T : Type} `{HeaderTable T}.

Definition new_encoder (max_table_size : Z) : HpackEncoder T :=
  mkEncoder (ht_new max_table_size) 0 false false.

Definition encodeIndexed (index : Z) : bytes := encodeInteger (wrap32 index) 7 0x80.

(** The six literal encoders; [inl] is an index for the name, [inr] the name itself. *)
Definition encodeLiteral (prefix_bits prefix : Z) (use_huffman : bool) (n : Z + bytes) (v : bytes) :
    bytes :=
  match n with
  | inl name_index => encodeInteger (wrap32 name_index) prefix_bits prefix
  | inr n => z2b prefix :: encodeString n use_huffman
  end ++ encodeString v use_huffman.

Definition encodeLiteralIndexed (h : bool) := encodeLiteral 6 0x40 h.
Definition encodeLiteralWithoutIndexing (h : bool) := encodeLiteral 4 0x00 h.
Definition encodeLiteralNeverIndexed (h : bool) := encodeLiteral 4 0x10 h.

Definition enc_setMaxTableSize (size : Z) (e : HpackEncoder T) : HpackEncoder T :=
  mkEncoder (ht_setMaxSize size (e_dynamic_table e)) size (e_use_huffman e) true.

Definition encodeField (field : Http2HeaderField) (e : HpackEncoder T) : bytes * HpackEncoder T :=
  let h := e_use_huffman e in
  let '(static_idx, static_name_only) := static_find (name field) (value field) in
  if (0 <? static_idx) && negb static_name_only then (encodeIndexed static_idx, e)
  else
    let '(dyn_idx, dyn_name_only) := ht_find (e_dynamic_table e) (name field) (value field) in
    if negb (dyn_idx =? SIZE_MAX) && negb dyn_name_only
    then (encodeIndexed (kStaticTableSize + dyn_idx + 1), e)
    else if sensitive (name field) then
      (if 0 <? static_idx then encodeLiteralNeverIndexed h (inl static_idx) (value field)
       else encodeLiteralNeverIndexed h (inr (name field)) (value field), e)
    else
      (if 0 <? static_idx then encodeLiteralIndexed h (inl static_idx) (value field)
       else if negb (dyn_idx =? SIZE_MAX) && dyn_name_only
       then encodeLiteralIndexed h (inl (kStaticTableSize + dyn_idx + 1)) (value field)
       else encodeLiteralIndexed h (inr (name field)) (value field),
       mkEncoder (ht_add field (e_dynamic_table e)) (e_pending_table_size e) h
         (e_table_size_update_pending e)).

Definition encodeFieldStateless (field : Http2HeaderField) (e : HpackEncoder T) : bytes :=
  let h := e_use_huffman e in
  let '(static_idx, static_name_only) := static_find (name field) (value field) in
  if (0 <? static_idx) && negb static_name_only then encodeIndexed static_idx
  else if 0 <? static_idx then encodeLiteralWithoutIndexing h (inl static_idx) (value field)
  else encodeLiteralWithoutIndexing h (inr (name field)) (value field).

(** [for (const auto& field : headers) encodeField(field, output);] *)
Fixpoint encode_fields (headers : list Http2HeaderField) (e : HpackEncoder T) :
    bytes * HpackEncoder T :=
  match headers with
  | [] => ([], e)
  | field :: headers =>
      let '(out, e) := encodeField field e in
      let '(outs, e) := encode_fields headers e in
      (out ++ outs, e)
  end.

Definition hpack_encode (headers : list Http2HeaderField) (e : HpackEncoder T) :
    bytes * HpackEncoder T :=
  let '(update, e) :=
    if e_table_size_update_pending e
    then (encodeInteger (wrap32 (e_pending_table_size e)) 5 0x20,
          mkEncoder (e_dynamic_table e) (e_pending_table_size e) (e_use_huffman e) false)
    else ([], e) in
  let '(out, e) := encode_fields headers e in
  (update ++ out, e).

Definition encodeStateless (headers : list Http2HeaderField) (e : HpackEncoder T) : bytes :=
  concat (map (fun f => encodeFieldStateless f e) headers).

(** ** The decoder *)

Definition new_decoder (max_table_size : Z) : HpackDecoder T :=
  mkDecoder (ht_new max_table_size) max_table_size SIZE_MAX.

Definition dec_setMaxTableSize (size : Z) (d : HpackDecoder T) : HpackDecoder T :=
  mkDecoder (ht_setMaxSize size (d_dynamic_table d)) size (d_max_header_list_size d).

Definition setMaxHeaderListSize (size : Z) (d : HpackDecoder T) : HpackDecoder T :=
  mkDecoder (d_dynamic_table d) (d_max_table_size d) size.

Definition getField (table : T) (index : Z) : option Http2HeaderField :=
  if index =? 0 then None
  else if index <=? kStaticTableSize then static_get index
  else ht_get table (index - kStaticTableSize - 1).

(** An index or a literal name, then the value. *)
Definition decode_literal (table : T) (prefix_bits : Z) (data : bytes) :
    outcome Http2ErrorCode (Http2HeaderField * bytes) :=
  r <-- decodeInteger data prefix_bits ;;
  n <-- (if 0 <? r.1
         then match getField table r.1 with
              | None => Unexpected CompressionError
              | Some field => Value (name field, r.2)
              end
         else decodeString r.2) ;;
  v <-- decodeString n.2 ;;
  Value (mkField n.1 v.1, v.2).

(** The four branches on the first octet. *)
Definition decode_repr (table : T) (data : bytes) : outcome Http2ErrorCode (field_repr * bytes) :=
  match data with
  | [] => OutOfBounds
  | b :: _ =>
      if negb (Z.land (b2z b) 0x80 =? 0) then
        r <-- decodeInteger data 7 ;;
        match getField table r.1 with
        | None => Unexpected CompressionError
        | Some field => Value (Indexed field, r.2)
        end
      else if negb (Z.land (b2z b) 0x40 =? 0) then
        r <-- decode_literal table 6 data ;; Value (LiteralIndexed r.1, r.2)
      else if negb (Z.land (b2z b) 0x20 =? 0) then
        r <-- decodeInteger data 5 ;; Value (SizeUpdate r.1, r.2)
      else
        r <-- decode_literal table 4 data ;; Value (LiteralNotIndexed r.1, r.2)
  end.

(** The list size check: the new [header_list_size]. *)
Definition record_size (limit header_list_size : Z) (field : Http2HeaderField) : option Z :=
  if (limit <? field_size field) || (limit - field_size field <? header_list_size) then None
  else Some (header_list_size + field_size field).

(** [HpackDecoder::decode]: the loop, one turn per field; running out of fuel, which never
    happens, would be [OutOfBounds]. *)
Fixpoint decode_loop (fuel : nat) (limit max_table_size : Z) (table : T) (data : bytes)
    (headers : list Http2HeaderField) (header_list_size : Z) :
    outcome Http2ErrorCode (list Http2HeaderField) * T :=
  match data with
  | [] => (Value headers, table)
  | _ =>
      match fuel with
      | O => (OutOfBounds, table)
      | S fuel =>
          match decode_repr table data with
          | OutOfBounds => (OutOfBounds, table)
          | Unexpected e => (Unexpected e, table)
          | Value (SizeUpdate n, data) =>
              if max_table_size <? n then (Unexpected CompressionError, table)
              else decode_loop fuel limit max_table_size (ht_setMaxSize n table) data headers
                     header_list_size
          | Value (Indexed field, data) | Value (LiteralNotIndexed field, data) =>
              match record_size limit header_list_size field with
              | None => (Unexpected CompressionError, table)
              | Some size =>
                  decode_loop fuel limit max_table_size table data (headers ++ [field]) size
              end
          | Value (LiteralIndexed field, data) =>
              match record_size limit header_list_size field with
              | None => (Unexpected CompressionError, table)
              | Some size =>
                  decode_loop fuel limit max_table_size (ht_add field table) data
                    (headers ++ [field]) size
              end
          end
      end
  end.

Definition set_table (d : HpackDecoder T) (table : T) : HpackDecoder T :=
  mkDecoder table (d_max_table_size d) (d_max_header_list_size d).

Definition hpack_decode (data : bytes) (d : HpackDecoder T) :
    outcome Http2ErrorCode (list Http2HeaderField) * HpackDecoder T :=
  let '(r, table) := decode_loop (length data) (d_max_header_list_size d) (d_max_table_size d)
                       (d_dynamic_table d) data [] 0 in
  (r, set_table d table).

(** [record_field]'s effect on the target. *)
Definition record_target (target : RequestTarget) (field : Http2HeaderField) : RequestTarget :=
  if bool_decide (name field = bs ":method")
  then mkTarget (value field) (path target) (if_none_match target) (range target)
  else if bool_decide (name field = bs ":path")
  then mkTarget (method target) (value field) (if_none_match target) (range target)
  else if bool_decide (name field = bs "if-none-match")
  then mkTarget (method target) (path target) (value field) (range target)
  else if bool_decide (name field = bs "range")
  then mkTarget (method target) (path target) (if_none_match target) (value field)
  else target.

(** [HpackDecoder::decodeRequestTarget]: the same loop, keeping only the request target. *)
Fixpoint target_loop (fuel : nat) (limit max_table_size : Z) (table : T) (data : bytes)
    (target : RequestTarget) (header_list_size : Z) : outcome Http2ErrorCode RequestTarget * T :=
  match data with
  | [] => (Value target, table)
  | _ =>
      match fuel with
      | O => (OutOfBounds, table)
      | S fuel =>
          match decode_repr table data with
          | OutOfBounds => (OutOfBounds, table)
          | Unexpected e => (Unexpected e, table)
          | Value (SizeUpdate n, data) =>
              if max_table_size <? n then (Unexpected CompressionError, table)
              else target_loop fuel limit max_table_size (ht_setMaxSize n table) data target
                     header_list_size
          | Value (Indexed field, data) | Value (LiteralNotIndexed field, data) =>
              match record_size limit header_list_size field with
              | None => (Unexpected CompressionError, table)
              | Some size =>
                  target_loop fuel limit max_table_size table data (record_target target field) size
              end
          | Value (LiteralIndexed field, data) =>
              match record_size limit header_list_size field with
              | None => (Unexpected CompressionError, table)
              | Some size =>
                  target_loop fuel limit max_table_size (ht_add field table) data
                    (record_target target field) size
              end
          end
      end
  end.

Definition empty_target : RequestTarget := mkTarget [] [] [] [].

Definition decodeRequestTarget (data : bytes) (d : HpackDecoder T) :
    outcome Http2ErrorCode RequestTarget * HpackDecoder T :=
  let '(r, table) := target_loop (length data) (d_max_header_list_size d) (d_max_table_size d)
                       (d_dynamic_table d) data empty_target 0 in
  (r, set_table d table).
End Hpack.

(** ** Integer coding *)

(** The bit tests of the decoder as comparisons. *)
Lemma test_80 b : (Z.land (b2z b) 0x80 =? 0) = (b2z b <? 128).
Proof. by destruct b. Qed.
Lemma test_40 b : b2z b < 128 -> (Z.land (b2z b) 0x40 =? 0) = (b2z b <? 64).
Proof. by destruct b. Qed.
Lemma test_20 b : b2z b < 64 -> (Z.land (b2z b) 0x20 =? 0) = (b2z b <? 32).
Proof. by destruct b. Qed.

Lemma land_7f z : Z.land z 0x7F = z mod 128.
Proof. change 0x7F with (Z.ones 7). by rewrite Z.land_ones. Qed.

Lemma get_groups_step b data value shift :
  0 <= value -> 0 <= shift < 32 -> value + b2z b mod 128 * 2 ^ shift < 2 ^ 32 ->
  get_groups (b :: data) value shift =
  let value := value + b2z b mod 128 * 2 ^ shift in
  if b2z b <? 128 then Value (value, data)
  else if 32 <=? shift + 7 then Unexpected CompressionError
  else get_groups data value (shift + 7).
Proof.
  intros H0 Hs Hb. cbn [get_groups]. cbv zeta. rewrite test_80, land_7f.
  assert (0 < 2 ^ shift) by (apply Z.pow_pos_nonneg; lia).
  pose proof (Z.mod_pos_bound (b2z b) 128 eq_refl). set (p := b2z b mod 128) in *.
  destruct (Z.leb_spec 32 shift); [lia|].
  assert (p <= (2 ^ 32 - 1 - value) / 2 ^ shift) by (apply Z.div_le_lower_bound; lia).
  rewrite Z.shiftr_div_pow2 by lia.
  destruct (Z.ltb_spec ((2 ^ 32 - 1 - value) / 2 ^ shift) p); [lia|]. cbn [orb].
  rewrite Z.shiftl_mul_pow2 by lia.
  rewrite (wrap32_small (p * 2 ^ shift)) by nia. by rewrite wrap32_small by nia.
Qed.

(** The five-group loop read back: a value that fits in 32 bits at its position. *)
Lemma put_get_groups fuel v rest value shift :
  0 <= v < 2 ^ (7 * (Z.of_nat fuel + 1)) -> 0 <= value -> 0 <= shift < 32 ->
  value + v * 2 ^ shift < 2 ^ 32 ->
  get_groups (put_groups fuel v ++ rest) value shift = Value (value + v * 2 ^ shift, rest).
Proof.
  revert v value shift. induction fuel as [|fuel IH]; intros v value shift Hv H0 Hs Hb; cbn [put_groups];
    (destruct (Z.leb_spec 128 v) as [Hge|Hlt];
     [|cbn [app]; rewrite get_groups_step; rewrite ?b2z_z2b_small, ?(Z.mod_small v) by lia;
       [destruct (Z.ltb_spec v 128); [done|lia]|lia..]]).
  { change (7 * (Z.of_nat 0 + 1)) with 7 in Hv. lia. }
  assert (0 < 2 ^ shift) as Hp by (apply Z.pow_pos_nonneg; lia).
  pose proof (Z.div_mod v 128 ltac:(lia)) as Edm. pose proof (Z.mod_pos_bound v 128 eq_refl) as Hmod.
  assert (b2z (z2b (Z.lor (Z.land v 127) 128)) = v mod 128 + 128) as Eb.
  { rewrite land_7f, Z.lor_comm. change 128 with (Z.shiftl 1 7) at 1.
    rewrite lor_shiftl_add by lia. rewrite b2z_z2b_small; lia. }
  assert ((v mod 128 + 128) mod 128 = v mod 128) as Em
    by (rewrite <- Z.add_mod_idemp_r, Z.mod_same, Z.add_0_r, Z.mod_mod by lia; done).
  assert (v mod 128 <= v) by (apply Z.mod_le; lia).
  cbn [app]. rewrite get_groups_step; rewrite ?Eb, ?Em; [|lia|lia|nia].
  destruct (Z.ltb_spec (v mod 128 + 128) 128); [lia|].
  assert (shift + 7 < 32).
  { apply (Z.pow_lt_mono_r_iff 2); [lia|lia|]. rewrite Z.pow_add_r by lia. nia. }
  destruct (Z.leb_spec 32 (shift + 7)); [lia|].
  rewrite Z.shiftr_div_pow2 by lia. change (2 ^ 7) with 128.
  assert (2 ^ (shift + 7) = 2 ^ shift * 128) as Epow by (by rewrite Z.pow_add_r by lia).
  rewrite IH; [rewrite Epow; do 2 f_equal; nia|split| |lia|rewrite Epow; nia].
  - apply Z.div_pos; lia.
  - apply Z.div_lt_upper_bound; [lia|]. change 128 with (2 ^ 7). rewrite <- Z.pow_add_r by lia.
    replace (7 + 7 * (Z.of_nat fuel + 1)) with (7 * (Z.of_nat (S fuel) + 1)) by lia. lia.
  - nia.
Qed.

(** A prefix octet: the high bits are [prefix]'s, the low ones carry the value. *)
Definition prefix_ok (prefix_bits prefix : Z) : Prop :=
  1 <= prefix_bits <= 8 /\ 0 <= prefix < 256 /\ prefix mod 2 ^ prefix_bits = 0.

Lemma max_prefix_eq n : 1 <= n <= 8 -> max_prefix n = 2 ^ n - 1.
Proof.
  intros Hn. unfold max_prefix. rewrite Z.shiftl_mul_pow2, Z.mul_1_l by lia.
  apply Z.mod_small. assert (2 ^ n <= 2 ^ 8) by (apply Z.pow_le_mono_r; lia).
  assert (0 < 2 ^ n) by (apply Z.pow_pos_nonneg; lia). lia.
Qed.

Lemma prefix_octet n prefix v :
  prefix_ok n prefix -> 0 <= v < 2 ^ n ->
  b2z (z2b (Z.lor prefix v)) = prefix + v /\ Z.land (prefix + v) (2 ^ n - 1) = v.
Proof.
  intros (Hn & Hp & Hm) Hv. assert (0 < 2 ^ n) as H2 by (apply Z.pow_pos_nonneg; lia).
  pose proof (Z.div_mod prefix (2 ^ n) ltac:(lia)) as Ed.
  rewrite Hm, Z.add_0_r, Z.mul_comm in Ed. split.
  - rewrite Ed at 1. rewrite <- Z.shiftl_mul_pow2 by lia. rewrite lor_shiftl_add by lia.
    rewrite <- Ed. apply b2z_z2b_small. split; [lia|].
    assert (2 ^ 8 = 2 ^ (8 - n) * 2 ^ n) as E8 by (rewrite <- Z.pow_add_r by lia; f_equal; lia).
    change (2 ^ 8) with 256 in E8.
    assert (prefix / 2 ^ n < 2 ^ (8 - n)) by (apply Z.div_lt_upper_bound; lia). nia.
  - replace (2 ^ n - 1) with (Z.ones n) by (rewrite Z.ones_equiv; lia).
    rewrite Z.land_ones, Ed, Z.add_comm, Z.mod_add by lia. by apply Z.mod_small.
Qed.

Lemma decode_encodeInteger v n prefix rest :
  0 <= v < 2 ^ 32 -> prefix_ok n prefix ->
  decodeInteger (encodeInteger v n prefix ++ rest) n = Value (v, rest) /\
  exists b tl, encodeInteger v n prefix = b :: tl /\ prefix <= b2z b < prefix + 2 ^ n.
Proof.
  intros Hv Hp. pose proof Hp as (Hn & _ & _). unfold encodeInteger, decodeInteger.
  rewrite max_prefix_eq by done. assert (0 < 2 ^ n) by (apply Z.pow_pos_nonneg; lia).
  destruct (Z.ltb_spec v (2 ^ n - 1)).
  - destruct (prefix_octet n prefix v Hp ltac:(lia)) as [Eb El]. cbn [app]. rewrite Eb, El.
    destruct (Z.ltb_spec v (2 ^ n - 1)); [|lia]. split; [done|].
    eexists _, _. split; [done|]. rewrite Eb. lia.
  - destruct (prefix_octet n prefix (2 ^ n - 1) Hp ltac:(lia)) as [Eb El]. cbn [app]. rewrite Eb, El.
    destruct (Z.ltb_spec (2 ^ n - 1) (2 ^ n - 1)); [lia|]. split.
    + rewrite put_get_groups; [|simpl; lia|lia|lia|rewrite Z.pow_0_r; lia].
      do 2 f_equal. lia.
    + eexists _, _. split; [done|]. rewrite Eb. lia.
Qed.

(** ** Strings *)

Lemma decodeString_prefix s r rest :
  blen s < 2 ^ 32 -> r = 0 \/ r = 0x80 ->
  decodeString (encodeInteger (wrap32 (blen s)) 7 r ++ s ++ rest) =
  if r =? 0 then Value (s, rest) else x <-- huffman_decode s ;; Value (x, rest).
Proof.
  intros Hlen Hr. pose proof (blen_nonneg s). rewrite wrap32_small by lia.
  destruct (decode_encodeInteger (blen s) 7 r (s ++ rest)) as [Hd (b & tl & Eb & Hb)]; [lia| |].
  { destruct Hr as [-> | ->]; done. }
  unfold decodeString. rewrite Eb in Hd |- *. cbn [app]. cbn [app] in Hd. rewrite Hd. cbn [obind].
  rewrite blen_app. pose proof (blen_nonneg rest).
  destruct (Z.ltb_spec (blen s + blen rest) (blen s)); [lia|].
  unfold blen. rewrite Nat2Z.id, take_app_length, drop_app_length.
  rewrite test_80. change (2 ^ 7) with 128 in Hb.
  destruct Hr as [-> | ->]; destruct (Z.ltb_spec (b2z b) 128); try lia; done.
Qed.

Lemma decode_encodeString str h rest :
  blen str < 2 ^ 30 -> decodeString (encodeString str h ++ rest) = Value (str, rest).
Proof.
  intros Hlen. pose proof (blen_nonneg str). unfold encodeString. destruct h; rewrite <- app_assoc.
  - destruct (length_huffman_encode str) as [El Hle].
    rewrite decodeString_prefix by first [lia | by right]. simpl. by rewrite huffman_decode_encode.
  - rewrite decodeString_prefix by first [lia | by left]. done.
Qed.

(** ** Fields *)

(** Names and values of fewer than 2^30 octets: their lengths fit in the integers on the wire,
    Huffman coded or not. *)
Definition wf_field (f : Http2HeaderField) : Prop :=
  blen (name f) < 2 ^ 30 /\ blen (value f) < 2 ^ 30.

Lemma static_size : kStaticTableSize = 61.
Proof. reflexivity. Qed.

Section HpackProofs.
Context {T : Type} `{HeaderTableLaws T}.

Lemma getField_static (tb : T) i : 1 <= i <= kStaticTableSize -> getField tb i = static_get i.
Proof.
  intros Hi. unfold getField. destruct (Z.eqb_spec i 0); [lia|].
  destruct (Z.leb_spec i kStaticTableSize); [done|lia].
Qed.

Lemma getField_dynamic tb i : 0 <= i -> getField tb (kStaticTableSize + i + 1) = ht_get tb i.
Proof.
  intros Hi. unfold getField. rewrite static_size. destruct (Z.eqb_spec (61 + i + 1) 0); [lia|].
  destruct (Z.leb_spec (61 + i + 1) 61); [lia|]. f_equal. lia.
Qed.

(** The first octet of a representation selects its branch. *)
Lemma decode_repr_branch tb b data :
  decode_repr tb (b :: data) =
  if 128 <=? b2z b then
    r <-- decodeInteger (b :: data) 7 ;;
    match getField tb r.1 with
    | None => Unexpected CompressionError
    | Some field => Value (Indexed field, r.2)
    end
  else if 64 <=? b2z b then
    r <-- decode_literal tb 6 (b :: data) ;; Value (LiteralIndexed r.1, r.2)
  else if 32 <=? b2z b then
    r <-- decodeInteger (b :: data) 5 ;; Value (SizeUpdate r.1, r.2)
  else
    r <-- decode_literal tb 4 (b :: data) ;; Value (LiteralNotIndexed r.1, r.2).
Proof.
  unfold decode_repr. rewrite test_80, Z.ltb_antisym, negb_involutive.
  destruct (Z.leb_spec 128 (b2z b)); [done|].
  rewrite test_40, Z.ltb_antisym, negb_involutive by lia.
  destruct (Z.leb_spec 64 (b2z b)); [done|].
  rewrite test_20, Z.ltb_antisym, negb_involutive by lia. done.
Qed.

Lemma decode_indexed tb i f rest :
  0 <= i < 2 ^ 32 -> getField tb i = Some f ->
  decode_repr tb (encodeIndexed i ++ rest) = Value (Indexed f, rest).
Proof.
  intros Hi Hg. unfold encodeIndexed. rewrite wrap32_small by lia.
  destruct (decode_encodeInteger i 7 0x80 rest Hi) as [Hd (b & tl & Eb & Hb)]; [done|].
  rewrite Eb in Hd |- *. cbn [app] in *. rewrite decode_repr_branch.
  destruct (Z.leb_spec 128 (b2z b)); [|lia]. rewrite Hd. cbn [obind fst snd]. by rewrite Hg.
Qed.

(** The name part of a literal: an index the table resolves to the name, or the name. *)
Definition names (tb : T) (n : Z + bytes) (nm : bytes) : Prop :=
  match n with
  | inl i => 0 < i < 2 ^ 32 /\ exists v, getField tb i = Some (mkField nm v)
  | inr n => n = nm
  end.

Lemma decode_encodeLiteral tb n k prefix h f rest :
  prefix_ok k prefix -> k < 8 -> names tb n (name f) -> wf_field f ->
  decode_literal tb k (encodeLiteral k prefix h n (value f) ++ rest) = Value (f, rest) /\
  exists b tl, encodeLiteral k prefix h n (value f) = b :: tl /\ prefix <= b2z b < prefix + 2 ^ k.
Proof.
  intros Hp Hk Hn [Hwn Hwv]. assert (0 < 2 ^ k) by (apply Z.pow_pos_nonneg; destruct Hp; lia).
  unfold encodeLiteral, decode_literal. destruct n as [i|nm]; simpl in Hn.
  - destruct Hn as (Hi & v & Hg). rewrite wrap32_small by lia.
    destruct (decode_encodeInteger i k prefix (encodeString (value f) h ++ rest)) as [Hd (b & tl & Eb & Hb)];
      [lia|done|].
    rewrite <- app_assoc, Hd. cbn [obind fst snd]. destruct (Z.ltb_spec 0 i); [|lia].
    rewrite Hg. cbn [obind fst snd name]. rewrite decode_encodeString by done. cbn [obind fst snd].
    split; [by destruct f|]. rewrite Eb. by eexists _, _.
  - subst nm. destruct (prefix_octet k prefix 0 Hp ltac:(lia)) as [Eb El].
    rewrite Z.lor_0_r, Z.add_0_r in Eb. rewrite Z.add_0_r in El.
    cbn [app decodeInteger]. rewrite Eb. rewrite max_prefix_eq by (destruct Hp; lia). rewrite El.
    assert (2 ^ 1 <= 2 ^ k) by (apply Z.pow_le_mono_r; destruct Hp; lia). change (2 ^ 1) with 2 in *.
    destruct (Z.ltb_spec 0 (2 ^ k - 1)); [|lia]. cbn [obind fst snd].
    change (0 <? 0) with false. cbv iota. rewrite <- app_assoc, decode_encodeString by done.
    cbn [obind fst snd]. rewrite decode_encodeString by done. cbn [obind fst snd].
    split; [by destruct f|]. eexists _, _. split; [done|]. lia.
Qed.

Lemma decode_literal_indexed tb n h f rest :
  names tb n (name f) -> wf_field f ->
  decode_repr tb (encodeLiteralIndexed h n (value f) ++ rest) = Value (LiteralIndexed f, rest).
Proof.
  intros Hn Hf. unfold encodeLiteralIndexed.
  destruct (decode_encodeLiteral tb n 6 0x40 h f rest) as [Hd (b & tl & Eb & Hb)]; [done..|].
  rewrite Eb in Hd |- *. cbn [app] in *. rewrite decode_repr_branch. change (2 ^ 6) with 64 in Hb.
  destruct (Z.leb_spec 128 (b2z b)); [lia|]. destruct (Z.leb_spec 64 (b2z b)); [|lia].
  by rewrite Hd.
Qed.

Lemma decode_literal_not_indexed tb n p h f rest :
  p = 0x00 \/ p = 0x10 -> names tb n (name f) -> wf_field f ->
  decode_repr tb (encodeLiteral 4 p h n (value f) ++ rest) = Value (LiteralNotIndexed f, rest).
Proof.
  intros Hp Hn Hf.
  destruct (decode_encodeLiteral tb n 4 p h f rest) as [Hd (b & tl & Eb & Hb)];
    [by destruct Hp as [-> | ->]|done..|].
  rewrite Eb in Hd |- *. cbn [app] in *. rewrite decode_repr_branch. change (2 ^ 4) with 16 in Hb.
  destruct (Z.leb_spec 128 (b2z b)); [lia|]. destruct (Z.leb_spec 64 (b2z b)); [lia|].
  destruct (Z.leb_spec 32 (b2z b)); [lia|]. by rewrite Hd.
Qed.

(** What one field sent by an encoder means to a decoder whose table is [tb]. *)
Definition field_sent (tb : T) (f : Http2HeaderField) (out : bytes) (tb' : T) : Prop :=
  forall rest,
    (tb' = tb /\ (decode_repr tb (out ++ rest) = Value (Indexed f, rest) \/
                 decode_repr tb (out ++ rest) = Value (LiteralNotIndexed f, rest))) \/
    (tb' = ht_add f tb /\ decode_repr tb (out ++ rest) = Value (LiteralIndexed f, rest)).

Lemma static_name tb f :
  match static_find (name f) (value f) with
  | (i, b) =>
      0 <= i /\ (0 < i -> i <= 61 /\ names tb (inl i) (name f) /\ (b = false -> getField tb i = Some f))
  end.
Proof.
  pose proof (static_find_spec (name f) (value f)) as Hs. rewrite static_size in Hs.
  destruct (static_find (name f) (value f)) as [i []].
  - destruct Hs as (Hi & v & Hg). split; [lia|]. intros _. split; [lia|]. split; [|done].
    split; [lia|]. exists v. by rewrite getField_static by (rewrite static_size; lia).
  - destruct Hs as [-> |(Hi & Hg)]; [by split|]. split; [lia|]. intros _. split; [lia|].
    rewrite <- (getField_static tb) in Hg by (rewrite static_size; lia).
    split; [split; [lia|by eexists]|]. intros _. rewrite Hg. by destruct f.
Qed.

Lemma encodeInteger_nonempty v n p : encodeInteger v n p <> [].
Proof. unfold encodeInteger. by destruct (_ <? _). Qed.

Lemma encodeLiteral_nonempty k p h n v : encodeLiteral k p h n v <> [].
Proof.
  unfold encodeLiteral. destruct n; [|done]. intros [E _]%app_nil. by eapply encodeInteger_nonempty.
Qed.

Lemma encodeField_nonempty (e : HpackEncoder T) f : (encodeField f e).1 <> [].
Proof.
  unfold encodeField, encodeIndexed, encodeLiteralNeverIndexed, encodeLiteralIndexed.
  repeat case_match; simpl; auto using encodeInteger_nonempty, encodeLiteral_nonempty.
Qed.

Lemma encodeField_sent (e : HpackEncoder T) f :
  ht_ok (e_dynamic_table e) -> ht_max (e_dynamic_table e) < 2 ^ 32 -> wf_field f ->
  let '(out, e') := encodeField f e in
  field_sent (e_dynamic_table e) f out (e_dynamic_table e') /\
  e_table_size_update_pending e' = e_table_size_update_pending e /\
  e_pending_table_size e' = e_pending_table_size e.
Proof.
  intros Hok Hmax Hwf. unfold encodeField.
  set (tb := e_dynamic_table e) in *. pose proof (static_name tb f) as Hst.
  destruct (static_find (name f) (value f)) as [si sb]. destruct Hst as [Hsi Hst].
  pose proof (ht_find_law tb (name f) (value f) Hok) as Hdy.
  destruct (ht_find tb (name f) (value f)) as [di db].
  assert (negb (di =? SIZE_MAX) = true ->
          0 <= di /\ kStaticTableSize + di + 1 < 2 ^ 32 /\
          names tb (inl (kStaticTableSize + di + 1)) (name f) /\
          (db = false -> getField tb (kStaticTableSize + di + 1) = Some f)) as Hdi.
  { intros Hne%negb_true_iff%Z.eqb_neq. rewrite static_size. destruct db.
    - destruct Hdy as (Hp0 & Hb & v & Hg). split; [lia|]. split; [lia|]. split; [|done].
      split; [lia|]. exists v. pose proof (getField_dynamic tb di Hp0) as Hgd.
      rewrite static_size in Hgd. by rewrite Hgd.
    - destruct Hdy as [|(Hp0 & Hb & Hg)]; [done|]. split; [lia|]. split; [lia|].
      pose proof (getField_dynamic tb di Hp0) as Hgd. rewrite static_size in Hgd.
      rewrite Hgd, Hg. split; [split; [lia|]|].
      + exists (value f). by rewrite Hgd.
      + intros _. by destruct f. }
  destruct ((0 <? si) && negb sb) eqn:E1.
  { apply andb_true_iff in E1 as [E1%Z.ltb_lt E2%negb_true_iff].
    destruct (Hst E1) as (Hle & _ & Hg). split_and!; [|done|done]. intros rest. left. split; [done|].
    left. apply decode_indexed; [lia|by apply Hg]. }
  destruct (negb (di =? SIZE_MAX) && negb db) eqn:E2.
  { apply andb_true_iff in E2 as [E2 E3%negb_true_iff].
    destruct (Hdi E2) as (Hp0 & Hlt & _ & Hg). split_and!; [|done|done]. intros rest. left.
    split; [done|]. left. apply decode_indexed; [rewrite static_size in *; lia|by apply Hg]. }
  destruct (sensitive (name f)); (split_and!; [|done|done]); intros rest.
  - left. split; [done|]. right. destruct (Z.ltb_spec 0 si) as [Hpos|_].
    + apply decode_literal_not_indexed; [by right|by apply Hst|done].
    + apply decode_literal_not_indexed; [by right|done|done].
  - right. split; [done|]. destruct (Z.ltb_spec 0 si) as [Hpos|_].
    + apply decode_literal_indexed; [by apply Hst|done].
    + destruct (negb (di =? SIZE_MAX) && db) eqn:E3.
      * apply andb_true_iff in E3 as [E3 _]. apply decode_literal_indexed; [by apply Hdi|done].
      * by apply decode_literal_indexed.
Qed.

(** ** Blocks *)

Lemma decode_loop_field limit max tb tb' f out rest headers hls fuel :
  field_sent tb f out tb' -> out <> [] -> 0 <= hls -> hls + field_size f <= limit ->
  (length (out ++ rest) <= fuel)%nat ->
  exists fuel', (length rest <= fuel')%nat /\
    decode_loop fuel limit max tb (out ++ rest) headers hls =
    decode_loop fuel' limit max tb' rest (headers ++ [f]) (hls + field_size f).
Proof.
  intros Hs Hne H1 H2 Hf. destruct out as [|b out]; [done|]. destruct fuel as [|fuel]; [simpl in Hf; lia|].
  exists fuel. split; [simpl in Hf; rewrite length_app in Hf; lia|].
  assert (record_size limit hls f = Some (hls + field_size f)) as Hrec.
  { unfold record_size. pose proof (field_size_pos f).
    destruct (Z.ltb_spec limit (field_size f)); [lia|].
    by destruct (Z.ltb_spec (limit - field_size f) hls); [lia|]. }
  cbn [app decode_loop]. specialize (Hs rest). cbn [app] in Hs.
  destruct Hs as [[-> [-> | ->]]|[-> ->]]; by rewrite Hrec.
Qed.

Lemma encode_fields_sent limit max hs (e : HpackEncoder T) fuel headers hls :
  ht_ok (e_dynamic_table e) -> ht_max (e_dynamic_table e) < 2 ^ 32 -> Forall wf_field hs ->
  0 <= hls -> hls + total_size hs <= limit ->
  let '(out, e') := encode_fields hs e in
  ((length out <= fuel)%nat ->
   decode_loop fuel limit max (e_dynamic_table e) out headers hls =
     (Value (headers ++ hs), e_dynamic_table e')) /\
  ht_ok (e_dynamic_table e') /\ ht_max (e_dynamic_table e') = ht_max (e_dynamic_table e) /\
  e_table_size_update_pending e' = e_table_size_update_pending e /\
  e_pending_table_size e' = e_pending_table_size e.
Proof.
  intros Hok Hmax Hwf. revert e fuel headers hls Hok Hmax.
  induction Hwf as [|f hs Hf _ IH]; intros e fuel headers hls Hok Hmax H1 H2; cbn [encode_fields].
  { split_and!; try done. intros _. rewrite app_nil_r. by destruct fuel. }
  simpl in H2. pose proof (field_size_pos f) as Hfs.
  pose proof (total_size_ge hs). pose proof (blen_nonneg hs).
  pose proof (encodeField_sent e f Hok Hmax Hf) as Hs. pose proof (encodeField_nonempty e f) as Hne.
  destruct (encodeField f e) as [out e1]. simpl in Hne. destruct Hs as (Hs & Hp1 & Hp2).
  assert (ht_ok (e_dynamic_table e1) /\ ht_max (e_dynamic_table e1) = ht_max (e_dynamic_table e))
    as [Hok1 Hmax1].
  { destruct (Hs []) as [[-> _]|[-> _]]; [done|]. by apply ht_add_law. }
  pose proof (fun fuel headers => IH e1 fuel headers (hls + field_size f) Hok1 ltac:(lia)
                ltac:(lia) ltac:(lia)) as IH1. clear IH.
  destruct (encode_fields hs e1) as [outs e2].
  destruct (IH1 0%nat []) as (_ & Hok2 & Hmax2 & Hp3 & Hp4).
  split_and!; [|done|lia|congruence|congruence].
  intros Hfuel.
  destruct (decode_loop_field limit max _ _ f out outs headers hls fuel Hs Hne H1 ltac:(lia) Hfuel)
    as (fuel' & Hf' & ->).
  destruct (IH1 fuel' (headers ++ [f])) as (Hd & _). by rewrite Hd, <- app_assoc.
Qed.

(** Encoder and decoder agree on the table, up to the size update not yet sent. *)
Record in_sync (e : HpackEncoder T) (d : HpackDecoder T) : Prop := {
  sync_ok : ht_ok (d_dynamic_table d);
  sync_max : ht_max (e_dynamic_table e) < 2 ^ 32;
  sync_pending : e_table_size_update_pending e = true ->
    0 <= e_pending_table_size e < 2 ^ 32 /\ e_pending_table_size e <= d_max_table_size d;
  sync_table : e_dynamic_table e =
    if e_table_size_update_pending e
    then ht_setMaxSize (e_pending_table_size e) (d_dynamic_table d)
    else d_dynamic_table d
}.

Lemma in_sync_encoder_ok e d : in_sync e d -> ht_ok (e_dynamic_table e).
Proof.
  intros [Hok _ Hp ->]. destruct (e_table_size_update_pending e); [|done].
  apply ht_setMaxSize_law; [done|by apply Hp].
Qed.

Lemma block_roundtrip (e : HpackEncoder T) d hs :
  in_sync e d -> Forall wf_field hs -> total_size hs <= d_max_header_list_size d ->
  let '(out, e') := hpack_encode hs e in
  exists d', hpack_decode out d = (Value hs, d') /\ in_sync e' d' /\
    d_max_table_size d' = d_max_table_size d /\
    d_max_header_list_size d' = d_max_header_list_size d /\
    e_table_size_update_pending e' = false.
Proof.
  intros Hsync Hwf Hlim. pose proof (in_sync_encoder_ok e d Hsync) as Hok.
  destruct Hsync as [Hdok Hmax Hpend Htab]. unfold hpack_encode, hpack_decode.
  destruct (e_table_size_update_pending e) eqn:Hp.
  - set (e1 := mkEncoder (e_dynamic_table e) _ _ false).
    pose proof (fun fuel => encode_fields_sent (d_max_header_list_size d) (d_max_table_size d) hs e1
                  fuel [] 0 Hok Hmax Hwf ltac:(lia) ltac:(lia)) as Hb.
    destruct (encode_fields hs e1) as [out e2].
    destruct (Hb 0%nat) as (_ & Hok2 & Hmax2 & Hp2 & _). destruct (Hpend eq_refl) as [Hr Hle].
    rewrite wrap32_small by lia.
    destruct (decode_encodeInteger (e_pending_table_size e) 5 0x20 out Hr) as [Hd (b & tl & Eb & Hbr)];
      [done|]. change (2 ^ 5) with 32 in Hbr.
    assert (decode_repr (d_dynamic_table d) (encodeInteger (e_pending_table_size e) 5 32 ++ out) =
            Value (SizeUpdate (e_pending_table_size e), out)) as Hrepr.
    { rewrite Eb in Hd |- *. cbn [app] in *. rewrite decode_repr_branch.
      destruct (Z.leb_spec 128 (b2z b)); [lia|]. destruct (Z.leb_spec 64 (b2z b)); [lia|].
      destruct (Z.leb_spec 32 (b2z b)); [|lia]. by rewrite Hd. }
    rewrite Eb in Hrepr |- *. cbn [app length decode_loop]. cbn [app] in Hrepr. rewrite Hrepr.
    destruct (Z.ltb_spec (d_max_table_size d) (e_pending_table_size e)); [lia|].
    rewrite <- Htab. destruct (Hb (length (tl ++ out))) as (Hdec & _).
    unfold e1 in Hdec, Hmax2, Hp2. simpl in Hdec, Hmax2, Hp2. rewrite Hdec by (rewrite length_app; lia). simpl.
    eexists. split_and!; [done| |done|done|by rewrite Hp2].
    split; simpl; [done|lia|by rewrite Hp2|by rewrite Hp2].
  - pose proof (fun fuel => encode_fields_sent (d_max_header_list_size d) (d_max_table_size d) hs e
                  fuel [] 0 Hok Hmax Hwf ltac:(lia) ltac:(lia)) as Hb.
    destruct (encode_fields hs e) as [out e2].
    destruct (Hb (length out)) as (Hdec & Hok2 & Hmax2 & Hp2 & _).
    cbn [app]. rewrite <- Htab, Hdec by done.
    eexists. split_and!; [done| |done|done|congruence].
    split; simpl; [done|lia|congruence|by rewrite Hp2, Hp].
Qed.

(** ** What the decoder does with arbitrary bytes *)

(** A reader either consumes something or reports a compression error. *)
Definition reads {A} (data : bytes) (r : outcome Http2ErrorCode (A * bytes)) : Prop :=
  match r with
  | Value (_, rest) => (length rest < length data)%nat
  | Unexpected e => e = CompressionError
  | OutOfBounds => False
  end.

Lemma get_groups_reads data v s : reads data (get_groups data v s).
Proof.
  revert v s. induction data as [|b data IH]; intros v s; cbn [get_groups]; [done|].
  destruct (_ || _); [done|]. destruct (Z.land (b2z b) 0x80 =? 0); [simpl; lia|].
  destruct (32 <=? s + 7); [done|].
  specialize (IH (wrap32 (v + wrap32 (Z.shiftl (Z.land (b2z b) 127) s))) (s + 7)).
  unfold reads in *. case_match; simplify_eq; try done. case_match. simpl. lia.
Qed.

Lemma decodeInteger_reads data k : reads data (decodeInteger data k).
Proof.
  unfold decodeInteger. destruct data as [|b data]; [done|]. destruct (_ <? _); [simpl; lia|].
  pose proof (get_groups_reads data (Z.land (b2z b) (max_prefix k)) 0) as Hg.
  unfold reads in *. case_match; simplify_eq; try done. case_match. simpl. lia.
Qed.

Lemma decodeString_reads data : reads data (decodeString data).
Proof.
  unfold decodeString. destruct data as [|b data]; [done|].
  pose proof (decodeInteger_reads (b :: data) 7) as Hr.
  destruct (decodeInteger (b :: data) 7) as [[len rest]|e|]; [|done|done]. cbn [obind].
  destruct (blen rest <? len); [done|]. simpl in Hr.
  assert (length (drop (Z.to_nat len) rest) < length (b :: data))%nat
    by (rewrite length_drop; simpl; lia).
  destruct (Z.land (b2z b) 0x80 =? 0); cbn [negb]; [done|].
  destruct (huffman_decode_cases (take (Z.to_nat len) rest)) as [(x & _ & _ & _ & ->)|[_ ->]]; done.
Qed.

Lemma decode_literal_reads (tb : T) k data : reads data (decode_literal tb k data).
Proof.
  unfold decode_literal. pose proof (decodeInteger_reads data k) as Hi.
  destruct (decodeInteger data k) as [[i r1]|e|]; [|done|done]. cbn [obind fst snd]. simpl in Hi.
  assert (forall nm (r2 : bytes), (length r2 <= length r1)%nat ->
            reads data (v <-- decodeString r2 ;; Value (mkField nm v.1, v.2))) as Hv.
  { intros nm r2 Hr. pose proof (decodeString_reads r2) as Hs.
    destruct (decodeString r2) as [[v r3]|e|]; [|done|done]. simpl in *. lia. }
  destruct (0 <? i).
  - destruct (getField tb i) as [f|]; [|done]. cbn [obind fst snd]. by apply Hv.
  - pose proof (decodeString_reads r1) as Hs. destruct (decodeString r1) as [[nm r2]|e|]; [|done|done].
    cbn [obind fst snd]. simpl in Hs. apply Hv. lia.
Qed.

Lemma decode_repr_reads (tb : T) data : data <> [] -> reads data (decode_repr tb data).
Proof.
  destruct data as [|b data]; [done|]. intros _. rewrite decode_repr_branch.
  pose proof (decodeInteger_reads (b :: data)) as Hi.
  pose proof (decode_literal_reads tb) as Hl.
  destruct (128 <=? b2z b); [|destruct (64 <=? b2z b); [|destruct (32 <=? b2z b)]].
  - specialize (Hi 7). destruct (decodeInteger (b :: data) 7) as [[i r]|e|]; [|done|done].
    cbn [obind fst snd]. by destruct (getField tb i).
  - specialize (Hl 6 (b :: data)). by destruct (decode_literal tb 6 (b :: data)) as [[f r]|e|].
  - specialize (Hi 5). by destruct (decodeInteger (b :: data) 5) as [[i r]|e|].
  - specialize (Hl 4 (b :: data)). by destruct (decode_literal tb 4 (b :: data)) as [[f r]|e|].
Qed.

Lemma record_size_spec limit hls f :
  0 <= hls ->
  match record_size limit hls f with
  | Some n => n = hls + field_size f /\ n <= limit
  | None => limit < hls + field_size f
  end.
Proof.
  intros H0'. unfold record_size. pose proof (field_size_pos f).
  destruct (Z.ltb_spec limit (field_size f)); simpl; [lia|].
  destruct (Z.ltb_spec (limit - field_size f) hls); simpl; lia.
Qed.

Lemma decodeInteger_value_nonneg data k v rest :
  1 <= k <= 8 -> decodeInteger data k = Value (v, rest) -> 0 <= v.
Proof.
  intros Hk. assert (forall d v s w r, 0 <= v -> get_groups d v s = Value (w, r) -> 0 <= w) as Hg.
  { clear. induction d as [|b d IH]; intros v s w r Hv; cbn [get_groups]; [done|].
    assert (0 <= wrap32 (v + wrap32 (Z.shiftl (Z.land (b2z b) 127) s)))
      by (apply Z.mod_pos_bound; lia).
    repeat case_match; try done; [by intros [= <- <-]|by apply IH]. }
  unfold decodeInteger. destruct data as [|b data]; [done|].
  assert (0 <= Z.land (b2z b) (max_prefix k)).
  { apply Z.land_nonneg. left. apply b2z_range. }
  destruct (_ <? _); [by intros [= <- <-]|by apply Hg].
Qed.

Lemma size_update_nonneg (tb : T) data n rest :
  decode_repr tb data = Value (SizeUpdate n, rest) -> 0 <= n.
Proof.
  destruct data as [|b data]; [done|]. rewrite decode_repr_branch.
  destruct (128 <=? b2z b); [|destruct (64 <=? b2z b); [|destruct (32 <=? b2z b)]].
  - destruct (decodeInteger (b :: data) 7) as [[i r]|e|]; [|done|done]. cbn [obind fst snd].
    by destruct (getField tb i).
  - by destruct (decode_literal tb 6 (b :: data)) as [[f r]|e|].
  - destruct (decodeInteger (b :: data) 5) as [[i r]|e|] eqn:Hi; [|done|done]. cbn [obind fst snd].
    intros [= <- <-]. by eapply (decodeInteger_value_nonneg _ 5).
  - by destruct (decode_literal tb 4 (b :: data)) as [[f r]|e|].
Qed.

Lemma decode_loop_total fuel limit max tb data headers hls :
  (length data <= fuel)%nat -> ht_ok tb -> ht_max tb <= max -> 0 <= hls ->
  total_size headers = hls -> hls <= limit ->
  let '(r, tb') := decode_loop fuel limit max tb data headers hls in
  ht_ok tb' /\ ht_max tb' <= max /\
  match r with
  | Value hs => total_size hs <= limit
  | Unexpected e => e = CompressionError
  | OutOfBounds => False
  end.
Proof.
  revert tb data headers hls. induction fuel as [|fuel IH]; intros tb data headers hls Hf Hok Hmax Hp Ht Hl.
  { destruct data; [|simpl in Hf; lia]. simpl. split_and!; [done|done|lia]. }
  destruct data as [|b data]; [simpl; split_and!; [done|done|lia]|]. cbn [decode_loop].
  pose proof (decode_repr_reads tb (b :: data) ltac:(done)) as Hr.
  destruct (decode_repr tb (b :: data)) as [[rp rest]|e|] eqn:Hd; [|done|done].
  simpl in Hr, Hf.
  assert (forall f tb1, ht_ok tb1 -> ht_max tb1 <= max ->
            let '(r, tb') := match record_size limit hls f with
                             | Some size => decode_loop fuel limit max tb1 rest (headers ++ [f]) size
                             | None => (Unexpected CompressionError, tb)
                             end in
            ht_ok tb' /\ ht_max tb' <= max /\
            match r with
            | Value hs => total_size hs <= limit
            | Unexpected e => e = CompressionError
            | OutOfBounds => False
            end) as Hfield.
  { intros f tb1 Hok1 Hmax1. pose proof (record_size_spec limit hls f Hp) as Hrec.
    pose proof (field_size_pos f).
    destruct (record_size limit hls f) as [n|]; [|done]. destruct Hrec as [-> Hn].
    apply IH; [lia|done|done|lia| |lia]. rewrite total_size_app. simpl. lia. }
  destruct rp as [f|f|n|f].
  - by apply Hfield.
  - destruct (ht_add_law f tb Hok) as [Hok1 Hm1]. apply Hfield; [done|lia].
  - destruct (Z.ltb_spec max n); [done|]. pose proof (size_update_nonneg tb _ n rest Hd).
    destruct (ht_setMaxSize_law n tb Hok) as [Hok1 Hm1]; [done|]. apply IH; try done; lia.
  - by apply Hfield.
Qed.

(** ** The request target *)

Lemma target_loop_projects fuel limit max (tb : T) data headers target hls :
  target_loop fuel limit max tb data (foldl record_target target headers) hls =
  let '(r, tb') := decode_loop fuel limit max tb data headers hls in
  (match r with
   | Value hs => Value (foldl record_target target hs)
   | Unexpected e => Unexpected e
   | OutOfBounds => OutOfBounds
   end, tb').
Proof.
  revert tb data headers hls. induction fuel as [|fuel IH]; intros tb data headers hls;
    destruct data as [|b data]; cbn [target_loop decode_loop]; try done.
  destruct (decode_repr tb (b :: data)) as [[rp rest]|e|]; [|done|done].
  assert (forall f, record_target (foldl record_target target headers) f =
                    foldl record_target target (headers ++ [f])) as Hsnoc
    by (intros f; by rewrite foldl_snoc).
  destruct rp as [f|f|n|f].
  - destruct (record_size limit hls f); [|done]. by rewrite Hsnoc, IH.
  - destruct (record_size limit hls f); [|done]. by rewrite Hsnoc, IH.
  - destruct (max <? n); [done|]. by rewrite IH.
  - destruct (record_size limit hls f); [|done]. by rewrite Hsnoc, IH.
Qed.

(** ** The stateless encoder *)

Lemma encodeFieldStateless_sent (e : HpackEncoder T) f (tb : T) :
  wf_field f -> field_sent tb f (encodeFieldStateless f e) tb /\ encodeFieldStateless f e <> [].
Proof.
  intros Hf. unfold encodeFieldStateless. pose proof (static_name tb f) as Hst.
  destruct (static_find (name f) (value f)) as [si sb]. destruct Hst as [Hsi Hst].
  unfold encodeLiteralWithoutIndexing.
  destruct ((0 <? si) && negb sb) eqn:E1.
  - apply andb_true_iff in E1 as [E1%Z.ltb_lt E2%negb_true_iff]. destruct (Hst E1) as (Hle & _ & Hg).
    split; [|apply encodeInteger_nonempty]. intros rest. left. split; [done|left].
    apply decode_indexed; [lia|by apply Hg].
  - destruct (Z.ltb_spec 0 si); (split; [|apply encodeLiteral_nonempty]); intros rest; left;
      (split; [done|right]); (apply decode_literal_not_indexed; [by left| |done]); [by apply Hst|done].
Qed.

Lemma encodeStateless_cons f hs (e : HpackEncoder T) :
  encodeStateless (f :: hs) e = encodeFieldStateless f e ++ encodeStateless hs e.
Proof. unfold encodeStateless. reflexivity. Qed.

Lemma stateless_roundtrip limit max (tb : T) (e : HpackEncoder T) hs fuel headers hls :
  Forall wf_field hs -> 0 <= hls -> hls + total_size hs <= limit ->
  (length (encodeStateless hs e) <= fuel)%nat ->
  decode_loop fuel limit max tb (encodeStateless hs e) headers hls = (Value (headers ++ hs), tb).
Proof.
  intros Hwf. revert fuel headers hls.
  induction Hwf as [|f hs Hf _ IH]; intros fuel headers hls H1 H2 Hfuel.
  { rewrite app_nil_r. by destruct fuel. }
  simpl in H2. pose proof (field_size_pos f). pose proof (total_size_ge hs). pose proof (blen_nonneg hs).
  destruct (encodeFieldStateless_sent e f tb Hf) as [Hs Hne].
  rewrite encodeStateless_cons in Hfuel |- *.
  destruct (decode_loop_field limit max tb tb f _ _ headers hls fuel Hs Hne H1 ltac:(lia) Hfuel)
    as (fuel' & Hf' & ->).
  rewrite IH by first [done | lia]. by rewrite <- app_assoc.
Qed.
End HpackProofs.

(** ** Properties *)

(** the HPACK integer coding round-trips for every 32-bit value, every prefix size and
    whatever follows, and the encoding keeps the pattern of the prefix octet. *)
Theorem integer_roundtrip v n prefix rest :
  0 <= v < 2 ^ 32 -> prefix_ok n prefix ->
  decodeInteger (encodeInteger v n prefix ++ rest) n = Value (v, rest) /\
  exists b tl, encodeInteger v n prefix = b :: tl /\ prefix <= b2z b < prefix + 2 ^ n.
Proof. apply decode_encodeInteger. Qed.

Lemma integer_roundtrip_witness :
  decodeInteger (encodeInteger 4294967295 5 0x20 ++ bs "x") 5 = Value (4294967295, bs "x").
Proof. apply (integer_roundtrip 4294967295 5 0x20 (bs "x")); [lia|done]. Defined.

(** A run of a connection: before each header block the encoder may be given new table sizes. *)
Definition session_step (sd : HpackEncoder HpackDynamicTable * HpackDecoder HpackDynamicTable)
    (block : list Z * list Http2HeaderField) :
    outcome Http2ErrorCode (list Http2HeaderField) *
    (HpackEncoder HpackDynamicTable * HpackDecoder HpackDynamicTable) :=
  let e := fold_left (fun e n => enc_setMaxTableSize n e) block.1 sd.1 in
  let '(out, e) := hpack_encode block.2 e in
  let '(r, d) := hpack_decode out sd.2 in
  (r, (e, d)).

Fixpoint session (sd : HpackEncoder HpackDynamicTable * HpackDecoder HpackDynamicTable)
    (blocks : list (list Z * list Http2HeaderField)) :
    list (outcome Http2ErrorCode (list Http2HeaderField)) :=
  match blocks with
  | [] => []
  | block :: blocks => let '(r, sd) := session_step sd block in r :: session sd blocks
  end.

(** The last of several sizes is the least of them: a block announces one size only, the last. *)
Definition last_least (sizes : list Z) : Prop :=
  forall before n, sizes = before ++ [n] -> Forall (fun m => n <= m) before.

Definition wf_block (max_table_size : Z) (block : list Z * list Http2HeaderField) : Prop :=
  Forall (fun n => 0 <= n <= max_table_size) block.1 /\ last_least block.1 /\
  Forall wf_field block.2 /\ total_size block.2 <= SIZE_MAX.

Lemma resizes_last (before : list Z) n (e : HpackEncoder HpackDynamicTable) : Forall (fun m => n <= m) before ->
  enc_setMaxTableSize n (fold_left (fun e n => enc_setMaxTableSize n e) before e) = enc_setMaxTableSize n e.
Proof.
  induction before as [|m before IH] using rev_ind; [done|]. intros [Hb Hm]%Forall_app.
  apply Forall_cons in Hm as [Hm _]. rewrite fold_left_app, <- (IH Hb). cbn [fold_left].
  unfold enc_setMaxTableSize at 1 2 4. cbn [e_dynamic_table e_use_huffman]. f_equal. by apply setMaxSize_twice.
Qed.

Lemma in_sync_resized max_table_size sizes e (d : HpackDecoder HpackDynamicTable) :
  max_table_size < 2 ^ 32 -> in_sync e d -> e_table_size_update_pending e = false -> d_max_table_size d = max_table_size ->
  Forall (fun n => 0 <= n <= max_table_size) sizes -> last_least sizes ->
  in_sync (fold_left (fun e n => enc_setMaxTableSize n e) sizes e) d.
Proof.
  intros Hmax Hsync Hp Hm Hr Hl. destruct sizes as [|n before _] using rev_ind; [done|].
  specialize (Hl _ _ eq_refl). apply Forall_app in Hr as [_ Hn]. apply Forall_cons in Hn as [Hn _].
  rewrite fold_left_app. cbn [fold_left]. rewrite resizes_last by done. destruct Hsync as [Hok Hmx _ Htab].
  rewrite Hp in Htab. split; simpl; [done| |intros _; split; lia|by rewrite Htab].
  rewrite Htab. destruct (setMaxSize_spec n (d_dynamic_table d) Hok) as (_ & -> & _); lia.
Qed.

(** C2: encoder and decoder stay in step: on a connection where both start with the same table
    size, every header block decodes to the list that was encoded, in order, whatever the tables
    hold by then and whatever table sizes the encoder is given in between, as long as of several
    sizes given between two blocks the last is the least. *)
Theorem hpack_session_roundtrip max_table_size blocks :
  0 <= max_table_size < 2 ^ 32 -> Forall (wf_block max_table_size) blocks ->
  session (new_encoder max_table_size, new_decoder max_table_size) blocks =
  map (fun block => Value block.2) blocks.
Proof.
  intros Hmax Hblocks.
  assert (forall (e : HpackEncoder HpackDynamicTable) d,
    in_sync e d -> e_table_size_update_pending e = false ->
    d_max_table_size d = max_table_size -> d_max_header_list_size d = SIZE_MAX ->
    session (e, d) blocks = map (fun block => Value block.2) blocks) as Hgen.
  { induction Hblocks as [|[sizes hs] blocks (Hr & Hleast & Hhs & Hsz) _ IH]; intros e d Hsync Hp Hm Hl; [done|].
    cbn [session session_step fst snd map] in *.
    pose proof (in_sync_resized max_table_size sizes e d ltac:(lia) Hsync Hp Hm Hr Hleast) as Hsync'.
    unfold session_step. cbn [fst snd].
    pose proof (block_roundtrip _ d hs Hsync' Hhs ltac:(lia)) as Hb.
    destruct (hpack_encode hs _) as [out e']. destruct Hb as (d' & -> & Hs' & Hm' & Hl' & Hp').
    f_equal. apply IH; [done|done|congruence|congruence]. }
  apply Hgen; try done. destruct (ht_new_law max_table_size ltac:(lia)) as [Hok Hm].
  split; [done| |done|done]. change (ht_max _) with (ht_max (ht_new max_table_size)). rewrite Hm. lia.
Qed.

Lemma hpack_session_roundtrip_witness :
  let h := [mkField (bs ":method") (bs "GET"); mkField (bs "x") (bs "1"); mkField (bs "cookie") []] in
  session (new_encoder 4096, new_decoder 4096) [([], h); ([100; 40], h)] = [Value h; Value h].
Proof.
  intros h. apply (hpack_session_roundtrip 4096 [([], h); ([100; 40], h)]); [lia|].
  apply Forall_cons; split; [|apply Forall_cons; split; [|apply Forall_nil_2]]; (split; [repeat constructor; simpl; lia|]);
    (split; [|split; [repeat constructor; vm_compute; congruence|vm_compute; congruence]]); intros before n E.
  - by destruct before.
  - destruct before as [|a [|b before]]; simpl in E; simplify_eq; [repeat constructor; lia|].
    by destruct before.
Defined.

(** RFC 7541, 4.2: of several sizes the least must be announced too. Emptied and grown again between two
    blocks, the encoder's table has lost what the decoder's still holds; the decoder's ring grows, which
    reverses it, and an index names another field. *)
Example resized_twice_desyncs :
  let field c := mkField (bs "x") (bs c) in
  session (new_encoder 4096, new_decoder 4096)
    [([], map field ["A"; "B"; "C"; "D"; "E"; "F"; "G"; "H"]%string); ([0; 4096], [field "I"]); ([], [field "I"])] =
  [Value (map field ["A"; "B"; "C"; "D"; "E"; "F"; "G"; "H"]%string); Value [field "I"]; Value [field "A"]].
Proof. vm_compute. reflexivity. Qed.

(** the decoder is total on arbitrary bytes: it always terminates, never reads outside the
    block, and either returns headers whose total size respects the header list limit or
    COMPRESSION_ERROR; the table stays well formed and never exceeds the size negotiated. *)
Theorem hpack_decode_total data (d : HpackDecoder HpackDynamicTable) :
  table_ok (d_dynamic_table d) -> m_max_size (d_dynamic_table d) <= d_max_table_size d ->
  0 <= d_max_header_list_size d ->
  let '(r, d') := hpack_decode data d in
  table_ok (d_dynamic_table d') /\ m_max_size (d_dynamic_table d') <= d_max_table_size d' /\
  match r with
  | Value hs => total_size hs <= d_max_header_list_size d
  | Unexpected e => e = CompressionError
  | OutOfBounds => False
  end.
Proof.
  intros Hok Hmax Hl. unfold hpack_decode.
  pose proof (decode_loop_total (length data) (d_max_header_list_size d) (d_max_table_size d)
                (d_dynamic_table d) data [] 0 ltac:(lia) Hok Hmax ltac:(lia) eq_refl Hl) as Ht.
  by destruct (decode_loop _ _ _ _ _ _ _) as [r tb].
Qed.

Lemma hpack_decode_total_witness :
  let '(r, d') := hpack_decode (bs "@ ~") (new_decoder 100) in r <> OutOfBounds.
Proof.
  pose proof (hpack_decode_total (bs "@ ~") (new_decoder 100)) as Ht.
  destruct (hpack_decode (bs "@ ~") (new_decoder 100)) as [r d'].
  destruct Ht as (_ & _ & Hr); [apply new_table_ok; lia|vm_compute; congruence|vm_compute; congruence|].
  intros ->. exact Hr.
Defined.

(** the fast path for request targets agrees with the full decoder on every block: the same
    errors, the same table afterwards, and the last value of each of the four names. *)
Theorem decodeRequestTarget_projects {T} `{HeaderTable T} data (d : HpackDecoder T) :
  decodeRequestTarget data d =
  let '(r, d') := hpack_decode data d in
  (match r with
   | Value hs => Value (foldl record_target empty_target hs)
   | Unexpected e => Unexpected e
   | OutOfBounds => OutOfBounds
   end, d').
Proof.
  unfold decodeRequestTarget, hpack_decode.
  rewrite (target_loop_projects _ _ _ _ data [] empty_target 0).
  by destruct (decode_loop _ _ _ _ _ _ _) as [r tb].
Qed.

(** blocks of the stateless encoder decode to their headers in every decoder state, and leave
    the state unchanged, so they may be cached and replayed. *)
Theorem encodeStateless_roundtrip {T} `{HeaderTableLaws T} hs (e : HpackEncoder T) (d : HpackDecoder T) :
  Forall wf_field hs -> total_size hs <= d_max_header_list_size d ->
  hpack_decode (encodeStateless hs e) d = (Value hs, d).
Proof.
  intros Hwf Hl. unfold hpack_decode.
  rewrite (stateless_roundtrip _ _ (d_dynamic_table d) e hs) by first [done | lia].
  by destruct d.
Qed.

Lemma encodeStateless_roundtrip_witness :
  let hs := [mkField (bs ":status") (bs "200"); mkField (bs "etag") (bs "a")] in
  let d : HpackDecoder HpackDynamicTable := new_decoder 0 in
  hpack_decode (encodeStateless hs (new_encoder 0)) d = (Value hs, d).
Proof.
  intros hs d. apply (encodeStateless_roundtrip hs (new_encoder 0) d).
  - repeat first [apply Forall_cons; split | apply Forall_nil | split]; vm_compute; congruence.
  - vm_compute. congruence.
Defined.
