(* ===== verification/RingBuffer.v ===== *)
(** * The ring buffer

    [galay-utils/cache/ring_buffer.hpp]: the two implementations behind [RingBuffer], a vector with
    at most two segments and a doubly mapped region that always shows one, the interface the readers
    of the protocols rely on, and the proof that both implement a bounded queue of octets. *)

From Stdlib Require Import ZArith Lia.
From stdpp Require Import base list strings.
From S2P Require Import Prelude.

Open Scope Z_scope.

(** ** The interface

    [rb_read_iovecs] and [rb_write_iovecs] are [getReadIovecs] and the lengths of [getWriteIovecs];
    [rb_receive] is what a [readv] into the write window and the [produce] that follows it do. *)
Class ByteRing (B : Type) : Type := {
  rb_capacity : B -> Z;
  rb_readable : B -> Z;
  rb_writable : B -> Z;
  rb_read_iovecs : B -> list bytes;
  rb_write_iovecs : B -> list Z;
  rb_receive : bytes -> B -> B;
  rb_try_write : bytes -> B -> Z * B;
  rb_try_read : Z -> B -> bytes * B;
  rb_consume : Z -> B -> B;
  rb_clear : B -> B
}.

(** What a client may rely on: a queue [rb_view] of at most [rb_capacity] octets. *)
Class ByteRingLaws (B : Type) `{ByteRing B} : Type := {
  rb_ok : B -> Prop;
  rb_view : B -> bytes;
  rb_bounded b : rb_ok b -> blen (rb_view b) <= rb_capacity b;
  rb_readable_view b : rb_ok b -> rb_readable b = blen (rb_view b);
  rb_writable_view b : rb_ok b -> rb_writable b = rb_capacity b - blen (rb_view b);
  rb_read_concat b : rb_ok b -> concat (rb_read_iovecs b) = rb_view b;
  rb_read_empty b : rb_ok b -> (rb_read_iovecs b = [] <-> rb_view b = []);
  rb_read_shape b : rb_ok b ->
    (length (rb_read_iovecs b) <= 2)%nat /\ Forall (fun iov => iov <> []) (rb_read_iovecs b);
  rb_write_total b : rb_ok b ->
    foldr Z.add 0 (rb_write_iovecs b) = rb_capacity b - blen (rb_view b) /\
    (rb_write_iovecs b = [] <-> blen (rb_view b) = rb_capacity b);
  rb_receive_view b data : rb_ok b ->
    rb_ok (rb_receive data b) /\ rb_capacity (rb_receive data b) = rb_capacity b /\
    rb_view (rb_receive data b) =
      rb_view b ++ take (Z.to_nat (rb_capacity b - blen (rb_view b))) data;
  rb_try_write_view b data : rb_ok b ->
    let n := Z.min (blen data) (rb_capacity b - blen (rb_view b)) in
    exists b', rb_try_write data b = (n, b') /\ rb_ok b' /\ rb_capacity b' = rb_capacity b /\
      rb_view b' = rb_view b ++ take (Z.to_nat n) data;
  rb_try_read_view b n : rb_ok b -> 0 <= n ->
    exists b', rb_try_read n b = (take (Z.to_nat n) (rb_view b), b') /\ rb_ok b' /\
      rb_capacity b' = rb_capacity b /\ rb_view b' = drop (Z.to_nat n) (rb_view b);
  rb_consume_view b n : rb_ok b -> 0 <= n ->
    rb_ok (rb_consume n b) /\ rb_capacity (rb_consume n b) = rb_capacity b /\
    rb_view (rb_consume n b) = drop (Z.to_nat n) (rb_view b);
  rb_clear_view b : rb_ok b ->
    rb_ok (rb_clear b) /\ rb_capacity (rb_clear b) = rb_capacity b /\ rb_view (rb_clear b) = []
}.

(** ** [VectorRingBufferImpl] *)

Record VectorRingBufferImpl : Type := mkVector {
  v_buffer : bytes;
  v_readIndex : Z;
  v_writeIndex : Z;
  v_size : Z
}.

Definition v_capacity (b : VectorRingBufferImpl) : Z := blen (v_buffer b).
Definition v_writable (b : VectorRingBufferImpl) : Z := v_capacity b - v_size b.

(** The body [writeSegments] and [readSegments] share: [{offset, length}] from [index]. *)
Definition segments (available index capacity : Z) : list (Z * Z) :=
  let first := Z.min available (capacity - index) in
  let second := available - first in
  (index, first) :: (if second =? 0 then [] else [(0, second)]).

Definition writeSegments (b : VectorRingBufferImpl) : list (Z * Z) :=
  if v_size b =? v_capacity b then []
  else segments (v_writable b) (v_writeIndex b) (v_capacity b).

Definition readSegments (b : VectorRingBufferImpl) : list (Z * Z) :=
  if v_size b =? 0 then [] else segments (v_size b) (v_readIndex b) (v_capacity b).

Definition segment_bytes (mem : bytes) (seg : Z * Z) : bytes :=
  take (Z.to_nat seg.2) (drop (Z.to_nat seg.1) mem).

Definition v_produce (n : Z) (b : VectorRingBufferImpl) : VectorRingBufferImpl :=
  if (n =? 0) || (v_capacity b =? 0) then b
  else
    let actual := Z.min n (v_writable b) in
    mkVector (v_buffer b) (v_readIndex b) ((v_writeIndex b + actual) mod v_capacity b)
      (v_size b + actual).

Definition v_consume (n : Z) (b : VectorRingBufferImpl) : VectorRingBufferImpl :=
  if (n =? 0) || (v_capacity b =? 0) then b
  else
    let actual := Z.min n (v_size b) in
    let size := v_size b - actual in
    if size =? 0 then mkVector (v_buffer b) 0 0 0
    else mkVector (v_buffer b) ((v_readIndex b + actual) mod v_capacity b) (v_writeIndex b) size.

Definition v_clear (b : VectorRingBufferImpl) : VectorRingBufferImpl := mkVector (v_buffer b) 0 0 0.

(** Copying [data] into the segments, in order. *)
Fixpoint fill_segments (mem : bytes) (segs : list (Z * Z)) (data : bytes) : bytes :=
  match segs with
  | [] => mem
  | (off, len) :: segs =>
      fill_segments (write_at mem (Z.to_nat off) (take (Z.to_nat len) data)) segs
        (drop (Z.to_nat len) data)
  end.

Definition with_buffer (b : VectorRingBufferImpl) (mem : bytes) : VectorRingBufferImpl :=
  mkVector mem (v_readIndex b) (v_writeIndex b) (v_size b).

Definition v_tryWriteBatch (data : bytes) (b : VectorRingBufferImpl) : Z * VectorRingBufferImpl :=
  if (blen data =? 0) || (v_size b =? v_capacity b) then (0, b)
  else
    let toWrite := Z.min (blen data) (v_writable b) in
    let data := take (Z.to_nat toWrite) data in
    (toWrite, v_produce toWrite (with_buffer b (fill_segments (v_buffer b) (writeSegments b) data))).

(** The reading loop: at most [n] octets from the segments, in order. *)
Fixpoint gather_segments (mem : bytes) (segs : list (Z * Z)) (n : Z) : bytes :=
  match segs with
  | [] => []
  | (off, len) :: segs =>
      if n <=? 0 then []
      else
        let chunk := Z.min len n in
        segment_bytes mem (off, chunk) ++ gather_segments mem segs (n - chunk)
  end.

Definition v_tryReadBatch (n : Z) (b : VectorRingBufferImpl) : bytes * VectorRingBufferImpl :=
  if (n =? 0) || (v_size b =? 0) then ([], b)
  else
    let data := gather_segments (v_buffer b) (readSegments b) (Z.min n (v_size b)) in
    (data, v_consume (blen data) b).

#[export] Instance vector_ring : ByteRing VectorRingBufferImpl := {
  rb_capacity := v_capacity;
  rb_readable := v_size;
  rb_writable := v_writable;
  rb_read_iovecs b := map (segment_bytes (v_buffer b)) (readSegments b);
  rb_write_iovecs b := map snd (writeSegments b);
  rb_receive data b :=
    v_produce (blen data) (with_buffer b (fill_segments (v_buffer b) (writeSegments b) data));
  rb_try_write := v_tryWriteBatch;
  rb_try_read := v_tryReadBatch;
  rb_consume := v_consume;
  rb_clear := v_clear
}.

(** ** [MmapRingBufferImpl]

    The region is mapped twice in a row: virtual offset [i] and [i + capacity] are the same octet. *)

Record MmapRingBufferImpl : Type := mkMmap {
  m_region : bytes;
  m_readIndex : Z;
  m_writeIndex : Z;
  m_size : Z
}.

Definition octet (mem : bytes) (i : Z) : byte := nth (Z.to_nat (i mod blen mem)) mem (z2b 0).

(** [memcpy] out of, and into, the double mapping. *)
Definition mapped_read (mem : bytes) (off len : Z) : bytes :=
  map (fun i => octet mem (off + Z.of_nat i)) (seq 0 (Z.to_nat len)).

Fixpoint mapped_write (mem : bytes) (off : Z) (data : bytes) : bytes :=
  match data with
  | [] => mem
  | x :: data => mapped_write (<[Z.to_nat (off mod blen mem) := x]> mem) (off + 1) data
  end.

Definition m_capacity (b : MmapRingBufferImpl) : Z := blen (m_region b).
Definition m_writable (b : MmapRingBufferImpl) : Z := m_capacity b - m_size b.

Definition m_produce (n : Z) (b : MmapRingBufferImpl) : MmapRingBufferImpl :=
  if (n =? 0) || (m_capacity b =? 0) then b
  else
    let actual := Z.min n (m_writable b) in
    let w := m_writeIndex b + actual in
    mkMmap (m_region b) (m_readIndex b) (if m_capacity b <=? w then w - m_capacity b else w)
      (m_size b + actual).

Definition m_consume (n : Z) (b : MmapRingBufferImpl) : MmapRingBufferImpl :=
  if (n =? 0) || (m_capacity b =? 0) then b
  else
    let actual := Z.min n (m_size b) in
    let r := m_readIndex b + actual in
    let size := m_size b - actual in
    if size =? 0 then mkMmap (m_region b) 0 0 0
    else mkMmap (m_region b) (if m_capacity b <=? r then r - m_capacity b else r) (m_writeIndex b) size.

Definition m_clear (b : MmapRingBufferImpl) : MmapRingBufferImpl := mkMmap (m_region b) 0 0 0.

Definition with_region (b : MmapRingBufferImpl) (mem : bytes) : MmapRingBufferImpl :=
  mkMmap mem (m_readIndex b) (m_writeIndex b) (m_size b).

Definition m_tryWriteBatch (data : bytes) (b : MmapRingBufferImpl) : Z * MmapRingBufferImpl :=
  if (blen data =? 0) || (m_size b =? m_capacity b) then (0, b)
  else
    let written := Z.min (blen data) (m_writable b) in
    (written, m_produce written
       (with_region b (mapped_write (m_region b) (m_writeIndex b) (take (Z.to_nat written) data)))).

Definition m_tryReadBatch (n : Z) (b : MmapRingBufferImpl) : bytes * MmapRingBufferImpl :=
  if (n =? 0) || (m_size b =? 0) then ([], b)
  else
    let read_bytes := Z.min n (m_size b) in
    (mapped_read (m_region b) (m_readIndex b) read_bytes, m_consume read_bytes b).

#[export] Instance mmap_ring : ByteRing MmapRingBufferImpl := {
  rb_capacity := m_capacity;
  rb_readable := m_size;
  rb_writable := m_writable;
  rb_read_iovecs b :=
    if m_size b =? 0 then [] else [mapped_read (m_region b) (m_readIndex b) (m_size b)];
  rb_write_iovecs b := if m_size b =? m_capacity b then [] else [m_writable b];
  rb_receive data b :=
    m_produce (blen data)
      (with_region b
         (if m_size b =? m_capacity b then m_region b
          else mapped_write (m_region b) (m_writeIndex b) (take (Z.to_nat (m_writable b)) data)));
  rb_try_write := m_tryWriteBatch;
  rb_try_read := m_tryReadBatch;
  rb_consume := m_consume;
  rb_clear := m_clear
}.

(** ** Octets of a ring *)

Lemma length_mapped_read mem off len : length (mapped_read mem off len) = Z.to_nat len.
Proof. unfold mapped_read. by rewrite length_map, length_seq. Qed.

Lemma blen_mapped_read mem off len : 0 <= len -> blen (mapped_read mem off len) = len.
Proof. intros. unfold blen. rewrite length_mapped_read. lia. Qed.

Lemma map_seq_from {A} (f : nat -> A) a b : map f (seq a b) = map (fun i => f (a + i)%nat) (seq 0 b).
Proof.
  revert a f. induction b as [|b IH]; intros a f; simpl; [done|]. f_equal; [f_equal; lia|].
  rewrite (IH (S a)), (IH 1%nat). apply map_ext. intros i. f_equal. lia.
Qed.

Lemma mapped_read_app mem off a b :
  0 <= a -> 0 <= b -> mapped_read mem off (a + b) = mapped_read mem off a ++ mapped_read mem (off + a) b.
Proof.
  intros. unfold mapped_read. rewrite Z2Nat.inj_add, seq_app, map_app by lia. f_equal.
  rewrite map_seq_from. apply map_ext. intros i. f_equal. lia.
Qed.

Lemma octet_mod mem i : octet mem (i mod blen mem) = octet mem i.
Proof.
  unfold octet. destruct (decide (blen mem = 0)) as [E|].
  - rewrite E. by rewrite !Z.mod_0_r.
  - by rewrite Z.mod_mod.
Qed.

Lemma mapped_read_mod mem off len : mapped_read mem (off mod blen mem) len = mapped_read mem off len.
Proof.
  unfold mapped_read. apply map_ext. intros i. rewrite <- (octet_mod mem (off + Z.of_nat i)).
  rewrite <- (octet_mod mem (off mod blen mem + Z.of_nat i)).
  destruct (decide (blen mem = 0)) as [E|]; [by rewrite E, !Z.mod_0_r|].
  by rewrite Zplus_mod_idemp_l.
Qed.

Lemma mapped_read_linear mem off len :
  0 <= off -> 0 <= len -> off + len <= blen mem -> mapped_read mem off len = segment_bytes mem (off, len).
Proof.
  intros. unfold segment_bytes. simpl. apply (nth_ext _ _ (z2b 0) (z2b 0)).
  { rewrite length_mapped_read, length_take, length_drop. unfold blen in *. lia. }
  intros n Hn. rewrite length_mapped_read in Hn. unfold mapped_read.
  rewrite (nth_indep _ _ (octet mem (off + Z.of_nat 0))) by (rewrite length_map, length_seq; lia).
  rewrite (map_nth (fun i => octet mem (off + Z.of_nat i))), seq_nth by lia. unfold octet.
  rewrite Z.mod_small by lia. rewrite nth_firstn, (proj2 (Nat.ltb_lt _ _)), nth_skipn by lia. f_equal. lia.
Qed.

Lemma mapped_read_take mem off len n :
  0 <= n <= len -> take (Z.to_nat n) (mapped_read mem off len) = mapped_read mem off n.
Proof.
  intros. replace len with (n + (len - n)) by lia. rewrite mapped_read_app by lia.
  rewrite take_app_le by (rewrite length_mapped_read; lia). apply take_ge. rewrite length_mapped_read. lia.
Qed.

Lemma mapped_read_drop mem off len n :
  0 <= n <= len -> drop (Z.to_nat n) (mapped_read mem off len) = mapped_read mem (off + n) (len - n).
Proof.
  intros. replace len with (n + (len - n)) at 1 by lia. rewrite mapped_read_app by lia.
  by rewrite drop_app_ge, length_mapped_read, Nat.sub_diag, drop_0 by (rewrite length_mapped_read; lia).
Qed.

Lemma blen_insert (mem : bytes) i x : blen (<[i := x]> mem) = blen mem.
Proof. unfold blen. by rewrite length_insert. Qed.

Lemma blen_mapped_write mem off data : blen (mapped_write mem off data) = blen mem.
Proof.
  revert mem off. induction data as [|x data IH]; intros; simpl; [done|]. by rewrite IH, blen_insert.
Qed.

Lemma mapped_write_app mem off a b :
  mapped_write mem off (a ++ b) = mapped_write (mapped_write mem off a) (off + blen a) b.
Proof.
  revert mem off. induction a as [|x a IH]; intros; cbn [mapped_write app].
  - by rewrite (@blen_nil byte), Z.add_0_r.
  - rewrite IH, blen_cons. f_equal. lia.
Qed.

Lemma mapped_write_mod mem off data :
  blen mem <> 0 -> mapped_write mem (off mod blen mem) data = mapped_write mem off data.
Proof.
  revert mem off. induction data as [|x data IH]; intros mem off Hm; [done|]. cbn [mapped_write].
  rewrite Z.mod_mod by done. pose proof (blen_insert mem (Z.to_nat (off mod blen mem)) x) as Hb.
  rewrite <- (IH _ (off + 1)), <- (IH _ (off mod blen mem + 1)) by lia.
  by rewrite Hb, Zplus_mod_idemp_l.
Qed.

Lemma mapped_write_linear mem off data :
  0 <= off -> off + blen data <= blen mem -> mapped_write mem off data = write_at mem (Z.to_nat off) data.
Proof.
  revert mem off. induction data as [|x data IH]; intros mem off Ho Hl.
  { unfold write_at. simpl. by rewrite Nat.add_0_r, take_drop. }
  rewrite blen_cons in Hl. pose proof (blen_nonneg data). cbn [mapped_write].
  rewrite Z.mod_small by lia. rewrite IH by (rewrite ?blen_insert; lia). unfold write_at.
  replace (Z.to_nat (off + 1)) with (S (Z.to_nat off)) by lia.
  rewrite drop_insert_lt by lia. rewrite insert_take_drop by (unfold blen in *; lia).
  rewrite take_app_ge by (rewrite length_take; lia).
  rewrite length_take. replace (S (Z.to_nat off) - _)%nat with 1%nat by (unfold blen in *; lia).
  simpl. rewrite <- app_assoc. do 4 f_equal. lia.
Qed.

(** Where the octets written are found again. *)
Lemma octet_insert mem off i x :
  0 < blen mem -> 0 <= i < blen mem ->
  octet (<[Z.to_nat (off mod blen mem) := x]> mem) (off + i) = if i =? 0 then x else octet mem (off + i).
Proof.
  intros Hm Hi. unfold octet. rewrite blen_insert. pose proof (Z.mod_pos_bound off (blen mem) Hm).
  pose proof (Z.mod_pos_bound (off + i) (blen mem) Hm). rewrite !nth_lookup.
  destruct (Z.eqb_spec i 0) as [->|Hi0].
  - rewrite Z.add_0_r, list_lookup_insert_eq by (unfold blen in *; lia). done.
  - rewrite list_lookup_insert_ne; [done|]. intros E%Z2Nat.inj; [|lia..].
    pose proof (Z.div_mod off (blen mem) ltac:(lia)). pose proof (Z.div_mod (off + i) (blen mem) ltac:(lia)).
    assert (i = blen mem * ((off + i) / blen mem - off / blen mem)) as Hd by lia.
    revert Hd. generalize ((off + i) / blen mem - off / blen mem). intros d Hd.
    destruct (Z.lt_ge_cases d 1); nia.
Qed.

Lemma octet_period mem i : octet mem (i + blen mem) = octet mem i.
Proof.
  rewrite <- (octet_mod mem (i + blen mem)), <- (octet_mod mem i).
  destruct (decide (blen mem = 0)) as [E|E]; [by rewrite E, !Z.mod_0_r, Z.add_0_r|].
  by rewrite <- (Z.mul_1_l (blen mem)) at 1; rewrite Z_mod_plus_full.
Qed.

Lemma octet_written mem off data i :
  0 <= i < blen mem -> blen data <= blen mem ->
  octet (mapped_write mem off data) (off + i) =
  if i <? blen data then nth (Z.to_nat i) data (z2b 0) else octet mem (off + i).
Proof.
  revert mem off i. induction data as [|x data IH]; intros mem off i Hi Hl.
  { destruct (Z.ltb_spec i (blen (@nil byte))); [unfold blen in *; simpl in *; lia|done]. }
  rewrite blen_cons in *. pose proof (blen_nonneg data). cbn [mapped_write].
  set (mem' := <[_ := x]> mem). assert (blen mem' = blen mem) as Hm by apply blen_insert.
  destruct (Z.eqb_spec i 0) as [->|Hi0].
  - replace (off + 0) with (off + 1 + (blen mem - 1) - blen mem) by lia.
    set (j := off + 1 + (blen mem - 1)). rewrite <- (octet_period _ (j - blen mem)), blen_mapped_write, Hm.
    replace (j - blen mem + blen mem) with j by lia. unfold j. rewrite IH, (proj2 (Z.ltb_ge _ _)) by lia.
    rewrite (proj2 (Z.ltb_lt 0 _)) by lia. simpl.
    replace (off + 1 + (blen mem - 1)) with (off + 0 + blen mem) by lia.
    rewrite <- Hm, octet_period. unfold mem'. by rewrite octet_insert by lia.
  - replace (off + i) with (off + 1 + (i - 1)) at 1 by lia. rewrite IH by lia.
    replace (Z.to_nat i) with (S (Z.to_nat (i - 1))) by lia. cbn [nth].
    replace (off + 1 + (i - 1)) with (off + i) by lia. unfold mem'. rewrite octet_insert by lia.
    rewrite (proj2 (Z.eqb_neq _ _)) by done.
    destruct (Z.ltb_spec (i - 1) (blen data)), (Z.ltb_spec i (1 + blen data)); done || lia.
Qed.

Lemma mapped_read_written mem off data :
  blen data <= blen mem -> mapped_read (mapped_write mem off data) off (blen data) = data.
Proof.
  intros Hl. apply (nth_ext _ _ (z2b 0) (z2b 0)).
  { rewrite length_mapped_read. unfold blen. lia. }
  intros n Hn. rewrite length_mapped_read in Hn. unfold mapped_read.
  set (mem' := mapped_write mem off data).
  rewrite (nth_indep _ _ (octet mem' (off + Z.of_nat 0))) by (rewrite length_map, length_seq; lia).
  rewrite (map_nth (fun i => octet mem' (off + Z.of_nat i))), seq_nth by lia.
  unfold mem'. rewrite octet_written, (proj2 (Z.ltb_lt _ _)) by lia. f_equal. lia.
Qed.

Lemma mapped_read_kept mem r size data :
  0 <= size -> size + blen data <= blen mem ->
  mapped_read (mapped_write mem (r + size) data) r size = mapped_read mem r size.
Proof.
  intros Hs Hl. pose proof (blen_nonneg data). unfold mapped_read. apply map_ext_in. intros i Hi%in_seq.
  replace (r + Z.of_nat i) with (r + size + (blen mem - size + Z.of_nat i) - blen mem) by lia.
  set (j := r + size + (blen mem - size + Z.of_nat i)).
  rewrite <- (octet_period _ (j - blen mem)), blen_mapped_write.
  replace (j - blen mem + blen mem) with j by lia. unfold j at 1.
  rewrite octet_written, (proj2 (Z.ltb_ge _ _)) by lia. fold j.
  rewrite <- (octet_period mem (j - blen mem)). f_equal. lia.
Qed.

Lemma ring_append mem r size data :
  0 <= size -> size + blen data <= blen mem ->
  mapped_read (mapped_write mem (r + size) data) r (size + blen data) = mapped_read mem r size ++ data.
Proof.
  intros Hs Hl. pose proof (blen_nonneg data). rewrite mapped_read_app by lia.
  rewrite mapped_read_kept by lia. f_equal. apply mapped_read_written. lia.
Qed.

(** ** The vector's segments are the ring *)

Definition ring_ok (mem : bytes) (r w size : Z) : Prop :=
  0 <= size <= blen mem /\
  (blen mem = 0 -> r = 0 /\ w = 0) /\
  (0 < blen mem -> 0 <= r < blen mem /\ 0 <= w < blen mem /\ w = (r + size) mod blen mem).

Lemma segments_read mem index n :
  0 <= index < blen mem -> 0 <= n <= blen mem ->
  concat (map (segment_bytes mem) (segments n index (blen mem))) = mapped_read mem index n.
Proof.
  intros Hi Hn. unfold segments. remember (Z.min n (blen mem - index)) as first eqn:Hf.
  transitivity (mapped_read mem index (first + (n - first))); [|f_equal; lia].
  rewrite mapped_read_app by lia. rewrite (mapped_read_linear mem index first) by lia. cbn [map concat]. f_equal.
  destruct (Z.eqb_spec (n - first) 0) as [->|E]; [done|].
  cbn [map concat]. rewrite app_nil_r, <- (mapped_read_linear mem 0) by lia.
  rewrite <- (mapped_read_mod mem (index + first)).
  replace (index + first) with (1 * blen mem) by lia. by rewrite Z_mod_mult.
Qed.

Lemma segments_write mem index n data :
  0 <= index < blen mem -> 0 <= n <= blen mem ->
  fill_segments mem (segments n index (blen mem)) data =
  mapped_write mem index (take (Z.to_nat n) data).
Proof.
  intros Hi Hn. unfold segments. remember (Z.min n (blen mem - index)) as first eqn:Hf. cbn [fill_segments].
  set (d1 := take (Z.to_nat first) data). set (d2 := take (Z.to_nat (n - first)) (drop (Z.to_nat first) data)).
  assert (take (Z.to_nat n) data = d1 ++ d2) as Hd.
  { unfold d1, d2. replace (Z.to_nat n) with (Z.to_nat first + Z.to_nat (n - first))%nat by lia.
    apply take_plus. }
  assert (blen d1 <= first) as H1 by (unfold d1, blen; rewrite length_take; lia).
  rewrite Hd, mapped_write_app, (mapped_write_linear mem index d1) by lia.
  destruct (Z.eqb_spec (n - first) 0) as [E|E].
  { unfold d2. rewrite E. by rewrite take_0. }
  cbn [fill_segments]. fold d2. rewrite <- (mapped_write_linear mem index d1) by lia.
  destruct (decide (d2 = [])) as [->|Hne]; [simpl; unfold write_at; by rewrite take_drop|].
  assert (blen d1 = first) as E1.
  { unfold d1, blen. rewrite length_take. enough (Z.to_nat first <= length data)%nat by lia.
    destruct (decide (length data <= Z.to_nat first)%nat); [|lia].
    exfalso. apply Hne. unfold d2. by rewrite drop_ge, take_nil. }
  assert (blen d2 <= n - first) by (unfold d2, blen; rewrite length_take; lia).
  set (mem1 := mapped_write mem index d1). assert (blen mem1 = blen mem) as Hm by apply blen_mapped_write.
  rewrite <- (mapped_write_linear mem1 0) by lia.
  rewrite <- (mapped_write_mod mem1 (index + blen d1)) by lia. f_equal. rewrite Hm, E1.
  replace (index + first) with (1 * blen mem) by lia. by rewrite Z_mod_mult.
Qed.

(** ** Steps of a ring *)

Lemma ring_ok_write mem r w size data :
  ring_ok mem r w size -> size + blen data <= blen mem -> 0 < blen mem ->
  ring_ok (mapped_write mem w data) r ((w + blen data) mod blen mem) (size + blen data) /\
  mapped_read (mapped_write mem w data) r (size + blen data) = mapped_read mem r size ++ data.
Proof.
  intros (Hs & _ & Hr) Hl Hm. specialize (Hr Hm) as (Hr & Hw & E). pose proof (blen_nonneg data). split.
  - unfold ring_ok. rewrite blen_mapped_write. split; [lia|]. split; [lia|]. intros _. split_and!; try lia.
    + apply Z.mod_pos_bound. lia.
    + apply Z.mod_pos_bound. lia.
    + rewrite E, Zplus_mod_idemp_l. f_equal. lia.
  - rewrite E, mapped_write_mod by lia. apply ring_append; lia.
Qed.

Lemma ring_ok_drop mem r w size n :
  ring_ok mem r w size -> 0 <= n <= size -> 0 < blen mem ->
  ring_ok mem ((r + n) mod blen mem) w (size - n) /\
  mapped_read mem ((r + n) mod blen mem) (size - n) = drop (Z.to_nat n) (mapped_read mem r size).
Proof.
  intros (Hs & _ & Hr) Hn Hm. specialize (Hr Hm) as (Hr & Hw & E). split.
  - split; [lia|]. split; [lia|]. intros _. split_and!; try lia.
    + apply Z.mod_pos_bound. lia.
    + apply Z.mod_pos_bound. lia.
    + rewrite E, Zplus_mod_idemp_l. f_equal. lia.
  - rewrite mapped_read_mod. symmetry. by apply mapped_read_drop.
Qed.

Lemma ring_ok_empty mem : ring_ok mem 0 0 0.
Proof.
  pose proof (blen_nonneg mem). split; [lia|]. split; [done|]. intros. rewrite Z.mod_small; lia.
Qed.

Lemma wrap_index i n cap :
  0 <= i < cap -> 0 <= n <= cap -> (if cap <=? i + n then i + n - cap else i + n) = (i + n) mod cap.
Proof.
  intros. destruct (Z.leb_spec cap (i + n)); [|by rewrite Z.mod_small by lia].
  rewrite <- (Z.mod_small (i + n - cap) cap) by lia. replace (i + n) with (i + n - cap + 1 * cap) at 2 by lia.
  by rewrite Z_mod_plus_full.
Qed.

Lemma ring_read_lt mem r w size : ring_ok mem r w size -> 0 < size -> 0 <= r < blen mem.
Proof. intros (Hs & _ & Hr) Hp. apply Hr. lia. Qed.

Definition v_ok (b : VectorRingBufferImpl) : Prop :=
  ring_ok (v_buffer b) (v_readIndex b) (v_writeIndex b) (v_size b).
Definition v_view (b : VectorRingBufferImpl) : bytes :=
  mapped_read (v_buffer b) (v_readIndex b) (v_size b).

Lemma v_view_blen b : v_ok b -> blen (v_view b) = v_size b.
Proof. intros (Hs & _). apply blen_mapped_read. lia. Qed.

Lemma take_take_blen (l : bytes) n : 0 <= n -> take (Z.to_nat (Z.min (blen l) n)) l = take (Z.to_nat n) l.
Proof.
  intros. destruct (Z.le_ge_cases (blen l) n) as [Hl|Hl].
  - rewrite Z.min_l by done. unfold blen in *. by rewrite !take_ge by lia.
  - by rewrite Z.min_r by lia.
Qed.

Lemma v_receive_view (b : VectorRingBufferImpl) data :
  v_ok b -> let b' := rb_receive data b in
  v_ok b' /\ v_capacity b' = v_capacity b /\
  v_view b' = v_view b ++ take (Z.to_nat (v_capacity b - blen (v_view b))) data.
Proof.
  intros Hok. rewrite v_view_blen by done. cbn [rb_receive vector_ring].
  pose proof (blen_nonneg data). pose proof Hok as (Hs & H0 & Hr).
  set (d := take (Z.to_nat (v_capacity b - v_size b)) data).
  assert (blen d = Z.min (blen data) (v_capacity b - v_size b)) as Hd
    by (unfold d, blen, v_capacity, blen in *; rewrite length_take; lia).
  assert (fill_segments (v_buffer b) (writeSegments b) data = mapped_write (v_buffer b) (v_writeIndex b) d) as ->.
  { unfold writeSegments, v_writable. destruct (Z.eqb_spec (v_size b) (v_capacity b)) as [E|E].
    - unfold d. rewrite E, Z.sub_diag. done.
    - apply segments_write; unfold v_capacity in *; [apply Hr|]; lia. }
  unfold v_produce, with_buffer, v_ok, v_view, v_writable, v_capacity in *.
  cbn [v_buffer v_readIndex v_writeIndex v_size]. rewrite blen_mapped_write.
  destruct (Z.eqb_spec (blen data) 0) as [E0|E0]; [|destruct (Z.eqb_spec (blen (v_buffer b)) 0) as [E1|E1]]; cbn [orb].
  - assert (d = []) as -> by (apply nil_length_inv; unfold blen in *; lia).
    cbn [mapped_write v_buffer v_readIndex v_writeIndex v_size]. by rewrite app_nil_r.
  - assert (d = []) as -> by (apply nil_length_inv; unfold blen in *; lia).
    cbn [mapped_write v_buffer v_readIndex v_writeIndex v_size]. by rewrite app_nil_r.
  - rewrite <- Hd. cbn [v_buffer v_readIndex v_writeIndex v_size]. rewrite blen_mapped_write.
    destruct (ring_ok_write _ _ _ _ d Hok) as [? ?]; [lia|lia|]. by split_and!.
Qed.

Lemma v_consume_view b n :
  v_ok b -> 0 <= n ->
  v_ok (v_consume n b) /\ v_capacity (v_consume n b) = v_capacity b /\
  v_view (v_consume n b) = drop (Z.to_nat n) (v_view b).
Proof.
  intros Hok Hn. pose proof Hok as (Hs & H0 & Hr). pose proof (v_view_blen b Hok) as Hl.
  unfold v_consume. destruct (Z.eqb_spec n 0) as [->|E0]; [by rewrite drop_0|].
  destruct (Z.eqb_spec (v_capacity b) 0) as [E1|E1]; cbn [orb].
  { unfold v_capacity in E1. rewrite (drop_ge (v_view b)) by (unfold blen in *; lia).
    split_and!; [done|done|]. apply nil_length_inv. unfold blen in *. lia. }
  destruct (ring_ok_drop _ _ _ _ (Z.min n (v_size b)) Hok) as [Hok' Hv];
    [lia|unfold v_capacity in *; lia|]. fold (v_view b) in Hv.
  assert (drop (Z.to_nat n) (v_view b) = drop (Z.to_nat (Z.min n (v_size b))) (v_view b)) as ->.
  { destruct (Z.le_ge_cases n (v_size b)); [by rewrite Z.min_l|].
    rewrite Z.min_r by lia. unfold blen in Hl. by rewrite !drop_ge by lia. }
  destruct (Z.eqb_spec (v_size b - Z.min n (v_size b)) 0) as [E|E].
  - rewrite E in Hv. rewrite <- Hv. split_and!; [apply ring_ok_empty|done|done].
  - split_and!; [exact Hok'|done|exact Hv].
Qed.

Lemma v_try_write_view b data :
  v_ok b -> let n := Z.min (blen data) (v_capacity b - blen (v_view b)) in
  exists b', v_tryWriteBatch data b = (n, b') /\ v_ok b' /\ v_capacity b' = v_capacity b /\
    v_view b' = v_view b ++ take (Z.to_nat n) data.
Proof.
  intros Hok n. pose proof (v_view_blen b Hok) as Hl. unfold n. rewrite Hl. clear n.
  pose proof Hok as (Hs & _). pose proof (blen_nonneg data). unfold v_tryWriteBatch, v_writable.
  destruct (Z.eqb_spec (blen data) 0) as [E|E];
    [|destruct (Z.eqb_spec (v_size b) (v_capacity b)) as [E'|E']]; cbn [orb].
  - exists b. rewrite Z.min_l by (unfold v_capacity; lia). rewrite E, app_nil_r. by split_and!.
  - exists b. rewrite E', Z.sub_diag, Z.min_r, app_nil_r by lia. by split_and!.
  - set (n := Z.min (blen data) (v_capacity b - v_size b)). set (d := take (Z.to_nat n) data).
    destruct (v_receive_view b d Hok) as (H1 & H2 & H3).
    assert (blen d = n) as Hd by (unfold d, n, blen, v_capacity, blen in *; rewrite length_take; lia).
    cbn [rb_receive vector_ring] in H1, H2, H3. rewrite Hd in H1, H2, H3.
    eexists. split; [done|]. split_and!; [done|done|]. rewrite H3, Hl. f_equal.
    apply take_ge. unfold d. rewrite length_take. lia.
Qed.

Lemma gather_segments_spec mem segs n :
  Forall (fun seg => 0 <= seg.2 /\ blen (segment_bytes mem seg) = seg.2) segs ->
  gather_segments mem segs n = take (Z.to_nat n) (concat (map (segment_bytes mem) segs)).
Proof.
  revert n. induction segs as [|[off len] segs IH]; intros n Hf; [symmetry; apply take_nil|].
  apply Forall_cons in Hf as [[H0 Hl] Hf]. simpl in H0, Hl. cbn [gather_segments map concat].
  destruct (Z.leb_spec n 0); [by replace (Z.to_nat n) with 0%nat by lia|]. rewrite IH by done.
  unfold segment_bytes in *. simpl in *. unfold blen in Hl. rewrite length_take, length_drop in Hl.
  destruct (Z.le_ge_cases len n).
  - rewrite Z.min_l by done. rewrite take_app_ge by (rewrite length_take, length_drop; lia).
    rewrite length_take, length_drop. do 2 f_equal. lia.
  - rewrite Z.min_r by done. rewrite Z.sub_diag, take_0, app_nil_r.
    rewrite take_app_le by (rewrite length_take, length_drop; lia). rewrite take_take. f_equal. lia.
Qed.

Lemma segments_sound mem index n :
  0 <= index < blen mem -> 0 <= n <= blen mem ->
  Forall (fun seg => 0 <= seg.2 /\ blen (segment_bytes mem seg) = seg.2) (segments n index (blen mem)).
Proof.
  intros Hi Hn. unfold segments, segment_bytes. repeat constructor; simpl; try lia.
  - unfold blen in *. rewrite length_take, length_drop. lia.
  - destruct (_ =? 0); [constructor|]. repeat constructor; simpl; try lia.
    unfold blen in *. rewrite length_take, length_drop. lia.
Qed.

Lemma v_read_concat b : v_ok b -> concat (map (segment_bytes (v_buffer b)) (readSegments b)) = v_view b.
Proof.
  intros Hok. pose proof Hok as (Hs & _). unfold readSegments, v_view.
  destruct (Z.eqb_spec (v_size b) 0) as [->|E]; [done|].
  apply segments_read; [by apply (ring_read_lt _ _ _ _ Hok); lia|lia].
Qed.

Lemma v_try_read_view b n :
  v_ok b -> 0 <= n ->
  exists b', v_tryReadBatch n b = (take (Z.to_nat n) (v_view b), b') /\ v_ok b' /\
    v_capacity b' = v_capacity b /\ v_view b' = drop (Z.to_nat n) (v_view b).
Proof.
  intros Hok Hn. pose proof Hok as (Hs & _). pose proof (v_view_blen b Hok) as Hl. unfold v_tryReadBatch.
  destruct (Z.eqb_spec n 0) as [->|E]; [exists b; rewrite take_0, drop_0; by split_and!|].
  destruct (Z.eqb_spec (v_size b) 0) as [E'|E']; cbn [orb].
  { assert (v_view b = []) as Hv by (apply nil_length_inv; unfold blen in Hl; lia).
    exists b. rewrite Hv, take_nil, drop_nil. by split_and!. }
  rewrite gather_segments_spec.
  2: { unfold readSegments. rewrite (proj2 (Z.eqb_neq _ _)) by done.
       apply segments_sound; [by apply (ring_read_lt _ _ _ _ Hok); lia|lia]. }
  rewrite v_read_concat, <- Hl, Z.min_comm, take_take_blen by done.
  set (d := take (Z.to_nat n) (v_view b)). destruct (v_consume_view b (blen d) Hok (blen_nonneg d)) as (H1 & H2 & H3).
  exists (v_consume (blen d) b). split_and!; [done|done|done|]. rewrite H3. unfold d, blen.
  rewrite length_take, Nat2Z.id. destruct (Nat.le_ge_cases (Z.to_nat n) (length (v_view b))).
  - by rewrite Nat.min_l.
  - by rewrite Nat.min_r, !drop_ge.
Qed.

Lemma segment_bytes_ne mem off len :
  0 <= off -> 0 < len -> off + len <= blen mem -> segment_bytes mem (off, len) <> [].
Proof.
  intros Ho Hl Hb E. apply (f_equal length) in E. unfold segment_bytes in E. cbn [fst snd] in E.
  rewrite length_take, length_drop in E. unfold blen in Hb. cbn in E. lia.
Qed.

Lemma v_read_shape (b : VectorRingBufferImpl) :
  v_ok b -> (length (rb_read_iovecs b) <= 2)%nat /\ Forall (fun iov => iov <> []) (rb_read_iovecs b).
Proof.
  intros Hok. pose proof (ring_read_lt _ _ _ _ Hok) as Hr. pose proof Hok as (Hs & _).
  cbn [rb_read_iovecs vector_ring]. unfold readSegments, segments, v_capacity.
  destruct (Z.eqb_spec (v_size b) 0) as [E|E]; [split; [cbn; lia|constructor]|].
  specialize (Hr ltac:(lia)). remember (Z.min (v_size b) (blen (v_buffer b) - v_readIndex b)) as first eqn:Ef.
  destruct (Z.eqb_spec (v_size b - first) 0); (split; [cbn; lia|]); cbn [map];
    repeat (constructor; [apply segment_bytes_ne; lia|]); constructor.
Qed.

#[export] Instance vector_ring_laws : ByteRingLaws VectorRingBufferImpl.
Proof.
  refine {| rb_ok := v_ok; rb_view := v_view; rb_receive_view := v_receive_view;
    rb_try_write_view := v_try_write_view; rb_try_read_view := v_try_read_view;
    rb_consume_view := v_consume_view; rb_read_concat := v_read_concat; rb_read_shape := v_read_shape;
    rb_bounded := _; rb_readable_view := _; rb_writable_view := _; rb_read_empty := _;
    rb_write_total := _; rb_clear_view := _ |}.
  - intros b Hok. rewrite v_view_blen by done. apply Hok.
  - intros b Hok. by rewrite v_view_blen.
  - intros b Hok. by rewrite v_view_blen.
  - intros b Hok. pose proof Hok as (Hs & _). pose proof (v_view_blen b Hok) as Hl.
    cbn [rb_read_iovecs vector_ring]. unfold readSegments, segments. destruct (Z.eqb_spec (v_size b) 0) as [E|E].
    + split; [|done]. intros _. apply nil_length_inv. unfold blen in Hl. lia.
    + split; [done|]. intros Hv. rewrite Hv in Hl. unfold blen in Hl. simpl in Hl. lia.
  - intros b Hok. pose proof Hok as (Hs & _). rewrite v_view_blen by done.
    cbn [rb_write_iovecs rb_capacity vector_ring]. unfold writeSegments, segments, v_writable.
    destruct (Z.eqb_spec (v_size b) (v_capacity b)) as [E|E]; [simpl; split; [lia|done]|].
    split; [|split; [done|lia]]. case_match; cbn; lia.
  - intros b Hok. split_and!; [apply ring_ok_empty|done|done].
Defined.

(** ** The doubly mapped region *)

Definition m_ok (b : MmapRingBufferImpl) : Prop :=
  ring_ok (m_region b) (m_readIndex b) (m_writeIndex b) (m_size b).
Definition m_view (b : MmapRingBufferImpl) : bytes :=
  mapped_read (m_region b) (m_readIndex b) (m_size b).

(** Both implementations keep the same indices: a vector with the same memory. *)
Definition as_vector (b : MmapRingBufferImpl) : VectorRingBufferImpl :=
  mkVector (m_region b) (m_readIndex b) (m_writeIndex b) (m_size b).

Lemma m_consume_vector b n :
  m_ok b -> 0 <= n -> as_vector (m_consume n b) = v_consume n (as_vector b).
Proof.
  intros (Hs & H0 & Hr) Hn. unfold m_consume, v_consume, as_vector, m_capacity, v_capacity.
  cbn [v_buffer v_readIndex v_writeIndex v_size].
  destruct (Z.eqb_spec n 0); [done|]. destruct (Z.eqb_spec (blen (m_region b)) 0); [done|]. cbn [orb].
  destruct (_ =? 0); [done|]. cbn [m_region m_readIndex m_writeIndex m_size].
  by rewrite wrap_index by lia.
Qed.

Lemma m_produce_vector b n :
  m_ok b -> 0 <= n -> as_vector (m_produce n b) = v_produce n (as_vector b).
Proof.
  intros (Hs & H0 & Hr) Hn. unfold m_produce, v_produce, as_vector, m_writable, v_writable, m_capacity, v_capacity.
  cbn [v_buffer v_readIndex v_writeIndex v_size].
  destruct (Z.eqb_spec n 0); [done|]. destruct (Z.eqb_spec (blen (m_region b)) 0); [done|]. cbn [orb].
  cbn [m_region m_readIndex m_writeIndex m_size]. by rewrite wrap_index by lia.
Qed.

Lemma m_receive_vector b data :
  m_ok b -> as_vector (rb_receive data b) = rb_receive data (as_vector b).
Proof.
  intros Hok. pose proof Hok as (Hs & H0 & Hr). cbn [rb_receive mmap_ring vector_ring].
  set (mem := if m_size b =? m_capacity b then _ else _).
  assert (mem = fill_segments (v_buffer (as_vector b)) (writeSegments (as_vector b)) data) as Hmem.
  { unfold mem, writeSegments, v_writable, m_writable, v_capacity, m_capacity, as_vector.
    cbn [v_buffer v_readIndex v_writeIndex v_size].
    destruct (Z.eqb_spec (m_size b) (blen (m_region b))); [done|].
    symmetry. apply segments_write; [apply Hr|]; lia. }
  rewrite m_produce_vector; [by rewrite <- Hmem| |apply blen_nonneg].
  assert (blen mem = blen (m_region b)) as Hb by (unfold mem; case_match; rewrite ?blen_mapped_write; done).
  unfold m_ok, ring_ok, with_region. cbn [m_region m_readIndex m_writeIndex m_size]. by rewrite Hb.
Qed.

Lemma m_receive_view b data :
  m_ok b -> let b' := rb_receive data b in
  m_ok b' /\ m_capacity b' = m_capacity b /\
  m_view b' = m_view b ++ take (Z.to_nat (m_capacity b - blen (m_view b))) data.
Proof.
  intros Hok. pose proof (v_receive_view (as_vector b) data Hok) as Hv.
  rewrite <- m_receive_vector in Hv by done. exact Hv.
Qed.

Lemma m_consume_view b n :
  m_ok b -> 0 <= n ->
  m_ok (m_consume n b) /\ m_capacity (m_consume n b) = m_capacity b /\
  m_view (m_consume n b) = drop (Z.to_nat n) (m_view b).
Proof.
  intros Hok Hn. pose proof (v_consume_view (as_vector b) n Hok Hn) as Hv.
  rewrite <- m_consume_vector in Hv by done. exact Hv.
Qed.

Lemma m_view_blen b : m_ok b -> blen (m_view b) = m_size b.
Proof. exact (v_view_blen (as_vector b)). Qed.

Lemma m_try_write_view b data :
  m_ok b -> let n := Z.min (blen data) (m_capacity b - blen (m_view b)) in
  exists b', m_tryWriteBatch data b = (n, b') /\ m_ok b' /\ m_capacity b' = m_capacity b /\
    m_view b' = m_view b ++ take (Z.to_nat n) data.
Proof.
  intros Hok n. pose proof (m_view_blen b Hok) as Hl. unfold n. rewrite Hl. clear n.
  pose proof Hok as (Hs & _). pose proof (blen_nonneg data). unfold m_tryWriteBatch, m_writable.
  destruct (Z.eqb_spec (blen data) 0) as [E|E];
    [|destruct (Z.eqb_spec (m_size b) (m_capacity b)) as [E'|E']]; cbn [orb].
  - exists b. rewrite Z.min_l by (unfold m_capacity; lia). rewrite E, app_nil_r. by split_and!.
  - exists b. rewrite E', Z.sub_diag, Z.min_r, app_nil_r by lia. by split_and!.
  - set (n := Z.min (blen data) (m_capacity b - m_size b)). set (d := take (Z.to_nat n) data).
    destruct (m_receive_view b d Hok) as (H1 & H2 & H3).
    assert (blen d = n) as Hd by (unfold d, n, blen, m_capacity, blen in *; rewrite length_take; lia).
    assert (take (Z.to_nat (m_capacity b - m_size b)) d = d) as Ht
      by (apply take_ge; unfold d; rewrite length_take; lia).
    cbn [rb_receive mmap_ring] in H1, H2, H3. unfold m_writable in H1, H2, H3.
    rewrite (proj2 (Z.eqb_neq _ _)), Hd, Ht in H1, H2, H3 by done. rewrite Hl, Ht in H3.
    by eexists.
Qed.

Lemma m_try_read_view b n :
  m_ok b -> 0 <= n ->
  exists b', m_tryReadBatch n b = (take (Z.to_nat n) (m_view b), b') /\ m_ok b' /\
    m_capacity b' = m_capacity b /\ m_view b' = drop (Z.to_nat n) (m_view b).
Proof.
  intros Hok Hn. pose proof Hok as (Hs & _). pose proof (m_view_blen b Hok) as Hl. unfold m_tryReadBatch.
  destruct (Z.eqb_spec n 0) as [->|E]; [exists b; rewrite take_0, drop_0; by split_and!|].
  destruct (Z.eqb_spec (m_size b) 0) as [E'|E']; cbn [orb].
  { assert (m_view b = []) as Hv by (apply nil_length_inv; unfold blen in Hl; lia).
    exists b. rewrite Hv, take_nil, drop_nil. by split_and!. }
  destruct (m_consume_view b (Z.min n (m_size b)) Hok ltac:(lia)) as (H1 & H2 & H3).
  eexists. split_and!; [| |exact H2|].
  - f_equal. rewrite <- (mapped_read_take (m_region b) (m_readIndex b) (m_size b)) by lia.
    fold (m_view b). rewrite <- Hl, Z.min_comm. by apply take_take_blen.
  - exact H1.
  - rewrite H3. destruct (Z.le_ge_cases n (m_size b)); [by rewrite Z.min_l by done|].
    rewrite Z.min_r by done. unfold blen in Hl. by rewrite !drop_ge by lia.
Qed.

#[export] Instance mmap_ring_laws : ByteRingLaws MmapRingBufferImpl.
Proof.
  refine {| rb_ok := m_ok; rb_view := m_view; rb_receive_view := m_receive_view;
    rb_try_write_view := m_try_write_view; rb_try_read_view := m_try_read_view;
    rb_consume_view := m_consume_view; rb_read_shape := _;
    rb_bounded := _; rb_readable_view := _; rb_writable_view := _; rb_read_concat := _;
    rb_read_empty := _; rb_write_total := _; rb_clear_view := _ |}.
  - intros b Hok. rewrite m_view_blen by done. apply Hok.
  - intros b Hok. by rewrite m_view_blen.
  - intros b Hok. by rewrite m_view_blen.
  - intros b Hok. cbn [rb_read_iovecs mmap_ring]. unfold m_view.
    destruct (Z.eqb_spec (m_size b) 0) as [->|]; [done|]. apply app_nil_r.
  - intros b Hok. pose proof (m_view_blen b Hok) as Hl. cbn [rb_read_iovecs mmap_ring].
    destruct (Z.eqb_spec (m_size b) 0) as [E|E].
    + split; [|done]. intros _. apply nil_length_inv. unfold blen in Hl. lia.
    + split; [done|]. intros Hv. rewrite Hv in Hl. unfold blen in Hl. simpl in Hl. lia.
  - intros b Hok. pose proof (m_view_blen b Hok) as Hl. cbn [rb_read_iovecs mmap_ring].
    destruct (Z.eqb_spec (m_size b) 0) as [E|E]; (split; [cbn; lia|]); constructor; [|constructor].
    fold (m_view b). intros Hv. rewrite Hv, blen_nil in Hl. lia.
  - intros b Hok. rewrite m_view_blen by done. cbn [rb_write_iovecs rb_capacity mmap_ring]. unfold m_writable.
    destruct (Z.eqb_spec (m_size b) (m_capacity b)) as [E|E]; simpl; (split; [lia|]); split; (done || lia).
  - intros b Hok. split_and!; [apply ring_ok_empty|done|done].
Defined.

(** ** A bounded queue of octets *)

(** The calls made on a ring, and what they give back. *)
Inductive ring_op : Type :=
| Receive (data : bytes)
| TryWrite (data : bytes)
| TryRead (n : Z)
| Consume (n : Z)
| ClearRing.

Inductive ring_answer : Type := Done | Wrote (n : Z) | ReadOctets (data : bytes).

Definition ring_step {B} `{ByteRing B} (op : ring_op) (b : B) : ring_answer * B :=
  match op with
  | Receive data => (Done, rb_receive data b)
  | TryWrite data => let '(n, b) := rb_try_write data b in (Wrote n, b)
  | TryRead n => let '(data, b) := rb_try_read n b in (ReadOctets data, b)
  | Consume n => (Done, rb_consume n b)
  | ClearRing => (Done, rb_clear b)
  end.

Definition queue_step (cap : Z) (op : ring_op) (q : bytes) : ring_answer * bytes :=
  let room := Z.to_nat (cap - blen q) in
  match op with
  | Receive data => (Done, q ++ take room data)
  | TryWrite data => (Wrote (blen (take room data)), q ++ take room data)
  | TryRead n => (ReadOctets (take (Z.to_nat n) q), drop (Z.to_nat n) q)
  | Consume n => (Done, drop (Z.to_nat n) q)
  | ClearRing => (Done, [])
  end.

Fixpoint run {S} (step : ring_op -> S -> ring_answer * S) (ops : list ring_op) (s : S) :
    list ring_answer * S :=
  match ops with
  | [] => ([], s)
  | op :: ops =>
      let '(a, s) := step op s in
      let '(l, s) := run step ops s in (a :: l, s)
  end.

(** Lengths are [size_t]. *)
Definition op_sized (op : ring_op) : Prop :=
  match op with TryRead n | Consume n => 0 <= n | _ => True end.

Section Refinement.
Context {B : Type} `{ByteRing B} {laws : ByteRingLaws B}.

Lemma ring_step_refines op (b : B) :
  rb_ok b -> op_sized op ->
  let '(a, b') := ring_step op b in
  rb_ok b' /\ rb_capacity b' = rb_capacity b /\
  queue_step (rb_capacity b) op (rb_view b) = (a, rb_view b').
Proof.
  intros Hok Hop. pose proof (rb_bounded b Hok) as Hb. destruct op as [data|data|n|n|]; cbn [ring_step queue_step].
  - destruct (rb_receive_view b data Hok) as (? & ? & ->). by split_and!.
  - destruct (rb_try_write_view b data Hok) as (b' & -> & ? & ? & ->).
    rewrite take_take_blen by lia. split_and!; [done|done|]. do 2 f_equal.
    unfold blen in *. rewrite length_take. lia.
  - destruct (rb_try_read_view b n Hok Hop) as (b' & -> & ? & ? & ->). by split_and!.
  - destruct (rb_consume_view b n Hok Hop) as (? & ? & ->). by split_and!.
  - destruct (rb_clear_view b Hok) as (? & ? & ->). by split_and!.
Qed.

Lemma run_refines ops (b : B) :
  rb_ok b -> Forall op_sized ops ->
  let '(l, b') := run ring_step ops b in
  rb_ok b' /\ rb_capacity b' = rb_capacity b /\
  run (queue_step (rb_capacity b)) ops (rb_view b) = (l, rb_view b').
Proof.
  revert b. induction ops as [|op ops IH]; intros b Hok Hops; [by split_and!|].
  apply Forall_cons in Hops as [Hop Hops]. cbn [run].
  pose proof (ring_step_refines op b Hok Hop) as Hs. destruct (ring_step op b) as [a b1].
  destruct Hs as (Hok1 & Hc1 & ->). pose proof (IH b1 Hok1 Hops) as Hr.
  destruct (run ring_step ops b1) as [l b2]. destruct Hr as (? & ? & Hr).
  rewrite Hc1 in *. by rewrite Hr.
Qed.
End Refinement.

(** A new ring: [m_buffer(capacity)], and a fresh mapping. *)
Definition new_vector (capacity : Z) : VectorRingBufferImpl :=
  mkVector (replicate (Z.to_nat capacity) (z2b 0)) 0 0 0.
Definition new_mmap (capacity : Z) : MmapRingBufferImpl :=
  mkMmap (replicate (Z.to_nat capacity) (z2b 0)) 0 0 0.

(** C34: both ring buffers are a bounded queue of octets: on every sequence of calls they return what
    the queue returns, and the buffers they then show concatenate to the queue's contents. *)
Theorem rings_refine_queue capacity ops :
  0 <= capacity -> Forall op_sized ops ->
  let queue := run (queue_step capacity) ops [] in
  let vector := run ring_step ops (new_vector capacity) in
  let mmap := run ring_step ops (new_mmap capacity) in
  (vector.1 = queue.1 /\ concat (rb_read_iovecs vector.2) = queue.2 /\
   rb_readable vector.2 = blen queue.2 /\
   foldr Z.add 0 (rb_write_iovecs vector.2) = capacity - blen queue.2) /\
  (mmap.1 = queue.1 /\ concat (rb_read_iovecs mmap.2) = queue.2 /\
   rb_readable mmap.2 = blen queue.2 /\
   foldr Z.add 0 (rb_write_iovecs mmap.2) = capacity - blen queue.2).
Proof.
  intros Hc Hops queue vector mmap.
  assert (forall B (R : ByteRing B) (L : ByteRingLaws B) (b : B), rb_ok b -> rb_capacity b = capacity ->
    rb_view b = [] -> let r := run ring_step ops b in
    r.1 = queue.1 /\ concat (rb_read_iovecs r.2) = queue.2 /\ rb_readable r.2 = blen queue.2 /\
    foldr Z.add 0 (rb_write_iovecs r.2) = capacity - blen queue.2) as Hall.
  { intros B R L b Hok Hcap Hv r. pose proof (run_refines ops b Hok Hops) as Hr. unfold queue.
    subst r. destruct (run ring_step ops b) as [l b']. destruct Hr as (Hok' & Hcap' & Hr).
    rewrite Hcap, Hv in Hr. rewrite Hr. simpl. rewrite <- Hcap, <- Hcap'.
    split_and!; [done|by apply rb_read_concat|by apply rb_readable_view|by apply rb_write_total]. }
  assert (blen (replicate (Z.to_nat capacity) (z2b 0)) = capacity) as Hl by (rewrite blen_replicate; lia).
  split; [apply (Hall _ _ vector_ring_laws)|apply (Hall _ _ mmap_ring_laws)];
    (apply ring_ok_empty || exact Hl || done).
Qed.

Lemma rings_refine_queue_witness :
  let ops := [Receive (bs "abcdef"); Consume 4; TryWrite (bs "ghijklmn"); TryRead 3; Receive (bs "xyz")] in
  (run ring_step ops (new_vector 8)).1 = [Done; Done; Wrote 6; ReadOctets (bs "efg"); Done] /\
  concat (rb_read_iovecs (run ring_step ops (new_vector 8)).2) = bs "hijklxyz".
Proof.
  intros ops. destruct (rings_refine_queue 8 ops) as [(H1 & H2 & _) _]; [lia|by repeat constructor|].
  split; [rewrite H1|rewrite H2]; vm_compute; reflexivity.
Defined.
