(* ===== verification/WsPayload.v ===== *)
(** * WebSocket payloads: masking and UTF-8

    The payload routines of [galay-ws/protoc/ws_frame.cc]: [applyMaskBytes] in its blocks of 16, 8,
    4 and 1 octets, and the UTF-8 validators on plain and on masked data, each with its SIMD
    prologue.  [simd] stands for the preprocessor choice between the SSE2 or NEON code, which do
    the same, and the portable code. *)

From Stdlib Require Import ZArith Lia.
From stdpp Require Import base list strings.
From S2P Require Import Prelude.

Open Scope Z_scope.

(** ** Masking *)

Definition xor_byte (a b : byte) : byte := z2b (Z.lxor (b2z a) (b2z b)).

(** [masking_key[i % 4]] *)
Definition key_at (key : bytes) (i : Z) : byte := nth (Z.to_nat (i mod 4)) key (z2b 0).

(** [for (; i + n <= len; i += n)]: whole blocks of [n] octets, loaded, xored with the mask and
    stored back; the octets done and the octets left. *)
Fixpoint mask_blocks (fuel : nat) (n : Z) (mask data : bytes) : bytes * bytes :=
  match fuel with
  | O => ([], data)
  | S fuel =>
      if n <=? blen data then
        let chunk := take (Z.to_nat n) data in
        let '(done, rest) := mask_blocks fuel n mask (drop (Z.to_nat n) data) in
        (zip_with xor_byte chunk mask ++ done, rest)
      else ([], data)
  end.

(** [mask_array[j] = masking_key[j % 4]] for [j < n] *)
Definition mask_array (key : bytes) (n : nat) : bytes :=
  map (fun j => key_at key (Z.of_nat j)) (seq 0 n).

(** [for (; i < len; ++i) ptr[i] ^= masking_key[i % 4];] *)
Fixpoint mask_bytes (key : bytes) (i : Z) (data : bytes) : bytes :=
  match data with
  | [] => []
  | b :: data => xor_byte b (key_at key i) :: mask_bytes key (i + 1) data
  end.

Definition applyMaskBytes (simd : bool) (key data : bytes) : bytes :=
  let '(d16, rest) :=
    if simd && (16 <=? blen data) then mask_blocks (length data) 16 (mask_array key 16) data
    else ([], data) in
  let '(d8, rest) :=
    if 8 <=? blen rest then mask_blocks (length rest) 8 (key ++ key) rest else ([], rest) in
  let '(d4, rest) := if 4 <=? blen rest then mask_blocks 1 4 key rest else ([], rest) in
  d16 ++ d8 ++ d4 ++ mask_bytes key (blen d16 + blen d8 + blen d4) rest.

(** ** UTF-8 *)

(** The code points the multi-octet branches assemble. *)
Definition codepoint2 (b1 b2 : byte) : Z :=
  Z.lor (Z.shiftl (Z.land (b2z b1) 0x1F) 6) (Z.land (b2z b2) 0x3F).
Definition codepoint3 (b1 b2 b3 : byte) : Z :=
  Z.lor (Z.lor (Z.shiftl (Z.land (b2z b1) 0x0F) 12) (Z.shiftl (Z.land (b2z b2) 0x3F) 6))
        (Z.land (b2z b3) 0x3F).
Definition codepoint4 (b1 b2 b3 b4 : byte) : Z :=
  Z.lor (Z.lor (Z.lor (Z.shiftl (Z.land (b2z b1) 0x07) 18) (Z.shiftl (Z.land (b2z b2) 0x3F) 12))
               (Z.shiftl (Z.land (b2z b3) 0x3F) 6)) (Z.land (b2z b4) 0x3F).

Definition is_continuation (b : byte) : bool := Z.land (b2z b) 0xC0 =? 0x80.

(** The scalar loop of [isValidUtf8Bytes]. *)
Fixpoint utf8_loop (data : bytes) : bool :=
  match data with
  | [] => true
  | b1 :: rest =>
      if b2z b1 <=? 0x7F then utf8_loop rest
      else if Z.land (b2z b1) 0xE0 =? 0xC0 then
        match rest with
        | b2 :: rest =>
            if negb (is_continuation b2) then false
            else if codepoint2 b1 b2 <? 0x80 then false
            else utf8_loop rest
        | _ => false
        end
      else if Z.land (b2z b1) 0xF0 =? 0xE0 then
        match rest with
        | b2 :: b3 :: rest =>
            if negb (is_continuation b2) then false
            else if negb (is_continuation b3) then false
            else
              let codepoint := codepoint3 b1 b2 b3 in
              if codepoint <? 0x800 then false
              else if (0xD800 <=? codepoint) && (codepoint <=? 0xDFFF) then false
              else utf8_loop rest
        | _ => false
        end
      else if Z.land (b2z b1) 0xF8 =? 0xF0 then
        match rest with
        | b2 :: b3 :: b4 :: rest =>
            if negb (is_continuation b2) then false
            else if negb (is_continuation b3) then false
            else if negb (is_continuation b4) then false
            else
              let codepoint := codepoint4 b1 b2 b3 b4 in
              if codepoint <? 0x10000 then false
              else if 0x10FFFF <? codepoint then false
              else utf8_loop rest
        | _ => false
        end
      else false
  end.

(** The SIMD prologue: blocks of 16 octets are skipped while none has its high bit set. *)
Fixpoint skip_ascii (fuel : nat) (data : bytes) : bytes :=
  match fuel with
  | O => data
  | S fuel =>
      if 16 <=? blen data then
        if forallb (fun b => Z.land (b2z b) 0x80 =? 0) (take 16 data)
        then skip_ascii fuel (drop 16 data)
        else data
      else data
  end.

Definition isValidUtf8Bytes (simd : bool) (data : bytes) : bool :=
  utf8_loop (if simd then skip_ascii (length data) data else data).

(** [isValidUtf8MaskedBytes]: the same over [masked(i) = ptr[i] ^ masking_key[i % 4]]. *)
Fixpoint utf8_masked_loop (key : bytes) (i : Z) (data : bytes) : bool :=
  match data with
  | [] => true
  | p1 :: rest =>
      let b1 := xor_byte p1 (key_at key i) in
      if b2z b1 <=? 0x7F then utf8_masked_loop key (i + 1) rest
      else if Z.land (b2z b1) 0xE0 =? 0xC0 then
        match rest with
        | p2 :: rest =>
            let b2 := xor_byte p2 (key_at key (i + 1)) in
            if negb (is_continuation b2) then false
            else if codepoint2 b1 b2 <? 0x80 then false
            else utf8_masked_loop key (i + 2) rest
        | _ => false
        end
      else if Z.land (b2z b1) 0xF0 =? 0xE0 then
        match rest with
        | p2 :: p3 :: rest =>
            let b2 := xor_byte p2 (key_at key (i + 1)) in
            let b3 := xor_byte p3 (key_at key (i + 2)) in
            if negb (is_continuation b2) then false
            else if negb (is_continuation b3) then false
            else
              let codepoint := codepoint3 b1 b2 b3 in
              if codepoint <? 0x800 then false
              else if (0xD800 <=? codepoint) && (codepoint <=? 0xDFFF) then false
              else utf8_masked_loop key (i + 3) rest
        | _ => false
        end
      else if Z.land (b2z b1) 0xF8 =? 0xF0 then
        match rest with
        | p2 :: p3 :: p4 :: rest =>
            let b2 := xor_byte p2 (key_at key (i + 1)) in
            let b3 := xor_byte p3 (key_at key (i + 2)) in
            let b4 := xor_byte p4 (key_at key (i + 3)) in
            if negb (is_continuation b2) then false
            else if negb (is_continuation b3) then false
            else if negb (is_continuation b4) then false
            else
              let codepoint := codepoint4 b1 b2 b3 b4 in
              if (codepoint <? 0x10000) || (0x10FFFF <? codepoint) then false
              else utf8_masked_loop key (i + 4) rest
        | _ => false
        end
      else false
  end.

Fixpoint skip_ascii_masked (fuel : nat) (key : bytes) (i : Z) (data : bytes) : Z * bytes :=
  match fuel with
  | O => (i, data)
  | S fuel =>
      if 16 <=? blen data then
        if forallb (fun b => Z.land (b2z b) 0x80 =? 0)
             (zip_with xor_byte (take 16 data) (mask_array key 16))
        then skip_ascii_masked fuel key (i + 16) (drop 16 data)
        else (i, data)
      else (i, data)
  end.

Definition isValidUtf8MaskedBytes (simd : bool) (data key : bytes) : bool :=
  let '(i, rest) := if simd then skip_ascii_masked (length data) key 0 data else (0, data) in
  utf8_masked_loop key i rest.

(** ** Masking is octet-wise exclusive or *)

Lemma key_at_period key i k : key_at key (i + 4 * k) = key_at key i.
Proof. unfold key_at. rewrite Z.mul_comm, Z.mod_add by lia. done. Qed.

Lemma mask_bytes_period key i k data : mask_bytes key (i + 4 * k) data = mask_bytes key i data.
Proof.
  revert i. induction data as [|b data IH]; intros i; simpl; [done|].
  rewrite key_at_period. replace (i + 4 * k + 1) with (i + 1 + 4 * k) by lia. by rewrite IH.
Qed.

Lemma mask_bytes_app key i a b :
  mask_bytes key i (a ++ b) = mask_bytes key i a ++ mask_bytes key (i + blen a) b.
Proof.
  revert i. induction a as [|x a IH]; intros i; simpl.
  - by rewrite blen_nil, Z.add_0_r.
  - rewrite IH, blen_cons. do 3 f_equal. lia.
Qed.

Lemma length_mask_bytes key i data : length (mask_bytes key i data) = length data.
Proof. revert i. induction data; intros i; simpl; [done|]. by rewrite IHdata. Qed.

Lemma zip_mask_array key chunk i :
  zip_with xor_byte chunk (map (fun j => key_at key (Z.of_nat j)) (seq i (length chunk))) =
  mask_bytes key (Z.of_nat i) chunk.
Proof.
  revert i. induction chunk as [|b chunk IH]; intros i; simpl; [done|].
  rewrite IH. do 2 f_equal. lia.
Qed.

Lemma mask_array_key key : length key = 4%nat -> mask_array key 4 = key.
Proof. by destruct key as [|? [|? [|? [|? []]]]]. Qed.

Lemma mask_array_key2 key : length key = 4%nat -> mask_array key 8 = key ++ key.
Proof. by destruct key as [|? [|? [|? [|? []]]]]. Qed.

(** Blocks whose size is a multiple of four. *)
Lemma mask_blocks_spec fuel key n data :
  (n mod 4 = 0)%nat -> (0 < n)%nat ->
  let '(done, rest) := mask_blocks fuel (Z.of_nat n) (mask_array key n) data in
  exists pre, data = pre ++ rest /\ done = mask_bytes key 0 pre /\ (length pre mod 4 = 0)%nat.
Proof.
  intros Hn Hpos. revert data. induction fuel as [|fuel IH]; intros data; cbn [mask_blocks].
  { exists []. by split_and!. }
  destruct (Z.leb_spec (Z.of_nat n) (blen data)) as [Hle|Hlt]; unfold blen in *.
  2: { exists []. by split_and!. }
  rewrite Nat2Z.id. specialize (IH (drop n data)).
  destruct (mask_blocks fuel (Z.of_nat n) (mask_array key n) (drop n data)) as [done rest].
  destruct IH as (pre & Ed & Edone & Hm). exists (take n data ++ pre).
  assert (length (take n data) = n) as Ht by (rewrite length_take; lia).
  split_and!.
  - by rewrite <- app_assoc, <- Ed, take_drop.
  - rewrite mask_bytes_app, Edone. f_equal.
    + unfold mask_array. rewrite <- Ht at 2. apply (zip_mask_array key _ 0).
    + symmetry. rewrite Z.add_0_l. unfold blen. rewrite Ht.
      rewrite (Nat.div_mod_eq n 4), Hn, Nat.add_0_r, Nat2Z.inj_mul.
      apply (mask_bytes_period key 0).
  - rewrite length_app, Ht, Nat.Div0.add_mod, Hn, Hm. done.
Qed.

Lemma mask_blocks_result fuel key n mask data :
  (n mod 4 = 0)%nat -> (0 < n)%nat -> mask = mask_array key n ->
  forall done rest, mask_blocks fuel (Z.of_nat n) mask data = (done, rest) ->
  done ++ mask_bytes key 0 rest = mask_bytes key 0 data /\
  exists k, blen done = 4 * k.
Proof.
  intros Hn Hpos -> done rest E. pose proof (mask_blocks_spec fuel key n data Hn Hpos) as Hs.
  rewrite E in Hs. destruct Hs as (pre & -> & -> & Hm).
  assert (blen pre = 4 * Z.of_nat (length pre / 4)) as Hp.
  { unfold blen. rewrite (Nat.div_mod_eq (length pre) 4) at 1. rewrite Hm. lia. }
  split.
  - rewrite mask_bytes_app. f_equal. rewrite Hp. symmetry. apply (mask_bytes_period key 0).
  - exists (Z.of_nat (length pre / 4)). unfold blen. rewrite length_mask_bytes. exact Hp.
Qed.

Lemma applyMaskBytes_bytewise simd key data :
  length key = 4%nat -> applyMaskBytes simd key data = mask_bytes key 0 data.
Proof.
  intros Hk. unfold applyMaskBytes.
  destruct (if simd && (16 <=? blen data) then _ else _) as [d16 r16] eqn:E16.
  assert (d16 ++ mask_bytes key 0 r16 = mask_bytes key 0 data /\ exists k, blen d16 = 4 * k)
    as [H16 [k16 K16]].
  { destruct (simd && _); [|simplify_eq; split; [done|by exists 0]].
    eapply (mask_blocks_result _ key 16); [done|lia|done|exact E16]. }
  destruct (if 8 <=? blen r16 then _ else _) as [d8 r8] eqn:E8.
  assert (d8 ++ mask_bytes key 0 r8 = mask_bytes key 0 r16 /\ exists k, blen d8 = 4 * k)
    as [H8 [k8 K8]].
  { destruct (8 <=? blen r16); [|simplify_eq; split; [done|by exists 0]].
    eapply (mask_blocks_result _ key 8); [done|lia|by symmetry; apply mask_array_key2|exact E8]. }
  destruct (if 4 <=? blen r8 then _ else _) as [d4 r4] eqn:E4.
  assert (d4 ++ mask_bytes key 0 r4 = mask_bytes key 0 r8 /\ exists k, blen d4 = 4 * k)
    as [H4 [k4 K4]].
  { destruct (4 <=? blen r8); [|simplify_eq; split; [done|by exists 0]].
    eapply (mask_blocks_result 1 key 4); [done|lia|by symmetry; apply mask_array_key|exact E4]. }
  rewrite <- H16, <- H8, <- H4, K16, K8, K4. do 3 f_equal.
  replace (4 * k16 + 4 * k8 + 4 * k4) with (0 + 4 * (k16 + k8 + k4)) by lia.
  apply mask_bytes_period.
Qed.

Lemma xor_byte_involutive a k : xor_byte (xor_byte a k) k = a.
Proof.
  unfold xor_byte. rewrite b2z_z2b_small by (apply lxor_octet; apply b2z_range).
  rewrite Z.lxor_assoc, Z.lxor_nilpotent, Z.lxor_0_r. apply z2b_b2z.
Qed.

Lemma mask_bytes_involutive key i data : mask_bytes key i (mask_bytes key i data) = data.
Proof.
  revert i. induction data as [|b data IH]; intros i; simpl; [done|].
  by rewrite xor_byte_involutive, IH.
Qed.

(** ** The validator accepts exactly UTF-8 *)

(** A Unicode scalar value and its encoding (RFC 3629). *)
Definition scalar_value (cp : Z) : Prop := 0 <= cp <= 0x10FFFF /\ ~ 0xD800 <= cp <= 0xDFFF.

Definition utf8_encode (cp : Z) : bytes :=
  if cp <? 0x80 then [z2b cp]
  else if cp <? 0x800 then [z2b (0xC0 + cp / 64); z2b (0x80 + cp mod 64)]
  else if cp <? 0x10000 then
    [z2b (0xE0 + cp / 4096); z2b (0x80 + cp / 64 mod 64); z2b (0x80 + cp mod 64)]
  else
    [z2b (0xF0 + cp / 262144); z2b (0x80 + cp / 4096 mod 64); z2b (0x80 + cp / 64 mod 64);
     z2b (0x80 + cp mod 64)].

Definition is_utf8 (data : bytes) : Prop :=
  exists cps, Forall scalar_value cps /\ data = concat (map utf8_encode cps).

(** Bit tests and masks of the validator as ranges and remainders. *)
Lemma test_2 b : (Z.land (b2z b) 0xE0 =? 0xC0) = (192 <=? b2z b) && (b2z b <? 224).
Proof. by destruct b. Qed.
Lemma test_3 b : (Z.land (b2z b) 0xF0 =? 0xE0) = (224 <=? b2z b) && (b2z b <? 240).
Proof. by destruct b. Qed.
Lemma test_4 b : (Z.land (b2z b) 0xF8 =? 0xF0) = (240 <=? b2z b) && (b2z b <? 248).
Proof. by destruct b. Qed.
Lemma test_continuation b : is_continuation b = (128 <=? b2z b) && (b2z b <? 192).
Proof. by destruct b. Qed.
Lemma test_ascii b : (Z.land (b2z b) 0x80 =? 0) = (b2z b <=? 0x7F).
Proof. by destruct b. Qed.

Lemma land_ones_mod z n : 0 <= n -> Z.land z (2 ^ n - 1) = z mod 2 ^ n.
Proof. intros. rewrite <- Z.land_ones by done. by rewrite Z.ones_equiv. Qed.

Lemma codepoint2_eq b1 b2 : codepoint2 b1 b2 = b2z b1 mod 32 * 64 + b2z b2 mod 64.
Proof.
  unfold codepoint2. rewrite (land_ones_mod _ 5), (land_ones_mod _ 6) by lia.
  apply (lor_shiftl_add _ _ 6); [lia|]. by apply Z.mod_pos_bound.
Qed.

Lemma codepoint3_eq b1 b2 b3 :
  codepoint3 b1 b2 b3 = b2z b1 mod 16 * 4096 + b2z b2 mod 64 * 64 + b2z b3 mod 64.
Proof.
  unfold codepoint3. rewrite (land_ones_mod _ 4), !(land_ones_mod _ 6) by lia.
  pose proof (Z.mod_pos_bound (b2z b2) (2 ^ 6) eq_refl). pose proof (Z.mod_pos_bound (b2z b3) (2 ^ 6) eq_refl).
  rewrite <- Z.lor_assoc, (lor_shiftl_add (b2z b2 mod _)) by lia.
  rewrite lor_shiftl_add by lia. change (2 ^ 4) with 16. change (2 ^ 6) with 64. lia.
Qed.

Lemma codepoint4_eq b1 b2 b3 b4 :
  codepoint4 b1 b2 b3 b4 =
  b2z b1 mod 8 * 262144 + b2z b2 mod 64 * 4096 + b2z b3 mod 64 * 64 + b2z b4 mod 64.
Proof.
  unfold codepoint4. rewrite (land_ones_mod _ 3), !(land_ones_mod _ 6) by lia.
  pose proof (Z.mod_pos_bound (b2z b2) (2 ^ 6) eq_refl). pose proof (Z.mod_pos_bound (b2z b3) (2 ^ 6) eq_refl).
  pose proof (Z.mod_pos_bound (b2z b4) (2 ^ 6) eq_refl).
  rewrite <- !Z.lor_assoc, (lor_shiftl_add (b2z b3 mod _)) by lia.
  rewrite (lor_shiftl_add (b2z b2 mod _)) by lia.
  rewrite lor_shiftl_add by lia. change (2 ^ 3) with 8. change (2 ^ 6) with 64. lia.
Qed.

(** One accepted character: its scalar value, and the octets that encode it. *)
Definition one_char (data rest : bytes) : Prop :=
  exists cp, scalar_value cp /\ data = utf8_encode cp ++ rest.

Ltac utf8_octets :=
  repeat match goal with
         | |- ?l = ?l => reflexivity
         | |- _ :: _ = z2b _ :: _ =>
             apply (f_equal2 cons);
             [apply b2z_inj; rewrite b2z_z2b_small; Z.div_mod_to_equations; lia|]
         end.

Lemma char1 b1 rest : b2z b1 <= 0x7F -> one_char (b1 :: rest) rest.
Proof.
  intros H. pose proof (b2z_range b1). exists (b2z b1). split; [split; lia|].
  unfold utf8_encode. destruct (Z.ltb_spec (b2z b1) 0x80); [|lia]. by rewrite z2b_b2z.
Qed.

Lemma char2 b1 b2 rest :
  192 <= b2z b1 < 224 -> 128 <= b2z b2 < 192 -> 0x80 <= codepoint2 b1 b2 ->
  one_char (b1 :: b2 :: rest) rest.
Proof.
  rewrite codepoint2_eq. intros H1 H2 Hcp. set (cp := _ + _) in Hcp.
  assert (cp = (b2z b1 - 192) * 64 + (b2z b2 - 128)) as Ecp by (unfold cp; Z.div_mod_to_equations; lia).
  clearbody cp. exists cp. split; [split; lia|]. unfold utf8_encode.
  destruct (Z.ltb_spec cp 0x80); [lia|]. destruct (Z.ltb_spec cp 0x800); [|lia]. cbn [app].
  utf8_octets.
Qed.

Lemma char3 b1 b2 b3 rest :
  224 <= b2z b1 < 240 -> 128 <= b2z b2 < 192 -> 128 <= b2z b3 < 192 ->
  0x800 <= codepoint3 b1 b2 b3 -> ~ 0xD800 <= codepoint3 b1 b2 b3 <= 0xDFFF ->
  one_char (b1 :: b2 :: b3 :: rest) rest.
Proof.
  rewrite codepoint3_eq. intros H1 H2 H3 Hcp Hsur. set (cp := _ + _) in Hcp, Hsur.
  assert (cp = (b2z b1 - 224) * 4096 + (b2z b2 - 128) * 64 + (b2z b3 - 128)) as Ecp
    by (unfold cp; Z.div_mod_to_equations; lia).
  clearbody cp. exists cp. split; [split; lia|]. unfold utf8_encode.
  destruct (Z.ltb_spec cp 0x80); [lia|]. destruct (Z.ltb_spec cp 0x800); [lia|].
  destruct (Z.ltb_spec cp 0x10000); [|lia]. cbn [app]. utf8_octets.
Qed.

Lemma char4 b1 b2 b3 b4 rest :
  240 <= b2z b1 < 248 -> 128 <= b2z b2 < 192 -> 128 <= b2z b3 < 192 -> 128 <= b2z b4 < 192 ->
  0x10000 <= codepoint4 b1 b2 b3 b4 -> codepoint4 b1 b2 b3 b4 <= 0x10FFFF ->
  one_char (b1 :: b2 :: b3 :: b4 :: rest) rest.
Proof.
  rewrite codepoint4_eq. intros H1 H2 H3 H4 Hcp Hmax. set (cp := _ + _) in Hcp, Hmax.
  assert (cp = (b2z b1 - 240) * 262144 + (b2z b2 - 128) * 4096 + (b2z b3 - 128) * 64 + (b2z b4 - 128))
    as Ecp by (unfold cp; Z.div_mod_to_equations; lia).
  clearbody cp. exists cp. split; [split; lia|]. unfold utf8_encode.
  destruct (Z.ltb_spec cp 0x80); [lia|]. destruct (Z.ltb_spec cp 0x800); [lia|].
  destruct (Z.ltb_spec cp 0x10000); [lia|]. cbn [app]. utf8_octets.
Qed.

(** Case analysis of one turn of the loop: reject, or consume one character. *)
Lemma utf8_loop_turn data :
  data <> [] -> utf8_loop data = true ->
  exists rest, one_char data rest /\ utf8_loop rest = true /\ (length rest < length data)%nat.
Proof.
  destruct data as [|b1 rest]; [done|]. intros _. cbn [utf8_loop].
  destruct (Z.leb_spec (b2z b1) 0x7F).
  { intros Hr. exists rest. split_and!; [by apply char1|done|simpl; lia]. }
  rewrite test_2. destruct ((192 <=? b2z b1) && (b2z b1 <? 224)) eqn:E2.
  { destruct rest as [|b2 rest]; [done|]. rewrite test_continuation.
    destruct ((128 <=? b2z b2) && (b2z b2 <? 192)) eqn:C2; [|done]. cbn [negb].
    destruct (Z.ltb_spec (codepoint2 b1 b2) 0x80); [done|]. intros Hr. exists rest.
    split_and!; [apply char2; lia|done|simpl; lia]. }
  rewrite test_3. destruct ((224 <=? b2z b1) && (b2z b1 <? 240)) eqn:E3.
  { destruct rest as [|b2 [|b3 rest]]; [done..|]. rewrite !test_continuation.
    destruct ((128 <=? b2z b2) && (b2z b2 <? 192)) eqn:C2; [|done]. cbn [negb].
    destruct ((128 <=? b2z b3) && (b2z b3 <? 192)) eqn:C3; [|done]. cbn [negb].
    destruct (Z.ltb_spec (codepoint3 b1 b2 b3) 0x800); [done|].
    destruct ((0xD800 <=? codepoint3 b1 b2 b3) && (codepoint3 b1 b2 b3 <=? 0xDFFF)) eqn:S; [done|].
    intros Hr. exists rest. split_and!; [apply char3; lia|done|simpl; lia]. }
  rewrite test_4. destruct ((240 <=? b2z b1) && (b2z b1 <? 248)) eqn:E4; [|done].
  destruct rest as [|b2 [|b3 [|b4 rest]]]; [done..|]. rewrite !test_continuation.
  destruct ((128 <=? b2z b2) && (b2z b2 <? 192)) eqn:C2; [|done]. cbn [negb].
  destruct ((128 <=? b2z b3) && (b2z b3 <? 192)) eqn:C3; [|done]. cbn [negb].
  destruct ((128 <=? b2z b4) && (b2z b4 <? 192)) eqn:C4; [|done]. cbn [negb].
  destruct (Z.ltb_spec (codepoint4 b1 b2 b3 b4) 0x10000); [done|].
  destruct (Z.ltb_spec 0x10FFFF (codepoint4 b1 b2 b3 b4)); [done|].
  intros Hr. exists rest. split_and!; [apply char4; lia|done|simpl; lia].
Qed.

(** Conversely the loop gets past the encoding of any scalar value; one equation per branch. *)
Lemma utf8_loop_1 b1 rest : b2z b1 <= 0x7F -> utf8_loop (b1 :: rest) = utf8_loop rest.
Proof. intros. cbn [utf8_loop]. by destruct (Z.leb_spec (b2z b1) 0x7F); [|lia]. Qed.

Lemma utf8_loop_2 b1 l :
  192 <= b2z b1 < 224 ->
  utf8_loop (b1 :: l) =
  match l with
  | b2 :: rest =>
      is_continuation b2 && (0x80 <=? codepoint2 b1 b2) && utf8_loop rest
  | _ => false
  end.
Proof.
  intros. cbn [utf8_loop]. rewrite test_2. destruct (Z.leb_spec (b2z b1) 0x7F); [lia|].
  destruct (Z.leb_spec 192 (b2z b1)); [|lia]. destruct (Z.ltb_spec (b2z b1) 224); [|lia].
  cbn [andb]. destruct l as [|b2 l]; [done|]. destruct (is_continuation b2); [|done]. cbn [negb andb].
  by rewrite Z.leb_antisym; destruct (_ <? 0x80).
Qed.

Lemma utf8_loop_3 b1 l :
  224 <= b2z b1 < 240 ->
  utf8_loop (b1 :: l) =
  match l with
  | b2 :: b3 :: rest =>
      is_continuation b2 && is_continuation b3 && (0x800 <=? codepoint3 b1 b2 b3) &&
      negb ((0xD800 <=? codepoint3 b1 b2 b3) && (codepoint3 b1 b2 b3 <=? 0xDFFF)) && utf8_loop rest
  | _ => false
  end.
Proof.
  intros. cbn [utf8_loop]. rewrite test_2, test_3. destruct (Z.leb_spec (b2z b1) 0x7F); [lia|].
  destruct (Z.ltb_spec (b2z b1) 224); [lia|]. rewrite andb_false_r.
  destruct (Z.leb_spec 224 (b2z b1)); [|lia]. destruct (Z.ltb_spec (b2z b1) 240); [|lia].
  cbn [andb]. destruct l as [|b2 [|b3 l]]; [done..|].
  destruct (is_continuation b2); [|done]. destruct (is_continuation b3); [|done]. cbn [negb andb].
  rewrite (Z.leb_antisym _ 0x800). destruct (_ <? 0x800); [done|]. cbn [negb andb].
  by destruct (_ && _).
Qed.

Lemma utf8_loop_4 b1 l :
  240 <= b2z b1 < 248 ->
  utf8_loop (b1 :: l) =
  match l with
  | b2 :: b3 :: b4 :: rest =>
      is_continuation b2 && is_continuation b3 && is_continuation b4 &&
      (0x10000 <=? codepoint4 b1 b2 b3 b4) && (codepoint4 b1 b2 b3 b4 <=? 0x10FFFF) && utf8_loop rest
  | _ => false
  end.
Proof.
  intros. cbn [utf8_loop]. rewrite test_2, test_3, test_4. destruct (Z.leb_spec (b2z b1) 0x7F); [lia|].
  destruct (Z.ltb_spec (b2z b1) 224); [lia|]. destruct (Z.ltb_spec (b2z b1) 240); [lia|].
  rewrite !andb_false_r. destruct (Z.leb_spec 240 (b2z b1)); [|lia].
  destruct (Z.ltb_spec (b2z b1) 248); [|lia].
  cbn [andb]. destruct l as [|b2 [|b3 [|b4 l]]]; [done..|].
  destruct (is_continuation b2); [|done]. destruct (is_continuation b3); [|done].
  destruct (is_continuation b4); [|done]. cbn [negb andb].
  rewrite (Z.leb_antisym _ 0x10000), (Z.leb_antisym 0x10FFFF).
  destruct (_ <? 0x10000); [done|]. by destruct (0x10FFFF <? _).
Qed.

Lemma continuation_octet x :
  0 <= x < 64 -> is_continuation (z2b (0x80 + x)) = true /\ b2z (z2b (0x80 + x)) mod 64 = x.
Proof.
  intros. rewrite test_continuation, b2z_z2b_small by lia. split.
  - destruct (Z.leb_spec 128 (0x80 + x)); [|lia]. by destruct (Z.ltb_spec (0x80 + x) 192); [|lia].
  - Z.div_mod_to_equations. lia.
Qed.

Lemma utf8_loop_encode cp rest :
  scalar_value cp -> utf8_loop (utf8_encode cp ++ rest) = utf8_loop rest.
Proof.
  intros [Hr Hs]. unfold utf8_encode.
  destruct (Z.ltb_spec cp 0x80); [|destruct (Z.ltb_spec cp 0x800); [|destruct (Z.ltb_spec cp 0x10000)]];
    cbn [app].
  - apply utf8_loop_1. rewrite b2z_z2b_small; lia.
  - assert (2 <= cp / 64 < 32 /\ 0 <= cp mod 64 < 64 /\ cp = cp / 64 * 64 + cp mod 64)
      as (Hx & Hy & Ecp) by (Z.div_mod_to_equations; lia).
    destruct (continuation_octet _ Hy) as [Hc Hm].
    assert (b2z (z2b (0xC0 + cp / 64)) = 0xC0 + cp / 64) as Eb by (apply b2z_z2b_small; lia).
    rewrite utf8_loop_2, Hc, codepoint2_eq, Hm, Eb by lia.
    replace ((0xC0 + cp / 64) mod 32) with (cp / 64) by (Z.div_mod_to_equations; lia).
    rewrite <- Ecp. by destruct (Z.leb_spec 0x80 cp); [|lia].
  - assert (0 <= cp / 4096 < 16 /\ 0 <= cp / 64 mod 64 < 64 /\ 0 <= cp mod 64 < 64 /\
            cp = cp / 4096 * 4096 + cp / 64 mod 64 * 64 + cp mod 64)
      as (Hx & Hy & Hz & Ecp) by (Z.div_mod_to_equations; lia).
    destruct (continuation_octet _ Hy) as [Hc1 Hm1]. destruct (continuation_octet _ Hz) as [Hc2 Hm2].
    assert (b2z (z2b (0xE0 + cp / 4096)) = 0xE0 + cp / 4096) as Eb by (apply b2z_z2b_small; lia).
    rewrite utf8_loop_3, Hc1, Hc2, codepoint3_eq, Hm1, Hm2, Eb by lia.
    replace ((0xE0 + cp / 4096) mod 16) with (cp / 4096) by (clear Ecp; Z.div_mod_to_equations; lia).
    rewrite <- Ecp. destruct (Z.leb_spec 0x800 cp); [|lia].
    destruct (Z.leb_spec 0xD800 cp), (Z.leb_spec cp 0xDFFF); try done. lia.
  - assert (0 <= cp / 262144 < 5 /\ 0 <= cp / 4096 mod 64 < 64 /\ 0 <= cp / 64 mod 64 < 64 /\
            0 <= cp mod 64 < 64 /\
            cp = cp / 262144 * 262144 + cp / 4096 mod 64 * 4096 + cp / 64 mod 64 * 64 + cp mod 64)
      as (Hw & Hx & Hy & Hz & Ecp) by (Z.div_mod_to_equations; lia).
    destruct (continuation_octet _ Hx) as [Hc1 Hm1]. destruct (continuation_octet _ Hy) as [Hc2 Hm2].
    destruct (continuation_octet _ Hz) as [Hc3 Hm3].
    assert (b2z (z2b (0xF0 + cp / 262144)) = 0xF0 + cp / 262144) as Eb by (apply b2z_z2b_small; lia).
    rewrite utf8_loop_4, Hc1, Hc2, Hc3, codepoint4_eq, Hm1, Hm2, Hm3, Eb by lia.
    replace ((0xF0 + cp / 262144) mod 8) with (cp / 262144)
      by (clear Ecp; Z.div_mod_to_equations; lia).
    rewrite <- Ecp. destruct (Z.leb_spec 0x10000 cp); [|lia].
    by destruct (Z.leb_spec cp 0x10FFFF); [|lia].
Qed.

Lemma utf8_loop_spec data : utf8_loop data = true <-> is_utf8 data.
Proof.
  split.
  - remember (length data) as n eqn:Hn. revert data Hn.
    induction n as [n IH] using lt_wf_ind. intros data -> Hd.
    destruct (decide (data = [])) as [->|Hne]; [by exists []|].
    destruct (utf8_loop_turn data Hne Hd) as (rest & (cp & Hcp & ->) & Hr & Hlt).
    destruct (IH _ Hlt rest eq_refl Hr) as (cps & Hcps & ->). exists (cp :: cps).
    split; [by constructor|done].
  - intros (cps & Hcps & ->). induction Hcps as [|cp cps Hcp _ IH]; [done|].
    simpl. by rewrite utf8_loop_encode.
Qed.

(** The SIMD prologue only skips what the loop would accept. *)
Lemma utf8_loop_ascii pre data :
  forallb (fun b => Z.land (b2z b) 0x80 =? 0) pre = true -> utf8_loop (pre ++ data) = utf8_loop data.
Proof.
  induction pre as [|b pre IH]; intros H; [done|]. simpl in H. apply andb_true_iff in H as [Hb Hp].
  rewrite test_ascii in Hb. cbn [app utf8_loop]. rewrite Hb. by apply IH.
Qed.

Lemma utf8_loop_skip fuel data : utf8_loop (skip_ascii fuel data) = utf8_loop data.
Proof.
  revert data. induction fuel as [|fuel IH]; intros data; cbn [skip_ascii]; [done|].
  destruct (16 <=? blen data); [|done].
  destruct (forallb _ (take 16 data)) eqn:E; [|done]. rewrite IH.
  rewrite <- (take_drop 16 data) at 2. by rewrite utf8_loop_ascii.
Qed.

Lemma isValidUtf8Bytes_spec simd data : isValidUtf8Bytes simd data = true <-> is_utf8 data.
Proof.
  unfold isValidUtf8Bytes. destruct simd; [rewrite utf8_loop_skip|]; apply utf8_loop_spec.
Qed.

(** ** The masked validator *)

Lemma utf8_masked_loop_eq key i data :
  utf8_masked_loop key i data = utf8_loop (mask_bytes key i data).
Proof.
  remember (length data) as n eqn:Hn. revert i data Hn.
  induction n as [n IH] using lt_wf_ind. intros i data ->.
  destruct data as [|p1 rest]; [done|]. cbn [mask_bytes utf8_loop utf8_masked_loop].
  destruct (_ <=? 0x7F); [apply (IH (length rest)); [simpl; lia|done]|].
  destruct (_ =? 0xC0).
  { destruct rest as [|p2 rest]; [done|]. cbn [mask_bytes].
    replace (i + 2) with (i + 1 + 1) by lia.
    destruct (negb _); [done|]. destruct (_ <? 0x80); [done|].
    apply (IH (length rest)); [simpl; lia|done]. }
  destruct (_ =? 0xE0).
  { destruct rest as [|p2 [|p3 rest]]; [done..|]. cbn [mask_bytes].
    replace (i + 3) with (i + 1 + 1 + 1) by lia. replace (i + 2) with (i + 1 + 1) by lia.
    destruct (negb _); [done|]. destruct (negb _); [done|]. cbv zeta.
    destruct (_ <? 0x800); [done|]. destruct (_ && _); [done|].
    apply (IH (length rest)); [simpl; lia|done]. }
  destruct (_ =? 0xF0); [|done].
  destruct rest as [|p2 [|p3 [|p4 rest]]]; [done..|]. cbn [mask_bytes].
  replace (i + 4) with (i + 1 + 1 + 1 + 1) by lia.
  replace (i + 3) with (i + 1 + 1 + 1) by lia. replace (i + 2) with (i + 1 + 1) by lia.
  destruct (negb _); [done|]. destruct (negb _); [done|]. destruct (negb _); [done|]. cbv zeta.
  destruct (_ <? 0x10000); [done|]. cbn [orb]. destruct (0x10FFFF <? _); [done|].
  apply (IH (length rest)); [simpl; lia|done].
Qed.

Lemma skip_ascii_masked_spec fuel key i data :
  let '(j, rest) := skip_ascii_masked fuel key (4 * i) data in
  utf8_loop (mask_bytes key j rest) = utf8_loop (mask_bytes key (4 * i) data).
Proof.
  revert i data. induction fuel as [|fuel IH]; intros i data; cbn [skip_ascii_masked]; [done|].
  destruct (Z.leb_spec 16 (blen data)) as [Hle|]; [|done].
  destruct (forallb _ _) eqn:E; [|done].
  replace (4 * i + 16) with (4 * (i + 4)) by lia. specialize (IH (i + 4) (drop 16 data)).
  destruct (skip_ascii_masked fuel key (4 * (i + 4)) (drop 16 data)) as [j rest]. rewrite IH.
  rewrite <- (take_drop 16 data) at 2. rewrite mask_bytes_app.
  assert (length (take 16 data) = 16%nat) as Ht by (rewrite length_take; unfold blen in Hle; lia).
  assert (mask_bytes key (4 * i) (take 16 data) =
          zip_with xor_byte (take 16 data) (mask_array key 16)) as ->.
  { pose proof (zip_mask_array key (take 16 data) 0) as Hz. rewrite Ht in Hz. symmetry.
    rewrite <- (Z.add_0_l (4 * i)), mask_bytes_period. exact Hz. }
  rewrite utf8_loop_ascii by done. do 2 f_equal. unfold blen. rewrite Ht. lia.
Qed.

(** masking: the blocked routine is the octet-wise exclusive or with the repeated key, with or
    without SIMD, and applying it twice gives the payload back. *)
Theorem applyMaskBytes_spec simd key data :
  length key = 4%nat ->
  applyMaskBytes simd key data = mask_bytes key 0 data /\
  applyMaskBytes simd key (applyMaskBytes simd key data) = data.
Proof.
  intros Hk. rewrite !applyMaskBytes_bytewise by done. split; [done|apply mask_bytes_involutive].
Qed.

Lemma applyMaskBytes_spec_witness :
  let key := [z2b 1; z2b 2; z2b 3; z2b 255] in
  applyMaskBytes true key (applyMaskBytes true key (bs "a payload of thirty-one octets.")) =
  bs "a payload of thirty-one octets.".
Proof. intros key. apply (applyMaskBytes_spec true key). reflexivity. Defined.

(** C32: the validator accepts exactly the UTF-8 encodings of sequences of Unicode scalar values
    (no overlong form, no surrogate, nothing above U+10FFFF), with or without SIMD; on masked data
    it answers what it would answer on the unmasked payload. *)
Theorem isValidUtf8_spec simd data :
  (isValidUtf8Bytes simd data = true <-> is_utf8 data) /\
  forall key, length key = 4%nat ->
    isValidUtf8MaskedBytes simd data key = isValidUtf8Bytes simd (applyMaskBytes simd key data).
Proof.
  split; [apply isValidUtf8Bytes_spec|]. intros key Hk.
  rewrite applyMaskBytes_bytewise by done. unfold isValidUtf8MaskedBytes, isValidUtf8Bytes.
  destruct simd.
  - rewrite utf8_loop_skip. pose proof (skip_ascii_masked_spec (length data) key 0 data) as Hs.
    change (4 * 0) with 0 in Hs. destruct (skip_ascii_masked _ _ _ _) as [i rest].
    by rewrite utf8_masked_loop_eq.
  - apply utf8_masked_loop_eq.
Qed.
