(* ===== verification/WsFrame.v ===== *)
(** * WebSocket frames

    The frame codec of [galay-ws/protoc/ws_frame.{h,cc}], [galay-ws/protoc/ws_base.h] and
    [galay-ws/utils/ws_helper.cc]: the cursor over scattered input, the parser and the serializer.
    The masking key a sender draws at random is an argument of the serializer. *)

From Stdlib Require Import ZArith Lia.
From stdpp Require Import base list strings.
From S2P Require Import Prelude WsPayload.

Open Scope Z_scope.

(** ** Data *)

Inductive WsErrorCode : Type :=
| kWsNoError | kWsIncomplete | kWsInvalidFrame | kWsInvalidOpcode | kWsInvalidPayloadLength
| kWsControlFrameTooLarge | kWsControlFrameFragmented | kWsInvalidUtf8 | kWsProtocolError
| kWsConnectionClosed | kWsMessageTooLarge | kWsInvalidCloseCode | kWsReservedBitsSet
| kWsMaskRequired | kWsMaskNotAllowed | kWsConnectionError | kWsSendError | kWsUpgradeFailed
| kWsUnknownError.

Inductive WsOpcode : Type := WsContinuation | WsText | WsBinary | WsClose | WsPing | WsPong.

#[export] Instance WsOpcode_eq_dec : EqDecision WsOpcode.
Proof. solve_decision. Defined.

Record WsFrameHeader : Type := mkWsHeader {
  ws_payload_length : Z;
  ws_opcode : WsOpcode;
  ws_masking_key : bytes;
  ws_fin : bool;
  ws_rsv1 : bool;
  ws_rsv2 : bool;
  ws_rsv3 : bool;
  ws_mask : bool
}.

Record WsFrame : Type := mkWsFrame { ws_header : WsFrameHeader; ws_payload : bytes }.

(** [static_cast<uint8_t>(opcode)] and back; the parser casts only the six named values. *)
Definition opcode_to_u8 (o : WsOpcode) : Z :=
  match o with
  | WsContinuation => 0 | WsText => 1 | WsBinary => 2 | WsClose => 8 | WsPing => 9 | WsPong => 10
  end.

Definition opcode_of_u8 (v : Z) : WsOpcode :=
  match v with
  | 0 => WsContinuation | 1 => WsText | 2 => WsBinary | 8 => WsClose | 9 => WsPing | _ => WsPong
  end.

Definition isControlFrame (o : WsOpcode) : bool :=
  match o with WsClose | WsPing | WsPong => true | _ => false end.

(** ** The serializer *)

Definition wsFrameHeaderLength (payload_len : Z) (use_mask : bool) : Z :=
  2 + (if (126 <=? payload_len) && (payload_len <=? 0xFFFF) then 2
       else if 0xFFFF <? payload_len then 8 else 0) + (if use_mask then 4 else 0).

Definition put_be64 (x : Z) : bytes :=
  map (fun i => byte_at x (Z.of_nat i * 8)) [7; 6; 5; 4; 3; 2; 1; 0]%nat.

(** The second octet and the extended length. *)
Definition length_octets (byte2 payload_len : Z) : bytes :=
  if payload_len <? 126 then [z2b (Z.lor byte2 payload_len)]
  else if payload_len <=? 0xFFFF then z2b (Z.lor byte2 126) :: put_be16 payload_len
  else z2b (Z.lor byte2 127) :: put_be64 payload_len.

Definition appendWsFrameHeader (h : WsFrameHeader) (payload_len : Z) (use_mask : bool)
    (masking_key : bytes) : bytes :=
  let byte1 :=
    Z.lor (Z.lor (Z.lor (Z.lor (if ws_fin h then 0x80 else 0) (if ws_rsv1 h then 0x40 else 0))
                   (if ws_rsv2 h then 0x20 else 0)) (if ws_rsv3 h then 0x10 else 0))
          (Z.land (opcode_to_u8 (ws_opcode h)) 0x0F) in
  z2b byte1 ::
  length_octets (if use_mask then 0x80 else 0) payload_len ++
  (if use_mask then masking_key else []).

(** [encodeInto], and [toBytes]. *)
Definition ws_encode (simd : bool) (f : WsFrame) (use_mask : bool) (masking_key : bytes) : bytes :=
  let payload_len := blen (ws_payload f) in
  let out := appendWsFrameHeader (ws_header f) payload_len use_mask masking_key in
  if payload_len =? 0 then out
  else
    out ++ (if use_mask then applyMaskBytes simd masking_key (ws_payload f) else ws_payload f).

(** [encodeMessageInto(out, opcode, std::string_view, fin, use_mask)]. *)
Definition message_header (opcode : WsOpcode) (fin : bool) : WsFrameHeader :=
  mkWsHeader 0 opcode [] fin false false false false.

Definition encodeMessageInto (simd : bool) (opcode : WsOpcode) (payload : bytes)
    (fin use_mask : bool) (masking_key : bytes) : bytes :=
  let payload_len := blen payload in
  let out := appendWsFrameHeader (message_header opcode fin) payload_len use_mask masking_key in
  if payload_len =? 0 then out
  else out ++ (if use_mask then applyMaskBytes simd masking_key payload else payload).

(** The overload that takes the payload over: the octets are moved up inside the payload's own
    buffer, the header is copied in front and the tail is masked in place. *)
Definition encodeMessageInto_move (simd : bool) (opcode : WsOpcode) (payload : bytes)
    (fin use_mask : bool) (masking_key : bytes) : bytes :=
  let payload_len := blen payload in
  let out := payload in
  let header := appendWsFrameHeader (message_header opcode fin) payload_len use_mask masking_key in
  match out with
  | [] => header
  | _ =>
      let payload_size := length out in
      let out := out ++ replicate (length header) (z2b 0) in
      let out := write_at out (length header) (take payload_size out) in
      let out := write_at out 0 header in
      if use_mask
      then write_at out (length header)
             (applyMaskBytes simd masking_key
                (take (Z.to_nat payload_len) (drop (length header) out)))
      else out
  end.

(** [toBytesHeader]. *)
Definition toBytesHeader (f : WsFrame) (use_mask : bool) (masking_key : bytes) : bytes :=
  appendWsFrameHeader (ws_header f) (blen (ws_payload f)) use_mask masking_key.

(** ** The builder *)

Inductive WsCloseCode : Type :=
| WsNormal | WsGoingAway | WsProtocolError | WsUnsupportedData | WsNoStatusReceived
| WsAbnormalClosure | WsInvalidPayload | WsPolicyViolation | WsMessageTooBig
| WsMandatoryExtension | WsInternalError | WsTlsHandshake.

Definition close_code_to_u16 (c : WsCloseCode) : Z :=
  match c with
  | WsNormal => 1000 | WsGoingAway => 1001 | WsProtocolError => 1002 | WsUnsupportedData => 1003
  | WsNoStatusReceived => 1005 | WsAbnormalClosure => 1006 | WsInvalidPayload => 1007
  | WsPolicyViolation => 1008 | WsMessageTooBig => 1009 | WsMandatoryExtension => 1010
  | WsInternalError => 1011 | WsTlsHandshake => 1015
  end.

Definition buildWsClosePayload (code : WsCloseCode) (reason : bytes) : bytes :=
  put_be16 (close_code_to_u16 code) ++ reason.

(** A default-constructed frame, and the one [WsFrameBuilder()] starts from. *)
Definition default_header : WsFrameHeader :=
  mkWsHeader 0 WsText [z2b 0; z2b 0; z2b 0; z2b 0] false false false false false.

Definition builder_start : WsFrame :=
  mkWsFrame (mkWsHeader 0 WsText (ws_masking_key default_header) true false false false false) [].

Definition build_opcode (o : WsOpcode) (f : WsFrame) : WsFrame :=
  let h := ws_header f in
  mkWsFrame (mkWsHeader (ws_payload_length h) o (ws_masking_key h) (ws_fin h) (ws_rsv1 h)
    (ws_rsv2 h) (ws_rsv3 h) (ws_mask h)) (ws_payload f).

Definition build_fin (fin : bool) (f : WsFrame) : WsFrame :=
  let h := ws_header f in
  mkWsFrame (mkWsHeader (ws_payload_length h) (ws_opcode h) (ws_masking_key h) fin (ws_rsv1 h)
    (ws_rsv2 h) (ws_rsv3 h) (ws_mask h)) (ws_payload f).

Definition build_payload (payload : bytes) (f : WsFrame) : WsFrame :=
  let h := ws_header f in
  mkWsFrame (mkWsHeader (blen payload) (ws_opcode h) (ws_masking_key h) (ws_fin h) (ws_rsv1 h)
    (ws_rsv2 h) (ws_rsv3 h) (ws_mask h)) payload.

Definition build_message (o : WsOpcode) (payload : bytes) (fin : bool) : WsFrame :=
  build_payload payload (build_fin fin (build_opcode o builder_start)).

Definition createTextFrame (text : bytes) (fin : bool) : WsFrame := build_message WsText text fin.
Definition createBinaryFrame (data : bytes) (fin : bool) : WsFrame := build_message WsBinary data fin.
Definition createPingFrame (data : bytes) : WsFrame := build_message WsPing data true.
Definition createPongFrame (data : bytes) : WsFrame := build_message WsPong data true.
Definition createCloseFrame (code : WsCloseCode) (reason : bytes) : WsFrame :=
  build_message WsClose (buildWsClosePayload code reason) true.

(** ** The input cursor

    What the parser needs of its input: reading octets, how many were read and how many are left.
    [IovecCursor] provides it over a list of buffers. *)

Class ByteCursor (C : Type) : Type := {
  readBytes : C -> Z -> option (bytes * C);
  consumed : C -> Z;
  cursor_remaining : C -> Z
}.

Record IovecCursor : Type := mkCursor {
  m_iovecs : list bytes;
  m_total_length : Z;
  m_iov_index : nat;
  m_iov_offset : Z;
  m_consumed : Z
}.

Definition set_position (c : IovecCursor) (index : nat) (offset n : Z) : IovecCursor :=
  mkCursor (m_iovecs c) (m_total_length c) index offset n.

(** [IovecCursor::readBytes]: [None] is [false]. *)
Fixpoint read_loop (fuel : nat) (c : IovecCursor) (need : Z) (out : bytes) :
    option (bytes * IovecCursor) :=
  if need <=? 0 then Some (out, c)
  else
    match fuel with
    | O => None
    | S fuel =>
        match nth_error (m_iovecs c) (m_iov_index c) with
        | None => None
        | Some iov =>
            if blen iov <=? m_iov_offset c
            then read_loop fuel (set_position c (S (m_iov_index c)) 0 (m_consumed c)) need out
            else
              let n := Z.min (blen iov - m_iov_offset c) need in
              let chunk := take (Z.to_nat n) (drop (Z.to_nat (m_iov_offset c)) iov) in
              let offset := m_iov_offset c + n in
              let count := m_consumed c + n in
              let c :=
                if offset =? blen iov then set_position c (S (m_iov_index c)) 0 count
                else set_position c (m_iov_index c) offset count in
              read_loop fuel c (need - n) (out ++ chunk)
        end
    end.

#[export] Instance iovec_cursor : ByteCursor IovecCursor := {
  readBytes c len := read_loop (S (length (m_iovecs c))) c len [];
  consumed := m_consumed;
  cursor_remaining c := m_total_length c - m_consumed c
}.

Fixpoint getTotalLength (iovecs : list bytes) : Z :=
  match iovecs with [] => 0 | iov :: iovecs => wrap64 (blen iov + getTotalLength iovecs) end.

(** ** The parser *)

Section Parser.
Context {C : Type} `{ByteCursor C}.
Variable simd : bool.

(** [if (!cursor.readBytes(...)) return std::unexpected(WsError(kWsIncomplete));] *)
Definition read_or_incomplete (c : C) (n : Z) : outcome WsErrorCode (bytes * C) :=
  match readBytes c n with Some r => Value r | None => Unexpected kWsIncomplete end.

Definition first_byte (d : bytes) : Z := b2z (nth 0 d (z2b 0)).

(** FIN, RSV and opcode. *)
Definition parse_byte1 (byte1 : Z) : outcome WsErrorCode (bool * WsOpcode) :=
  let fin := negb (Z.land byte1 0x80 =? 0) in
  let rsv1 := negb (Z.land byte1 0x40 =? 0) in
  let rsv2 := negb (Z.land byte1 0x20 =? 0) in
  let rsv3 := negb (Z.land byte1 0x10 =? 0) in
  if rsv1 || rsv2 || rsv3 then Unexpected kWsReservedBitsSet
  else
    let opcode_value := Z.land byte1 0x0F in
    if (0x0A <? opcode_value) || ((0x02 <? opcode_value) && (opcode_value <? 0x08))
    then Unexpected kWsInvalidOpcode
    else
      let opcode := opcode_of_u8 opcode_value in
      if isControlFrame opcode && negb fin then Unexpected kWsControlFrameFragmented
      else Value (fin, opcode).

(** The payload length after the second octet. *)
Definition parse_length (byte2 : Z) (c : C) : outcome WsErrorCode (Z * C) :=
  let payload_len := Z.land byte2 0x7F in
  if payload_len <? 126 then Value (payload_len, c)
  else if payload_len =? 126 then
    r <-- read_or_incomplete c 2 ;;
    match r.1 with
    | [b0; b1] =>
        let extended_len := get_be16 b0 b1 in
        if extended_len <? 126 then Unexpected kWsInvalidPayloadLength
        else Value (extended_len, r.2)
    | _ => OutOfBounds
    end
  else
    r <-- read_or_incomplete c 8 ;;
    if negb (Z.land (first_byte r.1) 0x80 =? 0) then Unexpected kWsInvalidPayloadLength
    else
      let extended_len := foldl (fun n b => wrap64 (Z.lor (Z.shiftl n 8) (b2z b))) 0 r.1 in
      if extended_len <=? 0xFFFF then Unexpected kWsInvalidPayloadLength
      else Value (extended_len, r.2).

Definition valid_close_code (code : Z) : bool :=
  ((1000 <=? code) && (code <=? 4999)) && negb (code =? 1004) && negb (code =? 1005) &&
  negb (code =? 1006) && negb (code =? 1015).

(** The checks on the unmasked payload. *)
Definition check_payload (fin : bool) (opcode : WsOpcode) (payload : bytes) : option WsErrorCode :=
  match opcode with
  | WsClose =>
      match payload with
      | [] => None
      | [_] => Some kWsInvalidPayloadLength
      | b0 :: b1 :: reason =>
          if negb (valid_close_code (get_be16 b0 b1)) then Some kWsInvalidCloseCode
          else if (2 <? blen payload) && negb (isValidUtf8Bytes simd reason)
          then Some kWsInvalidUtf8
          else None
      end
  | WsText => if fin && negb (isValidUtf8Bytes simd payload) then Some kWsInvalidUtf8 else None
  | _ => None
  end.

(** The masking key. The [frame] the caller passes is overwritten field by field: an unmasked frame
    leaves its old [masking_key] in place. *)
Definition read_key (c : C) (mask : bool) (frame : WsFrame) : outcome WsErrorCode (bytes * C) :=
  if mask then read_or_incomplete c 4 else Value (ws_masking_key (ws_header frame), c).

(** The payload, unmasked and checked. *)
Definition read_payload (c : C) (fin : bool) (opcode : WsOpcode) (mask : bool) (key : bytes)
    (len : Z) : outcome WsErrorCode (WsFrame * Z) :=
  if cursor_remaining c <? len then Unexpected kWsIncomplete
  else
    data <-- (if 0 <? len then
                match readBytes c len with
                | Some r => Value r
                | None => Unexpected kWsInvalidFrame
                end
              else Value ([], c)) ;;
    let payload := if mask then applyMaskBytes simd key data.1 else data.1 in
    match check_payload fin opcode payload with
    | Some e => Unexpected e
    | None =>
        Value (mkWsFrame (mkWsHeader len opcode key fin false false false mask) payload,
               consumed data.2)
    end.

Definition parse_frame (c : C) (frame : WsFrame) (is_server : bool) :
    outcome WsErrorCode (WsFrame * Z) :=
  r1 <-- read_or_incomplete c 1 ;;
  b1 <-- parse_byte1 (first_byte r1.1) ;;
  r2 <-- read_or_incomplete r1.2 1 ;;
  let byte2 := first_byte r2.1 in
  let mask := negb (Z.land byte2 0x80 =? 0) in
  if is_server && negb mask then Unexpected kWsMaskRequired
  else if negb is_server && mask then Unexpected kWsMaskNotAllowed
  else
    len <-- parse_length byte2 r2.2 ;;
    if isControlFrame b1.2 && (125 <? len.1) then Unexpected kWsControlFrameTooLarge
    else
      key <-- read_key len.2 mask frame ;;
      read_payload key.2 b1.1 b1.2 mask key.1 len.1.
End Parser.

(** [WsFrameParser::fromIOVec]: the frame, and the octets consumed. *)
Definition fromIOVec (simd : bool) (iovecs : list bytes) (frame : WsFrame) (is_server : bool) :
    outcome WsErrorCode (WsFrame * Z) :=
  let total_length := getTotalLength iovecs in
  if total_length <? 2 then Unexpected kWsIncomplete
  else parse_frame simd (mkCursor iovecs total_length 0 0 0) frame is_server.

(** ** The input as one byte string *)

(** A cursor on contiguous input: what is left, and the count. *)
Record flat_cursor : Type := mkFlat { fl_rest : bytes; fl_count : Z }.

#[export] Instance flat_byte_cursor : ByteCursor flat_cursor := {
  readBytes c n :=
    if n <=? blen (fl_rest c)
    then Some (take (Z.to_nat n) (fl_rest c), mkFlat (drop (Z.to_nat n) (fl_rest c)) (fl_count c + n))
    else None;
  consumed := fl_count;
  cursor_remaining c := blen (fl_rest c)
}.

(** What a cursor over buffers has left. *)
Definition iov_rest (c : IovecCursor) : bytes :=
  match drop (m_iov_index c) (m_iovecs c) with
  | [] => []
  | iov :: iovs => drop (Z.to_nat (m_iov_offset c)) iov ++ concat iovs
  end.

Record flat_as (c : IovecCursor) (f : flat_cursor) : Prop := {
  fa_rest : fl_rest f = iov_rest c;
  fa_count : fl_count f = m_consumed c;
  fa_total : m_total_length c = m_consumed c + blen (iov_rest c);
  fa_offset : 0 <= m_iov_offset c
}.

Lemma drop_nth {A} (l : list A) i x : nth_error l i = Some x -> drop i l = x :: drop (S i) l.
Proof. revert i. induction l as [|y l IH]; intros [|i] H; simpl in *; simplify_eq; auto. Qed.

Lemma drop_none {A} (l : list A) i : nth_error l i = None -> drop i l = [].
Proof. intros H%nth_error_None. by apply drop_ge. Qed.

Lemma read_loop_spec fuel c need out :
  0 <= need -> 0 <= m_iov_offset c ->
  m_total_length c = m_consumed c + blen (iov_rest c) ->
  (length (drop (m_iov_index c) (m_iovecs c)) < fuel)%nat ->
  if need <=? blen (iov_rest c) then
    exists c', read_loop fuel c need out = Some (out ++ take (Z.to_nat need) (iov_rest c), c') /\
      iov_rest c' = drop (Z.to_nat need) (iov_rest c) /\ m_consumed c' = m_consumed c + need /\
      m_iovecs c' = m_iovecs c /\ m_total_length c' = m_total_length c /\ 0 <= m_iov_offset c'
  else read_loop fuel c need out = None.
Proof.
  revert c need out. induction fuel as [|fuel IH]; intros c need out Hneed Hoff Htot Hfuel; [lia|].
  cbn [read_loop]. pose proof (blen_nonneg (iov_rest c)). destruct (Z.leb_spec need 0) as [H0|H0].
  { replace need with 0 by lia. destruct (Z.leb_spec 0 (blen (iov_rest c))); [|lia].
    exists c. rewrite take_0, app_nil_r, drop_0. split_and!; try done. lia. }
  destruct (nth_error (m_iovecs c) (m_iov_index c)) as [iov|] eqn:Hi.
  2: { assert (iov_rest c = []) as -> by (unfold iov_rest; by rewrite (drop_none _ _ Hi)).
       by destruct (Z.leb_spec need (blen (@nil byte))); [unfold blen in *; simpl in *; lia|]. }
  pose proof (drop_nth _ _ _ Hi) as Hd. rewrite Hd in Hfuel. simpl in Hfuel.
  assert (iov_rest c = drop (Z.to_nat (m_iov_offset c)) iov ++ concat (drop (S (m_iov_index c)) (m_iovecs c)))
    as Hrest by (unfold iov_rest; by rewrite Hd).
  assert (forall n, iov_rest (set_position c (S (m_iov_index c)) 0 n) =
                    concat (drop (S (m_iov_index c)) (m_iovecs c))) as Hnext.
  { intros n. unfold iov_rest. simpl. by destruct (drop (S (m_iov_index c)) (m_iovecs c)). }
  destruct (Z.leb_spec (blen iov) (m_iov_offset c)) as [Hskip|Hin].
  - rewrite drop_ge in Hrest by (unfold blen in Hskip; lia). simpl in Hrest.
    specialize (IH (set_position c (S (m_iov_index c)) 0 (m_consumed c)) need out).
    rewrite Hnext, <- Hrest in IH. apply IH; simpl; [lia|lia|lia|lia].
  - set (n := Z.min (blen iov - m_iov_offset c) need).
    set (chunk := take (Z.to_nat n) (drop (Z.to_nat (m_iov_offset c)) iov)).
    set (c1 := if m_iov_offset c + n =? blen iov then _ else _).
    assert (0 < n) by lia.
    assert (Z.of_nat (length (drop (Z.to_nat (m_iov_offset c)) iov)) = blen iov - m_iov_offset c) as Hl
      by (rewrite length_drop; unfold blen in *; lia).
    assert (chunk = take (Z.to_nat n) (iov_rest c)) as Hch.
    { rewrite Hrest, take_app_le by lia. done. }
    assert (iov_rest c1 = drop (Z.to_nat n) (iov_rest c) /\ m_consumed c1 = m_consumed c + n /\
            m_iovecs c1 = m_iovecs c /\ m_total_length c1 = m_total_length c /\ 0 <= m_iov_offset c1 /\
            (length (drop (m_iov_index c1) (m_iovecs c1)) < fuel \/ need = n)%nat) as (R1 & R2 & R3 & R4 & R5 & R6).
    { unfold c1. rewrite Hrest, drop_app_le by lia. rewrite drop_drop.
      destruct (Z.eqb_spec (m_iov_offset c + n) (blen iov)) as [E|E].
      - rewrite Hnext. simpl. rewrite (drop_ge iov) by (unfold blen in E; lia).
        split_and!; try done. left. lia.
      - simpl. unfold iov_rest. simpl. rewrite Hd. split_and!; try done; [|lia|right; lia].
        do 2 f_equal. lia. }
    pose proof (blen_nonneg (iov_rest c1)) as Hc1.
    assert (blen (iov_rest c1) = blen (iov_rest c) - n) as Hb.
    { rewrite R1. unfold blen. rewrite length_drop.
      assert (n <= blen (iov_rest c)); [|unfold blen in *; lia].
      rewrite Hrest, blen_app. unfold blen at 1. rewrite Hl.
      pose proof (blen_nonneg (concat (drop (S (m_iov_index c)) (m_iovecs c)))). lia. }
    destruct R6 as [R6|R6].
    + specialize (IH c1 (need - n) (out ++ chunk) ltac:(lia) R5 ltac:(lia) R6).
      destruct (Z.leb_spec (need - n) (blen (iov_rest c1))), (Z.leb_spec need (blen (iov_rest c))); try lia;
        [|exact IH].
      destruct IH as (c' & -> & Er & Ec & Ei & Et & Eo). exists c'. split_and!.
      * do 2 f_equal. rewrite <- app_assoc. f_equal. rewrite Hch, R1.
        replace (Z.to_nat need) with (Z.to_nat n + Z.to_nat (need - n))%nat by lia.
        symmetry. apply take_plus.
      * rewrite Er, R1, drop_drop. f_equal. lia.
      * lia.
      * congruence.
      * congruence.
      * done.
    + destruct (Z.leb_spec need (blen (iov_rest c))); [|lia]. exists c1.
      split_and!; [|by rewrite R1, R6|lia|done|done|done].
      destruct fuel; cbn [read_loop]; (destruct (Z.leb_spec (need - n) 0); [|lia]);
        do 2 f_equal; f_equal; by rewrite Hch, R6.
Qed.

(** ** Interchangeable cursors

    Two cursors related by [R] give the same octets; the parser cannot tell them apart. *)

Definition same_read {C D} (R : C -> D -> Prop) (x : option (bytes * C)) (y : option (bytes * D)) :
    Prop :=
  match x, y with
  | Some (o, c), Some (o', d) => o = o' /\ R c d
  | None, None => True
  | _, _ => False
  end.

Class CursorSim {C D} `{ByteCursor C} `{ByteCursor D} (R : C -> D -> Prop) : Prop := {
  sim_read c d n : R c d -> 0 <= n -> same_read R (readBytes c n) (readBytes d n);
  sim_consumed c d : R c d -> consumed c = consumed d;
  sim_remaining c d : R c d -> cursor_remaining c = cursor_remaining d
}.

#[export] Instance iov_flat_sim : CursorSim flat_as.
Proof.
  split.
  - intros c d n [Hr Hc Ht Ho] Hn. cbn [readBytes iovec_cursor flat_byte_cursor]. rewrite Hr.
    pose proof (read_loop_spec (S (length (m_iovecs c))) c n [] Hn Ho Ht) as Hl.
    specialize (Hl ltac:(rewrite length_drop; lia)). destruct (Z.leb_spec n (blen (iov_rest c))).
    + destruct Hl as (c' & -> & E1 & E2 & E3 & E4 & E5). split; [done|].
      assert (blen (iov_rest c') = blen (iov_rest c) - n)
        by (rewrite E1; unfold blen in *; rewrite length_drop; lia).
      split; simpl; [done|congruence|lia|done].
    + by rewrite Hl.
  - intros c d []. done.
  - intros c d [Hr Hc Ht Ho]. simpl. rewrite Hr. lia.
Qed.

Section Sim.
Context {C D : Type} `{ByteCursor C} `{ByteCursor D} (R : C -> D -> Prop) `{!CursorSim R}.
Variable simd : bool.

Definition same_step {A} (x : outcome WsErrorCode (A * C)) (y : outcome WsErrorCode (A * D)) : Prop :=
  match x, y with
  | Value (a, c), Value (b, d) => a = b /\ R c d
  | Unexpected e, Unexpected e' => e = e'
  | OutOfBounds, OutOfBounds => True
  | _, _ => False
  end.

Lemma same_step_bind {A B} (x : outcome WsErrorCode (A * C)) y
    (k : A * C -> outcome WsErrorCode B) k' :
  same_step x y -> (forall a c d, R c d -> k (a, c) = k' (a, d)) -> obind x k = obind y k'.
Proof.
  intros Hs Hk. destruct x as [[a c]| |], y as [[b d]| |]; simpl in *; try done; [|by subst].
  destruct Hs as [-> Hr]. by apply Hk.
Qed.

Lemma read_or_incomplete_sim c d n :
  R c d -> 0 <= n -> same_step (read_or_incomplete c n) (read_or_incomplete d n).
Proof.
  intros Hr Hn. unfold read_or_incomplete. pose proof (sim_read c d n Hr Hn) as Hs.
  destruct (readBytes c n) as [[]|], (readBytes d n) as [[]|]; done.
Qed.

Lemma same_step_then {A B} (x : outcome WsErrorCode (A * C)) y
    (k : A * C -> outcome WsErrorCode (B * C)) k' :
  same_step x y -> (forall a c d, R c d -> same_step (k (a, c)) (k' (a, d))) ->
  same_step (obind x k) (obind y k').
Proof.
  intros Hs Hk. destruct x as [[a c]| |], y as [[b d]| |]; simpl in *; try done.
  destruct Hs as [-> Hr]. by apply Hk.
Qed.

Lemma parse_length_sim byte2 c d :
  R c d -> same_step (parse_length byte2 c) (parse_length byte2 d).
Proof.
  intros Hr. unfold parse_length. destruct (_ <? 126); [by split|]. destruct (_ =? 126).
  - apply same_step_then; [by apply read_or_incomplete_sim|]. intros out c' d' Hr'. cbn [fst snd].
    destruct out as [|b0 [|b1 [|]]]; try done. destruct (_ <? 126); done.
  - apply same_step_then; [by apply read_or_incomplete_sim|]. intros out c' d' Hr'. cbn [fst snd].
    destruct (negb _); [done|]. destruct (_ <=? 0xFFFF); done.
Qed.

Lemma read_payload_sim c d fin op m key len :
  R c d -> read_payload simd c fin op m key len = read_payload simd d fin op m key len.
Proof.
  intros Hr. unfold read_payload. rewrite (sim_remaining c d Hr). destruct (_ <? _); [done|].
  apply same_step_bind.
  { destruct (Z.ltb_spec 0 len); [|by split]. pose proof (sim_read c d len Hr ltac:(lia)) as Hs.
    destruct (readBytes c len) as [[]|], (readBytes d len) as [[]|]; done. }
  intros data c' d' Hr'. cbn [fst snd]. by rewrite (sim_consumed c' d' Hr').
Qed.

Lemma parse_frame_sim c d frame is_server :
  R c d -> parse_frame simd c frame is_server = parse_frame simd d frame is_server.
Proof.
  intros Hr. unfold parse_frame.
  apply same_step_bind; [by apply read_or_incomplete_sim|]. intros o1 c1 d1 H1. cbn [fst snd].
  destruct (parse_byte1 _) as [[fin op]| |]; cbn [obind]; [|done|done].
  apply same_step_bind; [by apply read_or_incomplete_sim|]. intros o2 c2 d2 H2. cbn [fst snd].
  destruct (_ && _); [done|]. destruct (_ && _); [done|].
  apply same_step_bind; [by apply parse_length_sim|]. intros len c3 d3 H3. cbn [fst snd].
  destruct (_ && _); [done|]. apply same_step_bind.
  { unfold read_key. destruct (negb _); [by apply read_or_incomplete_sim|by split]. }
  intros key c4 d4 H4. by apply read_payload_sim.
Qed.
End Sim.

(** The parser on one contiguous buffer. *)
Definition parse_flat (simd : bool) (data : bytes) (frame : WsFrame) (is_server : bool) :=
  if blen data <? 2 then Unexpected kWsIncomplete
  else parse_frame simd (mkFlat data 0) frame is_server.

Lemma getTotalLength_concat iovecs : getTotalLength iovecs = wrap64 (blen (concat iovecs)).
Proof.
  induction iovecs as [|iov iovecs IH]; [done|]. cbn [getTotalLength concat].
  rewrite IH, blen_app. unfold wrap64. by rewrite Zplus_mod_idemp_r.
Qed.

Lemma fromIOVec_flat simd iovecs frame is_server :
  blen (concat iovecs) < 2 ^ 64 ->
  fromIOVec simd iovecs frame is_server = parse_flat simd (concat iovecs) frame is_server.
Proof.
  intros Hl. unfold fromIOVec, parse_flat. rewrite getTotalLength_concat.
  pose proof (blen_nonneg (concat iovecs)). rewrite wrap64_small by lia.
  destruct (_ <? 2); [done|]. apply (parse_frame_sim flat_as).
  assert (iov_rest (mkCursor iovecs (blen (concat iovecs)) 0 0 0) = concat iovecs) as Hr
    by (unfold iov_rest; simpl; by destruct iovecs).
  split; simpl; rewrite ?Hr; try done; lia.
Qed.

(** ** The octets of a header *)

Definition header_byte1 (fin : bool) (op : WsOpcode) : byte :=
  z2b (Z.lor (Z.lor (Z.lor (Z.lor (if fin then 0x80 else 0) 0) 0) 0) (Z.land (opcode_to_u8 op) 0x0F)).

Lemma parse_byte1_table b :
  match parse_byte1 (b2z b) with
  | Value (fin, op) => b = header_byte1 fin op /\ isControlFrame op && negb fin = false
  | _ => True
  end.
Proof. destruct b; vm_compute; (exact I || by split). Qed.

Lemma parse_byte1_inv b fin op :
  parse_byte1 (b2z b) = Value (fin, op) ->
  b = header_byte1 fin op /\ (isControlFrame op = true -> fin = true).
Proof.
  intros E. pose proof (parse_byte1_table b) as Ht. rewrite E in Ht. destruct Ht as [-> Hc].
  split; [done|]. intros Hop. rewrite Hop in Hc. by destruct fin.
Qed.

Lemma parse_byte1_header fin op :
  (isControlFrame op = true -> fin = true) ->
  parse_byte1 (b2z (header_byte1 fin op)) = Value (fin, op).
Proof. destruct op, fin; intros Hc; try reflexivity; by specialize (Hc eq_refl). Qed.

Definition mask_bit (use_mask : bool) : Z := if use_mask then 0x80 else 0.

Lemma byte2_inv b :
  b = z2b (Z.lor (mask_bit (negb (Z.land (b2z b) 0x80 =? 0))) (Z.land (b2z b) 0x7F)) /\
  0 <= Z.land (b2z b) 0x7F < 128.
Proof. destruct b; vm_compute; split; (reflexivity || split; (congruence || reflexivity)). Qed.

Lemma byte2_fields m n :
  0 <= n < 128 ->
  negb (Z.land (b2z (z2b (Z.lor (mask_bit m) n))) 0x80 =? 0) = m /\
  Z.land (b2z (z2b (Z.lor (mask_bit m) n))) 0x7F = n.
Proof.
  intros Hn. rewrite <- (b2z_z2b_small n) by lia.
  assert (b2z (z2b n) < 128) as Hb by (rewrite b2z_z2b_small; lia). revert Hb.
  generalize (z2b n). intros b. destruct b, m; vm_compute; intros; (by split) || congruence.
Qed.

Lemma be_step v b : wrap64 (Z.lor (Z.shiftl (wrap64 v) 8) (b2z b)) = wrap64 (v * 256 + b2z b).
Proof.
  pose proof (b2z_range b). rewrite lor_shiftl_add by lia. unfold wrap64.
  by rewrite Zplus_mod, Zmult_mod_idemp_l, <- Zplus_mod.
Qed.

Definition be_value (data : bytes) : Z := foldl (fun n b => n * 256 + b2z b) 0 data.

Lemma be_fold data v :
  foldl (fun n b => wrap64 (Z.lor (Z.shiftl n 8) (b2z b))) (wrap64 v) data =
  wrap64 (foldl (fun n b => n * 256 + b2z b) v data).
Proof. revert v. induction data as [|b data IH]; intros v; simpl; [done|]. by rewrite be_step, IH. Qed.

Lemma be_fold_value data :
  foldl (fun n b => wrap64 (Z.lor (Z.shiftl n 8) (b2z b))) 0 data = wrap64 (be_value data).
Proof. exact (be_fold data 0). Qed.

Lemma be_value_snoc data b : be_value (data ++ [b]) = be_value data * 256 + b2z b.
Proof. unfold be_value. by rewrite foldl_app. Qed.

(** Big-endian digits, the least significant octet last. *)
Fixpoint be_put (k : nat) (x : Z) : bytes :=
  match k with O => [] | S k => be_put k (x / 256) ++ [byte_at x 0] end.

Lemma byte_at_shift x n : 0 <= n -> byte_at (x / 256) n = byte_at x (n + 8).
Proof.
  intros Hn. unfold byte_at. change 256 with (2 ^ 8).
  by rewrite <- Z.shiftr_div_pow2, Z.shiftr_shiftr, (Z.add_comm 8) by lia.
Qed.

Lemma put_be64_eq x : put_be64 x = be_put 8 x.
Proof. unfold put_be64. cbn [be_put map app]. by rewrite !byte_at_shift by lia. Qed.

Lemma length_be_put k x : length (be_put k x) = k.
Proof. revert x. induction k; intros; simpl; [done|]. rewrite length_app, IHk. simpl. lia. Qed.

Lemma be_value_put k x : be_value (be_put k x) = x mod 256 ^ Z.of_nat k.
Proof.
  revert x. induction k as [|k IH]; intros x; [symmetry; apply Z.mod_1_r|].
  cbn [be_put]. rewrite be_value_snoc, IH, b2z_byte_at, Z.div_1_r by lia.
  rewrite Nat2Z.inj_succ, Z.pow_succ_r, Z.rem_mul_r by lia. lia.
Qed.

Lemma be_put_value data : be_put (length data) (be_value data) = data.
Proof.
  induction data as [|b data IH] using rev_ind; [done|].
  rewrite length_app, Nat.add_comm, be_value_snoc. cbn [length be_put Nat.add].
  pose proof (b2z_range b).
  assert ((be_value data * 256 + b2z b) / 256 = be_value data) as -> by (Z.div_mod_to_equations; lia).
  rewrite IH. do 2 f_equal. apply byte_at_eq; [lia|]. change (2 ^ 0) with 1.
  Z.div_mod_to_equations. lia.
Qed.

Lemma be_value_range data : 0 <= be_value data < 256 ^ Z.of_nat (length data).
Proof.
  induction data as [|b data IH] using rev_ind; [done|].
  rewrite be_value_snoc, length_app, Nat.add_comm. cbn [length Nat.add].
  rewrite Nat2Z.inj_succ, Z.pow_succ_r by lia. pose proof (b2z_range b). lia.
Qed.

Lemma be_value_cons b data :
  be_value (b :: data) = b2z b * 256 ^ Z.of_nat (length data) + be_value data.
Proof.
  induction data as [|c data IH] using rev_ind; [unfold be_value; simpl; lia|].
  rewrite app_comm_cons, !be_value_snoc, IH, length_app, Nat.add_comm. cbn [length Nat.add].
  rewrite Nat2Z.inj_succ, Z.pow_succ_r by lia. lia.
Qed.

Lemma test_top_bit b : negb (Z.land (b2z b) 0x80 =? 0) = (128 <=? b2z b).
Proof. destruct b; reflexivity. Qed.

(** ** Reading from contiguous input *)

Lemma take_blen {A} (l k : list A) : take (Z.to_nat (blen l)) (l ++ k) = l.
Proof. unfold blen. by rewrite Nat2Z.id, take_app_length. Qed.

Lemma take_all_blen {A} (l : list A) : take (Z.to_nat (blen l)) l = l.
Proof. apply take_ge. unfold blen. lia. Qed.

Lemma flat_read d rest k n :
  n = blen d -> read_or_incomplete (mkFlat (d ++ rest) k) n = Value (d, mkFlat rest (k + n)).
Proof.
  intros ->. unfold read_or_incomplete. cbn [readBytes flat_byte_cursor fl_rest fl_count].
  pose proof (blen_nonneg rest). rewrite (proj2 (Z.leb_le _ _)) by (rewrite blen_app; lia).
  by rewrite take_blen, drop_blen.
Qed.

Lemma flat_read_inv c n d c' :
  0 <= n -> read_or_incomplete c n = Value (d, c') ->
  fl_rest c = d ++ fl_rest c' /\ blen d = n /\ fl_count c' = fl_count c + n.
Proof.
  intros Hn. unfold read_or_incomplete. cbn [readBytes flat_byte_cursor].
  destruct (Z.leb_spec n (blen (fl_rest c))); [|done]. intros E. simplify_eq. simpl.
  rewrite take_drop. split_and!; [done| |done].
  unfold blen in *. rewrite length_take. lia.
Qed.

Lemma obind_value {E A B} (m : outcome E A) (k : A -> outcome E B) b :
  obind m k = Value b -> exists a, m = Value a /\ k a = Value b.
Proof. destruct m; simpl; intros; [eauto|done|done]. Qed.

(** ** The payload length, both ways *)

Lemma parse_length_encode m n rest k :
  0 <= n < 2 ^ 63 ->
  exists byte2 ext, length_octets (mask_bit m) n = byte2 :: ext /\
    negb (Z.land (b2z byte2) 0x80 =? 0) = m /\
    parse_length (b2z byte2) (mkFlat (ext ++ rest) k) = Value (n, mkFlat rest (k + blen ext)).
Proof.
  intros Hn. unfold length_octets, parse_length. destruct (Z.ltb_spec n 126) as [H1|H1].
  { eexists _, []. split; [done|]. destruct (byte2_fields m n ltac:(lia)) as [-> ->].
    split; [done|]. rewrite (proj2 (Z.ltb_lt n 126)) by lia. by rewrite (@blen_nil byte), Z.add_0_r. }
  destruct (Z.leb_spec n 0xFFFF) as [H2|H2]; eexists _, _; (split; [done|]).
  - destruct (byte2_fields m 126 ltac:(lia)) as [-> ->]. split; [done|]. simpl (126 <? 126).
    simpl (126 =? 126). cbv iota. rewrite flat_read by done. cbn [obind fst snd put_be16].
    unfold put_be16. rewrite get_put_be16 by lia. by rewrite (proj2 (Z.ltb_ge n 126)) by lia.
  - destruct (byte2_fields m 127 ltac:(lia)) as [-> ->]. split; [done|]. simpl (127 <? 126).
    simpl (127 =? 126). cbv iota. rewrite flat_read by done. cbn [obind fst snd].
    assert (be_value (put_be64 n) = n) as Hv
      by (rewrite put_be64_eq, be_value_put; apply Z.mod_small; simpl; lia).
    rewrite be_fold_value, Hv, wrap64_small by lia. rewrite (proj2 (Z.leb_gt n 0xFFFF)) by lia.
    pose proof Hv as Hv'. unfold put_be64 in Hv'. cbn [map] in Hv'.
    rewrite be_value_cons in Hv'. unfold put_be64, first_byte. cbn [map nth].
    rewrite test_top_bit. match type of Hv' with _ + be_value ?l = _ => pose proof (be_value_range l) end.
    cbn [length] in *. rewrite (proj2 (Z.leb_gt 128 _)) by lia. reflexivity.
Qed.

Lemma read_then {A} c n (k : bytes * flat_cursor -> outcome WsErrorCode A) v :
  0 <= n -> obind (read_or_incomplete c n) k = Value v ->
  exists d rest, fl_rest c = d ++ rest /\ blen d = n /\
    k (d, mkFlat rest (fl_count c + n)) = Value v.
Proof.
  intros Hn Hb. apply obind_value in Hb as ([d c'] & Hr & Hk).
  apply flat_read_inv in Hr as (Hr & Hl & Hc); [|done]. exists d, (fl_rest c').
  split_and!; [done|done|]. rewrite <- Hc. by destruct c'.
Qed.

Lemma parse_length_inv b c n c' :
  parse_length (b2z b) c = Value (n, c') ->
  exists ext, length_octets (mask_bit (negb (Z.land (b2z b) 0x80 =? 0))) n = b :: ext /\
    0 <= n < 2 ^ 63 /\ fl_rest c = ext ++ fl_rest c' /\ fl_count c' = fl_count c + blen ext.
Proof.
  destruct (byte2_inv b) as [Hb Hr]. revert Hb Hr. unfold parse_length.
  generalize (negb (Z.land (b2z b) 0x80 =? 0)) as m. generalize (Z.land (b2z b) 0x7F) as l.
  intros l m -> Hr. unfold length_octets. destruct (Z.ltb_spec l 126) as [H1|H1].
  { intros E. simplify_eq. exists []. rewrite (proj2 (Z.ltb_lt n 126)) by lia.
    rewrite (@blen_nil byte), Z.add_0_r. split_and!; (done || lia). }
  destruct (Z.eqb_spec l 126) as [->|H2]; intros Hp; apply read_then in Hp as (d & rest & Hd & Hl & Hk);
    try lia; cbn [fst snd] in Hk; exists d.
  - destruct d as [|b0 [|b1 [|]]]; try done. pose proof (get_be16_range b0 b1).
    pose proof (b2z_range b0). pose proof (b2z_range b1).
    destruct (Z.ltb_spec (get_be16 b0 b1) 126); [done|]. simplify_eq.
    rewrite (proj2 (Z.ltb_ge _ 126)), (proj2 (Z.leb_le _ 0xFFFF)) by lia. rewrite put_get_be16. split_and!; (done || lia).
  - replace l with 127 by lia. destruct (negb _) eqn:Htop in Hk; [done|].
    assert (length d = 8%nat) as Hlen by (unfold blen in Hl; lia).
    destruct d as [|b0 d]; [done|]. unfold first_byte in Htop. simpl in Htop.
    rewrite test_top_bit, Z.leb_gt in Htop. rewrite be_fold_value in Hk.
    pose proof (be_value_range d) as Hd'. pose proof (be_value_cons b0 d) as Hv.
    injection Hlen as Hlen. rewrite Hlen in *. pose proof (b2z_range b0).
    assert (0 <= be_value (b0 :: d) < 2 ^ 63) as Hv63 by (change (2 ^ 63) with (128 * 256 ^ 7); lia).
    rewrite wrap64_small in Hk by lia. destruct (Z.leb_spec (be_value (b0 :: d)) 0xFFFF); [done|].
    simplify_eq. rewrite (proj2 (Z.ltb_ge _ 126)), (proj2 (Z.leb_gt _ 0xFFFF)) by lia.
    rewrite put_be64_eq. replace 8%nat with (length (b0 :: d)) by (simpl; lia).
    rewrite be_put_value. split_and!; (done || (simpl; lia)).
Qed.

(** ** What the parser accepts *)

Definition close_payload_ok (payload : bytes) : Prop :=
  payload = [] \/
  exists code reason, payload = put_be16 code ++ reason /\ 1000 <= code <= 4999 /\
    (code ∉ [1004; 1005; 1006; 1015]) /\ is_utf8 reason.

(** A frame as RFC 6455 wants it on a connection without extensions. *)
Record ws_frame_wf (f : WsFrame) : Prop := {
  wf_length : ws_payload_length (ws_header f) = blen (ws_payload f);
  wf_length_63 : blen (ws_payload f) < 2 ^ 63;
  wf_reserved : ws_rsv1 (ws_header f) = false /\ ws_rsv2 (ws_header f) = false /\
                ws_rsv3 (ws_header f) = false;
  wf_control : isControlFrame (ws_opcode (ws_header f)) = true ->
    ws_fin (ws_header f) = true /\ blen (ws_payload f) <= 125;
  wf_text : ws_opcode (ws_header f) = WsText -> ws_fin (ws_header f) = true -> is_utf8 (ws_payload f);
  wf_close : ws_opcode (ws_header f) = WsClose -> close_payload_ok (ws_payload f)
}.

Lemma is_utf8_nil : is_utf8 [].
Proof. exists []. by split. Qed.

Lemma close_code_spec code :
  valid_close_code code = true <-> 1000 <= code <= 4999 /\ code ∉ [1004; 1005; 1006; 1015].
Proof.
  unfold valid_close_code. rewrite !not_elem_of_cons. split.
  - intros. repeat split; try apply not_elem_of_nil; lia.
  - intros ([] & ? & ? & ? & ? & _). lia.
Qed.

Lemma check_payload_spec simd fin op payload :
  check_payload simd fin op payload = None <->
  (op = WsText -> fin = true -> is_utf8 payload) /\ (op = WsClose -> close_payload_ok payload).
Proof.
  destruct op; try (split; [split; congruence|reflexivity]).
  - cbn [check_payload]. destruct fin; cbn [andb]; [|split; [split; congruence|done]].
    destruct (isValidUtf8Bytes simd payload) eqn:Hu; simpl.
    + split; [split; [|congruence]|done]. intros _ _. by apply (isValidUtf8Bytes_spec simd).
    + split; [done|]. intros [Ht _]. specialize (Ht eq_refl eq_refl).
      apply (isValidUtf8Bytes_spec simd) in Ht. congruence.
  - unfold close_payload_ok. destruct payload as [|b0 [|b1 reason]]; cbn [check_payload].
    + split; [split; [congruence|by left]|done].
    + split; [done|]. intros [_ Hc]. destruct (Hc eq_refl) as [|(? & ? & ? & _)]; done.
    + replace (2 <? blen (b0 :: b1 :: reason)) with (negb (bool_decide (reason = [])))
        by (destruct reason; [done|]; symmetry; apply Z.ltb_lt; unfold blen; simpl; lia).
      pose proof (close_code_spec (get_be16 b0 b1)) as Hcode.
      split.
      * intros E. split; [congruence|]. intros _. right. exists (get_be16 b0 b1), reason.
        destruct (valid_close_code _); [|done]. destruct Hcode as [Hcode _]. specialize (Hcode eq_refl).
        rewrite put_get_be16. split_and!; [done|tauto|tauto|tauto|]. destruct (bool_decide_reflect (reason = [])) as [->|];
          [apply is_utf8_nil|]. simpl in E.
        apply (isValidUtf8Bytes_spec simd). by destruct (isValidUtf8Bytes simd reason).
      * intros [_ Hc]. destruct (Hc eq_refl) as [|(code & r & E & Hr & Hn & Hu)]; [done|].
        unfold put_be16 in E. simpl in E. simplify_eq. rewrite get_put_be16 in Hcode |- * by lia.
        rewrite (proj2 Hcode) by done. simpl. rewrite (proj2 (isValidUtf8Bytes_spec simd r)) by done.
        by rewrite andb_false_r.
Qed.

Definition wire (f : WsFrame) (use_mask : bool) : bytes :=
  ws_encode false f use_mask (ws_masking_key (ws_header f)).

Lemma ws_encode_eq simd f m key :
  (m = true -> length key = 4%nat) ->
  ws_encode simd f m key =
  appendWsFrameHeader (ws_header f) (blen (ws_payload f)) m key ++
  (if m then mask_bytes key 0 (ws_payload f) else ws_payload f).
Proof.
  intros Hk. unfold ws_encode. destruct (Z.eqb_spec (blen (ws_payload f)) 0) as [E|E].
  - assert (ws_payload f = []) as -> by (destruct (ws_payload f); [done|unfold blen in E; simpl in E; lia]).
    simpl. by destruct m; rewrite app_nil_r.
  - destruct m; [|done]. by rewrite applyMaskBytes_bytewise by auto.
Qed.

(** The frame the parser builds from the fields it read. *)
Definition built (fin : bool) (op : WsOpcode) (m : bool) (key payload : bytes) : WsFrame :=
  mkWsFrame (mkWsHeader (blen payload) op key fin false false false m) payload.

Lemma wire_built fin op m key payload :
  (m = true -> length key = 4%nat) ->
  wire (built fin op m key payload) m =
  header_byte1 fin op :: length_octets (mask_bit m) (blen payload) ++
  (if m then key else []) ++ (if m then mask_bytes key 0 payload else payload).
Proof.
  intros Hk. unfold wire. simpl. rewrite ws_encode_eq by done. unfold appendWsFrameHeader. simpl.
  by rewrite <- app_assoc.
Qed.

Lemma wire_split fin op m key payload rest k :
  (m = true -> length key = 4%nat) -> blen payload < 2 ^ 63 ->
  exists byte2 ext,
    let body := (if m then key else []) ++
                ((if m then mask_bytes key 0 payload else payload) ++ rest) in
    wire (built fin op m key payload) m ++ rest = [header_byte1 fin op] ++ [byte2] ++ (ext ++ body) /\
    negb (Z.land (b2z byte2) 0x80 =? 0) = m /\
    parse_length (b2z byte2) (mkFlat (ext ++ body) k) =
      Value (blen payload, mkFlat body (k + blen ext)) /\
    blen (wire (built fin op m key payload) m) =
      2 + blen ext + (if m then 4 else 0) + blen payload.
Proof.
  intros Hk H63. pose proof (blen_nonneg payload) as H0.
  destruct (parse_length_encode m (blen payload)
    ((if m then key else []) ++ (if m then mask_bytes key 0 payload else payload) ++ rest) k)
    as (byte2 & ext & Ho & Hm & Hp); [lia|].
  exists byte2, ext. rewrite wire_built, Ho by done. split_and!.
  - simpl. by rewrite <- !app_assoc.
  - done.
  - exact Hp.
  - rewrite !blen_cons, !blen_app. destruct m; [|rewrite (@blen_nil byte)]; unfold blen;
      rewrite ?length_mask_bytes, ?Hk by done; simpl; lia.
Qed.

Lemma blen_masked m key payload :
  blen (if m : bool then mask_bytes key 0 payload else payload) = blen payload.
Proof. destruct m; [|done]. unfold blen. by rewrite length_mask_bytes. Qed.

Lemma mask_twice simd (m : bool) key payload :
  (m = true -> length key = 4%nat) ->
  (if m then applyMaskBytes simd key (if m then mask_bytes key 0 payload else payload)
   else (if m then mask_bytes key 0 payload else payload)) = payload.
Proof.
  intros Hk. destruct m; [|done]. rewrite applyMaskBytes_bytewise by auto.
  apply mask_bytes_involutive.
Qed.

Definition checked {A} (e : option WsErrorCode) (v : A) : outcome WsErrorCode A :=
  match e with Some e => Unexpected e | None => Value v end.

Lemma read_payload_flat simd fin op (m : bool) key payload rest k :
  (m = true -> length key = 4%nat) ->
  read_payload simd (mkFlat ((if m then mask_bytes key 0 payload else payload) ++ rest) k)
    fin op m key (blen payload) =
  checked (check_payload simd fin op payload) (built fin op m key payload, k + blen payload).
Proof.
  intros Hk. pose proof (mask_twice simd m key payload Hk) as Hm.
  pose proof (blen_masked m key payload) as Hb. revert Hm Hb.
  generalize (if m then mask_bytes key 0 payload else payload) as masked. intros masked Hm Hb.
  unfold read_payload. pose proof (blen_nonneg rest). pose proof (blen_nonneg payload).
  cbn [cursor_remaining readBytes consumed flat_byte_cursor fl_rest fl_count].
  rewrite (proj2 (Z.ltb_ge _ _)), (proj2 (Z.leb_le _ _)) by (rewrite blen_app; lia).
  rewrite <- Hb, take_blen, drop_blen. unfold checked.
  destruct (Z.ltb_spec 0 (blen masked)) as [Hp|Hp]; cbn [obind fst snd consumed fl_count].
  - by rewrite Hm, Hb.
  - assert (masked = []) as -> by (destruct masked; [done|unfold blen in Hp; simpl in Hp; lia]).
    rewrite Hm. unfold built. by rewrite <- Hb, (@blen_nil byte), Z.add_0_r.
Qed.

Lemma read_key_flat (m : bool) key f0 body k :
  (if m then length key = 4%nat else key = ws_masking_key (ws_header f0)) ->
  read_key (mkFlat ((if m then key else []) ++ body) k) m f0 =
  Value (key, mkFlat body (k + (if m then 4 else 0))).
Proof.
  intros Hk. unfold read_key. destruct m; [|by rewrite Hk, Z.add_0_r].
  by rewrite flat_read by (unfold blen; by rewrite Hk).
Qed.

(** The answer to any frame whose header is legal. *)
Lemma parse_flat_built simd fin op (m : bool) key payload rest f0 :
  let f := built fin op m key payload in
  blen payload < 2 ^ 63 -> (isControlFrame op = true -> fin = true) ->
  (if m then length key = 4%nat else key = ws_masking_key (ws_header f0)) ->
  parse_flat simd (wire f m ++ rest) f0 m =
  if isControlFrame op && (125 <? blen payload) then Unexpected kWsControlFrameTooLarge
  else checked (check_payload simd fin op payload) (f, blen (wire f m)).
Proof.
  intros f H63 Hctl Hkey. simpl in *.
  assert (m = true -> length key = 4%nat) as Hk by (intros ->; done).
  destruct (wire_split fin op m key payload rest 2 Hk H63) as (b2 & ext & Hw & Hm & Hp & Hl).
  unfold f, parse_flat. rewrite Hw, Hl. unfold parse_frame.
  rewrite (proj2 (Z.ltb_ge _ 2)) by (rewrite !blen_app; unfold blen; simpl; lia).
  rewrite flat_read by done. cbn [obind fst snd]. change (first_byte [?x]) with (b2z x).
  rewrite parse_byte1_header by done. cbn [obind fst snd].
  rewrite flat_read by done. cbn [obind fst snd]. change (first_byte [b2]) with (b2z b2).
  change (0 + 1 + 1) with 2. rewrite Hm, Hp. cbn [obind fst snd].
  rewrite andb_negb_r, andb_negb_l. destruct (_ && _); [done|].
  rewrite read_key_flat by done. cbn [obind fst snd]. by rewrite read_payload_flat by done.
Qed.

Lemma parse_flat_wire simd fin op (m : bool) key payload rest f0 :
  let f := built fin op m key payload in
  ws_frame_wf f -> (if m then length key = 4%nat else key = ws_masking_key (ws_header f0)) ->
  parse_flat simd (wire f m ++ rest) f0 m = Value (f, blen (wire f m)).
Proof.
  intros f [_ H63 _ Hctl Htext Hclose] Hkey. simpl in *.
  unfold f. rewrite parse_flat_built by (done || (intros; by apply Hctl)).
  rewrite (proj2 (check_payload_spec simd fin op payload)) by done.
  destruct (isControlFrame op); [|done]. rewrite (proj2 (Z.ltb_ge _ _)) by (by apply Hctl). done.
Qed.

(** Conversely, what the parser accepts is an encoding. *)
Lemma read_payload_inv simd c fin op (m : bool) key len f n :
  (m = true -> length key = 4%nat) -> 0 <= len ->
  read_payload simd c fin op m key len = Value (f, n) ->
  exists payload rest, f = built fin op m key payload /\ blen payload = len /\
    fl_rest c = (if m then mask_bytes key 0 payload else payload) ++ rest /\
    n = fl_count c + len /\ check_payload simd fin op payload = None.
Proof.
  intros Hk Hlen. unfold read_payload.
  cbn [cursor_remaining readBytes consumed flat_byte_cursor]. destruct (Z.ltb_spec (blen (fl_rest c)) len); [done|].
  intros Hb. apply obind_value in Hb as ([d c'] & Hd & Hc). cbn [fst snd] in Hc.
  assert (fl_rest c = d ++ fl_rest c' /\ blen d = len /\ fl_count c' = fl_count c + len) as (E1 & E2 & E3).
  { destruct (Z.ltb_spec 0 len).
    - rewrite (proj2 (Z.leb_le _ _)) in Hd by lia. simplify_eq. simpl. rewrite take_drop.
      split_and!; try done. unfold blen in *. rewrite length_take. lia.
    - simplify_eq. split_and!; [done| |]; try lia. rewrite (@blen_nil byte). lia. }
  set (payload := if m then applyMaskBytes simd key d else d) in Hc.
  assert (d = if m then mask_bytes key 0 payload else payload) as Hm.
  { unfold payload. destruct m; [|done]. rewrite applyMaskBytes_bytewise by auto.
    symmetry. apply mask_bytes_involutive. }
  assert (blen payload = len) as Hl by (rewrite <- E2, Hm; symmetry; apply blen_masked).
  destruct (check_payload _ _ _ payload) eqn:Hcheck; [done|]. simplify_eq Hc. intros <- <-.
  exists payload, (fl_rest c'). unfold built. rewrite Hl, <- Hm. split_and!; (done || lia).
Qed.

Lemma read1_then {A} c (k : bytes * flat_cursor -> outcome WsErrorCode A) v :
  obind (read_or_incomplete c 1) k = Value v ->
  exists x rest, fl_rest c = x :: rest /\ k ([x], mkFlat rest (fl_count c + 1)) = Value v.
Proof.
  intros Hp. apply read_then in Hp as (d & rest & Hd & Hl & Hp); [|lia].
  destruct d as [|x [|]]; [done|by exists x, rest|unfold blen in Hl; simpl in Hl; lia].
Qed.

Lemma read_key_inv c (m : bool) f0 key c' :
  read_key c m f0 = Value (key, c') ->
  (if m then length key = 4%nat else key = ws_masking_key (ws_header f0)) /\
  fl_rest c = (if m then key else []) ++ fl_rest c' /\
  fl_count c' = fl_count c + (if m then 4 else 0).
Proof.
  unfold read_key. destruct m; intros Hkey.
  - apply flat_read_inv in Hkey as (? & Hl & ?); [|lia]. unfold blen in Hl. split_and!; try done. lia.
  - simplify_eq. split_and!; try done. lia.
Qed.

Lemma parse_flat_inv simd data f0 (s : bool) f n :
  parse_flat simd data f0 s = Value (f, n) ->
  exists fin op key payload rest, f = built fin op s key payload /\ ws_frame_wf f /\
    data = wire f s ++ rest /\ n = blen (wire f s) /\
    (if s then length key = 4%nat else key = ws_masking_key (ws_header f0)).
Proof.
  unfold parse_flat. destruct (_ <? 2); [done|]. unfold parse_frame. intros Hp.
  apply read1_then in Hp as (x1 & r1 & Hd1 & Hp). simpl in Hd1. cbn [fst snd] in Hp.
  apply obind_value in Hp as ([fin op] & Hb1 & Hp). cbn [fst snd] in Hp.
  change (first_byte [x1]) with (b2z x1) in Hb1. apply parse_byte1_inv in Hb1 as [-> Hctl].
  apply read1_then in Hp as (x2 & r2 & Hd2 & Hp). simpl in Hd2. cbn [fst snd] in Hp.
  change (first_byte [x2]) with (b2z x2) in Hp. cbv zeta in Hp.
  destruct (s && _) eqn:Hs1; [done|]. destruct (negb s && _) eqn:Hs2; [done|].
  assert (negb (Z.land (b2z x2) 0x80 =? 0) = s) as Hs by (destruct s, (_ =? 0); done).
  apply obind_value in Hp as ([len c3] & Hpl & Hp). cbn [fst snd] in Hp.
  apply parse_length_inv in Hpl as (ext & Ho & Hr & Hd3 & Hc3). rewrite Hs in *. simpl in Hd3, Hc3.
  destruct (isControlFrame op && _) eqn:Hbig; [done|].
  apply obind_value in Hp as ([key c4] & Hkey & Hp). cbn [fst snd] in Hp.
  apply read_key_inv in Hkey as (Hk & Hd4 & Hc4).
  apply read_payload_inv in Hp as (payload & rest & -> & <- & Hd5 & -> & Hcheck); [|by intros ->|lia].
  exists fin, op, key, payload, rest. apply check_payload_spec in Hcheck as [Htext Hclose].
  split_and!; [done| | | |done].
  - split; simpl; try (done || lia). intros Hop. split; [auto|]. rewrite Hop in Hbig. by apply Z.ltb_ge.
  - rewrite wire_built, Ho, Hd1, Hd2, Hd3, Hd4, Hd5 by (by intros ->). simpl. by rewrite <- !app_assoc.
  - rewrite wire_built, Ho, <- app_comm_cons, !blen_cons, !blen_app, blen_masked, Hc4, Hc3 by (by intros ->).
    destruct s; [unfold blen; rewrite Hk|rewrite (@blen_nil byte)]; lia.
Qed.

(** ** More input *)

Definition extends (more : bytes) (c d : flat_cursor) : Prop :=
  fl_rest d = fl_rest c ++ more /\ fl_count d = fl_count c.

(** Either the answer was "incomplete", or it stays what it was. *)
Definition settled {A} (x y : outcome WsErrorCode A) : Prop :=
  x = Unexpected kWsIncomplete \/ x = y.

Definition settled_read {A} (more : bytes) (x y : outcome WsErrorCode (A * flat_cursor)) : Prop :=
  x = Unexpected kWsIncomplete \/ same_step (extends more) x y.

Lemma settled_bind {A B} more (x : outcome WsErrorCode (A * flat_cursor)) y
    (k k' : A * flat_cursor -> outcome WsErrorCode B) :
  settled_read more x y -> (forall a c d, extends more c d -> settled (k (a, c)) (k' (a, d))) ->
  settled (obind x k) (obind y k').
Proof.
  intros [->|Hs] Hk; [by left|]. destruct x as [[a c]| |], y as [[b d]| |]; simpl in *; try done.
  - destruct Hs as [-> Hr]. by apply Hk.
  - right. by subst.
  - by right.
Qed.

Lemma settled_then {A B} more (x : outcome WsErrorCode (A * flat_cursor)) y
    (k k' : A * flat_cursor -> outcome WsErrorCode (B * flat_cursor)) :
  settled_read more x y -> (forall a c d, extends more c d -> settled_read more (k (a, c)) (k' (a, d))) ->
  settled_read more (obind x k) (obind y k').
Proof.
  intros [->|Hs] Hk; [by left|]. destruct x as [[a c]| |], y as [[b d]| |]; simpl in *; try done.
  - destruct Hs as [-> Hr]. by apply Hk.
  - right. by subst.
  - by right.
Qed.

Lemma read_settled more c d n :
  0 <= n -> extends more c d -> settled_read more (read_or_incomplete c n) (read_or_incomplete d n).
Proof.
  intros Hn [Hr Hc]. unfold read_or_incomplete. cbn [readBytes flat_byte_cursor].
  destruct (Z.leb_spec n (blen (fl_rest c))) as [Hl|]; [|by left]. right. rewrite Hr, Hc.
  pose proof (blen_nonneg more). rewrite (proj2 (Z.leb_le _ _)) by (rewrite blen_app; lia).
  unfold blen in Hl. rewrite take_app_le, drop_app_le by lia. by split.
Qed.

Lemma parse_length_settled more byte2 c d :
  extends more c d -> settled_read more (parse_length byte2 c) (parse_length byte2 d).
Proof.
  intros Hr. unfold parse_length. destruct (_ <? 126); [by right|]. destruct (_ =? 126).
  - eapply settled_then; [by apply read_settled|]. intros out c' d' Hr'. right. cbn [fst snd].
    destruct out as [|b0 [|b1 [|]]]; try done. destruct (_ <? 126); done.
  - eapply settled_then; [by apply read_settled|]. intros out c' d' Hr'. right. cbn [fst snd].
    destruct (negb _); [done|]. destruct (_ <=? 0xFFFF); done.
Qed.

Lemma read_payload_settled more simd c d fin op m key len :
  extends more c d ->
  settled (read_payload simd c fin op m key len) (read_payload simd d fin op m key len).
Proof.
  intros [Hr Hc]. unfold read_payload. cbn [cursor_remaining readBytes flat_byte_cursor].
  destruct (Z.ltb_spec (blen (fl_rest c)) len) as [|Hl]; [by left|]. right.
  rewrite Hr, Hc. pose proof (blen_nonneg more).
  rewrite (proj2 (Z.ltb_ge (blen (fl_rest c ++ more)) len)), (proj2 (Z.leb_le _ (blen (fl_rest c)))),
    (proj2 (Z.leb_le _ (blen (fl_rest c ++ more)))) by (rewrite ?blen_app; lia).
  unfold blen in Hl. rewrite take_app_le by lia.
  destruct (0 <? len); cbn [obind fst snd consumed fl_count flat_byte_cursor]; by rewrite ?Hc.
Qed.

Lemma parse_flat_settled simd data more f0 s :
  settled (parse_flat simd data f0 s) (parse_flat simd (data ++ more) f0 s).
Proof.
  unfold parse_flat. destruct (Z.ltb_spec (blen data) 2); [by left|].
  pose proof (blen_nonneg more). rewrite (proj2 (Z.ltb_ge _ 2)) by (rewrite blen_app; lia).
  unfold parse_frame. eapply (settled_bind more); [by apply read_settled|].
  intros o1 c1 d1 H1. cbn [fst snd].
  destruct (parse_byte1 _) as [[fin op]| |]; cbn [obind]; [|by right|by right].
  eapply settled_bind; [by apply read_settled|]. intros o2 c2 d2 H2. cbn [fst snd].
  destruct (s && _); [by right|]. destruct (negb s && _); [by right|].
  eapply settled_bind; [by apply parse_length_settled|]. intros len c3 d3 H3. cbn [fst snd].
  destruct (_ && _); [by right|]. eapply settled_bind.
  { unfold read_key. destruct (negb _); [by apply read_settled|by right]. }
  intros key c4 d4 H4. by eapply read_payload_settled.
Qed.

(** ** No read outside a fixed buffer *)

Lemma obind_safe {E A B} (m : outcome E A) (k : A -> outcome E B) :
  safe m -> (forall a, m = Value a -> safe (k a)) -> safe (obind m k).
Proof. destruct m; simpl; intros Hm Hk; [by apply Hk|done|done]. Qed.

Lemma parse_flat_safe simd data f0 s : safe (parse_flat simd data f0 s).
Proof.
  assert (forall c n, safe (@read_or_incomplete flat_cursor _ c n)) as Hread
    by (intros; unfold read_or_incomplete; by destruct (readBytes _ _)).
  unfold parse_flat. destruct (_ <? 2); [done|]. unfold parse_frame.
  apply obind_safe; [apply Hread|]. intros r1 _. apply obind_safe.
  { unfold parse_byte1. by repeat case_match. }
  intros b1 _. apply obind_safe; [apply Hread|]. intros r2 _. cbv zeta.
  destruct (s && _); [done|]. destruct (negb s && _); [done|]. apply obind_safe.
  { unfold parse_length. destruct (_ <? 126); [done|]. destruct (_ =? 126); (apply obind_safe; [apply Hread|]).
    - intros [d c'] Hr. apply flat_read_inv in Hr as (_ & Hl & _); [|lia].
      destruct d as [|? [|? [|]]]; try (unfold blen in Hl; simpl in Hl; lia). by cbn; case_match.
    - intros. by repeat case_match. }
  intros len _. destruct (_ && _); [done|]. apply obind_safe.
  { unfold read_key. destruct (negb _); [apply Hread|done]. }
  intros key _. unfold read_payload. destruct (_ <? _); [done|]. apply obind_safe.
  { destruct (0 <? _); [|done]. by destruct (readBytes _ _). }
  intros data' _. cbv zeta. by destruct (check_payload _ _ _ _).
Qed.

(** ** SIMD or not *)

Lemma isValidUtf8Bytes_simd simd data : isValidUtf8Bytes simd data = isValidUtf8Bytes false data.
Proof.
  pose proof (isValidUtf8Bytes_spec simd data). pose proof (isValidUtf8Bytes_spec false data).
  destruct (isValidUtf8Bytes simd data), (isValidUtf8Bytes false data); tauto || (symmetry; tauto).
Qed.

Lemma read_payload_simd simd (c : flat_cursor) fin op m key len :
  (m = true -> length key = 4%nat) ->
  read_payload simd c fin op m key len = read_payload false c fin op m key len.
Proof.
  intros Hk. unfold read_payload. destruct (_ <? _); [done|].
  destruct (if 0 <? len then _ else _) as [[d c']| |]; cbn [obind fst snd]; [|done|done].
  assert ((if m then applyMaskBytes simd key d else d) = if m then applyMaskBytes false key d else d) as ->
    by (destruct m; [|done]; by rewrite !applyMaskBytes_bytewise by auto).
  assert (forall p, check_payload simd fin op p = check_payload false fin op p) as Hc; [|by rewrite Hc].
  intros p. destruct op; try done; cbn [check_payload]; [by rewrite isValidUtf8Bytes_simd|].
  destruct p as [|b0 [|b1 p]]; [done..|]. by rewrite isValidUtf8Bytes_simd.
Qed.

Lemma parse_flat_simd simd data f0 s : parse_flat simd data f0 s = parse_flat false data f0 s.
Proof.
  unfold parse_flat. destruct (_ <? 2); [done|]. unfold parse_frame.
  destruct (read_or_incomplete _ 1) as [r1| |]; cbn [obind]; [|done|done].
  destruct (parse_byte1 _) as [b1| |]; cbn [obind]; [|done|done].
  destruct (read_or_incomplete _ 1) as [r2| |]; cbn [obind]; [|done|done]. cbv zeta.
  destruct (s && _); [done|]. destruct (negb s && _); [done|].
  destruct (parse_length _ _) as [len| |]; cbn [obind]; [|done|done]. destruct (_ && _); [done|].
  destruct (read_key _ _ _) as [[key c]| |] eqn:Hk; cbn [obind]; [|done|done].
  apply read_payload_simd. apply read_key_inv in Hk as [Hk _]. intros Hm. by rewrite Hm in Hk.
Qed.

(** ** Lengths *)

Lemma blen_header h n m key :
  0 <= n -> (m = true -> length key = 4%nat) ->
  blen (appendWsFrameHeader h n m key) = wsFrameHeaderLength n m.
Proof.
  intros Hn Hk. unfold appendWsFrameHeader, wsFrameHeaderLength, length_octets.
  rewrite blen_cons, blen_app.
  assert (blen (if m then key else []) = if m then 4 else 0) as ->
    by (destruct m; [unfold blen; by rewrite Hk|done]).
  destruct (Z.ltb_spec n 126), (Z.leb_spec 126 n), (Z.leb_spec n 0xFFFF), (Z.ltb_spec 0xFFFF n);
    try lia; cbn [andb]; rewrite ?blen_cons, ?(@blen_nil byte); unfold blen; simpl; lia.
Qed.

(** ** The overload that works in place *)

Lemma shift_up (payload header : bytes) :
  let out := payload ++ replicate (length header) (z2b 0) in
  write_at (write_at out (length header) (take (length payload) out)) 0 header = header ++ payload.
Proof.
  intros out. unfold out. rewrite take_app_length.
  assert (exists a b, payload ++ replicate (length header) (z2b 0) = a ++ b ++ [] /\
    length header = length a /\ length payload = length b) as (a & b & -> & Ha & Hb).
  { eexists (take (length header) _), (drop (length header) _). rewrite app_nil_r, take_drop.
    split; [done|]. rewrite length_take, length_drop, length_app, length_replicate. lia. }
  rewrite (write_at_app a b []) by done. rewrite app_nil_r.
  by apply (write_at_app [] a payload header).
Qed.

Lemma encodeMessageInto_eq simd op payload fin m key :
  encodeMessageInto simd op payload fin m key =
  ws_encode simd (build_message op payload fin) m key.
Proof. done. Qed.

Lemma applyMaskBytes_length simd key data :
  length key = 4%nat -> length (applyMaskBytes simd key data) = length data.
Proof. intros. by rewrite applyMaskBytes_bytewise, length_mask_bytes. Qed.

Lemma encodeMessageInto_move_eq simd op payload fin (m : bool) key :
  (m = true -> length key = 4%nat) ->
  encodeMessageInto_move simd op payload fin m key = encodeMessageInto simd op payload fin m key.
Proof.
  intros Hk. unfold encodeMessageInto_move, encodeMessageInto. destruct payload as [|b payload]; [done|].
  rewrite shift_up. replace (blen (b :: payload) =? 0) with false
    by (symmetry; apply Z.eqb_neq; unfold blen; simpl; lia).
  destruct m; [|done]. rewrite drop_app_length, take_all_blen.
  set (h := appendWsFrameHeader _ _ _ _).
  pose proof (write_at_app h (b :: payload) [] (applyMaskBytes simd key (b :: payload)) (length h)) as Hw.
  rewrite !app_nil_r in Hw. apply Hw; [done|]. by apply applyMaskBytes_length, Hk.
Qed.

Lemma blen_encode simd f (m : bool) key :
  (m = true -> length key = 4%nat) ->
  blen (ws_encode simd f m key) =
  wsFrameHeaderLength (blen (ws_payload f)) m + blen (ws_payload f).
Proof.
  intros Hk. rewrite ws_encode_eq, blen_app, blen_masked, blen_header by done || apply blen_nonneg. done.
Qed.

Lemma check_close simd fin code reason :
  check_payload simd fin WsClose (buildWsClosePayload code reason) =
  if bool_decide (close_code_to_u16 code ∈ [1005; 1006; 1015]) then Some kWsInvalidCloseCode
  else if isValidUtf8Bytes simd reason then None else Some kWsInvalidUtf8.
Proof.
  unfold buildWsClosePayload, put_be16. cbn [app check_payload].
  rewrite get_put_be16 by (destruct code; simpl; lia).
  assert ((2 <? blen (byte_at (close_code_to_u16 code) 8 :: byte_at (close_code_to_u16 code) 0 :: reason)) &&
          negb (isValidUtf8Bytes simd reason) = negb (isValidUtf8Bytes simd reason)) as ->.
  { destruct reason; [by destruct simd|]. rewrite (proj2 (Z.ltb_lt _ _)); [done|].
    unfold blen. simpl. lia. }
  generalize (isValidUtf8Bytes simd reason) as valid. intros valid. by destruct code, valid.
Qed.

(** ** The codec *)

(** The frame the peer sees: the octets sent, under the sender's key. *)
Definition received (f : WsFrame) (use_mask : bool) (key : bytes) (f0 : WsFrame) : WsFrame :=
  built (ws_fin (ws_header f)) (ws_opcode (ws_header f)) use_mask
    (if use_mask then key else ws_masking_key (ws_header f0)) (ws_payload f).

Lemma ws_encode_received simd f (m : bool) key f0 :
  (ws_rsv1 (ws_header f) = false /\ ws_rsv2 (ws_header f) = false /\ ws_rsv3 (ws_header f) = false) ->
  (m = true -> length key = 4%nat) -> ws_encode simd f m key = wire (received f m key f0) m.
Proof.
  intros (R1 & R2 & R3) Hk. unfold received, wire. simpl.
  assert (forall k, (m = true -> k = key) ->
    appendWsFrameHeader (ws_header f) (blen (ws_payload f)) m key =
    appendWsFrameHeader (ws_header (built (ws_fin (ws_header f)) (ws_opcode (ws_header f)) m k (ws_payload f)))
      (blen (ws_payload f)) m k) as Hh.
  { intros k Ek. unfold appendWsFrameHeader. simpl. rewrite R1, R2, R3.
    destruct m; [by rewrite Ek|done]. }
  destruct m; rewrite !ws_encode_eq by done; f_equal; by apply Hh.
Qed.

Lemma parse_received_any simd f (m : bool) key f0 rest :
  blen (ws_payload f) < 2 ^ 63 ->
  (isControlFrame (ws_opcode (ws_header f)) = true -> ws_fin (ws_header f) = true) ->
  (m = true -> length key = 4%nat) ->
  parse_flat simd (wire (received f m key f0) m ++ rest) f0 m =
  if isControlFrame (ws_opcode (ws_header f)) && (125 <? blen (ws_payload f))
  then Unexpected kWsControlFrameTooLarge
  else checked (check_payload simd (ws_fin (ws_header f)) (ws_opcode (ws_header f)) (ws_payload f))
         (received f m key f0, blen (wire (received f m key f0) m)).
Proof. intros. apply parse_flat_built; [done|done|by destruct m; [auto|]]. Qed.

Lemma parse_received simd f (m : bool) key f0 rest :
  ws_frame_wf f -> (m = true -> length key = 4%nat) ->
  parse_flat simd (wire (received f m key f0) m ++ rest) f0 m =
  Value (received f m key f0, blen (wire (received f m key f0) m)).
Proof. intros [] Hk. apply parse_flat_wire; [by split|by destruct m; [apply Hk|]]. Qed.

Lemma parse_prefix_incomplete simd f (m : bool) key f0 pre more :
  ws_frame_wf f -> (m = true -> length key = 4%nat) ->
  pre ++ more = wire (received f m key f0) m -> more <> [] ->
  parse_flat simd pre f0 m = Unexpected kWsIncomplete.
Proof.
  intros Hf Hk E Hmore. destruct (parse_flat_settled simd pre more f0 m) as [|Hs]; [done|]. exfalso.
  revert Hs. rewrite E, <- (app_nil_r (wire _ _)), parse_received by done.
  intros (? & ? & ? & ? & rest & Ef & _ & Hd & Hn & _)%parse_flat_inv.
  apply (f_equal blen) in Hd, E. rewrite blen_app in Hd, E. pose proof (blen_nonneg rest).
  assert (0 < blen more) by (destruct more; [done|unfold blen; simpl; lia]). lia.
Qed.

(** fragmentation: the answer of the parser depends only on the octets received, not on how they
    are spread over buffers nor on the use of SIMD, and no fixed-size field is read out of bounds. *)
Theorem fromIOVec_fragmentation simd simd' iovecs iovecs' f0 is_server :
  concat iovecs = concat iovecs' -> blen (concat iovecs) < 2 ^ 64 ->
  fromIOVec simd iovecs f0 is_server = fromIOVec simd' iovecs' f0 is_server /\
  safe (fromIOVec simd iovecs f0 is_server).
Proof.
  intros E Hl. rewrite !fromIOVec_flat by congruence. rewrite <- E. split; [|apply parse_flat_safe].
  rewrite parse_flat_simd. symmetry. apply parse_flat_simd.
Qed.

(** C31: round trip: whatever octets follow, and however the input is split, the peer reads back the
    frame that was encoded and consumes exactly its encoding. *)
Theorem ws_roundtrip simd simd' f (use_mask : bool) key iovecs rest f0 :
  ws_frame_wf f -> (use_mask = true -> length key = 4%nat) ->
  concat iovecs = ws_encode simd f use_mask key ++ rest -> blen (concat iovecs) < 2 ^ 64 ->
  fromIOVec simd' iovecs f0 use_mask =
  Value (received f use_mask key f0, blen (ws_encode simd f use_mask key)).
Proof.
  intros Hf Hk E Hl. rewrite fromIOVec_flat, E by done.
  rewrite (ws_encode_received simd f use_mask key f0) by (apply Hf || done).
  by apply parse_received.
Qed.

(** the parser accepts nothing else: an accepted frame is well formed, is masked exactly when the
    receiver is the server, and the octets consumed are its own encoding. *)
Theorem ws_accepts_only_encodings simd simd' iovecs f0 is_server f n :
  blen (concat iovecs) < 2 ^ 64 -> fromIOVec simd iovecs f0 is_server = Value (f, n) ->
  ws_frame_wf f /\ ws_mask (ws_header f) = is_server /\
  exists rest, n = blen (ws_encode simd' f is_server (ws_masking_key (ws_header f))) /\
    concat iovecs = ws_encode simd' f is_server (ws_masking_key (ws_header f)) ++ rest.
Proof.
  intros Hl. rewrite fromIOVec_flat by done. intros Hp.
  apply parse_flat_inv in Hp as (fin & op & key & payload & rest & -> & Hwf & Hd & -> & Hk).
  split; [done|]. split; [done|]. exists rest.
  assert (is_server = true -> length key = 4%nat) as Hk' by (intros ->; done).
  rewrite ws_encode_eq by done. rewrite Hd. unfold wire. by rewrite ws_encode_eq by done.
Qed.

(** streaming: an answer other than "incomplete" does not change when more octets arrive, and
    every strict prefix of the encoding of a well-formed frame is answered "incomplete". *)
Theorem ws_streaming simd iovecs iovecs' more f0 is_server :
  concat iovecs' = concat iovecs ++ more -> blen (concat iovecs') < 2 ^ 64 ->
  (fromIOVec simd iovecs f0 is_server <> Unexpected kWsIncomplete ->
   fromIOVec simd iovecs' f0 is_server = fromIOVec simd iovecs f0 is_server) /\
  (forall f key, ws_frame_wf f -> (is_server = true -> length key = 4%nat) ->
     concat iovecs' = ws_encode simd f is_server key -> more <> [] ->
     fromIOVec simd iovecs f0 is_server = Unexpected kWsIncomplete).
Proof.
  intros E Hl. pose proof (blen_nonneg more).
  assert (blen (concat iovecs) < 2 ^ 64) as Hl1 by (rewrite E, blen_app in Hl; lia).
  rewrite !fromIOVec_flat by done. split.
  - destruct (parse_flat_settled simd (concat iovecs) more f0 is_server) as [|Hs]; [done|].
    by rewrite E, Hs.
  - intros f key Hf Hk Henc Hmore. apply (parse_prefix_incomplete simd f is_server key f0 _ more); try done.
    rewrite <- E, Henc. apply ws_encode_received; [apply Hf|done].
Qed.

(** the three serializers write the same octets: the one that works inside the payload's own
    buffer, the one that copies the payload, and the one that serializes a frame built from the same
    message; their length is what [wsFrameHeaderLength] announces plus the payload. *)
Theorem ws_encoders_agree simd op payload fin (use_mask : bool) key :
  (use_mask = true -> length key = 4%nat) ->
  encodeMessageInto_move simd op payload fin use_mask key =
    ws_encode simd (build_message op payload fin) use_mask key /\
  encodeMessageInto simd op payload fin use_mask key =
    ws_encode simd (build_message op payload fin) use_mask key /\
  encodeMessageInto simd op payload fin use_mask key =
    toBytesHeader (build_message op payload fin) use_mask key ++
    (if use_mask then applyMaskBytes simd key payload else payload) /\
  blen (encodeMessageInto simd op payload fin use_mask key) =
    wsFrameHeaderLength (blen payload) use_mask + blen payload.
Proof.
  intros Hk. rewrite encodeMessageInto_move_eq, encodeMessageInto_eq by done. split_and!; try done.
  - rewrite ws_encode_eq by done. unfold toBytesHeader. f_equal.
    destruct use_mask; [|done]. by rewrite applyMaskBytes_bytewise by auto.
  - by apply blen_encode.
Qed.

(** closing: the frame [createCloseFrame] builds is accepted by the peer exactly when the reason
    fits a control frame and is UTF-8 and the code is not one of the three that never travel; every
    other case is refused with the error named here. *)
Theorem createCloseFrame_answer simd simd' code reason (is_server : bool) key iovecs f0 :
  (is_server = true -> length key = 4%nat) -> blen reason < 2 ^ 62 ->
  concat iovecs = ws_encode simd (createCloseFrame code reason) is_server key ->
  fromIOVec simd' iovecs f0 is_server =
  if 123 <? blen reason then Unexpected kWsControlFrameTooLarge
  else if bool_decide (close_code_to_u16 code ∈ [1005; 1006; 1015])
  then Unexpected kWsInvalidCloseCode
  else if isValidUtf8Bytes simd' reason
  then Value (received (createCloseFrame code reason) is_server key f0,
              blen (ws_encode simd (createCloseFrame code reason) is_server key))
  else Unexpected kWsInvalidUtf8.
Proof.
  intros Hk Hr E. set (f := createCloseFrame code reason) in *.
  assert (blen (ws_payload f) = 2 + blen reason) as Hp by (unfold f, blen; simpl; lia).
  pose proof (blen_encode simd f is_server key Hk) as Hl. rewrite Hp in Hl.
  assert (wsFrameHeaderLength (2 + blen reason) is_server <= 14)
    by (unfold wsFrameHeaderLength; repeat case_match; lia).
  rewrite fromIOVec_flat, E by (rewrite ?E; lia).
  rewrite (ws_encode_received simd f is_server key f0) by done.
  rewrite <- (app_nil_r (wire (received f is_server key f0) is_server)) at 1.
  rewrite parse_received_any, Hp by (done || lia).
  replace (isControlFrame (ws_opcode (ws_header f)) && (125 <? 2 + blen reason))
    with (123 <? blen reason) by (unfold f; simpl; lia).
  destruct (123 <? blen reason); [done|].
  change (ws_opcode (ws_header f)) with WsClose.
  change (ws_payload f) with (buildWsClosePayload code reason). rewrite check_close.
  destruct (bool_decide _); [done|]. by destruct (isValidUtf8Bytes simd' reason).
Qed.

(** ** Witnesses *)

#[local] Abbreviation wkey := [z2b 0x37; z2b 0xfa; z2b 0x21; z2b 0x3d].
#[local] Abbreviation wframe := (createTextFrame (bs "Hello") true).

Lemma wframe_wf : ws_frame_wf wframe.
Proof.
  split; try done. intros _ _. apply (isValidUtf8Bytes_spec false). vm_compute. reflexivity.
Defined.

Lemma fromIOVec_fragmentation_witness :
  fromIOVec true [[z2b 0x81]; []; [z2b 0x05]; bs "Hel"; bs "lo!"] builder_start false =
  fromIOVec false [z2b 0x81 :: z2b 0x05 :: bs "Hello!"] builder_start false.
Proof.
  apply (fromIOVec_fragmentation true false [[z2b 0x81]; []; [z2b 0x05]; bs "Hel"; bs "lo!"]
    [z2b 0x81 :: z2b 0x05 :: bs "Hello!"] builder_start false); reflexivity.
Defined.

Lemma ws_roundtrip_witness :
  fromIOVec true [take 7 (ws_encode true wframe true wkey); drop 7 (ws_encode true wframe true wkey) ++ bs "more"]
    builder_start true = Value (received wframe true wkey builder_start, 11).
Proof.
  apply (ws_roundtrip true true wframe true wkey _ (bs "more") builder_start);
    [apply wframe_wf|done|vm_compute; reflexivity|vm_compute; reflexivity].
Defined.

Lemma ws_accepts_only_encodings_witness :
  ws_frame_wf (received wframe true wkey builder_start).
Proof.
  apply (ws_accepts_only_encodings true true [ws_encode true wframe true wkey] builder_start true
    (received wframe true wkey builder_start) 11); vm_compute; reflexivity.
Defined.

Lemma ws_streaming_witness :
  fromIOVec true [take 10 (ws_encode true wframe true wkey)] builder_start true =
  Unexpected kWsIncomplete.
Proof.
  destruct (ws_streaming true [take 10 (ws_encode true wframe true wkey)]
    [ws_encode true wframe true wkey] (drop 10 (ws_encode true wframe true wkey)) builder_start true
    eq_refl eq_refl) as [_ Hs].
  apply (Hs wframe wkey wframe_wf); [reflexivity|apply app_nil_r|discriminate].
Defined.

Lemma ws_encoders_agree_witness :
  encodeMessageInto_move true WsText (bs "Hello") true true wkey = ws_encode true wframe true wkey.
Proof. apply (ws_encoders_agree true WsText (bs "Hello") true true wkey). reflexivity. Defined.

Lemma createCloseFrame_answer_witness :
  fromIOVec true [ws_encode true (createCloseFrame WsNoStatusReceived (bs "bye")) true wkey]
    builder_start true = Unexpected kWsInvalidCloseCode.
Proof.
  apply (createCloseFrame_answer true true WsNoStatusReceived (bs "bye") true wkey
    [ws_encode true (createCloseFrame WsNoStatusReceived (bs "bye")) true wkey] builder_start);
    reflexivity.
Defined.
