(* ===== verification/WsReader.v ===== *)
(** * Reading WebSocket messages

    [galay-ws/kernel/ws_reader.h]: the message reader that parses frames out of the receive ring,
    reassembles fragments, and takes a shortcut for data frames. The ring is used through the
    interface of [RingBuffer]; the statistics counter [m_fast_path_frames], the staging buffer of
    the SSL path and the texts of the errors are left out. *)

From Stdlib Require Import ZArith Lia.
From stdpp Require Import base list strings.
From S2P Require Import Prelude RingBuffer WsPayload WsFrame.

Open Scope Z_scope.

(** ** The fast path's own parser *)

Record WsFastPathFramePrefix : Type := mkPrefix {
  px_fin : bool;
  px_opcode : WsOpcode;
  px_mask : bool;
  px_payload_length : Z;
  px_masking_key : bytes;
  px_payload_offset : Z;
  px_frame_length : Z
}.

(** [WsFastPathPrefixResult]: the status, with the prefix where it is [kContinue]. *)
Inductive WsFastPathPrefixResult : Type :=
| PrefixFallback
| PrefixNeedMore
| PrefixContinue (prefix : WsFastPathFramePrefix).

Definition wsIovecTotalLength (iovecs : list bytes) : Z :=
  foldl (fun total iov => wrap64 (total + blen iov)) 0 iovecs.

(** [wsReadIovecBytes]; [None] is [false]. *)
Fixpoint read_iovecs_loop (iovecs : list bytes) (cursor remaining : Z) (out : bytes) : option bytes :=
  match iovecs with
  | [] => None
  | iov :: iovecs =>
      if blen iov <=? cursor then read_iovecs_loop iovecs (cursor - blen iov) remaining out
      else
        let n := Z.min (blen iov - cursor) remaining in
        let out := out ++ take (Z.to_nat n) (drop (Z.to_nat cursor) iov) in
        let remaining := remaining - n in
        if remaining =? 0 then Some out else read_iovecs_loop iovecs 0 remaining out
  end.

Definition wsReadIovecBytes (iovecs : list bytes) (offset len : Z) : option bytes :=
  if len =? 0 then Some [] else read_iovecs_loop iovecs offset len [].

(** The payload length and the header length so far; [inl] ends the scan. *)
Definition scan_length (iovecs : list bytes) (total_length byte2 : Z) : WsFastPathPrefixResult + Z * Z :=
  let payload_length := Z.land byte2 0x7F in
  if payload_length =? 126 then
    if total_length <? 2 + 2 then inl PrefixNeedMore
    else
      match wsReadIovecBytes iovecs 2 2 with
      | Some [b0; b1] =>
          let payload_length := get_be16 b0 b1 in
          if payload_length <? 126 then inl PrefixFallback else inr (payload_length, 2 + 2)
      | _ => inl PrefixNeedMore
      end
  else if payload_length =? 127 then
    if total_length <? 2 + 8 then inl PrefixNeedMore
    else
      match wsReadIovecBytes iovecs 2 8 with
      | Some len_buf =>
          if negb (Z.land (first_byte len_buf) 0x80 =? 0) then inl PrefixFallback
          else
            let payload_length := foldl (fun n b => wrap64 (Z.lor (Z.shiftl n 8) (b2z b))) 0 len_buf in
            if payload_length <=? 0xFFFF then inl PrefixFallback else inr (payload_length, 2 + 8)
      | None => inl PrefixNeedMore
      end
  else inr (payload_length, 2).

Definition scanWsMessageFastPathPrefix (iovecs : list bytes) (is_server : bool) :
    WsFastPathPrefixResult :=
  let total_length := wsIovecTotalLength iovecs in
  if total_length <? 2 then PrefixNeedMore
  else
    match wsReadIovecBytes iovecs 0 1, wsReadIovecBytes iovecs 1 1 with
    | Some d1, Some d2 =>
        let byte1 := first_byte d1 in
        let byte2 := first_byte d2 in
        let opcode_value := Z.land byte1 0x0F in
        if negb (Z.land byte1 0x70 =? 0) then PrefixFallback
        else if (0x0A <? opcode_value) || ((0x02 <? opcode_value) && (opcode_value <? 0x08))
        then PrefixFallback
        else
          let fin := negb (Z.land byte1 0x80 =? 0) in
          let opcode := opcode_of_u8 opcode_value in
          if isControlFrame opcode then PrefixFallback
          else
            let mask := negb (Z.land byte2 0x80 =? 0) in
            if (is_server && negb mask) || (negb is_server && mask) then PrefixFallback
            else
              match scan_length iovecs total_length byte2 with
              | inl r => r
              | inr (payload_length, header_length) =>
                  let key :=
                    if mask then
                      if total_length <? header_length + 4 then None
                      else wsReadIovecBytes iovecs header_length 4
                    else Some (ws_masking_key default_header) in
                  let header_length := if mask then header_length + 4 else header_length in
                  match key with
                  | None => PrefixNeedMore
                  | Some key =>
                      let frame_length := wrap64 (header_length + payload_length) in
                      if total_length <? frame_length then PrefixNeedMore
                      else PrefixContinue
                             (mkPrefix fin opcode mask payload_length key header_length frame_length)
                  end
              end
    | _, _ => PrefixNeedMore
    end.

(** ** The message reader *)

Record WsReaderSetting : Type := mkSetting {
  max_frame_size : Z;
  max_message_size : Z;
  auto_fragment : bool
}.

Inductive WsMessageFastPathStatus : Type := kFallback | kNeedMore | kContinue | kReturn.

Section Reader.
Context {B : Type} `{ByteRing B}.
Variables (simd : bool) (setting : WsReaderSetting) (is_server control_frame_callback : bool).

(** [rs_control] lists the calls made to the control frame callback. *)
Record WsMessageReadState : Type := mkRead {
  rs_ring : B;
  rs_message : bytes;
  rs_opcode : WsOpcode;
  rs_total_received : Z;
  rs_first_frame : bool;
  rs_error : option WsErrorCode;
  rs_control : list (WsOpcode * bytes)
}.

Definition setParseError (e : WsErrorCode) (st : WsMessageReadState) : WsMessageReadState :=
  mkRead (rs_ring st) (rs_message st) (rs_opcode st) (rs_total_received st) (rs_first_frame st)
    (Some e) (rs_control st).

Definition consume (n : Z) (st : WsMessageReadState) : WsMessageReadState :=
  mkRead (rb_consume n (rs_ring st)) (rs_message st) (rs_opcode st) (rs_total_received st)
    (rs_first_frame st) (rs_error st) (rs_control st).

Definition set_message (message : bytes) (opcode : WsOpcode) (first : bool) (st : WsMessageReadState) :
    WsMessageReadState :=
  mkRead (rs_ring st) message opcode (rs_total_received st) first (rs_error st) (rs_control st).

Definition add_control (opcode : WsOpcode) (payload : bytes) (st : WsMessageReadState) :
    WsMessageReadState :=
  if control_frame_callback
  then mkRead (rs_ring st) (rs_message st) (rs_opcode st) (rs_total_received st) (rs_first_frame st)
         (rs_error st) (rs_control st ++ [(opcode, payload)])
  else st.

(** The answer to an incomplete frame. *)
Definition need_more (st : WsMessageReadState) : bool * WsMessageReadState :=
  if max_message_size setting <?
     wrap64 (blen (rs_message st) + rs_total_received st + rb_readable (rs_ring st))
  then (true, setParseError kWsMessageTooLarge st)
  else (false, st).

(** One turn of the loop of [parseFromBuffer]: it returns, or goes round again. *)
Inductive turn : Type := Return (r : bool * WsMessageReadState) | Again (st : WsMessageReadState).

(** The turn through [WsFrameParser::fromIOVec]. *)
Definition parse_turn (read_iovecs : list bytes) (st : WsMessageReadState) : turn :=
  match fromIOVec simd read_iovecs (mkWsFrame default_header []) is_server with
  | OutOfBounds => Return (true, setParseError kWsUnknownError st)
  | Unexpected kWsIncomplete => Return (need_more st)
  | Unexpected e => Return (true, setParseError e st)
  | Value (frame, n) =>
      let st := consume n st in
      let fin := ws_fin (ws_header frame) in
      let opcode := ws_opcode (ws_header frame) in
      let payload := ws_payload frame in
      if max_frame_size setting <? ws_payload_length (ws_header frame)
      then Return (true, setParseError kWsMessageTooLarge st)
      else if isControlFrame opcode then
        if negb fin then Return (true, setParseError kWsControlFrameFragmented st)
        else Return (true, set_message payload opcode (rs_first_frame st) (add_control opcode payload st))
      else if rs_first_frame st && bool_decide (opcode = WsContinuation)
      then Return (true, setParseError kWsProtocolError st)
      else if negb (rs_first_frame st) && negb (bool_decide (opcode = WsContinuation))
      then Return (true, setParseError kWsProtocolError st)
      else
        let st :=
          if rs_first_frame st then set_message payload opcode false st
          else set_message (rs_message st ++ payload) (rs_opcode st) false st in
        if max_message_size setting <? blen (rs_message st)
        then Return (true, setParseError kWsMessageTooLarge st)
        else
          let frame_payload_utf8_validated := bool_decide (opcode = WsText) && fin in
          if fin then
            if bool_decide (rs_opcode st = WsText) && negb frame_payload_utf8_validated &&
               negb (isValidUtf8Bytes simd (rs_message st))
            then Return (true, setParseError kWsInvalidUtf8 st)
            else Return (true, st)
          else if rb_readable (rs_ring st) =? 0 then Return (false, st)
          else Again st
  end.

(** [std::string::resize]. *)
Definition resize (s : bytes) (n : nat) : bytes := take n s ++ replicate (n - length s) (z2b 0).

(** [tryFastPath]: the payload is written behind the message, or over it, and moved into place. *)
Definition tryFastPath (iovecs : list bytes) (st : WsMessageReadState) :
    WsMessageFastPathStatus * WsMessageReadState :=
  match scanWsMessageFastPathPrefix iovecs is_server with
  | PrefixFallback => (kFallback, st)
  | PrefixNeedMore => (kNeedMore, st)
  | PrefixContinue prefix =>
      let continuation := bool_decide (px_opcode prefix = WsContinuation) in
      let text := bool_decide (px_opcode prefix = WsText) in
      if (rs_first_frame st && continuation) || (negb (rs_first_frame st) && negb continuation)
      then (kReturn, setParseError kWsProtocolError (consume (px_frame_length prefix) st))
      else
        let payload_size := px_payload_length prefix in
        if (max_frame_size setting <? payload_size) || (max_message_size setting <? payload_size) ||
           (max_message_size setting - payload_size <? blen (rs_message st))
        then (kReturn, setParseError kWsMessageTooLarge st)
        else
          let old_size := length (rs_message st) in
          let replace_message := rs_first_frame st in
          let replace_fragment_prefix := replace_message && negb (px_fin prefix) in
          let write_offset := if replace_fragment_prefix then 0%nat else old_size in
          match (if 0 <? payload_size
                 then wsReadIovecBytes iovecs (px_payload_offset prefix) payload_size
                 else Some []) with
          | None => (kFallback, st)
          | Some data =>
              let size := (write_offset + Z.to_nat payload_size)%nat in
              let message := write_at (resize (rs_message st) size) write_offset data in
              let tail := drop write_offset message in
              let tail :=
                if px_mask prefix then applyMaskBytes simd (px_masking_key prefix) tail else tail in
              let message := write_at message write_offset tail in
              if text && px_fin prefix && negb (isValidUtf8Bytes simd tail)
              then (kReturn, setParseError kWsInvalidUtf8
                               (set_message (resize message old_size) (rs_opcode st)
                                  (rs_first_frame st) st))
              else
                let message :=
                  if replace_message then
                    resize
                      (if negb replace_fragment_prefix && negb (old_size =? 0)%nat &&
                          negb (payload_size =? 0)
                       then write_at message 0 (take (Z.to_nat payload_size) (drop old_size message))
                       else message)
                      (Z.to_nat payload_size)
                  else message in
                let st := set_message message
                            (if replace_message then px_opcode prefix else rs_opcode st) false
                            (consume (px_frame_length prefix) st) in
                if max_message_size setting <? blen message
                then (kReturn, setParseError kWsMessageTooLarge st)
                else if px_fin prefix && bool_decide (rs_opcode st = WsText) &&
                        negb (text && px_fin prefix) && negb (isValidUtf8Bytes simd message)
                then (kReturn, setParseError kWsInvalidUtf8 st)
                else ((if px_fin prefix then kReturn else kContinue), st)
          end
  end.

Definition loop_turn (enable_fast_path : bool) (st : WsMessageReadState) : turn :=
  match rb_read_iovecs (rs_ring st) with
  | [] => Return (false, st)
  | read_iovecs =>
      if enable_fast_path then
        match tryFastPath read_iovecs st with
        | (kReturn, st) => Return (true, st)
        | (kContinue, st) => if rb_readable (rs_ring st) =? 0 then Return (false, st) else Again st
        | (kNeedMore, st) => Return (need_more st)
        | (kFallback, st) => parse_turn read_iovecs st
        end
      else parse_turn read_iovecs st
  end.

(** [parseFromBuffer]; [None] is running out of fuel. *)
Fixpoint parse_loop (enable_fast_path : bool) (fuel : nat) (st : WsMessageReadState) :
    option (bool * WsMessageReadState) :=
  match fuel with
  | O => None
  | S fuel =>
      match loop_turn enable_fast_path st with
      | Return r => Some r
      | Again st => parse_loop enable_fast_path fuel st
      end
  end.

Definition parseFromBuffer (enable_fast_path : bool) (st : WsMessageReadState) :=
  parse_loop enable_fast_path (S (Z.to_nat (rb_readable (rs_ring st)))) st.

(** ** The read machine *)

Definition onBytesReceived (data : bytes) (st : WsMessageReadState) : WsMessageReadState :=
  mkRead (rb_receive data (rs_ring st)) (rs_message st) (rs_opcode st)
    (wrap64 (rs_total_received st + blen data)) (rs_first_frame st) (rs_error st) (rs_control st).

Definition prepareRecvWindow (st : WsMessageReadState) : bool * WsMessageReadState :=
  match rb_write_iovecs (rs_ring st) with
  | [] => (false, setParseError kWsConnectionError st)
  | _ => (true, st)
  end.

Definition onPeerClosed (st : WsMessageReadState) : WsMessageReadState :=
  setParseError kWsConnectionClosed st.

(** What a read of the socket gives: octets, none at all, or an error. *)
Inductive read_event : Type := Received (data : bytes) | PeerClosed | ReadFailed (disconnected : bool).

Definition onRead (e : read_event) (st : WsMessageReadState) : WsMessageReadState :=
  match e with
  | Received data => onBytesReceived data st
  | PeerClosed => onPeerClosed st
  | ReadFailed disconnected =>
      setParseError (if disconnected then kWsConnectionClosed else kWsConnectionError) st
  end.

(** [advance] and [onRead] in turn: the answer of [takeResult] with the state left, or a machine
    still waiting after the events given. *)
Inductive read_result : Type :=
| Completed (error : option WsErrorCode) (st : WsMessageReadState)
| Waiting (st : WsMessageReadState).

Definition takeResult (st : WsMessageReadState) : read_result := Completed (rs_error st) st.

Fixpoint read_machine (enable_fast_path : bool) (events : list read_event) (st : WsMessageReadState) :
    option read_result :=
  match parseFromBuffer enable_fast_path st with
  | None => None
  | Some (true, st) => Some (takeResult st)
  | Some (false, st) =>
      let '(window, st) := prepareRecvWindow st in
      if negb window then Some (takeResult st)
      else
        match events with
        | [] => Some (Waiting st)
        | Received data :: events =>
            read_machine enable_fast_path events (onRead (Received data) st)
        | e :: _ => Some (takeResult (onRead e st))
        end
  end.
End Reader.
Arguments WsMessageReadState B : clear implicits.

(** ** Reads from the ring's buffers *)

Lemma wsIovecTotalLength_concat iovecs : wsIovecTotalLength iovecs = wrap64 (blen (concat iovecs)).
Proof.
  unfold wsIovecTotalLength. change 0 with (wrap64 0).
  assert (forall v, foldl (fun total iov => wrap64 (total + blen iov)) (wrap64 v) iovecs =
                    wrap64 (v + blen (concat iovecs))) as Hf; [|exact (Hf 0)].
  induction iovecs as [|iov iovecs IH]; intros v; cbn [foldl concat].
  - by rewrite (@blen_nil byte), Z.add_0_r.
  - rewrite blen_app. replace (wrap64 (wrap64 v + blen iov)) with (wrap64 (v + blen iov))
      by (unfold wrap64; by rewrite Zplus_mod_idemp_l).
    rewrite IH. f_equal. lia.
Qed.

Definition sub (data : bytes) (off len : Z) : bytes := take (Z.to_nat len) (drop (Z.to_nat off) data).

Lemma read_iovecs_loop_spec iovecs cursor remaining out :
  0 <= cursor -> 0 < remaining ->
  read_iovecs_loop iovecs cursor remaining out =
  if cursor + remaining <=? blen (concat iovecs)
  then Some (out ++ sub (concat iovecs) cursor remaining) else None.
Proof.
  revert cursor remaining out. induction iovecs as [|iov iovecs IH]; intros cursor remaining out Hc Hr.
  { cbn [concat read_iovecs_loop]. by rewrite (proj2 (Z.leb_gt _ _)) by (rewrite (@blen_nil byte); lia). }
  cbn [read_iovecs_loop concat]. rewrite blen_app. unfold sub.
  destruct (Z.leb_spec (blen iov) cursor) as [Hs|Hs].
  - rewrite IH by (lia || unfold blen in *; lia). unfold sub.
    rewrite drop_app_ge by (unfold blen in *; lia).
    replace (Z.to_nat (cursor - blen iov)) with (Z.to_nat cursor - length iov)%nat by (unfold blen; lia).
    destruct (Z.leb_spec (cursor - blen iov + remaining) (blen (concat iovecs))),
      (Z.leb_spec (cursor + remaining) (blen iov + blen (concat iovecs))); done || lia.
  - rewrite drop_app_le by (unfold blen in *; lia).
    remember (Z.min (blen iov - cursor) remaining) as n eqn:Hn.
    assert (Z.of_nat (length (drop (Z.to_nat cursor) iov)) = blen iov - cursor) as Hl
      by (rewrite length_drop; unfold blen in *; lia).
    pose proof (blen_nonneg (concat iovecs)).
    destruct (Z.eqb_spec (remaining - n) 0) as [E|E].
    + rewrite (proj2 (Z.leb_le _ _)) by lia. rewrite take_app_le by lia. do 3 f_equal. lia.
    + rewrite IH by lia. unfold sub. rewrite drop_0, take_app_ge, <- app_assoc by lia.
      rewrite (take_ge (drop _ iov)) by lia.
      replace (Z.to_nat remaining - length (drop (Z.to_nat cursor) iov))%nat with (Z.to_nat (remaining - n)) by lia.
      destruct (Z.leb_spec (0 + (remaining - n)) (blen (concat iovecs))),
        (Z.leb_spec (cursor + remaining) (blen iov + blen (concat iovecs))); done || lia.
Qed.

Lemma wsReadIovecBytes_spec iovecs off len :
  0 <= off -> 0 <= len -> off + len <= blen (concat iovecs) ->
  wsReadIovecBytes iovecs off len = Some (sub (concat iovecs) off len).
Proof.
  intros Ho Hl Hb. unfold wsReadIovecBytes. destruct (Z.eqb_spec len 0) as [->|]; [done|].
  rewrite read_iovecs_loop_spec by lia. by rewrite (proj2 (Z.leb_le _ _)) by lia.
Qed.

Lemma sub_cons x l off len : 1 <= off -> sub (x :: l) off len = sub l (off - 1) len.
Proof.
  intros. unfold sub. replace (Z.to_nat off) with (S (Z.to_nat (off - 1))) by lia. done.
Qed.

(** ** The scan agrees with the parser *)

Lemma scan_byte1 b :
  negb (Z.land (b2z b) 0x70 =? 0) ||
  ((0x0A <? Z.land (b2z b) 0x0F) || ((0x02 <? Z.land (b2z b) 0x0F) && (Z.land (b2z b) 0x0F <? 0x08))) ||
  isControlFrame (opcode_of_u8 (Z.land (b2z b) 0x0F)) = true \/
  parse_byte1 (b2z b) = Value (negb (Z.land (b2z b) 0x80 =? 0), opcode_of_u8 (Z.land (b2z b) 0x0F)).
Proof. destruct b; vm_compute; (left; reflexivity) || (right; reflexivity). Qed.

Lemma flat_read_sub rest k n :
  0 <= n -> read_or_incomplete (mkFlat rest k) n =
  if n <=? blen rest then Value (sub rest 0 n, mkFlat (drop (Z.to_nat n) rest) (k + n))
  else Unexpected kWsIncomplete.
Proof.
  intros. unfold read_or_incomplete. cbn [readBytes flat_byte_cursor fl_rest fl_count].
  by destruct (n <=? blen rest).
Qed.

Section Scan.
Variables (iovecs : list bytes) (b1 b2 : byte) (tl : bytes).
Hypothesis Hdata : concat iovecs = b1 :: b2 :: tl.

Lemma read_tail off len :
  2 <= off -> 0 <= len -> off + len <= 2 + blen tl ->
  wsReadIovecBytes iovecs off len = Some (sub tl (off - 2) len).
Proof using Hdata.
  intros. rewrite wsReadIovecBytes_spec by (rewrite ?Hdata, ?blen_cons; lia).
  rewrite Hdata, !sub_cons by lia. do 2 f_equal. lia.
Qed.

Lemma scan_length_spec :
  match scan_length iovecs (2 + blen tl) (b2z b2) with
  | inl PrefixNeedMore => parse_length (b2z b2) (mkFlat tl 2) = Unexpected kWsIncomplete
  | inl PrefixFallback => True
  | inl (PrefixContinue _) => False
  | inr (len, hl) =>
      parse_length (b2z b2) (mkFlat tl 2) = Value (len, mkFlat (drop (Z.to_nat (hl - 2)) tl) hl) /\
      2 <= hl <= 10 /\ hl <= 2 + blen tl
  end.
Proof using Hdata.
  destruct (byte2_inv b2) as [_ Hr]. unfold scan_length, parse_length. revert Hr.
  generalize (Z.land (b2z b2) 0x7F). intros l Hl. pose proof (blen_nonneg tl).
  destruct (Z.eqb_spec l 126) as [->|N126]; [|destruct (Z.eqb_spec l 127) as [->|N127]].
  - change (126 <? 126) with false. cbv iota. rewrite flat_read_sub by lia. destruct (Z.ltb_spec (2 + blen tl) (2 + 2)).
    { by rewrite (proj2 (Z.leb_gt _ _)) by lia. }
    rewrite read_tail, (proj2 (Z.leb_le _ _)) by lia. cbn [obind fst snd].
    assert (exists x y r, tl = x :: y :: r) as (x & y & r & ->)
      by (destruct tl as [|? [|]]; unfold blen in *; simpl in *; try lia; eauto).
    unfold sub. simpl. destruct (_ <? 126); [done|]. split_and!; (done || lia).
  - change (127 <? 126) with false. cbv iota. rewrite flat_read_sub by lia. destruct (Z.ltb_spec (2 + blen tl) (2 + 8)).
    { by rewrite (proj2 (Z.leb_gt _ _)) by lia. }
    rewrite read_tail, (proj2 (Z.leb_le 8 (blen tl))) by lia. cbn [obind fst snd]. change (2 - 2) with 0.
    destruct (negb _); [done|]. destruct (_ <=? 0xFFFF); [done|]. split_and!; (done || lia).
  - rewrite (proj2 (Z.ltb_lt _ _)) by lia. cbv iota. split_and!; (done || lia).
Qed.
End Scan.

Lemma read_payload_value simd fin op (m : bool) key rest k len :
  (m = true -> length key = 4%nat) -> 0 <= len <= blen rest ->
  let raw := sub rest 0 len in
  let payload := if m then applyMaskBytes simd key raw else raw in
  read_payload simd (mkFlat rest k) fin op m key len =
    checked (check_payload simd fin op payload) (built fin op m key payload, k + len) /\
  blen payload = len.
Proof.
  intros Hk Hl raw payload.
  assert (blen raw = len) as Hr by (unfold raw, sub, blen in *; rewrite length_take, length_drop; lia).
  assert (blen payload = len) as Hp.
  { unfold payload. destruct m; [|done]. rewrite applyMaskBytes_bytewise by auto.
    unfold blen. rewrite length_mask_bytes. exact Hr. }
  split; [|done]. assert (rest = raw ++ drop (Z.to_nat len) rest) as -> by (symmetry; apply take_drop).
  assert (raw = if m then mask_bytes key 0 payload else payload) as Hm.
  { unfold payload. destruct m; [|done]. rewrite applyMaskBytes_bytewise by auto.
    symmetry. apply mask_bytes_involutive. }
  rewrite Hm at 1. rewrite <- Hp at 2. rewrite read_payload_flat by done. by rewrite Hp.
Qed.

Definition fresh : WsFrame := mkWsFrame default_header [].

(** What the scan promises about the parser's answer on the same octets. *)
Definition scan_agrees (simd is_server : bool) (data : bytes) (r : WsFastPathPrefixResult) : Prop :=
  match r with
  | PrefixFallback => True
  | PrefixNeedMore => parse_flat simd data fresh is_server = Unexpected kWsIncomplete
  | PrefixContinue p =>
      let raw := sub data (px_payload_offset p) (px_payload_length p) in
      let payload := if is_server then applyMaskBytes simd (px_masking_key p) raw else raw in
      isControlFrame (px_opcode p) = false /\ px_mask p = is_server /\
      0 <= px_payload_offset p /\ 0 <= px_payload_length p /\
      px_frame_length p = px_payload_offset p + px_payload_length p /\
      px_frame_length p <= blen data /\ 0 < px_frame_length p /\
      blen payload = px_payload_length p /\ length (px_masking_key p) = 4%nat /\
      parse_flat simd data fresh is_server =
        checked (check_payload simd (px_fin p) (px_opcode p) payload)
          (built (px_fin p) (px_opcode p) is_server (px_masking_key p) payload, px_frame_length p)
  end.

Lemma scan_key iovecs b1 b2 tl hl (m : bool) :
  concat iovecs = b1 :: b2 :: tl -> 2 <= hl <= 2 + blen tl ->
  match (if m then if 2 + blen tl <? hl + 4 then None else wsReadIovecBytes iovecs hl 4
         else Some (ws_masking_key default_header)) with
  | None => read_key (mkFlat (drop (Z.to_nat (hl - 2)) tl) hl) m fresh = Unexpected kWsIncomplete
  | Some key =>
      let hl' := if m then hl + 4 else hl in
      read_key (mkFlat (drop (Z.to_nat (hl - 2)) tl) hl) m fresh =
        Value (key, mkFlat (drop (Z.to_nat (hl' - 2)) tl) hl') /\
      length key = 4%nat /\ hl' <= 2 + blen tl
  end.
Proof.
  intros Hd Hl. unfold read_key. destruct m; [|split_and!; (done || lia)].
  assert (blen (drop (Z.to_nat (hl - 2)) tl) = 2 + blen tl - hl) as Hb
    by (unfold blen in *; rewrite length_drop; lia).
  rewrite flat_read_sub, Hb by lia. destruct (Z.ltb_spec (2 + blen tl) (hl + 4)).
  { by rewrite (proj2 (Z.leb_gt _ _)) by lia. }
  rewrite (read_tail iovecs b1 b2 tl Hd), (proj2 (Z.leb_le _ _)) by lia.
  unfold sub. rewrite drop_0, drop_drop. split_and!; [|rewrite length_take, length_drop; unfold blen in *; lia|lia].
  do 4 f_equal. lia.
Qed.

Lemma parse_flat_steps simd b1 b2 tl fin op s :
  parse_byte1 (b2z b1) = Value (fin, op) -> isControlFrame op = false ->
  negb (Z.land (b2z b2) 0x80 =? 0) = s ->
  parse_flat simd (b1 :: b2 :: tl) fresh s =
  (len <-- parse_length (b2z b2) (mkFlat tl 2) ;;
   key <-- read_key len.2 s fresh ;;
   read_payload simd key.2 fin op s key.1 len.1).
Proof.
  intros Hb1 Hctl Hm. unfold parse_flat, parse_frame. pose proof (blen_nonneg tl).
  rewrite (proj2 (Z.ltb_ge _ _)) by (rewrite !blen_cons; lia).
  rewrite (flat_read [b1] (b2 :: tl)) by done. cbn [obind fst snd]. change (first_byte [b1]) with (b2z b1).
  rewrite Hb1. cbn [obind fst snd]. rewrite (flat_read [b2] tl) by done. cbn [obind fst snd].
  change (first_byte [b2]) with (b2z b2). by rewrite Hm, andb_negb_r, andb_negb_l, Hctl.
Qed.

(** The last test of the scan: is the payload there? *)
Lemma scan_tail simd b1 b2 tl fin op s len c hl key :
  parse_byte1 (b2z b1) = Value (fin, op) -> isControlFrame op = false ->
  negb (Z.land (b2z b2) 0x80 =? 0) = s ->
  parse_length (b2z b2) (mkFlat tl 2) = Value (len, c) ->
  read_key c s fresh = Value (key, mkFlat (drop (Z.to_nat (hl - 2)) tl) hl) ->
  length key = 4%nat -> 2 <= hl <= 14 -> hl <= 2 + blen tl -> 0 <= len < 2 ^ 63 ->
  scan_agrees simd s (b1 :: b2 :: tl)
    (if 2 + blen tl <? wrap64 (hl + len) then PrefixNeedMore
     else PrefixContinue (mkPrefix fin op s len key hl (wrap64 (hl + len)))).
Proof.
  intros Hb1 Hctl Hm Hpl Hk Hkey Hhl Htl Hlen. rewrite wrap64_small by lia.
  pose proof (parse_flat_steps simd b1 b2 tl fin op s Hb1 Hctl Hm) as Hp.
  rewrite Hpl in Hp. cbn [obind fst snd] in Hp. rewrite Hk in Hp. cbn [obind fst snd] in Hp.
  assert (blen (drop (Z.to_nat (hl - 2)) tl) = 2 + blen tl - hl) as Hb
    by (unfold blen in *; rewrite length_drop; lia).
  destruct (Z.ltb_spec (2 + blen tl) (hl + len)) as [Hs|Hs]; cbn [scan_agrees].
  { rewrite Hp. unfold read_payload. cbn [cursor_remaining flat_byte_cursor fl_rest].
    by rewrite Hb, (proj2 (Z.ltb_lt _ _)) by lia. }
  cbn [px_opcode px_mask px_payload_offset px_payload_length px_masking_key px_frame_length px_fin].
  destruct (read_payload_value simd fin op s key (drop (Z.to_nat (hl - 2)) tl) hl len (fun _ => Hkey) ltac:(lia))
    as [Hv Hl].
  assert (sub (b1 :: b2 :: tl) hl len = sub (drop (Z.to_nat (hl - 2)) tl) 0 len) as ->.
  { rewrite !sub_cons by lia. unfold sub. rewrite drop_0. do 3 f_equal. lia. }
  rewrite !blen_cons. split_and!; try (done || lia). by rewrite Hp, Hv.
Qed.

Lemma scan_spec simd iovecs is_server :
  blen (concat iovecs) < 2 ^ 64 ->
  scan_agrees simd is_server (concat iovecs) (scanWsMessageFastPathPrefix iovecs is_server).
Proof.
  intros H64. unfold scanWsMessageFastPathPrefix. rewrite wsIovecTotalLength_concat.
  pose proof (blen_nonneg (concat iovecs)). rewrite wrap64_small by lia.
  destruct (Z.ltb_spec (blen (concat iovecs)) 2) as [Hs|Hs].
  { unfold scan_agrees, parse_flat. by rewrite (proj2 (Z.ltb_lt _ _)) by done. }
  rewrite !wsReadIovecBytes_spec by lia.
  destruct (concat iovecs) as [|b1 [|b2 tl]] eqn:Hd; try (unfold blen in Hs; simpl in Hs; lia).
  change (first_byte (sub (b1 :: b2 :: tl) 0 1)) with (b2z b1).
  change (first_byte (sub (b1 :: b2 :: tl) 1 1)) with (b2z b2).
  replace (blen (b1 :: b2 :: tl)) with (2 + blen tl) in * by (rewrite !blen_cons; lia).
  pose proof (scan_byte1 b1) as Hb1. cbv zeta.
  destruct (negb (Z.land (b2z b1) 0x70 =? 0)); [done|]. cbn [orb] in Hb1.
  destruct (_ || (_ && _)); [done|]. cbn [orb] in Hb1.
  destruct (isControlFrame (opcode_of_u8 _)) eqn:Hctl; [done|].
  destruct Hb1 as [|Hb1]; [done|].
  destruct ((is_server && _) || _) eqn:Hmask; [done|].
  assert (negb (Z.land (b2z b2) 0x80 =? 0) = is_server) as Hm
    by (destruct is_server, (Z.land (b2z b2) 0x80 =? 0); done).
  rewrite Hm. pose proof (scan_length_spec iovecs b1 b2 tl Hd) as Hlen.
  destruct (scan_length _ _ _) as [[| |]|[len hl]]; [done| |done|].
  { unfold scan_agrees. erewrite parse_flat_steps by done. by rewrite Hlen. }
  destruct Hlen as (Hpl & Hhl & Hhl2).
  destruct (parse_length_inv b2 _ _ _ Hpl) as (_ & _ & Hlen63 & _).
  pose proof (scan_key iovecs b1 b2 tl hl is_server Hd ltac:(lia)) as Hkey.
  destruct (if is_server then _ else Some _) as [key|].
  - destruct Hkey as (Hk & Hk4 & Hhl'). eapply scan_tail; (done || (destruct is_server; lia)).
  - unfold scan_agrees. erewrite parse_flat_steps by done. rewrite Hpl. cbn [obind fst snd]. by rewrite Hkey.
Qed.

(** ** The two paths, turn by turn *)

Section Paths.
Context {B : Type} `{ByteRing B} {laws : ByteRingLaws B}.
Variables (simd : bool) (setting : WsReaderSetting) (is_server callback : bool).

#[local] Abbreviation state := (WsMessageReadState B).

(** A state a read can be in: its ring is sound, nothing failed yet, and no part of a message is held
    before its first frame. *)
Definition reading (st : state) : Prop :=
  rb_ok (rs_ring st) /\ rb_capacity (rs_ring st) < 2 ^ 64 /\ rs_error st = None /\
  (rs_first_frame st = true -> rs_message st = []).

Lemma resize_grow (msg data : bytes) n :
  length data = n ->
  write_at (resize msg (length msg + n)) (length msg) data = msg ++ data.
Proof.
  intros Hn. unfold resize. rewrite take_ge by lia. replace (length msg + n - length msg)%nat with n by lia.
  rewrite <- (app_nil_r (replicate n _)). rewrite (write_at_app msg _ [] data) by (rewrite ?length_replicate; done).
  by rewrite app_nil_r.
Qed.

Lemma write_tail (msg data tail : bytes) :
  length tail = length data -> write_at (msg ++ data) (length msg) tail = msg ++ tail.
Proof.
  intros Hl. rewrite <- (app_nil_r data). rewrite (write_at_app msg data [] tail) by done.
  by rewrite app_nil_r.
Qed.

Lemma resize_front (msg data : bytes) : resize (msg ++ data) (length msg) = msg.
Proof.
  unfold resize. rewrite take_app_length, length_app.
  replace (length msg - _)%nat with 0%nat by lia. apply app_nil_r.
Qed.

Lemma resize_same (msg : bytes) n : length msg = n -> resize msg n = msg.
Proof. intros <-. rewrite <- (app_nil_r msg) at 1. apply resize_front. Qed.

(** What a data frame does to a reader, told once for both paths. *)
Definition violates (st : state) (op : WsOpcode) : bool :=
  (rs_first_frame st && bool_decide (op = WsContinuation)) ||
  (negb (rs_first_frame st) && negb (bool_decide (op = WsContinuation))).

Definition bad_text (fin : bool) (op : WsOpcode) (payload : bytes) : bool :=
  bool_decide (op = WsText) && fin && negb (isValidUtf8Bytes simd payload).

Definition absorbed (st : state) (op : WsOpcode) (payload : bytes) (n : Z) : state :=
  set_message (rs_message st ++ payload) (if rs_first_frame st then op else rs_opcode st) false
    (consume n st).

Definition bad_message (fin : bool) (op : WsOpcode) (st' : state) : bool :=
  fin && bool_decide (rs_opcode st' = WsText) && negb (bool_decide (op = WsText) && fin) &&
  negb (isValidUtf8Bytes simd (rs_message st')).

Definition too_large (st : state) (len : Z) : bool := max_message_size setting <? blen (rs_message st) + len.

Lemma tryFastPath_eq iovecs st p :
  reading st ->
  scanWsMessageFastPathPrefix iovecs is_server = PrefixContinue p ->
  scan_agrees simd is_server (concat iovecs) (PrefixContinue p) ->
  let raw := sub (concat iovecs) (px_payload_offset p) (px_payload_length p) in
  let payload := if is_server then applyMaskBytes simd (px_masking_key p) raw else raw in
  let st' := absorbed st (px_opcode p) payload (px_frame_length p) in
  tryFastPath simd setting is_server iovecs st =
  if violates st (px_opcode p)
  then (kReturn, setParseError kWsProtocolError (consume (px_frame_length p) st))
  else if (max_frame_size setting <? px_payload_length p) || too_large st (px_payload_length p)
  then (kReturn, setParseError kWsMessageTooLarge st)
  else if bad_text (px_fin p) (px_opcode p) payload then (kReturn, setParseError kWsInvalidUtf8 st)
  else if bad_message (px_fin p) (px_opcode p) st' then (kReturn, setParseError kWsInvalidUtf8 st')
  else ((if px_fin p then kReturn else kContinue), st').
Proof.
  intros (_ & _ & _ & Hfirst) Hscan (_ & Hm & Ho & Hl & Hfl & Hfb & _ & Hpl & Hk & _) raw payload st'.
  unfold tryFastPath. rewrite Hscan. fold (violates st (px_opcode p)). cbv zeta.
  destruct (violates st (px_opcode p)); [done|].
  assert ((max_frame_size setting <? px_payload_length p) || (max_message_size setting <? px_payload_length p) ||
          (max_message_size setting - px_payload_length p <? blen (rs_message st)) =
          (max_frame_size setting <? px_payload_length p) || too_large st (px_payload_length p)) as ->.
  { unfold too_large. pose proof (blen_nonneg (rs_message st)). lia. }
  destruct (_ || too_large _ _) eqn:Hsize; [done|]. apply orb_false_iff in Hsize as [_ Hsize].
  assert ((if rs_first_frame st && negb (px_fin p) then 0%nat else length (rs_message st)) =
          length (rs_message st)) as ->
    by (destruct (rs_first_frame st); [by rewrite Hfirst by done; destruct (px_fin p)|done]).
  assert ((if 0 <? px_payload_length p
           then wsReadIovecBytes iovecs (px_payload_offset p) (px_payload_length p) else Some []) = Some raw) as ->.
  { destruct (Z.ltb_spec 0 (px_payload_length p)); [apply wsReadIovecBytes_spec; lia|].
    unfold raw, sub. by replace (Z.to_nat (px_payload_length p)) with 0%nat by lia. }
  assert (length raw = Z.to_nat (px_payload_length p)) as Hraw
    by (unfold raw, sub, blen in *; rewrite length_take, length_drop; lia).
  assert (length payload = length raw) as Hlen by (unfold blen, payload, raw in *; lia).
  rewrite resize_grow, drop_app_length, Hm by done. fold payload. rewrite write_tail by done.
  rewrite resize_front. fold (bad_text (px_fin p) (px_opcode p) payload).
  destruct (bad_text _ _ payload) eqn:Hbad.
  { by destruct st. }
  set (message := if rs_first_frame st then _ else _).
  assert (message = rs_message st ++ payload) as Hmsg.
  { unfold message. destruct (rs_first_frame st) eqn:Hf; [|done]. rewrite Hfirst by done. cbn [length].
    rewrite andb_false_r. cbn [andb app]. apply resize_same. lia. }
  assert (blen (rs_message st ++ payload) = blen (rs_message st) + px_payload_length p) as Hb
    by (rewrite blen_app; unfold payload, raw in *; lia).
  rewrite Hmsg, Hb. unfold too_large in Hsize. rewrite Hsize. reflexivity.
Qed.
(** What the loop does once a data frame is absorbed. *)
Definition after_frame (fin : bool) (st : state) : turn :=
  if fin then Return (true, st)
  else if rb_readable (rs_ring st) =? 0 then Return (false, st) else Again st.

Lemma check_payload_data fin op payload :
  isControlFrame op = false ->
  check_payload simd fin op payload = if bad_text fin op payload then Some kWsInvalidUtf8 else None.
Proof. destruct op; intros; try done; unfold bad_text; simpl; by destruct fin. Qed.

Lemma parse_turn_eq iovecs st p :
  reading st -> blen (concat iovecs) < 2 ^ 64 ->
  scan_agrees simd is_server (concat iovecs) (PrefixContinue p) ->
  let raw := sub (concat iovecs) (px_payload_offset p) (px_payload_length p) in
  let payload := if is_server then applyMaskBytes simd (px_masking_key p) raw else raw in
  let st' := absorbed st (px_opcode p) payload (px_frame_length p) in
  parse_turn simd setting is_server callback iovecs st =
  if bad_text (px_fin p) (px_opcode p) payload then Return (true, setParseError kWsInvalidUtf8 st)
  else if max_frame_size setting <? px_payload_length p
  then Return (true, setParseError kWsMessageTooLarge (consume (px_frame_length p) st))
  else if violates st (px_opcode p)
  then Return (true, setParseError kWsProtocolError (consume (px_frame_length p) st))
  else if too_large st (px_payload_length p) then Return (true, setParseError kWsMessageTooLarge st')
  else if bad_message (px_fin p) (px_opcode p) st' then Return (true, setParseError kWsInvalidUtf8 st')
  else after_frame (px_fin p) st'.
Proof.
  intros (_ & _ & _ & Hfirst) H64 (Hctl & Hm & Ho & Hl & Hfl & Hfb & _ & Hpl & Hk & Hp) raw payload st'.
  unfold parse_turn. rewrite fromIOVec_flat by done. fold fresh.
  rewrite Hp, check_payload_data by done. fold raw. fold payload. fold raw in Hpl. fold payload in Hpl.
  destruct (bad_text _ _ payload); [done|]. cbn [checked]. cbv zeta.
  change (ws_fin (ws_header (built _ _ _ _ _))) with (px_fin p).
  change (ws_opcode (ws_header (built _ _ _ _ _))) with (px_opcode p).
  change (ws_payload (built _ _ _ _ _)) with payload.
  change (ws_payload_length (ws_header (built _ _ _ _ _))) with (blen payload).
  rewrite Hpl, Hctl. destruct (max_frame_size setting <? _); [done|].
  change (rs_first_frame (consume _ st)) with (rs_first_frame st). unfold violates.
  assert ((if rs_first_frame st then set_message payload (px_opcode p) false (consume (px_frame_length p) st)
           else set_message (rs_message (consume (px_frame_length p) st) ++ payload)
                  (rs_opcode (consume (px_frame_length p) st)) false (consume (px_frame_length p) st)) = st') as ->.
  { unfold st', absorbed. cbn [consume rs_message rs_opcode]. destruct (rs_first_frame st); [|done].
    by rewrite Hfirst by done. }
  destruct (rs_first_frame st && _); [done|]. destruct (negb _ && _); [done|]. cbn [orb].
  change (rs_message st') with (rs_message st ++ payload). rewrite blen_app, Hpl. fold (too_large st (px_payload_length p)).
  destruct (too_large _ _); [done|]. unfold bad_message, after_frame.
  by destruct (px_fin p).
Qed.

(** Two turns agree: same answer, success in both or in neither, same state on success. *)
Definition answers_agree (r r' : bool * state) : Prop :=
  r.1 = r'.1 /\ (rs_error r.2 = None <-> rs_error r'.2 = None) /\ (rs_error r.2 = None -> r.2 = r'.2).

Definition turns_agree (t t' : turn) : Prop :=
  match t, t' with
  | Return r, Return r' => answers_agree r r'
  | Again st, Again st' => st = st' /\ reading st
  | _, _ => False
  end.

Lemma answers_agree_refl r : answers_agree r r.
Proof. by split_and!. Qed.

Lemma failures_agree b e e' (st st' : state) :
  answers_agree (b, setParseError e st) (b, setParseError e' st').
Proof. by split_and!. Qed.

Lemma absorbed_reading st op payload n :
  reading st -> 0 <= n -> reading (absorbed st op payload n).
Proof.
  intros (Hok & Hc & He & _) Hn. destruct (rb_consume_view (rs_ring st) n Hok Hn) as (Hok' & Hc' & _).
  split_and!; try done. simpl. by rewrite Hc'.
Qed.

Lemma wire_nonempty f m : 0 < blen (wire f m).
Proof.
  unfold wire, ws_encode, appendWsFrameHeader.
  destruct (_ =? 0); rewrite ?blen_app, blen_cons; repeat match goal with
    | |- context [blen ?l] => pose proof (blen_nonneg l); generalize dependent (blen l); intros
    end; lia.
Qed.

(** A turn that does not end the read leaves the reader ready, and going round again takes octets
    off the ring. *)
Definition turn_ok (st : state) (t : turn) : Prop :=
  match t with
  | Again st' => reading st' /\ 0 <= rb_readable (rs_ring st') < rb_readable (rs_ring st)
  | Return (false, st') => reading st'
  | Return (true, _) => True
  end.

Lemma need_more_ok st : reading st -> turn_ok st (Return (need_more setting st)).
Proof. intros Hr. unfold need_more. by destruct (_ <? _). Qed.

Lemma parse_turn_ok iovecs st :
  reading st -> concat iovecs = rb_view (rs_ring st) ->
  turn_ok st (parse_turn simd setting is_server callback iovecs st).
Proof.
  intros Hr Hcat. pose proof Hr as (Hok & Hc & He & _). pose proof (rb_bounded (rs_ring st) Hok) as Hb.
  unfold parse_turn. rewrite fromIOVec_flat by (rewrite Hcat; lia). fold fresh.
  destruct (parse_flat _ _ _ _) as [[f n]| e|] eqn:Hp; [|destruct e; by try apply need_more_ok|done].
  apply parse_flat_inv in Hp as (fin & op & key & payload & rest & -> & _ & Hd & -> & _).
  pose proof (wire_nonempty (built fin op is_server key payload) is_server) as Hn.
  set (n := blen (wire _ _)) in *. cbv zeta.
  destruct (_ <? _); [done|]. destruct (isControlFrame _); [by destruct (negb _)|].
  destruct (_ && _); [done|]. destruct (_ && _); [done|]. destruct (_ <? _); [done|].
  destruct (ws_fin _); [by destruct (_ && _)|].
  destruct (rb_consume_view (rs_ring st) n Hok ltac:(lia)) as (Hok' & Hc' & Hv').
  set (st' := if rs_first_frame _ then _ else _).
  assert (rs_ring st' = rb_consume n (rs_ring st)) as Hring by (unfold st'; by destruct (rs_first_frame _)).
  assert (reading st') as Hr'.
  { split_and!; rewrite ?Hring, ?Hc'; try done; unfold st'; by destruct (rs_first_frame _). }
  destruct (_ =? 0); [done|]. split; [done|]. rewrite Hring, !rb_readable_view, Hv' by done.
  assert (n <= blen (rb_view (rs_ring st))) by
    (rewrite <- Hcat, Hd, blen_app; pose proof (blen_nonneg rest); unfold n; lia).
  unfold blen at 1 2 3. rewrite length_drop. unfold blen in *. lia.
Qed.

Lemma loop_turn_agrees st :
  reading st ->
  turns_agree (loop_turn simd setting is_server callback true st)
    (loop_turn simd setting is_server callback false st).
Proof.
  intros Hr. pose proof Hr as (Hok & Hc & _). unfold loop_turn.
  pose proof (rb_read_concat (rs_ring st) Hok) as Hcat. pose proof (rb_bounded (rs_ring st) Hok) as Hb.
  destruct (rb_read_iovecs (rs_ring st)) as [|iov iovs] eqn:Hio; [apply answers_agree_refl|].
  set (iovecs := iov :: iovs) in *.
  assert (blen (concat iovecs) < 2 ^ 64) as H64 by (rewrite Hcat; lia).
  pose proof (scan_spec simd iovecs is_server H64) as Hscan.
  destruct (scanWsMessageFastPathPrefix iovecs is_server) as [| |p] eqn:Hs.
  - unfold tryFastPath. rewrite Hs.
    pose proof (parse_turn_ok iovecs st Hr Hcat) as Ht.
    destruct (parse_turn _ _ _ _ _ _) as [r|st']; [apply answers_agree_refl|]. by destruct Ht.
  - unfold tryFastPath, parse_turn. rewrite Hs, fromIOVec_flat by done. fold fresh. rewrite Hscan.
    apply answers_agree_refl.
  - rewrite (tryFastPath_eq iovecs st p Hr Hs Hscan), (parse_turn_eq iovecs st p Hr H64 Hscan).
    cbv zeta. destruct Hscan as (_ & _ & _ & _ & _ & _ & Hpos & _).
    set (payload := if is_server then _ else _). set (st' := absorbed _ _ _ _).
    assert (reading st') as Hr' by (by apply absorbed_reading; [|lia]).
    destruct (violates st _), (bad_text _ _ payload), (max_frame_size setting <? px_payload_length p), (too_large st (px_payload_length p)); cbn [orb];
      try by split_and!.
    destruct (bad_message _ _ st'); [apply failures_agree|]. unfold after_frame.
    destruct (px_fin p); [apply answers_agree_refl|].
    destruct (_ =? 0); [apply answers_agree_refl|by split].
Qed.

Lemma parse_loop_agrees fuel st :
  reading st ->
  match parse_loop simd setting is_server callback true fuel st,
        parse_loop simd setting is_server callback false fuel st with
  | Some r, Some r' => answers_agree r r'
  | None, None => True
  | _, _ => False
  end.
Proof.
  revert st. induction fuel as [|fuel IH]; intros st Hr; [done|]. cbn [parse_loop].
  pose proof (loop_turn_agrees st Hr) as Ht.
  destruct (loop_turn _ _ _ _ true st), (loop_turn _ _ _ _ false st); try done.
  destruct Ht as [<- Hr']. by apply IH.
Qed.
Lemma loop_turn_ok st : reading st -> turn_ok st (loop_turn simd setting is_server callback false st).
Proof.
  intros Hr. pose proof Hr as (Hok & _). unfold loop_turn. pose proof (rb_read_concat _ Hok).
  destruct (rb_read_iovecs (rs_ring st)) eqn:Hio; [done|]. by apply parse_turn_ok.
Qed.

Lemma parse_loop_total fuel st :
  reading st -> (Z.to_nat (rb_readable (rs_ring st)) < fuel)%nat ->
  exists b st', parse_loop simd setting is_server callback false fuel st = Some (b, st') /\
    (b = false -> reading st').
Proof.
  revert st. induction fuel as [|fuel IH]; intros st Hr Hf; [lia|]. cbn [parse_loop].
  pose proof (loop_turn_ok st Hr) as Ht. destruct (loop_turn _ _ _ _ false st) as [[b st']|st'].
  - exists b, st'. split; [done|]. intros ->. exact Ht.
  - destruct Ht as [Hr' Hl]. apply IH; [done|lia].
Qed.

Definition results_agree (r r' : option (@read_result B)) : Prop :=
  match r, r' with
  | Some (Waiting st), Some (Waiting st') => st = st'
  | Some (Completed e st), Some (Completed e' st') =>
      (e = None <-> e' = None) /\ (e = None -> st = st')
  | _, _ => False
  end.

Lemma parseFromBuffer_agrees st :
  reading st ->
  exists b st1 st2, parseFromBuffer simd setting is_server callback true st = Some (b, st1) /\
    parseFromBuffer simd setting is_server callback false st = Some (b, st2) /\
    answers_agree (b, st1) (b, st2) /\ (b = false -> reading st2).
Proof.
  intros Hr. unfold parseFromBuffer. set (fuel := S _).
  destruct (parse_loop_total fuel st Hr ltac:(unfold fuel; lia)) as (b & st2 & E & Hr2).
  pose proof (parse_loop_agrees fuel st Hr) as Ha. rewrite E in Ha.
  destruct (parse_loop _ _ _ _ true fuel st) as [[b1 st1]|]; [|done].
  pose proof Ha as (Hb & _). simpl in Hb. subst b1. by exists b, st1, st2.
Qed.

Lemma onRead_reading data st : reading st -> reading (onBytesReceived data st).
Proof.
  intros (Hok & Hc & He & Hf). destruct (rb_receive_view (rs_ring st) data Hok) as (Hok' & Hc' & _).
  split_and!; simpl; rewrite ?Hc'; done.
Qed.
Lemma read_machine_agrees (events : list read_event) st :
  reading st ->
  results_agree (read_machine simd setting is_server callback true events st)
    (read_machine simd setting is_server callback false events st).
Proof.
  revert st. induction events as [|e events IH]; intros st Hr; cbn [read_machine];
    destruct (parseFromBuffer_agrees st Hr) as (b & st1 & st2 & -> & -> & (_ & He & Hs) & Hr2);
    (destruct b; [by split|]); simpl in He, Hs; specialize (Hr2 eq_refl); pose proof Hr2 as (_ & _ & He2 & _);
    (rewrite Hs by tauto); unfold prepareRecvWindow;
    (destruct (rb_write_iovecs (rs_ring st2)) as [|w ws]; [by split|]); cbn [negb].
  - done.
  - destruct e as [data| |d]; [|by split|by split]. apply IH. by apply onRead_reading.
Qed.

(** ** Reassembly *)

(** The octets of a message sent in parts, each with its masking key. *)
Definition fragment (op : WsOpcode) (fin : bool) (part : bytes * bytes) : bytes :=
  ws_encode simd (build_message op part.1 fin) is_server part.2.

Fixpoint fragments (op : WsOpcode) (parts : list (bytes * bytes)) : bytes :=
  match parts with
  | [] => []
  | [part] => fragment op true part
  | part :: parts => fragment op false part ++ fragments WsContinuation parts
  end.

Definition payloads (parts : list (bytes * bytes)) : bytes := concat (map fst parts).

Definition part_ok (part : bytes * bytes) : Prop :=
  blen part.1 <= max_frame_size setting /\ blen part.1 < 2 ^ 62 /\
  (is_server = true -> length part.2 = 4%nat).

(** A reader between two frames of a message of kind [op]: [acc] is read, the next frame is [o]. *)
Definition between (op o : WsOpcode) (acc : bytes) (st : state) : Prop :=
  reading st /\ rs_message st = acc /\ (op = WsText \/ op = WsBinary) /\
  if rs_first_frame st then o = op /\ acc = [] else o = WsContinuation /\ rs_opcode st = op.

Lemma fragment_wf o p fin :
  (o = WsText \/ o = WsBinary \/ o = WsContinuation) -> blen p < 2 ^ 62 ->
  (o = WsText -> fin = true -> is_utf8 p) -> ws_frame_wf (build_message o p fin).
Proof.
  intros Ho Hl Ht. split; simpl; try done; try lia; by destruct Ho as [->|[->| ->]].
Qed.

Lemma fragment_wire o fin part :
  part_ok part ->
  fragment o fin part = wire (received (build_message o part.1 fin) is_server part.2 fresh) is_server.
Proof. intros (_ & _ & Hk). by apply ws_encode_received. Qed.

(** One whole fragment at the front of the ring. *)
Lemma turn_fragment op o acc st iovecs fin part rest :
  between op o acc st -> part_ok part ->
  concat iovecs = fragment o fin part ++ rest -> blen (concat iovecs) < 2 ^ 64 ->
  (fin = true -> op = WsText -> is_utf8 (acc ++ part.1)) ->
  blen (acc ++ part.1) <= max_message_size setting ->
  parse_turn simd setting is_server callback iovecs st =
  after_frame fin (absorbed st o part.1 (blen (fragment o fin part))).
Proof.
  intros (Hr & Hmsg & Hop & Hst) Hpart Hd H64 Hutf Hmax. pose proof Hpart as (Hmf & Hmf2 & Hk).
  assert (o = WsText \/ o = WsBinary \/ o = WsContinuation) as Ho
    by (destruct (rs_first_frame st), Hop, Hst; subst; auto).
  assert (o = WsText -> fin = true -> is_utf8 part.1) as Ht.
  { intros -> Hfin. destruct (rs_first_frame st); [|by destruct Hst]. destruct Hst as [<- ->]. by apply Hutf. }
  unfold parse_turn. rewrite fromIOVec_flat, Hd, fragment_wire by done. fold fresh.
  rewrite parse_received by (done || by apply fragment_wf). cbv zeta. rewrite <- fragment_wire by done.
  cbn [received built ws_header ws_payload ws_fin ws_opcode ws_payload_length build_message build_payload
       build_fin build_opcode builder_start].
  rewrite (proj2 (Z.ltb_ge (max_frame_size setting) _)) by done.
  assert (isControlFrame o = false) as -> by by destruct Ho as [->|[->| ->]].
  change (rs_first_frame (consume _ st)) with (rs_first_frame st).
  assert ((rs_first_frame st && bool_decide (o = WsContinuation)) = false) as ->
    by (destruct (rs_first_frame st); [destruct Hst as [-> _]; by destruct Hop as [->| ->]|done]).
  assert ((negb (rs_first_frame st) && negb (bool_decide (o = WsContinuation))) = false) as ->
    by (destruct (rs_first_frame st); [done|by destruct Hst as [-> _]]).
  set (n := blen (fragment o fin part)).
  assert ((if rs_first_frame st then set_message part.1 o false (consume n st)
           else set_message (rs_message (consume n st) ++ part.1) (rs_opcode (consume n st)) false (consume n st)) =
          absorbed st o part.1 n) as ->.
  { unfold absorbed. cbn [consume rs_message rs_opcode]. destruct (rs_first_frame st); [|done].
    destruct Hst as [_ Hacc]. by rewrite Hmsg, Hacc. }
  change (rs_message (absorbed st o part.1 n)) with (rs_message st ++ part.1). rewrite Hmsg.
  rewrite (proj2 (Z.ltb_ge _ _)) by done. unfold after_frame. destruct fin; [|done].
  assert ((bool_decide (rs_opcode (absorbed st o part.1 n) = WsText) && negb (bool_decide (o = WsText) && true) &&
           negb (isValidUtf8Bytes simd (acc ++ part.1))) = false) as ->; [|done].
  destruct (bool_decide_reflect (rs_opcode (absorbed st o part.1 n) = WsText)) as [Hot|]; [|done].
  assert (op = WsText) as Hopt
    by (simpl in Hot; destruct (rs_first_frame st); destruct Hst as [? ?]; congruence).
  rewrite (proj2 (isValidUtf8Bytes_spec simd _)) by auto. apply andb_false_r.
Qed.
Lemma blen_fragment o fin part : part_ok part -> blen part.1 < blen (fragment o fin part).
Proof.
  intros (_ & _ & Hk). unfold fragment. rewrite blen_encode by done.
  unfold wsFrameHeaderLength. simpl. repeat case_match; lia.
Qed.

(** A strict part of a fragment: the reader waits for more. *)
Lemma turn_prefix op o acc st iovecs fin part more :
  between op o acc st -> part_ok part ->
  (o = WsText -> fin = true -> is_utf8 part.1) ->
  concat iovecs ++ more = fragment o fin part -> more <> [] -> blen (concat iovecs) < 2 ^ 64 ->
  parse_turn simd setting is_server callback iovecs st = Return (need_more setting st).
Proof.
  intros (_ & _ & Hop & Hst) Hpart Ht Hd Hmore H64. unfold parse_turn. rewrite fromIOVec_flat by done. fold fresh.
  rewrite fragment_wire in Hd by done. destruct Hpart as (_ & H62 & Hk).
  rewrite (parse_prefix_incomplete simd (build_message o part.1 fin) is_server part.2 fresh _ more); try done.
  apply fragment_wf; [|done|done]. destruct (rs_first_frame st), Hop, Hst; subst; auto.
Qed.

(** The limit of [need_more] is out of reach while twice what was received fits. *)
Definition within (T : Z) (st : state) : Prop :=
  0 <= rs_total_received st <= T /\ blen (rs_message st) + blen (rb_view (rs_ring st)) <= T /\
  2 * T <= max_message_size setting /\ 2 * T < 2 ^ 64.

Lemma need_more_within T st : reading st -> within T st -> need_more setting st = (false, st).
Proof.
  intros (Hok & _) (H1 & H2 & H3 & H4). unfold need_more. rewrite rb_readable_view by done.
  pose proof (blen_nonneg (rs_message st)). pose proof (blen_nonneg (rb_view (rs_ring st))).
  rewrite wrap64_small by lia. by rewrite (proj2 (Z.ltb_ge _ _)) by lia.
Qed.

(** Where the reader stands in the stream: [parts] are still to come, the ring holds the front of
    their octets and [more] the rest. *)
Record standing (op : WsOpcode) (total more rest : bytes) (T : Z) (o : WsOpcode) (acc : bytes)
    (parts : list (bytes * bytes)) (st : state) : Prop := {
  sd_between : between op o acc st;
  sd_parts : parts <> [] /\ Forall part_ok parts;
  sd_stream : rb_view (rs_ring st) ++ more = fragments o parts ++ rest;
  sd_total : acc ++ payloads parts = total;
  sd_limit : within T st
}.

Lemma fragments_cons o part parts :
  fragments o (part :: parts) =
  fragment o (bool_decide (parts = [])) part ++ fragments WsContinuation parts.
Proof. destruct parts; [by rewrite app_nil_r|done]. Qed.

Lemma absorbed_between op o acc st part n :
  between op o acc st -> 0 <= n -> between op WsContinuation (acc ++ part) (absorbed st o part n).
Proof.
  intros (Hr & Hmsg & Hop & Hst) Hn. split; [by apply absorbed_reading|]. simpl. rewrite Hmsg.
  split_and!; [done|done|done|]. by destruct (rs_first_frame st), Hst.
Qed.

Lemma standing_next op total more rest T o acc part parts st view' :
  standing op total more rest T o acc (part :: parts) st -> parts <> [] ->
  rb_view (rs_ring st) = fragment o false part ++ view' ->
  standing op total more rest T WsContinuation (acc ++ part.1) parts
    (absorbed st o part.1 (blen (fragment o false part))).
Proof.
  intros [Hb [_ Hp] Hs Ht Hl] Hne Hv. apply Forall_cons in Hp as [Hpart Hp].
  pose proof (blen_fragment o false part Hpart) as Hlt. pose proof (blen_nonneg part.1).
  pose proof Hb as ((Hok & _) & Hmsg & _).
  destruct (rb_consume_view (rs_ring st) (blen (fragment o false part)) Hok ltac:(lia)) as (_ & _ & Hv').
  rewrite Hv, drop_blen in Hv'. split.
  - by apply absorbed_between; [|lia].
  - done.
  - cbn [absorbed set_message consume rs_ring]. rewrite Hv'.
    rewrite Hv, fragments_cons, bool_decide_eq_false_2, <- !app_assoc in Hs by done. by apply app_inv_head in Hs.
  - rewrite <- Ht. unfold payloads. simpl. by rewrite app_assoc.
  - destruct Hl as (H1 & H2 & H3 & H4). split_and!; try (done || apply H1).
    cbn [absorbed set_message consume rs_ring rs_message]. rewrite Hv'. rewrite Hv in H2.
    rewrite !blen_app in *. lia.
Qed.
(** What the loop leaves: still waiting inside the stream, or done with the message. *)
Definition loop_left (op : WsOpcode) (total more rest : bytes) (T : Z) (st : state) (b : bool) (st' : state) :
    Prop :=
  rs_control st' = rs_control st /\ rb_capacity (rs_ring st') = rb_capacity (rs_ring st) /\
  rs_total_received st' = rs_total_received st /\
  if b then rs_error st' = None /\ rs_message st' = total /\ rs_opcode st' = op /\
            rb_ok (rs_ring st') /\ rb_view (rs_ring st') ++ more = rest
  else exists o acc parts, standing op total more rest T o acc parts st' /\
         blen (rb_view (rs_ring st')) < blen (fragments o parts).

Lemma payloads_cons part parts : payloads (part :: parts) = part.1 ++ payloads parts.
Proof. done. Qed.

Lemma loop_last op total more rest T o acc part st view' :
  standing op total more rest T o acc [part] st ->
  rb_view (rs_ring st) = fragment o true part ++ view' ->
  loop_left op total more rest T st true (absorbed st o part.1 (blen (fragment o true part))).
Proof.
  intros [Hb [_ Hp] Hs Ht _] Hv. apply Forall_cons in Hp as [Hpart _].
  pose proof Hb as ((Hok & _ & He & _) & Hmsg & _ & Hst).
  destruct (rb_consume_view (rs_ring st) (blen (fragment o true part)) Hok (blen_nonneg _)) as (Hok' & Hc' & Hv').
  rewrite Hv, drop_blen in Hv'. split_and!; try done.
  - cbn [absorbed set_message consume rs_message]. rewrite Hmsg, <- Ht, payloads_cons. by rewrite app_nil_r.
  - cbn [absorbed set_message consume rs_opcode]. destruct (rs_first_frame st); by destruct Hst.
  - cbn [absorbed set_message consume rs_ring]. rewrite Hv'. cbn [fragments] in Hs.
    rewrite Hv, <- app_assoc in Hs. by apply app_inv_head in Hs.
Qed.

Lemma app_split (a b c d : bytes) :
  a ++ b = c ++ d -> (exists m, a ++ m = c /\ m <> []) \/ exists m, a = c ++ m /\ m ++ b = d.
Proof.
  intros E. destruct (Nat.lt_ge_cases (length a) (length c)) as [Hl|Hl].
  - left. exists (drop (length a) c). split.
    + rewrite <- (take_drop (length a) c) at 2. f_equal. apply (f_equal (take (length a))) in E.
      by rewrite take_app_length, take_app_le in E by lia.
    + intros Hd. apply (f_equal length) in Hd. rewrite length_drop in Hd. simpl in Hd. lia.
  - right. exists (drop (length c) a). split.
    + rewrite <- (take_drop (length c) a) at 1. f_equal. apply (f_equal (take (length c))) in E.
      by rewrite take_app_le, take_app_length in E by lia.
    + apply (f_equal (drop (length c))) in E. by rewrite drop_app_le, drop_app_length in E by lia.
Qed.

Lemma turn_standing op total more rest T o acc part parts st :
  standing op total more rest T o acc (part :: parts) st ->
  (op = WsText -> is_utf8 total) -> blen total <= max_message_size setting ->
  let fin := bool_decide (parts = []) in
  (loop_turn simd setting is_server callback false st = Return (false, st) /\
   blen (rb_view (rs_ring st)) < blen (fragments o (part :: parts))) \/
  exists v, rb_view (rs_ring st) = fragment o fin part ++ v /\
    loop_turn simd setting is_server callback false st =
    after_frame fin (absorbed st o part.1 (blen (fragment o fin part))).
Proof.
  intros [Hb [_ Hp] Hs Ht Hl] Hutf Hmax fin. apply Forall_cons in Hp as [Hpart Hp].
  pose proof Hb as (Hr & _ & _ & Hst). pose proof Hr as (Hok & Hc & _).
  rewrite fragments_cons, <- app_assoc in Hs. fold fin in Hs.
  assert (fin = true -> acc ++ part.1 = total) as Hfin.
  { intros E%bool_decide_eq_true. subst parts. rewrite <- Ht, payloads_cons. by rewrite app_nil_r. }
  pose proof (rb_read_concat _ Hok) as Hcat. pose proof (rb_read_empty _ Hok) as [Hemp _].
  pose proof (rb_bounded _ Hok). pose proof (blen_fragment o fin part Hpart) as Hpos.
  pose proof (blen_nonneg part.1). unfold loop_turn.
  destruct (app_split _ _ _ _ Hs) as [(m & Hm & Hne)|(v & Hv & Hv')]; [left|right]; [split|exists v; split; [done|]].
  - destruct (rb_read_iovecs (rs_ring st)) as [|iov iovs]; [done|].
    rewrite <- (need_more_within T st Hr Hl).
    apply (turn_prefix op o acc st _ fin part m); rewrite ?Hcat; try (done || lia).
    intros -> Hft. destruct (rs_first_frame st); [|by destruct Hst]. destruct Hst as [<- Hacc].
    specialize (Hfin Hft). rewrite Hacc in Hfin. simpl in Hfin. rewrite Hfin. by apply Hutf.
  - rewrite fragments_cons, blen_app. fold fin. apply (f_equal blen) in Hm. rewrite blen_app in Hm.
    assert (0 < blen m) by (destruct m; [done|unfold blen; simpl; lia]).
    pose proof (blen_nonneg (fragments WsContinuation parts)). lia.
  - assert (blen (acc ++ part.1) <= blen total) as Hle.
    { rewrite <- Ht, payloads_cons, !blen_app. pose proof (blen_nonneg (payloads parts)). lia. }
    destruct (rb_read_iovecs (rs_ring st)) as [|iov iovs].
    { rewrite (Hemp eq_refl) in Hv. apply (f_equal blen) in Hv. rewrite blen_app, (@blen_nil byte) in Hv.
      pose proof (blen_nonneg v). lia. }
    apply (turn_fragment op o acc st _ fin part v); rewrite ?Hcat; try (done || lia).
    intros Hft Hopt. rewrite Hfin by done. by apply Hutf.
Qed.

Lemma fragments_positive o parts : parts <> [] -> Forall part_ok parts -> 0 < blen (fragments o parts).
Proof.
  intros Hne Hp. destruct parts as [|part parts]; [done|]. apply Forall_cons in Hp as [Hpart _].
  rewrite fragments_cons, blen_app. pose proof (blen_fragment o (bool_decide (parts = [])) part Hpart).
  pose proof (blen_nonneg part.1). pose proof (blen_nonneg (fragments WsContinuation parts)). lia.
Qed.

Lemma loop_standing fuel op total more rest T o acc parts st :
  standing op total more rest T o acc parts st ->
  (op = WsText -> is_utf8 total) -> blen total <= max_message_size setting ->
  (Z.to_nat (rb_readable (rs_ring st)) < fuel)%nat ->
  exists b st', parse_loop simd setting is_server callback false fuel st = Some (b, st') /\
    loop_left op total more rest T st b st'.
Proof.
  intros Hsd Hutf Hmax. revert o acc parts st Hsd. induction fuel as [|fuel IH]; intros o acc parts st Hsd Hf; [lia|].
  destruct parts as [|part parts]; [by destruct Hsd as [_ [? _]]|]. cbn [parse_loop].
  destruct (turn_standing _ _ _ _ _ _ _ _ _ _ Hsd Hutf Hmax) as [[-> Hlt]|(v & Hv & ->)].
  { exists false, st. split; [done|]. split_and!; try done. by exists o, acc, (part :: parts). }
  unfold after_frame. destruct (bool_decide_reflect (parts = [])) as [->|Hne].
  { eexists true, _. split; [done|]. by eapply loop_last. }
  pose proof (standing_next _ _ _ _ _ _ _ _ _ _ v Hsd Hne Hv) as Hsd'.
  pose proof Hsd as [((Hok & _) & _) [_ Hp] _ _ _]. apply Forall_cons in Hp as [Hpart Hp].
  pose proof (blen_fragment o false part Hpart). pose proof (blen_nonneg part.1).
  destruct (rb_consume_view (rs_ring st) (blen (fragment o false part)) Hok ltac:(lia)) as (Hok' & Hc' & Hv').
  rewrite Hv, drop_blen in Hv'. set (st' := absorbed _ _ _ _) in *.
  assert (rb_readable (rs_ring st') = blen v) as Hrd
    by (unfold st'; cbn [absorbed set_message consume rs_ring]; by rewrite rb_readable_view, Hv').
  assert (rb_readable (rs_ring st) = blen (fragment o false part) + blen v) as Hrd0
    by (by rewrite rb_readable_view, Hv, blen_app by done).
  pose proof (blen_nonneg v). destruct (Z.eqb_spec (rb_readable (rs_ring st')) 0) as [E0|E0].
  - exists false, st'. split; [done|]. split_and!; try done. exists WsContinuation, (acc ++ part.1), parts.
    split; [done|]. pose proof (fragments_positive WsContinuation parts Hne Hp).
    change (rs_ring st') with (rb_consume (blen (fragment o false part)) (rs_ring st)). rewrite Hv'. lia.
  - destruct (IH _ _ _ st' Hsd' ltac:(lia)) as (b & st2 & E & Hl). exists b, st2. split; [done|].
    destruct Hl as (Hl1 & Hl2 & Hl3 & Hl4). split_and!; try done. by rewrite Hl2.
Qed.
Lemma receive_standing op total c more rest T o acc parts st :
  standing op total (c ++ more) rest T o acc parts st ->
  blen (rb_view (rs_ring st)) + blen c <= rb_capacity (rs_ring st) ->
  2 * (T + blen c) <= max_message_size setting -> 2 * (T + blen c) < 2 ^ 64 ->
  standing op total more rest (T + blen c) o acc parts (onBytesReceived c st).
Proof.
  intros [(Hr & Hb) Hp Hs Ht (H1 & H2 & _)] Hcap Hmax H64. pose proof Hr as (Hok & _).
  destruct (rb_receive_view (rs_ring st) c Hok) as (_ & _ & Hv). pose proof (blen_nonneg c).
  rewrite take_ge in Hv by (unfold blen in *; lia). split; [|done| |done|].
  - split; [by apply onRead_reading|done].
  - cbn [onBytesReceived rs_ring]. by rewrite Hv, <- app_assoc.
  - unfold within. cbn [onBytesReceived rs_ring rs_message rs_total_received]. rewrite Hv, blen_app.
    rewrite wrap64_small by lia. lia.
Qed.

(** The last chunk is the one in which the message ends. *)
Definition ends_in_last (rest : bytes) (chunks : list bytes) : Prop :=
  forall front back, chunks = front ++ back -> back <> [] -> blen rest < blen (concat back).

Lemma machine_standing op total rest chunks T o acc parts st :
  standing op total (concat chunks) rest T o acc parts st -> ends_in_last rest chunks ->
  (op = WsText -> is_utf8 total) -> blen total <= max_message_size setting ->
  2 * (T + blen (concat chunks)) <= max_message_size setting ->
  2 * (T + blen (concat chunks)) < 2 ^ 64 ->
  T + blen (concat chunks) <= rb_capacity (rs_ring st) ->
  exists st', read_machine simd setting is_server callback false (map Received chunks) st =
      Some (Completed None st') /\
    rs_message st' = total /\ rs_opcode st' = op /\ rs_control st' = rs_control st /\
    rb_view (rs_ring st') = rest.
Proof.
  intros Hsd Hend Hutf Hmax. revert T o acc parts st Hsd Hend.
  induction chunks as [|c chunks IH]; intros T o acc parts st Hsd Hend HT H64 Hcap;
    destruct (loop_standing (S (Z.to_nat (rb_readable (rs_ring st)))) _ _ _ _ _ _ _ _ st Hsd Hutf Hmax ltac:(lia))
      as (b & st1 & E & Hctl & Hc1 & _ & Hl); cbn [map read_machine]; unfold parseFromBuffer; rewrite E.
  - destruct b.
    + destruct Hl as (He & Hm & Ho & _ & Hv). exists st1. unfold takeResult. rewrite He.
      split_and!; try done. by rewrite <- Hv, app_nil_r.
    + destruct Hl as (o' & acc' & parts' & Hsd' & Hlt). destruct Hsd' as [_ _ Hs' _ _]. simpl in Hs'.
      apply (f_equal blen) in Hs'. rewrite !blen_app, (@blen_nil byte) in Hs'. pose proof (blen_nonneg rest). lia.
  - pose proof (Hend [] (c :: chunks) eq_refl ltac:(done)) as Hrest. destruct b.
    { destruct Hl as (_ & _ & _ & _ & Hv). apply (f_equal blen) in Hv. rewrite blen_app in Hv.
      pose proof (blen_nonneg (rb_view (rs_ring st1))). lia. }
    destruct Hl as (o' & acc' & parts' & Hsd' & _). cbn [concat] in *. rewrite blen_app in *.
    pose proof Hsd' as [((Hok1 & _) & Hmsg1 & _) _ _ _ (_ & HT1 & _)].
    pose proof (blen_nonneg c). pose proof (blen_nonneg (concat chunks)). pose proof (blen_nonneg rest).
    pose proof (blen_nonneg (rs_message st1)).
    unfold prepareRecvWindow. destruct (rb_write_total (rs_ring st1) Hok1) as [_ [Hw _]].
    destruct (rb_write_iovecs (rs_ring st1)) as [|w ws]; [specialize (Hw eq_refl); lia|]. cbn [negb onRead].
    destruct (IH (T + blen c) o' acc' parts' (onBytesReceived c st1)) as (st' & E' & Hm & Ho & Hctl' & Hv).
    + apply receive_standing; (done || lia).
    + intros front back Ef. apply (Hend (c :: front) back). by rewrite Ef.
    + lia.
    + lia.
    + destruct (rb_receive_view (rs_ring st1) c Hok1) as (_ & Hc' & _). cbn [onBytesReceived rs_ring]. lia.
    + exists st'. split_and!; try done. by rewrite Hctl'.
Qed.
End Paths.

(** the fast path is transparent: on every sequence of socket reads the message reader terminates
    with and without its fast path, both fail or neither does, and where they do not fail they end
    in the same state: same message, opcode, control frames and octets left in the ring. *)
Theorem fast_path_transparent {B} `{ByteRing B} {laws : ByteRingLaws B} simd setting is_server callback
    (events : list read_event) (st : WsMessageReadState B) :
  reading st ->
  results_agree (read_machine simd setting is_server callback true events st)
    (read_machine simd setting is_server callback false events st).
Proof. apply read_machine_agrees. Qed.

(** A reader as [getMessage] makes it, on an empty ring. *)
Definition new_reader {B} (ring : B) : WsMessageReadState B :=
  mkRead ring [] WsText 0 true None [].

(** C33: reassembly: a text or binary message sent in any number of frames, cut into any chunks by the
    network, is delivered once its last octet arrives: the payloads concatenated, the opcode of the
    first frame, no error, and exactly the octets that follow the message left in the ring. What was sent
    must fit the empty ring, and twice its octets the limit on messages, for the reader counts octets both
    when they come and while they lie in the ring. *)
Theorem reads_message {B} `{ByteRing B} {laws : ByteRingLaws B} simd setting is_server callback fast
    (ring : B) op parts chunks rest :
  rb_ok ring -> rb_view ring = [] -> rb_capacity ring < 2 ^ 62 ->
  op = WsText \/ op = WsBinary -> parts <> [] -> Forall (part_ok setting is_server) parts ->
  (op = WsText -> is_utf8 (payloads parts)) -> blen (payloads parts) <= max_message_size setting ->
  concat chunks = fragments simd is_server op parts ++ rest -> ends_in_last rest chunks ->
  blen (concat chunks) <= rb_capacity ring -> 2 * blen (concat chunks) <= max_message_size setting ->
  exists st', read_machine simd setting is_server callback fast (map Received chunks) (new_reader ring) =
      Some (Completed None st') /\
    rs_message st' = payloads parts /\ rs_opcode st' = op /\ rs_control st' = [] /\
    rb_view (rs_ring st') = rest.
Proof.
  intros Hok Hv Hcap Hop Hne Hp Hutf Hmax Hs Hend Hc H2. pose proof (blen_nonneg (concat chunks)).
  assert (reading (new_reader ring)) as Hr by (split_and!; simpl; (done || lia)).
  destruct (machine_standing simd setting is_server callback op (payloads parts) rest chunks 0 op [] parts
    (new_reader ring)) as (st' & E & Hrest); try (done || lia).
  { split; [by split_and!|done|simpl; by rewrite Hv|done|]. unfold within. simpl. rewrite Hv.
    rewrite (@blen_nil byte). lia. }
  exists st'. destruct fast; [|done].
  pose proof (read_machine_agrees simd setting is_server callback (map Received chunks) (new_reader ring) Hr) as Ha.
  rewrite E in Ha. destruct (read_machine _ _ _ _ true _ _) as [[e st1|]|]; try done.
  destruct Ha as [[_ He] Hst]. specialize (He eq_refl). subst e. by rewrite (Hst eq_refl).
Qed.

(** ** Witnesses *)

#[local] Abbreviation wkey := [z2b 0x37; z2b 0xfa; z2b 0x21; z2b 0x3d].
#[local] Abbreviation wcfg := (mkSetting 100 100 true).
#[local] Abbreviation wparts := [(bs "Hel", wkey); (bs "lo", [z2b 9; z2b 8; z2b 7; z2b 6])].
#[local] Abbreviation wstream := (fragments true true WsText wparts ++ bs "next").

Lemma fast_path_transparent_witness :
  results_agree
    (read_machine true wcfg true false true [Received (take 5 wstream); PeerClosed] (new_reader (new_mmap 64)))
    (read_machine true wcfg true false false [Received (take 5 wstream); PeerClosed] (new_reader (new_mmap 64))).
Proof.
  apply (fast_path_transparent (laws := mmap_ring_laws) true wcfg true false
    [Received (take 5 wstream); PeerClosed] (new_reader (new_mmap 64))).
  split_and!; [apply ring_ok_empty|reflexivity|reflexivity|reflexivity].
Defined.

Lemma reads_message_witness :
  exists st', read_machine true wcfg true false true
      (map Received [take 7 wstream; take 8 (drop 7 wstream); drop 15 wstream]) (new_reader (new_vector 64)) =
      Some (Completed None st') /\
    rs_message st' = bs "Hello" /\ rs_opcode st' = WsText /\ rs_control st' = [] /\
    rb_view (rs_ring st') = bs "next".
Proof.
  apply (reads_message (laws := vector_ring_laws) true wcfg true false true (new_vector 64) WsText wparts
    [take 7 wstream; take 8 (drop 7 wstream); drop 15 wstream] (bs "next"));
    try (reflexivity || discriminate).
  - apply ring_ok_empty.
  - by left.
  - repeat constructor; intros; vm_compute; (reflexivity || discriminate).
  - intros _. apply (isValidUtf8Bytes_spec false). vm_compute. reflexivity.
  - intros front back E Hb. destruct front as [|? [|? [|? front]]]; simpl in E; simplify_eq; try by vm_compute.
    destruct front; [|done]. by destruct back.
Defined.

(** A ping between two fragments replaces the message under construction: the call that meets it
    returns the ping, and the next one refuses the last fragment. *)
Example interleaved_ping_loses_fragments :
  let first := ws_encode true (build_message WsText (bs "Hel") false) true wkey in
  let ping := ws_encode true (createPingFrame (bs "p")) true wkey in
  let final := ws_encode true (build_message WsContinuation (bs "lo") true) true wkey in
  match read_machine true wcfg true false true [Received (first ++ ping ++ final)]
          (new_reader (new_vector 64)) with
  | Some (Completed None st1) =>
      rs_opcode st1 = WsPing /\ rs_message st1 = bs "p" /\
      match read_machine true wcfg true false true [] (new_reader (rs_ring st1)) with
      | Some (Completed (Some e) _) => e = kWsProtocolError
      | _ => False
      end
  | _ => False
  end.
Proof. intros first ping final. vm_compute. by split_and!. Qed.

(** Octets in the ring are counted twice against the limit: a message of 60 octets under a limit of
    100 is refused when it arrives in two reads. *)
Example received_octets_counted_twice :
  let message := ws_encode true (build_message WsBinary (replicate 60 (z2b 7)) true) true wkey in
  match read_machine true wcfg true false true
          [Received (take 60 message); Received (drop 60 message)] (new_reader (new_vector 128)) with
  | Some (Completed (Some e) _) => e = kWsMessageTooLarge
  | _ => False
  end.
Proof. vm_compute. reflexivity. Qed.
