(* ===== verification/Charconv.v ===== *)
(** * Numbers as text

    What the parsers and encoders use of [<charconv>] and [std::to_string]: [std::from_chars] on
    integers of a given range and base, and [std::to_chars]. *)

From Stdlib Require Import ZArith Lia.
From stdpp Require Import base list strings.
From S2P Require Import Prelude.

Open Scope Z_scope.

(** ** std::from_chars *)

(** The value of an ASCII digit or letter in the given base. *)
Definition digit_value (base : Z) (b : byte) : option Z :=
  let c := b2z b in
  let v := if (48 <=? c) && (c <=? 57) then c - 48
           else if (97 <=? c) && (c <=? 122) then c - 87
           else if (65 <=? c) && (c <=? 90) then c - 55
           else base in
  if v <? base then Some v else None.

(** The values of the longest prefix of digits. *)
Fixpoint take_digits (base : Z) (d : bytes) : list Z :=
  match d with
  | [] => []
  | b :: d => match digit_value base b with Some v => v :: take_digits base d | None => [] end
  end.

Definition number (base : Z) (ds : list Z) : Z := foldl (fun n v => n * base + v) 0 ds.

(** [std::from_chars_result] with the value: the error keeps the end of the matched prefix. *)
Inductive from_chars_result : Type :=
| Parsed (value ptr : Z)
| InvalidArgument
| ResultOutOfRange (ptr : Z).

Definition from_chars (base lo hi : Z) (d : bytes) : from_chars_result :=
  let negative := match d with b :: _ => (lo <? 0) && bool_decide (b = z2b 45) | [] => false end in
  let sign := if negative then 1 else 0 in
  let ds := take_digits base (drop (Z.to_nat sign) d) in
  if blen ds =? 0 then InvalidArgument
  else
    let value := if negative then - number base ds else number base ds in
    if (lo <=? value) && (value <=? hi) then Parsed value (sign + blen ds)
    else ResultOutOfRange (sign + blen ds).

(** [int64_t], [uint64_t]. *)
Definition int64_min : Z := - 2 ^ 63.
Definition int64_max : Z := 2 ^ 63 - 1.
Definition uint64_max : Z := 2 ^ 64 - 1.

(** ** std::to_chars *)

Definition digit_char (v : Z) : byte := z2b (if v <? 10 then 48 + v else 87 + v).

Fixpoint to_chars_loop (base : Z) (fuel : nat) (n : Z) (acc : bytes) : bytes :=
  match fuel with
  | O => acc
  | S fuel =>
      let acc := digit_char (n mod base) :: acc in
      if n / base =? 0 then acc else to_chars_loop base fuel (n / base) acc
  end.

Definition to_chars_unsigned (base n : Z) : bytes :=
  to_chars_loop base (S (Z.to_nat (Z.log2 n))) n [].

Definition to_chars (n : Z) : bytes :=
  if n <? 0 then z2b 45 :: to_chars_unsigned 10 (- n) else to_chars_unsigned 10 n.

(** ** Lemmas *)

Definition digits_of (base : Z) (d : bytes) (ds : list Z) : Prop :=
  Forall2 (fun b v => digit_value base b = Some v) d ds.

(** The text after a number ends it. *)
Definition ends_number (base : Z) (rest : bytes) : Prop :=
  match rest with [] => True | b :: _ => digit_value base b = None end.

Lemma digit_value_range base b v : digit_value base b = Some v -> 0 <= v < base.
Proof.
  unfold digit_value. pose proof (b2z_range b).
  repeat case_match; intros [= <-]; lia.
Qed.

Lemma digit_value_char base v : 0 <= v < base -> base <= 36 -> digit_value base (digit_char v) = Some v.
Proof.
  intros Hv Hb. unfold digit_value, digit_char.
  assert (b2z (z2b (if v <? 10 then 48 + v else 87 + v)) = if v <? 10 then 48 + v else 87 + v) as ->.
  { apply b2z_z2b_small. case_match; lia. }
  destruct (Z.ltb_spec v 10).
  - rewrite (proj2 (Z.leb_le 48 (48 + v))), (proj2 (Z.leb_le (48 + v) 57)) by lia. cbn [andb].
    rewrite (proj2 (Z.ltb_lt _ _)) by lia. f_equal. lia.
  - rewrite (proj2 (Z.leb_gt (87 + v) 57)), andb_false_r by lia.
    rewrite (proj2 (Z.leb_le 97 (87 + v))), (proj2 (Z.leb_le (87 + v) 122)) by lia. cbn [andb].
    rewrite (proj2 (Z.ltb_lt _ _)) by lia. f_equal. lia.
Qed.

Lemma take_digits_app base d ds rest :
  digits_of base d ds -> ends_number base rest -> take_digits base (d ++ rest) = ds.
Proof.
  intros Hd Hr. induction Hd as [|b v d ds Hb Hd IH]; cbn [app take_digits].
  - destruct rest as [|b rest]; [done|]. cbn [take_digits]. by rewrite Hr.
  - by rewrite Hb, IH.
Qed.

Lemma take_digits_split base d :
  exists pre rest, d = pre ++ rest /\ digits_of base pre (take_digits base d) /\ ends_number base rest.
Proof.
  induction d as [|b d (pre & rest & -> & Hp & Hr)]; [by exists [], []; repeat constructor|].
  cbn [take_digits]. destruct (digit_value base b) as [v|] eqn:E.
  - exists (b :: pre), rest. split_and!; [done|by constructor|done].
  - exists [], (b :: pre ++ rest). by repeat constructor.
Qed.

Lemma digits_of_blen base d ds : digits_of base d ds -> blen ds = blen d.
Proof. intros H%Forall2_length. unfold blen. lia. Qed.

Lemma number_snoc base ds v : number base (ds ++ [v]) = number base ds * base + v.
Proof. unfold number. by rewrite foldl_app. Qed.

Lemma number_nonneg base d ds : digits_of base d ds -> 0 <= number base ds.
Proof.
  revert ds. induction d as [|b d IH] using rev_ind; intros ds H.
  - apply Forall2_nil_inv_l in H as ->. done.
  - apply Forall2_app_inv_l in H as (l & k & Hl & Hk & ->).
    apply Forall2_cons_inv_l in Hk as (v & k' & Hv & Hk' & ->).
    apply Forall2_nil_inv_l in Hk' as ->. rewrite number_snoc.
    pose proof (digit_value_range _ _ _ Hv). pose proof (IH _ Hl). nia.
Qed.

(** The digits written, most significant first, are those of the number. *)
Lemma to_chars_loop_spec base fuel n acc :
  2 <= base <= 36 -> 0 <= n < 2 ^ Z.of_nat fuel -> (0 < fuel)%nat ->
  exists d ds, to_chars_loop base fuel n acc = d ++ acc /\ digits_of base d ds /\
    number base ds = n /\ d <> [].
Proof.
  intros Hb. revert n acc. induction fuel as [|fuel IH]; [lia|]. intros n acc Hn _.
  cbn [to_chars_loop]. pose proof (Z.mod_pos_bound n base ltac:(lia)) as Hm.
  pose proof (Z.div_mod n base ltac:(lia)) as Hd.
  pose proof (digit_value_char base (n mod base) Hm ltac:(lia)) as Hc.
  destruct (Z.eqb_spec (n / base) 0) as [E|E].
  - exists [digit_char (n mod base)], [n mod base]. split_and!; [done|by repeat constructor| |done].
    unfold number. cbn. lia.
  - assert (0 <= n / base < 2 ^ Z.of_nat fuel) as Hn'.
    { split; [apply Z.div_pos; lia|]. apply Z.div_lt_upper_bound; [lia|].
      rewrite Nat2Z.inj_succ, Z.pow_succ_r in Hn by lia.
      pose proof (Z.pow_pos_nonneg 2 (Z.of_nat fuel) ltac:(lia) ltac:(lia)). nia. }
    destruct fuel as [|fuel]; [cbn in Hn'; lia|].
    destruct (IH (n / base) (digit_char (n mod base) :: acc) Hn' ltac:(lia)) as (d & ds & -> & Hds & Hnum & _).
    exists (d ++ [digit_char (n mod base)]), (ds ++ [n mod base]). rewrite <- app_assoc.
    split_and!; [done| |rewrite number_snoc; lia|by destruct d].
    apply Forall2_app; [done|by repeat constructor].
Qed.

Lemma to_chars_unsigned_spec base n :
  2 <= base <= 36 -> 0 <= n ->
  exists ds, digits_of base (to_chars_unsigned base n) ds /\ number base ds = n /\
    to_chars_unsigned base n <> [].
Proof.
  intros Hb Hn. unfold to_chars_unsigned.
  destruct (to_chars_loop_spec base (S (Z.to_nat (Z.log2 n))) n [] Hb) as (d & ds & -> & H1 & H2 & H3).
  - split; [done|]. rewrite Nat2Z.inj_succ, Z2Nat.id by apply Z.log2_nonneg.
    destruct (Z.eq_dec n 0) as [->|]; [cbn; lia|]. apply Z.log2_spec. lia.
  - lia.
  - rewrite app_nil_r. by exists ds.
Qed.

(** ** Round trips *)

Lemma from_chars_unsigned base hi n rest :
  2 <= base <= 36 -> 0 <= n <= hi -> ends_number base rest ->
  from_chars base 0 hi (to_chars_unsigned base n ++ rest) =
    Parsed n (blen (to_chars_unsigned base n)).
Proof.
  intros Hb Hn Hr. destruct (to_chars_unsigned_spec base n Hb ltac:(lia)) as (ds & Hd & Hv & Hne).
  unfold from_chars.
  replace (match to_chars_unsigned base n ++ rest with b :: _ => (0 <? 0) && bool_decide (b = z2b 45)
           | [] => false end) with false by (by destruct (to_chars_unsigned base n ++ rest)).
  cbv beta iota zeta. change (Z.to_nat 0) with 0%nat. rewrite drop_0. rewrite (take_digits_app _ _ _ _ Hd Hr), (digits_of_blen _ _ _ Hd), Hv.
  destruct (Z.eqb_spec (blen (to_chars_unsigned base n)) 0) as [E|].
  { by destruct (to_chars_unsigned base n). }
  rewrite (proj2 (Z.leb_le 0 n)), (proj2 (Z.leb_le n hi)) by lia. done.
Qed.

Lemma from_chars_to_chars lo hi n rest :
  lo < 0 -> lo <= n <= hi -> ends_number 10 rest ->
  from_chars 10 lo hi (to_chars n ++ rest) = Parsed n (blen (to_chars n)).
Proof.
  intros Hlo Hn Hr. unfold to_chars, from_chars.
  rewrite (proj2 (Z.ltb_lt lo 0)) by lia. cbn [andb]. destruct (Z.ltb_spec n 0).
  - destruct (to_chars_unsigned_spec 10 (- n) ltac:(lia) ltac:(lia)) as (ds & Hd & Hv & Hne).
    rewrite <- app_comm_cons, bool_decide_eq_true_2 by done. cbv beta iota zeta.
    change (Z.to_nat 1) with 1%nat. rewrite skipn_cons, drop_0.
    rewrite (take_digits_app _ _ _ _ Hd Hr), (digits_of_blen _ _ _ Hd), Hv, Z.opp_involutive.
    destruct (Z.eqb_spec (blen (to_chars_unsigned 10 (- n))) 0) as [E|].
    { by destruct (to_chars_unsigned 10 (- n)). }
    rewrite (proj2 (Z.leb_le lo n)), (proj2 (Z.leb_le n hi)) by lia. cbn [andb]. by rewrite blen_cons.
  - destruct (to_chars_unsigned_spec 10 n ltac:(lia) ltac:(lia)) as (ds & Hd & Hv & Hne).
    replace (match to_chars_unsigned 10 n ++ rest with b :: _ => bool_decide (b = z2b 45) | [] => false end)
      with false.
    + cbv beta iota zeta. change (Z.to_nat 0) with 0%nat. rewrite drop_0. rewrite (take_digits_app _ _ _ _ Hd Hr), (digits_of_blen _ _ _ Hd), Hv.
      destruct (Z.eqb_spec (blen (to_chars_unsigned 10 n)) 0) as [E|].
      { by destruct (to_chars_unsigned 10 n). }
      rewrite (proj2 (Z.leb_le lo n)), (proj2 (Z.leb_le n hi)) by lia. done.
    + destruct Hd as [|b v d ds Hb Hd]; [done|]. cbn [app]. symmetry. apply bool_decide_eq_false_2.
      intros ->. vm_compute in Hb. done.
Qed.

(** What is written holds no octet outside the digits and the sign. *)
Lemma to_chars_unsigned_digits base n :
  2 <= base <= 36 -> 0 <= n -> Forall (fun b => is_Some (digit_value base b)) (to_chars_unsigned base n).
Proof.
  intros Hb Hn. destruct (to_chars_unsigned_spec base n Hb Hn) as (ds & Hd & _ & _).
  induction Hd as [|b v d ds Hb' Hd IH]; constructor; [by exists v|done].
Qed.

Lemma to_chars_ne n : to_chars n <> [].
Proof.
  unfold to_chars. destruct (Z.ltb_spec n 0); [done|].
  destruct (to_chars_unsigned_spec 10 n ltac:(lia) ltac:(lia)) as (ds & _ & _ & Hne). done.
Qed.

Lemma to_chars_digits n :
  Forall (fun b => b = z2b 45 \/ is_Some (digit_value 10 b)) (to_chars n).
Proof.
  unfold to_chars. destruct (Z.ltb_spec n 0).
  - constructor; [by left|]. eapply Forall_impl; [apply to_chars_unsigned_digits; lia|by right].
  - eapply Forall_impl; [apply to_chars_unsigned_digits; lia|by right].
Qed.

Lemma from_chars_range base lo hi d v p : from_chars base lo hi d = Parsed v p -> lo <= v <= hi.
Proof.
  unfold from_chars. cbv zeta. destruct (_ =? 0); [done|].
  destruct ((lo <=? _) && _) eqn:E; [|done]. intros [= <- _].
  apply andb_true_iff in E as [H1%Z.leb_le H2%Z.leb_le]. done.
Qed.

(** A number without a sign that ends with its text is digits only. *)
Lemma from_chars_digits base hi d v : from_chars base 0 hi d = Parsed v (blen d) -> Forall (fun b => is_Some (digit_value base b)) d.
Proof.
  unfold from_chars. replace (match d with b :: _ => (0 <? 0) && bool_decide (b = z2b 45) | [] => false end) with false by by destruct d.
  cbv zeta. change (Z.to_nat 0) with 0%nat. rewrite drop_0.
  destruct (take_digits_split base d) as (pre & rest & Hd & Hp & _). destruct (_ =? 0); [done|].
  destruct (_ && _); [|done]. intros [= _ Hl]. rewrite (digits_of_blen _ _ _ Hp), Hd, blen_app in Hl.
  destruct rest as [|b rest]; [|rewrite blen_cons in Hl; pose proof (blen_nonneg rest); lia].
  rewrite Hd, app_nil_r. clear Hd Hl. induction Hp as [|b w pre ds Hb Hp IH]; constructor; [by exists w|done].
Qed.

Lemma to_chars_loop_length base fuel n acc :
  blen (to_chars_loop base fuel n acc) <= Z.of_nat fuel + blen acc.
Proof.
  revert n acc. induction fuel as [|fuel IH]; intros n acc; cbn [to_chars_loop]; [lia|].
  destruct (n / base =? 0); [rewrite blen_cons; lia|].
  specialize (IH (n / base) (digit_char (n mod base) :: acc)). rewrite blen_cons in IH. lia.
Qed.

Lemma to_chars_unsigned_length base n : blen (to_chars_unsigned base n) <= 1 + Z.max 0 (Z.log2 n).
Proof.
  unfold to_chars_unsigned.
  pose proof (to_chars_loop_length base (S (Z.to_nat (Z.log2 n))) n []) as Hl. rewrite (@blen_nil byte) in Hl. lia.
Qed.

(** A number below [base^k] takes at most [k] digits. *)
Lemma to_chars_loop_width base fuel n acc k :
  2 <= base -> 0 < k -> 0 <= n < base ^ k -> blen (to_chars_loop base fuel n acc) <= k + blen acc.
Proof.
  intros Hb. revert n acc k. induction fuel as [|fuel IH]; intros n acc k Hk Hn; cbn [to_chars_loop]; [lia|].
  destruct (Z.eqb_spec (n / base) 0) as [|Hne]; [rewrite blen_cons; lia|].
  destruct (Z.eq_dec k 1) as [->|Hk1]; [rewrite Z.pow_1_r in Hn; rewrite Z.div_small in Hne by lia; lia|].
  assert (0 <= n / base < base ^ (k - 1)) as Hq.
  { split; [by apply Z.div_pos; lia|]. apply Z.div_lt_upper_bound; [lia|].
    pose proof (Z.pow_succ_r base (k - 1) ltac:(lia)) as E. replace (Z.succ (k - 1)) with k in E by lia. lia. }
  specialize (IH (n / base) (digit_char (n mod base) :: acc) (k - 1) ltac:(lia) Hq).
  rewrite blen_cons in IH. lia.
Qed.

Lemma to_chars_unsigned_width base n k :
  2 <= base -> 0 < k -> 0 <= n < base ^ k -> blen (to_chars_unsigned base n) <= k.
Proof.
  intros Hb Hk Hn. unfold to_chars_unsigned.
  pose proof (to_chars_loop_width base (S (Z.to_nat (Z.log2 n))) n [] k Hb Hk Hn) as H.
  rewrite (@blen_nil byte) in H. lia.
Qed.
