(* ===== verification/Resp.v ===== *)
(** * The RESP protocol

    [galay-redis/protoc/redis_protocol.{h,cc}]: replies, the parser [RespParser] and the encoder
    [RespEncoder]. A [double] and [strtod] are parameters; positions in a buffer are below its
    length, so only the sums the code itself guards against overflow are wrapped. *)

From Stdlib Require Import ZArith Lia.
From stdpp Require Import base list strings.
From S2P Require Import Prelude Charconv.

Open Scope Z_scope.

(** ** Replies *)

Inductive RespType : Type :=
| TSimpleString | TError | TInteger | TBulkString | TArray | TNull
| TDouble | TBoolean | TBlobError | TVerbatimString | TBigNumber | TMap | TSet | TPush.

#[export] Instance RespType_eq_dec : EqDecision RespType.
Proof. solve_decision. Defined.

Inductive ParseError : Type :=
| Success | Incomplete | InvalidFormat | InvalidType | InvalidLength | BufferOverflow.

Abbreviation CR := (Byte.x0d).
Abbreviation LF := (Byte.x0a).

Section Resp.
Context {double : Type}.

(** [RespData], the variant, over the replies it nests. *)
Inductive RespData (R : Type) : Type :=
| DString (s : bytes)
| DInteger (n : Z)
| DDouble (x : double)
| DBoolean (b : bool)
| DArray (l : list R)
| DMap (l : list (R * R))
| DMonostate.

Inductive RedisReply : Type := mkReply (m_type : RespType) (m_data : RespData RedisReply).

Definition reply_type (r : RedisReply) : RespType := let '(mkReply t _) := r in t.
Definition reply_data (r : RedisReply) : RespData RedisReply := let '(mkReply _ d) := r in d.

Definition is_type (t : RespType) (r : RedisReply) : bool := bool_decide (reply_type r = t).

Definition asString (r : RedisReply) : bytes :=
  match reply_data r with DString _ s => s | _ => [] end.
Definition asInteger (r : RedisReply) : Z :=
  match reply_data r with DInteger _ n => n | _ => 0 end.
Definition asBoolean (r : RedisReply) : bool :=
  match reply_data r with DBoolean _ b => b | _ => false end.
Definition asArray (r : RedisReply) : list RedisReply :=
  match reply_data r with DArray _ l => l | _ => [] end.
Definition asMap (r : RedisReply) : list (RedisReply * RedisReply) :=
  match reply_data r with DMap _ l => l | _ => [] end.

Fixpoint clone (r : RedisReply) : RedisReply :=
  let '(mkReply t d) := r in
  match d with
  | DString _ s => mkReply t (DString _ s)
  | DInteger _ n => mkReply t (DInteger _ n)
  | DDouble _ x => mkReply t (DDouble _ x)
  | DBoolean _ b => mkReply t (DBoolean _ b)
  | DArray _ l => mkReply t (DArray _ (map clone l))
  | DMap _ l => mkReply t (DMap _ (map (fun kv => (clone kv.1, clone kv.2)) l))
  | DMonostate _ => mkReply t (DMonostate _)
  end.

Definition null_reply : RedisReply := mkReply TNull (DMonostate _).
Definition string_reply (t : RespType) (s : bytes) : RedisReply := mkReply t (DString _ s).

(** ** Finding the end of a line *)

Definition starts_crlf (l : bytes) : bool :=
  match l with a :: b :: _ => bool_decide (a = CR) && bool_decide (b = LF) | _ => false end.

(** The scalar scan of short messages. *)
Fixpoint scan_crlf (l : bytes) : option nat :=
  match l with
  | [] => None
  | _ :: t => if starts_crlf l then Some 0%nat else S <$> scan_crlf t
  end.

(** The candidates among the first [n] octets of a block, in order. *)
Fixpoint block_match (n : nat) (l : bytes) : option nat :=
  match n, l with
  | S n, _ :: t => if starts_crlf l then Some 0%nat else S <$> block_match n t
  | _, _ => None
  end.

(** [findCRLFSimd]: the position of the line end, or where the blocks of 16 octets end. *)
Fixpoint findCRLFSimd (fuel : nat) (l : bytes) : nat :=
  match fuel with
  | O => 0
  | S fuel =>
      if (16 <=? length l)%nat then
        match block_match 16 l with
        | Some idx => idx
        | None => 16 + findCRLFSimd fuel (drop 16 l)
        end
      else 0
  end.

(** [memchr(p, c, n)]. *)
Fixpoint memchr (c : byte) (l : bytes) (n : nat) : option nat :=
  match n, l with
  | S n, b :: t => if bool_decide (b = c) then Some 0%nat else S <$> memchr c t n
  | _, _ => None
  end.

Fixpoint memchr_loop (fuel : nat) (l : bytes) : option nat :=
  match fuel with
  | O => None
  | S fuel =>
      if (2 <=? length l)%nat then
        match memchr CR l (length l - 1) with
        | None => None
        | Some i =>
            if bool_decide (l !! S i = Some LF) then Some i
            else (Nat.add (S i)) <$> memchr_loop fuel (drop (S i) l)
        end
      else None
  end.

Definition findCRLF (simd : bool) (data : bytes) (offset : nat) : option Z :=
  if (length data <=? offset)%nat || (length data <? 2)%nat then None
  else
    let l := drop offset data in
    let found :=
      if (length l <? 64)%nat then scan_crlf l
      else
        let p := if simd then findCRLFSimd (length l) l else 0%nat in
        Nat.add p <$> memchr_loop (S (length l)) (drop p l) in
    (fun i => Z.of_nat (offset + i)) <$> found.

(** ** The parser *)

Definition kMaxRespBulkLength : Z := 512 * 1024 * 1024.
Definition kMaxRespAggregateLength : Z := 512 * 1024 * 1024.
Definition kMaxRespMapPairs : Z := kMaxRespAggregateLength / 2.
Definition kMaxRespDoubleTextLength : Z := 127.

Definition addWouldOverflow (lhs rhs : Z) : bool := uint64_max - rhs <? lhs.

Definition parseIntegerValue (d : bytes) : outcome ParseError Z :=
  if blen d =? 0 then Unexpected InvalidFormat
  else
    match from_chars 10 int64_min int64_max d with
    | Parsed result ptr => if ptr =? blen d then Value result else Unexpected InvalidFormat
    | _ => Unexpected InvalidFormat
    end.

(** What [std::strtod] gives: the value, the end of the text it used, and [errno == ERANGE]. *)
Record strtod_result : Type := mkStrtod { sd_value : double; sd_end : Z; sd_erange : bool }.

Variables (strtod : bytes -> strtod_result) (simd : bool).

(** A C string ends at its first NUL. *)
Fixpoint c_string (d : bytes) : bytes :=
  match d with
  | [] => []
  | b :: d => if bool_decide (b = Byte.x00) then [] else b :: c_string d
  end.

Definition parseSimpleStringFast (data : bytes) : outcome ParseError (Z * RedisReply) :=
  hot <-- (if 5 <=? blen data then
             c3 <-- rd data 3 ;;
             c4 <-- rd data 4 ;;
             Value (bool_decide (c3 = CR) && bool_decide (c4 = LF))
           else Value false) ;;
  if (hot : bool) then s <-- slice data 1 2 ;; Value (5, string_reply TSimpleString s)
  else
    match findCRLF simd data 1 with
    | None => Unexpected Incomplete
    | Some crlf_pos =>
        s <-- slice data 1 (crlf_pos - 1) ;; Value (crlf_pos + 2, string_reply TSimpleString s)
    end.

Definition parseErrorFast (data : bytes) : outcome ParseError (Z * RedisReply) :=
  match findCRLF simd data 1 with
  | None => Unexpected Incomplete
  | Some crlf_pos =>
      s <-- slice data 1 (crlf_pos - 1) ;; Value (crlf_pos + 2, string_reply TError s)
  end.

(** The number on the first line, with the position after its CRLF. *)
Definition parse_count (data : bytes) : outcome ParseError (Z * Z) :=
  match findCRLF simd data 1 with
  | None => Unexpected Incomplete
  | Some crlf_pos =>
      d <-- slice data 1 (crlf_pos - 1) ;;
      n <-- parseIntegerValue d ;;
      Value (n, crlf_pos + 2)
  end.

Definition parseIntegerFast (data : bytes) : outcome ParseError (Z * RedisReply) :=
  c <-- parse_count data ;; Value (c.2, mkReply TInteger (DInteger _ c.1)).

Definition parseBulkStringFast (data : bytes) : outcome ParseError (Z * RedisReply) :=
  c <-- parse_count data ;;
  let '(str_len, content_start) := c in
  if str_len =? -1 then Value (content_start, null_reply)
  else if str_len <? 0 then Unexpected InvalidLength
  else if kMaxRespBulkLength <? str_len then Unexpected InvalidLength
  else if addWouldOverflow content_start str_len then Unexpected BufferOverflow
  else
    let content_end := wrap64 (content_start + str_len) in
    if addWouldOverflow content_end 2 then Unexpected BufferOverflow
    else if (wrap64 (blen data - content_start) <? str_len) || (blen data <? wrap64 (content_end + 2))
    then Unexpected Incomplete
    else
      c0 <-- rd data content_end ;;
      c1 <-- rd data (content_end + 1) ;;
      if negb (bool_decide (c0 = CR)) || negb (bool_decide (c1 = LF)) then Unexpected InvalidFormat
      else
        s <-- slice data content_start str_len ;;
        Value (content_end + 2, string_reply TBulkString s).

Definition parseDoubleFast (data : bytes) : outcome ParseError (Z * RedisReply) :=
  match findCRLF simd data 1 with
  | None => Unexpected Incomplete
  | Some crlf_pos =>
      let double_text_length := crlf_pos - 1 in
      if (double_text_length =? 0) || (kMaxRespDoubleTextLength <? double_text_length)
      then Unexpected InvalidFormat
      else
        number_text <-- slice data 1 double_text_length ;;
        let r := strtod (c_string number_text) in
        if sd_erange r || negb (sd_end r =? double_text_length) then Unexpected InvalidFormat
        else Value (crlf_pos + 2, mkReply TDouble (DDouble _ (sd_value r)))
  end.

Definition parseBooleanFast (data : bytes) : outcome ParseError (Z * RedisReply) :=
  if blen data <? 4 then Unexpected Incomplete
  else
    c1 <-- rd data 1 ;;
    value <-- (if bool_decide (c1 = z2b 116) then Value true
               else if bool_decide (c1 = z2b 102) then Value false
               else Unexpected InvalidFormat) ;;
    c2 <-- rd data 2 ;;
    c3 <-- rd data 3 ;;
    if negb (bool_decide (c2 = CR)) || negb (bool_decide (c3 = LF)) then Unexpected InvalidFormat
    else Value (4, mkReply TBoolean (DBoolean _ value)).

(** A result of the recursive parser; [None] is running out of fuel. *)
Definition presult (A : Type) : Type := option (outcome ParseError A).

Definition pbind {A C} (m : presult A) (k : A -> presult C) : presult C :=
  match m with
  | None => None
  | Some (Value a) => k a
  | Some (Unexpected e) => Some (Unexpected e)
  | Some OutOfBounds => Some OutOfBounds
  end.

(** The element loops, over the recursive call. *)
Section Elements.
Variable parse : bytes -> presult (Z * RedisReply).

(** [if (offset >= length) return Incomplete; parseFast(data + offset, length - offset, ...)]. *)
Definition parse_at (data : bytes) (offset : Z) : presult (Z * RedisReply) :=
  if blen data <=? offset then Some (Unexpected Incomplete)
  else pbind (parse (drop (Z.to_nat offset) data)) (fun r => Some (Value (offset + r.1, r.2))).

Fixpoint parse_elements (fuel : nat) (data : bytes) (count offset : Z) :
    presult (Z * list RedisReply) :=
  if count <=? 0 then Some (Value (offset, []))
  else
    match fuel with
    | O => None
    | S fuel =>
        pbind (parse_at data offset) (fun e =>
        pbind (parse_elements fuel data (count - 1) e.1) (fun r =>
        Some (Value (r.1, e.2 :: r.2))))
    end.

Fixpoint parse_pairs (fuel : nat) (data : bytes) (count offset : Z) :
    presult (Z * list (RedisReply * RedisReply)) :=
  if count <=? 0 then Some (Value (offset, []))
  else
    match fuel with
    | O => None
    | S fuel =>
        pbind (parse_at data offset) (fun key =>
        pbind (parse_at data key.1) (fun value =>
        pbind (parse_pairs fuel data (count - 1) value.1) (fun r =>
        Some (Value (r.1, (key.2, value.2) :: r.2)))))
    end.

Definition parseArrayFast (fuel : nat) (data : bytes) : presult (Z * RedisReply) :=
  pbind (Some (parse_count data)) (fun c =>
  let '(array_len, offset) := c in
  if array_len =? -1 then Some (Value (offset, null_reply))
  else if array_len <? 0 then Some (Unexpected InvalidLength)
  else if kMaxRespAggregateLength <? array_len then Some (Unexpected InvalidLength)
  else
    pbind (parse_elements fuel data array_len offset) (fun r =>
    Some (Value (r.1, mkReply TArray (DArray _ r.2))))).

Definition parseMapFast (fuel : nat) (data : bytes) : presult (Z * RedisReply) :=
  pbind (Some (parse_count data)) (fun c =>
  let '(map_size, offset) := c in
  if map_size <? 0 then Some (Unexpected InvalidLength)
  else if kMaxRespMapPairs <? map_size then Some (Unexpected InvalidLength)
  else
    pbind (parse_pairs fuel data map_size offset) (fun r =>
    Some (Value (r.1, mkReply TMap (DMap _ r.2))))).

Definition parseSetFast (fuel : nat) (data : bytes) : presult (Z * RedisReply) :=
  pbind (Some (parse_count data)) (fun c =>
  let '(set_size, offset) := c in
  if set_size <? 0 then Some (Unexpected InvalidLength)
  else if kMaxRespAggregateLength <? set_size then Some (Unexpected InvalidLength)
  else
    pbind (parse_elements fuel data set_size offset) (fun r =>
    Some (Value (r.1, mkReply TSet (DArray _ r.2))))).
End Elements.

(** Which parser a type marker selects. *)
Inductive reply_parser : Type :=
| PSimpleString | PError | PInteger | PBulkString | PArray | PDouble | PBoolean | PMap | PSet.

Definition parser_of (type_marker : byte) : option reply_parser :=
  if bool_decide (type_marker ∈ bs "+(") then Some PSimpleString
  else if bool_decide (type_marker ∈ bs "-") then Some PError
  else if bool_decide (type_marker ∈ bs ":") then Some PInteger
  else if bool_decide (type_marker ∈ bs "$=!") then Some PBulkString
  else if bool_decide (type_marker ∈ bs "*>") then Some PArray
  else if bool_decide (type_marker ∈ bs ",") then Some PDouble
  else if bool_decide (type_marker ∈ bs "#") then Some PBoolean
  else if bool_decide (type_marker ∈ bs "%") then Some PMap
  else if bool_decide (type_marker ∈ bs "~") then Some PSet
  else None.

Fixpoint parseFast (fuel : nat) (data : bytes) : presult (Z * RedisReply) :=
  match fuel with
  | O => None
  | S fuel =>
      match data with
      | [] => Some (Unexpected Incomplete)
      | type_marker :: _ =>
          match parser_of type_marker with
          | Some PSimpleString => Some (parseSimpleStringFast data)
          | Some PError => Some (parseErrorFast data)
          | Some PInteger => Some (parseIntegerFast data)
          | Some PBulkString => Some (parseBulkStringFast data)
          | Some PArray => parseArrayFast (parseFast fuel) fuel data
          | Some PDouble => Some (parseDoubleFast data)
          | Some PBoolean => Some (parseBooleanFast data)
          | Some PMap => parseMapFast (parseFast fuel) fuel data
          | Some PSet => parseSetFast (parseFast fuel) fuel data
          | None => Some (Unexpected InvalidType)
          end
      end
  end.

(** [RespParser::parse]: every nested call works on a shorter buffer. *)
Definition parse (data : bytes) : presult (Z * RedisReply) := parseFast (S (length data)) data.
End Resp.

Arguments RespData double R : clear implicits.
Arguments RedisReply double : clear implicits.
Arguments strtod_result double : clear implicits.

(** ** The encoder *)

Definition crlf : bytes := [CR; LF].

(** [RespEncoder::appendUnsignedDecimal] and [decimalDigits]. *)
Definition appendUnsignedDecimal (out : bytes) (value : Z) : bytes := out ++ to_chars_unsigned 10 value.

Fixpoint decimalDigits_loop (fuel : nat) (value digits : Z) : Z :=
  match fuel with
  | O => digits
  | S fuel => if 10 <=? value then decimalDigits_loop fuel (value / 10) (digits + 1) else digits
  end.

Definition decimalDigits (value : Z) : Z := decimalDigits_loop (Z.to_nat (Z.log2 value)) value 1.

Definition estimateBulkStringBytes (value_len : Z) : Z :=
  wrap64 (1 + decimalDigits value_len + 2 + value_len + 2).

Definition estimateCommandBytes (cmd : bytes) (args : list bytes) : Z :=
  let total := wrap64 (1 + decimalDigits (1 + blen args) + 2) in
  let total := wrap64 (total + estimateBulkStringBytes (blen cmd)) in
  foldl (fun total arg => wrap64 (total + estimateBulkStringBytes (blen arg))) total args.

Definition appendBulkString (out value : bytes) : bytes :=
  appendUnsignedDecimal (out ++ bs "$") (blen value) ++ crlf ++ value ++ crlf.

Definition encodeSimpleString (str : bytes) : bytes := bs "+" ++ str ++ crlf.
Definition encodeError (error : bytes) : bytes := bs "-" ++ error ++ crlf.
Definition encodeInteger (value : Z) : bytes := bs ":" ++ to_chars value ++ crlf.
Definition encodeBulkString (str : bytes) : bytes := appendBulkString [] str.
Definition encodeNull : bytes := bs "$-1" ++ crlf.
Definition encodeBoolean (value : bool) : bytes := (if value then bs "#t" else bs "#f") ++ crlf.
(** [std::to_string] of a double is an argument, as [strtod] is of the parser. *)
Definition encodeDouble {double} (to_string : double -> bytes) (value : double) : bytes :=
  bs "," ++ to_string value ++ crlf.

Definition encodeArray (elements : list bytes) : bytes :=
  foldl appendBulkString (appendUnsignedDecimal (bs "*") (blen elements) ++ crlf) elements.

(** [append(out, cmd_parts)], [appendCommandFast(out, cmd_parts)] and, on an empty output, the
    [encodeCommand]s of a list. *)
Definition append_parts (out : bytes) (cmd_parts : list bytes) : bytes :=
  match cmd_parts with
  | [] => out ++ bs "*0" ++ crlf
  | _ => foldl appendBulkString (appendUnsignedDecimal (out ++ bs "*") (blen cmd_parts) ++ crlf) cmd_parts
  end.

(** [append(out, cmd, args)], [appendCommandFast(out, cmd, args)] and [encodeCommand(cmd, args)]. *)
Definition appendCommandFast (out cmd : bytes) (args : list bytes) : bytes :=
  foldl appendBulkString
    (appendBulkString (appendUnsignedDecimal (out ++ bs "*") (1 + blen args) ++ crlf) cmd) args.

(** ** The wire format *)

(** A line holds no CRLF. *)
Definition no_crlf (s : bytes) : Prop := scan_crlf s = None.

(** A number of an [int64_t] and a line: [parseIntegerValue] accepts it. *)
Definition is_int (t : bytes) (n : Z) : Prop := parseIntegerValue t = Value n.

Section Wire.
Context {double : Type} (strtod : bytes -> strtod_result double).
#[local] Abbreviation reply := (RedisReply double).

(** The octets of a reply. The fast path of simple strings also takes a bare CRLF for their text,
    where [lax] admits it. *)
Inductive wire (lax : bool) : reply -> bytes -> Prop :=
| wire_simple m s :
    parser_of m = Some PSimpleString -> no_crlf s \/ (lax = true /\ s = crlf) ->
    wire lax (string_reply TSimpleString s) (m :: s ++ crlf)
| wire_error m s :
    parser_of m = Some PError -> no_crlf s -> wire lax (string_reply TError s) (m :: s ++ crlf)
| wire_integer m t n :
    parser_of m = Some PInteger -> is_int t n ->
    wire lax (mkReply TInteger (DInteger _ n)) (m :: t ++ crlf)
| wire_bulk m t s :
    parser_of m = Some PBulkString -> is_int t (blen s) -> blen s <= kMaxRespBulkLength ->
    wire lax (string_reply TBulkString s) (m :: t ++ crlf ++ s ++ crlf)
| wire_null m t :
    parser_of m = Some PBulkString \/ parser_of m = Some PArray -> is_int t (-1) ->
    wire lax null_reply (m :: t ++ crlf)
| wire_array m t l w :
    parser_of m = Some PArray -> is_int t (blen l) -> blen l <= kMaxRespAggregateLength ->
    wires lax l w -> wire lax (mkReply TArray (DArray _ l)) (m :: t ++ crlf ++ w)
| wire_set m t l w :
    parser_of m = Some PSet -> is_int t (blen l) -> blen l <= kMaxRespAggregateLength ->
    wires lax l w -> wire lax (mkReply TSet (DArray _ l)) (m :: t ++ crlf ++ w)
| wire_map m t l w :
    parser_of m = Some PMap -> is_int t (blen l) -> blen l <= kMaxRespMapPairs ->
    wire_pairs lax l w -> wire lax (mkReply TMap (DMap _ l)) (m :: t ++ crlf ++ w)
| wire_double m t x :
    parser_of m = Some PDouble -> no_crlf t -> 0 < blen t <= kMaxRespDoubleTextLength ->
    strtod (c_string t) = mkStrtod x (blen t) false ->
    wire lax (mkReply TDouble (DDouble _ x)) (m :: t ++ crlf)
| wire_boolean m (b : bool) :
    parser_of m = Some PBoolean ->
    wire lax (mkReply TBoolean (DBoolean _ b)) (m :: (if b then bs "t" else bs "f") ++ crlf)
with wires (lax : bool) : list reply -> bytes -> Prop :=
| wires_nil : wires lax [] []
| wires_cons r l w w' : wire lax r w -> wires lax l w' -> wires lax (r :: l) (w ++ w')
with wire_pairs (lax : bool) : list (reply * reply) -> bytes -> Prop :=
| wire_pairs_nil : wire_pairs lax [] []
| wire_pairs_cons k v l wk wv w' :
    wire lax k wk -> wire lax v wv -> wire_pairs lax l w' ->
    wire_pairs lax ((k, v) :: l) (wk ++ wv ++ w').

Scheme wire_rec := Induction for wire Sort Prop
  with wires_rec := Induction for wires Sort Prop
  with wire_pairs_rec := Induction for wire_pairs Sort Prop.
Combined Scheme wire_mutind from wire_rec, wires_rec, wire_pairs_rec.
End Wire.

(** ** Lines *)

Lemma starts_crlf_true l : starts_crlf l = true <-> exists rest, l = crlf ++ rest.
Proof.
  split.
  - destruct l as [|a [|b l]]; [done..|]. cbn. intros [Ha Hb]%andb_true_iff.
    apply bool_decide_eq_true in Ha as ->. apply bool_decide_eq_true in Hb as ->. by exists l.
  - by intros [rest ->].
Qed.

Lemma starts_crlf_line rest : starts_crlf (CR :: LF :: rest) = true.
Proof. reflexivity. Qed.

Lemma starts_crlf_app_l l k : starts_crlf l = true -> starts_crlf (l ++ k) = true.
Proof. intros [rest ->]%starts_crlf_true. by rewrite <- app_assoc. Qed.

(** Octets where no line end starts are skipped. *)
Lemma scan_crlf_skip i l :
  (i <= length l)%nat -> (forall j, (j < i)%nat -> starts_crlf (drop j l) = false) ->
  scan_crlf l = Nat.add i <$> scan_crlf (drop i l).
Proof.
  revert l. induction i as [|i IH]; intros l Hi Hs; [rewrite drop_0; by destruct (scan_crlf l)|].
  destruct l as [|a l]; [cbn in Hi; lia|]. cbn [scan_crlf skipn].
  rewrite (Hs 0%nat ltac:(lia) : starts_crlf (a :: l) = false), (IH l).
  - by destruct (scan_crlf (drop i l)).
  - cbn in Hi. lia.
  - intros j Hj. apply (Hs (S j)). lia.
Qed.

Lemma starts_crlf_not_cr l j : l !! j <> Some CR -> starts_crlf (drop j l) = false.
Proof.
  intros H. destruct (starts_crlf (drop j l)) eqn:E; [|done].
  apply starts_crlf_true in E as [rest E]. destruct H.
  rewrite <- (Nat.add_0_r j), <- lookup_drop, E. done.
Qed.

Lemma memchr_spec c l n :
  match memchr c l n with
  | Some i => (i < n)%nat /\ l !! i = Some c /\ forall j, (j < i)%nat -> l !! j <> Some c
  | None => forall j, (j < n)%nat -> l !! j <> Some c
  end.
Proof.
  revert l. induction n as [|n IH]; intros [|b l]; cbn [memchr].
  1-2: by intros j; lia.
  - by intros j _.
  - case_bool_decide as Hb.
    + subst. split_and!; [lia|done|intros j; lia].
    + specialize (IH l). destruct (memchr c l n) as [i|]; cbn.
      * destruct IH as (Hi & Hl & Hj). split_and!; [lia|done|].
        intros [|j] Hj'; cbn; [congruence|apply Hj; lia].
      * intros [|j] Hj; cbn; [congruence|apply IH; lia].
Qed.

Lemma memchr_loop_spec fuel l : (length l < fuel)%nat -> memchr_loop fuel l = scan_crlf l.
Proof.
  revert l. induction fuel as [|fuel IH]; [lia|]. intros l Hf. cbn [memchr_loop].
  destruct (Nat.leb_spec 2 (length l)) as [H2|H2].
  2:{ destruct l as [|a [|b l]]; [done..|cbn in H2; lia]. }
  pose proof (memchr_spec CR l (length l - 1)) as Hm.
  destruct (memchr CR l (length l - 1)) as [i|].
  - destruct Hm as (Hi & Hl & Hj). case_bool_decide as Hn.
    + rewrite (scan_crlf_skip i) by (try lia; intros j ?; apply starts_crlf_not_cr, Hj; lia).
      rewrite (drop_S _ _ _ Hl), (drop_S _ _ _ Hn). cbn.
      rewrite !bool_decide_eq_true_2 by done. cbn. by rewrite Nat.add_0_r.
    + rewrite IH by (rewrite length_drop; lia). symmetry. apply scan_crlf_skip; [lia|].
      intros j Hj'. destruct (decide (j = i)) as [->|]; [|apply starts_crlf_not_cr, Hj; lia].
      rewrite (drop_S _ _ _ Hl). destruct (drop (S i) l) as [|b k] eqn:E; [done|].
      cbn. apply bool_decide_eq_false_2. intros ->. destruct Hn.
      by rewrite <- (Nat.add_0_r (S i)), <- lookup_drop, E.
  - assert (scan_crlf l = Nat.add (length l - 1) <$> scan_crlf (drop (length l - 1) l)) as ->.
    { apply scan_crlf_skip; [lia|]. intros j Hj. by apply starts_crlf_not_cr, Hm. }
    destruct (drop (length l - 1) l) as [|a [|b k]] eqn:E; [done..|].
    apply (f_equal length) in E. rewrite length_drop in E. cbn in E. lia.
Qed.

Lemma block_match_spec n l :
  match block_match n l with
  | Some i => (i <= length l)%nat /\ forall j, (j < i)%nat -> starts_crlf (drop j l) = false
  | None => forall j, (j < n)%nat -> starts_crlf (drop j l) = false
  end.
Proof.
  revert l. induction n as [|n IH]; intros l; [intros j; lia|].
  destruct l as [|a l]; cbn [block_match]; [intros j _; by rewrite drop_nil|].
  destruct (starts_crlf (a :: l)) eqn:E; [split; [lia|intros j; lia]|].
  specialize (IH l). destruct (block_match n l) as [i|]; cbn.
  - destruct IH as [Hi Hj]. split; [lia|]. intros [|j] Hj'; [done|apply Hj; lia].
  - intros [|j] Hj; [done|apply IH; lia].
Qed.

Lemma findCRLFSimd_spec fuel l :
  (findCRLFSimd fuel l <= length l)%nat /\
  forall j, (j < findCRLFSimd fuel l)%nat -> starts_crlf (drop j l) = false.
Proof.
  revert l. induction fuel as [|fuel IH]; intros l; cbn [findCRLFSimd]; [split; [lia|intros j; lia]|].
  destruct (Nat.leb_spec 16 (length l)); [|split; [lia|intros j; lia]].
  pose proof (block_match_spec 16 l) as Hb. destruct (block_match 16 l) as [i|]; [done|].
  destruct (IH (drop 16 l)) as [Hl Hj]. rewrite length_drop in Hl. split; [lia|].
  intros j Hj'. destruct (Nat.lt_ge_cases j 16); [by apply Hb|].
  rewrite <- (Nat.sub_add 16 j), Nat.add_comm, <- drop_drop by lia. apply Hj. lia.
Qed.

(** Every variant of the search finds the first line end. *)
Lemma findCRLF_spec simd data offset :
  findCRLF simd data offset = (fun i => Z.of_nat (offset + i)) <$> scan_crlf (drop offset data).
Proof.
  unfold findCRLF. destruct (Nat.leb_spec (length data) offset).
  { cbn [orb]. by rewrite drop_ge by lia. }
  destruct (Nat.ltb_spec (length data) 2); cbn [orb].
  { destruct data as [|a [|b data]]; cbn in *; [lia| |lia]. by replace offset with 0%nat by lia. }
  f_equal. destruct (length (drop offset data) <? 64)%nat; [done|].
  set (l := drop offset data). set (p := if simd then _ else _).
  assert ((p <= length l)%nat /\ forall j, (j < p)%nat -> starts_crlf (drop j l) = false) as [Hp Hj].
  { subst p. destruct simd; [apply findCRLFSimd_spec|split; [lia|intros j; lia]]. }
  rewrite memchr_loop_spec by (rewrite length_drop; lia). symmetry. by apply scan_crlf_skip.
Qed.

Lemma scan_crlf_app_l l k i : scan_crlf l = Some i -> scan_crlf (l ++ k) = Some i.
Proof.
  revert i. induction l as [|a l IH]; intros i; [done|]. cbn [scan_crlf app].
  destruct (starts_crlf (a :: l)) eqn:E.
  - intros [= <-]. apply (starts_crlf_app_l _ k) in E. by rewrite <- app_comm_cons in E; rewrite E.
  - destruct (scan_crlf l) as [j|] eqn:El; [|done]. intros [= <-].
    rewrite (IH j eq_refl). destruct (starts_crlf (a :: l ++ k)) eqn:E'; [|done].
    apply starts_crlf_true in E' as [rest [= -> E']]. destruct l as [|b l]; [done|].
    injection E' as -> _. by rewrite (starts_crlf_line l) in E.
Qed.

(** The end of a line is found exactly behind its text. *)
Lemma scan_crlf_line s rest : no_crlf s -> scan_crlf (s ++ crlf ++ rest) = Some (length s).
Proof.
  unfold no_crlf. induction s as [|a s IH]; [done|]. cbn [scan_crlf app].
  destruct (starts_crlf (a :: s)) eqn:E; [done|]. intros Hs. rewrite IH; [|by destruct (scan_crlf s)].
  destruct (starts_crlf (a :: s ++ crlf ++ rest)) eqn:E'; [|done].
  apply starts_crlf_true in E' as [k [= -> E']]. destruct s as [|b s]; [done|].
  injection E' as -> _. by rewrite (starts_crlf_line s) in E.
Qed.

Lemma scan_crlf_inv l i :
  scan_crlf l = Some i -> exists s rest, l = s ++ crlf ++ rest /\ no_crlf s /\ i = length s.
Proof.
  revert i. induction l as [|a l IH]; [done|]. intros i. cbn [scan_crlf].
  destruct (starts_crlf (a :: l)) eqn:E.
  - intros [= <-]. apply starts_crlf_true in E as [rest ->]. by exists [], rest.
  - destruct (scan_crlf l) as [j|]; [|done]. intros [= <-].
    destruct (IH j eq_refl) as (s & rest & -> & Hs & ->). exists (a :: s), rest.
    split_and!; [done| |done]. unfold no_crlf in *. cbn [scan_crlf]. rewrite Hs.
    destruct (starts_crlf (a :: s)) eqn:E'; [|done].
    apply (starts_crlf_app_l _ (crlf ++ rest)) in E'. by rewrite <- app_comm_cons, E in E'.
Qed.

(** A line is not found in a proper part of it. *)
Lemma scan_crlf_part s p q : no_crlf s -> s ++ crlf = p ++ q -> q <> [] -> scan_crlf p = None.
Proof.
  intros Hs E Hq. destruct (scan_crlf p) as [i|] eqn:Ep; [|done].
  pose proof (scan_crlf_inv _ _ Ep) as (s' & rest & -> & _ & Hi).
  apply (scan_crlf_app_l _ q) in Ep. rewrite <- E, <- (app_nil_r crlf), scan_crlf_line in Ep by done.
  injection Ep as <-. apply (f_equal length) in E. rewrite !length_app in E. cbn in E.
  destruct q; [done|cbn in E; lia].
Qed.

(** ** The pieces of a message *)

Lemma findCRLF_line simd m s rest : no_crlf s -> findCRLF simd (m :: s ++ crlf ++ rest) 1 = Some (1 + blen s).
Proof.
  intros Hs. rewrite findCRLF_spec, skipn_cons, drop_0. rewrite scan_crlf_line by done.
  cbn. f_equal. unfold blen. lia.
Qed.

Lemma findCRLF_inv simd m l p :
  findCRLF simd (m :: l) 1 = Some p ->
  exists s rest, l = s ++ crlf ++ rest /\ no_crlf s /\ p = 1 + blen s.
Proof.
  rewrite findCRLF_spec, skipn_cons, drop_0. destruct (scan_crlf l) as [i|] eqn:E; [|done].
  intros [= <-]. apply scan_crlf_inv in E as (s & rest & -> & Hs & ->).
  exists s, rest. split_and!; [done..|]. unfold blen. lia.
Qed.

Lemma findCRLF_part simd m s p q :
  no_crlf s -> s ++ crlf = p ++ q -> q <> [] -> findCRLF simd (m :: p) 1 = None.
Proof.
  intros Hs E Hq. rewrite findCRLF_spec, skipn_cons, drop_0. by rewrite (scan_crlf_part s p q).
Qed.

Lemma line_slice {E} m s rest : @slice E (m :: s ++ rest) 1 (1 + blen s - 1) = Value s.
Proof. apply (slice_app_at _ [m] s rest); [done..|lia]. Qed.

Lemma is_int_inv t n :
  is_int t n ->
  t <> [] /\ int64_min <= n <= int64_max /\ Forall (fun b => b <> CR) t.
Proof.
  unfold is_int, parseIntegerValue. destruct (Z.eqb_spec (blen t) 0) as [|Hne]; [done|].
  assert (t <> []) as Ht by (by intros ->). unfold from_chars.
  set (sign := match t with b :: _ => _ | [] => false end).
  destruct (take_digits_split 10 (drop (Z.to_nat (if sign then 1 else 0)) t)) as (pre & rest & E & Hp & _).
  apply digits_of_blen in Hp as Hl.
  destruct (Z.eqb_spec (blen (take_digits 10 (drop (Z.to_nat (if sign then 1 else 0)) t))) 0); [done|].
  destruct (_ && _) eqn:Er; [|done]. apply andb_true_iff in Er as [H1%Z.leb_le H2%Z.leb_le].
  destruct (Z.eqb_spec ((if sign then 1 else 0) + blen (take_digits 10
    (drop (Z.to_nat (if sign then 1 else 0)) t))) (blen t)) as [El|]; [|done].
  intros [= <-]. split_and!; [done..|].
  assert (rest = []) as ->.
  { apply (f_equal blen) in E. rewrite blen_app in E. pose proof (blen_nonneg rest).
    destruct rest as [|b rest]; [done|]. rewrite blen_cons in E. pose proof (blen_nonneg rest).
    unfold blen in *. rewrite length_drop in E. destruct sign; lia. }
  rewrite app_nil_r in E.
  assert (Forall (fun b => b <> CR) pre) as Hpre.
  { clear -Hp. induction Hp as [|b v pre ds Hb _ IH]; constructor; [|done]. intros ->.
    vm_compute in Hb. done. }
  subst sign. destruct t as [|b t]; [done|].
  destruct ((int64_min <? 0) && bool_decide (b = z2b 45)) eqn:Es.
  - cbn in E. subst pre. constructor; [|done].
    apply andb_true_iff in Es as [_ Es%bool_decide_eq_true]. by intros ->.
  - cbn in E. by subst pre.
Qed.

Lemma no_cr_no_crlf t : Forall (fun b => b <> CR) t -> no_crlf t.
Proof.
  unfold no_crlf. induction 1 as [|b t Hb _ IH]; [done|]. cbn [scan_crlf]. rewrite IH.
  destruct (starts_crlf (b :: t)) eqn:E; [|done].
  apply starts_crlf_true in E as [k E]. by injection E as -> _.
Qed.

Lemma is_int_no_crlf t n : is_int t n -> no_crlf t.
Proof. intros (_ & _ & H)%is_int_inv. by apply no_cr_no_crlf. Qed.

Lemma is_int_to_chars n : int64_min <= n <= int64_max -> is_int (to_chars n) n.
Proof.
  intros Hn. unfold is_int, parseIntegerValue. pose proof (to_chars_ne n).
  destruct (Z.eqb_spec (blen (to_chars n)) 0); [by destruct (to_chars n)|].
  rewrite <- (app_nil_r (to_chars n)) at 1.
  rewrite from_chars_to_chars by (done || (unfold int64_min; lia)). by rewrite Z.eqb_refl.
Qed.

Section Pieces.
Context {double : Type} (strtod : bytes -> strtod_result double) (simd : bool).

Lemma parse_count_line m t n rest :
  is_int t n -> parse_count simd (m :: t ++ crlf ++ rest) = Value (n, 3 + blen t).
Proof.
  intros Hn. unfold parse_count. rewrite findCRLF_line by (by eapply is_int_no_crlf).
  rewrite line_slice. cbn [obind]. rewrite Hn. cbn [obind]. do 2 f_equal. lia.
Qed.

Lemma parse_count_part m t n p q :
  is_int t n -> t ++ crlf = p ++ q -> q <> [] -> parse_count simd (m :: p) = Unexpected Incomplete.
Proof.
  intros Hn E Hq. unfold parse_count. by rewrite (findCRLF_part _ _ t p q) by eauto using is_int_no_crlf.
Qed.

Lemma parseIntegerValue_cases t :
  (exists n, parseIntegerValue t = Value n) \/ parseIntegerValue t = Unexpected InvalidFormat.
Proof. unfold parseIntegerValue. repeat case_match; eauto. Qed.

Lemma parse_count_cases m l :
  (exists t n rest, l = t ++ crlf ++ rest /\ is_int t n /\ parse_count simd (m :: l) = Value (n, 3 + blen t)) \/
  parse_count simd (m :: l) = Unexpected Incomplete \/ parse_count simd (m :: l) = Unexpected InvalidFormat.
Proof.
  destruct (findCRLF simd (m :: l) 1) as [p|] eqn:E.
  - pose proof (findCRLF_inv _ _ _ _ E) as (t & rest & -> & Ht & ->).
    destruct (parseIntegerValue_cases t) as [[n Hn]|Hn].
    + left. exists t, n, rest. split_and!; [done..|]. by apply parse_count_line.
    + right. right. unfold parse_count. rewrite E, line_slice. cbn [obind]. by rewrite Hn.
  - right. left. unfold parse_count. by rewrite E.
Qed.

(** The hot path looks at the octets 3 and 4. *)
Lemma parseSimpleStringFast_eq m l :
  parseSimpleStringFast (double := double) simd (m :: l) =
    if starts_crlf (drop 2 l) then Value (5, string_reply TSimpleString (take 2 l))
    else match findCRLF simd (m :: l) 1 with
         | None => Unexpected Incomplete
         | Some p => s <-- slice (m :: l) 1 (p - 1) ;; Value (p + 2, string_reply TSimpleString s)
         end.
Proof.
  unfold parseSimpleStringFast. destruct l as [|a [|b [|c [|d l]]]]; [done..|].
  rewrite (proj2 (Z.leb_le 5 (blen (m :: a :: b :: c :: d :: l))))
    by (rewrite !blen_cons; pose proof (blen_nonneg l); lia).
  cbn [obind starts_crlf skipn].
  change (rd (m :: a :: b :: c :: d :: l) 3) with (@Value ParseError _ c).
  change (rd (m :: a :: b :: c :: d :: l) 4) with (@Value ParseError _ d). cbn [obind].
  destruct (bool_decide (c = CR) && bool_decide (d = LF)); [|done].
  rewrite (slice_app_at _ [m] [a; b] (c :: d :: l)) by done. done.
Qed.

Lemma scan_crlf_hot l : starts_crlf (drop 2 l) = true -> scan_crlf l <> None.
Proof.
  destruct l as [|a [|b l]]; [done..|].
  rewrite !skipn_cons, drop_0. intros Hs. cbn [scan_crlf].
  destruct (starts_crlf (a :: b :: l)); [done|]. destruct (starts_crlf (b :: l)); [done|].
  destruct l as [|c l]; [done|]. cbn [scan_crlf]. by rewrite Hs.
Qed.

(** A terminated line goes through the line search, unless the hot path is fooled by an empty line
    before another one. *)
Lemma parseSimpleStringFast_line m s rest :
  no_crlf s -> starts_crlf rest = false ->
  parseSimpleStringFast (double := double) simd (m :: s ++ crlf ++ rest) =
    Value (3 + blen s, string_reply TSimpleString s).
Proof.
  intros Hs Hr. rewrite parseSimpleStringFast_eq, findCRLF_line, line_slice by done. cbn [obind].
  destruct (starts_crlf (drop 2 (s ++ crlf ++ rest))) eqn:E; [|do 2 f_equal; lia].
  destruct s as [|a [|b [|c s]]].
  - change (starts_crlf rest = true) in E. congruence.
  - change (starts_crlf (LF :: rest) = true) in E. apply starts_crlf_true in E as [k E]. done.
  - done.
  - exfalso. change (starts_crlf ((c :: s) ++ crlf ++ rest) = true) in E.
    unfold no_crlf in Hs. cbn [scan_crlf] in Hs.
    destruct (starts_crlf (a :: b :: c :: s)); [done|]. destruct (starts_crlf (b :: c :: s)); [done|].
    assert (no_crlf (c :: s)) as Hc.
    { unfold no_crlf. cbn [scan_crlf]. destruct (starts_crlf (c :: s)); [done|]. by destruct (scan_crlf s). }
    pose proof (scan_crlf_line _ rest Hc) as E0. rewrite <- app_comm_cons in E, E0.
    cbn [scan_crlf] in E0. by rewrite E in E0.
Qed.

Lemma parseSimpleStringFast_part m s p q :
  no_crlf s -> s ++ crlf = p ++ q -> q <> [] ->
  parseSimpleStringFast (double := double) simd (m :: p) = Unexpected Incomplete.
Proof.
  intros Hs E Hq. rewrite parseSimpleStringFast_eq, (findCRLF_part _ _ s p q) by done.
  destruct (starts_crlf (drop 2 p)) eqn:E'; [|done].
  apply scan_crlf_hot in E'. by rewrite (scan_crlf_part s p q) in E'.
Qed.
End Pieces.

(** ** Parsing what the wire format describes *)

Section Parsing.
Context {double : Type} (strtod : bytes -> strtod_result double) (simd : bool).
#[local] Abbreviation reply := (RedisReply double).
#[local] Abbreviation wire := (wire strtod).
#[local] Abbreviation wires := (wires strtod).
#[local] Abbreviation wire_pairs := (wire_pairs strtod).
#[local] Abbreviation parseFast := (parseFast strtod simd).

Lemma wire_head lax r w : wire lax r w -> exists m w', w = m :: w' /\ parser_of m <> None.
Proof.
  intros H. destruct H; eexists _, _; (split; [reflexivity|]); try (congruence || intuition congruence).
Qed.

Lemma wire_pos lax r w : wire lax r w -> 0 < blen w.
Proof. intros (m & w' & -> & _)%wire_head. rewrite blen_cons. pose proof (blen_nonneg w'). lia. Qed.

Lemma marker_no_crlf m w rest : parser_of m <> None -> starts_crlf (m :: w ++ rest) = false.
Proof.
  intros Hm. destruct (starts_crlf (m :: w ++ rest)) eqn:E; [|done].
  apply starts_crlf_true in E as [k E]. by injection E as -> _.
Qed.

Lemma wires_no_crlf lax l w rest :
  wires lax l w -> starts_crlf rest = false -> starts_crlf (w ++ rest) = false.
Proof.
  intros H Hr. destruct H as [|r l w w' (m & w0 & -> & Hm)%wire_head _]; [done|].
  rewrite <- app_assoc. by apply marker_no_crlf.
Qed.

Lemma wire_no_crlf lax r w rest : wire lax r w -> starts_crlf (w ++ rest) = false.
Proof. intros (m & w0 & -> & Hm)%wire_head. by apply marker_no_crlf. Qed.

Lemma wire_pairs_no_crlf lax l w rest :
  wire_pairs lax l w -> starts_crlf rest = false -> starts_crlf (w ++ rest) = false.
Proof.
  intros H Hr. destruct H as [|k v l wk wv w' Hk _ _]; [done|].
  rewrite <- app_assoc. by eapply wire_no_crlf.
Qed.

(** A strict prefix of a message, too, starts with its marker. *)
Lemma wire_part_no_crlf lax r w p q : wire lax r w -> w = p ++ q -> starts_crlf p = false.
Proof.
  intros (m & w0 & -> & Hm)%wire_head E. destruct p as [|m' p]; [done|].
  injection E as <- _. rewrite <- (app_nil_r p). by apply marker_no_crlf.
Qed.

Lemma parse_at_in parse data pre d offset :
  data = pre ++ d -> offset = blen pre -> d <> [] ->
  parse_at (double := double) parse data offset =
    pbind (parse d) (fun r => Some (Value (blen pre + r.1, r.2))).
Proof.
  intros -> -> Hd. unfold parse_at. rewrite blen_app. pose proof (blen_nonneg pre).
  destruct (Z.leb_spec (blen pre + blen d) (blen pre)) as [Hl|_].
  { pose proof (blen_nonneg d). destruct d as [|b d]; [done|]. rewrite blen_cons in Hl.
    pose proof (blen_nonneg d). lia. }
  unfold blen. by rewrite Nat2Z.id, drop_app_length.
Qed.

(** What parsing gives on a message followed by other octets. *)
Definition parses (r : reply) (w : bytes) : Prop :=
  forall fuel rest, (length (w ++ rest) < fuel)%nat -> starts_crlf rest = false ->
    blen (w ++ rest) < 2 ^ 63 -> parseFast fuel (w ++ rest) = Some (Value (blen w, r)).

Lemma parse_at_parses r w fuel pre rest :
  parses r w -> 0 < blen w -> (length (w ++ rest) < fuel)%nat -> starts_crlf rest = false ->
  blen (w ++ rest) < 2 ^ 63 ->
  parse_at (parseFast fuel) (pre ++ w ++ rest) (blen pre) = Some (Value (blen (pre ++ w), r)).
Proof.
  intros Hp Hw Hf Hr Hb. rewrite (parse_at_in _ _ pre (w ++ rest)) by (done || by destruct w).
  rewrite Hp by done. cbn [pbind fst snd]. by rewrite blen_app.
Qed.

Lemma parse_elements_parses l w fuel fuel' pre rest :
  wires false l w ->
  (forall r v, wire false r v -> (length v <= length w)%nat -> parses r v) ->
  (length (w ++ rest) < fuel)%nat -> (length w < fuel')%nat -> starts_crlf rest = false ->
  blen (w ++ rest) < 2 ^ 63 ->
  parse_elements (parseFast fuel) fuel' (pre ++ w ++ rest) (blen l) (blen pre) =
    Some (Value (blen (pre ++ w), l)).
Proof.
  intros H. revert fuel' pre. induction H as [|r l w w' Hw Hl IH]; intros fuel' pre Hp Hf Hf' Hr Hb.
  - rewrite app_nil_r. by destruct fuel'.
  - destruct fuel' as [|fuel']; [lia|]. cbn [parse_elements]. rewrite blen_cons.
    pose proof (blen_nonneg l). rewrite (proj2 (Z.leb_gt (1 + blen l) 0)) by lia.
    pose proof (wire_pos _ _ _ Hw). rewrite <- app_assoc in *. rewrite length_app in Hf', Hp.
    assert (0 < length w)%nat by (unfold blen in *; lia).
    rewrite (parse_at_parses r w); [|apply Hp; [done|lia]|done..|by eapply wires_no_crlf|done].
    cbn [pbind fst snd]. replace (1 + blen l - 1) with (blen l) by lia.
    rewrite (app_assoc pre), IH; [cbn [pbind fst snd]; by rewrite <- app_assoc| | |lia|done|].
    + intros r' v Hv Hl'. apply Hp; [done|lia].
    + rewrite length_app in Hf. lia.
    + rewrite blen_app in Hb. lia.
Qed.

Lemma parse_pairs_parses l w fuel fuel' pre rest :
  wire_pairs false l w ->
  (forall r v, wire false r v -> (length v <= length w)%nat -> parses r v) ->
  (length (w ++ rest) < fuel)%nat -> (length w < fuel')%nat -> starts_crlf rest = false ->
  blen (w ++ rest) < 2 ^ 63 ->
  parse_pairs (parseFast fuel) fuel' (pre ++ w ++ rest) (blen l) (blen pre) =
    Some (Value (blen (pre ++ w), l)).
Proof.
  intros H. revert fuel' pre. induction H as [|k v l wk wv w' Hk Hv Hl IH]; intros fuel' pre Hp Hf Hf' Hr Hb.
  - rewrite app_nil_r. by destruct fuel'.
  - destruct fuel' as [|fuel']; [lia|]. cbn [parse_pairs]. rewrite blen_cons.
    pose proof (blen_nonneg l). rewrite (proj2 (Z.leb_gt (1 + blen l) 0)) by lia.
    pose proof (wire_pos _ _ _ Hk). pose proof (wire_pos _ _ _ Hv).
    rewrite <- !app_assoc in *. rewrite !length_app in Hf', Hp.
    assert (0 < length wk)%nat by (unfold blen in *; lia).
    pose proof Hf as Hf1. rewrite length_app in Hf1.
    pose proof Hb as Hb1. rewrite blen_app in Hb1.
    rewrite (parse_at_parses k wk); [|apply Hp; [done|lia]|done..|by eapply wire_no_crlf|done].
    cbn [pbind fst snd].
    rewrite (app_assoc pre wk), (parse_at_parses v wv);
      [|apply Hp; [done|lia]|done|lia|by eapply wire_pairs_no_crlf|lia].
    cbn [pbind fst snd]. replace (1 + blen l - 1) with (blen l) by lia.
    rewrite (app_assoc (pre ++ wk)), IH; [cbn [pbind fst snd]; by rewrite <- !app_assoc| | |lia|done|].
    + intros r' u Hu Hl'. apply Hp; [done|lia].
    + rewrite length_app in Hf1. lia.
    + rewrite blen_app in Hb1. lia.
Qed.

(** The cases of a first line. *)
Lemma bulk_line m t s rest :
  is_int t (blen s) -> blen s <= kMaxRespBulkLength -> blen (m :: t ++ crlf ++ s ++ crlf ++ rest) < 2 ^ 63 ->
  parseBulkStringFast (double := double) simd (m :: t ++ crlf ++ s ++ crlf ++ rest) =
    Value (5 + blen t + blen s, string_reply TBulkString s).
Proof.
  intros Ht Hs Hb. unfold parseBulkStringFast. rewrite (parse_count_line _ _ t (blen s)) by done.
  cbn [obind]. rewrite blen_cons, !blen_app in Hb. change (blen crlf) with 2 in Hb.
  pose proof (blen_nonneg t). pose proof (blen_nonneg s). pose proof (blen_nonneg rest).
  unfold addWouldOverflow, uint64_max.
  destruct (Z.eqb_spec (blen s) (-1)); [lia|]. destruct (Z.ltb_spec (blen s) 0); [lia|].
  destruct (Z.ltb_spec kMaxRespBulkLength (blen s)); [lia|].
  rewrite (proj2 (Z.ltb_ge (2 ^ 64 - 1 - blen s) _)) by lia.
  rewrite !(wrap64_small (3 + blen t + blen s)) by lia.
  rewrite (proj2 (Z.ltb_ge (2 ^ 64 - 1 - 2) _)) by lia.
  rewrite (blen_cons m), !blen_app. change (blen crlf) with 2.
  rewrite !wrap64_small by lia.
  rewrite (proj2 (Z.ltb_ge _ (blen s))), (proj2 (Z.ltb_ge _ (3 + blen t + blen s + 2))) by lia.
  cbn [orb].
  rewrite (rd_app_at _ (m :: t ++ crlf ++ s) CR (LF :: rest)); [|by rewrite <- app_comm_cons, <- !app_assoc|].
  2:{ rewrite blen_cons, !blen_app. change (blen crlf) with 2. lia. }
  cbn [obind].
  rewrite (rd_app_at _ (m :: t ++ crlf ++ s ++ [CR]) LF rest); [|by rewrite <- app_comm_cons, <- !app_assoc|].
  2:{ rewrite blen_cons, !blen_app. change (blen crlf) with 2. change (blen [CR]) with 1. lia. }
  cbn [obind]. rewrite !bool_decide_eq_true_2 by done. cbn [negb orb].
  rewrite (slice_app_at _ (m :: t ++ crlf) s (crlf ++ rest)); [|by rewrite <- app_comm_cons, <- !app_assoc| |done].
  2:{ rewrite blen_cons, !blen_app. change (blen crlf) with 2. lia. }
  cbn [obind]. do 2 f_equal. lia.
Qed.

Lemma double_line m t x rest :
  no_crlf t -> 0 < blen t <= kMaxRespDoubleTextLength ->
  strtod (c_string t) = mkStrtod x (blen t) false ->
  parseDoubleFast strtod simd (m :: t ++ crlf ++ rest) = Value (3 + blen t, mkReply TDouble (DDouble _ x)).
Proof.
  intros Ht Hl Hs. unfold parseDoubleFast. rewrite findCRLF_line by done.
  replace (1 + blen t - 1) with (blen t) by lia.
  destruct (Z.eqb_spec (blen t) 0); [lia|].
  destruct (Z.ltb_spec kMaxRespDoubleTextLength (blen t)); [lia|]. cbn [orb].
  rewrite (slice_app_at _ [m] t (crlf ++ rest)) by done. cbn [obind].
  rewrite Hs. cbn [sd_erange sd_end sd_value]. rewrite Z.eqb_refl. cbn [negb orb].
  do 2 f_equal. lia.
Qed.

Lemma boolean_line m (b : bool) rest :
  parseBooleanFast (double := double) (m :: (if b then bs "t" else bs "f") ++ crlf ++ rest) =
    Value (4, mkReply TBoolean (DBoolean _ b)).
Proof.
  unfold parseBooleanFast.
  rewrite (proj2 (Z.ltb_ge _ 4)) by
    (destruct b; cbn; rewrite !blen_cons; pose proof (blen_nonneg rest); lia).
  by destruct b.
Qed.

Lemma blen_line m t : blen (m :: t ++ crlf) = 3 + blen t.
Proof. rewrite blen_cons, blen_app. change (blen crlf) with 2. lia. Qed.

Lemma line_app m t (d : bytes) : m :: t ++ crlf ++ d = (m :: t ++ crlf) ++ d.
Proof. by rewrite <- app_comm_cons, <- app_assoc. Qed.

Lemma line_length m t (d : bytes) : length (m :: t ++ crlf ++ d) = (3 + length t + length d)%nat.
Proof. cbn [length]. rewrite !length_app. change (length crlf) with 2%nat. lia. Qed.

(** The element loops of the aggregates. *)
Lemma aggregate_tail m t w rest fuel :
  (forall v r, (length v < length (m :: t ++ crlf ++ w))%nat -> wire false r v -> parses r v) ->
  (length (m :: t ++ crlf ++ w ++ rest) < S fuel)%nat -> starts_crlf rest = false ->
  blen (m :: t ++ crlf ++ w ++ rest) < 2 ^ 63 ->
  (forall l, wires false l w ->
     parse_elements (parseFast fuel) fuel (m :: t ++ crlf ++ w ++ rest) (blen l) (3 + blen t) =
       Some (Value (blen (m :: t ++ crlf ++ w), l))) /\
  (forall l, wire_pairs false l w ->
     parse_pairs (parseFast fuel) fuel (m :: t ++ crlf ++ w ++ rest) (blen l) (3 + blen t) =
       Some (Value (blen (m :: t ++ crlf ++ w), l))).
Proof.
  intros Hp Hf Hr Hb. rewrite line_length in Hf. rewrite length_app in Hf.
  rewrite line_app, blen_app in Hb. pose proof (blen_nonneg (m :: t ++ crlf)).
  assert (forall r v, wire false r v -> (length v <= length w)%nat -> parses r v) as Hp'.
  { intros r v Hv Hl. apply Hp; [|done]. rewrite line_length. lia. }
  rewrite <- (blen_line m), !(line_app m t). split; intros l Hl.
  - apply parse_elements_parses; rewrite ?length_app; (done || lia).
  - apply parse_pairs_parses; rewrite ?length_app; (done || lia).
Qed.

Lemma wire_parses r w : wire false r w -> parses r w.
Proof.
  remember (length w) as n eqn:En. revert r w En.
  induction n as [n IH] using lt_wf_ind. intros r w -> H fuel rest Hf Hr Hb.
  assert (forall v r, (length v < length w)%nat -> wire false r v -> parses r v) as IHw.
  { intros v r' Hv. by apply (IH (length v)). }
  clear IH. destruct fuel as [|fuel]; [lia|].
  destruct H as [m s Hm [Hs|[]]|m s Hm Hs|m t n Hm Ht|m t s Hm Ht Hs|m t Hm Ht|m t l w Hm Ht Hl Hw
    |m t l w Hm Ht Hl Hw|m t l w Hm Ht Hl Hw|m t x Hm Ht Hl Hx|m b Hm]; [|done|..];
    rewrite <- app_comm_cons, <- ?app_assoc in *; cbn [parseFast].
  - by rewrite Hm, parseSimpleStringFast_line, blen_line by done.
  - rewrite Hm, blen_line. unfold parseErrorFast. rewrite findCRLF_line, line_slice by done.
    cbn [obind]. do 3 f_equal. lia.
  - rewrite Hm, blen_line. unfold parseIntegerFast. by rewrite (parse_count_line _ _ _ n) by done.
  - rewrite Hm, bulk_line, line_app, !blen_app, blen_line by done. change (blen crlf) with 2.
    do 3 f_equal. lia.
  - rewrite blen_line. destruct Hm as [Hm|Hm]; rewrite Hm.
    + unfold parseBulkStringFast. by rewrite (parse_count_line _ _ _ (-1)) by done.
    + unfold parseArrayFast. by rewrite (parse_count_line _ _ _ (-1)) by done.
  - rewrite Hm. unfold parseArrayFast. rewrite (parse_count_line _ _ _ (blen l)) by done.
    cbn [pbind]. pose proof (blen_nonneg l).
    destruct (Z.eqb_spec (blen l) (-1)); [lia|]. destruct (Z.ltb_spec (blen l) 0); [lia|].
    destruct (Z.ltb_spec kMaxRespAggregateLength (blen l)); [lia|].
    by rewrite (proj1 (aggregate_tail m t w rest fuel IHw Hf Hr Hb) l Hw).
  - rewrite Hm. unfold parseSetFast. rewrite (parse_count_line _ _ _ (blen l)) by done.
    cbn [pbind]. pose proof (blen_nonneg l). destruct (Z.ltb_spec (blen l) 0); [lia|].
    destruct (Z.ltb_spec kMaxRespAggregateLength (blen l)); [lia|].
    by rewrite (proj1 (aggregate_tail m t w rest fuel IHw Hf Hr Hb) l Hw).
  - rewrite Hm. unfold parseMapFast. rewrite (parse_count_line _ _ _ (blen l)) by done.
    cbn [pbind]. pose proof (blen_nonneg l). destruct (Z.ltb_spec (blen l) 0); [lia|].
    destruct (Z.ltb_spec kMaxRespMapPairs (blen l)); [lia|].
    by rewrite (proj2 (aggregate_tail m t w rest fuel IHw Hf Hr Hb) l Hw).
  - by rewrite Hm, (double_line _ _ x), blen_line by done.
  - rewrite Hm, boolean_line, blen_line. by destruct b.
Qed.
(** ** Parsing part of a message *)

(** A strict prefix of a message is incomplete. *)
Definition partial (r : reply) (w : bytes) : Prop :=
  forall fuel p q, w = p ++ q -> q <> [] -> (length p < fuel)%nat -> blen p < 2 ^ 63 ->
    parseFast fuel p = Some (Unexpected Incomplete).

Lemma parse_at_partial r w fuel pre p q :
  partial r w -> w = p ++ q -> q <> [] -> (length p < fuel)%nat -> blen p < 2 ^ 63 ->
  parse_at (parseFast fuel) (pre ++ p) (blen pre) = Some (Unexpected Incomplete).
Proof.
  intros Hw E Hq Hf Hb. destruct p as [|b p].
  - unfold parse_at. by rewrite app_nil_r, Z.leb_refl.
  - rewrite (parse_at_in _ _ pre (b :: p)) by done. by rewrite (Hw fuel (b :: p) q).
Qed.

Lemma wires_part_no_crlf lax l w p q : wires lax l w -> w = p ++ q -> starts_crlf p = false.
Proof.
  intros H E. destruct (starts_crlf p) eqn:Ep; [|done].
  apply (starts_crlf_app_l _ q) in Ep. rewrite <- E, <- (app_nil_r w) in Ep.
  by rewrite (wires_no_crlf _ _ _ _ H) in Ep.
Qed.

Lemma wire_pairs_part_no_crlf lax l w p q : wire_pairs lax l w -> w = p ++ q -> starts_crlf p = false.
Proof.
  intros H E. destruct (starts_crlf p) eqn:Ep; [|done].
  apply (starts_crlf_app_l _ q) in Ep. rewrite <- E, <- (app_nil_r w) in Ep.
  by rewrite (wire_pairs_no_crlf _ _ _ _ H) in Ep.
Qed.

Lemma parse_elements_partial l w fuel fuel' pre p q :
  wires false l w ->
  (forall r v, wire false r v -> (length v <= length w)%nat -> partial r v) ->
  w = p ++ q -> q <> [] -> (length p < fuel)%nat -> (length p < fuel')%nat -> blen p < 2 ^ 63 ->
  parse_elements (parseFast fuel) fuel' (pre ++ p) (blen l) (blen pre) = Some (Unexpected Incomplete).
Proof.
  intros H. revert fuel' pre p. induction H as [|r l w w' Hw Hl IH]; intros fuel' pre p Hp E Hq Hf Hf' Hb.
  - by destruct p; [destruct q|].
  - destruct fuel' as [|fuel']; [lia|]. cbn [parse_elements]. rewrite blen_cons.
    pose proof (blen_nonneg l). rewrite (proj2 (Z.leb_gt (1 + blen l) 0)) by lia.
    rewrite length_app in Hp. pose proof (wire_pos _ _ _ Hw).
    destruct (app_cut _ _ _ _ E Hq) as [(q' & Ew & Hq')|(p' & -> & E')].
    + rewrite (parse_at_partial r w fuel pre p q'); [done|apply Hp; [done|lia]|done..].
    + rewrite length_app in *. rewrite blen_app in Hb. pose proof (blen_nonneg p').
      assert (0 < length w)%nat by (unfold blen in *; lia).
      rewrite (parse_at_parses r w fuel pre p'); [|by apply wire_parses|done|rewrite length_app; lia
        |by eapply wires_part_no_crlf|rewrite blen_app; lia].
      cbn [pbind fst snd]. replace (1 + blen l - 1) with (blen l) by lia.
      rewrite (app_assoc pre), IH; [done| |done|done|lia..].
      intros r' v Hv Hlv. apply Hp; [done|lia].
Qed.

Lemma parse_pairs_partial l w fuel fuel' pre p q :
  wire_pairs false l w ->
  (forall r v, wire false r v -> (length v <= length w)%nat -> partial r v) ->
  w = p ++ q -> q <> [] -> (length p < fuel)%nat -> (length p < fuel')%nat -> blen p < 2 ^ 63 ->
  parse_pairs (parseFast fuel) fuel' (pre ++ p) (blen l) (blen pre) = Some (Unexpected Incomplete).
Proof.
  intros H. revert fuel' pre p. induction H as [|k v l wk wv w' Hk Hv Hl IH];
    intros fuel' pre p Hp E Hq Hf Hf' Hb.
  - by destruct p; [destruct q|].
  - destruct fuel' as [|fuel']; [lia|]. cbn [parse_pairs]. rewrite blen_cons.
    pose proof (blen_nonneg l). rewrite (proj2 (Z.leb_gt (1 + blen l) 0)) by lia.
    rewrite !length_app in Hp. pose proof (wire_pos _ _ _ Hk). pose proof (wire_pos _ _ _ Hv).
    destruct (app_cut _ _ _ _ E Hq) as [(q' & Ew & Hq')|(p' & -> & E')].
    { rewrite (parse_at_partial k wk fuel pre p q'); [done|apply Hp; [done|lia]|done..]. }
    rewrite length_app in *. rewrite blen_app in Hb. pose proof (blen_nonneg p').
    assert (0 < length wk)%nat by (unfold blen in *; lia).
    assert (starts_crlf p' = false) as Hs.
    { destruct (starts_crlf p') eqn:Ep; [|done]. apply (starts_crlf_app_l _ q) in Ep.
      rewrite <- E' in Ep. by rewrite (wire_no_crlf _ _ _ _ Hv) in Ep. }
    rewrite (parse_at_parses k wk fuel pre p'); [|by apply wire_parses|done|rewrite length_app; lia
      |done|rewrite blen_app; lia].
    cbn [pbind fst snd]. rewrite (app_assoc pre).
    destruct (app_cut _ _ _ _ E' Hq) as [(q' & Ew & Hq')|(p'' & -> & E'')].
    { rewrite (parse_at_partial v wv fuel (pre ++ wk) p' q'); [done|apply Hp; [done|lia]|done|done|lia..]. }
    rewrite length_app in *. rewrite blen_app in Hb. pose proof (blen_nonneg p'').
    rewrite (parse_at_parses v wv fuel (pre ++ wk) p''); [|by apply wire_parses|done
      |rewrite length_app; lia|by eapply wire_pairs_part_no_crlf|rewrite blen_app; lia].
    cbn [pbind fst snd]. replace (1 + blen l - 1) with (blen l) by lia.
    rewrite (app_assoc (pre ++ wk)), IH; [done| |done|done|lia..].
    intros r' u Hu Hlu. apply Hp; [done|lia].
Qed.

(** Where the first line is cut, and where the tail is. *)
Lemma line_split m t (d : bytes) p q :
  m :: t ++ crlf ++ d = p ++ q -> q <> [] ->
  p = [] \/
  (exists p' q', p = m :: p' /\ t ++ crlf = p' ++ q' /\ q' <> []) \/
  (exists p', p = (m :: t ++ crlf) ++ p' /\ d = p' ++ q).
Proof.
  intros E Hq. rewrite line_app in E.
  destruct (app_cut _ _ _ _ E Hq) as [(q' & Ep & Hq')|(p' & -> & Ed)]; [|by eauto].
  destruct p as [|m' p]; [by left|]. right. left. injection Ep as <- Ep. by exists p, q'.
Qed.

Lemma bulk_tail m t (s : bytes) p q :
  is_int t (blen s) -> blen s <= kMaxRespBulkLength -> s ++ crlf = p ++ q -> q <> [] ->
  blen ((m :: t ++ crlf) ++ p) < 2 ^ 63 ->
  parseBulkStringFast (double := double) simd ((m :: t ++ crlf) ++ p) = Unexpected Incomplete.
Proof.
  intros Ht Hs E Hq Hb. rewrite blen_app, blen_line in Hb. apply (f_equal blen) in E.
  rewrite !blen_app in E. change (blen crlf) with 2 in E.
  assert (0 < blen q) as Hq'.
  { destruct q; [done|]. rewrite blen_cons. pose proof (blen_nonneg q). lia. }
  pose proof (blen_nonneg p). pose proof (blen_nonneg s). pose proof (blen_nonneg t).
  unfold parseBulkStringFast, addWouldOverflow, uint64_max, kMaxRespBulkLength in *. rewrite <- (line_app m t p).
  rewrite (parse_count_line _ _ t (blen s)), (line_app m t p), blen_app, blen_line by done.
  cbn [obind].
  destruct (Z.eqb_spec (blen s) (-1)); [lia|]. destruct (Z.ltb_spec (blen s) 0); [lia|].
  rewrite (proj2 (Z.ltb_ge (512 * 1024 * 1024) (blen s))) by lia.
  rewrite (proj2 (Z.ltb_ge (2 ^ 64 - 1 - blen s) _)) by lia.
  rewrite !(wrap64_small (3 + blen t + blen s)) by lia.
  rewrite (proj2 (Z.ltb_ge (2 ^ 64 - 1 - 2) _)) by lia.
  rewrite !wrap64_small by lia.
  by rewrite (proj2 (Z.ltb_lt (3 + blen t + blen p) _)), orb_true_r by lia.
Qed.
Lemma aggregate_partial m t w p q fuel :
  (forall v r, (length v < length (m :: t ++ crlf ++ w))%nat -> wire false r v -> partial r v) ->
  w = p ++ q -> q <> [] ->
  (length ((m :: t ++ crlf) ++ p) < S fuel)%nat -> blen ((m :: t ++ crlf) ++ p) < 2 ^ 63 ->
  (forall l, wires false l w ->
     parse_elements (parseFast fuel) fuel ((m :: t ++ crlf) ++ p) (blen l) (3 + blen t) =
       Some (Unexpected Incomplete)) /\
  (forall l, wire_pairs false l w ->
     parse_pairs (parseFast fuel) fuel ((m :: t ++ crlf) ++ p) (blen l) (3 + blen t) =
       Some (Unexpected Incomplete)).
Proof.
  intros Hp E Hq Hf Hb. rewrite <- line_app, line_length in Hf. rewrite blen_app in Hb.
  pose proof (blen_nonneg (m :: t ++ crlf)).
  assert (forall r v, wire false r v -> (length v <= length w)%nat -> partial r v) as Hp'.
  { intros r v Hv Hl. apply Hp; [|done]. rewrite line_length. lia. }
  rewrite <- (blen_line m). split; intros l Hl.
  - apply (parse_elements_partial l w _ _ _ p q); (done || lia).
  - apply (parse_pairs_partial l w _ _ _ p q); (done || lia).
Qed.

(** Without the end of the first line every parser asks for more. *)
Lemma line_partial m p k fuel :
  parser_of m = Some k -> k <> PBoolean -> findCRLF simd (m :: p) 1 = None ->
  parseFast (S fuel) (m :: p) = Some (Unexpected Incomplete).
Proof.
  intros Hm Hk Hf. cbn [parseFast]. rewrite Hm.
  assert (parse_count simd (m :: p) = Unexpected Incomplete) as Hc by (unfold parse_count; by rewrite Hf).
  destruct k; try done.
  - rewrite parseSimpleStringFast_eq, Hf. destruct (starts_crlf (drop 2 p)) eqn:E; [|done].
    apply scan_crlf_hot in E. rewrite findCRLF_spec, skipn_cons, drop_0 in Hf. by destruct (scan_crlf p).
  - unfold parseErrorFast. by rewrite Hf.
  - unfold parseIntegerFast. by rewrite Hc.
  - unfold parseBulkStringFast. by rewrite Hc.
  - unfold parseArrayFast. by rewrite Hc.
  - unfold parseDoubleFast. by rewrite Hf.
  - unfold parseMapFast. by rewrite Hc.
  - unfold parseSetFast. by rewrite Hc.
Qed.

(** A message cut before the end of its first line, or in its tail. *)
Lemma cut_message m t d p q k fuel :
  m :: t ++ crlf ++ d = p ++ q -> q <> [] -> no_crlf t -> parser_of m = Some k -> k <> PBoolean ->
  (forall p', d = p' ++ q -> p = (m :: t ++ crlf) ++ p' ->
     parseFast (S fuel) ((m :: t ++ crlf) ++ p') = Some (Unexpected Incomplete)) ->
  parseFast (S fuel) p = Some (Unexpected Incomplete).
Proof.
  intros E Hq Ht Hm Hk Htail.
  destruct (line_split _ _ _ _ _ E Hq) as [->|[(p' & q' & -> & E' & Hq')|(p' & -> & E')]]; [done| |auto].
  apply (line_partial m p' k); [done..|]. by apply (findCRLF_part _ _ t p' q').
Qed.

Lemma cut_line m t p q k fuel :
  m :: t ++ crlf = p ++ q -> q <> [] -> no_crlf t -> parser_of m = Some k -> k <> PBoolean ->
  parseFast (S fuel) p = Some (Unexpected Incomplete).
Proof.
  intros E Hq Ht Hm Hk. apply (cut_message m t [] p q k); rewrite ?app_nil_r; [done..|].
  intros p' E'. by destruct p'; [destruct q|].
Qed.

Lemma wire_partial r w : wire false r w -> partial r w.
Proof.
  remember (length w) as n eqn:En. revert r w En.
  induction n as [n IH] using lt_wf_ind. intros r w -> H fuel p q E Hq Hf Hb.
  assert (forall v r, (length v < length w)%nat -> wire false r v -> partial r v) as IHw.
  { intros v r' Hv. by apply (IH (length v)). }
  clear IH. destruct fuel as [|fuel]; [lia|].
  destruct H as [m s Hm [Hs|[]]|m s Hm Hs|m t n Hm Ht|m t s Hm Ht Hs|m t Hm Ht|m t l w Hm Ht Hl Hw
    |m t l w Hm Ht Hl Hw|m t l w Hm Ht Hl Hw|m t x Hm Ht Hl Hx|m b Hm]; [|done|..].
  - by eapply cut_line.
  - by eapply cut_line.
  - eapply cut_line; eauto using is_int_no_crlf.
  - eapply cut_message; eauto using is_int_no_crlf. intros p' E' ->.
    rewrite <- app_comm_cons. cbn [parseFast]. rewrite Hm, app_comm_cons. by rewrite (bulk_tail m t s p' q).
  - destruct Hm; eapply cut_line; eauto using is_int_no_crlf.
  - eapply cut_message; eauto using is_int_no_crlf. intros p' E' ->.
    destruct (aggregate_partial m t w p' q fuel IHw E' Hq Hf Hb) as [He _].
    rewrite <- app_comm_cons in *. cbn [parseFast]. rewrite Hm. unfold parseArrayFast.
    rewrite <- app_assoc in *. rewrite (parse_count_line _ _ _ (blen l)) by done. cbn [pbind].
    pose proof (blen_nonneg l). destruct (Z.eqb_spec (blen l) (-1)); [lia|].
    destruct (Z.ltb_spec (blen l) 0); [lia|]. destruct (Z.ltb_spec kMaxRespAggregateLength (blen l)); [lia|].
    by rewrite He.
  - eapply cut_message; eauto using is_int_no_crlf. intros p' E' ->.
    destruct (aggregate_partial m t w p' q fuel IHw E' Hq Hf Hb) as [He _].
    rewrite <- app_comm_cons in *. cbn [parseFast]. rewrite Hm. unfold parseSetFast.
    rewrite <- app_assoc in *. rewrite (parse_count_line _ _ _ (blen l)) by done. cbn [pbind].
    pose proof (blen_nonneg l). destruct (Z.ltb_spec (blen l) 0); [lia|].
    destruct (Z.ltb_spec kMaxRespAggregateLength (blen l)); [lia|]. by rewrite He.
  - eapply cut_message; eauto using is_int_no_crlf. intros p' E' ->.
    destruct (aggregate_partial m t w p' q fuel IHw E' Hq Hf Hb) as [_ He].
    rewrite <- app_comm_cons in *. cbn [parseFast]. rewrite Hm. unfold parseMapFast.
    rewrite <- app_assoc in *. rewrite (parse_count_line _ _ _ (blen l)) by done. cbn [pbind].
    pose proof (blen_nonneg l). destruct (Z.ltb_spec (blen l) 0); [lia|].
    destruct (Z.ltb_spec kMaxRespMapPairs (blen l)); [lia|]. by rewrite He.
  - by eapply cut_line.
  - destruct p as [|m' p]; [done|]. pose proof E as E'. injection E' as <- _.
    cbn [parseFast]. rewrite Hm. unfold parseBooleanFast.
    apply (f_equal length) in E. rewrite length_app in E.
    assert (length (m :: (if b then bs "t" else bs "f") ++ crlf) = 4%nat) as E4 by (by destruct b).
    rewrite (proj2 (Z.ltb_lt _ 4)); [done|]. unfold blen. destruct q; [done|]. cbn [length] in *. lia.
Qed.
(** ** Every buffer has an answer *)

(** The parse ends inside the buffer: with a value as described, or an error of the format. *)
Definition total_with {A} (P : A -> Prop) (m : presult A) : Prop :=
  exists res, m = Some res /\
    match res with
    | Value a => P a
    | Unexpected e => e = Incomplete \/ e = InvalidFormat \/ e = InvalidType \/ e = InvalidLength
    | OutOfBounds => False
    end.

Lemma total_value {A} (P : A -> Prop) a : P a -> total_with P (Some (Value a)).
Proof. intros H. by eexists. Qed.

Lemma total_error {A} (P : A -> Prop) e :
  e = Incomplete \/ e = InvalidFormat \/ e = InvalidType \/ e = InvalidLength ->
  total_with P (Some (Unexpected e)).
Proof. intros H. by eexists. Qed.

Lemma total_bind {A C} (P : A -> Prop) (Q : C -> Prop) m k :
  total_with P m -> (forall a, P a -> total_with Q (k a)) -> total_with Q (pbind m k).
Proof. intros ([a|e|] & -> & H) Hk; [by apply Hk|by eexists|done]. Qed.

(** A reply read off the front of the data, and what it leaves. *)
Definition reads_at (pre d : bytes) (a : Z * reply) : Prop :=
  exists w rest, d = w ++ rest /\ a.1 = blen (pre ++ w) /\ wire true a.2 w.

Lemma reads_line m t rest r :
  wire true r (m :: t ++ crlf) -> reads_at [] (m :: t ++ crlf ++ rest) (3 + blen t, r).
Proof. intros H. exists (m :: t ++ crlf), rest. by rewrite line_app, app_nil_l, blen_line. Qed.

Lemma simple_total m l :
  parser_of m = Some PSimpleString ->
  total_with (reads_at [] (m :: l)) (Some (parseSimpleStringFast simd (m :: l))).
Proof.
  intros Hm. rewrite parseSimpleStringFast_eq. destruct (starts_crlf (drop 2 l)) eqn:E.
  - destruct l as [|a [|b l]]; [done..|]. rewrite !skipn_cons, drop_0 in E.
    apply starts_crlf_true in E as [rest ->]. apply total_value, (reads_line m [a; b]), wire_simple; [done|].
    destruct (starts_crlf [a; b]) eqn:E2.
    + apply starts_crlf_true in E2 as [k E2]. right. injection E2 as -> -> _. done.
    + left. unfold no_crlf. cbn [scan_crlf]. by rewrite E2.
  - destruct (findCRLF simd (m :: l) 1) as [p|] eqn:Ef; [|apply total_error; auto].
    apply findCRLF_inv in Ef as (s & rest & -> & Hs & ->). rewrite line_slice. cbn [obind].
    replace (1 + blen s + 2) with (3 + blen s) by lia. apply total_value, reads_line, wire_simple; auto.
Qed.

Lemma error_total m l :
  parser_of m = Some PError -> total_with (reads_at [] (m :: l)) (Some (parseErrorFast simd (m :: l))).
Proof.
  intros Hm. unfold parseErrorFast.
  destruct (findCRLF simd (m :: l) 1) as [p|] eqn:Ef; [|apply total_error; auto].
  apply findCRLF_inv in Ef as (s & rest & -> & Hs & ->). rewrite line_slice. cbn [obind].
  replace (1 + blen s + 2) with (3 + blen s) by lia. by apply total_value, reads_line, wire_error.
Qed.

Lemma integer_total m l :
  parser_of m = Some PInteger -> total_with (reads_at [] (m :: l)) (Some (parseIntegerFast simd (m :: l))).
Proof.
  intros Hm. unfold parseIntegerFast.
  destruct (parse_count_cases simd m l) as [(t & n & rest & -> & Hn & ->)|[->| ->]];
    [|apply total_error; auto..].
  by apply total_value, reads_line, wire_integer.
Qed.

Lemma double_total m l :
  parser_of m = Some PDouble ->
  total_with (reads_at [] (m :: l)) (Some (parseDoubleFast strtod simd (m :: l))).
Proof.
  intros Hm. unfold parseDoubleFast.
  destruct (findCRLF simd (m :: l) 1) as [p|] eqn:Ef; [|apply total_error; auto].
  apply findCRLF_inv in Ef as (t & rest & -> & Ht & ->). replace (1 + blen t - 1) with (blen t) by lia.
  destruct (Z.eqb_spec (blen t) 0); [apply total_error; auto|].
  destruct (Z.ltb_spec kMaxRespDoubleTextLength (blen t)); [apply total_error; auto|]. cbn [orb].
  rewrite (slice_app_at _ [m] t (crlf ++ rest)) by done. cbn [obind].
  destruct (strtod (c_string t)) as [x n' e] eqn:Ex. cbn [sd_erange sd_end sd_value].
  destruct e; [apply total_error; auto|]. cbn [orb].
  destruct (Z.eqb_spec n' (blen t)) as [->|]; [|apply total_error; auto]. cbn [negb].
  replace (1 + blen t + 2) with (3 + blen t) by lia. pose proof (blen_nonneg t).
  apply total_value, reads_line, wire_double; (done || lia).
Qed.

Lemma boolean_total m l :
  parser_of m = Some PBoolean -> total_with (reads_at [] (m :: l)) (Some (parseBooleanFast (m :: l))).
Proof.
  intros Hm. unfold parseBooleanFast.
  destruct (Z.ltb_spec (blen (m :: l)) 4) as [|H4]; [apply total_error; auto|].
  destruct l as [|a [|b [|c l]]]; [done..|].
  change (rd (m :: a :: b :: c :: l) 1) with (@Value ParseError _ a).
  change (rd (m :: a :: b :: c :: l) 2) with (@Value ParseError _ b).
  change (rd (m :: a :: b :: c :: l) 3) with (@Value ParseError _ c).
  cbn [obind]. repeat case_bool_decide; subst; cbn [obind negb orb]; try (apply total_error; auto).
  - apply total_value. exists (m :: bs "t" ++ crlf), l. split_and!; [done..|]. by apply (wire_boolean _ _ m true).
  - apply total_value. exists (m :: bs "f" ++ crlf), l. split_and!; [done..|]. by apply (wire_boolean _ _ m false).
Qed.
Lemma bulk_total m l :
  parser_of m = Some PBulkString -> blen (m :: l) < 2 ^ 63 ->
  total_with (reads_at [] (m :: l)) (Some (parseBulkStringFast simd (m :: l))).
Proof.
  intros Hm Hb. destruct (parse_count_cases simd m l) as [(t & n & rest & -> & Hn & Hc)|[Hc|Hc]];
    [|unfold parseBulkStringFast; rewrite Hc; apply total_error; auto..].
  unfold parseBulkStringFast. rewrite Hc. cbn [obind].
  destruct (Z.eqb_spec n (-1)) as [->|]; [apply total_value, reads_line, wire_null; auto|].
  destruct (Z.ltb_spec n 0); [apply total_error; auto|].
  destruct (Z.ltb_spec kMaxRespBulkLength n) as [|Hmax]; [apply total_error; auto|].
  pose proof (blen_nonneg t). pose proof (blen_nonneg rest).
  assert (blen (m :: t ++ crlf ++ rest) = 3 + blen t + blen rest) as El
    by (by rewrite line_app, blen_app, blen_line).
  rewrite El in *. unfold addWouldOverflow, uint64_max. pose proof Hmax as Hmax'. unfold kMaxRespBulkLength in Hmax'.
  rewrite (proj2 (Z.ltb_ge (2 ^ 64 - 1 - n) _)), !(wrap64_small (3 + blen t + n)) by lia.
  rewrite (proj2 (Z.ltb_ge (2 ^ 64 - 1 - 2) _)), !wrap64_small by lia.
  destruct (Z.ltb_spec (3 + blen t + blen rest - (3 + blen t)) n); [apply total_error; auto|]. cbn [orb].
  destruct (Z.ltb_spec (3 + blen t + blen rest) (3 + blen t + n + 2)) as [|Hin]; [apply total_error; auto|].
  assert (exists s a b k, rest = s ++ a :: b :: k /\ blen s = n) as (s & a & b & k & -> & Es).
  { exists (take (Z.to_nat n) rest). unfold blen in Hin.
    destruct (drop (Z.to_nat n) rest) as [|a [|b k]] eqn:E.
    1-2: apply (f_equal length) in E; rewrite length_drop in E; cbn in E; lia.
    exists a, b, k. rewrite <- E, take_drop. split; [done|]. unfold blen. rewrite length_take. lia. }
  rewrite (rd_app_at _ (m :: t ++ crlf ++ s) a (b :: k)); [|by rewrite <- app_comm_cons, <- !app_assoc|].
  2:{ rewrite line_app, blen_app, blen_line. lia. }
  cbn [obind].
  rewrite (rd_app_at _ (m :: t ++ crlf ++ s ++ [a]) b k); [|by rewrite <- app_comm_cons, <- !app_assoc|].
  2:{ rewrite line_app, !blen_app, blen_line. change (blen [a]) with 1. lia. }
  cbn [obind]. repeat case_bool_decide; cbn [negb orb]; try (apply total_error; auto). subst a b.
  rewrite (slice_app_at _ (m :: t ++ crlf) s (CR :: LF :: k)); [|by rewrite <- app_comm_cons, <- !app_assoc| |done].
  2:{ by rewrite blen_line. }
  cbn [obind]. apply total_value. exists (m :: t ++ crlf ++ s ++ crlf), k. split_and!.
  - by rewrite <- app_comm_cons, <- !app_assoc.
  - rewrite app_nil_l, line_app, !blen_app, blen_line. cbn [fst]. change (blen crlf) with 2. lia.
  - apply wire_bulk; [done|by rewrite Es|lia].
Qed.

Section Loops.
Variables (parse : bytes -> presult (Z * reply)) (bound : nat).
Hypothesis parse_total : forall d, (length d < bound)%nat -> total_with (reads_at [] d) (parse d).

Lemma parse_at_total pre d :
  (length d < bound)%nat -> total_with (reads_at pre d) (parse_at parse (pre ++ d) (blen pre)).
Proof.
  intros Hd. destruct d as [|b d].
  - unfold parse_at. rewrite app_nil_r, Z.leb_refl. apply total_error. auto.
  - rewrite (parse_at_in _ _ pre (b :: d)) by done. eapply total_bind; [by apply parse_total|].
    intros [n r] (w & rest & E & En & Hw). apply total_value. exists w, rest. cbn [fst snd] in *.
    split_and!; [done| |done]. by rewrite En, app_nil_l, blen_app.
Qed.

Lemma parse_elements_total fuel count pre d :
  (length d < bound)%nat -> (length d < fuel)%nat ->
  total_with (fun a => exists w rest, d = w ++ rest /\ a.1 = blen (pre ++ w) /\ wires true a.2 w /\
      blen a.2 = Z.max 0 count)
    (parse_elements parse fuel (pre ++ d) count (blen pre)).
Proof.
  revert count pre d. induction fuel as [|fuel IH]; [lia|]. intros count pre d Hd Hf. cbn [parse_elements].
  destruct (Z.leb_spec count 0).
  { apply total_value. exists [], d. rewrite app_nil_r. cbn [fst snd]. split_and!; [done..|apply wires_nil|rewrite blen_nil; lia]. }
  eapply total_bind; [by apply parse_at_total|].
  intros [n r] (w & rest & -> & En & Hw). cbn [fst snd] in *. subst n.
  apply wire_pos in Hw as Hp. rewrite length_app in *.
  assert (0 < length w)%nat by (unfold blen in *; lia).
  eapply total_bind; [rewrite app_assoc; apply IH; lia|].
  intros [n l] (w' & rest' & -> & En & Hl & Hc). cbn [fst snd] in *. subst n. apply total_value.
  exists (w ++ w'), rest'. cbn [fst snd]. rewrite !app_assoc. split_and!; [done..|by constructor|].
  rewrite blen_cons. lia.
Qed.

Lemma parse_pairs_total fuel count pre d :
  (length d < bound)%nat -> (length d < fuel)%nat ->
  total_with (fun a => exists w rest, d = w ++ rest /\ a.1 = blen (pre ++ w) /\ wire_pairs true a.2 w /\
      blen a.2 = Z.max 0 count)
    (parse_pairs parse fuel (pre ++ d) count (blen pre)).
Proof.
  revert count pre d. induction fuel as [|fuel IH]; [lia|]. intros count pre d Hd Hf. cbn [parse_pairs].
  destruct (Z.leb_spec count 0).
  { apply total_value. exists [], d. rewrite app_nil_r. cbn [fst snd]. split_and!; [done..|apply wire_pairs_nil|rewrite blen_nil; lia]. }
  eapply total_bind; [by apply parse_at_total|].
  intros [n k] (w & rest & -> & En & Hw). cbn [fst snd] in *. subst n.
  apply wire_pos in Hw as Hp. rewrite length_app in *.
  assert (0 < length w)%nat by (unfold blen in *; lia).
  rewrite (app_assoc pre). eapply total_bind; [apply parse_at_total; lia|].
  intros [n v] (wv & rest' & -> & En & Hv). cbn [fst snd] in *. subst n. rewrite length_app in *.
  eapply total_bind; [rewrite (app_assoc (pre ++ w)); apply IH; lia|].
  intros [n l] (w' & rest'' & -> & En & Hl & Hc). cbn [fst snd] in *. subst n. apply total_value.
  exists (w ++ wv ++ w'), rest''. cbn [fst snd]. rewrite <- !app_assoc.
  split_and!; [done..|by constructor|]. rewrite blen_cons. lia.
Qed.

Lemma count_total m l (Q : Z * reply -> Prop) k :
  (forall t n rest, l = t ++ crlf ++ rest -> is_int t n -> total_with Q (k (n, 3 + blen t))) ->
  total_with Q (pbind (Some (parse_count simd (m :: l))) k).
Proof.
  intros Hk. destruct (parse_count_cases simd m l) as [(t & n & rest & -> & Hn & ->)|[-> | ->]];
    [by apply (Hk _ _ rest)|apply total_error; auto..].
Qed.

Lemma aggregate_total m t rest n fuel :
  (length (m :: t ++ crlf ++ rest) < S bound)%nat -> (length (m :: t ++ crlf ++ rest) < S fuel)%nat ->
  0 <= n ->
  total_with (fun a => exists w rest', rest = w ++ rest' /\ a.1 = blen (m :: t ++ crlf ++ w) /\
      wires true a.2 w /\ blen a.2 = n)
    (parse_elements parse fuel (m :: t ++ crlf ++ rest) n (3 + blen t)) /\
  total_with (fun a => exists w rest', rest = w ++ rest' /\ a.1 = blen (m :: t ++ crlf ++ w) /\
      wire_pairs true a.2 w /\ blen a.2 = n)
    (parse_pairs parse fuel (m :: t ++ crlf ++ rest) n (3 + blen t)).
Proof.
  intros Hb Hf Hn. rewrite line_length in *. rewrite <- (blen_line m), (line_app m t rest). split.
  - destruct (parse_elements_total fuel n (m :: t ++ crlf) rest) as (res & -> & H); [lia..|].
    exists res. split; [done|]. destruct res as [[n' l]|e|]; [|done..].
    destruct H as (w & rest' & E & En & Hl & Hc). exists w, rest'. rewrite line_app. cbn [fst snd] in *.
    split_and!; [done..|]. lia.
  - destruct (parse_pairs_total fuel n (m :: t ++ crlf) rest) as (res & -> & H); [lia..|].
    exists res. split; [done|]. destruct res as [[n' l]|e|]; [|done..].
    destruct H as (w & rest' & E & En & Hl & Hc). exists w, rest'. rewrite line_app. cbn [fst snd] in *.
    split_and!; [done..|]. lia.
Qed.
End Loops.

Lemma parseFast_total fuel d :
  (length d < fuel)%nat -> blen d < 2 ^ 63 -> total_with (reads_at [] d) (parseFast fuel d).
Proof.
  revert d. induction fuel as [|fuel IH]; [lia|]. intros [|m l] Hf Hb; cbn [parseFast].
  { apply total_error. auto. }
  assert (forall d, (length d < length (m :: l))%nat -> total_with (reads_at [] d) (parseFast fuel d)) as IHd.
  { intros d Hd. cbn [length] in *. apply IH; [lia|]. unfold blen in *. cbn [length] in *. lia. }
  destruct (parser_of m) as [[]|] eqn:Hm; [by apply simple_total|by apply error_total|by apply integer_total
    |by apply bulk_total| |by apply double_total|by apply boolean_total| | |apply total_error; auto].
  - apply count_total. intros t n rest -> Hn.
    destruct (Z.eqb_spec n (-1)) as [->|]; [apply total_value, reads_line, wire_null; auto|].
    destruct (Z.ltb_spec n 0); [apply total_error; auto|].
    destruct (Z.ltb_spec kMaxRespAggregateLength n); [apply total_error; auto|].
    eapply total_bind; [apply (aggregate_total _ _ IHd); (done || lia)|].
    intros [n' l] (w & rest' & -> & -> & Hl & Hc). apply total_value. exists (m :: t ++ crlf ++ w), rest'.
    split_and!; [by rewrite <- app_comm_cons, <- !app_assoc|done|]. cbn [snd] in *. subst n. by apply wire_array.
  - apply count_total. intros t n rest -> Hn.
    destruct (Z.ltb_spec n 0); [apply total_error; auto|].
    destruct (Z.ltb_spec kMaxRespMapPairs n); [apply total_error; auto|].
    eapply total_bind; [apply (aggregate_total _ _ IHd); (done || lia)|].
    intros [n' l] (w & rest' & -> & -> & Hl & Hc). apply total_value. exists (m :: t ++ crlf ++ w), rest'.
    split_and!; [by rewrite <- app_comm_cons, <- !app_assoc|done|]. cbn [snd] in *. subst n. by apply wire_map.
  - apply count_total. intros t n rest -> Hn.
    destruct (Z.ltb_spec n 0); [apply total_error; auto|].
    destruct (Z.ltb_spec kMaxRespAggregateLength n); [apply total_error; auto|].
    eapply total_bind; [apply (aggregate_total _ _ IHd); (done || lia)|].
    intros [n' l] (w & rest' & -> & -> & Hl & Hc). apply total_value. exists (m :: t ++ crlf ++ w), rest'.
    split_and!; [by rewrite <- app_comm_cons, <- !app_assoc|done|]. cbn [snd] in *. subst n. by apply wire_set.
Qed.
End Parsing.

(** ** Encoding *)

(** The lengths reserved are exact. *)
Lemma decimalDigits_loop_spec fuel n digits acc :
  0 <= n < 2 ^ Z.of_nat (S fuel) ->
  blen (to_chars_loop 10 (S fuel) n acc) = blen acc + 1 + (decimalDigits_loop fuel n digits - digits).
Proof.
  revert n digits acc. induction fuel as [|fuel IH]; intros n digits acc Hn.
  - cbn [to_chars_loop decimalDigits_loop]. cbn in Hn. rewrite (Z.div_small n 10) by lia.
    cbn [Z.eqb]. rewrite blen_cons. lia.
  - remember (S fuel) as f. cbn [to_chars_loop]. subst f. cbn [decimalDigits_loop].
    destruct (Z.leb_spec 10 n) as [H|H].
    + destruct (Z.eqb_spec (n / 10) 0) as [E|_]; [Z.div_mod_to_equations; lia|].
      rewrite (IH (n / 10) (digits + 1)), blen_cons; [lia|].
      rewrite (Nat2Z.inj_succ (S fuel)), Z.pow_succ_r in Hn by lia. Z.div_mod_to_equations. lia.
    + rewrite (Z.div_small n 10) by lia. cbn [Z.eqb]. rewrite blen_cons. lia.
Qed.

Lemma decimalDigits_exact n : 0 <= n -> decimalDigits n = blen (to_chars_unsigned 10 n).
Proof.
  intros Hn. unfold decimalDigits, to_chars_unsigned.
  rewrite (decimalDigits_loop_spec _ n 1), blen_nil; [lia|].
  rewrite Nat2Z.inj_succ, Z2Nat.id by apply Z.log2_nonneg. split; [done|].
  destruct (Z.eq_dec n 0) as [->|]; [done|]. apply Z.log2_spec. lia.
Qed.

(** A bulk string on the wire. *)
Definition bulk (value : bytes) : bytes :=
  bs "$" ++ to_chars_unsigned 10 (blen value) ++ crlf ++ value ++ crlf.

Lemma appendBulkString_eq out value : appendBulkString out value = out ++ bulk value.
Proof. unfold appendBulkString, appendUnsignedDecimal, bulk. by rewrite <- !app_assoc. Qed.

Lemma append_bulks_eq out l : foldl appendBulkString out l = out ++ concat (map bulk l).
Proof.
  revert out. induction l as [|v l IH]; intros out; cbn [foldl map concat]; [by rewrite app_nil_r|].
  by rewrite IH, appendBulkString_eq, <- app_assoc.
Qed.

(** An array of bulk strings on the wire. *)
Definition bulks (l : list bytes) : bytes :=
  bs "*" ++ to_chars_unsigned 10 (blen l) ++ crlf ++ concat (map bulk l).

Lemma encodeArray_eq l : encodeArray l = bulks l.
Proof. unfold encodeArray, appendUnsignedDecimal, bulks. by rewrite append_bulks_eq, <- !app_assoc. Qed.

Lemma append_parts_eq out l : append_parts out l = out ++ bulks l.
Proof.
  unfold append_parts, appendUnsignedDecimal, bulks. destruct l as [|v l]; [done|].
  by rewrite append_bulks_eq, <- !app_assoc.
Qed.

Lemma appendCommandFast_eq out cmd args : appendCommandFast out cmd args = out ++ bulks (cmd :: args).
Proof.
  unfold appendCommandFast, appendUnsignedDecimal, bulks.
  rewrite append_bulks_eq, appendBulkString_eq, blen_cons. cbn [map concat]. by rewrite <- !app_assoc.
Qed.

Lemma bulk_length v : blen (bulk v) = 1 + decimalDigits (blen v) + 2 + blen v + 2.
Proof.
  unfold bulk. rewrite !blen_app, decimalDigits_exact by apply blen_nonneg.
  change (blen (bs "$")) with 1. change (blen crlf) with 2. lia.
Qed.

Lemma foldl_estimate l total :
  0 <= total -> total + blen (concat (map bulk l)) < 2 ^ 64 ->
  foldl (fun total arg => wrap64 (total + estimateBulkStringBytes (blen arg))) total l =
    total + blen (concat (map bulk l)).
Proof.
  revert total. induction l as [|v l IH]; intros total Ht Hb; cbn [foldl map concat] in *.
  { rewrite blen_nil. lia. }
  rewrite blen_app in Hb. pose proof (blen_nonneg (bulk v)). pose proof (blen_nonneg (concat (map bulk l))).
  unfold estimateBulkStringBytes at 2. rewrite <- bulk_length, (wrap64_small (blen _)), wrap64_small by lia.
  rewrite IH, blen_app by lia. lia.
Qed.

Lemma estimateCommandBytes_exact cmd args :
  blen (appendCommandFast [] cmd args) < 2 ^ 64 ->
  estimateCommandBytes cmd args = blen (appendCommandFast [] cmd args).
Proof.
  rewrite appendCommandFast_eq, app_nil_l. unfold bulks. intros Hb.
  rewrite !blen_app, blen_cons in *. cbn [map concat] in *. rewrite blen_app in *.
  change (blen (bs "*")) with 1 in *. change (blen crlf) with 2 in *.
  rewrite <- (decimalDigits_exact (1 + blen args)) in * by (pose proof (blen_nonneg args); lia).
  pose proof (blen_nonneg (bulk cmd)). pose proof (blen_nonneg (concat (map bulk args))).
  assert (0 <= decimalDigits (1 + blen args)) as Hd.
  { rewrite decimalDigits_exact by (pose proof (blen_nonneg args); lia). apply blen_nonneg. }
  unfold estimateCommandBytes. rewrite (wrap64_small (1 + _ + 2)) by lia.
  unfold estimateBulkStringBytes at 2. rewrite <- bulk_length, (wrap64_small (blen _)), wrap64_small by lia.
  rewrite foldl_estimate by lia. lia.
Qed.

Section Encoding.
Context {double : Type} (strtod : bytes -> strtod_result double) (simd : bool).

Definition bulk_reply (s : bytes) : RedisReply double := string_reply TBulkString s.

(** The lengths the parser accepts. *)
Definition bulk_ok (s : bytes) : Prop := blen s <= kMaxRespBulkLength.

Lemma is_int_length {A} (l : list A) k :
  blen l <= k -> k <= int64_max -> is_int (to_chars_unsigned 10 (blen l)) (blen l).
Proof.
  intros Hl Hk. pose proof (blen_nonneg l).
  replace (to_chars_unsigned 10 (blen l)) with (to_chars (blen l)).
  - apply is_int_to_chars. unfold int64_min. lia.
  - unfold to_chars. by rewrite (proj2 (Z.ltb_ge (blen l) 0)) by lia.
Qed.

Lemma bulk_wire s : bulk_ok s -> wire strtod false (bulk_reply s) (bulk s).
Proof. intros Hs. apply wire_bulk; [done|by eapply is_int_length|done]. Qed.

Lemma bulks_wire l :
  Forall bulk_ok l -> blen l <= kMaxRespAggregateLength ->
  wire strtod false (mkReply TArray (DArray _ (map bulk_reply l))) (bulks l).
Proof.
  intros Hl Hn. assert (blen (map bulk_reply l) = blen l) as E by (unfold blen; by rewrite length_map).
  apply wire_array; [done|rewrite E; by eapply is_int_length|by rewrite E|]. clear Hn E.
  induction Hl as [|s l Hs Hl IH]; cbn [map concat]; [apply wires_nil|].
  apply wires_cons; [by apply bulk_wire|done].
Qed.

(** What is encoded parses back to the reply, whatever follows it. *)
Definition parses_back (encoded : bytes) (r : RedisReply double) : Prop :=
  forall rest, starts_crlf rest = false -> blen (encoded ++ rest) < 2 ^ 63 ->
    parse strtod simd (encoded ++ rest) = Some (Value (blen encoded, r)).

Lemma wire_parses_back r w : wire strtod false r w -> parses_back w r.
Proof. intros Hw rest Hr Hb. apply wire_parses; [done|lia|done..]. Qed.
End Encoding.

(** reading replies: on the octets of any reply of the wire format, whatever follows them, the
    parser returns that reply and its length; on every strict prefix it asks for more. *)
Theorem parse_reads_wire {double} strtod simd (r : RedisReply double) w rest p q :
  wire strtod false r w -> starts_crlf rest = false -> blen (w ++ rest) < 2 ^ 63 ->
  w = p ++ q -> q <> [] ->
  parse strtod simd (w ++ rest) = Some (Value (blen w, r)) /\
  parse strtod simd p = Some (Unexpected Incomplete).
Proof.
  intros Hw Hr Hb E Hq. split; [by apply wire_parses_back|].
  apply (wire_partial strtod simd r w Hw _ p q); [done..|lia|].
  rewrite blen_app, E, blen_app in Hb. pose proof (blen_nonneg q). pose proof (blen_nonneg rest). lia.
Qed.

(** termination and safety of the parser on arbitrary bytes: the recursion ends within the
    buffer, nothing is read outside it, a value accounts for a nonempty prefix that the wire format
    describes, and the only errors are those of the format. *)
Theorem parse_total {double} strtod simd (data : bytes) :
  blen data < 2 ^ 63 ->
  match @parse double strtod simd data with
  | Some (Value (n, r)) => 0 < n <= blen data /\ wire strtod true r (take (Z.to_nat n) data)
  | Some (Unexpected e) => e = Incomplete \/ e = InvalidFormat \/ e = InvalidType \/ e = InvalidLength
  | Some OutOfBounds | None => False
  end.
Proof.
  intros Hb. destruct (parseFast_total strtod simd (S (length data)) data ltac:(lia) Hb) as (res & E & H).
  unfold parse. rewrite E. destruct res as [[n r]|e|]; [|done..].
  destruct H as (w & rest & -> & En & Hw). cbn [fst snd] in *. subst n. rewrite app_nil_l, blen_app.
  pose proof (wire_pos _ _ _ _ Hw). pose proof (blen_nonneg rest). split; [lia|].
  unfold blen. by rewrite Nat2Z.id, take_app_length.
Qed.

(** [std::to_string] writes a number in one line, and [std::strtod] reads it to its end. *)
Record prints {double} (strtod : bytes -> strtod_result double) (to_string : double -> bytes) : Prop := {
  prints_line x : no_crlf (to_string x) /\ to_string x <> [];
  prints_number x : exists y, strtod (c_string (to_string x)) = mkStrtod y (blen (to_string x)) false
}.

(** C36: encoding: what the encoders write parses back to the reply it stands for, whatever follows: simple
    strings, errors, integers, bulk strings, null, booleans, doubles whose text is within the 127 octets the
    parser takes, as the number their text gives, and arrays and commands of strings, for which the buffer
    reserved is exactly filled. *)
Theorem encoders_roundtrip {double} (strtod : bytes -> strtod_result double) to_string simd s n b v x cmd args :
  prints strtod to_string ->
  no_crlf s -> int64_min <= n <= int64_max -> bulk_ok v -> Forall bulk_ok (cmd :: args) ->
  blen (cmd :: args) <= kMaxRespAggregateLength ->
  parses_back strtod simd (encodeSimpleString s) (string_reply TSimpleString s) /\
  parses_back strtod simd (encodeError s) (string_reply TError s) /\
  parses_back strtod simd (encodeInteger n) (mkReply TInteger (DInteger _ n)) /\
  parses_back strtod simd (encodeBulkString v) (string_reply TBulkString v) /\
  parses_back strtod simd encodeNull null_reply /\
  parses_back strtod simd (encodeBoolean b) (mkReply TBoolean (DBoolean _ b)) /\
  (blen (to_string x) <= kMaxRespDoubleTextLength ->
   parses_back strtod simd (encodeDouble to_string x)
     (mkReply TDouble (DDouble _ (sd_value (strtod (c_string (to_string x))))))) /\
  parses_back strtod simd (encodeArray args) (mkReply TArray (DArray _ (map bulk_reply args))) /\
  parses_back strtod simd (append_parts [] args) (mkReply TArray (DArray _ (map bulk_reply args))) /\
  parses_back strtod simd (appendCommandFast [] cmd args)
    (mkReply TArray (DArray _ (map bulk_reply (cmd :: args)))) /\
  (blen (appendCommandFast [] cmd args) < 2 ^ 64 ->
   estimateCommandBytes cmd args = blen (appendCommandFast [] cmd args)).
Proof.
  intros [Hline Hnum] Hs Hn Hv Hc Hl. pose proof Hc as Ha. apply Forall_cons in Ha as [_ Ha].
  rewrite encodeArray_eq, append_parts_eq, appendCommandFast_eq, !app_nil_l.
  assert (blen args <= kMaxRespAggregateLength) by (rewrite blen_cons in Hl; lia).
  split_and!; try (intros Hx; apply wire_parses_back); try apply wire_parses_back.
  - by apply wire_simple; [|left].
  - by apply wire_error.
  - apply wire_integer; [done|]. by apply is_int_to_chars.
  - unfold encodeBulkString. rewrite appendBulkString_eq. by apply bulk_wire.
  - by apply wire_null; [left|].
  - by destruct b; [apply (wire_boolean _ _ _ true)|apply (wire_boolean _ _ _ false)].
  - destruct (Hnum x) as [y Ey]. destruct (Hline x) as [Hx1 Hx2]. rewrite Ey. cbn [sd_value].
    apply wire_double; [done|done| |exact Ey]. destruct (to_string x); [done|]. rewrite blen_cons in *.
    pose proof (blen_nonneg l). lia.
  - by apply bulks_wire.
  - by apply bulks_wire.
  - by apply bulks_wire.
  - rewrite <- (app_nil_l (bulks _)), <- appendCommandFast_eq. apply estimateCommandBytes_exact.
Qed.

(** ** On concrete input *)

(** A [strtod] that knows one number. *)
Definition sample_strtod (d : bytes) : strtod_result Z :=
  if bool_decide (d = bs "1.5") then mkStrtod 15 3 false else mkStrtod 0 0 false.

Example nested_reply :
  parse sample_strtod true (bs "*2" ++ crlf ++ bs "%1" ++ crlf ++ bs "+k" ++ crlf ++ bs ",1.5" ++ crlf ++
    bs "$2" ++ crlf ++ bs "ab" ++ crlf ++ bs "+") =
  Some (Value (26, mkReply TArray (DArray _
    [mkReply TMap (DMap _ [(string_reply TSimpleString (bs "k"), mkReply TDouble (DDouble _ 15))]);
     string_reply TBulkString (bs "ab")]))).
Proof. vm_compute. reflexivity. Qed.

(** The hot path takes the line end of an empty simple string for its text. *)
Example empty_line_before_another :
  parse sample_strtod true (bs "+" ++ crlf) = Some (Value (3, string_reply TSimpleString [])) /\
  parse sample_strtod true (bs "+" ++ crlf ++ crlf) = Some (Value (5, string_reply TSimpleString crlf)).
Proof. vm_compute. by split. Qed.

(** Push messages, verbatim strings, big numbers and blob errors lose their type. *)
Example resp3_types_lost :
  option_map (fun m => match m with Value (_, r) => Some (reply_type r) | _ => None end)
    (parse sample_strtod true (bs ">0" ++ crlf)) = Some (Some TArray) /\
  option_map (fun m => match m with Value (_, r) => Some (reply_type r) | _ => None end)
    (parse sample_strtod true (bs "!3" ++ crlf ++ bs "ERR" ++ crlf)) = Some (Some TBulkString).
Proof. vm_compute. by split. Qed.

Lemma parse_reads_wire_witness :
  parse sample_strtod true (encodeInteger (-42) ++ bs "+OK") =
    Some (Value (blen (encodeInteger (-42)), mkReply TInteger (DInteger _ (-42)))) /\
  parse sample_strtod true (bs ":-4") = Some (Unexpected Incomplete).
Proof.
  apply (parse_reads_wire sample_strtod true (mkReply TInteger (DInteger _ (-42))) (encodeInteger (-42))
    (bs "+OK") (bs ":-4") (bs "2" ++ crlf)); try reflexivity; [|done].
  apply (wire_integer _ _ _ (to_chars (-42))); vm_compute; reflexivity.
Defined.

Lemma parse_total_witness :
  match parse sample_strtod false (bs "*-7" ++ crlf) with
  | Some (Value (n, r)) => 0 < n <= 5 /\ wire sample_strtod true r (take (Z.to_nat n) (bs "*-7" ++ crlf))
  | Some (Unexpected e) => e = Incomplete \/ e = InvalidFormat \/ e = InvalidType \/ e = InvalidLength
  | Some OutOfBounds | None => False
  end.
Proof. apply (parse_total sample_strtod false (bs "*-7" ++ crlf)). vm_compute. reflexivity. Defined.

(** Doubles of two values, as [std::to_string] and [std::strtod] treat them. *)
Definition half_text (x : bool) : bytes := if x then bs "0.500000" else bs "0.000000".
Definition half_strtod (d : bytes) : strtod_result bool :=
  if bool_decide (d = half_text true) then mkStrtod true 8 false
  else if bool_decide (d = half_text false) then mkStrtod false 8 false else mkStrtod false 0 false.

Lemma half_prints : prints half_strtod half_text.
Proof. split; intros []; [by split..|eexists; by vm_compute|eexists; by vm_compute]. Qed.

Lemma encoders_roundtrip_witness :
  parses_back half_strtod true (appendCommandFast [] (bs "GET") [bs "key"])
    (mkReply TArray (DArray _ [bulk_reply (bs "GET"); bulk_reply (bs "key")])) /\
  parses_back half_strtod true (encodeDouble half_text true) (mkReply TDouble (DDouble _ true)).
Proof.
  destruct (encoders_roundtrip half_strtod half_text true (bs "OK") 7 true (bs "v") true (bs "GET") [bs "key"])
    as (_ & _ & _ & _ & _ & _ & Hd & _ & _ & Hc & _);
    [exact half_prints|reflexivity|unfold int64_min, int64_max; lia|by vm_compute|repeat constructor; by vm_compute|by vm_compute|].
  split; [exact Hc|]. apply Hd. by vm_compute.
Defined.

(** The text of 1e200 has 208 octets: the parser refuses what the encoder writes. *)
Example long_double_refused :
  let text := bs "1" ++ replicate 200 (z2b 48) ++ bs ".000000" in
  let strtod d := mkStrtod tt (blen d) false in
  parse strtod true (encodeDouble (fun _ => text) tt) = Some (Unexpected InvalidFormat).
Proof. by vm_compute. Qed.
