(* ===== verification/RedisClient.v ===== *)
(** * Redis commands and exchanges

    [galay-redis/protoc/builder.{h,cc}]: the pipeline builder. [galay-redis/async/redis_client.cc] and
    [galay-redis/details/awaitable.inl]: reading replies out of the receive ring, and the machine that
    sends an encoded pipeline and collects its replies. A [RedisValue] is the reply it wraps; error
    texts, [reserve] calls and the cached views of the builder are left out. *)

From Stdlib Require Import ZArith Lia.
From stdpp Require Import base list strings.
From S2P Require Import Prelude RingBuffer Charconv Resp.

Open Scope Z_scope.

(** ** The builder *)

Record Slice : Type := mkSlice { sl_offset : Z; sl_length : Z }.

Record CommandMeta : Type := mkMeta {
  cm_command : Slice;
  cm_arg_offset : Z;
  cm_arg_count : Z;
  cm_encoded : Slice
}.

Record RedisCommandBuilder : Type := mkBuilder {
  b_encoded : bytes;
  b_storage : bytes;
  b_arg_slices : list Slice;
  b_commands : list CommandMeta
}.

Record RedisEncodedCommand : Type := mkEncoded { encoded : bytes; expected_replies : Z }.

Record RedisCommandView : Type := mkView { cv_command : bytes; cv_args : list bytes; cv_encoded : bytes }.

Definition new_builder : RedisCommandBuilder := mkBuilder [] [] [] [].

Definition builder_clear (b : RedisCommandBuilder) : RedisCommandBuilder := new_builder.

Definition appendToStorage (value : bytes) (storage : bytes) : Slice * bytes :=
  (mkSlice (blen storage) (blen value), storage ++ value).

(** The loop over the arguments of [append]. *)
Fixpoint append_args (args : list bytes) (slices : list Slice) (storage : bytes) : list Slice * bytes :=
  match args with
  | [] => (slices, storage)
  | arg :: args =>
      let '(slice, storage) := appendToStorage arg storage in
      append_args args (slices ++ [slice]) storage
  end.

Definition builder_append (cmd : bytes) (args : list bytes) (b : RedisCommandBuilder) :
    RedisCommandBuilder :=
  let '(command_slice, storage) := appendToStorage cmd (b_storage b) in
  let arg_offset := blen (b_arg_slices b) in
  let '(arg_slices, storage) := append_args args (b_arg_slices b) storage in
  let encoded_offset := blen (b_encoded b) in
  let enc := appendCommandFast (b_encoded b) cmd args in
  let encoded_slice := mkSlice encoded_offset (blen enc - encoded_offset) in
  mkBuilder enc storage arg_slices
    (b_commands b ++ [mkMeta command_slice arg_offset (blen args) encoded_slice]).

(** [toView] and [toEncodedView]: a view of the octets behind a slice. *)
Definition toView (data : bytes) (s : Slice) : outcome ParseError bytes :=
  if sl_length s =? 0 then Value [] else slice data (sl_offset s) (sl_length s).

Fixpoint views {A C} (f : A -> outcome ParseError C) (l : list A) : outcome ParseError (list C) :=
  match l with
  | [] => Value []
  | x :: l => y <-- f x ;; ys <-- views f l ;; Value (y :: ys)
  end.

(** [rebuildViewsIfNeeded] on a dirty builder, as [commands] calls it. *)
Definition commands (b : RedisCommandBuilder) : outcome ParseError (list RedisCommandView) :=
  arg_views <-- views (toView (b_storage b)) (b_arg_slices b) ;;
  views (fun meta =>
    command <-- toView (b_storage b) (cm_command meta) ;;
    enc <-- toView (b_encoded b) (cm_encoded meta) ;;
    Value (mkView command
             (take (Z.to_nat (cm_arg_count meta)) (drop (Z.to_nat (cm_arg_offset meta)) arg_views)) enc))
    (b_commands b).

Definition builder_size (b : RedisCommandBuilder) : Z := blen (b_commands b).

Definition build (b : RedisCommandBuilder) : RedisEncodedCommand :=
  mkEncoded (b_encoded b) (if builder_size b =? 0 then 1 else builder_size b).

Definition release (b : RedisCommandBuilder) : RedisEncodedCommand * RedisCommandBuilder :=
  (build b, mkBuilder [] (b_storage b) (b_arg_slices b) (b_commands b)).

Definition normalizeExpectedReplies (n : Z) : Z := if n =? 0 then 1 else n.

Definition command (cmd : bytes) (args : list bytes) (replies : Z) : RedisEncodedCommand :=
  mkEncoded (appendCommandFast [] cmd args) (normalizeExpectedReplies replies).

Definition auth (username : option bytes) (password : bytes) : RedisEncodedCommand :=
  command (bs "AUTH") (match username with Some u => [u; password] | None => [password] end) 1.
Definition select (db_index : Z) : RedisEncodedCommand := command (bs "SELECT") [to_chars db_index] 1.
Definition subscribe (channels : list bytes) : RedisEncodedCommand :=
  command (bs "SUBSCRIBE") channels (if blen channels =? 0 then 1 else blen channels).
Definition unsubscribe (channels : list bytes) : RedisEncodedCommand :=
  command (bs "UNSUBSCRIBE") channels (if blen channels =? 0 then 1 else blen channels).
Definition get (key : bytes) : RedisEncodedCommand := command (bs "GET") [key] 1.
Definition set (key value : bytes) : RedisEncodedCommand := command (bs "SET") [key; value] 1.
Definition setex (key : bytes) (seconds : Z) (value : bytes) : RedisEncodedCommand :=
  command (bs "SETEX") [key; to_chars seconds; value] 1.

(** ** Reading replies *)

Inductive RedisErrorType : Type :=
| TIMEOUT_ERROR | PARSE_ERROR | SEND_ERROR | RECV_ERROR | BUFFER_OVERFLOW_ERROR
| CONNECTION_CLOSED | INTERNAL_ERROR.

(** What [mapIoErrorToRedisError] asks of an [IOError]. *)
Record IOError : Type := mkIOError { io_timeout : bool; io_disconnect : bool }.

Definition mapIoErrorToRedisError (e : IOError) (fallback : RedisErrorType) : RedisErrorType :=
  if io_timeout e then TIMEOUT_ERROR
  else if io_disconnect e then CONNECTION_CLOSED
  else fallback.

Inductive ParseChunkState : Type := ChunkDone | ChunkNeedMore | ChunkParseError.

Section Client.
Context {double : Type} {B : Type} `{ByteRing B}.
Variables (strtod : bytes -> strtod_result double) (simd : bool).
#[local] Abbreviation reply := (RedisReply double).

(** [parseRepliesFromChunk]: the octets consumed, the state and the values so far; [None] is running
    out of fuel, and what [parse] never gives. *)
Fixpoint parse_chunk_loop (fuel : nat) (data : bytes) (expected consumed : Z) (values : list reply) :
    option (Z * ParseChunkState * list reply) :=
  if (blen values <? expected) && (consumed <? blen data) then
    match fuel with
    | O => None
    | S fuel =>
        match parse strtod simd (drop (Z.to_nat consumed) data) with
        | Some (Value (n, r)) => parse_chunk_loop fuel data expected (consumed + n) (values ++ [r])
        | Some (Unexpected Incomplete) => Some (consumed, ChunkNeedMore, values)
        | Some (Unexpected _) => Some (consumed, ChunkParseError, values)
        | Some OutOfBounds | None => None
        end
    end
  else Some (consumed, (if expected <=? blen values then ChunkDone else ChunkNeedMore), values).

Definition parseRepliesFromChunk (data : bytes) (expected : Z) (values : list reply) :=
  parse_chunk_loop (S (length data)) data expected 0 values.

Definition consume_some (n : Z) (ring : B) : B := if 0 <? n then rb_consume n ring else ring.

(** [parseRepliesFromRingBuffer]: the returned flag, the parse error, the ring and the values. *)
Fixpoint parse_ring_loop (fuel : nat) (expected : Z) (ring : B) (values : list reply) :
    option (bool * bool * B * list reply) :=
  if expected <=? blen values then Some (true, false, ring, values)
  else
    match fuel with
    | O => None
    | S fuel =>
        match rb_read_iovecs ring with
        | [] => Some (false, false, ring, values)
        | first :: more =>
            if blen first =? 0 then Some (false, false, ring, values)
            else
              match parseRepliesFromChunk first expected values with
              | None => None
              | Some (consumed, state, values) =>
                  let ring := consume_some consumed ring in
                  match state with
                  | ChunkParseError => Some (true, true, ring, values)
                  | _ =>
                      if expected <=? blen values then Some (true, false, ring, values)
                      else if consumed =? blen first then
                        if consumed =? 0 then Some (false, false, ring, values)
                        else parse_ring_loop fuel expected ring values
                      else
                        match more with
                        | [] => Some (false, false, ring, values)
                        | second :: _ =>
                            if blen second =? 0 then Some (false, false, ring, values)
                            else
                              let parse_buffer := drop (Z.to_nat consumed) first ++ second in
                              match parseRepliesFromChunk parse_buffer expected values with
                              | None => None
                              | Some (stitched, state, values) =>
                                  let ring := consume_some stitched ring in
                                  match state with
                                  | ChunkParseError => Some (true, true, ring, values)
                                  | _ =>
                                      if expected <=? blen values then Some (true, false, ring, values)
                                      else if stitched =? 0 then Some (false, false, ring, values)
                                      else parse_ring_loop fuel expected ring values
                                  end
                              end
                        end
                  end
              end
        end
    end.

Definition parseRepliesFromRingBuffer (expected : Z) (ring : B) (values : list reply) :=
  parse_ring_loop (S (Z.to_nat (rb_readable ring))) expected ring values.

(** ** The exchange machine *)

Inductive Phase : Type := PhInvalid | PhStart | PhSend | PhParse | PhDone.

Definition exchange_result : Type := RedisErrorType + list reply.

Record RedisExchangeSharedState : Type := mkExchange {
  x_ring : B;
  x_encoded : bytes;
  x_expected : Z;
  x_recv_only : bool;
  x_sent : Z;
  x_values : list reply;
  x_result : option exchange_result;
  x_phase : Phase
}.

(** The constructor from an encoded command. *)
Definition new_exchange (ring : B) (encoded : bytes) (expected : Z) (recv_only : bool) :
    RedisExchangeSharedState :=
  mkExchange ring (if recv_only then [] else encoded) expected recv_only 0 []
    (if expected =? 0 then Some (inr []) else None) (if expected =? 0 then PhDone else PhStart).

(** The constructor from the views of a pipeline. *)
Definition batch_encoded (cmds : list RedisCommandView) : bytes :=
  foldl (fun enc c => match cv_encoded c with
                      | [] => appendCommandFast enc (cv_command c) (cv_args c)
                      | _ => enc ++ cv_encoded c
                      end) [] cmds.

Definition new_batch (ring : B) (cmds : list RedisCommandView) : RedisExchangeSharedState :=
  new_exchange ring (if blen cmds =? 0 then [] else batch_encoded cmds) (blen cmds) false.

Definition set_phase (p : Phase) (st : RedisExchangeSharedState) : RedisExchangeSharedState :=
  mkExchange (x_ring st) (x_encoded st) (x_expected st) (x_recv_only st) (x_sent st) (x_values st)
    (x_result st) p.

Definition set_result (r : exchange_result) (p : Phase) (st : RedisExchangeSharedState) :
    RedisExchangeSharedState :=
  mkExchange (x_ring st) (x_encoded st) (x_expected st) (x_recv_only st) (x_sent st) (x_values st)
    (Some r) p.

Definition set_parsed (ring : B) (values : list reply) (st : RedisExchangeSharedState) :
    RedisExchangeSharedState :=
  mkExchange ring (x_encoded st) (x_expected st) (x_recv_only st) (x_sent st) values
    (x_result st) (x_phase st).

Definition setError (e : RedisErrorType) (st : RedisExchangeSharedState) : RedisExchangeSharedState :=
  set_result (inl e) PhInvalid st.

(** [MachineAction]. *)
Inductive machine_action : Type :=
| Complete (r : exchange_result)
| Continue
| WaitWrite (data : bytes)
| WaitReadv (window : list Z).

(** [None]: the parser's, and the dereference of an absent result, which no phase reaches. *)
Definition advance (st : RedisExchangeSharedState) : option (machine_action * RedisExchangeSharedState) :=
  match x_result st with
  | Some r => Some (Complete r, st)
  | None =>
      match x_phase st with
      | PhInvalid => Some (Complete (inl INTERNAL_ERROR), setError INTERNAL_ERROR st)
      | PhStart =>
          if x_expected st =? 0 then Some (Continue, set_result (inr []) PhDone st)
          else
            Some (Continue,
                  set_phase (if x_recv_only st || (blen (x_encoded st) =? 0) then PhParse else PhSend) st)
      | PhSend =>
          if blen (x_encoded st) <=? x_sent st then Some (Continue, set_phase PhParse st)
          else Some (WaitWrite (drop (Z.to_nat (x_sent st)) (x_encoded st)), st)
      | PhParse =>
          match parseRepliesFromRingBuffer (x_expected st) (x_ring st) (x_values st) with
          | None => None
          | Some (done, parse_error, ring, values) =>
              let st := set_parsed ring values st in
              if (parse_error : bool) then Some (Complete (inl PARSE_ERROR), setError PARSE_ERROR st)
              else if (done : bool) then Some (Continue, set_result (inr values) PhDone st)
              else
                match rb_write_iovecs ring with
                | [] => Some (Complete (inl BUFFER_OVERFLOW_ERROR), setError BUFFER_OVERFLOW_ERROR st)
                | window => Some (WaitReadv window, st)
                end
          end
      | PhDone => None
      end
  end.

(** What the socket answers: octets written, octets received, or an error. *)
Inductive io_event : Type :=
| Wrote (n : Z)
| Received (data : bytes)
| IoFailed (e : IOError).

Definition onRead (e : io_event) (st : RedisExchangeSharedState) : RedisExchangeSharedState :=
  match x_result st with
  | Some _ => st
  | None =>
      match e with
      | IoFailed e => setError (mapIoErrorToRedisError e RECV_ERROR) st
      | Received [] => setError CONNECTION_CLOSED st
      | Received data => set_phase PhParse (set_parsed (rb_receive data (x_ring st)) (x_values st) st)
      | Wrote _ => st
      end
  end.

Definition onWrite (e : io_event) (st : RedisExchangeSharedState) : RedisExchangeSharedState :=
  match x_result st with
  | Some _ => st
  | None =>
      match e with
      | IoFailed e => setError (mapIoErrorToRedisError e SEND_ERROR) st
      | Wrote n =>
          if n =? 0 then setError SEND_ERROR st
          else
            let sent := x_sent st + n in
            mkExchange (x_ring st) (x_encoded st) (x_expected st) (x_recv_only st) sent (x_values st)
              (x_result st) (if blen (x_encoded st) <=? sent then PhParse else x_phase st)
      | Received _ => st
      end
  end.

(** The awaitable's loop over [advance] while the machine asks to continue. *)
Fixpoint settle (fuel : nat) (st : RedisExchangeSharedState) :
    option (machine_action * RedisExchangeSharedState) :=
  match fuel with
  | O => None
  | S fuel =>
      match advance st with
      | Some (Continue, st) => settle fuel st
      | r => r
      end
  end.

(** Running the machine against the answers of the socket: the octets handed to [write] that it
    accepted, and the result, or a machine still waiting when the answers are exhausted. *)
Inductive exchange_outcome : Type :=
| Finished (r : exchange_result) (sent : bytes) (st : RedisExchangeSharedState)
| Waiting (sent : bytes) (st : RedisExchangeSharedState).

Fixpoint run_exchange (events : list io_event) (sent : bytes) (st : RedisExchangeSharedState) :
    option exchange_outcome :=
  match settle 5 st with
  | None => None
  | Some (Complete r, st) => Some (Finished r sent st)
  | Some (WaitWrite data, st) =>
      match events with
      | [] => Some (Waiting sent st)
      | e :: events =>
          let accepted := match e with Wrote n => take (Z.to_nat n) data | _ => [] end in
          run_exchange events (sent ++ accepted) (onWrite e st)
      end
  | Some (_, st) =>
      match events with
      | [] => Some (Waiting sent st)
      | e :: events => run_exchange events sent (onRead e st)
      end
  end.
End Client.
Arguments RedisExchangeSharedState double B : clear implicits.

(** ** Replies out of a buffer *)

Lemma starts_crlf_app_false p q : starts_crlf (p ++ q) = false -> starts_crlf p = false.
Proof. intros E. destruct (starts_crlf p) eqn:Ep; [|done]. by rewrite (starts_crlf_app_l p q Ep) in E. Qed.

Section Proofs.
Context {double : Type} {B : Type} `{ByteRing B} {laws : ByteRingLaws B}.
Variables (strtod : bytes -> strtod_result double) (simd : bool).
#[local] Abbreviation reply := (RedisReply double).
#[local] Abbreviation wires := (wires strtod false).
#[local] Abbreviation parse_chunk_loop := (parse_chunk_loop strtod simd).
#[local] Abbreviation parseRepliesFromChunk := (parseRepliesFromChunk strtod simd).
#[local] Abbreviation parse_ring_loop := (parse_ring_loop strtod simd).

(** What a buffer [data], continued by [more], gives when the replies [l] are due: the replies [l1] in
    its front [w1]; the others [l2] are still due in what is left. *)
Definition chunk_split (l : list reply) (w data more rest : bytes) (l1 l2 : list reply)
    (w1 w2 d : bytes) : Prop :=
  l = l1 ++ l2 /\ w = w1 ++ w2 /\ wires l2 w2 /\ data = w1 ++ d /\ d ++ more = w2 ++ rest /\
  (l2 = [] \/ blen d < blen w2).

Lemma chunk_stop l w data more rest :
  wires l w -> data ++ more = w ++ rest -> l = [] \/ blen data < blen w ->
  chunk_split l w data more rest [] l [] w data.
Proof. intros Hl E H'. by split_and!. Qed.

Lemma parse_chunk_loop_spec fuel pre data more l w rest values expected :
  wires l w -> starts_crlf rest = false -> data ++ more = w ++ rest -> blen (pre ++ data) < 2 ^ 63 ->
  expected = blen values + blen l -> (length data < fuel)%nat ->
  exists l1 l2 w1 w2 d, chunk_split l w data more rest l1 l2 w1 w2 d /\
    parse_chunk_loop fuel (pre ++ data) expected (blen pre) values =
      Some (blen (pre ++ w1), (match l2 with [] => ChunkDone | _ => ChunkNeedMore end), values ++ l1).
Proof.
  intros Hl. revert fuel pre data values.
  induction Hl as [|r l w w' Hw Hl IH]; intros fuel pre data values Hr E Hb He Hf.
  - exists [], [], [], [], data. split; [apply chunk_stop; (done || apply wires_nil || by left)|].
    rewrite blen_nil in He. destruct fuel; cbn [RedisClient.parse_chunk_loop];
      rewrite (proj2 (Z.ltb_ge _ expected)), (proj2 (Z.leb_le expected _)), !app_nil_r by lia; done.
  - destruct fuel as [|fuel]; [lia|]. cbn [RedisClient.parse_chunk_loop]. rewrite blen_cons in He.
    pose proof (blen_nonneg l). pose proof (wire_pos _ _ _ _ Hw) as Hp. rewrite <- app_assoc in E.
    rewrite (proj2 (Z.ltb_lt _ expected)), (proj2 (Z.leb_gt expected _)) by lia. cbn [andb].
    assert (length (pre ++ data) = length pre + length data)%nat as Hlen by apply length_app.
    rewrite drop_blen, blen_app. rewrite blen_app in Hb. pose proof (blen_nonneg pre).
    destruct (Z.ltb_spec (blen pre) (blen pre + blen data)) as [Hd|Hd].
    2:{ assert (data = []) as -> by (destruct data; [done|]; rewrite blen_cons in Hd;
          pose proof (blen_nonneg data); lia).
        exists [], (r :: l), [], (w ++ w'), []. rewrite !app_nil_r. split; [|done].
        apply chunk_stop; [by apply wires_cons|by rewrite <- app_assoc|].
        right. rewrite blen_app, blen_nil. pose proof (blen_nonneg w'). lia. }
    symmetry in E. destruct (decide (length data < length w)%nat) as [Hlt|Hge].
    + assert (exists q, w = data ++ q /\ q <> []) as (q & -> & Hq).
      { apply (f_equal (take (length w))) in E as E'. rewrite take_app_length, take_app, (take_ge data) in E' by lia.
        eexists. split; [exact E'|]. intros Hq. apply (f_equal length) in E'.
        rewrite Hq, app_nil_r in E'. lia. }
      exists [], (r :: l), [], ((data ++ q) ++ w'), data. rewrite !app_nil_r. split.
      * apply chunk_stop; [by apply wires_cons|by rewrite <- E, <- !app_assoc|]. right.
        rewrite !blen_app. pose proof (blen_nonneg w'). destruct q as [|b q]; [done|].
        rewrite blen_cons. pose proof (blen_nonneg q). lia.
      * unfold parse. by rewrite (wire_partial strtod simd r _ Hw _ data q) by (done || lia).
    + assert (exists d, data = w ++ d) as (d & ->).
      { apply (f_equal (take (length w))) in E as E'. rewrite take_app_length, take_app_le in E' by lia.
        exists (drop (length w) data). rewrite <- (take_drop (length w) data) at 1. by rewrite <- E'. }
      rewrite <- app_assoc in E. apply app_inv_head in E. rewrite length_app in *. rewrite blen_app in *.
      assert (0 < length w)%nat by (unfold blen in *; lia).
      assert (starts_crlf d = false) as Hd'.
      { apply (starts_crlf_app_false d more). rewrite <- E. by eapply wires_no_crlf. }
      unfold parse. rewrite (wire_parses strtod simd r w Hw) by (rewrite ?blen_app; (done || lia)).
      rewrite app_assoc, <- blen_app.
      destruct (IH fuel (pre ++ w) d (values ++ [r])) as (l1 & l2 & w1 & w2 & d' & (-> & -> & Hs & -> & E' & Hc) & Hrun);
        [done|done|rewrite !blen_app in *; lia|rewrite blen_app, blen_cons, blen_nil; lia|lia|].
      exists (r :: l1), l2, (w ++ w1), w2, d'. split.
      * split_and!; [done|by rewrite app_assoc|done|by rewrite <- app_assoc|done|done].
      * rewrite Hrun. by rewrite <- !app_assoc.
Qed.

Lemma parse_chunk_spec data more l w rest values expected :
  wires l w -> starts_crlf rest = false -> data ++ more = w ++ rest -> blen data < 2 ^ 63 ->
  expected = blen values + blen l ->
  exists l1 l2 w1 w2 d, chunk_split l w data more rest l1 l2 w1 w2 d /\
    parseRepliesFromChunk data expected values =
      Some (blen w1, (match l2 with [] => ChunkDone | _ => ChunkNeedMore end), values ++ l1).
Proof. intros Hl Hr E Hb He. by apply (parse_chunk_loop_spec _ [] data more l w rest); [..|lia]. Qed.
Lemma consume_some_view n (ring : B) :
  rb_ok ring -> 0 <= n ->
  rb_ok (consume_some n ring) /\ rb_capacity (consume_some n ring) = rb_capacity ring /\
  rb_view (consume_some n ring) = drop (Z.to_nat n) (rb_view ring).
Proof.
  intros Hok Hn. unfold consume_some. destruct (Z.ltb_spec 0 n); [by apply rb_consume_view|].
  replace n with 0 by lia. by rewrite drop_0.
Qed.

(** What the ring loop leaves: all the replies due, or some, with the front of the next one in the ring. *)
Definition ring_left (l : list reply) (w more rest : bytes) (ring : B) (values : list reply)
    (a : bool * bool * B * list reply) : Prop :=
  exists l1 l2 w1 w2 ring', a = (bool_decide (l2 = []), false, ring', values ++ l1) /\
    l = l1 ++ l2 /\ w = w1 ++ w2 /\ wires l2 w2 /\
    rb_ok ring' /\ rb_capacity ring' = rb_capacity ring /\
    rb_view ring' ++ more = w2 ++ rest /\ (l2 = [] \/ blen (rb_view ring') < blen w2).

Lemma wires_blen l w : wires l w -> l <> [] -> 0 < blen w.
Proof.
  intros Hw. destruct Hw as [|r l w w' Hw _]; [done|]. intros _.
  apply wire_pos in Hw. rewrite blen_app. pose proof (blen_nonneg w'). lia.
Qed.

Lemma full_iff (values l1 l2 : list reply) expected :
  expected = blen values + blen (l1 ++ l2) ->
  (expected <=? blen (values ++ l1)) = bool_decide (l2 = []).
Proof.
  rewrite !blen_app. intros ->. destruct l2 as [|r l2].
  - rewrite bool_decide_eq_true_2, blen_nil by done. apply Z.leb_le. lia.
  - rewrite bool_decide_eq_false_2, blen_cons by done. pose proof (blen_nonneg l2). apply Z.leb_gt. lia.
Qed.

(** One pass over a contiguous part of the view: what the chunk parser does to ring and values. *)
Lemma chunk_pass data more' l w more rest (ring : B) values expected :
  wires l w -> starts_crlf rest = false -> rb_ok ring -> rb_view ring = data ++ more' ->
  rb_view ring ++ more = w ++ rest -> blen (rb_view ring) < 2 ^ 63 ->
  expected = blen values + blen l ->
  exists l1 l2 w1 w2 d ring', l = l1 ++ l2 /\ w = w1 ++ w2 /\ wires l2 w2 /\ data = w1 ++ d /\
    parseRepliesFromChunk data expected values =
      Some (blen w1, (match l2 with [] => ChunkDone | _ => ChunkNeedMore end), values ++ l1) /\
    consume_some (blen w1) ring = ring' /\ rb_ok ring' /\ rb_capacity ring' = rb_capacity ring /\
    rb_view ring' = d ++ more' /\ rb_view ring' ++ more = w2 ++ rest /\
    (l2 = [] \/ blen d < blen w2) /\ expected = blen (values ++ l1) + blen l2.
Proof.
  intros Hl Hr Hok Ev E Hb He. rewrite Ev, <- app_assoc in E.
  destruct (parse_chunk_spec data (more' ++ more) l w rest values expected)
    as (l1 & l2 & w1 & w2 & d & (-> & -> & Hs & -> & E' & Hc) & Hrun); [done..| |done|].
  { rewrite Ev, blen_app in Hb. pose proof (blen_nonneg more'). lia. }
  destruct (consume_some_view (blen w1) ring Hok (blen_nonneg w1)) as (Hok' & Hcap & Hv).
  rewrite Ev, <- app_assoc, drop_blen in Hv.
  exists l1, l2, w1, w2, d, (consume_some (blen w1) ring).
  split_and!; try done; [by rewrite Hv, <- app_assoc|rewrite !blen_app in *; lia].
Qed.

Lemma parse_ring_loop_spec fuel l w more rest (ring : B) values expected :
  wires l w -> starts_crlf rest = false -> rb_ok ring -> rb_view ring ++ more = w ++ rest ->
  blen (rb_view ring) < 2 ^ 63 -> expected = blen values + blen l ->
  (length (rb_view ring) < fuel)%nat ->
  exists a, parse_ring_loop fuel expected ring values = Some a /\ ring_left l w more rest ring values a.
Proof.
  revert l w ring values. induction fuel as [|fuel IH]; [lia|].
  intros l w ring values Hl Hr Hok E Hb He Hf. cbn [RedisClient.parse_ring_loop].
  pose proof (full_iff values [] l expected He) as Hfull. rewrite app_nil_r in Hfull. rewrite Hfull.
  assert (forall a, a = (bool_decide (l = []), false, ring, values) -> l = [] \/ blen (rb_view ring) < blen w ->
    ring_left l w more rest ring values a) as Hstop.
  { intros a -> Hc. exists [], l, [], w, ring. rewrite app_nil_r. by split_and!. }
  case_bool_decide as Hnil; [eexists; split; [done|]; by apply Hstop; auto|].
  destruct (rb_read_shape ring Hok) as [Hlen Hne]. pose proof (rb_read_concat ring Hok) as Hc.
  destruct (rb_read_iovecs ring) as [|first iovs] eqn:Ei.
  { eexists. split; [done|]. apply Hstop; [done|]. right. rewrite <- Hc. by apply wires_blen in Hl. }
  apply Forall_cons in Hne as [Hf1 Hne]. cbn [concat] in Hc. cbn [length] in Hlen.
  destruct (Z.eqb_spec (blen first) 0) as [E0|_]; [by destruct first|].
  destruct (chunk_pass first (concat iovs) l w more rest ring values expected)
    as (l1 & l2 & w1 & w2 & d & ring1 & -> & -> & Hl2 & -> & -> & -> & Hok1 & Hcap1 & Hv1 & E1 & Hs & He1);
    [done..|by rewrite Hc|done|done|done|].
  rewrite (full_iff values l1 l2 expected He).
  assert (forall a, ring_left l2 w2 more rest ring1 (values ++ l1) a ->
    ring_left (l1 ++ l2) (w1 ++ w2) more rest ring values a) as Hlift.
  { intros a (l1' & l2' & w1' & w2' & ring' & -> & -> & -> & ?). rewrite Hcap1 in *.
    exists (l1 ++ l1'), l2', (w1 ++ w1'), w2', ring'. by rewrite <- !app_assoc. }
  assert (forall a, a = (bool_decide (l2 = []), false, ring1, values ++ l1) ->
    l2 = [] \/ blen (rb_view ring1) < blen w2 -> ring_left l2 w2 more rest ring1 (values ++ l1) a) as Hstop1.
  { intros a -> Hc'. exists [], l2, [], w2, ring1. rewrite app_nil_r. by split_and!. }
  assert (0 < length (w1 ++ d))%nat as Hpos.
  { destruct (w1 ++ d) eqn:Ed; [done|]. cbn. lia. }
  assert (length (rb_view ring) = length (w1 ++ d) + length (concat iovs))%nat as Hlv
    by (by rewrite <- Hc, length_app).
  case_bool_decide as Hl2e.
  { subst l2. eexists. split; [done|]. by apply Hlift, Hstop1; auto. }
  destruct l2 as [|r2 l2]; [done|]. destruct Hs as [|Hs]; [done|].
  rewrite blen_app. pose proof (blen_nonneg d). pose proof (blen_nonneg w1).
  destruct (Z.eqb_spec (blen w1) (blen w1 + blen d)) as [Ed|Ed].
  - assert (d = []) as -> by (apply nil_length_inv; unfold blen in *; lia). rewrite app_nil_r in *.
    destruct (Z.eqb_spec (blen w1) 0) as [E0|_]; [by destruct w1|].
    destruct (IH (r2 :: l2) w2 ring1 (values ++ l1)) as (a & -> & Ha); try done.
    + rewrite Hv1. cbn [app]. rewrite <- Hc, blen_app in Hb. lia.
    + rewrite Hv1. cbn [app]. lia.
    + eexists. split; [done|]. by apply Hlift.
  - destruct iovs as [|second iovs].
    { eexists. split; [done|]. apply Hlift, Hstop1; [done|]. right. by rewrite Hv1, app_nil_r. }
    apply Forall_cons in Hne as [Hf2 _]. destruct iovs; [|cbn in Hlen; lia]. cbn [concat] in *.
    rewrite app_nil_r in *. destruct (Z.eqb_spec (blen second) 0) as [E0|_]; [by destruct second|].
    rewrite drop_blen. assert (blen (rb_view ring1) < 2 ^ 63) as Hb1.
    { rewrite Hv1. rewrite <- Hc, !blen_app in Hb. rewrite blen_app. lia. }
    destruct (chunk_pass (d ++ second) [] (r2 :: l2) w2 more rest ring1 (values ++ l1) expected)
      as (l3 & l4 & w3 & w4 & d' & ring2 & E3 & -> & Hl4 & Ed' & -> & -> & Hok2 & Hcap2 & Hv2 & E2 & Hs2 & He2);
      [done|done|done|by rewrite app_nil_r|done|done|done|].
    rewrite app_nil_r in Hv2. rewrite E3 in He1, Hlift.
    rewrite (full_iff (values ++ l1) l3 l4 expected He1).
    assert (forall a, ring_left l4 w4 more rest ring2 ((values ++ l1) ++ l3) a ->
      ring_left (l1 ++ r2 :: l2) (w1 ++ w3 ++ w4) more rest ring values a) as Hlift2.
    { intros a (l1' & l2' & w1' & w2' & ring' & -> & -> & -> & ?). rewrite E3. apply Hlift.
      rewrite Hcap2 in *. exists (l3 ++ l1'), l2', (w3 ++ w1'), w2', ring'. by rewrite <- !app_assoc. }
    assert (forall a, a = (bool_decide (l4 = []), false, ring2, (values ++ l1) ++ l3) ->
      l4 = [] \/ blen (rb_view ring2) < blen w4 -> ring_left l4 w4 more rest ring2 ((values ++ l1) ++ l3) a) as Hstop2.
    { intros a -> Hc'. exists [], l4, [], w4, ring2. rewrite app_nil_r. by split_and!. }
    case_bool_decide as Hl4e.
    { subst l4. eexists. split; [done|]. by apply Hlift2, Hstop2; auto. }
    destruct l4 as [|r4 l4]; [done|]. destruct Hs2 as [|Hs2]; [done|].
    destruct (Z.eqb_spec (blen w3) 0) as [E0|E0].
    { eexists. split; [done|]. apply Hlift2, Hstop2; [done|]. right. by rewrite Hv2. }
    destruct (IH (r4 :: l4) w4 ring2 ((values ++ l1) ++ l3)) as (a & -> & Ha); try done.
    + apply (f_equal blen) in Ed'. rewrite !blen_app in Ed'. pose proof (blen_nonneg w3).
      rewrite Hv2. rewrite Hv1, blen_app in Hb1. lia.
    + rewrite Hv2. apply (f_equal length) in Ed'. rewrite !length_app in *. unfold blen in E0. lia.
    + eexists. split; [done|]. by apply Hlift2.
Qed.
(** ** The exchange *)

#[local] Abbreviation state := (RedisExchangeSharedState double B).
#[local] Abbreviation run := (run_exchange strtod simd).

(** A machine in a phase, without a result. *)
Definition at_phase (p : Phase) (ring : B) (enc : bytes) (expected sent : Z) (recv : bool)
    (values : list reply) : state :=
  mkExchange ring enc expected recv sent values None p.

Lemma run_same events acc (st st' : state) :
  settle strtod simd 5 st = settle strtod simd 5 st' -> run events acc st = run events acc st'.
Proof. intros E. by destruct events; cbn [run_exchange]; rewrite E. Qed.

Lemma settle_send fuel ring pre post expected recv values :
  post <> [] ->
  settle strtod simd (S fuel) (at_phase PhSend ring (pre ++ post) expected (blen pre) recv values) =
    Some (WaitWrite post, at_phase PhSend ring (pre ++ post) expected (blen pre) recv values).
Proof.
  intros Hp. cbn [settle advance at_phase x_result x_phase x_encoded x_sent]. rewrite blen_app.
  assert (0 < blen post) by (destruct post; [done|]; rewrite blen_cons; pose proof (blen_nonneg post); lia).
  rewrite (proj2 (Z.leb_gt (blen pre + blen post) (blen pre))) by lia. by rewrite drop_blen.
Qed.

(** Writes of any sizes hand over the whole command. *)
Lemma run_send ns events acc ring pre post expected recv values :
  post <> [] -> Forall (fun n => 0 < n) ns -> foldr Z.add 0 ns = blen post ->
  run (map Wrote ns ++ events) acc (at_phase PhSend ring (pre ++ post) expected (blen pre) recv values) =
    run events (acc ++ post)
      (at_phase PhParse ring (pre ++ post) expected (blen (pre ++ post)) recv values).
Proof.
  revert acc pre post. induction ns as [|n ns IH]; intros acc pre post Hp Hn Hs.
  { cbn in Hs. destruct post; [done|]. rewrite blen_cons in Hs. pose proof (blen_nonneg post). lia. }
  apply Forall_cons in Hn as [Hn Hns]. cbn [foldr] in Hs.
  assert (0 <= foldr Z.add 0 ns) as H0 by (clear -Hns; induction Hns; cbn; lia).
  cbn [map app run_exchange]. rewrite settle_send by done.
  cbn [onWrite at_phase x_result x_sent x_encoded]. destruct (Z.eqb_spec n 0); [lia|].
  rewrite !blen_app. destruct (Z.leb_spec (blen pre + blen post) (blen pre + n)) as [Hle|Hgt].
  - assert (ns = []) as ->.
    { destruct ns as [|m ns]; [done|]. apply Forall_cons in Hns as [Hm Hns]. cbn [foldr] in Hs.
      assert (0 <= foldr Z.add 0 ns) by (clear -Hns; induction Hns; cbn; lia). lia. }
    cbn [foldr] in Hs. assert (n = blen post) as -> by lia. unfold blen at 1. rewrite Nat2Z.id, take_ge by done.
    done.
  - remember (take (Z.to_nat n) post) as p1 eqn:E1. remember (drop (Z.to_nat n) post) as p2 eqn:E2.
    assert (blen p1 = n) as Hp1.
    { subst p1. unfold blen in *. rewrite length_take. lia. }
    assert (post = p1 ++ p2) as -> by (subst; by rewrite take_drop). clear E1 E2.
    rewrite blen_app in *. assert (p2 <> []) as Hp2 by (intros ->; rewrite blen_nil in *; lia).
    rewrite <- Hp1, <- blen_app, (app_assoc pre).
    etransitivity; [apply (IH (acc ++ p1) (pre ++ p1) p2); (done || lia)|].
    rewrite <- !app_assoc. do 2 f_equal. rewrite !blen_app. lia.
Qed.

Lemma settle_parse fuel ring enc expected sent recv values a :
  parseRepliesFromRingBuffer strtod simd expected ring values = Some a ->
  settle strtod simd (S (S fuel)) (at_phase PhParse ring enc expected sent recv values) =
    match a with
    | (_, true, ring', values') =>
        Some (Complete (inl PARSE_ERROR),
              setError PARSE_ERROR (at_phase PhParse ring' enc expected sent recv values'))
    | (true, false, ring', values') =>
        Some (Complete (inr values'),
              set_result (inr values') PhDone (at_phase PhParse ring' enc expected sent recv values'))
    | (false, false, ring', values') =>
        match rb_write_iovecs ring' with
        | [] => Some (Complete (inl BUFFER_OVERFLOW_ERROR),
                      setError BUFFER_OVERFLOW_ERROR (at_phase PhParse ring' enc expected sent recv values'))
        | window => Some (WaitReadv window, at_phase PhParse ring' enc expected sent recv values')
        end
    end.
Proof.
  intros Ha. cbn [settle advance at_phase x_result x_phase x_expected x_ring x_values]. rewrite Ha.
  destruct a as [[[done error] ring'] values']. destruct error; [by destruct done|].
  destruct done; [done|]. by destruct (rb_write_iovecs ring').
Qed.

Lemma settle_start ring enc expected recv values :
  expected <> 0 ->
  settle strtod simd 5 (at_phase PhStart ring enc expected 0 recv values) =
  settle strtod simd 5
    (at_phase (if recv || (blen enc =? 0) then PhParse else PhSend) ring enc expected 0 recv values).
Proof.
  intros He. transitivity (settle strtod simd 4
    (at_phase (if recv || (blen enc =? 0) then PhParse else PhSend) ring enc expected 0 recv values)).
  { cbn [settle]. unfold advance at 1. cbn [at_phase x_result x_phase x_expected x_encoded x_recv_only].
    by rewrite (proj2 (Z.eqb_neq _ _) He). }
  destruct (recv || (blen enc =? 0)) eqn:E.
  - destruct (parseRepliesFromRingBuffer strtod simd expected ring values) as [a|] eqn:Ha.
    + by rewrite !(settle_parse _ _ _ _ _ _ _ _ Ha).
    + cbn [settle]. unfold advance. cbn [at_phase x_result x_phase x_expected x_ring x_values]. by rewrite Ha.
  - apply orb_false_iff in E as [_ E]. apply Z.eqb_neq in E.
    assert (enc <> []) as Hne by (by intros ->). by rewrite !(settle_send _ ring [] enc).
Qed.

(** Reads of any sizes deliver the replies due. *)
Lemma run_receive chunks l w rest acc ring enc sent recv values :
  wires l w -> starts_crlf rest = false -> rb_ok ring -> Forall (fun c => c <> []) chunks ->
  rb_view ring ++ concat chunks = w ++ rest -> blen (w ++ rest) <= rb_capacity ring ->
  rb_capacity ring < 2 ^ 62 ->
  exists st front back,
    run (map Received chunks) acc
        (at_phase PhParse ring enc (blen values + blen l) sent recv values) =
      Some (Finished (inr (values ++ l)) acc st) /\
    chunks = front ++ back /\ rb_ok (x_ring st) /\ rb_view (x_ring st) ++ concat back = rest.
Proof.
  revert l w ring values. induction chunks as [|c chunks IH]; intros l w ring values Hl Hr Hok Hc E Hcap Hbig;
    pose proof (rb_bounded ring Hok) as Hbd;
    destruct (parse_ring_loop_spec (S (Z.to_nat (rb_readable ring))) l w (concat _) rest ring values _
      Hl Hr Hok E ltac:(lia) eq_refl) as (a & Ha & l1 & l2 & w1 & w2 & ring' & -> & -> & -> & Hl2 & Hok' & Hcap' & E' & Hs);
    try (rewrite rb_readable_view by done; unfold blen; lia);
    (case_bool_decide as Hl2e; [subst l2|destruct Hs as [|Hs]; [done|]]).
  - cbn [map run_exchange]. rewrite (settle_parse 3 _ _ _ _ _ _ _ Ha).
    eexists _, [], []. rewrite app_nil_r. split; [done|]. split_and!; [done|done|].
    by inversion Hl2; subst.
  - apply (f_equal blen) in E'. cbn [concat] in E'. rewrite !blen_app, blen_nil in E'.
    pose proof (blen_nonneg rest). lia.
  - cbn [map run_exchange]. rewrite (settle_parse 3 _ _ _ _ _ _ _ Ha).
    eexists _, [], (c :: chunks). rewrite app_nil_r. split; [done|]. split_and!; [done|done|].
    by inversion Hl2; subst.
  - apply Forall_cons in Hc as [Hc Hcs]. cbn [concat] in *.
    assert (blen (rb_view ring') + blen c + blen (concat chunks) <= rb_capacity ring') as Hroom.
    { apply (f_equal blen) in E'. rewrite !blen_app in *. rewrite Hcap'. pose proof (blen_nonneg w1). lia. }
    assert (0 < blen c) by (destruct c; [done|]; rewrite blen_cons; pose proof (blen_nonneg c); lia).
    pose proof (blen_nonneg (concat chunks)).
    cbn [map run_exchange]. rewrite (settle_parse 3 _ _ _ _ _ _ _ Ha).
    destruct (rb_write_total ring' Hok') as [_ [Hw _]].
    destruct (rb_write_iovecs ring') as [|v vs]; [specialize (Hw eq_refl); lia|].
    destruct (rb_receive_view ring' c Hok') as (Hok2 & Hcap2 & Hv2).
    rewrite take_ge in Hv2 by (unfold blen in *; lia).
    destruct (IH l2 w2 (rb_receive c ring') (values ++ l1)) as (st & front & back & Hrun & -> & Hok3 & Hv3); try done.
    + by rewrite Hv2, <- app_assoc.
    + rewrite !blen_app in *. rewrite Hcap2, Hcap'. pose proof (blen_nonneg w1). lia.
    + by rewrite Hcap2, Hcap'.
    + exists st, (c :: front), back. split; [|by split_and!].
      cbn [onRead at_phase x_result]. destruct c as [|b c]; [done|].
      rewrite blen_app, <- Z.add_assoc, <- blen_app, <- app_assoc in Hrun.
      rewrite <- Hrun. by rewrite blen_app.
Qed.
End Proofs.

(** ** The views of a builder *)

Lemma toView_app data more s v : toView data s = Value v -> toView (data ++ more) s = Value v.
Proof.
  unfold toView, slice. destruct (sl_length s =? 0); [done|].
  destruct ((0 <=? sl_offset s) && (0 <=? sl_length s) && _) eqn:E; [|done]. intros [= <-].
  apply andb_true_iff in E as [E E3]. apply andb_true_iff in E as [E1 E2].
  apply Z.leb_le in E1, E2, E3. rewrite blen_app. pose proof (blen_nonneg more).
  rewrite (proj2 (Z.leb_le 0 (sl_offset s))), (proj2 (Z.leb_le 0 (sl_length s))),
    (proj2 (Z.leb_le _ (blen data + blen more))) by lia. cbn [andb].
  f_equal. unfold blen in *. rewrite drop_app_le, take_app_le by (rewrite ?length_drop; lia). done.
Qed.

Lemma toView_new data value : toView (data ++ value) (mkSlice (blen data) (blen value)) = Value value.
Proof.
  unfold toView. cbn [sl_length sl_offset]. destruct (Z.eqb_spec (blen value) 0) as [E|_].
  - by destruct value.
  - apply (slice_app_at _ data value []); [by rewrite app_nil_r|done..].
Qed.

Lemma views_forall2 {A C} (f : A -> outcome ParseError C) l ys :
  Forall2 (fun x y => f x = Value y) l ys -> views f l = Value ys.
Proof. induction 1 as [|x y l ys Hx _ IH]; [done|]. cbn [views]. rewrite Hx. cbn [obind]. by rewrite IH. Qed.

Lemma append_args_spec args slices storage :
  exists news, append_args args slices storage = (slices ++ news, storage ++ concat args) /\
    Forall2 (fun s v => toView (storage ++ concat args) s = Value v) news args.
Proof.
  revert slices storage. induction args as [|arg args IH]; intros slices storage.
  - exists []. cbn [append_args concat]. rewrite !app_nil_r. by split.
  - cbn [append_args appendToStorage concat].
    destruct (IH (slices ++ [mkSlice (blen storage) (blen arg)]) (storage ++ arg)) as (news & -> & Hn).
    exists (mkSlice (blen storage) (blen arg) :: news). rewrite <- !app_assoc in *. cbn [app] in *.
    split; [done|]. constructor; [|done]. rewrite app_assoc. apply toView_app, toView_new.
Qed.

(** What a builder holds: the views of its commands, behind its slices. *)
Record holds (b : RedisCommandBuilder) (args : list bytes) (vs : list RedisCommandView) : Prop := {
  hd_args : Forall2 (fun s v => toView (b_storage b) s = Value v) (b_arg_slices b) args;
  hd_commands : Forall2 (fun m v =>
      toView (b_storage b) (cm_command m) = Value (cv_command v) /\
      toView (b_encoded b) (cm_encoded m) = Value (cv_encoded v) /\
      0 <= cm_arg_offset m /\ 0 <= cm_arg_count m /\ cm_arg_offset m + cm_arg_count m <= blen args /\
      take (Z.to_nat (cm_arg_count m)) (drop (Z.to_nat (cm_arg_offset m)) args) = cv_args v)
    (b_commands b) vs;
  hd_encoded : b_encoded b = concat (map cv_encoded vs)
}.

Definition view_of (c : bytes * list bytes) : RedisCommandView := mkView c.1 c.2 (bulks (c.1 :: c.2)).

Lemma holds_append b args vs cmd cargs :
  holds b args vs ->
  holds (builder_append cmd cargs b) (args ++ cargs) (vs ++ [view_of (cmd, cargs)]).
Proof.
  intros [Ha Hc He]. unfold builder_append, appendToStorage.
  destruct (append_args_spec cargs (b_arg_slices b) (b_storage b ++ cmd)) as (news & -> & Hn).
  rewrite appendCommandFast_eq, <- app_assoc in *.
  assert (blen (b_arg_slices b) = blen args) as Hl by (apply Forall2_length in Ha; unfold blen; lia).
  split; cbn [b_encoded b_storage b_arg_slices b_commands].
  - apply Forall2_app; [|done]. eapply Forall2_impl; [exact Ha|]. intros s v. apply toView_app.
  - apply Forall2_app.
    + eapply Forall2_impl; [exact Hc|]. intros m v (H1 & H2 & H3 & H4 & H5 & H6). rewrite blen_app.
      pose proof (blen_nonneg cargs).
      split_and!; [by apply toView_app|by apply toView_app|done|done|lia|]. rewrite <- H6.
      unfold blen in *. rewrite drop_app_le, take_app_le by (rewrite ?length_drop; lia). done.
    + repeat constructor; cbn [view_of cv_command cv_args cv_encoded cm_command cm_arg_offset cm_arg_count cm_encoded fst snd].
      * rewrite app_assoc. apply toView_app, toView_new.
      * replace (blen (b_encoded b ++ bulks (cmd :: cargs)) - blen (b_encoded b)) with (blen (bulks (cmd :: cargs)))
          by (rewrite blen_app; lia). apply toView_new.
      * apply blen_nonneg.
      * apply blen_nonneg.
      * rewrite blen_app. lia.
      * rewrite Hl. unfold blen. rewrite !Nat2Z.id, drop_app_length, take_ge by done. done.
  - by rewrite He, map_app, concat_app; cbn [map concat view_of cv_encoded fst snd]; rewrite app_nil_r.
Qed.

Definition append_all (cs : list (bytes * list bytes)) : RedisCommandBuilder :=
  foldl (fun b c => builder_append c.1 c.2 b) new_builder cs.

Lemma append_all_holds cs : holds (append_all cs) (concat (map snd cs)) (map view_of cs).
Proof.
  unfold append_all. enough (forall b args vs, holds b args vs ->
    holds (foldl (fun b c => builder_append c.1 c.2 b) b cs) (args ++ concat (map snd cs)) (vs ++ map view_of cs)) as H.
  { apply (H new_builder [] []). split; constructor. }
  induction cs as [|[cmd cargs] cs IH]; intros b args vs Hb; cbn [foldl map concat fst snd]; [by rewrite !app_nil_r|].
  rewrite app_assoc, (cons_middle (view_of _)), app_assoc. by apply IH, holds_append.
Qed.

Lemma batch_encoded_views cs : batch_encoded (map view_of cs) = concat (map cv_encoded (map view_of cs)).
Proof.
  unfold batch_encoded. enough (forall enc, foldl (fun enc c => match cv_encoded c with
    | [] => appendCommandFast enc (cv_command c) (cv_args c) | _ => enc ++ cv_encoded c end) enc (map view_of cs) =
    enc ++ concat (map cv_encoded (map view_of cs))) as H by apply H.
  induction cs as [|c cs IH]; intros enc; cbn [map foldl concat]; [by rewrite app_nil_r|].
  rewrite IH, app_assoc. f_equal.
Qed.

(** The array of bulk strings a command is. *)
Definition command_reply {double} (c : bytes * list bytes) : RedisReply double :=
  mkReply TArray (DArray _ (map bulk_reply (c.1 :: c.2))).

Definition command_ok (c : bytes * list bytes) : Prop :=
  Forall bulk_ok (c.1 :: c.2) /\ blen (c.1 :: c.2) <= kMaxRespAggregateLength.

(** a pipeline built by any sequence of [append]s: its views show every command with its own
    arguments and octets, [build] and the batch constructor give the same octets, and these are the
    commands in order, each the array of bulk strings a RESP parser reads. *)
Theorem builder_pipeline {double} (strtod : bytes -> strtod_result double) cs :
  Forall command_ok cs ->
  let b := append_all cs in
  commands b = Value (map view_of cs) /\
  wires strtod false (map command_reply cs) (encoded (build b)) /\
  batch_encoded (map view_of cs) = encoded (build b) /\
  builder_size b = blen cs /\ expected_replies (build b) = Z.max 1 (blen cs).
Proof.
  intros Hok b. pose proof (append_all_holds cs) as [Ha Hc He]. fold b in Ha, Hc, He.
  assert (builder_size b = blen cs) as Hs.
  { unfold builder_size. apply Forall2_length in Hc. unfold blen. by rewrite Hc, length_map. }
  split_and!; [| | |done|].
  - unfold commands. rewrite (views_forall2 _ _ _ Ha). cbn [obind]. apply views_forall2.
    eapply Forall2_impl; [exact Hc|]. intros m [c a e] (H1 & H2 & _ & _ & _ & H3).
    cbn [cv_command cv_args cv_encoded] in *. rewrite H1. cbn [obind]. rewrite H2. cbn [obind]. by rewrite H3.
  - unfold build. cbn [encoded]. rewrite He. clear -Hok.
    induction Hok as [|[c args] cs [H1 H2] _ IH]; cbn [map concat]; [apply wires_nil|].
    apply wires_cons; [by apply bulks_wire|done].
  - unfold build. cbn [encoded]. by rewrite He, batch_encoded_views.
  - unfold build. cbn [expected_replies]. rewrite Hs. pose proof (blen_nonneg cs).
    destruct (Z.eqb_spec (blen cs) 0); lia.
Qed.

(** C35: an exchange: however the socket splits the writes and the reads, the machine sends exactly the
    encoded command and returns exactly the replies due, in order; the octets received behind them, with
    those not yet read, are left to the next exchange. *)
Theorem exchange_delivers {double B} `{ByteRing B} {laws : ByteRingLaws B}
    (strtod : bytes -> strtod_result double) simd (ring : B) enc recv_only ns chunks l w rest :
  rb_ok ring -> rb_capacity ring < 2 ^ 62 ->
  wires strtod false l w -> l <> [] -> starts_crlf rest = false ->
  Forall (fun n => 0 < n) ns -> foldr Z.add 0 ns = (if (recv_only : bool) then 0 else blen enc) ->
  Forall (fun c => c <> []) chunks -> rb_view ring ++ concat chunks = w ++ rest ->
  blen (w ++ rest) <= rb_capacity ring ->
  exists st front back,
    run_exchange strtod simd (map Wrote ns ++ map Received chunks) []
        (new_exchange ring enc (blen l) recv_only) =
      Some (Finished (inr l) (if recv_only then [] else enc) st) /\
    chunks = front ++ back /\ rb_ok (x_ring st) /\ rb_view (x_ring st) ++ concat back = rest.
Proof.
  intros Hok Hbig Hl Hne Hr Hns Hsum Hc E Hcap. unfold new_exchange.
  set (cmd := if recv_only then [] else enc). replace (if recv_only then 0 else blen enc) with (blen cmd) in Hsum
    by (by destruct recv_only).
  assert (blen l <> 0) as Hl0.
  { destruct l as [|r l]; [done|]. rewrite blen_cons. pose proof (blen_nonneg l). lia. }
  destruct (Z.eqb_spec (blen l) 0) as [|_]; [done|].
  change (mkExchange ring cmd (blen l) recv_only 0 [] None PhStart)
    with (at_phase (double := double) PhStart ring cmd (blen l) 0 recv_only []).
  rewrite (run_same _ _ _ _ _ _ (settle_start strtod simd ring cmd (blen l) recv_only [] Hl0)).
  destruct (run_receive strtod simd chunks l w rest cmd ring cmd (blen cmd) recv_only [])
    as (st & front & back & Hrun & H'); [done..|].
  rewrite blen_nil, Z.add_0_l, app_nil_l in Hrun. exists st, front, back. split; [|done].
  etransitivity; [|exact Hrun].
  destruct (decide (cmd = [])) as [Hcmd|Hcmd].
  - assert (ns = []) as ->.
    { assert (blen cmd = 0) by (by rewrite Hcmd). destruct Hns as [|n ns Hn Hns]; [done|]. cbn [foldr] in Hsum.
      assert (0 <= foldr Z.add 0 ns) by (clear -Hns; induction Hns; cbn; lia). lia. }
    by rewrite Hcmd, orb_true_r.
  - assert (recv_only = false) as -> by (by destruct recv_only).
    destruct (Z.eqb_spec (blen cmd) 0) as [E0|_]; [by destruct cmd|]. cbn [orb].
    by apply (run_send strtod simd ns (map Received chunks) [] ring [] cmd).
Qed.

(** ** On concrete input *)

#[local] Abbreviation no_strtod := (fun _ : bytes => mkStrtod 0 0 true).

(** [release] keeps the commands it gave away: the next pipeline waits for their replies, too, and
    its views point outside the encoded octets. *)
Example release_keeps_commands :
  let b := builder_append (bs "PING") [] (release (builder_append (bs "PING") [] new_builder)).2 in
  encoded (build b) = encoded (command (bs "PING") [] 1) /\ expected_replies (build b) = 2 /\
  commands (release b).2 = OutOfBounds.
Proof. vm_compute. by split_and!. Qed.

(** An empty pipeline waits for a reply nobody sends. *)
Example empty_pipeline_waits :
  match run_exchange no_strtod true [] []
          (new_exchange (new_vector 16) (encoded (build new_builder)) (expected_replies (build new_builder)) false) with
  | Some (Waiting sent _) => sent = []
  | _ => False
  end.
Proof. vm_compute. reflexivity. Qed.

(** A reply larger than the ring ends the exchange. *)
Example reply_larger_than_ring :
  match run_exchange no_strtod true [Wrote 14; Received (bs "$9" ++ crlf ++ bs "ab")] []
          (new_exchange (new_vector 6) (encoded (command (bs "PING") [] 1)) 1 false) with
  | Some (Finished (inl BUFFER_OVERFLOW_ERROR) _ _) => True
  | _ => False
  end.
Proof. vm_compute. exact I. Qed.

Lemma builder_pipeline_witness :
  commands (append_all [(bs "SET", [bs "k"; bs "v"]); (bs "PING", [])]) =
    Value [view_of (bs "SET", [bs "k"; bs "v"]); view_of (bs "PING", [])].
Proof.
  apply (builder_pipeline no_strtod [(bs "SET", [bs "k"; bs "v"]); (bs "PING", [])]).
  repeat constructor; by vm_compute.
Defined.

Lemma exchange_delivers_witness :
  exists st front back,
    run_exchange no_strtod true
        (map Wrote [5; 9] ++ map Received [bs ":4"; bs "2" ++ crlf ++ bs "+"; bs "OK"])
        [] (new_exchange (new_vector 64) (encoded (command (bs "PING") [] 1)) 1 false) =
      Some (Finished (inr [mkReply TInteger (DInteger _ 42)]) (encoded (command (bs "PING") [] 1)) st) /\
    [bs ":4"; bs "2" ++ crlf ++ bs "+"; bs "OK"] = front ++ back /\ rb_ok (x_ring st) /\
    rb_view (x_ring st) ++ concat back = bs "+OK".
Proof.
  apply (exchange_delivers no_strtod true (new_vector 64) (encoded (command (bs "PING") [] 1)) false
    [5; 9] [bs ":4"; bs "2" ++ crlf ++ bs "+"; bs "OK"] [mkReply TInteger (DInteger _ 42)]
    (bs ":42" ++ crlf) (bs "+OK")); try (vm_compute; done).
  - rewrite <- (app_nil_r (bs ":42" ++ crlf)). apply wires_cons; [|apply wires_nil].
    by apply (wire_integer _ _ _ (bs "42")); vm_compute.
  - by repeat constructor.
  - by repeat constructor.
Defined.
