(* ===== verification/HttpBase.v ===== *)
(** * HTTP/1: constants and helpers

    [galay-http/protoc/http_error.h]: the error codes; [http_base.{h,cc}]: methods and versions;
    [parse_utils.h] and the helpers of the same kind in [http_header.cc] and [http_request.cc]: ASCII case,
    trimmed values, lists of tokens, numbers, cut input. *)

From Stdlib Require Import ZArith Lia.
From stdpp Require Import base list gmap strings sorting.
From S2P Require Import Prelude Charconv.

Open Scope Z_scope.

Inductive HttpErrorCode : Type :=
| kNoError | kIncomplete | kConnectionClose | kTcpRecvError | kTcpSendError | kRequestTimeOut
| kContentLengthNotContained | kContentLengthConvertError | kHeaderInComplete | kBodyInComplete
| kHeaderTooLong | kUriTooLong | kChunkHasError | kHttpCodeInvalid | kHeaderPairExist
| kHeaderPairNotExist | kBadRequest | kUrlInvalid | kPortInvalid | kMethodNotAllow | kVersionNotSupport
| kRequestEntityTooLarge | kUriEncodeError | kContentTypeInvalid | kInvalidChunkFormat
| kInvalidChunkLength | kBodyLengthNotMatch | kRecvTimeOut | kSendTimeOut | kNotFound | kNotImplemented
| kUpgradeFailed | kUnknownError | kHeaderTooLarge | kRecvError | kSendError | kCloseError
| kInternalError | kTcpConnectError | kChunkSizeConvertError.

#[export] Instance HttpErrorCode_eq_dec : EqDecision HttpErrorCode.
Proof. solve_decision. Defined.

Abbreviation CR := (Byte.x0d).
Abbreviation LF := (Byte.x0a).
Abbreviation SP := (Byte.x20).

(** ** Methods and versions *)

Inductive HttpMethod : Type :=
| GET | POST | HEAD | PUT | DELETE | TRACE | OPTIONS | CONNECT | PATCH | PRI | UNKNOWN.

Inductive HttpVersion : Type :=
| HttpVersion_1_0 | HttpVersion_1_1 | HttpVersion_2_0 | HttpVersion_3_0 | HttpVersion_Unknown.

#[export] Instance HttpMethod_eq_dec : EqDecision HttpMethod.
Proof. solve_decision. Defined.
#[export] Instance HttpVersion_eq_dec : EqDecision HttpVersion.
Proof. solve_decision. Defined.

(** The tables of names, in the order of the enumerations. *)
Definition g_HttpMethods : list (HttpMethod * bytes) :=
  [(GET, bs "GET"); (POST, bs "POST"); (HEAD, bs "HEAD"); (PUT, bs "PUT"); (DELETE, bs "DELETE");
   (TRACE, bs "TRACE"); (OPTIONS, bs "OPTIONS"); (CONNECT, bs "CONNECT"); (PATCH, bs "PATCH");
   (PRI, bs "PRI"); (UNKNOWN, bs "UNKNOWN")].

Definition g_HttpVersion : list (HttpVersion * bytes) :=
  [(HttpVersion_1_0, bs "HTTP/1.0"); (HttpVersion_1_1, bs "HTTP/1.1"); (HttpVersion_2_0, bs "HTTP/2.0");
   (HttpVersion_3_0, bs "HTTP/3.0"); (HttpVersion_Unknown, bs "Unknown")].

Definition value_of {A} (table : list (A * bytes)) (unknown : A) (str : bytes) : A :=
  match List.find (fun p => bool_decide (str = p.2)) table with Some p => p.1 | None => unknown end.
Definition name_of {A} `{EqDecision A} (table : list (A * bytes)) (unknown : bytes) (a : A) : bytes :=
  match List.find (fun p => bool_decide (a = p.1)) table with Some p => p.2 | None => unknown end.

Definition stringToHttpMethod (str : bytes) : HttpMethod := value_of g_HttpMethods UNKNOWN str.
Definition httpMethodToString (m : HttpMethod) : bytes := name_of g_HttpMethods (bs "UNKNOWN") m.
Definition stringToHttpVersion (str : bytes) : HttpVersion := value_of g_HttpVersion HttpVersion_Unknown str.
Definition httpVersionToString (v : HttpVersion) : bytes := name_of g_HttpVersion (bs "Unknown") v.

(** ** ASCII *)

Definition toLowerAsciiChar (ch : byte) : byte :=
  if (65 <=? b2z ch) && (b2z ch <=? 90) then z2b (b2z ch + 32) else ch.

Definition toUpperAsciiChar (ch : byte) : byte :=
  if (97 <=? b2z ch) && (b2z ch <=? 122) then z2b (b2z ch - 32) else ch.

Definition hasUpperAscii (value : bytes) : bool :=
  existsb (fun ch => (65 <=? b2z ch) && (b2z ch <=? 90)) value.

Definition toLowerAscii (value : bytes) : bytes := map toLowerAsciiChar value.

Definition equalsIgnoreCaseAscii (lhs rhs : bytes) : bool :=
  (blen lhs =? blen rhs) && bool_decide (toLowerAscii lhs = toLowerAscii rhs).

(** [std::isspace] in the C locale. *)
Definition isspace (c : byte) : bool := (b2z c =? 32) || ((9 <=? b2z c) && (b2z c <=? 13)).

Fixpoint skip_spaces (value : bytes) : bytes :=
  match value with
  | c :: value' => if isspace c then skip_spaces value' else value
  | [] => []
  end.

Definition trimAscii (value : bytes) : bytes := rev (skip_spaces (rev (skip_spaces value))).

(** The parts of a value between its commas. *)
Fixpoint split_commas (value : bytes) : list bytes :=
  match value with
  | [] => [[]]
  | c :: value =>
      match split_commas value with
      | part :: parts => if bool_decide (c = z2b 44) then [] :: part :: parts else (c :: part) :: parts
      | [] => []
      end
  end.

(** [containsCommaSeparatedHeaderValue] and [headerValueContainsToken]. *)
Definition headerValueContainsToken (value token : bytes) : bool :=
  if bool_decide (value = []) || bool_decide (token = []) then false
  else existsb (fun part => negb (bool_decide (trimAscii part = [])) && equalsIgnoreCaseAscii (trimAscii part) token)
         (split_commas value).

Definition isSingleHeaderToken (value expected : bytes) : bool :=
  let value := trimAscii value in
  negb (bool_decide (z2b 44 ∈ value)) && equalsIgnoreCaseAscii value expected.

Definition parseSizeTStrict (input : bytes) : option Z :=
  let text := trimAscii input in
  if bool_decide (text = []) then None
  else
    match from_chars 10 0 uint64_max text with
    | Parsed value ptr => if ptr =? blen text then Some value else None
    | _ => None
    end.

(** The input without its first octets; buffers that are used up are left out. *)
Fixpoint sliceIovecs (iovecs : list bytes) (skip_bytes : Z) : list bytes :=
  match iovecs with
  | [] => []
  | iov :: iovecs =>
      if blen iov <=? skip_bytes then sliceIovecs iovecs (skip_bytes - blen iov)
      else drop (Z.to_nat skip_bytes) iov :: sliceIovecs iovecs 0
  end.

(** ** std::map

    A [std::map] of strings is a finite map; a loop over it goes by the order of the keys. *)

Fixpoint bytes_leb (a b : bytes) : bool :=
  match a, b with
  | [], _ => true
  | _ :: _, [] => false
  | x :: a, y :: b => if b2z x =? b2z y then bytes_leb a b else b2z x <? b2z y
  end.

Definition key_order (p q : bytes * bytes) : Prop := bytes_leb p.1 q.1 = true.
#[export] Instance key_order_dec p q : Decision (key_order p q).
Proof. unfold key_order. apply _. Defined.

Definition entries (m : gmap bytes bytes) : list (bytes * bytes) := merge_sort key_order (map_to_list m).

(** ** Lemmas *)

Lemma entries_list_to_map m : list_to_map (entries m) = m.
Proof.
  unfold entries. rewrite <- (list_to_map_to_list m) at 2.
  apply list_to_map_proper; [|apply merge_sort_Permutation].
  rewrite merge_sort_Permutation. apply NoDup_fst_map_to_list.
Qed.

Lemma entries_NoDup m : NoDup (entries m).*1.
Proof. unfold entries. rewrite merge_sort_Permutation. apply NoDup_fst_map_to_list. Qed.

Lemma elem_of_entries m k v : (k, v) ∈ entries m <-> m !! k = Some v.
Proof. unfold entries. rewrite merge_sort_Permutation. apply elem_of_map_to_list. Qed.

Lemma toLowerAsciiChar_idem c : toLowerAsciiChar (toLowerAsciiChar c) = toLowerAsciiChar c.
Proof. destruct c; reflexivity. Qed.

Lemma toLowerAsciiChar_upper c : toLowerAsciiChar (toUpperAsciiChar c) = toLowerAsciiChar c.
Proof. destruct c; reflexivity. Qed.

Lemma toUpperAsciiChar_lower c : toUpperAsciiChar (toLowerAsciiChar c) = toUpperAsciiChar c.
Proof. destruct c; reflexivity. Qed.

Lemma toUpperAsciiChar_idem c : toUpperAsciiChar (toUpperAsciiChar c) = toUpperAsciiChar c.
Proof. destruct c; reflexivity. Qed.

Lemma toLowerAscii_idem s : toLowerAscii (toLowerAscii s) = toLowerAscii s.
Proof. unfold toLowerAscii. rewrite map_map. apply map_ext, toLowerAsciiChar_idem. Qed.

Lemma toLowerAscii_no_upper s : hasUpperAscii s = false -> toLowerAscii s = s.
Proof.
  induction s as [|c s IH]; [done|]. cbn [hasUpperAscii existsb]. intros [Hc Hs]%orb_false_iff.
  unfold toLowerAscii in *. cbn [map]. rewrite IH by done. f_equal. unfold toLowerAsciiChar. by rewrite Hc.
Qed.

Lemma blen_toLowerAscii s : blen (toLowerAscii s) = blen s.
Proof. unfold blen, toLowerAscii. by rewrite length_map. Qed.

Lemma method_name_roundtrip m : stringToHttpMethod (httpMethodToString m) = m.
Proof. destruct m; reflexivity. Qed.

Lemma version_name_roundtrip v : stringToHttpVersion (httpVersionToString v) = v.
Proof. destruct v; reflexivity. Qed.

Lemma concat_sliceIovecs iovecs n :
  0 <= n -> concat (sliceIovecs iovecs n) = drop (Z.to_nat n) (concat iovecs).
Proof.
  revert n. induction iovecs as [|iov iovecs IH]; intros n Hn; cbn [sliceIovecs concat]; [by rewrite drop_nil|].
  destruct (Z.leb_spec (blen iov) n).
  - rewrite IH by lia. rewrite drop_app_ge by (unfold blen in *; lia). f_equal. unfold blen in *. lia.
  - cbn [concat]. rewrite IH by lia. rewrite drop_0, drop_app_le by (unfold blen in *; lia). done.
Qed.

Lemma sliceIovecs_nonempty iovecs n : 0 <= n -> Forall (fun d => d <> []) (sliceIovecs iovecs n).
Proof.
  revert n. induction iovecs as [|iov iovecs IH]; intros n Hn; cbn [sliceIovecs]; [done|].
  destruct (Z.leb_spec (blen iov) n); [apply IH; lia|]. constructor; [|by apply IH].
  intros E%(f_equal length). rewrite length_drop in E. unfold blen in *. cbn in E. lia.
Qed.

(** ** Trimmed values *)

Lemma skip_spaces_elem c value : isspace c = false -> c ∈ value -> c ∈ skip_spaces value.
Proof.
  intros Hc. induction value as [|x value IH]; [done|]. cbn [skip_spaces].
  destruct (isspace x) eqn:E; [|done]. intros [-> | ?]%elem_of_cons; [congruence|by apply IH].
Qed.

Lemma trimAscii_elem c value : isspace c = false -> c ∈ value -> c ∈ trimAscii value.
Proof.
  intros Hc Hin. unfold trimAscii. rewrite rev_alt. apply elem_of_reverse, skip_spaces_elem; [done|].
  rewrite rev_alt. apply elem_of_reverse. by apply skip_spaces_elem.
Qed.

Lemma skip_spaces_id value : Forall (fun c => isspace c = false) value -> skip_spaces value = value.
Proof. intros [|c value' Hc _]; [done|]. cbn [skip_spaces]. by rewrite Hc. Qed.

Lemma trimAscii_id value : Forall (fun c => isspace c = false) value -> trimAscii value = value.
Proof.
  intros Hv. unfold trimAscii. rewrite (skip_spaces_id value), skip_spaces_id by (done || by apply Forall_rev).
  apply rev_involutive.
Qed.

Lemma digit_not_space c : is_Some (digit_value 10 c) -> isspace c = false.
Proof. intros [v Hv]. by destruct c. Qed.

Lemma parseSizeTStrict_to_chars n : 0 <= n < 2 ^ 64 -> parseSizeTStrict (to_chars n) = Some n.
Proof.
  intros Hn. unfold parseSizeTStrict, to_chars. rewrite (proj2 (Z.ltb_ge n 0)) by lia. cbv zeta.
  rewrite trimAscii_id by (eapply Forall_impl; [apply to_chars_unsigned_digits; lia|apply digit_not_space]).
  pose proof (to_chars_ne n) as Hne. unfold to_chars in Hne. rewrite (proj2 (Z.ltb_ge n 0)) in Hne by lia.
  rewrite bool_decide_eq_false_2 by done.
  pose proof (from_chars_unsigned 10 uint64_max n [] ltac:(lia) ltac:(unfold uint64_max; lia) I) as Hf.
  rewrite app_nil_r in Hf. by rewrite Hf, Z.eqb_refl.
Qed.

(** A list of values is not a number. *)
Lemma parseSizeTStrict_list value : z2b 44 ∈ value -> parseSizeTStrict value = None.
Proof.
  intros Hin%(trimAscii_elem (z2b 44) _ eq_refl). unfold parseSizeTStrict. cbv zeta. case_bool_decide; [done|].
  destruct (from_chars 10 0 uint64_max (trimAscii value)) as [v ptr| |] eqn:E; [|done..].
  destruct (Z.eqb_spec ptr (blen (trimAscii value))) as [->|]; [|done]. exfalso.
  apply from_chars_digits in E. rewrite Forall_forall in E. apply E in Hin as [w Hw]. by vm_compute in Hw.
Qed.

Lemma split_commas_single value : (z2b 44 ∉ value) -> split_commas value = [value].
Proof.
  induction value as [|c value IH]; [done|]. intros [Hc Hv]%not_elem_of_cons. cbn [split_commas].
  rewrite IH by done. by rewrite bool_decide_eq_false_2 by congruence.
Qed.

Lemma single_token_contained value token :
  token <> [] -> isSingleHeaderToken value token = true -> headerValueContainsToken value token = true.
Proof.
  unfold isSingleHeaderToken, headerValueContainsToken. cbv zeta.
  intros Ht [Hc%negb_true_iff%bool_decide_eq_false He]%andb_true_iff.
  assert (trimAscii value <> []) as Hne.
  { intros E. rewrite E in He. unfold equalsIgnoreCaseAscii in He. apply andb_true_iff in He as [He%Z.eqb_eq _].
    pose proof (blen_pos token Ht). rewrite (@blen_nil byte) in He. lia. }
  rewrite !bool_decide_eq_false_2 by (done || by intros ->). cbn [orb].
  rewrite split_commas_single by (intros Hin; by apply Hc, trimAscii_elem). cbn [existsb].
  by rewrite (bool_decide_eq_false_2 _ Hne), He.
Qed.
