(* ===== verification/HttpReader.v ===== *)
(** * HTTP/1: the read machine

    [HttpRingBufferTcpReadMachine] of [galay-http/kernel/http_reader.h], a template over the state it
    feeds: the machine, what it asks of a state, and the proof that octets cut into arbitrary reads are
    delivered when the state takes them turn by turn. *)

From Stdlib Require Import ZArith Lia.
From stdpp Require Import base list.
From S2P Require Import Prelude RingBuffer HttpBase.

Open Scope Z_scope.

(** What a read of the socket gives. *)
Inductive read_event : Type := Received (data : bytes) | PeerClosed | TimedOut | Disconnected | ReadFailed.

(** [setRecvError] and [onPeerClosed] *)
Definition recv_error (e : read_event) : HttpErrorCode :=
  match e with
  | TimedOut => kRecvTimeOut
  | PeerClosed | Disconnected => kConnectionClose
  | _ => kRecvError
  end.

(** The operations of a [StateT] with results of type [R]; [None] is a parse that does not return. *)
Record ReadState (S R : Type) : Type := mkReadState {
  parseFromRingBuffer : S -> option (bool * S);
  prepareRecvWindow : S -> bool * S;
  onBytesReceived : bytes -> S -> S;
  setError : HttpErrorCode -> S -> S;
  takeResult : S -> R
}.
Arguments mkReadState {S R}.
Arguments parseFromRingBuffer {S R}.
Arguments prepareRecvWindow {S R}.
Arguments onBytesReceived {S R}.
Arguments setError {S R}.
Arguments takeResult {S R}.

Section Machine.
Context {S R : Type} (ops : ReadState S R).

(** The machine over the answers of the socket: the result and the answers not asked for, or a state still
    waiting. *)
Inductive read_outcome : Type := Completed (r : R) (st : S) (later : list read_event) | Waiting (st : S).

Definition complete (st : S) (later : list read_event) : read_outcome := Completed (takeResult ops st) st later.

(** [onRead]: a read of no octets is the end of the stream. *)
Definition onRead (e : read_event) (st : S) : bool * S :=
  match e with
  | Received [] => (true, setError ops kConnectionClose st)
  | Received data => (false, onBytesReceived ops data st)
  | e => (true, setError ops (recv_error e) st)
  end.

(** [advance] and [onRead] in turn. *)
Fixpoint read_machine (events : list read_event) (st : S) : option read_outcome :=
  match parseFromRingBuffer ops st with
  | None => None
  | Some (true, st) => Some (complete st events)
  | Some (false, st) =>
      let '(window, st) := prepareRecvWindow ops st in
      if negb window then Some (complete st events)
      else
        match events with
        | [] => Some (Waiting st)
        | e :: events =>
            let '(failed, st) := onRead e st in
            if failed then Some (complete st events) else read_machine events st
        end
  end.

(** The octets that answers bring, and the answers that bring none. *)
Definition octets (events : list read_event) : bytes :=
  concat (map (fun e => match e with Received data => data | _ => [] end) events).
Definition brings_none (e : read_event) : Prop := match e with Received (_ :: _) => False | _ => True end.

Section Invariant.
(** What holds of a state that has got the octets [u]: before a parse, waiting, complete, refused by the
    parse, and refused for want of octets or of room. *)
Variables (got waits ends fails : bytes -> S -> Prop) (cut : S -> Prop) (capacity : Z).
Hypothesis got_parse : forall u st, got u st ->
  exists b st', parseFromRingBuffer ops st = Some (b, st') /\ if b : bool then ends u st' \/ fails u st' else waits u st'.
Hypothesis waits_window : forall u st, waits u st ->
  prepareRecvWindow ops st = (true, st) \/ (capacity <= 0 /\ exists st', prepareRecvWindow ops st = (false, st') /\ cut st').
Hypothesis waits_error : forall u e st, waits u st -> cut (setError ops e st).
Hypothesis waits_receive : forall u data st,
  data <> [] -> blen data <= capacity -> waits u st -> got (u ++ data) (onBytesReceived ops data st).

Lemma read_machine_sound events u st :
  got u st -> Forall (fun e => match e with Received data => blen data <= capacity | _ => True end) events ->
  exists front later out, events = front ++ later /\ read_machine events st = Some out /\
  match out with
  | Completed r st' l => l = later /\ r = takeResult ops st' /\
      (ends (u ++ octets front) st' \/ fails (u ++ octets front) st' \/
       (cut st' /\ (capacity <= 0 \/ Exists brings_none front)))
  | Waiting st' => later = [] /\ waits (u ++ octets front) st'
  end.
Proof using got_parse waits_window waits_error waits_receive.
  revert u st. induction events as [|e events IH]; intros u st Hg Hf;
    destruct (got_parse _ _ Hg) as (b & st1 & Hp & H1); cbn [read_machine]; rewrite Hp;
    (destruct b;
     [exists []; do 2 eexists; (split; [done|]); (split; [done|]); cbn [octets map concat];
      rewrite app_nil_r; (split; [done|]); (split; [done|]); destruct H1; tauto|]);
    (destruct (waits_window _ _ H1) as [Hw | (Hcap & st2 & Hw & Hc)]; rewrite Hw; cbn [negb];
     [|exists []; do 2 eexists; (split; [done|]); (split; [done|]); (split; [done|]); (split; [done|]); tauto]).
  - exists [], []. eexists. split; [done|]. split; [done|]. cbn [octets map concat]. by rewrite app_nil_r.
  - apply Forall_cons in Hf as [He Hf]. destruct (onRead e st1) as [[] st2] eqn:Er.
    + exists [e], events. eexists. split; [done|]. split; [done|]. split; [done|]. split; [done|]. right. right.
      unfold onRead in Er. destruct e as [[|c d]| | | |]; simplify_eq;
        (split; [by eapply waits_error|right; by constructor]).
    + unfold onRead in Er. destruct e as [[|c d]| | | |]; simplify_eq.
      assert (c :: d <> []) as Hne by done.
      destruct (IH _ _ (waits_receive _ _ _ Hne He H1) Hf) as (front & later & out & -> & Hr & Ho).
      exists (Received (c :: d) :: front), later, out. split; [done|]. split; [done|].
      unfold octets in *. cbn [map concat]. rewrite app_assoc. destruct out as [r st' l|st']; [|done].
      destruct Ho as (-> & -> & Ho). split; [done|]. split; [done|]. rewrite Exists_cons. tauto.
Qed.
End Invariant.

(** The octets still to come are a parameter of three stages of a state: before a parse, waiting for more,
    and done with what is left of the ring and of the stream. *)
Variables (ready waiting finished : bytes -> S -> Prop) (capacity : Z).
Hypothesis parse_turn : forall tail st, ready tail st ->
  exists b st', parseFromRingBuffer ops st = Some (b, st') /\ if b : bool then finished tail st' else waiting tail st'.
Hypothesis waiting_window : 0 < capacity -> forall tail st, waiting tail st -> prepareRecvWindow ops st = (true, st).
Hypothesis waiting_more : forall st, ~ waiting [] st.
Hypothesis waiting_receive : forall data tail st,
  data <> [] -> blen data <= capacity -> waiting (data ++ tail) st -> ready tail (onBytesReceived ops data st).

Lemma read_machine_delivers chunks st :
  Forall (fun c => c <> [] /\ blen c <= capacity) chunks -> ready (concat chunks) st ->
  exists front back st', chunks = front ++ back /\
    read_machine (map Received chunks) st = Some (Completed (takeResult ops st') st' (map Received back)) /\
    finished (concat back) st'.
Proof using parse_turn waiting_more waiting_receive waiting_window.
  revert st. induction chunks as [|c chunks IH]; intros st Hc Hr;
    destruct (parse_turn _ _ Hr) as ([] & st' & Hp & Hst).
  - exists [], [], st'. cbn [map read_machine]. by rewrite Hp.
  - by apply waiting_more in Hst.
  - exists [], (c :: chunks), st'. cbn [map read_machine]. by rewrite Hp.
  - apply Forall_cons in Hc as [[Hne Hle] Hc]. cbn [concat] in Hst.
    pose proof (waiting_window ltac:(pose proof (blen_pos c Hne); lia) _ _ Hst) as Hw. apply waiting_receive in Hst; [|done..].
    destruct (IH _ Hc Hst) as (front & back & st2 & -> & Hread & Hfin).
    exists (c :: front), back, st2. split; [done|]. split; [|done]. cbn [map read_machine]. rewrite Hp, Hw.
    cbn [negb]. unfold onRead. by destruct c.
Qed.
End Machine.
Arguments read_outcome : clear implicits.
Arguments Completed {S R}.
Arguments Waiting {S R}.

(** A ring that was emptied has room for a read, which then is all it holds. *)
Lemma receive_into_empty {B} `{ByteRingLaws B} (b : B) data :
  rb_ok b -> rb_view b = [] -> blen data <= rb_capacity b ->
  rb_ok (rb_receive data b) /\ rb_capacity (rb_receive data b) = rb_capacity b /\ rb_view (rb_receive data b) = data.
Proof.
  intros Hok Hv Hle. destruct (rb_receive_view b data Hok) as (H1 & H2 & H3).
  rewrite Hv, (@blen_nil byte), Z.sub_0_r, take_ge in H3 by (unfold blen in *; lia). done.
Qed.

Lemma write_window_open {B} `{ByteRingLaws B} (b : B) :
  rb_ok b -> rb_view b = [] -> 0 < rb_capacity b -> rb_write_iovecs b <> [].
Proof.
  intros Hok Hv Hc E. pose proof (rb_write_total b Hok) as [_ He].
  rewrite Hv, (@blen_nil byte) in He. rewrite <- (proj1 He E) in Hc. lia.
Qed.
