(* ===== verification/HttpHeaders.v ===== *)
(** * HTTP/1: header fields

    [HeaderPair] of [galay-http/protoc/http_header.{h,cc}]: the fields of a message, in an array of
    fifteen common names and a map of the others, and the map of names without case it implements. *)

From Stdlib Require Import ZArith Lia.
From stdpp Require Import base list gmap strings.
From S2P Require Import Prelude HttpBase.

Open Scope Z_scope.

(** [NotCommon] is [None]. *)
Inductive CommonHeaderIndex : Type :=
| Host | ContentLength | ContentType | UserAgent | Accept | AcceptEncoding | Connection | CacheControl
| Cookie | Authorization | IfModifiedSince | IfNoneMatch | Referer | AcceptLanguage | Range.

Definition common_headers : list CommonHeaderIndex :=
  [Host; ContentLength; ContentType; UserAgent; Accept; AcceptEncoding; Connection; CacheControl;
   Cookie; Authorization; IfModifiedSince; IfNoneMatch; Referer; AcceptLanguage; Range].

#[export] Instance CommonHeaderIndex_eq_dec : EqDecision CommonHeaderIndex.
Proof. solve_decision. Defined.

Definition common_index (i : CommonHeaderIndex) : nat :=
  match i with
  | Host => 0 | ContentLength => 1 | ContentType => 2 | UserAgent => 3 | Accept => 4
  | AcceptEncoding => 5 | Connection => 6 | CacheControl => 7 | Cookie => 8 | Authorization => 9
  | IfModifiedSince => 10 | IfNoneMatch => 11 | Referer => 12 | AcceptLanguage => 13 | Range => 14
  end%nat.

#[export] Instance CommonHeaderIndex_countable : Countable CommonHeaderIndex.
Proof. refine (inj_countable common_index (fun n => common_headers !! n) _). by intros []. Defined.

Definition getCommonHeaderName (idx : CommonHeaderIndex) : bytes :=
  match idx with
  | Host => bs "host" | ContentLength => bs "content-length" | ContentType => bs "content-type"
  | UserAgent => bs "user-agent" | Accept => bs "accept" | AcceptEncoding => bs "accept-encoding"
  | Connection => bs "connection" | CacheControl => bs "cache-control" | Cookie => bs "cookie"
  | Authorization => bs "authorization" | IfModifiedSince => bs "if-modified-since"
  | IfNoneMatch => bs "if-none-match" | Referer => bs "referer" | AcceptLanguage => bs "accept-language"
  | Range => bs "range"
  end.

(** One comparison of the switch: the length, then the octets. *)
Definition is_name (key : bytes) (len : Z) (idx : CommonHeaderIndex) (otherwise : option CommonHeaderIndex) :
    option CommonHeaderIndex :=
  if (blen key =? len) && bool_decide (key = getCommonHeaderName idx) then Some idx else otherwise.

Definition matchCommonHeader (key : bytes) : option CommonHeaderIndex :=
  if (blen key <? 4) || (19 <? blen key) then None
  else
    match key with
    | Byte.x68 :: _ => is_name key 4 Host None
    | Byte.x63 :: _ =>
        is_name key 14 ContentLength (is_name key 12 ContentType (is_name key 10 Connection
          (is_name key 13 CacheControl (is_name key 6 Cookie None))))
    | Byte.x75 :: _ => is_name key 10 UserAgent None
    | Byte.x61 :: _ =>
        is_name key 6 Accept (is_name key 15 AcceptEncoding (is_name key 15 AcceptLanguage
          (is_name key 13 Authorization None)))
    | Byte.x69 :: _ => is_name key 17 IfModifiedSince (is_name key 13 IfNoneMatch None)
    | Byte.x72 :: _ => is_name key 7 Referer (is_name key 5 Range None)
    | _ => None
    end.

Inductive Mode : Type := ServerSide | ClientSide.

#[export] Instance Mode_eq_dec : EqDecision Mode.
Proof. solve_decision. Defined.

(** An entry of the array is there when its bit is set. *)
Record HeaderPair : Type := mkHeaderPair {
  m_commonHeaders : gmap CommonHeaderIndex bytes;
  m_pairs : gmap bytes bytes;
  m_mode : Mode
}.

Definition new_headers (mode : Mode) : HeaderPair := mkHeaderPair ∅ ∅ mode.

Definition set_common (c : gmap CommonHeaderIndex bytes) (h : HeaderPair) : HeaderPair :=
  mkHeaderPair c (m_pairs h) (m_mode h).
Definition set_pairs (p : gmap bytes bytes) (h : HeaderPair) : HeaderPair :=
  mkHeaderPair (m_commonHeaders h) p (m_mode h).

(** ** Names *)

Definition lowered (key : bytes) : bytes := if hasUpperAscii key then toLowerAscii key else key.

Fixpoint canonical (word_start : bool) (key : bytes) : bytes :=
  match key with
  | [] => []
  | ch :: key =>
      let ch := if word_start then toUpperAsciiChar ch else toLowerAsciiChar ch in
      ch :: canonical (bool_decide (ch = z2b 45)) key
  end.

Definition toCanonicalHeaderKey (key : bytes) : bytes := canonical true key.

Definition normalizeKey (mode : Mode) (key : bytes) : bytes :=
  match mode with ServerSide => lowered key | ClientSide => toCanonicalHeaderKey key end.

Definition normalizeHeaderKeyChar (ch : byte) (mode : Mode) : byte :=
  match mode with ServerSide => toLowerAsciiChar ch | ClientSide => ch end.

(** ** Operations *)

Definition findHeaderPairIter (mode : Mode) (headers : gmap bytes bytes) (key : bytes) : option (bytes * bytes) :=
  match headers !! key with
  | Some v => Some (key, v)
  | None =>
      match mode with
      | ServerSide =>
          if negb (hasUpperAscii key) then None
          else let normalized := toLowerAscii key in pair normalized <$> headers !! normalized
      | ClientSide =>
          let normalized := toCanonicalHeaderKey key in
          if bool_decide (normalized = key) then None else pair normalized <$> headers !! normalized
      end
  end.

(** [matchCommonHeader] where the mode has the array. *)
Definition common_of (mode : Mode) (normalized : bytes) : option CommonHeaderIndex :=
  match mode with ServerSide => matchCommonHeader normalized | ClientSide => None end.

Definition hasCommonHeader (idx : CommonHeaderIndex) (h : HeaderPair) : bool :=
  bool_decide (is_Some (m_commonHeaders h !! idx)).

Definition getCommonHeader (idx : CommonHeaderIndex) (h : HeaderPair) : bytes :=
  default [] (m_commonHeaders h !! idx).

(** [a += ", "; a += b] *)
Definition joined (a b : bytes) : bytes := a ++ bs ", " ++ b.

Definition setCommonHeader (idx : CommonHeaderIndex) (value : bytes) (h : HeaderPair) : HeaderPair :=
  match m_commonHeaders h !! idx with
  | Some old => set_common (<[idx := joined old value]> (m_commonHeaders h)) h
  | None => set_common (<[idx := value]> (m_commonHeaders h)) h
  end.

Definition getValuePtr (key : bytes) (h : HeaderPair) : option bytes :=
  match common_of (m_mode h) (lowered key) with
  | Some idx => if hasCommonHeader idx h then m_commonHeaders h !! idx else None
  | None => snd <$> findHeaderPairIter (m_mode h) (m_pairs h) key
  end.

Definition hasKey (key : bytes) (h : HeaderPair) : bool := bool_decide (is_Some (getValuePtr key h)).
Definition getValue (key : bytes) (h : HeaderPair) : bytes := default [] (getValuePtr key h).

Definition removeHeaderPair (key : bytes) (h : HeaderPair) : HttpErrorCode * HeaderPair :=
  let slow :=
    match findHeaderPairIter (m_mode h) (m_pairs h) key with
    | None => (kHeaderPairNotExist, h)
    | Some (k, _) => (kNoError, set_pairs (delete k (m_pairs h)) h)
    end in
  match common_of (m_mode h) (lowered key) with
  | Some idx =>
      if hasCommonHeader idx h then (kNoError, set_common (delete idx (m_commonHeaders h)) h) else slow
  | None => slow
  end.

(** [try_emplace] *)
Definition try_emplace (key value : bytes) (h : HeaderPair) : HttpErrorCode * HeaderPair :=
  match m_pairs h !! key with
  | Some _ => (kHeaderPairExist, h)
  | None => (kNoError, set_pairs (<[key := value]> (m_pairs h)) h)
  end.

Definition addHeaderPairIfNotExist (key value : bytes) (h : HeaderPair) : HttpErrorCode * HeaderPair :=
  match m_mode h with
  | ServerSide =>
      let normalized := lowered key in
      match matchCommonHeader normalized with
      | Some idx =>
          if hasCommonHeader idx h then (kHeaderPairExist, h) else (kNoError, setCommonHeader idx value h)
      | None => try_emplace normalized value h
      end
  | ClientSide => try_emplace (toCanonicalHeaderKey key) value h
  end.

Definition addHeaderPair (key value : bytes) (h : HeaderPair) : HttpErrorCode * HeaderPair :=
  match m_mode h with
  | ServerSide =>
      let normalized := lowered key in
      match matchCommonHeader normalized with
      | Some idx => (kNoError, setCommonHeader idx value h)
      | None => (kNoError, set_pairs (<[normalized := value]> (m_pairs h)) h)
      end
  | ClientSide => (kNoError, set_pairs (<[toCanonicalHeaderKey key := value]> (m_pairs h)) h)
  end.

Definition addNormalizedHeaderPair (key value : bytes) (h : HeaderPair) : HttpErrorCode * HeaderPair :=
  match common_of (m_mode h) key with
  | Some idx => (kNoError, set_common (<[idx := value]> (m_commonHeaders h)) h)
  | None => (kNoError, set_pairs (<[key := value]> (m_pairs h)) h)
  end.

Definition setNormalizedUncommonHeaderPair (key value : bytes) (h : HeaderPair) : HeaderPair :=
  set_pairs (<[key := value]> (m_pairs h)) h.

Definition mergeNormalizedUncommonHeaderPair (key value : bytes) (h : HeaderPair) : HeaderPair :=
  match m_pairs h !! key with
  | None => set_pairs (<[key := value]> (m_pairs h)) h
  | Some old => set_pairs (<[key := joined old value]> (m_pairs h)) h
  end.

Definition clear (h : HeaderPair) : HeaderPair :=
  match m_mode h with
  | ServerSide => mkHeaderPair ∅ ∅ ServerSide
  | ClientSide => mkHeaderPair (m_commonHeaders h) ∅ ClientSide
  end.

(** The fields in the order the loops visit them. *)
Definition common_fields (h : HeaderPair) : list (bytes * bytes) :=
  omap (fun idx => pair (getCommonHeaderName idx) <$> m_commonHeaders h !! idx) common_headers.

Definition forEachHeader (h : HeaderPair) : list (bytes * bytes) :=
  match m_mode h with ServerSide => common_fields h | ClientSide => [] end ++ entries (m_pairs h).

Definition header_line (kv : bytes * bytes) : bytes := kv.1 ++ bs ": " ++ kv.2 ++ [CR; LF].

Definition appendTo (h : HeaderPair) (out : bytes) : bytes :=
  out ++ concat (map header_line (common_fields h ++ entries (m_pairs h))).

Definition estimatedSerializedSize (h : HeaderPair) : Z :=
  foldl (fun n kv => n + blen kv.1 + blen kv.2 + 4) 0 (common_fields h ++ entries (m_pairs h)).

Definition toString (h : HeaderPair) : bytes :=
  if bool_decide (m_pairs h = ∅) && bool_decide (m_commonHeaders h = ∅) then [] else appendTo h [].

(** ** Names, lemmas *)

Lemma is_name_Some key len idx o i :
  is_name key len idx o = Some i -> key = getCommonHeaderName i \/ o = Some i.
Proof.
  unfold is_name. destruct (_ && _) eqn:E; [|by right]. intros [= <-]. left.
  apply andb_true_iff in E as [_ E]. by apply bool_decide_eq_true in E.
Qed.

Lemma matchCommonHeader_spec key i : matchCommonHeader key = Some i <-> key = getCommonHeaderName i.
Proof.
  split; [|intros ->; by destruct i].
  unfold matchCommonHeader. destruct (_ || _); [done|]. destruct key as [|c key]; [done|].
  destruct c; try done; intros H; repeat (apply is_name_Some in H as [H|H]; [done|]); done.
Qed.

Lemma lowered_eq key : lowered key = toLowerAscii key.
Proof. unfold lowered. destruct (hasUpperAscii key) eqn:E; [done|]. by rewrite toLowerAscii_no_upper. Qed.

Lemma canonical_idem b key : canonical b (canonical b key) = canonical b key.
Proof.
  revert b. induction key as [|c key IH]; intros b; [done|]. cbn [canonical].
  destruct b; rewrite ?toUpperAsciiChar_idem, ?toLowerAsciiChar_idem; by rewrite IH.
Qed.

Lemma normalizeKey_idem mode key : normalizeKey mode (normalizeKey mode key) = normalizeKey mode key.
Proof.
  destruct mode; cbn [normalizeKey]; [|apply canonical_idem]. by rewrite !lowered_eq, toLowerAscii_idem.
Qed.

Lemma common_name_normal i : normalizeKey ServerSide (getCommonHeaderName i) = getCommonHeaderName i.
Proof. by destruct i. Qed.

(** The fast path looks a name up under its normal form. *)
Lemma common_of_lowered mode key : common_of mode (lowered key) = common_of mode (normalizeKey mode key).
Proof. by destruct mode. Qed.

(** ** The map of names without case *)

(** The names of the slow map are in normal form and not those of the array. *)
Record headers_ok (h : HeaderPair) : Prop := mkHeadersOk {
  ok_pairs : forall k v, m_pairs h !! k = Some v ->
    normalizeKey (m_mode h) k = k /\ common_of (m_mode h) k = None;
  ok_common : m_mode h = ClientSide -> m_commonHeaders h = ∅
}.

Definition field (h : HeaderPair) (name : bytes) : option bytes :=
  match common_of (m_mode h) name with
  | Some idx => m_commonHeaders h !! idx
  | None => m_pairs h !! name
  end.

Definition represents (h : HeaderPair) (m : gmap bytes bytes) : Prop :=
  headers_ok h /\ forall name, field h name = m !! name.

Definition join_into (name value : bytes) (m : gmap bytes bytes) : gmap bytes bytes :=
  <[name := match m !! name with Some old => joined old value | None => value end]> m.

Inductive header_op : Type :=
| Add (key value : bytes) | AddIfNotExist (key value : bytes) | AddNormalized (key value : bytes)
| SetCommon (idx : CommonHeaderIndex) (value : bytes) | Merge (key value : bytes)
| Remove (key : bytes) | Clear.

Definition run_op (op : header_op) (h : HeaderPair) : HttpErrorCode * HeaderPair :=
  match op with
  | Add key value => addHeaderPair key value h
  | AddIfNotExist key value => addHeaderPairIfNotExist key value h
  | AddNormalized key value => addNormalizedHeaderPair key value h
  | SetCommon idx value => (kNoError, setCommonHeader idx value h)
  | Merge key value => (kNoError, mergeNormalizedUncommonHeaderPair key value h)
  | Remove key => removeHeaderPair key h
  | Clear => (kNoError, clear h)
  end.

(** What each operation means: a common name collects the values it is given, another keeps the last. *)
Definition spec_op (mode : Mode) (op : header_op) (m : gmap bytes bytes) : HttpErrorCode * gmap bytes bytes :=
  match op with
  | Add key value =>
      let name := normalizeKey mode key in
      (kNoError, match common_of mode name with Some _ => join_into name value m | None => <[name := value]> m end)
  | AddIfNotExist key value =>
      let name := normalizeKey mode key in
      match m !! name with Some _ => (kHeaderPairExist, m) | None => (kNoError, <[name := value]> m) end
  | AddNormalized key value => (kNoError, <[key := value]> m)
  | SetCommon idx value => (kNoError, join_into (getCommonHeaderName idx) value m)
  | Merge key value => (kNoError, join_into key value m)
  | Remove key =>
      let name := normalizeKey mode key in
      match m !! name with Some _ => (kNoError, delete name m) | None => (kHeaderPairNotExist, m) end
  | Clear => (kNoError, ∅)
  end.

(** What the internal operations expect of their callers. *)
Definition op_ok (mode : Mode) (op : header_op) : Prop :=
  match op with
  | AddNormalized key _ => normalizeKey mode key = key
  | SetCommon _ _ => mode = ServerSide
  | Merge key _ => normalizeKey mode key = key /\ common_of mode key = None
  | _ => True
  end.

Lemma insert_common h idx value :
  headers_ok h -> m_mode h = ServerSide ->
  headers_ok (set_common (<[idx := value]> (m_commonHeaders h)) h) /\
  forall name, field (set_common (<[idx := value]> (m_commonHeaders h)) h) name =
    if decide (name = getCommonHeaderName idx) then Some value else field h name.
Proof.
  intros [H1 H2] Hm. split; [split; [done|]; cbn; congruence|]. intros name. unfold field. cbn.
  rewrite Hm. cbn [common_of]. destruct (matchCommonHeader name) as [i|] eqn:E.
  - apply matchCommonHeader_spec in E as ->. case_decide as Hn.
    + assert (i = idx) as -> by (revert Hn; by destruct i, idx). by rewrite lookup_insert_eq.
    + rewrite lookup_insert_ne; [done|]. by intros ->.
  - case_decide as Hn; [|done]. subst name. rewrite (proj2 (matchCommonHeader_spec _ _) eq_refl) in E. done.
Qed.

Lemma delete_common h idx :
  headers_ok h -> m_mode h = ServerSide ->
  headers_ok (set_common (delete idx (m_commonHeaders h)) h) /\
  forall name, field (set_common (delete idx (m_commonHeaders h)) h) name =
    if decide (name = getCommonHeaderName idx) then None else field h name.
Proof.
  intros [H1 H2] Hm. split; [split; [done|]; cbn; congruence|]. intros name. unfold field. cbn.
  rewrite Hm. cbn [common_of]. destruct (matchCommonHeader name) as [i|] eqn:E.
  - apply matchCommonHeader_spec in E as ->. case_decide as Hn.
    + assert (i = idx) as -> by (revert Hn; by destruct i, idx). by rewrite lookup_delete_eq.
    + rewrite lookup_delete_ne; [done|]. by intros ->.
  - case_decide as Hn; [|done]. subst name. rewrite (proj2 (matchCommonHeader_spec _ _) eq_refl) in E. done.
Qed.

Lemma insert_pair h key value :
  headers_ok h -> normalizeKey (m_mode h) key = key -> common_of (m_mode h) key = None ->
  headers_ok (set_pairs (<[key := value]> (m_pairs h)) h) /\
  forall name, field (set_pairs (<[key := value]> (m_pairs h)) h) name =
    if decide (name = key) then Some value else field h name.
Proof.
  intros [H1 H2] Hn Hc. split.
  - split; [|done]. cbn. intros k v [[<- _]|[_ Hk]]%lookup_insert_Some; [done|by eapply H1].
  - intros name. unfold field. cbn. case_decide as E; [subst name; by rewrite Hc, lookup_insert_eq|].
    by rewrite lookup_insert_ne.
Qed.

Lemma delete_pair h key :
  headers_ok h -> common_of (m_mode h) key = None ->
  headers_ok (set_pairs (delete key (m_pairs h)) h) /\
  forall name, field (set_pairs (delete key (m_pairs h)) h) name =
    if decide (name = key) then None else field h name.
Proof.
  intros [H1 H2] Hc. split.
  - split; [|done]. cbn. intros k v [_ Hk]%lookup_delete_Some. by eapply H1.
  - intros name. unfold field. cbn. case_decide as E; [subst name; by rewrite Hc, lookup_delete_eq|].
    by rewrite lookup_delete_ne.
Qed.

(** The search finds what the normal form of the name finds. *)
Lemma findHeaderPairIter_spec h key :
  headers_ok h -> common_of (m_mode h) (normalizeKey (m_mode h) key) = None ->
  findHeaderPairIter (m_mode h) (m_pairs h) key =
    pair (normalizeKey (m_mode h) key) <$> field h (normalizeKey (m_mode h) key).
Proof.
  intros [H1 _] Hc. unfold findHeaderPairIter, field. rewrite Hc.
  destruct (m_pairs h !! key) as [v|] eqn:E.
  - destruct (H1 key v E) as [-> _]. by rewrite E.
  - destruct (m_mode h); cbn [normalizeKey].
    + unfold lowered. destruct (hasUpperAscii key); cbn [negb]; [done|by rewrite E].
    + case_bool_decide as Hn; [by rewrite Hn, E|done].
Qed.

Lemma getValuePtr_spec h key : headers_ok h -> getValuePtr key h = field h (normalizeKey (m_mode h) key).
Proof.
  intros Hok. unfold getValuePtr. rewrite common_of_lowered.
  destruct (common_of (m_mode h) (normalizeKey (m_mode h) key)) as [idx|] eqn:E.
  - unfold field, hasCommonHeader. rewrite E. case_bool_decide as Hi; [done|].
    by destruct (m_commonHeaders h !! idx); [destruct Hi|].
  - rewrite findHeaderPairIter_spec by done. by destruct (field h _).
Qed.

Lemma new_headers_represents mode : represents (new_headers mode) ∅.
Proof.
  split; [split; [|done]; intros k v; cbn; by rewrite lookup_empty|].
  intros name. unfold field. cbn. by destruct (common_of mode name); rewrite lookup_empty.
Qed.

Lemma represents_update h h' m name v :
  represents h m -> headers_ok h' -> (forall n, field h' n = if decide (n = name) then v else field h n) ->
  represents h' (match v with Some x => <[name := x]> m | None => delete name m end).
Proof.
  intros [_ Hm] Hok Hf. split; [done|]. intros n. rewrite Hf, Hm. case_decide as E.
  - subst n. by destruct v; rewrite ?lookup_insert_eq, ?lookup_delete_eq.
  - destruct v; by rewrite ?lookup_insert_ne, ?lookup_delete_ne by done.
Qed.

Lemma represents_insert h h' m name v :
  represents h m -> headers_ok h' /\ (forall n, field h' n = if decide (n = name) then Some v else field h n) ->
  represents h' (<[name := v]> m).
Proof. intros Hr [Hok Hf]. exact (represents_update h h' m name (Some v) Hr Hok Hf). Qed.

Lemma represents_delete h h' m name :
  represents h m -> headers_ok h' /\ (forall n, field h' n = if decide (n = name) then None else field h n) ->
  represents h' (delete name m).
Proof. intros Hr [Hok Hf]. exact (represents_update h h' m name None Hr Hok Hf). Qed.

Lemma setCommonHeader_spec h m idx value :
  represents h m -> m_mode h = ServerSide ->
  represents (setCommonHeader idx value h) (join_into (getCommonHeaderName idx) value m).
Proof.
  intros Hr Hm. pose proof Hr as [Hok Hf]. unfold setCommonHeader, join_into.
  rewrite <- (Hf (getCommonHeaderName idx)). unfold field at 1. rewrite Hm. cbn [common_of].
  rewrite (proj2 (matchCommonHeader_spec _ idx) eq_refl).
  destruct (m_commonHeaders h !! idx); by apply (represents_insert h), insert_common.
Qed.

Lemma op_mode op h : m_mode (run_op op h).2 = m_mode h.
Proof.
  destruct op; cbn; unfold addHeaderPair, addHeaderPairIfNotExist, addNormalizedHeaderPair, setCommonHeader,
    try_emplace, mergeNormalizedUncommonHeaderPair, removeHeaderPair, clear; repeat case_match; subst; try done.
Qed.

Lemma try_emplace_spec h m key value :
  represents h m -> normalizeKey (m_mode h) key = key -> common_of (m_mode h) key = None ->
  (try_emplace key value h).1 = (match m !! key with Some _ => kHeaderPairExist | None => kNoError end) /\
  represents (try_emplace key value h).2 (match m !! key with Some _ => m | None => <[key := value]> m end).
Proof.
  intros Hr Hn Hc. pose proof Hr as [Hok Hf]. unfold try_emplace. rewrite <- Hf. unfold field. rewrite Hc.
  destruct (m_pairs h !! key) eqn:E; (split; [done|]); [done|]. by apply (represents_insert h), insert_pair.
Qed.

Lemma removeHeaderPair_spec h m key :
  represents h m ->
  let name := normalizeKey (m_mode h) key in
  (removeHeaderPair key h).1 = (match m !! name with Some _ => kNoError | None => kHeaderPairNotExist end) /\
  represents (removeHeaderPair key h).2 (match m !! name with Some _ => delete name m | None => m end).
Proof.
  intros Hr name. pose proof Hr as [Hok Hf]. unfold removeHeaderPair. rewrite common_of_lowered, <- Hf. fold name.
  destruct (common_of (m_mode h) name) as [idx|] eqn:E.
  - assert (m_mode h = ServerSide) as Hm by (by destruct (m_mode h)). pose proof E as En.
    rewrite Hm in En. cbn [common_of] in En. apply matchCommonHeader_spec in En.
    unfold hasCommonHeader, field. rewrite E. case_bool_decide as Hi.
    + destruct (m_commonHeaders h !! idx) as [v|] eqn:Ev; [|by destruct Hi]. split; [done|].
      rewrite En. by apply (represents_delete h), delete_common.
    + destruct (m_commonHeaders h !! idx) as [v|] eqn:Ev; [by destruct Hi|].
      assert (findHeaderPairIter (m_mode h) (m_pairs h) key = None) as ->; [|by split].
      unfold findHeaderPairIter. rewrite Hm.
      destruct (m_pairs h !! key) as [v|] eqn:Ek.
      { destruct (ok_pairs h Hok key v Ek) as [Hn Hc]. fold name in Hn. congruence. }
      destruct (hasUpperAscii key) eqn:Hu; [|done]. cbn [negb].
      replace (toLowerAscii key) with name by (subst name; rewrite Hm; apply lowered_eq).
      destruct (m_pairs h !! name) as [v|] eqn:En'; [|done]. destruct (ok_pairs h Hok name v En'). congruence.
  - rewrite findHeaderPairIter_spec by done. fold name. destruct (field h name) eqn:Ef; [|by split].
    split; [done|]. by apply (represents_delete h), delete_pair.
Qed.

Lemma run_op_spec op h m :
  represents h m -> op_ok (m_mode h) op ->
  (run_op op h).1 = (spec_op (m_mode h) op m).1 /\ represents (run_op op h).2 (spec_op (m_mode h) op m).2.
Proof.
  intros Hr Ho. pose proof Hr as [Hok Hf]. pose proof (normalizeKey_idem (m_mode h)) as Hi.
  destruct op as [key value|key value|key value|idx value|key value|key|]; cbn [run_op spec_op op_ok] in *.
  - unfold addHeaderPair. specialize (Hi key). destruct (m_mode h) eqn:Hm; cbn [normalizeKey common_of fst snd] in *.
    + destruct (matchCommonHeader (lowered key)) as [idx|] eqn:E; (split; [done|]); cbn [snd].
      * pose proof E as ->%matchCommonHeader_spec. by apply setCommonHeader_spec.
      * apply (represents_insert h); [done|]. apply insert_pair; by rewrite ?Hm.
    + split; [done|]. apply (represents_insert h); [done|]. apply insert_pair; by rewrite ?Hm.
  - unfold addHeaderPairIfNotExist. specialize (Hi key).
    destruct (m_mode h) eqn:Hm; cbn [normalizeKey common_of] in *.
    + destruct (matchCommonHeader (lowered key)) as [idx|] eqn:E.
      * rewrite <- Hf. unfold field, hasCommonHeader. rewrite Hm. cbn [common_of]. rewrite E.
        case_bool_decide as Hs; destruct (m_commonHeaders h !! idx) as [v|] eqn:Ev; try (by destruct Hs).
        split; [done|]. cbn [snd].
        replace (<[lowered key := value]> m) with (join_into (lowered key) value m).
        { pose proof E as ->%matchCommonHeader_spec. by apply setCommonHeader_spec. }
        unfold join_into. rewrite <- Hf. unfold field. rewrite Hm. cbn [common_of]. by rewrite E, Ev.
      * destruct (try_emplace_spec h m (lowered key) value Hr) as [H1 H2]; [by rewrite ?Hm..|].
        by destruct (m !! lowered key); split.
    + destruct (try_emplace_spec h m (toCanonicalHeaderKey key) value Hr) as [H1 H2]; [by rewrite ?Hm..|].
      by destruct (m !! toCanonicalHeaderKey key); split.
  - unfold addNormalizedHeaderPair. destruct (common_of (m_mode h) key) as [idx|] eqn:E; (split; [done|]); cbn [snd].
    + assert (m_mode h = ServerSide) as Hm by (by destruct (m_mode h)). rewrite Hm in E. cbn [common_of] in E.
      apply matchCommonHeader_spec in E as ->. by apply (represents_insert h), insert_common.
    + by apply (represents_insert h), insert_pair.
  - split; [done|]. by apply setCommonHeader_spec.
  - split; [done|]. destruct Ho as [Hn Hc]. unfold mergeNormalizedUncommonHeaderPair, join_into. cbn [snd].
    rewrite <- Hf. unfold field. rewrite Hc. destruct (m_pairs h !! key); by apply (represents_insert h), insert_pair.
  - destruct (removeHeaderPair_spec h m key Hr) as [H1 H2]. by destruct (m !! normalizeKey (m_mode h) key); split.
  - split; [done|]. cbn [snd]. unfold clear. destruct (m_mode h) eqn:Hm.
    + apply new_headers_represents.
    + rewrite (ok_common h Hok Hm). apply new_headers_represents.
Qed.

Fixpoint run_ops (ops : list header_op) (h : HeaderPair) : list HttpErrorCode * HeaderPair :=
  match ops with
  | [] => ([], h)
  | op :: ops => let r := run_op op h in let rs := run_ops ops r.2 in (r.1 :: rs.1, rs.2)
  end.

Fixpoint spec_ops (mode : Mode) (ops : list header_op) (m : gmap bytes bytes) : list HttpErrorCode * gmap bytes bytes :=
  match ops with
  | [] => ([], m)
  | op :: ops => let r := spec_op mode op m in let rs := spec_ops mode ops r.2 in (r.1 :: rs.1, rs.2)
  end.

Lemma run_ops_spec ops h m :
  represents h m -> Forall (op_ok (m_mode h)) ops ->
  (run_ops ops h).1 = (spec_ops (m_mode h) ops m).1 /\ represents (run_ops ops h).2 (spec_ops (m_mode h) ops m).2.
Proof.
  revert h m. induction ops as [|op ops IH]; intros h m Hr Ho; [by split|]. apply Forall_cons in Ho as [Ho Hos].
  destruct (run_op_spec op h m Hr Ho) as [H1 H2]. cbn [run_ops spec_ops fst snd].
  rewrite <- (op_mode op h) in Hos. destruct (IH _ _ H2 Hos) as [H3 H4]. rewrite (op_mode op h) in H3, H4.
  split; [by rewrite H1, H3|done].
Qed.


(** ** Traversal *)

Definition fields (h : HeaderPair) : list (bytes * bytes) := common_fields h ++ entries (m_pairs h).

Lemma elem_of_common_fields h k v :
  (k, v) ∈ common_fields h <-> exists idx, k = getCommonHeaderName idx /\ m_commonHeaders h !! idx = Some v.
Proof.
  unfold common_fields. rewrite list_elem_of_omap. split.
  - intros (idx & _ & H). exists idx. destruct (m_commonHeaders h !! idx); [|done]. by injection H as -> ->.
  - intros (idx & -> & H). exists idx. rewrite H. split; [|done]. destruct idx; cbn; set_solver.
Qed.

Lemma omap_keys_sublist {A} (f : A -> bytes) (g : A -> option bytes) l :
  (omap (fun i => pair (f i) <$> g i) l).*1 `sublist_of` map f l.
Proof. induction l as [|i l IH]; cbn; [done|]. destruct (g i); cbn; by constructor. Qed.

Lemma common_names_NoDup : NoDup (map getCommonHeaderName common_headers).
Proof. apply (bool_decide_unpack _). by vm_compute. Qed.

Lemma fields_NoDup h : headers_ok h -> NoDup (fields h).*1.
Proof.
  intros [H1 H2]. unfold fields. rewrite fmap_app. apply NoDup_app. split_and!; [| |apply entries_NoDup].
  - eapply sublist_NoDup; [apply common_names_NoDup|apply omap_keys_sublist].
  - intros k (kv & -> & Hc)%list_elem_of_fmap (kv' & E & Hp)%list_elem_of_fmap.
    destruct kv as [k v], kv' as [k' v']. cbn in E. subst k'.
    apply elem_of_entries, H1 in Hp as [_ Hp]. apply elem_of_common_fields in Hc as (idx & -> & Hc).
    destruct (m_mode h) eqn:Hm; cbn [common_of] in Hp.
    + by rewrite (proj2 (matchCommonHeader_spec _ _) eq_refl) in Hp.
    + by rewrite H2, lookup_empty in Hc.
Qed.

Lemma elem_of_fields h m k v : represents h m -> (k, v) ∈ fields h <-> m !! k = Some v.
Proof.
  intros [Hok Hm]. unfold fields. rewrite elem_of_app, elem_of_entries, elem_of_common_fields, <- Hm.
  unfold field. split.
  - intros [(idx & -> & H)|H].
    + destruct (m_mode h) eqn:E; cbn [common_of]; [by rewrite (proj2 (matchCommonHeader_spec _ _) eq_refl)|].
      by rewrite (ok_common h Hok E), lookup_empty in H.
    + by rewrite (proj2 (ok_pairs h Hok k v H)).
  - destruct (common_of (m_mode h) k) as [idx|] eqn:E; [|by right].
    left. exists idx. split; [|done]. apply matchCommonHeader_spec. by destruct (m_mode h).
Qed.

Lemma list_to_map_fields h m : represents h m -> list_to_map (fields h) = m.
Proof.
  intros Hr. apply map_eq. intros k. apply option_eq. intros v.
  rewrite <- (elem_of_fields h m k v Hr). symmetry. apply elem_of_list_to_map, fields_NoDup, Hr.
Qed.

(** A well-formed container represents the map of its fields. *)
Lemma fields_represents h : headers_ok h -> represents h (list_to_map (fields h)).
Proof.
  intros Hok. split; [done|]. intros name. apply option_eq. intros v.
  rewrite <- elem_of_list_to_map by (by apply fields_NoDup).
  unfold fields. rewrite elem_of_app, elem_of_entries, elem_of_common_fields. unfold field. split.
  - destruct (common_of (m_mode h) name) as [idx|] eqn:E; [|by right].
    left. exists idx. split; [|done]. apply matchCommonHeader_spec. by destruct (m_mode h).
  - intros [(idx & -> & H)|H]; [|by rewrite (proj2 (ok_pairs _ Hok name v H))].
    destruct (m_mode h) eqn:E; cbn [common_of]; [by rewrite (proj2 (matchCommonHeader_spec _ _) eq_refl)|].
    by rewrite (ok_common _ Hok E), lookup_empty in H.
Qed.

Lemma estimated_size_exact h : estimatedSerializedSize h = blen (appendTo h []).
Proof.
  unfold estimatedSerializedSize, appendTo. fold (fields h). generalize (fields h) as l.
  assert (forall l n, foldl (fun n kv => n + blen kv.1 + blen kv.2 + 4) n l = n + blen (concat (map header_line l))) as H.
  { induction l as [|kv l IH]; intros n; cbn [foldl map concat]; [by rewrite Z.add_0_r|].
    rewrite IH, blen_app. unfold header_line. rewrite !blen_app.
    change (blen (bs ": ")) with 2. change (blen [CR; LF]) with 2. lia. }
  intros l. by rewrite H.
Qed.

(** ** Properties *)

(** The header container implements a map of names without case, whichever of its two stores a name
    goes to. On every sequence of operations each one answers as on the map; a lookup under any spelling
    of a name finds the value of its normal form; the traversal visits every field once; the announced
    size of the serialized fields is exact. *)
Theorem headers_refine_map mode ops :
  Forall (op_ok mode) ops ->
  let r := run_ops ops (new_headers mode) in
  let s := spec_ops mode ops ∅ in
  r.1 = s.1 /\ (forall key, getValuePtr key r.2 = s.2 !! normalizeKey mode key) /\
  NoDup (fields r.2).*1 /\ list_to_map (fields r.2) = s.2 /\
  estimatedSerializedSize r.2 = blen (appendTo r.2 []).
Proof.
  intros Ho. cbv zeta. destruct (run_ops_spec ops (new_headers mode) ∅) as [H1 H2];
    [apply new_headers_represents|done|]. cbn [new_headers m_mode] in *.
  assert (m_mode (run_ops ops (new_headers mode)).2 = mode) as Hm.
  { clear. assert (forall h, m_mode (run_ops ops h).2 = m_mode h) as ->; [|done].
    induction ops as [|op ops IH]; intros h; [done|]. cbn. by rewrite IH, op_mode. }
  split_and!; [done| |by apply fields_NoDup, H2|by apply list_to_map_fields|apply estimated_size_exact].
  intros key. destruct H2 as [Hok Hf]. by rewrite getValuePtr_spec, Hf, Hm.
Qed.

(** ** Witnesses and examples *)

Definition sample_ops : list header_op :=
  [Add (bs "Host") (bs "a"); Add (bs "X-Trace") (bs "1"); Add (bs "x-trace") (bs "2"); Add (bs "ACCEPT") (bs "*");
   Merge (bs "x-trace") (bs "3"); AddIfNotExist (bs "hOst") (bs "b"); Remove (bs "Accept"); Remove (bs "Accept")].

Lemma headers_refine_map_witness :
  let r := run_ops sample_ops (new_headers ServerSide) in
  let s := spec_ops ServerSide sample_ops ∅ in
  r.1 = s.1 /\ (forall key, getValuePtr key r.2 = s.2 !! normalizeKey ServerSide key) /\
  NoDup (fields r.2).*1 /\ list_to_map (fields r.2) = s.2 /\
  estimatedSerializedSize r.2 = blen (appendTo r.2 []).
Proof. apply (headers_refine_map ServerSide sample_ops). by repeat constructor. Defined.

Example sample_headers :
  let r := run_ops sample_ops (new_headers ServerSide) in
  r.1 = [kNoError; kNoError; kNoError; kNoError; kNoError; kHeaderPairExist; kNoError; kHeaderPairNotExist] /\
  toString r.2 = bs "host: a" ++ [CR; LF] ++ bs "x-trace: 2, 3" ++ [CR; LF] /\
  getValue (bs "X-TRACE") r.2 = bs "2, 3".
Proof. by vm_compute. Qed.

(** [addHeaderPair], which is said to overwrite, joins the values of a common name and overwrites those of
    the others: setting a body twice leaves two lengths. *)
Example common_value_joined :
  let r := run_ops [Add (bs "Content-Length") (bs "5"); Add (bs "Content-Length") (bs "7")] (new_headers ServerSide) in
  getValue (bs "content-length") r.2 = bs "5, 7".
Proof. by vm_compute. Qed.
