(* ===== verification/HttpUri.v ===== *)
(** * HTTP/1: request targets

    The conversions of [HttpRequestHeader] in [galay-http/protoc/http_header.cc] between a target on the
    wire and its path and query arguments: [convertFromUri], [convertToUri], [parseArgs] and the part of
    [toString] that writes a target. *)

From Stdlib Require Import ZArith Lia.
From stdpp Require Import base list gmap strings.
From S2P Require Import Prelude HttpBase.

Open Scope Z_scope.

#[local] Abbreviation PERCENT := (Byte.x25).
#[local] Abbreviation QUERY := (Byte.x3f).
#[local] Abbreviation EQUALS := (Byte.x3d).
#[local] Abbreviation AND := (Byte.x26).

(** ** Decoding *)

Definition isHex (c : byte) : option Z :=
  let z := b2z c in
  if (48 <=? z) && (z <=? 57) then Some (z - 48)
  else if (65 <=? z) && (z <=? 70) then Some (z - 65 + 10)
  else if (97 <=? z) && (z <=? 102) then Some (z - 97 + 10)
  else None.

(** The value of the digits, from [val] on. *)
Fixpoint fromHexToI (s : bytes) (val : Z) : option Z :=
  match s with
  | [] => Some val
  | c :: s => v ← isHex c; fromHexToI s (val * 16 + v)
  end.

Definition toUtf8 (code : Z) : option bytes :=
  let low n := z2b (Z.lor 0x80 (Z.land (Z.shiftr code n) 0x3F)) in
  if code <? 0x80 then Some [z2b (Z.land code 0x7F)]
  else if code <? 0x800 then Some [z2b (Z.lor 0xC0 (Z.land (Z.shiftr code 6) 0x1F)); low 0]
  else if code <? 0xD800 then Some [z2b (Z.lor 0xE0 (Z.land (Z.shiftr code 12) 0xF)); low 6; low 0]
  else if code <? 0xE000 then None
  else if code <? 0x10000 then Some [z2b (Z.lor 0xE0 (Z.land (Z.shiftr code 12) 0xF)); low 6; low 0]
  else if code <? 0x110000
  then Some [z2b (Z.lor 0xF0 (Z.land (Z.shiftr code 18) 0x7)); low 12; low 6; low 0]
  else None.

(** [None] is [m_uriDecodeError]. *)
Fixpoint convertFromUri (url : bytes) (convert_plus_to_space : bool) : option bytes :=
  match url with
  | [] => Some []
  | PERCENT :: rest =>
      match rest with
      | Byte.x75 :: a :: b :: c :: d :: url =>
          val ← fromHexToI [a; b; c; d] 0;
          utf8 ← toUtf8 val;
          app utf8 <$> convertFromUri url convert_plus_to_space
      | Byte.x75 :: _ => None
      | a :: b :: url =>
          val ← fromHexToI [a; b] 0;
          cons (z2b val) <$> convertFromUri url convert_plus_to_space
      | _ => None
      end
  | Byte.x2b :: url =>
      cons (if convert_plus_to_space then SP else Byte.x2b) <$> convertFromUri url convert_plus_to_space
  | c :: url => cons c <$> convertFromUri url convert_plus_to_space
  end.

(** ** Encoding *)

(** A digit of ["%02X"]. *)
Definition hex_digit (v : Z) : byte := z2b (if v <? 10 then 48 + v else 55 + v).

Definition escape (c : byte) : bytes := [PERCENT; hex_digit (b2z c / 16); hex_digit (b2z c mod 16)].

Definition encode_char (c : byte) : bytes :=
  match c with
  | SP => bs "%20" | Byte.x2b => bs "%2B" | CR => bs "%0D" | LF => bs "%0A" | Byte.x27 => bs "%27"
  | Byte.x2c => bs "%2C" | Byte.x3b => bs "%3B"
  | _ => if 0x80 <=? b2z c then escape c else [c]
  end.

Definition convertToUri (url : bytes) : bytes := concat (map encode_char url).

(** ** Arguments *)

(** What is before and behind the first question mark. *)
Fixpoint find_query (uri : bytes) : option (bytes * bytes) :=
  match uri with
  | [] => None
  | c :: uri =>
      if bool_decide (c = QUERY) then Some ([], uri)
      else match find_query uri with Some (path, args) => Some (c :: path, args) | None => None end
  end.

Fixpoint args_loop (args : bytes) (status : bool) (key value : bytes) (m_argList : gmap bytes bytes) :
    gmap bytes bytes :=
  match args with
  | [] => m_argList
  | c :: args =>
      if negb status then
        if bool_decide (c = EQUALS) then args_loop args true key value m_argList
        else args_loop args false (key ++ [c]) value m_argList
      else if bool_decide (c = AND) then args_loop args false [] [] (<[key := value]> m_argList)
      else
        let value := value ++ [c] in
        args_loop args true key value
          (match args with [] => <[key := value]> m_argList | _ => m_argList end)
  end.

(** [m_uri] and [m_argList] after the call. *)
Definition parseArgs (uri m_uri : bytes) (m_argList : gmap bytes bytes) : bytes * gmap bytes bytes :=
  match find_query uri with
  | None => (m_uri, m_argList)
  | Some (path, args) => (path, args_loop args false [] [] m_argList)
  end.

(** [k=v&k=v] *)
Fixpoint query_text (args : list (bytes * bytes)) : bytes :=
  match args with
  | [] => []
  | (k, v) :: args => k ++ [EQUALS] ++ v ++ match args with [] => [] | _ => AND :: query_text args end
  end.

Definition target_text (m_uri : bytes) (m_argList : gmap bytes bytes) : bytes :=
  m_uri ++ (if bool_decide (m_argList = ∅) then [] else QUERY :: query_text (entries m_argList)).

(** ** Lemmas *)

Lemma convertFromUri_escape c url plus :
  convertFromUri (escape c ++ url) plus = cons c <$> convertFromUri url plus.
Proof. by destruct c. Qed.

Lemma convertFromUri_encode_char c url plus :
  c <> PERCENT -> convertFromUri (encode_char c ++ url) plus = cons c <$> convertFromUri url plus.
Proof. intros Hc. by destruct c. Qed.

Lemma convertToUri_cons c url : convertToUri (c :: url) = encode_char c ++ convertToUri url.
Proof. done. Qed.

Lemma convertFromUri_convertToUri url plus : PERCENT ∉ url -> convertFromUri (convertToUri url) plus = Some url.
Proof.
  induction url as [|c url IH]; [done|]. intros [Hc Hu]%not_elem_of_cons.
  by rewrite convertToUri_cons, convertFromUri_encode_char, IH by done.
Qed.

(** What the encoder writes can stand in a request line. *)
Lemma convertToUri_line url : Forall (fun c => c <> SP /\ c <> CR /\ c <> LF) (convertToUri url).
Proof.
  induction url as [|c url IH]; [done|]. rewrite convertToUri_cons. apply Forall_app. split; [|done].
  destruct c; by repeat constructor.
Qed.

Lemma convertToUri_nonempty url : url <> [] -> convertToUri url <> [].
Proof. destruct url as [|c url]; [done|]. rewrite convertToUri_cons. by destruct c. Qed.

Lemma find_query_app path args : QUERY ∉ path -> find_query (path ++ QUERY :: args) = Some (path, args).
Proof.
  induction path as [|c path IH]; intros Hp; cbn [app find_query]; [done|].
  apply not_elem_of_cons in Hp as [Hc Hp]. rewrite bool_decide_eq_false_2 by done. by rewrite IH.
Qed.

Lemma find_query_none path : QUERY ∉ path -> find_query path = None.
Proof.
  induction path as [|c path IH]; intros Hp; cbn [find_query]; [done|].
  apply not_elem_of_cons in Hp as [Hc Hp]. rewrite bool_decide_eq_false_2 by done. by rewrite IH.
Qed.

Lemma args_loop_key k rest key m :
  EQUALS ∉ k -> args_loop (k ++ EQUALS :: rest) false key [] m = args_loop rest true (key ++ k) [] m.
Proof.
  revert key. induction k as [|c k IH]; intros key Hk; cbn [app args_loop negb]; [by rewrite app_nil_r|].
  apply not_elem_of_cons in Hk as [Hc Hk]. rewrite bool_decide_eq_false_2 by done.
  by rewrite IH, <- app_assoc.
Qed.

Lemma args_loop_value v rest key value m :
  AND ∉ v ->
  args_loop (v ++ AND :: rest) true key value m = args_loop rest false [] [] (<[key := value ++ v]> m).
Proof.
  revert value m. induction v as [|c v IH]; intros value m Hv; cbn [app args_loop negb]; [by rewrite app_nil_r|].
  apply not_elem_of_cons in Hv as [Hc Hv]. rewrite bool_decide_eq_false_2 by done.
  rewrite IH, <- app_assoc by done. by destruct v.
Qed.

Lemma args_loop_last v key value m :
  AND ∉ v -> v <> [] -> args_loop v true key value m = <[key := value ++ v]> m.
Proof.
  revert value. induction v as [|c v IH]; intros value Hv Hne; [done|]. cbn [args_loop negb].
  apply not_elem_of_cons in Hv as [Hc Hv]. rewrite bool_decide_eq_false_2 by done.
  destruct v as [|c' v]; [done|]. by rewrite IH, <- app_assoc.
Qed.

(** Arguments that can be written and read back: the syntax has no quotes, and the last value counts only
    when it is not empty. *)
Fixpoint args_ok (args : list (bytes * bytes)) : Prop :=
  match args with
  | [] => True
  | (k, v) :: args => (EQUALS ∉ k) /\ (AND ∉ v) /\ match args with [] => v <> [] | _ => args_ok args end
  end.

Lemma args_loop_query args m :
  args_ok args -> args_loop (query_text args) false [] [] m = foldl (fun m kv => <[kv.1 := kv.2]> m) m args.
Proof.
  revert m. induction args as [|[k v] args IH]; intros m Hok; [done|].
  destruct Hok as (Hk & Hv & Hrest). cbn [query_text foldl fst snd].
  change (k ++ [EQUALS] ++ ?x) with (k ++ EQUALS :: x). rewrite args_loop_key by done. cbn [app].
  destruct args as [|kv args].
  - rewrite app_nil_r. by apply args_loop_last.
  - rewrite args_loop_value by done. by apply IH.
Qed.

Lemma foldl_insert_list_to_map (l : list (bytes * bytes)) :
  NoDup l.*1 -> foldl (fun m kv => <[kv.1 := kv.2]> m) (∅ : gmap bytes bytes) l = list_to_map l.
Proof.
  intros Hl. rewrite <- (list_to_map_proper (rev l) l).
  - generalize l. intros l'. induction l' as [|kv l' IH] using rev_ind; [done|].
    rewrite foldl_app, rev_app_distr. cbn. by rewrite IH.
  - rewrite <- Permutation_rev. done.
  - by rewrite <- Permutation_rev.
Qed.

(** A path and arguments that survive the trip. *)
Record target_ok (uri : bytes) (args : gmap bytes bytes) : Prop := mkTargetOk {
  t_nonempty : uri <> [];
  t_path : QUERY ∉ uri;
  t_args : args_ok (entries args);
  t_percent : PERCENT ∉ target_text uri args
}.

Lemma parseArgs_target uri args :
  target_ok uri args ->
  parseArgs (target_text uri args) [] ∅ = (if bool_decide (args = ∅) then [] else uri, args).
Proof.
  intros [H1 H2 H3 _]. unfold target_text, parseArgs. case_bool_decide as E.
  - subst args. by rewrite app_nil_r, find_query_none.
  - rewrite find_query_app by done. f_equal.
    by rewrite args_loop_query, foldl_insert_list_to_map, entries_list_to_map by (done || apply entries_NoDup).
Qed.

(** ** Examples *)

Definition decoded_args (url : bytes) : option (bytes * list (bytes * bytes)) :=
  uri ← convertFromUri url false; let r := parseArgs uri [] ∅ in Some (r.1, entries r.2).

Example sample_target :
  decoded_args (bs "/caf%C3%A9?b=2&a=%u00e9%20x") =
    Some (bs "/caf" ++ [z2b 0xC3; z2b 0xA9], [(bs "a", [z2b 0xC3; z2b 0xA9; z2b 0x20; z2b 0x78]); (bs "b", bs "2")]).
Proof. by vm_compute. Qed.

(** The target is decoded before it is split: an escaped separator inside a value separates. *)
Example escaped_separator_splits :
  decoded_args (bs "/p?a=x%26b=y") = Some (bs "/p", [(bs "a", bs "x"); (bs "b", bs "y")]).
Proof. by vm_compute. Qed.

(** An empty value is kept in the middle and lost at the end; so is a name without a value. *)
Example last_empty_value_lost :
  decoded_args (bs "/p?a=&b=") = Some (bs "/p", [(bs "a", [])]) /\ decoded_args (bs "/p?flag") = Some (bs "/p", []).
Proof. by vm_compute. Qed.

(** A percent sign is not escaped: what is written reads back as something else, or not at all. *)
Example percent_not_escaped :
  convertFromUri (convertToUri (bs "/%41")) false = Some (bs "/A") /\
  convertFromUri (convertToUri (bs "/100%")) false = None.
Proof. by vm_compute. Qed.
