(* ===== verification/HttpRequestHeader.v ===== *)
(** * HTTP/1: request headers

    [HttpRequestHeader] of [galay-http/protoc/http_header.{h,cc}]: the parser octet by octet, the parser
    over buffers, and the serializer. [m_parsedBytes], which nothing reads, is left out, as are [reserve]
    calls. *)

From Stdlib Require Import ZArith Lia.
From stdpp Require Import base list gmap strings.
From S2P Require Import Prelude Charconv HttpBase HttpHeaders HttpUri.

Open Scope Z_scope.

#[local] Abbreviation COLON := (Byte.x3a).

Module RequestParseState.
Inductive State : Type :=
| Method | MethodSP | Uri | UriSP | Version | VersionCR | VersionLF | HeaderKey | HeaderColon
| HeaderSpace | HeaderValue | HeaderCR | HeaderLF | HeaderEndCR | Done.

#[export] Instance State_eq_dec : EqDecision State.
Proof. solve_decision. Defined.
End RequestParseState.
Import RequestParseState.

Record HttpRequestHeader : Type := mkRequestHeader {
  m_uri : bytes;
  m_argList : gmap bytes bytes;
  m_headerPairs : HeaderPair;
  m_parseMethodStr : bytes;
  m_parseUriStr : bytes;
  m_parseVersionStr : bytes;
  m_parseHeaderKey : bytes;
  m_parseHeaderValue : bytes;
  m_maxHeaderCount : Z;
  m_maxHeaderLineSize : Z;
  m_maxUriSize : Z;
  m_headerCount : Z;
  m_hasContentLength : bool;
  m_contentLengthValue : Z;
  m_method : HttpMethod;
  m_version : HttpVersion;
  m_parseState : State;
  m_currentCommonHeaderIdx : option CommonHeaderIndex;
  m_uriDecodeError : bool
}.

(** The members, and [setParseLimits]. *)
Definition new_request_header (mode : Mode) (max_header_count max_header_line_size max_uri_size : Z) :
    HttpRequestHeader :=
  mkRequestHeader [] ∅ (new_headers mode) [] [] [] [] [] max_header_count max_header_line_size max_uri_size
    0 false 0 GET HttpVersion_1_1 Method None false.

Definition setParseLimits (max_header_count max_header_line_size max_uri_size : Z) (h : HttpRequestHeader) :
    HttpRequestHeader :=
  mkRequestHeader (m_uri h) (m_argList h) (m_headerPairs h) (m_parseMethodStr h) (m_parseUriStr h)
    (m_parseVersionStr h) (m_parseHeaderKey h) (m_parseHeaderValue h) max_header_count max_header_line_size
    max_uri_size (m_headerCount h) (m_hasContentLength h) (m_contentLengthValue h) (m_method h) (m_version h)
    (m_parseState h) (m_currentCommonHeaderIdx h) (m_uriDecodeError h).

Definition set_state (s : State) (h : HttpRequestHeader) : HttpRequestHeader :=
  mkRequestHeader (m_uri h) (m_argList h) (m_headerPairs h) (m_parseMethodStr h) (m_parseUriStr h)
    (m_parseVersionStr h) (m_parseHeaderKey h) (m_parseHeaderValue h) (m_maxHeaderCount h)
    (m_maxHeaderLineSize h) (m_maxUriSize h) (m_headerCount h) (m_hasContentLength h)
    (m_contentLengthValue h) (m_method h) (m_version h) s (m_currentCommonHeaderIdx h) (m_uriDecodeError h).

(** The texts collected for the request line. *)
Definition set_line_texts (method uri version : bytes) (h : HttpRequestHeader) : HttpRequestHeader :=
  mkRequestHeader (m_uri h) (m_argList h) (m_headerPairs h) method uri version (m_parseHeaderKey h)
    (m_parseHeaderValue h) (m_maxHeaderCount h) (m_maxHeaderLineSize h) (m_maxUriSize h) (m_headerCount h)
    (m_hasContentLength h) (m_contentLengthValue h) (m_method h) (m_version h) (m_parseState h)
    (m_currentCommonHeaderIdx h) (m_uriDecodeError h).
Definition add_method (d : bytes) (h : HttpRequestHeader) :=
  set_line_texts (m_parseMethodStr h ++ d) (m_parseUriStr h) (m_parseVersionStr h) h.
Definition add_uri (d : bytes) (h : HttpRequestHeader) :=
  set_line_texts (m_parseMethodStr h) (m_parseUriStr h ++ d) (m_parseVersionStr h) h.
Definition add_version (d : bytes) (h : HttpRequestHeader) :=
  set_line_texts (m_parseMethodStr h) (m_parseUriStr h) (m_parseVersionStr h ++ d) h.

(** The texts collected for a field. *)
Definition set_field (key value : bytes) (idx : option CommonHeaderIndex) (h : HttpRequestHeader) :
    HttpRequestHeader :=
  mkRequestHeader (m_uri h) (m_argList h) (m_headerPairs h) (m_parseMethodStr h) (m_parseUriStr h)
    (m_parseVersionStr h) key value (m_maxHeaderCount h) (m_maxHeaderLineSize h) (m_maxUriSize h)
    (m_headerCount h) (m_hasContentLength h) (m_contentLengthValue h) (m_method h) (m_version h)
    (m_parseState h) idx (m_uriDecodeError h).
Definition add_key (d : bytes) (h : HttpRequestHeader) :=
  set_field (m_parseHeaderKey h ++ d) (m_parseHeaderValue h) (m_currentCommonHeaderIdx h) h.
Definition add_value (d : bytes) (h : HttpRequestHeader) :=
  set_field (m_parseHeaderKey h) (m_parseHeaderValue h ++ d) (m_currentCommonHeaderIdx h) h.

(** What the request line was parsed into. *)
Definition set_request (method : HttpMethod) (version : HttpVersion) (uri : bytes) (args : gmap bytes bytes)
    (decode_error : bool) (h : HttpRequestHeader) : HttpRequestHeader :=
  mkRequestHeader uri args (m_headerPairs h) (m_parseMethodStr h) (m_parseUriStr h) (m_parseVersionStr h)
    (m_parseHeaderKey h) (m_parseHeaderValue h) (m_maxHeaderCount h) (m_maxHeaderLineSize h)
    (m_maxUriSize h) (m_headerCount h) (m_hasContentLength h) (m_contentLengthValue h) method version
    (m_parseState h) (m_currentCommonHeaderIdx h) decode_error.

(** The fields committed so far. *)
Definition set_fields (pairs : HeaderPair) (count : Z) (has_length : bool) (length : Z) (h : HttpRequestHeader) :
    HttpRequestHeader :=
  mkRequestHeader (m_uri h) (m_argList h) pairs (m_parseMethodStr h) (m_parseUriStr h)
    (m_parseVersionStr h) (m_parseHeaderKey h) (m_parseHeaderValue h) (m_maxHeaderCount h)
    (m_maxHeaderLineSize h) (m_maxUriSize h) count has_length length (m_method h) (m_version h)
    (m_parseState h) (m_currentCommonHeaderIdx h) (m_uriDecodeError h).

(** ** Steps shared by the two parsers *)

Definition exceeds (max size : Z) : bool := negb (max =? 0) && (max <? size).

Definition commitParsedHeaderPair (h : HttpRequestHeader) : HttpErrorCode * HttpRequestHeader :=
  let key := m_parseHeaderKey h in
  let value := m_parseHeaderValue h in
  if exceeds (m_maxHeaderLineSize h) (blen key + 2 + blen value) then (kHeaderTooLarge, h)
  else
    let count := m_headerCount h + 1 in
    if exceeds (m_maxHeaderCount h) count
    then (kHeaderTooLarge, set_fields (m_headerPairs h) count (m_hasContentLength h) (m_contentLengthValue h) h)
    else
      let content_length :=
        if bool_decide (key = bs "content-length") then
          match parseSizeTStrict value with
          | None => None
          | Some parsed =>
              if m_hasContentLength h && negb (m_contentLengthValue h =? parsed) then None
              else Some (true, parsed)
          end
        else Some (m_hasContentLength h, m_contentLengthValue h) in
      match content_length with
      | None => (kBadRequest, set_fields (m_headerPairs h) count (m_hasContentLength h) (m_contentLengthValue h) h)
      | Some (has_length, length) =>
          let pairs :=
            match m_mode (m_headerPairs h) with
            | ServerSide =>
                match m_currentCommonHeaderIdx h with
                | Some idx => setCommonHeader idx value (m_headerPairs h)
                | None => mergeNormalizedUncommonHeaderPair key value (m_headerPairs h)
                end
            | ClientSide => (addHeaderPair key value (m_headerPairs h)).2
            end in
          (kNoError, set_field [] [] None (set_fields pairs count has_length length h))
      end.

(** The end of the target. *)
Definition end_uri (h : HttpRequestHeader) : HttpErrorCode * HttpRequestHeader :=
  match convertFromUri (m_parseUriStr h) false with
  | None => (kUriEncodeError, set_request (m_method h) (m_version h) (m_uri h) (m_argList h) true h)
  | Some full_uri =>
      let '(uri, args) := parseArgs full_uri (m_uri h) (m_argList h) in
      (kNoError,
       set_state UriSP (set_request (m_method h) (m_version h)
         (if bool_decide (uri = []) then full_uri else uri) args false h))
  end.

(** The end of the version: only HTTP/1.0 and HTTP/1.1 are served. *)
Definition end_version (h : HttpRequestHeader) : HttpErrorCode * HttpRequestHeader :=
  let version := stringToHttpVersion (m_parseVersionStr h) in
  let h := set_request (m_method h) version (m_uri h) (m_argList h) (m_uriDecodeError h) h in
  match version with
  | HttpVersion_1_0 | HttpVersion_1_1 => (kNoError, set_state VersionCR h)
  | _ => (kVersionNotSupport, h)
  end.

(** The colon. *)
Definition end_key (h : HttpRequestHeader) : HttpErrorCode * HttpRequestHeader :=
  if 256 <? blen (m_parseHeaderKey h) then (kBadRequest, h)
  else
    (kNoError,
     set_state HeaderColon (set_field (m_parseHeaderKey h) (m_parseHeaderValue h)
       (match m_mode (m_headerPairs h) with
        | ServerSide => matchCommonHeader (m_parseHeaderKey h)
        | ClientSide => m_currentCommonHeaderIdx h
        end) h)).

(** The carriage return behind a value. *)
Definition end_value (h : HttpRequestHeader) : HttpErrorCode * HttpRequestHeader :=
  match commitParsedHeaderPair h with
  | (kNoError, h) => (kNoError, set_state HeaderCR h)
  | failed => failed
  end.

Definition normalized (d : bytes) (h : HttpRequestHeader) : bytes :=
  map (fun c => normalizeHeaderKeyChar c (m_mode (m_headerPairs h))) d.

Definition is_line_end (c : byte) : bool := bool_decide (c = CR) || bool_decide (c = LF).

(** ** Octet by octet *)

(** [parseChar]. [bounded] is the check of the length of a name at every octet, which the parser over
    buffers makes at the colon only; the code is [parse_char true]. [kIncomplete] is the end of the header. *)
Definition parse_char (bounded : bool) (c : byte) (h : HttpRequestHeader) : HttpErrorCode * HttpRequestHeader :=
  match m_parseState h with
  | Method =>
      if bool_decide (c = SP)
      then (kNoError, set_state MethodSP
              (set_request (stringToHttpMethod (m_parseMethodStr h)) (m_version h) (m_uri h) (m_argList h)
                 (m_uriDecodeError h) h))
      else if is_line_end c then (kBadRequest, h)
      else (kNoError, add_method [c] h)
  | MethodSP =>
      if bool_decide (c = SP) then (kNoError, h)
      else if is_line_end c then (kBadRequest, h)
      else
        let h := add_uri [c] h in
        if exceeds (m_maxUriSize h) (blen (m_parseUriStr h)) then (kUriTooLong, h)
        else (kNoError, set_state Uri h)
  | Uri =>
      if bool_decide (c = SP) then end_uri h
      else if is_line_end c then (kBadRequest, h)
      else
        let h := add_uri [c] h in
        if exceeds (m_maxUriSize h) (blen (m_parseUriStr h)) then (kUriTooLong, h) else (kNoError, h)
  | UriSP =>
      if bool_decide (c = SP) then (kNoError, h)
      else if is_line_end c then (kBadRequest, h)
      else (kNoError, set_state Version (add_version [c] h))
  | Version =>
      if bool_decide (c = CR) then end_version h
      else if bool_decide (c = LF) then (kBadRequest, h)
      else (kNoError, add_version [c] h)
  | VersionCR => if bool_decide (c = LF) then (kNoError, set_state VersionLF h) else (kBadRequest, h)
  | VersionLF =>
      if bool_decide (c = CR) then (kNoError, set_state HeaderEndCR h)
      else if bool_decide (c = LF) then (kBadRequest, h)
      else (kNoError, set_state HeaderKey (add_key (normalized [c] h) h))
  | HeaderKey =>
      if bool_decide (c = COLON) then end_key h
      else if is_line_end c then (kBadRequest, h)
      else if bounded && (256 <=? blen (m_parseHeaderKey h)) then (kBadRequest, h)
      else (kNoError, add_key (normalized [c] h) h)
  | HeaderColon =>
      if bool_decide (c = SP) then (kNoError, set_state HeaderSpace h)
      else if bool_decide (c = CR) then end_value h
      else (kNoError, set_state HeaderValue (add_value [c] h))
  | HeaderSpace =>
      if bool_decide (c = SP) then (kNoError, h)
      else if bool_decide (c = CR) then end_value h
      else (kNoError, set_state HeaderValue (add_value [c] h))
  | HeaderValue => if bool_decide (c = CR) then end_value h else (kNoError, add_value [c] h)
  | HeaderCR => if bool_decide (c = LF) then (kNoError, set_state HeaderLF h) else (kBadRequest, h)
  | HeaderLF =>
      if bool_decide (c = CR) then (kNoError, set_state HeaderEndCR h)
      else (kNoError, set_state HeaderKey (add_key (normalized [c] h) h))
  | HeaderEndCR => if bool_decide (c = LF) then (kIncomplete, set_state Done h) else (kBadRequest, h)
  | Done => (kIncomplete, h)
  end.

Definition parseChar : byte -> HttpRequestHeader -> HttpErrorCode * HttpRequestHeader := parse_char true.

(** How a parse ends: in need of more, with the header and the octets it took, or with an error. *)
Inductive parse_result : Type :=
| Unfinished (h : HttpRequestHeader)
| Finished (h : HttpRequestHeader) (consumed : Z)
| Broken (e : HttpErrorCode) (h : HttpRequestHeader).

Fixpoint parse_chars (bounded : bool) (d : bytes) (consumed : Z) (h : HttpRequestHeader) : parse_result :=
  match d with
  | [] => Unfinished h
  | c :: d =>
      match parse_char bounded c h with
      | (kNoError, h) => parse_chars bounded d (consumed + 1) h
      | (kIncomplete, h) => Finished h (consumed + 1)
      | (e, h) => Broken e h
      end
  end.

(** The pair the code returns, and the header it leaves. *)
Definition fromString (str : bytes) (h : HttpRequestHeader) : (HttpErrorCode * Z) * HttpRequestHeader :=
  if bool_decide (m_parseState h = Done) then ((kNoError, 0), h)
  else
    match parse_chars true str 0 h with
    | Unfinished h => ((kNoError, 0), h)
    | Finished h consumed => ((kNoError, consumed), h)
    | Broken e h => ((e, -1), h)
    end.

(** ** Over buffers *)

(** [while (i < len && p(data[i])) ++i]: the octets passed, and what is left. *)
Fixpoint span (p : byte -> bool) (d : bytes) : bytes * bytes :=
  match d with
  | [] => ([], [])
  | c :: d' => if p c then let r := span p d' in (c :: r.1, r.2) else ([], d)
  end.

Inductive turn_result : Type :=
| Next (h : HttpRequestHeader) (rest : bytes)
| Complete (h : HttpRequestHeader) (rest : bytes)
| Error (e : HttpErrorCode) (h : HttpRequestHeader).

(** What follows a step that may fail. *)
Definition go (r : HttpErrorCode * HttpRequestHeader) (rest : bytes) : turn_result :=
  match r with (kNoError, h) => Next h rest | (e, h) => Error e h end.

(** One turn of the loop over a buffer: the switch on the state, on what is left of the buffer. First the
    states of the fields. *)
Definition turn_field (h : HttpRequestHeader) (d : bytes) : turn_result :=
  match m_parseState h with
  | VersionLF =>
      match d with
      | [] => Next h []
      | c :: rest =>
          if bool_decide (c = CR) then Next (set_state HeaderEndCR h) rest
          else if bool_decide (c = LF) then Error kBadRequest h
          else Next (set_state HeaderKey (add_key (normalized [c] h) h)) rest
      end
  | HeaderKey =>
      let '(text, rest) := span (fun c => negb (bool_decide (c = COLON) || is_line_end c)) d in
      let h := add_key (normalized text h) h in
      match rest with
      | [] => Next h []
      | c :: rest => if negb (bool_decide (c = COLON)) then Error kBadRequest h else go (end_key h) rest
      end
  | HeaderColon =>
      match d with
      | [] => Next h []
      | c :: rest =>
          if bool_decide (c = SP) then Next (set_state HeaderSpace h) rest
          else if bool_decide (c = CR) then go (end_value h) rest
          else Next (set_state HeaderValue (add_value [c] h)) rest
      end
  | HeaderSpace =>
      match (span (fun c => bool_decide (c = SP)) d).2 with
      | [] => Next h []
      | c :: rest =>
          if bool_decide (c = CR) then go (end_value h) rest
          else Next (set_state HeaderValue (add_value [c] h)) rest
      end
  | HeaderValue =>
      let '(text, rest) := span (fun c => negb (bool_decide (c = CR))) d in
      let h := add_value text h in
      match rest with [] => Next h [] | _ :: rest => go (end_value h) rest end
  | HeaderCR =>
      match d with
      | [] => Next h []
      | c :: rest => if negb (bool_decide (c = LF)) then Error kBadRequest h else Next (set_state HeaderLF h) rest
      end
  | HeaderLF =>
      match d with
      | [] => Next h []
      | c :: rest =>
          if bool_decide (c = CR) then Next (set_state HeaderEndCR h) rest
          else Next (set_state HeaderKey (add_key (normalized [c] h) h)) rest
      end
  | HeaderEndCR =>
      match d with
      | [] => Next h []
      | c :: rest => if negb (bool_decide (c = LF)) then Error kBadRequest h else Complete (set_state Done h) rest
      end
  | _ => Complete h d
  end.

Definition turn (h : HttpRequestHeader) (d : bytes) : turn_result :=
  match m_parseState h with
  | Method =>
      let '(text, rest) := span (fun c => negb (bool_decide (c = SP) || is_line_end c)) d in
      let h := add_method text h in
      match rest with
      | [] => Next h []
      | c :: rest =>
          if negb (bool_decide (c = SP)) then Error kBadRequest h
          else Next (set_state MethodSP (set_request (stringToHttpMethod (m_parseMethodStr h)) (m_version h)
                       (m_uri h) (m_argList h) (m_uriDecodeError h) h)) rest
      end
  | MethodSP =>
      match (span (fun c => bool_decide (c = SP)) d).2 with
      | [] => Next h []
      | c :: rest =>
          if is_line_end c then Error kBadRequest h
          else
            let h := add_uri [c] h in
            if exceeds (m_maxUriSize h) (blen (m_parseUriStr h)) then Error kUriTooLong h
            else Next (set_state Uri h) rest
      end
  | Uri =>
      let '(text, rest) := span (fun c => negb (bool_decide (c = SP) || is_line_end c)) d in
      let h := add_uri text h in
      if negb (bool_decide (text = [])) && exceeds (m_maxUriSize h) (blen (m_parseUriStr h)) then Error kUriTooLong h
      else
        match rest with
        | [] => Next h []
        | c :: rest => if negb (bool_decide (c = SP)) then Error kBadRequest h else go (end_uri h) rest
        end
  | UriSP =>
      match (span (fun c => bool_decide (c = SP)) d).2 with
      | [] => Next h []
      | c :: rest =>
          if is_line_end c then Error kBadRequest h else Next (set_state Version (add_version [c] h)) rest
      end
  | Version =>
      let '(text, rest) := span (fun c => negb (is_line_end c)) d in
      let h := add_version text h in
      match rest with
      | [] => Next h []
      | c :: rest => if bool_decide (c = LF) then Error kBadRequest h else go (end_version h) rest
      end
  | VersionCR =>
      match d with
      | [] => Next h []
      | c :: rest => if negb (bool_decide (c = LF)) then Error kBadRequest h else Next (set_state VersionLF h) rest
      end
  | _ => turn_field h d
  end.

(** [while (i < len)]; every turn takes an octet, so the length of the buffer is fuel enough. *)
Fixpoint iov_loop (fuel : nat) (h : HttpRequestHeader) (d : bytes) : option turn_result :=
  match d with
  | [] => Some (Next h [])
  | _ =>
      match fuel with
      | O => None
      | S fuel => match turn h d with Next h rest => iov_loop fuel h rest | r => Some r end
      end
  end.

Fixpoint iovecs_loop (iovecs : list bytes) (total_consumed : Z) (h : HttpRequestHeader) : option parse_result :=
  match iovecs with
  | [] => Some (Unfinished h)
  | iov :: iovecs =>
      match iov_loop (length iov) h iov with
      | None => None
      | Some (Next h _) => iovecs_loop iovecs (total_consumed + blen iov) h
      | Some (Complete h rest) => Some (Finished h (total_consumed + (blen iov - blen rest)))
      | Some (Error e h) => Some (Broken e h)
      end
  end.

Definition fromIOVec (iovecs : list bytes) (h : HttpRequestHeader) :
    option ((HttpErrorCode * Z) * HttpRequestHeader) :=
  if bool_decide (m_parseState h = Done) then Some ((kNoError, 0), h)
  else
    match iovecs_loop iovecs 0 h with
    | None => None
    | Some (Unfinished h) => Some ((kIncomplete, blen (concat iovecs)), h)
    | Some (Finished h consumed) => Some ((kNoError, consumed), h)
    | Some (Broken e h) => Some ((e, -1), h)
    end.

(** ** Writing *)

Definition toString (h : HttpRequestHeader) : bytes :=
  httpMethodToString (m_method h) ++ [SP] ++ convertToUri (target_text (m_uri h) (m_argList h)) ++ [SP] ++
  httpVersionToString (m_version h) ++ [CR; LF] ++ appendTo (m_headerPairs h) [] ++ [CR; LF].

Definition isKeepAlive (h : HttpRequestHeader) : bool :=
  match getValuePtr (bs "connection") (m_headerPairs h) with
  | None | Some [] => bool_decide (m_version h = HttpVersion_1_1)
  | Some conn =>
      if headerValueContainsToken conn (bs "close") then false
      else if headerValueContainsToken conn (bs "keep-alive") then true
      else bool_decide (m_version h = HttpVersion_1_1)
  end.

Definition isChunked (h : HttpRequestHeader) : bool :=
  match getValuePtr (bs "transfer-encoding") (m_headerPairs h) with
  | Some te => headerValueContainsToken te (bs "chunked")
  | None => false
  end.

Definition isConnectionClose (h : HttpRequestHeader) : bool :=
  match getValuePtr (bs "connection") (m_headerPairs h) with
  | Some conn => headerValueContainsToken conn (bs "close")
  | None => false
  end.

Definition isHeaderComplete (h : HttpRequestHeader) : bool := bool_decide (m_parseState h = Done).

Definition reset (h : HttpRequestHeader) : HttpRequestHeader :=
  mkRequestHeader [] ∅ (clear (m_headerPairs h)) [] [] [] [] [] (m_maxHeaderCount h) (m_maxHeaderLineSize h)
    (m_maxUriSize h) 0 false 0 UNKNOWN HttpVersion_Unknown Method None false.

(** ** The two parsers agree *)

Lemma span_eq p d : d = (span p d).1 ++ (span p d).2.
Proof. induction d as [|c d IH]; [done|]. cbn [span]. destruct (p c); [|done]. cbn. by rewrite <- IH. Qed.

Lemma span_text p d : Forall (fun c => p c = true) (span p d).1.
Proof. induction d as [|c d IH]; [done|]. cbn [span]. destruct (p c) eqn:E; [by constructor|done]. Qed.

Lemma span_rest p d c rest : (span p d).2 = c :: rest -> p c = false.
Proof.
  induction d as [|x d IH]; [done|]. cbn [span]. destruct (p x) eqn:E; [exact IH|]. by intros [= <- <-].
Qed.

Lemma parse_chars_app b d1 d2 n h :
  parse_chars b (d1 ++ d2) n h =
    match parse_chars b d1 n h with
    | Unfinished h => parse_chars b d2 (n + blen d1) h
    | r => r
    end.
Proof.
  revert n h. induction d1 as [|c d1 IH]; intros n h; cbn [app parse_chars]; [by rewrite Z.add_0_r|].
  rewrite blen_cons. destruct (parse_char b c h) as [[] h']; try done. rewrite IH.
  by replace (n + 1 + blen d1) with (n + (1 + blen d1)) by lia.
Qed.

Lemma parse_chars_cons b c d n h h' :
  parse_char b c h = (kNoError, h') -> parse_chars b (c :: d) n h = parse_chars b d (n + 1) h'.
Proof. intros H. cbn [parse_chars]. by rewrite H. Qed.

Lemma parse_chars_shift b d n k h :
  parse_chars b d (n + k) h =
    match parse_chars b d n h with Finished h m => Finished h (m + k) | r => r end.
Proof.
  revert n h. induction d as [|c d IH]; intros n h; [done|]. cbn [parse_chars].
  destruct (parse_char b c h) as [[] h']; try done.
  - replace (n + k + 1) with (n + 1 + k) by lia. apply IH.
  - f_equal. lia.
Qed.

(** A run of octets that are only collected. *)
Lemma parse_chars_run b p (add : bytes -> HttpRequestHeader -> HttpRequestHeader) (P : HttpRequestHeader -> Prop)
    text rest n h :
  (forall c h, P h -> p c = true -> parse_char b c h = (kNoError, add [c] h) /\ P (add [c] h)) ->
  (forall h, add [] h = h) -> (forall d d' h, add d' (add d h) = add (d ++ d') h) ->
  P h -> Forall (fun c => p c = true) text ->
  parse_chars b (text ++ rest) n h = parse_chars b rest (n + blen text) (add text h).
Proof.
  intros Hstep Hnil Happ. revert n h. induction text as [|c text IH]; intros n h HP Ht.
  - by rewrite Hnil, (@blen_nil byte), Z.add_0_r.
  - apply Forall_cons in Ht as [Hc Ht]. destruct (Hstep c h HP Hc) as [Hp HP'].
    cbn [app]. rewrite (parse_chars_cons _ _ _ _ _ _ Hp), IH by done.
    rewrite Happ, blen_cons. cbn [app]. f_equal. lia.
Qed.

Lemma adds_compose d d' h :
  add_method d' (add_method d h) = add_method (d ++ d') h /\ add_uri d' (add_uri d h) = add_uri (d ++ d') h /\
  add_version d' (add_version d h) = add_version (d ++ d') h /\
  add_key (normalized d' h) (add_key (normalized d h) h) = add_key (normalized (d ++ d') h) h /\
  add_value d' (add_value d h) = add_value (d ++ d') h.
Proof.
  destruct h. unfold add_method, add_uri, add_version, add_key, add_value, set_line_texts, set_field, normalized.
  cbn. rewrite map_app, <- !app_assoc. by split_and!.
Qed.

Lemma adds_nil h :
  add_method [] h = h /\ add_uri [] h = h /\ add_version [] h = h /\ add_key [] h = h /\ add_value [] h = h.
Proof.
  destruct h. unfold add_method, add_uri, add_version, add_key, add_value, set_line_texts, set_field. cbn.
  by rewrite !app_nil_r.
Qed.

(** Inside a target, the text is within its limit. *)
Definition uri_within (h : HttpRequestHeader) : Prop :=
  m_parseState h = Uri -> exceeds (m_maxUriSize h) (blen (m_parseUriStr h)) = false.

Definition in_target (c : byte) : bool := negb (bool_decide (c = SP) || is_line_end c).

Lemma exceeds_mono max n m : n <= m -> exceeds max m = false -> exceeds max n = false.
Proof.
  unfold exceeds. intros Hn. destruct (max =? 0); [done|]. cbn [negb andb].
  rewrite !Z.ltb_ge. lia.
Qed.

(** Two headers that failed hold the same fields. *)
Definition same_fields (h h' : HttpRequestHeader) : Prop :=
  m_headerPairs h = m_headerPairs h' /\ (m_parseState h = Done <-> m_parseState h' = Done).

(** A run of the target: collected, or too long. *)
Lemma parse_uri_run b text rest n h :
  m_parseState h = Uri -> uri_within h -> Forall (fun c => in_target c = true) text ->
  if exceeds (m_maxUriSize h) (blen (m_parseUriStr h ++ text))
  then exists h', parse_chars b (text ++ rest) n h = Broken kUriTooLong h' /\ same_fields (add_uri text h) h'
  else parse_chars b (text ++ rest) n h = parse_chars b rest (n + blen text) (add_uri text h).
Proof.
  revert n h. induction text as [|c text IH]; intros n h Hs Hu Ht.
  - rewrite app_nil_r, (Hu Hs), (@blen_nil byte), Z.add_0_r. by destruct (adds_nil h) as (_ & -> & _).
  - apply Forall_cons in Ht as [Hc Ht]. unfold in_target in Hc. apply negb_true_iff, orb_false_iff in Hc as [H1 H2].
    assert (parse_char b c h = if exceeds (m_maxUriSize h) (blen (m_parseUriStr h ++ [c])) then (kUriTooLong, add_uri [c] h)
      else (kNoError, add_uri [c] h)) as Hc by (unfold parse_char; by rewrite Hs, H1, H2).
    cbn [app parse_chars]. destruct (exceeds (m_maxUriSize h) (blen (m_parseUriStr h ++ [c]))) eqn:E; rewrite Hc.
    + destruct (exceeds (m_maxUriSize h) (blen (m_parseUriStr h ++ c :: text))) eqn:E'.
      * exists (add_uri [c] h). by split.
      * rewrite (exceeds_mono _ _ (blen (m_parseUriStr h ++ c :: text))) in E; [done| |done].
        rewrite !blen_app, !blen_cons. pose proof (blen_nonneg text). rewrite blen_nil. lia.
    + specialize (IH (n + 1) (add_uri [c] h) Hs ltac:(by intros _) Ht).
      change (m_parseUriStr (add_uri [c] h)) with (m_parseUriStr h ++ [c]) in IH.
      change (m_maxUriSize (add_uri [c] h)) with (m_maxUriSize h) in IH. rewrite <- app_assoc in IH. cbn [app] in IH.
      destruct (adds_compose [c] text h) as (_ & Ha & _). rewrite Ha in IH.
      destruct (exceeds (m_maxUriSize h) (blen (m_parseUriStr h ++ c :: text))); [done|].
      rewrite IH, blen_cons. cbn [app]. f_equal. lia.
Qed.

(** What a turn must do: take octets off the buffer, as the parser octet by octet does. *)
Definition turn_ok (h : HttpRequestHeader) (d : bytes) (r : turn_result) : Prop :=
  match r with
  | Next h' rest =>
      exists taken, d = taken ++ rest /\ taken <> [] /\ uri_within h' /\ m_parseState h' <> Done /\
        forall n, parse_chars false d n h = parse_chars false rest (n + blen taken) h'
  | Complete h' rest =>
      exists taken, d = taken ++ rest /\ taken <> [] /\ m_parseState h' = Done /\
        forall n, parse_chars false d n h = Finished h' (n + blen taken)
  | Error e h' => e <> kNoError /\ e <> kIncomplete /\
      exists h2, same_fields h' h2 /\ forall n, parse_chars false d n h = Broken e h2
  end.

(** The octet that ends a run, by the same step in both parsers. *)
Lemma go_ok h h' text c rest r :
  (forall n, parse_chars false (text ++ c :: rest) n h = parse_chars false (c :: rest) (n + blen text) h') ->
  parse_char false c h' = r ->
  r.1 <> kIncomplete -> (r.1 = kNoError -> uri_within r.2 /\ m_parseState r.2 <> Done) ->
  turn_ok h (text ++ c :: rest) (go r rest).
Proof.
  intros Hrun Hc Hi Hn. destruct r as [e h2]. cbn [fst snd] in *.
  assert (forall n, parse_chars false (text ++ c :: rest) n h =
    match e with kNoError => parse_chars false rest (n + blen text + 1) h2 | _ => Broken e h2 end) as H.
  { intros n. rewrite Hrun. cbn [parse_chars]. rewrite Hc. by destruct e. }
  destruct e; cbn [go turn_ok]; try (split_and!; [done..|by exists h2]).
  exists (text ++ [c]). rewrite <- app_assoc. destruct (Hn eq_refl) as [Hu Hd].
  split_and!; [done|by destruct text|done|done|].
  intros n. by rewrite H, blen_app, Z.add_assoc.
Qed.

(** The steps at the end of a run go on to a state that is neither [Uri] nor [Done]. *)
Definition onward (r : HttpErrorCode * HttpRequestHeader) : Prop :=
  r.1 <> kIncomplete /\ (r.1 = kNoError -> m_parseState r.2 <> Uri /\ m_parseState r.2 <> Done).

Lemma commit_code h : (commitParsedHeaderPair h).1 <> kIncomplete.
Proof. unfold commitParsedHeaderPair. cbv zeta. by repeat case_match. Qed.

Lemma ends_onward h : onward (end_uri h) /\ onward (end_version h) /\ onward (end_key h) /\ onward (end_value h).
Proof.
  unfold onward. split_and!; intros; try done;
    unfold end_uri, end_version, end_key, end_value in *; repeat case_match; try done.
  pose proof (commit_code h) as Hc. by rewrite H in Hc.
Qed.

Lemma go_onward h h' text c rest r :
  (forall n, parse_chars false (text ++ c :: rest) n h = parse_chars false (c :: rest) (n + blen text) h') ->
  parse_char false c h' = r -> onward r -> turn_ok h (text ++ c :: rest) (go r rest).
Proof.
  intros H1 H2 [H3 H4]. apply (go_ok h h'); [done..|]. intros E. destruct (H4 E) as [Hu Hd]. split; [by intros ?|done].
Qed.

Lemma go_single h c rest r :
  parse_char false c h = r -> onward r -> turn_ok h (c :: rest) (go r rest).
Proof. intros H1 H2. apply (go_onward h h []); [|done..]. intros n. by rewrite (@blen_nil byte), Z.add_0_r. Qed.

(** A run that ends with the buffer. *)
Lemma run_out h d text h' :
  d = text -> d <> [] ->
  (forall n, parse_chars false (text ++ []) n h = parse_chars false [] (n + blen text) h') ->
  uri_within h' -> m_parseState h' <> Done -> turn_ok h d (Next h' []).
Proof. intros -> Hd Hr Hu Hs. exists text. rewrite app_nil_r in *. by split_and!. Qed.

(** A turn that collects a run and then looks at the octet behind it. *)
Lemma collect_turn p add P h d (k : byte -> bytes -> turn_result) :
  (forall c h, P h -> p c = true -> parse_char false c h = (kNoError, add [c] h) /\ P (add [c] h)) ->
  (forall h, add [] h = h) -> (forall d d' h, add d' (add d h) = add (d ++ d') h) ->
  (forall h, P h -> m_parseState h <> Uri /\ m_parseState h <> Done) ->
  P h -> P (add (span p d).1 h) -> d <> [] ->
  (forall c rest, p c = false -> exists r, k c rest = go r rest /\
    parse_char false c (add (span p d).1 h) = r /\ onward r) ->
  turn_ok h d (match (span p d).2 with [] => Next (add (span p d).1 h) [] | c :: rest => k c rest end).
Proof.
  intros H1 H2 H3 H4 HP HP' Hd Hk. pose proof (span_eq p d) as Heq. pose proof (span_text p d) as Ht.
  assert (forall rest n, parse_chars false ((span p d).1 ++ rest) n h =
    parse_chars false rest (n + blen (span p d).1) (add (span p d).1 h)) as Hrun.
  { intros rest n. by apply (parse_chars_run false p add P). }
  destruct (H4 _ HP') as [Hu Hs]. destruct (span p d).2 as [|c rest] eqn:E.
  - apply (run_out h d (span p d).1); [by rewrite app_nil_r in Heq|done|apply Hrun|by intros ?|done].
  - apply span_rest in E. destruct (Hk c rest E) as (r & -> & Hr & Ho). rewrite Heq at 1. by eapply go_onward.
Qed.

Lemma span_pair p d : span p d = ((span p d).1, (span p d).2).
Proof. by destruct (span p d). Qed.

Lemma in_state_distinct s h : m_parseState h = s -> s <> Uri -> s <> Done -> m_parseState h <> Uri /\ m_parseState h <> Done.
Proof. by intros ->. Qed.

Lemma turn_method h d : m_parseState h = Method -> d <> [] -> turn_ok h d (turn h d).
Proof.
  intros Hs Hd. unfold turn, turn_field. rewrite Hs, span_pair.
  apply (collect_turn _ add_method (fun h => m_parseState h = Method) h d); try done.
  - clear. intros c h Hs Hc. apply negb_true_iff, orb_false_iff in Hc as [H1 H2].
    unfold parse_char. by rewrite Hs, H1, H2.
  - intros h'. apply adds_nil.
  - intros a b h'. apply adds_compose.
  - intros h' H. by apply (in_state_distinct Method).
  - intros c rest Hc. apply negb_false_iff in Hc. eexists. split; [|split; [reflexivity|]].
    + unfold parse_char. cbn [m_parseState add_method set_line_texts]. rewrite Hs.
      destruct (bool_decide (c = SP)) eqn:E; cbn [negb orb] in *; [done|by rewrite Hc].
    + unfold parse_char. cbn [m_parseState add_method set_line_texts]. rewrite Hs.
      destruct (bool_decide (c = SP)) eqn:E; cbn [negb orb] in *; [done|by rewrite Hc].
Qed.

Lemma turn_version h d : m_parseState h = Version -> d <> [] -> turn_ok h d (turn h d).
Proof.
  intros Hs Hd. unfold turn, turn_field. rewrite Hs, span_pair.
  apply (collect_turn _ add_version (fun h => m_parseState h = Version) h d); try done.
  - clear. intros c h Hs Hc. apply negb_true_iff, orb_false_iff in Hc as [H1 H2].
    unfold parse_char. by rewrite Hs, H1, H2.
  - intros h'. apply adds_nil.
  - intros a b h'. apply adds_compose.
  - intros h' H. by apply (in_state_distinct Version).
  - intros c rest Hc. apply negb_false_iff, orb_true_iff in Hc. eexists. split; [|split; [reflexivity|]];
      unfold parse_char; cbn [m_parseState add_version set_line_texts]; rewrite Hs.
    + by destruct Hc as [->%bool_decide_eq_true | ->%bool_decide_eq_true].
    + destruct (bool_decide (c = CR)); [apply ends_onward|]. destruct Hc as [Hc|Hc]; [done|by rewrite Hc].
Qed.

Lemma turn_key h d : m_parseState h = HeaderKey -> d <> [] -> turn_ok h d (turn h d).
Proof.
  intros Hs Hd. unfold turn, turn_field. rewrite Hs, span_pair.
  apply (collect_turn _ (fun d h => add_key (normalized d h) h) (fun h => m_parseState h = HeaderKey) h d); try done.
  - clear. intros c h Hs Hc. apply negb_true_iff, orb_false_iff in Hc as [H1 H2].
    unfold parse_char. by rewrite Hs, H1, H2.
  - intros h'. apply adds_nil.
  - intros a b h'. destruct (adds_compose a b h') as (_ & _ & _ & H & _). exact H.
  - intros h' H. by apply (in_state_distinct HeaderKey).
  - intros c rest Hc. apply negb_false_iff in Hc. eexists. split; [|split; [reflexivity|]];
      unfold parse_char; cbn [m_parseState add_key set_field]; rewrite Hs;
      (destruct (bool_decide (c = COLON)) eqn:E; cbn [negb orb] in *; [|by rewrite Hc]); [done|apply ends_onward].
Qed.

Lemma turn_value h d : m_parseState h = HeaderValue -> d <> [] -> turn_ok h d (turn h d).
Proof.
  intros Hs Hd. unfold turn, turn_field. rewrite Hs, span_pair.
  apply (collect_turn _ add_value (fun h => m_parseState h = HeaderValue) h d (fun _ rest => go (end_value _) rest)); try done.
  - clear. intros c h Hs Hc. apply negb_true_iff in Hc. unfold parse_char. by rewrite Hs, Hc.
  - intros h'. apply adds_nil.
  - intros a b h'. apply adds_compose.
  - intros h' H. by apply (in_state_distinct HeaderValue).
  - intros c rest Hc. apply negb_false_iff in Hc. eexists. split; [reflexivity|split; [|apply ends_onward]].
    unfold parse_char. cbn [m_parseState add_value set_field]. by rewrite Hs, Hc.
Qed.

(** Spaces that are skipped. *)
Lemma turn_spaces s h d (k : byte -> bytes -> turn_result) :
  m_parseState h = s -> s = MethodSP \/ s = UriSP \/ s = HeaderSpace -> d <> [] ->
  (forall c rest, bool_decide (c = SP) = false -> turn_ok h (c :: rest) (k c rest)) ->
  turn_ok h d (match (span (fun c => bool_decide (c = SP)) d).2 with [] => Next h [] | c :: rest => k c rest end).
Proof.
  intros Hs Hcases Hd Hk. pose proof (span_eq (fun c => bool_decide (c = SP)) d) as Heq.
  pose proof (span_text (fun c => bool_decide (c = SP)) d) as Ht.
  remember (span (fun c => bool_decide (c = SP)) d).1 as text.
  assert (forall rest n, parse_chars false (text ++ rest) n h = parse_chars false rest (n + blen text) h) as Hrun.
  { intros rest n. apply (parse_chars_run false (fun c => bool_decide (c = SP)) (fun _ h => h) (fun h => m_parseState h = s));
      try done. intros c h' H1 H2. unfold parse_char. rewrite H1.
    destruct Hcases as [->|[->| ->]]; by rewrite H2. }
  destruct (span _ d).2 as [|c rest] eqn:E.
  - apply (run_out h d text); [by rewrite app_nil_r in Heq|done|apply Hrun| |];
      unfold uri_within; rewrite Hs; destruct Hcases as [->|[->| ->]]; done.
  - apply span_rest in E. specialize (Hk c rest E). rewrite Heq. destruct (k c rest) as [h' r|h' r|e h']; cbn [turn_ok] in *.
    + destruct Hk as (taken & Ht' & Hne & Hu & Hd' & Hp). exists (text ++ taken). rewrite <- app_assoc, <- Ht'.
      split_and!; [done|by destruct text|done|done|]. intros n. by rewrite Hrun, Hp, blen_app, Z.add_assoc.
    + destruct Hk as (taken & Ht' & Hne & Hd' & Hp). exists (text ++ taken). rewrite <- app_assoc, <- Ht'.
      split_and!; [done|by destruct text|done|]. intros n. by rewrite Hrun, Hp, blen_app, Z.add_assoc.
    + destruct Hk as (H1 & H2 & h2 & Hf & Hp). split_and!; [done|done|]. exists h2. split; [done|].
      intros n. by rewrite Hrun, Hp.
Qed.

Lemma onward_next h : m_parseState h <> Uri -> m_parseState h <> Done -> onward (kNoError, h).
Proof. by split. Qed.

Lemma onward_bad e h : e <> kNoError -> e <> kIncomplete -> onward (e, h).
Proof. by split. Qed.

Lemma turn_method_sp h d : m_parseState h = MethodSP -> d <> [] -> turn_ok h d (turn h d).
Proof.
  intros Hs Hd. unfold turn, turn_field. rewrite Hs. apply (turn_spaces MethodSP); [done|by left|done|].
  intros c rest Hc. assert (forall r, parse_char false c h = r -> r.1 <> kIncomplete ->
    (r.1 = kNoError -> uri_within r.2 /\ m_parseState r.2 <> Done) -> turn_ok h (c :: rest) (go r rest)) as Hgo.
  { intros r H1 H2 H3. apply (go_ok h h []); [|done..]. intros n. by rewrite (@blen_nil byte), Z.add_0_r. }
  specialize (Hgo _ eq_refl). revert Hgo. unfold parse_char. rewrite Hs, Hc. cbv zeta.
  destruct (is_line_end c); cbn [fst snd go]; [intros Hgo; by apply Hgo|].
  destruct (exceeds _ _) eqn:E; cbn [fst snd go]; intros Hgo; apply Hgo; try done.
  intros _. split; [by intros _|done].
Qed.

Lemma turn_uri_sp h d : m_parseState h = UriSP -> d <> [] -> turn_ok h d (turn h d).
Proof.
  intros Hs Hd. unfold turn, turn_field. rewrite Hs. apply (turn_spaces UriSP); [done|by right; left|done|].
  intros c rest Hc. pose proof (go_single h c rest _ eq_refl) as Hgo. revert Hgo.
  unfold parse_char. rewrite Hs, Hc. destruct (is_line_end c); cbn [go]; intros Hgo; by apply Hgo.
Qed.

Lemma turn_header_space h d : m_parseState h = HeaderSpace -> d <> [] -> turn_ok h d (turn h d).
Proof.
  intros Hs Hd. unfold turn, turn_field. rewrite Hs. apply (turn_spaces HeaderSpace); [done|by right; right|done|].
  intros c rest Hc. pose proof (go_single h c rest _ eq_refl) as Hgo. revert Hgo.
  unfold parse_char. rewrite Hs, Hc. destruct (bool_decide (c = CR)); intros Hgo; [|by apply Hgo].
  apply Hgo, ends_onward.
Qed.

Lemma turn_uri h d : m_parseState h = Uri -> uri_within h -> d <> [] -> turn_ok h d (turn h d).
Proof.
  intros Hs Hu Hd. unfold turn, turn_field. rewrite Hs, span_pair.
  pose proof (span_eq in_target d) as Heq. pose proof (span_text in_target d) as Ht.
  change (fun c => negb (bool_decide (c = SP) || is_line_end c)) with in_target.
  remember (span in_target d).1 as text. cbv zeta.
  change (m_maxUriSize (add_uri text h)) with (m_maxUriSize h).
  change (m_parseUriStr (add_uri text h)) with (m_parseUriStr h ++ text).
  assert (negb (bool_decide (text = [])) && exceeds (m_maxUriSize h) (blen (m_parseUriStr h ++ text)) =
    exceeds (m_maxUriSize h) (blen (m_parseUriStr h ++ text))) as ->.
  { case_bool_decide as E; [|done]. rewrite E, app_nil_r. symmetry. by apply Hu. }
  assert (Hrun := fun rest n => parse_uri_run false text rest n h Hs Hu Ht).
  destruct (exceeds _ _) eqn:E.
  { split_and!; [done|done|]. destruct (Hrun (span in_target d).2 0) as (h2 & Hp & Hf). exists h2. split; [done|].
    intros n. rewrite Heq. destruct (Hrun (span in_target d).2 n) as (h3 & Hp3 & _).
    pose proof (parse_chars_shift false (text ++ (span in_target d).2) 0 n h) as Hsh.
    rewrite Hp, Z.add_0_l in Hsh. exact Hsh. }
  destruct (span in_target d).2 as [|c rest] eqn:Er.
  - apply (run_out h d text); [by rewrite app_nil_r in Heq|done|intros n; apply Hrun|by intros _|cbn; by rewrite Hs].
  - apply span_rest in Er. unfold in_target in Er. apply negb_false_iff in Er. rewrite Heq.
    pose proof (go_onward h (add_uri text h) text c rest _ ltac:(intros n; apply Hrun) eq_refl) as Hgo. revert Hgo.
    unfold parse_char. change (m_parseState (add_uri text h)) with (m_parseState h). rewrite Hs.
    destruct (bool_decide (c = SP)); cbn [negb orb] in *; intros Hgo.
    + apply Hgo, ends_onward.
    + rewrite Er in Hgo. cbn [go] in Hgo. by apply Hgo.
Qed.

Lemma turn_spec h d : uri_within h -> m_parseState h <> Done -> d <> [] -> turn_ok h d (turn h d).
Proof.
  intros Hu Hd Hne. destruct (m_parseState h) eqn:Hs; try done.
  - by apply turn_method.
  - by apply turn_method_sp.
  - by apply turn_uri.
  - by apply turn_uri_sp.
  - by apply turn_version.
  - destruct d as [|c rest]; [done|]. pose proof (go_single h c rest _ eq_refl) as Hgo. revert Hgo.
    unfold parse_char, turn, turn_field. rewrite Hs. destruct (bool_decide (c = LF)); intros Hgo; by apply Hgo.
  - destruct d as [|c rest]; [done|]. pose proof (go_single h c rest _ eq_refl) as Hgo. revert Hgo.
    unfold parse_char, turn, turn_field. rewrite Hs. destruct (bool_decide (c = CR)); [intros Hgo; by apply Hgo|].
    destruct (bool_decide (c = LF)); intros Hgo; by apply Hgo.
  - by apply turn_key.
  - destruct d as [|c rest]; [done|]. pose proof (go_single h c rest _ eq_refl) as Hgo. revert Hgo.
    unfold parse_char, turn, turn_field. rewrite Hs. destruct (bool_decide (c = SP)); [intros Hgo; by apply Hgo|].
    destruct (bool_decide (c = CR)); intros Hgo; [apply Hgo, ends_onward|by apply Hgo].
  - by apply turn_header_space.
  - by apply turn_value.
  - destruct d as [|c rest]; [done|]. pose proof (go_single h c rest _ eq_refl) as Hgo. revert Hgo.
    unfold parse_char, turn, turn_field. rewrite Hs. destruct (bool_decide (c = LF)); intros Hgo; by apply Hgo.
  - destruct d as [|c rest]; [done|]. pose proof (go_single h c rest _ eq_refl) as Hgo. revert Hgo.
    unfold parse_char, turn, turn_field. rewrite Hs. destruct (bool_decide (c = CR)); intros Hgo; by apply Hgo.
  - destruct d as [|c rest]; [done|]. unfold turn, turn_field. rewrite Hs.
    assert (forall n, parse_chars false (c :: rest) n h =
      if bool_decide (c = LF) then Finished (set_state Done h) (n + 1) else Broken kBadRequest h) as H.
    { intros n. cbn [parse_chars]. unfold parse_char. rewrite Hs. by destruct (bool_decide (c = LF)). }
    destruct (bool_decide (c = LF)); cbn [negb turn_ok].
    + exists [c]. by split_and!.
    + split_and!; [done|done|by exists h].
Qed.

Lemma iov_loop_spec fuel h d :
  uri_within h -> m_parseState h <> Done -> (length d <= fuel)%nat ->
  exists r, iov_loop fuel h d = Some r /\
    match r with
    | Next h' rest => rest = [] /\ uri_within h' /\ m_parseState h' <> Done /\
        forall n, parse_chars false d n h = Unfinished h'
    | Complete h' rest => exists taken, d = taken ++ rest /\ taken <> [] /\ m_parseState h' = Done /\
        forall n, parse_chars false d n h = Finished h' (n + blen taken)
    | Error e h' => e <> kNoError /\ e <> kIncomplete /\
        exists h2, same_fields h' h2 /\ forall n, parse_chars false d n h = Broken e h2
    end.
Proof.
  revert h d. induction fuel as [|fuel IH]; intros h d Hu Hs Hf.
  { destruct d; [|cbn in Hf; lia]. eexists. split; [done|]. by split_and!. }
  destruct d as [|c d]; [eexists; split; [done|]; by split_and!|]. cbn [iov_loop].
  pose proof (turn_spec h (c :: d) Hu Hs ltac:(done)) as Ht. remember (c :: d) as d0.
  destruct (turn h d0) as [h' rest|h' rest|e h']; cbn [turn_ok] in Ht; [|eexists; split; [done|exact Ht]..].
  destruct Ht as (taken & Heq & Hne & Hu' & Hs' & Hp).
  destruct (IH h' rest Hu' Hs') as (r & -> & Hr).
  { rewrite Heq, length_app in Hf. destruct taken; [done|]. cbn in Hf. lia. }
  eexists. split; [done|]. destruct r as [h2 rest2|h2 rest2|e h2].
  - destruct Hr as (H1 & H2 & H3 & Hr). split_and!; try done. intros n. by rewrite Hp, Hr.
  - destruct Hr as (taken2 & H1 & H2 & H3 & Hr). exists (taken ++ taken2). rewrite <- app_assoc, <- H1.
    split_and!; [done|by destruct taken|done|]. intros n. by rewrite Hp, Hr, blen_app, Z.add_assoc.
  - destruct Hr as (H1 & H2 & h3 & H3 & Hr). split_and!; try done. exists h3. split; [done|].
    intros n. by rewrite Hp, Hr.
Qed.

(** Between calls. *)
Definition open (h : HttpRequestHeader) : Prop := uri_within h /\ m_parseState h <> Done.

(** Two ends of a parse: the same, but for texts that a failed parse had collected. *)
Definition agrees (r r' : parse_result) : Prop :=
  match r, r' with
  | Broken e h, Broken e' h' => e = e' /\ same_fields h h'
  | _, _ => r = r'
  end.

(** What a parse from an open header on gives. *)
Definition result_ok (n len : Z) (r : parse_result) : Prop :=
  match r with
  | Unfinished h' => open h'
  | Finished h' k => m_parseState h' = Done /\ n < k <= n + len
  | Broken e _ => e <> kNoError /\ e <> kIncomplete
  end.

Lemma new_header_open mode a b c : open (new_request_header mode a b c).
Proof. split; [by intros ?|done]. Qed.

Lemma iovecs_loop_spec iovecs n h :
  open h ->
  (exists r, iovecs_loop iovecs n h = Some r /\ agrees r (parse_chars false (concat iovecs) n h)) /\
  result_ok n (blen (concat iovecs)) (parse_chars false (concat iovecs) n h).
Proof.
  revert n h. induction iovecs as [|iov iovecs IH]; intros n h Ho; cbn [iovecs_loop concat]; [split; [by eexists|done]|].
  pose proof Ho as [Hu Hs]. rewrite blen_app. pose proof (blen_nonneg (concat iovecs)).
  destruct (iov_loop_spec (length iov) h iov Hu Hs ltac:(lia)) as (r & -> & Hr). rewrite parse_chars_app.
  destruct r as [h' rest|h' rest|e h'].
  - destruct Hr as (_ & Hu' & Hs' & ->). destruct (IH (n + blen iov) h' (conj Hu' Hs')) as [H0 H1].
    split; [done|]. pose proof (blen_nonneg iov). unfold result_ok in *.
    destruct (parse_chars _ _ _ h'); [done| |done]. split; [apply H1|lia].
  - destruct Hr as (taken & -> & Hne & Hd & ->). pose proof (blen_nonneg rest). rewrite blen_app.
    pose proof (blen_pos taken Hne). split; [|split; [done|lia]]. eexists. split; [done|].
    by replace (n + (blen taken + blen rest - blen rest)) with (n + blen taken) by lia.
  - destruct Hr as (H1 & H2 & h2 & Hf & ->). split; [by eexists|done].
Qed.

(** Calls one after the other, until one of them ends the header or fails. *)
Fixpoint header_calls (calls : list (list bytes)) (consumed : Z) (h : HttpRequestHeader) : option parse_result :=
  match calls with
  | [] => Some (Unfinished h)
  | iovecs :: calls =>
      match fromIOVec iovecs h with
      | Some ((kIncomplete, n), h) => header_calls calls (consumed + n) h
      | Some ((kNoError, n), h) => Some (Finished h (consumed + n))
      | Some ((e, _), h) => Some (Broken e h)
      | None => None
      end
  end.

(** The pair of a call. *)
Definition answer (len : Z) (r : parse_result) : (HttpErrorCode * Z) * HttpRequestHeader :=
  match r with
  | Unfinished h => ((kIncomplete, len), h)
  | Finished h n => ((kNoError, n), h)
  | Broken e h => ((e, -1), h)
  end.

Lemma fromIOVec_spec iovecs h :
  open h -> exists r, fromIOVec iovecs h = Some (answer (blen (concat iovecs)) r) /\
    agrees r (parse_chars false (concat iovecs) 0 h).
Proof.
  intros Ho. unfold fromIOVec. rewrite bool_decide_eq_false_2 by apply Ho.
  destruct (iovecs_loop_spec iovecs 0 h Ho) as [(r & -> & Ha) _]. exists r. split; [by destruct r|done].
Qed.

Lemma header_calls_spec calls n h :
  open h -> exists r, header_calls calls n h = Some r /\ agrees r (parse_chars false (concat (concat calls)) n h).
Proof.
  revert n h. induction calls as [|iovecs calls IH]; intros n h Ho; cbn [header_calls concat]; [by eexists|].
  destruct (fromIOVec_spec iovecs h Ho) as (r & -> & Ha). rewrite concat_app, parse_chars_app.
  destruct (iovecs_loop_spec iovecs 0 h Ho) as [_ H]. pose proof (parse_chars_shift false (concat iovecs) 0 n h) as Hs.
  rewrite Z.add_0_l in Hs. rewrite Hs. unfold agrees, result_ok in *.
  destruct (parse_chars false (concat iovecs) 0 h) as [h'|h' k|e h'].
  - destruct r; try done. injection Ha as ->. by apply IH.
  - destruct r; try done. injection Ha as -> ->. eexists. split; [done|]. by rewrite Z.add_comm.
  - destruct r as [| |e' h2]; try done. destruct Ha as [-> Hf]. destruct H as [H1 H2]. exists (Broken e h2).
    split; [by destruct e|done].
Qed.

(** ** The check on the length of a name *)

(** A name is collected in four states only, and in the first of them it is within its limit. *)
Definition key_within (h : HttpRequestHeader) : Prop :=
  match m_parseState h with
  | HeaderKey => blen (m_parseHeaderKey h) <= 256
  | HeaderColon | HeaderSpace | HeaderValue => True
  | _ => m_parseHeaderKey h = []
  end.

Lemma long_key d n h :
  m_parseState h = HeaderKey -> 256 < blen (m_parseHeaderKey h) ->
  (exists h', parse_chars false d n h = Broken kBadRequest h') \/
  exists h', parse_chars false d n h = Unfinished h' /\ m_parseState h' = HeaderKey /\ 256 < blen (m_parseHeaderKey h').
Proof.
  revert n h. induction d as [|c d IH]; intros n h Hs Hk; [right; by exists h|]. cbn [parse_chars].
  unfold parse_char. rewrite Hs. destruct (bool_decide (c = COLON)).
  { left. unfold end_key. rewrite (proj2 (Z.ltb_lt 256 _) Hk). by eexists. }
  destruct (is_line_end c); [left; by eexists|]. cbn [andb]. apply IH; [done|].
  cbn [add_key set_field m_parseHeaderKey]. rewrite blen_app. pose proof (blen_nonneg (normalized [c] h)). lia.
Qed.

Lemma commit_clears h h' : commitParsedHeaderPair h = (kNoError, h') -> m_parseHeaderKey h' = [].
Proof. unfold commitParsedHeaderPair. cbv zeta. repeat case_match; try done; by intros [= <-]. Qed.

Lemma end_value_clears h h' : end_value h = (kNoError, h') -> m_parseState h' = HeaderCR /\ m_parseHeaderKey h' = [].
Proof.
  unfold end_value. destruct (commitParsedHeaderPair h) as [[] h2] eqn:E; try done.
  intros [= <-]. split; [done|]. by apply commit_clears in E.
Qed.

Lemma parse_char_key_within c h h' :
  key_within h -> parse_char true c h = (kNoError, h') -> key_within h'.
Proof.
  unfold key_within, parse_char. intros Hk. destruct (m_parseState h) eqn:Hs; intros H;
    repeat match type of H with (if ?b then _ else _) = _ => destruct b eqn:? end; try done;
    try (injection H as <-; cbn; rewrite ?Hs, ?Hk; done).
  - unfold end_uri in H. destruct (convertFromUri _ _); [|done]. destruct (parseArgs _ _ _). by injection H as <-.
  - unfold end_version in H. cbv zeta in H. by destruct (stringToHttpVersion _); try done; injection H as <-.
  - unfold end_key in H. destruct (_ <? _); [done|]. by injection H as <-.
  - injection H as <-. cbn. rewrite Hs, blen_app. cbn [andb] in *. unfold normalized, blen in *. cbn [map length].
    apply Z.leb_gt in Heqb1. lia.
  - apply end_value_clears in H as [-> ->]. done.
  - apply end_value_clears in H as [-> ->]. done.
  - apply end_value_clears in H as [-> ->]. done.
Qed.

Lemma bounded_parse d n h :
  key_within h ->
  parse_chars true d n h = parse_chars false d n h \/
  (exists h', parse_chars true d n h = Broken kBadRequest h') /\
  ((exists h', parse_chars false d n h = Broken kBadRequest h') \/
    exists h', parse_chars false d n h = Unfinished h' /\ m_parseState h' = HeaderKey /\ 256 < blen (m_parseHeaderKey h')).
Proof.
  revert n h. induction d as [|c d IH]; intros n h Hk; [by left|].
  assert (parse_char true c h = parse_char false c h \/
    (parse_char true c h = (kBadRequest, h) /\ m_parseState h = HeaderKey /\ 256 <= blen (m_parseHeaderKey h) /\
     parse_char false c h = (kNoError, add_key (normalized [c] h) h))) as [E|(E & Hs & Hb & Ef)].
  { unfold parse_char. destruct (m_parseState h) eqn:Hs; try (by left).
    destruct (bool_decide (c = COLON)); [by left|]. destruct (is_line_end c); [by left|].
    destruct (Z.leb_spec 256 (blen (m_parseHeaderKey h))); cbn [andb]; [right|by left]. by split_and!. }
  - cbn [parse_chars]. pose proof (parse_char_key_within c h) as Hw. rewrite <- E.
    destruct (parse_char true c h) as [[] h'] eqn:Ec; try (by left). apply IH. by apply Hw.
  - right. cbn [parse_chars]. rewrite E, Ef. split; [by eexists|]. apply long_key; [done|].
    cbn [add_key set_field m_parseHeaderKey]. rewrite blen_app. unfold normalized. cbn [map].
    change (blen [normalizeHeaderKeyChar c (m_mode (m_headerPairs h))]) with 1. lia.
Qed.

(** ** What the serializer writes *)

(** A field that can be written: a name of 1 to 256 octets without the octets that end it, a value without
    a carriage return that does not start with a space, a length that is a number. *)
Record field_ok (max_line : Z) (kv : bytes * bytes) : Prop := mkFieldOk {
  f_name : kv.1 <> [] /\ blen kv.1 <= 256 /\ Forall (fun c => c <> COLON /\ c <> CR /\ c <> LF) kv.1;
  f_value : (CR ∉ kv.2) /\ head kv.2 <> Some SP;
  f_line : exceeds max_line (blen kv.1 + 2 + blen kv.2) = false;
  f_length : toLowerAscii kv.1 = bs "content-length" -> is_Some (parseSizeTStrict kv.2)
}.

(** A server header between two fields: what it holds and what it has seen. *)
Record receiving (method : HttpMethod) (version : HttpVersion) (uri : bytes) (args : gmap bytes bytes)
    (max_count max_line max_uri : Z) (m : gmap bytes bytes) (count : Z) (h : HttpRequestHeader) : Prop := mkReceiving {
  r_line : m_method h = method /\ m_version h = version /\ m_uri h = uri /\ m_argList h = args;
  r_limits : m_maxHeaderCount h = max_count /\ m_maxHeaderLineSize h = max_line /\ m_maxUriSize h = max_uri;
  r_fields : represents (m_headerPairs h) m /\ m_mode (m_headerPairs h) = ServerSide;
  r_count : m_headerCount h = count;
  r_length : m !! bs "content-length" = None -> m_hasContentLength h = false;
  r_texts : m_parseHeaderKey h = [] /\ m_parseHeaderValue h = [] /\ m_currentCommonHeaderIdx h = None
}.

Definition between_fields (h : HttpRequestHeader) : Prop := m_parseState h = VersionLF \/ m_parseState h = HeaderLF.

Lemma commit_spec method version uri args max_count max_line max_uri m count h k v :
  represents (m_headerPairs h) m -> m_mode (m_headerPairs h) = ServerSide ->
  m_parseHeaderKey h = k -> m_parseHeaderValue h = v -> m_currentCommonHeaderIdx h = matchCommonHeader k ->
  toLowerAscii k = k -> m !! k = None ->
  m_method h = method /\ m_version h = version /\ m_uri h = uri /\ m_argList h = args ->
  m_maxHeaderCount h = max_count /\ m_maxHeaderLineSize h = max_line /\ m_maxUriSize h = max_uri ->
  m_headerCount h = count -> (m !! bs "content-length" = None -> m_hasContentLength h = false) ->
  exceeds max_line (blen k + 2 + blen v) = false -> exceeds max_count (count + 1) = false ->
  (k = bs "content-length" -> is_Some (parseSizeTStrict v)) ->
  exists h', commitParsedHeaderPair h = (kNoError, h') /\ m_parseState h' = m_parseState h /\
    receiving method version uri args max_count max_line max_uri (<[k := v]> m) (count + 1) h'.
Proof.
  intros Hr Hm Hk Hv Hi Hlow Hnew H1 (L1 & L2 & L3) Hc Hlen Hline Hcount Hnum. unfold commitParsedHeaderPair. cbv zeta.
  rewrite Hk, Hv, L1, L2, Hc, Hline, Hcount, Hm, Hi.
  assert (represents (match matchCommonHeader k with
    | Some idx => setCommonHeader idx v (m_headerPairs h)
    | None => mergeNormalizedUncommonHeaderPair k v (m_headerPairs h) end) (<[k := v]> m) /\
    m_mode (match matchCommonHeader k with
    | Some idx => setCommonHeader idx v (m_headerPairs h)
    | None => mergeNormalizedUncommonHeaderPair k v (m_headerPairs h) end) = ServerSide) as [Hr' Hm'].
  { replace (<[k := v]> m) with (join_into k v m) by (unfold join_into; by rewrite Hnew).
    destruct (matchCommonHeader k) as [idx|] eqn:E.
    - apply matchCommonHeader_spec in E as ->. split; [by apply setCommonHeader_spec|].
      rewrite <- Hm. exact (op_mode (SetCommon idx v) _).
    - split; [|rewrite <- Hm; exact (op_mode (Merge k v) _)].
      apply (run_op_spec (Merge k v)); [done|]. rewrite Hm. split; [|done]. cbn [normalizeKey]. by rewrite lowered_eq. }
  case_bool_decide as E.
  - destruct (Hnum E) as [n ->]. rewrite E in Hnew. rewrite (Hlen Hnew). cbn [andb].
    eexists. split; [done|]. split; [done|]. split; cbn; try done; [by split_and!..|].
    intros Hl. by rewrite E, lookup_insert_eq in Hl.
  - eexists. split; [done|]. split; [done|]. split; cbn; try done; [by split_and!..|].
    intros Hl. apply Hlen. by rewrite lookup_insert_ne in Hl.
Qed.

(** A name, up to its colon. *)
Lemma parse_name h k rest n :
  between_fields h -> m_mode (m_headerPairs h) = ServerSide -> m_parseHeaderKey h = [] ->
  k <> [] -> blen k <= 256 -> Forall (fun c => c <> COLON /\ c <> CR /\ c <> LF) k ->
  parse_chars false (k ++ COLON :: rest) n h =
    parse_chars false rest (n + blen k + 1)
      (set_state HeaderColon (set_field (toLowerAscii k) (m_parseHeaderValue h) (matchCommonHeader (toLowerAscii k)) h)).
Proof.
  intros Hs Hm Hkey Hne Hlen Hk. destruct k as [|c k]; [done|].
  apply Forall_cons in Hk as [(Hc1 & Hc2 & Hc3) Hk]. cbn [app].
  pose (g := set_state HeaderKey (add_key (normalized [c] h) h)).
  assert (parse_char false c h = (kNoError, g)) as Hfirst.
  { unfold parse_char. destruct Hs as [Hs|Hs]; rewrite Hs, (bool_decide_eq_false_2 (c = CR)) by done; [|done].
    by rewrite (bool_decide_eq_false_2 (c = LF)) by done. }
  rewrite (parse_chars_cons _ _ _ _ _ _ Hfirst).
  rewrite (parse_chars_run false (fun c => negb (bool_decide (c = COLON) || is_line_end c))
    (fun d h => add_key (normalized d h) h) (fun h => m_parseState h = HeaderKey)); [| | | |done|].
  - assert (m_parseHeaderKey (add_key (normalized k g) g) = toLowerAscii (c :: k)) as Hfull.
    { unfold normalized. cbn. by rewrite Hm, Hkey. }
    assert (parse_char false COLON (add_key (normalized k g) g) = (kNoError,
      set_state HeaderColon (set_field (toLowerAscii (c :: k)) (m_parseHeaderValue h)
        (matchCommonHeader (toLowerAscii (c :: k))) h))) as Hend.
    { change (parse_char false COLON (add_key (normalized k g) g)) with (end_key (add_key (normalized k g) g)).
      unfold end_key. rewrite Hfull, blen_toLowerAscii, (proj2 (Z.ltb_ge 256 _)) by done.
      change (m_headerPairs (add_key (normalized k g) g)) with (m_headerPairs h). by rewrite Hm. }
    rewrite (parse_chars_cons _ _ _ _ _ _ Hend), blen_cons. f_equal. lia.
  - intros c' h' Hst Hc'. apply negb_true_iff, orb_false_iff in Hc' as [E1 E2].
    unfold parse_char. by rewrite Hst, E1, E2.
  - intros h'. apply adds_nil.
  - intros a b h'. destruct (adds_compose a b h') as (_ & _ & _ & H & _). exact H.
  - eapply Forall_impl; [exact Hk|]. intros c' (E1 & E2 & E3). unfold is_line_end.
    by rewrite !bool_decide_eq_false_2.
Qed.

(** A value behind one space, up to its carriage return. *)
Definition value_state (v : bytes) (h : HttpRequestHeader) : HttpRequestHeader :=
  set_state (match v with [] => HeaderSpace | _ => HeaderValue end)
    (set_field (m_parseHeaderKey h) v (m_currentCommonHeaderIdx h) h).

Lemma parse_value h v rest n :
  m_parseState h = HeaderColon -> m_parseHeaderValue h = [] -> (CR ∉ v) -> head v <> Some SP ->
  parse_chars false (SP :: v ++ rest) n h = parse_chars false rest (n + 1 + blen v) (value_state v h).
Proof.
  intros Hs Hval Hv Hhd. cbn [parse_chars]. unfold parse_char at 1. rewrite Hs, bool_decide_eq_true_2 by done.
  destruct v as [|c v].
  { rewrite (@blen_nil byte), Z.add_0_r. destruct h. cbn in *. by subst. }
  apply not_elem_of_cons in Hv as [Hc Hv].
  assert (parse_char false c (set_state HeaderSpace h) = (kNoError, set_state HeaderValue (add_value [c] (set_state HeaderSpace h)))) as Hfirst.
  { unfold parse_char. cbn [set_state m_parseState].
    rewrite (bool_decide_eq_false_2 (c = SP)) by (intros ->; by apply Hhd).
    by rewrite (bool_decide_eq_false_2 (c = CR)) by done. }
  cbn [app]. rewrite (parse_chars_cons _ _ _ _ _ _ Hfirst).
  rewrite (parse_chars_run false (fun c => negb (bool_decide (c = CR))) add_value (fun h => m_parseState h = HeaderValue));
    [| | | |done|].
  - rewrite blen_cons. replace (n + 1 + 1 + blen v) with (n + 1 + (1 + blen v)) by lia.
    f_equal. unfold value_state, add_value, set_field, set_state. cbn. by rewrite Hval.
  - intros c' h' Hst Hc'. apply negb_true_iff in Hc'. unfold parse_char. by rewrite Hst, Hc'.
  - intros h'. apply adds_nil.
  - intros a b h'. apply adds_compose.
  - apply Forall_forall. intros c' Hc'. rewrite bool_decide_eq_false_2; [done|]. by intros ->.
Qed.

(** A line of the header, from one field to the next. *)
Lemma parse_field method version uri args max_count max_line max_uri m count h k v :
  between_fields h -> receiving method version uri args max_count max_line max_uri m count h ->
  field_ok max_line (k, v) -> m !! toLowerAscii k = None -> exceeds max_count (count + 1) = false ->
  exists h', m_parseState h' = HeaderLF /\
    receiving method version uri args max_count max_line max_uri (<[toLowerAscii k := v]> m) (count + 1) h' /\
    forall rest n, parse_chars false (header_line (k, v) ++ rest) n h =
      parse_chars false rest (n + blen (header_line (k, v))) h'.
Proof.
  intros Hs Hrec [(Hne & Hlen & Hk) (Hv & Hhd) Hline Hnum] Hnew Hcount. cbn [fst snd] in *.
  pose proof Hrec as [R1 R2 [R3 R3'] R4 R5 (R6 & R7 & R8)].
  remember (set_state HeaderColon (set_field (toLowerAscii k) (m_parseHeaderValue h)
    (matchCommonHeader (toLowerAscii k)) h)) as h1 eqn:E1.
  destruct (commit_spec method version uri args max_count max_line max_uri m count (value_state v h1) (toLowerAscii k) v)
    as (h3 & Hcommit & Hst & [A B C D E F]); try (subst h1; done).
  { apply toLowerAscii_idem. }
  { by rewrite blen_toLowerAscii. }
  exists (set_state HeaderLF (set_state HeaderCR h3)). split; [done|]. split; [by split|].
  assert (parse_char false CR (value_state v h1) = (kNoError, set_state HeaderCR h3)) as Hcr.
  { transitivity (end_value (value_state v h1)); [by destruct v|]. unfold end_value. by rewrite Hcommit. }
  intros rest n. unfold header_line. cbn [fst snd]. change (bs ": ") with [COLON; SP]. rewrite <- !app_assoc.
  cbn [app]. rewrite parse_name, <- E1 by done. rewrite parse_value by (subst h1; done).
  rewrite (parse_chars_cons _ _ _ _ _ _ Hcr), (parse_chars_cons _ LF _ _ _ (set_state HeaderLF (set_state HeaderCR h3)))
    by done.
  f_equal. autorewrite with blen. lia.
Qed.

Definition lower_fields (l : list (bytes * bytes)) : list (bytes * bytes) :=
  map (fun kv => (toLowerAscii kv.1, kv.2)) l.

Lemma parse_fields method version uri args max_count max_line max_uri l m count h :
  between_fields h -> receiving method version uri args max_count max_line max_uri m count h ->
  Forall (field_ok max_line) l -> NoDup (lower_fields l).*1 ->
  (forall k, k ∈ (lower_fields l).*1 -> m !! k = None) -> 0 <= count ->
  exceeds max_count (count + blen l) = false ->
  exists h', between_fields h' /\
    receiving method version uri args max_count max_line max_uri
      (foldl (fun m kv => <[kv.1 := kv.2]> m) m (lower_fields l)) (count + blen l) h' /\
    forall rest n, parse_chars false (concat (map header_line l) ++ rest) n h =
      parse_chars false rest (n + blen (concat (map header_line l))) h'.
Proof.
  revert m count h. induction l as [|[k v] l IH]; intros m count h Hs Hrec Hok Hnd Hfree Hc Hmax.
  - exists h. rewrite (@blen_nil (bytes * bytes)), Z.add_0_r. split_and!; [done..|]. intros rest n.
    cbn [map concat app]. by rewrite (@blen_nil byte), Z.add_0_r.
  - apply Forall_cons in Hok as [Hkv Hok]. cbn in Hnd. apply NoDup_cons in Hnd as [Hnew Hnd].
    rewrite blen_cons in Hmax. pose proof (blen_nonneg l).
    destruct (parse_field method version uri args max_count max_line max_uri m count h k v) as (h1 & Hs1 & Hrec1 & Hp1);
      [done..|apply Hfree; by left|by apply (exceeds_mono _ _ (count + (1 + blen l))); [lia|]|].
    destruct (IH _ _ h1 (or_intror Hs1) Hrec1 Hok Hnd) as (h' & Hs' & Hrec' & Hp').
    + intros k' Hk'. rewrite lookup_insert_ne by (intros <-; done). apply Hfree. by right.
    + lia.
    + by replace (count + 1 + blen l) with (count + (1 + blen l)) by lia.
    + exists h'. split; [done|]. split.
      * by replace (count + blen ((k, v) :: l)) with (count + 1 + blen l) by (rewrite blen_cons; lia).
      * intros rest n. cbn [map concat]. rewrite <- app_assoc, Hp1, Hp', blen_app. f_equal. lia.
Qed.

(** The request line. *)
Lemma parse_method h text rest n :
  m_parseState h = Method -> Forall (fun c => in_target c = true) text ->
  parse_chars false (text ++ SP :: rest) n h =
    parse_chars false rest (n + blen text + 1)
      (set_state MethodSP (set_request (stringToHttpMethod (m_parseMethodStr h ++ text)) (m_version h) (m_uri h)
         (m_argList h) (m_uriDecodeError h) (add_method text h))).
Proof.
  intros Hs Ht. rewrite (parse_chars_run false in_target add_method (fun h => m_parseState h = Method)); [| | | |done..].
  - apply parse_chars_cons. unfold parse_char. by rewrite bool_decide_eq_true_2; cbn; rewrite ?Hs.
  - intros c h' Hst Hc. apply negb_true_iff, orb_false_iff in Hc as [E1 E2]. unfold parse_char. by rewrite Hst, E1, E2.
  - intros h'. apply adds_nil.
  - intros a b h'. apply adds_compose.
Qed.

Lemma parse_target h text rest n h' :
  m_parseState h = MethodSP -> m_parseUriStr h = [] -> text <> [] -> Forall (fun c => in_target c = true) text ->
  exceeds (m_maxUriSize h) (blen text) = false -> end_uri (add_uri text (set_state Uri h)) = (kNoError, h') ->
  parse_chars false (text ++ SP :: rest) n h = parse_chars false rest (n + blen text + 1) h'.
Proof.
  intros Hs Hstr Hne Ht Hmax Hend. destruct text as [|c text]; [done|]. apply Forall_cons in Ht as [Hc Ht].
  apply negb_true_iff, orb_false_iff in Hc as [E1 E2]. rewrite blen_cons in *. pose proof (blen_nonneg text).
  assert (parse_char false c h = (kNoError, set_state Uri (add_uri [c] h))) as Hfirst.
  { unfold parse_char. rewrite Hs, E1, E2. cbv zeta. cbn [add_uri set_line_texts m_parseUriStr m_maxUriSize].
    rewrite Hstr. change (blen ([] ++ [c])) with 1. by rewrite (exceeds_mono _ _ (1 + blen text)) by (lia || done). }
  cbn [app]. rewrite (parse_chars_cons _ _ _ _ _ _ Hfirst).
  assert (uri_within (set_state Uri (add_uri [c] h))) as Hw.
  { intros _. cbn [set_state add_uri set_line_texts m_parseUriStr m_maxUriSize]. rewrite Hstr.
    change (blen ([] ++ [c])) with 1. by rewrite (exceeds_mono _ _ (1 + blen text)) by (lia || done). }
  pose proof (parse_uri_run false text (SP :: rest) (n + 1) (set_state Uri (add_uri [c] h)) eq_refl Hw Ht) as Hrun.
  assert (exceeds (m_maxUriSize (set_state Uri (add_uri [c] h))) (blen (m_parseUriStr (set_state Uri (add_uri [c] h)) ++ text)) = false) as Hx.
  { cbn [set_state add_uri set_line_texts m_parseUriStr m_maxUriSize]. rewrite Hstr.
    change (([] ++ [c]) ++ text) with (c :: text). by rewrite blen_cons. }
  rewrite Hx in Hrun. rewrite Hrun.
  rewrite (parse_chars_cons _ SP _ _ _ h').
  - f_equal. lia.
  - rewrite <- Hend. destruct (adds_compose [c] text (set_state Uri h)) as (_ & Ha & _). cbn [app] in Ha. rewrite <- Ha.
    done.
Qed.

Lemma parse_version h text rest n h' :
  m_parseState h = UriSP -> text <> [] -> head text <> Some SP -> Forall (fun c => is_line_end c = false) text ->
  end_version (add_version text (set_state Version h)) = (kNoError, h') -> m_parseState h' = VersionCR ->
  parse_chars false (text ++ [CR; LF] ++ rest) n h = parse_chars false rest (n + blen text + 2) (set_state VersionLF h').
Proof.
  intros Hs Hne Hhd Ht Hend Hs'. destruct text as [|c text]; [done|]. apply Forall_cons in Ht as [Hc Ht].
  assert (parse_char false c h = (kNoError, set_state Version (add_version [c] h))) as Hfirst.
  { unfold parse_char. rewrite Hs, bool_decide_eq_false_2, Hc; [done|]. intros ->. by apply Hhd. }
  cbn [app]. rewrite (parse_chars_cons _ _ _ _ _ _ Hfirst).
  rewrite (parse_chars_run false (fun c => negb (is_line_end c)) add_version (fun h => m_parseState h = Version));
    [| | | |done|].
  - rewrite (parse_chars_cons _ CR _ _ _ h'), (parse_chars_cons _ LF _ _ _ (set_state VersionLF h')).
    + f_equal. rewrite blen_cons. lia.
    + unfold parse_char. by rewrite Hs'.
    + rewrite <- Hend. destruct (adds_compose [c] text (set_state Version h)) as (_ & _ & Ha & _). cbn [app] in Ha.
      by rewrite <- Ha.
  - intros c' h2 Hst E. apply negb_true_iff, orb_false_iff in E as [E1 E2]. unfold parse_char. by rewrite Hst, E1, E2.
  - intros h2. apply adds_nil.
  - intros a b h2. apply adds_compose.
  - eapply Forall_impl; [exact Ht|]. by intros c' ->.
Qed.

(** A header that can be written and read back within the limits of the reader. *)
Record header_ok (max_count max_line max_uri : Z) (h : HttpRequestHeader) : Prop := mkHeaderOk {
  h_version : m_version h = HttpVersion_1_0 \/ m_version h = HttpVersion_1_1;
  h_target : target_ok (m_uri h) (m_argList h);
  h_target_size : exceeds max_uri (blen (convertToUri (target_text (m_uri h) (m_argList h)))) = false;
  h_pairs : headers_ok (m_headerPairs h);
  h_fields : Forall (field_ok max_line) (fields (m_headerPairs h));
  h_count : exceeds max_count (blen (fields (m_headerPairs h))) = false
}.

Lemma method_text m : Forall (fun c => in_target c = true) (httpMethodToString m).
Proof. destruct m; by repeat constructor. Qed.

Lemma convertToUri_target url : Forall (fun c => in_target c = true) (convertToUri url).
Proof.
  eapply Forall_impl; [apply convertToUri_line|]. intros c (H1 & H2 & H3). unfold in_target, is_line_end.
  by rewrite !bool_decide_eq_false_2.
Qed.

(** A server header before its first octet: a new one, or one that was reset. *)
Record blank (max_count max_line max_uri : Z) (h : HttpRequestHeader) : Prop := mkBlank {
  b_target : m_uri h = [] /\ m_argList h = ∅;
  b_fields : m_headerPairs h = new_headers ServerSide;
  b_texts : m_parseMethodStr h = [] /\ m_parseUriStr h = [] /\ m_parseVersionStr h = [] /\ m_parseHeaderKey h = [] /\
    m_parseHeaderValue h = [] /\ m_currentCommonHeaderIdx h = None;
  b_limits : m_maxHeaderCount h = max_count /\ m_maxHeaderLineSize h = max_line /\ m_maxUriSize h = max_uri;
  b_counts : m_headerCount h = 0 /\ m_hasContentLength h = false;
  b_state : m_parseState h = Method
}.

Lemma new_header_blank max_count max_line max_uri :
  blank max_count max_line max_uri (new_request_header ServerSide max_count max_line max_uri).
Proof. by split. Qed.

Lemma reset_blank h : m_mode (m_headerPairs h) = ServerSide ->
  blank (m_maxHeaderCount h) (m_maxHeaderLineSize h) (m_maxUriSize h) (reset h).
Proof. intros Hm. split; try done. cbn [reset m_headerPairs]. unfold clear. by rewrite Hm. Qed.

Lemma blank_open max_count max_line max_uri h : blank max_count max_line max_uri h -> open h.
Proof. intros [_ _ (_ & _ & Hk & _) _ _ Hs]. split; [|by rewrite Hs]. intros E. by rewrite Hs in E. Qed.

(** The request line of a header that can be written. *)
Lemma parse_request_line max_count max_line max_uri h h0 :
  header_ok max_count max_line max_uri h -> blank max_count max_line max_uri h0 ->
  exists h', m_parseState h' = VersionLF /\
    receiving (m_method h) (m_version h) (m_uri h) (m_argList h) max_count max_line max_uri ∅ 0 h' /\
    forall rest, parse_chars false (httpMethodToString (m_method h) ++ [SP] ++
        convertToUri (target_text (m_uri h) (m_argList h)) ++ [SP] ++ httpVersionToString (m_version h) ++ [CR; LF] ++ rest)
        0 h0 =
      parse_chars false rest (blen (httpMethodToString (m_method h)) +
        blen (convertToUri (target_text (m_uri h) (m_argList h))) + blen (httpVersionToString (m_version h)) + 4) h'.
Proof.
  intros [Hv Ht Hsize _ _ _] [[B1 B2] B3 (B4 & B5 & B6 & B7 & B8 & B9) (B10 & B11 & B12) [B13 B14] B15].
  destruct h0 as [uri0 args0 pairs0 ms0 us0 vs0 key0 val0 mc0 ml0 mu0 count0 has0 length0 method0 version0 state0 idx0 err0].
  cbn in B1, B2, B3, B4, B5, B6, B7, B8, B9, B10, B11, B12, B13, B14, B15. subst.
  set (h0 := mkRequestHeader [] ∅ _ [] [] [] [] [] _ _ _ 0 false _ _ _ Method None _).
  remember (convertToUri (target_text (m_uri h) (m_argList h))) as text.
  set (h1 := set_state MethodSP (set_request (m_method h) version0 [] ∅ err0
    (add_method (httpMethodToString (m_method h)) h0))).
  set (h2 := set_state UriSP (set_request (m_method h) version0 (m_uri h) (m_argList h) false
    (add_uri text (set_state Uri h1)))).
  assert (end_uri (add_uri text (set_state Uri h1)) = (kNoError, h2)) as Huri.
  { unfold end_uri. change (m_parseUriStr (add_uri text (set_state Uri h1))) with text.
    rewrite Heqtext, convertFromUri_convertToUri by apply Ht. cbn [m_uri m_argList add_uri set_line_texts set_state
      h1 set_request add_method h0]. rewrite parseArgs_target by done. do 2 f_equal.
    assert ((if bool_decide ((if bool_decide (m_argList h = ∅) then [] else m_uri h) = [])
      then target_text (m_uri h) (m_argList h) else if bool_decide (m_argList h = ∅) then [] else m_uri h) = m_uri h) as ->; [|by rewrite <- Heqtext].
    destruct (decide (m_argList h = ∅)) as [E|E].
    - rewrite (bool_decide_eq_true_2 (m_argList h = ∅)), bool_decide_eq_true_2 by done.
      unfold target_text. by rewrite bool_decide_eq_true_2, app_nil_r by done.
    - rewrite (bool_decide_eq_false_2 (m_argList h = ∅)), bool_decide_eq_false_2 by (done || apply Ht). done. }
  set (h3 := set_state VersionCR (set_request (m_method h) (m_version h) (m_uri h) (m_argList h) false
    (add_version (httpVersionToString (m_version h)) (set_state Version h2)))).
  assert (end_version (add_version (httpVersionToString (m_version h)) (set_state Version h2)) = (kNoError, h3)) as Hver.
  { unfold end_version. change (m_parseVersionStr _) with (httpVersionToString (m_version h)).
    rewrite version_name_roundtrip. unfold h3. by destruct Hv as [-> | ->]. }
  exists (set_state VersionLF h3). split; [done|]. split.
  { split; cbn; try done. split; [apply new_headers_represents|done]. }
  intros rest. cbn [app]. rewrite parse_method by (done || apply method_text).
  rewrite (parse_target _ text _ _ h2); [|done|done| | |done|].
  - rewrite (parse_version h2 (httpVersionToString (m_version h)) rest _ h3); [|done| | | |done|done];
      [f_equal; lia|by destruct Hv as [-> | ->]..|].
    destruct Hv as [-> | ->]; by repeat constructor.
  - rewrite Heqtext. apply convertToUri_nonempty. unfold target_text. by destruct (m_uri h); [destruct Ht|].
  - rewrite Heqtext. apply convertToUri_target.
  - rewrite <- Huri. change (m_parseMethodStr h0) with (@nil byte). cbn [app].
    by rewrite method_name_roundtrip.
Qed.

(** Names that differ in case only have one normal form. *)
Lemma lower_normalize mode k : toLowerAscii (normalizeKey mode k) = toLowerAscii k.
Proof.
  destruct mode; cbn [normalizeKey]; [by rewrite lowered_eq, toLowerAscii_idem|]. unfold toCanonicalHeaderKey.
  generalize true. induction k as [|c k IH]; intros b; [done|]. unfold toLowerAscii in *. cbn [canonical map].
  rewrite IH. destruct b; by rewrite ?toLowerAsciiChar_upper, ?toLowerAsciiChar_idem.
Qed.

Lemma normalize_lower mode k : normalizeKey mode (toLowerAscii k) = normalizeKey mode k.
Proof.
  destruct mode; cbn [normalizeKey]; [by rewrite !lowered_eq, toLowerAscii_idem|]. unfold toCanonicalHeaderKey.
  generalize true. induction k as [|c k IH]; intros b; [done|]. unfold toLowerAscii in *. cbn [canonical map].
  rewrite toUpperAsciiChar_lower, toLowerAsciiChar_idem. by rewrite IH.
Qed.

Lemma fields_normal h k v : headers_ok h -> (k, v) ∈ fields h -> normalizeKey (m_mode h) k = k.
Proof.
  intros [H1 H2]. unfold fields. rewrite elem_of_app, elem_of_entries, elem_of_common_fields.
  intros [(idx & -> & Hc)|H]; [|by apply (H1 k v)].
  destruct (m_mode h) eqn:E; [apply common_name_normal|]. by rewrite H2, lookup_empty in Hc.
Qed.

(** A map filled with the fields under their names in lower case answers as the container they are from. *)
Lemma lower_fields_lookup hp m :
  represents hp m ->
  NoDup (lower_fields (fields hp)).*1 /\
  forall key, (list_to_map (lower_fields (fields hp)) : gmap bytes bytes) !! toLowerAscii key = m !! normalizeKey (m_mode hp) key.
Proof.
  intros Hr. pose proof Hr as [Hok _].
  assert ((lower_fields (fields hp)).*1 = toLowerAscii <$> (fields hp).*1) as Hkeys.
  { unfold lower_fields. generalize (fields hp) as l. induction l as [|kv l IH]; [done|]. cbn. by rewrite IH. }
  assert (NoDup (lower_fields (fields hp)).*1) as Hnd.
  { rewrite Hkeys. apply NoDup_fmap_2_strong; [|by apply fields_NoDup].
    intros x y ([x' v] & -> & Hx)%list_elem_of_fmap ([y' w] & -> & Hy)%list_elem_of_fmap E. cbn [fst] in *.
    apply fields_normal in Hx, Hy; [|done..].
    by rewrite <- Hx, <- Hy, <- (normalize_lower _ x'), <- (normalize_lower _ y'), E. }
  split; [done|]. intros key. apply option_eq. intros v. rewrite <- (elem_of_fields hp m _ v Hr).
  rewrite <- elem_of_list_to_map by done. unfold lower_fields. rewrite list_elem_of_fmap. split.
  - intros ([k w] & [= E ->] & Hin). pose proof (fields_normal _ _ _ Hok Hin) as Hk.
    by rewrite <- Hk, <- (normalize_lower _ k), <- E, normalize_lower in Hin.
  - intros Hin. exists (normalizeKey (m_mode hp) key, v). split; [|done]. cbn. by rewrite lower_normalize.
Qed.

(** The whole header. *)
Lemma parse_toString max_count max_line max_uri h h0 rest :
  header_ok max_count max_line max_uri h -> blank max_count max_line max_uri h0 ->
  exists h', parse_chars false (toString h ++ rest) 0 h0 =
      Finished h' (blen (toString h)) /\
    m_parseState h' = Done /\
    receiving (m_method h) (m_version h) (m_uri h) (m_argList h) max_count max_line max_uri
      (list_to_map (lower_fields (fields (m_headerPairs h)))) (blen (fields (m_headerPairs h))) h'.
Proof.
  intros Hok Hb. destruct (parse_request_line max_count max_line max_uri h h0 Hok Hb) as (h1 & Hs1 & Hrec1 & Hp1).
  pose proof Hok as [_ _ _ Hpairs Hfields Hcount].
  pose proof (fields_represents _ Hpairs) as Hm.
  destruct (lower_fields_lookup _ _ Hm) as [Hnd _].
  destruct (parse_fields (m_method h) (m_version h) (m_uri h) (m_argList h) max_count max_line max_uri
    (fields (m_headerPairs h)) ∅ 0 h1) as (h2 & Hs2 & Hrec2 & Hp2); [by left|done|done|done|done|done|done|].
  rewrite foldl_insert_list_to_map in Hrec2 by done. exists (set_state Done (set_state HeaderEndCR h2)).
  split; [|split; [done|by destruct Hrec2 as [A B C D E F]; split]].
  unfold toString, appendTo. fold (fields (m_headerPairs h)). rewrite <- !app_assoc.
  rewrite Hp1. rewrite (@app_nil_l byte), Hp2. cbn [app].
  rewrite (parse_chars_cons _ CR _ _ _ (set_state HeaderEndCR h2)).
  - cbn [parse_chars]. unfold parse_char. cbn [set_state m_parseState]. rewrite bool_decide_eq_true_2 by done.
    f_equal. autorewrite with blen. lia.
  - unfold parse_char. by destruct Hs2 as [-> | ->].
Qed.

(** What a header that was written is read as. *)
Lemma written_header_read max_count max_line max_uri h h0 rest :
  header_ok max_count max_line max_uri h -> blank max_count max_line max_uri h0 ->
  exists h', parse_chars false (toString h ++ rest) 0 h0 = Finished h' (blen (toString h)) /\
    m_method h' = m_method h /\ m_version h' = m_version h /\ m_uri h' = m_uri h /\ m_argList h' = m_argList h /\
    forall key, getValuePtr key (m_headerPairs h') = getValuePtr key (m_headerPairs h).
Proof.
  intros Hok Hb. destruct (parse_toString max_count max_line max_uri h h0 rest Hok Hb) as (h' & Hp & _ & Hrec).
  exists h'. destruct Hrec as [(H1 & H2 & H3 & H4) _ [Hr Hm] _ _ _].
  split_and!; try done. intros key. pose proof (h_pairs _ _ _ _ Hok) as Hpairs.
  rewrite !getValuePtr_spec by (done || apply Hr). destruct Hr as [_ Hf]. rewrite Hf, Hm. cbn [normalizeKey].
  rewrite lowered_eq. pose proof (fields_represents _ Hpairs) as Hrep.
  destruct (lower_fields_lookup _ _ Hrep) as [_ ->]. destruct Hrep as [_ Hrep]. by rewrite Hrep.
Qed.

(** ** Properties *)

(** The two parsers of a request header agree, and the one over buffers depends on the octets only.
    Called with the octets in any number of calls and buffers, [fromIOVec] ends the header where
    [fromString] ends it on all of them, in the same state, and fails with the same error; as long as it
    waits [fromString] waits in the same state too, but for one case: [fromString] refuses a name at its
    257th octet, [fromIOVec] at its colon. All calls return. *)
Theorem header_parsers_agree calls h :
  open h -> key_within h ->
  let d := concat (concat calls) in
  match header_calls calls 0 h with
  | Some (Finished h' n) => 0 < n <= blen d /\ m_parseState h' = Done /\ fromString d h = ((kNoError, n), h')
  | Some (Unfinished h') => open h' /\
      (fromString d h = ((kNoError, 0), h') \/
       (m_parseState h' = HeaderKey /\ 256 < blen (m_parseHeaderKey h') /\ (fromString d h).1 = (kBadRequest, -1)))
  | Some (Broken e _) => (fromString d h).1 = (e, -1)
  | None => False
  end.
Proof.
  intros Ho Hk d. destruct (header_calls_spec calls 0 h Ho) as (r & -> & Ha). fold d in Ha. unfold fromString.
  rewrite bool_decide_eq_false_2 by apply Ho. destruct (iovecs_loop_spec [d] 0 h Ho) as [_ H].
  cbn [concat] in H. rewrite app_nil_r in H. unfold agrees, result_ok in *.
  destruct (bounded_parse d 0 h Hk) as [-> | [[h1 ->] [[h2 Hb] | (h' & Hb & Hs & Hl)]]].
  - destruct (parse_chars false d 0 h) as [h' | h' n | e h'], r as [h3 | h3 n3 | e3 h3]; try done.
    + injection Ha as ->. split; [done|by left].
    + injection Ha as -> ->. destruct H as [Hd Hn]. split_and!; [lia|lia|done|done].
    + by destruct Ha as [-> _].
  - rewrite Hb in *. destruct r as [h3 | h3 n3 | e3 h3]; try done. by destruct Ha as [-> _].
  - rewrite Hb in *. destruct r as [h3 | h3 n3 | e3 h3]; try done. injection Ha as ->. split; [done|]. right.
    by split_and!.
Qed.

(** What [toString] writes, [fromIOVec] reads back. A header whose target and fields can be written is
    read by a server, however its octets are cut into calls and buffers and whatever follows them, up to
    its last octet exactly, with the method, version, path and query arguments it had, and with fields
    that answer every lookup, in any spelling, as the fields that were written. *)
Theorem request_header_roundtrip max_count max_line max_uri h calls rest :
  header_ok max_count max_line max_uri h -> concat (concat calls) = toString h ++ rest ->
  exists h', header_calls calls 0 (new_request_header ServerSide max_count max_line max_uri) =
      Some (Finished h' (blen (toString h))) /\
    m_method h' = m_method h /\ m_version h' = m_version h /\ m_uri h' = m_uri h /\ m_argList h' = m_argList h /\
    forall key, getValuePtr key (m_headerPairs h') = getValuePtr key (m_headerPairs h).
Proof.
  intros Hok Hd. destruct (written_header_read max_count max_line max_uri h _ rest Hok (new_header_blank _ _ _)) as (h' & Hp & Hh).
  exists h'. destruct (header_calls_spec calls 0 (new_request_header ServerSide max_count max_line max_uri))
    as (r & -> & Ha); [by apply new_header_open|]. rewrite Hd, Hp in Ha. destruct r; try done. injection Ha as -> ->.
  split; [done|apply Hh].
Qed.

(** ** Witnesses and examples *)

Definition crlf : bytes := [CR; LF].

Definition sample_calls : list (list bytes) :=
  [[bs "PO"; bs "ST /a%20b?x=1 HT"]; [bs "TP/1.1" ++ [CR]];
   [[LF] ++ bs "HOST:h" ++ crlf ++ bs "X: "; bs "1" ++ crlf ++ bs "x:2" ++ crlf ++ crlf ++ bs "body"]].

Lemma header_parsers_agree_witness :
  let d := concat (concat sample_calls) in
  let h := new_request_header ServerSide 0 0 0 in
  match header_calls sample_calls 0 h with
  | Some (Finished h' n) => 0 < n <= blen d /\ m_parseState h' = Done /\ fromString d h = ((kNoError, n), h')
  | Some (Unfinished h') => open h' /\
      (fromString d h = ((kNoError, 0), h') \/
       (m_parseState h' = HeaderKey /\ 256 < blen (m_parseHeaderKey h') /\ (fromString d h).1 = (kBadRequest, -1)))
  | Some (Broken e _) => (fromString d h).1 = (e, -1)
  | None => False
  end.
Proof.
  apply (header_parsers_agree sample_calls (new_request_header ServerSide 0 0 0)); [apply new_header_open|done].
Defined.

Definition summary (r : option parse_result) :=
  match r with
  | Some (Finished h n) => Some (n, m_method h, m_uri h, entries (m_argList h), fields (m_headerPairs h))
  | _ => None
  end.

Example sample_parse :
  summary (header_calls sample_calls 0 (new_request_header ServerSide 0 0 0)) =
    Some (47, POST, bs "/a b", [(bs "x", bs "1")], [(bs "host", bs "h"); (bs "x", bs "1, 2")]).
Proof. by vm_compute. Qed.

Definition sample_header : HttpRequestHeader :=
  set_fields (run_ops [Add (bs "host") (bs "h"); Add (bs "content-length") (bs "3")] (new_headers ClientSide)).2 0 false 0
    (set_request PUT HttpVersion_1_0 (bs "/a b") {[bs "x" := bs "1 + 1"]} false (new_request_header ClientSide 0 0 0)).

Lemma sample_header_ok : header_ok 10 100 100 sample_header.
Proof.
  split.
  - by left.
  - split; [done|apply (bool_decide_unpack _); by vm_compute| |apply (bool_decide_unpack _); by vm_compute].
    assert (entries (m_argList sample_header) = [(bs "x", bs "1 + 1")]) as -> by by vm_compute.
    split_and!; [apply (bool_decide_unpack _); by vm_compute..|done].
  - by vm_compute.
  - apply (run_ops_spec [Add (bs "host") (bs "h"); Add (bs "content-length") (bs "3")] (new_headers ClientSide) ∅);
      [apply new_headers_represents|by repeat constructor].
  - assert (fields (m_headerPairs sample_header) = [(bs "Content-Length", bs "3"); (bs "Host", bs "h")]) as ->
      by by vm_compute.
    repeat constructor; try done; try (apply (bool_decide_unpack _); by vm_compute).
  - by vm_compute.
Qed.

Lemma request_header_roundtrip_witness :
  exists h', header_calls [[toString sample_header]; [bs "abc"]] 0 (new_request_header ServerSide 10 100 100) =
      Some (Finished h' (blen (toString sample_header))) /\
    m_method h' = PUT /\ m_version h' = HttpVersion_1_0 /\ m_uri h' = bs "/a b" /\ m_argList h' = {[bs "x" := bs "1 + 1"]} /\
    forall key, getValuePtr key (m_headerPairs h') = getValuePtr key (m_headerPairs sample_header).
Proof. apply (request_header_roundtrip 10 100 100 sample_header _ (bs "abc")); [exact sample_header_ok|done]. Defined.

Example sample_text :
  toString sample_header = bs "PUT /a%20b?x=1%20%2B%201 HTTP/1.0" ++ crlf ++ bs "Content-Length: 3" ++ crlf ++
    bs "Host: h" ++ crlf ++ crlf.
Proof. by vm_compute. Qed.

(** A line feed may start a name, and a name may be empty. *)
Example odd_names_accepted :
  summary (header_calls [[bs "GET / HTTP/1.1" ++ crlf ++ bs "a: 1" ++ crlf ++ [LF] ++ bs "b: 2" ++ crlf ++ crlf]] 0
    (new_request_header ServerSide 0 0 0)) =
    Some (31, GET, bs "/", [], [(LF :: bs "b", bs "2"); (bs "a", bs "1")]).
Proof. by vm_compute. Qed.

(** The buffers may carry a name of any length as long as no colon comes: the limit is not checked. *)
Example unbounded_name :
  let d := bs "GET / HTTP/1.1" ++ crlf ++ replicate 1000 (Byte.x61) in
  match header_calls [[d]] 0 (new_request_header ServerSide 0 0 0) with
  | Some (Unfinished h) => blen (m_parseHeaderKey h) = 1000
  | _ => False
  end /\ (fromString d (new_request_header ServerSide 0 0 0)).1 = (kBadRequest, -1).
Proof. by vm_compute. Qed.
