(* ===== verification/HttpChunk.v ===== *)
(** * Chunked bodies

    [galay-http/protoc/http_chunk.{h,cc}]: the incremental parser [ChunkParser] and the encoder
    [Chunk::toChunk]; [HttpChunkReadState] of [galay-http/kernel/http_reader.h], which feeds the parser
    from the receive ring. The texts of errors are left out. *)

From Stdlib Require Import ZArith Lia.
From stdpp Require Import base list strings.
From S2P Require Import Prelude Charconv RingBuffer HttpBase HttpReader.

Open Scope Z_scope.

(** ** The parser *)

Definition kMaxChunkLineSize : Z := 1024.

(** [size_buffer.find(';')] and the view of what is before it. *)
Fixpoint before_extension (size_buffer : bytes) : bytes :=
  match size_buffer with
  | [] => []
  | b :: d => if bool_decide (b = z2b 59) then [] else b :: before_extension d
  end.

Definition parseChunkSizeLine (size_buffer : bytes) : HttpErrorCode + Z :=
  let size_text := before_extension size_buffer in
  if blen size_text =? 0 then inl kChunkSizeConvertError
  else
    match from_chars 16 0 uint64_max size_text with
    | ResultOutOfRange _ => inl kInvalidChunkLength
    | InvalidArgument => inl kChunkSizeConvertError
    | Parsed parsed_size ptr =>
        if ptr =? blen size_text then inr parsed_size else inl kChunkSizeConvertError
    end.

Definition wouldExceedBodyLimit (body_size append_size max_body_size : Z) : bool :=
  if max_body_size =? 0 then false
  else if max_body_size <? body_size then true
  else max_body_size - body_size <? append_size.

Inductive Phase : Type := kSizeLine | kData | kDataCrlf | kLastTrailerLine | kDone.

#[export] Instance Phase_eq_dec : EqDecision Phase.
Proof. solve_decision. Defined.

Record ChunkParser : Type := mkParser {
  m_line_buffer : bytes;
  m_current_chunk_size : Z;
  m_current_chunk_read : Z;
  m_phase : Phase;
  m_pending_cr : bool;
  m_last_consumed : Z;
  m_last_produced_chunk : bool
}.

Definition new_parser : ChunkParser := mkParser [] 0 0 kSizeLine false 0 false.

Definition set_line (line : bytes) (pending : bool) (p : ChunkParser) : ChunkParser :=
  mkParser line (m_current_chunk_size p) (m_current_chunk_read p) (m_phase p) pending
    (m_last_consumed p) (m_last_produced_chunk p).

Definition set_chunk (size read : Z) (phase : Phase) (pending produced : bool) (p : ChunkParser) :
    ChunkParser :=
  mkParser (m_line_buffer p) size read phase pending (m_last_consumed p) produced.

Definition start_call (p : ChunkParser) : ChunkParser :=
  mkParser (m_line_buffer p) (m_current_chunk_size p) (m_current_chunk_read p) (m_phase p)
    (m_pending_cr p) 0 false.

Definition end_call (consumed : Z) (p : ChunkParser) : ChunkParser :=
  mkParser (m_line_buffer p) (m_current_chunk_size p) (m_current_chunk_read p) (m_phase p)
    (m_pending_cr p) consumed (m_last_produced_chunk p).

Definition reset (p : ChunkParser) : ChunkParser := new_parser.

(** What an octet does to the parser, and the error it may end the parse with. *)
Definition octet_result : Type := ChunkParser * option HttpErrorCode.

(** An octet of a line that does not end it. *)
Definition line_octet (c : byte) (p : ChunkParser) : octet_result :=
  if bool_decide (c = CR) then (set_line (m_line_buffer p) true p, None)
  else if bool_decide (c = LF) then (p, Some kInvalidChunkFormat)
  else if kMaxChunkLineSize <=? blen (m_line_buffer p) then (p, Some kInvalidChunkLength)
  else (set_line (m_line_buffer p ++ [c]) (m_pending_cr p) p, None).

(** One octet in the phases [kSizeLine], [kDataCrlf] and [kLastTrailerLine]. *)
Definition size_line_octet (max_body_size : Z) (c : byte) (chunk_data : bytes) (p : ChunkParser) :
    octet_result :=
  if m_pending_cr p then
    let p := set_line (m_line_buffer p) false p in
    if negb (bool_decide (c = LF)) then (p, Some kInvalidChunkFormat)
    else
      match parseChunkSizeLine (m_line_buffer p) with
      | inl e => (p, Some e)
      | inr size =>
          let p := set_chunk size 0 kSizeLine false (m_last_produced_chunk p) (set_line [] false p) in
          if size =? 0 then (set_chunk 0 0 kLastTrailerLine false (m_last_produced_chunk p) p, None)
          else if wouldExceedBodyLimit (blen chunk_data) size max_body_size
          then (p, Some kRequestEntityTooLarge)
          else (set_chunk size 0 kData false (m_last_produced_chunk p) p, None)
      end
  else line_octet c p.

Definition data_crlf_octet (c : byte) (p : ChunkParser) : octet_result :=
  if negb (m_pending_cr p) then
    if negb (bool_decide (c = CR)) then (p, Some kInvalidChunkFormat)
    else (set_line (m_line_buffer p) true p, None)
  else
    let p := set_line (m_line_buffer p) false p in
    if negb (bool_decide (c = LF)) then (p, Some kInvalidChunkFormat)
    else (set_chunk 0 0 kSizeLine false true p, None).

Definition trailer_octet (c : byte) (p : ChunkParser) : octet_result :=
  if m_pending_cr p then
    let p := set_line (m_line_buffer p) false p in
    if negb (bool_decide (c = LF)) then (p, Some kInvalidChunkFormat)
    else if negb (blen (m_line_buffer p) =? 0) then (p, Some kInvalidChunkFormat)
    else (set_chunk (m_current_chunk_size p) (m_current_chunk_read p) kDone false
            (m_last_produced_chunk p) p, None)
  else line_octet c p.

(** The phase [kData]: as much as the chunk and the input hold. *)
Definition data_turn (d : bytes) (p : ChunkParser) (chunk_data : bytes) : Z * ChunkParser * bytes :=
  let chunk_remaining := wrap64 (m_current_chunk_size p - m_current_chunk_read p) in
  let to_read := Z.min chunk_remaining (blen d) in
  let read := wrap64 (m_current_chunk_read p + to_read) in
  let done := read =? m_current_chunk_size p in
  (to_read,
   set_chunk (m_current_chunk_size p) read (if done then kDataCrlf else kData)
     (if done then false else m_pending_cr p) (m_last_produced_chunk p) p,
   chunk_data ++ take (Z.to_nat to_read) d).

(** How the loop over an iovec ends: at its end, with a return, or with an error. The parser and the
    output string are members and references: they keep what was done. *)
Inductive parse_status : Type := More | Last | Failed (e : HttpErrorCode).

Record parse_state : Type := mkParse {
  ps_parser : ChunkParser;
  ps_data : bytes;
  ps_consumed : Z;
  ps_status : parse_status
}.

(** [++consumed] and what the octet did. *)
Definition after_octet (r : octet_result) (st : parse_state) : parse_state :=
  mkParse r.1 (ps_data st) (ps_consumed st + 1)
    (match r.2 with
     | Some e => Failed e
     | None => if bool_decide (m_phase r.1 = kDone) then Last else ps_status st
     end).

(** The loop over one iovec, on what is left of it; [None] is running out of fuel. *)
Fixpoint parse_iov (fuel : nat) (max_body_size : Z) (d : bytes) (st : parse_state) : option parse_state :=
  match d with
  | [] => Some st
  | c :: d' =>
      match fuel with
      | O => None
      | S fuel =>
          let p := ps_parser st in
          let next st' := match ps_status st' with More => parse_iov fuel max_body_size d' st' | _ => Some st' end in
          match m_phase p with
          | kDone => Some (mkParse p (ps_data st) (ps_consumed st) Last)
          | kSizeLine => next (after_octet (size_line_octet max_body_size c (ps_data st) p) st)
          | kData =>
              let '(to_read, p, data) := data_turn d p (ps_data st) in
              parse_iov fuel max_body_size (drop (Z.to_nat to_read) d)
                (mkParse p data (ps_consumed st + to_read) (ps_status st))
          | kDataCrlf => next (after_octet (data_crlf_octet c p) st)
          | kLastTrailerLine => next (after_octet (trailer_octet c p) st)
          end
      end
  end.

Fixpoint parse_iovecs (max_body_size : Z) (iovecs : list bytes) (st : parse_state) : option parse_state :=
  match iovecs with
  | [] => Some (mkParse (end_call (ps_consumed st) (ps_parser st)) (ps_data st) (ps_consumed st)
                  (if bool_decide (m_phase (ps_parser st) = kDone) then Last else More))
  | iov :: iovecs =>
      match parse_iov (S (length iov)) max_body_size iov st with
      | Some st => match ps_status st with More => parse_iovecs max_body_size iovecs st | _ => Some st end
      | None => None
      end
  end.

(** [ChunkParser::parse]. *)
Definition chunk_parse (max_body_size : Z) (iovecs : list bytes) (p : ChunkParser) (chunk_data : bytes) :
    option parse_state :=
  parse_iovecs max_body_size iovecs (mkParse (start_call p) chunk_data 0 More).

(** ** The encoder *)

Definition crlf : bytes := [CR; LF].

Definition toChunk (data : bytes) (is_last : bool) : bytes :=
  if is_last then bs "0" ++ crlf ++ crlf
  else to_chars_unsigned 16 (blen data) ++ crlf ++ data ++ crlf.

(** ** Reading from the ring *)

Section Reader.
Context {B : Type} `{ByteRing B}.
Variables (max_body_size : Z) (emit_available : bool).

Record HttpChunkReadState : Type := mkChunkRead {
  cr_ring : B;
  cr_parser : ChunkParser;
  cr_data : bytes;
  cr_error : option HttpErrorCode;
  cr_is_last : bool
}.

Definition setParseError (e : HttpErrorCode) (st : HttpChunkReadState) : HttpChunkReadState :=
  mkChunkRead (cr_ring st) (cr_parser st) (cr_data st) (Some e) (cr_is_last st).

Definition parseFromRingBuffer (st : HttpChunkReadState) : option (bool * HttpChunkReadState) :=
  match rb_read_iovecs (cr_ring st) with
  | [] => Some (false, st)
  | read_iovecs =>
      match chunk_parse max_body_size read_iovecs (cr_parser st) (cr_data st) with
      | None => None
      | Some r =>
          let st := mkChunkRead (cr_ring st) (ps_parser r) (ps_data r) (cr_error st) (cr_is_last st) in
          match ps_status r with
          | Failed kIncomplete => Some (false, st)
          | Failed e => Some (true, setParseError e st)
          | status =>
              let is_last := match status with Last => true | _ => false end in
              let st := mkChunkRead (rb_consume (ps_consumed r) (cr_ring st)) (cr_parser st) (cr_data st)
                          (cr_error st) (cr_is_last st) in
              if negb (max_body_size =? 0) && (max_body_size <? blen (cr_data st))
              then Some (true, setParseError kRequestEntityTooLarge st)
              else
                Some ((if emit_available then is_last || negb (blen (cr_data st) =? 0) else is_last),
                      mkChunkRead (cr_ring st) (cr_parser st) (cr_data st) (cr_error st) is_last)
          end
      end
  end.

Definition prepareRecvWindow (st : HttpChunkReadState) : bool * HttpChunkReadState :=
  match rb_write_iovecs (cr_ring st) with
  | [] => (false, setParseError kRecvError st)
  | _ => (true, st)
  end.

Definition onBytesReceived (data : bytes) (st : HttpChunkReadState) : HttpChunkReadState :=
  mkChunkRead (rb_receive data (cr_ring st)) (cr_parser st) (cr_data st) (cr_error st) (cr_is_last st).

Definition takeResult (st : HttpChunkReadState) : HttpErrorCode + bool :=
  match cr_error st with Some e => inl e | None => inr (cr_is_last st) end.

(** What the read machine calls. *)
Definition chunk_reader : ReadState HttpChunkReadState (HttpErrorCode + bool) :=
  mkReadState parseFromRingBuffer prepareRecvWindow onBytesReceived setParseError takeResult.
End Reader.
Arguments HttpChunkReadState B : clear implicits.

(** ** Octet by octet

    The reference: the parser fed one octet at a time, whatever the buffers were. *)

Definition data_octet (c : byte) (p : ChunkParser) : ChunkParser :=
  let read := m_current_chunk_read p + 1 in
  let done := read =? m_current_chunk_size p in
  set_chunk (m_current_chunk_size p) read (if done then kDataCrlf else kData)
    (if done then false else m_pending_cr p) (m_last_produced_chunk p) p.

Definition octet_step (max_body_size : Z) (c : byte) (st : parse_state) : parse_state :=
  let p := ps_parser st in
  match m_phase p with
  | kDone => mkParse p (ps_data st) (ps_consumed st) Last
  | kSizeLine => after_octet (size_line_octet max_body_size c (ps_data st) p) st
  | kData => mkParse (data_octet c p) (ps_data st ++ [c]) (ps_consumed st + 1) (ps_status st)
  | kDataCrlf => after_octet (data_crlf_octet c p) st
  | kLastTrailerLine => after_octet (trailer_octet c p) st
  end.

Fixpoint feed (max_body_size : Z) (d : bytes) (st : parse_state) : parse_state :=
  match d with
  | [] => st
  | c :: d =>
      match ps_status st with
      | More => feed max_body_size d (octet_step max_body_size c st)
      | _ => st
      end
  end.

(** Two parsers that differ in the report of their last call only. *)
#[export] Instance parser_equiv : Equiv ChunkParser := fun p q => start_call p = start_call q.

#[export] Instance parser_equivalence : Equivalence (@equiv ChunkParser _).
Proof.
  unfold equiv, parser_equiv. split.
  - by intros p.
  - by intros p q.
  - intros p q r. congruence.
Qed.

#[export] Instance state_equiv : Equiv parse_state := fun s t =>
  ps_parser s ≡ ps_parser t /\ ps_data s = ps_data t /\ ps_consumed s = ps_consumed t /\
  ps_status s = ps_status t.

#[export] Instance state_equivalence : Equivalence (@equiv parse_state _).
Proof.
  unfold equiv, state_equiv. split.
  - by intros s.
  - intros s t (H1 & H2 & H3 & H4). by split_and!.
  - intros s t u (H1 & H2 & H3 & H4) (H5 & H6 & H7 & H8). split_and!; congruence.
Qed.

Lemma start_call_equiv p : start_call p ≡ p.
Proof. done. Qed.

Lemma end_call_equiv n p : end_call n p ≡ p.
Proof. done. Qed.

Lemma equiv_fields (p q : ChunkParser) :
  p ≡ q ->
  m_line_buffer p = m_line_buffer q /\ m_current_chunk_size p = m_current_chunk_size q /\
  m_current_chunk_read p = m_current_chunk_read q /\ m_phase p = m_phase q /\
  m_pending_cr p = m_pending_cr q.
Proof. intros E. by injection E. Qed.

(** Two results of an octet. *)
Definition same_octet (r r' : octet_result) : Prop := r.1 ≡ r'.1 /\ r.2 = r'.2.

Lemma octets_proper max c data p q :
  p ≡ q ->
  same_octet (size_line_octet max c data p) (size_line_octet max c data q) /\
  same_octet (data_crlf_octet c p) (data_crlf_octet c q) /\
  same_octet (trailer_octet c p) (trailer_octet c q) /\ data_octet c p ≡ data_octet c q.
Proof.
  destruct p as [l1 s1 r1 ph1 pe1 lc1 lp1], q as [l2 s2 r2 ph2 pe2 lc2 lp2]. intros Hp.
  injection Hp as -> -> -> -> ->.
  unfold size_line_octet, data_crlf_octet, trailer_octet, line_octet, data_octet.
  cbn [m_phase m_pending_cr m_line_buffer m_current_chunk_size m_current_chunk_read set_line set_chunk].
  split_and!; [repeat (case_match; try done)..|done].
Qed.

Lemma after_octet_proper r r' s t : same_octet r r' -> s ≡ t -> after_octet r s ≡ after_octet r' t.
Proof.
  intros [Hp He] (_ & Hd & Hn & Hs). unfold after_octet. rewrite He, Hd, Hn, Hs.
  apply equiv_fields in Hp as Hf. destruct Hf as (_ & _ & _ & -> & _). by split_and!.
Qed.

#[export] Instance octet_step_proper max c : Proper (equiv ==> equiv) (octet_step max c).
Proof.
  intros s t E. pose proof E as (Hp & Hd & Hn & Hs).
  destruct (octets_proper max c (ps_data s) _ _ Hp) as (H1 & H2 & H3 & H4).
  unfold octet_step. apply equiv_fields in Hp as Hf. destruct Hf as (_ & _ & _ & <- & _).
  rewrite <- Hd, <- Hn, <- Hs. destruct (m_phase (ps_parser s)); try (by apply after_octet_proper); by split_and!.
Qed.

#[export] Instance feed_proper max d : Proper (equiv ==> equiv) (feed max d).
Proof.
  induction d as [|c d IH]; intros s t E; [done|]. cbn [feed].
  pose proof E as (_ & _ & _ & ->). case_match; [|done..]. by apply IH, octet_step_proper.
Qed.

(** ** The loop is the octet machine *)

(** What holds between octets: inside a chunk, something is left to read. *)
Definition parser_ok (p : ChunkParser) : Prop :=
  blen (m_line_buffer p) <= kMaxChunkLineSize /\
  (m_phase p = kData -> 0 <= m_current_chunk_read p < m_current_chunk_size p /\ m_current_chunk_size p < 2 ^ 64).

Definition running (st : parse_state) : Prop := parser_ok (ps_parser st) /\ ps_status st = More.

Lemma parseChunkSizeLine_range line n : parseChunkSizeLine line = inr n -> 0 <= n < 2 ^ 64.
Proof.
  unfold parseChunkSizeLine. destruct (_ =? 0); [done|].
  destruct (from_chars 16 0 uint64_max (before_extension line)) as [v ptr| |] eqn:E; [|done..].
  destruct (ptr =? _); [|done]. intros [= <-]. apply from_chars_range in E. unfold uint64_max in E. lia.
Qed.

Lemma line_octet_ok c p : parser_ok p -> m_phase p <> kData -> parser_ok (line_octet c p).1.
Proof.
  intros [Hl Hd] Hp. unfold line_octet.
  case_bool_decide; [by split|]. case_bool_decide; [by split|].
  destruct (Z.leb_spec kMaxChunkLineSize (blen (m_line_buffer p))); [by split|].
  split; [|done]. cbn [fst set_line m_line_buffer]. rewrite blen_app. change (blen [c]) with 1. lia.
Qed.

Lemma size_line_octet_ok max c data p :
  parser_ok p -> m_phase p = kSizeLine -> parser_ok (size_line_octet max c data p).1.
Proof.
  intros Hok Hp. unfold size_line_octet. destruct (m_pending_cr p).
  2:{ apply line_octet_ok; [done|by rewrite Hp]. }
  destruct Hok as [Hl _]. cbn [set_line m_line_buffer].
  case_bool_decide; cbn [negb]; [|split; [done|]; cbn; by rewrite Hp].
  destruct (parseChunkSizeLine (m_line_buffer p)) as [e|n] eqn:E; [split; [done|]; cbn; by rewrite Hp|].
  apply parseChunkSizeLine_range in E. destruct (Z.eqb_spec n 0); [by split|].
  destruct (wouldExceedBodyLimit _ _ _); [by split|]. split; [done|]. cbn. lia.
Qed.

Lemma octet_step_ok max c st :
  running st -> parser_ok (ps_parser (octet_step max c st)).
Proof.
  intros [Hok _]. unfold octet_step. destruct (m_phase (ps_parser st)) eqn:Hp; cbn [after_octet ps_parser].
  - by apply size_line_octet_ok.
  - destruct Hok as [Hl Hd]. specialize (Hd Hp) as [Hr Hs]. unfold data_octet. split; [done|].
    cbn [set_chunk m_phase m_current_chunk_read m_current_chunk_size].
    destruct (Z.eqb_spec (m_current_chunk_read (ps_parser st) + 1) (m_current_chunk_size (ps_parser st)));
      [done|lia].
  - destruct Hok as [Hl _]. unfold data_crlf_octet. repeat case_match; (split; [done|]); cbn; by rewrite ?Hp.
  - unfold trailer_octet. destruct (m_pending_cr _); [|by apply line_octet_ok; [|rewrite Hp]].
    destruct Hok as [Hl _]. repeat case_match; (split; [done|]); cbn; by rewrite ?Hp.
  - done.
Qed.

Lemma feed_stopped max d st : ps_status st <> More -> feed max d st = st.
Proof. destruct d; [done|]. cbn [feed]. by destruct (ps_status st). Qed.

Lemma feed_app max a b st : feed max (a ++ b) st = feed max b (feed max a st).
Proof.
  revert st. induction a as [|c a IH]; intros st; [done|]. cbn [app feed].
  destruct (ps_status st) eqn:E; [apply IH| |]; symmetry; apply feed_stopped; by rewrite E.
Qed.

(** A block of chunk data, octet by octet. *)
Lemma feed_block max d p data n k :
  m_phase p = kData -> 0 <= m_current_chunk_read p -> 0 < Z.of_nat k -> (k <= length d)%nat ->
  m_current_chunk_read p + Z.of_nat k <= m_current_chunk_size p ->
  feed max d (mkParse p data n More) =
    let read := m_current_chunk_read p + Z.of_nat k in
    let done := read =? m_current_chunk_size p in
    feed max (drop k d)
      (mkParse (set_chunk (m_current_chunk_size p) read (if done then kDataCrlf else kData)
                  (if done then false else m_pending_cr p) (m_last_produced_chunk p) p)
         (data ++ take k d) (n + Z.of_nat k) More).
Proof.
  revert d p data n. induction k as [|k IH]; [lia|]. intros [|c d] p data n Hp Hr _ Hk Hs; [cbn in Hk; lia|].
  cbn [feed ps_status]. unfold octet_step. cbn [ps_parser ps_data ps_consumed ps_status]. rewrite Hp.
  destruct k as [|k].
  - change (Z.of_nat 1) with 1. cbn [drop take skipn firstn]. by rewrite drop_0, take_0.
  - unfold data_octet. destruct (Z.eqb_spec (m_current_chunk_read p + 1) (m_current_chunk_size p)); [lia|].
    cbn [length] in Hk. rewrite IH; cbn [set_chunk m_phase m_current_chunk_read m_current_chunk_size m_pending_cr
      m_last_produced_chunk m_line_buffer m_last_consumed]; [|done|lia..].
    rewrite skipn_cons, firstn_cons, <- app_assoc. cbv zeta.
    replace (m_current_chunk_read p + 1 + Z.of_nat (S k)) with (m_current_chunk_read p + Z.of_nat (S (S k))) by lia.
    replace (n + 1 + Z.of_nat (S k)) with (n + Z.of_nat (S (S k))) by lia. done.
Qed.

Lemma parse_iov_feed fuel max d st :
  running st -> (length d < fuel)%nat -> parse_iov fuel max d st = Some (feed max d st).
Proof.
  revert d st. induction fuel as [|fuel IH]; [lia|]. intros d st Hrun Hf.
  destruct d as [|c d]; [done|]. cbn [length] in Hf. cbn [parse_iov].
  pose proof Hrun as [Hok Hs]. destruct st as [p data n s]. cbn [ps_parser ps_status ps_data ps_consumed] in *.
  subst s. pose proof (octet_step_ok max c _ Hrun) as Hok'.
  assert (forall st', octet_step max c (mkParse p data n More) = st' ->
    match ps_status st' with More => parse_iov fuel max d st' | _ => Some st' end =
    Some (feed max d st')) as Hnext.
  { intros st' Hst. rewrite Hst in Hok'. destruct (ps_status st') eqn:E.
    - by apply IH; [|lia].
    - by rewrite feed_stopped by (by rewrite E).
    - by rewrite feed_stopped by (by rewrite E). }
  cbn [feed ps_status]. unfold octet_step at 1 in Hnext. cbn [ps_parser] in Hnext.
  destruct (m_phase p) eqn:Hp.
  - cbn [ps_data] in Hnext. rewrite Hnext by done. unfold octet_step. cbn [ps_parser ps_data]. by rewrite Hp.
  - destruct Hok as [Hl Hd]. specialize (Hd Hp) as [Hr Hz]. unfold data_turn.
    rewrite wrap64_small by lia. remember (Z.min (m_current_chunk_size p - m_current_chunk_read p) (blen (c :: d))) as k.
    rewrite blen_cons in Heqk. pose proof (blen_nonneg d).
    rewrite wrap64_small by lia. cbv zeta. cbn [ps_data].
    change (feed max d (octet_step max c (mkParse p data n More))) with (feed max (c :: d) (mkParse p data n More)).
    rewrite (feed_block max (c :: d) p data n (Z.to_nat k)), !Z2Nat.id; cbv zeta;
      [|lia|done|lia|lia|unfold blen in *; cbn [length]; lia|lia].
    apply IH.
    + split; [|done]. split; [done|]. cbn [ps_parser set_chunk m_phase m_current_chunk_read m_current_chunk_size].
      destruct (Z.eqb_spec (m_current_chunk_read p + k) (m_current_chunk_size p)); [done|lia].
    + rewrite length_drop. cbn [length]. lia.
  - rewrite Hnext by done. unfold octet_step. cbn [ps_parser]. by rewrite Hp.
  - rewrite Hnext by done. unfold octet_step. cbn [ps_parser]. by rewrite Hp.
  - unfold octet_step. cbn [ps_parser ps_data ps_consumed]. rewrite Hp. by rewrite feed_stopped.
Qed.

(** ** Calls *)

Definition body_ok (max : Z) (data : bytes) (p : ChunkParser) : Prop :=
  max = 0 \/
  (blen data <= max /\
   (m_phase p = kData -> blen data + (m_current_chunk_size p - m_current_chunk_read p) <= max)).

(** A parser between octets, its body within the limit, and not done. *)
Definition live (max : Z) (st : parse_state) : Prop :=
  running st /\ body_ok max (ps_data st) (ps_parser st) /\ m_phase (ps_parser st) <> kDone.

Lemma live_new max : 0 <= max -> live max (mkParse new_parser [] 0 More).
Proof. intros Hm. split_and!; try done. by right. Qed.

Lemma octet_body_ok max c st :
  live max st -> body_ok max (ps_data (octet_step max c st)) (ps_parser (octet_step max c st)).
Proof.
  intros ([[_ Hd] _] & [->|[Hb Hs]] & _); [by left|]. unfold octet_step.
  destruct (m_phase (ps_parser st)) eqn:Hp; cbn [after_octet ps_parser ps_data].
  - unfold size_line_octet, line_octet. cbn [set_line m_line_buffer].
    destruct (m_pending_cr (ps_parser st)).
    + case_bool_decide; cbn [negb]; [|right; split; [done|]; cbn; by rewrite Hp].
      destruct (parseChunkSizeLine _) as [e|n]; [right; split; [done|]; cbn; by rewrite Hp|].
      destruct (n =? 0); [by right|]. unfold wouldExceedBodyLimit.
      destruct (Z.eqb_spec max 0) as [->|_]; [by left|].
      destruct (Z.ltb_spec max (blen (ps_data st))); [by right|].
      destruct (Z.ltb_spec (max - blen (ps_data st)) n); [by right|].
      right. split; [done|]. cbn. lia.
    + repeat case_match; right; (split; [done|]); cbn; by rewrite Hp.
  - specialize (Hs eq_refl). specialize (Hd eq_refl) as [Hr _]. right. unfold data_octet.
    rewrite blen_app. change (blen [c]) with 1. split; [lia|].
    cbn [set_chunk m_phase m_current_chunk_size m_current_chunk_read]. lia.
  - unfold data_crlf_octet. repeat case_match; right; (split; [done|]); cbn; by rewrite ?Hp.
  - unfold trailer_octet, line_octet. repeat case_match; right; (split; [done|]); cbn; by rewrite ?Hp.
  - right. split; [done|]. cbn. by rewrite Hp.
Qed.

Lemma octet_step_status max c st :
  live max st ->
  match ps_status (octet_step max c st) with
  | More => m_phase (ps_parser (octet_step max c st)) <> kDone
  | Last => m_phase (ps_parser (octet_step max c st)) = kDone
  | Failed _ => True
  end /\ ps_consumed (octet_step max c st) = ps_consumed st + 1.
Proof.
  intros ([_ Hs] & _ & Hp). unfold octet_step.
  assert (forall r, match ps_status (after_octet r st) with
    | More => m_phase (ps_parser (after_octet r st)) <> kDone
    | Last => m_phase (ps_parser (after_octet r st)) = kDone | Failed _ => True end /\
    ps_consumed (after_octet r st) = ps_consumed st + 1) as Ha.
  { intros [p [e|]]; cbn; [done|]. rewrite Hs. by case_bool_decide. }
  destruct (m_phase (ps_parser st)) eqn:E; [apply Ha| |apply Ha|apply Ha|done].
  cbn. rewrite Hs. unfold data_octet. by case_match.
Qed.

Lemma live_step max c st :
  live max st -> ps_status (octet_step max c st) = More -> live max (octet_step max c st).
Proof.
  intros Hl Hm. pose proof (octet_step_status max c st Hl) as [Hs _]. rewrite Hm in Hs.
  split; [|by split; [apply octet_body_ok|]]. split; [|done]. apply octet_step_ok, Hl.
Qed.

(** What feeding keeps. *)
Lemma feed_live max d st :
  live max st ->
  match ps_status (feed max d st) with
  | More => live max (feed max d st) /\ ps_consumed (feed max d st) = ps_consumed st + blen d
  | Last => m_phase (ps_parser (feed max d st)) = kDone
  | Failed _ => True
  end /\
  ps_consumed st <= ps_consumed (feed max d st) <= ps_consumed st + blen d /\
  parser_ok (ps_parser (feed max d st)) /\
  body_ok max (ps_data (feed max d st)) (ps_parser (feed max d st)).
Proof.
  revert st. induction d as [|c d IH]; intros st Hl.
  { pose proof Hl as ([Hok Hs] & Hb & Hp). cbn [feed]. rewrite Hs, blen_nil. split_and!; try done; lia. }
  pose proof Hl as ([_ Hs] & _). cbn [feed]. rewrite Hs, blen_cons. pose proof (blen_nonneg d).
  pose proof (octet_step_status max c st Hl) as [Hst Hn].
  destruct (ps_status (octet_step max c st)) eqn:E.
  - destruct (IH _ (live_step _ _ _ Hl E)) as (H1 & H2 & H3 & H4). split_and!; [|lia|lia|done|done].
    destruct (ps_status (feed max d (octet_step max c st))); [|done..].
    destruct H1 as [? ?]. split; [done|lia].
  - rewrite feed_stopped by (by rewrite E). rewrite E.
    split_and!; [done|lia|lia|apply octet_step_ok, Hl|by apply octet_body_ok].
  - rewrite feed_stopped by (by rewrite E). rewrite E.
    split_and!; [done|lia|lia|apply octet_step_ok, Hl|by apply octet_body_ok].
Qed.

Lemma parser_ok_equiv p q : p ≡ q -> parser_ok p -> parser_ok q.
Proof.
  intros E. apply equiv_fields in E as (H1 & H2 & H3 & H4 & _). unfold parser_ok. by rewrite H1, H2, H3, H4.
Qed.

Lemma live_equiv max s t : s ≡ t -> live max s -> live max t.
Proof.
  intros (Hp & Hd & _ & Hs) ([Hok Hr] & Hb & Hph). apply equiv_fields in Hp as Hf.
  destruct Hf as (_ & H2 & H3 & H4 & _). split; [split; [by eapply parser_ok_equiv|congruence]|].
  split; [|congruence]. unfold body_ok in *. by rewrite <- Hd, <- H2, <- H3, <- H4.
Qed.

Lemma parse_iovecs_spec max iovecs st :
  live max st -> exists r, parse_iovecs max iovecs st = Some r /\ r ≡ feed max (concat iovecs) st.
Proof.
  revert st. induction iovecs as [|iov iovecs IH]; intros st Hl; cbn [parse_iovecs concat].
  - destruct Hl as ([_ Hs] & _ & Hp). eexists. split; [done|]. rewrite bool_decide_eq_false_2 by done.
    cbn [feed]. split_and!; [apply end_call_equiv|done|done|done].
  - rewrite parse_iov_feed, feed_app by (apply Hl || lia).
    destruct (feed_live max iov st Hl) as (Hf & _). destruct (ps_status (feed max iov st)) eqn:E.
    + apply IH, Hf.
    + eexists. split; [done|]. by rewrite (feed_stopped max (concat iovecs)) by (by rewrite E).
    + eexists. split; [done|]. by rewrite (feed_stopped max (concat iovecs)) by (by rewrite E).
Qed.

Lemma chunk_parse_spec max iovecs p data :
  live max (mkParse p data 0 More) ->
  exists r, chunk_parse max iovecs p data = Some r /\ r ≡ feed max (concat iovecs) (mkParse p data 0 More).
Proof.
  intros Hl. assert (mkParse (start_call p) data 0 More ≡ mkParse p data 0 More) as E by done.
  destruct (parse_iovecs_spec max iovecs (mkParse (start_call p) data 0 More)) as (r & Hr & Hf).
  { eapply live_equiv; [|exact Hl]. done. }
  exists r. split; [done|]. by rewrite Hf, E.
Qed.

(** The count of octets consumed does not matter to the parser. *)
Definition shift (k : Z) (st : parse_state) : parse_state :=
  mkParse (ps_parser st) (ps_data st) (k + ps_consumed st) (ps_status st).

Lemma octet_step_shift max c k st : octet_step max c (shift k st) = shift k (octet_step max c st).
Proof.
  unfold octet_step, shift, after_octet. cbn [ps_parser ps_data ps_consumed ps_status].
  destruct (m_phase (ps_parser st)); cbn; by rewrite ?Z.add_assoc.
Qed.

Lemma feed_shift max d k st : feed max d (shift k st) = shift k (feed max d st).
Proof.
  revert st. induction d as [|c d IH]; intros st; [done|]. cbn [feed shift ps_status].
  destruct (ps_status st) eqn:E; [|by unfold shift; rewrite E..].
  change (mkParse _ _ _ More) with (shift k (mkParse (ps_parser st) (ps_data st) (ps_consumed st) More)).
  destruct st as [p b n s]. cbn in E. subst s. cbn [ps_parser ps_data ps_consumed].
  by rewrite octet_step_shift, IH.
Qed.

#[export] Instance shift_proper k : Proper (equiv ==> equiv) (shift k).
Proof. intros s t (Hp & Hd & Hn & Hs). unfold shift. rewrite Hd, Hn, Hs. by split_and!. Qed.

(** Calls on one buffer after the other, until one of them ends the body or fails. *)
Fixpoint parse_calls (max : Z) (calls : list (list bytes)) (p : ChunkParser) (data : bytes) :
    option parse_state :=
  match calls with
  | [] => Some (mkParse p data 0 More)
  | iovecs :: calls =>
      match chunk_parse max iovecs p data with
      | None => None
      | Some r =>
          match ps_status r with
          | More => shift (ps_consumed r) <$> parse_calls max calls (ps_parser r) (ps_data r)
          | _ => Some r
          end
      end
  end.

Lemma parse_calls_spec max calls p data :
  live max (mkParse p data 0 More) ->
  exists r, parse_calls max calls p data = Some r /\
    r ≡ feed max (concat (concat calls)) (mkParse p data 0 More).
Proof.
  revert p data. induction calls as [|iovecs calls IH]; intros p data Hl; cbn [parse_calls concat].
  { by eexists. }
  destruct (chunk_parse_spec max iovecs p data Hl) as (r & -> & Hr). rewrite concat_app, feed_app.
  destruct (feed_live max (concat iovecs) _ Hl) as (Hf & _).
  pose proof Hr as (_ & _ & _ & Hst). rewrite <- Hst in Hf. destruct (ps_status r) eqn:E.
  - destruct Hf as [Hf _]. apply (live_equiv _ _ r) in Hf; [|by symmetry].
    destruct (IH (ps_parser r) (ps_data r)) as (r' & -> & Hr').
    { destruct r as [p' d' n' s']. cbn in E. by subst s'. }
    eexists. split; [done|]. rewrite Hr', <- feed_shift, <- Hr. unfold shift. cbn [ps_parser ps_data ps_consumed].
    rewrite Z.add_0_r. destruct r as [p' d' n' s']. cbn in E. by subst s'.
  - eexists. split; [done|]. rewrite (feed_stopped max (concat (concat calls))) by (by rewrite <- Hst). done.
  - eexists. split; [done|]. rewrite (feed_stopped max (concat (concat calls))) by (by rewrite <- Hst). done.
Qed.

(** ** What the encoder writes *)

(** A body as a sender writes it: its chunks, then the last one. *)
Definition chunked (ds : list bytes) : bytes :=
  concat (map (fun d => toChunk d false) ds) ++ toChunk [] true.

Lemma feed_line max l p data n rest :
  m_phase p = kSizeLine -> m_pending_cr p = false -> Forall (fun b => b <> CR /\ b <> LF) l ->
  blen (m_line_buffer p) + blen l <= kMaxChunkLineSize ->
  feed max (l ++ rest) (mkParse p data n More) =
    feed max rest (mkParse (set_line (m_line_buffer p ++ l) false p) data (n + blen l) More).
Proof.
  intros Hp Hc Hl. revert p n Hp Hc. induction Hl as [|b l [Hcr Hlf] Hl IH]; intros p n Hp Hc Hs.
  { rewrite app_nil_r, (@blen_nil byte), Z.add_0_r. destruct p. cbn in *. by subst. }
  rewrite blen_cons in Hs |- *. pose proof (blen_nonneg l). cbn [app feed ps_status].
  unfold octet_step, size_line_octet, line_octet. cbn [ps_parser ps_data]. rewrite Hp, Hc.
  rewrite !bool_decide_eq_false_2 by done. destruct (Z.leb_spec kMaxChunkLineSize (blen (m_line_buffer p))); [lia|].
  unfold after_octet. cbn [fst snd set_line m_phase ps_data ps_consumed ps_status]. rewrite Hp.
  change (bool_decide (kSizeLine = kDone)) with false. cbv iota.
  rewrite IH; cbn [m_phase m_pending_cr m_line_buffer]; [|done|done|].
  - cbn [set_line m_line_buffer m_current_chunk_size m_current_chunk_read m_phase m_last_consumed
      m_last_produced_chunk]. by rewrite <- app_assoc, <- Z.add_assoc.
  - cbn [set_line m_line_buffer]. rewrite blen_app. change (blen [b]) with 1. lia.
Qed.

Lemma before_extension_id l : Forall (fun b => b <> z2b 59) l -> before_extension l = l.
Proof. induction 1 as [|b l Hb _ IH]; [done|]. cbn [before_extension]. by rewrite bool_decide_eq_false_2, IH. Qed.

Lemma hex_octet b : is_Some (digit_value 16 b) -> b <> CR /\ b <> LF /\ b <> z2b 59.
Proof. intros [v Hv]. split_and!; intros ->; by vm_compute in Hv. Qed.

Lemma hex_line n : 0 <= n -> Forall (fun b => b <> CR /\ b <> LF) (to_chars_unsigned 16 n).
Proof.
  intros Hn. eapply Forall_impl; [by apply to_chars_unsigned_digits|]. intros b Hb. by apply hex_octet in Hb as (? & ? & _).
Qed.

Lemma parse_hex_line n : 0 <= n < 2 ^ 64 -> parseChunkSizeLine (to_chars_unsigned 16 n) = inr n.
Proof.
  intros Hn. unfold parseChunkSizeLine. rewrite before_extension_id.
  - destruct (to_chars_unsigned_spec 16 n) as (_ & _ & _ & Hne); [lia..|].
    destruct (Z.eqb_spec (blen (to_chars_unsigned 16 n)) 0); [by destruct (to_chars_unsigned 16 n)|].
    pose proof (from_chars_unsigned 16 uint64_max n []) as E. rewrite app_nil_r in E.
    rewrite E; [by rewrite Z.eqb_refl|lia|unfold uint64_max; lia|done].
  - eapply Forall_impl; [apply to_chars_unsigned_digits; lia|]. intros b Hb. by apply hex_octet in Hb as (_ & _ & ?).
Qed.

Lemma hex_line_length n : 0 <= n < 2 ^ 64 -> blen (to_chars_unsigned 16 n) <= 64.
Proof.
  intros Hn. pose proof (to_chars_unsigned_length 16 n) as Hl.
  assert (Z.log2 n < 64) as Hg; [|lia]. destruct (Z.eq_dec n 0) as [->|]; [done|]. apply Z.log2_lt_pow2; lia.
Qed.

(** The line ends: the size of a chunk that fits, or the size 0. *)
Lemma step_size_line max l data n m :
  parseChunkSizeLine l = inr m -> 0 < m -> max = 0 \/ blen data + m <= max ->
  octet_step max LF (octet_step max CR (mkParse (set_line l false new_parser) data n More)) =
    mkParse (set_chunk m 0 kData false false new_parser) data (n + 2) More.
Proof.
  intros Hl Hm Hb.
  assert (octet_step max CR (mkParse (set_line l false new_parser) data n More) =
    mkParse (set_line l true new_parser) data (n + 1) More) as -> by done.
  unfold octet_step, size_line_octet. cbn [ps_parser set_line m_phase new_parser m_pending_cr m_line_buffer].
  rewrite bool_decide_eq_true_2, Hl by done. cbn [negb ps_data]. destruct (Z.eqb_spec m 0); [lia|].
  replace (wouldExceedBodyLimit (blen data) m max) with false.
  - unfold after_octet. cbn. f_equal. lia.
  - symmetry. unfold wouldExceedBodyLimit. destruct (Z.eqb_spec max 0); [done|].
    destruct (Z.ltb_spec max (blen data)); [lia|]. apply Z.ltb_ge. lia.
Qed.

Lemma feed_data_crlf max data n q rest :
  m_phase q = kDataCrlf -> m_pending_cr q = false -> m_line_buffer q = [] ->
  feed max (crlf ++ rest) (mkParse q data n More) ≡ feed max rest (mkParse new_parser data (n + 2) More).
Proof.
  destruct q as [l s r ph pe lc lp]. cbn [m_phase m_pending_cr m_line_buffer]. intros -> -> ->.
  change (feed max (crlf ++ rest) _) with
    (feed max rest (mkParse (mkParser [] 0 0 kSizeLine false lc true) data (n + 1 + 1) More)).
  rewrite <- Z.add_assoc. apply feed_proper. by split_and!.
Qed.

(** Between chunks the parser is a new one, but for what its last call reports. *)
Lemma feed_size max data n m p rest :
  0 < m < 2 ^ 64 -> max = 0 \/ blen data + m <= max -> p ≡ new_parser ->
  feed max (to_chars_unsigned 16 m ++ crlf ++ rest) (mkParse p data n More) ≡
    feed max rest (mkParse (set_chunk m 0 kData false false new_parser) data
                     (n + blen (to_chars_unsigned 16 m) + 2) More).
Proof.
  intros Hm Hb Hp. pose proof (hex_line_length m ltac:(lia)) as Hl.
  rewrite (feed_proper max _ _ (mkParse new_parser data n More)) by (by split_and!).
  rewrite feed_line; [|done|done|apply hex_line; lia|].
  2:{ change (m_line_buffer new_parser) with (@nil byte). rewrite (@blen_nil byte). unfold kMaxChunkLineSize. lia. }
  change (m_line_buffer new_parser ++ to_chars_unsigned 16 m) with (to_chars_unsigned 16 m).
  pose proof (step_size_line max _ data (n + blen (to_chars_unsigned 16 m)) m (parse_hex_line m ltac:(lia)) ltac:(lia) Hb) as Hs.
  change (crlf ++ rest) with (CR :: LF :: rest). cbn [feed ps_status].
  assert (forall st, ps_status (octet_step max CR st) = More ->
    match ps_status (octet_step max CR st) with
    | More => feed max rest (octet_step max LF (octet_step max CR st)) | _ => octet_step max CR st end =
    feed max rest (octet_step max LF (octet_step max CR st))) as -> by (intros st ->; done).
  - by rewrite Hs.
  - done.
Qed.

Lemma feed_chunk max d data n p rest :
  d <> [] -> blen d < 2 ^ 64 -> max = 0 \/ blen data + blen d <= max -> p ≡ new_parser ->
  feed max (toChunk d false ++ rest) (mkParse p data n More) ≡
    feed max rest (mkParse new_parser (data ++ d) (n + blen (toChunk d false)) More).
Proof.
  intros Hd Hl Hb Hp. pose proof (blen_nonneg d). assert (0 < blen d) by (by apply blen_pos).
  unfold toChunk. rewrite <- !app_assoc, feed_size by (done || lia).
  rewrite (feed_block max (d ++ crlf ++ rest) _ data _ (length d)); cbn [set_chunk m_phase m_current_chunk_read m_current_chunk_size];
    [|done|lia|unfold blen in *; lia|rewrite length_app; lia|unfold blen in *; lia].
  cbv zeta. fold (blen d). rewrite Z.add_0_l, Z.eqb_refl, drop_app_length, take_app_length.
  rewrite feed_data_crlf by done. rewrite !blen_app. change (blen crlf) with 2.
  apply feed_proper. split_and!; try done. cbn [ps_consumed]. lia.
Qed.

Lemma feed_chunks max ds data n p rest :
  Forall (fun d => d <> []) ds -> blen (concat ds) < 2 ^ 64 -> max = 0 \/ blen data + blen (concat ds) <= max ->
  p ≡ new_parser ->
  feed max (concat (map (fun d => toChunk d false) ds) ++ rest) (mkParse p data n More) ≡
    feed max rest (mkParse p (data ++ concat ds) (n + blen (concat (map (fun d => toChunk d false) ds))) More).
Proof.
  intros Hd. revert data n p. induction Hd as [|d ds Hd Hds IH]; intros data n p Hl Hb Hp; cbn [map concat app].
  { by rewrite app_nil_r, (@blen_nil byte), Z.add_0_r. }
  cbn [concat] in Hl, Hb. rewrite blen_app in Hl, Hb. pose proof (blen_nonneg d). pose proof (blen_nonneg (concat ds)).
  rewrite <- app_assoc, feed_chunk by (done || lia). rewrite IH; [|lia|rewrite blen_app; lia|done].
  apply feed_proper. rewrite <- app_assoc, blen_app, Z.add_assoc. by split_and!.
Qed.

(** The last chunk and what follows it, from a parser between chunks. *)
Lemma feed_chunked max ds p rest :
  Forall (fun d => d <> []) ds -> blen (concat ds) < 2 ^ 64 -> max = 0 \/ blen (concat ds) <= max -> p ≡ new_parser ->
  feed max (chunked ds ++ rest) (mkParse p [] 0 More) ≡
    mkParse (set_chunk 0 0 kDone false false new_parser) (concat ds) (blen (chunked ds)) Last.
Proof.
  intros Hd Hl Hb Hp. unfold chunked. rewrite <- app_assoc, feed_chunks, (@app_nil_l byte), Z.add_0_l by done.
  rewrite (feed_proper max _ _ (mkParse new_parser (concat ds)
    (blen (concat (map (fun d => toChunk d false) ds))) More)) by (by split_and!).
  rewrite feed_app, blen_app, feed_stopped; change (blen (toChunk [] true)) with 5.
  - split_and!; try done. remember (blen (concat (map _ ds))) as n.
    change (n + 1 + 1 + 1 + 1 + 1 = n + 5). lia.
  - done.
Qed.

(** The wire up to a place before its end leaves the parser running. *)
Lemma feed_prefix max u v ds rest p :
  0 <= max -> Forall (fun d => d <> []) ds -> blen (concat ds) < 2 ^ 64 ->
  max = 0 \/ blen (concat ds) <= max -> p ≡ new_parser ->
  u ++ v = chunked ds ++ rest -> blen u < blen (chunked ds) ->
  live max (feed max u (mkParse p [] 0 More)) /\ ps_consumed (feed max u (mkParse p [] 0 More)) = blen u.
Proof.
  intros Hm Hd Hl Hb Hp He Hu.
  assert (live max (mkParse p [] 0 More)) as Hlive.
  { eapply live_equiv; [|by apply live_new]. by split_and!. }
  pose proof (feed_chunked max ds p rest Hd Hl Hb Hp) as (_ & _ & Hc & Hs).
  destruct (feed_live max u _ Hlive) as (H1 & H2 & _). rewrite <- He, feed_app in Hc, Hs.
  cbn [ps_consumed ps_status] in *. destruct (ps_status (feed max u _)) eqn:E; [by rewrite Z.add_0_l in H1| |];
    rewrite (feed_stopped max v) in Hc by (by rewrite E); lia.
Qed.

(** ** The reader over the ring *)

Section Delivery.
Context {B : Type} `{ByteRingLaws B}.
Variable (max : Z).

(** One parse of what the ring holds: while the body goes on everything is consumed, at its end the
    octets after it stay. *)
Lemma parse_from_ring b p data :
  rb_ok b -> live max (mkParse p data 0 More) ->
  let r := feed max (rb_view b) (mkParse p data 0 More) in
  match ps_status r with
  | More => exists b' p', parseFromRingBuffer max false (mkChunkRead b p data None false) =
      Some (false, mkChunkRead b' p' (ps_data r) None false) /\
      p' ≡ ps_parser r /\ rb_ok b' /\ rb_capacity b' = rb_capacity b /\ rb_view b' = []
  | Last => exists b' p', parseFromRingBuffer max false (mkChunkRead b p data None false) =
      Some (true, mkChunkRead b' p' (ps_data r) None true) /\
      rb_ok b' /\ rb_view b' = drop (Z.to_nat (ps_consumed r)) (rb_view b)
  | Failed _ => True
  end.
Proof.
  intros Hok Hl r. unfold parseFromRingBuffer. cbn [cr_ring cr_parser cr_data cr_error cr_is_last].
  pose proof (rb_read_concat b Hok) as Hcat. pose proof (rb_read_empty b Hok) as He.
  destruct (rb_read_iovecs b) as [|iov iovs] eqn:Ei.
  { subst r. rewrite (proj1 He eq_refl). cbn [feed ps_status]. exists b, p. by rewrite (proj1 He eq_refl). }
  destruct (chunk_parse_spec max (iov :: iovs) p data Hl) as (s & -> & Hs). rewrite Hcat in Hs. fold r in Hs.
  destruct (feed_live max (rb_view b) _ Hl) as (Hlive & Hn & _ & Hb). fold r in Hlive, Hn, Hb.
  cbn [ps_consumed] in Hn. destruct Hs as (Hp & Hd & Hc & Hst). rewrite Hd, Hc, Hst.
  destruct (rb_consume_view b (ps_consumed r) Hok ltac:(lia)) as (Hok' & Hcap & Hv).
  assert (negb (max =? 0) && (max <? blen (ps_data r)) = false) as Hlimit.
  { destruct Hb as [->|[Hb _]]; [done|]. rewrite (proj2 (Z.ltb_ge _ _)) by done. apply andb_false_r. }
  destruct (ps_status r) eqn:E; [..|done]; cbn [cr_ring cr_parser cr_data cr_error cr_is_last];
    rewrite Hlimit; do 2 eexists; (split; [done|]).
  - split_and!; [done|done|done|]. rewrite Hv. destruct Hlive as [_ ->]. cbn [ps_consumed].
    apply drop_ge. unfold blen. lia.
  - by split.
Qed.

Context (Hmax : 0 <= max) (ds : list bytes) (Hds : Forall (fun d => d <> []) ds).
Context (Hlen : blen (concat ds) < 2 ^ 64) (Hlimit : max = 0 \/ blen (concat ds) <= max).

(** The reader after the octets [u] of the wire: its parser is that of the octet machine, and the rest
    of the wire is in the ring and still to come. *)
Definition reader_at (u tail rest : bytes) (b : B) (p : ChunkParser) (data : bytes) : Prop :=
  rb_ok b /\ u ++ rb_view b ++ tail = chunked ds ++ rest /\ blen u < blen (chunked ds) /\
  mkParse p data (blen u) More ≡ feed max u (mkParse new_parser [] 0 More).

(** One turn: the ring is emptied into the parser, or the body ends inside what the ring holds. *)
Lemma read_turn u tail rest b p data :
  reader_at u tail rest b p data ->
  (exists b' p' data', parseFromRingBuffer max false (mkChunkRead b p data None false) =
     Some (false, mkChunkRead b' p' data' None false) /\
     rb_capacity b' = rb_capacity b /\ rb_view b' = [] /\ reader_at (u ++ rb_view b) tail rest b' p' data') \/
  (exists b' p', parseFromRingBuffer max false (mkChunkRead b p data None false) =
     Some (true, mkChunkRead b' p' (concat ds) None true) /\ rb_ok b' /\ rb_view b' ++ tail = rest).
Proof.
  intros (Hok & He & Hu & Hp).
  destruct (feed_prefix max u _ ds rest new_parser Hmax Hds Hlen Hlimit ltac:(done) He Hu) as [Hl _].
  apply (live_equiv _ _ (mkParse p data (blen u) More)) in Hl; [|done].
  assert (live max (mkParse p data 0 More)) as Hl0 by exact Hl.
  pose proof (parse_from_ring b p data Hok Hl0) as Hparse. cbv zeta in Hparse.
  assert (shift (blen u) (feed max (rb_view b) (mkParse p data 0 More)) ≡
    feed max (u ++ rb_view b) (mkParse new_parser [] 0 More)) as Hr.
  { rewrite feed_app, <- Hp, <- feed_shift. unfold shift. cbn [ps_parser ps_data ps_consumed ps_status].
    by rewrite Z.add_0_r. }
  remember (feed max (rb_view b) (mkParse p data 0 More)) as r.
  destruct (decide (blen (u ++ rb_view b) < blen (chunked ds))) as [Hlt|Hge].
  - left. rewrite app_assoc in He.
    destruct (feed_prefix max _ _ ds rest new_parser Hmax Hds Hlen Hlimit ltac:(done) He Hlt) as [Hl' Hn].
    pose proof Hr as (Hr1 & Hr2 & Hr3 & Hr4). destruct Hl' as ((_ & Hs) & _).
    cbn [shift ps_parser ps_data ps_consumed ps_status] in Hr1, Hr2, Hr3, Hr4. rewrite Hr4, Hs in Hparse.
    destruct Hparse as (b' & p' & Hpr & Hp' & Hok' & Hcap & Hv). exists b', p', (ps_data r).
    split_and!; [done|done|done|]. split_and!; [done|by rewrite Hv, <- He|done|].
    rewrite <- Hr. split_and!; cbn [ps_parser ps_data ps_consumed ps_status shift]; congruence.
  - right. assert (exists k, u ++ rb_view b = chunked ds ++ k /\ rest = k ++ tail) as (k & Hk & ->).
    { rewrite app_assoc in He. apply app_eq_inv in He as [(k & Hk & ->)|(k & Hk & ->)]; [by exists k|].
      rewrite Hk, (blen_app (u ++ rb_view b)) in Hge. assert (k = []) as ->; [|exists []; by rewrite Hk, !app_nil_r].
      destruct k as [|x k]; [done|]. rewrite blen_cons in Hge. pose proof (blen_nonneg k). lia. }
    rewrite Hk in Hr. pose proof (feed_chunked max ds new_parser k Hds Hlen Hlimit ltac:(done)) as Hc.
    rewrite Hc in Hr. destruct Hr as (Hr1 & Hr2 & Hr3 & Hr4).
    cbn [shift ps_parser ps_data ps_consumed ps_status] in Hr2, Hr3, Hr4. rewrite Hr4, Hr2 in Hparse.
    destruct Hparse as (b' & p' & Hpr & Hok' & Hv). exists b', p'. split_and!; [done|done|].
    rewrite Hv. f_equal. rewrite <- (drop_app_add u), Hk.
    replace (length u + Z.to_nat (ps_consumed r))%nat with (Z.to_nat (blen (chunked ds))) by (unfold blen in *; lia).
    apply drop_blen.
Qed.

(** The stages of the read machine. *)
Definition ready (rest : bytes) (cap : Z) (tail : bytes) (st : HttpChunkReadState B) : Prop :=
  exists u b p data, st = mkChunkRead b p data None false /\ rb_capacity b = cap /\ reader_at u tail rest b p data.
Definition waiting (rest : bytes) (cap : Z) (tail : bytes) (st : HttpChunkReadState B) : Prop :=
  ready rest cap tail st /\ rb_view (cr_ring st) = [].
Definition finished (rest tail : bytes) (st : HttpChunkReadState B) : Prop :=
  cr_data st = concat ds /\ cr_error st = None /\ cr_is_last st = true /\ rb_ok (cr_ring st) /\
  rb_view (cr_ring st) ++ tail = rest.

Lemma chunk_reader_delivers chunks st rest cap :
  Forall (fun c => c <> [] /\ blen c <= cap) chunks -> ready rest cap (concat chunks) st ->
  exists front back st', chunks = front ++ back /\
    read_machine (chunk_reader max false) (map Received chunks) st =
      Some (Completed (takeResult st') st' (map Received back)) /\ finished rest (concat back) st'.
Proof.
  apply (read_machine_delivers (chunk_reader max false) (ready rest cap) (waiting rest cap) (finished rest)).
  - intros tail s (u & b & p & d & -> & Hc & Hat).
    destruct (read_turn u tail rest b p d Hat) as [(b' & p' & d' & Hp & Hc' & Hv & Hat')|(b' & p' & Hp & Hok & Hv)].
    + exists false, (mkChunkRead b' p' d' None false). split; [done|]. split; [|done].
      exists (u ++ rb_view b), b', p', d'. split_and!; [done|congruence|done].
    + exists true, (mkChunkRead b' p' (concat ds) None true). split; [done|]. by split_and!.
  - intros Hcap tail s [(u & b & p & d & -> & Hc & Hok & _) Hv]. cbn [cr_ring] in Hv.
    pose proof (write_window_open b Hok Hv ltac:(lia)). cbn. unfold prepareRecvWindow. cbn [cr_ring].
    by destruct (rb_write_iovecs b).
  - intros s [(u & b & p & d & -> & _ & _ & He & Hu & _) Hv]. cbn [cr_ring] in Hv.
    rewrite Hv in He. cbn [app] in He. rewrite app_nil_r in He. rewrite He, blen_app in Hu.
    pose proof (blen_nonneg rest). lia.
  - intros c tail s Hne Hle [(u & b & p & d & -> & Hc & Hok & He & Hu & Hp) Hv]. cbn [cr_ring] in Hv.
    destruct (receive_into_empty b c Hok Hv ltac:(lia)) as (Hok' & Hc' & Hv').
    exists u, (rb_receive c b), p, d. split; [done|]. split; [congruence|].
    split_and!; [done| |done|done]. rewrite Hv in He. by rewrite Hv'.
Qed.
End Delivery.

(** ** Properties *)

(** The chunk parser does not depend on how the octets come. Fed one buffer list after the other it
    ends as it does on all the octets in a single buffer: the same status or error, the same body, the
    same count of octets consumed, and but for the report of the last call the same parser. It always
    returns, consumes no more than it is given, and never lets the body exceed the limit, a failed parse
    included. *)
Theorem chunk_incremental max calls p data :
  live max (mkParse p data 0 More) ->
  exists r r', parse_calls max calls p data = Some r /\
    chunk_parse max [concat (concat calls)] p data = Some r' /\ r ≡ r' /\
    0 <= ps_consumed r <= blen (concat (concat calls)) /\
    (max = 0 \/ blen (ps_data r) <= max) /\
    (ps_status r = More -> ps_consumed r = blen (concat (concat calls)) /\ live max r).
Proof.
  intros Hl. destruct (parse_calls_spec max calls p data Hl) as (r & Hr & Er).
  destruct (chunk_parse_spec max [concat (concat calls)] p data Hl) as (r' & Hr' & Er').
  cbn [concat] in Er'. rewrite app_nil_r in Er'. exists r, r'.
  destruct (feed_live max (concat (concat calls)) _ Hl) as (H1 & H2 & _ & H3). cbn [ps_consumed] in H1, H2.
  pose proof Er as (_ & Hd & Hn & Hs). rewrite <- Hd in H3. rewrite <- Hn in H1, H2. rewrite <- Hs in H1.
  split_and!; [done|done|by rewrite Er, Er'|lia|lia|destruct H3 as [?|[? _]]; [by left|by right]|].
  intros E. rewrite E in H1. destruct H1 as [Hlive ?]. split; [lia|]. by eapply live_equiv.
Qed.

(** C37: A body sent in nonempty chunks with [Chunk::toChunk] and ended by the last chunk is delivered by
    the reader, over any ring and however the octets are split between the reads of the socket: the
    reader completes, with the last chunk seen, with the concatenation of the chunks as the body, and
    with what follows the body still in the ring or on the socket. *)
Theorem chunked_body_delivered {B} `{ByteRingLaws B} max ds rest b chunks :
  0 <= max -> Forall (fun d => d <> []) ds -> blen (concat ds) < 2 ^ 64 ->
  max = 0 \/ blen (concat ds) <= max ->
  rb_ok b -> Forall (fun c => c <> [] /\ blen c <= rb_capacity b) chunks ->
  rb_view b ++ concat chunks = chunked ds ++ rest ->
  exists front back st, chunks = front ++ back /\
    read_machine (chunk_reader max false) (map Received chunks) (mkChunkRead b new_parser [] None false) =
      Some (Completed (inr true) st (map Received back)) /\
    cr_data st = concat ds /\ rb_ok (cr_ring st) /\ rb_view (cr_ring st) ++ concat back = rest.
Proof.
  intros Hmax Hds Hlen Hlim Hok Hc He.
  destruct (chunk_reader_delivers max Hmax ds Hds Hlen Hlim chunks (mkChunkRead b new_parser [] None false) rest
    (rb_capacity b) Hc) as (front & back & st & -> & Hread & Hd & He' & Hl & Hok' & Hv).
  - exists [], b, new_parser, []. split; [done|]. split; [done|]. split_and!; [done|done| |done].
    unfold chunked. rewrite blen_app. pose proof (blen_nonneg (concat (map (fun d => toChunk d false) ds))).
    change (blen (toChunk [] true)) with 5. rewrite (@blen_nil byte). lia.
  - exists front, back, st. split; [done|]. split; [|done]. rewrite Hread. unfold takeResult. by rewrite He', Hl.
Qed.

(** ** Witnesses and examples *)

Lemma chunk_incremental_witness :
  exists r r', parse_calls 10 [[bs "5" ++ [CR]; LF :: bs "he"]; [bs "llo" ++ crlf]] new_parser [] = Some r /\
    chunk_parse 10 [bs "5" ++ crlf ++ bs "hello" ++ crlf] new_parser [] = Some r' /\ r ≡ r' /\
    0 <= ps_consumed r <= 10 /\ (10 = 0 \/ blen (ps_data r) <= 10) /\
    (ps_status r = More -> ps_consumed r = 10 /\ live 10 r).
Proof.
  apply (chunk_incremental 10 [[bs "5" ++ [CR]; LF :: bs "he"]; [bs "llo" ++ crlf]] new_parser []).
  apply live_new. lia.
Defined.

Lemma chunked_body_delivered_witness :
  exists front back st, [bs "3" ++ [CR]; LF :: bs "abc"; crlf ++ bs "0" ++ crlf ++ crlf ++ bs "G"] = front ++ back /\
    read_machine (chunk_reader 5 false) (map Received [bs "3" ++ [CR]; LF :: bs "abc"; crlf ++ bs "0" ++ crlf ++ crlf ++ bs "G"])
      (mkChunkRead (new_vector 8) new_parser [] None false) = Some (Completed (inr true) st (map Received back)) /\
    cr_data st = bs "abc" /\ rb_ok (cr_ring st) /\ rb_view (cr_ring st) ++ concat back = bs "G".
Proof.
  apply (chunked_body_delivered 5 [bs "abc"] (bs "G") (new_vector 8)
    [bs "3" ++ [CR]; LF :: bs "abc"; crlf ++ bs "0" ++ crlf ++ crlf ++ bs "G"]).
  - lia.
  - by repeat constructor.
  - done.
  - by right.
  - by vm_compute.
  - by repeat constructor.
  - reflexivity.
Defined.

(** A chunk of no octets that is not the last one reads as the end of the body. *)
Example empty_chunk_ends_body d : toChunk [] false = toChunk d true.
Proof. reflexivity. Qed.

(** A trailer field, which RFC 9112 7.1.2 allows after the last chunk, fails the parse. *)
Example trailer_field_refused :
  match chunk_parse 0 [bs "0" ++ crlf ++ bs "A: b" ++ crlf ++ crlf] new_parser [] with
  | Some r => ps_status r = Failed kInvalidChunkFormat
  | None => False
  end.
Proof. by vm_compute. Qed.

(** The errors of the parser: no digits, a size over 64 bits, a bare line feed, data longer than the
    chunk, a body over the limit. *)
Example parse_errors :
  let status d max := ps_status <$> chunk_parse max [d] new_parser [] in
  status (bs ";x" ++ crlf) 0 = Some (Failed kChunkSizeConvertError) /\
  status (bs "10000000000000000" ++ crlf) 0 = Some (Failed kInvalidChunkLength) /\
  status (bs "1" ++ [LF]) 0 = Some (Failed kInvalidChunkFormat) /\
  status (bs "1" ++ crlf ++ bs "ab") 0 = Some (Failed kInvalidChunkFormat) /\
  status (bs "5" ++ crlf) 4 = Some (Failed kRequestEntityTooLarge) /\
  status (bs "5" ++ crlf) 5 = Some More.
Proof. by vm_compute. Qed.
