(* ===== verification/HttpRequest.v ===== *)
(** * HTTP/1 requests

    [galay-http/protoc/http_request.{h,cc}]: [HttpRequest], its framing and its incremental reading;
    [HttpRequestReadState] of [galay-http/kernel/http_reader.h], which reads a request from the receive
    ring within the limits of [HttpReaderSetting]. Route parameters, which the router attaches to a request
    that was read, the texts of errors and the sizes reserved in advance are left out. *)

From Stdlib Require Import ZArith Lia.
From stdpp Require Import base list strings gmap.
From S2P Require Import Prelude Charconv RingBuffer HttpBase HttpReader HttpHeaders HttpUri HttpRequestHeader HttpChunk.
Import RequestParseState.

Open Scope Z_scope.

(** ** The request *)

Record HttpRequest : Type := mkRequest {
  m_body : bytes;
  m_header : HttpRequestHeader;
  m_contentLength : Z;
  m_bodyParsed : Z;
  m_chunkParser : ChunkParser;
  m_headerParsed : bool
}.

Definition new_request (h : HttpRequestHeader) : HttpRequest := mkRequest [] h 0 0 new_parser false.

Definition set_header (h : HttpRequestHeader) (r : HttpRequest) : HttpRequest :=
  mkRequest (m_body r) h (m_contentLength r) (m_bodyParsed r) (m_chunkParser r) (m_headerParsed r).
Definition set_body (body : bytes) (length parsed : Z) (p : ChunkParser) (r : HttpRequest) : HttpRequest :=
  mkRequest body (m_header r) length parsed p (m_headerParsed r).

Definition reset (r : HttpRequest) : HttpRequest :=
  mkRequest [] (HttpRequestHeader.reset (m_header r)) 0 0 (HttpChunk.reset (m_chunkParser r)) false.

Definition set_pairs (pairs : HeaderPair) (h : HttpRequestHeader) : HttpRequestHeader :=
  set_fields pairs (m_headerCount h) (m_hasContentLength h) (m_contentLengthValue h) h.

Definition toString (r : HttpRequest) : bytes * HttpRequest :=
  let h := m_header r in
  let h :=
    if isChunked h then h
    else set_pairs (addHeaderPairIfNotExist (bs "Content-Length") (to_chars (blen (m_body r))) (m_headerPairs h)).2 h in
  (if isChunked h then HttpRequestHeader.toString h else HttpRequestHeader.toString h ++ m_body r, set_header h r).

Definition isComplete (r : HttpRequest) : bool :=
  if negb (m_headerParsed r) then false
  else if isChunked (m_header r) then false
  else m_contentLength r <=? m_bodyParsed r.

(** [detail::removeHeaderPairLoose]: the key as it is given, in lower case, in upper case, in words. *)
Definition removeHeaderPairLoose (key : bytes) (h : HeaderPair) : HeaderPair :=
  let h := (removeHeaderPair key h).2 in
  let lower := toLowerAscii key in
  let h := if bool_decide (lower = key) then h else (removeHeaderPair lower h).2 in
  let upper := map toUpperAsciiChar key in
  let h := if bool_decide (upper = key) || bool_decide (upper = lower) then h else (removeHeaderPair upper h).2 in
  let words := canonical true lower in
  if bool_decide (words = key) || bool_decide (words = lower) || bool_decide (words = upper) then h
  else (removeHeaderPair words h).2.

(** The loop that passes over the octets of the header. *)
Fixpoint skip_header (iovecs : list bytes) (header_bytes : Z) : list bytes :=
  match iovecs with
  | [] => []
  | iov :: rest =>
      if header_bytes <=? 0 then iovecs
      else if blen iov <=? header_bytes then skip_header rest (header_bytes - blen iov)
      else drop (Z.to_nat header_bytes) iov :: rest
  end.

(** The loop that appends up to [body_needed] octets to the body. *)
Fixpoint read_body (iovecs : list bytes) (body_needed : Z) (body : bytes) : bytes :=
  match iovecs with
  | [] => body
  | iov :: iovecs =>
      if body_needed <=? 0 then body
      else
        let to_read := Z.min (blen iov) body_needed in
        read_body iovecs (body_needed - to_read) (body ++ take (Z.to_nat to_read) iov)
  end.

Definition answer : Type := (HttpErrorCode * Z) * HttpRequest.

(** The header behind a chunked body: its length is known now. *)
Definition dechunked (length : Z) (h : HttpRequestHeader) : HttpRequestHeader :=
  set_pairs (addHeaderPair (bs "content-length") (to_chars length)
    (removeHeaderPairLoose (bs "transfer-encoding") (m_headerPairs h))).2 h.

(** The chunked body, behind [header_bytes] octets of header. *)
Definition read_chunked (max_body_size : Z) (iovecs : list bytes) (header_bytes : Z) (r : HttpRequest) : option answer :=
  match sliceIovecs iovecs header_bytes with
  | [] => Some ((kNoError, header_bytes), r)
  | body_iovecs =>
      match chunk_parse max_body_size body_iovecs (m_chunkParser r) (m_body r) with
      | None => None
      | Some s =>
          let r := set_body (ps_data s) (m_contentLength r) (m_bodyParsed r) (ps_parser s) r in
          match ps_status s with
          | Failed kIncomplete => Some ((kNoError, header_bytes), r)
          | Failed e => Some ((e, -1), r)
          | More => Some ((kNoError, header_bytes + ps_consumed s), r)
          | Last =>
              Some ((kNoError, header_bytes + ps_consumed s),
                    set_body (m_body r) (blen (m_body r)) (blen (m_body r)) (m_chunkParser r)
                      (set_header (dechunked (blen (m_body r)) (m_header r)) r))
          end
      end
  end.

(** The body of a known length. *)
Definition read_sized (iovecs : list bytes) (header_bytes : Z) (r : HttpRequest) : answer :=
  let body := read_body (skip_header iovecs header_bytes) (wrap64 (m_contentLength r - m_bodyParsed r)) (m_body r) in
  let body_read := blen body - blen (m_body r) in
  ((kNoError, header_bytes + body_read),
   set_body body (m_contentLength r) (wrap64 (m_bodyParsed r + body_read)) (m_chunkParser r) r).

(** Behind a header that this call completed. *)
Definition frame_body (max_body_size : Z) (iovecs : list bytes) (header_bytes : Z) (r : HttpRequest) : option answer :=
  let transfer_encoding := getValuePtr (bs "transfer-encoding") (m_headerPairs (m_header r)) in
  let content_length := getValuePtr (bs "content-length") (m_headerPairs (m_header r)) in
  match transfer_encoding with
  | Some te =>
      if bool_decide (is_Some content_length) then Some ((kBadRequest, -1), r)
      else if negb (isSingleHeaderToken te (bs "chunked")) then Some ((kBadRequest, -1), r)
      else read_chunked max_body_size iovecs header_bytes r
  | None =>
      match content_length with
      | None | Some [] => Some ((kNoError, header_bytes), r)
      | Some text =>
          match parseSizeTStrict text with
          | None => Some ((kBadRequest, -1), r)
          | Some length =>
              let r := set_body (m_body r) length (m_bodyParsed r) (m_chunkParser r) r in
              if exceeds max_body_size length then Some ((kRequestEntityTooLarge, -1), r)
              else if length =? 0 then Some ((kNoError, header_bytes), r)
              else Some (read_sized iovecs header_bytes r)
          end
      end
  end.

Definition fromIOVec (max_body_size : Z) (iovecs : list bytes) (r : HttpRequest) : option answer :=
  if negb (m_headerParsed r) then
    match HttpRequestHeader.fromIOVec iovecs (m_header r) with
    | None => None
    | Some ((kIncomplete, consumed), h) => Some ((kNoError, consumed), set_header h r)
    | Some ((kNoError, header_bytes), h) =>
        frame_body max_body_size iovecs header_bytes
          (mkRequest (m_body r) h (m_contentLength r) (m_bodyParsed r) (m_chunkParser r) true)
    | Some ((e, _), h) => Some ((e, -1), set_header h r)
    end
  else if isChunked (m_header r) then read_chunked max_body_size iovecs 0 r
  else if m_contentLength r =? 0 then Some ((kNoError, 0), r)
  else Some (read_sized iovecs 0 r).

(** ** Reading from the ring *)

Record HttpReaderSetting : Type := mkSetting {
  m_max_header_size : Z;
  m_max_header_count : Z;
  m_max_header_line_size : Z;
  m_max_uri_size : Z;
  m_max_body_size : Z
}.

Section Reader.
Context {B : Type} `{ByteRing B}.
Variable (setting : HttpReaderSetting).

Record HttpRequestReadState : Type := mkRequestRead {
  rq_ring : B;
  rq_request : HttpRequest;
  m_total_received : Z;
  m_http_error : option HttpErrorCode
}.

Definition resetForNextRead (st : HttpRequestReadState) : HttpRequestReadState :=
  mkRequestRead (rq_ring st) (reset (rq_request st)) 0 None.

Definition setParseError (e : HttpErrorCode) (st : HttpRequestReadState) : HttpRequestReadState :=
  mkRequestRead (rq_ring st) (rq_request st) (m_total_received st) (Some e).

Definition checkBodyLimitExceeded (header : HttpRequestHeader) (body : bytes) : bool :=
  let max_body_size := m_max_body_size setting in
  if max_body_size =? 0 then false
  else
    let is_chunked :=
      match getValuePtr (bs "transfer-encoding") (m_headerPairs header) with
      | Some te => headerValueContainsToken te (bs "chunked")
      | None => false
      end in
    let length_exceeds :=
      match getValuePtr (bs "content-length") (m_headerPairs header) with
      | None | Some [] => false
      | Some text => match parseSizeTStrict text with Some n => max_body_size <? n | None => false end
      end in
    (negb is_chunked && length_exceeds) || (max_body_size <? blen body).

Definition parseFromRingBuffer (st : HttpRequestReadState) : option (bool * HttpRequestReadState) :=
  match rb_read_iovecs (rq_ring st) with
  | [] => Some (false, st)
  | read_iovecs =>
      let r := rq_request st in
      let header := HttpRequestHeader.setParseLimits (m_max_header_count setting) (m_max_header_line_size setting)
        (m_max_uri_size setting) (m_header r) in
      match fromIOVec (m_max_body_size setting) read_iovecs (set_header header r) with
      | None => None
      | Some ((error_code, consumed), r) =>
          let ring := if 0 <? consumed then rb_consume consumed (rq_ring st) else rq_ring st in
          let st := mkRequestRead ring r (m_total_received st) (m_http_error st) in
          if checkBodyLimitExceeded (m_header r) (m_body r) then Some (true, setParseError kRequestEntityTooLarge st)
          else if negb (isHeaderComplete (m_header r)) && (m_max_header_size setting <=? m_total_received st)
          then Some (true, setParseError kHeaderTooLarge st)
          else
            match error_code with
            | kHeaderInComplete | kIncomplete => Some (false, st)
            | kNoError => Some (isComplete r, st)
            | e => Some (true, setParseError e st)
            end
      end
  end.

Definition prepareRecvWindow (st : HttpRequestReadState) : bool * HttpRequestReadState :=
  match rb_write_iovecs (rq_ring st) with
  | [] => (false, setParseError kHeaderTooLarge st)
  | _ => (true, st)
  end.

Definition onBytesReceived (data : bytes) (st : HttpRequestReadState) : HttpRequestReadState :=
  mkRequestRead (rb_receive data (rq_ring st)) (rq_request st) (wrap64 (m_total_received st + blen data))
    (m_http_error st).

Definition takeResult (st : HttpRequestReadState) : HttpErrorCode + bool :=
  match m_http_error st with Some e => inl e | None => inr true end.

Definition request_reader : ReadState HttpRequestReadState (HttpErrorCode + bool) :=
  mkReadState parseFromRingBuffer prepareRecvWindow onBytesReceived setParseError takeResult.

(** The requests of a connection, [count] after the first: [getRequest] on one reader and one request, as
    long as the answers of the socket last and no read fails. *)
Fixpoint getRequests (count : nat) (events : list read_event) (st : HttpRequestReadState) :
    option (list HttpRequest * read_outcome HttpRequestReadState (HttpErrorCode + bool)) :=
  match read_machine request_reader events st with
  | None => None
  | Some (Completed (inr true) st' later) =>
      match count with
      | O => Some ([rq_request st'], Completed (inr true) st' later)
      | S count =>
          match getRequests count later (resetForNextRead st') with
          | Some (requests, outcome) => Some (rq_request st' :: requests, outcome)
          | None => None
          end
      end
  | Some outcome => Some ([], outcome)
  end.
End Reader.
Arguments HttpRequestReadState B : clear implicits.

(** ** Errors *)

Ltac listed := apply (bool_decide_unpack _); reflexivity.

Definition header_error (e : HttpErrorCode) : Prop :=
  e ∈ [kBadRequest; kUriTooLong; kUriEncodeError; kVersionNotSupport; kHeaderTooLarge].

Lemma commit_error h : (commitParsedHeaderPair h).1 = kNoError \/ header_error (commitParsedHeaderPair h).1.
Proof. unfold commitParsedHeaderPair, header_error. cbv zeta. repeat case_match; cbn [fst]; (by left) || (right; listed). Qed.

Lemma parse_char_error bounded c h :
  (parse_char bounded c h).1 = kNoError \/ (parse_char bounded c h).1 = kIncomplete \/
  header_error (parse_char bounded c h).1.
Proof.
  assert ((end_value h).1 = kNoError \/ header_error (end_value h).1) as Hv.
  { unfold end_value. pose proof (commit_error h) as Hc. destruct (commitParsedHeaderPair h) as [e h']. cbn [fst] in Hc.
    destruct Hc as [-> | Hc]; [by left|]. right. by destruct e. }
  unfold parse_char, end_uri, end_version, end_key, header_error in *. cbv zeta.
  repeat case_match; cbn [fst]; (by left) || (by right; left) || (tauto || (right; right; listed)).
Qed.

Lemma parse_chars_error bounded d n h e h' : parse_chars bounded d n h = Broken e h' -> header_error e.
Proof.
  revert n h. induction d as [|c d IH]; intros n h; [done|]. cbn [parse_chars].
  pose proof (parse_char_error bounded c h) as He. destruct (parse_char bounded c h) as [e' h1]. cbn [fst] in He.
  destruct He as [-> | [-> | He]]; [apply IH|done|].
  destruct e'; try (by intros [= <- _]); unfold header_error in He; by apply (bool_decide_pack _) in He.
Qed.

Definition chunk_error (e : HttpErrorCode) : Prop :=
  e ∈ [kInvalidChunkFormat; kInvalidChunkLength; kChunkSizeConvertError; kRequestEntityTooLarge].

Lemma line_octet_error c p e : (line_octet c p).2 = Some e -> chunk_error e.
Proof. unfold line_octet, chunk_error. repeat case_match; cbn [snd]; intros [= <-]; listed. Qed.

Lemma parseChunkSizeLine_error line e : parseChunkSizeLine line = inl e -> chunk_error e.
Proof. unfold parseChunkSizeLine, chunk_error. cbv zeta. repeat case_match; intros [= <-]; listed. Qed.

Lemma octet_step_error max c s e : ps_status s = More -> ps_status (octet_step max c s) = Failed e -> chunk_error e.
Proof.
  intros Hs. unfold octet_step.
  assert (forall r, (forall e, r.2 = Some e -> chunk_error e) -> ps_status (after_octet r s) = Failed e -> chunk_error e) as Ha.
  { intros [p o] Hr. cbn. destruct o as [e'|]; [intros [= <-]; by apply Hr|]. rewrite Hs. by case_bool_decide. }
  destruct (m_phase (ps_parser s)); try (apply Ha; clear Ha; intros e');
    try (cbn [ps_status]; congruence); unfold size_line_octet, data_crlf_octet, trailer_octet; cbv zeta;
    repeat case_match; cbn [snd]; try done; try apply line_octet_error;
    try (intros [= <-]; by eapply parseChunkSizeLine_error); intros [= <-]; unfold chunk_error; listed.
Qed.

Lemma feed_error max d s e : ps_status s = More -> ps_status (feed max d s) = Failed e -> chunk_error e.
Proof.
  revert s. induction d as [|c d IH]; intros s Hs; cbn [feed]; [by rewrite Hs|]. rewrite Hs.
  pose proof (octet_step_error max c s e Hs) as He. destruct (ps_status (octet_step max c s)) eqn:E; [by apply IH|..];
    rewrite feed_stopped by (by rewrite E); by rewrite E.
Qed.

(** ** Fields of the header being parsed *)

Lemma lookup_common h idx :
  m_mode h = ServerSide -> getValuePtr (getCommonHeaderName idx) h = m_commonHeaders h !! idx.
Proof.
  intros Hm. unfold getValuePtr, hasCommonHeader. rewrite Hm. cbn [common_of].
  assert (matchCommonHeader (lowered (getCommonHeaderName idx)) = Some idx) as -> by by destruct idx.
  case_bool_decide as E; [done|]. symmetry. by apply eq_None_not_Some.
Qed.

(** A length that is replaced is replaced by a list of values. *)
Definition length_kept (p p' : HeaderPair) : Prop :=
  m_mode p' = m_mode p /\
  (m_mode p = ServerSide -> forall v, getValuePtr (bs "content-length") p = Some v ->
    exists v', getValuePtr (bs "content-length") p' = Some v' /\ (v' = v \/ z2b 44 ∈ v')).

#[export] Instance length_kept_preorder : PreOrder length_kept.
Proof.
  split.
  - intros p. split; [done|]. intros _ v ->. exists v. split; [done|by left].
  - intros p1 p2 p3 [M1 H1] [M2 H2]. split; [congruence|]. intros Hm v Hv.
    destruct (H1 Hm v Hv) as (v2 & Hv2 & Hc2). destruct (H2 ltac:(congruence) v2 Hv2) as (v3 & Hv3 & Hc3).
    exists v3. split; [done|]. destruct Hc3 as [-> | ?]; [done|by right].
Qed.

Lemma comma_joined a b : z2b 44 ∈ joined a b.
Proof. unfold joined. rewrite !elem_of_app. right. left. listed. Qed.

Lemma length_kept_common idx v p : m_mode p = ServerSide -> length_kept p (setCommonHeader idx v p).
Proof.
  intros Hm. unfold setCommonHeader.
  destruct (m_commonHeaders p !! idx) as [old|] eqn:E; (split; [done|]); intros _ w;
    change (bs "content-length") with (getCommonHeaderName ContentLength);
    rewrite !lookup_common by done; cbn [HttpHeaders.set_common m_commonHeaders]; intros Hw;
    (destruct (decide (idx = ContentLength)) as [-> | Hne];
      [rewrite lookup_insert_eq|rewrite lookup_insert_ne by done; exists w; split; [done|by left]]).
  - eexists. split; [done|]. right. apply comma_joined.
  - congruence.
Qed.

Lemma length_kept_merge k v p : m_mode p = ServerSide -> length_kept p (mergeNormalizedUncommonHeaderPair k v p).
Proof.
  intros Hm. unfold mergeNormalizedUncommonHeaderPair.
  case_match; (split; [done|]); intros _ w; change (bs "content-length") with (getCommonHeaderName ContentLength);
    rewrite !lookup_common by done; intros Hw; exists w; (split; [done|by left]).
Qed.

Lemma commit_length_kept h : length_kept (m_headerPairs h) (m_headerPairs (commitParsedHeaderPair h).2).
Proof.
  unfold commitParsedHeaderPair. cbv zeta. destruct (exceeds _ _); [done|]. destruct (exceeds _ _); [done|].
  match goal with |- context [match ?o with Some _ => _ | None => _ end] => destruct o as [[hl l]|] end; [|done].
  cbn [snd set_field set_fields m_headerPairs]. destruct (m_mode (m_headerPairs h)) eqn:Hm.
  - case_match; [by apply length_kept_common|by apply length_kept_merge].
  - unfold addHeaderPair. rewrite Hm. split; [done|]. by rewrite Hm.
Qed.

Lemma parse_char_length_kept bounded c h :
  length_kept (m_headerPairs h) (m_headerPairs (parse_char bounded c h).2).
Proof.
  assert (length_kept (m_headerPairs h) (m_headerPairs (end_value h).2)) as Hv.
  { unfold end_value. pose proof (commit_length_kept h) as Hc. by destruct (commitParsedHeaderPair h) as [[] h']. }
  unfold parse_char, end_uri, end_version, end_key. cbv zeta. repeat case_match; done.
Qed.

Lemma parse_chars_length_kept bounded d n h :
  match parse_chars bounded d n h with
  | Unfinished h' | Finished h' _ | Broken _ h' => length_kept (m_headerPairs h) (m_headerPairs h')
  end.
Proof.
  revert n h. induction d as [|c d IH]; intros n h; [by cbn|]. cbn [parse_chars].
  pose proof (parse_char_length_kept bounded c h) as Hk. destruct (parse_char bounded c h) as [[] h1]; try done.
  specialize (IH (n + 1) h1). destruct (parse_chars bounded d (n + 1) h1); by etrans.
Qed.

(** ** The reference: all octets at once *)

Inductive framing : Type := NoBody | Sized (length : Z) | Chunked.

(** RFC 9112 6.3, with a transfer encoding and a length together refused. *)
Definition body_framing (max_body_size : Z) (h : HttpRequestHeader) : HttpErrorCode + framing :=
  match getValuePtr (bs "transfer-encoding") (m_headerPairs h), getValuePtr (bs "content-length") (m_headerPairs h) with
  | Some te, None => if isSingleHeaderToken te (bs "chunked") then inr Chunked else inl kBadRequest
  | Some _, Some _ => inl kBadRequest
  | None, None | None, Some [] => inr NoBody
  | None, Some text =>
      match parseSizeTStrict text with
      | None => inl kBadRequest
      | Some length => if exceeds max_body_size length then inl kRequestEntityTooLarge else inr (Sized length)
      end
  end.

Inductive request_result : Type :=
| Incomplete
| Rejected (e : HttpErrorCode)
| Accepted (h : HttpRequestHeader) (body : bytes) (length : Z).

Definition chunked_start : parse_state := mkParse new_parser [] 0 More.

Definition read_request (max_body_size : Z) (h0 : HttpRequestHeader) (d : bytes) : request_result :=
  match parse_chars false d 0 h0 with
  | Unfinished _ => Incomplete
  | Broken e _ => Rejected e
  | Finished h n =>
      let body := drop (Z.to_nat n) d in
      match body_framing max_body_size h with
      | inl e => Rejected e
      | inr NoBody => Accepted h [] n
      | inr (Sized k) => if blen body <? k then Incomplete else Accepted h (take (Z.to_nat k) body) (n + k)
      | inr Chunked =>
          let s := feed max_body_size body chunked_start in
          match ps_status s with
          | More => Incomplete
          | Failed e => Rejected e
          | Last => Accepted (dechunked (blen (ps_data s)) h) (ps_data s) (n + ps_consumed s)
          end
      end
  end.

(** ** The loops over the buffers *)

Lemma skip_header_concat iovecs n : 0 <= n -> concat (skip_header iovecs n) = drop (Z.to_nat n) (concat iovecs).
Proof.
  revert n. induction iovecs as [|iov iovecs IH]; intros n Hn; cbn [skip_header concat]; [by rewrite drop_nil|].
  destruct (Z.leb_spec n 0); [by replace (Z.to_nat n) with 0%nat by lia|]. destruct (Z.leb_spec (blen iov) n).
  - rewrite IH by lia. rewrite drop_app_ge by (unfold blen in *; lia). f_equal. unfold blen. lia.
  - cbn [concat]. by rewrite drop_app_le by (unfold blen in *; lia).
Qed.

Lemma read_body_concat iovecs n body : 0 <= n -> read_body iovecs n body = body ++ take (Z.to_nat n) (concat iovecs).
Proof.
  revert n body. induction iovecs as [|iov iovecs IH]; intros n body Hn; cbn [read_body concat].
  { by rewrite take_nil, app_nil_r. }
  pose proof (blen_nonneg iov). destruct (Z.leb_spec n 0).
  { replace (Z.to_nat n) with 0%nat by lia. by rewrite take_0, app_nil_r. }
  cbv zeta. rewrite IH, <- app_assoc by lia. f_equal. rewrite take_app. f_equal.
  - destruct (Z.min_spec (blen iov) n) as [[? ->] | [? ->]]; [|done]. rewrite !take_ge; unfold blen in *; (done || lia).
  - destruct (Z.leb_spec n (blen iov)).
    + replace (Z.to_nat n - length iov)%nat with 0%nat by (unfold blen in *; lia).
      by replace (Z.to_nat (n - Z.min (blen iov) n)) with 0%nat by lia.
    + f_equal. unfold blen. lia.
Qed.

Lemma read_sized_spec iovecs hb r :
  0 <= hb -> m_bodyParsed r = blen (m_body r) -> blen (m_body r) <= m_contentLength r < 2 ^ 64 ->
  let new := take (Z.to_nat (m_contentLength r - blen (m_body r))) (drop (Z.to_nat hb) (concat iovecs)) in
  read_sized iovecs hb r =
    ((kNoError, hb + blen new),
     set_body (m_body r ++ new) (m_contentLength r) (blen (m_body r ++ new)) (m_chunkParser r) r).
Proof.
  intros Hhb Hp Hl new. unfold read_sized. pose proof (blen_nonneg (m_body r)). rewrite Hp.
  rewrite wrap64_small by lia. rewrite read_body_concat, skip_header_concat by lia. fold new.
  assert (blen (m_body r) + blen new <= m_contentLength r).
  { subst new. unfold blen at 2. rewrite length_take. lia. }
  cbv zeta. rewrite blen_app. pose proof (blen_nonneg new). rewrite wrap64_small by lia.
  do 3 f_equal; lia.
Qed.

(** A chunked body behind the octets [b] of it. *)
Definition body_at (max : Z) (b : bytes) (r : HttpRequest) : Prop :=
  mkParse (m_chunkParser r) (m_body r) (blen b) More ≡ feed max b chunked_start.

Lemma read_chunked_spec max iovecs hb b w r :
  0 <= max -> 0 <= hb -> body_at max b r -> drop (Z.to_nat hb) (concat iovecs) = w ->
  exists a, read_chunked max iovecs hb r = Some a /\
  let s := feed max (b ++ w) chunked_start in
  match ps_status s with
  | More => a.1 = (kNoError, hb + blen w) /\ body_at max (b ++ w) a.2 /\
      a.2 = set_body (m_body a.2) (m_contentLength r) (m_bodyParsed r) (m_chunkParser a.2) r
  | Last => a.1 = (kNoError, hb + (ps_consumed s - blen b)) /\ blen b <= ps_consumed s /\ m_body a.2 = ps_data s /\
      a.2 = set_body (m_body a.2) (blen (ps_data s)) (blen (ps_data s)) (m_chunkParser a.2)
              (set_header (dechunked (blen (ps_data s)) (m_header r)) r)
  | Failed e => a.1 = (e, -1)
  end.
Proof.
  intros Hmax Hhb Hb Hw. unfold read_chunked. pose proof (concat_sliceIovecs iovecs hb Hhb) as Hc. rewrite Hw in Hc.
  unfold body_at in *. assert (live max (feed max b chunked_start)) as Hl.
  { pose proof (feed_live max b _ (live_new max Hmax)) as [H _]. pose proof Hb as (_ & _ & _ & Hs).
    cbn [ps_status] in Hs. unfold chunked_start in *. rewrite <- Hs in H. apply H. }
  apply (live_equiv _ _ (mkParse (m_chunkParser r) (m_body r) (blen b) More)) in Hl; [|by symmetry].
  assert (live max (mkParse (m_chunkParser r) (m_body r) 0 More)) as Hl0 by exact Hl.
  assert (shift (blen b) (feed max w (mkParse (m_chunkParser r) (m_body r) 0 More)) ≡ feed max (b ++ w) chunked_start) as Hf.
  { rewrite feed_app, <- Hb, <- feed_shift. unfold shift. cbn [ps_parser ps_data ps_consumed ps_status]. by rewrite Z.add_0_r. }
  destruct (sliceIovecs iovecs hb) as [|iov iovs] eqn:Es.
  { cbn [concat] in Hc. subst w. rewrite <- Hc, app_nil_r. pose proof Hb as (_ & _ & _ & Hs). cbn [ps_status] in Hs.
    eexists. split; [done|]. cbv zeta. rewrite <- Hs. rewrite (@blen_nil byte), Z.add_0_r. split_and!; [done|done|by destruct r]. }
  destruct (chunk_parse_spec max (iov :: iovs) _ _ Hl0) as (s & -> & Hs). rewrite Hc in Hs.
  pose proof (feed_live max w _ Hl0) as (H1 & H2 & _). rewrite <- ?Hs in H2. rewrite <- Hs in Hf. destruct Hf as (F1 & F2 & F3 & F4).
  destruct Hs as (_ & _ & S3 & S4). cbv zeta. cbn [shift ps_parser ps_data ps_consumed ps_status] in *.
  rewrite <- F4. rewrite <- S4 in H1. destruct (ps_status s) as [| |e] eqn:E.
  - eexists. split; [done|]. destruct H1 as [_ H1]. cbn [fst snd]. split_and!; [|split_and!|done].
    + do 2 f_equal. rewrite S3. by apply H1.
    + exact F1.
    + exact F2.
    + rewrite blen_app, <- F3, S3, H1. done.
    + exact F4.
  - eexists. split; [done|]. cbn [fst snd]. rewrite <- F2, <- F3. split_and!; [do 2 f_equal; lia|lia|done..].
  - eexists. destruct e; try by split.
    symmetry in S4. apply (feed_error max w (mkParse (m_chunkParser r) (m_body r) 0 More)) in S4; [|done]. by apply (bool_decide_pack _) in S4.
Qed.

(** ** The request, call by call *)

(** A request behind the octets [u] of it: the header goes on, or a body that is not there yet. *)
Inductive stage (max : Z) (h0 : HttpRequestHeader) (u : bytes) : HttpRequest -> Prop :=
| stage_header h : parse_chars false u 0 h0 = Unfinished h -> stage max h0 u (new_request h)
| stage_sized h n k :
    parse_chars false u 0 h0 = Finished h n -> body_framing max h = inr (Sized k) -> blen u - n < k ->
    stage max h0 u (mkRequest (drop (Z.to_nat n) u) h k (blen (drop (Z.to_nat n) u)) new_parser true)
| stage_chunked h n body p :
    parse_chars false u 0 h0 = Finished h n -> body_framing max h = inr Chunked ->
    mkParse p body (blen (drop (Z.to_nat n) u)) More ≡ feed max (drop (Z.to_nat n) u) chunked_start ->
    stage max h0 u (mkRequest body h 0 0 p true).

Definition delivered (h : HttpRequestHeader) (body : bytes) (r : HttpRequest) : Prop :=
  m_header r = h /\ m_body r = body /\ isComplete r = true.

(** What a call with the octets [w] behind the octets [u] answers. *)
Definition answers (max : Z) (h0 : HttpRequestHeader) (u w : bytes) (a : answer) : Prop :=
  match read_request max h0 (u ++ w) with
  | Incomplete => a.1 = (kNoError, blen w) /\ stage max h0 (u ++ w) a.2
  | Accepted h body n => a.1 = (kNoError, n - blen u) /\ 0 <= n - blen u <= blen w /\ delivered h body a.2
  | Rejected e => a.1 = (e, -1)
  end.

Lemma finished_range d n h0 h k : open h0 -> parse_chars false d n h0 = Finished h k -> n < k <= n + blen d.
Proof.
  intros Ho E. destruct (iovecs_loop_spec [d] n h0 Ho) as [_ H]. cbn [concat] in H. rewrite app_nil_r, E in H. apply H.
Qed.

Lemma finished_more u w h0 h n :
  parse_chars false u 0 h0 = Finished h n -> parse_chars false (u ++ w) 0 h0 = Finished h n.
Proof. intros E. by rewrite parse_chars_app, E. Qed.

Lemma framing_sized_range max h k : body_framing max h = inr (Sized k) -> 0 <= k < 2 ^ 64.
Proof.
  unfold body_framing. destruct (getValuePtr (bs "transfer-encoding") _); [repeat case_match; congruence|].
  destruct (getValuePtr (bs "content-length") _) as [[|c v]|]; [done| |done].
  destruct (parseSizeTStrict (c :: v)) as [n|] eqn:E; [|done]. destruct (exceeds max n); [done|]. intros [= <-].
  unfold parseSizeTStrict in E. cbv zeta in E. case_bool_decide; [done|].
  destruct (from_chars _ _ _ _) as [v' ptr| |] eqn:Ef; [|done..]. destruct (ptr =? _); [|done].
  injection E as <-. apply from_chars_range in Ef. unfold uint64_max in Ef. lia.
Qed.

Lemma drop_behind (u w : bytes) n : blen u <= n -> drop (Z.to_nat (n - blen u)) w = drop (Z.to_nat n) (u ++ w).
Proof. intros Hn. rewrite drop_app_ge by (unfold blen in *; lia). f_equal. unfold blen in *. lia. Qed.

Lemma blen_drop (d : bytes) n : 0 <= n <= blen d -> blen (drop (Z.to_nat n) d) = blen d - n.
Proof. unfold blen. intros Hn. rewrite length_drop. lia. Qed.

(** ** The header behind a chunked body *)

Lemma remove_uncommon key p :
  m_mode p = ServerSide -> matchCommonHeader (lowered key) = None ->
  toLowerAscii key = key \/ m_pairs p !! toLowerAscii key = None ->
  (removeHeaderPair key p).2 = HttpHeaders.set_pairs (delete key (m_pairs p)) p.
Proof.
  intros Hm Hc Hl. unfold removeHeaderPair, findHeaderPairIter. rewrite Hm. cbn [common_of]. rewrite Hc.
  destruct (m_pairs p !! key) eqn:E; [done|].
  assert ((if negb (hasUpperAscii key) then None
    else pair (toLowerAscii key) <$> m_pairs p !! toLowerAscii key) = None) as Hn.
  { destruct (hasUpperAscii key); [|done]. cbn [negb]. destruct Hl as [-> | ->]; [|done]. by rewrite E. }
  cbv zeta. rewrite Hn. cbn [snd]. rewrite delete_id by done. by destruct p.
Qed.

#[local] Abbreviation TRANSFER_ENCODING := (bs "transfer-encoding").

Lemma removeHeaderPairLoose_spec p :
  m_mode p = ServerSide ->
  let q := removeHeaderPairLoose TRANSFER_ENCODING p in
  m_mode q = ServerSide /\ m_commonHeaders q = m_commonHeaders p /\
  m_pairs q = delete (bs "Transfer-Encoding") (delete (bs "TRANSFER-ENCODING") (delete TRANSFER_ENCODING (m_pairs p))).
Proof.
  intros Hm. unfold removeHeaderPairLoose. cbv zeta.
  rewrite (bool_decide_eq_true_2 (toLowerAscii _ = _)) by done.
  rewrite (bool_decide_eq_false_2 (map _ _ = TRANSFER_ENCODING)) by done.
  rewrite (bool_decide_eq_false_2 (map _ _ = toLowerAscii _)) by done.
  rewrite !(bool_decide_eq_false_2 (canonical _ _ = _)) by done. cbn [orb].
  change (map toUpperAsciiChar TRANSFER_ENCODING) with (bs "TRANSFER-ENCODING").
  change (canonical true (toLowerAscii TRANSFER_ENCODING)) with (bs "Transfer-Encoding").
  rewrite (remove_uncommon TRANSFER_ENCODING p) by (done || by left).
  rewrite (remove_uncommon (bs "TRANSFER-ENCODING")); [|done|done|right; apply lookup_delete_eq].
  rewrite (remove_uncommon (bs "Transfer-Encoding")); [done..|]. right.
  cbn [HttpHeaders.set_pairs m_pairs]. rewrite lookup_delete_ne by done. apply lookup_delete_eq.
Qed.

(** The length stands for the transfer encoding; the other fields are as they were. *)
Lemma dechunked_fields n h :
  m_mode (m_headerPairs h) = ServerSide -> getValuePtr (bs "content-length") (m_headerPairs h) = None ->
  let p := m_headerPairs (dechunked n h) in
  m_mode p = ServerSide /\ getValuePtr TRANSFER_ENCODING p = None /\
  getValuePtr (bs "content-length") p = Some (to_chars n) /\
  forall key, toLowerAscii key <> TRANSFER_ENCODING -> toLowerAscii key <> bs "content-length" ->
    getValuePtr key p = getValuePtr key (m_headerPairs h).
Proof.
  intros Hm Hl. destruct (removeHeaderPairLoose_spec _ Hm) as (Q1 & Q2 & Q3). cbv zeta. unfold dechunked.
  cbn [set_pairs set_fields m_headerPairs]. set (q := removeHeaderPairLoose _ _) in *.
  change (bs "content-length") with (getCommonHeaderName ContentLength) in *.
  rewrite lookup_common, <- Q2 in Hl by done. unfold addHeaderPair. rewrite Q1. cbv zeta.
  change (matchCommonHeader (lowered (getCommonHeaderName ContentLength))) with (Some ContentLength).
  cbn [snd]. unfold setCommonHeader. rewrite Hl. split; [done|].
  split; [|split; [rewrite lookup_common by done; apply lookup_insert_eq|]].
  - unfold getValuePtr, findHeaderPairIter. cbn [HttpHeaders.set_common m_mode m_pairs]. rewrite Q1, Q3. cbn [common_of].
    change (matchCommonHeader (lowered TRANSFER_ENCODING)) with (@None CommonHeaderIndex).
    rewrite (lookup_delete_ne _ (bs "Transfer-Encoding")), (lookup_delete_ne _ (bs "TRANSFER-ENCODING")) by done.
    by rewrite lookup_delete_eq.
  - intros key H1 H2. unfold getValuePtr, hasCommonHeader, findHeaderPairIter.
    cbn [HttpHeaders.set_common m_mode m_commonHeaders m_pairs]. rewrite Q1, Hm, Q3, lowered_eq. cbn [common_of].
    destruct (matchCommonHeader (toLowerAscii key)) as [idx|] eqn:E.
    + apply matchCommonHeader_spec in E. rewrite lookup_insert_ne, Q2 by (intros <-; by apply H2). done.
    + assert (forall d, toLowerAscii d = TRANSFER_ENCODING -> d <> key /\ d <> toLowerAscii key) as Hd.
      { intros d Ed. split; intros ->; [done|]. by rewrite toLowerAscii_idem in Ed. }
      by rewrite !lookup_delete_ne by (by apply Hd).
Qed.

Lemma finished_mode d n h0 h k :
  m_mode (m_headerPairs h0) = ServerSide -> parse_chars false d n h0 = Finished h k -> m_mode (m_headerPairs h) = ServerSide.
Proof.
  intros Hm E. pose proof (parse_chars_length_kept false d n h0) as Hk. rewrite E in Hk. destruct Hk. congruence.
Qed.

Lemma framing_chunked max h :
  body_framing max h = inr Chunked ->
  isChunked h = true /\ getValuePtr (bs "content-length") (m_headerPairs h) = None.
Proof.
  unfold body_framing, isChunked. destruct (getValuePtr TRANSFER_ENCODING _) as [te|] eqn:Et.
  - destruct (getValuePtr (bs "content-length") _); [done|].
    destruct (isSingleHeaderToken te (bs "chunked")) eqn:E; [|done]. intros _. split; [|done].
    by apply single_token_contained.
  - repeat case_match; congruence.
Qed.

Lemma framing_not_chunked max h f : body_framing max h = inr f -> f <> Chunked -> isChunked h = false.
Proof.
  unfold body_framing, isChunked. destruct (getValuePtr TRANSFER_ENCODING _); [|done].
  repeat case_match; intros [= <-]; done.
Qed.

Section Calls.
Variables (max : Z) (h0 : HttpRequestHeader).
Hypotheses (Hmax : 0 <= max) (Hopen : open h0) (Hserver : m_mode (m_headerPairs h0) = ServerSide).

(** The chunked body in either call. *)
Lemma chunked_answer u iovecs hb h n r :
  let w := concat iovecs in
  parse_chars false (u ++ w) 0 h0 = Finished h n -> hb = Z.max 0 (n - blen u) -> body_framing max h = inr Chunked ->
  body_at max (drop (Z.to_nat n) u) r -> r = mkRequest (m_body r) h 0 0 (m_chunkParser r) true ->
  exists a, read_chunked max iovecs hb r = Some a /\ answers max h0 u w a.
Proof.
  intros w Hp Ehb Hf Hb Er. pose proof (finished_range _ _ _ _ _ Hopen Hp) as Hn.
  assert (drop (Z.to_nat n) u ++ drop (Z.to_nat hb) w = drop (Z.to_nat n) (u ++ w)) as Hd.
  { rewrite (drop_app u). f_equal. f_equal. unfold blen in *. lia. }
  destruct (read_chunked_spec max iovecs hb _ _ r Hmax ltac:(lia) Hb eq_refl) as (a & -> & Ha). exists a. split; [done|].
  fold w in Ha. rewrite Hd in Ha. unfold answers, read_request. rewrite Hp, Hf. cbv zeta in *.
  pose proof (feed_live max (drop (Z.to_nat n) (u ++ w)) _ (live_new max Hmax)) as (_ & Hlen & _). fold chunked_start in Hlen.
  set (s := feed max (drop (Z.to_nat n) (u ++ w)) chunked_start) in *.
  assert (blen (drop (Z.to_nat hb) w) = blen w - hb /\ blen (drop (Z.to_nat n) u) = blen u - n + hb) as [L1 L2].
  { rewrite blen_app in Hn. unfold blen in *. rewrite !length_drop. lia. }
  rewrite L1, L2 in Ha. cbn [chunked_start ps_consumed] in Hlen. rewrite blen_drop, blen_app in Hlen by lia.
  destruct (ps_status s) as [| |e] eqn:E; [| |done].
  - destruct Ha as (H1 & H2 & H3). split; [rewrite H1; do 2 f_equal; lia|]. rewrite H3, Er.
    by eapply stage_chunked.
  - destruct Ha as (H1 & Hle & H2 & H3). split; [rewrite H1; f_equal; lia|]. split; [lia|].
    pose proof (framing_chunked _ _ Hf) as [_ Hcl].
    destruct (dechunked_fields (blen (ps_data s)) h (finished_mode _ _ _ _ _ Hserver Hp) Hcl) as (_ & Hte & _).
    rewrite H3, Er. cbn [set_body set_header m_header]. split_and!; [done|done|].
    unfold isComplete, isChunked. cbn [set_body set_header m_headerParsed m_header negb m_contentLength m_bodyParsed]. rewrite Hte.
    apply Z.leb_refl.
Qed.

(** The body of a known length in either call. *)
Lemma sized_answer u iovecs hb h n k :
  let w := concat iovecs in
  let b := drop (Z.to_nat n) u in
  parse_chars false (u ++ w) 0 h0 = Finished h n -> hb = Z.max 0 (n - blen u) -> body_framing max h = inr (Sized k) ->
  blen b <= k -> answers max h0 u w (read_sized iovecs hb (mkRequest b h k (blen b) new_parser true)).
Proof.
  intros w b Hp Ehb Hf Hb. pose proof (finished_range _ _ _ _ _ Hopen Hp) as Hn.
  pose proof (framing_sized_range _ _ _ Hf) as Hk. pose proof (framing_not_chunked _ _ _ Hf ltac:(done)) as Hc.
  assert (b ++ drop (Z.to_nat hb) w = drop (Z.to_nat n) (u ++ w)) as Hd.
  { rewrite (drop_app u). f_equal. f_equal. unfold blen in *. lia. }
  assert (blen (drop (Z.to_nat hb) w) = blen w - hb /\ blen b = blen u - n + hb) as [L1 L2].
  { subst b. rewrite blen_app in Hn. unfold blen in *. rewrite !length_drop. lia. }
  rewrite read_sized_spec by (cbn; lia). cbn [m_contentLength m_body m_chunkParser].
  fold w. unfold answers, read_request. rewrite Hp, Hf, <- Hd. cbv zeta. rewrite (blen_app b), L1, blen_app.
  set (new := take (Z.to_nat (k - blen b)) (drop (Z.to_nat hb) w)).
  assert (blen new = Z.min (k - blen b) (blen w - hb)) as L3.
  { subst new. unfold blen at 1. rewrite length_take. unfold blen in *. lia. }
  rewrite L3. destruct (Z.ltb_spec (blen b + (blen w - hb)) k).
  - cbn [fst snd]. split; [do 2 f_equal; lia|].
    assert (new = drop (Z.to_nat hb) w) as -> by (subst new; apply take_ge; unfold blen in *; lia).
    rewrite Z.min_r, <- L1, <- blen_app, Hd by lia. apply stage_sized; [done|done|rewrite blen_app; lia].
  - cbn [fst snd]. split; [do 2 f_equal; lia|]. split; [lia|]. split_and!; [done| |].
    + cbn [m_body set_body]. rewrite take_app. f_equal; [|subst new; f_equal; unfold blen in *; lia].
      symmetry. apply take_ge. unfold blen in *. lia.
    + unfold isComplete. cbn [set_body m_headerParsed m_header negb m_contentLength m_bodyParsed]. rewrite Hc.
      apply Z.leb_le. lia.
Qed.

(** The call that completes the header. *)
Lemma frame_body_answer u iovecs h n :
  let w := concat iovecs in
  parse_chars false (u ++ w) 0 h0 = Finished h n -> blen u <= n ->
  exists a, frame_body max iovecs (n - blen u) (mkRequest [] h 0 0 new_parser true) = Some a /\ answers max h0 u w a.
Proof.
  intros w Hp Hu. pose proof (finished_range _ _ _ _ _ Hopen Hp) as Hn.
  assert (drop (Z.to_nat n) u = []) as Hd by (apply drop_ge; unfold blen in *; lia).
  pose proof (chunked_answer u iovecs (n - blen u) h n (mkRequest [] h 0 0 new_parser true) Hp ltac:(lia)) as Hc.
  pose proof (fun k => sized_answer u iovecs (n - blen u) h n k Hp ltac:(lia)) as Hs. cbv zeta in Hc, Hs. fold w in Hc, Hs.
  rewrite Hd in Hc, Hs. rewrite blen_app in Hn.
  pose proof (framing_sized_range max h) as Hr. set (r := mkRequest [] h 0 0 new_parser true) in *.
  assert (body_framing max h = inr NoBody \/ body_framing max h = inr (Sized 0) ->
    answers max h0 u w ((kNoError, n - blen u), r)) as Hno.
  { unfold answers, read_request. rewrite Hp.
    intros [E|E]; rewrite E; [|cbv zeta; pose proof (blen_nonneg (drop (Z.to_nat n) (u ++ w))); rewrite (proj2 (Z.ltb_ge _ 0)) by lia];
      (split; [cbn [fst]; do 2 f_equal; lia|]); (split; [lia|]); (split_and!; [done|done|]); unfold isComplete;
      subst r; cbn [snd m_headerParsed m_header negb]; by rewrite (framing_not_chunked _ _ _ E). }
  assert (forall e r, body_framing max h = inl e -> answers max h0 u w ((e, -1), r)) as He.
  { intros e r' E. unfold answers, read_request. by rewrite Hp, E. }
  unfold frame_body. cbv zeta. cbn [r m_header]. unfold body_framing in *.
  destruct (getValuePtr TRANSFER_ENCODING (m_headerPairs h)) as [te|].
  - destruct (getValuePtr (bs "content-length") (m_headerPairs h)) as [cl|].
    + rewrite bool_decide_eq_true_2 by done. eexists. split; [done|]. by apply He.
    + rewrite bool_decide_eq_false_2 by (by intros []). destruct (isSingleHeaderToken te (bs "chunked")); cbn [negb].
      * by apply Hc.
      * eexists. split; [done|]. by apply He.
  - destruct (getValuePtr (bs "content-length") (m_headerPairs h)) as [[|c cl]|];
      [eexists; split; [done|]; apply Hno; by left| |eexists; split; [done|]; apply Hno; by left].
    destruct (parseSizeTStrict (c :: cl)) as [k|]; [|eexists; split; [done|]; by apply He].
    destruct (exceeds max k); [eexists; split; [done|]; by apply He|]. specialize (Hr k eq_refl).
    destruct (Z.eqb_spec k 0) as [-> | Hne]; eexists; (split; [done|]); [apply Hno; by right|].
    apply Hs; [done|]. rewrite (@blen_nil byte). lia.
Qed.

(** Any call. *)
Lemma fromIOVec_answer u iovecs r :
  stage max h0 u r -> exists a, fromIOVec max iovecs r = Some a /\ answers max h0 u (concat iovecs) a.
Proof.
  intros Hst. set (w := concat iovecs). unfold fromIOVec.
  destruct Hst as [h Hp|h n k Hp Hf Hk|h n body p Hp Hf Hb]; cbn [m_headerParsed m_header negb new_request].
  - assert (open h) as Ho.
    { destruct (iovecs_loop_spec [u] 0 h0 Hopen) as [_ H]. cbn [concat] in H. by rewrite app_nil_r, Hp in H. }
    destruct (fromIOVec_spec iovecs h Ho) as (res & -> & Ha). fold w in Ha |- *.
    pose proof (parse_chars_app false u w 0 h0) as Happ. rewrite Hp, Z.add_0_l in Happ.
    pose proof (parse_chars_shift false w 0 (blen u) h) as Hs. rewrite Z.add_0_l in Hs. rewrite Hs in Happ.
    unfold agrees in Ha. destruct (parse_chars false w 0 h) as [h'|h' m|e h'] eqn:E.
    + destruct res; try done. injection Ha as ->. eexists. split; [done|]. unfold answers, read_request. rewrite Happ.
      split; [done|]. by apply stage_header.
    + destruct res; try done. injection Ha as -> ->. cbn [answer].
      pose proof (finished_range _ _ _ _ _ Ho E) as Hm.
      destruct (frame_body_answer u iovecs h' (m + blen u) Happ ltac:(lia)) as (a & Hfb & Han).
      replace (m + blen u - blen u) with m in Hfb by lia. by exists a.
    + destruct res as [| |e' h2]; try done. destruct Ha as [-> _]. apply parse_chars_error in E.
      exists ((e, -1), set_header h2 (new_request h)).
      split; [|unfold answers, read_request; by rewrite Happ].
      cbn. by destruct e; try (by apply (bool_decide_pack _) in E).
  - pose proof (finished_range _ _ _ _ _ Hopen Hp) as Hn.
    rewrite (framing_not_chunked _ _ _ Hf) by done. cbn [m_contentLength].
    destruct (Z.eqb_spec k 0); [lia|]. eexists. split; [done|].
    apply (sized_answer u iovecs 0 h n k); [by apply finished_more|lia|done|rewrite blen_drop; lia].
  - pose proof (finished_range _ _ _ _ _ Hopen Hp) as Hn. destruct (framing_chunked _ _ Hf) as [-> _].
    apply (chunked_answer u iovecs 0 h n); [by apply finished_more|lia|done|exact Hb|done].
Qed.
End Calls.

(** ** The reference and longer inputs *)

Lemma read_request_app max h0 u w :
  0 <= max -> open h0 -> read_request max h0 u <> Incomplete -> read_request max h0 (u ++ w) = read_request max h0 u.
Proof.
  intros Hmax Ho. unfold read_request. destruct (parse_chars false u 0 h0) as [h|h n|e h] eqn:Hp; [done| |].
  2:{ by rewrite parse_chars_app, Hp. }
  rewrite (finished_more u w h0 h n Hp). pose proof (finished_range _ _ _ _ _ Ho Hp) as Hn.
  assert (drop (Z.to_nat n) (u ++ w) = drop (Z.to_nat n) u ++ w) as -> by (apply drop_app_le; unfold blen in *; lia).
  destruct (body_framing max h) as [e|[|k|]] eqn:Hf; [done..| |]; cbv zeta.
  - apply framing_sized_range in Hf. destruct (Z.ltb_spec (blen (drop (Z.to_nat n) u)) k); [done|]. intros _.
    rewrite blen_app, (proj2 (Z.ltb_ge _ k)) by (pose proof (blen_nonneg w); lia).
    f_equal. apply take_app_le. unfold blen in *. lia.
  - rewrite feed_app. destruct (ps_status (feed max (drop (Z.to_nat n) u) chunked_start)) eqn:E; [done| |];
      rewrite (feed_stopped max w) by (by rewrite E); by rewrite E.
Qed.

Lemma stage_incomplete max h0 u r : 0 <= max -> open h0 -> stage max h0 u r -> read_request max h0 u = Incomplete.
Proof.
  intros Hmax Ho Hst. unfold read_request. destruct Hst as [h Hp|h n k Hp Hf Hk|h n body p Hp Hf Hb]; rewrite Hp; [done|..];
    rewrite Hf; cbv zeta.
  - pose proof (finished_range _ _ _ _ _ Ho Hp). by rewrite (proj2 (Z.ltb_lt _ k)) by (rewrite blen_drop; lia).
  - destruct Hb as (_ & _ & _ & Hs). cbn [ps_status] in Hs. by rewrite <- Hs.
Qed.

Lemma finished_done d n h0 h k : open h0 -> parse_chars false d n h0 = Finished h k -> m_parseState h = Done.
Proof.
  intros Ho E. destruct (iovecs_loop_spec [d] n h0 Ho) as [_ H]. cbn [concat] in H. rewrite app_nil_r, E in H. apply H.
Qed.

(** The limits stay those the parse started with. *)
Definition limits_of (h : HttpRequestHeader) : Z * Z * Z := (m_maxHeaderCount h, m_maxHeaderLineSize h, m_maxUriSize h).

Lemma parse_char_limits bounded c h : limits_of (parse_char bounded c h).2 = limits_of h.
Proof.
  assert (limits_of (commitParsedHeaderPair h).2 = limits_of h) as Hc.
  { unfold commitParsedHeaderPair. cbv zeta. destruct (exceeds _ _); [done|]. destruct (exceeds _ _); [done|].
    by match goal with |- context [match ?o with Some _ => _ | None => _ end] => destruct o as [[]|] end. }
  assert (limits_of (end_value h).2 = limits_of h) as Hv.
  { unfold end_value. by destruct (commitParsedHeaderPair h) as [[] h']. }
  unfold parse_char, end_uri, end_version, end_key. cbv zeta. repeat case_match; done.
Qed.

Lemma parse_chars_limits bounded d n h :
  match parse_chars bounded d n h with
  | Unfinished h' | Finished h' _ | Broken _ h' => limits_of h' = limits_of h
  end.
Proof.
  revert n h. induction d as [|c d IH]; intros n h; [done|]. cbn [parse_chars].
  pose proof (parse_char_limits bounded c h) as Hk. destruct (parse_char bounded c h) as [[] h1]; try done.
  specialize (IH (n + 1) h1). destruct (parse_chars bounded d (n + 1) h1); by etrans.
Qed.

Lemma read_request_error max h0 d e : read_request max h0 d = Rejected e -> header_error e \/ chunk_error e.
Proof.
  unfold read_request. destruct (parse_chars false d 0 h0) as [h|h n|e' h] eqn:Hp; [done| |].
  2:{ intros [= <-]. left. by eapply parse_chars_error. }
  destruct (body_framing max h) as [e'|[|k|]] eqn:Hf; [|done|by destruct (_ <? k)|].
  - intros [= <-]. unfold body_framing in Hf. repeat case_match; simplify_eq; (by left; listed) || (by right; listed).
  - cbv zeta. destruct (ps_status (feed max _ chunked_start)) eqn:E; [done..|]. intros [= <-]. right.
    by eapply (feed_error max _ chunked_start).
Qed.

(** ** The reader over the ring *)

Section Reading.
Context {B : Type} `{ByteRingLaws B}.
Variables (setting : HttpReaderSetting) (h0 : HttpRequestHeader) (cap : Z).
#[local] Abbreviation max := (m_max_body_size setting).
Hypotheses (Hmax : 0 <= max < 2 ^ 64) (Hopen : open h0) (Hserver : m_mode (m_headerPairs h0) = ServerSide).
Hypothesis Hlimits :
  limits_of h0 = (m_max_header_count setting, m_max_header_line_size setting, m_max_uri_size setting).

Definition limited (r : HttpRequest) : HttpRequest :=
  set_header (setParseLimits (m_max_header_count setting) (m_max_header_line_size setting) (m_max_uri_size setting)
    (m_header r)) r.

(** The state behind the octets [u], those in the ring not parsed yet. *)
Definition got (u : bytes) (st : HttpRequestReadState B) : Prop :=
  exists u0, u = u0 ++ rb_view (rq_ring st) /\ stage max h0 u0 (limited (rq_request st)) /\
    rb_ok (rq_ring st) /\ rb_capacity (rq_ring st) = cap /\ m_http_error st = None /\ 0 <= m_total_received st <= blen u.

Definition waits (u : bytes) (st : HttpRequestReadState B) : Prop := got u st /\ rb_view (rq_ring st) = [].

(** The request is complete, and what follows it is still in the ring. *)
Definition ends (u : bytes) (st : HttpRequestReadState B) : Prop :=
  exists h body n, read_request max h0 u = Accepted h body n /\ n <= blen u /\ delivered h body (rq_request st) /\
    m_http_error st = None /\ rb_ok (rq_ring st) /\ rb_capacity (rq_ring st) = cap /\
    rb_view (rq_ring st) = drop (Z.to_nat n) u.

(** The octets are refused, and so would be any that go on from them with a header within the limit. *)
Definition fails (u : bytes) (st : HttpRequestReadState B) : Prop :=
  m_http_error st <> None /\
  forall k h n, parse_chars false (u ++ k) 0 h0 = Finished h n -> n <= m_max_header_size setting ->
    forall h' body len, read_request max h0 (u ++ k) <> Accepted h' body len.

Lemma limited_id r : limits_of (m_header r) = limits_of h0 -> limited r = r.
Proof. rewrite Hlimits. destruct r as [b [] c p ck hp]. by intros [= -> -> ->]. Qed.

Lemma stage_limits u r : stage max h0 u r -> limits_of (m_header r) = limits_of h0.
Proof.
  intros [h Hp|h n k Hp Hf Hk|h n body p Hp Hf Hb]; pose proof (parse_chars_limits false u 0 h0) as Hl; by rewrite Hp in Hl.
Qed.

(** A complete request is within the limit on bodies. *)
Lemma accepted_within d h body n : read_request max h0 d = Accepted h body n -> checkBodyLimitExceeded setting h body = false.
Proof.
  unfold read_request. destruct (parse_chars false d 0 h0) as [|hd m|] eqn:Hp; [done| |done].
  unfold checkBodyLimitExceeded. destruct (Z.eqb_spec max 0) as [|Hne]; [done|].
  destruct (body_framing max hd) as [e|[|k|]] eqn:Hf; [done|..]; cbv zeta.
  - intros [= <- <- <-]. rewrite (proj2 (Z.ltb_ge max (blen []))) by (rewrite (@blen_nil byte); lia). rewrite orb_false_r.
    unfold body_framing in Hf. repeat case_match; simplify_eq; try done.
  - destruct (Z.ltb_spec (blen (drop (Z.to_nat m) d)) k); [done|]. intros [= <- <- <-].
    pose proof (framing_sized_range _ _ _ Hf).
    unfold body_framing in Hf. destruct (getValuePtr TRANSFER_ENCODING _); [repeat case_match; congruence|].
    destruct (getValuePtr (bs "content-length") _) as [[|c cl]|]; [done| |done].
    destruct (parseSizeTStrict (c :: cl)) as [k'|]; [|done]. unfold exceeds in Hf.
    destruct (Z.ltb_spec max k'); [by rewrite (proj2 (Z.eqb_neq max 0)) in Hf|]. rewrite andb_false_r in Hf.
    injection Hf as ->. cbn [negb andb orb]. apply Z.ltb_ge. unfold blen. rewrite length_take. lia.
  - destruct (ps_status _) eqn:Es; [done| |done]. intros [= <- <- <-]. destruct (framing_chunked _ _ Hf) as [_ Hcl].
    set (s := feed max _ chunked_start) in *.
    destruct (dechunked_fields (blen (ps_data s)) hd (finished_mode _ _ _ _ _ Hserver Hp) Hcl) as (_ & Hte & Hl & _).
    rewrite Hte, Hl. pose proof (feed_live max (drop (Z.to_nat m) d) _ (live_new max ltac:(lia))) as (_ & _ & _ & Hb).
    fold chunked_start s in Hb. destruct Hb as [|[Hb _]]; [done|]. pose proof (blen_nonneg (ps_data s)).
    rewrite parseSizeTStrict_to_chars by lia. rewrite (proj2 (Z.ltb_ge max _)) by done. by destruct (to_chars _).
Qed.

(** A length over the limit is there for good. *)
Lemma framing_over_limit p h :
  length_kept p (m_headerPairs h) -> m_mode p = ServerSide -> max <> 0 ->
  match getValuePtr (bs "content-length") p with
  | None | Some [] => false
  | Some text => match parseSizeTStrict text with Some n => max <? n | None => false end
  end = true -> exists e, body_framing max h = inl e.
Proof.
  intros [_ Hk] Hm Hne. destruct (getValuePtr _ p) as [[|c cl]|] eqn:Ecl; [done| |done].
  destruct (parseSizeTStrict (c :: cl)) as [m|] eqn:Em; [|done]. intros Hlt%Z.ltb_lt.
  destruct (Hk Hm _ eq_refl) as (v' & Hv' & Hc). unfold body_framing. rewrite Hv'.
  destruct (getValuePtr TRANSFER_ENCODING _); [by eexists|]. destruct Hc as [-> | Hc].
  - rewrite Em. unfold exceeds. rewrite (proj2 (Z.eqb_neq max 0)), (proj2 (Z.ltb_lt max m)) by done. by eexists.
  - rewrite parseSizeTStrict_list by done. destruct v'; [by apply not_elem_of_nil in Hc|]. by eexists.
Qed.

Lemma stage_over_limit u r k h body len :
  stage max h0 u r -> checkBodyLimitExceeded setting (m_header r) (m_body r) = true ->
  read_request max h0 (u ++ k) <> Accepted h body len.
Proof.
  unfold checkBodyLimitExceeded. destruct (Z.eqb_spec max 0) as [|Hne]; [done|].
  intros [h1 Hp|h1 n j Hp Hf Hk|h1 n b p Hp Hf Hb]; cbn [new_request m_header m_body].
  - rewrite (proj2 (Z.ltb_ge max (blen []))), orb_false_r by (rewrite (@blen_nil byte); lia).
    intros [_ Hover]%andb_true_iff. unfold read_request. rewrite parse_chars_app, Hp, Z.add_0_l.
    pose proof (parse_chars_length_kept false u 0 h0) as Hk0. rewrite Hp in Hk0. destruct Hk0 as [Hm _].
    pose proof (parse_chars_length_kept false k (blen u) h1) as Hk1.
    destruct (parse_chars false k (blen u) h1) as [|hd m|]; [done| |done].
    destruct (framing_over_limit _ _ Hk1 ltac:(congruence) Hne Hover) as [e ->]. done.
  - intros Hover. exfalso. pose proof (finished_range _ _ _ _ _ Hopen Hp) as Hn.
    assert (read_request max h0 (u ++ replicate (Z.to_nat (j - (blen u - n))) (Byte.x00)) =
      Accepted h1 (take (Z.to_nat j) (drop (Z.to_nat n) (u ++ replicate (Z.to_nat (j - (blen u - n))) (Byte.x00)))) (n + j)) as Ha.
    { unfold read_request. rewrite (finished_more _ _ _ _ _ Hp), Hf. cbv zeta.
      rewrite blen_drop by (rewrite blen_app, blen_replicate; lia). rewrite blen_app, blen_replicate.
      by rewrite (proj2 (Z.ltb_ge _ j)) by lia. }
    apply accepted_within in Ha. unfold checkBodyLimitExceeded in Ha. rewrite (proj2 (Z.eqb_neq max 0)) in Ha by done.
    apply orb_false_iff in Ha as [Ha1 Ha2%Z.ltb_ge]. rewrite Ha1 in Hover. cbn [orb] in Hover. apply Z.ltb_lt in Hover.
    rewrite blen_drop in Hover by lia. unfold blen at 1 in Ha2. rewrite length_take, length_drop, length_app, length_replicate in Ha2.
    unfold blen in *. lia.
  - destruct (framing_chunked _ _ Hf) as [Hc _]. unfold isChunked in Hc. rewrite Hc. cbn [negb andb orb].
    intros Hover%Z.ltb_lt. exfalso.
    pose proof (feed_live max (drop (Z.to_nat n) u) _ (live_new max ltac:(lia))) as (_ & _ & _ & Hbody). fold chunked_start in Hbody.
    destruct Hb as (_ & Hd & _). cbn [ps_data] in Hd. rewrite <- Hd in Hbody. destruct Hbody as [|[Hle _]]; [done|lia].
Qed.

Lemma stage_isComplete u r : stage max h0 u r -> isComplete r = false.
Proof.
  intros [h Hp|h n k Hp Hf Hk|h n b p Hp Hf Hb]; unfold isComplete; cbn [new_request m_headerParsed m_header negb]; [done|..].
  - rewrite (framing_not_chunked _ _ _ Hf) by done. cbn [m_contentLength m_bodyParsed]. apply Z.leb_gt.
    rewrite blen_drop by (pose proof (finished_range _ _ _ _ _ Hopen Hp); lia). done.
  - by destruct (framing_chunked _ _ Hf) as [-> _].
Qed.

(** An unfinished header is shorter than any that goes on from it. *)
Lemma stage_header_short u r k h n :
  stage max h0 u r -> isHeaderComplete (m_header r) = false -> parse_chars false (u ++ k) 0 h0 = Finished h n -> blen u < n.
Proof.
  intros [h1 Hp|h1 m j Hp Hf Hk|h1 m b p Hp Hf Hb]; unfold isHeaderComplete; cbn [new_request m_header].
  - intros _. rewrite parse_chars_app, Hp, Z.add_0_l. intros E.
    apply finished_range in E; [lia|]. destruct (iovecs_loop_spec [u] 0 h0 Hopen) as [_ Ho].
    cbn [concat] in Ho. by rewrite app_nil_r, Hp in Ho.
  - by rewrite (finished_done _ _ _ _ _ Hopen Hp).
  - by rewrite (finished_done _ _ _ _ _ Hopen Hp).
Qed.

Lemma accepted_complete d h body n : read_request max h0 d = Accepted h body n -> isHeaderComplete h = true.
Proof.
  unfold read_request, isHeaderComplete. destruct (parse_chars false d 0 h0) as [|hd m|] eqn:Hp; [done| |done].
  apply finished_done in Hp; [|done]. destruct (body_framing max hd) as [e|[|j|]]; [done|..]; cbv zeta.
  - intros [= <- _ _]. by rewrite Hp.
  - destruct (_ <? j); [done|]. intros [= <- _ _]. by rewrite Hp.
  - destruct (ps_status _); [done| |done]. intros [= <- _ _]. cbn [dechunked set_pairs set_fields m_parseState]. by rewrite Hp.
Qed.

(** One parse of what the ring holds. *)
Lemma got_parses u st :
  got u st -> exists b st', parseFromRingBuffer setting st = Some (b, st') /\
    if b : bool then ends u st' \/ fails u st' else waits u st'.
Proof.
  intros (u0 & -> & Hst & Hok & Hcap & He & Ht1 & Ht2). unfold parseFromRingBuffer.
  pose proof (rb_read_concat _ Hok) as Hcat. pose proof (rb_read_empty _ Hok) as Hempty.
  destruct (rb_read_iovecs (rq_ring st)) as [|iov iovs] eqn:Ei.
  { exists false, st. split; [done|]. split; [|by apply Hempty]. exists u0. by split_and!. }
  fold (limited (rq_request st)). destruct (fromIOVec_answer max h0 (proj1 Hmax) Hopen Hserver u0 (iov :: iovs) _ Hst)
    as ([[e n] r] & -> & Ha). rewrite Hcat in Ha. set (w := rb_view (rq_ring st)) in *. unfold answers in Ha. cbn [fst snd] in Ha.
  assert (w <> []) as Hw by (intros Ew; by apply Hempty in Ew). apply blen_pos in Hw.
  cbv zeta. cbn [rq_ring rq_request m_total_received m_http_error].
  destruct (read_request max h0 (u0 ++ w)) as [|e'|h body m] eqn:Er.
  - destruct Ha as ([= -> ->] & Hr). rewrite (proj2 (Z.ltb_lt 0 _)) by done.
    destruct (rb_consume_view (rq_ring st) (blen w) Hok ltac:(lia)) as (Hok' & Hcap' & Hv).
    assert (rb_view (rb_consume (blen w) (rq_ring st)) = []) as Hv' by (rewrite Hv; apply drop_ge; unfold w, blen; lia).
    destruct (checkBodyLimitExceeded setting (m_header r) (m_body r)) eqn:Hover.
    { eexists true, _. split; [done|]. right. split; [done|]. intros k h n _ _ h' body len. by eapply stage_over_limit. }
    destruct (negb (isHeaderComplete (m_header r)) && _) eqn:Hlong.
    { apply andb_true_iff in Hlong as [Hc%negb_true_iff Hlong%Z.leb_le]. eexists true, _. split; [done|]. right.
      split; [done|]. intros k h n Hfin Hle. pose proof (stage_header_short _ _ _ _ _ Hr Hc Hfin). lia. }
    rewrite (stage_isComplete _ _ Hr). eexists false, _. split; [done|]. split; [|done]. exists (u0 ++ w).
    cbn [rq_ring rq_request m_total_received m_http_error]. rewrite (limited_id r) by by eapply stage_limits.
    rewrite Hv', app_nil_r. split_and!; done || congruence.
  - injection Ha as -> ->.
    assert (forall st' : HttpRequestReadState B, m_http_error st' <> None -> fails (u0 ++ w) st') as Hf.
    { intros st' Hn. split; [done|]. intros k h n _ _ h' body len. rewrite read_request_app, Er; [done|lia|done|by rewrite Er]. }
    destruct (checkBodyLimitExceeded _ _ _); [eexists true, _; split; [done|]; right; by apply Hf|].
    destruct (negb _ && _); [eexists true, _; split; [done|]; right; by apply Hf|].
    eexists true, (setParseError e' _). split; [|right; by apply Hf].
    destruct (read_request_error _ _ _ _ Er) as [Hin|Hin]; clear Hf Er;
      destruct e'; try done; by apply (bool_decide_pack _) in Hin.
  - destruct Ha as ([= -> ->] & Hm & Hd). pose proof Hd as (Hh & Hb & Hc). rewrite Hh, Hb, (accepted_within _ _ _ _ Er).
    rewrite (accepted_complete _ _ _ _ Er). cbn [negb andb]. eexists _, _. split; [done|]. rewrite Hc. left.
    exists h, body, m. rewrite blen_app. split; [done|]. split; [lia|]. split; [done|]. split; [done|].
    cbn [rq_ring]. destruct (Z.ltb_spec 0 (m - blen u0)).
    + destruct (rb_consume_view (rq_ring st) (m - blen u0) Hok ltac:(lia)) as (Hok' & Hcap' & Hv).
      split_and!; [done|congruence|]. rewrite Hv. apply drop_behind. lia.
    + split_and!; [done..|]. rewrite <- drop_behind by lia. by replace (m - blen u0) with 0 by lia.
Qed.

Lemma waits_windows u st :
  waits u st -> prepareRecvWindow st = (true, st) \/
    (cap <= 0 /\ exists st', prepareRecvWindow st = (false, st') /\ m_http_error st' <> None).
Proof.
  intros [(u0 & _ & _ & Hok & Hcap & _) Hv]. unfold prepareRecvWindow.
  pose proof (write_window_open (rq_ring st) Hok Hv) as Hw.
  destruct (rb_write_iovecs (rq_ring st)); [right|by left]. split; [|by eexists].
  destruct (decide (0 < cap)); [|lia]. by destruct Hw; [congruence|].
Qed.

Lemma waits_receives u data st :
  data <> [] -> blen data <= cap -> waits u st -> got (u ++ data) (onBytesReceived data st).
Proof.
  intros Hne Hle [(u0 & -> & Hst & Hok & Hcap & He & Ht1 & Ht2) Hv].
  destruct (receive_into_empty (rq_ring st) data Hok Hv ltac:(lia)) as (Hok' & Hcap' & Hv').
  exists u0. cbn [onBytesReceived rq_ring rq_request m_http_error m_total_received].
  rewrite Hv', Hv, app_nil_r in *. split_and!; [done|done|done|congruence|done|apply Z.mod_pos_bound; lia|].
  rewrite blen_app. pose proof (blen_nonneg data). etrans; [apply Z.mod_le; lia|lia].
Qed.

(** What comes of reading, whatever the socket answers. *)
Lemma reader_outcome events u st :
  got u st -> Forall (fun e => match e with Received data => blen data <= cap | _ => True end) events ->
  exists front later out, events = front ++ later /\ read_machine (request_reader setting) events st = Some out /\
  match out with
  | Completed r st' l => l = later /\ r = takeResult st' /\
      (ends (u ++ octets front) st' \/ fails (u ++ octets front) st' \/
       (m_http_error st' <> None /\ (cap <= 0 \/ Exists brings_none front)))
  | Waiting st' => later = [] /\ waits (u ++ octets front) st'
  end.
Proof.
  apply (read_machine_sound (request_reader setting) got waits ends fails (fun st => m_http_error st <> None) cap).
  - exact got_parses.
  - exact waits_windows.
  - done.
  - exact waits_receives.
Qed.

Lemma waits_incomplete u st : waits u st -> read_request max h0 u = Incomplete.
Proof. intros [(u0 & -> & Hst & _) Hv]. rewrite Hv, app_nil_r. eapply stage_incomplete; [lia|done..]. Qed.

(** Octets that are a request within the limits are read as it. *)
Lemma request_completes chunks u st h body n :
  0 < cap -> got u st -> Forall (fun c => c <> [] /\ blen c <= cap) chunks ->
  read_request max h0 (u ++ concat chunks) = Accepted h body n ->
  (forall hd m, parse_chars false (u ++ concat chunks) 0 h0 = Finished hd m -> m <= m_max_header_size setting) ->
  exists front back st', chunks = front ++ back /\
    read_machine (request_reader setting) (map Received chunks) st = Some (Completed (inr true) st' (map Received back)) /\
    delivered h body (rq_request st') /\ n <= blen (u ++ concat front) /\ rb_ok (rq_ring st') /\
    rb_capacity (rq_ring st') = cap /\ rb_view (rq_ring st') = drop (Z.to_nat n) (u ++ concat front).
Proof.
  intros Hcap Hg Hc Ha Hsize. destruct (reader_outcome (map Received chunks) u st Hg) as (fe & le & out & He & Hrun & Hout).
  { apply Forall_map. eapply Forall_impl; [exact Hc|]. by intros c []. }
  apply map_eq_app in He as (front & back & -> & <- & <-).
  assert (forall l, octets (map Received l) = concat l) as Hoct.
  { intros l. unfold octets. rewrite map_map. f_equal. apply map_id. }
  rewrite Hoct in Hout. rewrite concat_app in *. apply Forall_app in Hc as [Hc1 Hc2].
  assert (read_request max h0 (u ++ concat front) <> Incomplete ->
    read_request max h0 (u ++ concat front) = Accepted h body n) as Hpre.
  { intros Hne. rewrite <- (read_request_app max h0 _ (concat back)), <- app_assoc by (done || lia). done. }
  exists front, back. rewrite Hrun. destruct out as [r st' l|st'].
  - destruct Hout as (-> & -> & [(h2 & b2 & n2 & Er & Hn & Hd & Hnone2 & Hok & Hcap' & Hv)|[[_ Hf]|[_ [?|Hex]]]]).
    + rewrite Hpre in Er by (by rewrite Er). injection Er as <- <- <-. exists st'.
      split; [done|]. split; [unfold takeResult; by rewrite Hnone2|]. by split_and!.
    + exfalso. specialize (Hf (concat back)). rewrite <- app_assoc in Hf.
      unfold read_request in Ha at 1. destruct (parse_chars false _ 0 h0) as [|hd m|] eqn:Hp; [done| |done].
      apply (Hf hd m eq_refl (Hsize _ _ eq_refl) h body n). unfold read_request. by rewrite Hp.
    + lia.
    + exfalso. apply Exists_exists in Hex as (e & (c & -> & Hin)%list_elem_of_fmap & Hb).
      rewrite Forall_forall in Hc1. apply Hc1 in Hin as [Hne _]. by destruct c.
  - destruct Hout as [Hb Hw]. apply waits_incomplete in Hw. destruct back; [|done].
    rewrite app_nil_r in Ha. congruence.
Qed.
End Reading.

(** ** Requests that are written *)

(** A request and, where its header says so, the chunks of its body. *)
Definition message : Type := HttpRequest * list bytes.

Definition sent_header (m : message) : HttpRequestHeader := m_header (toString m.1).2.
Definition sent_chunked (m : message) : bool := isChunked (sent_header m).
Definition wire (m : message) : bytes := (toString m.1).1 ++ (if sent_chunked m then chunked m.2 else []).
Definition sent_body (m : message) : bytes := if sent_chunked m then concat m.2 else m_body m.1.

(** The header is sent as it is where it frames the body already. *)
Lemma sent_header_framed m :
  isChunked (m_header m.1) = true \/
  (addHeaderPairIfNotExist (bs "Content-Length") (to_chars (blen (m_body m.1))) (m_headerPairs (m_header m.1))).1 = kHeaderPairExist ->
  sent_header m = m_header m.1.
Proof.
  unfold sent_header, toString. cbn [snd set_header m_header]. destruct (isChunked (m_header m.1)); [done|]. intros [|E]; [done|].
  assert ((addHeaderPairIfNotExist (bs "Content-Length") (to_chars (blen (m_body m.1))) (m_headerPairs (m_header m.1))).2 =
    m_headerPairs (m_header m.1)) as ->; [|by destruct (m_header m.1)].
  revert E. unfold addHeaderPairIfNotExist, try_emplace. by repeat case_match.
Qed.

(** A message that can be sent to a reader with the given limits. *)
Record message_ok (setting : HttpReaderSetting) (m : message) : Prop := mkMessageOk {
  ok_header : header_ok (m_max_header_count setting) (m_max_header_line_size setting) (m_max_uri_size setting) (sent_header m);
  ok_header_size : blen (HttpRequestHeader.toString (sent_header m)) <= m_max_header_size setting;
  ok_framing :
    if sent_chunked m then
      (exists te, getValuePtr TRANSFER_ENCODING (m_headerPairs (sent_header m)) = Some te /\
        isSingleHeaderToken te (bs "chunked") = true) /\
      getValuePtr (bs "content-length") (m_headerPairs (sent_header m)) = None /\ Forall (fun d => d <> []) m.2
    else
      getValuePtr TRANSFER_ENCODING (m_headerPairs (sent_header m)) = None /\
      exists text, getValuePtr (bs "content-length") (m_headerPairs (sent_header m)) = Some text /\
        parseSizeTStrict text = Some (blen (m_body m.1));
  ok_body : blen (sent_body m) < 2 ^ 64 /\ exceeds (m_max_body_size setting) (blen (sent_body m)) = false
}.

(** A message as it is received: what stands for the framing is the length of the body. *)
Definition received (m : message) (r : HttpRequest) : Prop :=
  m_body r = sent_body m /\
  m_method (m_header r) = m_method (sent_header m) /\ m_version (m_header r) = m_version (sent_header m) /\
  m_uri (m_header r) = m_uri (sent_header m) /\ m_argList (m_header r) = m_argList (sent_header m) /\
  getValuePtr TRANSFER_ENCODING (m_headerPairs (m_header r)) = None /\
  (exists text, getValuePtr (bs "content-length") (m_headerPairs (m_header r)) = Some text /\
    parseSizeTStrict text = Some (blen (sent_body m))) /\
  forall key, toLowerAscii key <> TRANSFER_ENCODING -> toLowerAscii key <> bs "content-length" ->
    getValuePtr key (m_headerPairs (m_header r)) = getValuePtr key (m_headerPairs (sent_header m)).

Lemma wire_eq m : wire m = HttpRequestHeader.toString (sent_header m) ++
  (if sent_chunked m then chunked m.2 else m_body m.1).
Proof.
  unfold wire, sent_chunked, sent_header, toString. destruct m as [r ds]. cbn [fst snd].
  set (h := if isChunked (m_header r) then _ else _). cbn [fst snd set_header m_header].
  by destruct (isChunked h); rewrite ?app_nil_r.
Qed.

Lemma exceeds_false max n : 0 <= n -> exceeds max n = false -> max = 0 \/ n <= max.
Proof. unfold exceeds. destruct (Z.eqb_spec max 0); [by left|]. cbn [negb andb]. intros _ Hn%Z.ltb_ge. by right. Qed.

(** The reference reads a message that was sent, up to its last octet. *)
Lemma read_request_wire setting m h0 rest :
  message_ok setting m -> 0 <= m_max_body_size setting ->
  blank (m_max_header_count setting) (m_max_header_line_size setting) (m_max_uri_size setting) h0 ->
  exists h hd, read_request (m_max_body_size setting) h0 (wire m ++ rest) = Accepted h (sent_body m) (blen (wire m)) /\
    parse_chars false (wire m ++ rest) 0 h0 = Finished hd (blen (HttpRequestHeader.toString (sent_header m))) /\
    forall r, delivered h (sent_body m) r -> received m r.
Proof.
  intros [Hh Hsize Hf [Hb Hlim]] Hmax Hblank. rewrite wire_eq, <- app_assoc.
  destruct (written_header_read _ _ _ _ h0 ((if sent_chunked m then chunked m.2 else m_body m.1) ++ rest) Hh Hblank)
    as (hd & Hp & H1 & H2 & H3 & H4 & Hfields).
  pose proof (finished_mode _ _ _ _ _ ltac:(by rewrite (b_fields _ _ _ _ Hblank)) Hp) as Hm.
  unfold read_request. rewrite Hp, drop_blen, blen_app. unfold body_framing. rewrite !Hfields.
  unfold sent_body in *. destruct (sent_chunked m) eqn:Ec.
  - destruct Hf as ((te & Hte & Hs) & Hcl & Hds). rewrite Hte, Hcl, Hs.
    pose proof (feed_chunked (m_max_body_size setting) m.2 new_parser rest Hds Hb
      (exceeds_false _ _ (blen_nonneg _) Hlim) ltac:(done)) as (_ & F2 & F3 & F4).
    cbn [ps_data ps_consumed ps_status] in F2, F3, F4. fold chunked_start in F2, F3, F4. cbv zeta. rewrite F4, F2, F3, ?blen_app.
    eexists _, hd. split; [done|]. split; [done|]. intros r (E1 & E2 & _).
    destruct (dechunked_fields (blen (concat m.2)) hd Hm) as (_ & D1 & D2 & D3); [by rewrite Hfields|].
    unfold received, sent_body. rewrite Ec, E1, E2. split_and!; try done.
    + eexists. split; [exact D2|]. apply parseSizeTStrict_to_chars. pose proof (blen_nonneg (concat m.2)). lia.
    + intros key K1 K2. by rewrite D3, Hfields.
  - destruct Hf as (Hte & text & Hcl & Hnum). rewrite Hte, Hcl, Hnum, Hlim.
    exists hd, hd. split.
    + destruct text as [|c text]; [by vm_compute in Hnum|]. cbv zeta.
      rewrite !blen_app, (proj2 (Z.ltb_ge _ (blen (m_body m.1)))) by (pose proof (blen_nonneg rest); lia).
      replace (Z.to_nat (blen (m_body m.1))) with (length (m_body m.1)) by (unfold blen; lia).
      by rewrite take_app_length.
    + split; [done|]. intros r (E1 & E2 & _). unfold received, sent_body. rewrite Ec, E1, E2. split_and!; try done.
      * by rewrite Hfields.
      * exists text. by rewrite Hfields.
Qed.

Lemma accepted_mode max h0 d h body n :
  m_mode (m_headerPairs h0) = ServerSide -> read_request max h0 d = Accepted h body n -> m_mode (m_headerPairs h) = ServerSide.
Proof.
  intros Hm. unfold read_request. destruct (parse_chars false d 0 h0) as [|hd m|] eqn:Hp; [done| |done].
  pose proof (finished_mode _ _ _ _ _ Hm Hp) as Hd. destruct (body_framing max hd) as [e|[|j|]] eqn:Hf; [done|..]; cbv zeta.
  - by intros [= <- _ _].
  - destruct (_ <? j); [done|]. by intros [= <- _ _].
  - destruct (ps_status _); [done| |done]. intros [= <- _ _].
    destruct (framing_chunked _ _ Hf) as [_ Hcl]. by destruct (dechunked_fields (blen (ps_data (feed max
      (drop (Z.to_nat m) d) chunked_start))) hd Hd Hcl).
Qed.

Section Connection.
Context {B : Type} `{ByteRingLaws B}.
Variables (setting : HttpReaderSetting).
Hypothesis Hmax : 0 <= m_max_body_size setting < 2 ^ 64.

(** A request before its first octet, with the header it is parsed from. *)
Definition starts (r : HttpRequest) (h0 : HttpRequestHeader) : Prop :=
  limited setting r = new_request h0 /\
  blank (m_max_header_count setting) (m_max_header_line_size setting) (m_max_uri_size setting) h0.

Lemma new_request_starts a b c :
  starts (new_request (new_request_header ServerSide a b c))
    (new_request_header ServerSide (m_max_header_count setting) (m_max_header_line_size setting) (m_max_uri_size setting)).
Proof. split; [done|apply new_header_blank]. Qed.

Lemma reset_starts r : m_mode (m_headerPairs (m_header r)) = ServerSide -> exists h0, starts (reset r) h0.
Proof.
  intros Hm. eexists. split; [done|]. apply (reset_blank (setParseLimits _ _ _ (m_header r)) Hm).
Qed.

Lemma starts_got r h0 (b : B) :
  starts r h0 -> rb_ok b -> got setting h0 (rb_capacity b) (rb_view b) (mkRequestRead b r 0 None).
Proof.
  intros [Hr _] Hok. exists []. split; [done|]. cbn [rq_ring rq_request m_http_error m_total_received]. rewrite Hr.
  split_and!; try done; [by apply stage_header|apply blen_nonneg].
Qed.

Lemma blank_facts a b c h0 : blank a b c h0 ->
  open h0 /\ m_mode (m_headerPairs h0) = ServerSide /\ limits_of h0 = (a, b, c).
Proof.
  intros Hb. split; [by eapply blank_open|]. destruct Hb as [_ Hp _ (L1 & L2 & L3) _ _]. rewrite Hp. unfold limits_of.
  by rewrite L1, L2, L3.
Qed.

(** One message behind the others. *)
Lemma message_read m r h0 (b : B) chunks rest :
  starts r h0 -> message_ok setting m -> rb_ok b -> 0 < rb_capacity b ->
  Forall (fun c => c <> [] /\ blen c <= rb_capacity b) chunks -> rb_view b ++ concat chunks = wire m ++ rest ->
  exists front back st, chunks = front ++ back /\
    read_machine (request_reader setting) (map Received chunks) (mkRequestRead b r 0 None) =
      Some (Completed (inr true) st (map Received back)) /\
    received m (rq_request st) /\ m_mode (m_headerPairs (m_header (rq_request st))) = ServerSide /\
    rb_ok (rq_ring st) /\ rb_capacity (rq_ring st) = rb_capacity b /\ rb_view (rq_ring st) ++ concat back = rest.
Proof.
  intros Hs Hm Hok Hcap Hc He. pose proof Hs as [_ Hblank]. destruct (blank_facts _ _ _ _ Hblank) as (Hopen & Hserver & Hlim).
  destruct (read_request_wire setting m h0 rest Hm (proj1 Hmax) Hblank) as (h & hd & Ha & Hp & Hrec).
  destruct (request_completes setting h0 (rb_capacity b) Hmax Hopen Hserver Hlim chunks (rb_view b) (mkRequestRead b r 0 None)
    h (sent_body m) (blen (wire m))) as (front & back & st & -> & Hrun & Hd & Hn & Hok' & Hcap' & Hv);
    [done|by apply starts_got|done|by rewrite He| |].
  { rewrite He, Hp. intros hd' n [= <- <-]. apply Hm. }
  exists front, back, st. split; [done|]. split; [done|]. split; [by apply Hrec|]. split.
  - destruct Hd as (-> & _). by eapply accepted_mode.
  - split; [done|]. split; [done|]. rewrite Hv. rewrite concat_app, app_assoc in He.
    rewrite <- (drop_app_le _ (concat back)) by (unfold blen in *; lia). rewrite He. apply drop_blen.
Qed.

End Connection.

(** How the body of an accepted request is framed. *)
Lemma accepted_framing max h0 d h body n :
  0 <= max -> open h0 -> read_request max h0 d = Accepted h body n ->
  exists hd k, parse_chars false d 0 h0 = Finished hd k /\ 0 <= k <= n /\ (max = 0 \/ blen body <= max) /\
    let te := getValuePtr TRANSFER_ENCODING (m_headerPairs hd) in
    let cl := getValuePtr (bs "content-length") (m_headerPairs hd) in
    let tail := take (Z.to_nat (n - k)) (drop (Z.to_nat k) d) in
    ((te = None /\ (cl = None \/ cl = Some []) /\ body = [] /\ tail = []) \/
     (te = None /\ (exists text, cl = Some text /\ parseSizeTStrict text = Some (blen body)) /\ tail = body) \/
     (cl = None /\ (exists t, te = Some t /\ isSingleHeaderToken t (bs "chunked") = true) /\
      let s := feed max (drop (Z.to_nat k) d) chunked_start in
      ps_status s = Last /\ ps_consumed s = blen tail /\ ps_data s = body)).
Proof.
  intros Hmax Ho. unfold read_request. destruct (parse_chars false d 0 h0) as [|hd k|] eqn:Hp; [done| |done].
  pose proof (finished_range _ _ _ _ _ Ho Hp) as Hk. intros Ha. exists hd, k. split; [done|]. cbv zeta in *.
  destruct (body_framing max hd) as [e|[|j|]] eqn:Hf; [done|..].
  - injection Ha as _ <- <-. split; [lia|]. split; [right; rewrite (@blen_nil byte); lia|]. left.
    rewrite Z.sub_diag. unfold body_framing in Hf. repeat case_match; simplify_eq; by auto.
  - pose proof (framing_sized_range _ _ _ Hf) as Hj. destruct (Z.ltb_spec (blen (drop (Z.to_nat k) d)) j) as [|Hge]; [done|].
    injection Ha as _ <- <-. assert (blen (take (Z.to_nat j) (drop (Z.to_nat k) d)) = j) as Hlen.
    { unfold blen in *. rewrite length_take. lia. }
    rewrite Hlen. split; [lia|]. unfold body_framing in Hf.
    destruct (getValuePtr TRANSFER_ENCODING _); [repeat case_match; congruence|].
    destruct (getValuePtr (bs "content-length") _) as [[|c cl]|]; [done| |done].
    destruct (parseSizeTStrict (c :: cl)) as [j'|] eqn:Ej; [|done]. destruct (exceeds max j') eqn:Ex; [done|]. injection Hf as ->.
    apply exceeds_false in Ex; [|lia]. split; [done|]. right. left. split; [done|]. split; [by eexists|].
    by replace (k + j - k) with j by lia.
  - destruct (framing_chunked _ _ Hf) as [_ Hcl].
    pose proof (feed_live max (drop (Z.to_nat k) d) _ (live_new max Hmax)) as (_ & Hr & _ & Hbody). fold chunked_start in Hr, Hbody.
    set (s := feed max (drop (Z.to_nat k) d) chunked_start) in *. destruct (ps_status s); [done| |done].
    injection Ha as _ <- <-. cbn [chunked_start ps_consumed] in Hr. split; [lia|].
    split; [destruct Hbody as [|[? _]]; [by left|by right]|]. right. right. split; [done|]. split.
    + unfold body_framing in Hf. rewrite Hcl in Hf. destruct (getValuePtr TRANSFER_ENCODING _) as [t|]; [|done].
      exists t. split; [done|]. by destruct (isSingleHeaderToken t _).
    + split; [done|]. split; [|done]. unfold blen in *. rewrite length_take. lia.
Qed.

(** ** Properties *)

(** C6: The reader accepts what the octets say, however they come. Over any ring and on any answers of the
    socket it returns; it completes with a request exactly when the octets received so far are one by the
    reference that reads them at once: with that header, that body, and what follows the request left in
    the ring. It waits only when the reference wants more octets, and an error means that the octets cannot
    be the start of a request with a header within the limit, that the stream ended, or that the ring has
    no room. *)
Theorem request_reader_exact {B} `{ByteRingLaws B} setting r h0 (b : B) events :
  0 <= m_max_body_size setting < 2 ^ 64 -> starts setting r h0 -> rb_ok b ->
  Forall (fun e => match e with Received data => blen data <= rb_capacity b | _ => True end) events ->
  exists front later out, events = front ++ later /\
    read_machine (request_reader setting) events (mkRequestRead b r 0 None) = Some out /\
    let d := rb_view b ++ octets front in
    match out with
    | Completed (inr _) st l => l = later /\ exists h body n,
        read_request (m_max_body_size setting) h0 d = Accepted h body n /\
        m_header (rq_request st) = h /\ m_body (rq_request st) = body /\ rb_view (rq_ring st) = drop (Z.to_nat n) d
    | Completed (inl _) _ l => l = later /\
        (rb_capacity b <= 0 \/ Exists brings_none front \/
         forall k h n, parse_chars false (d ++ k) 0 h0 = Finished h n -> n <= m_max_header_size setting ->
           forall h' body len, read_request (m_max_body_size setting) h0 (d ++ k) <> Accepted h' body len)
    | Waiting _ => later = [] /\ read_request (m_max_body_size setting) h0 d = Incomplete
    end.
Proof.
  intros Hmax Hs Hok Hf. pose proof Hs as [_ Hb]. destruct (blank_facts _ _ _ _ Hb) as (Hopen & Hserver & Hlim).
  destruct (reader_outcome setting h0 (rb_capacity b) Hmax Hopen Hserver Hlim events (rb_view b) (mkRequestRead b r 0 None))
    as (front & later & out & -> & Hrun & Hout); [by apply starts_got|done|].
  exists front, later, out. split; [done|]. split; [done|]. cbv zeta. destruct out as [res st l|st].
  - destruct Hout as (-> & -> & Hout). unfold takeResult.
    destruct Hout as [(h & body & n & Ha & _ & (H1 & H2 & _) & -> & _ & _ & Hv)|[[He Hfail]|[He Hcut]]].
    + split; [done|]. by exists h, body, n.
    + destruct (m_http_error st); [|done]. split; [done|]. by right; right.
    + destruct (m_http_error st); [|done]. split; [done|]. tauto.
  - destruct Hout as [-> Hw]. split; [done|]. by apply (waits_incomplete setting h0 (rb_capacity b) Hmax Hopen _ st).
Qed.

(** Requests sent one behind the other are received one by one. Whatever is sent with [toString],
    followed by the chunks of its body where it is chunked, and whatever ring and reads cut the octets,
    [getRequest] on one connection delivers every request in turn, with its method, version, target,
    fields and body, and leaves what follows the last of them. *)
Theorem pipelined_requests_delivered {B} `{ByteRingLaws B} setting m ms r h0 (b : B) chunks rest :
  0 <= m_max_body_size setting < 2 ^ 64 -> starts setting r h0 -> Forall (message_ok setting) (m :: ms) ->
  rb_ok b -> 0 < rb_capacity b -> Forall (fun c => c <> [] /\ blen c <= rb_capacity b) chunks ->
  rb_view b ++ concat chunks = concat (map wire (m :: ms)) ++ rest ->
  exists rs st back, getRequests setting (length ms) (map Received chunks) (mkRequestRead b r 0 None) =
      Some (rs, Completed (inr true) st (map Received back)) /\
    Forall2 received (m :: ms) rs /\ rb_view (rq_ring st) ++ concat back = rest.
Proof.
  intros Hmax. revert m r h0 b chunks. induction ms as [|m2 ms IH]; intros m r h0 b chunks Hs Hms Hok Hcap Hc He;
    apply Forall_cons in Hms as [Hm Hms]; cbn [map concat] in He; rewrite <- app_assoc in He;
    destruct (message_read setting Hmax _ _ _ _ _ _ Hs Hm Hok Hcap Hc He)
      as (front & back & st & -> & Hrun & Hrec & Hmode & Hok' & Hcap' & Hv); cbn [length getRequests]; rewrite Hrun.
  - exists [rq_request st], st, back. split; [done|]. split; [|done]. by constructor.
  - destruct (reset_starts setting _ Hmode) as (h1 & Hs'). apply Forall_app in Hc as [_ Hc]. rewrite <- Hcap' in Hc, Hcap.
    destruct (IH m2 _ h1 (rq_ring st) back Hs' Hms Hok' Hcap Hc Hv) as (rs & st' & back' & Hrun' & Hall & Hrest).
    unfold resetForNextRead. rewrite Hrun'. exists (rq_request st :: rs), st', back'. split; [done|]. split; [by constructor|done].
Qed.

(** C7: What is accepted has one framing only. A request that is read successfully begins with a complete
    header, and either has neither a transfer encoding nor a length, and no body; or has no transfer
    encoding and a length that is one decimal number, and its body is exactly that many octets; or has no
    length and a transfer encoding that is [chunked] alone, and its body is what the chunks up to the last
    one carry. The body is within the limit, and the octets behind it are still in the ring. *)
Theorem accepted_requests_framed {B} `{ByteRingLaws B} setting r h0 (b : B) events ok st later :
  0 <= m_max_body_size setting < 2 ^ 64 -> starts setting r h0 -> rb_ok b ->
  Forall (fun e => match e with Received data => blen data <= rb_capacity b | _ => True end) events ->
  read_machine (request_reader setting) events (mkRequestRead b r 0 None) = Some (Completed (inr ok) st later) ->
  exists front hd n tail, events = front ++ later /\
    let d := rb_view b ++ octets front in
    let te := getValuePtr TRANSFER_ENCODING (m_headerPairs hd) in
    let cl := getValuePtr (bs "content-length") (m_headerPairs hd) in
    let body := m_body (rq_request st) in
    parse_chars false d 0 h0 = Finished hd n /\ (m_max_body_size setting = 0 \/ blen body <= m_max_body_size setting) /\
    drop (Z.to_nat n) d = tail ++ rb_view (rq_ring st) /\
    ((te = None /\ (cl = None \/ cl = Some []) /\ body = [] /\ tail = []) \/
     (te = None /\ (exists text, cl = Some text /\ parseSizeTStrict text = Some (blen body)) /\ tail = body) \/
     (cl = None /\ (exists t, te = Some t /\ isSingleHeaderToken t (bs "chunked") = true) /\
      let s := feed (m_max_body_size setting) (drop (Z.to_nat n) d) chunked_start in
      ps_status s = Last /\ ps_consumed s = blen tail /\ ps_data s = body)).
Proof.
  intros Hmax Hs Hok Hf Hrun. pose proof Hs as [_ Hb]. destruct (blank_facts _ _ _ _ Hb) as (Hopen & Hserver & Hlim).
  destruct (reader_outcome setting h0 (rb_capacity b) Hmax Hopen Hserver Hlim events (rb_view b) (mkRequestRead b r 0 None))
    as (front & later' & out & -> & Hrun' & Hout); [by apply starts_got|done|]. rewrite Hrun in Hrun'.
  injection Hrun' as <-. destruct Hout as (-> & Hres & Hout). set (d := rb_view b ++ octets front) in *.
  destruct Hout as [(h & body & n & Ha & Hn & (_ & Hbody & _) & _ & _ & _ & Hv)|[[He _]|[He _]]];
    [|by unfold takeResult in Hres; destruct (m_http_error st)..].
  destruct (accepted_framing (m_max_body_size setting) h0 d h body n (proj1 Hmax) Hopen Ha) as (hd & k & Hp & Hk & Hlimit & Hcases).
  exists front, hd, k, (take (Z.to_nat (n - k)) (drop (Z.to_nat k) d)). split; [done|]. rewrite Hbody, Hv. cbv zeta.
  split; [done|]. split; [done|]. split; [|done].
  etrans; [symmetry; apply (take_drop (Z.to_nat (n - k)))|]. f_equal. rewrite drop_drop. f_equal. lia.
Qed.

(** ** Witnesses and examples *)

Definition sample_setting : HttpReaderSetting := mkSetting 200 10 100 100 10.

Definition sized_message : message := (mkRequest (bs "abc") sample_header 0 0 new_parser false, []).

Definition chunked_header : HttpRequestHeader :=
  set_fields (run_ops [Add (bs "host") (bs "h"); Add (bs "transfer-encoding") (bs "Chunked")] (new_headers ClientSide)).2
    0 false 0 (set_request POST HttpVersion_1_1 (bs "/u") ∅ false (new_request_header ClientSide 0 0 0)).
Definition chunked_message : message := (mkRequest [] chunked_header 0 0 new_parser false, [bs "de"; bs "f"]).

Definition sample_octets : bytes := wire sized_message ++ wire chunked_message ++ bs "GET".
Definition sample_reads : list bytes :=
  [take 50 sample_octets; take 60 (drop 50 sample_octets); drop 110 sample_octets].

Lemma sized_message_ok : message_ok sample_setting sized_message.
Proof.
  assert (sent_header sized_message = sample_header) as E by (apply sent_header_framed; right; by vm_compute).
  assert (sent_chunked sized_message = false) as Ec by (unfold sent_chunked; rewrite E; by vm_compute).
  split; [| | |unfold sent_body]; rewrite ?Ec, ?E; clear E Ec.
  - exact sample_header_ok.
  - by vm_compute.
  - split; [by vm_compute|]. exists (bs "3"). split; by vm_compute.
  - by vm_compute.
Qed.

Lemma chunked_header_ok : header_ok 10 100 100 chunked_header.
Proof.
  split.
  - by right.
  - split; [by vm_compute|apply (bool_decide_unpack _); by vm_compute|by vm_compute|apply (bool_decide_unpack _); by vm_compute].
  - by vm_compute.
  - apply (run_ops_spec [Add (bs "host") (bs "h"); Add (bs "transfer-encoding") (bs "Chunked")] (new_headers ClientSide) ∅);
      [apply new_headers_represents|by repeat constructor].
  - assert (fields (m_headerPairs chunked_header) = [(bs "Host", bs "h"); (bs "Transfer-Encoding", bs "Chunked")]) as ->
      by by vm_compute.
    repeat constructor; try done; try (apply (bool_decide_unpack _); by vm_compute).
  - by vm_compute.
Qed.

Lemma chunked_message_ok : message_ok sample_setting chunked_message.
Proof.
  assert (sent_header chunked_message = chunked_header) as E by (apply sent_header_framed; left; by vm_compute).
  assert (sent_chunked chunked_message = true) as Ec by (unfold sent_chunked; rewrite E; by vm_compute).
  split; [| | |unfold sent_body]; rewrite ?Ec, ?E; clear E Ec.
  - exact chunked_header_ok.
  - by vm_compute.
  - split; [|split; [by vm_compute|by repeat constructor]]. exists (bs "Chunked"). split; by vm_compute.
  - by vm_compute.
Qed.

Lemma pipelined_requests_delivered_witness :
  exists rs st back,
    getRequests sample_setting 1 (map Received sample_reads)
      (mkRequestRead (new_vector 64) (new_request (new_request_header ServerSide 0 0 0)) 0 None) =
      Some (rs, Completed (inr true) st (map Received back)) /\
    Forall2 received [sized_message; chunked_message] rs /\ rb_view (rq_ring st) ++ concat back = bs "GET".
Proof.
  apply (pipelined_requests_delivered sample_setting sized_message [chunked_message]
    (new_request (new_request_header ServerSide 0 0 0)) (new_request_header ServerSide 10 100 100) (new_vector 64)
    sample_reads (bs "GET")).
  - done.
  - apply (new_request_starts sample_setting).
  - constructor; [exact sized_message_ok|]. constructor; [exact chunked_message_ok|done].
  - by vm_compute.
  - by vm_compute.
  - apply (bool_decide_unpack _). by vm_compute.
  - by vm_compute.
Defined.

(** The same reads, to the end of the second request. *)
Example sample_requests :
  match getRequests sample_setting 1 (map Received sample_reads)
    (mkRequestRead (new_vector 64) (new_request (new_request_header ServerSide 0 0 0)) 0 None) with
  | Some (rs, Completed (inr true) st _) =>
      map m_body rs = [bs "abc"; bs "def"] /\ rb_view (rq_ring st) = bs "GET" /\
      map (fun r => fields (m_headerPairs (m_header r))) rs =
        [[(bs "host", bs "h"); (bs "content-length", bs "3")]; [(bs "host", bs "h"); (bs "content-length", bs "3")]]
  | _ => False
  end.
Proof. by vm_compute. Qed.

Definition refused (head : bytes) : bool :=
  match getRequests sample_setting 0 [Received head]
    (mkRequestRead (new_vector 128) (new_request (new_request_header ServerSide 0 0 0)) 0 None) with
  | Some (_, Completed (inl _) _ _) => true
  | _ => false
  end.

(** Both framings at once, a list of codings, an unknown coding, a length that is not a number or over the
    limit, two lengths. *)
Example ambiguous_framings_refused :
  let head fields := bs "POST / HTTP/1.1" ++ HttpRequestHeader.crlf ++ concat (map (fun f => f ++ HttpRequestHeader.crlf) fields) ++
    HttpRequestHeader.crlf in
  forallb refused
    [head [bs "content-length: 3"; bs "transfer-encoding: chunked"]; head [bs "transfer-encoding: gzip, chunked"];
     head [bs "transfer-encoding: identity"]; head [bs "content-length: +3"]; head [bs "content-length: 11"];
     head [bs "content-length: 3"; bs "content-length: 4"]] = true.
Proof. by vm_compute. Qed.

(** Two lengths that agree pass the check of the header and are refused by the request all the same. *)
Example equal_lengths_refused :
  refused (bs "POST / HTTP/1.1" ++ HttpRequestHeader.crlf ++ bs "content-length: 3" ++ HttpRequestHeader.crlf ++
    bs "content-length: 3" ++ HttpRequestHeader.crlf ++ HttpRequestHeader.crlf ++ bs "abc") = true.
Proof. by vm_compute. Qed.

(** Witnesses of the other two properties: a request that is cut off, and one that is read. *)
Lemma request_reader_exact_witness :
  let events := [Received (bs "GET / HT"); Received (bs "TP/1.1"); PeerClosed] in
  let b := new_vector 64 in
  let h0 := new_request_header ServerSide 10 100 100 in
  exists front later out, events = front ++ later /\
    read_machine (request_reader sample_setting) events (mkRequestRead b (new_request h0) 0 None) = Some out /\
    let d := rb_view b ++ octets front in
    match out with
    | Completed (inr _) st l => l = later /\ exists h body n,
        read_request 10 h0 d = Accepted h body n /\
        m_header (rq_request st) = h /\ m_body (rq_request st) = body /\ rb_view (rq_ring st) = drop (Z.to_nat n) d
    | Completed (inl _) _ l => l = later /\
        (rb_capacity b <= 0 \/ Exists brings_none front \/
         forall k h n, parse_chars false (d ++ k) 0 h0 = Finished h n -> n <= 200 ->
           forall h' body len, read_request 10 h0 (d ++ k) <> Accepted h' body len)
    | Waiting _ => later = [] /\ read_request 10 h0 d = Incomplete
    end.
Proof.
  apply (request_reader_exact sample_setting (new_request (new_request_header ServerSide 10 100 100))
    (new_request_header ServerSide 10 100 100) (new_vector 64)
    [Received (bs "GET / HT"); Received (bs "TP/1.1"); PeerClosed]).
  - done.
  - apply (new_request_starts sample_setting 10 100 100).
  - by vm_compute.
  - by repeat constructor.
Defined.

Lemma accepted_requests_framed_witness :
  let b := new_vector 64 in
  let h0 := new_request_header ServerSide 10 100 100 in
  let events := [Received (bs "GET / HTTP/1.1" ++ HttpRequestHeader.crlf); Received (HttpRequestHeader.crlf ++ bs "x")] in
  match read_machine (request_reader sample_setting) events (mkRequestRead b (new_request h0) 0 None) with
  | Some (Completed (inr _) st later) =>
      exists front hd n tail, events = front ++ later /\
      let d := rb_view b ++ octets front in
      let te := getValuePtr TRANSFER_ENCODING (m_headerPairs hd) in
      let cl := getValuePtr (bs "content-length") (m_headerPairs hd) in
      let body := m_body (rq_request st) in
      parse_chars false d 0 h0 = Finished hd n /\ (10 = 0 \/ blen body <= 10) /\
      drop (Z.to_nat n) d = tail ++ rb_view (rq_ring st) /\
      ((te = None /\ (cl = None \/ cl = Some []) /\ body = [] /\ tail = []) \/
       (te = None /\ (exists text, cl = Some text /\ parseSizeTStrict text = Some (blen body)) /\ tail = body) \/
       (cl = None /\ (exists t, te = Some t /\ isSingleHeaderToken t (bs "chunked") = true) /\
        let s := feed 10 (drop (Z.to_nat n) d) chunked_start in
        ps_status s = Last /\ ps_consumed s = blen tail /\ ps_data s = body))
  | _ => False
  end.
Proof.
  intros b h0 events.
  assert (match read_machine (request_reader sample_setting) events (mkRequestRead b (new_request h0) 0 None) with
    | Some (Completed (inr _) _ _) => true | _ => false end = true) as Hs by by vm_compute.
  revert Hs. destruct (read_machine _ _ _) as [[[e|ok] st later|st]|] eqn:E;
    intros Hs; [discriminate Hs| |discriminate Hs..].
  apply (accepted_requests_framed sample_setting (new_request h0) h0 b events ok st later).
  - by clear E.
  - apply (new_request_starts sample_setting 10 100 100).
  - clear E. by vm_compute.
  - clear E. by repeat constructor.
  - exact E.
Defined.
