(* ===== verification/HttpRouteParams.v ===== *)
(** * HTTP/1: route parameters

    [RouteParams] of [galay-http/protoc/route_params.h]: the names a route binds and the segments they are
    bound to, in an array of eight and a vector of the others, and the finite map it implements. *)

From Stdlib Require Import ZArith Lia.
From stdpp Require Import base list gmap.
From S2P Require Import Prelude HttpBase.

Abbreviation Entry := (prod bytes bytes).
Definition kInlineCapacity : nat := 8.

(** [m_inline] is the first [m_inline_size] entries of the array; the code never reads the others. *)
Record RouteParams : Type := mkRouteParams { m_inline : list Entry; m_overflow : list Entry }.

Definition no_params : RouteParams := mkRouteParams [] [].

(** The linear search of [findMutable] and [find] over one of the two stores. *)
Fixpoint find_entry (name : bytes) (l : list Entry) : option bytes :=
  match l with
  | [] => None
  | e :: l' => if decide (e.1 = name) then Some e.2 else find_entry name l'
  end.

(** Assignment through the pointer [findMutable] returns; [None] when it is null. *)
Fixpoint assign_entry (name value : bytes) (l : list Entry) : option (list Entry) :=
  match l with
  | [] => None
  | e :: l' =>
      if decide (e.1 = name) then Some ((e.1, value) :: l')
      else match assign_entry name value l' with Some k => Some (e :: k) | None => None end
  end.

Definition assign_existing (name value : bytes) (p : RouteParams) : option RouteParams :=
  match assign_entry name value (m_inline p) with
  | Some l => Some (mkRouteParams l (m_overflow p))
  | None =>
      match assign_entry name value (m_overflow p) with
      | Some l => Some (mkRouteParams (m_inline p) l)
      | None => None
      end
  end.

Definition append_entry (e : Entry) (p : RouteParams) : RouteParams :=
  if decide (length (m_inline p) < kInlineCapacity)%nat then mkRouteParams (m_inline p ++ [e]) (m_overflow p)
  else mkRouteParams (m_inline p) (m_overflow p ++ [e]).

(** The boolean is the size check of the overflow branch, on the name just copied. *)
Definition emplace (name value : bytes) (p : RouteParams) : bool * RouteParams :=
  match assign_existing name value p with
  | Some q => (true, q)
  | None =>
      if decide (length (m_inline p) < kInlineCapacity)%nat then (true, append_entry (name, value) p)
      else (blen (name, value).1 =? blen name, append_entry (name, value) p)%Z
  end.

Definition find (name : bytes) (p : RouteParams) : option bytes :=
  match find_entry name (m_inline p) with
  | Some value => Some value
  | None => find_entry name (m_overflow p)
  end.

Definition contains (name : bytes) (p : RouteParams) : bool := bool_decide (is_Some (find name p)).

(** [operator[]]: the value the reference denotes, and the container. *)
Definition at_or_insert (name : bytes) (p : RouteParams) : bytes * RouteParams :=
  match find name p with
  | Some value => (value, p)
  | None => ([], append_entry (name, []) p)
  end.

Definition clear (p : RouteParams) : RouteParams := no_params.
Definition size (p : RouteParams) : nat := length (m_inline p) + length (m_overflow p).
Definition empty (p : RouteParams) : bool := bool_decide (size p = 0)%nat.

(** [clone]: the entries again, one by one; an insertion that fails leaves the copy empty. *)
Fixpoint clone_entries (l : list Entry) (copy : RouteParams) : bool * RouteParams :=
  match l with
  | [] => (true, copy)
  | e :: l' =>
      match emplace e.1 e.2 copy with
      | (true, copy') => clone_entries l' copy'
      | (false, copy') => (false, clear copy')
      end
  end.

Definition clone (p : RouteParams) : RouteParams :=
  match clone_entries (m_inline p) no_params with
  | (false, copy) => copy
  | (true, copy) => (clone_entries (m_overflow p) copy).2
  end.

Definition upsertMap (params : gmap bytes bytes) (e : Entry) : gmap bytes bytes :=
  match params !! e.1 with
  | Some _ => alter (fun _ => e.2) e.1 params
  | None => <[e.1 := e.2]> params
  end.

Definition toMap (p : RouteParams) : gmap bytes bytes :=
  fold_left upsertMap (m_overflow p) (fold_left upsertMap (m_inline p) ∅).

(** ** The finite map *)

Definition all_entries (p : RouteParams) : list Entry := m_inline p ++ m_overflow p.

(** What every operation keeps: no name twice, no overflow before the array is full. *)
Record wf_params (p : RouteParams) : Prop := {
  wf_names : NoDup (all_entries p).*1;
  wf_inline : (length (m_inline p) <= kInlineCapacity)%nat;
  wf_overflow : m_overflow p <> [] -> length (m_inline p) = kInlineCapacity;
}.

(** The map the entries stand for. *)
Definition param_map (p : RouteParams) : gmap bytes bytes := list_to_map (all_entries p).

Lemma no_params_wf : wf_params no_params.
Proof. split; cbn; [constructor | lia | done]. Qed.

Lemma find_entry_map name l : find_entry name l = list_to_map (M := gmap bytes bytes) l !! name.
Proof.
  induction l as [|[n v] l IH]; [done|]. cbn [find_entry list_to_map fst snd foldr]. cbn. case_decide.
  - subst. by rewrite lookup_insert_eq.
  - by rewrite lookup_insert_ne, IH.
Qed.

Lemma find_map name p : find name p = param_map p !! name.
Proof.
  unfold find, param_map, all_entries. rewrite !find_entry_map, list_to_map_app, lookup_union.
  by destruct (list_to_map (m_inline p) !! name), (list_to_map (m_overflow p) !! name).
Qed.

Lemma assign_entry_spec name value l :
  match assign_entry name value l with
  | Some k => k.*1 = l.*1 /\ length k = length l /\ name ∈ l.*1 /\
      list_to_map (M := gmap bytes bytes) k = <[name := value]> (list_to_map l)
  | None => name ∉ l.*1
  end.
Proof.
  induction l as [|[n v] l IH]; [by apply not_elem_of_nil|]. cbn [assign_entry fst snd]. case_decide as He.
  - subst. cbn. split_and!; [done..| |by rewrite insert_insert_eq]. by left.
  - destruct (assign_entry name value l) as [k|]; cbn.
    + destruct IH as (Hn & Hl & Hi & Hm). rewrite Hn, Hl, Hm. split_and!; [done..| |].
      * by right.
      * by rewrite insert_insert_ne by congruence.
    + by apply not_elem_of_cons.
Qed.

Lemma assign_existing_spec name value p : wf_params p ->
  match assign_existing name value p with
  | Some q => wf_params q /\ param_map q = <[name := value]> (param_map p) /\ size q = size p /\
      name ∈ (all_entries p).*1
  | None => name ∉ (all_entries p).*1
  end.
Proof.
  intros [Hn Hi Ho]. unfold assign_existing. unfold all_entries in *. rewrite fmap_app in *.
  pose proof (assign_entry_spec name value (m_inline p)) as H1.
  destruct (assign_entry name value (m_inline p)) as [k|].
  - destruct H1 as (Hk & Hl & He & Hm). split_and!.
    + split; unfold all_entries; cbn; rewrite ?fmap_app, ?Hk, ?Hl; auto.
    + unfold param_map, all_entries. cbn. rewrite !list_to_map_app, Hm. by rewrite insert_union_l.
    + unfold size. cbn. by rewrite Hl.
    + apply elem_of_app. by left.
  - pose proof (assign_entry_spec name value (m_overflow p)) as H2.
    destruct (assign_entry name value (m_overflow p)) as [k|].
    + destruct H2 as (Hk & Hl & He & Hm). split_and!.
      * split; unfold all_entries; cbn; rewrite ?fmap_app, ?Hk; auto. intros Hne. apply Ho. intros He0. rewrite He0 in Hl. by destruct k.
      * unfold param_map, all_entries. cbn. rewrite !list_to_map_app, Hm.
        rewrite insert_union_r; [done|]. by apply not_elem_of_list_to_map.
      * unfold size. cbn. by rewrite Hl.
      * apply elem_of_app. by right.
    + by rewrite not_elem_of_app.
Qed.

Lemma append_entry_all e p : wf_params p -> all_entries (append_entry e p) = all_entries p ++ [e].
Proof.
  intros [Hn Hi Ho]. unfold append_entry, all_entries. case_decide as Hd; cbn; [|by rewrite <- app_assoc].
  destruct (m_overflow p) as [|x l]; [by rewrite !app_nil_r|]. rewrite Ho in Hd by done. lia.
Qed.

Lemma append_entry_spec name value p : wf_params p -> name ∉ (all_entries p).*1 ->
  wf_params (append_entry (name, value) p) /\
  param_map (append_entry (name, value) p) = <[name := value]> (param_map p).
Proof.
  intros Hwf Hnew. pose proof (append_entry_all (name, value) p Hwf) as Ha. split.
  - destruct Hwf as [Hn Hi Ho]. split.
    + rewrite Ha, fmap_app. apply NoDup_app. split_and!; [done| |apply NoDup_singleton].
      intros x Hx. cbn. rewrite list_elem_of_singleton. by intros ->.
    + unfold append_entry. case_decide; cbn; rewrite ?length_app; cbn; lia.
    + unfold append_entry. case_decide as Hd; cbn.
      * intros Hne. rewrite Ho in Hd by done. lia.
      * intros _. unfold kInlineCapacity in *. lia.
  - unfold param_map. rewrite Ha, list_to_map_app. cbn. rewrite <- insert_union_r.
    + by rewrite (right_id_L ∅ (∪)).
    + by apply not_elem_of_list_to_map.
Qed.

Lemma emplace_spec name value p : wf_params p ->
  exists q, emplace name value p = (true, q) /\ wf_params q /\ param_map q = <[name := value]> (param_map p).
Proof.
  intros Hwf. unfold emplace. pose proof (assign_existing_spec name value p Hwf) as H.
  destruct (assign_existing name value p) as [q|]; [destruct H as (? & ? & _); eauto|].
  destruct (append_entry_spec name value p Hwf H). cbn. rewrite Z.eqb_refl. case_decide; eauto.
Qed.

Lemma emplace_new name value p : wf_params p -> name ∉ (all_entries p).*1 ->
  exists q, emplace name value p = (true, q) /\ wf_params q /\ all_entries q = all_entries p ++ [(name, value)].
Proof.
  intros Hwf Hnew. unfold emplace. pose proof (assign_existing_spec name value p Hwf) as H.
  destruct (assign_existing name value p) as [q|]; [by destruct H as (_ & _ & _ & ?)|].
  destruct (append_entry_spec name value p Hwf H). cbn. rewrite Z.eqb_refl. exists (append_entry (name, value) p).
  rewrite append_entry_all by done. case_decide; eauto.
Qed.

Lemma wf_eq p q : wf_params p -> wf_params q -> all_entries p = all_entries q -> p = q.
Proof.
  intros [_ Hi Ho] [_ Hi' Ho']. destruct p as [i o], q as [i' o']; unfold all_entries in *; cbn in *. intros He.
  assert (length i = length i') as Hl.
  { apply (f_equal length) in He. rewrite !length_app in He.
    destruct o as [|x o], o' as [|x' o']; cbn in *; rewrite ?Ho, ?Ho' in * by done; lia. }
  by apply app_inj_1 in He as [-> ->].
Qed.

Lemma clone_entries_spec l p : wf_params p -> NoDup (all_entries p ++ l).*1 ->
  exists q, clone_entries l p = (true, q) /\ wf_params q /\ all_entries q = all_entries p ++ l.
Proof.
  revert p. induction l as [|[n v] l IH]; intros p Hwf Hn; [exists p; by rewrite app_nil_r|]. cbn.
  assert (n ∉ (all_entries p).*1) as Hnew.
  { rewrite fmap_app in Hn. apply NoDup_app in Hn as (_ & Hd & _). intros Hi. apply (Hd _ Hi). by left. }
  destruct (emplace_new n v p Hwf Hnew) as (q & -> & Hq & Ha). replace (all_entries p ++ (n, v) :: l) with
    (all_entries q ++ l) in * by (by rewrite Ha, <- app_assoc). by apply IH.
Qed.

Lemma clone_eq p : wf_params p -> clone p = p.
Proof.
  intros Hwf. pose proof (wf_names p Hwf) as Hn. unfold clone, all_entries in *.
  assert (NoDup (m_inline p).*1) as Hi by (rewrite fmap_app in Hn; by apply NoDup_app in Hn as (? & _)).
  destruct (clone_entries_spec (m_inline p) no_params no_params_wf Hi) as (q & -> & Hq & Ha).
  cbn [all_entries no_params m_inline m_overflow app] in Ha. change (all_entries q = m_inline p) in Ha.
  destruct (clone_entries_spec (m_overflow p) q Hq) as (r & -> & Hr & Hb); [by rewrite Ha|].
  cbn [snd]. apply wf_eq; [done..|]. by rewrite Hb, Ha.
Qed.

Lemma upsertMap_insert m e : upsertMap m e = <[e.1 := e.2]> m.
Proof.
  unfold upsertMap. destruct (m !! e.1) as [v|] eqn:Hm; [|done]. apply map_eq. intros i.
  destruct (decide (i = e.1)) as [->|Hne]; [by rewrite lookup_alter_eq, lookup_insert_eq, Hm|].
  by rewrite lookup_alter_ne, lookup_insert_ne.
Qed.

Lemma fold_upsert (l : list Entry) (m : gmap bytes bytes) : NoDup l.*1 -> fold_left upsertMap l m = list_to_map l ∪ m.
Proof.
  revert m. induction l as [|[n v] l IH]; intros m; cbn; [by rewrite (left_id_L ∅ (∪))|].
  intros [Hn Hd]%NoDup_cons. rewrite IH, upsertMap_insert by done. cbn. rewrite <- insert_union_l.
  symmetry. apply insert_union_r. by apply not_elem_of_list_to_map.
Qed.

Lemma toMap_eq p : wf_params p -> toMap p = param_map p.
Proof.
  intros Hwf. unfold toMap. rewrite <- fold_left_app. change (m_inline p ++ m_overflow p) with (all_entries p).
  rewrite fold_upsert by apply Hwf. by rewrite (right_id_L ∅ (∪)).
Qed.

Lemma size_map p : wf_params p -> size p = base.size (param_map p).
Proof.
  intros Hwf. unfold param_map, size. rewrite map_size_list_to_map by apply Hwf.
  unfold all_entries. by rewrite length_app.
Qed.

Lemma at_or_insert_spec name p : wf_params p ->
  let r := at_or_insert name p in
  wf_params r.2 /\ r.1 = default [] (param_map p !! name) /\ param_map r.2 = <[name := r.1]> (param_map p).
Proof.
  intros Hwf. unfold at_or_insert. rewrite find_map. destruct (param_map p !! name) as [v|] eqn:Hm; cbn.
  - split_and!; [done..|]. by rewrite insert_id.
  - assert (name ∉ (all_entries p).*1) as Hnew by (by apply not_elem_of_list_to_map).
    by destruct (append_entry_spec name [] p Hwf Hnew).
Qed.

(** ** Sequences of calls *)

Inductive call : Type := Emplace (name value : bytes) | At (name : bytes) | Clear.

Definition run_call (c : call) (p : RouteParams) : RouteParams :=
  match c with
  | Emplace name value => (emplace name value p).2
  | At name => (at_or_insert name p).2
  | Clear => clear p
  end.

(** The same calls on a map. *)
Definition map_call (c : call) (m : gmap bytes bytes) : gmap bytes bytes :=
  match c with
  | Emplace name value => <[name := value]> m
  | At name => match m !! name with Some _ => m | None => <[name := []]> m end
  | Clear => ∅
  end.

Definition run_calls (cs : list call) : RouteParams := fold_left (fun p c => run_call c p) cs no_params.
Definition map_calls (cs : list call) : gmap bytes bytes := fold_left (fun m c => map_call c m) cs ∅.

Lemma run_call_spec c p : wf_params p ->
  wf_params (run_call c p) /\ param_map (run_call c p) = map_call c (param_map p).
Proof.
  intros Hwf. destruct c as [n v|n|]; cbn.
  - by destruct (emplace_spec n v p Hwf) as (q & -> & ? & ?).
  - destruct (at_or_insert_spec n p Hwf) as (? & Hr & Hm). split; [done|]. rewrite Hm, Hr.
    destruct (param_map p !! n) eqn:He; cbn; [by rewrite insert_id | done].
  - split; [apply no_params_wf | done].
Qed.

Lemma run_calls_spec cs : wf_params (run_calls cs) /\ param_map (run_calls cs) = map_calls cs.
Proof.
  unfold run_calls, map_calls. change (∅ : gmap bytes bytes) with (param_map no_params).
  assert (forall p, wf_params p ->
    wf_params (fold_left (fun p c => run_call c p) cs p) /\
    param_map (fold_left (fun p c => run_call c p) cs p) = fold_left (fun m c => map_call c m) cs (param_map p)) as H.
  { induction cs as [|c cs IH]; intros p Hp; [done|]. cbn.
    destruct (run_call_spec c p Hp) as [Hq <-]. by apply IH. }
  apply H, no_params_wf.
Qed.

(** After any sequence of insertions, [operator[]] accesses and clears, whether or not the inline array
    overflowed, the container answers [find], [contains] and [size] as the finite map of the same calls
    does, [toMap] is that map, and [clone] is an equal container. *)
Theorem route_params_refine_map cs name :
  find name (run_calls cs) = map_calls cs !! name /\
  contains name (run_calls cs) = bool_decide (is_Some (map_calls cs !! name)) /\
  size (run_calls cs) = base.size (map_calls cs) /\
  toMap (run_calls cs) = map_calls cs /\
  clone (run_calls cs) = run_calls cs.
Proof.
  destruct (run_calls_spec cs) as [Hwf Hm]. unfold contains. rewrite find_map, Hm, toMap_eq, size_map, Hm by done.
  split_and!; [done..|]. by apply clone_eq.
Qed.

(** Nine names: the ninth goes to the overflow vector, and is found. *)
Example overflow_found :
  let p := run_calls (map (fun i => Emplace [z2b (Z.of_nat i)] [z2b (Z.of_nat (i + 100))]) (seq 0 9)) in
  length (m_overflow p) = 1%nat /\ find [z2b 8] p = Some [z2b 108].
Proof. by vm_compute. Qed.
