(* ===== verification/HttpRouter.v ===== *)
(** * HTTP/1: the router

    [HttpRouter] of [galay-http/server/http_router.{h,cc}]: exact routes in a map per method, patterns in a
    trie per method, registration, removal and lookup; and the order of preference lookup implements over
    the set of registered patterns. *)

From Stdlib Require Import ZArith Lia Sorting.Sorted.
From stdpp Require Import base list gmap strings.
From S2P Require Import Prelude HttpBase HttpRouteParams.

Open Scope Z_scope.

#[local] Abbreviation slash := (Byte.x2f).
#[local] Abbreviation colon := (Byte.x3a).
#[local] Abbreviation star := (Byte.x2a).

#[export] Instance HttpMethod_countable : Countable HttpMethod.
Proof.
  refine (inj_countable httpMethodToString (fun s => Some (stringToHttpMethod s)) _).
  intros m. by rewrite method_name_roundtrip.
Defined.

(** ** Paths *)

Definition is_slash (c : byte) : bool := bool_decide (c = slash).

(** The inner loops [while (offset < path.size() && ...) ++offset]: how far they go. *)
Fixpoint count_while (p : byte -> bool) (l : bytes) : nat :=
  match l with
  | c :: l' => if p c then S (count_while p l') else 0
  | [] => 0
  end.

Definition skip_slashes (path : bytes) (offset : nat) : nat := offset + count_while is_slash (drop offset path).
Definition segment_end (path : bytes) (offset : nat) : nat :=
  offset + count_while (fun c => negb (is_slash c)) (drop offset path).

Definition substr (path : bytes) (from to : nat) : bytes := take (to - from) (drop from path).

Fixpoint split_loop (fuel : nat) (path : bytes) (offset : nat) : option (list bytes) :=
  match fuel with
  | O => None
  | S fuel' =>
      if decide (offset < length path)%nat then
        let begin := skip_slashes path offset in
        if decide (length path <= begin)%nat then Some []
        else
          let stop := segment_end path begin in
          let inserted := substr path begin stop in
          rest ← split_loop fuel' path stop;
          Some (if decide (inserted = []) then rest else inserted :: rest)
      else Some []
  end.

Definition splitPath (path : bytes) : option (list bytes) := split_loop (S (length path)) path 0.

(** The segment at or after [offset] and the offset behind it. *)
Definition nextRouteSegment (path : bytes) (offset : nat) : option (bytes * nat) :=
  let begin := skip_slashes path offset in
  if decide (length path <= begin)%nat then None
  else Some (substr path begin (segment_end path begin), segment_end path begin).

Definition isFuzzyPattern (path : bytes) : bool := bool_decide (colon ∈ path) || bool_decide (star ∈ path).

(** [std::isalpha] and [std::isalnum] in the "C" locale. *)
Definition isalpha (c : byte) : bool :=
  (65 <=? b2z c) && (b2z c <=? 90) || (97 <=? b2z c) && (b2z c <=? 122).
Definition isalnum (c : byte) : bool := isalpha c || (48 <=? b2z c) && (b2z c <=? 57).

Definition name_char (c : byte) : bool := isalnum c || bool_decide (c = Byte.x5f).
Definition segment_char (c : byte) : bool :=
  isalnum c || bool_decide (c ∈ [Byte.x2d; Byte.x5f; Byte.x2e; Byte.x7e]).

(** The errors of [validatePath], a constructor per message. *)
Inductive PathError : Type :=
| EmptyPath | NoLeadingSlash | TooLong | InvalidFormat | EmptySegment
| EmptyParameterName | BadParameterStart (name : bytes) | BadParameterChar (name : bytes) (c : byte)
| DuplicateParameter (name : bytes) | SecondWildcard | WildcardNotLast (segment : bytes)
| BadSegmentChar (segment : bytes) (c : byte).

(** The first octet of [l] a check refuses. *)
Fixpoint first_bad (p : byte -> bool) (l : bytes) : option byte :=
  match l with
  | [] => None
  | c :: l' => if p c then first_bad p l' else Some c
  end.

Definition validate_param (name : bytes) (names : gset bytes) : option PathError :=
  match name with
  | [] => Some EmptyParameterName
  | c :: _ =>
      if negb (isalpha c) && negb (bool_decide (c = Byte.x5f)) then Some (BadParameterStart name)
      else match first_bad name_char name with
           | Some b => Some (BadParameterChar name b)
           | None => if bool_decide (name ∈ names) then Some (DuplicateParameter name) else None
           end
  end.

(** The test [segment == "*" || segment == "**"]. *)
Definition wildcard (segment : bytes) : Prop := segment = bs "*" \/ segment = bs "**".
#[export] Instance wildcard_dec segment : Decision (wildcard segment).
Proof. apply _. Defined.

(** The loop over the segments, with its two variables; [None] is success. *)
Fixpoint validate_segments (segments : list bytes) (names : gset bytes) (hasWildcard : bool) :
    option PathError :=
  match segments with
  | [] => None
  | segment :: rest =>
      match segment with
      | [] => Some EmptySegment
      | c :: name =>
          if decide (c = colon) then
            match validate_param name names with
            | Some e => Some e
            | None => validate_segments rest ({[name]} ∪ names) hasWildcard
            end
          else if decide (wildcard segment) then
            if hasWildcard then Some SecondWildcard
            else if decide (rest <> []) then Some (WildcardNotLast segment)
            else validate_segments rest names true
          else
            match first_bad segment_char segment with
            | Some b => Some (BadSegmentChar segment b)
            | None => validate_segments rest names hasWildcard
            end
      end
  end.

(** [Some None] is acceptance; [None] would be [splitPath] not ending. *)
Definition validatePath (path : bytes) : option (option PathError) :=
  match path with
  | [] => Some (Some EmptyPath)
  | c :: _ =>
      if negb (is_slash c) then Some (Some NoLeadingSlash)
      else if 2048 <? blen path then Some (Some TooLong)
      else
        segments ← splitPath path;
        if decide (segments = [] /\ path <> [slash]) then Some (Some InvalidFormat)
        else Some (validate_segments segments ∅ false)
  end.

(** ** The trie *)

Section Router.

(** [HttpRouteHandler], a [std::function]; its default value is the inhabitant. *)
Context {Handler : Type} `{Inhabited Handler}.

Inductive RouteTrieNode : Type := mkNode {
  children : gmap bytes RouteTrieNode;
  handler : Handler;
  paramNames : list bytes;
  isEnd : bool;
  isParam : bool;
  isWildcard : bool;
}.

(** [std::make_unique<RouteTrieNode>()], and the two flags set on it. *)
Definition new_node (param wildcard : bool) : RouteTrieNode := mkNode ∅ inhabitant [] false param wildcard.

(** The key of the child a segment of a pattern leads to. *)
Definition child_key (segment : bytes) : bytes :=
  if decide (wildcard segment) then segment
  else match segment with c :: _ => if decide (c = colon) then bs ":param" else segment | [] => segment end.

(** [paramNames.push_back] of the parameter branch. *)
Definition segment_names (segment : bytes) : list bytes :=
  if decide (wildcard segment) then []
  else match segment with c :: name => if decide (c = colon) then [name] else [] | [] => [] end.

Definition child_node (segment : bytes) : RouteTrieNode :=
  if decide (wildcard segment) then new_node false true
  else match segment with
       | c :: _ => if decide (c = colon) then new_node true false else new_node false false
       | [] => new_node false false
       end.

Fixpoint insert_from (node : RouteTrieNode) (segments : list bytes) (h : Handler) (names : list bytes) :
    RouteTrieNode :=
  match segments with
  | [] => mkNode (children node) h names true (isParam node) (isWildcard node)
  | segment :: rest =>
      let child := default (child_node segment) (children node !! child_key segment) in
      mkNode (<[child_key segment := insert_from child rest h (names ++ segment_names segment)]> (children node))
        (handler node) (paramNames node) (isEnd node) (isParam node) (isWildcard node)
  end.

Definition insertRoute (root : RouteTrieNode) (segments : list bytes) (h : Handler) : RouteTrieNode :=
  insert_from root segments h [].

(** ** Search *)

(** What the recursive searches do to [params]: [None] is fuel exhausted, an inner [None] a null handler. *)
Definition search : Type := RouteParams -> option (option Handler * RouteParams).

Definition not_found : search := fun params => Some (None, params).

(** [if (result) return result;] and on with the next attempt. *)
Definition or_else (m k : search) : search :=
  fun params =>
    r ← m params;
    match r.1 with Some h => Some (Some h, r.2) | None => k r.2 end.

Fixpoint bind_params (names values : list bytes) (params : RouteParams) : bool * RouteParams :=
  match names, values with
  | n :: names', v :: values' =>
      match emplace n v params with
      | (true, params') => bind_params names' values' params'
      | (false, params') => (false, params')
      end
  | _, _ => (true, params)
  end.

Definition at_end (node : RouteTrieNode) (values : list bytes) : search :=
  fun params =>
    if isEnd node then
      match bind_params (paramNames node) values params with
      | (true, params') => Some (Some (handler node), params')
      | (false, params') => Some (None, params')
      end
    else Some (None, params).

Definition try_child (child : option RouteTrieNode) (go : RouteTrieNode -> search) : search :=
  match child with Some n => go n | None => not_found end.

Definition try_greedy (node : RouteTrieNode) : search :=
  try_child (children node !! bs "**")
    (fun g params => Some (if isEnd g then Some (handler g) else None, params)).

(** The lambda of [searchRoute]; [values] is [paramValues], popped when an attempt fails. *)
Fixpoint dfs (segments : list bytes) (node : RouteTrieNode) (values : list bytes) : search :=
  match segments with
  | [] => at_end node values
  | segment :: rest =>
      or_else (try_child (children node !! segment) (fun n => dfs rest n values))
     (or_else (try_child (children node !! bs ":param") (fun n => dfs rest n (values ++ [segment])))
     (or_else (try_child (children node !! bs "*") (fun n => dfs rest n values))
              (try_greedy node)))
  end.

Definition searchRoute (root : RouteTrieNode) (segments : list bytes) : search :=
  fun params => dfs segments root [] (HttpRouteParams.clear params).

Definition findChildBySegment (node : RouteTrieNode) (segment : bytes) : option RouteTrieNode :=
  children node !! segment.

Fixpoint searchRoutePathRecursive (fuel : nat) (node : RouteTrieNode) (path : bytes) (offset : nat)
    (values : list bytes) : search :=
  match fuel with
  | O => fun _ => None
  | S fuel' =>
      match nextRouteSegment path offset with
      | None => at_end node values
      | Some (segment, next_offset) =>
          let go n := searchRoutePathRecursive fuel' n path next_offset in
          or_else (try_child (findChildBySegment node segment) (fun n => go n values))
         (or_else (try_child (children node !! bs ":param") (fun n => go n (values ++ [segment])))
         (or_else (try_child (children node !! bs "*") (fun n => go n values))
                  (try_greedy node)))
      end
  end.

Definition searchRoutePath (root : RouteTrieNode) (path : bytes) : search :=
  fun params => searchRoutePathRecursive (S (length path)) root path 0 [] (HttpRouteParams.clear params).

(** ** The router *)

(** [m_fallbackProxyHandlerState] is the optional it points to. *)
Record HttpRouter : Type := mkRouter {
  m_exactRoutes : gmap HttpMethod (gmap bytes Handler);
  m_fuzzyRoutes : gmap HttpMethod RouteTrieNode;
  m_fallbackProxyHandler : option Handler;
  m_routeCount : Z;
}.

Definition new_router : HttpRouter := mkRouter ∅ ∅ None 0.

Record RouteMatch : Type := mkMatch { match_handler : option Handler; match_params : RouteParams }.

Definition addHandlerInternal (method : HttpMethod) (path : bytes) (h : Handler) (r : HttpRouter) :
    option HttpRouter :=
  verdict ← validatePath path;
  match verdict with
  | Some _ => Some r
  | None =>
      if isFuzzyPattern path then
        let root := default (new_node false false) (m_fuzzyRoutes r !! method) in
        segments ← splitPath path;
        Some (mkRouter (m_exactRoutes r) (<[method := insertRoute root segments h]> (m_fuzzyRoutes r))
                (m_fallbackProxyHandler r) (wrap64 (m_routeCount r + 1)))
      else
        let methodRoutes := default ∅ (m_exactRoutes r !! method) in
        let isNewRoute := bool_decide (methodRoutes !! path = None) in
        Some (mkRouter (<[method := <[path := h]> methodRoutes]> (m_exactRoutes r)) (m_fuzzyRoutes r)
                (m_fallbackProxyHandler r)
                (if isNewRoute then wrap64 (m_routeCount r + 1) else m_routeCount r))
  end.

(** [addHandler<Methods...>]. *)
Fixpoint addHandler (methods : list HttpMethod) (path : bytes) (h : Handler) (r : HttpRouter) :
    option HttpRouter :=
  match methods with
  | [] => Some r
  | method :: rest => r' ← addHandlerInternal method path h r; addHandler rest path h r'
  end.

Definition findHandler (method : HttpMethod) (path : bytes) (r : HttpRouter) : option RouteMatch :=
  match m_exactRoutes r !! method ≫= lookup path with
  | Some h => Some (mkMatch (Some h) no_params)
  | None =>
      match m_fuzzyRoutes r !! method with
      | Some root =>
          found ← searchRoutePath root path no_params;
          Some (mkMatch found.1 found.2)
      | None => Some (mkMatch None no_params)
      end
  end.

Definition delHandler (method : HttpMethod) (path : bytes) (r : HttpRouter) : bool * HttpRouter :=
  match m_exactRoutes r !! method with
  | Some methodRoutes =>
      match methodRoutes !! path with
      | Some _ =>
          (true, mkRouter (<[method := delete path methodRoutes]> (m_exactRoutes r)) (m_fuzzyRoutes r)
                   (m_fallbackProxyHandler r) (wrap64 (m_routeCount r - 1)))
      | None => (false, r)
      end
  | None => (false, r)
  end.

Definition clear (r : HttpRouter) : HttpRouter := mkRouter ∅ ∅ None 0.

Definition size (r : HttpRouter) : Z := m_routeCount r.

End Router.

Arguments RouteTrieNode : clear implicits.
Arguments HttpRouter : clear implicits.
Arguments RouteMatch : clear implicits.
Arguments search : clear implicits.

(** ** Segments

    What the loops over offsets compute: the path cut at its slashes, empty pieces dropped. *)

Fixpoint segments_of (path : bytes) : list bytes :=
  match path with
  | [] => []
  | c :: rest =>
      if is_slash c then segments_of rest
      else match rest with
           | [] => [[c]]
           | d :: _ =>
               if is_slash d then [c] :: segments_of rest
               else match segments_of rest with s :: ss => (c :: s) :: ss | [] => [[c]] end
           end
  end.

Lemma segments_skip l : segments_of (drop (count_while is_slash l) l) = segments_of l.
Proof.
  induction l as [|c l IH]; [done|]. cbn [count_while]. destruct (is_slash c) eqn:Hc; [|done].
  cbn [drop segments_of]. by rewrite Hc.
Qed.

Lemma skipped_head l c rest : drop (count_while is_slash l) l = c :: rest -> is_slash c = false.
Proof.
  induction l as [|d l IH]; [done|]. cbn. destruct (is_slash d) eqn:Hd; [apply IH|].
  cbn. by intros [= -> _].
Qed.

Lemma count_while_le p l : (count_while p l <= length l)%nat.
Proof. induction l as [|c l IH]; cbn; [done|]. destruct (p c); lia. Qed.

Lemma segments_cut c l : is_slash c = false ->
  let n := count_while (fun c => negb (is_slash c)) (c :: l) in
  segments_of (c :: l) = take n (c :: l) :: segments_of (drop n (c :: l)) /\ (0 < n)%nat.
Proof.
  cbn zeta. revert c. induction l as [|d l IH]; intros c Hc; cbn [count_while]; rewrite Hc; cbn [negb].
  - cbn. rewrite Hc. split; [done | lia].
  - split; [|lia]. destruct (is_slash d) eqn:Hd; cbn [count_while]; rewrite ?Hd.
    + cbn [negb take drop]. cbn [segments_of]. rewrite Hc, Hd. reflexivity.
    + destruct (IH d Hd) as [He _]. cbn [count_while] in He. rewrite Hd in He. cbn [negb] in *.
      cbn [segments_of] in *. rewrite Hc, Hd in *. rewrite He. reflexivity.
Qed.

Lemma nextRouteSegment_spec path offset :
  match nextRouteSegment path offset with
  | None => segments_of (drop offset path) = []
  | Some (s, next) =>
      segments_of (drop offset path) = s :: segments_of (drop next path) /\ s <> [] /\
      (offset < next)%nat /\ (next <= length path)%nat
  end.
Proof.
  unfold nextRouteSegment, skip_slashes, segment_end, substr. set (n := count_while is_slash (drop offset path)).
  case_decide as Hn.
  - rewrite <- segments_skip. fold n. rewrite drop_drop. by rewrite drop_ge by lia.
  - rewrite Nat.add_sub_swap, Nat.sub_diag by lia. cbn [Nat.add].
    rewrite <- (segments_skip (drop offset path)). fold n. rewrite !drop_drop.
    destruct (drop (offset + n) path) as [|c l] eqn:Hl.
    { apply (f_equal length) in Hl. rewrite length_drop in Hl. cbn in Hl. lia. }
    assert (is_slash c = false) as Hc.
    { apply (skipped_head (drop offset path) c l). fold n. by rewrite drop_drop. }
    destruct (segments_cut c l Hc) as [Hs Hm]. set (m := count_while _ (c :: l)) in *.
    rewrite Hs. replace (drop m (c :: l)) with (drop (offset + n + m) path) by (by rewrite <- Hl, drop_drop).
    assert (m <= length (c :: l))%nat as Hle by apply count_while_le.
    apply (f_equal length) in Hl. rewrite length_drop in Hl. split_and!; [done| |lia..].
    destruct m; [lia | done].
Qed.

Lemma split_loop_spec fuel path offset : (length path - offset < fuel)%nat ->
  split_loop fuel path offset = Some (segments_of (drop offset path)).
Proof.
  revert offset. induction fuel as [|fuel IH]; intros offset Hf; [lia|]. cbn [split_loop].
  case_decide as Ho; [|by rewrite drop_ge by lia].
  pose proof (nextRouteSegment_spec path offset) as Hs. unfold nextRouteSegment in Hs. cbv zeta.
  case_decide as Hb; [by rewrite Hs|]. destruct Hs as (-> & Hne & Hlt & Hle).
  rewrite IH by lia. cbn. by rewrite decide_False by done.
Qed.

Lemma splitPath_eq path : splitPath path = Some (segments_of path).
Proof. unfold splitPath. rewrite split_loop_spec by lia. by rewrite drop_0. Qed.

(** The segments of a path hold no slash and are not empty. *)
Lemma segments_ok path : Forall (fun s => s <> [] /\ Forall (fun c => is_slash c = false) s) (segments_of path).
Proof.
  induction path as [|c rest IH]; [done|]. cbn. destruct (is_slash c) eqn:Hc; [done|].
  destruct rest as [|d l]; [by repeat constructor|]. destruct (is_slash d); [by repeat constructor|].
  destruct (segments_of (d :: l)) as [|s ss]; [by repeat constructor|].
  apply Forall_cons in IH as [[_ Hs] ?]. by repeat constructor.
Qed.

(** ** Search over the set of registered shapes

    A route is kept in the trie under its shape, the keys of its segments. [choices] lists the shapes a
    search tries, in its order, each with the segments it captures; under [**] nothing is captured. *)

Fixpoint choices (segments : list bytes) : list (list bytes * option (list bytes)) :=
  match segments with
  | [] => [([], Some [])]
  | s :: rest =>
      let cs := choices rest in
      map (fun c => (s :: c.1, c.2)) cs ++
      map (fun c => (bs ":param" :: c.1, cons s <$> c.2)) cs ++
      map (fun c => (bs "*" :: c.1, c.2)) cs ++
      [([bs "**"], None)]
  end.

Definition shape (pattern : list bytes) : list bytes := map child_key pattern.
Definition pattern_names (pattern : list bytes) : list bytes := concat (map segment_names pattern).

Definition bindings (names : list bytes) (captured : option (list bytes)) : list Entry :=
  match captured with Some values => zip names values | None => [] end.

(** The first element with an image. *)
Fixpoint first_some {A B} (f : A -> option B) (l : list A) : option B :=
  match l with
  | [] => None
  | x :: l' => match f x with Some y => Some y | None => first_some f l' end
  end.

Lemma first_some_app {A B} (f : A -> option B) l k :
  first_some f (l ++ k) = match first_some f l with Some y => Some y | None => first_some f k end.
Proof. induction l as [|x l IH]; [done|]. cbn. by destruct (f x). Qed.

Lemma first_some_map {A B C} (f : B -> option C) (g : A -> B) l :
  first_some f (map g l) = first_some (fun x => f (g x)) l.
Proof. induction l as [|x l IH]; [done|]. cbn. by destruct (f (g x)). Qed.

Lemma first_some_ext {A B} (f g : A -> option B) l : (forall x, x ∈ l -> f x = g x) -> first_some f l = first_some g l.
Proof.
  induction l as [|x l IH]; intros Hfg; [done|]. cbn. rewrite Hfg by left.
  rewrite IH; [done|]. intros y Hy. apply Hfg. by right.
Qed.

Lemma first_some_none {A B} (f : A -> option B) l : first_some f l = None <-> Forall (fun x => f x = None) l.
Proof.
  induction l as [|x l IH]; [by split|]. cbn. rewrite Forall_cons, <- IH.
  destruct (f x); split; [done|by intros [??]|done|by intros [??]].
Qed.

(** What a lookup among routes answers: the first choice that is registered. *)
Definition answer {H} (routes : list bytes -> option (H * list bytes)) (values : list bytes)
    (c : list bytes * option (list bytes)) : option (H * list Entry) :=
  match routes c.1 with
  | Some (h, names) => Some (h, bindings names (app values <$> c.2))
  | None => None
  end.

Definition search_routes {H} (routes : list bytes -> option (H * list bytes)) (segments : list bytes) :
    option (H * list Entry) :=
  first_some (answer routes []) (choices segments).

Section Trie.

Context {Handler : Type} `{Inhabited Handler}.
Implicit Types (node root : RouteTrieNode Handler) (params : RouteParams).

Fixpoint walk node (keys : list bytes) : option (RouteTrieNode Handler) :=
  match keys with
  | [] => Some node
  | k :: ks => match children node !! k with Some n => walk n ks | None => None end
  end.

(** The routes a trie holds: handler and names by shape. *)
Definition terminal node (keys : list bytes) : option (Handler * list bytes) :=
  match walk node keys with
  | Some n => if isEnd n then Some (handler n, paramNames n) else None
  | None => None
  end.

Lemma terminal_cons node k ks :
  terminal node (k :: ks) = match children node !! k with Some n => terminal n ks | None => None end.
Proof. unfold terminal. cbn. by destruct (children node !! k). Qed.

Lemma terminal_new p w keys : terminal (new_node (Handler := Handler) p w) keys = None.
Proof. destruct keys as [|k ks]; [done|]. rewrite terminal_cons. cbn. by rewrite lookup_empty. Qed.

Lemma terminal_child segment keys : terminal (child_node (Handler := Handler) segment) keys = None.
Proof.
  unfold child_node. case_decide; [apply terminal_new|]. destruct segment; [apply terminal_new|].
  case_decide; apply terminal_new.
Qed.

Lemma terminal_insert_from node segments h names keys :
  terminal (insert_from node segments h names) keys =
  if decide (keys = shape segments) then Some (h, names ++ pattern_names segments) else terminal node keys.
Proof.
  revert node names keys. induction segments as [|s ss IH]; intros node names keys.
  - cbn. destruct keys as [|k ks]; cbn; [by rewrite app_nil_r|]. by rewrite !terminal_cons.
  - cbn [insert_from]. destruct keys as [|k ks]; [done|]. rewrite !terminal_cons. cbn [children shape map].
    destruct (decide (k = child_key s)) as [->|Hk].
    + rewrite lookup_insert_eq, IH. unfold shape, pattern_names. cbn. rewrite <- app_assoc.
      destruct (decide (ks = map child_key ss)) as [->|Hks]; [by rewrite !decide_True|].
      rewrite !decide_False by congruence. destruct (children node !! child_key s); [done|]. apply terminal_child.
    + rewrite lookup_insert_ne by done. by rewrite decide_False by congruence.
Qed.

Lemma terminal_insertRoute root segments h keys :
  terminal (insertRoute root segments h) keys =
  if decide (keys = shape segments) then Some (h, pattern_names segments) else terminal root keys.
Proof. apply terminal_insert_from. Qed.

(** Insertion of bindings, one by one. *)
Definition bind_all (b : list Entry) params : RouteParams := fold_left (fun p e => (emplace e.1 e.2 p).2) b params.

Lemma bind_params_eq names values params : wf_params params ->
  bind_params names values params = (true, bind_all (zip names values) params).
Proof.
  revert values params. induction names as [|n names IH]; intros [|v values] params Hwf; [done..|]. cbn.
  destruct (emplace_spec n v params Hwf) as (q & -> & Hq & _). by rewrite IH.
Qed.

(** A search that finds what [found] says. *)
Definition finds (m : search Handler) (found : option (Handler * list Entry)) : Prop :=
  forall params, wf_params params ->
  m params = Some (match found with
                   | Some (h, b) => (Some h, bind_all b params)
                   | None => (None, params)
                   end).

Lemma finds_or_else m k found found' : finds m found -> finds k found' ->
  finds (or_else m k) (match found with Some x => Some x | None => found' end).
Proof. intros Hm Hk params Hwf. unfold or_else. rewrite Hm by done. destruct found as [[h b]|]; cbn; auto. Qed.

Lemma finds_end node values :
  finds (at_end node values) (answer (terminal node) values ([], Some [])).
Proof.
  intros params Hwf. unfold at_end, answer, terminal. cbn. rewrite app_nil_r.
  destruct (isEnd node); [by rewrite bind_params_eq | done].
Qed.

Lemma finds_child node k go values values' f segments :
  (forall n, finds (go n) (first_some (answer (terminal n) values') (choices segments))) ->
  (forall c, (f c).1 = k :: c.1) ->
  (forall c, app values' <$> c.2 = app values <$> (f c).2) ->
  finds (try_child (children node !! k) go) (first_some (answer (terminal node) values) (map f (choices segments))).
Proof.
  intros Hgo Hf1 Hf2. rewrite first_some_map. unfold try_child.
  destruct (children node !! k) as [n|] eqn:Hk.
  - erewrite first_some_ext; [apply Hgo|]. intros c _. unfold answer. rewrite Hf1, terminal_cons, Hk.
    by destruct (terminal n c.1) as [[h names]|]; [rewrite <- Hf2|].
  - replace (first_some _ _) with (@None (Handler * list Entry)); [by intros params Hwf|]. symmetry.
    apply first_some_none, Forall_forall. intros c _. unfold answer. by rewrite Hf1, terminal_cons, Hk.
Qed.

Lemma finds_greedy node values : finds (try_greedy node) (answer (terminal node) values ([bs "**"], None)).
Proof.
  intros params Hwf. unfold try_greedy, try_child, answer. cbn [fst snd]. rewrite terminal_cons.
  destruct (children node !! bs "**") as [g|]; [|done]. unfold terminal. cbn. by destruct (isEnd g).
Qed.

Lemma fmap_app_nil (o : option (list bytes)) : o = app [] <$> o.
Proof. by destruct o. Qed.

Lemma finds_dfs segments node values :
  finds (dfs segments node values) (first_some (answer (terminal node) values) (choices segments)).
Proof.
  revert node values. induction segments as [|s rest IH]; intros node values.
  - cbn [dfs choices first_some]. pose proof (finds_end node values) as He. by destruct (answer _ _ _).
  - cbn [dfs choices]. cbv zeta. rewrite !first_some_app.
    repeat apply finds_or_else; [eapply finds_child; [intros n; apply IH|done|]..|].
    + done.
    + intros [ks [vs|]]; cbn; [|done]. by rewrite <- app_assoc.
    + done.
    + cbn [first_some]. pose proof (finds_greedy node values) as He. by destruct (answer _ _ _).
Qed.

Lemma finds_eq m k found : finds m found -> finds k found -> forall params, wf_params params -> m params = k params.
Proof. intros Hm Hk params Hwf. by rewrite Hm, Hk. Qed.

(** The in-place search finds what the search over the split path finds. *)
Lemma finds_searchRoutePathRecursive fuel node path offset values : (length path - offset < fuel)%nat ->
  finds (searchRoutePathRecursive fuel node path offset values)
    (first_some (answer (terminal node) values) (choices (segments_of (drop offset path)))).
Proof.
  revert node offset values. induction fuel as [|fuel IH]; intros node offset values Hf; [lia|].
  cbn [searchRoutePathRecursive]. pose proof (nextRouteSegment_spec path offset) as Hs.
  destruct (nextRouteSegment path offset) as [[s next]|].
  - destruct Hs as (-> & _ & Hlt & Hle). cbn [choices]. cbv zeta. rewrite !first_some_app.
    assert (forall n vs, finds (searchRoutePathRecursive fuel n path next vs)
      (first_some (answer (terminal n) vs) (choices (segments_of (drop next path))))) as Hgo.
    { intros n vs. apply IH. lia. }
    repeat apply finds_or_else; [eapply finds_child; [intros n; apply Hgo|done|]..|].
    + done.
    + intros [ks [vs|]]; cbn; [|done]. by rewrite <- app_assoc.
    + done.
    + cbn [first_some]. pose proof (finds_greedy node values) as He. by destruct (answer _ _ _).
  - rewrite Hs. cbn [choices first_some]. pose proof (finds_end node values) as He. by destruct (answer _ _ _).
Qed.

Lemma finds_searchRoutePath root path :
  finds (searchRoutePathRecursive (S (length path)) root path 0 []) (search_routes (terminal root) (segments_of path)).
Proof. pose proof (finds_searchRoutePathRecursive (S (length path)) root path 0 []) as Hf. rewrite drop_0 in Hf. apply Hf. lia. Qed.

(** The lookup that scans the request path in place returns, handler and parameters alike, what the
    lookup over the segments of [splitPath] returns, and both end. *)
Theorem search_path_equivalent root path params :
  exists segments r, splitPath path = Some segments /\
  searchRoute root segments params = Some r /\ searchRoutePath root path params = Some r.
Proof.
  eexists _, _. split_and!; [apply splitPath_eq|by apply finds_dfs, no_params_wf|].
  by apply finds_searchRoutePath, no_params_wf.
Qed.

End Trie.

(** ** Registration accepts *)

Definition good_name (name : bytes) : Prop :=
  (exists c rest, name = c :: rest /\ (isalpha c = true \/ c = Byte.x5f)) /\
  Forall (fun c => name_char c = true) name.

Inductive segment_ok : bytes -> Prop :=
| ok_param name : good_name name -> segment_ok (colon :: name)
| ok_wildcard s : wildcard s -> segment_ok s
| ok_plain s : s <> [] -> Forall (fun c => segment_char c = true) s -> segment_ok s.

(** Parameters are named, no name twice, a wildcard is last, other segments are of the unreserved octets. *)
Record valid_pattern (segments : list bytes) : Prop := {
  valid_segments : Forall segment_ok segments;
  valid_names : NoDup (pattern_names segments);
  valid_wildcard : forall pre s post, segments = pre ++ s :: post -> wildcard s -> post = [];
}.

Lemma first_bad_none p l : first_bad p l = None <-> Forall (fun c => p c = true) l.
Proof.
  induction l as [|c l IH]; [by split|]. cbn. rewrite Forall_cons, <- IH.
  destruct (p c); split; [done|by intros [_ ?]|done|by intros [? _]].
Qed.

Lemma validate_param_none name names : validate_param name names = None <-> good_name name /\ name ∉ names.
Proof.
  unfold validate_param, good_name. destruct name as [|c l].
  { split; [done|]. by intros [[(? & ? & ? & ?) _] _]. }
  destruct (negb (isalpha c) && negb (bool_decide (c = Byte.x5f))) eqn:Hc.
  - split; [done|]. intros [[(c' & l' & [= <- <-] & Hs) _] _].
    destruct Hs as [Hs|Hs]; [by rewrite Hs in Hc|]. by rewrite (bool_decide_true _ Hs), andb_false_r in Hc.
  - assert (isalpha c = true \/ c = Byte.x5f) as Hs.
    { destruct (isalpha c); [by left|]. right. case_bool_decide; done. }
    pose proof (first_bad_none name_char (c :: l)) as Hb. destruct (first_bad name_char (c :: l)).
    + split; [done|]. intros [[_ Hf] _]. by apply Hb in Hf.
    + clear Hc. case_bool_decide; [by split; [|intros [_ []]]|]. split; [|done]. intros _. split; [|done].
      split; [by exists c, l | by apply Hb].
Qed.

Lemma wildcard_names s : wildcard s -> segment_names s = [] /\ child_key s = s.
Proof. intros Hw. unfold segment_names, child_key. by rewrite !decide_True by done. Qed.

Lemma param_names name : segment_names (colon :: name) = [name] /\ child_key (colon :: name) = bs ":param".
Proof.
  unfold segment_names, child_key. assert (~ wildcard (colon :: name)) as Hw by (by intros [[= ?]|[= ?]]).
  by rewrite !(decide_False (P := wildcard _)) by done.
Qed.

Lemma plain_names c s : ~ wildcard (c :: s) -> c <> colon ->
  segment_names (c :: s) = [] /\ child_key (c :: s) = c :: s.
Proof.
  intros Hw Hc. unfold segment_names, child_key. rewrite !(decide_False (P := wildcard _)) by done.
  by rewrite !decide_False by done.
Qed.

Lemma segment_ok_param name : segment_ok (colon :: name) <-> good_name name.
Proof.
  split; [|apply ok_param]. inversion 1 as [n Hn|s Hw|s Hne Hf]; [done|by destruct Hw|].
  apply Forall_cons in Hf as [Hf _]. by vm_compute in Hf.
Qed.

Lemma segment_ok_plain c s : ~ wildcard (c :: s) -> c <> colon ->
  segment_ok (c :: s) <-> Forall (fun c => segment_char c = true) (c :: s).
Proof. intros Hw Hc. split; [by inversion 1|]. by apply ok_plain. Qed.

Definition wildcard_last (segments : list bytes) : Prop :=
  forall pre s post, segments = pre ++ s :: post -> wildcard s -> post = [].

Lemma wildcard_last_cons s rest :
  wildcard_last (s :: rest) <-> (wildcard s -> rest = []) /\ wildcard_last rest.
Proof.
  unfold wildcard_last. split.
  - intros Hl. split; [by apply (Hl [] s rest)|]. intros pre t post ->. by apply (Hl (s :: pre) t post).
  - intros [Hs Hr] [|x pre] t post; cbn; intros [= -> ->]; [done|]. by apply (Hr pre t post).
Qed.

Lemma names_added (name : bytes) (l : list bytes) (names : gset bytes) :
  (forall n, n ∈ l -> n ∉ ({[name]} ∪ names : gset bytes)) <-> (name ∉ l) /\ (forall n, n ∈ l -> n ∉ names).
Proof.
  setoid_rewrite not_elem_of_union. setoid_rewrite not_elem_of_singleton. split.
  - intros Hl. split; [|by intros n Hn; apply Hl]. intros Hn. by destruct (Hl name Hn).
  - intros [Hn Hl] n Hi. split; [by intros -> | by apply Hl].
Qed.

Lemma names_cons (name : bytes) (l : list bytes) (names : gset bytes) :
  (forall n, n ∈ name :: l -> n ∉ names) <-> (name ∉ names) /\ (forall n, n ∈ l -> n ∉ names).
Proof.
  split; [intros Hl; split; [apply Hl; by left | intros n Hn; apply Hl; by right]|].
  by intros [? Hl] n [->|?]%elem_of_cons; [|apply Hl].
Qed.

Lemma validate_segments_none segments names :
  validate_segments segments names false = None <->
  Forall segment_ok segments /\ NoDup (pattern_names segments) /\
  (forall n, n ∈ pattern_names segments -> n ∉ names) /\ wildcard_last segments.
Proof.
  revert names. induction segments as [|s rest IH]; intros names.
  { cbn. split; [intros _|done]. split_and!; [done|constructor|set_solver|]. by intros [|? ?] ? ? [=]. }
  unfold pattern_names in *. cbn [validate_segments map concat]. rewrite Forall_cons, wildcard_last_cons.
  destruct s as [|c name].
  { split; [done|]. intros ([Hs _] & _). inversion Hs as [|s Hw|]; [by destruct Hw|done]. }
  case_decide as Hc; [|case_decide as Hw].
  - subst c. destruct (param_names name) as [-> _]. rewrite segment_ok_param.
    pose proof (validate_param_none name names) as Hp. destruct (validate_param name names).
    + split; [done|]. intros ([Hg _] & _ & Hn & _). assert (name ∉ names) by (apply Hn; by left). by apply Hp.
    + rewrite IH. cbn [app]. rewrite NoDup_cons. destruct Hp as [Hp _]. destruct (Hp eq_refl) as [Hg Hn].
      assert (~ wildcard (colon :: name)) as Hw by (by intros [[= ?]|[= ?]]).
      rewrite names_added, names_cons. tauto.
  - destruct (wildcard_names _ Hw) as [-> _]. case_decide as Hr.
    + split; [done|]. intros (_ & _ & _ & [Hl _]). by destruct Hr; apply Hl.
    + subst rest. cbn [validate_segments map concat app]. split; [intros _|done].
      split_and!; [by apply ok_wildcard|done|constructor|set_solver|done|]. by intros [|? ?] ? ? [=].
  - destruct (plain_names c name Hw Hc) as [-> _]. rewrite segment_ok_plain by done.
    pose proof (first_bad_none segment_char (c :: name)) as Hb. destruct (first_bad segment_char (c :: name)).
    + split; [done|]. intros ([Hf _] & _). by apply Hb in Hf.
    + rewrite IH. cbn [app]. destruct Hb as [Hb _]. specialize (Hb eq_refl). tauto.
Qed.

Lemma validate_segments_valid segments : validate_segments segments ∅ false = None <-> valid_pattern segments.
Proof.
  rewrite validate_segments_none. split.
  - intros (? & ? & _ & ?). by split.
  - intros [? ? ?]. split_and!; [done..| |done]. set_solver.
Qed.

Definition accepted (path : bytes) : bool := match validatePath path with Some None => true | _ => false end.

Lemma validatePath_cases path : exists verdict, validatePath path = Some verdict /\
  (verdict = None <-> (exists rest, path = slash :: rest) /\ blen path <= 2048 /\
     (segments_of path = [] -> path = [slash]) /\ valid_pattern (segments_of path)).
Proof.
  unfold validatePath. destruct path as [|c rest].
  { eexists. split; [done|]. split; [done|]. by intros [[? ?] _]. }
  unfold is_slash. case_bool_decide as Hc; cbn [negb].
  2: { eexists. split; [done|]. split; [done|]. by intros [[? [= ? ?]] _]. }
  subst c. destruct (2048 <? blen (slash :: rest)) eqn:Hl.
  { eexists. split; [done|]. split; [done|]. intros (_ & Hle & _). lia. }
  rewrite splitPath_eq. cbn [mbind option_bind]. case_decide as Hs.
  { eexists. split; [done|]. split; [done|]. intros (_ & _ & Hp & _). by destruct Hs as [? []]; auto. }
  eexists. split; [done|]. rewrite validate_segments_valid. split.
  - intros Hv. split_and!; [eauto|lia| |done]. intros He. apply dec_stable. tauto.
  - by intros (_ & _ & _ & ?).
Qed.

(** [validatePath] ends on every string, and accepts exactly the paths that begin with a slash, are no
    longer than 2048 octets, hold a segment unless they are the root, and whose segments are a valid pattern:
    parameters with distinct names that are identifiers, at most one wildcard, in the last place, and
    otherwise only unreserved octets. *)
Theorem validatePath_exact path :
  validatePath path <> None /\
  (validatePath path = Some None <->
   (exists rest, path = slash :: rest) /\ blen path <= 2048 /\
   (segments_of path = [] -> path = [slash]) /\ valid_pattern (segments_of path)).
Proof.
  destruct (validatePath_cases path) as (v & -> & Hv). split; [done|]. rewrite <- Hv.
  split; [by intros [= ->] | by intros ->].
Qed.

(** ** The router as a table of routes *)

Section Routes.

Context {Handler : Type} `{Inhabited Handler}.
Implicit Types (r : HttpRouter Handler) (h : Handler).

(** Exact routes by path, patterns by shape, each under its method; and how many patterns were registered,
    a replaced one included. *)
Record routes : Type := mkRoutes {
  exact : gmap (HttpMethod * bytes) Handler;
  patterns : gmap (HttpMethod * list bytes) (Handler * list bytes);
  registrations : Z;
}.

Definition no_routes : routes := mkRoutes ∅ ∅ 0.

Definition routes_add (path : bytes) h (a : routes) (m : HttpMethod) : routes :=
  if negb (accepted path) then a
  else if isFuzzyPattern path then
    mkRoutes (exact a)
      (<[(m, shape (segments_of path)) := (h, pattern_names (segments_of path))]> (patterns a))
      (registrations a + 1)
  else mkRoutes (<[(m, path) := h]> (exact a)) (patterns a) (registrations a).

Definition routes_find (m : HttpMethod) (path : bytes) (a : routes) : option Handler * list Entry :=
  match exact a !! (m, path) with
  | Some h => (Some h, [])
  | None =>
      match search_routes (fun ks => patterns a !! (m, ks)) (segments_of path) with
      | Some (h, b) => (Some h, b)
      | None => (None, [])
      end
  end.

Definition routes_del (m : HttpMethod) (path : bytes) (a : routes) : routes :=
  mkRoutes (delete (m, path) (exact a)) (patterns a) (registrations a).

Inductive op : Type := Add (methods : list HttpMethod) (path : bytes) h | Del (m : HttpMethod) (path : bytes) | ClearAll.

Definition run_op (o : op) r : option (HttpRouter Handler) :=
  match o with
  | Add methods path h => addHandler methods path h r
  | Del m path => Some (delHandler m path r).2
  | ClearAll => Some (clear r)
  end.

Definition routes_op (o : op) (a : routes) : routes :=
  match o with
  | Add methods path h => fold_left (routes_add path h) methods a
  | Del m path => routes_del m path a
  | ClearAll => no_routes
  end.

Fixpoint run (ops : list op) r : option (HttpRouter Handler) :=
  match ops with [] => Some r | o :: rest => r' ← run_op o r; run rest r' end.

Definition table (ops : list op) : routes := fold_left (fun a o => routes_op o a) ops no_routes.

Definition is_param (k : bytes) : Prop := k = bs ":param".
Definition param_count (keys : list bytes) : nat := length (filter is_param keys).

Record represents r (a : routes) : Prop := {
  rep_exact : forall m p, exact a !! (m, p) = m_exactRoutes r !! m ≫= lookup p;
  rep_patterns : forall m ks,
    patterns a !! (m, ks) = match m_fuzzyRoutes r !! m with Some root => terminal root ks | None => None end;
  rep_names : forall m ks h names, patterns a !! (m, ks) = Some (h, names) ->
    NoDup names /\ length names = param_count ks;
  rep_count : m_routeCount r = wrap64 (Z.of_nat (base.size (exact a)) + registrations a);
}.

Lemma pattern_names_count segments :
  Forall segment_ok segments -> length (pattern_names segments) = param_count (shape segments).
Proof.
  unfold pattern_names, shape, param_count. induction 1 as [|s rest Hs Hr IH]; [done|]. cbn [map concat].
  rewrite length_app, IH, filter_cons. destruct s as [|c s].
  { inversion Hs as [|? Hw|]; [by destruct Hw|done]. }
  destruct (decide (wildcard (c :: s))) as [Hw|Hw]; [|destruct (decide (c = colon)) as [->|Hc]].
  - destruct (wildcard_names _ Hw) as [-> ->]. rewrite decide_False; [done|].
    unfold is_param. intros He. rewrite He in Hw. by destruct Hw.
  - destruct (param_names s) as [-> ->]. by rewrite decide_True.
  - destruct (plain_names c s Hw Hc) as [-> ->]. rewrite decide_False; [done|].
    unfold is_param. by intros [= ? _].
Qed.

Lemma wrap64_add a b : wrap64 (wrap64 a + b) = wrap64 (a + b).
Proof. unfold wrap64. apply Zplus_mod_idemp_l. Qed.

Lemma represents_add m path h r a : represents r a ->
  exists r', addHandlerInternal m path h r = Some r' /\ represents r' (routes_add path h a m).
Proof.
  intros [He Hp Hn Hc]. unfold addHandlerInternal, routes_add, accepted.
  destruct (validatePath_cases path) as (v & -> & Hv). cbn [mbind option_bind].
  destruct v as [e|]; [exists r; by split|]. cbn [negb]. destruct Hv as [Hv _].
  destruct (Hv eq_refl) as (_ & _ & _ & [Hok Hnames _]). destruct (isFuzzyPattern path).
  - rewrite splitPath_eq. cbn [mbind option_bind]. eexists. split; [done|]. split; cbn.
    + done.
    + intros m' ks. destruct (decide (m' = m)) as [->|Hm].
      * rewrite lookup_insert_eq, terminal_insertRoute. case_decide as Hks; [by subst; rewrite lookup_insert_eq|].
        rewrite lookup_insert_ne by congruence. rewrite Hp.
        destruct (m_fuzzyRoutes r !! m); [done|]. cbn. by rewrite terminal_new.
      * rewrite !lookup_insert_ne by congruence. apply Hp.
    + intros m' ks h' names [[Hk Hv']|[_ Hl]]%lookup_insert_Some; [|by eapply Hn].
      injection Hk as <- <-. injection Hv' as <- <-. split; [done|]. by apply pattern_names_count.
    + rewrite Hc, wrap64_add. f_equal. lia.
  - eexists. split; [done|]. split; cbn; [|done..|].
    + intros m' p. destruct (decide (m' = m)) as [->|Hm].
      * rewrite lookup_insert_eq. cbn. destruct (decide (p = path)) as [->|Hpp]; [by rewrite !lookup_insert_eq|].
        rewrite !lookup_insert_ne by congruence. rewrite He. by destruct (m_exactRoutes r !! m).
      * rewrite !lookup_insert_ne by congruence. apply He.
    + assert (default ∅ (m_exactRoutes r !! m) !! path = exact a !! (m, path)) as ->.
      { rewrite He. by destruct (m_exactRoutes r !! m). }
      rewrite map_size_insert. destruct (exact a !! (m, path)); case_bool_decide; [done..| |done].
      rewrite Hc, wrap64_add. f_equal. lia.
Qed.

Lemma represents_addHandler methods path h r a : represents r a ->
  exists r', addHandler methods path h r = Some r' /\ represents r' (fold_left (routes_add path h) methods a).
Proof.
  revert r a. induction methods as [|m ms IH]; intros r a Hr; [by exists r|]. cbn.
  destruct (represents_add m path h r a Hr) as (r' & -> & Hr'). by apply IH.
Qed.

Lemma delHandler_cases m path r a : represents r a ->
  (delHandler m path r).1 = bool_decide (is_Some (exact a !! (m, path))) /\
  represents (delHandler m path r).2 (routes_del m path a).
Proof.
  intros [He Hp Hn Hc]. unfold delHandler, routes_del. rewrite He.
  assert (exact a !! (m, path) = None -> represents r (mkRoutes (delete (m, path) (exact a)) (patterns a) (registrations a))) as Hsame.
  { intros Hd. rewrite delete_id by done. by split. }
  pose proof (He m path) as Hmp.
  destruct (m_exactRoutes r !! m) as [routes|] eqn:Hm; [|by split; [|apply Hsame]]. cbn in *.
  destruct (routes !! path) as [h|] eqn:Hpath; [|by split; [|apply Hsame]]. split; [done|]. split; cbn; [|done..|].
  - intros m' p. destruct (decide (m' = m)) as [->|Hmm].
    + rewrite lookup_insert_eq. cbn. destruct (decide (p = path)) as [->|Hpp]; [by rewrite !lookup_delete_eq|].
      rewrite !lookup_delete_ne by congruence. by rewrite He, Hm.
    + rewrite lookup_insert_ne, lookup_delete_ne by congruence. apply He.
  - rewrite map_size_delete, Hmp, Hc. unfold wrap64. rewrite Zminus_mod_idemp_l. f_equal.
    assert (base.size (exact a) <> 0)%nat as Hz by (apply map_size_ne_0_lookup; eauto). lia.
Qed.

Lemma new_router_represents : represents new_router no_routes.
Proof. split; cbn; intros; [done..|]. by rewrite map_size_empty. Qed.

Lemma run_op_represents o r a : represents r a ->
  exists r', run_op o r = Some r' /\ represents r' (routes_op o a).
Proof.
  intros Hr. destruct o as [ms path h|m path|]; cbn.
  - by apply represents_addHandler.
  - eexists. split; [done|]. by apply delHandler_cases.
  - eexists. split; [done|]. apply new_router_represents.
Qed.

Lemma run_represents ops : exists r, run ops new_router = Some r /\ represents r (table ops).
Proof.
  unfold table. generalize (new_router_represents). generalize (new_router (Handler := Handler)) no_routes.
  induction ops as [|o rest IH]; intros r a Hr; [by exists r|]. cbn.
  destruct (run_op_represents o r a Hr) as (r' & -> & Hr'). by apply IH.
Qed.

Lemma bind_all_entries b params : wf_params params -> NoDup (all_entries params ++ b).*1 ->
  all_entries (bind_all b params) = all_entries params ++ b.
Proof.
  revert params. induction b as [|[n v] b IH]; intros params Hwf Hn; [by rewrite app_nil_r|]. cbn.
  assert (n ∉ (all_entries params).*1) as Hnew.
  { rewrite fmap_app in Hn. apply NoDup_app in Hn as (_ & Hd & _). intros Hi. apply (Hd _ Hi). by left. }
  destruct (emplace_new n v params Hwf Hnew) as (q & -> & Hq & Ha). cbn [snd].
  rewrite IH; rewrite ?Ha, <- ?app_assoc; done.
Qed.

Lemma bindings_NoDup names c : NoDup names -> NoDup (bindings names c).*1.
Proof.
  intros Hn. destruct c as [vs|]; [|constructor]. cbn. revert vs. induction Hn as [|n names Hi Hn IH]; intros [|v vs]; [constructor..|].
  cbn. constructor; [|apply IH]. intros [[n' v'] [Hnn Hl]]%list_elem_of_fmap. cbn in Hnn. subst n'. by apply elem_of_zip_l in Hl.
Qed.

Lemma first_some_Some {A B} (f : A -> option B) l y : first_some f l = Some y ->
  exists pre x post, l = pre ++ x :: post /\ f x = Some y /\ Forall (fun x => f x = None) pre.
Proof.
  induction l as [|x l IH]; [done|]. cbn. destruct (f x) as [y'|] eqn:Hx.
  - intros [= ->]. by exists [], x, l.
  - intros (pre & z & post & -> & Hz & Hp)%IH. exists (x :: pre), z, post. by repeat constructor.
Qed.

Lemma found_names (R : list bytes -> option (Handler * list bytes)) segments h b :
  (forall ks h names, R ks = Some (h, names) -> NoDup names) -> search_routes R segments = Some (h, b) -> NoDup b.*1.
Proof.
  intros Hn (pre & c & post & _ & Ha & _)%first_some_Some. unfold answer in Ha.
  destruct (R c.1) as [[h' names]|] eqn:Hc; [|done]. injection Ha as <- <-. apply bindings_NoDup. by eapply Hn.
Qed.

Lemma findHandler_represents m path r a : represents r a ->
  exists res, findHandler m path r = Some res /\
  match_handler res = (routes_find m path a).1 /\ all_entries (match_params res) = (routes_find m path a).2.
Proof.
  intros [He Hp Hn Hc]. unfold findHandler, routes_find. rewrite He.
  destruct (m_exactRoutes r !! m ≫= lookup path) as [h|]; [by eexists|].
  pose proof (Hp m) as Hpm. destruct (m_fuzzyRoutes r !! m) as [root|].
  - unfold searchRoutePath. rewrite (finds_searchRoutePath root path) by apply no_params_wf.
    cbn [mbind option_bind]. eexists. split; [done|].
    replace (search_routes (fun ks => patterns a !! (m, ks)) (segments_of path))
      with (search_routes (terminal root) (segments_of path))
      by (apply first_some_ext; intros c _; unfold answer; by rewrite Hpm).
    destruct (search_routes (terminal root) (segments_of path)) as [[h b]|] eqn:Hf; [|done]. cbn. split; [done|].
    assert (NoDup b.*1) as Hb.
    { eapply found_names, Hf. intros ks h' names Hk. rewrite <- Hpm in Hk. by apply Hn in Hk as []. }
    by apply (bind_all_entries b no_params no_params_wf Hb).
  - eexists. split; [done|]. cbn [match_handler match_params fst snd].
    replace (search_routes _ _) with (@None (Handler * list Entry)); [done|]. symmetry.
    apply first_some_none, Forall_forall. intros c _. unfold answer. by rewrite Hpm.
Qed.

(** Requests whose segments are none of the keys of the trie that stand for something else. *)
Definition special (s : bytes) : Prop := s ∈ [bs ":param"; bs "*"; bs "**"].
Definition plain_request (segments : list bytes) : Prop := Forall (fun s => ~ special s) segments.

#[local] Instance special_dec s : Decision (special s).
Proof. apply _. Defined.
#[local] Instance plain_request_dec segments : Decision (plain_request segments).
Proof. apply _. Defined.

(** Every route that ends in [**], which drops what is captured in front of it, has no parameters. *)
Definition greedy_unnamed (a : routes) : Prop :=
  forall m ks h names, patterns a !! (m, ks) = Some (h, names) -> last ks = Some (bs "**") -> names = [].

(** No call registers a pattern whose shape the method has already. *)
Fixpoint fresh_methods (path : bytes) h (methods : list HttpMethod) (a : routes) : Prop :=
  match methods with
  | [] => True
  | m :: methods =>
      (accepted path = true -> isFuzzyPattern path = true -> patterns a !! (m, shape (segments_of path)) = None) /\
      fresh_methods path h methods (routes_add path h a m)
  end.

Fixpoint registered_once (ops : list op) (a : routes) : Prop :=
  match ops with
  | [] => True
  | o :: ops =>
      match o with Add methods path h => fresh_methods path h methods a | _ => True end /\
      registered_once ops (routes_op o a)
  end.

Definition counted (a : routes) : Prop := registrations a = Z.of_nat (base.size (patterns a)).

Lemma routes_add_counted path h m a : counted a ->
  (accepted path = true -> isFuzzyPattern path = true -> patterns a !! (m, shape (segments_of path)) = None) ->
  counted (routes_add path h a m).
Proof.
  unfold counted, routes_add. intros Hc Hf. destruct (accepted path); [|done]. cbn [negb].
  destruct (isFuzzyPattern path); [|done]. cbn. rewrite map_size_insert_None by auto. lia.
Qed.

Lemma registered_counted ops a : counted a -> registered_once ops a ->
  counted (fold_left (fun a o => routes_op o a) ops a).
Proof.
  revert a. induction ops as [|o ops IH]; intros a Hc; [done|]. cbn. intros [Ho Hops]. apply IH; [|done].
  destruct o as [methods path h|m path|]; cbn; [|done|unfold counted; cbn; by rewrite map_size_empty].
  clear Hops. revert a Hc Ho. induction methods as [|m methods IHm]; intros a Hc; [done|]. cbn. intros [Hm Hms].
  by apply IHm; [apply routes_add_counted|].
Qed.

(** C9: After any sequence of registrations, removals and clears the router holds the table of the same
    calls: it never fails to answer; a lookup whose segments are not the literals [:param], [*] or [**] finds
    the exact route of the path or else the first registered shape in the order of [choices], and binds the
    names of its latest registration, if routes that end in [**] have none; removal succeeds on exact routes
    and only on them; and [size] is the number of routes, if no pattern was registered again. *)
Theorem router_refines_table ops :
  exists r, run ops new_router = Some r /\
  (forall m path, exists res, findHandler m path r = Some res /\
     (plain_request (segments_of path) ->
      match_handler res = (routes_find m path (table ops)).1 /\
      (greedy_unnamed (table ops) -> all_entries (match_params res) = (routes_find m path (table ops)).2))) /\
  (forall m path, (delHandler m path r).1 = bool_decide (is_Some (exact (table ops) !! (m, path)))) /\
  (registered_once ops no_routes ->
   size r = wrap64 (Z.of_nat (base.size (exact (table ops)) + base.size (patterns (table ops))))).
Proof.
  destruct (run_represents ops) as (r & Hr & Hrep). exists r. split_and!; [done| | |].
  - intros m path. destruct (findHandler_represents m path r _ Hrep) as (res & ? & ? & ?). by exists res.
  - intros m path. by apply delHandler_cases.
  - intros Ho. assert (counted (table ops)) as Hc by (apply registered_counted; [unfold counted; cbn; by rewrite map_size_empty|done]).
    unfold size. rewrite (rep_count _ _ Hrep), Hc. f_equal. lia.
Qed.

(** ** Which route is preferred *)

(** A shape accepts the segments of a request and captures those under its parameters; [**] accepts one
    segment or more and discards what was captured. *)
Inductive matches : list bytes -> list bytes -> option (list bytes) -> Prop :=
| match_end : matches [] [] (Some [])
| match_literal k ks ss c : matches ks ss c -> matches (k :: ks) (k :: ss) c
| match_param ks s ss c : matches ks ss c -> matches (bs ":param" :: ks) (s :: ss) (cons s <$> c)
| match_star ks s ss c : matches ks ss c -> matches (bs "*" :: ks) (s :: ss) c
| match_greedy s ss : matches [bs "**"] (s :: ss) None.

Definition rank (k : bytes) : Z :=
  if decide (k = bs ":param") then 1 else if decide (k = bs "*") then 2 else if decide (k = bs "**") then 3 else 0.

(** Literal over parameter over [*] over [**], at the first segment where two shapes differ. *)
Inductive preferred : list bytes -> list bytes -> Prop :=
| prefer_here k k' ks ks' : rank k < rank k' -> preferred (k :: ks) (k' :: ks')
| prefer_later k ks ks' : preferred ks ks' -> preferred (k :: ks) (k :: ks').

Lemma choices_matches segments ks c : (ks, c) ∈ choices segments <-> matches ks segments c.
Proof.
  split.
  - revert ks c. induction segments as [|s rest IH]; intros ks c.
    + cbn. rewrite list_elem_of_singleton. intros [= -> ->]. constructor.
    + cbn [choices]. cbv zeta. rewrite !elem_of_app, !list_elem_of_fmap, list_elem_of_singleton.
      intros [[[ks' c'] [[= -> ->] Hi]]|[[[ks' c'] [[= -> ->] Hi]]|[[[ks' c'] [[= -> ->] Hi]]|[= -> ->]]]];
        by constructor; try apply IH.
  - induction 1; cbn [choices]; cbv zeta; rewrite ?elem_of_app, ?list_elem_of_fmap, ?list_elem_of_singleton.
    + done.
    + left. by eexists (_, _).
    + right. left. by eexists (_, _).
    + right. right. left. by eexists (_, _).
    + by right; right; right.
Qed.

Lemma rank_plain s : ~ special s -> rank s = 0.
Proof.
  intros Hs. unfold special in Hs. rewrite !not_elem_of_cons in Hs. destruct Hs as (H1 & H2 & H3 & _).
  unfold rank. by rewrite !decide_False by done.
Qed.

Definition choice : Type := list bytes * option (list bytes).
Definition before (a b : choice) : Prop := preferred a.1 b.1.

(** [f] puts [k] in front of the shape. *)
Definition prefixes (k : bytes) (f : choice -> choice) : Prop := forall c, (f c).1 = k :: c.1.

(** Every shape of [l] starts with a key that ranks after [k]. *)
Definition ranked_after (k : bytes) (l : list choice) : Prop :=
  Forall (fun b => exists k' ks, b.1 = k' :: ks /\ rank k < rank k') l.

Lemma ranked_after_map k k' f l : prefixes k' f -> rank k < rank k' -> ranked_after k (map f l).
Proof. intros Hf Hk. apply Forall_fmap, Forall_forall. intros c _. cbn. rewrite Hf. eauto. Qed.

Lemma sorted_group k f l l' : prefixes k f -> ranked_after k l' ->
  StronglySorted before l -> StronglySorted before l' -> StronglySorted before (map f l ++ l').
Proof.
  intros Hf Ha Hl Hl'. induction Hl as [|c l Hl IH Hc]; [done|]. cbn. constructor; [done|].
  apply Forall_app. split.
  - apply Forall_fmap. eapply Forall_impl; [exact Hc|]. intros b Hb. unfold before. cbn. rewrite !Hf. by constructor.
  - eapply Forall_impl; [exact Ha|]. intros b (k' & ks & Hb & Hk). unfold before. rewrite Hf, Hb. by constructor.
Qed.

Lemma choices_sorted segments : plain_request segments -> StronglySorted before (choices segments).
Proof.
  induction 1 as [|s rest Hs Hr IH]; [by repeat constructor|]. cbn [choices]. cbv zeta.
  pose proof (rank_plain s Hs) as Hrank.
  assert (forall k, rank k < 3 -> ranked_after k [([bs "**"], None)]) as H3.
  { intros k Hk. repeat constructor. by exists (bs "**"), []. }
  repeat (eapply sorted_group; [by intros c| |done|]); [| | |by repeat constructor];
    rewrite ?Hrank; repeat (apply Forall_app; split);
    try (eapply ranked_after_map; [by intros c|by rewrite ?Hrank]); apply H3; by rewrite ?Hrank.
Qed.

Lemma sorted_last pre x post : StronglySorted before (pre ++ x :: post) -> Forall (before x) post.
Proof. induction pre as [|y pre IH]; cbn; inversion 1; auto. Qed.

(** What the search answers, in terms of the registered shapes that accept the request. *)
Lemma search_routes_best (R : list bytes -> option (Handler * list bytes)) segments : plain_request segments ->
  match search_routes R segments with
  | Some (h, b) => exists ks names c, R ks = Some (h, names) /\ matches ks segments c /\ b = bindings names c /\
      forall ks' c', R ks' <> None -> matches ks' segments c' -> ks' = ks \/ preferred ks ks'
  | None => forall ks c, matches ks segments c -> R ks = None
  end.
Proof.
  intros Hp. unfold search_routes. destruct (first_some _ _) as [[h b]|] eqn:Hf.
  - apply first_some_Some in Hf as (pre & [ks c] & post & Hl & Ha & Hn). unfold answer in Ha. cbn [fst snd] in Ha.
    destruct (R ks) as [[h' names]|] eqn:Hr; [|done]. injection Ha as <- <-. exists ks, names, c.
    split_and!; [done| |by rewrite <- fmap_app_nil|].
    + apply choices_matches. rewrite Hl. apply elem_of_app. right. by left.
    + intros ks' c' Hr' Hm%choices_matches. rewrite Hl in Hm.
      apply elem_of_app in Hm as [Hm|[[= -> ->]|Hm]%elem_of_cons]; [|by left|].
      * rewrite Forall_forall in Hn. specialize (Hn _ Hm). unfold answer in Hn. cbn in Hn.
        by destruct (R ks') as [[??]|].
      * right. pose proof (choices_sorted segments Hp) as Hs. rewrite Hl in Hs. apply sorted_last in Hs.
        rewrite Forall_forall in Hs. by apply (Hs (ks', c')).
  - intros ks c Hm%choices_matches. apply first_some_none in Hf. rewrite Forall_forall in Hf.
    specialize (Hf _ Hm). unfold answer in Hf. cbn in Hf. by destruct (R ks) as [[??]|].
Qed.

Lemma matches_count ks segments values : plain_request segments ->
  matches ks segments (Some values) -> length values = param_count ks.
Proof.
  intros Hp Hm. remember (Some values) as c eqn:Hc. revert values Hc.
  induction Hm as [|k ks ss c Hm IH|ks s ss c Hm IH|ks s ss c Hm IH|]; intros values; [by intros [= <-]|..|done].
  - apply Forall_cons in Hp as [Hs Hp]. intros ->. unfold param_count. rewrite filter_cons_False; [by apply IH|].
    unfold is_param. intros ->. apply Hs. by left.
  - apply Forall_cons in Hp as [_ Hp]. destruct c as [vs|]; [|done]. intros [= <-].
    unfold param_count. rewrite filter_cons_True by done. cbn. f_equal. by apply IH.
  - apply Forall_cons in Hp as [_ Hp]. intros ->. by apply IH.
Qed.

(** C8: A request whose segments are not the literals [:param], [*] or [**] is answered by the exact route of
    its path, or else by the preferred one of the registered shapes that accept it, literal before parameter
    before [*] before [**] at the first segment where shapes differ, with every name of the route bound to the
    segment under it when the route does not end in [**]; and it goes unanswered only if there is no such
    route. *)
Theorem preferred_route ops m path (Hplain : plain_request (segments_of path)) :
  exists r res, run ops new_router = Some r /\ findHandler m path r = Some res /\
  match exact (table ops) !! (m, path), match_handler res with
  | Some h, answer => answer = Some h /\ all_entries (match_params res) = []
  | None, Some h => exists ks names c,
      patterns (table ops) !! (m, ks) = Some (h, names) /\ matches ks (segments_of path) c /\
      (forall values, c = Some values ->
         length values = length names /\ all_entries (match_params res) = zip names values) /\
      forall ks' c', patterns (table ops) !! (m, ks') <> None -> matches ks' (segments_of path) c' ->
        ks' = ks \/ preferred ks ks'
  | None, None => forall ks c, matches ks (segments_of path) c -> patterns (table ops) !! (m, ks) = None
  end.
Proof.
  destruct (run_represents ops) as (r & Hr & Hrep). exists r.
  destruct (findHandler_represents m path r _ Hrep) as (res & Hres & Hh & Hp). exists res.
  split_and!; [done..|]. unfold routes_find in Hh, Hp.
  destruct (exact (table ops) !! (m, path)) as [h|]; [done|].
  pose proof (search_routes_best (fun ks => patterns (table ops) !! (m, ks)) _ Hplain) as Hb.
  destruct (search_routes _ _) as [[h b]|]; cbn in Hh, Hp; rewrite Hh; [|done].
  destruct Hb as (ks & names & c & Hk & Hm & -> & Hall). exists ks, names, c. split_and!; [done..| |done].
  intros values ->. split; [|done]. destruct (rep_names _ _ Hrep _ _ _ _ Hk) as [_ ->]. by eapply matches_count.
Qed.

End Routes.

(** ** Witnesses and examples *)

#[local] Instance Z_inhabited : Inhabited Z := populate 0.

Definition sample_ops : list (op (Handler := Z)) :=
  [Add [GET] (bs "/user/:id") 1; Add [GET] (bs "/user/*") 2; Add [GET; POST] (bs "/user/**") 3;
   Add [GET] (bs "/user/:id/posts/:post") 4; Add [GET] (bs "/user/:name/posts/new") 5;
   Add [GET] (bs "/user/me") 6; Add [POST] (bs "/bad/:1") 7].

Lemma preferred_route_witness :
  plain_request (segments_of (bs "/user/7/posts/new")) /\
  exact (table sample_ops) !! (GET, bs "/user/7/posts/new") = None /\
  exists r res ks c, run sample_ops new_router = Some r /\ findHandler GET (bs "/user/7/posts/new") r = Some res /\
    matches ks (segments_of (bs "/user/7/posts/new")) c /\
    forall ks' c', patterns (table sample_ops) !! (GET, ks') <> None ->
      matches ks' (segments_of (bs "/user/7/posts/new")) c' -> ks' = ks \/ preferred ks ks'.
Proof.
  assert (plain_request (segments_of (bs "/user/7/posts/new"))) as Hp by (apply (bool_decide_unpack _); by vm_compute).
  assert (exact (table sample_ops) !! (GET, bs "/user/7/posts/new") = None) as He by (by vm_compute).
  split; [exact Hp|]. split; [exact He|].
  destruct (preferred_route sample_ops GET (bs "/user/7/posts/new") Hp) as (r & res & Hr & Hres & Hm).
  rewrite He in Hm. destruct (match_handler res) as [h|].
  - destruct Hm as (ks & names & c & _ & Hk & _ & Hbest). exists r, res, ks, c. by split_and!.
  - exfalso. assert (matches (map bs ["user"; ":param"; "posts"; "new"]%string) (segments_of (bs "/user/7/posts/new"))
      (Some [bs "7"])) as Hacc.
    { replace (segments_of (bs "/user/7/posts/new")) with (map bs ["user"; "7"; "posts"; "new"]%string) by (by vm_compute).
      cbn [map]. apply match_literal, (match_param _ (bs "7") _ (Some [])), match_literal, match_literal, match_end. }
    apply Hm in Hacc. by vm_compute in Hacc.
Defined.

(** A pattern under two methods and a path: three routes; a pattern is not removed. *)
Lemma router_refines_table_witness :
  let ops := [Add [GET; POST] (bs "/u/:id") 1; Add [GET] (bs "/u") 2; Del GET (bs "/u/:id")] in
  registered_once ops no_routes /\ exists r, run ops new_router = Some r /\ size r = 3.
Proof.
  intros ops. assert (registered_once ops no_routes) as Ho by (repeat split; by vm_compute).
  split; [exact Ho|]. destruct (router_refines_table ops) as (r & Hr & _ & _ & Hs). exists r. split; [exact Hr|].
  rewrite (Hs Ho). by vm_compute.
Defined.

(** The handler and the parameters a lookup answers after [ops]. *)
Definition lookup_after (ops : list (op (Handler := Z))) (m : HttpMethod) (path : bytes) : option (option Z * list Entry) :=
  r ← run ops new_router; res ← findHandler m path r; Some (match_handler res, all_entries (match_params res)).

Definition answers (ops : list (op (Handler := Z))) (m : HttpMethod) (path : bytes) (h : option Z) (b : list Entry) : bool :=
  bool_decide (lookup_after ops m path = Some (h, b)).

Example sample_lookups :
  answers sample_ops GET (bs "/user/me") (Some 6) [] &&
  answers sample_ops GET (bs "/user/7/posts/new") (Some 5) [(bs "name", bs "7")] &&
  answers sample_ops GET (bs "//user/7/posts/old/") (Some 4) [(bs "id", bs "7"); (bs "post", bs "old")] &&
  answers sample_ops GET (bs "/user/7") (Some 1) [(bs "id", bs "7")] &&
  answers sample_ops POST (bs "/user/7") (Some 3) [] &&
  answers sample_ops GET (bs "/user/7/likes") (Some 3) [] &&
  answers sample_ops GET (bs "/user") None [] && answers sample_ops POST (bs "/bad/:1") None [] = true.
Proof. by vm_compute. Qed.

(** A request may spell a key of the trie: its segment [:param] takes the parameter branch as an exact match,
    and the route is found without its parameter. *)
Example spelled_parameter_not_bound :
  answers sample_ops GET (bs "/user/:param") (Some 1) [] && answers sample_ops GET (bs "/user/:other") (Some 1)
    [(bs "id", bs ":other")] = true.
Proof. by vm_compute. Qed.

(** A route that ends in [**] loses the parameters in front of it. *)
Example greedy_route_drops_parameters :
  answers [Add [GET] (bs "/u/:id/**") 1] GET (bs "/u/7/files") (Some 1) [] = true.
Proof. by vm_compute. Qed.

(** Registering a pattern again replaces the handler and counts a second route; an exact path is counted
    once. Patterns cannot be removed. *)
Example replaced_pattern_counted_twice :
  let ops := [Add [GET] (bs "/u/:id") 1; Add [GET] (bs "/u/:name") 2; Del GET (bs "/u/:name")] in
  let again := [Add [GET] (bs "/u") 1; Add [GET] (bs "/u") 2] in
  bool_decide (size <$> run ops new_router = Some 2) && answers ops GET (bs "/u/7") (Some 2) [(bs "name", bs "7")] &&
  bool_decide (size <$> run again new_router = Some 1) = true.
Proof. by vm_compute. Qed.
