(* ===== verification/HttpProxy.v ===== *)
(** * HTTP/1: the reverse proxy

    The proxy handlers of [galay-http/server/http_router.cc]: the routes [proxy] registers, the target and
    the header a request is forwarded with, and the exchange with the upstream over pooled connections;
    [ensureContentLength] and [sendRequest] of [kernel/http_writer.h], which frame what is forwarded. *)

From Stdlib Require Import ZArith Lia.
From stdpp Require Import base list gmap strings.
From S2P Require Import Prelude Charconv HttpBase HttpHeaders HttpUri HttpRequestHeader HttpRequest HttpRouteParams HttpRouter.

Open Scope Z_scope.

#[local] Abbreviation slash := (Byte.x2f).
#[local] Abbreviation COLON := (Byte.x3a).

(** ** Header fields *)

(** [flush_token]: the two loops around [current] are those of [trimAscii]. *)
Definition flush_token (current : bytes) (tokens : list bytes) (seen : gset bytes) : list bytes * gset bytes :=
  let trimmed := trimAscii current in
  if decide (trimmed = []) then (tokens, seen)
  else
    let token := toLowerAscii trimmed in
    if decide (token ∈ seen) then (tokens, seen) else (tokens ++ [token], {[token]} ∪ seen).

Fixpoint split_tokens (value current : bytes) (tokens : list bytes) (seen : gset bytes) : list bytes :=
  match value with
  | [] => (flush_token current tokens seen).1
  | ch :: rest =>
      if decide (ch = z2b 44) then
        let r := flush_token current tokens seen in split_tokens rest [] r.1 r.2
      else split_tokens rest (current ++ [ch]) tokens seen
  end.

Definition splitConnectionTokens (value : bytes) : list bytes := split_tokens value [] [] ∅.

(** The router's own [removeHeaderPairLoose]. *)
Definition removeHeaderPairLoose (key : bytes) (headers : HeaderPair) : HeaderPair :=
  if decide (key = []) then headers
  else
    let headers := (removeHeaderPair key headers).2 in
    let lower := toLowerAscii key in
    let upper := map toUpperAsciiChar key in
    let words := toCanonicalHeaderKey key in
    let headers := if bool_decide (lower <> key) then (removeHeaderPair lower headers).2 else headers in
    let headers :=
      if bool_decide (upper <> key) && bool_decide (upper <> lower) then (removeHeaderPair upper headers).2
      else headers in
    if bool_decide (words <> key) && bool_decide (words <> lower) && bool_decide (words <> upper)
    then (removeHeaderPair words headers).2 else headers.

Definition getHeaderValueLoose (headers : HeaderPair) (key : bytes) : bytes := getValue key headers.

Definition buildUpstreamKey (host : bytes) (port : Z) : bytes := host ++ bs ":" ++ to_chars port.

(** [client_ip] is the text of the peer's address, empty when there is none. *)
Definition applyForwardHeaders (client_ip : bytes) (headers : HeaderPair) (original_host : bytes) : HeaderPair :=
  let xff := getHeaderValueLoose headers (bs "X-Forwarded-For") in
  let headers :=
    if decide (client_ip <> []) then
      let xff := if decide (xff = []) then client_ip else xff ++ bs ", " ++ client_ip in
      (addHeaderPair (bs "X-Real-IP") client_ip (addHeaderPair (bs "X-Forwarded-For") xff headers).2).2
    else headers in
  let headers := (addHeaderPair (bs "X-Forwarded-Proto") (bs "http") headers).2 in
  if decide (original_host <> []) then (addHeaderPair (bs "X-Forwarded-Host") original_host headers).2 else headers.

Definition hop_by_hop : list bytes :=
  [bs "Connection"; bs "Proxy-Connection"; bs "Keep-Alive"; bs "TE"; bs "Trailer"; bs "Transfer-Encoding";
   bs "Upgrade"].

Definition remove_all (keys : list bytes) (headers : HeaderPair) : HeaderPair :=
  fold_left (fun h key => removeHeaderPairLoose key h) keys headers.

(** ** Targets *)

(** [find]: whether [needle] occurs. *)
Fixpoint occurs (needle haystack : bytes) : bool :=
  bool_decide (take (length needle) haystack = needle) ||
  match haystack with [] => false | _ :: rest => occurs needle rest end.

Definition rewriteProxyUri (routePrefix requestUri : bytes) : bytes :=
  if decide (requestUri = []) then [slash]
  else if decide (routePrefix = [slash]) then requestUri
  else if decide (requestUri = routePrefix) then [slash]
  else if decide (take (length routePrefix) requestUri = routePrefix) then
    match drop (length routePrefix) requestUri with
    | [] => [slash]
    | c :: suffix =>
        if decide (c = z2b 63) then slash :: c :: suffix
        else if decide (c <> slash) then slash :: c :: suffix
        else c :: suffix
    end
  else requestUri.

Definition isLikelyStreamingRequest (uri : bytes) (headers : HeaderPair) : bool :=
  let accept := toLowerAscii (getHeaderValueLoose headers (bs "Accept")) in
  if occurs (bs "text/event-stream") accept then true
  else
    let content_type := toLowerAscii (getHeaderValueLoose headers (bs "Content-Type")) in
    if occurs (bs "text/event-stream") content_type then true
    else
      let proxy_stream := toLowerAscii (getHeaderValueLoose headers (bs "X-Proxy-Stream")) in
      if bool_decide (proxy_stream ∈ [bs "1"; bs "true"; bs "yes"]) then true
      else
        let lower_uri := toLowerAscii uri in
        occurs (bs "/stream") lower_uri || occurs (bs "stream=true") lower_uri || occurs (bs "stream=1") lower_uri.

(** ** What is forwarded *)

Inductive ProxyMode : Type := Http | Raw.

#[export] Instance ProxyMode_eq_dec : EqDecision ProxyMode.
Proof. solve_decision. Defined.

(** What [createProxyHandler] captures. *)
Record upstream : Type := mkUpstream { routePrefix : bytes; upstreamHost : bytes; upstreamPort : Z; mode : ProxyMode }.

Definition effective_mode (up : upstream) (upstream_uri : bytes) (headers : HeaderPair) : ProxyMode :=
  match mode up with
  | Http => if isLikelyStreamingRequest upstream_uri headers then Raw else Http
  | Raw => Raw
  end.

(** The changes to the header between its reading and the exchange, in their order. *)
Definition forwarded_headers (client_ip : bytes) (up : upstream) (upstream_uri : bytes) (headers : HeaderPair) :
    HeaderPair :=
  let original_host := getHeaderValueLoose headers (bs "Host") in
  let connection := getHeaderValueLoose headers (bs "Connection") in
  let hop_by_hop_tokens := splitConnectionTokens connection in
  let close := bool_decide (effective_mode up upstream_uri headers = Raw) in
  let headers := remove_all hop_by_hop headers in
  let headers := remove_all hop_by_hop_tokens headers in
  let headers := applyForwardHeaders client_ip headers original_host in
  let headers := removeHeaderPairLoose (bs "Host") headers in
  let headers := (addHeaderPair (bs "Host") (buildUpstreamKey (upstreamHost up) (upstreamPort up)) headers).2 in
  (addHeaderPair (bs "Connection") (if close then bs "close" else bs "keep-alive") headers).2.

Definition forwarded (client_ip : bytes) (up : upstream) (req : HttpRequest) : HttpRequest :=
  let h := m_header req in
  let upstream_uri := rewriteProxyUri (routePrefix up) (m_uri h) in
  let h := set_pairs (forwarded_headers client_ip up upstream_uri (m_headerPairs h)) h in
  set_header (set_request (m_method h) (m_version h) upstream_uri (m_argList h) (m_uriDecodeError h) h) req.

Definition ensureContentLength (headers : HeaderPair) (size : Z) : HeaderPair :=
  (addHeaderPairIfNotExist (bs "Content-Length") (to_chars size) headers).2.

(** The octets [sendRequest] hands to the socket for a request. *)
Definition sendRequest (req : HttpRequest) : bytes :=
  let h := m_header req in
  let h :=
    if negb (isChunked h) then set_pairs (ensureContentLength (m_headerPairs h) (blen (m_body req))) h else h in
  HttpRequestHeader.toString h ++ m_body req.

(** ** Registration *)

Definition normalizeRoutePrefix (prefix : bytes) : bytes :=
  match prefix with
  | [] => [slash]
  | c :: _ =>
      let prefix := if decide (c <> slash) then slash :: prefix else prefix in
      if decide (1 < length prefix)%nat then
        if decide (last prefix = Some slash) then removelast prefix else prefix
      else prefix
  end.

Section Proxy.

Context {Handler : Type} `{Inhabited Handler}.

(** [createProxyHandler] with everything but the prefix it strips. *)
Variable createProxyHandler : bytes -> Handler.

Definition proxy_methods : list HttpMethod := [GET; POST; PUT; PATCH; DELETE; HEAD; OPTIONS].

Definition enable_fallback (h : Handler) (r : HttpRouter Handler) : HttpRouter Handler :=
  mkRouter (m_exactRoutes r) (m_fuzzyRoutes r) (Some h) (m_routeCount r).

Definition proxy (prefix host : bytes) (port : Z) (r : HttpRouter Handler) : option (HttpRouter Handler) :=
  if decide (host = [] \/ port = 0) then Some r
  else
    let normalizedPrefix := normalizeRoutePrefix prefix in
    let handler := createProxyHandler normalizedPrefix in
    let wildcardPath :=
      if decide (normalizedPrefix = [slash]) then bs "/**" else normalizedPrefix ++ bs "/**" in
    r ← addHandler proxy_methods wildcardPath handler r;
    if decide (normalizedPrefix <> [slash]) then addHandler proxy_methods normalizedPrefix handler r
    else Some (enable_fallback (createProxyHandler [slash]) r).

Definition fallbackProxyHandler (r : HttpRouter Handler) : option Handler := m_fallbackProxyHandler r.

(** The registration half of [mount] and [tryFiles], for a directory that exists; [mount] of an empty prefix
    reads the last character of an empty string, [None]. *)
Definition mount (prefix : bytes) (handler : Handler) (r : HttpRouter Handler) : option (HttpRouter Handler) :=
  c ← last prefix;
  let wildcardPath := (if decide (c <> slash) then prefix ++ [slash] else prefix) ++ bs "**" in
  addHandler [GET; HEAD] wildcardPath handler r.

Definition tryFiles (prefix host : bytes) (port : Z) (handler : bytes -> Handler) (r : HttpRouter Handler) :
    option (HttpRouter Handler) :=
  if decide (host = [] \/ port = 0) then Some r
  else
    let normalizedPrefix := normalizeRoutePrefix prefix in
    r ← mount normalizedPrefix (handler normalizedPrefix) r;
    if decide (normalizedPrefix <> [slash]) then addHandler [GET; HEAD] normalizedPrefix (handler normalizedPrefix) r
    else Some r.

End Proxy.

(** ** Tokens of a Connection field *)

Definition in_connection (value name : bytes) : Prop :=
  exists part, part ∈ split_commas value /\ trimAscii part <> [] /\ toLowerAscii (trimAscii part) = name.

Definition flush_all (parts : list bytes) (acc : list bytes * gset bytes) : list bytes * gset bytes :=
  fold_left (fun acc part => flush_token part acc.1 acc.2) parts acc.

Lemma split_tokens_parts value current tokens seen :
  split_tokens value current tokens seen =
  (flush_all (match split_commas value with part :: parts => (current ++ part) :: parts | [] => [] end) (tokens, seen)).1.
Proof.
  revert current tokens seen. induction value as [|c value IH]; intros current tokens seen.
  { cbn. by rewrite app_nil_r. }
  assert (exists part parts, split_commas value = part :: parts) as (part & parts & Hs).
  { clear. induction value as [|c value (p & ps & Hv)]; [by exists [], []|]. cbn. rewrite Hv. case_bool_decide; eauto. }
  cbn [split_tokens split_commas]. rewrite Hs in IH |- *. case_bool_decide as Hc.
  - rewrite decide_True by done. rewrite IH. cbn [app flush_all fold_left fst snd]. rewrite app_nil_r.
    by destruct (flush_token current tokens seen).
  - rewrite decide_False by done. rewrite IH. by rewrite <- app_assoc.
Qed.

Lemma flush_all_spec parts tokens seen :
  (forall t, t ∈ seen <-> t ∈ tokens) ->
  forall t, t ∈ (flush_all parts (tokens, seen)).1 <->
    t ∈ tokens \/ exists part, part ∈ parts /\ trimAscii part <> [] /\ toLowerAscii (trimAscii part) = t.
Proof.
  revert tokens seen. induction parts as [|p parts IH]; intros tokens seen Hseen t; cbn [flush_all fold_left fst snd].
  { split; [by left|]. intros [?|(? & ?%not_elem_of_nil & _)]; done. }
  unfold flush_token at 2. fold (flush_all parts). setoid_rewrite elem_of_cons.
  case_decide as Hp; [|case_decide as Ht].
  - rewrite IH by done. split; [intros [?|(q & ? & ?)]; eauto|]. intros [?|(q & [->|?] & ? & ?)]; [by left|done|eauto].
  - rewrite IH by done. split; [intros [?|(q & ? & ?)]; eauto|].
    intros [?|(q & [->|?] & ? & ?)]; [by left| |eauto]. left. subst t. by apply Hseen.
  - rewrite IH; [|intros u; rewrite elem_of_union, elem_of_singleton, elem_of_app, list_elem_of_singleton, Hseen; tauto].
    rewrite elem_of_app, list_elem_of_singleton. split.
    + intros [[?| ->]|(q & ? & ?)]; eauto 6.
    + intros [?|(q & [->|?] & ? & ?)]; eauto 6.
Qed.

Lemma splitConnectionTokens_spec value t : t ∈ splitConnectionTokens value <-> in_connection value t.
Proof.
  unfold splitConnectionTokens. rewrite split_tokens_parts.
  replace (match split_commas value with part :: parts => ([] ++ part) :: parts | [] => [] end) with (split_commas value)
    by (by destruct (split_commas value)).
  rewrite flush_all_spec by (intros u; rewrite elem_of_nil; set_solver).
  split; [intros [?%not_elem_of_nil|?]; done|by right].
Qed.

Lemma connection_token_nonempty value t : in_connection value t -> t <> [].
Proof. intros (part & _ & Hp & <-). by destruct (trimAscii part). Qed.

(** ** Fields after removals and insertions *)

Implicit Types m : gmap bytes bytes.

(** A server-side header that stands for a map of names in lower case. *)
Definition server h m : Prop := HttpHeaders.represents h m /\ m_mode h = ServerSide.

Lemma server_remove key h m : server h m -> server (removeHeaderPair key h).2 (delete (toLowerAscii key) m).
Proof.
  intros [Hr Hm]. split; [|by rewrite <- Hm; apply (op_mode (Remove key) h)].
  destruct (removeHeaderPair_spec h m key Hr) as [_ Hs]. rewrite Hm in Hs. cbn [normalizeKey] in Hs.
  rewrite lowered_eq in Hs. destruct (m !! toLowerAscii key) eqn:He; [done|]. by rewrite delete_id.
Qed.

Lemma server_remove_again (b : bool) key key' h m : toLowerAscii key' = toLowerAscii key ->
  server h (delete (toLowerAscii key) m) ->
  server (if b then (removeHeaderPair key' h).2 else h) (delete (toLowerAscii key) m).
Proof. intros He Hs. destruct b; [|done]. apply (server_remove key') in Hs. by rewrite He, delete_delete_eq in Hs. Qed.

Lemma toLower_upper key : toLowerAscii (map toUpperAsciiChar key) = toLowerAscii key.
Proof. unfold toLowerAscii. rewrite map_map. apply map_ext, toLowerAsciiChar_upper. Qed.

Lemma toLower_canonical b key : toLowerAscii (canonical b key) = toLowerAscii key.
Proof.
  revert b. induction key as [|c key IH]; intros b; [done|]. cbn. f_equal; [|apply IH].
  destruct b; [apply toLowerAsciiChar_upper | apply toLowerAsciiChar_idem].
Qed.

Lemma server_loose key h m : key <> [] -> server h m -> server (removeHeaderPairLoose key h) (delete (toLowerAscii key) m).
Proof.
  intros Hk Hs. unfold removeHeaderPairLoose. rewrite decide_False by done. cbv zeta.
  apply (server_remove key) in Hs.
  apply server_remove_again; [apply toLower_canonical|].
  apply server_remove_again; [apply toLower_upper|]. by apply server_remove_again; [apply toLowerAscii_idem|].
Qed.

Lemma server_remove_all keys h m : Forall (fun k => k <> []) keys -> server h m ->
  exists m', server (remove_all keys h) m' /\
  forall n, m' !! n = if decide (n ∈ map toLowerAscii keys) then None else m !! n.
Proof.
  intros Hk. revert h m. induction Hk as [|k keys Hk Hks IH]; intros h m Hs.
  { exists m. split; [done|]. intros n. by rewrite decide_False by apply not_elem_of_nil. }
  destruct (IH _ _ (server_loose k h m Hk Hs)) as (m' & Hs' & Hm'). exists m'. split; [done|].
  intros n. rewrite Hm'. cbn [map]. destruct (decide (n ∈ map toLowerAscii keys)) as [Hn|Hn].
  - by rewrite decide_True by (by right).
  - destruct (decide (n = toLowerAscii k)) as [->|Hnk].
    + by rewrite lookup_delete_eq, decide_True by left.
    + rewrite lookup_delete_ne by done. by rewrite decide_False by (by rewrite not_elem_of_cons).
Qed.

Lemma server_add key value h m : matchCommonHeader (toLowerAscii key) = None \/ m !! toLowerAscii key = None ->
  server h m -> server (addHeaderPair key value h).2 (<[toLowerAscii key := value]> m).
Proof.
  intros Hc [Hr Hm]. split; [|by rewrite <- Hm; apply (op_mode (HttpHeaders.Add key value) h)].
  destruct (run_op_spec (HttpHeaders.Add key value) h m Hr I) as [_ Hs]. cbn [HttpHeaders.run_op spec_op snd] in Hs.
  rewrite Hm in Hs. cbn [normalizeKey common_of] in Hs. rewrite lowered_eq in Hs. unfold join_into in Hs.
  destruct Hc as [Hc|Hc]; rewrite Hc in Hs; [done|]. by destruct (matchCommonHeader _).
Qed.

Lemma server_value key h m : server h m -> getValue key h = default [] (m !! toLowerAscii key).
Proof.
  intros [[Hok Hf] Hm]. unfold getValue. rewrite getValuePtr_spec, Hm by done. cbn [normalizeKey].
  by rewrite lowered_eq, Hf.
Qed.

(** ** The header that is forwarded *)

Definition hop_names : list bytes :=
  [bs "connection"; bs "proxy-connection"; bs "keep-alive"; bs "te"; bs "trailer"; bs "transfer-encoding"; bs "upgrade"].

#[local] Instance in_connection_dec value name : Decision (name ∈ hop_names \/ name ∈ splitConnectionTokens value).
Proof. apply _. Defined.

(** A field of the request that is not for the next hop only. *)
Definition kept m (name : bytes) : option bytes :=
  if decide (name ∈ hop_names \/ name ∈ splitConnectionTokens (default [] (m !! bs "connection"))) then None
  else m !! name.

Definition forwarded_for (client_ip : bytes) (xff : option bytes) : bytes :=
  match xff with Some (c :: v) => (c :: v) ++ bs ", " ++ client_ip | _ => client_ip end.

(** Every field of the forwarded header, from the fields [m] of the request. *)
Definition forwarded_field (client_ip host_port connection : bytes) m (name : bytes) : option bytes :=
  if decide (name = bs "connection") then Some connection
  else if decide (name = bs "host") then Some host_port
  else if decide (name = bs "x-forwarded-host" /\ default [] (m !! bs "host") <> []) then m !! bs "host"
  else if decide (name = bs "x-forwarded-proto") then Some (bs "http")
  else if decide (name = bs "x-real-ip" /\ client_ip <> []) then Some client_ip
  else if decide (name = bs "x-forwarded-for" /\ client_ip <> []) then
    Some (forwarded_for client_ip (kept m (bs "x-forwarded-for")))
  else kept m name.

Lemma kept_removed h m : server h m ->
  exists m', server (remove_all (splitConnectionTokens (default [] (m !! bs "connection"))) (remove_all hop_by_hop h)) m' /\
  forall n, m' !! n = kept m n.
Proof.
  intros Hs. destruct (server_remove_all hop_by_hop h m) as (m1 & Hs1 & Hm1); [by repeat constructor|done|].
  set (tokens := splitConnectionTokens _).
  assert (forall t, t ∈ tokens -> t <> [] /\ toLowerAscii t = t) as Ht.
  { intros t Hi%splitConnectionTokens_spec. split; [by eapply connection_token_nonempty|].
    destruct Hi as (part & _ & _ & <-). apply toLowerAscii_idem. }
  destruct (server_remove_all tokens (remove_all hop_by_hop h) m1) as (m2 & Hs2 & Hm2); [apply Forall_forall; intros t Hi; by apply Ht|done|].
  exists m2. split; [done|]. intros n. rewrite Hm2, Hm1. unfold kept. fold tokens.
  change (map toLowerAscii hop_by_hop) with hop_names.
  assert (n ∈ map toLowerAscii tokens <-> n ∈ tokens) as He.
  { rewrite list_elem_of_fmap. split; [intros (t & -> & Hi); by destruct (Ht t Hi) as [_ ->]|].
    intros Hi. exists n. by destruct (Ht n Hi) as [_ ->]. }
  repeat case_decide; tauto.
Qed.

(** The insertions of [applyForwardHeaders] on the map. *)
Lemma applyForwardHeaders_spec client_ip original_host h m : server h m ->
  exists m', server (applyForwardHeaders client_ip h original_host) m' /\
  forall n, m' !! n =
    if decide (n = bs "x-forwarded-host" /\ original_host <> []) then Some original_host
    else if decide (n = bs "x-forwarded-proto") then Some (bs "http")
    else if decide (n = bs "x-real-ip" /\ client_ip <> []) then Some client_ip
    else if decide (n = bs "x-forwarded-for" /\ client_ip <> []) then Some (forwarded_for client_ip (m !! bs "x-forwarded-for"))
    else m !! n.
Proof.
  intros Hs. unfold applyForwardHeaders. unfold getHeaderValueLoose. rewrite (server_value _ _ _ Hs).
  change (toLowerAscii (bs "X-Forwarded-For")) with (bs "x-forwarded-for").
  set (xff := if decide (default [] (m !! bs "x-forwarded-for") = []) then client_ip else _).
  assert (xff = forwarded_for client_ip (m !! bs "x-forwarded-for")) as Hx.
  { unfold xff, forwarded_for. by destruct (m !! bs "x-forwarded-for") as [[|c v]|]. }
  set (m1 := if decide (client_ip <> []) then <[bs "x-real-ip" := client_ip]> (<[bs "x-forwarded-for" := xff]> m) else m).
  set (h1 := if decide (client_ip <> []) then _ else h).
  assert (server h1 m1) as H1.
  { unfold h1, m1. case_decide; [|done]. apply (server_add (bs "X-Real-IP")); [by left|].
    by apply (server_add (bs "X-Forwarded-For")); [left|]. }
  apply (server_add (bs "X-Forwarded-Proto") (bs "http")) in H1; [|by left].
  change (toLowerAscii (bs "X-Forwarded-Proto")) with (bs "x-forwarded-proto") in H1.
  set (m2 := <[bs "x-forwarded-proto" := bs "http"]> m1) in *. cbv zeta.
  exists (if decide (original_host <> []) then <[bs "x-forwarded-host" := original_host]> m2 else m2). split.
  - case_decide; [|done]. by apply (server_add (bs "X-Forwarded-Host")); [left|].
  - intros n. unfold m2, m1. rewrite <- Hx. clear.
    repeat case_decide; rewrite ?lookup_insert; repeat case_decide; subst; try done; try tauto; intuition congruence.
Qed.

Definition host_port (up : upstream) : bytes := buildUpstreamKey (upstreamHost up) (upstreamPort up).

Definition connection_value (up : upstream) (upstream_uri : bytes) h : bytes :=
  if bool_decide (effective_mode up upstream_uri h = Raw) then bs "close" else bs "keep-alive".

Lemma kept_hop name m : name ∈ hop_names -> kept m name = None.
Proof. intros Hn. unfold kept. by rewrite decide_True by (by left). Qed.

Lemma forwarded_headers_server client_ip up uri h m : server h m ->
  exists m', server (forwarded_headers client_ip up uri h) m' /\
  forall n, m' !! n = forwarded_field client_ip (host_port up) (connection_value up uri h) m n.
Proof.
  intros Hs. unfold forwarded_headers, getHeaderValueLoose. rewrite !(server_value _ _ _ Hs).
  change (toLowerAscii (bs "Host")) with (bs "host"). change (toLowerAscii (bs "Connection")) with (bs "connection").
  cbv zeta. fold (host_port up) (connection_value up uri h).
  destruct (kept_removed h m Hs) as (m1 & H1 & Hm1).
  destruct (applyForwardHeaders_spec client_ip (default [] (m !! bs "host")) _ m1 H1) as (m2 & H2 & Hm2).
  apply (server_loose (bs "Host")) in H2; [|done]. change (toLowerAscii (bs "Host")) with (bs "host") in H2.
  apply (server_add (bs "Host") (host_port up)) in H2; [|right; by rewrite lookup_delete_eq].
  change (toLowerAscii (bs "Host")) with (bs "host") in H2.
  assert (m2 !! bs "connection" = None) as Hc.
  { rewrite Hm2, !Hm1. rewrite !decide_False by (by intros [? _] || done). apply kept_hop, (bool_decide_unpack _). by vm_compute. }
  apply (server_add (bs "Connection") (connection_value up uri h)) in H2.
  2: { right. change (toLowerAscii (bs "Connection")) with (bs "connection").
       by rewrite lookup_insert_ne, lookup_delete_ne by done. }
  eexists. split; [exact H2|]. change (toLowerAscii (bs "Connection")) with (bs "connection"). intros n.
  unfold forwarded_field. rewrite Hm1 in Hm2. clear Hc H2.
  destruct (decide (n = bs "connection")) as [->|Hn1]; [by rewrite lookup_insert_eq|].
  rewrite lookup_insert_ne by done. destruct (decide (n = bs "host")) as [->|Hn2]; [by rewrite lookup_insert_eq|].
  rewrite lookup_insert_ne, lookup_delete_ne, Hm2, Hm1 by done. case_decide as Hh; [|done].
  destruct Hh as [_ Hh]. by destruct (m !! bs "host").
Qed.

(** ** The target that is forwarded *)

Lemma rewriteProxyUri_target prefix uri args : target_ok uri args -> target_ok (rewriteProxyUri prefix uri) args.
Proof.
  intros [H1 H2 H3 H4]. unfold target_text in H4. apply not_elem_of_app in H4 as [H4 H5].
  assert (forall c, c ∈ rewriteProxyUri prefix uri -> c = slash \/ c ∈ uri) as Hsub.
  { clear H5. intros c. unfold rewriteProxyUri. case_decide; [rewrite list_elem_of_singleton; tauto|].
    case_decide; [by right|]. case_decide; [rewrite list_elem_of_singleton; tauto|]. case_decide; [|by right].
    assert (c ∈ drop (length prefix) uri -> c ∈ uri) as Hd.
    { intros Hc. rewrite <- (take_drop (length prefix) uri). apply elem_of_app. by right. }
    destruct (drop (length prefix) uri) as [|d suffix]; [rewrite list_elem_of_singleton; tauto|].
    repeat case_decide; intros Hc; [apply elem_of_cons in Hc as [?|Hc]; [by left|]..|]; right; by apply Hd. }
  split.
  - unfold rewriteProxyUri. repeat case_match; done.
  - intros [Hc|Hc]%Hsub; done.
  - done.
  - unfold target_text. apply not_elem_of_app. split; [|done]. intros [Hc|Hc]%Hsub; done.
Qed.

(** A prefix is stripped at a segment boundary, and the rest of the path is kept. *)
Lemma rewriteProxyUri_under prefix rest : prefix <> [] -> prefix <> [slash] ->
  rewriteProxyUri prefix (prefix ++ slash :: rest) = slash :: rest.
Proof.
  intros H1 H2. unfold rewriteProxyUri. rewrite decide_False by (by destruct prefix). rewrite decide_False by done.
  rewrite decide_False.
  2: { intros He. apply (f_equal length) in He. rewrite length_app in He. cbn in He. lia. }
  rewrite take_app_length, decide_True, drop_app_length by done. by rewrite decide_False, decide_False by (intros ?; done).
Qed.

(** ** What the upstream reads *)

Definition text_ok (v : bytes) : Prop := (CR ∉ v) /\ head v <> Some SP.

#[local] Instance text_ok_dec v : Decision (text_ok v).
Proof. apply _. Defined.

(** A request as it is read, its chunks joined: its fields are those of the map [m], one line each, and
    [Content-Length], where there is one, is the length of the body. *)
Record forwardable (client_ip : bytes) (up : upstream) (req : HttpRequest) m : Prop := {
  fw_version : m_version (m_header req) = HttpVersion_1_0 \/ m_version (m_header req) = HttpVersion_1_1;
  fw_target : target_ok (m_uri (m_header req)) (m_argList (m_header req));
  fw_server : server (m_headerPairs (m_header req)) m;
  fw_fields : forall k v, m !! k = Some v -> field_ok 0 (k, v);
  fw_length : forall text, m !! bs "content-length" = Some text -> parseSizeTStrict text = Some (blen (m_body req));
  fw_body : blen (m_body req) < 2 ^ 64;
  fw_host : text_ok (upstreamHost up) /\ upstreamHost up <> [] /\ 0 <= upstreamPort up < 2 ^ 16;
  fw_ip : text_ok client_ip;
}.

(** The fields that are sent: those of the forwarded header, and the length of the body if it is missing. *)
Definition sent_field (client_ip : bytes) (up : upstream) (req : HttpRequest) m (name : bytes) : option bytes :=
  let uri := rewriteProxyUri (routePrefix up) (m_uri (m_header req)) in
  let field :=
    forwarded_field client_ip (host_port up) (connection_value up uri (m_headerPairs (m_header req))) m name in
  if decide (name = bs "content-length") then Some (default (to_chars (blen (m_body req))) field) else field.

Section Upstream.

Context (client_ip : bytes) (up : upstream) (req : HttpRequest) (m : gmap bytes bytes).
Hypothesis Hfw : forwardable client_ip up req m.

#[local] Abbreviation uri := (rewriteProxyUri (routePrefix up) (m_uri (m_header req))).
#[local] Abbreviation conn := (connection_value up uri (m_headerPairs (m_header req))).
#[local] Abbreviation field := (forwarded_field client_ip (host_port up) conn m).

Lemma kept_lookup name v : kept m name = Some v -> m !! name = Some v.
Proof. unfold kept. by case_decide. Qed.

Lemma text_ok_app a b : text_ok a -> a <> [] -> CR ∉ b -> text_ok (a ++ b).
Proof.
  intros [H1 H2] Ha Hb. split; [by rewrite elem_of_app; intros [?|?]|]. by destruct a.
Qed.

Lemma number_text n : text_ok (to_chars n).
Proof.
  pose proof (to_chars_digits n) as Hd. rewrite Forall_forall in Hd. split.
  - intros Hc. apply Hd in Hc. destruct Hc as [Hc|[d Hc]]; by vm_compute in Hc.
  - destruct (to_chars n) as [|c l]; [done|]. intros [= ->].
    destruct (Hd SP ltac:(by left)) as [Hc|[d Hc]]; by vm_compute in Hc.
Qed.

Lemma cr_not_separator : (CR ∉ bs ", ") /\ (CR ∉ bs ":").
Proof. split; apply (bool_decide_unpack _); by vm_compute. Qed.

(** The names the proxy adds. *)
Definition added_names : list bytes :=
  [bs "connection"; bs "host"; bs "x-forwarded-host"; bs "x-forwarded-proto"; bs "x-real-ip"; bs "x-forwarded-for"].

Lemma added_field_ok name v : name ∈ added_names -> text_ok v -> field_ok 0 (name, v).
Proof.
  intros Hn [Hv1 Hv2].
  assert (Forall (fun n => n <> [] /\ blen n <= 256 /\ Forall (fun c => c <> COLON /\ c <> CR /\ c <> LF) n /\
    toLowerAscii n <> bs "content-length") added_names) as Ha by (apply (bool_decide_unpack _); by vm_compute).
  rewrite Forall_forall in Ha. destruct (Ha name Hn) as (H1 & H2 & H3 & H4). by split.
Qed.

Lemma kept_ok name v : kept m name = Some v -> field_ok 0 (name, v).
Proof. intros Hk%kept_lookup. by apply (fw_fields _ _ _ _ Hfw). Qed.

Lemma forwarded_for_ok xff : client_ip <> [] -> (forall v, xff = Some v -> text_ok v) -> text_ok (forwarded_for client_ip xff).
Proof.
  intros Hne Hx. pose proof (fw_ip _ _ _ _ Hfw) as Hip. unfold forwarded_for. destruct xff as [[|c v]|]; [done| |done].
  apply text_ok_app; [by apply Hx|done|]. rewrite elem_of_app. intros [Hc|Hc]; [|by destruct Hip].
  by apply cr_not_separator in Hc.
Qed.

Lemma host_port_ok : text_ok (host_port up).
Proof.
  destruct (fw_host _ _ _ _ Hfw) as (Hh & Hne & _). unfold host_port, buildUpstreamKey. apply text_ok_app; [done..|].
  rewrite elem_of_app. intros [Hc|Hc]; [by apply cr_not_separator in Hc|]. by apply (number_text (upstreamPort up)) in Hc.
Qed.

Lemma forwarded_field_ok name v : field name = Some v -> field_ok 0 (name, v).
Proof.
  assert (forall n w, m !! n = Some w -> text_ok w) as Hval by (intros n w Hw; by destruct (fw_fields _ _ _ _ Hfw n w Hw)).
  unfold forwarded_field. repeat (case_decide as Hn; [intros Hv|clear Hn]); [..|by apply kept_ok].
  all: match type of Hn with _ /\ _ => destruct Hn as [Hn ?] | _ => idtac end.
  all: apply added_field_ok; [subst name; apply (bool_decide_unpack _); by vm_compute|].
  - injection Hv as <-. unfold connection_value. by destruct (bool_decide _); apply (bool_decide_unpack _); vm_compute.
  - injection Hv as <-. apply host_port_ok.
  - by apply (Hval (bs "host")).
  - injection Hv as <-. apply (bool_decide_unpack _). by vm_compute.
  - injection Hv as <-. apply Hfw.
  - injection Hv as <-. apply forwarded_for_ok; [done|]. intros w Hw%kept_lookup. by apply (Hval _ _ Hw).
Qed.

Definition sent : HttpRequest := forwarded client_ip up req.

(** The header in the upstream's octets. *)
Definition framed_header : HttpRequestHeader :=
  set_pairs (ensureContentLength (m_headerPairs (m_header sent)) (blen (m_body req))) (m_header sent).

Lemma sent_headers : exists m', server (m_headerPairs (m_header sent)) m' /\ forall n, m' !! n = field n.
Proof. apply (forwarded_headers_server client_ip up uri), Hfw. Qed.

Lemma server_field h m' key : server h m' -> getValuePtr key h = m' !! toLowerAscii key.
Proof.
  intros [[Hok Hf] Hm]. rewrite getValuePtr_spec, Hm by done. cbn [normalizeKey]. by rewrite lowered_eq, Hf.
Qed.

Lemma sent_not_chunked : isChunked (m_header sent) = false.
Proof.
  destruct sent_headers as (m' & Hs & Hm'). unfold isChunked. rewrite (server_field _ _ _ Hs), Hm'. unfold forwarded_field.
  rewrite !decide_False by (by intros [? _] || done). by rewrite kept_hop by (apply (bool_decide_unpack _); by vm_compute).
Qed.

Lemma server_ensure size h m' : server h m' ->
  server (ensureContentLength h size)
    (match m' !! bs "content-length" with Some _ => m' | None => <[bs "content-length" := to_chars size]> m' end).
Proof.
  intros [Hr Hm]. unfold ensureContentLength. split.
  2: { rewrite <- Hm. apply (op_mode (AddIfNotExist (bs "Content-Length") (to_chars size)) h). }
  destruct (run_op_spec (AddIfNotExist (bs "Content-Length") (to_chars size)) h m' Hr I) as [_ Hs].
  cbn [HttpHeaders.run_op spec_op] in Hs. cbv zeta in Hs.
  rewrite Hm in Hs. cbn [normalizeKey] in Hs. rewrite lowered_eq in Hs.
  change (toLowerAscii (bs "Content-Length")) with (bs "content-length") in Hs.
  by destruct (m' !! bs "content-length").
Qed.

Lemma framed_pairs : m_headerPairs framed_header = ensureContentLength (m_headerPairs (m_header sent)) (blen (m_body req)).
Proof. unfold framed_header, set_pairs, set_fields. by cbn [m_headerPairs]. Qed.

Lemma framed_fields : exists m', server (m_headerPairs framed_header) m' /\
  forall n, m' !! n = sent_field client_ip up req m n.
Proof.
  destruct sent_headers as (m' & Hs & Hm'). rewrite framed_pairs. eexists. split; [by apply server_ensure|].
  intros n. unfold sent_field. cbv zeta. rewrite <- Hm'.
  destruct (decide (n = bs "content-length")) as [->|Hn].
  - destruct (m' !! bs "content-length") eqn:He; cbn; [done|]. by rewrite lookup_insert_eq.
  - destruct (m' !! bs "content-length"); cbn; [done|]. by rewrite lookup_insert_ne.
Qed.

Lemma sent_field_ok name v : sent_field client_ip up req m name = Some v -> field_ok 0 (name, v).
Proof.
  unfold sent_field. cbv zeta. case_decide as Hn; [|apply forwarded_field_ok]. intros [= <-].
  destruct (field name) as [w|] eqn:Hw; cbn; [by apply forwarded_field_ok|]. subst name.
  destruct (number_text (blen (m_body req))) as [H1 H2]. pose proof (fw_body _ _ _ _ Hfw). pose proof (blen_nonneg (m_body req)).
  split; [|done|done|].
  - split; [done|]. split; [done|]. apply (bool_decide_unpack _). by vm_compute.
  - intros _. cbn [snd]. rewrite parseSizeTStrict_to_chars by lia. eauto.
Qed.

Lemma content_length_sent : exists text, sent_field client_ip up req m (bs "content-length") = Some text /\
  parseSizeTStrict text = Some (blen (m_body req)).
Proof.
  eexists. split; [by unfold sent_field; rewrite decide_True|].
  unfold forwarded_field. rewrite !decide_False by (by intros [? _] || done).
  destruct (kept m (bs "content-length")) as [w|] eqn:Hk; cbn.
  - apply kept_lookup in Hk. by apply (fw_length _ _ _ _ Hfw).
  - pose proof (fw_body _ _ _ _ Hfw). apply parseSizeTStrict_to_chars. pose proof (blen_nonneg (m_body req)). lia.
Qed.

Lemma framed_header_ok : header_ok 0 0 0 framed_header.
Proof.
  destruct framed_fields as (m' & Hs & Hm'). split.
  - apply (fw_version _ _ _ _ Hfw).
  - apply rewriteProxyUri_target, (fw_target _ _ _ _ Hfw).
  - done.
  - apply Hs.
  - apply Forall_forall. intros [k v] Hi. apply (elem_of_fields _ _ _ _ (proj1 Hs)) in Hi. rewrite Hm' in Hi.
    by apply sent_field_ok.
  - done.
Qed.

Lemma sendRequest_eq : sendRequest sent = HttpRequestHeader.toString framed_header ++ m_body req.
Proof. unfold sendRequest. rewrite sent_not_chunked. reflexivity. Qed.

Lemma sent_read h0 rest : blank 0 0 0 h0 ->
  exists h', read_request 0 h0 (sendRequest sent ++ rest) = Accepted h' (m_body req) (blen (sendRequest sent)) /\
  m_method h' = m_method (m_header req) /\ m_version h' = m_version (m_header req) /\
  m_uri h' = uri /\ m_argList h' = m_argList (m_header req) /\
  forall key, getValuePtr key (m_headerPairs h') = sent_field client_ip up req m (toLowerAscii key).
Proof.
  intros Hb. rewrite sendRequest_eq, <- app_assoc.
  destruct (written_header_read 0 0 0 framed_header h0 (m_body req ++ rest) framed_header_ok Hb) as (hd & Hp & H1 & H2 & H3 & H4 & H5).
  destruct framed_fields as (m' & Hs & Hm').
  assert (forall key, getValuePtr key (m_headerPairs hd) = sent_field client_ip up req m (toLowerAscii key)) as Hall.
  { intros key. by rewrite H5, (server_field _ _ _ Hs), Hm'. }
  exists hd. split; [|by split_and!].
  unfold read_request. rewrite Hp, drop_blen. unfold body_framing. rewrite !Hall.
  change (toLowerAscii (bs "transfer-encoding")) with (bs "transfer-encoding").
  change (toLowerAscii (bs "content-length")) with (bs "content-length").
  assert (sent_field client_ip up req m (bs "transfer-encoding") = None) as ->.
  { unfold sent_field, forwarded_field. rewrite !decide_False by (by intros [? _] || done).
    apply kept_hop, (bool_decide_unpack _). by vm_compute. }
  destruct content_length_sent as (text & -> & Ht). destruct text as [|c text]; [done|]. rewrite Ht.
  cbn [exceeds Z.eqb negb andb]. cbv zeta. rewrite blen_app. pose proof (blen_nonneg rest).
  rewrite (proj2 (Z.ltb_ge _ _)) by lia. rewrite blen_app. f_equal.
  replace (Z.to_nat (blen (m_body req))) with (length (m_body req)) by (unfold blen; lia). by rewrite take_app_length.
Qed.

End Upstream.

(** C4: What the proxy sends for a request is one request and nothing else. Whatever follows on the pooled
    connection, a reader of this library takes from it exactly the body that came in, under the same method,
    version and arguments, with the prefix taken off the target; and its fields are those that came in,
    without the ones meant for this hop (the fixed list and every name a [Connection] field gives), with the
    upstream's host, the connection of the mode, the forwarding fields, and always a length. *)
Theorem proxied_request_exact client_ip up req m h0 rest
    (Hfw : forwardable client_ip up req m) (Hblank : blank 0 0 0 h0) :
  let octets := sendRequest (forwarded client_ip up req) in
  exists h', read_request 0 h0 (octets ++ rest) = Accepted h' (m_body req) (blen octets) /\
  m_method h' = m_method (m_header req) /\ m_version h' = m_version (m_header req) /\
  m_uri h' = rewriteProxyUri (routePrefix up) (m_uri (m_header req)) /\
  m_argList h' = m_argList (m_header req) /\
  forall key, getValuePtr key (m_headerPairs h') = sent_field client_ip up req m (toLowerAscii key).
Proof. by apply sent_read. Qed.

(** ** Witness and examples *)

Definition sample_fields : gmap bytes bytes :=
  <[bs "x-forwarded-for" := bs "10.0.0.9"]> (<[bs "x-secret" := bs "1"]> (<[bs "content-length" := bs "03"]>
  (<[bs "connection" := bs "close, X-Secret,Content-Length"]> (<[bs "host" := bs "site"]> ∅)))).

Definition sample_pairs : HeaderPair :=
  (HttpHeaders.run_ops [HttpHeaders.Add (bs "Host") (bs "site");
    HttpHeaders.Add (bs "Connection") (bs "close, X-Secret,Content-Length"); HttpHeaders.Add (bs "Content-Length") (bs "03");
    HttpHeaders.Add (bs "X-Secret") (bs "1"); HttpHeaders.Add (bs "X-Forwarded-For") (bs "10.0.0.9")]
    (new_headers ServerSide)).2.

Definition sample_request : HttpRequest :=
  let h := new_request_header ServerSide 0 0 0 in
  set_body (bs "abc") 3 3 HttpChunk.new_parser
    (new_request (set_pairs sample_pairs (set_request POST HttpVersion_1_1 (bs "/api/users") ∅ false h))).

Definition sample_upstream : upstream := mkUpstream (bs "/api") (bs "backend") 8080 Http.

Lemma sample_forwardable : forwardable (bs "10.0.0.7") sample_upstream sample_request sample_fields.
Proof.
  split.
  - by right.
  - split; [done|apply (bool_decide_unpack _); by vm_compute| |apply (bool_decide_unpack _); by vm_compute].
    by constructor.
  - split; [|by vm_compute]. cbn [m_headerPairs m_header sample_request]. unfold sample_request, sample_pairs.
    unfold sample_fields. set (ops := [HttpHeaders.Add _ _; _; _; _; _]).
    destruct (run_ops_spec ops (new_headers ServerSide) ∅ (new_headers_represents ServerSide)) as [_ Hs]; [by repeat constructor|].
    exact Hs.
  - intros k v Hi. unfold sample_fields in Hi.
    repeat (apply lookup_insert_Some in Hi as [[<- <-]|[_ Hi]];
      [split; [split; [done|split; [done|apply (bool_decide_unpack _); by vm_compute]]|by split; [apply (bool_decide_unpack _); vm_compute|] |done|by vm_compute; eauto]|]).
    done.
  - intros text Hi. apply (f_equal (default [])) in Hi. vm_compute in Hi. subst text. by vm_compute.
  - done.
  - split_and!; [apply (bool_decide_unpack _); by vm_compute|done..].
  - apply (bool_decide_unpack _). by vm_compute.
Qed.

Lemma proxied_request_exact_witness :
  let h0 := new_request_header ServerSide 0 0 0 in
  let octets := sendRequest (forwarded (bs "10.0.0.7") sample_upstream sample_request) in
  forwardable (bs "10.0.0.7") sample_upstream sample_request sample_fields /\ blank 0 0 0 h0 /\
  exists h', read_request 0 h0 (octets ++ bs "GET") = Accepted h' (m_body sample_request) (blen octets) /\
  m_method h' = m_method (m_header sample_request) /\ m_version h' = m_version (m_header sample_request) /\
  m_uri h' = rewriteProxyUri (routePrefix sample_upstream) (m_uri (m_header sample_request)) /\
  m_argList h' = m_argList (m_header sample_request) /\
  forall key, getValuePtr key (m_headerPairs h') =
    sent_field (bs "10.0.0.7") sample_upstream sample_request sample_fields (toLowerAscii key).
Proof.
  split; [exact sample_forwardable|]. split; [apply new_header_blank|].
  exact (proxied_request_exact (bs "10.0.0.7") sample_upstream sample_request sample_fields
    (new_request_header ServerSide 0 0 0) (bs "GET") sample_forwardable (new_header_blank 0 0 0)).
Defined.

(** The sample on the wire: the length named in [Connection] goes and comes back as the length of the body. *)
Example sample_on_the_wire :
  sendRequest (forwarded (bs "10.0.0.7") sample_upstream sample_request) =
  concat (map (fun line => line ++ crlf)
    [bs "POST /users HTTP/1.1"; bs "host: backend:8080"; bs "content-length: 3"; bs "connection: keep-alive";
     bs "x-forwarded-for: 10.0.0.9, 10.0.0.7"; bs "x-forwarded-host: site"; bs "x-forwarded-proto: http";
     bs "x-real-ip: 10.0.0.7"; []]) ++ bs "abc".
Proof. by vm_compute. Qed.

(** The path of a parsed target has no arguments, so [stream=true] among them does not make a request a
    streaming one; in the path it does. *)
Definition streaming (target : bytes) : option bool :=
  match parse_chars false (bs "GET " ++ target ++ bs " HTTP/1.1" ++ crlf ++ crlf) 0 (new_request_header ServerSide 0 0 0) with
  | Finished h _ => Some (isLikelyStreamingRequest (m_uri h) (m_headerPairs h))
  | _ => None
  end.

Example stream_argument_not_seen :
  streaming (bs "/events?stream=true") = Some false /\ streaming (bs "/events/stream=true") = Some true /\
  streaming (bs "/downstream") = Some false /\ streaming (bs "/streamline") = Some true.
Proof. by vm_compute. Qed.

(** ** The exchange with the upstream *)

Definition kProxyMaxIdleConnectionsPerUpstream : nat := 32.

(** What the handler awaits or starts; [BadGateway] and [Forward] are its two answers downstream. *)
Inductive action : Type :=
| Connect | Session | Send | Recv | Socket | Relay | Close | BadGateway | Forward.

Definition is_answer (a : action) : bool := match a with BadGateway | Forward => true | _ => false end.
Definition is_send (a : action) : bool := match a with Send => true | _ => false end.
Definition is_close (a : action) : bool := match a with Close => true | _ => false end.
Definition count (p : action -> bool) (t : list action) : nat := length (List.filter p t).

Section Exchange.

(** Whether the last action of a history succeeds, and whether the response that was received keeps the
    upstream's connection. A request that is sent or a response that is received takes as many calls of the
    writer or the reader as it needs. *)
Variable succeeds : list action -> bool.
Variable keeps : list action -> bool.

(** The loop [while (!request_ok)]: the history and whether a response is there. *)
Fixpoint attempts (fuel : nat) (borrowed_from_pool retried : bool) (t : list action) : option (list action * bool) :=
  match fuel with
  | O => None
  | S fuel' =>
      let failed t :=
        let t := t ++ [Close] in
        if borrowed_from_pool && negb retried then
          let t := t ++ [Connect] in
          if succeeds t then attempts fuel' false true t else Some (t ++ [BadGateway], false)
        else Some (t ++ [BadGateway], false) in
      let t := t ++ [Session] in
      if negb (succeeds t) then Some (t ++ [Close; BadGateway], false)
      else
        let t := t ++ [Send] in
        if negb (succeeds t) then failed t
        else
          let t := t ++ [Recv] in
          if negb (succeeds t) then failed t else Some (t, true)
  end.

(** [Http] mode with [pool] idle connections to the upstream: the history and the pool. *)
Definition http_exchange (pool : nat) : option (list action * nat) :=
  let borrowed_from_pool := bool_decide (pool <> 0)%nat in
  let pool := if borrowed_from_pool then (pool - 1)%nat else pool in
  let t := if borrowed_from_pool then [] else [Connect] in
  if negb borrowed_from_pool && negb (succeeds t) then Some (t ++ [BadGateway], pool)
  else
    r ← attempts 2 borrowed_from_pool false t;
    if negb r.2 then Some (r.1, pool)
    else
      let t := r.1 ++ [Forward] in
      let keep_upstream := succeeds t && keeps t in
      if keep_upstream then
        if decide (pool < kProxyMaxIdleConnectionsPerUpstream)%nat then Some (t, S pool) else Some (t ++ [Close], pool)
      else Some (t ++ [Close], pool).

Definition raw_exchange : list action :=
  let t := [Connect] in
  if negb (succeeds t) then t ++ [BadGateway]
  else
    let t := t ++ [Session] in
    if negb (succeeds t) then t ++ [Close; BadGateway]
    else
      let t := t ++ [Send] in
      if negb (succeeds t) then t ++ [Close; BadGateway]
      else
        let t := t ++ [Socket] in
        if negb (succeeds t) then t ++ [Close; BadGateway] else t ++ [Relay; Close].

(** The connections a history opened, given the history before it. *)
Fixpoint opened (before t : list action) : nat :=
  match t with
  | [] => 0
  | a :: t' =>
      match a with Connect => if succeeds (before ++ [a]) then 1 else 0 | _ => 0 end + opened (before ++ [a]) t'
  end.

End Exchange.

Lemma raw_exchange_closed succeeds :
  opened succeeds [] (raw_exchange succeeds) = count is_close (raw_exchange succeeds) /\
  (count is_answer (raw_exchange succeeds) <= 1)%nat.
Proof.
  unfold raw_exchange. repeat (cbn; match goal with |- context [succeeds ?t] => destruct (succeeds t) eqn:? end);
    unfold count; cbn; repeat match goal with H : succeeds _ = _ |- _ => rewrite ?H; clear H end; split; lia.
Qed.

(** However connecting, sending and receiving turn out, an exchange ends; the client is answered once,
    by the upstream's response or by 502; the request is sent at most twice, and twice only if it first
    went out on a pooled connection; every connection taken from the pool or opened is given back to the
    pool or closed; and the pool stays within its limit. *)
Theorem proxy_exchange_conserves succeeds keeps pool (Hpool : (pool <= kProxyMaxIdleConnectionsPerUpstream)%nat) :
  exists t pool', http_exchange succeeds keeps pool = Some (t, pool') /\
  count is_answer t = 1%nat /\
  (count is_send t <= 2)%nat /\ (count is_send t = 2%nat -> (0 < pool)%nat) /\
  (pool + opened succeeds [] t = pool' + count is_close t)%nat /\
  (pool' <= kProxyMaxIdleConnectionsPerUpstream)%nat.
Proof.
  unfold http_exchange. case_bool_decide as Hp; cbn [negb andb];
    repeat (cbn; match goal with |- context [succeeds ?t] => destruct (succeeds t) eqn:? end);
    cbn; repeat case_match; eexists _, _; (split; [reflexivity|]); unfold count; cbn;
    repeat match goal with H : succeeds _ = _ |- _ => rewrite ?H; clear H end; unfold kProxyMaxIdleConnectionsPerUpstream in *; lia.
Qed.

(** Every await succeeds but the first [Recv], on a connection from the pool. *)
Definition stale (t : list action) : bool := negb (bool_decide (length t = 3%nat)).

Lemma proxy_exchange_conserves_witness :
  (1 <= kProxyMaxIdleConnectionsPerUpstream)%nat /\
  exists t pool', http_exchange stale (fun _ => true) 1 = Some (t, pool') /\
  count is_answer t = 1%nat /\
  (count is_send t <= 2)%nat /\ (count is_send t = 2%nat -> (0 < 1)%nat) /\
  (1 + opened stale [] t = pool' + count is_close t)%nat /\
  (pool' <= kProxyMaxIdleConnectionsPerUpstream)%nat.
Proof.
  assert (1 <= kProxyMaxIdleConnectionsPerUpstream)%nat as Hp by (unfold kProxyMaxIdleConnectionsPerUpstream; lia).
  split; [exact Hp|]. exact (proxy_exchange_conserves stale (fun _ => true) 1 Hp).
Defined.

(** A request that was sent in full is sent again when no response comes, whatever its method. *)
Example request_sent_twice :
  http_exchange stale (fun _ => true) 1 =
  Some ([Session; Send; Recv; Close; Connect; Session; Send; Recv; Forward], 1%nat).
Proof. by vm_compute. Qed.
