(* ===== verification/HttpServer.v ===== *)
(** * HTTP/1: the session of a connection

    The connection handler of route mode, [HttpServerImpl::start(HttpRouter&&)] of
    [galay-http/server/http_server.h]: requests read one after another from the ring, looked up in the
    router, answered, until one of them or an error ends the connection; [HttpError::toHttpStatusCode] of
    [protoc/http_error.cc]. What a handler does with the connection is its own; the model assumes that it
    leaves the receive ring alone. *)

From Stdlib Require Import ZArith Lia.
From stdpp Require Import base list gmap strings.
From S2P Require Import Prelude RingBuffer HttpBase HttpReader HttpHeaders HttpUri HttpRequestHeader HttpRequest HttpRouteParams HttpRouter HttpProxy.

Open Scope Z_scope.

Definition toHttpStatusCode (code : HttpErrorCode) : Z :=
  match code with
  | kNoError => 200
  | kConnectionClose => 500
  | kTcpRecvError | kTcpSendError => 500
  | kRequestTimeOut | kRecvTimeOut | kSendTimeOut => 408
  | kContentLengthNotContained => 411
  | kContentLengthConvertError | kBodyLengthNotMatch => 400
  | kHeaderInComplete | kBadRequest | kUrlInvalid | kUriEncodeError | kInvalidChunkFormat | kInvalidChunkLength
  | kChunkHasError => 400
  | kBodyInComplete => 400
  | kHeaderTooLong | kHeaderTooLarge => 431
  | kUriTooLong => 414
  | kHttpCodeInvalid => 400
  | kHeaderPairExist | kHeaderPairNotExist => 400
  | kPortInvalid => 400
  | kMethodNotAllow => 405
  | kVersionNotSupport => 505
  | kRequestEntityTooLarge => 413
  | kContentTypeInvalid => 415
  | kNotFound => 404
  | kUnknownError => 500
  | kNotImplemented => 501
  | kUpgradeFailed => 426
  | _ => 500
  end.

Section Session.

Context {B Handler : Type} `{ByteRing B} `{Inhabited Handler}.
Implicit Types (events : list read_event) (ring : B).

(** What the session does with the connection, in order: a handler called with a request and its route
    parameters; the status and body that answer a request without a route; the status that answers one that
    could not be read. *)
Inductive reply : Type :=
| Handled (h : Handler) (req : HttpRequest) (params : RouteParams)
| NotRouted (req : HttpRequest) (status : Z) (body : bytes)
| Refused (status : Z).

(** How it stops: the connection is closed, or the session still waits for the peer. *)
Inductive ending : Type := Closed | Reading.

Variable (setting : HttpReaderSetting).
(** Whether the text of a failed read contains "Connection disconnected". *)
Variable (says_disconnected : bool).

Definition is_disconnect_like (e : HttpErrorCode) : bool :=
  if bool_decide (e = kConnectionClose) then true
  else if bool_decide (e = kRecvError) || bool_decide (e = kTcpRecvError) then says_disconnected else false.

Definition is_timeout_like (e : HttpErrorCode) : bool := bool_decide (e ∈ [kRecvTimeOut; kSendTimeOut; kRequestTimeOut]).

(** The branch [if (!read_result)]. *)
Definition read_error (e : HttpErrorCode) (handled_requests : Z) : list reply :=
  let waiting_for_initial_request := handled_requests =? 0 in
  let should_send_timeout_response := is_timeout_like e && waiting_for_initial_request in
  if negb (is_disconnect_like e) && negb (is_timeout_like e) then [Refused (toHttpStatusCode e)]
  else if should_send_timeout_response then [Refused (toHttpStatusCode e)]
  else [].

(** A request that was read: its reply, and whether the connection is kept. *)
Definition route (router : HttpRouter Handler) (req : HttpRequest) : option (reply * bool) :=
  let h := m_header req in
  let keep_alive := isKeepAlive h && negb (isConnectionClose h) in
  found ← findHandler (m_method h) (m_uri h) router;
  match match_handler found with
  | Some handler => Some (Handled handler req (match_params found), keep_alive)
  | None =>
      match fallbackProxyHandler router with
      | Some handler => Some (Handled handler req (match_params found), keep_alive)
      | None => Some (NotRouted req 200 (bs "404 Not Found"), keep_alive)
      end
  end.

(** The loop [while (keep_alive)]; every round has a request and a reader of its own and the ring of the
    connection. [None] is fuel exhausted; a round for every octet and one more are enough. *)
Fixpoint session_loop (fuel : nat) (router : HttpRouter Handler) (events : list read_event) (ring : B)
    (handled_requests : Z) : option (list reply * ending) :=
  match fuel with
  | O => None
  | S fuel' =>
      let request := new_request (new_request_header ServerSide 0 0 0) in
      outcome ← read_machine (request_reader setting) events (mkRequestRead ring request 0 None);
      match outcome with
      | Waiting _ => Some ([], Reading)
      | Completed (inl e) _ _ => Some (read_error e handled_requests, Closed)
      | Completed (inr _) st later =>
          replied ← route router (rq_request st);
          if (replied.2 : bool) then
            rest ← session_loop fuel' router later (rq_ring st) (wrap64 (handled_requests + 1));
            Some (replied.1 :: rest.1, rest.2)
          else Some ([replied.1], Closed)
      end
  end.

End Session.
Arguments reply Handler : clear implicits.

(** ** What a session does *)

Section Served.

Context {B Handler : Type} `{ByteRingLaws B} `{Inhabited Handler}.
Implicit Types (events : list read_event) (ring : B) (router : HttpRouter Handler) (a : routes (Handler := Handler)).

Variable (setting : HttpReaderSetting).
Variable (says_disconnected : bool).
Hypothesis Hmax : 0 <= m_max_body_size setting < 2 ^ 64.

#[local] Abbreviation session := (session_loop setting says_disconnected).
#[local] Abbreviation fits ring := (Forall (fun e => match e with Received data => blen data <= rb_capacity ring | _ => True end)).

(** The reply the table and the fallback [fb] give to a request. *)
Definition routed a (fb : option Handler) (req : HttpRequest) (answer : reply Handler) : Prop :=
  let found := routes_find (m_method (m_header req)) (m_uri (m_header req)) a in
  match found.1, fb with
  | Some h, _ | None, Some h => exists params, answer = Handled h req params /\ all_entries params = found.2
  | None, None => answer = NotRouted req 200 (bs "404 Not Found")
  end.

Definition keeps_alive (req : HttpRequest) : bool := isKeepAlive (m_header req) && negb (isConnectionClose (m_header req)).

Lemma route_represents router a req : represents router a ->
  exists answer, route router req = Some (answer, keeps_alive req) /\ routed a (fallbackProxyHandler router) req answer.
Proof.
  intros Hr. destruct (findHandler_represents (m_method (m_header req)) (m_uri (m_header req)) router a Hr) as (res & Hf & Hh & Hp).
  unfold route, routed. cbv zeta. rewrite Hf. cbn [mbind option_bind]. rewrite <- Hh.
  destruct (match_handler res); [by eexists; split; [|eauto]|].
  destruct (fallbackProxyHandler router); by eexists; split; [|eauto].
Qed.

Definition sample_h0 : HttpRequestHeader :=
  new_request_header ServerSide (m_max_header_count setting) (m_max_header_line_size setting) (m_max_uri_size setting).

(** One round of the loop on any answers of the socket: it ends or stops with the reader, or it takes a
    request and at least one octet. *)
Lemma session_round events ring : rb_ok ring -> fits ring events ->
  exists outcome, read_machine (request_reader setting) events
    (mkRequestRead ring (new_request (new_request_header ServerSide 0 0 0)) 0 None) = Some outcome /\
  match outcome with
  | Completed (inr _) st later =>
      rb_ok (rq_ring st) /\ rb_capacity (rq_ring st) = rb_capacity ring /\ fits ring later /\
      blen (rb_view (rq_ring st)) + blen (octets later) < blen (rb_view ring) + blen (octets events)
  | _ => True
  end.
Proof.
  intros Hok Hfit. pose proof (new_request_starts setting 0 0 0) as Hs. fold sample_h0 in Hs.
  pose proof (blank_facts _ _ _ _ (proj2 Hs)) as (Hopen & Hserver & Hlim).
  destruct (reader_outcome setting sample_h0 (rb_capacity ring) Hmax Hopen Hserver Hlim events (rb_view ring)
    (mkRequestRead ring (new_request (new_request_header ServerSide 0 0 0)) 0 None)) as (front & later & out & He & Hrun & Hout);
    [by apply starts_got|done|]. exists out. split; [done|].
  destruct out as [[e|ok] st l|st]; [done| |done]. destruct Hout as (-> & Hres & Hcases).
  destruct Hcases as [(h & body & n & Ha & Hn & _ & _ & Hok' & Hcap' & Hv)|[[He' _]|[He' _]]];
    [|by unfold takeResult in Hres; destruct (m_http_error st)..].
  rewrite He in Hfit. apply Forall_app in Hfit as [_ Hfit]. split_and!; [done..|].
  destruct (accepted_framing _ _ _ _ _ _ (proj1 Hmax) Hopen Ha) as (hd & k & Hp & Hk & _).
  pose proof (finished_range _ _ _ _ _ Hopen Hp) as Hpos.
  rewrite Hv, He. unfold octets in *. rewrite map_app, concat_app, !blen_app in *. rewrite blen_drop, blen_app by (rewrite ?blen_app; lia). lia.
Qed.

(** The shape of what a session did: requests that are routed, all but the last of them kept alive, and at
    the end perhaps one that could not be read. *)
Inductive session_shape a (fb : option Handler) : list (reply Handler) -> ending -> Prop :=
| shape_waits : session_shape a fb [] Reading
| shape_silent : session_shape a fb [] Closed
| shape_refused e : session_shape a fb [Refused (toHttpStatusCode e)] Closed
| shape_last req answer : routed a fb req answer -> keeps_alive req = false -> session_shape a fb [answer] Closed
| shape_next req answer rest stop : routed a fb req answer -> keeps_alive req = true ->
    session_shape a fb rest stop -> session_shape a fb (answer :: rest) stop.

Lemma read_error_shape a fb e n : session_shape a fb (read_error says_disconnected e n) Closed.
Proof. unfold read_error. repeat case_match; constructor. Qed.

Lemma session_shaped fuel router a events ring handled : represents router a -> rb_ok ring -> fits ring events ->
  (Z.to_nat (blen (rb_view ring) + blen (octets events)) < fuel)%nat ->
  exists replies stop, session fuel router events ring handled = Some (replies, stop) /\
    session_shape a (fallbackProxyHandler router) replies stop.
Proof.
  intros Hr. revert events ring handled. induction fuel as [|fuel IH]; intros events ring handled Hok Hfit Hf; [lia|].
  cbn [session_loop]. destruct (session_round events ring Hok Hfit) as (out & -> & Hout). cbn [mbind option_bind].
  destruct out as [[e|ok] st later|st].
  - do 2 eexists. split; [done|]. apply read_error_shape.
  - destruct Hout as (Hok' & Hcap' & Hfit' & Hless).
    destruct (route_represents router a (rq_request st) Hr) as (answer & -> & Hans). cbn [mbind option_bind fst snd].
    destruct (keeps_alive (rq_request st)) eqn:Hk; [|by do 2 eexists; split; [|eapply shape_last]].
    destruct (IH later (rq_ring st) (wrap64 (handled + 1)) Hok') as (rest & stop & -> & Hshape); [by rewrite Hcap'| |].
    { pose proof (blen_nonneg (rb_view (rq_ring st))). pose proof (blen_nonneg (octets later)). lia. }
    cbn [mbind option_bind fst snd]. do 2 eexists. split; [done|]. by eapply shape_next.
  - do 2 eexists. split; [done|]. constructor.
Qed.

(** A message as the session gets and answers it. *)
Definition served a (fb : option Handler) (m : message) (answer : reply Handler) : Prop :=
  exists req, received m req /\ routed a fb req answer.

Definition message_keeps (m : message) : bool := isKeepAlive (sent_header m) && negb (isConnectionClose (sent_header m)).

Lemma received_keeps m req : received m req -> keeps_alive req = message_keeps m.
Proof.
  intros (_ & _ & Hv & _ & _ & _ & _ & Hall). unfold keeps_alive, message_keeps, isKeepAlive, isConnectionClose.
  by rewrite (Hall (bs "connection")), Hv by done.
Qed.

Lemma session_messages ms last fuel router a events ring handled chunks rest : represents router a ->
  Forall (message_ok setting) (ms ++ [last]) -> Forall (fun m => message_keeps m = true) ms -> message_keeps last = false ->
  rb_ok ring -> 0 < rb_capacity ring -> events = map Received chunks ->
  Forall (fun c => c <> [] /\ blen c <= rb_capacity ring) chunks ->
  rb_view ring ++ concat chunks = concat (map wire (ms ++ [last])) ++ rest -> (length ms < fuel)%nat ->
  exists replies, session fuel router events ring handled = Some (replies, Closed) /\
    Forall2 (served a (fallbackProxyHandler router)) (ms ++ [last]) replies.
Proof.
  intros Hr Hms Hkeep Hlast Hok Hcap -> Hc He Hf. revert fuel ring handled chunks Hok Hcap Hc He Hf.
  induction ms as [|m ms IH]; intros [|fuel] ring handled chunks Hok Hcap Hc He Hf; try lia;
    cbn [app map concat] in He; rewrite <- app_assoc in He; apply Forall_cons in Hms as [Hm Hms];
    destruct (message_read setting Hmax _ _ _ _ _ _ (new_request_starts setting 0 0 0) Hm Hok Hcap Hc He)
      as (front & back & st & -> & Hrun & Hrec & _ & Hok' & Hcap' & Hv);
    destruct (route_represents router a (rq_request st) Hr) as (answer & Hroute & Hans);
    cbn [session_loop]; rewrite Hrun; cbn [mbind option_bind]; rewrite Hroute; cbn [mbind option_bind fst snd];
    rewrite (received_keeps _ _ Hrec).
  - rewrite Hlast. eexists. split; [done|]. constructor; [by eexists|constructor].
  - apply Forall_cons in Hkeep as [-> Hkeep]. apply Forall_app in Hc as [_ Hc]. rewrite <- Hcap' in Hc, Hcap.
    destruct (IH Hms Hkeep fuel (rq_ring st) (wrap64 (handled + 1)) back Hok' Hcap Hc Hv) as (replies & -> & Hall); [cbn in Hf; lia|].
    cbn [mbind option_bind fst snd]. eexists. split; [done|]. constructor; [by eexists|done].
Qed.

End Served.

(** ** Properties *)

(** A router with a fallback; the routes are the same. *)
Definition with_fallback {Handler} (fb : option Handler) (r : HttpRouter Handler) : HttpRouter Handler :=
  mkRouter (m_exactRoutes r) (m_fuzzyRoutes r) fb (m_routeCount r).

Lemma represents_fallback {Handler} `{Inhabited Handler} fb (r : HttpRouter Handler) a :
  represents r a -> represents (with_fallback fb r) a.
Proof. by intros [? ? ? ?]; split. Qed.

(** The answer a request is due, if none of its segments is the literal [:param], [*] or [**]: by the handler
    of its route, or by the fallback, with the parameters of the route where routes that end in [**] have
    none; by the session itself, and no handler, if there is neither. *)
Definition due {Handler} (a : routes (Handler := Handler)) (fb : option Handler) (req : HttpRequest)
    (answer : reply Handler) : Prop :=
  let found := routes_find (m_method (m_header req)) (m_uri (m_header req)) a in
  plain_request (segments_of (m_uri (m_header req))) ->
  match found.1, fb with
  | Some h, _ | None, Some h =>
      exists params, answer = Handled h req params /\ (greedy_unnamed a -> all_entries params = found.2)
  | None, None => exists status body, answer = NotRouted req status body
  end.

Lemma routed_due {Handler} (a : routes (Handler := Handler)) fb req answer : routed a fb req answer -> due a fb req answer.
Proof.
  unfold routed, due. cbv zeta. intros Hr _. destruct (routes_find _ _ a) as [[h|] b], fb as [h'|]; cbn in *;
    try (destruct Hr as (params & -> & Hp); by exists params). by rewrite Hr; do 2 eexists.
Qed.

(** C3: From the client's request objects to the server's handlers. Requests written with [toString] and
    chunks, sent one behind the other and cut by the network and the ring in any way, reach a server whose
    router was filled by any calls; all but the last keep the connection. Each is answered once, in order:
    by the handler the table of routes gives to its method and path, with the parameters of the route, or
    else by the fallback, or else by the session without a handler; the connection is closed behind the last,
    and what follows it is not read as a request. Which handler answers is not said of requests that spell
    a key of the trie, nor what is bound when a route that ends in [**] has parameters. *)
Theorem session_serves_pipeline {B Handler} `{ByteRingLaws B} `{Inhabited Handler} setting says_disconnected
    (ops : list (op (Handler := Handler))) fb r ms last (ring : B) chunks rest
    (Hmax : 0 <= m_max_body_size setting < 2 ^ 64) (Hrun : run ops new_router = Some r)
    (Hms : Forall (message_ok setting) (ms ++ [last])) (Hkeep : Forall (fun m => message_keeps m = true) ms)
    (Hlast : message_keeps last = false) (Hok : rb_ok ring) (Hcap : 0 < rb_capacity ring)
    (Hchunks : Forall (fun c => c <> [] /\ blen c <= rb_capacity ring) chunks)
    (Hwire : rb_view ring ++ concat chunks = concat (map wire (ms ++ [last])) ++ rest) :
  exists replies,
    session_loop setting says_disconnected (S (length ms)) (with_fallback fb r) (map Received chunks) ring 0 =
      Some (replies, Closed) /\
    Forall2 (fun m answer => exists req, received m req /\ due (table ops) fb req answer) (ms ++ [last]) replies.
Proof.
  destruct (run_represents ops) as (r' & Hr' & Hrep). rewrite Hrun in Hr'. injection Hr' as <-.
  destruct (session_messages setting says_disconnected Hmax ms last (S (length ms)) (with_fallback fb r) (table ops)
    (map Received chunks) ring 0 chunks rest) as (replies & Hs & Hall); eauto using represents_fallback.
  exists replies. split; [done|]. eapply Forall2_impl; [exact Hall|]. intros m answer (req & Hrec & Hans).
  exists req. split; [done|]. by apply routed_due.
Qed.

(** Whatever the peer sends and whatever the reads answer, a session ends within a round for every octet
    and one more: it has routed every request it accepted by the table, each kept alive but for the last of
    a closed connection, sent at most one error response, after all others, and stopped at the first error,
    the first request that does not keep the connection, or waiting for the peer. *)
Theorem session_always_ends {B Handler} `{ByteRingLaws B} `{Inhabited Handler} setting says_disconnected
    (ops : list (op (Handler := Handler))) fb r (ring : B) events
    (Hmax : 0 <= m_max_body_size setting < 2 ^ 64) (Hrun : run ops new_router = Some r) (Hok : rb_ok ring)
    (Hfit : Forall (fun e => match e with Received data => blen data <= rb_capacity ring | _ => True end) events) :
  exists replies stop,
    session_loop setting says_disconnected (S (Z.to_nat (blen (rb_view ring) + blen (octets events))))
      (with_fallback fb r) events ring 0 = Some (replies, stop) /\
    session_shape (table ops) fb replies stop.
Proof.
  destruct (run_represents ops) as (r' & Hr' & Hrep). rewrite Hrun in Hr'. injection Hr' as <-.
  eapply (session_shaped setting says_disconnected Hmax _ (with_fallback fb r) (table ops)); eauto using represents_fallback.
Qed.

(** ** Witnesses and examples *)

#[local] Instance Z_inhabited : Inhabited Z := populate 0.

Definition closing_header : HttpRequestHeader :=
  set_request POST HttpVersion_1_0 (m_uri sample_header) (m_argList sample_header) false sample_header.
Definition closing_message : message := (mkRequest (bs "abc") closing_header 0 0 HttpChunk.new_parser false, []).

Lemma closing_message_ok : message_ok sample_setting closing_message.
Proof.
  assert (sent_header closing_message = closing_header) as E by (apply sent_header_framed; right; by vm_compute).
  assert (sent_chunked closing_message = false) as Ec by (unfold sent_chunked; rewrite E; by vm_compute).
  split; [| | |unfold sent_body]; rewrite ?Ec, ?E; clear E Ec.
  - destruct sample_header_ok as [_ H2 H3 H4 H5 H6]. split; [by left|done..].
  - by vm_compute.
  - split; [by vm_compute|]. exists (bs "3"). split; by vm_compute.
  - by vm_compute.
Qed.

Definition pipeline_octets : bytes := wire chunked_message ++ wire closing_message ++ bs "GET".
Definition pipeline_reads : list bytes :=
  [take 50 pipeline_octets; take 60 (drop 50 pipeline_octets); drop 110 pipeline_octets].

Definition served_ops : list (op (Handler := Z)) := [Add [GET; POST] (bs "/u") 1; Add [POST] (bs "/:any") 2].
Definition served_router : HttpRouter Z := default new_router (run served_ops new_router).

Lemma served_run : run served_ops new_router = Some served_router.
Proof.
  unfold served_router. destruct (run_represents served_ops) as (r & Hr & _). by rewrite Hr.
Qed.

Lemma session_serves_pipeline_witness :
  run served_ops new_router = Some served_router /\
  exists replies,
    session_loop sample_setting false 2 (with_fallback None served_router) (map Received pipeline_reads)
      (new_vector 64) 0 = Some (replies, Closed) /\
    Forall2 (fun m answer => exists req, received m req /\ due (table served_ops) None req answer)
      [chunked_message; closing_message] replies.
Proof.
  split; [exact served_run|].
  apply (session_serves_pipeline sample_setting false served_ops None served_router [chunked_message] closing_message
    (new_vector 64) pipeline_reads (bs "GET")).
  - done.
  - exact served_run.
  - constructor; [exact chunked_message_ok|]. constructor; [exact closing_message_ok|done].
  - constructor; [by vm_compute|constructor].
  - by vm_compute.
  - by vm_compute.
  - by vm_compute.
  - apply (bool_decide_unpack _). by vm_compute.
  - by vm_compute.
Defined.

Definition noise : list read_event := [Received (bs "GET / HTTP/1.1"); Received [CR; LF; CR; LF; Byte.x00]; TimedOut].

Lemma session_always_ends_witness :
  run served_ops new_router = Some served_router /\
  exists replies stop,
    session_loop sample_setting false (S (Z.to_nat (blen (rb_view (new_vector 64)) + blen (octets noise))))
      (with_fallback (Some 9) served_router) noise (new_vector 64) 0 = Some (replies, stop) /\
    session_shape (table served_ops) (Some 9) replies stop.
Proof.
  split; [exact served_run|].
  apply (session_always_ends sample_setting false served_ops (Some 9) served_router (new_vector 64) noise).
  - done.
  - exact served_run.
  - by vm_compute.
  - repeat (apply Forall_cons; split; [by vm_compute|]). constructor.
Defined.

(** What a session on [octets], received at once, sends: 0 with the handler, or a status. *)
Definition statuses (octets : bytes) (events : list read_event) : option (list (Z * option Z)) :=
  r ← session_loop sample_setting false 9 served_router (Received octets :: events) (new_vector 256) 0;
  Some (map (fun a => match a with
                      | Handled h _ _ => (0, Some h)
                      | NotRouted _ status _ => (status, None)
                      | Refused status => (status, None)
                      end) r.1).

(** A request without a route is answered with status 200; the documentation of [start] says 404. *)
Example unrouted_request_answered_200 :
  statuses (bs "GET /nowhere HTTP/1.1" ++ crlf ++ crlf) [] = Some [(200, None)].
Proof. by vm_compute. Qed.

(** A bad request is refused behind a good one; a timeout is answered before the first request only. *)
Example refusals :
  statuses (bs "GET /u HTTP/1.1" ++ crlf ++ crlf ++ bs "GET / HTTP/7.1" ++ crlf ++ crlf) [] =
    Some [(0, Some 1); (505, None)] /\
  statuses (bs "GET /u HT") [TimedOut] = Some [(408, None)] /\
  statuses (bs "GET /u HTTP/1.1" ++ crlf ++ crlf) [TimedOut] = Some [(0, Some 1)].
Proof. by vm_compute. Qed.
