(* ===== verification/Timeout.v ===== *)
(** * Waiting with a timeout

    [galay-kernel/core/timeout.hpp]: the wake-up gate [DeferredWaker], the arbitration of
    [TimeoutTimer] between an operation and its timeout, and the awaiting coroutine of [WithTimeout].
    Every load, compare-exchange and fetch-or of the code is one step of [Interleave]; they are
    sequentially consistent in [TimeoutTimer], and there is a single cell in [DeferredWaker]. The
    callers are those of the bounded channels: an operation that begins, then commits and asks for the
    wake-up of the coroutine, or aborts. *)

From Stdlib Require Import ZArith Lia.
From stdpp Require Import base list relations.
From S2P Require Import Prelude Interleave.
Open Scope nat_scope.

Module DeferredWaker.
Inductive State : Type := kArming | kArmed | kPending | kIssued.
#[global] Instance State_eq_dec : EqDecision State.
Proof. solve_decision. Defined.
End DeferredWaker.

Module TimeoutTimer.
Inductive Completion : Type :=
| kPending | kOperationInFlight | kTimeoutRequested | kOperationWon | kTimeoutWon.
#[global] Instance Completion_eq_dec : EqDecision Completion.
Proof. solve_decision. Defined.
End TimeoutTimer.

(** [TimerFlag] of [galay-kernel/common/timer.hpp]. *)
Definition kDone : Z := 1.
Definition kCancel : Z := 2.
Definition kTimeout : Z := 4.

(** ** Programs

    The local state of each function between two accesses to the shared cells. *)

(** [DeferredWaker::requestWake] *)
Inductive request_pc : Type :=
| RqLoad
| RqTry (state : DeferredWaker.State)
| RqCas (waker : bool)
| RqWakeUp (waker : bool)
| RqReturn (issued : bool).

(** [TimeoutTimer::completeTimeout] *)
Inductive timeout_pc : Type :=
| CtLoad
| CtTry (state : TimeoutTimer.Completion)
| CtSetTimeout
| CtHandle (timeoutWon : bool)
| CtReturn (timeoutWon : bool).

(** [TimeoutTimer::cancel] *)
Inductive cancel_pc : Type := CaTry | CaFlag | CaReturn.

(** [WithTimeout::await_suspend], the suspension, and [await_resume] *)
Inductive resumption : Type := NotSuspended | SyncContinue | Woken.

Inductive await_pc : Type :=
| AwStart
| AwNoScheduler (p : timeout_pc)
| AwInner
| AwNotSuspended (p : cancel_pc)
| AwAddTimer
| AwTimeoutNow (p : timeout_pc)
| AwTimeoutWake (p : request_pc)
| AwArm (added : bool)
| AwArmIssued
| AwSuspended (added : bool)
| AwResume (how : resumption)
| AwClear (how : resumption) (timedOut : bool)
| AwCancel (how : resumption) (p : cancel_pc)
| AwFinished (how : resumption) (timedOut : bool).

(** The threads that complete the wait: an operation, or the expiry of the timer. *)
Inductive worker_pc : Type :=
| OpIdle
| OpBeginLoad
| OpBeginTry (state : TimeoutTimer.Completion)
| OpStarted
| OpCommitLoad
| OpCommitTry (state : TimeoutTimer.Completion)
| OpCommitCancel
| OpCommitFailed
| OpAbortLoad
| OpAbortTry (state : TimeoutTimer.Completion)
| OpAbortFlag
| OpWake (p : request_pc)
| TimerWaiting
| TimerFire (p : timeout_pc)
| TimerWake (p : request_pc)
| TimerFired.

Record timer_state : Type := mkTimer {
  m_waker : bool;
  m_state : DeferredWaker.State;
  m_completion : TimeoutTimer.Completion;
  m_flag : Z;
  wakeups : nat;
  awaiter : await_pc
}.

Definition set_state (w : DeferredWaker.State) (s : timer_state) : timer_state :=
  mkTimer (m_waker s) w (m_completion s) (m_flag s) (wakeups s) (awaiter s).
Definition set_completion (c : TimeoutTimer.Completion) (s : timer_state) : timer_state :=
  mkTimer (m_waker s) (m_state s) c (m_flag s) (wakeups s) (awaiter s).
Definition fetch_or (flag : Z) (s : timer_state) : timer_state :=
  mkTimer (m_waker s) (m_state s) (m_completion s) (Z.lor (m_flag s) flag) (wakeups s) (awaiter s).
Definition wakeUp (waker : bool) (s : timer_state) : timer_state :=
  mkTimer (m_waker s) (m_state s) (m_completion s) (m_flag s)
    (if waker then S (wakeups s) else wakeups s) (awaiter s).
Definition clearWaker (s : timer_state) : timer_state :=
  mkTimer false (m_state s) (m_completion s) (m_flag s) (wakeups s) (awaiter s).
Definition at_pc (p : await_pc) (s : timer_state) : timer_state :=
  mkTimer (m_waker s) (m_state s) (m_completion s) (m_flag s) (wakeups s) p.

Definition timeouted (s : timer_state) : bool := negb (Z.land (m_flag s) kTimeout =? 0)%Z.

(** [compare_exchange_weak] succeeds on the expected value, unless it fails spuriously. *)
Definition weak {A} `{EqDecision A} (spurious : bool) (cell expected : A) : bool :=
  negb spurious && bool_decide (cell = expected).

Definition request_step (c : bool) (s : timer_state) (p : request_pc) : option (timer_state * request_pc) :=
  match p with
  | RqLoad => Some (s, RqTry (m_state s))
  | RqTry DeferredWaker.kArming =>
      Some (if weak c (m_state s) DeferredWaker.kArming
            then (set_state DeferredWaker.kPending s, RqReturn true)
            else (s, RqTry (m_state s)))
  | RqTry DeferredWaker.kArmed => Some (s, RqCas (m_waker s))
  | RqTry _ => Some (s, RqReturn false)
  | RqCas waker =>
      Some (if weak c (m_state s) DeferredWaker.kArmed
            then (set_state DeferredWaker.kIssued s, RqWakeUp waker)
            else (s, RqTry (m_state s)))
  | RqWakeUp waker => Some (wakeUp waker s, RqReturn true)
  | RqReturn _ => None
  end.

Definition timeout_step (c : bool) (s : timer_state) (p : timeout_pc) : option (timer_state * timeout_pc) :=
  match p with
  | CtLoad => Some (s, CtTry (m_completion s))
  | CtTry TimeoutTimer.kPending =>
      Some (if weak c (m_completion s) TimeoutTimer.kPending
            then (set_completion TimeoutTimer.kTimeoutWon s, CtSetTimeout)
            else (s, CtTry (m_completion s)))
  | CtTry TimeoutTimer.kOperationInFlight =>
      Some (if weak c (m_completion s) TimeoutTimer.kOperationInFlight
            then (set_completion TimeoutTimer.kTimeoutRequested s, CtHandle false)
            else (s, CtTry (m_completion s)))
  | CtTry _ => Some (s, CtHandle false)
  | CtSetTimeout => Some (fetch_or kTimeout s, CtHandle true)
  | CtHandle won => Some (fetch_or kDone s, CtReturn won)
  | CtReturn _ => None
  end.

(** [tryCompleteOperation], then [Timer::cancel] whether it won or not. *)
Definition cancel_step (s : timer_state) (p : cancel_pc) : option (timer_state * cancel_pc) :=
  match p with
  | CaTry =>
      Some (if bool_decide (m_completion s = TimeoutTimer.kPending)
            then (set_completion TimeoutTimer.kOperationWon s, CaFlag) else (s, CaFlag))
  | CaFlag => Some (fetch_or kCancel s, CaReturn)
  | CaReturn => None
  end.

(** The threads that complete the wait. What decides between a commit and an abort is the channel's. *)
#[global] Instance worker_step : ThreadProgram timer_state worker_pc bool := fun c s p =>
  match p with
  | OpIdle => Some (s, OpBeginLoad)
  | OpBeginLoad => Some (s, OpBeginTry (m_completion s))
  | OpBeginTry TimeoutTimer.kPending =>
      Some (if weak c (m_completion s) TimeoutTimer.kPending
            then (set_completion TimeoutTimer.kOperationInFlight s, OpStarted)
            else (s, OpBeginTry (m_completion s)))
  | OpBeginTry _ => Some (s, OpIdle)
  | OpStarted => Some (s, if c then OpCommitLoad else OpAbortLoad)
  | OpCommitLoad => Some (s, OpCommitTry (m_completion s))
  | OpCommitTry (TimeoutTimer.kOperationInFlight as state)
  | OpCommitTry (TimeoutTimer.kTimeoutRequested as state) =>
      Some (if weak c (m_completion s) state
            then (set_completion TimeoutTimer.kOperationWon s, OpCommitCancel)
            else (s, OpCommitTry (m_completion s)))
  | OpCommitTry _ => Some (s, OpCommitFailed)
  | OpCommitCancel => Some (fetch_or kCancel s, OpWake RqLoad)
  | OpCommitFailed => None
  | OpAbortLoad => Some (s, OpAbortTry (m_completion s))
  | OpAbortTry TimeoutTimer.kOperationInFlight =>
      Some (if weak c (m_completion s) TimeoutTimer.kOperationInFlight
            then (set_completion TimeoutTimer.kPending s, OpIdle)
            else (s, OpAbortTry (m_completion s)))
  | OpAbortTry TimeoutTimer.kTimeoutRequested =>
      Some (if weak c (m_completion s) TimeoutTimer.kTimeoutRequested
            then (set_completion TimeoutTimer.kTimeoutWon s, OpAbortFlag)
            else (s, OpAbortTry (m_completion s)))
  | OpAbortTry _ => Some (s, OpIdle)
  | OpAbortFlag => Some (fetch_or kTimeout s, OpWake RqLoad)
  | OpWake (RqReturn _) => Some (s, OpIdle)
  | OpWake p => prod_map id OpWake <$> request_step c s p
  | TimerWaiting => Some (s, TimerFire CtLoad)
  | TimerFire (CtReturn timeoutWon) => Some (s, if timeoutWon then TimerWake RqLoad else TimerFired)
  | TimerFire p => prod_map id TimerFire <$> timeout_step c s p
  | TimerWake (RqReturn _) => Some (s, TimerFired)
  | TimerWake p => prod_map id TimerWake <$> request_step c s p
  | TimerFired => None
  end.

(** The coroutine: [await_suspend] until it returns, the suspension, [await_resume]. *)
Definition awaiter_step (c : bool) (s : timer_state) : option timer_state :=
  match awaiter s with
  | AwStart =>
      Some (at_pc (if c then AwNoScheduler CtLoad else AwInner)
              (mkTimer true (m_state s) (m_completion s) (m_flag s) (wakeups s) AwStart))
  | AwNoScheduler (CtReturn _) => Some (at_pc (AwResume NotSuspended) s)
  | AwNoScheduler p => (fun r => at_pc (AwNoScheduler r.2) r.1) <$> timeout_step c s p
  | AwInner => Some (at_pc (if c then AwNotSuspended CaTry else AwAddTimer) s)
  | AwNotSuspended CaReturn => Some (at_pc (AwResume NotSuspended) s)
  | AwNotSuspended p => (fun r => at_pc (AwNotSuspended r.2) r.1) <$> cancel_step s p
  | AwAddTimer => Some (at_pc (if c then AwArm true else AwTimeoutNow CtLoad) s)
  | AwTimeoutNow (CtReturn won) => Some (at_pc (if won then AwTimeoutWake RqLoad else AwArm false) s)
  | AwTimeoutNow p => (fun r => at_pc (AwTimeoutNow r.2) r.1) <$> timeout_step c s p
  | AwTimeoutWake (RqReturn _) => Some (at_pc (AwArm false) s)
  | AwTimeoutWake p => (fun r => at_pc (AwTimeoutWake r.2) r.1) <$> request_step c s p
  | AwArm added =>
      Some (match m_state s with
            | DeferredWaker.kArming => at_pc (AwSuspended added) (set_state DeferredWaker.kArmed s)
            | DeferredWaker.kPending => at_pc AwArmIssued s
            | _ => at_pc (AwResume SyncContinue) s
            end)
  | AwArmIssued => Some (at_pc (AwResume SyncContinue) (set_state DeferredWaker.kIssued s))
  | AwSuspended _ => match wakeups s with O => None | S _ => Some (at_pc (AwResume Woken) s) end
  | AwResume how => Some (at_pc (AwClear how (timeouted s)) s)
  | AwClear how timedOut =>
      Some (at_pc (if timedOut then AwFinished how true else AwCancel how CaTry) (clearWaker s))
  | AwCancel how CaReturn => Some (at_pc (AwFinished how false) s)
  | AwCancel how p => (fun r => at_pc (AwCancel how r.2) r.1) <$> cancel_step s p
  | AwFinished _ _ => None
  end.

Inductive timed_step : config timer_state worker_pc -> config timer_state worker_pc -> Prop :=
| await_moves c s s' ts : awaiter_step c s = Some s' -> timed_step (s, ts) (s', ts)
| worker_moves a b : step a b -> timed_step a b.

Definition new_timer : timer_state :=
  mkTimer false DeferredWaker.kArming TimeoutTimer.kPending 0 0 AwStart.

(** A wait that starts, with any number of operations and of timer expiries to come. *)
Definition new_wait (operations timers : nat) : config timer_state worker_pc :=
  (new_timer, replicate operations OpIdle ++ replicate timers TimerWaiting).

Definition wait_reaches (operations timers : nat) : config timer_state worker_pc -> Prop :=
  rtc timed_step (new_wait operations timers).

(** Schedules: [None] is the coroutine, [Some i] the [i]th thread. *)
Definition exec_wait_step (k : option nat * bool) (cfg : config timer_state worker_pc) :
    option (config timer_state worker_pc) :=
  match k.1 with
  | None => (fun s => (s, cfg.2)) <$> awaiter_step k.2 cfg.1
  | Some i => exec_step (i, k.2) cfg
  end.

Fixpoint exec_wait (schedule : list (option nat * bool)) (cfg : config timer_state worker_pc) :
    option (config timer_state worker_pc) :=
  match schedule with
  | [] => Some cfg
  | k :: schedule => match exec_wait_step k cfg with None => None | Some cfg => exec_wait schedule cfg end
  end.

Lemma exec_wait_sound schedule cfg cfg' : exec_wait schedule cfg = Some cfg' -> rtc timed_step cfg cfg'.
Proof.
  revert cfg. induction schedule as [|[[i|] c] schedule IH]; intros cfg; cbn [exec_wait]; [by intros [= ->]|..];
    unfold exec_wait_step; cbn [fst snd].
  - destruct (exec_step (i, c) cfg) as [cfg1|] eqn:E; [|done]. intros Hs.
    eapply rtc_l; [eapply worker_moves, exec_step_sound, E|by apply IH].
  - destruct (awaiter_step c cfg.1) as [s|] eqn:E; [|done]. intros Hs.
    apply (rtc_l _ _ (s, cfg.2)); [|by apply IH]. destruct cfg. by apply (await_moves c).
Qed.

(** ** What the threads hold *)

Definition requesting (p : request_pc) : nat :=
  match p with RqLoad | RqTry _ | RqCas _ => 1 | _ => 0 end.
Definition issuing (p : request_pc) : nat := match p with RqWakeUp _ => 1 | _ => 0 end.
Definition saw_armed (p : request_pc) : nat :=
  match p with RqTry DeferredWaker.kArmed | RqCas _ => 1 | _ => 0 end.
(** The places a request never is at. *)
Definition bad_request (p : request_pc) : nat :=
  match p with
  | RqTry DeferredWaker.kPending | RqTry DeferredWaker.kIssued
  | RqCas false | RqWakeUp false | RqReturn false => 1
  | _ => 0
  end.

Definition timeout_winning (p : timeout_pc) : nat :=
  match p with CtSetTimeout | CtHandle true | CtReturn true => 1 | _ => 0 end.
Definition settled (c : TimeoutTimer.Completion) : bool :=
  match c with TimeoutTimer.kPending | TimeoutTimer.kOperationInFlight => false | _ => true end.
Definition timeout_done (p : timeout_pc) : nat :=
  match p with CtLoad => 0 | CtTry c => if settled c then 1 else 0 | _ => 1 end.

(** The right to complete the wait, between [kStarted] and the commit or abort. *)
Definition owning (p : worker_pc) : nat :=
  match p with
  | OpStarted | OpCommitLoad | OpCommitTry _ | OpAbortLoad | OpAbortTry _ => 1
  | _ => 0
  end.
(** The duty to wake the coroutine. *)
Definition winning (p : worker_pc) : nat :=
  match p with
  | OpCommitCancel | OpAbortFlag => 1
  | OpWake p | TimerWake p => requesting p
  | TimerFire p => timeout_winning p
  | _ => 0
  end.
Definition waking (p : worker_pc) : nat :=
  match p with OpWake p | TimerWake p => issuing p | _ => 0 end.
Definition flagging (p : worker_pc) : nat :=
  match p with OpAbortFlag | TimerFire CtSetTimeout => 1 | _ => 0 end.
Definition expired (p : worker_pc) : nat :=
  match p with TimerFire p => timeout_done p | TimerWake _ | TimerFired => 1 | _ => 0 end.
Definition copying (p : worker_pc) : nat :=
  match p with OpWake p | TimerWake p => saw_armed p | _ => 0 end.
Definition bad (p : worker_pc) : nat :=
  match p with
  | OpCommitTry c | OpAbortTry c =>
      match c with TimeoutTimer.kOperationInFlight | TimeoutTimer.kTimeoutRequested => 0 | _ => 1 end
  | OpCommitFailed => 1
  | OpWake p | TimerWake p => bad_request p
  | _ => 0
  end.

Definition owned (c : TimeoutTimer.Completion) : nat :=
  match c with TimeoutTimer.kOperationInFlight | TimeoutTimer.kTimeoutRequested => 1 | _ => 0 end.
Definition won (c : TimeoutTimer.Completion) : nat :=
  match c with TimeoutTimer.kOperationWon | TimeoutTimer.kTimeoutWon => 1 | _ => 0 end.
Definition asked (w : DeferredWaker.State) : nat :=
  match w with DeferredWaker.kPending | DeferredWaker.kIssued => 1 | _ => 0 end.
Definition issued (w : DeferredWaker.State) : nat :=
  match w with DeferredWaker.kIssued => 1 | _ => 0 end.

Definition await_winning (p : await_pc) : nat :=
  match p with AwTimeoutNow p => timeout_winning p | AwTimeoutWake p => requesting p | _ => 0 end.
Definition await_flagging (p : await_pc) : nat :=
  match p with AwNoScheduler CtSetTimeout | AwTimeoutNow CtSetTimeout => 1 | _ => 0 end.
(** The coroutine completed the wait itself, or may have. *)
Definition alone (p : await_pc) : bool :=
  match p with
  | AwNoScheduler _ | AwNotSuspended _ | AwResume NotSuspended | AwClear NotSuspended _
  | AwCancel NotSuspended _ | AwFinished NotSuspended _ => true
  | _ => false
  end.

Definition before_arm (w : DeferredWaker.State) : Prop := w = DeferredWaker.kArming \/ w = DeferredWaker.kPending.
Definition after_arm (w : DeferredWaker.State) : Prop := w = DeferredWaker.kArmed \/ w = DeferredWaker.kIssued.

(** How the coroutine resumed says what became of the gate and of the wake-ups, [n] of them issued. *)
Definition resumed (how : resumption) (w : DeferredWaker.State) (n issued : nat) : Prop :=
  match how with
  | NotSuspended => before_arm w /\ issued = 0
  | SyncContinue => w = DeferredWaker.kIssued /\ issued = 0
  | Woken => w = DeferredWaker.kIssued /\ n = 1 /\ issued = 1
  end.

(** What the coroutine finds on the timer once it is resumed. *)
Definition verdict (how : resumption) (timedOut : bool) (c : TimeoutTimer.Completion) : Prop :=
  match timedOut, how with
  | true, _ => c = TimeoutTimer.kTimeoutWon
  | false, NotSuspended => True
  | false, _ => c = TimeoutTimer.kOperationWon
  end.

(** What holds at each place of the coroutine; [n] wake-ups were issued, [m] more are about to be. *)
Definition await_inv (s : timer_state) (n m : nat) : Prop :=
  let w := m_state s in
  let c := m_completion s in
  match awaiter s with
  | AwStart => before_arm w /\ n + m = 0
  | AwNoScheduler _ | AwInner | AwNotSuspended _ | AwAddTimer | AwArm true =>
      m_waker s = true /\ before_arm w /\ n + m = 0
  | AwTimeoutNow p => m_waker s = true /\ before_arm w /\ n + m = 0 /\ (timeout_done p = 1 -> settled c = true)
  | AwTimeoutWake p =>
      m_waker s = true /\ before_arm w /\ n + m = 0 /\ settled c = true /\ bad_request p + saw_armed p = 0 /\
      issuing p = 0
  | AwArm false => m_waker s = true /\ before_arm w /\ n + m = 0 /\ settled c = true
  | AwArmIssued => m_waker s = true /\ w = DeferredWaker.kPending /\ n + m = 0
  | AwSuspended added => m_waker s = true /\ after_arm w /\ n + m = issued w /\ (added = false -> settled c = true)
  | AwResume how => m_waker s = true /\ resumed how w n (n + m)
  | AwClear how timedOut => m_waker s = true /\ resumed how w n (n + m) /\ verdict how timedOut c
  | AwCancel how _ => resumed how w n (n + m) /\ verdict how false c
  | AwFinished how timedOut => resumed how w n (n + m) /\ verdict how timedOut c
  end.

Record wait_inv (cfg : config timer_state worker_pc) : Prop := mkInv {
  inv_own : total owning cfg.2 = owned (m_completion cfg.1);
  inv_win : total winning cfg.2 + await_winning (awaiter cfg.1) + asked (m_state cfg.1) <= won (m_completion cfg.1);
  inv_win_eq : alone (awaiter cfg.1) = false ->
    total winning cfg.2 + await_winning (awaiter cfg.1) + asked (m_state cfg.1) = won (m_completion cfg.1);
  inv_flag : timeouted cfg.1 = true -> m_completion cfg.1 = TimeoutTimer.kTimeoutWon;
  inv_flagging : m_completion cfg.1 = TimeoutTimer.kTimeoutWon ->
    timeouted cfg.1 = true \/ 1 <= total flagging cfg.2 + await_flagging (awaiter cfg.1);
  inv_flag_won : 1 <= total flagging cfg.2 + await_flagging (awaiter cfg.1) ->
    m_completion cfg.1 = TimeoutTimer.kTimeoutWon;
  inv_await : await_inv cfg.1 (wakeups cfg.1) (total waking cfg.2);
  inv_expired : 1 <= total expired cfg.2 -> settled (m_completion cfg.1) = true;
  inv_copying : 1 <= total copying cfg.2 -> after_arm (m_state cfg.1);
  inv_bad : total bad cfg.2 = 0
}.

Lemma timeouted_timeout s : timeouted (fetch_or kTimeout s) = true.
Proof.
  unfold timeouted, fetch_or. cbn. destruct (Z.eqb_spec (Z.land (Z.lor (m_flag s) kTimeout) kTimeout) 0) as [E|]; [|done].
  apply (f_equal (fun z => Z.testbit z 2)) in E. rewrite Z.land_spec, Z.lor_spec in E.
  rewrite andb_true_r, orb_true_r in E by done. done.
Qed.

Lemma timeouted_other f s : Z.land f kTimeout = 0%Z -> timeouted (fetch_or f s) = timeouted s.
Proof. intros E. unfold timeouted, fetch_or. cbn. by rewrite Z.land_lor_distr_l, E, Z.lor_0_r. Qed.

(** ** Every step keeps the invariant *)

Lemma await_completion s c n m :
  won (m_completion s) = 0 -> (settled (m_completion s) = true -> settled c = true) ->
  await_inv s n m -> await_inv (set_completion c s) n m.
Proof.
  destruct s as [wk w c0 f k aw]. unfold await_inv, set_completion. cbn. intros Hw Hs.
  assert (forall how t, verdict how t c0 -> verdict how t c) as Hv.
  { intros [] []; cbn; intros E; try (by subst c0); done. }
  destruct aw as [| | | | |p|p|[]| | | | | |]; intros Ha; split_hyps; split_and?; eauto; by apply (Hv _ false).
Qed.

Ltac solve_await :=
  intros; unfold before_arm, after_arm in *; split_hyps;
  repeat match goal with H : _ \/ _ |- _ => destruct H end; simplify_eq; split_and?; auto; lia.

Lemma await_pending s n m :
  m_state s = DeferredWaker.kArming -> await_inv s n m -> await_inv (set_state DeferredWaker.kPending s) n m.
Proof.
  destruct s as [wk w c f k aw]. cbn. intros ->. unfold await_inv, set_state, before_arm, after_arm, resumed. cbn.
  destruct aw as [| | | | |p|p|[]| | |[]|[]|[]|[]]; solve_await.
Qed.

Lemma await_issued s n m :
  m_state s = DeferredWaker.kArmed -> await_inv s n m -> await_inv (set_state DeferredWaker.kIssued s) n (S m).
Proof.
  destruct s as [wk w c f k aw]. cbn. intros ->. unfold await_inv, set_state, before_arm, after_arm, resumed. cbn.
  destruct aw as [| | | | |p|p|[]| | |[]|[]|[]|[]]; solve_await.
Qed.

Lemma await_wakeUp s n m : await_inv s n (S m) -> await_inv (wakeUp true s) (S n) m.
Proof.
  destruct s as [wk w c f k aw]. unfold await_inv, wakeUp, resumed. cbn.
  replace (S (n + m)) with (n + S m) by lia.
  destruct aw as [| | | | |p|p|[]| | |[]|[]|[]|[]]; try done; solve_await.
Qed.

Lemma await_armed s n m : await_inv s n m -> m_state s = DeferredWaker.kArmed ->
  m_waker s = true /\ n + m = 0.
Proof.
  destruct s as [wk w c f k aw]. unfold await_inv, before_arm, resumed. cbn. intros Ha ->.
  destruct aw as [| | | | |p|p|[]| | |[]|[]|[]|[]]; cbn in Ha; solve_await.
Qed.

Section Step.
Context (ts : list worker_pc) (i : nat).

(** The sums of the invariant before and after the step of thread [i]. *)
Ltac weights Hi p p' :=
  pose proof (total_insert owning ts i p p' Hi); pose proof (total_insert winning ts i p p' Hi);
  pose proof (total_insert waking ts i p p' Hi); pose proof (total_insert flagging ts i p p' Hi);
  pose proof (total_insert expired ts i p p' Hi); pose proof (total_insert copying ts i p p' Hi);
  pose proof (total_insert bad ts i p p' Hi);
  cbn [owning winning waking flagging expired copying bad requesting issuing saw_armed bad_request
    timeout_winning timeout_done] in *.

Lemma completion_bounds c : owned c + won c <= 1 /\ (settled c = true <-> c <> TimeoutTimer.kPending /\ c <> TimeoutTimer.kOperationInFlight).
Proof. destruct c; cbn; intuition (done || lia). Qed.

(** A thread that moves without touching the store, its weights but those of an expiry unchanged. *)
Lemma keeps_local s p p' :
  wait_inv (s, ts) -> ts !! i = Some p ->
  owning p' = owning p -> winning p' = winning p -> waking p' = waking p -> flagging p' = flagging p ->
  (expired p' <= expired p \/ settled (m_completion s) = true) ->
  (copying p' <= copying p \/ after_arm (m_state s)) -> bad p' = 0 ->
  wait_inv (s, <[i := p']> ts).
Proof.
  intros [H1 H2 H3 H4 H5 H5' H6 H7 H8 H9] Hi E1 E2 E3 E4 E5 E6 E7. cbn [fst snd] in *. weights Hi p p'.
  split; cbn [fst snd].
  - lia.
  - lia.
  - intros Ha. specialize (H3 Ha). lia.
  - done.
  - intros Hc. destruct (H5 Hc); [by left|right; lia].
  - intros Hc. apply H5'. lia.
  - replace (total waking (<[i:=p']> ts)) with (total waking ts) by lia. done.
  - intros He. destruct E5; [apply H7; lia|done].
  - intros He. destruct E6; [apply H8; lia|done].
  - lia.
Qed.

(** A compare-exchange of the completion, by the thread that may make it. *)
Lemma keeps_completion s p p' c :
  wait_inv (s, ts) -> ts !! i = Some p ->
  won (m_completion s) = 0 -> (settled (m_completion s) = true -> settled c = true) ->
  owning p' + owned (m_completion s) = owning p + owned c ->
  winning p' + won (m_completion s) = winning p + won c -> waking p' = waking p ->
  (c = TimeoutTimer.kTimeoutWon -> 1 <= flagging p') ->
  (c <> TimeoutTimer.kTimeoutWon -> flagging p' = 0) ->
  (expired p' <= expired p \/ settled c = true) -> copying p' <= copying p -> bad p' = 0 ->
  wait_inv (set_completion c s, <[i := p']> ts).
Proof.
  intros [H1 H2 H3 H4 H5 H5' H6 H7 H8 H9] Hi Hw Hs E1 E2 E3 E4' E4 E5 E6 E7. cbn [fst snd] in *. weights Hi p p'.
  pose proof (total_lookup flagging (<[i:=p']> ts) i p') as Hf. rewrite list_lookup_insert_eq in Hf by (by eapply lookup_lt_Some).
  specialize (Hf eq_refl).
  split; cbn [fst snd set_completion m_completion m_state awaiter wakeups].
  - lia.
  - lia.
  - intros Ha. specialize (H3 Ha). lia.
  - intros Ht. exfalso. apply H4 in Ht. by rewrite Ht in Hw.
  - intros Hc. right. specialize (E4' Hc). lia.
  - intros Hc. destruct (decide (c = TimeoutTimer.kTimeoutWon)) as [|Hn]; [done|]. specialize (E4 Hn).
    rewrite H5' in Hw by lia. done.
  - replace (total waking (<[i:=p']> ts)) with (total waking ts) by lia. by apply await_completion.
  - intros He. destruct E5; [apply Hs, H7; lia|done].
  - intros He. apply H8. lia.
  - lia.
Qed.

(** A flag is set. *)
Lemma keeps_flag s p p' f :
  wait_inv (s, ts) -> ts !! i = Some p ->
  f = kDone \/ f = kCancel \/ f = kTimeout /\ m_completion s = TimeoutTimer.kTimeoutWon ->
  owning p' = owning p -> winning p' = winning p -> waking p' = waking p ->
  flagging p' <= flagging p -> (flagging p <= flagging p' \/ f = kTimeout) -> expired p' <= expired p -> copying p' <= copying p -> bad p' = 0 ->
  wait_inv (fetch_or f s, <[i := p']> ts).
Proof.
  intros [H1 H2 H3 H4 H5 H5' H6 H7 H8 H9] Hi Hf E1 E2 E3 E4' E4 E5 E6 E7. cbn [fst snd] in *. weights Hi p p'.
  split; cbn [fst snd fetch_or m_completion m_state awaiter wakeups].
  - lia.
  - lia.
  - intros Ha. specialize (H3 Ha). lia.
  - destruct Hf as [->|[->|[-> Hc]]]; [rewrite timeouted_other by done; done..|by rewrite Hc].
  - intros Hc. destruct Hf as [->|[->|[-> _]]]; [rewrite timeouted_other by done..|left; apply timeouted_timeout];
      (destruct E4; [|done]); destruct (H5 Hc); [by left|right; lia|by left|right; lia].
  - intros Hc. apply H5'. lia.
  - replace (total waking (<[i:=p']> ts)) with (total waking ts) by lia. done.
  - intros He. apply H7. lia.
  - intros He. apply H8. lia.
  - lia.
Qed.

(** The gate is asked to wake the coroutine. *)
Lemma keeps_gate s p p' w :
  wait_inv (s, ts) -> ts !! i = Some p ->
  (m_state s = DeferredWaker.kArming /\ w = DeferredWaker.kPending /\ waking p' = 0 \/
   m_state s = DeferredWaker.kArmed /\ w = DeferredWaker.kIssued /\ waking p' = 1) ->
  winning p = 1 -> winning p' = 0 -> waking p = 0 -> owning p' = owning p -> flagging p' = flagging p ->
  expired p' <= expired p -> copying p' <= copying p -> bad p' = 0 ->
  wait_inv (set_state w s, <[i := p']> ts).
Proof.
  intros [H1 H2 H3 H4 H5 H5' H6 H7 H8 H9] Hi Hw E1 E1' E2 E3 E4 E5 E6 E7. cbn [fst snd] in *. weights Hi p p'.
  split; cbn [fst snd set_state m_completion m_state awaiter wakeups].
  - lia.
  - destruct Hw as [(Hw & -> & _)|(Hw & -> & _)]; rewrite Hw in H2; cbn [asked] in *; lia.
  - intros Ha. specialize (H3 Ha). destruct Hw as [(Hw & -> & _)|(Hw & -> & _)]; rewrite Hw in H3; cbn [asked] in *; lia.
  - done.
  - intros Hc. destruct (H5 Hc); [by left|right; lia].
  - intros Hc. apply H5'. lia.
  - destruct Hw as [(Hw & -> & Hp)|(Hw & -> & Hp)].
    + replace (total waking (<[i:=p']> ts)) with (total waking ts) by lia. by apply await_pending.
    + replace (total waking (<[i:=p']> ts)) with (S (total waking ts)) by lia. by apply await_issued.
  - intros He. apply H7. lia.
  - intros He. destruct Hw as [(Hw & -> & _)|(Hw & -> & _)]; [|by right].
    assert (after_arm (m_state s)) as [E|E]; [apply H8; lia|..]; by rewrite Hw in E.
  - lia.
Qed.

Lemma keeps_wakeUp s p p' :
  wait_inv (s, ts) -> ts !! i = Some p -> waking p = 1 -> waking p' = 0 ->
  owning p' = owning p -> winning p' = winning p -> flagging p' = flagging p ->
  expired p' <= expired p -> copying p' <= copying p -> bad p' = 0 ->
  wait_inv (wakeUp true s, <[i := p']> ts).
Proof.
  intros [H1 H2 H3 H4 H5 H5' H6 H7 H8 H9] Hi E1 E1' E2 E3 E4 E5 E6 E7. cbn [fst snd] in *. weights Hi p p'.
  split; cbn [fst snd wakeUp m_completion m_state awaiter wakeups].
  - lia.
  - lia.
  - intros Ha. specialize (H3 Ha). lia.
  - done.
  - intros Hc. destruct (H5 Hc); [by left|right; lia].
  - intros Hc. apply H5'. lia.
  - apply await_wakeUp. by replace (S (total waking (<[i:=p']> ts))) with (total waking ts) by lia.
  - intros He. apply H7. lia.
  - intros He. apply H8. lia.
  - lia.
Qed.

(** ** Requests of a thread *)

Context (K : request_pc -> worker_pc).

Lemma keeps_request c s p s' p' :
  (forall q, owning (K q) = 0 /\ winning (K q) = requesting q /\ waking (K q) = issuing q /\
     flagging (K q) = 0 /\ expired (K q) = expired (K p) /\ copying (K q) = saw_armed q /\ bad (K q) = bad_request q) ->
  wait_inv (s, ts) -> ts !! i = Some (K p) -> request_step c s p = Some (s', p') ->
  wait_inv (s', <[i := K p']> ts).
Proof.
  intros HK Hinv Hi Hs. pose proof (HK p) as (P1 & P2 & P3 & P4 & P5 & P6 & P7).
  pose proof (HK p') as (Q1 & Q2 & Q3 & Q4 & Q5 & Q6 & Q7).
  pose proof Hinv as [_ Hw _ _ _ _ Ha _ Hc Hb]. cbn [fst snd] in *.
  pose proof (total_lookup winning ts i _ Hi) as Lw. pose proof (total_lookup bad ts i _ Hi) as Lb.
  pose proof (total_lookup copying ts i _ Hi) as Lc.
  assert (won (m_completion s) <= 1) as Hwon by (destruct (m_completion s); cbn; lia).
  assert (requesting p = 1 -> m_state s = DeferredWaker.kArming \/ m_state s = DeferredWaker.kArmed) as Hg.
  { intros E. destruct (m_state s) eqn:Hm; cbn [asked] in *; [by left|by right|lia|lia]. }
  assert (saw_armed p = 1 -> requesting p = 1 -> m_waker s = true) as Hcopy.
  { intros E E'. destruct Hc as [Hm|Hm]; [lia|by eapply await_armed|]. destruct (Hg E') as [Hm'|Hm']; congruence. }
  assert (requesting p = 1 -> wait_inv (s, <[i := K (RqTry (m_state s))]> ts)) as Hreload.
  { intros E. pose proof (HK (RqTry (m_state s))) as (R1 & R2 & R3 & R4 & R5 & R6 & R7).
    apply (keeps_local s (K p)); try done; try lia.
    - rewrite R2, P2. by rewrite E.
    - rewrite R3, P3. by destruct p.
    - destruct (Hg E) as [Hm|Hm]; rewrite Hm in *; [left; cbn in R6; lia|right; by left].
    - rewrite R7. by destruct (Hg E) as [-> | ->]. }
  destruct p as [|[]|[]|[]|[]]; cbn [request_step bad_request requesting saw_armed issuing] in *; try lia;
    try (injection Hs as <- <-).
  - by apply Hreload.
  - destruct (weak _ _ _) eqn:E; [|injection Hs as <- <-; by apply Hreload]. injection Hs as <- <-.
    apply andb_true_iff in E as [_ E%bool_decide_eq_true_1].
    cbn in *. apply (keeps_gate s (K (RqTry DeferredWaker.kArming))); try done; try lia.
    left. split_and!; [done|done|lia].
  - rewrite Hcopy in * by done. cbn in *. apply (keeps_local s (K (RqTry DeferredWaker.kArmed))); try done; try lia;
      left; lia.
  - destruct (weak _ _ _) eqn:E; [|injection Hs as <- <-; by apply Hreload]. injection Hs as <- <-.
    apply andb_true_iff in E as [_ E%bool_decide_eq_true_1].
    cbn in *. apply (keeps_gate s (K (RqCas true))); try done; try lia.
    right. split_and!; [done|done|lia].
  - cbn in *. apply (keeps_wakeUp s (K (RqWakeUp true))); try done; lia.
  - done.
Qed.
End Step.

Ltac keep_local := eapply keeps_local; [eassumption|eassumption|cbn; try done; auto with lia..].
Ltac keep_completion H :=
  apply andb_true_iff in H as [_ H%bool_decide_eq_true_1];
  eapply keeps_completion; [eassumption|eassumption|rewrite ?H; cbn; try done; auto with lia..].

Lemma worker_keeps ts i c s p s' p' :
  wait_inv (s, ts) -> ts !! i = Some p -> thread_step c s p = Some (s', p') ->
  wait_inv (s', <[i := p']> ts).
Proof.
  intros Hinv Hi Hs. pose proof (inv_own _ Hinv) as Ho. pose proof (inv_bad _ Hinv) as Hb. cbn [fst snd] in *.
  pose proof (total_lookup owning ts i _ Hi) as Lo. pose proof (total_lookup bad ts i _ Hi) as Lb.
  assert (owning p = 1 -> m_completion s = TimeoutTimer.kOperationInFlight \/ m_completion s = TimeoutTimer.kTimeoutRequested) as Hown.
  { intros E. destruct (m_completion s); cbn [owned] in Ho; try lia; by auto. }
  pose proof (inv_flag_won _ Hinv) as Hf. pose proof (inv_expired _ Hinv) as He. cbn [fst snd] in *.
  pose proof (total_lookup flagging ts i _ Hi) as Lf. pose proof (total_lookup expired ts i _ Hi) as Le.
  unfold thread_step, worker_step in Hs.
  destruct p as [| |[]| | |[]| | | |[]| |q| |q|q|]; cbn [owning bad flagging expired] in *; try lia;
    try (injection Hs as <- <-); try (by keep_local).
  - destruct (weak _ _ _) eqn:E; injection Hs as <- <-; [keep_completion E|keep_local].
  - destruct c; keep_local.
  - destruct (Hown eq_refl) as [E|E]; rewrite E; keep_local.
  - destruct (weak _ _ _) eqn:E; injection Hs as <- <-; [keep_completion E|].
    destruct (Hown eq_refl) as [E'|E']; rewrite E'; keep_local.
  - destruct (weak _ _ _) eqn:E; injection Hs as <- <-; [keep_completion E|].
    destruct (Hown eq_refl) as [E'|E']; rewrite E'; keep_local.
  - eapply keeps_flag; [eassumption|eassumption|cbn; try done; auto with lia..].
  - destruct (Hown eq_refl) as [E|E]; rewrite E; keep_local.
  - destruct (weak _ _ _) eqn:E; injection Hs as <- <-; [keep_completion E|].
    destruct (Hown eq_refl) as [E'|E']; rewrite E'; keep_local.
  - destruct (weak _ _ _) eqn:E; injection Hs as <- <-; [keep_completion E|].
    destruct (Hown eq_refl) as [E'|E']; rewrite E'; keep_local.
  - eapply keeps_flag; [eassumption|eassumption|cbn; try done; auto with lia..].
  - assert ((exists b, q = RqReturn b /\ s' = s /\ p' = OpIdle) \/
      exists q', request_step c s q = Some (s', q') /\ p' = OpWake q') as [(b & -> & -> & ->)|(q' & Hq & ->)].
    { destruct q; [right..|left]; [(apply fmap_Some in Hs as ([s1 q1] & Hq & Hr); injection Hr as -> ->; by eexists)..|].
      injection Hs as <- <-. by eexists. }
    + destruct b; [keep_local|cbn in *; lia].
    + eapply (keeps_request ts i OpWake); [|done|done|done]. intros r. by split_and!.
  - assert ((exists b, q = CtReturn b /\ s' = s /\ p' = if b then TimerWake RqLoad else TimerFired) \/
      exists q', timeout_step c s q = Some (s', q') /\ p' = TimerFire q') as [(b & -> & -> & ->)|(q' & Hq & ->)].
    { destruct q; [right..|left]; [(apply fmap_Some in Hs as ([s1 q1] & Hq & Hr); injection Hr as -> ->; by eexists)..|].
      injection Hs as <- <-. by eexists. }
    + destruct b; keep_local.
    + destruct q as [|[]| |[]|[]]; cbn [timeout_step] in Hq; try done; try (injection Hq as <- <-).
      * destruct (m_completion s) eqn:E; keep_local; right; by rewrite E.
      * destruct (weak _ _ _) eqn:E; injection Hq as <- <-; [keep_completion E|].
        destruct (m_completion s) eqn:E'; keep_local; right; by rewrite E'.
      * destruct (weak _ _ _) eqn:E; injection Hq as <- <-; [keep_completion E|].
        destruct (m_completion s) eqn:E'; keep_local; right; by rewrite E'.
      * keep_local.
      * keep_local.
      * keep_local.
      * eapply keeps_flag; [eassumption|eassumption|cbn; try done; auto with lia..].
      * eapply keeps_flag; [eassumption|eassumption|cbn; try done; auto with lia..].
      * eapply keeps_flag; [eassumption|eassumption|cbn; try done; auto with lia..].
  - assert ((exists b, q = RqReturn b /\ s' = s /\ p' = TimerFired) \/
      exists q', request_step c s q = Some (s', q') /\ p' = TimerWake q') as [(b & -> & -> & ->)|(q' & Hq & ->)].
    { destruct q; [right..|left]; [(apply fmap_Some in Hs as ([s1 q1] & Hq & Hr); injection Hr as -> ->; by eexists)..|].
      injection Hs as <- <-. by eexists. }
    + destruct b; [keep_local|cbn in *; lia].
    + eapply (keeps_request ts i TimerWake); [|done|done|done]. intros r. by split_and!.
  - done.
Qed.

(** The steps of the coroutine change its place, and at most one cell. *)
Lemma awaiter_local s ts p' k :
  wait_inv (s, ts) ->
  await_winning p' = await_winning (awaiter s) -> await_flagging p' = await_flagging (awaiter s) ->
  (alone p' = false -> alone (awaiter s) = false) ->
  (let s' := at_pc p' (mkTimer k (m_state s) (m_completion s) (m_flag s) (wakeups s) (awaiter s)) in
   await_inv s (wakeups s) (total waking ts) -> await_inv s' (wakeups s) (total waking ts)) ->
  wait_inv (at_pc p' (mkTimer k (m_state s) (m_completion s) (m_flag s) (wakeups s) (awaiter s)), ts).
Proof.
  intros [H1 H2 H3 H4 H5 H5' H6 H7 H8 H9] E1 E2 E3 E4. cbn [fst snd] in *.
  split; cbn [fst snd at_pc m_completion m_state awaiter wakeups]; rewrite ?E1, ?E2; auto.
Qed.

Lemma awaiter_flag s ts p' f :
  wait_inv (s, ts) ->
  f = kDone \/ f = kCancel \/ f = kTimeout /\ m_completion s = TimeoutTimer.kTimeoutWon ->
  await_winning p' = await_winning (awaiter s) ->
  (f <> kTimeout -> await_flagging p' = await_flagging (awaiter s)) -> await_flagging p' <= await_flagging (awaiter s) ->
  (alone p' = false -> alone (awaiter s) = false) ->
  (await_inv s (wakeups s) (total waking ts) -> await_inv (at_pc p' s) (wakeups s) (total waking ts)) ->
  wait_inv (at_pc p' (fetch_or f s), ts).
Proof.
  intros [H1 H2 H3 H4 H5 H5' H6 H7 H8 H9] Hf E1 E2 E2' E3 E4. cbn [fst snd] in *.
  assert (timeouted (at_pc p' (fetch_or f s)) = timeouted (fetch_or f s)) as Ht by done.
  split; cbn [fst snd at_pc fetch_or m_completion m_state awaiter wakeups]; rewrite ?Ht, ?E1; auto.
  - destruct Hf as [->|[->|[-> Hc]]]; [rewrite timeouted_other by done; done..|by rewrite Hc].
  - intros Hc. destruct Hf as [->|[->|[-> _]]]; [rewrite timeouted_other, E2 by done; auto..|left; apply timeouted_timeout].
  - intros Hc. apply H5'. lia.
Qed.

Lemma awaiter_completion s ts p' c :
  wait_inv (s, ts) -> won (m_completion s) = 0 -> (settled (m_completion s) = true -> settled c = true) ->
  owned (m_completion s) = owned c ->
  (alone p' = false -> alone (awaiter s) = false /\ await_winning p' = won c) ->
  await_winning p' <= won c -> await_winning (awaiter s) = 0 ->
  (c = TimeoutTimer.kTimeoutWon <-> await_flagging p' = 1) -> await_flagging p' <= 1 ->
  (await_inv s (wakeups s) (total waking ts) -> await_inv (at_pc p' (set_completion c s)) (wakeups s) (total waking ts)) ->
  wait_inv (at_pc p' (set_completion c s), ts).
Proof.
  intros [H1 H2 H3 H4 H5 H5' H6 H7 H8 H9] Hw Hs Ho E1 E1' E2 E3 E3' E4. cbn [fst snd] in *.
  split; cbn [fst snd at_pc set_completion m_completion m_state awaiter wakeups]; auto.
  - lia.
  - lia.
  - intros Ha. destruct (E1 Ha) as [Ha' ->]. specialize (H3 Ha'). lia.
  - intros Ht. change (timeouted s = true) in Ht. apply H4 in Ht. by rewrite Ht in Hw.
  - intros Hc. right. apply E3 in Hc. lia.
  - intros Hc. apply E3. destruct (decide (1 <= total flagging ts + await_flagging (awaiter s))) as [Hd|Hd].
    + rewrite H5' in Hw by done. done.
    + lia.
Qed.

Lemma awaiter_gate s ts p' w :
  wait_inv (s, ts) ->
  await_winning p' + asked w = await_winning (awaiter s) + asked (m_state s) ->
  await_flagging p' = await_flagging (awaiter s) -> (alone p' = false -> alone (awaiter s) = false) ->
  (after_arm (m_state s) -> after_arm w) ->
  (await_inv s (wakeups s) (total waking ts) -> await_inv (at_pc p' (set_state w s)) (wakeups s) (total waking ts)) ->
  wait_inv (at_pc p' (set_state w s), ts).
Proof.
  intros [H1 H2 H3 H4 H5 H5' H6 H7 H8 H9] E1 E2 E3 E4 E5. cbn [fst snd] in *.
  split; cbn [fst snd at_pc set_state m_completion m_state awaiter wakeups]; rewrite ?E2; auto.
  - lia.
  - intros Ha. specialize (H3 (E3 Ha)). lia.
Qed.

Lemma flagging_winning p : flagging p <= winning p.
Proof. destruct p as [| | | | | | | | | | |q| |[]|q|]; cbn; lia. Qed.

(** When a wake-up was asked for and the coroutine resumes, the flag tells who won. *)
Lemma resumed_verdict s ts how :
  wait_inv (s, ts) -> awaiter s = AwResume how -> verdict how (timeouted s) (m_completion s).
Proof.
  intros [H1 H2 H3 H4 H5 H5' H6 H7 H8 H9] Ha. cbn [fst snd] in *. unfold verdict.
  destruct (timeouted s) eqn:Ht; [by apply H4|]. destruct how; [done|..];
    rewrite Ha in *; cbn [await_winning await_flagging alone] in *; specialize (H3 eq_refl);
    unfold await_inv in H6; rewrite Ha in H6; destruct H6 as (_ & Hr); unfold resumed in Hr;
    destruct Hr as [Hw Hr]; rewrite Hw in H3; cbn [asked] in H3;
    pose proof (total_le flagging winning ts flagging_winning);
    (destruct (m_completion s) eqn:Hc; cbn [won] in H3; [lia|lia|lia|done|]);
    (destruct (H5 eq_refl); [done|lia]).
Qed.

Ltac aw_side :=
  cbn; try done; try lia; unfold await_inv; cbn; intros; split_hyps; split_and?; auto; try done; lia.
Ltac aw_case Hinv :=
  match goal with
  | |- wait_inv (at_pc _ (fetch_or _ _), _) =>
      refine (awaiter_flag _ _ _ _ Hinv _ _ _ _ _ _); solve [auto | aw_side]
  | |- wait_inv (at_pc _ (set_completion _ _), _) =>
      refine (awaiter_completion _ _ _ _ Hinv _ _ _ _ _ _ _ _ _); solve [auto | aw_side]
  | |- wait_inv (at_pc _ (set_state _ _), _) =>
      refine (awaiter_gate _ _ _ _ Hinv _ _ _ _ _); solve [auto | aw_side]
  | |- wait_inv (at_pc _ (mkTimer _ _ _ _ _ _), _) =>
      refine (awaiter_local _ _ _ _ Hinv _ _ _ _); solve [auto | aw_side]
  end.

Lemma awaiter_keeps ts c s s' : wait_inv (s, ts) -> awaiter_step c s = Some s' -> wait_inv (s', ts).
Proof.
  intros Hinv Hs. pose proof (inv_own _ Hinv) as Ho. pose proof (inv_flag_won _ Hinv) as Hf.
  pose proof (inv_win _ Hinv) as Hw. pose proof (inv_await _ Hinv) as Ha.
  assert (won (m_completion s) <= 1) as Hwon by (destruct (m_completion s); cbn; lia).
  destruct s as [wk w co f n aw]. unfold awaiter_step in Hs. cbn [awaiter] in Hs. cbn [fst snd m_completion m_state awaiter wakeups] in *.
  unfold await_inv in Ha. cbn [awaiter m_waker m_state m_completion] in Ha.
  destruct aw as [|[|[]| |[]|[]]| |[]| |[|[]| |[]|[]]|[|[]|[]|[]|[]]|added| |added|how|how t|how []|how t];
    cbn [timeout_step request_step cancel_step fmap option_fmap option_map fst snd await_flagging await_winning] in *;
    try (injection Hs as <-); try done.
  all: try (destruct (weak _ _ _) eqn:E;
    [apply andb_true_iff in E as [_ E%bool_decide_eq_true_1]; subst|]; cbn [fst snd]).
  all: try (case_bool_decide as E; [subst|]; cbn [fst snd]).
  all: try (destruct c; aw_case Hinv). all: try (destruct co; aw_case Hinv). all: try aw_case Hinv.
  - refine (awaiter_flag _ _ _ _ Hinv _ _ _ _ _ _); try (solve [auto|aw_side]). right; right. split; [done|apply Hf; cbn; lia].
  - refine (awaiter_flag _ _ _ _ Hinv _ _ _ _ _ _); try (solve [auto|aw_side]). right; right. split; [done|apply Hf; cbn; lia].
  - assert (w = DeferredWaker.kArming) as -> by (destruct Ha as (_ & [-> | ->] & _); cbn [asked requesting] in *; [done|lia]).
    aw_case Hinv.
  - refine (awaiter_gate _ _ _ _ Hinv _ _ _ _ _); try (solve [auto|aw_side]).
    + intros [?|?]; done.
    + intros _. unfold await_inv. cbn. cbn in Ha. split_hyps. split_and!; try done. by right.
  - assert (w = DeferredWaker.kArming) as -> by (destruct Ha as (_ & [-> | ->] & _); cbn [asked requesting] in *; [done|lia]).
    aw_case Hinv.
  - cbn in Ha. split_hyps. lia.
  - cbn in Ha. split_hyps. lia.
  - assert (w = DeferredWaker.kArming \/ w = DeferredWaker.kPending) as [-> | ->] by (by destruct added, Ha as (_ & ? & _)).
    + refine (awaiter_gate _ _ _ _ Hinv _ _ _ _ _); try (solve [auto|aw_side]); [intros [?|?]; done|].
      intros _. unfold await_inv. cbn. destruct added; cbn in Ha; split_hyps; (split_and!; [done|by left|lia|done]).
    + destruct added; aw_case Hinv.
  - refine (awaiter_gate _ _ _ _ Hinv _ _ _ _ _); try (solve [auto|aw_side]).
    + cbn in Ha. destruct Ha as (_ & -> & _). cbn. lia.
    + intros _. by right.
  - destruct n as [|n]; [done|]. injection Hs as <-.
    destruct Ha as (? & [-> | ->] & Hn & _); cbn in Hn; [lia|]. aw_case Hinv.
  - pose proof (resumed_verdict _ _ how Hinv eq_refl) as Hv.
    refine (awaiter_local _ _ _ _ Hinv _ _ _ _); try (solve [auto]); try (by destruct how).
    intros s' _. subst s'. unfold await_inv. cbn. cbn in Ha. split_hyps. by split_and!.
  - cbn in Ha. destruct t; refine (awaiter_local _ _ _ _ Hinv _ _ _ _); try (solve [auto]); try (by destruct how);
      intros s' _; subst s'; unfold await_inv; cbn; split_hyps; by split_and!.
  - destruct how; [|by destruct Ha as [_ Ha]..].
    refine (awaiter_completion _ _ _ _ Hinv _ _ _ _ _ _ _ _ _); try (solve [auto|aw_side]).
Qed.

Lemma new_wait_inv operations timers : wait_inv (new_wait operations timers).
Proof.
  assert (forall w : worker_pc -> nat, w OpIdle = 0 -> w TimerWaiting = 0 ->
    total w (replicate operations OpIdle ++ replicate timers TimerWaiting) = 0) as Ht.
  { intros w E1 E2. apply total_zero, Forall_app. split; by apply Forall_replicate. }
  split; cbn [new_wait new_timer fst snd m_completion m_state awaiter wakeups]; rewrite ?Ht by done; try done; try lia.
  - cbn. lia.
  - split; [by left|done].
Qed.

Lemma timed_keeps a b : wait_inv a -> timed_step a b -> wait_inv b.
Proof.
  intros Hinv Hab. revert Hinv. destruct Hab as [c s s' ts Hs|a b [c i s ts p s' p' Hi Hs]]; intros Hinv.
  - by eapply awaiter_keeps.
  - by eapply worker_keeps.
Qed.

Lemma wait_invariant operations timers cfg : wait_reaches operations timers cfg -> wait_inv cfg.
Proof.
  apply (reachable_invariant timed_step wait_inv); [apply new_wait_inv|apply timed_keeps].
Qed.


(** ** What a wait promises *)

(** No thread is inside an operation or an expiry. *)
Definition quiet (p : worker_pc) : Prop := p = OpIdle \/ p = TimerWaiting \/ p = TimerFired.

Lemma quiet_weights ts :
  Forall quiet ts -> total owning ts = 0 /\ total winning ts = 0 /\ total waking ts = 0.
Proof.
  intros Hq. split_and!; apply total_zero; (eapply Forall_impl; [exact Hq|]);
    by intros p [->|[->| ->]].
Qed.

Lemma weak_true {A} `{EqDecision A} c (x y : A) : weak c x y = true -> x = y.
Proof. intros E. apply andb_true_iff in E as [_ E]. by apply bool_decide_eq_true_1 in E. Qed.

(** The completion of a completed wait is final. *)
Lemma request_final c s p s' p' : request_step c s p = Some (s', p') -> m_completion s' = m_completion s.
Proof. intros Hs. destruct p as [|[]|w|w|w]; cbn in Hs; repeat case_match; by simplify_eq/=. Qed.

Lemma timeout_final c s p s' p' :
  won (m_completion s) = 1 -> timeout_step c s p = Some (s', p') -> m_completion s' = m_completion s.
Proof.
  intros Hw Hs. destruct p as [|[]| |w|w]; cbn in Hs; try (by simplify_eq/=);
    (destruct (weak _ _ _) eqn:E; [apply weak_true in E; by rewrite E in Hw|by simplify_eq/=]).
Qed.

Lemma cancel_final s p s' p' :
  won (m_completion s) = 1 -> cancel_step s p = Some (s', p') -> m_completion s' = m_completion s.
Proof.
  intros Hw Hs. destruct p; cbn in Hs; try (by simplify_eq/=).
  case_bool_decide as E; [by rewrite E in Hw|by simplify_eq/=].
Qed.

Lemma awaiter_final c s s' :
  won (m_completion s) = 1 -> awaiter_step c s = Some s' -> m_completion s' = m_completion s.
Proof.
  intros Hw Hs. unfold awaiter_step in Hs.
  destruct (awaiter s) as [|p| |p| |p|p|added| |added|how|how t|how p|how t];
    try (destruct p); try (apply fmap_Some in Hs as ([s1 p1] & Hp & ->);
      cbn [at_pc m_completion fst]; eauto using timeout_final, cancel_final, request_final; fail);
    repeat case_match; by simplify_eq/=.
Qed.

Lemma worker_final (c : bool) s (p : worker_pc) s' p' :
  won (m_completion s) = 1 -> thread_step c s p = Some (s', p') -> m_completion s' = m_completion s.
Proof.
  intros Hw Hs. unfold thread_step, worker_step in Hs.
  destruct p as [| |[]| | |[]| | | |[]| |p| |p|p|]; try (by simplify_eq/=);
    try (destruct (weak _ _ _) eqn:E; [apply weak_true in E; by rewrite E in Hw|by simplify_eq/=]);
    try (destruct p); try (by simplify_eq/=);
    apply fmap_Some in Hs as ([s1 p1] & Hp & [= -> ->]); eauto using timeout_final, request_final.
Qed.

Lemma timed_final a b : timed_step a b -> won (m_completion a.1) = 1 -> m_completion b.1 = m_completion a.1.
Proof.
  intros Hab Hw. destruct Hab as [c s s' ts Hs|a b [c i s ts p s' p' Hi Hs]]; cbn [fst] in *.
  - by eapply awaiter_final.
  - by eapply worker_final.
Qed.

(** C38: A coroutine that waits with a timeout is resumed once at most, whatever the interleaving of any
    number of operations and timer expiries with its [await_suspend]: at most one wake-up is issued; none
    before [arm] has returned true, so never while [await_suspend] still uses the awaiter; none when
    [arm] returned false and the coroutine went on by itself. A commit after [kStarted] never fails, and
    no request reads the waker while the resumed coroutine clears it. *)
Theorem resumed_once operations timers s ts :
  wait_reaches operations timers (s, ts) ->
  wakeups s <= 1 /\
  (wakeups s = 1 -> (exists added, awaiter s = AwSuspended added) \/ awaiter s = AwResume Woken \/
     (exists t, awaiter s = AwClear Woken t) \/ (exists p, awaiter s = AwCancel Woken p) \/
     (exists t, awaiter s = AwFinished Woken t)) /\
  (OpCommitFailed ∉ ts) /\
  (forall p how t, awaiter s = AwClear how t -> p ∈ ts ->
     p <> OpWake (RqTry DeferredWaker.kArmed) /\ p <> TimerWake (RqTry DeferredWaker.kArmed)).
Proof.
  intros Hr. apply wait_invariant in Hr as [H1 H2 H3 H4 H5 H5' H6 H7 H8 H9]. cbn [fst snd] in *.
  assert (forall p, p ∈ ts -> bad p = 0 /\ (copying p = 1 -> winning p = 1 -> m_state s = DeferredWaker.kArmed)) as Hin.
  { intros p [i Hi]%list_elem_of_lookup. pose proof (total_lookup bad _ _ _ Hi). pose proof (total_lookup copying _ _ _ Hi).
    pose proof (total_lookup winning _ _ _ Hi). split; [lia|]. intros E1 E2.
    destruct H8 as [E|E]; [lia|done|]. rewrite E in H2. cbn [asked] in H2. destruct (m_completion s); cbn [won] in H2; lia. }
  unfold await_inv, resumed in H6. split_and!.
  - destruct (awaiter s) as [| | | | |p|p|[]| | |[]|[]|[]|[]]; split_hyps; try lia.
    destruct (m_state s); cbn [issued] in *; lia.
  - intros E. destruct (awaiter s) as [| | | | |p|p|[]| | |[]|[]|[]|[]]; split_hyps; try lia; eauto 7.
  - intros Hp. apply Hin in Hp as [Hp _]. done.
  - intros p how t Ha Hp. apply Hin in Hp as [_ Hp]. rewrite Ha in H6. destruct H6 as (_ & Hres & _).
    split; intros ->; (specialize (Hp eq_refl eq_refl)); rewrite Hp in Hres;
      destruct how as [| |]; cbn in Hres; destruct Hres as [Hres _]; try done; by destruct Hres.
Qed.

(** The timeout and the operation never both win. A coroutine that was suspended, or was completed
    before it could be, reports the timeout exactly when the completion is [kTimeoutWon], and then no
    operation commits, now or later; otherwise the completion is [kOperationWon]. At most one thread at a
    time holds the right to complete the wait, and a completed wait never changes hands again. *)
Theorem one_winner operations timers s ts :
  wait_reaches operations timers (s, ts) ->
  (forall how t, awaiter s = AwFinished how t ->
     match how with
     | NotSuspended => t = true -> m_completion s = TimeoutTimer.kTimeoutWon
     | _ => m_completion s = if t then TimeoutTimer.kTimeoutWon else TimeoutTimer.kOperationWon
     end) /\
  (total owning ts <= 1 /\ (won (m_completion s) = 1 -> total owning ts = 0)) /\
  (forall s' ts', won (m_completion s) = 1 -> rtc timed_step (s, ts) (s', ts') ->
     m_completion s' = m_completion s).
Proof.
  intros Hr. pose proof (wait_invariant _ _ _ Hr) as [H1 H2 H3 H4 H5 H5' H6 H7 H8 H9]. cbn [fst snd] in *.
  split_and!.
  - intros how t Ha. unfold await_inv in H6. rewrite Ha in H6. destruct H6 as [_ Hv].
    by destruct t, how.
  - rewrite H1. by destruct (m_completion s); cbn; lia.
  - intros Hw. rewrite H1. by destruct (m_completion s); cbn in *; lia.
  - intros s' ts' Hw Hs.
    apply (reachable_invariant timed_step (fun b => m_completion b.1 = m_completion s) (s, ts) (s', ts')); [done| |done].
    intros a b E Hab. rewrite <- E. apply timed_final; [done|by rewrite E].
Qed.

(** A wait with a timeout ends. Once no thread is inside an operation or an expiry: if a timer has
    fired, or [addTimer] had refused the timer, then the wait has been completed and a suspended
    coroutine has its wake-up; and if it is suspended without one then nobody has completed the wait and
    every timer is still to fire. *)
Theorem timed_wait_returns operations timers s ts :
  wait_reaches operations timers (s, ts) -> Forall quiet ts ->
  (TimerFired ∈ ts -> won (m_completion s) = 1) /\
  (forall added, awaiter s = AwSuspended added ->
     (TimerFired ∈ ts \/ added = false -> wakeups s = 1) /\
     (wakeups s = 0 -> m_completion s = TimeoutTimer.kPending /\ (TimerFired ∉ ts) /\ added = true)).
Proof.
  intros Hr Hq. apply wait_invariant in Hr as [H1 H2 H3 H4 H5 H5' H6 H7 H8 H9]. cbn [fst snd] in *.
  destruct (quiet_weights ts Hq) as (E1 & E2 & E3). rewrite E1 in H1. rewrite E2 in H2, H3. rewrite E3 in H6.
  assert (settled (m_completion s) = true -> won (m_completion s) = 1) as Hset.
  { by destruct (m_completion s); cbn in *. }
  assert (TimerFired ∈ ts -> settled (m_completion s) = true) as Hfired.
  { intros [i Hi]%list_elem_of_lookup. apply H7. pose proof (total_lookup expired _ _ _ Hi). done. }
  split; [auto|]. intros added Ha. unfold await_inv in H6. rewrite Ha in *. cbn [await_winning alone] in *.
  destruct H6 as (_ & Hg & Hn & Hadd). specialize (H3 eq_refl).
  assert (settled (m_completion s) = true -> wakeups s = 1) as Hwake.
  { intros Hs. apply Hset in Hs. rewrite Hs in H3. destruct Hg as [Hg|Hg]; rewrite Hg in *; cbn [asked issued] in *; lia. }
  split; [intros [?|?]; auto|]. intros E. rewrite E in Hn.
  assert (settled (m_completion s) = true -> False) as Hno by (intros Hs; apply Hwake in Hs; lia).
  split_and!.
  - destruct (m_completion s); by cbn in *.
  - intros Hf. auto.
  - destruct added; [done|]. exfalso. auto.
Qed.

(** ** Witnesses and examples *)

(** One operation that commits while the timer fires: the timer asks, the operation wins. *)
Definition commit_wins : list (option nat * bool) :=
  [(None, false); (None, false); (None, true);
   (Some 0, false); (Some 0, false); (Some 0, false);
   (Some 1, false); (Some 1, false); (Some 1, false); (Some 1, false); (Some 1, false);
   (None, false);
   (Some 0, true); (Some 0, false); (Some 0, false); (Some 0, false);
   (Some 0, false); (Some 0, false); (Some 0, false); (Some 0, false); (Some 0, false);
   (None, false); (None, false); (None, false); (None, false); (None, false); (None, false)].

(** The same with an abort: the expiry that came meanwhile takes effect. *)
Definition abort_times_out : list (option nat * bool) :=
  [(None, false); (None, false); (None, true);
   (Some 0, false); (Some 0, false); (Some 0, false);
   (Some 1, false); (Some 1, false); (Some 1, false); (Some 1, false); (Some 1, false);
   (Some 0, false); (Some 0, false); (Some 0, false); (Some 0, false);
   (None, false)].

Definition outcome (schedule : list (option nat * bool)) (operations timers : nat) : config timer_state worker_pc :=
  default (new_wait operations timers) (exec_wait schedule (new_wait operations timers)).

Lemma outcome_reaches schedule operations timers :
  wait_reaches operations timers ((outcome schedule operations timers).1, (outcome schedule operations timers).2).
Proof.
  rewrite <- surjective_pairing. unfold outcome, wait_reaches.
  destruct (exec_wait _ _) as [cfg|] eqn:E; [by eapply exec_wait_sound|done].
Qed.

Example commit_wins_result :
  let cfg := outcome commit_wins 1 1 in
  awaiter cfg.1 = AwFinished Woken false /\ wakeups cfg.1 = 1 /\
  m_completion cfg.1 = TimeoutTimer.kOperationWon /\ cfg.2 = [OpIdle; TimerFired].
Proof. by vm_compute. Qed.

Example abort_times_out_result :
  let cfg := outcome abort_times_out 1 1 in
  awaiter cfg.1 = AwSuspended true /\ m_completion cfg.1 = TimeoutTimer.kTimeoutWon /\
  cfg.2 = [OpWake RqLoad; TimerFired].
Proof. by vm_compute. Qed.

Lemma resumed_once_witness :
  let cfg := outcome abort_times_out 1 1 in wakeups cfg.1 <= 1 /\ (OpCommitFailed ∉ cfg.2).
Proof.
  destruct (resumed_once 1 1 _ _ (outcome_reaches abort_times_out 1 1)) as (H1 & _ & H2 & _). by split.
Defined.

Lemma one_winner_witness :
  let cfg := outcome commit_wins 1 1 in
  awaiter cfg.1 = AwFinished Woken false /\ m_completion cfg.1 = TimeoutTimer.kOperationWon.
Proof.
  assert (awaiter (outcome commit_wins 1 1).1 = AwFinished Woken false) as Ha by (by vm_compute).
  destruct (one_winner 1 1 _ _ (outcome_reaches commit_wins 1 1)) as (H1 & _).
  split; [exact Ha|exact (H1 Woken false Ha)].
Defined.

Lemma timed_wait_returns_witness :
  let cfg := outcome (abort_times_out ++ [(Some 0, false); (Some 0, false); (Some 0, false); (Some 0, false);
    (Some 0, false)]) 1 1 in
  Forall quiet cfg.2 /\ awaiter cfg.1 = AwSuspended true /\ wakeups cfg.1 = 1.
Proof.
  intros cfg.
  assert (Forall quiet cfg.2) as Hq.
  { replace cfg.2 with [OpIdle; TimerFired] by (by vm_compute).
    apply Forall_cons. split; [by left|]. apply Forall_cons. split; [by right; right|constructor]. }
  assert (awaiter cfg.1 = AwSuspended true) as Ha by (by vm_compute).
  destruct (timed_wait_returns 1 1 _ _ (outcome_reaches (abort_times_out ++ [(Some 0, false); (Some 0, false);
    (Some 0, false); (Some 0, false); (Some 0, false)]) 1 1) Hq) as (_ & H2).
  split; [done|]. split; [done|]. destruct (H2 true Ha) as [H3 _]. apply H3. left.
  apply list_elem_of_lookup. exists 1. by vm_compute.
Defined.
