(* ===== verification/AsyncMutex.v ===== *)
(** * The asynchronous mutex

    [galay-kernel/async/async_mutex.h]: [AsyncMutex], its waiters and [AsyncMutexAwaitable], with
    [WithTimeout] around it. Every access to an atomic or to the waiter queue is a step; accesses are
    interleaved sequentially consistently. The queue is a library ([moodycamel::ConcurrentQueue]): it is
    an instance of [WaiterQueue], of which only the elements it holds are known, not their order. *)

From Stdlib Require Import Lia.
From stdpp Require Import base list relations.
From S2P Require Import Interleave.

(** What the code uses of the queue; the argument of [q_try_dequeue] is the library's own choice. A failed
    [q_try_dequeue] says nothing of what the queue holds. *)
Class WaiterQueue (Q : Type) : Type := {
  q_empty : Q;
  q_enqueue : nat -> Q -> Q;
  q_try_dequeue : nat -> Q -> option (nat * Q)
}.

Class WaiterQueueLaws (Q : Type) `{WaiterQueue Q} : Type := {
  q_elements : Q -> list nat;
  q_elements_empty : q_elements q_empty = [];
  q_enqueue_elements w q : q_elements (q_enqueue w q) ≡ₚ w :: q_elements q;
  q_try_dequeue_some c q w q' : q_try_dequeue c q = Some (w, q') -> q_elements q ≡ₚ w :: q_elements q'
}.

(** [AsyncMutexWaiter], with the calls of [wakeUp] on its waker, and whether the timer of the wait it
    belongs to has won. *)
Record AsyncMutexWaiter : Type := mkWaiter {
  active : bool;
  waker : bool;
  woken : nat;
  timedOut : bool
}.

Definition new_waiter : AsyncMutexWaiter := mkWaiter true true 0 false.
Definition set_active (a : bool) (w : AsyncMutexWaiter) : AsyncMutexWaiter :=
  mkWaiter a (waker w) (woken w) (timedOut w).
Definition clear_waker (w : AsyncMutexWaiter) : AsyncMutexWaiter :=
  mkWaiter (active w) false (woken w) (timedOut w).
Definition wakeUp (w : AsyncMutexWaiter) : AsyncMutexWaiter :=
  mkWaiter (active w) (waker w) (if waker w then S (woken w) else woken w) (timedOut w).
Definition timer_fires (w : AsyncMutexWaiter) : AsyncMutexWaiter :=
  mkWaiter (active w) (waker w) (woken w) true.

(** ** Programs *)

(** [wakeNextWaiterIfUnlocked]; a waiter is its index in the heap. *)
Inductive wake_pc : Type :=
| WkCheck
| WkDequeue
| WkClaim (w : nat)
| WkTryLock (w : nat)
| WkWakeUp (w : nat)
| WkReactivate (w : nat)
| WkEnqueue (w : nat)
| WkReturn.

(** A coroutine that locks and unlocks: [await_ready], [await_suspend], [await_resume], [unlock]. *)
Inductive task_pc : Type :=
| TIdle
| TTryLock
| TCreate
| TEnqueue (w : nat)
| TSuspended (w : nat)
| TResume (w : nat)
| TMarkTimeout (w : nat)
| TMarkClear (w : nat)
| TCancel (w : nat) (locked : bool)
| TCancelClear (w : nat) (locked : bool)
| TCritical
| TUnlock
| TUnlockWake (p : wake_pc).

Section Mutex.
Context {Q : Type} `{WaiterQueue Q}.

Record mutex_state : Type := mkMutex {
  m_locked : bool;
  m_waiters : Q;
  heap : list AsyncMutexWaiter
}.

Definition set_locked (b : bool) (s : mutex_state) : mutex_state := mkMutex b (m_waiters s) (heap s).
Definition set_queue (q : Q) (s : mutex_state) : mutex_state := mkMutex (m_locked s) q (heap s).
Definition set_waiter (w : nat) (f : AsyncMutexWaiter -> AsyncMutexWaiter) (s : mutex_state) : mutex_state :=
  mkMutex (m_locked s) (m_waiters s) (alter f w (heap s)).

Definition field {A} (f : AsyncMutexWaiter -> A) (w : nat) (s : mutex_state) : option A := f <$> heap s !! w.

(** The step of [wakeNextWaiterIfUnlocked]; [c] is the choice of the queue. *)
Definition wake_step (c : nat) (s : mutex_state) (p : wake_pc) : option (mutex_state * wake_pc) :=
  match p with
  | WkCheck => Some (s, if m_locked s then WkReturn else WkDequeue)
  | WkDequeue =>
      Some (match q_try_dequeue c (m_waiters s) with
            | Some (w, q) => (set_queue q s, WkClaim w)
            | None => (s, WkReturn)
            end)
  | WkClaim w =>
      a ← field active w s;
      Some (if a : bool then (set_waiter w (set_active false) s, WkTryLock w) else (s, WkDequeue))
  | WkTryLock w => Some (if m_locked s then (s, WkReactivate w) else (set_locked true s, WkWakeUp w))
  | WkWakeUp w => Some (set_waiter w wakeUp s, WkReturn)
  | WkReactivate w => Some (set_waiter w (set_active true) s, WkEnqueue w)
  | WkEnqueue w => Some (set_queue (q_enqueue w (m_waiters s)) s, WkReturn)
  | WkReturn => None
  end.

(** The step of a coroutine, and the wake-up loop it leaves running: [await_suspend] ends with
    [wakeNextWaiterIfUnlocked] on its own thread, while the coroutine may already be resumed elsewhere. *)
Definition task_step (c : nat) (s : mutex_state) (p : task_pc) : option (mutex_state * task_pc * list wake_pc) :=
  match p with
  | TIdle => Some (s, TTryLock, [])
  | TTryLock => Some (if m_locked s then (s, TCreate, []) else (set_locked true s, TCritical, []))
  | TCreate => Some (mkMutex (m_locked s) (m_waiters s) (heap s ++ [new_waiter]), TEnqueue (length (heap s)), [])
  | TEnqueue w => Some (set_queue (q_enqueue w (m_waiters s)) s, TSuspended w, [WkCheck])
  | TSuspended w =>
      n ← field woken w s;
      t ← field timedOut w s;
      if (0 <? n) || t then Some (s, TResume w, []) else None
  | TResume w => t ← field timedOut w s; Some (s, if t : bool then TMarkTimeout w else TCancel w true, [])
  | TMarkTimeout w =>
      a ← field active w s;
      Some (set_waiter w (set_active false) s, if a : bool then TMarkClear w else TCancel w false, [])
  | TMarkClear w => Some (set_waiter w clear_waker s, TCancel w false, [])
  | TCancel w locked =>
      a ← field active w s;
      Some (set_waiter w (set_active false) s,
            if a : bool then TCancelClear w locked else if locked then TCritical else TIdle, [])
  | TCancelClear w locked =>
      Some (set_waiter w clear_waker s, if locked : bool then TCritical else TIdle, [])
  | TCritical => Some (s, TUnlock, [])
  | TUnlock => Some (set_locked false s, TUnlockWake WkCheck, [])
  | TUnlockWake WkReturn => Some (s, TIdle, [])
  | TUnlockWake p => r ← wake_step c s p; Some (r.1, TUnlockWake r.2, [])
  end.

(** All coroutines, and all wake-up loops left running by [await_suspend]. *)
Record mutex_config : Type := mkConfig {
  shared : mutex_state;
  tasks : list task_pc;
  wakers : list wake_pc
}.

Inductive mutex_step : mutex_config -> mutex_config -> Prop :=
| task_moves c i s ts ws p s' p' new :
    ts !! i = Some p -> task_step c s p = Some (s', p', new) ->
    mutex_step (mkConfig s ts ws) (mkConfig s' (<[i := p']> ts) (ws ++ new))
| waker_moves c i s ts ws p s' p' :
    ws !! i = Some p -> wake_step c s p = Some (s', p') ->
    mutex_step (mkConfig s ts ws) (mkConfig s' ts (<[i := p']> ws))
| timer_moves w s ts ws :
    w < length (heap s) -> mutex_step (mkConfig s ts ws) (mkConfig (set_waiter w timer_fires s) ts ws).

Definition new_mutex (n : nat) : mutex_config :=
  mkConfig (mkMutex false q_empty []) (replicate n TIdle) [].
End Mutex.
Arguments mutex_state Q : clear implicits.
Arguments mutex_config Q : clear implicits.

(** ** Where a waiter and the lock are *)

Section Invariant.
Context {Q : Type} `{WaiterQueueLaws Q}.

Definition count (w : nat) (l : list nat) : nat := length (filter (fun x => x = w) l).

#[local] Instance count_proper w : Proper ((≡ₚ) ==> eq) (count w).
Proof. intros l k E. unfold count. by rewrite E. Qed.

(** The coroutines that know the waiter, and those still to put it in the queue. *)
Definition refers (w : nat) (p : task_pc) : nat :=
  match p with
  | TEnqueue v | TSuspended v | TResume v | TMarkTimeout v | TMarkClear v
  | TCancel v _ | TCancelClear v _ => if decide (v = w) then 1 else 0
  | _ => 0
  end.
Definition enqueuing (w : nat) (p : task_pc) : nat :=
  match p with TEnqueue v => if decide (v = w) then 1 else 0 | _ => 0 end.
(** The wake-up loops that took the waiter out of the queue. *)
Definition handling (w : nat) (p : wake_pc) : nat :=
  match p with
  | WkClaim v | WkTryLock v | WkWakeUp v | WkReactivate v | WkEnqueue v => if decide (v = w) then 1 else 0
  | _ => 0
  end.
Definition task_handling (w : nat) (p : task_pc) : nat :=
  match p with TUnlockWake p => handling w p | _ => 0 end.

Definition woken_of (h : list AsyncMutexWaiter) (w : nat) : nat :=
  match h !! w with Some wt => woken wt | None => 0 end.

(** The lock: held by a critical section, on its way to a waiter, or on its way to a resumed coroutine. *)
Definition wake_token (p : wake_pc) : nat := match p with WkWakeUp _ => 1 | _ => 0 end.
Definition token (h : list AsyncMutexWaiter) (p : task_pc) : nat :=
  match p with
  | TCritical | TUnlock | TCancel _ true | TCancelClear _ true => 1
  | TSuspended w | TResume w => if decide (woken_of h w = 0) then 0 else 1
  | TUnlockWake p => wake_token p
  | _ => 0
  end.

(** A waiter is in one place: about to be enqueued, in the queue, with a wake-up loop, or woken. *)
Definition places (cfg : mutex_config Q) (w : nat) : nat :=
  total (enqueuing w) (tasks cfg) + count w (q_elements (m_waiters (shared cfg))) +
  total (task_handling w) (tasks cfg) + total (handling w) (wakers cfg) + woken_of (heap (shared cfg)) w.

Definition locked (cfg : mutex_config Q) : nat := if m_locked (shared cfg) then 1 else 0.
Definition tokens (cfg : mutex_config Q) : nat :=
  total (token (heap (shared cfg))) (tasks cfg) + total wake_token (wakers cfg).

Record mutex_inv (cfg : mutex_config Q) : Prop := mkMutexInv {
  inv_tokens : tokens cfg <= locked cfg;
  inv_refers : forall w, total (refers w) (tasks cfg) <= 1;
  inv_place : forall w, places cfg w <= 1;
  inv_fresh : forall w, length (heap (shared cfg)) <= w ->
    total (refers w) (tasks cfg) = 0 /\ places cfg w = 0;
  inv_resume : forall i w, tasks cfg !! i = Some (TResume w) ->
    exists wt, heap (shared cfg) !! w = Some wt /\ (woken wt <> 0 \/ timedOut wt = true)
}.


Lemma woken_alter f w h v :
  (forall x, woken (f x) = woken x) -> woken_of (alter f w h) v = woken_of h v.
Proof.
  intros Hf. unfold woken_of. destruct (decide (v = w)) as [->|Hn].
  - rewrite list_lookup_alter_eq. destruct (h !! w) as [x|]; [|done]. apply Hf.
  - by rewrite list_lookup_alter_ne.
Qed.

Lemma woken_wakeUp w h v :
  woken_of (alter wakeUp w h) v <= woken_of h v + (if decide (w = v) then 1 else 0).
Proof.
  unfold woken_of. destruct (decide (w = v)) as [->|Hn].
  - rewrite list_lookup_alter_eq. destruct (h !! v) as [x|]; cbn; [|lia]. destruct (waker x); lia.
  - rewrite list_lookup_alter_ne by done. lia.
Qed.

Lemma woken_new h v : woken_of (h ++ [new_waiter]) v = woken_of h v.
Proof.
  unfold woken_of. destruct (decide (v < length h)) as [Hv|Hv]; [by rewrite lookup_app_l|].
  rewrite lookup_app_r by lia. rewrite (proj2 (lookup_ge_None h v)) by lia.
  by destruct (v - length h) as [|[|n]].
Qed.

Lemma token_ext h h' p : (forall v, woken_of h v = woken_of h' v) -> token h p = token h' p.
Proof. intros E. destruct p; cbn; by rewrite ?E. Qed.

Lemma token_wakeUp w h p : token (alter wakeUp w h) p <= token h p + refers w p.
Proof.
  assert (forall v, (if decide (woken_of (alter wakeUp w h) v = 0) then 0 else 1) <=
    (if decide (woken_of h v = 0) then 0 else 1) + (if decide (v = w) then 1 else 0)) as Hv.
  { intros v. pose proof (woken_wakeUp w h v). repeat case_decide; try lia; congruence. }
  destruct p as [| | |v|v|v|v|v|v []|v []| | |v]; cbn; try lia; apply Hv.
Qed.

Lemma count_cons w v l : count w (v :: l) = (if decide (v = w) then 1 else 0) + count w l.
Proof. unfold count. cbn. by case_decide. Qed.

(** What a step of [wakeNextWaiterIfUnlocked] does to the places and to the lock. *)
Definition held (s : mutex_state Q) : nat := if m_locked s then 1 else 0.

Lemma wake_effect c s p s' p' :
  wake_step c s p = Some (s', p') ->
  (forall v, count v (q_elements (m_waiters s')) + handling v p' + woken_of (heap s') v <=
     count v (q_elements (m_waiters s)) + handling v p + woken_of (heap s) v) /\
  length (heap s') = length (heap s) /\
  ((held s' + wake_token p = held s + wake_token p' /\ forall v, woken_of (heap s') v = woken_of (heap s) v) \/
   exists w, p = WkWakeUp w /\ p' = WkReturn /\ s' = set_waiter w wakeUp s) /\
  (forall v wt, heap s !! v = Some wt -> exists wt', heap s' !! v = Some wt' /\
     woken wt <= woken wt' /\ timedOut wt' = timedOut wt).
Proof.
  assert (forall f (w v : nat) wt (h : list AsyncMutexWaiter), h !! v = Some wt ->
    (forall x, woken x <= woken (f x) /\ timedOut (f x) = timedOut x) ->
    exists wt', alter f w h !! v = Some wt' /\ woken wt <= woken wt' /\ timedOut wt' = timedOut wt) as Halter.
  { intros f w v wt h Hv Hf. destruct (decide (v = w)) as [->|Hn].
    - rewrite list_lookup_alter_eq, Hv. eexists. split; [done|]. by apply Hf.
    - rewrite list_lookup_alter_ne by done. by exists wt. }
  intros Hs. destruct p as [| |w|w|w|w|w|]; cbn [wake_step] in Hs; try done.
  - injection Hs as <- <-. destruct (m_locked s); split_and!; try done; try (by left); by eauto.
  - destruct (q_try_dequeue c (m_waiters s)) as [[w q]|] eqn:E; injection Hs as <- <-.
    + apply q_try_dequeue_some in E. split_and!; try done; [|by left|by eauto].
      intros v. cbn. rewrite E, count_cons. lia.
    + split_and!; try done; [by left|by eauto].
  - unfold field in Hs. destruct (heap s !! w) as [x|] eqn:E; [|done]. cbn in Hs.
    assert (forall v, woken_of (alter (set_active false) w (heap s)) v = woken_of (heap s) v) as Hw
      by (intros; by apply woken_alter).
    destruct (active x); injection Hs as <- <-; cbn.
    + split_and!; [intros v; by rewrite Hw|by rewrite length_alter|by left|]. intros v wt Hv. by apply Halter.
    + split_and!; [intros v; lia|done|by left|by eauto].
  - destruct (m_locked s) eqn:E; injection Hs as <- <-; split_and!; try done; try (by eauto); left; split; try done.
    unfold held. cbn. by rewrite E.
  - injection Hs as <- <-. cbn. split_and!; [|by rewrite length_alter|right; by exists w|].
    + intros v. pose proof (woken_wakeUp w (heap s) v). lia.
    + intros v wt Hv. apply Halter; [done|]. intros x. cbn. by destruct (waker x); split; try lia.
  - injection Hs as <- <-. cbn.
    assert (forall v, woken_of (alter (set_active true) w (heap s)) v = woken_of (heap s) v) as Hw
      by (intros; by apply woken_alter).
    split_and!; [intros v; by rewrite Hw|by rewrite length_alter|by left|]. intros v wt Hv. by apply Halter.
  - injection Hs as <- <-. cbn. split_and!; [|done|by left|by eauto].
    intros v. rewrite q_enqueue_elements, count_cons. lia.
Qed.

(** ** Every step keeps the invariant *)

Lemma keeps_wake c cfg p s' p' ts' ws' :
  mutex_inv cfg -> wake_step c (shared cfg) p = Some (s', p') ->
  (forall v, total (enqueuing v) ts' = total (enqueuing v) (tasks cfg)) ->
  (forall v, total (refers v) ts' = total (refers v) (tasks cfg)) ->
  (forall v, total (task_handling v) ts' + total (handling v) ws' + handling v p =
     total (task_handling v) (tasks cfg) + total (handling v) (wakers cfg) + handling v p') ->
  (forall h, total (token h) ts' + total wake_token ws' + wake_token p =
     total (token h) (tasks cfg) + total wake_token (wakers cfg) + wake_token p') ->
  (forall i w, ts' !! i = Some (TResume w) -> tasks cfg !! i = Some (TResume w)) ->
  mutex_inv (mkConfig s' ts' ws').
Proof.
  destruct cfg as [s ts ws]. cbn [shared tasks wakers]. intros [H1 H2 H3 H4 H5] Hs E1 E2 E3 E4 E5.
  unfold tokens, locked, places in *. cbn [shared tasks wakers] in *.
  destruct (wake_effect c s p s' p' Hs) as (P1 & P2 & P3 & P4).
  assert (forall v, total (enqueuing v) ts' + count v (q_elements (m_waiters s')) + total (task_handling v) ts' +
    total (handling v) ws' + woken_of (heap s') v <=
    total (enqueuing v) ts + count v (q_elements (m_waiters s)) + total (task_handling v) ts +
    total (handling v) ws + woken_of (heap s) v) as Hplace.
  { intros v. specialize (P1 v). specialize (E1 v). specialize (E3 v). lia. }
  split; unfold tokens, locked, places; cbn [shared tasks wakers].
  - specialize (E4 (heap s')). destruct P3 as [[P3 P5]|(w & -> & -> & ->)].
    + rewrite !(total_ext (token (heap s')) (token (heap s))) in * by (intros; by apply token_ext).
      unfold held in P3. lia.
    + cbn [wake_token set_waiter heap] in *.
      pose proof (total_add _ _ _ ts (token_wakeUp w (heap s))) as Ht. specialize (H2 w).
      change (m_locked (set_waiter w wakeUp s)) with (m_locked s). lia.
  - intros v. by rewrite E2.
  - intros v. specialize (H3 v). specialize (Hplace v). lia.
  - intros v Hv. rewrite P2 in Hv. destruct (H4 v Hv) as [Hr Hp]. specialize (Hplace v). rewrite E2. split; [done|lia].
  - intros i w Hi. apply E5, H5 in Hi as (wt & Hw & Hr). destruct (P4 w wt Hw) as (wt' & Hw' & Hle & Ht).
    exists wt'. split; [done|]. rewrite Ht. destruct Hr; [left; lia|by right].
Qed.

Lemma waker_keeps c i cfg p s' p' :
  mutex_inv cfg -> wakers cfg !! i = Some p -> wake_step c (shared cfg) p = Some (s', p') ->
  mutex_inv (mkConfig s' (tasks cfg) (<[i := p']> (wakers cfg))).
Proof.
  intros Hinv Hi Hs. eapply keeps_wake; [done|done|done|done|..|done].
  - intros v. pose proof (total_insert (handling v) _ i p p' Hi). lia.
  - intros h. pose proof (total_insert wake_token _ i p p' Hi). lia.
Qed.

Lemma unlock_wake_keeps c i cfg p s' p' :
  mutex_inv cfg -> tasks cfg !! i = Some (TUnlockWake p) -> wake_step c (shared cfg) p = Some (s', p') ->
  mutex_inv (mkConfig s' (<[i := TUnlockWake p']> (tasks cfg)) (wakers cfg)).
Proof.
  intros Hinv Hi Hs. eapply keeps_wake; [done|done|..].
  - intros v. pose proof (total_insert (enqueuing v) _ i _ (TUnlockWake p') Hi). cbn in *. lia.
  - intros v. pose proof (total_insert (refers v) _ i _ (TUnlockWake p') Hi). cbn in *. lia.
  - intros v. pose proof (total_insert (task_handling v) _ i _ (TUnlockWake p') Hi). cbn in *. lia.
  - intros h. pose proof (total_insert (token h) _ i _ (TUnlockWake p') Hi). cbn in *. lia.
  - intros j w Hj. destruct (decide (i = j)) as [->|Hn]; [|by rewrite list_lookup_insert_ne in Hj].
    rewrite list_lookup_insert_eq in Hj by (by eapply lookup_lt_Some). done.
Qed.

(** The other steps of a coroutine that leave the queue and the heap's wake-ups alone. *)
Lemma keeps_task i cfg p s' p' new :
  mutex_inv cfg -> tasks cfg !! i = Some p ->
  q_elements (m_waiters s') = q_elements (m_waiters (shared cfg)) ->
  (forall v, woken_of (heap s') v = woken_of (heap (shared cfg)) v) ->
  length (heap s') = length (heap (shared cfg)) ->
  (forall v wt, heap (shared cfg) !! v = Some wt -> exists wt', heap s' !! v = Some wt' /\
     woken wt <= woken wt' /\ timedOut wt' = timedOut wt) ->
  (forall v, enqueuing v p' = enqueuing v p) -> (forall v, refers v p' <= refers v p) ->
  (forall v, task_handling v p' = task_handling v p) ->
  (total (token (heap (shared cfg))) (tasks cfg) <= held (shared cfg) ->
   token (heap (shared cfg)) p' + held (shared cfg) <= token (heap (shared cfg)) p + held s') ->
  (forall v, p' = TResume v -> exists wt, heap s' !! v = Some wt /\ (woken wt <> 0 \/ timedOut wt = true)) ->
  Forall (fun q => wake_token q = 0 /\ forall v, handling v q = 0) new ->
  mutex_inv (mkConfig s' (<[i := p']> (tasks cfg)) (wakers cfg ++ new)).
Proof.
  destruct cfg as [s ts ws]. cbn [shared tasks wakers]. intros [H1 H2 H3 H4 H5] Hi Eq Ew El Eh E1 E2 E3 E4 E5 En.
  unfold tokens, locked, places in *. cbn [shared tasks wakers] in *.
  assert (total wake_token (ws ++ new) = total wake_token ws /\
    forall v, total (handling v) (ws ++ new) = total (handling v) ws) as [Hn1 Hn2].
  { split; [|intros v]; rewrite total_app, (proj2 (total_zero _ new)); try lia;
      eapply Forall_impl; try exact En; intros q [? ?]; auto. }
  split; unfold tokens, locked, places; cbn [shared tasks wakers].
  - rewrite Hn1, (total_ext (token (heap s')) (token (heap s))) by (intros; by apply token_ext).
    pose proof (total_insert (token (heap s)) ts i p p' Hi). unfold held in E4.
    assert (total (token (heap s)) ts <= if m_locked s then 1 else 0) as Ht by lia. specialize (E4 Ht). lia.
  - intros v. pose proof (total_insert (refers v) ts i p p' Hi). specialize (E2 v). specialize (H2 v). lia.
  - intros v. rewrite Hn2, Eq, Ew. pose proof (total_insert (enqueuing v) ts i p p' Hi).
    pose proof (total_insert (task_handling v) ts i p p' Hi). specialize (E1 v). specialize (E3 v). specialize (H3 v). lia.
  - intros v Hv. rewrite Hn2, Eq, Ew. rewrite El in Hv. destruct (H4 v Hv) as [Hr Hp].
    pose proof (total_insert (refers v) ts i p p' Hi). specialize (E2 v).
    pose proof (total_insert (enqueuing v) ts i p p' Hi).
    pose proof (total_insert (task_handling v) ts i p p' Hi). specialize (E1 v). specialize (E3 v). lia.
  - intros j w Hj. destruct (decide (i = j)) as [->|Hn].
    + rewrite list_lookup_insert_eq in Hj by (by eapply lookup_lt_Some). injection Hj as ->. by apply E5.
    + rewrite list_lookup_insert_ne in Hj by done. apply H5 in Hj as (wt & Hw & Hr).
      destruct (Eh w wt Hw) as (wt' & Hw' & Hle & Ht). exists wt'. split; [done|]. rewrite Ht.
      destruct Hr; [left; lia|by right].
Qed.

Lemma alter_keeps f w (h : list AsyncMutexWaiter) :
  (forall x, woken (f x) = woken x /\ timedOut (f x) = timedOut x) ->
  (forall v, woken_of (alter f w h) v = woken_of h v) /\ length (alter f w h) = length h /\
  (forall (v : nat) wt, h !! v = Some wt -> exists wt', alter f w h !! v = Some wt' /\
     woken wt <= woken wt' /\ timedOut wt' = timedOut wt).
Proof.
  intros Hf. split_and!.
  - intros v. apply woken_alter. intros x. apply Hf.
  - apply length_alter.
  - intros v wt Hv. destruct (decide (v = w)) as [->|Hn].
    + rewrite list_lookup_alter_eq, Hv. eexists. split; [done|]. destruct (Hf wt) as [-> ->]. by split.
    + rewrite list_lookup_alter_ne by done. by exists wt.
Qed.

Lemma create_keeps i cfg :
  mutex_inv cfg -> tasks cfg !! i = Some TCreate ->
  let s := shared cfg in
  mutex_inv (mkConfig (mkMutex (m_locked s) (m_waiters s) (heap s ++ [new_waiter]))
    (<[i := TEnqueue (length (heap s))]> (tasks cfg)) (wakers cfg)).
Proof.
  destruct cfg as [s ts ws]. cbn [shared tasks wakers]. intros [H1 H2 H3 H4 H5] Hi. cbn zeta.
  unfold tokens, locked, places in *. cbn [shared tasks wakers] in *.
  set (p' := TEnqueue (length (heap s))).
  assert (forall v, enqueuing v p' = refers v p') as Hp' by done.
  assert (forall v, refers v p' = if decide (length (heap s) = v) then 1 else 0) as Hr' by done.
  split; unfold tokens, locked, places; cbn [shared tasks wakers m_locked m_waiters heap].
  - rewrite (total_ext (token (heap s ++ [new_waiter])) (token (heap s)))
      by (intros; apply token_ext; intros; apply woken_new).
    pose proof (total_insert (token (heap s)) ts i _ p' Hi) as E. cbn [token p'] in E. cbn in E. lia.
  - intros v. pose proof (total_insert (refers v) ts i _ p' Hi) as E. rewrite Hr' in E.
    specialize (H2 v). case_decide as Hd; [|cbn in E; lia]. destruct (H4 v); [lia|]. cbn in E. lia.
  - intros v. rewrite woken_new. pose proof (total_insert (enqueuing v) ts i _ p' Hi) as E.
    pose proof (total_insert (task_handling v) ts i _ p' Hi) as E'. rewrite Hp', Hr' in E. specialize (H3 v).
    case_decide as Hd; [|cbn in E, E'; lia]. destruct (H4 v); [lia|]. cbn in E, E'. lia.
  - intros v. rewrite length_app. cbn [length]. intros Hv. rewrite woken_new.
    pose proof (total_insert (refers v) ts i _ p' Hi) as Er. pose proof (total_insert (enqueuing v) ts i _ p' Hi) as E.
    pose proof (total_insert (task_handling v) ts i _ p' Hi) as E'. rewrite Hp', Hr' in E. rewrite Hr' in Er.
    rewrite decide_False in E, Er by lia. destruct (H4 v); [lia|]. cbn in E, E', Er. lia.
  - intros j w Hj. destruct (decide (i = j)) as [->|Hn].
    + by rewrite list_lookup_insert_eq in Hj by (by eapply lookup_lt_Some).
    + rewrite list_lookup_insert_ne in Hj by done. apply H5 in Hj as (wt & Hw & Hr). exists wt. split; [|done].
      by apply lookup_app_l_Some.
Qed.

Lemma enqueue_keeps i w cfg :
  mutex_inv cfg -> tasks cfg !! i = Some (TEnqueue w) ->
  mutex_inv (mkConfig (set_queue (q_enqueue w (m_waiters (shared cfg))) (shared cfg))
    (<[i := TSuspended w]> (tasks cfg)) (wakers cfg ++ [WkCheck])).
Proof.
  destruct cfg as [s ts ws]. cbn [shared tasks wakers]. intros [H1 H2 H3 H4 H5] Hi.
  unfold tokens, locked, places in *. cbn [shared tasks wakers] in *.
  assert (woken_of (heap s) w = 0) as Hw.
  { pose proof (total_lookup (enqueuing w) ts i _ Hi) as E. cbn in E. rewrite decide_True in E by done.
    specialize (H3 w). lia. }
  split; unfold tokens, locked, places; cbn [shared tasks wakers set_queue m_locked m_waiters heap].
  - rewrite total_app. pose proof (total_insert (token (heap s)) ts i _ (TSuspended w) Hi) as E. cbn in E.
    rewrite Hw, decide_True in E by done. rewrite total_one. cbn [wake_token]. lia.
  - intros v. pose proof (total_insert (refers v) ts i _ (TSuspended w) Hi) as E. cbn in E. specialize (H2 v). lia.
  - intros v. rewrite total_app, total_one, q_enqueue_elements, count_cons. cbn [handling].
    pose proof (total_insert (enqueuing v) ts i _ (TSuspended w) Hi) as E.
    pose proof (total_insert (task_handling v) ts i _ (TSuspended w) Hi) as E'. cbn in E, E'. specialize (H3 v). lia.
  - intros v Hv. rewrite total_app, total_one, q_enqueue_elements, count_cons. cbn [handling].
    pose proof (total_insert (refers v) ts i _ (TSuspended w) Hi) as Er.
    pose proof (total_insert (enqueuing v) ts i _ (TSuspended w) Hi) as E.
    pose proof (total_insert (task_handling v) ts i _ (TSuspended w) Hi) as E'. cbn in E, E', Er.
    destruct (H4 v Hv). lia.
  - intros j v Hj. destruct (decide (i = j)) as [->|Hn].
    + by rewrite list_lookup_insert_eq in Hj by (by eapply lookup_lt_Some).
    + rewrite list_lookup_insert_ne in Hj by done. by apply H5 in Hj.
Qed.

Lemma timer_keeps w cfg :
  mutex_inv cfg -> mutex_inv (mkConfig (set_waiter w timer_fires (shared cfg)) (tasks cfg) (wakers cfg)).
Proof.
  destruct cfg as [s ts ws]. cbn [shared tasks wakers]. intros [H1 H2 H3 H4 H5].
  unfold tokens, locked, places in *. cbn [shared tasks wakers] in *.
  assert (forall v, woken_of (alter timer_fires w (heap s)) v = woken_of (heap s) v) as Hw
    by (intros; by apply woken_alter).
  split; unfold tokens, locked, places; cbn [shared tasks wakers set_waiter m_locked m_waiters heap]; try done.
  - by rewrite (total_ext (token (alter timer_fires w (heap s))) (token (heap s))) by (intros; by apply token_ext).
  - intros v. by rewrite Hw.
  - intros v. rewrite length_alter, Hw. apply H4.
  - intros i v Hi. apply H5 in Hi as (wt & Hv & Hr). destruct (decide (v = w)) as [->|Hn].
    + rewrite list_lookup_alter_eq, Hv. eexists. split; [done|by right].
    + rewrite list_lookup_alter_ne by done. by exists wt.
Qed.

Lemma task_keeps c i cfg p s' p' new :
  mutex_inv cfg -> tasks cfg !! i = Some p -> task_step c (shared cfg) p = Some (s', p', new) ->
  mutex_inv (mkConfig s' (<[i := p']> (tasks cfg)) (wakers cfg ++ new)).
Proof.
  intros Hinv Hi Hs.
  assert (forall (v : nat) wt, heap (shared cfg) !! v = Some wt -> exists wt', heap (shared cfg) !! v = Some wt' /\
    woken wt <= woken wt' /\ timedOut wt' = timedOut wt) as Hid by (intros v wt Hv; by exists wt).
  assert (forall f w q,
    (forall x, woken (f x) = woken x /\ timedOut (f x) = timedOut x) ->
    (forall v, enqueuing v q = enqueuing v p) -> (forall v, refers v q <= refers v p) ->
    (forall v, task_handling v q = task_handling v p) ->
    token (heap (shared cfg)) q <= token (heap (shared cfg)) p -> (forall v, q <> TResume v) ->
    mutex_inv (mkConfig (set_waiter w f (shared cfg)) (<[i := q]> (tasks cfg)) (wakers cfg ++ []))) as Hflag.
  { intros f w q Hf E1 E2 E3 E4 E5. destruct (alter_keeps f w (heap (shared cfg)) Hf) as (A1 & A2 & A3).
    apply (keeps_task i cfg p); try done; [intros _; unfold held; cbn; lia|]. intros v ->. by destruct (E5 v). }
  destruct p as [| | |w|w|w|w|w|w l|w l| | |p]; cbn [task_step] in Hs.
  - injection Hs as <- <- <-. apply (keeps_task i cfg TIdle); done.
  - destruct (m_locked (shared cfg)) eqn:E; injection Hs as <- <- <-.
    + apply (keeps_task i cfg TTryLock); done.
    + apply (keeps_task i cfg TTryLock); try done. intros _. unfold held. rewrite E. cbn. lia.
  - injection Hs as <- <- <-. rewrite app_nil_r. by apply create_keeps.
  - injection Hs as <- <- <-. by apply enqueue_keeps.
  - unfold field in Hs. destruct (heap (shared cfg) !! w) as [wt|] eqn:E; [|done]. cbn [mbind option_bind fmap option_fmap option_map] in Hs.
    destruct ((0 <? woken wt) || timedOut wt) eqn:Ht; [|done]. injection Hs as <- <- <-.
    apply (keeps_task i cfg (TSuspended w)); try done. intros v [= <-]. exists wt. split; [done|].
    apply orb_true_iff in Ht as [Ht|Ht]; [left; apply Nat.ltb_lt in Ht; lia|by right].
  - unfold field in Hs. destruct (inv_resume _ Hinv i w Hi) as (wt & Hw & Hr). rewrite Hw in Hs. cbn in Hs.
    destruct (timedOut wt) eqn:Ht; injection Hs as <- <- <-.
    + apply (keeps_task i cfg (TResume w)); try done. intros _. cbn. lia.
    + apply (keeps_task i cfg (TResume w)); try done. intros _. destruct Hr as [Hr|]; [|done].
      cbn. unfold woken_of. rewrite Hw, decide_False by done. lia.
  - unfold field in Hs. destruct (heap (shared cfg) !! w) as [wt|] eqn:E; [|done]. cbn in Hs. injection Hs as <- <- <-.
    destruct (active wt); by apply Hflag.
  - injection Hs as <- <- <-. by apply Hflag.
  - unfold field in Hs. destruct (heap (shared cfg) !! w) as [wt|] eqn:E; [|done]. cbn in Hs. injection Hs as <- <- <-.
    destruct (active wt), l; apply Hflag; try done; intros v; cbn; case_decide; lia.
  - injection Hs as <- <- <-. destruct l; apply Hflag; try done; intros v; cbn; case_decide; lia.
  - injection Hs as <- <- <-. apply (keeps_task i cfg TCritical); done.
  - injection Hs as <- <- <-. apply (keeps_task i cfg TUnlock); try done.
    intros Ht. pose proof (total_lookup (token (heap (shared cfg))) _ i _ Hi) as E. cbn [token] in E.
    unfold held in *. cbn. destruct (m_locked (shared cfg)); lia.
  - destruct p as [| |w|w|w|w|w|]; try (
      destruct (wake_step c (shared cfg) _) as [[s1 p1]|] eqn:E; [|done]; cbn in Hs; injection Hs as <- <- <-;
      rewrite app_nil_r; by eapply unlock_wake_keeps).
    injection Hs as <- <- <-. apply (keeps_task i cfg (TUnlockWake WkReturn)); done.
Qed.

Lemma mutex_keeps a b : mutex_inv a -> mutex_step a b -> mutex_inv b.
Proof.
  intros Hinv Hab. revert Hinv. destruct Hab as [c i s ts ws p s' p' new Hi Hs|c i s ts ws p s' p' Hi Hs|w s ts ws Hw]; intros Hinv.
  - by eapply (task_keeps c i (mkConfig s ts ws)).
  - by eapply (waker_keeps c i (mkConfig s ts ws)).
  - by apply (timer_keeps w (mkConfig s ts ws)).
Qed.

Lemma new_mutex_inv n : mutex_inv (new_mutex n).
Proof.
  assert (forall w : task_pc -> nat, w TIdle = 0 -> total w (replicate n TIdle) = 0) as Ht.
  { intros w E. apply total_zero. by apply Forall_replicate. }
  split; unfold tokens, locked, places, new_mutex; cbn [shared tasks wakers m_locked m_waiters heap];
    rewrite ?q_elements_empty; try (intros; rewrite ?Ht by done; cbn; auto with lia; fail).
  intros i w Hi. by apply lookup_replicate_1 in Hi as [? _].
Qed.

Definition mutex_reaches (n : nat) : mutex_config Q -> Prop := rtc mutex_step (new_mutex n).

Lemma mutex_invariant n cfg : mutex_reaches n cfg -> mutex_inv cfg.
Proof. apply (reachable_invariant mutex_step mutex_inv); [apply new_mutex_inv|apply mutex_keeps]. Qed.

(** Between a lock that succeeded and the store of [unlock]. *)
Definition critical (p : task_pc) : nat := match p with TCritical | TUnlock => 1 | _ => 0 end.

(** C39: Mutual exclusion: however the coroutines, the wake-up loops and the timers interleave, at most
    one coroutine is between a successful [lock()] and its [unlock()], and then the lock is held; no
    wake-up loop is handing the lock over at that time, and no other coroutine was handed it. A waiter is
    woken at most once. *)
Theorem mutual_exclusion n cfg :
  mutex_reaches n cfg ->
  total critical (tasks cfg) <= 1 /\
  (1 <= total critical (tasks cfg) ->
     m_locked (shared cfg) = true /\ total wake_token (wakers cfg) = 0 /\
     (forall i j p q, tasks cfg !! i = Some p -> tasks cfg !! j = Some q -> i <> j -> critical p = 1 ->
        token (heap (shared cfg)) q = 0)) /\
  (forall w wt, heap (shared cfg) !! w = Some wt -> woken wt <= 1).
Proof.
  intros Hr. apply mutex_invariant in Hr as [H1 H2 H3 H4 H5]. unfold tokens, locked in H1.
  assert (forall p, critical p <= token (heap (shared cfg)) p) as Hle by (intros []; cbn; lia).
  pose proof (total_le _ _ (tasks cfg) Hle) as Ht. split_and!.
  - destruct (m_locked (shared cfg)); lia.
  - intros Hc. destruct (m_locked (shared cfg)); [|lia]. split_and!; [done|lia|].
    intros i j p q Hi Hj Hn Hp. pose proof (total_two (token (heap (shared cfg))) _ i j p q Hi Hj Hn).
    specialize (Hle p). lia.
  - intros w wt Hw. specialize (H3 w). unfold places, woken_of in H3. rewrite Hw in H3. lia.
Qed.

Lemma known_waiter cfg w :
  mutex_inv cfg -> 1 <= total (refers w) (tasks cfg) + places cfg w -> is_Some (heap (shared cfg) !! w).
Proof.
  intros Hinv Hw. destruct (decide (w < length (heap (shared cfg)))) as [Hl|Hl]; [by apply lookup_lt_is_Some|].
  destruct (inv_fresh _ Hinv w); lia.
Qed.

Lemma wake_progress c s p :
  (forall w, 1 <= handling w p -> is_Some (heap s !! w)) -> p = WkReturn \/ is_Some (wake_step c s p).
Proof.
  intros Hw. destruct p as [| |w|w|w|w|w|]; cbn; try (right; by eexists); [|by left]. right.
  destruct (Hw w) as [wt E]; [cbn; by rewrite decide_True|]. unfold field. rewrite E. cbn. by eexists.
Qed.

(** Nothing blocks but the wait itself: in every reachable state each wake-up loop that has not
    returned can take its next step, and so can each coroutine, unless it is suspended on a waiter that
    was neither woken nor timed out. *)
Theorem mutex_progress n cfg c :
  mutex_reaches n cfg ->
  (forall i p, wakers cfg !! i = Some p -> p = WkReturn \/ is_Some (wake_step c (shared cfg) p)) /\
  (forall i p, tasks cfg !! i = Some p ->
     is_Some (task_step c (shared cfg) p) \/
     exists w wt, p = TSuspended w /\ heap (shared cfg) !! w = Some wt /\ woken wt = 0 /\ timedOut wt = false).
Proof.
  intros Hr. apply mutex_invariant in Hr as Hinv. split; intros i p Hi.
  - apply wake_progress. intros w Hw. apply (known_waiter cfg); [done|].
    pose proof (total_lookup (handling w) _ i p Hi). unfold places. lia.
  - assert (forall w, 1 <= refers w p + task_handling w p -> is_Some (heap (shared cfg) !! w)) as Hk.
    { intros w Hw. apply (known_waiter cfg); [done|]. pose proof (total_lookup (refers w) _ i p Hi).
      pose proof (total_lookup (task_handling w) _ i p Hi). unfold places. lia. }
    destruct p as [| | |w|w|w|w|w|w l|w l| | |p]; cbn [task_step]; unfold field; try (left; by eexists);
      try (destruct (Hk w) as [wt E]; [cbn; rewrite decide_True by done; lia|]; rewrite E; cbn [mbind option_bind fmap option_fmap option_map]).
    + destruct ((0 <? woken wt) || timedOut wt) eqn:Ht; [left; by eexists|right].
      apply orb_false_iff in Ht as [Ht%Nat.ltb_ge Ht']. exists w, wt. split_and!; [done|done|lia|done].
    + left. by eexists.
    + left. by eexists.
    + left. by eexists.
    + left. destruct (wake_progress c (shared cfg) p) as [->|[r Hr']]; [|by eexists|].
      * intros w Hw. apply Hk. cbn. lia.
      * destruct p; try done; rewrite Hr'; by eexists.
Qed.
End Invariant.

(** ** One wake-up at a time *)

(** The library's queue when a single thread uses it: first in, first out. *)
#[export] Instance fifo : WaiterQueue (list nat) := {
  q_empty := [];
  q_enqueue w q := q ++ [w];
  q_try_dequeue _ q := match q with [] => None | w :: q => Some (w, q) end
}.

#[export] Instance fifo_laws : WaiterQueueLaws (list nat).
Proof.
  refine {| q_elements := fun q => q |}; cbn.
  - done.
  - intros w q. by rewrite Permutation_app_comm.
  - intros c [|v q] w q' E; [done|]. by injection E as -> ->.
Defined.

(** [wakeNextWaiterIfUnlocked] with no step of anybody else in between. *)
Fixpoint wake_alone (fuel : nat) (s : mutex_state (list nat)) (p : wake_pc) : option (mutex_state (list nat)) :=
  match p, fuel with
  | WkReturn, _ => Some s
  | _, O => None
  | _, S fuel => match wake_step 0 s p with Some (s, p) => wake_alone fuel s p | None => None end
  end.

(** The waiters that are still active, in their order. *)
Definition is_active (h : list AsyncMutexWaiter) (w : nat) : bool :=
  match h !! w with Some wt => active wt | None => false end.

Fixpoint skip_inactive (h : list AsyncMutexWaiter) (q : list nat) : list nat :=
  match q with
  | [] => []
  | w :: q => if is_active h w then w :: q else skip_inactive h q
  end.

Lemma wake_dequeue fuel h q :
  Forall (fun w => w < length h) q -> 2 * length q + 3 <= fuel ->
  wake_alone fuel (mkMutex false q h) WkDequeue =
    Some (match skip_inactive h q with
          | w :: q => mkMutex true q (alter wakeUp w (alter (set_active false) w h))
          | [] => mkMutex false [] h
          end).
Proof.
  revert fuel. induction q as [|w q IH]; intros fuel Hq Hf; cbn [length] in Hf.
  - destruct fuel as [|fuel]; [lia|]. cbn. by destruct fuel.
  - apply Forall_cons in Hq as [Hw Hq]. do 3 (destruct fuel as [|fuel]; [lia|]).
    apply lookup_lt_is_Some in Hw as [wt E]. cbn [skip_inactive]. unfold is_active. rewrite E.
    cbn [wake_alone wake_step m_waiters q_try_dequeue fifo set_queue m_locked heap]. unfold field.
    cbn [set_queue heap m_locked m_waiters].
    rewrite E. cbn [fmap option_fmap option_map mbind option_bind]. destruct (active wt) eqn:Ea.
    + destruct fuel as [|[|fuel]]; [lia|lia|]. cbn. by destruct fuel.
    + apply (IH (S fuel)); [done|lia].
Qed.

(** Without interference [unlock] hands the lock over: it wakes the first waiter that is still
    active, which then owns the lock without it ever being free to others, drops the cancelled waiters
    before it, and leaves the lock free only when no active waiter is in the queue. *)
Theorem unlock_hands_over s :
  Forall (fun w => w < length (heap s)) (m_waiters s) ->
  exists s', wake_alone (2 * length (m_waiters s) + 4) (set_locked false s) WkCheck = Some s' /\
    (forall q w q', m_waiters s = q ++ w :: q' -> is_active (heap s) w = true ->
       Forall (fun v => is_active (heap s) v = false) q ->
       m_locked s' = true /\ m_waiters s' = q' /\
       heap s' = alter wakeUp w (alter (set_active false) w (heap s))) /\
    (Forall (fun v => is_active (heap s) v = false) (m_waiters s) ->
       s' = mkMutex false [] (heap s)).
Proof.
  destruct s as [l q h]. cbn [m_waiters heap]. intros Hq. eexists. split.
  - replace (2 * length q + 4) with (S (2 * length q + 3)) by lia. cbn [wake_alone wake_step set_locked m_locked].
    by apply wake_dequeue.
  - split.
    + intros q1 w q2 -> Ha Hin. cbn [heap m_waiters]. assert (skip_inactive h (q1 ++ w :: q2) = w :: q2) as ->; [|done].
      clear Hq. induction Hin as [|v q1 Hv Hin IH]; cbn [app skip_inactive]; [by rewrite Ha|by rewrite Hv].
    + cbn [heap m_waiters]. intros Hin. assert (skip_inactive h q = []) as ->; [|done].
      clear Hq. induction Hin as [|v q Hv Hin IH]; cbn [skip_inactive]; [done|by rewrite Hv].
Qed.

(** ** Schedules *)

Inductive mutex_turn : Type := Task (i : nat) | WakeLoop (i : nat) | TimerOf (w : nat).

Definition exec_turn (k : mutex_turn) (cfg : mutex_config (list nat)) : option (mutex_config (list nat)) :=
  match k with
  | Task i =>
      p ← tasks cfg !! i;
      r ← task_step 0 (shared cfg) p;
      Some (mkConfig r.1.1 (<[i := r.1.2]> (tasks cfg)) (wakers cfg ++ r.2))
  | WakeLoop i =>
      p ← wakers cfg !! i;
      r ← wake_step 0 (shared cfg) p;
      Some (mkConfig r.1 (tasks cfg) (<[i := r.2]> (wakers cfg)))
  | TimerOf w =>
      if w <? length (heap (shared cfg))
      then Some (mkConfig (set_waiter w timer_fires (shared cfg)) (tasks cfg) (wakers cfg)) else None
  end.

Fixpoint exec_turns (ks : list mutex_turn) (cfg : mutex_config (list nat)) : option (mutex_config (list nat)) :=
  match ks with
  | [] => Some cfg
  | k :: ks => cfg ← exec_turn k cfg; exec_turns ks cfg
  end.

Lemma exec_turn_sound k cfg cfg' : exec_turn k cfg = Some cfg' -> mutex_step cfg cfg'.
Proof.
  destruct cfg as [s ts ws]. destruct k as [i|i|w]; cbn [exec_turn tasks wakers shared]; intros E.
  - destruct (ts !! i) as [p|] eqn:Hi; [|done]. cbn [mbind option_bind] in E.
    destruct (task_step 0 s p) as [[[s' p'] new]|] eqn:Hs; [|done]. injection E as <-. by eapply task_moves.
  - destruct (ws !! i) as [p|] eqn:Hi; [|done]. cbn [mbind option_bind] in E.
    destruct (wake_step 0 s p) as [[s' p']|] eqn:Hs; [|done]. injection E as <-. by eapply waker_moves.
  - destruct (Nat.ltb_spec w (length (heap s))); [|done]. injection E as <-. by apply timer_moves.
Qed.

Lemma exec_turns_sound ks cfg cfg' : exec_turns ks cfg = Some cfg' -> rtc mutex_step cfg cfg'.
Proof.
  revert cfg. induction ks as [|k ks IH]; intros cfg; cbn [exec_turns]; [by intros [= ->]|].
  destruct (exec_turn k cfg) as [cfg1|] eqn:E; [|done]. intros Hs.
  eapply rtc_l; [eapply exec_turn_sound, E|by apply IH].
Qed.

Definition after (n : nat) (ks : list mutex_turn) : mutex_config (list nat) :=
  default (new_mutex n) (exec_turns ks (new_mutex n)).

Lemma after_reaches n ks : mutex_reaches n (after n ks).
Proof.
  unfold after, mutex_reaches. destruct (exec_turns _ _) as [cfg|] eqn:E; [by eapply exec_turns_sound|done].
Qed.

Definition times (n : nat) (k : mutex_turn) : list mutex_turn := replicate n k.

(** Coroutine 0 takes the lock; coroutine 1 fails to, and enqueues its waiter. *)
Definition contended : list mutex_turn := times 2 (Task 0) ++ times 4 (Task 1).

Lemma mutual_exclusion_witness :
  let cfg := after 2 contended in
  tasks cfg = [TCritical; TSuspended 0] /\ total critical (tasks cfg) <= 1 /\ m_locked (shared cfg) = true.
Proof.
  intros cfg. destruct (mutual_exclusion 2 cfg (after_reaches 2 contended)) as (H1 & H2 & _).
  split; [by vm_compute|]. split; [done|]. apply H2. vm_compute. lia.
Defined.

Lemma mutex_progress_witness :
  let cfg := after 2 contended in
  is_Some (task_step 0 (shared cfg) TCritical) \/
  exists w wt, TCritical = TSuspended w /\ heap (shared cfg) !! w = Some wt /\ woken wt = 0 /\ timedOut wt = false.
Proof. apply (mutex_progress 2 _ 0 (after_reaches 2 contended)) with (i := 0). by vm_compute. Defined.

Lemma unlock_hands_over_witness :
  exists s', wake_alone 8 (mkMutex false [0; 1] [set_active false new_waiter; new_waiter]) WkCheck = Some s' /\
    m_locked s' = true /\ m_waiters s' = [].
Proof.
  destruct (unlock_hands_over (mkMutex true [0; 1] [set_active false new_waiter; new_waiter])) as (s' & H1 & H2 & _).
  - repeat constructor.
  - exists s'. split; [exact H1|]. destruct (H2 [0] 1 []) as (H3 & H4 & _); [done|done|by repeat constructor|]. by split.
Defined.

(** 0 unlocks up to the point where its wake-up loop has claimed the waiter of 1. *)
Definition claimed : list mutex_turn := contended ++ [WakeLoop 0] ++ times 5 (Task 0).

(** A wake-up is lost, without any timeout. While the wake-up loop of 0 holds the waiter of 1, coroutine
    2 takes the lock, so the loop fails to; 2 unlocks and finds the queue empty; then the loop puts the
    waiter back and returns without looking at the lock again. The lock is free and nobody runs, and 1
    stays suspended with its waiter active in the queue. *)
Example wakeup_lost_on_requeue :
  let cfg := after 3 (claimed ++ times 2 (Task 2) ++ [Task 0] ++ times 5 (Task 2) ++ times 3 (Task 0)) in
  m_locked (shared cfg) = false /\ m_waiters (shared cfg) = [0] /\ heap (shared cfg) = [new_waiter] /\
  tasks cfg = [TIdle; TSuspended 0; TIdle] /\ wakers cfg = [WkReturn].
Proof. by vm_compute. Qed.

(** The lock is lost to a timeout. The lock is handed to 1, whose timer fires before 1 resumes: 1 reports
    the timeout, and the lock stays held by nobody. *)
Example lock_lost_to_timeout :
  let cfg := after 2 (contended ++ [WakeLoop 0] ++ times 8 (Task 0) ++ [TimerOf 0] ++ times 4 (Task 1)) in
  m_locked (shared cfg) = true /\ tasks cfg = [TIdle; TIdle] /\ wakers cfg = [WkReturn] /\ tokens cfg = 0.
Proof. by vm_compute. Qed.

(** A cancelled waiter gets the lock. 1 times out while the loop of 0 holds its waiter: cancelling finds
    it inactive already, the loop then stores [active] back and puts it in the queue, and the next
    [unlock] hands the lock to it. *)
Example lock_given_to_cancelled_waiter :
  let cfg := after 3 (claimed ++ times 2 (Task 2) ++ [Task 0; TimerOf 0] ++ times 4 (Task 1) ++
    times 3 (Task 0) ++ times 8 (Task 2)) in
  m_locked (shared cfg) = true /\ tasks cfg = [TIdle; TIdle; TIdle] /\ wakers cfg = [WkReturn] /\ tokens cfg = 0.
Proof. by vm_compute. Qed.
