(* ===== verification/RingCursor.v ===== *)
(** * Cursors of rings of slots

    What the bounded channels share: cursors of 64 bits that only grow, capacities that are powers of two,
    and the positions that fall in one slot. *)

From Stdlib Require Import ZArith Lia.
From stdpp Require Import base numbers list.
From S2P Require Import Prelude.
Open Scope Z_scope.

(** [std::bit_cast<int64_t>] *)
Definition int64 (z : Z) : Z := let u := wrap64 z in if u <? 2 ^ 63 then u else u - 2 ^ 64.

(** [std::bit_ceil] of a positive number. *)
Definition bit_ceil (n : Z) : Z := 2 ^ Z.log2_up n.

(** The sign of a difference of two numbers of 64 bits, read as a signed one. *)
Lemma int64_zero a b : 0 <= a < 2 ^ 64 -> 0 <= b < 2 ^ 64 -> (int64 (a - b) =? 0) = (a =? b).
Proof.
  intros Ha Hb. assert (int64 (a - b) = 0 <-> a = b) as E; [|destruct (Z.eqb_spec (int64 (a - b)) 0), (Z.eqb_spec a b); tauto].
  unfold int64, wrap64. cbv zeta. pose proof (Z.mod_pos_bound (a - b) (2 ^ 64) ltac:(lia)).
  assert ((a - b) mod 2 ^ 64 = a - b \/ (a - b) mod 2 ^ 64 = a - b + 2 ^ 64) as [E|E].
  { destruct (decide (0 <= a - b)); [left; apply Z.mod_small; lia|right].
    rewrite <- (Z.mod_add (a - b) 1), Z.mul_1_l by lia. apply Z.mod_small; lia. }
  all: rewrite E; destruct (Z.ltb_spec (a - b) (2 ^ 63)), (Z.ltb_spec (a - b + 2 ^ 64) (2 ^ 63)); lia.
Qed.

Lemma int64_small z : - 2 ^ 63 <= z < 2 ^ 63 -> int64 z = z.
Proof.
  intros Hz. unfold int64, wrap64. cbv zeta. destruct (decide (0 <= z)).
  - rewrite Z.mod_small by lia. destruct (Z.ltb_spec z (2 ^ 63)); lia.
  - rewrite <- (Z.mod_add z 1), Z.mul_1_l, Z.mod_small by lia. destruct (Z.ltb_spec (z + 2 ^ 64) (2 ^ 63)); lia.
Qed.

(** A capacity is a power of two, of at least two. *)
Definition capacity_ok (top capacity : Z) : Prop := exists k, 1 <= k <= top /\ capacity = 2 ^ k.

Lemma capacity_bounds top c : capacity_ok top c -> 2 <= c <= 2 ^ top.
Proof.
  intros (k & Hk & ->). split; [change 2 with (2 ^ 1) at 1|]; apply Z.pow_le_mono_r; lia.
Qed.

Lemma mask_mod top c p : capacity_ok top c -> Z.land p (c - 1) = p mod c.
Proof. intros (k & Hk & ->). rewrite <- Z.land_ones by lia. by rewrite Z.ones_equiv, Z.sub_1_r. Qed.

(** Positions of one slot. *)
Definition same (c p q : Z) : Prop := p mod c = q mod c.

#[global] Instance same_dec c p q : Decision (same c p q).
Proof. unfold same. apply _. Defined.

Lemma same_distance c p q : 0 < c -> same c p q -> exists k, p = q + k * c.
Proof.
  unfold same. intros Hc E. exists (p / c - q / c).
  pose proof (Z.div_mod p c ltac:(lia)). pose proof (Z.div_mod q c ltac:(lia)). lia.
Qed.

Lemma same_of_distance c p k : 0 < c -> same c (p + k * c) p.
Proof. intros Hc. unfold same. apply Z.mod_add. lia. Qed.

Lemma same_add c p : 0 < c -> same c (p + c) p.
Proof. intros Hc. rewrite <- (Z.mul_1_l c) at 2. by apply same_of_distance. Qed.

Lemma same_near c p q : 0 < c -> same c p q -> Z.abs (p - q) < c -> p = q.
Proof. intros Hc [k ->]%same_distance Hk; [|done]. assert (k = 0) as ->; nia. Qed.

Lemma not_same_succ c p : 2 <= c -> ~ same c (p + 1) p.
Proof. intros Hc [k E]%same_distance; [|lia]. assert (k <= 0 \/ 1 <= k) as [] by lia; nia. Qed.

(** ** Slots of a ring *)

Lemma ring_lookup {A} top c (slots : list A) p :
  capacity_ok top c -> length slots = Z.to_nat c -> is_Some (slots !! Z.to_nat (p mod c)).
Proof.
  intros Hc Hl. pose proof (capacity_bounds _ _ Hc). pose proof (Z.mod_pos_bound p c ltac:(lia)).
  apply lookup_lt_is_Some. lia.
Qed.

Lemma ring_lookup_insert {A} top c (slots : list A) p q s :
  capacity_ok top c -> length slots = Z.to_nat c ->
  <[Z.to_nat (p mod c) := s]> slots !! Z.to_nat (q mod c) =
  if decide (same c q p) then Some s else slots !! Z.to_nat (q mod c).
Proof.
  intros Hc Hl. pose proof (capacity_bounds _ _ Hc).
  pose proof (Z.mod_pos_bound p c ltac:(lia)). pose proof (Z.mod_pos_bound q c ltac:(lia)).
  destruct (decide (same c q p)) as [E|E]; unfold same in E.
  - rewrite E. apply list_lookup_insert_eq. lia.
  - apply list_lookup_insert_ne. lia.
Qed.
