(* ===== verification/MpmcChannel.v ===== *)
(** * The bounded channel of many producers and many consumers

    [galay-kernel/concurrency/mpmc/bounded_channel.h]: the ring of sequenced slots under [BoundedChannel],
    its senders ([trySend]), receivers ([tryRecv], [tryRecvBatch]), [close] and the test that a closed
    channel is drained. Every access to an atomic is one step of [Interleave], in any order and
    sequentially consistent; what a thread does between two accesses (the construction of a message in a
    slot it has reserved, its consumption) is a step too, and a read of a slot without a message or a
    construction over one leads to the state [Undefined], which is proved out of reach.

    The ring keeps, besides what the code keeps, the list of the messages in the order of their
    reservation, and a thread keeps the position it worked on: they are what the theorems speak of, no
    step reads them. *)

From Stdlib Require Import ZArith Lia.
From stdpp Require Import base list relations sorting.
From S2P Require Import Prelude Interleave RingCursor.
Open Scope Z_scope.

Definition kTailClosedBit : Z := Z.shiftl 1 63.
Definition kTailPositionMask : Z := kTailClosedBit - 1.
Definition kMaxRingCapacity : Z := Z.shiftl 1 62.

(** With a [size_t] of 64 bits. *)
Definition normalizeCapacity (capacity : Z) : Z :=
  if capacity <=? 2 then 2
  else if kMaxRingCapacity <=? capacity then kMaxRingCapacity
  else bit_ceil capacity.

Inductive RingEnqueueResult : Type := kSent | kFull | kClosed | kClosedAndNotify.
#[global] Instance RingEnqueueResult_eq_dec : EqDecision RingEnqueueResult.
Proof. solve_decision. Defined.

Definition is_closed (tail : Z) : bool := negb (Z.land tail kTailClosedBit =? 0).

Section Channel.
Context {T : Type}.

Record Slot : Type := mkSlot { sequence : Z; storage : option T }.

Record ring : Type := mkRing {
  m_tail : Z;
  m_head : Z;
  m_capacity : Z;
  m_mask : Z;
  m_slots : list Slot;
  sent : list T
}.

(** The constructor. *)
Definition new_channel (capacity : Z) : ring :=
  let capacity := normalizeCapacity capacity in
  mkRing 0 0 capacity (capacity - 1) ((fun i => mkSlot (Z.of_nat i) None) <$> seq 0 (Z.to_nat capacity)) [].

Definition slot_index (r : ring) (position : Z) : nat := Z.to_nat (Z.land position (m_mask r)).
Definition slot_at (r : ring) (position : Z) : option Slot := m_slots r !! slot_index r position.
Definition set_slot (position : Z) (slot : Slot) (r : ring) : ring :=
  mkRing (m_tail r) (m_head r) (m_capacity r) (m_mask r)
    (<[slot_index r position := slot]> (m_slots r)) (sent r).
Definition set_tail (tail : Z) (r : ring) : ring :=
  mkRing tail (m_head r) (m_capacity r) (m_mask r) (m_slots r) (sent r).
Definition reserve (tail : Z) (value : T) (r : ring) : ring :=
  mkRing tail (m_head r) (m_capacity r) (m_mask r) (m_slots r) (sent r ++ [value]).
Definition set_head (head : Z) (r : ring) : ring :=
  mkRing (m_tail r) head (m_capacity r) (m_mask r) (m_slots r) (sent r).

(** ** Programs *)

(** [ringEnqueueResult]; the position of a result is the last one it tried. *)
Inductive send_pc : Type :=
| SnLoad
| SnTry (tail : Z)
| SnClaim (position : Z)
| SnConstruct (position : Z)
| SnPublish (position : Z)
| SnReturn (result : RingEnqueueResult) (position : Z).

(** [ringDequeueTo], repeated by [tryRecvBatch] *)
Inductive recv_pc : Type :=
| RvLoad
| RvTry (position : Z)
| RvClaim (position : Z)
| RvConsume (position : Z)
| RvRelease (position : Z)
| RvReturn.

(** [isClosedAndDrained] *)
Inductive drained_pc : Type := DrLoadTail | DrLoadHead (tail : Z) | DrReturn (drained : bool).

(** A call: [trySend] of a value; [tryRecvBatch] of a count, with the messages received so far and the
    positions they were at ([tryRecv] is a batch of one); [close]; [isClosedAndDrained]. *)
Inductive thread : Type :=
| Sender (value : T) (pc : send_pc)
| Receiver (count : nat) (values : list (Z * T)) (pc : recv_pc)
| Closer (returned : bool)
| Drainer (pc : drained_pc)
| Undefined.

(** [compare_exchange_weak] succeeds on the expected value, unless it fails spuriously. *)
Definition weak (spurious : bool) (cell expected : Z) : bool := negb spurious && (cell =? expected).

Definition ringEnqueueResult (c : bool) (value : T) (r : ring) (pc : send_pc) : option (ring * thread) :=
  match pc with
  | SnLoad => Some (r, Sender value (SnTry (m_tail r)))
  | SnTry tail =>
      if is_closed tail then Some (r, Sender value (SnReturn kClosed tail))
      else if tail =? kTailPositionMask then
        Some (if weak c (m_tail r) tail
              then (set_tail (Z.lor tail kTailClosedBit) r, Sender value (SnReturn kClosedAndNotify tail))
              else (r, Sender value (SnTry (m_tail r))))
      else match slot_at r tail with
           | None => Some (r, Undefined)
           | Some slot =>
               let difference := int64 (sequence slot - tail) in
               Some (r, Sender value (if difference =? 0 then SnClaim tail
                                      else if difference <? 0 then SnReturn kFull tail
                                      else SnLoad))
           end
  | SnClaim position =>
      Some (if weak c (m_tail r) position
            then (reserve (wrap64 (position + 1)) value r, Sender value (SnConstruct position))
            else (r, Sender value (SnTry (m_tail r))))
  | SnConstruct position =>
      match slot_at r position with
      | Some (mkSlot sequence None) =>
          Some (set_slot position (mkSlot sequence (Some value)) r, Sender value (SnPublish position))
      | _ => Some (r, Undefined)
      end
  | SnPublish position =>
      match slot_at r position with
      | Some slot => Some (set_slot position (mkSlot (wrap64 (position + 1)) (storage slot)) r,
                           Sender value (SnReturn kSent position))
      | None => Some (r, Undefined)
      end
  | SnReturn _ _ => None
  end.

Definition ringDequeueTo (c : bool) (count : nat) (values : list (Z * T)) (r : ring) (pc : recv_pc)
  : option (ring * thread) :=
  match pc with
  | RvLoad =>
      Some (r, Receiver count values
                 (if (length values <? count)%nat then RvTry (m_head r) else RvReturn))
  | RvTry position =>
      match slot_at r position with
      | None => Some (r, Undefined)
      | Some slot =>
          let difference := int64 (sequence slot - wrap64 (position + 1)) in
          Some (r, Receiver count values (if difference =? 0 then RvClaim position
                                          else if difference <? 0 then RvReturn
                                          else RvLoad))
      end
  | RvClaim position =>
      Some (if weak c (m_head r) position
            then (set_head (wrap64 (position + 1)) r, Receiver count values (RvConsume position))
            else (r, Receiver count values (RvTry (m_head r))))
  | RvConsume position =>
      match slot_at r position with
      | Some (mkSlot sequence (Some value)) =>
          Some (set_slot position (mkSlot sequence None) r,
                Receiver count (values ++ [(position, value)]) (RvRelease position))
      | _ => Some (r, Undefined)
      end
  | RvRelease position =>
      match slot_at r position with
      | Some slot => Some (set_slot position (mkSlot (wrap64 (position + m_capacity r)) (storage slot)) r,
                           Receiver count values RvLoad)
      | None => Some (r, Undefined)
      end
  | RvReturn => None
  end.

Definition isClosedAndDrained (r : ring) (pc : drained_pc) : option (ring * thread) :=
  match pc with
  | DrLoadTail => Some (r, Drainer (if is_closed (m_tail r) then DrLoadHead (m_tail r) else DrReturn false))
  | DrLoadHead tail => Some (r, Drainer (DrReturn (Z.land tail kTailPositionMask =? m_head r)))
  | DrReturn _ => None
  end.

#[global] Instance channel_step : ThreadProgram ring thread bool := fun c r t =>
  match t with
  | Sender value pc => ringEnqueueResult c value r pc
  | Receiver count values pc => ringDequeueTo c count values r pc
  | Closer false => Some (set_tail (Z.lor (m_tail r) kTailClosedBit) r, Closer true)
  | Closer true => None
  | Drainer pc => isClosedAndDrained r pc
  | Undefined => None
  end.

(** A call that has not begun, and one that has returned. *)
Definition begins (t : thread) : Prop :=
  match t with
  | Sender _ SnLoad | Receiver _ [] RvLoad | Closer false | Drainer DrLoadTail => True
  | _ => False
  end.
Definition returned (t : thread) : bool :=
  match t with
  | Sender _ (SnReturn _ _) | Receiver _ _ RvReturn | Closer true | Drainer (DrReturn _) => true
  | _ => false
  end.

(** The result of [trySend] and of [tryRecvBatch]. *)
Definition trySend (result : RingEnqueueResult) : bool := bool_decide (result = kSent).
Definition tryRecvBatch (count : nat) (values : list (Z * T)) : option (list T) :=
  if (count =? 0)%nat then Some [] else if decide (values = []) then None else Some values.*2.

(** The destructor: the messages it destroys, with the positions they are at. *)
Definition destructor (r : ring) : list (Z * option T) :=
  let tail := Z.land (m_tail r) kTailPositionMask in
  let pending := if m_head r <=? tail then tail - m_head r else 0 in
  let count := if pending <? m_capacity r then pending else m_capacity r in
  omap (fun i =>
    let position := wrap64 (m_head r + Z.of_nat i) in
    match slot_at r position with
    | Some slot => if sequence slot =? wrap64 (position + 1) then Some (position, storage slot) else None
    | None => None
    end) (seq 0 (Z.to_nat count)).

(** [size], from the two cursors it loads one after the other. *)
Definition size (r : ring) (tail head : Z) : Z :=
  let tail := Z.land tail kTailPositionMask in
  if tail <? head then 0
  else let count := tail - head in if count <? m_capacity r then count else m_capacity r.
Definition empty (r : ring) (tail head : Z) : bool := size r tail head =? 0.
Definition full (r : ring) (tail head : Z) : bool := m_capacity r <=? size r tail head.
End Channel.
Arguments Slot T : clear implicits.
Arguments ring T : clear implicits.
Arguments thread T : clear implicits.

(** ** Cursors *)

Lemma kTailClosedBit_eq : kTailClosedBit = 2 ^ 63.
Proof. reflexivity. Qed.

Lemma is_closed_open n : 0 <= n < 2 ^ 63 -> is_closed n = false.
Proof.
  intros Hn. unfold is_closed. rewrite negb_false_iff, Z.eqb_eq. apply Z.bits_inj'. intros i Hi.
  rewrite Z.land_spec, Z.bits_0, andb_false_iff. rewrite kTailClosedBit_eq, Z.pow2_bits_eqb by lia.
  destruct (Z.eqb_spec 63 i) as [<-|]; [left|by right].
  destruct (decide (n = 0)) as [->|]; [apply Z.bits_0|]. apply Z.bits_above_log2; [lia|]. apply Z.log2_lt_pow2; lia.
Qed.

Lemma lor_closed n : 0 <= n < 2 ^ 63 -> Z.lor n kTailClosedBit = n + 2 ^ 63.
Proof.
  intros Hn. pose proof (is_closed_open n Hn) as E. unfold is_closed in E. rewrite negb_false_iff, Z.eqb_eq in E.
  pose proof (Z.add_lor_land n kTailClosedBit) as H. rewrite E, kTailClosedBit_eq in H. rewrite kTailClosedBit_eq. lia.
Qed.

Lemma is_closed_closed n : 0 <= n < 2 ^ 63 -> is_closed (n + 2 ^ 63) = true.
Proof.
  intros Hn. rewrite <- lor_closed by done. unfold is_closed. rewrite negb_true_iff, Z.eqb_neq. intros E.
  apply (f_equal (fun z => Z.testbit z 63)) in E. rewrite Z.land_spec, Z.lor_spec, Z.bits_0 in E.
  change (Z.testbit kTailClosedBit 63) with true in E. by rewrite orb_true_r in E.
Qed.

Lemma lor_closed_twice n : Z.lor (Z.lor n kTailClosedBit) kTailClosedBit = Z.lor n kTailClosedBit.
Proof. by rewrite <- Z.lor_assoc, Z.lor_diag. Qed.

Lemma tail_position n b : 0 <= n < 2 ^ 63 -> Z.land (n + (if b : bool then 2 ^ 63 else 0)) kTailPositionMask = n.
Proof.
  intros Hn. change kTailPositionMask with (Z.ones 63). rewrite Z.land_ones by lia. destruct b.
  - rewrite Z.add_mod, Z.mod_same, Z.add_0_r, Z.mod_mod, Z.mod_small; lia.
  - rewrite Z.add_0_r, Z.mod_small; lia.
Qed.

Lemma normalizeCapacity_ok capacity : capacity_ok 62 (normalizeCapacity capacity).
Proof.
  unfold normalizeCapacity, bit_ceil. destruct (Z.leb_spec capacity 2); [by exists 1|].
  destruct (Z.leb_spec kMaxRingCapacity capacity) as [|Hc]; [by exists 62|].
  exists (Z.log2_up capacity). split; [|done]. change kMaxRingCapacity with (2 ^ 62) in Hc.
  split; [apply (Z.log2_up_le_mono 2 capacity); lia|]. apply Z.log2_up_le_pow2; lia.
Qed.


Section Invariant.
Context {T : Type}.
Implicit Types (r : ring T) (t : thread T) (ts : list (thread T)).

Definition slot_of r (p : Z) : Slot T := default (mkSlot 0 None) (slot_at r p).
Definition seqn r (p : Z) : Z := sequence (slot_of r p).
Definition content r (p : Z) : option T := storage (slot_of r p).
Definition reserved r : Z := Z.of_nat (length (sent r)).
(** The message reserved at a position. *)
Definition message r (p : Z) : option T := sent r !! Z.to_nat p.

Record shape r : Prop := mkShape {
  sh_capacity : capacity_ok 62 (m_capacity r);
  sh_mask : m_mask r = m_capacity r - 1;
  sh_length : length (m_slots r) = Z.to_nat (m_capacity r)
}.

Lemma slot_index_mod r p : shape r -> slot_index r p = Z.to_nat (p mod m_capacity r).
Proof. intros [Hc Hm _]. unfold slot_index. by rewrite Hm, (mask_mod 62). Qed.

Lemma slot_at_some r p : shape r -> slot_at r p = Some (slot_of r p).
Proof.
  intros Hs. unfold slot_of, slot_at. rewrite (slot_index_mod r p Hs).
  by destruct (ring_lookup 62 (m_capacity r) (m_slots r) p (sh_capacity r Hs) (sh_length r Hs)) as [slot ->].
Qed.

Lemma slot_of_same r p q : shape r -> same (m_capacity r) p q -> slot_of r p = slot_of r q.
Proof. intros Hs E. unfold slot_of, slot_at. by rewrite !slot_index_mod, E. Qed.

Lemma shape_set_slot r p s : shape r -> shape (set_slot p s r).
Proof. intros []. split; [done..|]. cbn. by rewrite length_insert. Qed.

Lemma slot_of_set r p s q :
  shape r -> slot_of (set_slot p s r) q = if decide (same (m_capacity r) q p) then s else slot_of r q.
Proof.
  intros Hs. unfold slot_of at 1, slot_at. rewrite (slot_index_mod (set_slot _ s r)) by by apply shape_set_slot.
  cbn [m_slots set_slot m_capacity]. rewrite slot_index_mod by done.
  rewrite (ring_lookup_insert 62) by apply Hs. case_decide; [done|]. unfold slot_of, slot_at. by rewrite slot_index_mod.
Qed.

(** What holds of the store between any two steps: the slots of the next [m_capacity] positions to reserve
    are free or still used by the lap before, those of the reserved positions wait for a receiver. *)
Record ring_ok r : Prop := mkRingOk {
  ok_shape : shape r;
  ok_tail : m_tail r = reserved r \/ m_tail r = reserved r + 2 ^ 63;
  ok_bound : reserved r <= kTailPositionMask;
  ok_head : 0 <= m_head r <= reserved r;
  ok_room : reserved r <= m_head r + m_capacity r;
  ok_window p : reserved r <= p < reserved r + m_capacity r ->
    seqn r p = p \/ m_capacity r <= p /\ (seqn r p = p - m_capacity r \/ seqn r p = p - m_capacity r + 1);
  ok_live p : m_head r <= p < reserved r -> seqn r p = p \/ seqn r p = p + 1;
  ok_untaken p : 0 <= p -> seqn r p = p -> m_head r <= p;
  ok_free p : reserved r <= p -> seqn r p = p -> content r p = None;
  ok_stored p : m_head r <= p < reserved r -> seqn r p = p + 1 -> content r p = message r p
}.

Lemma ok_capacity r : ring_ok r -> 2 <= m_capacity r <= 2 ^ 62.
Proof. intros H. apply (capacity_bounds 62). apply H. Qed.

Lemma seqn_same r p q : ring_ok r -> same (m_capacity r) p q -> seqn r p = seqn r q.
Proof. intros H E. unfold seqn. by rewrite (slot_of_same r p q) by (done || apply H). Qed.

(** The position of the window that lies in the slot of [p]. *)
Lemma window_position r p : ring_ok r -> exists q, same (m_capacity r) q p /\ reserved r <= q < reserved r + m_capacity r.
Proof.
  intros H. pose proof (ok_capacity r H). exists (reserved r + (p - reserved r) mod m_capacity r). split.
  - unfold same. rewrite Z.add_mod_idemp_r by lia. f_equal. lia.
  - pose proof (Z.mod_pos_bound (p - reserved r) (m_capacity r)). lia.
Qed.

(** What changes for the threads that do not take the step. *)
Record grows r r' : Prop := mkGrows {
  gr_capacity : m_capacity r' = m_capacity r;
  gr_sent : sent r `prefix_of` sent r';
  gr_head : m_head r <= m_head r' <= reserved r';
  gr_free p : p < reserved r \/ seqn r p = p -> p < reserved r' \/ seqn r' p = p;
  gr_ready p : p < m_head r \/ seqn r p = p + 1 -> p < m_head r' \/ seqn r' p = p + 1;
  gr_closed : is_closed (m_tail r) = true -> m_tail r' = m_tail r /\ sent r' = sent r
}.

Definition sending r (p : Z) : Prop := p < reserved r /\ seqn r p = p.
Definition taking r (p : Z) : Prop := p < m_head r /\ seqn r p = p + 1.

#[global] Instance sending_dec r p : Decision (sending r p).
Proof. unfold sending. apply _. Defined.
#[global] Instance taking_dec r p : Decision (taking r p).
Proof. unfold taking. apply _. Defined.

(** ** The operations on the ring *)

Lemma not_same_minus c p q : 2 <= c -> same c q p -> p <> q + 1.
Proof. intros Hc E ->. by apply (not_same_succ c q Hc). Qed.

Lemma busy_window r p q :
  ring_ok r -> seqn r p = p \/ seqn r p = p + 1 -> p < reserved r -> same (m_capacity r) q p ->
  reserved r <= q < reserved r + m_capacity r -> q = p + m_capacity r.
Proof.
  intros H Hp Hn E Hq. pose proof (ok_capacity r H) as Hc. pose proof (ok_window r H q Hq) as W.
  rewrite (seqn_same r q p H E) in W.
  assert (same (m_capacity r) (q - m_capacity r) p) as E'.
  { unfold same in *. rewrite <- E. rewrite <- (Z.mod_add (q - m_capacity r) 1) by lia. f_equal. lia. }
  destruct Hc as [Hc _]. pose proof (not_same_minus _ p q Hc E). pose proof (not_same_minus _ q p Hc (eq_sym E)).
  pose proof (not_same_minus _ p _ Hc E'). pose proof (not_same_minus _ _ p Hc (eq_sym E')). lia.
Qed.

Lemma seqn_set r p s q :
  ring_ok r -> seqn (set_slot p s r) q = if decide (same (m_capacity r) q p) then sequence s else seqn r q.
Proof. intros H. unfold seqn. rewrite slot_of_set by apply H. by case_decide. Qed.

Lemma content_set r p s q :
  ring_ok r -> content (set_slot p s r) q = if decide (same (m_capacity r) q p) then storage s else content r q.
Proof. intros H. unfold content. rewrite slot_of_set by apply H. by case_decide. Qed.

Lemma content_same r p q : ring_ok r -> same (m_capacity r) p q -> content r p = content r q.
Proof. intros H E. unfold content. by rewrite (slot_of_same r p q) by (done || apply H). Qed.

Definition busy r (p : Z) : Prop := 0 <= p < reserved r /\ (seqn r p = p \/ seqn r p = p + 1).

Lemma busy_recent r p : ring_ok r -> busy r p -> reserved r <= p + m_capacity r.
Proof.
  intros H [Hp Hb]. destruct (window_position r p H) as (q & E & Hq).
  pose proof (busy_window r p q H Hb (proj2 Hp) E Hq). lia.
Qed.

Lemma busy_live r p q :
  ring_ok r -> busy r p -> same (m_capacity r) q p -> m_head r <= q < reserved r -> q = p.
Proof.
  intros H Hb E Hq. pose proof (busy_recent r p H Hb). pose proof (ok_room r H). pose proof (ok_capacity r H).
  destruct Hb as [Hp _]. apply (same_near (m_capacity r)); [lia|done|lia].
Qed.

(** A write to a busy slot: what the new sequence and content have to satisfy. *)
Lemma set_slot_ok r p s :
  ring_ok r -> busy r p ->
  sequence s = p \/ sequence s = p + 1 \/ sequence s = p + m_capacity r /\ p < m_head r /\ storage s = None ->
  (sequence s = p -> m_head r <= p) ->
  (sequence s = p + 1 -> m_head r <= p -> storage s = message r p) ->
  ring_ok (set_slot p s r).
Proof.
  intros H Hb Hs Hun Hst. pose proof (proj1 (ok_capacity r H)) as Hc. pose proof (busy_recent r p H Hb) as Hr.
  pose proof (ok_head r H). pose proof (fun q => busy_live r p q H Hb) as Hl.
  assert (Hne : forall q, same (m_capacity r) q p -> q <> p + 1).
  { intros q E. by apply (not_same_minus (m_capacity r)), eq_sym. }
  split; cbn [m_tail m_head m_capacity set_slot]; try apply H; [by apply shape_set_slot, H|..];
    intros q Hq; rewrite ?seqn_set, ?content_set by done; try (intros E' || intros _); case_decide as E; try (by apply H).
  - pose proof (busy_window r p q H (proj2 Hb) ltac:(apply Hb) E Hq) as ->. destruct Hb as [Hp _]. lia.
  - pose proof (Hl q E Hq) as ->. lia.
  - specialize (Hne q E). destruct Hs as [Hs|[Hs|[Hs _]]]; [|lia|].
    + assert (q = p) as -> by lia. auto.
    + assert (q = p + m_capacity r) as -> by lia. lia.
  - specialize (Hne q E). destruct Hb as [Hp _]. destruct Hs as [Hs|[Hs|(_ & _ & Hs)]]; [..|done];
      change (reserved r <= q) in Hq; lia.
  - pose proof (Hl q E Hq) as ->. apply Hst; lia.
Qed.

(** The positions in use after such a write. *)
Lemma sending_set_slot r p s q :
  ring_ok r -> busy r p -> sequence s = p + 1 \/ sequence s = p + m_capacity r ->
  sending (set_slot p s r) q <-> sending r q /\ q <> p.
Proof.
  intros H Hb Hs. pose proof (proj1 (ok_capacity r H)) as Hc. unfold sending. rewrite seqn_set by done.
  change (reserved (set_slot p s r)) with (reserved r). pose proof (busy_recent r p H Hb). destruct Hb as [Hp Hb].
  case_decide as E.
  - pose proof (not_same_minus _ _ _ Hc (eq_sym E)). rewrite (seqn_same r q p H E). lia.
  - split; [|tauto]. intros Hq. split; [done|]. intros ->. by apply E.
Qed.

Lemma taking_publish r p s q :
  ring_ok r -> seqn r p = p -> 0 <= p -> sequence s = p + 1 -> taking (set_slot p s r) q <-> taking r q.
Proof.
  intros H Hp H0 Hs. pose proof (proj1 (ok_capacity r H)) as Hc. pose proof (ok_untaken r H p H0 Hp) as Hh.
  unfold taking. rewrite seqn_set by done. cbn [m_head set_slot]. case_decide as E; [|done].
  pose proof (not_same_minus _ _ _ Hc E). rewrite (seqn_same r q p H E). lia.
Qed.

Lemma taking_release r p s q :
  ring_ok r -> taking r p -> sequence s = p + m_capacity r -> taking (set_slot p s r) q <-> taking r q /\ q <> p.
Proof.
  intros H [Hp Hb] Hs. pose proof (proj1 (ok_capacity r H)) as Hc. unfold taking. rewrite seqn_set by done.
  cbn [m_head set_slot]. case_decide as E.
  - rewrite (seqn_same r q p H E). split; [|lia]. intros [Hq Hq']. exfalso.
    apply (not_same_succ (m_capacity r) q Hc). unfold same in *. rewrite <- Hq', Hs, E. by apply same_add; lia.
  - split; [|tauto]. intros Hq. split; [done|]. intros ->. by apply E.
Qed.

Lemma seqn_keep r p s q : ring_ok r -> sequence s = seqn r p -> seqn (set_slot p s r) q = seqn r q.
Proof. intros H Hs. rewrite seqn_set by done. case_decide as E; [|done]. by rewrite (seqn_same r q p). Qed.

Lemma set_slot_grows r p s :
  ring_ok r -> sequence s = seqn r p \/ sending r p \/ taking r p -> grows r (set_slot p s r).
Proof.
  intros H Hs. pose proof (proj1 (ok_capacity r H)) as Hc.
  split; cbn [m_tail m_head m_capacity sent set_slot]; [done..|split; [done|apply H]|intros q|intros q|done];
    rewrite seqn_set by done; change (reserved (set_slot p s r)) with (reserved r); case_decide as E; try done;
    rewrite (seqn_same r q p H E); pose proof (not_same_minus _ _ _ Hc E); pose proof (not_same_minus _ _ _ Hc (eq_sym E));
    unfold sending, taking in Hs; lia.
Qed.

Lemma reserved_reserve tail v r : reserved (reserve tail v r) = reserved r + 1.
Proof. unfold reserved. cbn. rewrite length_app. cbn. lia. Qed.

Lemma message_reserve tail v r p : 0 <= p < reserved r -> message (reserve tail v r) p = message r p.
Proof. intros Hp. unfold message, reserved in *. cbn. apply lookup_app_l. lia. Qed.

Lemma reserve_ok r v :
  ring_ok r -> reserved r < kTailPositionMask -> seqn r (reserved r) = reserved r ->
  ring_ok (reserve (reserved r + 1) v r).
Proof.
  intros H Hn Hf. pose proof (proj1 (ok_capacity r H)) as Hc. pose proof (ok_head r H) as Hh.
  assert (Hroom : reserved r < m_head r + m_capacity r).
  { pose proof (ok_room r H). destruct (decide (reserved r = m_head r + m_capacity r)) as [E|]; [|lia].
    pose proof (ok_live r H (m_head r) ltac:(lia)) as L. rewrite <- (seqn_same r (reserved r) (m_head r) H), Hf in L; [lia|].
    rewrite E. by apply same_add; lia. }
  split; rewrite ?reserved_reserve; cbn [m_tail m_head m_capacity reserve]; [by destruct (ok_shape r H)|by left|lia|lia|lia|..]; try intros q Hq;
    try (rewrite message_reserve by lia);
    change (seqn (reserve (reserved r + 1) v r) q) with (seqn r q); try (intros Hs; apply H; lia).
  - destruct (decide (q < reserved r + m_capacity r)); [apply (ok_window r H); lia|].
    assert (q = reserved r + m_capacity r) as -> by lia. rewrite (seqn_same r _ (reserved r) H) by (apply same_add; lia). lia.
  - destruct (decide (q = reserved r)) as [->|]; [by left|]. apply (ok_live r H). lia.
  - intros Hs. change (content _ q) with (content r q). destruct (decide (q = reserved r)) as [->|]; [lia|].
    rewrite message_reserve by lia. apply (ok_stored r H); lia.
Qed.

Lemma ready_reserved r p : ring_ok r -> m_head r = p -> seqn r p = p + 1 -> p < reserved r.
Proof.
  intros H <- Hs. pose proof (ok_head r H). pose proof (proj1 (ok_capacity r H)).
  destruct (decide (m_head r = reserved r)) as [E|]; [|lia]. pose proof (ok_window r H (m_head r)). lia.
Qed.

Lemma set_head_ok r : ring_ok r -> seqn r (m_head r) = m_head r + 1 -> ring_ok (set_head (m_head r + 1) r).
Proof.
  intros H Hs. pose proof (ready_reserved r _ H eq_refl Hs). pose proof (ok_head r H). pose proof (ok_room r H).
  split; cbn [m_tail m_head m_capacity set_head]; try apply H; try by destruct (ok_shape r H).
  - change (reserved (set_head (m_head r + 1) r)) with (reserved r). lia.
  - change (reserved (set_head (m_head r + 1) r)) with (reserved r). lia.
  - intros q [Hq Hq']. apply (ok_live r H). split; [lia|done].
  - intros q Hq Hq'. change (seqn r q = q) in Hq'. pose proof (ok_untaken r H q Hq Hq').
    destruct (decide (q = m_head r)) as [->|]; lia.
  - intros q [Hq Hq']. apply (ok_stored r H). split; [lia|done].
Qed.

(** ** The threads *)

(** The slot position a thread has for itself, and how many of the threads do. *)
Definition hold t : option Z :=
  match t with
  | Sender _ (SnConstruct p) | Sender _ (SnPublish p) => Some p
  | Receiver _ _ (RvConsume p) | Receiver _ _ (RvRelease p) => Some p
  | _ => None
  end.

Definition at_position (p q : Z) : nat := if decide (p = q) then 1%nat else 0%nat.

Definition sends (p : Z) t : nat :=
  match t with
  | Sender _ (SnConstruct q) | Sender _ (SnPublish q) => at_position p q
  | _ => 0
  end.
Definition takes (p : Z) t : nat :=
  match t with
  | Receiver _ _ (RvConsume q) | Receiver _ _ (RvRelease q) => at_position p q
  | _ => 0
  end.

(** The call that reserved a position, and the one that has the message of a position. *)
Definition reserves (p : Z) t : nat :=
  match t with
  | Sender _ (SnConstruct q) | Sender _ (SnPublish q) | Sender _ (SnReturn kSent q) => at_position p q
  | _ => 0
  end.
Definition occurrences (p : Z) (values : list (Z * T)) : nat := length (filter (fun x => x.1 = p) values).
Definition receives (p : Z) t : nat :=
  match t with
  | Receiver _ values pc =>
      occurrences p values + match pc with RvConsume q => at_position p q | _ => 0 end
  | _ => 0
  end%nat.

Definition indicator (P : Prop) `{Decision P} : nat := if decide P then 1 else 0.

(** The messages of a batch are those of increasing positions. *)
Record values_ok r (values : list (Z * T)) : Prop := mkValuesOk {
  va_messages p v : (p, v) ∈ values -> 0 <= p < m_head r /\ message r p = Some v;
  va_sorted : StronglySorted Z.lt values.*1
}.

Definition send_ok r (value : T) (pc : send_pc) : Prop :=
  match pc with
  | SnLoad => True
  | SnTry tail => 0 <= tail /\ (is_closed tail = false -> tail <= reserved r)
  | SnClaim p => 0 <= p < kTailPositionMask /\ (p < reserved r \/ seqn r p = p)
  | SnConstruct p => 0 <= p < reserved r /\ message r p = Some value /\ content r p = None
  | SnPublish p => 0 <= p < reserved r /\ message r p = Some value /\ content r p = Some value
  | SnReturn result p => result = kSent -> 0 <= p < reserved r /\ message r p = Some value
  end.

Definition recv_ok r (count : nat) (values : list (Z * T)) (pc : recv_pc) : Prop :=
  match pc with
  | RvLoad => (length values <= count)%nat
  | RvTry p => (length values < count)%nat /\ 0 <= p <= m_head r
  | RvClaim p => (length values < count)%nat /\ 0 <= p < kTailPositionMask /\ (p < m_head r \/ seqn r p = p + 1)
  | RvConsume p =>
      (length values < count)%nat /\ 0 <= p < m_head r /\ Forall (fun x => x.1 < p) values /\
      is_Some (message r p) /\ content r p = message r p
  | RvRelease p => (length values <= count)%nat /\ 0 <= p < m_head r /\ content r p = None
  | RvReturn => (length values <= count)%nat
  end.

Definition thread_ok r t : Prop :=
  match t with
  | Sender value pc => send_ok r value pc
  | Receiver count values pc => values_ok r values /\ recv_ok r count values pc
  | Closer _ => True
  | Drainer DrLoadTail => True
  | Drainer (DrLoadHead tail) => is_closed (m_tail r) = true /\ tail = m_tail r
  | Drainer (DrReturn drained) => drained = true -> is_closed (m_tail r) = true /\ m_head r = reserved r
  | Undefined => False
  end.

Record inv r ts : Prop := mkInv {
  inv_ring : ring_ok r;
  inv_sends p : 0 <= p -> total (sends p) ts = indicator (sending r p);
  inv_takes p : 0 <= p -> total (takes p) ts = indicator (taking r p);
  inv_reserves p : 0 <= p -> total (reserves p) ts = indicator (p < reserved r);
  inv_receives p : 0 <= p -> total (receives p) ts = indicator (p < m_head r);
  inv_threads i t : ts !! i = Some t -> thread_ok r t
}.

Lemma message_grows r r' p v : grows r r' -> message r p = Some v -> message r' p = Some v.
Proof. intros G E. unfold message in *. eapply prefix_lookup_Some; [done|apply G]. Qed.

Lemma reserved_grows r r' : grows r r' -> reserved r <= reserved r'.
Proof. intros G. unfold reserved. pose proof (prefix_length _ _ (gr_sent _ _ G)). lia. Qed.

Lemma values_grow r r' values : grows r r' -> values_ok r values -> values_ok r' values.
Proof.
  intros G [Hm Hs]. split; [|done]. intros p v [Hp Hv]%Hm. pose proof (gr_head _ _ G).
  split; [lia|by eapply message_grows].
Qed.

(** What another thread knows stays true, as long as its own slot is left alone. *)
Lemma thread_ok_frame r r' t :
  grows r r' -> (forall p, hold t = Some p -> slot_of r' p = slot_of r p) -> thread_ok r t -> thread_ok r' t.
Proof.
  intros G Hh. pose proof (reserved_grows _ _ G) as Hr. pose proof (gr_head _ _ G) as Hd.
  pose proof (fun p v => message_grows r r' p v G) as Hm.
  assert (Hc : forall p, hold t = Some p -> content r' p = content r p).
  { intros p Hp. unfold content. by rewrite (Hh p Hp). }
  destruct t as [v []|count values pc|[]|[]|]; cbn [thread_ok send_ok] in *; try done.
  - intros [Ht Hn]. split; [done|]. intros E. specialize (Hn E). lia.
  - intros [Hp Hf]. split; [done|by apply (gr_free _ _ G)].
  - rewrite Hc by done. intros (Hp & Hv & ?). split; [lia|auto].
  - rewrite Hc by done. intros (Hp & Hv & ?). split; [lia|auto].
  - intros Hs E. destruct (Hs E). split; [lia|auto].
  - intros [Hv Hpc]. split; [by eapply values_grow|]. destruct pc; cbn [recv_ok] in *; try done.
    + intuition lia.
    + destruct Hpc as (? & ? & Hf). split; [done|split; [done|by apply (gr_ready _ _ G)]].
    + destruct Hpc as (? & Hp & ? & [v E] & Hs). rewrite Hc, Hs, E, (Hm _ _ E) by done. split_and!; try done; lia.
    + rewrite Hc by done. intuition lia.
  - intros [Hcl ->]. by destruct (gr_closed _ _ G Hcl) as [-> _].
  - intros Hd' E. destruct (Hd' E) as [Hcl Hn]. destruct (gr_closed _ _ G Hcl) as [-> Hs]. split; [done|].
    unfold reserved in *. rewrite Hs in *. lia.
Qed.

(** ** Every step keeps the invariant *)

Lemma at_position_eq p : at_position p p = 1%nat.
Proof. unfold at_position. by rewrite decide_True. Qed.

Lemma indicator_true (P : Prop) `{Decision P} : P -> indicator P = 1%nat.
Proof. intros HP. unfold indicator. by rewrite decide_True. Qed.

Lemma indicator_pos (P : Prop) `{Decision P} : (1 <= indicator P)%nat -> P.
Proof. unfold indicator. destruct (decide P); [done|lia]. Qed.

Lemma hold_uses t p : hold t = Some p -> sends p t = 1%nat \/ takes p t = 1%nat.
Proof. destruct t as [v []|count values []|[]|[]|]; cbn; try done; intros [= ->]; rewrite at_position_eq; auto. Qed.

Lemma hold_position r ts i t p : inv r ts -> ts !! i = Some t -> hold t = Some p -> 0 <= p < reserved r.
Proof.
  intros H Hi Hp. pose proof (inv_threads _ _ H i t Hi) as Ht. pose proof (ok_head r (inv_ring _ _ H)).
  destruct t as [v []|count values []|[]|[]|]; try done; injection Hp as <-; cbn in Ht; [tauto..|lia|lia].
Qed.

Lemma sends_sending r ts i t p : inv r ts -> ts !! i = Some t -> 0 <= p -> (1 <= sends p t)%nat -> sending r p.
Proof.
  intros H Hi Hp Hs. pose proof (total_lookup (sends p) ts i t Hi) as Ht. rewrite (inv_sends _ _ H p Hp) in Ht.
  eapply indicator_pos, Nat.le_trans; [exact Hs|exact Ht].
Qed.

Lemma takes_taking r ts i t p : inv r ts -> ts !! i = Some t -> 0 <= p -> (1 <= takes p t)%nat -> taking r p.
Proof.
  intros H Hi Hp Hs. pose proof (total_lookup (takes p) ts i t Hi) as Ht. rewrite (inv_takes _ _ H p Hp) in Ht.
  eapply indicator_pos, Nat.le_trans; [exact Hs|exact Ht].
Qed.

Lemma hold_busy r ts i t p : inv r ts -> ts !! i = Some t -> hold t = Some p -> busy r p.
Proof.
  intros H Hi Hp. pose proof (hold_position r ts i t p H Hi Hp) as Hb. split; [done|].
  destruct (hold_uses t p Hp) as [E|E].
  - left. eapply (sends_sending r ts i t p); [done..|lia|lia].
  - right. eapply (takes_taking r ts i t p); [done..|lia|lia].
Qed.

(** No two threads use one slot. *)
Lemma hold_exclusive r ts i j t u p q :
  inv r ts -> ts !! i = Some t -> ts !! j = Some u -> i <> j -> hold t = Some p -> hold u = Some q ->
  ~ same (m_capacity r) p q.
Proof.
  intros H Hi Hj Hn Hp Hq E. pose proof (inv_ring _ _ H) as Hr. pose proof (proj1 (ok_capacity r Hr)) as Hc.
  pose proof (hold_position r ts i t p H Hi Hp). pose proof (hold_position r ts j u q H Hj Hq).
  pose proof (seqn_same r p q Hr E) as Es.
  pose proof (not_same_minus _ _ _ Hc E). pose proof (not_same_minus _ _ _ Hc (eq_sym E)).
  pose proof (hold_uses t p Hp) as Ut. pose proof (hold_uses u q Hq) as Uu.
  assert (p = q) as <-.
  { destruct (hold_busy r ts i t p H Hi Hp) as [_ Bp], (hold_busy r ts j u q H Hj Hq) as [_ Bq]. lia. }
  pose proof (total_two (sends p) ts i j t u Hi Hj Hn). pose proof (total_two (takes p) ts i j t u Hi Hj Hn).
  pose proof (inv_sends r ts H p ltac:(lia)) as Cs. pose proof (inv_takes r ts H p ltac:(lia)) as Ct.
  unfold indicator in Cs, Ct. unfold sending, taking in *. destruct (decide (_ /\ _)), (decide (_ /\ _)); lia.
Qed.

(** The step of one thread: the ring stays well formed, the thread knows what it has to, what is counted
    follows the ring, and the slots the others use are left alone. *)
Record good_step r t r' t' : Prop := mkGoodStep {
  gs_ring : ring_ok r';
  gs_grows : grows r r';
  gs_thread : thread_ok r' t';
  gs_sends p : 0 <= p -> (sends p t' + indicator (sending r p) = sends p t + indicator (sending r' p))%nat;
  gs_takes p : 0 <= p -> (takes p t' + indicator (taking r p) = takes p t + indicator (taking r' p))%nat;
  gs_reserves p : 0 <= p ->
    (reserves p t' + indicator (p < reserved r)%Z = reserves p t + indicator (p < reserved r')%Z)%nat;
  gs_receives p : 0 <= p ->
    (receives p t' + indicator (p < m_head r)%Z = receives p t + indicator (p < m_head r')%Z)%nat;
  gs_frame p : (forall q, hold t = Some q -> ~ same (m_capacity r) p q) -> slot_of r' p = slot_of r p
}.

Lemma good_step_inv r ts i t r' t' :
  inv r ts -> ts !! i = Some t -> good_step r t r' t' -> inv r' (<[i := t']> ts).
Proof.
  intros H Hi G. split; [apply G|..].
  1-4: intros p Hp.
  - pose proof (gs_sends _ _ _ _ G p Hp). pose proof (inv_sends _ _ H p Hp). totals Hi t'. lia.
  - pose proof (gs_takes _ _ _ _ G p Hp). pose proof (inv_takes _ _ H p Hp). totals Hi t'. lia.
  - pose proof (gs_reserves _ _ _ _ G p Hp). pose proof (inv_reserves _ _ H p Hp). totals Hi t'. lia.
  - pose proof (gs_receives _ _ _ _ G p Hp). pose proof (inv_receives _ _ H p Hp). totals Hi t'. lia.
  - intros j u Hj. destruct (decide (i = j)) as [<-|Hn].
    + rewrite list_lookup_insert_eq in Hj by (by eapply lookup_lt_Some). injection Hj as <-. apply G.
    + rewrite list_lookup_insert_ne in Hj by done. eapply thread_ok_frame; [apply G| |by eapply inv_threads].
      intros p Hp. apply (gs_frame _ _ _ _ G). intros q Hq E.
      by eapply (hold_exclusive r ts i j t u q p H).
Qed.

Lemma grows_refl r : ring_ok r -> grows r r.
Proof. intros H. split; try done. pose proof (ok_head r H). lia. Qed.

(** A step that leaves the ring as it is. *)
Lemma quiet_step r t t' :
  ring_ok r -> thread_ok r t' ->
  (forall p, sends p t' = sends p t /\ takes p t' = takes p t /\ reserves p t' = reserves p t /\
             receives p t' = receives p t) ->
  good_step r t r t'.
Proof. intros H Ht E. split; try done; [by apply grows_refl|..]; intros p _; destruct (E p) as (? & ? & ? & ?); lia. Qed.

Lemma tail_closed r : ring_ok r -> is_closed (m_tail r) = true -> m_tail r = reserved r + 2 ^ 63.
Proof.
  intros H E. destruct (ok_tail r H) as [Et|]; [|done]. rewrite Et, is_closed_open in E; [done|].
  pose proof (ok_bound r H). pose proof (ok_head r H). unfold kTailPositionMask in *. rewrite kTailClosedBit_eq in *. lia.
Qed.

Lemma reserved_bounds r : ring_ok r -> 0 <= reserved r < 2 ^ 63.
Proof.
  intros H. pose proof (ok_bound r H). pose proof (ok_head r H). unfold kTailPositionMask in *.
  rewrite kTailClosedBit_eq in *. lia.
Qed.

Lemma tail_open r : ring_ok r -> is_closed (m_tail r) = false -> m_tail r = reserved r.
Proof.
  intros H E. destruct (ok_tail r H) as [|Et]; [done|]. by rewrite Et, is_closed_closed in E by by apply reserved_bounds.
Qed.

Lemma lor_tail r : ring_ok r -> Z.lor (m_tail r) kTailClosedBit = reserved r + 2 ^ 63.
Proof.
  intros H. pose proof (reserved_bounds r H). destruct (ok_tail r H) as [-> | ->]; rewrite <- ?lor_closed by done;
    rewrite ?lor_closed_twice; by rewrite lor_closed.
Qed.

Lemma close_step r t t' :
  ring_ok r -> thread_ok (set_tail (Z.lor (m_tail r) kTailClosedBit) r) t' ->
  (forall p, sends p t' = sends p t /\ takes p t' = takes p t /\ reserves p t' = reserves p t /\
             receives p t' = receives p t) ->
  good_step r t (set_tail (Z.lor (m_tail r) kTailClosedBit) r) t'.
Proof.
  intros H Ht E. split; try done.
  - split; try apply H; [by destruct (ok_shape r H)|]. right. exact (lor_tail r H).
  - split; try done; [exact (conj (Z.le_refl _) (proj2 (ok_head r H)))|]. intros Hc. split; [|done]. cbn. rewrite lor_tail by done. by rewrite (tail_closed r H Hc).
  - intros p _. rewrite (proj1 (E p)). reflexivity.
  - intros p _. destruct (E p) as (_ & -> & _). reflexivity.
  - intros p _. destruct (E p) as (_ & _ & -> & _). reflexivity.
  - intros p _. destruct (E p) as (_ & _ & _ & ->). reflexivity.
Qed.

Lemma indicator_iff (P Q : Prop) `{Decision P, Decision Q} : (P <-> Q) -> indicator P = indicator Q.
Proof. intros E. unfold indicator. apply decide_ext. exact E. Qed.

Lemma indicator_more (P Q : Prop) `{Decision P, Decision Q} p q :
  (P <-> Q \/ p = q) -> ~ (Q /\ p = q) -> indicator P = (at_position p q + indicator Q)%nat.
Proof. intros E N. unfold indicator, at_position. repeat case_decide; tauto || lia. Qed.

Lemma indicator_less (P Q : Prop) `{Decision P, Decision Q} p q :
  (P <-> Q /\ p <> q) -> (p = q -> Q) -> indicator Q = (at_position p q + indicator P)%nat.
Proof. intros E N. unfold indicator, at_position. repeat case_decide; tauto || lia. Qed.

Lemma reserve_step r v p :
  ring_ok r -> send_ok r v (SnClaim p) -> m_tail r = p ->
  good_step r (Sender v (SnClaim p)) (reserve (wrap64 (p + 1)) v r) (Sender v (SnConstruct p)).
Proof.
  intros H [Hp Hf] Et. pose proof (reserved_bounds r H) as Hb. unfold kTailPositionMask in Hp.
  rewrite kTailClosedBit_eq in Hp. pose proof (ok_tail r H) as Ht. assert (p = reserved r) as -> by lia.
  rewrite wrap64_small by lia. assert (seqn r (reserved r) = reserved r) as Hs by lia.
  assert (reserved r < kTailPositionMask) as Hn by (unfold kTailPositionMask; rewrite kTailClosedBit_eq; lia).
  pose proof (reserve_ok r v H Hn Hs) as H'. pose proof (reserved_reserve (reserved r + 1) v r) as Hr.
  assert (Hm : message (reserve (reserved r + 1) v r) (reserved r) = Some v).
  { unfold message, reserved. cbn. by rewrite Nat2Z.id, lookup_app_r, Nat.sub_diag. }
  assert (Hsame : forall q, seqn (reserve (reserved r + 1) v r) q = seqn r q) by done.
  split; try done.
  - split; rewrite ?Hr; try done.
    + cbn. by apply prefix_app_r.
    + pose proof (ok_head r H). cbn. lia.
    + intros q [|]; [left; lia|by right].
    + rewrite Et, is_closed_open by done. done.
  - split; [lia|]. split; [done|]. change (content r (reserved r) = None). apply (ok_free r H); [lia|done].
  - intros q Hq. cbn. rewrite (indicator_more (sending (reserve (reserved r + 1) v r) q) (sending r q) q (reserved r)); [lia|..];
      unfold sending; rewrite ?Hr, ?Hsame; [|lia]. split; [lia|]. intros [ | -> ]; [lia|]. by split; [lia|].
  - intros q Hq. cbn. rewrite Hr. rewrite (indicator_more (q < reserved r + 1)%Z (q < reserved r)%Z q (reserved r)); lia.
Qed.

(** The slot of a thread, written by it. *)
Lemma write_step r t p s t' :
  ring_ok r -> hold t = Some p -> ring_ok (set_slot p s r) -> sequence s = seqn r p \/ sending r p \/ taking r p ->
  thread_ok (set_slot p s r) t' ->
  (forall q, sends q t' + indicator (sending r q) = sends q t + indicator (sending (set_slot p s r) q))%nat ->
  (forall q, takes q t' + indicator (taking r q) = takes q t + indicator (taking (set_slot p s r) q))%nat ->
  (forall q, reserves q t' = reserves q t) -> (forall q, receives q t' = receives q t) ->
  good_step r t (set_slot p s r) t'.
Proof.
  intros H Hh H' Hs Ht Es Et Er Ev. split; [done|by apply set_slot_grows|done|..].
  - intros q Hq. specialize (Es q). lia.
  - intros q Hq. specialize (Et q). lia.
  - intros q _. rewrite Er. reflexivity.
  - intros q _. rewrite Ev. reflexivity.
  - intros q Hq. rewrite slot_of_set by apply H. rewrite decide_False; [done|by apply Hq].
Qed.

Lemma slot_parts r p : mkSlot (seqn r p) (content r p) = slot_of r p.
Proof. unfold seqn, content. by destruct (slot_of r p). Qed.

Lemma keep_counts r p s q :
  ring_ok r -> sequence s = seqn r p -> (sending (set_slot p s r) q <-> sending r q) /\ (taking (set_slot p s r) q <-> taking r q).
Proof. intros H Hs. unfold sending, taking. by rewrite seqn_keep. Qed.

Lemma construct_step r v p :
  ring_ok r -> send_ok r v (SnConstruct p) -> sending r p ->
  good_step r (Sender v (SnConstruct p)) (set_slot p (mkSlot (seqn r p) (Some v)) r) (Sender v (SnPublish p)).
Proof.
  intros H (Hp & Hm & Hn) [Hr Hs]. apply write_step; auto.
  - apply set_slot_ok; [done|by split; [lia|left]|cbn; lia|intros _; apply (ok_untaken r H); [lia|done]|cbn; lia].
  - split; [done|]. split; [done|]. rewrite content_set, decide_True by done. done.
  - intros q. cbn [sends]. f_equal. apply indicator_iff. symmetry. by apply keep_counts.
  - intros q. cbn [takes]. f_equal. apply indicator_iff. symmetry. by apply keep_counts.
Qed.

Lemma publish_step r v p :
  ring_ok r -> send_ok r v (SnPublish p) -> sending r p ->
  good_step r (Sender v (SnPublish p)) (set_slot p (mkSlot (wrap64 (p + 1)) (content r p)) r)
    (Sender v (SnReturn kSent p)).
Proof.
  intros H (Hp & Hm & Hv) Hs. pose proof (reserved_bounds r H). rewrite wrap64_small by lia.
  assert (busy r p) as Hb by (split; [lia|left; apply Hs]). apply write_step; auto.
  - apply set_slot_ok; [done..|cbn; lia|cbn; lia|]. intros _ _. cbn. by rewrite Hv.
  - intros _. by split.
  - intros q. cbn [sends]. rewrite (indicator_less (sending (set_slot p (mkSlot (p + 1) (content r p)) r) q) (sending r q) q p).
    + lia.
    + apply sending_set_slot; auto.
    + by intros ->.
  - intros q. cbn [takes]. f_equal. apply indicator_iff. symmetry. apply taking_publish; [done|apply Hs|lia|done].
Qed.

Lemma occurrences_app p values x : occurrences p (values ++ [x]) = (occurrences p values + at_position p x.1)%nat.
Proof.
  unfold occurrences, at_position. rewrite filter_app, length_app. f_equal. rewrite filter_cons, filter_nil.
  do 2 case_decide; congruence || done.
Qed.

Lemma take_step r count values p :
  ring_ok r -> values_ok r values -> recv_ok r count values (RvClaim p) -> m_head r = p ->
  good_step r (Receiver count values (RvClaim p)) (set_head (wrap64 (p + 1)) r) (Receiver count values (RvConsume p)).
Proof.
  intros H Hv (Hl & Hp & Hs) <-. pose proof (reserved_bounds r H).
  assert (seqn r (m_head r) = m_head r + 1) as Hs' by lia.
  pose proof (ready_reserved r _ H eq_refl Hs') as Hn. rewrite wrap64_small by lia.
  pose proof (set_head_ok r H Hs') as H'.
  assert (G : grows r (set_head (m_head r + 1) r)).
  { split; try done; cbn; [change (reserved (set_head _ r)) with (reserved r); lia|].
    intros q [Hq|Hq]; [left; lia|by right]. }
  split; try done.
  - split; [by eapply values_grow|]. split_and!; [done|cbn; lia|cbn; lia|..].
    + apply Forall_forall. intros [q v] Hq. apply (va_messages _ _ Hv q v Hq).
    + apply lookup_lt_is_Some. unfold reserved in *. cbn. lia.
    + change (content r (m_head r) = message r (m_head r)). apply (ok_stored r H); [lia|done].
  - intros q Hq. cbn [takes]. rewrite (indicator_more (taking (set_head (m_head r + 1) r) q) (taking r q) q (m_head r)); [lia|..];
      unfold taking; change (seqn (set_head _ r) q) with (seqn r q); cbn [m_head set_head]; [|lia].
    split; [lia|]. intros [ | -> ]; lia.
  - intros q Hq. cbn [receives m_head set_head].
    rewrite (indicator_more (q < m_head r + 1)%Z (q < m_head r)%Z q (m_head r)); lia.
Qed.

Lemma values_snoc r values p v :
  values_ok r values -> Forall (fun x => x.1 < p) values -> 0 <= p < m_head r -> message r p = Some v ->
  values_ok r (values ++ [(p, v)]).
Proof.
  intros [Hm Hs] Hf Hp Hv. split.
  - intros q w [Hq|Hq]%elem_of_app; [by apply Hm|]. apply list_elem_of_singleton in Hq as [= -> ->]. done.
  - rewrite fmap_app. apply StronglySorted_app_2; [|done|repeat constructor].
    intros x y (z & -> & Hz)%list_elem_of_fmap Hy%list_elem_of_singleton. cbn in Hy. subst y.
    rewrite Forall_forall in Hf. by apply Hf.
Qed.

Lemma values_write r p s values : values_ok r values -> values_ok (set_slot p s r) values.
Proof. intros [Hm Hs]. split; [exact Hm|exact Hs]. Qed.

Lemma consume_step r count values p v :
  ring_ok r -> values_ok r values -> recv_ok r count values (RvConsume p) -> taking r p -> content r p = Some v ->
  good_step r (Receiver count values (RvConsume p)) (set_slot p (mkSlot (seqn r p) None) r)
    (Receiver count (values ++ [(p, v)]) (RvRelease p)).
Proof.
  intros H Hv (Hl & Hp & Hf & _ & Hm) Ht E. pose proof (ok_head r H) as Hh.
  assert (busy r p) as Hb by (split; [lia|right; apply Ht]). destruct Ht as [Ht Hs]. apply write_step; auto.
  - apply set_slot_ok; [done..|cbn; lia|cbn; lia|cbn; lia].
  - split.
    + apply values_write, values_snoc; [done|done|lia|congruence].
    + cbn [recv_ok]. rewrite length_app, content_set, decide_True by done. cbn. split_and!; lia || done.
  - intros q. cbn [sends]. f_equal. apply indicator_iff. symmetry. by apply keep_counts.
  - intros q. cbn [takes]. f_equal. apply indicator_iff. symmetry. by apply keep_counts.
  - intros q. cbn [receives]. rewrite occurrences_app. cbn. lia.
Qed.

Lemma release_step r count values p :
  ring_ok r -> values_ok r values -> recv_ok r count values (RvRelease p) -> taking r p ->
  good_step r (Receiver count values (RvRelease p))
    (set_slot p (mkSlot (wrap64 (p + m_capacity r)) (content r p)) r) (Receiver count values RvLoad).
Proof.
  intros H Hv (Hl & Hp & Hn) Ht. pose proof (ok_head r H) as Hh. pose proof (reserved_bounds r H).
  pose proof (ok_capacity r H) as Hc. rewrite wrap64_small by lia.
  assert (busy r p) as Hb by (split; [lia|right; apply Ht]). apply write_step; auto.
  - apply set_slot_ok; [done..|cbn; right; right; split_and!; [done|lia|done]|cbn; lia|cbn; lia].
  - split; [by apply values_write|done].
  - intros q. cbn [sends]. f_equal. apply indicator_iff.
    rewrite sending_set_slot by auto. split; [|tauto]. intros Hq. split; [done|]. intros ->.
    destruct Hq as [_ Hq], Ht as [_ Ht]. lia.
  - intros q. cbn [takes].
    rewrite (indicator_less (taking (set_slot p (mkSlot (p + m_capacity r) (content r p)) r) q) (taking r q) q p).
    + lia.
    + by apply taking_release.
    + by intros ->.
Qed.

Lemma slot_at_ring r p : ring_ok r -> slot_at r p = Some (mkSlot (seqn r p) (content r p)).
Proof. intros H. rewrite slot_parts. apply slot_at_some, H. Qed.

(** Sequences do not wrap. *)
Lemma seqn_range r p : ring_ok r -> 0 <= seqn r p < reserved r + m_capacity r.
Proof.
  intros H. destruct (window_position r p H) as (q & E & Hq). rewrite <- (seqn_same r q p H E).
  pose proof (ok_window r H q Hq). pose proof (ok_head r H). pose proof (ok_capacity r H). lia.
Qed.

Lemma mpmc_weak_true c a b : weak c a b = true -> a = b.
Proof. unfold weak. rewrite andb_true_iff, Z.eqb_eq. tauto. Qed.

Lemma send_try_ok r v : ring_ok r -> send_ok r v (SnTry (m_tail r)).
Proof.
  intros H. pose proof (ok_head r H). split; [destruct (ok_tail r H); lia|].
  intros E%(tail_open r H). lia.
Qed.

Lemma send_step_good r ts i c v pc r' t' :
  inv r ts -> ts !! i = Some (Sender v pc) -> ringEnqueueResult c v r pc = Some (r', t') ->
  good_step r (Sender v pc) r' t'.
Proof.
  intros Hi Ht E. pose proof (inv_ring _ _ Hi) as H. pose proof (inv_threads _ _ Hi i _ Ht) as Hok.
  pose proof (seqn_range r) as Hrange. pose proof (ok_capacity r H) as Hc. pose proof (reserved_bounds r H) as Hb.
  destruct pc as [|tail|p|p|p|result p]; cbn [ringEnqueueResult thread_ok] in E, Hok.
  - injection E as <- <-. apply quiet_step; [done|by apply send_try_ok|done].
  - destruct (is_closed tail) eqn:Ec; [injection E as <- <-; by apply quiet_step|].
    destruct (Z.eqb_spec tail kTailPositionMask) as [->|Hm].
    + destruct (weak c (m_tail r) kTailPositionMask) eqn:Ew; injection E as <- <-.
      * apply mpmc_weak_true in Ew as <-. by apply close_step.
      * apply quiet_step; [done|by apply send_try_ok|done].
    + rewrite slot_at_ring in E by done. cbn [sequence] in E. injection E as <- <-.
      destruct Hok as [Hp Hle]. specialize (Hle Ec). specialize (Hrange tail H).
      assert (tail < kTailPositionMask) by (pose proof (ok_bound r H); lia).
      rewrite int64_zero by lia.
      destruct (Z.eqb_spec (seqn r tail) tail) as [Es|_]; [|destruct (_ <? 0); by apply quiet_step].
      apply quiet_step; [done| |done]. split; [lia|by right].
  - destruct (weak c (m_tail r) p) eqn:Ew; injection E as <- <-.
    + apply mpmc_weak_true in Ew. by apply reserve_step.
    + apply quiet_step; [done|by apply send_try_ok|done].
  - rewrite slot_at_ring in E by done. pose proof Hok as (Hp & _ & Hn). rewrite Hn in E. injection E as <- <-.
    apply construct_step; [done..|]. eapply (sends_sending r ts i); [done..|lia|]. cbn. by rewrite at_position_eq.
  - rewrite slot_at_ring in E by done. injection E as <- <-.
    apply publish_step; [done..|]. eapply (sends_sending r ts i); [done..|apply Hok|]. cbn. by rewrite at_position_eq.
  - done.
Qed.

Lemma recv_step_good r ts i c count values pc r' t' :
  inv r ts -> ts !! i = Some (Receiver count values pc) -> ringDequeueTo c count values r pc = Some (r', t') ->
  good_step r (Receiver count values pc) r' t'.
Proof.
  intros Hi Ht E. pose proof (inv_ring _ _ Hi) as H. pose proof (inv_threads _ _ Hi i _ Ht) as [Hv Hok].
  pose proof (seqn_range r) as Hrange. pose proof (ok_capacity r H) as Hc. pose proof (reserved_bounds r H) as Hb.
  pose proof (ok_head r H) as Hh.
  destruct pc as [|p|p|p|p|]; cbn [ringDequeueTo recv_ok] in E, Hok.
  - injection E as <- <-. apply quiet_step; [done| |by intros p; destruct (_ <? _)%nat; cbn].
    split; [done|]. destruct (Nat.ltb_spec (length values) count); cbn [recv_ok]; lia.
  - rewrite slot_at_ring in E by done. cbn [sequence] in E. injection E as <- <-. specialize (Hrange p H).
    rewrite wrap64_small, int64_zero by lia.
    destruct (Z.eqb_spec (seqn r p) (p + 1)) as [Es|_].
    + apply quiet_step; [done| |done]. split; [done|]. cbn [recv_ok]. split; [lia|]. split; [|by right].
      pose proof (ok_bound r H). destruct (decide (p = m_head r)) as [->|]; [|lia].
      pose proof (ready_reserved r _ H eq_refl Es). lia.
    + destruct (_ <? 0); (apply quiet_step; [done|split; [done|cbn [recv_ok]; lia]|done]).
  - destruct (weak c (m_head r) p) eqn:Ew; injection E as <- <-.
    + apply mpmc_weak_true in Ew. by apply take_step.
    + apply quiet_step; [done| |done]. split; [done|]. cbn [recv_ok]. lia.
  - rewrite slot_at_ring in E by done. pose proof Hok as (_ & Hp & _ & [v Ev] & Em). rewrite Em, Ev in E.
    injection E as <- <-. apply consume_step; [done..| |congruence].
    eapply (takes_taking r ts i); [done..|lia|]. cbn. by rewrite at_position_eq.
  - rewrite slot_at_ring in E by done. injection E as <- <-. apply release_step; [done..|].
    eapply (takes_taking r ts i); [done..|apply Hok|]. cbn. by rewrite at_position_eq.
  - done.
Qed.

Lemma thread_step_good r ts i c t r' t' :
  inv r ts -> ts !! i = Some t -> thread_step c r t = Some (r', t') -> good_step r t r' t'.
Proof.
  intros Hi Ht E. pose proof (inv_ring _ _ Hi) as H. pose proof (inv_threads _ _ Hi i _ Ht) as Hok.
  destruct t as [v pc|count values pc|[]|[]|]; cbn in E; try done.
  - by eapply send_step_good.
  - by eapply recv_step_good.
  - injection E as <- <-. by apply close_step.
  - injection E as <- <-. apply quiet_step; [done| |by intros p; destruct (is_closed _)].
    by destruct (is_closed (m_tail r)) eqn:Ec.
  - injection E as <- <-. apply quiet_step; [done| |done]. intros Ed. destruct Hok as [Hc ->]. split; [done|].
    rewrite (tail_closed r H Hc), (tail_position _ true) in Ed by by apply reserved_bounds. lia.
Qed.

Lemma inv_step cfg cfg' : inv cfg.1 cfg.2 -> step cfg cfg' -> inv cfg'.1 cfg'.2.
Proof. intros H Hs. destruct Hs as [c i r ts t r' t' Hi E]. eapply good_step_inv; [done..|by eapply thread_step_good]. Qed.

(** ** What is reachable from a new channel *)

Lemma normalizeCapacity_bounds capacity : 2 <= normalizeCapacity capacity <= 2 ^ 62.
Proof. apply (capacity_bounds 62), normalizeCapacity_ok. Qed.

Lemma new_channel_shape capacity : shape (new_channel (T := T) capacity).
Proof. split; [apply normalizeCapacity_ok|done|]. cbn. by rewrite length_fmap, length_seq. Qed.

Lemma new_channel_slot capacity p :
  slot_of (new_channel (T := T) capacity) p = mkSlot (p mod normalizeCapacity capacity) None.
Proof.
  pose proof (normalizeCapacity_bounds capacity). pose proof (Z.mod_pos_bound p (normalizeCapacity capacity) ltac:(lia)).
  unfold slot_of, slot_at. rewrite slot_index_mod by apply new_channel_shape. cbn [m_slots m_capacity new_channel].
  rewrite list_lookup_fmap, lookup_seq_lt by lia. cbn. by rewrite Z2Nat.id by lia.
Qed.

Lemma new_channel_ok capacity : ring_ok (new_channel (T := T) capacity).
Proof.
  pose proof (normalizeCapacity_bounds capacity) as Hc.
  split; cbn [m_tail m_head m_capacity new_channel]; [apply new_channel_shape|by left|done|done|unfold reserved; cbn; lia|..];
    intros p Hp; change (reserved (new_channel capacity)) with 0 in *; unfold seqn, content; rewrite ?new_channel_slot; cbn; try lia.
  - left. apply Z.mod_small. lia.
  - done.
Qed.

Definition begun_nothing t : Prop := hold t = None /\ forall p, reserves p t = 0%nat /\ receives p t = 0%nat.

Lemma begins_nothing t : begins t -> begun_nothing t.
Proof. by destruct t as [v []|count [] []|[]|[]|]. Qed.

Lemma begins_ok r t : begins t -> thread_ok r t.
Proof.
  destruct t as [v []|count [] []|[]|[]|]; try done. intros _. split; [|cbn; lia].
  split; [by intros p v ?%not_elem_of_nil|constructor].
Qed.

Lemma hold_none t p : hold t = None -> sends p t = 0%nat /\ takes p t = 0%nat.
Proof. by destruct t as [v []|count values []|[]|[]|]. Qed.

Lemma new_channel_inv capacity calls : Forall begins calls -> inv (new_channel capacity) calls.
Proof.
  intros Hb. assert (Hz : forall w, (forall t, begins t -> w t = 0%nat) -> total w calls = 0%nat).
  { intros w Hw. apply total_zero. eapply Forall_impl; [exact Hb|exact Hw]. }
  split; [apply new_channel_ok|..].
  1-4: intros p Hp; rewrite Hz; [unfold indicator, sending, taking, reserved; rewrite decide_False; [done|cbn; lia]|
    intros t Ht%begins_nothing; destruct Ht as [Hh Hn]].
  - by apply hold_none.
  - by apply hold_none.
  - apply Hn.
  - apply Hn.
  - intros i t Hi. apply begins_ok. by eapply Forall_lookup_1.
Qed.

Definition reachable (capacity : Z) (calls : list (thread T)) r ts : Prop :=
  Forall begins calls /\ rtc step (new_channel capacity, calls) (r, ts).

Lemma mpmc_reachable_inv capacity calls r ts : reachable capacity calls r ts -> inv r ts.
Proof.
  intros [Hb Hs]. change (inv (r, ts).1 (r, ts).2).
  apply (reachable_invariant step (fun cfg => inv cfg.1 cfg.2) (new_channel capacity, calls)).
  - by apply new_channel_inv.
  - apply inv_step.
  - done.
Qed.

Lemma step_grows cfg cfg' : inv cfg.1 cfg.2 -> step cfg cfg' -> grows cfg.1 cfg'.1.
Proof. intros H Hs. destruct Hs as [c i r ts t r' t' Hi E]. by apply (thread_step_good r ts i c t r' t'). Qed.

Lemma reachable_capacity capacity calls r ts :
  reachable capacity calls r ts -> m_capacity r = normalizeCapacity capacity.
Proof.
  intros [Hb Hs]. change (m_capacity (r, ts).1 = normalizeCapacity capacity).
  enough (inv (r, ts).1 (r, ts).2 /\ m_capacity (r, ts).1 = normalizeCapacity capacity) as [_ E] by done.
  apply (reachable_invariant step (fun cfg => inv cfg.1 cfg.2 /\ m_capacity cfg.1 = normalizeCapacity capacity)
           (new_channel capacity, calls)); [by split; [apply new_channel_inv|]| |done].
  intros x y [H E] Hxy. split; [by eapply inv_step|]. by rewrite (gr_capacity _ _ (step_grows x y H Hxy)).
Qed.

(** The power of two is the least one that has room. *)
Lemma normalizeCapacity_least capacity :
  capacity <= kMaxRingCapacity ->
  Z.max 2 capacity <= normalizeCapacity capacity /\ (2 < capacity -> normalizeCapacity capacity < 2 * capacity).
Proof.
  intros Hm. unfold normalizeCapacity, bit_ceil. change kMaxRingCapacity with (2 ^ 62) in *.
  destruct (Z.leb_spec capacity 2); [lia|]. destruct (Z.leb_spec (2 ^ 62) capacity); [lia|].
  pose proof (Z.log2_up_spec capacity ltac:(lia)) as [Hl Hu].
  assert (2 ^ Z.log2_up capacity = 2 * 2 ^ Z.pred (Z.log2_up capacity)) as E; [|lia].
  rewrite <- Z.pow_succ_r; [f_equal; lia|]. pose proof (Z.log2_up_pos capacity). lia.
Qed.

(** C10: Whatever the order in which the steps of any number of [trySend], [tryRecv], [tryRecvBatch],
    [close] and [isClosedAndDrained] calls are taken, the channel is a queue that loses and repeats
    nothing: no call reads a slot without a message or writes over one; a send that succeeds has put its
    message at a position of its own, and every reserved position was reserved by exactly one send; a
    message that is received is the one sent at its position, every position below the head is received
    exactly once, those above not at all, and a batch has increasing positions; and there are never more
    reserved than received positions by more than the capacity. *)
Theorem messages_delivered_once capacity calls r ts :
  reachable capacity calls r ts ->
  ~ Undefined ∈ ts /\
  (forall i v p, ts !! i = Some (Sender v (SnReturn kSent p)) -> 0 <= p < reserved r /\ message r p = Some v) /\
  (forall i count values pc, ts !! i = Some (Receiver count values pc) ->
     (length values <= count)%nat /\ StronglySorted Z.lt values.*1 /\
     forall p v, (p, v) ∈ values -> 0 <= p < m_head r /\ message r p = Some v) /\
  (forall p, 0 <= p ->
     total (reserves p) ts = indicator (p < reserved r) /\ total (receives p) ts = indicator (p < m_head r)) /\
  m_head r <= reserved r <= m_head r + normalizeCapacity capacity.
Proof.
  intros Hre. rewrite <- (reachable_capacity _ _ _ _ Hre). apply mpmc_reachable_inv in Hre as H.
  pose proof (inv_ring _ _ H) as Hr. split_and!; try apply Hr.
  - intros [i Hi]%list_elem_of_lookup. exact (inv_threads _ _ H i _ Hi).
  - intros i v p Hi. exact (inv_threads _ _ H i _ Hi eq_refl).
  - intros i count values pc Hi. destruct (inv_threads _ _ H i _ Hi) as [Hv Hpc].
    split; [destruct pc; cbn in Hpc; lia|]. split; apply Hv.
  - intros p Hp. by rewrite (inv_reserves _ _ H p Hp), (inv_receives _ _ H p Hp).
Qed.

(** ** Full, and empty *)

(** The slot of a reserved position never goes back. *)
Lemma seqn_reserved r p : ring_ok r -> 0 <= p < reserved r -> p <= seqn r p.
Proof.
  intros H Hp. destruct (window_position r p H) as (q & E & Hq). rewrite <- (seqn_same r q p H E).
  pose proof (ok_capacity r H) as Hc. destruct (same_distance (m_capacity r) q p ltac:(lia) E) as [k ->].
  assert (1 <= k) by (destruct (decide (k <= 0)); [|lia]; assert (k * m_capacity r <= 0) by nia; lia).
  assert (0 <= (k - 1) * m_capacity r) by nia. pose proof (ok_window r H _ Hq). lia.
Qed.

Lemma full_at r ts p :
  inv r ts -> reserved r + m_capacity r <= 2 ^ 63 -> 0 <= p <= reserved r -> int64 (seqn r p - p) < 0 ->
  p = reserved r /\ m_capacity r <= p /\
  (m_head r = p - m_capacity r \/ total (takes (p - m_capacity r)) ts = 1%nat).
Proof.
  intros H Hn Hp Hd. pose proof (inv_ring _ _ H) as Hr. pose proof (seqn_range r p Hr). pose proof (ok_capacity r Hr).
  rewrite int64_small in Hd by lia. destruct (decide (p < reserved r)) as [Hlt|].
  { pose proof (seqn_reserved r p Hr ltac:(lia)). lia. }
  assert (p = reserved r) as -> by lia. split; [done|]. pose proof (ok_window r Hr (reserved r) ltac:(lia)) as W.
  pose proof (ok_room r Hr). split; [lia|]. set (q := reserved r - m_capacity r) in *.
  assert (Hq : seqn r q = seqn r (reserved r)).
  { apply seqn_same; [done|]. unfold q. symmetry. rewrite <- (same_add (m_capacity r) (reserved r - m_capacity r)) by lia.
    f_equal. lia. }
  destruct (decide (m_head r = q)); [by left|]. right. rewrite (inv_takes _ _ H q ltac:(lia)). apply indicator_true.
  assert (q < m_head r) by lia. split; [done|]. destruct W as [W|[_ [W|W]]]; [lia| |lia].
  pose proof (ok_untaken r Hr q). lia.
Qed.

Lemma empty_at r ts p :
  inv r ts -> reserved r + m_capacity r <= 2 ^ 63 -> 0 <= p <= m_head r ->
  int64 (seqn r p - wrap64 (p + 1)) < 0 ->
  p = m_head r /\ (p = reserved r \/ total (sends p) ts = 1%nat).
Proof.
  intros H Hn Hp Hd. pose proof (inv_ring _ _ H) as Hr. pose proof (seqn_range r p Hr). pose proof (ok_capacity r Hr).
  pose proof (reserved_bounds r Hr). pose proof (ok_head r Hr). rewrite wrap64_small, int64_small in Hd by lia.
  destruct (decide (p < m_head r)) as [Hlt|].
  { pose proof (seqn_reserved r p Hr ltac:(lia)). pose proof (ok_untaken r Hr p). lia. }
  assert (p = m_head r) as -> by lia. split; [done|]. destruct (decide (m_head r = reserved r)); [by left|]. right.
  rewrite (inv_sends _ _ H) by lia. apply indicator_true. pose proof (ok_live r Hr (m_head r) ltac:(lia)).
  split; lia.
Qed.

(** The refusals are truthful, at the moment the slot is looked at. A [trySend] that reports the
    channel full has looked at the position to be reserved next, and the position a capacity before it
    has not been taken by a receiver, or one receiver is still at work in its slot. A [tryRecv] that finds
    nothing has looked at the head, and there is no message at the head, or the one send that has reserved
    it has not yet published it. (A position is compared in 64 bits as a signed difference: the theorem
    asks that fewer than [2^63] sequence numbers have been used.) *)
Theorem refusals_truthful capacity calls r ts i t c r' t' :
  reachable capacity calls r ts -> ts !! i = Some t -> reserved r + m_capacity r <= 2 ^ 63 ->
  thread_step c r t = Some (r', t') ->
  match t, t' with
  | Sender _ (SnTry p), Sender _ (SnReturn kFull _) =>
      p = reserved r /\ m_capacity r <= p /\
      (m_head r = p - m_capacity r \/ total (takes (p - m_capacity r)) ts = 1%nat)
  | Receiver _ _ (RvTry p), Receiver _ _ RvReturn =>
      p = m_head r /\ (p = reserved r \/ total (sends p) ts = 1%nat)
  | _, _ => True
  end.
Proof.
  intros H%mpmc_reachable_inv Hi Hn E. pose proof (inv_ring _ _ H) as Hr. pose proof (inv_threads _ _ H i _ Hi) as Hok.
  destruct t as [v [|p|p|p|p|]|count values [|p|p|p|p|]|b|pc|]; try done; cbn in E.
  - destruct (is_closed p) eqn:Ec; [by injection E as <- <-|].
    destruct (Z.eqb_spec p kTailPositionMask); [by destruct (weak _ _ _); injection E as <- <-|].
    rewrite slot_at_ring in E by done. cbn [sequence] in E. injection E as <- <-.
    destruct (_ =? 0); [done|]. destruct (Z.ltb_spec (int64 (seqn r p - p)) 0) as [Hd|]; [|done].
    destruct Hok as [Hp Hle]. specialize (Hle Ec). by apply full_at.
  - rewrite slot_at_ring in E by done. cbn [sequence] in E. injection E as <- <-.
    destruct (_ =? 0); [done|]. destruct (Z.ltb_spec (int64 (seqn r p - wrap64 (p + 1))) 0) as [Hd|]; [|done].
    destruct Hok as (_ & _ & Hp). by apply empty_at.
Qed.

(** ** Closing, and draining *)

Lemma steps_inv cfg cfg' : inv cfg.1 cfg.2 -> rtc step cfg cfg' -> inv cfg'.1 cfg'.2.
Proof. intros H. apply (reachable_invariant step (fun cfg => inv cfg.1 cfg.2)); [done|]. by intros; eapply inv_step. Qed.

Lemma steps_closed cfg cfg' :
  inv cfg.1 cfg.2 -> is_closed (m_tail cfg.1) = true -> rtc step cfg cfg' ->
  m_tail cfg'.1 = m_tail cfg.1 /\ sent cfg'.1 = sent cfg.1 /\ m_head cfg.1 <= m_head cfg'.1.
Proof.
  intros H Hc Hs. enough (inv cfg'.1 cfg'.2 /\ m_tail cfg'.1 = m_tail cfg.1 /\ sent cfg'.1 = sent cfg.1 /\
    m_head cfg.1 <= m_head cfg'.1) by tauto.
  revert Hs. apply (reachable_invariant step (fun cfg' => inv cfg'.1 cfg'.2 /\ m_tail cfg'.1 = m_tail cfg.1 /\
    sent cfg'.1 = sent cfg.1 /\ m_head cfg.1 <= m_head cfg'.1)); [split_and!; done || lia|].
  intros x y (Hx & Et & Es & Eh) Hxy. pose proof (step_grows x y Hx Hxy) as G. split; [by eapply inv_step|].
  destruct (gr_closed _ _ G) as [Et' Es']; [by rewrite Et|]. pose proof (gr_head _ _ G). split_and!; [congruence..|lia].
Qed.

(** Closing is final: once the closed bit is set no message is reserved any more, at any later time.
    When [isClosedAndDrained] has answered yes to anyone, every message that was ever sent has been taken
    by exactly one receiver, nothing is sent afterwards and no receiver takes anything any more. *)
Theorem drained_is_final capacity calls r ts r' ts' i :
  reachable capacity calls r ts -> rtc step (r, ts) (r', ts') ->
  (is_closed (m_tail r) = true -> is_closed (m_tail r') = true /\ sent r' = sent r) /\
  (ts !! i = Some (Drainer (DrReturn true)) ->
   is_closed (m_tail r') = true /\ sent r' = sent r /\ m_head r' = m_head r /\
   forall p, 0 <= p -> total (receives p) ts' = indicator (p < reserved r)).
Proof.
  intros H%mpmc_reachable_inv Hs. pose proof (steps_inv (r, ts) (r', ts') H Hs) as H'. cbn in H'. split.
  - intros Hc. destruct (steps_closed (r, ts) (r', ts') H Hc Hs) as (Et & Es & _). cbn in *. by rewrite Et.
  - intros Hi. destruct (inv_threads _ _ H i _ Hi eq_refl) as [Hc Hh].
    destruct (steps_closed (r, ts) (r', ts') H Hc Hs) as (Et & Es & Eh). cbn in *. rewrite Et.
    pose proof (ok_head r' (inv_ring _ _ H')) as Hh'. unfold reserved in *. rewrite Es in Hh'.
    split; [done|]. split; [done|]. split; [lia|]. intros p Hp. rewrite (inv_receives _ _ H' p Hp).
    apply indicator_iff. lia.
Qed.

(** ** The order of the calls *)

(** What a thread counts from some point on, it counts at positions the cursor had not reached then. *)
Lemma later_positions (w : Z -> thread T -> nat) (cursor : ring T -> Z) i n cfg cfg' :
  (forall r t p, thread_ok r t -> (1 <= w p t)%nat -> 0 <= p) ->
  (forall r r', grows r r' -> cursor r <= cursor r') ->
  (forall r t r' t' p, good_step r t r' t' -> 0 <= p ->
     (w p t' + indicator (p < cursor r)%Z = w p t + indicator (p < cursor r')%Z)%nat) ->
  inv cfg.1 cfg.2 -> rtc step cfg cfg' -> n <= cursor cfg.1 ->
  (forall t p, cfg.2 !! i = Some t -> (1 <= w p t)%nat -> n <= p) ->
  forall t p, cfg'.2 !! i = Some t -> (1 <= w p t)%nat -> n <= p.
Proof.
  intros Hpos Hmono Hcount H Hs Hn Hi.
  enough (inv cfg'.1 cfg'.2 /\ n <= cursor cfg'.1 /\
    forall t p, cfg'.2 !! i = Some t -> (1 <= w p t)%nat -> n <= p) by tauto.
  revert Hs. apply (reachable_invariant step (fun cfg' => inv cfg'.1 cfg'.2 /\ n <= cursor cfg'.1 /\
    forall t p, cfg'.2 !! i = Some t -> (1 <= w p t)%nat -> n <= p)); [done|].
  clear H Hn Hi. intros x y (Hx & Hn & Hi) Hxy. split; [by eapply inv_step|].
  split; [pose proof (Hmono _ _ (step_grows x y Hx Hxy)); lia|].
  destruct Hxy as [c j r ts u r' u' Hj E]. cbn in *. intros t p Ht Hp.
  destruct (decide (j = i)) as [<-|]; [|rewrite list_lookup_insert_ne in Ht by done; by eapply Hi].
  rewrite list_lookup_insert_eq in Ht by (by eapply lookup_lt_Some). injection Ht as <-.
  destruct (decide (1 <= w p u)%nat) as [|Hu]; [by eapply Hi|].
  pose proof (thread_step_good r ts j c u r' u' Hx Hj E) as G.
  pose proof (Hcount _ _ _ _ p G (Hpos _ _ p (gs_thread _ _ _ _ G) Hp)) as Hc.
  unfold indicator in Hc. destruct (decide (p < cursor r)), (decide (p < cursor r')); lia.
Qed.

Lemma at_position_pos p q : (1 <= at_position p q)%nat -> p = q.
Proof. unfold at_position. case_decide; [done|lia]. Qed.

Lemma occurrences_elem p values : (1 <= occurrences p values)%nat <-> exists v, (p, v) ∈ values.
Proof.
  unfold occurrences. split.
  - destruct (filter _ _) as [|[q v] l] eqn:E; [cbn; lia|]. intros _. exists v.
    assert ((q, v) ∈ filter (fun x => x.1 = p) values) as [<- Hq]%list_elem_of_filter by (rewrite E; left). done.
  - intros [v Hv]. assert ((p, v) ∈ filter (fun x => x.1 = p) values) as Hf by by apply list_elem_of_filter.
    destruct (filter _ _); [by apply not_elem_of_nil in Hf|cbn; lia].
Qed.

Lemma reserves_range r t p : thread_ok r t -> (1 <= reserves p t)%nat -> 0 <= p < reserved r.
Proof.
  destruct t as [v [| | | | |[]]| | | |]; cbn; try lia; intros Ht <-%at_position_pos; [tauto..|by apply Ht].
Qed.

Lemma receives_range r t p : thread_ok r t -> (1 <= receives p t)%nat -> 0 <= p < m_head r.
Proof.
  destruct t as [|count values pc| | |]; cbn; try lia. intros [Hv Hpc] Hp.
  destruct (decide (1 <= occurrences p values)%nat) as [[v Hv']%occurrences_elem|]; [by apply (va_messages _ _ Hv p v)|].
  destruct pc as [| | |q| |]; try lia. assert (p = q) as -> by (apply at_position_pos; lia). apply Hpc.
Qed.

(** The order of the calls is kept: of two sends that succeed, the one that returned before the other
    began has the earlier position, and of two receiving calls, the one that returned before the other
    began has the earlier messages. So the messages of one producer arrive in the order it sent them. *)
Theorem calls_in_order capacity calls r ts r' ts' i j t u :
  reachable capacity calls r ts -> rtc step (r, ts) (r', ts') ->
  ts !! i = Some t -> ts !! j = Some u -> returned t = true -> begins u ->
  match t, ts' !! j with
  | Sender _ (SnReturn kSent p), Some (Sender _ (SnReturn kSent q)) => p < q
  | Receiver _ values _, Some (Receiver _ values' _) =>
      forall p v q w, (p, v) ∈ values -> (q, w) ∈ values' -> p < q
  | _, _ => True
  end.
Proof.
  intros H%mpmc_reachable_inv Hs Hi Hj Hr Hb. pose proof (inv_threads _ _ H i _ Hi) as Ht.
  destruct (begins_nothing u Hb) as [_ Hu].
  destruct t as [v [| | | | |[] p]|count values pc| | |]; try done; destruct (ts' !! j) as [t'|] eqn:Hj'; try done.
  - destruct t' as [v' [| | | | |[] q]| | | |]; try done. destruct (Ht eq_refl) as [Hp _].
    enough (reserved r <= q) by lia.
    eapply (later_positions reserves reserved j (reserved r) (r, ts) (r', ts')); try done.
    + intros ? ? ? Hok Hw. apply (reserves_range _ _ _ Hok Hw).
    + apply reserved_grows.
    + intros ? ? ? ? ? G. apply (gs_reserves _ _ _ _ G).
    + intros x y Hx Hw. cbn in Hx. rewrite Hj in Hx. injection Hx as <-. destruct (Hu y). lia.
    + cbn. by rewrite at_position_eq.
  - destruct t' as [|count' values' pc'| | |]; try done. intros p v q w Hp Hq.
    destruct Ht as [Hv _]. destruct (va_messages _ _ Hv p v Hp) as [Hp' _]. enough (m_head r <= q) by lia.
    eapply (later_positions receives m_head j (m_head r) (r, ts) (r', ts')); try done.
    + intros ? ? ? Hok Hw. apply (receives_range _ _ _ Hok Hw).
    + intros x y G. apply (gr_head _ _ G).
    + intros ? ? ? ? ? G. apply (gs_receives _ _ _ _ G).
    + intros x y Hx Hw. cbn in Hx. rewrite Hj in Hx. injection Hx as <-. destruct (Hu y). lia.
    + cbn. assert (1 <= occurrences q values')%nat by (apply occurrences_elem; by exists w). lia.
Qed.

(** ** A call alone returns *)

(** How many steps of its own a call has left, when no other call takes one. *)
Definition steps_left r t : nat :=
  match t with
  | Sender _ (SnReturn _ _) => 0
  | Sender _ (SnPublish _) => 1
  | Sender _ (SnConstruct _) => 2
  | Sender _ (SnClaim p) => if (m_tail r =? p)%Z then 3 else 5
  | Sender _ (SnTry p) => if (m_tail r =? p)%Z then 4 else 6
  | Sender _ SnLoad => 5
  | Receiver count values pc =>
      let left := 5 * (count - length values) in
      match pc with
      | RvReturn => 0
      | RvLoad => left + 1
      | RvTry p => if (m_head r =? p)%Z then left else left + 2
      | RvClaim p => if (m_head r =? p)%Z then left - 1 else left + 1
      | RvConsume _ => left - 2
      | RvRelease _ => left + 2
      end
  | Closer returned => if returned then 0 else 1
  | Drainer DrLoadTail => 2
  | Drainer (DrLoadHead _) => 1
  | Drainer (DrReturn _) => 0
  | Undefined => 0
  end%nat.

Lemma send_progress r ts i v pc :
  inv r ts -> ts !! i = Some (Sender v pc) -> returned (Sender v pc) = false ->
  exists r' t', ringEnqueueResult false v r pc = Some (r', t') /\
    (steps_left r' t' < steps_left r (Sender v pc))%nat.
Proof.
  intros H Hi Hret. pose proof (inv_ring _ _ H) as Hr. pose proof (inv_threads _ _ H i _ Hi) as Ht.
  destruct pc as [|p|p|p|p|]; try done; cbn [ringEnqueueResult]; rewrite ?slot_at_ring by done.
  - eexists r, _. split; [done|]. cbn. rewrite Z.eqb_refl. lia.
  - destruct (is_closed p) eqn:Ec; [eexists r, _; split; [done|]; cbn; destruct (_ =? _); lia|].
    destruct (Z.eqb_spec p kTailPositionMask) as [->|].
    { unfold weak. cbn. destruct (m_tail r =? _) eqn:Eq; do 2 eexists; (split; [done|]); cbn; rewrite ?Z.eqb_refl; lia. }
    eexists r, _. split; [done|]. cbn [sequence]. destruct (Z.eqb_spec (m_tail r) p) as [<-|Hne].
    + rewrite (tail_open r Hr Ec). pose proof (ok_window r Hr (reserved r)) as W. pose proof (ok_capacity r Hr).
      pose proof (reserved_bounds r Hr). rewrite int64_small by lia.
      destruct (Z.eqb_spec (seqn r (reserved r) - reserved r) 0).
      * cbn. rewrite (tail_open r Hr Ec), Z.eqb_refl. lia.
      * destruct (Z.ltb_spec (seqn r (reserved r) - reserved r) 0); [|lia].
        cbn. rewrite (tail_open r Hr Ec), Z.eqb_refl. lia.
    + apply Z.eqb_neq in Hne. destruct (int64 _ =? 0); [|destruct (int64 _ <? 0)]; cbn; rewrite ?Hne; lia.
  - unfold weak. cbn [negb andb]. destruct (m_tail r =? p) eqn:Eq; do 2 eexists; (split; [done|]); cbn; rewrite Eq, ?Z.eqb_refl; lia.
  - destruct Ht as (_ & _ & ->). do 2 eexists. split; [done|]. cbn. lia.
  - do 2 eexists. split; [done|]. cbn. lia.
Qed.

Lemma recv_progress r ts i count values pc :
  inv r ts -> ts !! i = Some (Receiver count values pc) -> returned (Receiver count values pc) = false ->
  exists r' t', ringDequeueTo false count values r pc = Some (r', t') /\
    (steps_left r' t' < steps_left r (Receiver count values pc))%nat.
Proof.
  intros H Hi Hret. pose proof (inv_ring _ _ H) as Hr. pose proof (inv_threads _ _ H i _ Hi) as [_ Ht].
  destruct pc as [|p|p|p|p|]; try done; cbn [ringDequeueTo recv_ok] in *; rewrite ?slot_at_ring by done.
  - eexists r, _. split; [done|]. destruct (Nat.ltb_spec (length values) count); cbn; rewrite ?Z.eqb_refl; lia.
  - eexists r, _. split; [done|]. cbn [sequence]. destruct (Z.eqb_spec (m_head r) p) as [<-|Hne].
    + pose proof (ok_window r Hr (m_head r)) as W. pose proof (ok_live r Hr (m_head r)) as L. pose proof (ok_capacity r Hr).
      pose proof (ok_head r Hr). pose proof (reserved_bounds r Hr). rewrite wrap64_small, int64_small by lia.
      destruct (Z.eqb_spec (seqn r (m_head r) - (m_head r + 1)) 0); [cbn; rewrite !Z.eqb_refl; lia|].
      destruct (Z.ltb_spec (seqn r (m_head r) - (m_head r + 1)) 0); [|lia]. cbn. rewrite Z.eqb_refl. lia.
    + apply Z.eqb_neq in Hne. destruct (int64 _ =? 0); [|destruct (int64 _ <? 0)]; cbn; rewrite ?Hne; lia.
  - unfold weak. cbn [negb andb]. destruct (m_head r =? p) eqn:Eq; do 2 eexists; (split; [done|]); cbn; rewrite Eq, ?Z.eqb_refl; lia.
  - destruct Ht as (Hl & _ & _ & [v Ev] & ->). rewrite Ev. do 2 eexists. split; [done|]. cbn. rewrite length_app. cbn. lia.
  - do 2 eexists. split; [done|]. cbn. lia.
Qed.

Lemma thread_progress r ts i t :
  inv r ts -> ts !! i = Some t -> returned t = false ->
  exists r' t', thread_step false r t = Some (r', t') /\ (steps_left r' t' < steps_left r t)%nat.
Proof.
  intros H Hi Hr. destruct t as [v pc|count values pc|[]|[]|]; try done.
  - by eapply send_progress.
  - by eapply recv_progress.
  - do 2 eexists. split; [done|]. cbn. lia.
  - do 2 eexists. split; [done|]. cbn. destruct (is_closed _); lia.
  - do 2 eexists. split; [done|]. cbn. lia.
  - destruct (inv_threads _ _ H i _ Hi).
Qed.

Lemma steps_left_bound r t :
  (steps_left r t <= match t with Receiver count values _ => 5 * (count - length values) + 2 | _ => 6 end)%nat.
Proof. destruct t as [v []|count values []|[]|[]|]; cbn; repeat destruct (_ =? _); lia. Qed.

(** No call waits for another one: from whatever state the others have brought the channel to, a call
    that is given steps of its own, and whose compare-exchanges do not fail without a reason, returns:
    a send, a close and the drained test within six, a batch within five for each message it may still
    take, and two. *)
Theorem calls_return_alone capacity calls r ts i t :
  reachable capacity calls r ts -> ts !! i = Some t ->
  exists k r' ts' t',
    (k <= match t with Receiver count values _ => 5 * (count - length values) + 2 | _ => 6 end)%nat /\
    exec (replicate k (i, false)) (r, ts) = Some (r', ts') /\ ts' !! i = Some t' /\ returned t' = true.
Proof.
  intros H%mpmc_reachable_inv Hi. pose proof (steps_left_bound r t) as Hb.
  enough (exists k r' ts' t', (k <= steps_left r t)%nat /\ exec (replicate k (i, false)) (r, ts) = Some (r', ts') /\
    ts' !! i = Some t' /\ returned t' = true) as (k & r' & ts' & t' & Hk & Hx) by (exists k, r', ts', t'; split; [lia|done]).
  clear Hb. remember (steps_left r t) as n eqn:En. revert r ts t H Hi En.
  induction (lt_wf n) as [n _ IH]. intros r ts t H Hi ->. destruct (returned t) eqn:Er.
  { exists 0%nat, r, ts, t. split; [lia|done]. }
  destruct (thread_progress r ts i t H Hi Er) as (r1 & t1 & E1 & Hlt).
  pose proof (good_step_inv _ _ _ _ _ _ H Hi (thread_step_good _ _ _ _ _ _ _ H Hi E1)) as H1.
  destruct (IH _ Hlt r1 (<[i := t1]> ts) t1 H1) as (k & r' & ts' & t' & Hk & Hx & Ht'); [|done|].
  { apply list_lookup_insert_eq. by eapply lookup_lt_Some. }
  exists (S k), r', ts', t'. split; [lia|]. split; [|done]. cbn [replicate exec]. unfold exec_step. cbn. by rewrite Hi, E1.
Qed.

(** ** Nothing is lost *)

(** What the receivers have, with the positions, and the messages alone. *)
Definition taken (ts : list (thread T)) : list (Z * T) :=
  ts ≫= fun t => match t with Receiver _ values _ => values | _ => [] end.

Lemma occurrences_taken ts p :
  Forall (fun t => returned t = true) ts -> occurrences p (taken ts) = total (receives p) ts.
Proof.
  induction 1 as [|t ts Ht _ IH]; [done|]. unfold taken in *. rewrite bind_cons.
  change (total (receives p) (t :: ts)) with (receives p t + total (receives p) ts)%nat. rewrite <- IH.
  unfold occurrences at 1. rewrite filter_app, length_app. f_equal.
  destruct t as [|count values []| | |]; try done; cbn; by rewrite Nat.add_0_r.
Qed.

Lemma occurrences_NoDup values : (forall p, occurrences p values <= 1)%nat -> NoDup values.*1.
Proof.
  induction values as [|[p v] values IH]; intros Hl; [constructor|]. cbn. constructor.
  - intros ((q & w) & -> & Hw)%list_elem_of_fmap. specialize (Hl q). unfold occurrences in Hl.
    rewrite filter_cons_True in Hl by done. cbn in Hl.
    pose proof (proj2 (occurrences_elem q values) (ex_intro _ w Hw)). unfold occurrences in *. cbn in *. lia.
  - apply IH. intros q. specialize (Hl q). unfold occurrences in *. rewrite filter_cons in Hl. case_decide; cbn in *; lia.
Qed.

Lemma taken_positions r ts :
  inv r ts -> Forall (fun t => returned t = true) ts -> (taken ts).*1 ≡ₚ seqZ 0 (m_head r).
Proof.
  intros H Hr. assert (Hc : forall p, 0 <= p -> occurrences p (taken ts) = indicator (p < m_head r)).
  { intros p Hp. rewrite occurrences_taken by done. by apply (inv_receives _ _ H). }
  assert (Hn : forall p, ~ 0 <= p -> occurrences p (taken ts) = 0%nat).
  { intros p Hp. rewrite occurrences_taken by done. apply total_zero, Forall_forall. intros t [i Hi]%list_elem_of_lookup.
    destruct (decide (receives p t = 0%nat)); [done|]. destruct (receives_range r t p); [by eapply inv_threads|lia|lia]. }
  apply NoDup_Permutation; [|apply NoDup_seqZ|].
  - apply occurrences_NoDup. intros p. destruct (decide (0 <= p)) as [Hp|Hp]; [rewrite (Hc p Hp)|rewrite (Hn p Hp); lia].
    unfold indicator. case_decide; lia.
  - intros p. rewrite elem_of_seqZ, list_elem_of_fmap. transitivity (1 <= occurrences p (taken ts))%nat.
    + rewrite occurrences_elem. split; [intros ((q & v) & -> & Hv); by exists v|intros [v Hv]; by exists (p, v)].
    + destruct (decide (0 <= p)) as [Hp|Hp]; [rewrite (Hc p Hp)|rewrite (Hn p Hp); lia].
      unfold indicator. case_decide; lia.
Qed.

Lemma taken_messages r ts p v : inv r ts -> (p, v) ∈ taken ts -> message r p = Some v.
Proof.
  intros H (t & Hv & [i Hi]%list_elem_of_lookup)%list_elem_of_bind. pose proof (inv_threads _ _ H i t Hi) as Ht.
  destruct t as [|count values pc| | |]; try by apply not_elem_of_nil in Hv. destruct Ht as [Ht _].
  by apply (va_messages _ _ Ht).
Qed.

Lemma omap_taken (f : Z -> option T) (l : list (Z * T)) : (forall p v, (p, v) ∈ l -> f p = Some v) -> omap f l.*1 = l.*2.
Proof.
  induction l as [|[p v] l IH]; intros Hl; [done|]. cbn. rewrite (Hl p v) by left. cbn. f_equal. apply IH.
  intros q w Hq. apply Hl. by right.
Qed.

Lemma omap_message r n : 0 <= n <= reserved r -> omap (message r) (seqZ 0 n) = take (Z.to_nat n) (sent r).
Proof.
  intros Hn. assert (exists k, n = Z.of_nat k) as [k ->] by (exists (Z.to_nat n); lia). rewrite Nat2Z.id. revert Hn.
  induction k as [|k IH]; intros Hk; [done|].
  assert (exists v, sent r !! k = Some v) as [v Hv] by (apply lookup_lt_is_Some; unfold reserved in Hk; lia).
  rewrite (take_S_r _ _ v Hv), <- IH by lia. rewrite Nat2Z.inj_succ, <- Z.add_1_r, seqZ_app, omap_app by lia. f_equal.
  change (omap (message r) [Z.of_nat 0 + (0 + Z.of_nat k)] = [v]). rewrite !Z.add_0_l. cbn. unfold message.
  by rewrite Nat2Z.id, Hv.
Qed.

Lemma land_tail r : ring_ok r -> Z.land (m_tail r) kTailPositionMask = reserved r.
Proof.
  intros H. pose proof (reserved_bounds r H) as Hb. destruct (ok_tail r H) as [-> | ->].
  - pose proof (tail_position (reserved r) false Hb) as E. by rewrite Z.add_0_r in E.
  - exact (tail_position (reserved r) true Hb).
Qed.

(** [size] is exact when no cursor moves between its two loads, and within the capacity in any case. *)
Lemma size_exact r : ring_ok r -> size r (m_tail r) (m_head r) = reserved r - m_head r.
Proof.
  intros H. unfold size. rewrite land_tail by done. cbv zeta. pose proof (ok_head r H). pose proof (ok_room r H).
  destruct (Z.ltb_spec (reserved r) (m_head r)), (Z.ltb_spec (reserved r - m_head r) (m_capacity r)); lia.
Qed.

Lemma size_within r tail head : ring_ok r -> 0 <= size r tail head <= m_capacity r.
Proof.
  intros H. unfold size. cbv zeta. pose proof (ok_capacity r H).
  destruct (Z.ltb_spec (Z.land tail kTailPositionMask) head), (Z.ltb_spec (Z.land tail kTailPositionMask - head) (m_capacity r)); lia.
Qed.

Lemma omap_all {A B} (f : A -> option B) (g : A -> B) (l : list A) : (forall x, x ∈ l -> f x = Some (g x)) -> omap f l = g <$> l.
Proof.
  induction l as [|x l IH]; intros Hf; [done|]. cbn. rewrite (Hf x) by left. cbn. f_equal. apply IH. intros y Hy.
  apply Hf. by right.
Qed.

Lemma destructor_messages r ts :
  inv r ts -> Forall (fun t => returned t = true) ts ->
  destructor r = (fun i => (m_head r + Z.of_nat i, message r (m_head r + Z.of_nat i))) <$>
    seq 0 (Z.to_nat (reserved r - m_head r)).
Proof.
  intros H Hr. pose proof (inv_ring _ _ H) as Ho. pose proof (ok_head r Ho). pose proof (reserved_bounds r Ho).
  pose proof (ok_room r Ho). unfold destructor. rewrite land_tail by done. cbv zeta.
  destruct (Z.leb_spec (m_head r) (reserved r)); [|lia].
  replace (if _ <? _ then _ else _) with (reserved r - m_head r)
    by (destruct (Z.ltb_spec (reserved r - m_head r) (m_capacity r)); lia).
  apply omap_all. intros i Hi%elem_of_seq. set (p := m_head r + Z.of_nat i).
  assert (m_head r <= p < reserved r) as Hp by lia. rewrite wrap64_small by lia. rewrite slot_at_ring by done. cbn.
  assert (seqn r p = p + 1) as Es.
  { destruct (ok_live r Ho p Hp) as [Es|]; [|done]. exfalso. pose proof (inv_sends _ _ H p ltac:(lia)) as Hs.
    rewrite indicator_true in Hs by (split; [lia|done]).
    destruct (total_witness (sends p) ts) as (j & t & Hj & Hw); [lia|].
    rewrite Forall_forall in Hr. pose proof (Hr t (list_elem_of_lookup_2 _ _ _ Hj)) as Ht.
    destruct t as [v []| | | |]; cbn in Hw; try lia; done. }
  rewrite wrap64_small by lia. rewrite Es, Z.eqb_refl. by rewrite (ok_stored r Ho p Hp Es).
Qed.

(** Nothing is lost and nothing is destroyed twice: when every call has returned, the messages of the
    sends that succeeded are those the receivers have and those the destructor destroys, each once, and
    the destructor finds a message in every slot it visits. *)
Theorem messages_conserved capacity calls r ts :
  reachable capacity calls r ts -> Forall (fun t => returned t = true) ts ->
  exists destroyed, (destructor r).*2 = Some <$> destroyed /\ sent r ≡ₚ (taken ts).*2 ++ destroyed.
Proof.
  intros H%mpmc_reachable_inv Hr. pose proof (inv_ring _ _ H) as Ho. pose proof (ok_head r Ho) as Hh.
  exists (drop (Z.to_nat (m_head r)) (sent r)). split.
  - rewrite (destructor_messages r ts H Hr), <- list_fmap_compose. apply list_eq. intros i.
    rewrite !list_lookup_fmap, lookup_drop. cbn. destruct (decide (i < Z.to_nat (reserved r - m_head r))%nat) as [Hi|Hi].
    + rewrite lookup_seq_lt by done. cbn. unfold message. replace (Z.to_nat (m_head r + _)) with (Z.to_nat (m_head r) + i)%nat by lia.
      destruct (lookup_lt_is_Some_2 (sent r) (Z.to_nat (m_head r) + i)) as [v ->]; [unfold reserved in *; lia|done].
    + rewrite lookup_seq_ge by lia. rewrite (lookup_ge_None_2 (sent r)); [done|unfold reserved in *; lia].
  - rewrite <- (take_drop (Z.to_nat (m_head r)) (sent r)) at 1. apply Permutation_app_tail.
    rewrite <- (omap_message r (m_head r)) by lia. rewrite <- (taken_positions r ts H Hr).
    rewrite (omap_taken (message r)); [done|]. intros p v Hp. by eapply taken_messages.
Qed.
End Invariant.
#[global] Arguments slot_of : simpl never.

(** ** A run: two producers, a batch of two, a close, and what they see *)

Definition run {T} (capacity : Z) (calls : list (thread T)) (schedule : list (nat * bool)) : ring T * list (thread T) :=
  default (new_channel capacity, calls) (exec schedule (new_channel capacity, calls)).

Lemma run_reachable {T} capacity (calls : list (thread T)) schedule :
  Forall begins calls -> reachable capacity calls (run capacity calls schedule).1 (run capacity calls schedule).2.
Proof.
  intros Hb. split; [done|]. unfold run. destruct (exec schedule (new_channel capacity, calls)) as [cfg|] eqn:E.
  - cbn. rewrite <- surjective_pairing. by eapply exec_sound.
  - cbn. apply rtc_refl.
Qed.

Definition sample_calls : list (thread nat) :=
  [Sender 7 SnLoad; Sender 8 SnLoad; Sender 9 SnLoad; Receiver 2 [] RvLoad; Closer false; Drainer DrLoadTail]%nat.

Lemma sample_begins : Forall begins sample_calls.
Proof. repeat constructor. Qed.

(** The two sends interleave, the second one reserving its position while the first one publishes. *)
Definition both_sent : list (nat * bool) :=
  (fun i => (i, false)) <$> [0; 1; 0; 1; 0; 1; 1; 1; 0; 1; 1; 0]%nat.
Definition third_refused : list (nat * bool) := (fun i => (i, false)) <$> [2; 2]%nat.
Definition closed_drained : list (nat * bool) :=
  (fun i => (i, false)) <$> ([4] ++ replicate 11 3 ++ [5; 5])%nat.

Example sample_values :
  let cfg := run 2 sample_calls (both_sent ++ third_refused ++ closed_drained) in
  (sent cfg.1, (fun t => match t with
                         | Sender _ (SnReturn result p) => (trySend result, [p], None)
                         | Receiver count values RvReturn => (true, values.*1, tryRecvBatch count values)
                         | Closer b | Drainer (DrReturn b) => (b, [], None)
                         | _ => (false, [], None)
                         end) <$> cfg.2)
  = ([7; 8]%nat, [(true, [0], None); (true, [1], None); (false, [2], None); (true, [0; 1], Some [7; 8]%nat);
                  (true, [], None); (true, [], None)]).
Proof. vm_compute. reflexivity. Qed.

Lemma messages_delivered_once_witness :
  let cfg := run 2 sample_calls (both_sent ++ third_refused ++ closed_drained) in
  ~ Undefined ∈ cfg.2 /\ message cfg.1 1 = Some 8%nat /\ total (receives 1) cfg.2 = 1%nat.
Proof.
  pose proof (messages_delivered_once 2 sample_calls _ _
    (run_reachable 2 sample_calls (both_sent ++ third_refused ++ closed_drained) sample_begins)) as (Hu & Hs & _ & Hc & _).
  split; [exact Hu|]. split; [apply (Hs 1%nat 8%nat 1); vm_compute; reflexivity|].
  rewrite (proj2 (Hc 1 ltac:(lia))). vm_compute. reflexivity.
Defined.

Lemma refusals_truthful_witness :
  let cfg := run 2 sample_calls (both_sent ++ [(2%nat, false)]) in
  2 = reserved cfg.1 /\ m_capacity cfg.1 <= 2 /\
  (m_head cfg.1 = 2 - m_capacity cfg.1 \/ total (takes (2 - m_capacity cfg.1)) cfg.2 = 1%nat).
Proof.
  exact (refusals_truthful 2 sample_calls _ _ 2 (Sender 9%nat (SnTry 2)) false _ (Sender 9%nat (SnReturn kFull 2))
    (run_reachable 2 sample_calls (both_sent ++ [(2%nat, false)]) sample_begins)
    ltac:(vm_compute; reflexivity) ltac:(vm_compute; discriminate) ltac:(vm_compute; reflexivity)).
Defined.

Lemma drained_is_final_witness :
  let cfg := run 2 sample_calls (both_sent ++ third_refused ++ closed_drained) in
  is_closed (m_tail cfg.1) = true /\ total (receives 0) cfg.2 = 1%nat.
Proof.
  destruct (drained_is_final 2 sample_calls _ _ _ _ 5
    (run_reachable 2 sample_calls (both_sent ++ third_refused ++ closed_drained) sample_begins) (rtc_refl _ _))
    as [_ Hd]. destruct (Hd ltac:(vm_compute; reflexivity)) as (Hc & _ & _ & Hr). split; [exact Hc|].
  rewrite (Hr 0 ltac:(lia)). vm_compute. reflexivity.
Defined.

Definition one_after_the_other : list (nat * bool) := (fun i => (i, false)) <$> (replicate 5 0 ++ replicate 5 1)%nat.

Lemma calls_in_order_witness :
  let cfg := run 2 sample_calls (take 5 one_after_the_other) in
  match cfg.2 !! 0%nat with Some (Sender _ (SnReturn kSent p)) => p < 1 | _ => False end.
Proof.
  pose (cfg := run 2 sample_calls (take 5 one_after_the_other)).
  pose (cfg' := run 2 sample_calls one_after_the_other).
  assert (rtc step (cfg.1, cfg.2) (cfg'.1, cfg'.2)) as Hs
    by (apply (exec_sound (drop 5 one_after_the_other)); vm_compute; reflexivity).
  pose proof (calls_in_order 2 sample_calls cfg.1 cfg.2 cfg'.1 cfg'.2 0 1 (Sender 7%nat (SnReturn kSent 0))
    (Sender 8%nat SnLoad) (run_reachable 2 sample_calls (take 5 one_after_the_other) sample_begins) Hs) as H.
  exact (H ltac:(vm_compute; reflexivity) ltac:(vm_compute; reflexivity) eq_refl I).
Defined.

Lemma calls_return_alone_witness :
  let cfg := run 2 sample_calls (take 3 both_sent) in
  exists k r' ts' t', (k <= 6)%nat /\ exec (replicate k (1%nat, false)) cfg = Some (r', ts') /\
    ts' !! 1%nat = Some t' /\ returned t' = true.
Proof.
  exact (calls_return_alone 2 sample_calls _ _ 1 (Sender 8%nat (SnTry 0))
    (run_reachable 2 sample_calls (take 3 both_sent) sample_begins) ltac:(vm_compute; reflexivity)).
Defined.

Lemma messages_conserved_witness :
  let cfg := run 2 sample_calls (both_sent ++ third_refused ++ closed_drained) in
  exists destroyed, (destructor cfg.1).*2 = Some <$> destroyed /\ sent cfg.1 ≡ₚ (taken cfg.2).*2 ++ destroyed.
Proof.
  apply (messages_conserved 2 sample_calls); [apply (run_reachable 2 sample_calls), sample_begins|].
  apply (bool_decide_unpack _). vm_compute. reflexivity.
Defined.

(** A message whose send has returned is not received, as long as a send that reserved the position before
    it has not published: [tryRecv] finds an empty channel with a message in it. *)
Example published_message_hidden :
  let cfg := run 2 [Sender 7%nat SnLoad; Sender 8%nat SnLoad; Receiver 1 [] RvLoad]
               ((fun i => (i, false)) <$> ([0; 0; 0] ++ replicate 5 1 ++ [2; 2])%nat) in
  (cfg.2 !! 1%nat, cfg.2 !! 2%nat) = (Some (Sender 8%nat (SnReturn kSent 1)), Some (Receiver 1 [] RvReturn)).
Proof. vm_compute. reflexivity. Qed.

(** A send is refused as full with one message in a channel of two, while a receiver that has taken the
    other one has not yet given its slot back. *)
Example refused_with_room :
  let cfg := run 2 [Sender 7%nat SnLoad; Sender 8%nat SnLoad; Sender 9%nat SnLoad; Receiver 1 [] RvLoad]
               ((fun i => (i, false)) <$> (replicate 5 0 ++ replicate 5 1 ++ [3; 3; 3; 2; 2])%nat) in
  (cfg.2 !! 2%nat, size cfg.1 (m_tail cfg.1) (m_head cfg.1)) = (Some (Sender 9%nat (SnReturn kFull 2)), 1).
Proof. vm_compute. reflexivity. Qed.
