(* ===== verification/MpmcPump.v ===== *)
(** * The waiter pump of the channel of many producers and many consumers

    [galay-kernel/concurrency/mpmc/bounded_channel.h]: [requestPump] and [runPump], by which whoever makes
    work for the suspended receivers or senders makes sure that one thread, and only one, goes through
    their queues. The two drains are steps of which only the beginning matters here: the pump keeps, next
    to what the code keeps, how many requests of each kind were made and how many of them had been made
    when the last completed drain was claimed. *)

From Stdlib Require Import ZArith Lia.
From stdpp Require Import base list relations.
From S2P Require Import Prelude Interleave.
Open Scope nat_scope.

Definition kPumpRunning : Z := 1.
Definition kRecvWork : Z := 2.
Definition kSendWork : Z := 4.

Definition has (bits flag : Z) : bool := negb (Z.land bits flag =? 0)%Z.

(** [m_pumpState]; the requests made and drained, of the receivers and of the senders. *)
Record pump : Type := mkPump {
  m_pumpState : Z;
  recv_requests : nat;
  send_requests : nat;
  recv_drained : nat;
  send_drained : nat
}.

Definition set_state (state : Z) (p : pump) : pump :=
  mkPump state (recv_requests p) (send_requests p) (recv_drained p) (send_drained p).
Definition request (work : Z) (p : pump) : pump :=
  mkPump (Z.lor (m_pumpState p) work)
    (if has work kRecvWork then S (recv_requests p) else recv_requests p)
    (if has work kSendWork then S (send_requests p) else send_requests p)
    (recv_drained p) (send_drained p).
Definition drained_recv (n : nat) (p : pump) : pump :=
  mkPump (m_pumpState p) (recv_requests p) (send_requests p) n (send_drained p).
Definition drained_send (n : nat) (p : pump) : pump :=
  mkPump (m_pumpState p) (recv_requests p) (send_requests p) (recv_drained p) n.

(** [requestPump], then [runPump] by the owner; a drain knows how many requests had been made when its
    work was claimed. *)
Inductive pump_pc : Type :=
| PmRequest (work : Z)
| PmLoop (state : Z)
| PmClaim
| PmDrainRecv (claimed : Z) (recvs sends : nat)
| PmDrainSend (claimed : Z) (recvs sends : nat)
| PmExit
| PmReturn.

#[global] Instance pump_step : ThreadProgram pump pump_pc bool := fun c p pc =>
  match pc with
  | PmRequest work => Some (request work p, PmLoop (Z.lor (m_pumpState p) work))
  | PmLoop state =>
      Some (if has state kPumpRunning then (p, PmReturn)
            else if negb c && (m_pumpState p =? state)%Z then (set_state (Z.lor state kPumpRunning) p, PmClaim)
            else (p, PmLoop (m_pumpState p)))
  | PmClaim =>
      Some (set_state (Z.land (m_pumpState p) kPumpRunning) p,
            PmDrainRecv (m_pumpState p) (recv_requests p) (send_requests p))
  | PmDrainRecv claimed recvs sends =>
      Some (if has claimed kRecvWork then drained_recv recvs p else p, PmDrainSend claimed recvs sends)
  | PmDrainSend claimed recvs sends =>
      Some (if has claimed kSendWork then drained_send sends p else p, PmExit)
  | PmExit =>
      Some (if (m_pumpState p =? kPumpRunning)%Z then (set_state 0 p, PmReturn) else (p, PmClaim))
  | PmReturn => None
  end.

Definition new_pump : pump := mkPump 0 0 0 0 0.

(** The works a caller asks for. *)
Definition work_ok (work : Z) : bool := ((work =? 2) || (work =? 4) || (work =? 6))%Z.
Definition asks (pc : pump_pc) : Prop := match pc with PmRequest work => work_ok work = true | _ => False end.

Definition owns (pc : pump_pc) : nat :=
  match pc with PmClaim | PmDrainRecv _ _ _ | PmDrainSend _ _ _ | PmExit => 1 | _ => 0 end.
Definition tries (pc : pump_pc) : nat :=
  match pc with PmLoop state => if has state kPumpRunning then 0 else 1 | _ => 0 end.
(** An owner that has claimed all the requests of a kind, and not yet drained them. *)
Definition drains_recv (n : nat) (pc : pump_pc) : nat :=
  match pc with PmDrainRecv claimed recvs _ => if has claimed kRecvWork && (recvs =? n) then 1 else 0 | _ => 0 end.
Definition drains_send (n : nat) (pc : pump_pc) : nat :=
  match pc with
  | PmDrainRecv claimed _ sends | PmDrainSend claimed _ sends =>
      if has claimed kSendWork && (sends =? n) then 1 else 0
  | _ => 0
  end.

Definition pc_ok (p : pump) (pc : pump_pc) : Prop :=
  match pc with
  | PmRequest work => work_ok work = true
  | PmLoop state => (0 <= state < 8)%Z
  | PmDrainRecv _ recvs sends =>
      (recvs = recv_requests p \/ has (m_pumpState p) kRecvWork = true) /\
      (sends = send_requests p \/ has (m_pumpState p) kSendWork = true)
  | PmDrainSend _ _ sends => sends = send_requests p \/ has (m_pumpState p) kSendWork = true
  | _ => True
  end.

Record inv (p : pump) (ts : list pump_pc) : Prop := mkInv {
  inv_bits : (0 <= m_pumpState p < 8)%Z;
  inv_owner : total owns ts = if has (m_pumpState p) kPumpRunning then 1 else 0;
  inv_tries : m_pumpState p <> 0%Z -> has (m_pumpState p) kPumpRunning = false -> 1 <= total tries ts;
  inv_recv : has (m_pumpState p) kRecvWork = true \/ 1 <= total (drains_recv (recv_requests p)) ts \/
             recv_drained p = recv_requests p;
  inv_send : has (m_pumpState p) kSendWork = true \/ 1 <= total (drains_send (send_requests p)) ts \/
             send_drained p = send_requests p;
  inv_pcs i pc : ts !! i = Some pc -> pc_ok p pc
}.

(** ** Bits *)

Lemma has_lor a b flag : has (Z.lor a b) flag = has a flag || has b flag.
Proof.
  unfold has. rewrite Z.land_lor_distr_l, <- negb_andb. f_equal.
  apply eq_true_iff_eq. by rewrite andb_true_iff, !Z.eqb_eq, Z.lor_eq_0_iff.
Qed.

Lemma bits_cases (P : Z -> Prop) :
  P 0%Z -> P 1%Z -> P 2%Z -> P 3%Z -> P 4%Z -> P 5%Z -> P 6%Z -> P 7%Z -> forall s, (0 <= s < 8)%Z -> P s.
Proof.
  intros. assert (s = 0 \/ s = 1 \/ s = 2 \/ s = 3 \/ s = 4 \/ s = 5 \/ s = 6 \/ s = 7)%Z as Hs by lia.
  by destruct Hs as [-> |[-> |[-> |[-> |[-> |[-> |[-> | -> ]]]]]]].
Qed.

Lemma work_cases work : work_ok work = true -> (work = 2 \/ work = 4 \/ work = 6)%Z.
Proof. unfold work_ok. rewrite !orb_true_iff, !Z.eqb_eq. tauto. Qed.

Lemma lor_bits s work : (0 <= s < 8)%Z -> work_ok work = true -> (0 <= Z.lor s work < 8)%Z.
Proof.
  intros Hs Hw%work_cases. revert s Hs. destruct Hw as [-> |[-> | -> ]]; apply bits_cases; by vm_compute.
Qed.

Lemma work_not_running work : work_ok work = true -> has work kPumpRunning = false.
Proof. by intros [-> |[-> | -> ]]%work_cases. Qed.

Lemma land_running s flag :
  (0 <= s < 8)%Z -> flag = kRecvWork \/ flag = kSendWork -> has (Z.land s kPumpRunning) flag = false.
Proof. intros Hs Hf. revert s Hs. destruct Hf as [-> | ->]; by apply bits_cases. Qed.

Lemma land_running_kept s :
  (0 <= s < 8)%Z -> has s kPumpRunning = true -> Z.land s kPumpRunning = kPumpRunning.
Proof. revert s. by apply (bits_cases (fun s => has s kPumpRunning = true -> Z.land s kPumpRunning = kPumpRunning)). Qed.

(** ** The owner is alone *)

Lemma drains_recv_owns n pc : drains_recv n pc <= owns pc.
Proof. destruct pc; cbn; try lia. destruct (_ && _); lia. Qed.
Lemma drains_send_owns n pc : drains_send n pc <= owns pc.
Proof. destruct pc; cbn; try lia; destruct (_ && _); lia. Qed.

Lemma others_do_not (w : pump_pc -> nat) ts i pc :
  (forall pc, w pc <= owns pc) -> ts !! i = Some pc -> owns pc = 1 -> total owns ts <= 1 -> total w ts = w pc.
Proof.
  intros Hw Hi Ho Ht. pose proof (total_insert w ts i pc PmReturn Hi) as E1.
  pose proof (total_insert owns ts i pc PmReturn Hi) as E2.
  pose proof (total_le w owns (<[i := PmReturn]> ts) Hw). specialize (Hw PmReturn). cbn in *. lia.
Qed.

Lemma owner_alone ts i j pc pc' :
  total owns ts <= 1 -> ts !! i = Some pc -> ts !! j = Some pc' -> i <> j -> owns pc = 1 -> owns pc' = 0.
Proof. intros Ht Hi Hj Hn Ho. pose proof (total_two owns ts i j pc pc' Hi Hj Hn). lia. Qed.

Lemma inv_one_owner p ts : inv p ts -> total owns ts <= 1.
Proof. intros H. rewrite (inv_owner _ _ H). destruct (has _ _); lia. Qed.

Lemma inv_running p ts i pc : inv p ts -> ts !! i = Some pc -> owns pc = 1 -> has (m_pumpState p) kPumpRunning = true.
Proof.
  intros H Hi Ho. pose proof (total_lookup owns ts i pc Hi). pose proof (inv_owner _ _ H) as E.
  destruct (has _ _); [done|lia].
Qed.

(** What the other threads know, when the step leaves the work bits or none of them is the owner. *)
Lemma pcs_insert p ts i pc pc' p' :
  inv p ts -> ts !! i = Some pc -> pc_ok p' pc' ->
  (forall j q, j <> i -> ts !! j = Some q -> pc_ok p q -> pc_ok p' q) ->
  forall j q, <[i := pc']> ts !! j = Some q -> pc_ok p' q.
Proof.
  intros H Hi Hpc Ho j q Hj. destruct (decide (j = i)) as [-> |Hn].
  - rewrite list_lookup_insert_eq in Hj by (by eapply lookup_lt_Some). by injection Hj as <-.
  - rewrite list_lookup_insert_ne in Hj by done. eapply Ho; [done..|]. by eapply inv_pcs.
Qed.

(** ** Every step keeps the invariant *)

Lemma step_request p ts i work :
  inv p ts -> ts !! i = Some (PmRequest work) ->
  inv (request work p) (<[i := PmLoop (Z.lor (m_pumpState p) work)]> ts).
Proof.
  intros H Hi. pose proof (inv_pcs _ _ H i _ Hi) as Hw. cbn in Hw. pose proof (work_not_running work Hw) as Hr.
  pose proof (lor_bits _ _ (inv_bits _ _ H) Hw) as Hb. set (pc' := PmLoop _). split; cbn [m_pumpState request recv_requests
    send_requests recv_drained send_drained]; rewrite ?has_lor, ?Hr, ?orb_false_r; [done|..].
  - totals Hi pc'. cbn in *. rewrite <- (inv_owner _ _ H). lia.
  - intros _ Hn. assert (<[i := pc']> ts !! i = Some pc') as Hi' by (apply list_lookup_insert_eq; by eapply lookup_lt_Some).
    pose proof (total_lookup tries _ i pc' Hi') as Ht. cbn in Ht. rewrite has_lor, Hn, Hr in Ht. done.
  - destruct (has work kRecvWork) eqn:E; [left; by rewrite orb_true_r|]. rewrite orb_false_r.
    totals Hi pc'. cbn in *. pose proof (inv_recv _ _ H). lia || intuition lia.
  - destruct (has work kSendWork) eqn:E; [left; by rewrite orb_true_r|]. rewrite orb_false_r.
    totals Hi pc'. cbn in *. pose proof (inv_send _ _ H). lia || intuition lia.
  - apply (pcs_insert p ts i _ pc' _ H Hi); [exact Hb|]. intros j q _ _ Hq. destruct q as [| | |c r s|c r s| |]; try done; cbn in *;
      rewrite ?has_lor; destruct (has work kRecvWork), (has work kSendWork); rewrite ?orb_true_r, ?orb_false_r; tauto.
Qed.

(** A step that leaves the pump as it is, of a thread that is not the owner. *)
Lemma step_quiet p ts i pc pc' :
  inv p ts -> ts !! i = Some pc -> owns pc = 0 -> owns pc' = 0 -> pc_ok p pc' ->
  (has (m_pumpState p) kPumpRunning = false -> m_pumpState p <> 0%Z -> tries pc <= tries pc') ->
  inv p (<[i := pc']> ts).
Proof.
  intros H Hi Ho Ho' Hok Ht. pose proof (drains_recv_owns (recv_requests p)) as D. pose proof (drains_send_owns (send_requests p)) as D'.
  pose proof (D pc). pose proof (D pc'). pose proof (D' pc). pose proof (D' pc'). split; [apply H|..].
  - totals Hi pc'. rewrite <- (inv_owner _ _ H). lia.
  - intros Hz Hn. totals Hi pc'. pose proof (inv_tries _ _ H Hz Hn). specialize (Ht Hn Hz). lia.
  - totals Hi pc'. pose proof (inv_recv _ _ H). intuition lia.
  - totals Hi pc'. pose proof (inv_send _ _ H). intuition lia.
  - apply (pcs_insert p ts i pc pc' p H Hi Hok). done.
Qed.

Lemma step_own p ts i state :
  inv p ts -> ts !! i = Some (PmLoop state) -> has state kPumpRunning = false -> m_pumpState p = state ->
  inv (set_state (Z.lor state kPumpRunning) p) (<[i := PmClaim]> ts).
Proof.
  intros H Hi Hn <-. pose proof (inv_bits _ _ H) as Hb. set (pc' := PmClaim).
  assert (has (Z.lor (m_pumpState p) kPumpRunning) kPumpRunning = true) as Hr by (rewrite has_lor; by rewrite orb_true_r).
  assert (forall flag, flag = kRecvWork \/ flag = kSendWork ->
    has (Z.lor (m_pumpState p) kPumpRunning) flag = has (m_pumpState p) flag) as Hf.
  { intros flag Hf. rewrite has_lor. destruct Hf as [-> | ->]; by rewrite orb_false_r. }
  split; cbn [m_pumpState set_state recv_requests send_requests recv_drained send_drained].
  - revert Hb. generalize (m_pumpState p). by apply bits_cases.
  - rewrite Hr. totals Hi pc'. cbn in *. pose proof (inv_owner _ _ H) as E. rewrite Hn in E. lia.
  - by rewrite Hr.
  - rewrite Hf by auto. totals Hi pc'. cbn in *. pose proof (inv_recv _ _ H). intuition lia.
  - rewrite Hf by auto. totals Hi pc'. cbn in *. pose proof (inv_send _ _ H). intuition lia.
  - apply (pcs_insert p ts i _ pc' _ H Hi); [done|]. intros j q _ _ Hq. destruct q; try done; cbn in *; by rewrite ?Hf by auto.
Qed.

Lemma step_claim p ts i :
  inv p ts -> ts !! i = Some PmClaim ->
  inv (set_state (Z.land (m_pumpState p) kPumpRunning) p)
    (<[i := PmDrainRecv (m_pumpState p) (recv_requests p) (send_requests p)]> ts).
Proof.
  intros H Hi. pose proof (inv_bits _ _ H) as Hb. set (pc' := PmDrainRecv _ _ _).
  pose proof (inv_running _ _ _ _ H Hi eq_refl) as Hr. pose proof (inv_one_owner _ _ H) as Hone.
  pose proof (land_running_kept _ Hb Hr) as ->.
  pose proof (others_do_not _ ts i _ (drains_recv_owns (recv_requests p)) Hi eq_refl Hone) as Er.
  pose proof (others_do_not _ ts i _ (drains_send_owns (send_requests p)) Hi eq_refl Hone) as Es. cbn in Er, Es.
  split; cbn [m_pumpState set_state recv_requests send_requests recv_drained send_drained]; [done|..].
  - change (has kPumpRunning kPumpRunning) with true. totals Hi pc'. cbn in *. pose proof (inv_owner _ _ H) as E.
    rewrite Hr in E. lia.
  - done.
  - right. totals Hi pc'. cbn in *. rewrite Nat.eqb_refl in *. pose proof (inv_recv _ _ H). destruct (has (m_pumpState p) kRecvWork); cbn in *; intuition (lia || congruence).
  - right. totals Hi pc'. cbn in *. rewrite Nat.eqb_refl in *. pose proof (inv_send _ _ H). destruct (has (m_pumpState p) kSendWork); cbn in *; intuition (lia || congruence).
  - apply (pcs_insert p ts i _ pc' _ H Hi); [cbn; auto|]. intros j q Hn Hj Hq.
    pose proof (owner_alone ts i j _ q Hone Hi Hj (not_eq_sym Hn) eq_refl). by destruct q.
Qed.

Lemma step_drain_recv p ts i claimed recvs sends :
  inv p ts -> ts !! i = Some (PmDrainRecv claimed recvs sends) ->
  inv (if has claimed kRecvWork then drained_recv recvs p else p) (<[i := PmDrainSend claimed recvs sends]> ts).
Proof.
  intros H Hi. set (p' := if has claimed kRecvWork then _ else _). set (pc' := PmDrainSend _ _ _).
  assert (m_pumpState p' = m_pumpState p /\ recv_requests p' = recv_requests p /\ send_requests p' = send_requests p /\
    send_drained p' = send_drained p) as (Es & Er & Ess & Esd) by (unfold p'; by destruct (has claimed kRecvWork)).
  pose proof (inv_one_owner _ _ H) as Hone. pose proof (inv_pcs _ _ H i _ Hi) as [Hr Hs].
  pose proof (others_do_not _ ts i _ (drains_recv_owns (recv_requests p)) Hi eq_refl Hone) as Er'.
  split; rewrite ?Es, ?Er, ?Ess, ?Esd; [apply H|..].
  - totals Hi pc'. cbn in *. pose proof (inv_owner _ _ H). lia.
  - intros Hz Hn. totals Hi pc'. cbn in *. pose proof (inv_tries _ _ H Hz Hn). lia.
  - destruct Hr as [-> |]; [|by left]. pose proof (inv_recv _ _ H) as Hd. cbn in Er'. rewrite Nat.eqb_refl, andb_true_r in Er'.
    unfold p'. destruct (has claimed kRecvWork); cbn; [auto|]. rewrite Er' in Hd. destruct Hd as [|[|]]; [auto|lia|auto].
  - totals Hi pc'. cbn in *. pose proof (inv_send _ _ H). intuition lia.
  - apply (pcs_insert p ts i _ pc' _ H Hi); [cbn; by rewrite Es, Ess|]. intros j q _ _ Hq.
    destruct q; cbn in *; by rewrite ?Es, ?Er, ?Ess.
Qed.

Lemma step_drain_send p ts i claimed recvs sends :
  inv p ts -> ts !! i = Some (PmDrainSend claimed recvs sends) ->
  inv (if has claimed kSendWork then drained_send sends p else p) (<[i := PmExit]> ts).
Proof.
  intros H Hi. set (p' := if has claimed kSendWork then _ else _). set (pc' := PmExit).
  assert (m_pumpState p' = m_pumpState p /\ recv_requests p' = recv_requests p /\ send_requests p' = send_requests p /\
    recv_drained p' = recv_drained p) as (Es & Er & Ess & Erd) by (unfold p'; by destruct (has claimed kSendWork)).
  pose proof (inv_one_owner _ _ H) as Hone. pose proof (inv_pcs _ _ H i _ Hi) as Hs.
  pose proof (others_do_not _ ts i _ (drains_send_owns (send_requests p)) Hi eq_refl Hone) as Es'.
  split; rewrite ?Es, ?Er, ?Ess, ?Erd; [apply H|..].
  - totals Hi pc'. cbn in *. pose proof (inv_owner _ _ H). lia.
  - intros Hz Hn. totals Hi pc'. cbn in *. pose proof (inv_tries _ _ H Hz Hn). lia.
  - totals Hi pc'. cbn in *. pose proof (inv_recv _ _ H). intuition lia.
  - cbn in Hs. destruct Hs as [-> |]; [|by left]. pose proof (inv_send _ _ H) as Hd. cbn in Es'.
    rewrite Nat.eqb_refl, andb_true_r in Es'.
    unfold p'. destruct (has claimed kSendWork); cbn; [auto|]. rewrite Es' in Hd. destruct Hd as [|[|]]; [auto|lia|auto].
  - apply (pcs_insert p ts i _ pc' _ H Hi); [done|]. intros j q _ _ Hq. destruct q; cbn in *; by rewrite ?Es, ?Er, ?Ess.
Qed.

Lemma step_exit p ts i :
  inv p ts -> ts !! i = Some PmExit -> m_pumpState p = kPumpRunning -> inv (set_state 0 p) (<[i := PmReturn]> ts).
Proof.
  intros H Hi E. set (pc' := PmReturn). pose proof (inv_one_owner _ _ H) as Hone.
  split; cbn [m_pumpState set_state recv_requests send_requests recv_drained send_drained]; [lia|..].
  - change (has 0 kPumpRunning) with false. totals Hi pc'. cbn in *. pose proof (inv_owner _ _ H) as Eo.
    rewrite E in Eo. cbn in Eo. lia.
  - done.
  - totals Hi pc'. cbn in *. pose proof (inv_recv _ _ H) as Hd. rewrite E in Hd. cbn in Hd. intuition lia.
  - totals Hi pc'. cbn in *. pose proof (inv_send _ _ H) as Hd. rewrite E in Hd. cbn in Hd. intuition lia.
  - apply (pcs_insert p ts i _ pc' _ H Hi); [done|]. intros j q Hn Hj Hq.
    pose proof (owner_alone ts i j _ q Hone Hi Hj (not_eq_sym Hn) eq_refl). by destruct q.
Qed.

(** The loop of the owner goes round. *)
Lemma step_again p ts i : inv p ts -> ts !! i = Some PmExit -> inv p (<[i := PmClaim]> ts).
Proof.
  intros H Hi. set (pc' := PmClaim). split; [apply H|..].
  - totals Hi pc'. cbn in *. pose proof (inv_owner _ _ H). lia.
  - intros Hz Hn. totals Hi pc'. cbn in *. pose proof (inv_tries _ _ H Hz Hn). lia.
  - totals Hi pc'. cbn in *. pose proof (inv_recv _ _ H). intuition lia.
  - totals Hi pc'. cbn in *. pose proof (inv_send _ _ H). intuition lia.
  - by apply (pcs_insert p ts i _ pc' _ H Hi).
Qed.

Lemma pump_inv_step cfg cfg' : inv cfg.1 cfg.2 -> step cfg cfg' -> inv cfg'.1 cfg'.2.
Proof.
  intros H Hs. destruct Hs as [c i p ts pc p' pc' Hi E]. cbn in *.
  destruct pc as [work|state| |claimed r s|claimed r s| |]; cbn in E; [..|done].
  - injection E as <- <-. by apply step_request.
  - pose proof (inv_pcs _ _ H i _ Hi) as Hb. destruct (has state kPumpRunning) eqn:Hr.
    { injection E as <- <-. eapply step_quiet; [done..|]. intros _ _. cbn. by rewrite Hr. }
    destruct (negb c && _) eqn:Ec; injection E as <- <-.
    + apply andb_true_iff in Ec as [_ Ec]. apply Z.eqb_eq in Ec. by apply step_own.
    + eapply step_quiet; [done..|apply H|]. intros Hn _. cbn. by rewrite Hr, Hn.
  - injection E as <- <-. by apply step_claim.
  - injection E as <- <-. by eapply step_drain_recv.
  - injection E as <- <-. by eapply step_drain_send.
  - destruct (Z.eqb_spec (m_pumpState p) kPumpRunning); injection E as <- <-; [by apply step_exit|by apply step_again].
Qed.

Lemma pump_reachable_inv calls p ts : Forall asks calls -> rtc step (new_pump, calls) (p, ts) -> inv p ts.
Proof.
  intros Ha Hs. change (inv (p, ts).1 (p, ts).2). revert Hs.
  apply (reachable_invariant step (fun cfg => inv cfg.1 cfg.2)); [|by intros; eapply pump_inv_step].
  assert (forall w, (forall work, w (PmRequest work) = 0) -> total w calls = 0) as Hz.
  { intros w Hw. apply total_zero. eapply Forall_impl; [exact Ha|]. intros []; done || (intros _; apply Hw). }
  cbn. split; [done|by rewrite Hz|done|auto|auto|].
  intros i pc Hi. pose proof (Forall_lookup_1 _ _ _ _ Ha Hi) as Hk. by destruct pc.
Qed.

(** C13: No request of a pump run is lost, and the queues have one owner at a time: whatever the order of
    the steps of any number of [requestPump] calls, at most one of them is running the pump, and when all
    have returned the pump is idle, with no work left in its state, and every request, of receivers'
    work and of senders' work, was made before the last drain of its queue was claimed. *)
Theorem pump_loses_no_request calls p ts :
  Forall asks calls -> rtc step (new_pump, calls) (p, ts) ->
  total owns ts <= 1 /\
  (Forall (fun pc => pc = PmReturn) ts ->
   m_pumpState p = 0%Z /\ recv_drained p = recv_requests p /\ send_drained p = send_requests p).
Proof.
  intros Ha Hs. pose proof (pump_reachable_inv calls p ts Ha Hs) as H. split; [by apply (inv_one_owner p)|].
  intros Hr. assert (forall w, w PmReturn = 0 -> total w ts = 0) as Hz.
  { intros w Hw. apply total_zero. eapply Forall_impl; [exact Hr|]. by intros pc ->. }
  pose proof (inv_owner _ _ H) as Ho. rewrite Hz in Ho by done.
  assert (m_pumpState p = 0%Z) as E.
  { destruct (Z.eq_dec (m_pumpState p) 0%Z) as [|Hn]; [done|]. destruct (has (m_pumpState p) kPumpRunning) eqn:Er; [done|].
    pose proof (inv_tries _ _ H Hn Er) as Ht. rewrite Hz in Ht by done. lia. }
  pose proof (inv_recv _ _ H) as Rr. pose proof (inv_send _ _ H) as Rs. rewrite E in Rr, Rs. rewrite Hz in Rr, Rs by done.
  cbn in Rr, Rs. split; [done|]. intuition (done || lia).
Qed.

(** A request made while the pump runs is taken over by the owner. *)
Definition sample_calls : list pump_pc := [PmRequest kRecvWork; PmRequest kSendWork].
Definition sample_schedule : list (nat * bool) :=
  (fun i => (i, false)) <$> [0; 0; 0; 1; 1; 0; 0; 0; 0; 0; 0; 0].
Definition sample_run : pump * list pump_pc := default (new_pump, sample_calls) (exec sample_schedule (new_pump, sample_calls)).

Lemma pump_loses_no_request_witness : m_pumpState sample_run.1 = 0%Z /\ send_drained sample_run.1 = 1.
Proof.
  assert (rtc step (new_pump, sample_calls) (sample_run.1, sample_run.2)) as Hs
    by (apply (exec_sound sample_schedule); vm_compute; reflexivity).
  destruct (pump_loses_no_request sample_calls _ _ ltac:(repeat constructor) Hs) as [_ Hr].
  destruct (Hr ltac:(vm_compute; repeat constructor)) as (E & _ & Es). split; [exact E|].
  rewrite Es. vm_compute. reflexivity.
Defined.
