(* ===== verification/SpscChannel.v ===== *)
(** * The bounded channel of one producer and one consumer

    [galay-kernel/concurrency/spsc/bounded_channel.h]: the ring of slots with a three-valued state under
    [BoundedChannel], the calls of its producer ([trySend]) and of its consumer ([tryRecv],
    [tryRecvBatch], [isReceiveClosed]), and [close] by any thread. Every access to an atomic is one step of
    [Interleave], in any order and sequentially consistent; the construction and the consumption of a
    message are steps too. The suspended coroutines are not modelled: of the waking of the receivers at a
    close only the moment counts, and it is counted.

    Besides what the code keeps, the ring keeps the messages in the order of their publication, the number
    of slots the consumer has given back, and whether [isReceiveClosed] has answered yes. *)

From Stdlib Require Import ZArith Lia.
From stdpp Require Import base list relations.
From S2P Require Import Prelude Interleave RingCursor.
Open Scope Z_scope.

Inductive SlotState : Type := kEmpty | kPublishing | kReady.
#[global] Instance SlotState_eq_dec : EqDecision SlotState.
Proof. solve_decision. Defined.

Inductive RingEnqueueResult : Type := kFull | kClosed | kClosedAfterPublishing | kPublished.
#[global] Instance RingEnqueueResult_eq_dec : EqDecision RingEnqueueResult.
Proof. solve_decision. Defined.

Inductive RingError : Type := kNone | kCapacityTooLarge | kAllocationFailed.

(** With a [size_t] of 64 bits, for a slot of [slot_size] bytes. *)
Definition bit_floor (n : Z) : Z := if n =? 0 then 0 else 2 ^ Z.log2 n.
Definition kMaxCursorCapacity : Z := Z.shiftl 1 63.
Definition kMaxArrayCapacity (slot_size : Z) : Z := bit_floor ((2 ^ 64 - 1) / slot_size).
Definition kMaxRingCapacity (slot_size : Z) : Z :=
  if kMaxCursorCapacity <? kMaxArrayCapacity slot_size then kMaxCursorCapacity else kMaxArrayCapacity slot_size.

Definition normalizeCapacity (slot_size capacity : Z) : Z :=
  if kMaxRingCapacity slot_size <? 2 then 0
  else if capacity <=? 2 then 2
  else if kMaxRingCapacity slot_size <? capacity then 0
  else bit_ceil capacity.

Section Channel.
Context {T : Type}.

Record Slot : Type := mkSlot { ready : SlotState; storage : option T }.

Record ring : Type := mkRing {
  m_tail : Z;
  m_head : Z;
  m_closed : bool;
  m_capacity : Z;
  m_mask : Z;
  m_slots : list Slot;
  published : list T;
  released : nat;
  answered : bool;
  recv_wakes : nat
}.

Definition empty_ring (capacity : Z) : ring :=
  mkRing 0 0 false capacity (capacity - 1) (replicate (Z.to_nat capacity) (mkSlot kEmpty None)) [] 0 false 0.

(** The constructor of a dynamic capacity; whether the slots could be allocated is the caller's. *)
Definition new_channel (slot_size capacity : Z) (allocated : bool) : RingError * option ring :=
  let normalized := normalizeCapacity slot_size capacity in
  if normalized =? 0 then (kCapacityTooLarge, None)
  else if negb allocated then (kAllocationFailed, None)
  else (kNone, Some (empty_ring normalized)).

Definition slot_index (r : ring) (position : Z) : nat := Z.to_nat (Z.land position (m_mask r)).
Definition slot_at (r : ring) (position : Z) : option Slot := m_slots r !! slot_index r position.

Definition set_slots (slots : list Slot) (r : ring) : ring :=
  mkRing (m_tail r) (m_head r) (m_closed r) (m_capacity r) (m_mask r) slots (published r) (released r)
    (answered r) (recv_wakes r).
Definition set_slot (position : Z) (slot : Slot) (r : ring) : ring :=
  set_slots (<[slot_index r position := slot]> (m_slots r)) r.
Definition set_tail (tail : Z) (r : ring) : ring :=
  mkRing tail (m_head r) (m_closed r) (m_capacity r) (m_mask r) (m_slots r) (published r) (released r)
    (answered r) (recv_wakes r).
Definition set_head (head : Z) (r : ring) : ring :=
  mkRing (m_tail r) head (m_closed r) (m_capacity r) (m_mask r) (m_slots r) (published r) (released r)
    (answered r) (recv_wakes r).
Definition set_closed (r : ring) : ring :=
  mkRing (m_tail r) (m_head r) true (m_capacity r) (m_mask r) (m_slots r) (published r) (released r)
    (answered r) (recv_wakes r).
Definition publish (value : T) (r : ring) : ring :=
  mkRing (m_tail r) (m_head r) (m_closed r) (m_capacity r) (m_mask r) (m_slots r) (published r ++ [value])
    (released r) (answered r) (recv_wakes r).
Definition release (r : ring) : ring :=
  mkRing (m_tail r) (m_head r) (m_closed r) (m_capacity r) (m_mask r) (m_slots r) (published r)
    (S (released r)) (answered r) (recv_wakes r).
Definition answer (closed : bool) (r : ring) : ring :=
  mkRing (m_tail r) (m_head r) (m_closed r) (m_capacity r) (m_mask r) (m_slots r) (published r)
    (released r) (closed || answered r) (recv_wakes r).
(** [wakeAllRecvWaiters] *)
Definition wake_receivers (r : ring) : ring :=
  mkRing (m_tail r) (m_head r) (m_closed r) (m_capacity r) (m_mask r) (m_slots r) (published r)
    (released r) (answered r) (S (recv_wakes r)).

(** ** Programs *)

(** [ringEnqueue], and the end of [trySend] *)
Inductive send_pc : Type :=
| SpClosed
| SpTail
| SpCheck (position : Z)
| SpPublishing (position : Z)
| SpRecheck (position : Z)
| SpAbort (position : Z)
| SpConstruct (position : Z)
| SpReady (position : Z)
| SpAdvance (position : Z)
| SpPublished
| SpClosedAfter.

(** What the consumer calls: [tryRecvBatch] of a count ([tryRecv] is a batch of one), [isReceiveClosed]. *)
Inductive recv_call : Type := RecvBatch (count : nat) | ReceiveClosed.

(** [ringDequeueTo] for the messages still wanted, and [isReceiveClosed] *)
Inductive recv_pc : Type :=
| RcCall
| RcHead (count : nat)
| RcCheck (count : nat) (position : Z)
| RcConsume (count : nat) (position : Z)
| RcRelease (count : nat) (position : Z)
| RcAdvance (count : nat) (position : Z)
| RcClosed
| RcClosedHead
| RcClosedReady (position : Z).

Inductive close_pc : Type := ClExchange | ClScan (index : nat) | ClWake | ClReturn.

(** The producer, with the messages it still sends and the results so far; the consumer, with the calls it
    still makes, the messages received and the answers of [isReceiveClosed]; a [close]. *)
Inductive thread : Type :=
| Producer (values : list T) (results : list (T * RingEnqueueResult)) (pc : send_pc)
| Consumer (calls : list recv_call) (received : list T) (answers : list bool) (pc : recv_pc)
| Closer (pc : close_pc)
| Undefined.

Definition slot_state (r : ring) (position : Z) : option SlotState := ready <$> slot_at r position.

(** A store to [ready]. *)
Definition store (position : Z) (state : SlotState) (r : ring) : option ring :=
  (fun slot => set_slot position (mkSlot state (storage slot)) r) <$> slot_at r position.

Definition send_step (values : list T) (results : list (T * RingEnqueueResult)) (r : ring) (pc : send_pc)
  : option (ring * thread) :=
  match values with
  | [] => None
  | value :: rest =>
      let go pc := Producer values results pc in
      let finish result := Producer rest (results ++ [(value, result)]) SpClosed in
      match pc with
      | SpClosed => Some (r, if m_closed r then finish kClosed else go SpTail)
      | SpTail => Some (r, go (SpCheck (m_tail r)))
      | SpCheck position =>
          Some (r, match slot_state r position with
                   | None => Undefined
                   | Some kEmpty => go (SpPublishing position)
                   | Some _ => finish kFull
                   end)
      | SpPublishing position =>
          Some match store position kPublishing r with
               | None => (r, Undefined)
               | Some r => (r, go (SpRecheck position))
               end
      | SpRecheck position => Some (r, go (if m_closed r then SpAbort position else SpConstruct position))
      | SpAbort position =>
          Some match store position kEmpty r with None => (r, Undefined) | Some r => (r, go SpClosedAfter) end
      | SpConstruct position =>
          Some match slot_at r position with
               | Some (mkSlot state None) => (set_slot position (mkSlot state (Some value)) r, go (SpReady position))
               | _ => (r, Undefined)
               end
      | SpReady position =>
          Some match store position kReady r with
               | None => (r, Undefined)
               | Some r => (publish value r, go (SpAdvance position))
               end
      | SpAdvance position => Some (set_tail (wrap64 (position + 1)) r, go SpPublished)
      | SpPublished => Some (if m_closed r then wake_receivers r else r, finish kPublished)
      | SpClosedAfter => Some (wake_receivers r, finish kClosedAfterPublishing)
      end
  end.

Definition recv_step (calls : list recv_call) (received : list T) (answers : list bool) (r : ring) (pc : recv_pc)
  : option (ring * thread) :=
  match calls with
  | [] => None
  | call :: rest =>
      let go pc := Consumer calls received answers pc in
      let finish := Consumer rest received answers RcCall in
      match pc with
      | RcCall => Some (r, go (match call with RecvBatch count => RcHead count | ReceiveClosed => RcClosed end))
      | RcHead 0 => Some (r, finish)
      | RcHead count => Some (r, go (RcCheck count (m_head r)))
      | RcCheck count position =>
          Some (r, match slot_state r position with
                   | None => Undefined
                   | Some kReady => go (RcConsume count position)
                   | Some _ => finish
                   end)
      | RcConsume count position =>
          Some match slot_at r position with
               | Some (mkSlot state (Some value)) =>
                   (set_slot position (mkSlot state None) r,
                    Consumer calls (received ++ [value]) answers (RcRelease count position))
               | _ => (r, Undefined)
               end
      | RcRelease count position =>
          Some match store position kEmpty r with
               | None => (r, Undefined)
               | Some r => (release r, go (RcAdvance count position))
               end
      | RcAdvance count position => Some (set_head (wrap64 (position + 1)) r, go (RcHead (count - 1)))
      | RcClosed =>
          Some (r, if m_closed r then go RcClosedHead else Consumer rest received (answers ++ [false]) RcCall)
      | RcClosedHead => Some (r, go (RcClosedReady (m_head r)))
      | RcClosedReady position =>
          Some match slot_state r position with
               | None => (r, Undefined)
               | Some state =>
                   let closed := bool_decide (state = kEmpty) in
                   (answer closed r, Consumer rest received (answers ++ [closed]) RcCall)
               end
      end
  end.

(** [close], with the scan of [hasPublishingSlot]. *)
Definition close_step (r : ring) (pc : close_pc) : option (ring * thread) :=
  match pc with
  | ClExchange => Some (set_closed r, Closer (if m_closed r then ClReturn else ClScan 0))
  | ClScan index =>
      Some (r, if (index <? Z.to_nat (m_capacity r))%nat then
                 match m_slots r !! index with
                 | None => Undefined
                 | Some slot => Closer (if bool_decide (ready slot = kPublishing) then ClReturn else ClScan (S index))
                 end
               else Closer ClWake)
  | ClWake => Some (wake_receivers r, Closer ClReturn)
  | ClReturn => None
  end.

#[global] Instance channel_step : ThreadProgram ring thread unit := fun _ r t =>
  match t with
  | Producer values results pc => send_step values results r pc
  | Consumer calls received answers pc => recv_step calls received answers r pc
  | Closer pc => close_step r pc
  | Undefined => None
  end.

Definition returned (t : thread) : bool :=
  match t with
  | Producer [] _ _ | Consumer [] _ _ _ | Closer ClReturn => true
  | _ => false
  end.

(** [size] *)
Definition size (r : ring) (tail head : Z) : Z :=
  let count := wrap64 (tail - head) in if count <? m_capacity r then count else m_capacity r.
End Channel.
Arguments Slot T : clear implicits.
Arguments ring T : clear implicits.
Arguments thread T : clear implicits.

Section Invariant.
Context {T : Type}.
Implicit Types (r : ring T) (t : thread T) (ts : list (thread T)).

Definition slot_of r (p : Z) : Slot T := default (mkSlot kEmpty None) (slot_at r p).
(** How many messages have been published, and how many slots given back. *)
Definition sentN r : Z := Z.of_nat (length (published r)).
Definition doneN r : Z := Z.of_nat (released r).
Definition message r (p : Z) : option T := published r !! Z.to_nat p.

Record shape r : Prop := mkShape {
  sh_capacity : capacity_ok 63 (m_capacity r);
  sh_mask : m_mask r = m_capacity r - 1;
  sh_length : length (m_slots r) = Z.to_nat (m_capacity r)
}.

Lemma spsc_slot_index_mod r p : shape r -> slot_index r p = Z.to_nat (p mod m_capacity r).
Proof. intros [Hc Hm _]. unfold slot_index. by rewrite Hm, (mask_mod 63). Qed.

Lemma spsc_slot_at_some r p : shape r -> slot_at r p = Some (slot_of r p).
Proof.
  intros Hs. unfold slot_of, slot_at. rewrite (spsc_slot_index_mod r p Hs).
  by destruct (ring_lookup 63 (m_capacity r) (m_slots r) p (sh_capacity r Hs) (sh_length r Hs)) as [slot ->].
Qed.

Lemma spsc_slot_of_same r p q : shape r -> same (m_capacity r) p q -> slot_of r p = slot_of r q.
Proof. intros Hs E. unfold slot_of, slot_at. by rewrite !spsc_slot_index_mod, E. Qed.

(** Cursors wrap at [2^64], which is a multiple of the capacity. *)
Lemma wrap64_same r p : shape r -> same (m_capacity r) (wrap64 p) p.
Proof.
  intros Hs. destruct (sh_capacity r Hs) as (k & Hk & E). unfold same, wrap64. apply Z.mod_mod_divide. rewrite E.
  exists (2 ^ (64 - k)). rewrite <- Z.pow_add_r by lia. f_equal. lia.
Qed.

Lemma slot_at_cursor r p : shape r -> slot_at r (wrap64 p) = Some (slot_of r p).
Proof. intros Hs. rewrite spsc_slot_at_some by done. f_equal. apply spsc_slot_of_same; [done|by apply wrap64_same]. Qed.

Lemma slot_index_cursor r p : shape r -> slot_index r (wrap64 p) = slot_index r p.
Proof. intros Hs. rewrite !spsc_slot_index_mod by done. f_equal. by apply wrap64_same. Qed.

Lemma spsc_shape_set_slot r p s : shape r -> shape (set_slot p s r).
Proof. intros []. split; [done..|]. cbn. by rewrite length_insert. Qed.

Lemma spsc_slot_of_set r p s q :
  shape r -> slot_of (set_slot (wrap64 p) s r) q = if decide (same (m_capacity r) q p) then s else slot_of r q.
Proof.
  intros Hs. unfold slot_of at 1, slot_at. rewrite (spsc_slot_index_mod (set_slot _ s r)) by by apply spsc_shape_set_slot.
  cbn [m_slots set_slot set_slots m_capacity]. rewrite slot_index_cursor, spsc_slot_index_mod by done.
  rewrite (ring_lookup_insert 63) by apply Hs. case_decide; [done|]. unfold slot_of, slot_at. by rewrite spsc_slot_index_mod.
Qed.

(** What holds of the store, given where the producer and the consumer are: whether the producer still
    has to advance the tail, and has its slot; whether the consumer has emptied its slot and not yet given
    it back, and still has to advance the head; and whether the producer is past its second look at
    [m_closed]. *)
Record core r (advances window consumed advances_head committed : nat) : Prop := mkCore {
  co_shape : shape r;
  co_range : doneN r <= sentN r <= doneN r + m_capacity r;
  co_tail : advances = 0%nat -> m_tail r = wrap64 (sentN r);
  co_head : advances_head = 0%nat -> m_head r = wrap64 (doneN r);
  co_live p : doneN r < p < sentN r -> slot_of r p = mkSlot kReady (message r p);
  co_first : doneN r < sentN r -> consumed = 0%nat -> slot_of r (doneN r) = mkSlot kReady (message r (doneN r));
  co_free p : sentN r < p < doneN r + m_capacity r -> slot_of r p = mkSlot kEmpty None;
  co_next : sentN r < doneN r + m_capacity r -> window = 0%nat -> slot_of r (sentN r) = mkSlot kEmpty None;
  co_final : answered r = true -> m_closed r = true /\ doneN r = sentN r /\ committed = 0%nat
}.

(** ** The threads *)

Definition is_producer t : nat := match t with Producer _ _ _ => 1 | _ => 0 end.
Definition is_consumer t : nat := match t with Consumer _ _ _ _ => 1 | _ => 0 end.
Definition advances t : nat := match t with Producer _ _ (SpAdvance _) => 1 | _ => 0 end.
Definition window t : nat :=
  match t with Producer _ _ (SpRecheck _ | SpAbort _ | SpConstruct _ | SpReady _) => 1 | _ => 0 end.
Definition consumed t : nat := match t with Consumer _ _ _ (RcRelease _ _) => 1 | _ => 0 end.
Definition advances_head t : nat := match t with Consumer _ _ _ (RcAdvance _ _) => 1 | _ => 0 end.
Definition committed t : nat := match t with Producer _ _ (SpConstruct _ | SpReady _) => 1 | _ => 0 end.
(** The threads that will wake the receivers of a closed channel. *)
Definition will_wake t : nat :=
  match t with
  | Producer _ _ (SpRecheck _ | SpAbort _ | SpConstruct _ | SpReady _ | SpAdvance _ | SpPublished | SpClosedAfter) => 1
  | Closer (ClScan _ | ClWake) => 1
  | _ => 0
  end.

(** The messages of the sends that succeeded, in order. *)
Definition sent_of (results : list (T * RingEnqueueResult)) : list T :=
  (filter (fun x => x.2 = kPublished) results).*1.

Definition send_ok r (values : list T) (results : list (T * RingEnqueueResult)) (pc : send_pc) : Prop :=
  match values with
  | [] => pc = SpClosed /\ published r = sent_of results
  | value :: _ =>
      (published r = sent_of results ++ match pc with SpAdvance _ | SpPublished => [value] | _ => [] end) /\
      match pc with
      | SpCheck p => p = wrap64 (sentN r)
      | SpPublishing p =>
          p = wrap64 (sentN r) /\ sentN r < doneN r + m_capacity r /\ slot_of r (sentN r) = mkSlot kEmpty None
      | SpRecheck p | SpConstruct p =>
          p = wrap64 (sentN r) /\ sentN r < doneN r + m_capacity r /\ slot_of r (sentN r) = mkSlot kPublishing None
      | SpAbort p =>
          m_closed r = true /\
          p = wrap64 (sentN r) /\ sentN r < doneN r + m_capacity r /\ slot_of r (sentN r) = mkSlot kPublishing None
      | SpReady p =>
          p = wrap64 (sentN r) /\ sentN r < doneN r + m_capacity r /\
          slot_of r (sentN r) = mkSlot kPublishing (Some value)
      | SpAdvance p => p = wrap64 (sentN r - 1)
      | SpClosedAfter => m_closed r = true
      | _ => True
      end
  end.

Definition recv_ok r (calls : list recv_call) (received : list T) (answers : list bool) (pc : recv_pc) : Prop :=
  (calls = [] -> pc = RcCall) /\
  (true ∈ answers -> answered r = true) /\
  received = take (released r + match pc with RcRelease _ _ => 1 | _ => 0 end) (published r) /\
  match pc with
  | RcCheck _ p => p = wrap64 (doneN r)
  | RcConsume _ p => p = wrap64 (doneN r) /\ doneN r < sentN r
  | RcRelease _ p => p = wrap64 (doneN r) /\ doneN r < sentN r /\ slot_of r (doneN r) = mkSlot kReady None
  | RcAdvance _ p => p = wrap64 (doneN r - 1)
  | RcClosedHead => m_closed r = true
  | RcClosedReady p => m_closed r = true /\ p = wrap64 (doneN r)
  | _ => True
  end.

Definition thread_ok r t : Prop :=
  match t with
  | Producer values results pc => send_ok r values results pc
  | Consumer calls received answers pc => recv_ok r calls received answers pc
  | Closer (ClScan _ | ClWake) => m_closed r = true
  | Closer _ => True
  | Undefined => False
  end.

Record inv r ts : Prop := mkInv {
  inv_core : core r (total advances ts) (total window ts) (total consumed ts) (total advances_head ts)
               (total committed ts);
  inv_wakes : m_closed r = true -> (1 <= recv_wakes r + total will_wake ts)%nat;
  inv_producer : (total is_producer ts <= 1)%nat;
  inv_consumer : (total is_consumer ts <= 1)%nat;
  inv_threads i t : ts !! i = Some t -> thread_ok r t
}.

(** ** Steps *)

Lemma core_capacity r a w c ah cm : core r a w c ah cm -> 2 <= m_capacity r <= 2 ^ 63.
Proof. intros H. apply (capacity_bounds 63), H. Qed.

(** Two positions of one lap are in different slots. *)
Lemma one_lap r a w c ah cm p q :
  core r a w c ah cm -> doneN r <= p < doneN r + m_capacity r -> doneN r <= q < doneN r + m_capacity r ->
  same (m_capacity r) p q -> p = q.
Proof. intros H Hp Hq E. pose proof (core_capacity _ _ _ _ _ _ H). apply (same_near (m_capacity r)); [lia|done|lia]. Qed.

Lemma slot_of_write r a w c ah cm p s q :
  core r a w c ah cm -> doneN r <= p < doneN r + m_capacity r -> doneN r <= q < doneN r + m_capacity r ->
  slot_of (set_slot (wrap64 p) s r) q = if decide (q = p) then s else slot_of r q.
Proof.
  intros H Hp Hq. rewrite spsc_slot_of_set by apply H. destruct (decide (q = p)) as [-> |Hn]; [by rewrite decide_True|].
  rewrite decide_False; [done|]. intros E. by apply Hn, (one_lap r a w c ah cm).
Qed.

(** The producer writes the slot after the last message. *)
Lemma core_write_next r w c ah cm s w' cm' :
  core r 0 w c ah cm -> sentN r < doneN r + m_capacity r -> (w' = 0%nat -> s = mkSlot kEmpty None) ->
  (answered r = true -> cm' = 0%nat) -> core (set_slot (wrap64 (sentN r)) s r) 0 w' c ah cm'.
Proof.
  intros H Hn Hw Hc. pose proof (co_range _ _ _ _ _ _ H) as Hr.
  pose proof (fun q => slot_of_write r 0 w c ah cm (sentN r) s q H ltac:(lia)) as Hq.
  split; cbn [m_tail m_head m_capacity m_closed answered set_slot set_slots]; change (sentN (set_slot _ s r)) with (sentN r);
    change (doneN (set_slot _ s r)) with (doneN r); try apply H.
  - by apply spsc_shape_set_slot, H.
  - intros p Hp. rewrite Hq, decide_False by lia. by apply (co_live _ _ _ _ _ _ H).
  - intros Hl Hz. rewrite Hq, decide_False by lia. by apply (co_first _ _ _ _ _ _ H).
  - intros p Hp. rewrite Hq, decide_False by lia. by apply (co_free _ _ _ _ _ _ H).
  - intros _ Hz. rewrite Hq, decide_True by lia. auto.
  - intros Ha. destruct (co_final _ _ _ _ _ _ H Ha) as (? & ? & _). auto.
Qed.

Lemma sentN_publish v r : sentN (publish v r) = sentN r + 1.
Proof. unfold sentN. cbn. rewrite length_app. cbn. lia. Qed.

Lemma message_publish v r p : 0 <= p < sentN r -> message (publish v r) p = message r p.
Proof. intros Hp. unfold message, sentN in *. cbn. apply lookup_app_l. lia. Qed.

Lemma message_published v r : message (publish v r) (sentN r) = Some v.
Proof. unfold message, sentN. cbn. by rewrite Nat2Z.id, lookup_app_r, Nat.sub_diag. Qed.

(** The producer makes the message of its slot visible. *)
Lemma core_publish r w c ah cm v :
  core r 0 w c ah cm -> sentN r < doneN r + m_capacity r -> (1 <= cm)%nat ->
  core (publish v (set_slot (wrap64 (sentN r)) (mkSlot kReady (Some v)) r)) 1 0 c ah 0.
Proof.
  intros H Hn Hcm. pose proof (co_range _ _ _ _ _ _ H) as Hr. set (s := mkSlot kReady (Some v)).
  pose proof (fun q => slot_of_write r 0 w c ah cm (sentN r) s q H ltac:(lia)) as Hq.
  assert (0 <= doneN r) by (unfold doneN; lia).
  assert (Hslot : forall q, slot_of (publish v (set_slot (wrap64 (sentN r)) s r)) q =
    slot_of (set_slot (wrap64 (sentN r)) s r) q) by done.
  assert (HN : sentN (publish v (set_slot (wrap64 (sentN r)) s r)) = sentN r + 1) by exact (sentN_publish v (set_slot (wrap64 (sentN r)) s r)).
  assert (Hm : forall p, 0 <= p < sentN r -> message (publish v (set_slot (wrap64 (sentN r)) s r)) p = message r p).
  { intros p Hp. exact (message_publish v (set_slot (wrap64 (sentN r)) s r) p Hp). }
  pose proof (message_published v (set_slot (wrap64 (sentN r)) s r)) as Hv.
  change (sentN (set_slot _ s r)) with (sentN r) in Hv.
  split; cbn [m_tail m_head m_capacity m_closed answered publish set_slot set_slots]; rewrite ?HN;
    change (doneN (publish _ _)) with (doneN r); [by destruct (spsc_shape_set_slot r (wrap64 (sentN r)) s (co_shape _ _ _ _ _ _ H))|lia|
    done|apply H|..].
  - intros p Hp. rewrite Hslot, Hq by lia. destruct (decide (p = sentN r)) as [-> |]; [by rewrite Hv|].
    rewrite Hm by lia. apply (co_live _ _ _ _ _ _ H). lia.
  - intros Hl Hz. rewrite Hslot, Hq by lia. destruct (decide (doneN r = sentN r)) as [E|]; [by rewrite E, Hv|].
    rewrite Hm by lia. apply (co_first _ _ _ _ _ _ H); [lia|done].
  - intros p Hp. rewrite Hslot, Hq, decide_False by lia. apply (co_free _ _ _ _ _ _ H). lia.
  - intros Hl _. rewrite Hslot, Hq, decide_False by lia. apply (co_free _ _ _ _ _ _ H). lia.
  - intros Ha. destruct (co_final _ _ _ _ _ _ H Ha) as (_ & _ & E). lia.
Qed.

(** The consumer empties the first slot. *)
Lemma core_consume r a w ah cm :
  core r a w 0 ah cm -> doneN r < sentN r ->
  core (set_slot (wrap64 (doneN r)) (mkSlot kReady None) r) a w 1 ah cm.
Proof.
  intros H Hn. pose proof (co_range _ _ _ _ _ _ H) as Hr. pose proof (core_capacity _ _ _ _ _ _ H). set (s := mkSlot kReady None).
  pose proof (fun q => slot_of_write r a w 0 ah cm (doneN r) s q H ltac:(lia)) as Hq.
  split; cbn [m_tail m_head m_capacity m_closed answered set_slot set_slots]; change (sentN (set_slot _ s r)) with (sentN r);
    change (doneN (set_slot _ s r)) with (doneN r); try apply H.
  - by apply spsc_shape_set_slot, H.
  - intros p Hp. rewrite Hq, decide_False by lia. by apply (co_live _ _ _ _ _ _ H).
  - done.
  - intros p Hp. rewrite Hq, decide_False by lia. by apply (co_free _ _ _ _ _ _ H).
  - intros Hl Hz. rewrite Hq, decide_False by lia. by apply (co_next _ _ _ _ _ _ H).
Qed.

(** The consumer gives the first slot back. *)
Lemma core_release r a w cm :
  core r a w 1 0 cm -> doneN r < sentN r ->
  core (release (set_slot (wrap64 (doneN r)) (mkSlot kEmpty None) r)) a w 0 1 cm.
Proof.
  intros H Hn. pose proof (co_range _ _ _ _ _ _ H) as Hr. pose proof (core_capacity _ _ _ _ _ _ H). set (s := mkSlot kEmpty None).
  set (r' := release _). assert (HK : doneN r' = doneN r + 1) by (unfold doneN, r'; cbn; lia).
  assert (Hq : forall q, doneN r <= q < doneN r + m_capacity r -> slot_of r' q = if decide (q = doneN r) then s else slot_of r q).
  { intros q Hq. apply (slot_of_write r a w 1 0 cm (doneN r) s q H); lia. }
  assert (Hlast : slot_of r' (doneN r + m_capacity r) = s).
  { change (slot_of (set_slot (wrap64 (doneN r)) s r) (doneN r + m_capacity r) = s).
    rewrite spsc_slot_of_set, decide_True; [done|by apply same_add; lia|apply H]. }
  split; cbn [m_tail m_head m_capacity m_closed answered release set_slot set_slots r']; rewrite ?HK;
    change (sentN r') with (sentN r); [by destruct (spsc_shape_set_slot r (wrap64 (doneN r)) s (co_shape _ _ _ _ _ _ H))|lia|
    apply H|done|..].
  - intros p Hp. rewrite Hq, decide_False by lia. apply (co_live _ _ _ _ _ _ H). lia.
  - intros Hl _. rewrite Hq, decide_False by lia. apply (co_live _ _ _ _ _ _ H). lia.
  - intros p Hp. destruct (decide (p = doneN r + m_capacity r)) as [-> |]; [done|].
    rewrite Hq, decide_False by lia. apply (co_free _ _ _ _ _ _ H). lia.
  - intros Hl Hz. destruct (decide (sentN r = doneN r + m_capacity r)) as [-> |]; [done|].
    rewrite Hq, decide_False by lia. apply (co_next _ _ _ _ _ _ H); [lia|done].
  - intros Ha. destruct (co_final _ _ _ _ _ _ H Ha) as (_ & E & _). lia.
Qed.

Lemma cursor_succ n : wrap64 (wrap64 (n - 1) + 1) = wrap64 n.
Proof. unfold wrap64. rewrite Z.add_mod_idemp_l by lia. f_equal. lia. Qed.

Lemma core_set_tail r a w c ah cm :
  core r a w c ah cm -> core (set_tail (wrap64 (wrap64 (sentN r - 1) + 1)) r) 0 w c ah cm.
Proof. intros H. split; try apply H; [by destruct (co_shape _ _ _ _ _ _ H)|]. intros _. apply cursor_succ. Qed.

Lemma core_set_head r a w c ah cm :
  core r a w c ah cm -> core (set_head (wrap64 (wrap64 (doneN r - 1) + 1)) r) a w c 0 cm.
Proof. intros H. split; try apply H; [by destruct (co_shape _ _ _ _ _ _ H)|]. intros _. apply cursor_succ. Qed.

Lemma core_set_closed r a w c ah cm : core r a w c ah cm -> core (set_closed r) a w c ah cm.
Proof.
  intros H. split; try apply H; [by destruct (co_shape _ _ _ _ _ _ H)|]. intros Ha.
  by destruct (co_final _ _ _ _ _ _ H Ha).
Qed.

Lemma core_wake r a w c ah cm : core r a w c ah cm -> core (wake_receivers r) a w c ah cm.
Proof. intros H. split; try apply H. by destruct (co_shape _ _ _ _ _ _ H). Qed.

Lemma core_answer r a w c ah cm closed :
  core r a w c ah cm -> (closed = true -> m_closed r = true /\ doneN r = sentN r /\ cm = 0%nat) ->
  core (answer closed r) a w c ah cm.
Proof.
  intros H Hc. split; try apply H; [by destruct (co_shape _ _ _ _ _ _ H)|]. intros Ha.
  apply orb_true_iff in Ha as [Ha|Ha]; [auto|by apply (co_final _ _ _ _ _ _ H)].
Qed.

(** What a thread knows stays true at the steps of the others. *)
Lemma spsc_thread_ok_frame r r' t :
  doneN r <= sentN r -> (m_closed r = true -> m_closed r' = true) ->
  (is_producer t = 1%nat -> published r' = published r /\ doneN r <= doneN r' /\ m_capacity r' = m_capacity r /\
     (sentN r < doneN r + m_capacity r -> slot_of r' (sentN r) = slot_of r (sentN r))) ->
  (is_consumer t = 1%nat -> released r' = released r /\ published r `prefix_of` published r' /\
     (answered r = true -> answered r' = true) /\
     (doneN r < sentN r -> slot_of r' (doneN r) = slot_of r (doneN r))) ->
  thread_ok r t -> thread_ok r' t.
Proof.
  intros Hr Hcl Hp Hc. destruct t as [values results pc|calls received answers pc|[]|]; try done; cbn [thread_ok]; auto.
  - destruct (Hp eq_refl) as (Ep & Ed & Ec & Es). assert (sentN r' = sentN r) as En by (unfold sentN; by rewrite Ep).
    destruct values as [|v values]; cbn [send_ok]; rewrite ?Ep, ?En, ?Ec; [done|].
    intros [Hpub Hpc]. split; [done|]. destruct pc; try done; try (by auto); intuition (lia || congruence).
  - destruct (Hc eq_refl) as (Ed & Ep & Ea & Es). assert (doneN r' = doneN r) as En by (unfold doneN; by rewrite Ed).
    assert (sentN r <= sentN r') as Hle by (unfold sentN; pose proof (prefix_length _ _ Ep); lia).
    unfold recv_ok. rewrite Ed, ?En. intros (Hcalls & Hans & Hrec & Hpc). split; [done|]. split; [auto|]. split.
    + destruct Ep as [l ->]. rewrite take_app_le; [done|]. unfold doneN, sentN in *. destruct pc; lia.
    + destruct pc; try done; try (by auto); intuition (lia || congruence).
Qed.

Lemma sole (role w : thread T -> nat) ts i t :
  (forall u, w u <= role u)%nat -> role Undefined = 0%nat -> ts !! i = Some t -> role t = 1%nat -> (total role ts <= 1)%nat -> total w ts = w t.
Proof.
  intros Hw Hu Hi Ht Ho. pose proof (total_insert w ts i t Undefined Hi) as E1.
  pose proof (total_insert role ts i t Undefined Hi) as E2. pose proof (total_le w role (<[i := Undefined]> ts) Hw) as Hle.
  pose proof (total_lookup w ts i t Hi). pose proof (Hw Undefined). lia.
Qed.

Lemma other_role (role : thread T -> nat) ts i j t u :
  (total role ts <= 1)%nat -> ts !! i = Some t -> ts !! j = Some u -> i <> j -> role t = 1%nat -> role u = 1%nat -> False.
Proof. intros Ho Hi Hj Hn Ht Hu. pose proof (total_two role ts i j t u Hi Hj Hn). lia. Qed.

Lemma total_same (w : thread T -> nat) ts i t t' : ts !! i = Some t -> w t' = w t -> total w (<[i := t']> ts) = total w ts.
Proof. intros Hi E. pose proof (total_insert w ts i t t' Hi). lia. Qed.

Lemma threads_insert r ts i t t' r' :
  inv r ts -> ts !! i = Some t -> thread_ok r' t' ->
  (forall j u, j <> i -> ts !! j = Some u -> thread_ok r u -> thread_ok r' u) ->
  forall j u, <[i := t']> ts !! j = Some u -> thread_ok r' u.
Proof.
  intros H Hi Ht Ho j u Hj. destruct (decide (j = i)) as [-> |Hn].
  - rewrite list_lookup_insert_eq in Hj by (by eapply lookup_lt_Some). by injection Hj as <-.
  - rewrite list_lookup_insert_ne in Hj by done. eapply Ho; [done..|]. by eapply inv_threads.
Qed.

Lemma wakes_insert r ts i t t' r' :
  inv r ts -> ts !! i = Some t ->
  (m_closed r' = true -> m_closed r = true /\ (recv_wakes r + will_wake t <= recv_wakes r' + will_wake t')%nat) ->
  m_closed r' = true -> (1 <= recv_wakes r' + total will_wake (<[i := t']> ts))%nat.
Proof. intros H Hi Hw Hc. destruct (Hw Hc) as [Hc' Hle]. pose proof (inv_wakes _ _ H Hc'). totals Hi t'. lia. Qed.

(** The step of the producer, and of the consumer. *)
Lemma producer_step r ts i t r' t' :
  inv r ts -> ts !! i = Some t -> is_producer t = 1%nat -> is_producer t' = 1%nat ->
  core r' (advances t') (window t') (total consumed ts) (total advances_head ts) (committed t') ->
  (m_closed r' = true -> m_closed r = true /\ (recv_wakes r + will_wake t <= recv_wakes r' + will_wake t')%nat) ->
  thread_ok r' t' -> m_closed r' = m_closed r -> released r' = released r -> published r `prefix_of` published r' ->
  answered r' = answered r -> (doneN r < sentN r -> slot_of r' (doneN r) = slot_of r (doneN r)) ->
  inv r' (<[i := t']> ts).
Proof.
  intros H Hi Ht Ht' Hco Hw Hok Ec Er Ep Ea Es. pose proof (inv_producer _ _ H) as Hone.
  assert (forall w : thread T -> nat, (forall u, w u <= is_producer u)%nat -> total w (<[i := t']> ts) = w t') as Hsole.
  { intros w Hle. apply (sole is_producer w _ i); [done|done|apply list_lookup_insert_eq; by eapply lookup_lt_Some|done|].
    by rewrite (total_same is_producer ts i t t' Hi) by congruence. }
  assert (is_consumer t = 0%nat /\ is_consumer t' = 0%nat) as [Hn Hn'] by (by destruct t, t').
  split.
  - rewrite (Hsole advances), (Hsole window), (Hsole committed) by (intros [? ? []| | |]; cbn; lia).
    rewrite (total_same consumed ts i t t' Hi), (total_same advances_head ts i t t' Hi) by (by destruct t, t'). done.
  - by eapply wakes_insert.
  - by rewrite (total_same is_producer ts i t t' Hi) by congruence.
  - rewrite (total_same is_consumer ts i t t' Hi) by congruence. apply H.
  - apply (threads_insert r ts i t t' r' H Hi Hok). intros j u Hj Hu. apply spsc_thread_ok_frame;
      [apply (inv_core _ _ H)|by rewrite Ec| |by rewrite Ea].
    intros Hp. exfalso. by eapply (other_role is_producer ts i j t u).
Qed.

Lemma consumer_step r ts i t r' t' :
  inv r ts -> ts !! i = Some t -> is_consumer t = 1%nat -> is_consumer t' = 1%nat ->
  core r' (total advances ts) (total window ts) (consumed t') (advances_head t') (total committed ts) ->
  thread_ok r' t' -> m_closed r' = m_closed r -> recv_wakes r' = recv_wakes r -> published r' = published r ->
  doneN r <= doneN r' -> m_capacity r' = m_capacity r ->
  (sentN r < doneN r + m_capacity r -> slot_of r' (sentN r) = slot_of r (sentN r)) ->
  inv r' (<[i := t']> ts).
Proof.
  intros H Hi Ht Ht' Hco Hok Ec Ew Ep Ed Ecap Es. pose proof (inv_consumer _ _ H) as Hone.
  assert (forall w : thread T -> nat, (forall u, w u <= is_consumer u)%nat -> total w (<[i := t']> ts) = w t') as Hsole.
  { intros w Hle. apply (sole is_consumer w _ i); [done|done|apply list_lookup_insert_eq; by eapply lookup_lt_Some|done|].
    by rewrite (total_same is_consumer ts i t t' Hi) by congruence. }
  assert (is_producer t = 0%nat /\ is_producer t' = 0%nat /\ will_wake t = 0%nat /\ will_wake t' = 0%nat)
    as (Hn & Hn' & Hk & Hk') by (by destruct t, t').
  split.
  - rewrite (Hsole consumed), (Hsole advances_head) by (intros [|? ? ? []| |]; cbn; lia).
    rewrite (total_same advances ts i t t' Hi), (total_same window ts i t t' Hi), (total_same committed ts i t t' Hi)
      by (by destruct t, t'). done.
  - eapply wakes_insert; [done..|]. rewrite Ec. intros Hc. split; [done|]. lia.
  - rewrite (total_same is_producer ts i t t' Hi) by congruence. apply H.
  - by rewrite (total_same is_consumer ts i t t' Hi) by congruence.
  - apply (threads_insert r ts i t t' r' H Hi Hok). intros j u Hj Hu. apply spsc_thread_ok_frame;
      [apply (inv_core _ _ H)|by rewrite Ec|done|].
    intros Hp. exfalso. by eapply (other_role is_consumer ts i j t u).
Qed.

Lemma producer_core r ts i t :
  inv r ts -> ts !! i = Some t -> is_producer t = 1%nat ->
  core r (advances t) (window t) (total consumed ts) (total advances_head ts) (committed t).
Proof.
  intros H Hi Ht. pose proof (inv_producer _ _ H) as Hone. pose proof (inv_core _ _ H) as Hc.
  assert (forall w : thread T -> nat, (forall u, w u <= is_producer u)%nat -> total w ts = w t) as Hsole.
  { intros w Hle. by apply (sole is_producer w _ i). }
  by rewrite (Hsole advances), (Hsole window), (Hsole committed) in Hc by (intros [? ? []| | |]; cbn; lia).
Qed.

Lemma consumer_core r ts i t :
  inv r ts -> ts !! i = Some t -> is_consumer t = 1%nat ->
  core r (total advances ts) (total window ts) (consumed t) (advances_head t) (total committed ts).
Proof.
  intros H Hi Ht. pose proof (inv_consumer _ _ H) as Hone. pose proof (inv_core _ _ H) as Hc.
  assert (forall w : thread T -> nat, (forall u, w u <= is_consumer u)%nat -> total w ts = w t) as Hsole.
  { intros w Hle. by apply (sole is_consumer w _ i). }
  by rewrite (Hsole consumed), (Hsole advances_head) in Hc by (intros [|? ? ? []| |]; cbn; lia).
Qed.

(** A step of the producer, or the consumer, that leaves the ring as it is. *)
Lemma producer_quiet r ts i t t' :
  inv r ts -> ts !! i = Some t -> is_producer t = 1%nat -> is_producer t' = 1%nat -> thread_ok r t' ->
  advances t' = advances t -> window t' = window t ->
  (answered r = true -> committed t' = 0%nat) -> (m_closed r = true -> will_wake t <= will_wake t')%nat ->
  inv r (<[i := t']> ts).
Proof.
  intros H Hi Ht Ht' Hok Ea Ew Hc Hk. pose proof (producer_core r ts i t H Hi Ht) as Hco.
  apply (producer_step r ts i t); try done.
  - rewrite Ea, Ew. destruct Hco as [? ? ? ? ? ? ? ? Hf]. split; try done. intros Ha. destruct (Hf Ha) as (? & ? & _). auto.
  - intros Hcl. specialize (Hk Hcl). split; [done|lia].
Qed.

Lemma consumer_quiet r ts i t t' :
  inv r ts -> ts !! i = Some t -> is_consumer t = 1%nat -> is_consumer t' = 1%nat -> thread_ok r t' ->
  consumed t' = consumed t -> advances_head t' = advances_head t -> inv r (<[i := t']> ts).
Proof.
  intros H Hi Ht Ht' Hok Ec Ea. pose proof (consumer_core r ts i t H Hi Ht) as Hco.
  apply (consumer_step r ts i t); try done. by rewrite Ec, Ea.
Qed.

Lemma sent_of_app results v result :
  sent_of (results ++ [(v, result)] : list (T * RingEnqueueResult)) =
  sent_of results ++ (if bool_decide (result = kPublished) then [v] else []).
Proof.
  unfold sent_of. rewrite filter_app, fmap_app. f_equal. rewrite filter_cons, filter_nil. cbn.
  by case_decide; case_bool_decide.
Qed.

Lemma finish_ok r rest results v result :
  published r = sent_of (results ++ [(v, result)]) -> send_ok r rest (results ++ [(v, result)]) SpClosed.
Proof. intros E. destruct rest; cbn; [done|]. split; [by rewrite app_nil_r|done]. Qed.

Lemma slot_state_cursor r p : shape r -> slot_state r (wrap64 p) = Some (ready (slot_of r p)).
Proof. intros H. unfold slot_state. by rewrite slot_at_cursor. Qed.

Lemma store_cursor r p state :
  shape r -> store (wrap64 p) state r = Some (set_slot (wrap64 p) (mkSlot state (storage (slot_of r p))) r).
Proof. intros H. unfold store. by rewrite slot_at_cursor. Qed.

(** A write of the producer to its slot leaves the first slot alone. *)
Lemma first_kept r w c ah cm s :
  core r 0 w c ah cm -> sentN r < doneN r + m_capacity r -> doneN r < sentN r ->
  slot_of (set_slot (wrap64 (sentN r)) s r) (doneN r) = slot_of r (doneN r).
Proof.
  intros H Hn Hl. pose proof (co_range _ _ _ _ _ _ H).
  rewrite (slot_of_write r 0 w c ah cm) by (done || lia). rewrite decide_False by lia. done.
Qed.

Lemma next_kept r a w ah c cm s :
  core r a w c ah cm -> sentN r < doneN r + m_capacity r -> doneN r < sentN r ->
  slot_of (set_slot (wrap64 (doneN r)) s r) (sentN r) = slot_of r (sentN r).
Proof.
  intros H Hn Hl. pose proof (co_range _ _ _ _ _ _ H).
  rewrite (slot_of_write r a w c ah cm) by (done || lia). rewrite decide_False by lia. done.
Qed.

Lemma next_written r w c ah cm s :
  core r 0 w c ah cm -> sentN r < doneN r + m_capacity r -> slot_of (set_slot (wrap64 (sentN r)) s r) (sentN r) = s.
Proof.
  intros H Hn. pose proof (co_range _ _ _ _ _ _ H).
  rewrite (slot_of_write r 0 w c ah cm) by (done || lia). by rewrite decide_True.
Qed.

(** The producer's write to its slot, as a step. *)
Lemma producer_writes r ts i t t' s :
  inv r ts -> ts !! i = Some t -> is_producer t = 1%nat -> is_producer t' = 1%nat -> advances t = 0%nat ->
  advances t' = 0%nat -> committed t' = committed t -> sentN r < doneN r + m_capacity r ->
  (window t' = 0%nat -> s = mkSlot kEmpty None) -> (will_wake t <= will_wake t')%nat ->
  thread_ok (set_slot (wrap64 (sentN r)) s r) t' ->
  inv (set_slot (wrap64 (sentN r)) s r) (<[i := t']> ts).
Proof.
  intros H Hi Ht Ht' Ea Ea' Ec Hn Hw Hk Hok. pose proof (producer_core r ts i t H Hi Ht) as Hco. rewrite Ea in Hco.
  apply (producer_step r ts i t); try done.
  - rewrite Ea'. eapply core_write_next; [done..|]. intros Ha. rewrite Ec. by destruct (co_final _ _ _ _ _ _ Hco Ha) as (_ & _ & ->).
  - intros Hc. split; [done|]. cbn. lia.
  - intros Hl. by eapply first_kept.
Qed.

Lemma send_check r ts i v rest results p r' t' :
  inv r ts -> ts !! i = Some (Producer (v :: rest) results (SpCheck p)) ->
  send_step (v :: rest) results r (SpCheck p) = Some (r', t') -> inv r' (<[i := t']> ts).
Proof.
  intros H Hi E. pose proof (producer_core r ts i _ H Hi eq_refl) as Hco. cbn in Hco.
  destruct (inv_threads _ _ H i _ Hi) as [Hpub ->]. rewrite app_nil_r in Hpub. cbn in E.
  rewrite slot_state_cursor in E by apply Hco. injection E as <- <-.
  pose proof (co_range _ _ _ _ _ _ Hco) as Hr.
  destruct (ready (slot_of r (sentN r))) eqn:Es; (eapply producer_quiet; [done..| |done|done|done|done]).
  - split; [by rewrite app_nil_r|]. split; [done|].
    assert (sentN r < doneN r + m_capacity r) as Hn.
    { destruct (decide (sentN r = doneN r + m_capacity r)) as [En|]; [|lia]. exfalso.
      pose proof (core_capacity _ _ _ _ _ _ Hco). pose proof (spsc_slot_of_same r (sentN r) (doneN r) (co_shape _ _ _ _ _ _ Hco)) as Hs.
      rewrite Hs in Es by (rewrite En; apply same_add; lia).
      destruct (Nat.eq_dec (total consumed ts) 0%nat) as [Hz|Hz].
      - rewrite (co_first _ _ _ _ _ _ Hco) in Es by (done || lia). done.
      - destruct (total_witness consumed ts) as (j & u & Hj & Hu); [lia|].
        destruct u as [|calls received answers [| | | |c q| | | |]| |]; cbn in Hu; try lia.
        destruct (inv_threads _ _ H j _ Hj) as (_ & _ & _ & _ & _ & Eu). by rewrite Eu in Es. }
    split; [done|]. by apply (co_next _ _ _ _ _ _ Hco).
  - apply finish_ok. by rewrite sent_of_app, app_nil_r.
  - apply finish_ok. by rewrite sent_of_app, app_nil_r.
Qed.

Lemma send_ready r ts i v rest results p r' t' :
  inv r ts -> ts !! i = Some (Producer (v :: rest) results (SpReady p)) ->
  send_step (v :: rest) results r (SpReady p) = Some (r', t') -> inv r' (<[i := t']> ts).
Proof.
  intros H Hi E. pose proof (producer_core r ts i _ H Hi eq_refl) as Hco. cbn in Hco.
  destruct (inv_threads _ _ H i _ Hi) as (Hpub & -> & Hn & Es). rewrite app_nil_r in Hpub. cbn in E.
  rewrite store_cursor in E by apply Hco. rewrite Es in E. injection E as <- <-. cbn [storage].
  assert (HN : sentN (publish v (set_slot (wrap64 (sentN r)) (mkSlot kReady (Some v)) r)) = sentN r + 1)
    by exact (sentN_publish v (set_slot (wrap64 (sentN r)) (mkSlot kReady (Some v)) r)).
  apply (producer_step r ts i (Producer (v :: rest) results (SpReady (wrap64 (sentN r))))); try done.
  - by eapply core_publish, Nat.le_refl.
  - split; [cbn; by rewrite Hpub|]. rewrite HN. f_equal. lia.
  - cbn. by apply prefix_app_r.
  - intros Hl. by eapply first_kept.
Qed.

Lemma send_step_inv r ts i values results pc r' t' :
  inv r ts -> ts !! i = Some (Producer values results pc) -> send_step values results r pc = Some (r', t') ->
  inv r' (<[i := t']> ts).
Proof.
  intros H Hi E. destruct values as [|v rest]; [done|].
  pose proof (producer_core r ts i _ H Hi eq_refl) as Hco. pose proof (co_shape _ _ _ _ _ _ Hco) as Hs.
  destruct (inv_threads _ _ H i _ Hi) as [Hpub Hpc].
  destruct pc as [| |p|p|p|p|p|p|p| |]; cbn [send_step] in E; rewrite ?app_nil_r in Hpub.
  - injection E as <- <-. destruct (m_closed r); (eapply producer_quiet; [done..| |done|done|done|done]).
    + apply finish_ok. by rewrite sent_of_app, app_nil_r.
    + cbn. by rewrite app_nil_r.
  - injection E as <- <-. eapply producer_quiet; [done..| |done|done|done|done]. cbn. rewrite app_nil_r.
    split; [done|]. by apply (co_tail _ _ _ _ _ _ Hco).
  - by eapply send_check.
  - destruct Hpc as (-> & Hn & Es). rewrite store_cursor in E by done. rewrite Es in E. injection E as <- <-.
    eapply producer_writes; try done; [cbn; lia|]. split; [by rewrite app_nil_r|]. split; [done|]. split; [done|].
    exact (next_written r _ _ _ _ _ Hco Hn).
  - destruct Hpc as (-> & Hn & Es). injection E as <- <-. destruct (m_closed r) eqn:Ec.
    + eapply producer_quiet; [done..| |done|done|done|done]. cbn. by rewrite app_nil_r.
    + eapply producer_quiet; [done..| |done|done| |done]; [cbn; by rewrite app_nil_r|].
      intros Ha. destruct (co_final _ _ _ _ _ _ Hco Ha). congruence.
  - destruct Hpc as (Hc & -> & Hn & Es). rewrite store_cursor in E by done. rewrite Es in E. injection E as <- <-.
    eapply producer_writes; try done. split; [by rewrite app_nil_r|done].
  - destruct Hpc as (-> & Hn & Es). rewrite slot_at_cursor, Es in E by done. injection E as <- <-.
    eapply producer_writes; try done. split; [by rewrite app_nil_r|]. split; [done|]. split; [done|].
    exact (next_written r _ _ _ _ _ Hco Hn).
  - by eapply send_ready.
  - subst p. injection E as <- <-.
    apply (producer_step r ts i (Producer (v :: rest) results (SpAdvance (wrap64 (sentN r - 1))))); try done.
    by eapply core_set_tail.
  - injection E as <- <-.
    apply (producer_step r ts i (Producer (v :: rest) results SpPublished)); try done.
    + destruct (m_closed r); [by apply core_wake|done].
    + destruct (m_closed r) eqn:Ec; cbn; [intros _; split; [done|lia]|congruence].
    + cbn. destruct (m_closed r); (apply finish_ok; by rewrite sent_of_app, bool_decide_true).
    + by destruct (m_closed r) eqn:Ec.
    + by destruct (m_closed r).
    + by destruct (m_closed r).
    + by destruct (m_closed r).
    + by destruct (m_closed r).
  - injection E as <- <-.
    apply (producer_step r ts i (Producer (v :: rest) results SpClosedAfter)); try done.
    + by apply core_wake.
    + cbn. intros Hc. split; [done|lia].
    + apply finish_ok. by rewrite sent_of_app, app_nil_r.
Qed.

(** ** The steps of the consumer *)

(** A consumer that has to look only at how far it is. *)
Lemma consumer_at r calls received answers pc pc' :
  recv_ok r calls received answers pc -> calls <> [] ->
  match pc with RcRelease _ _ => False | _ => True end ->
  match pc' with
  | RcCheck _ p => p = wrap64 (doneN r)
  | RcConsume _ p => p = wrap64 (doneN r) /\ doneN r < sentN r
  | RcRelease _ _ => False
  | RcAdvance _ p => p = wrap64 (doneN r - 1)
  | RcClosedHead => m_closed r = true
  | RcClosedReady p => m_closed r = true /\ p = wrap64 (doneN r)
  | _ => True
  end -> recv_ok r calls received answers pc'.
Proof.
  intros (_ & Ha & Hr & _) Hc Hpc Hpc'. split; [done|]. split; [done|]. split; [|by destruct pc'].
  by destruct pc, pc'.
Qed.

Lemma consumer_finishes r call rest received answers pc answer :
  recv_ok r (call :: rest) received answers pc -> match pc with RcRelease _ _ => False | _ => True end ->
  (answer = Some true -> answered r = true) ->
  recv_ok r rest received (answers ++ match answer with Some b => [b] | None => [] end) RcCall.
Proof.
  intros (_ & Ha & Hr & _) Hpc Hb. split; [done|]. split; [|split; [by destruct pc|done]].
  intros [Hin|Hin]%elem_of_app; [by apply Ha|]. destruct answer as [[]|]; [auto|by apply list_elem_of_singleton in Hin|].
  by apply not_elem_of_nil in Hin.
Qed.

(** A producer in its window has marked its slot. *)
Lemma window_slot r ts : inv r ts -> (1 <= total window ts)%nat -> ready (slot_of r (sentN r)) = kPublishing.
Proof.
  intros H Hw. destruct (total_witness window ts Hw) as (j & u & Hj & Hu).
  destruct u as [values results pc| | |]; cbn in Hu; try lia. pose proof (inv_threads _ _ H j _ Hj) as Hu'.
  destruct values as [|v values]; [destruct Hu' as [-> _]; lia|]. destruct Hu' as [_ Hu'].
  destruct pc; try lia; destruct_and?; match goal with E : slot_of _ _ = _ |- _ => by rewrite E end.
Qed.

Lemma recv_check r ts i call rest received answers count p r' t' :
  inv r ts -> ts !! i = Some (Consumer (call :: rest) received answers (RcCheck count p)) ->
  recv_step (call :: rest) received answers r (RcCheck count p) = Some (r', t') -> inv r' (<[i := t']> ts).
Proof.
  intros H Hi E. pose proof (consumer_core r ts i _ H Hi eq_refl) as Hco. cbn in Hco.
  pose proof (inv_threads _ _ H i _ Hi) as Hok. pose proof Hok as (_ & _ & _ & ->). cbn in E.
  pose proof (co_range _ _ _ _ _ _ Hco) as Hr. rewrite slot_state_cursor in E by apply Hco. injection E as <- <-.
  destruct (ready (slot_of r (doneN r))) eqn:Es; (eapply consumer_quiet; [done..| |done|done]).
  - rewrite <- (app_nil_r answers). by apply (consumer_finishes r call rest received answers _ None Hok).
  - rewrite <- (app_nil_r answers). by apply (consumer_finishes r call rest received answers _ None Hok).
  - eapply consumer_at; [done..|]. split; [done|].
    destruct (decide (doneN r = sentN r)) as [En|]; [|lia]. exfalso. pose proof (core_capacity _ _ _ _ _ _ Hco).
    rewrite En in Es. destruct (Nat.eq_dec (total window ts) 0%nat) as [Hz|Hz].
    + rewrite (co_next _ _ _ _ _ _ Hco) in Es by (done || lia). done.
    + pose proof (window_slot r ts H ltac:(lia)) as Ew. by rewrite Ew in Es.
Qed.

Lemma recv_consume r ts i call rest received answers count p r' t' :
  inv r ts -> ts !! i = Some (Consumer (call :: rest) received answers (RcConsume count p)) ->
  recv_step (call :: rest) received answers r (RcConsume count p) = Some (r', t') -> inv r' (<[i := t']> ts).
Proof.
  intros H Hi E. pose proof (consumer_core r ts i _ H Hi eq_refl) as Hco. cbn in Hco.
  pose proof (inv_threads _ _ H i _ Hi) as (Hcalls & Ha & Hrec & -> & Hl). cbn in E.
  rewrite slot_at_cursor in E by apply Hco. rewrite (co_first _ _ _ _ _ _ Hco Hl eq_refl) in E.
  assert (exists v, message r (doneN r) = Some v) as [v Ev].
  { apply lookup_lt_is_Some. unfold doneN, sentN in *. lia. }
  rewrite Ev in E. injection E as <- <-.
  apply (consumer_step r ts i (Consumer (call :: rest) received answers (RcConsume count (wrap64 (doneN r))))); try done.
  - by apply core_consume.
  - split; [done|]. split; [done|]. split; [|split; [done|]].
    + cbn. rewrite Nat.add_0_r in Hrec. rewrite Nat.add_1_r, Hrec. symmetry. apply take_S_r. unfold message, doneN in Ev.
      by rewrite Nat2Z.id in Ev.
    + split; [done|]. change (slot_of (set_slot (wrap64 (doneN r)) (mkSlot kReady None) r) (doneN r) = mkSlot kReady None).
      rewrite spsc_slot_of_set by apply Hco. by rewrite decide_True.
  - intros Hn. by eapply next_kept.
Qed.

Lemma recv_release r ts i call rest received answers count p r' t' :
  inv r ts -> ts !! i = Some (Consumer (call :: rest) received answers (RcRelease count p)) ->
  recv_step (call :: rest) received answers r (RcRelease count p) = Some (r', t') -> inv r' (<[i := t']> ts).
Proof.
  intros H Hi E. pose proof (consumer_core r ts i _ H Hi eq_refl) as Hco. cbn in Hco.
  pose proof (inv_threads _ _ H i _ Hi) as (Hcalls & Ha & Hrec & -> & Hl & Es). cbn in E.
  rewrite store_cursor in E by apply Hco. rewrite Es in E. injection E as <- <-. cbn [storage].
  set (r1 := release _). assert (HK : doneN r1 = doneN r + 1) by (unfold doneN, r1; cbn; lia).
  apply (consumer_step r ts i (Consumer (call :: rest) received answers (RcRelease count (wrap64 (doneN r))))); try done.
  - by apply core_release.
  - split; [done|]. split; [done|]. split; [cbn; by rewrite Nat.add_0_r, <- Nat.add_1_r|]. rewrite HK. f_equal. lia.
  - lia.
  - intros Hn. by eapply next_kept.
Qed.

Lemma recv_closed_ready r ts i call rest received answers p r' t' :
  inv r ts -> ts !! i = Some (Consumer (call :: rest) received answers (RcClosedReady p)) ->
  recv_step (call :: rest) received answers r (RcClosedReady p) = Some (r', t') -> inv r' (<[i := t']> ts).
Proof.
  intros H Hi E. pose proof (consumer_core r ts i _ H Hi eq_refl) as Hco. cbn in Hco.
  pose proof (inv_threads _ _ H i _ Hi) as Hok. pose proof Hok as (_ & Ha & _ & Hcl & ->). cbn in E.
  rewrite slot_state_cursor in E by apply Hco. injection E as <- <-.
  pose proof (co_range _ _ _ _ _ _ Hco) as Hr. pose proof (core_capacity _ _ _ _ _ _ Hco).
  apply (consumer_step r ts i (Consumer (call :: rest) received answers (RcClosedReady (wrap64 (doneN r))))); try done; try lia.
  - apply core_answer; [done|]. intros Es%bool_decide_eq_true. split; [done|].
    assert (doneN r = sentN r) as En.
    { destruct (decide (doneN r = sentN r)) as [|]; [done|]. rewrite (co_first _ _ _ _ _ _ Hco) in Es by (done || lia). done. }
    split; [done|]. destruct (Nat.eq_dec (total committed ts) 0%nat) as [|Hz]; [done|].
    pose proof (total_le committed window ts) as Hle. rewrite En, (window_slot r ts H) in Es; [done|].
    specialize (Hle ltac:(intros [? ? []| | |]; cbn; lia)). lia.
  - apply (consumer_finishes _ call rest received answers (RcClosedReady (wrap64 (doneN r)))
      (Some (bool_decide (ready (slot_of r (doneN r)) = kEmpty)))); [|done|].
    + destruct Hok as (Hc & _ & Hrest). split; [done|]. split; [|exact Hrest]. intros Hin. cbn. rewrite Ha by done.
      by rewrite orb_true_r.
    + intros [= ->]. done.
Qed.

Lemma recv_step_inv r ts i calls received answers pc r' t' :
  inv r ts -> ts !! i = Some (Consumer calls received answers pc) ->
  recv_step calls received answers r pc = Some (r', t') -> inv r' (<[i := t']> ts).
Proof.
  intros H Hi E. destruct calls as [|call rest]; [done|].
  pose proof (consumer_core r ts i _ H Hi eq_refl) as Hco. pose proof (inv_threads _ _ H i _ Hi) as Hok.
  destruct pc as [|[|count]|count p|count p|count p|count p| | |p]; cbn [recv_step] in E.
  - injection E as <- <-. eapply consumer_quiet; [done..| |by destruct call|by destruct call].
    eapply consumer_at; [done..|]. by destruct call.
  - injection E as <- <-. eapply consumer_quiet; [done..| |done|done].
    rewrite <- (app_nil_r answers). by apply (consumer_finishes r call rest received answers _ None Hok).
  - injection E as <- <-. eapply consumer_quiet; [done..| |done|done]. eapply consumer_at; [done..|].
    by apply (co_head _ _ _ _ _ _ Hco).
  - by eapply recv_check.
  - by eapply recv_consume.
  - by eapply recv_release.
  - pose proof Hok as (Hc & Ha & Hr & ->). injection E as <- <-.
    apply (consumer_step r ts i (Consumer (call :: rest) received answers (RcAdvance count (wrap64 (doneN r - 1))))); try done.
    by eapply core_set_head.
  - injection E as <- <-. destruct (m_closed r) eqn:Ec; (eapply consumer_quiet; [done..| |done|done]).
    + eapply consumer_at; [done..|]. done.
    + by apply (consumer_finishes r call rest received answers _ (Some false) Hok).
  - injection E as <- <-. eapply consumer_quiet; [done..| |done|done]. eapply consumer_at; [done..|].
    split; [apply Hok|by apply (co_head _ _ _ _ _ _ Hco)].
  - by eapply recv_closed_ready.
Qed.

(** ** [close] *)

(** The state of every slot follows from where it is: a slot marked as publishing is the producer's. *)
Lemma publishing_window r ts index slot :
  inv r ts -> m_slots r !! index = Some slot -> ready slot = kPublishing -> (1 <= total window ts)%nat.
Proof.
  intros H Hs Hp. pose proof (inv_core _ _ H) as Hco. pose proof (core_capacity _ _ _ _ _ _ Hco) as Hc.
  pose proof (co_range _ _ _ _ _ _ Hco) as Hr. destruct (Nat.eq_dec (total window ts) 0%nat) as [Hz|]; [exfalso|lia].
  set (c := m_capacity r) in *. set (q := doneN r + (Z.of_nat index - doneN r) mod c).
  pose proof (Z.mod_pos_bound (Z.of_nat index - doneN r) c ltac:(lia)).
  assert (Hi : (index < Z.to_nat c)%nat).
  { unfold c. rewrite <- (sh_length r (co_shape _ _ _ _ _ _ Hco)). by eapply lookup_lt_Some. }
  assert (Hq : q mod c = Z.of_nat index).
  { unfold q. rewrite Z.add_mod_idemp_r by lia. replace (doneN r + _) with (Z.of_nat index) by lia. apply Z.mod_small. lia. }
  assert (Eq : slot_of r q = slot).
  { unfold slot_of, slot_at. rewrite spsc_slot_index_mod by apply Hco. fold c. by rewrite Hq, Nat2Z.id, Hs. }
  rewrite <- Eq in Hp. destruct (decide (q < sentN r)) as [Hlt|].
  - destruct (decide (q = doneN r)) as [->|]; [|rewrite (co_live _ _ _ _ _ _ Hco) in Hp by lia; done].
    destruct (Nat.eq_dec (total consumed ts) 0%nat) as [Hz'|]; [by rewrite (co_first _ _ _ _ _ _ Hco) in Hp by done|].
    destruct (total_witness consumed ts) as (j & u & Hj & Hu); [lia|].
    destruct u as [|calls received answers [| | | |k p| | | |]| |]; cbn in Hu; try lia.
    destruct (inv_threads _ _ H j _ Hj) as (_ & _ & _ & _ & _ & Eu). by rewrite Eu in Hp.
  - destruct (decide (q = sentN r)) as [E|]; [|rewrite (co_free _ _ _ _ _ _ Hco) in Hp by lia; done].
    rewrite E, (co_next _ _ _ _ _ _ Hco) in Hp by (done || lia). done.
Qed.

Lemma closer_step_inv r ts i pc r' pc' :
  inv r ts -> ts !! i = Some (Closer pc) -> thread_ok r' (Closer pc') ->
  (forall a w c ah cm, core r a w c ah cm -> core r' a w c ah cm) ->
  (m_closed r' = true -> (1 <= recv_wakes r' + total will_wake (<[i := Closer pc']> ts))%nat) ->
  (m_closed r = true -> m_closed r' = true) -> published r' = published r -> released r' = released r ->
  m_capacity r' = m_capacity r -> (forall p, slot_of r' p = slot_of r p) -> answered r' = answered r ->
  inv r' (<[i := Closer pc']> ts).
Proof.
  intros H Hi Hok Hco Hw Hcl Ep Er Ec Es Ea.
  assert (forall w : thread T -> nat, w (Closer pc') = w (Closer pc) -> total w (<[i := Closer pc']> ts) = total w ts) as Hsame
    by (intros w; by apply total_same).
  split.
  - rewrite (Hsame advances), (Hsame window), (Hsame consumed), (Hsame advances_head), (Hsame committed) by done.
    apply Hco, H.
  - done.
  - rewrite Hsame by done. apply H.
  - rewrite Hsame by done. apply H.
  - apply (threads_insert r ts i (Closer pc) _ r' H Hi Hok). intros j u _ _. apply spsc_thread_ok_frame; [apply (inv_core _ _ H)|done|..].
    + intros _. rewrite Ep, Ec. split; [done|]. split; [unfold doneN; lia|]. by split.
    + intros _. rewrite Er, Ep, Ea. by split_and!.
Qed.

Lemma close_step_inv r ts i pc r' t' :
  inv r ts -> ts !! i = Some (Closer pc) -> close_step r pc = Some (r', t') -> inv r' (<[i := t']> ts).
Proof.
  intros H Hi E. pose proof (inv_threads _ _ H i _ Hi) as Hok. destruct pc as [|index| |]; cbn [close_step] in E; [..|done].
  - injection E as <- <-. eapply closer_step_inv; try done.
    + by destruct (m_closed r).
    + intros *. by apply core_set_closed.
    + intros _. cbn. set (pc' := if m_closed r then ClReturn else ClScan 0). pose proof (total_insert will_wake ts i _ (Closer pc') Hi).
      pose proof (inv_wakes _ _ H) as Hw. unfold pc' in *. destruct (m_closed r); cbn in *; [specialize (Hw eq_refl)|]; lia.
  - destruct (Nat.ltb_spec index (Z.to_nat (m_capacity r))) as [Hlt|].
    + destruct (m_slots r !! index) as [slot|] eqn:Es.
      2:{ apply lookup_ge_None in Es. rewrite (sh_length r (co_shape _ _ _ _ _ _ (inv_core _ _ H))) in Es. lia. }
      injection E as <- <-. case_bool_decide as Hp; (eapply closer_step_inv; try done); intros Hc; cbn.
      * pose proof (publishing_window r ts index slot H Es Hp) as Hw. pose proof (total_insert will_wake ts i _ (Closer ClReturn) Hi). cbn in *.
        pose proof (total_le window will_wake (<[i := Closer ClReturn]> ts)) as Hle.
        rewrite (total_same window ts i _ (Closer ClReturn) Hi eq_refl) in Hle.
        specialize (Hle ltac:(intros [? ? []| | |]; cbn; lia)). lia.
      * pose proof (inv_wakes _ _ H Hc). pose proof (total_insert will_wake ts i _ (Closer (ClScan (S index))) Hi). cbn in *. lia.
    + injection E as <- <-. eapply closer_step_inv; try done. intros Hc.
      pose proof (inv_wakes _ _ H Hc). pose proof (total_insert will_wake ts i _ (Closer ClWake) Hi). cbn in *. lia.
  - injection E as <- <-. eapply closer_step_inv; try done.
    + intros *. by apply core_wake.
    + intros Hc. cbn. lia.
Qed.

Lemma spsc_inv_step cfg cfg' : inv cfg.1 cfg.2 -> step cfg cfg' -> inv cfg'.1 cfg'.2.
Proof.
  intros H Hs. destruct Hs as [c i r ts t r' t' Hi E]. cbn in *. destruct t; cbn in E; [..|done].
  - by eapply send_step_inv.
  - by eapply recv_step_inv.
  - by eapply close_step_inv.
Qed.

(** ** What is reachable from a new channel *)

Lemma spsc_normalizeCapacity_ok slot_size capacity :
  normalizeCapacity slot_size capacity <> 0 -> capacity_ok 63 (normalizeCapacity slot_size capacity).
Proof.
  unfold normalizeCapacity, kMaxRingCapacity. change kMaxCursorCapacity with (2 ^ 63).
  set (top := if 2 ^ 63 <? kMaxArrayCapacity slot_size then 2 ^ 63 else kMaxArrayCapacity slot_size).
  assert (top <= 2 ^ 63) as Ht by (unfold top; destruct (Z.ltb_spec (2 ^ 63) (kMaxArrayCapacity slot_size)); lia).
  destruct (Z.ltb_spec top 2); [done|]. destruct (Z.leb_spec capacity 2); [by exists 1|].
  destruct (Z.ltb_spec top capacity); [done|]. intros _. exists (Z.log2_up capacity). split; [|done].
  split; [apply (Z.log2_up_le_mono 2 capacity); lia|]. apply Z.log2_up_le_pow2; lia.
Qed.

Definition begins t : Prop :=
  match t with Producer _ [] SpClosed | Consumer _ [] [] RcCall | Closer ClExchange => True | _ => False end.

(** One producer and one consumer at most, and any number of closes. *)
Definition one_each ts : Prop := (total is_producer ts <= 1)%nat /\ (total is_consumer ts <= 1)%nat.

Lemma empty_ring_core capacity : capacity_ok 63 capacity -> core (empty_ring (T := T) capacity) 0 0 0 0 0.
Proof.
  intros Hc. pose proof (capacity_bounds _ _ Hc) as Hb. assert (shape (empty_ring (T := T) capacity)) as Hs.
  { split; [done|done|]. cbn. by rewrite length_replicate. }
  assert (forall p, slot_of (empty_ring (T := T) capacity) p = mkSlot kEmpty None) as Hslot.
  { intros p. pose proof (spsc_slot_at_some _ p Hs) as E. unfold slot_at in E. cbn in E. by apply lookup_replicate in E as [-> _]. }
  split; change (sentN (empty_ring capacity)) with 0; change (doneN (empty_ring capacity)) with 0; cbn; try done; try lia; auto.
Qed.

Lemma spsc_begins_ok r t : published r = [] -> released r = 0%nat -> begins t -> thread_ok r t.
Proof.
  intros Hp Hr. destruct t as [[|v values] [] []|calls [] [] []|[]|]; try done; intros _; cbn; rewrite ?Hp; try done.
  split; [done|]. split; [by intros ?%not_elem_of_nil|]. by rewrite Hr, Hp.
Qed.

Lemma begins_inv capacity calls :
  capacity_ok 63 capacity -> Forall begins calls -> one_each calls -> inv (empty_ring capacity) calls.
Proof.
  intros Hc Hb [Hp Hn]. assert (Hz : forall w : thread T -> nat, (forall t, begins t -> w t = 0%nat) -> total w calls = 0%nat).
  { intros w Hw. apply total_zero. eapply Forall_impl; [exact Hb|exact Hw]. }
  split; [|done|done|done|].
  - rewrite !Hz by (by intros [? [] []|? [] [] []|[]|]). by apply empty_ring_core.
  - intros i t Hi. apply spsc_begins_ok; [done..|]. by eapply Forall_lookup_1.
Qed.

Definition reachable (slot_size capacity : Z) (allocated : bool) (calls : list (thread T)) r ts : Prop :=
  Forall begins calls /\ one_each calls /\
  exists e r0, new_channel slot_size capacity allocated = (e, Some r0) /\ rtc step (r0, calls) (r, ts).

Lemma new_channel_some slot_size capacity allocated e (r0 : ring T) :
  new_channel slot_size capacity allocated = (e, Some r0) ->
  e = kNone /\ r0 = empty_ring (normalizeCapacity slot_size capacity) /\
  capacity_ok 63 (normalizeCapacity slot_size capacity).
Proof.
  unfold new_channel. destruct (Z.eqb_spec (normalizeCapacity slot_size capacity) 0) as [|Hn]; [done|].
  destruct (negb allocated); [done|]. intros [= <- <-]. split; [done|]. split; [done|]. by apply spsc_normalizeCapacity_ok.
Qed.

Lemma spsc_steps_inv cfg cfg' : inv cfg.1 cfg.2 -> rtc step cfg cfg' -> inv cfg'.1 cfg'.2.
Proof. intros H. apply (reachable_invariant step (fun cfg => inv cfg.1 cfg.2)); [done|]. by intros; eapply spsc_inv_step. Qed.

Lemma spsc_reachable_inv slot_size capacity allocated calls r ts :
  reachable slot_size capacity allocated calls r ts -> inv r ts.
Proof.
  intros (Hb & Ho & e & r0 & (_ & -> & Hc)%new_channel_some & Hs). apply (spsc_steps_inv _ (r, ts)) in Hs; [done|].
  by apply begins_inv.
Qed.

Lemma received_prefix r ts i calls received answers pc :
  inv r ts -> ts !! i = Some (Consumer calls received answers pc) ->
  received `prefix_of` published r /\ doneN r <= Z.of_nat (length received).
Proof.
  intros H Hi. destruct (inv_threads _ _ H i _ Hi) as (_ & _ & -> & _). pose proof (co_range _ _ _ _ _ _ (inv_core _ _ H)).
  split; [by exists (drop (released r + match pc with RcRelease _ _ => 1 | _ => 0 end) (published r)); rewrite take_drop|].
  rewrite length_take. unfold doneN, sentN in *. lia.
Qed.

(** C12: With one producer and one consumer, and any number of concurrent closes, the messages come out as
    they went in: no call touches a slot without a message or with one already there; what was published
    is what the producer's successful sends carried, in their order, up to the send it is at; what the
    consumer has is a prefix of that; and at most a capacity of messages is waiting. *)
Theorem spsc_delivers_in_order slot_size capacity allocated calls r ts :
  reachable slot_size capacity allocated calls r ts ->
  ~ Undefined ∈ ts /\
  (forall i values results pc, ts !! i = Some (Producer values results pc) ->
     sent_of results `prefix_of` published r /\ (length (published r) <= length (sent_of results) + 1)%nat /\
     (values = [] -> published r = sent_of results)) /\
  (forall i calls received answers pc, ts !! i = Some (Consumer calls received answers pc) ->
     received `prefix_of` published r /\
     Z.of_nat (length (published r)) <= Z.of_nat (length received) + m_capacity r).
Proof.
  intros H%spsc_reachable_inv. split; [|split].
  - intros [i Hi]%list_elem_of_lookup. exact (inv_threads _ _ H i _ Hi).
  - intros i values results pc Hi. pose proof (inv_threads _ _ H i _ Hi) as Hok. destruct values as [|v values].
    + destruct Hok as [_ ->]. split; [done|]. split; [lia|done].
    + destruct Hok as [-> _]. split; [by apply prefix_app_r|]. split; [|done]. rewrite length_app. destruct pc; cbn; lia.
  - intros i calls' received answers pc Hi. destruct (received_prefix r ts i _ _ _ _ H Hi) as [Hp Hl]. split; [done|].
    pose proof (co_range _ _ _ _ _ _ (inv_core _ _ H)). unfold sentN in *. lia.
Qed.

(** The refusals are exact: a send that finds its slot taken is refused with a capacity of messages
    published and not given back, and a receive that finds nothing has had everything published. *)
Theorem spsc_refusals_exact slot_size capacity allocated calls r ts i t r' t' :
  reachable slot_size capacity allocated calls r ts -> ts !! i = Some t -> thread_step tt r t = Some (r', t') ->
  match t, t' with
  | Producer _ _ (SpCheck _), Producer _ _ SpClosed => sentN r = doneN r + m_capacity r
  | Consumer _ _ _ (RcCheck _ _), Consumer _ _ _ RcCall => doneN r = sentN r
  | _, _ => True
  end.
Proof.
  intros H%spsc_reachable_inv Hi E. pose proof (inv_threads _ _ H i _ Hi) as Hok.
  destruct t as [[|v values] results []|[|call calls'] received answers []|pc|]; try done; cbn in E.
  - destruct Hok as [_ ->]. pose proof (producer_core r ts i _ H Hi eq_refl) as Hco. cbn in Hco.
    rewrite slot_state_cursor in E by apply Hco. pose proof (co_range _ _ _ _ _ _ Hco).
    destruct (decide (sentN r = doneN r + m_capacity r)) as [|Hn].
    + by injection E as <- <-; destruct (ready _).
    + rewrite (co_next _ _ _ _ _ _ Hco) in E by (done || lia). by injection E as <- <-.
  - destruct Hok as (_ & _ & _ & ->). pose proof (consumer_core r ts i _ H Hi eq_refl) as Hco. cbn in Hco.
    rewrite slot_state_cursor in E by apply Hco. pose proof (co_range _ _ _ _ _ _ Hco).
    destruct (decide (doneN r = sentN r)) as [|Hn].
    + by injection E as <- <-; destruct (ready _).
    + rewrite (co_first _ _ _ _ _ _ Hco) in E by (done || lia). by injection E as <- <-.
Qed.

(** ** Closing *)

Lemma store_keeps r p state r' :
  store p state r = Some r' -> answered r' = answered r /\ published r' = published r.
Proof. unfold store. destruct (slot_at r p); [|done]. by intros [= <-]. Qed.

Lemma send_keeps r values results pc r' t' :
  send_step values results r pc = Some (r', t') -> committed (Producer values results pc) = 0%nat ->
  answered r' = answered r /\ published r' = published r.
Proof.
  destruct values as [|v values]; [done|]. intros E Hc. destruct pc; cbn in E; try done.
  - by injection E as <- <-.
  - by injection E as <- <-.
  - by injection E as <- <-.
  - destruct (store _ _ r) eqn:Es; injection E as <- <-; [by eapply store_keeps|done].
  - by injection E as <- <-.
  - destruct (store _ _ r) eqn:Es; injection E as <- <-; [by eapply store_keeps|done].
  - by injection E as <- <-.
  - injection E as <- <-. by destruct (m_closed r).
  - by injection E as <- <-.
Qed.

Lemma recv_keeps r calls received answers pc r' t' :
  recv_step calls received answers r pc = Some (r', t') ->
  (answered r = true -> answered r' = true) /\ published r' = published r.
Proof.
  destruct calls as [|call calls]; [done|]. intros E. destruct pc as [|[|n]| | | | | | |]; cbn in E.
  - by injection E as <- <-.
  - by injection E as <- <-.
  - by injection E as <- <-.
  - by injection E as <- <-.
  - destruct (slot_at r _) as [[st [v|]]|]; by injection E as <- <-.
  - destruct (store _ _ r) eqn:Es; injection E as <- <-; [|done]. cbn. by destruct (store_keeps _ _ _ _ Es) as [-> ->].
  - by injection E as <- <-.
  - by injection E as <- <-.
  - by injection E as <- <-.
  - destruct (slot_state r _); injection E as <- <-; [|done]. cbn. split; [|done]. intros ->. by rewrite orb_true_r.
Qed.

Lemma answered_step cfg cfg' :
  inv cfg.1 cfg.2 -> answered cfg.1 = true -> step cfg cfg' ->
  answered cfg'.1 = true /\ published cfg'.1 = published cfg.1.
Proof.
  intros H Ha Hs. destruct Hs as [c i r ts t r' t' Hi E]. cbn in *. destruct t as [values results pc| |pc|]; cbn in E; [..|done].
  - pose proof (producer_core r ts i _ H Hi eq_refl) as Hco.
    destruct (send_keeps _ _ _ _ _ _ E) as [Ea Ep]; [apply (co_final _ _ _ _ _ _ Hco Ha)|]. by rewrite Ea.
  - destruct (recv_keeps _ _ _ _ _ _ _ E) as [Ea Ep]. auto.
  - destruct pc; cbn in E; [by injection E as <- <-..|done].
Qed.

(** C11: When [isReceiveClosed] has answered yes, that is final: the channel is closed, the consumer has
    received every message, and none will ever be published again, whatever the producer was doing. *)
Theorem receive_closed_is_final slot_size capacity allocated calls r ts r' ts' i calls' received answers pc :
  reachable slot_size capacity allocated calls r ts -> rtc step (r, ts) (r', ts') ->
  ts !! i = Some (Consumer calls' received answers pc) -> true ∈ answers ->
  m_closed r = true /\ received = published r /\ published r' = published r.
Proof.
  intros H%spsc_reachable_inv Hs Hi Hin. pose proof (inv_threads _ _ H i _ Hi) as (_ & Ha & _ & _).
  destruct (co_final _ _ _ _ _ _ (inv_core _ _ H) (Ha Hin)) as (Hc & Hd & _). split; [done|]. split.
  - destruct (received_prefix r ts i _ _ _ _ H Hi) as [[l Hl] Hlen]. rewrite Hl.
    destruct l as [|x l]; [by rewrite app_nil_r|]. exfalso. unfold doneN, sentN in *. rewrite Hl, length_app in *. cbn in *. lia.
  - enough (inv (r', ts').1 (r', ts').2 /\ answered (r', ts').1 = true /\ published (r', ts').1 = published r) by tauto.
    revert Hs. apply (reachable_invariant step (fun cfg => inv cfg.1 cfg.2 /\ answered cfg.1 = true /\ published cfg.1 = published r)).
    + split_and!; [done|by apply Ha|done].
    + intros x y (Hx & Hax & Ep) Hxy. destruct (answered_step x y Hx Hax Hxy) as [Ha' Ep']. split_and!; [by eapply spsc_inv_step|done|congruence].
Qed.

(** A close is not lost on the receivers: when every call has returned on a channel that was closed,
    someone has woken the receivers after the closing, the close itself or the send that was under way. *)
Theorem close_wakes_receivers slot_size capacity allocated calls r ts :
  reachable slot_size capacity allocated calls r ts -> Forall (fun t => returned t = true) ts ->
  m_closed r = true -> (1 <= recv_wakes r)%nat.
Proof.
  intros H%spsc_reachable_inv Hr Hc. pose proof (inv_wakes _ _ H Hc) as Hw.
  enough (total will_wake ts = 0%nat) by lia. apply total_zero, Forall_forall. intros t Ht.
  rewrite Forall_forall in Hr. pose proof (Hr t Ht) as E. apply list_elem_of_lookup in Ht as [i Hi].
  pose proof (inv_threads _ _ H i t Hi) as Hok.
  destruct t as [[|v values] results pc|calls' received answers pc|[]|]; try done. by destruct Hok as [-> _].
Qed.

(** [size] is exact when neither side is between its slot and its cursor. *)
Lemma spsc_size_exact r w c cm : core r 0 w c 0 cm -> size r (m_tail r) (m_head r) = sentN r - doneN r.
Proof.
  intros H. pose proof (co_range _ _ _ _ _ _ H). pose proof (core_capacity _ _ _ _ _ _ H).
  unfold size. rewrite (co_tail _ _ _ _ _ _ H eq_refl), (co_head _ _ _ _ _ _ H eq_refl).
  assert (wrap64 (wrap64 (sentN r) - wrap64 (doneN r)) = sentN r - doneN r) as ->.
  { unfold wrap64. rewrite <- Zminus_mod. apply Z.mod_small. lia. }
  cbv zeta. destruct (Z.ltb_spec (sentN r - doneN r) (m_capacity r)); lia.
Qed.

(** ** Every call returns, whatever the others do *)

Definition send_left (pc : send_pc) : nat :=
  match pc with
  | SpClosed => 10 | SpTail => 9 | SpCheck _ => 8 | SpPublishing _ => 7 | SpRecheck _ => 6 | SpAbort _ => 2
  | SpConstruct _ => 5 | SpReady _ => 4 | SpAdvance _ => 3 | SpPublished | SpClosedAfter => 1
  end.

Definition call_steps (call : recv_call) : nat :=
  match call with RecvBatch count => 5 * count + 2 | ReceiveClosed => 4 end.

Definition recv_left (call : recv_call) (pc : recv_pc) : nat :=
  match pc with
  | RcCall => call_steps call
  | RcHead count => 5 * count + 1
  | RcCheck count _ => 5 * (count - 1) + 5
  | RcConsume count _ => 5 * (count - 1) + 4
  | RcRelease count _ => 5 * (count - 1) + 3
  | RcAdvance count _ => 5 * (count - 1) + 2
  | RcClosed => 3
  | RcClosedHead => 2
  | RcClosedReady _ => 1
  end.

(** A bound of the steps a thread still takes, whatever the others do. *)
Definition steps_left (capacity : Z) t : nat :=
  match t with
  | Producer [] _ _ => 0
  | Producer (_ :: rest) _ pc => send_left pc + 10 * length rest
  | Consumer [] _ _ _ => 0
  | Consumer (call :: rest) _ _ pc => recv_left call pc + sum_list_with call_steps rest
  | Closer ClExchange => Z.to_nat capacity + 3
  | Closer (ClScan index) => Z.to_nat capacity - index + 2
  | Closer ClWake => 1
  | Closer ClReturn => 0
  | Undefined => 0
  end.

Lemma store_capacity r p state r' : store p state r = Some r' -> m_capacity r' = m_capacity r.
Proof. unfold store. destruct (slot_at r p); [|done]. by intros [= <-]. Qed.

Lemma send_less r values results pc r' t' :
  send_step values results r pc = Some (r', t') ->
  m_capacity r' = m_capacity r /\
  (steps_left (m_capacity r) t' < steps_left (m_capacity r) (Producer values results pc))%nat.
Proof.
  destruct values as [|v values]; [done|]. intros E.
  assert (forall results, steps_left (m_capacity r) (Producer (T := T) values results SpClosed) = 10 * length values)%nat as Hf
    by (intros; destruct values; cbn; lia).
  destruct pc; cbn in E; repeat match type of E with context [match ?x with _ => _ end] => destruct x eqn:? end;
    injection E as <- <-; (split; [done || (cbn; by eapply store_capacity)|]); rewrite ?Hf; cbn; lia.
Qed.

Lemma recv_less r calls received answers pc r' t' :
  recv_step calls received answers r pc = Some (r', t') ->
  m_capacity r' = m_capacity r /\
  (steps_left (m_capacity r) t' < steps_left (m_capacity r) (Consumer calls received answers pc))%nat.
Proof.
  destruct calls as [|call calls]; [done|]. intros E.
  assert (forall received answers, steps_left (m_capacity r) (Consumer (T := T) calls received answers RcCall) =
    sum_list_with call_steps calls) as Hf by (intros; destruct calls; reflexivity).
  destruct pc as [|[|n]| | | | | | |]; cbn in E;
    repeat match type of E with context [match ?x with _ => _ end] => destruct x eqn:? end;
    injection E as <- <-; (split; [done || (cbn; by eapply store_capacity)|]); rewrite ?Hf; cbn; lia.
Qed.

Lemma step_less r t r' t' :
  thread_step tt r t = Some (r', t') ->
  m_capacity r' = m_capacity r /\ (steps_left (m_capacity r) t' < steps_left (m_capacity r) t)%nat.
Proof.
  destruct t as [values results pc|calls received answers pc|pc|]; intros E; unfold thread_step, channel_step in E.
  - by apply send_less.
  - by apply recv_less.
  - destruct pc as [|index| |]; cbn [close_step] in E; [..|done].
    + injection E as <- <-. split; [done|]. destruct (m_closed r); cbn; lia.
    + injection E as <- <-. split; [done|]. destruct (Nat.ltb_spec index (Z.to_nat (m_capacity r))); [|cbn [steps_left]; lia].
      destruct (m_slots r !! index); [|cbn [steps_left]; lia]. case_bool_decide; cbn [steps_left]; lia.
    + injection E as <- <-. split; [done|]. cbn [steps_left]. lia.
  - done.
Qed.

Lemma can_step r ts i t : inv r ts -> ts !! i = Some t -> returned t = false -> is_Some (thread_step tt r t).
Proof.
  intros H Hi Hr. destruct t as [values results pc|calls received answers pc|pc|].
  - destruct values; [done|]. destruct pc; cbn; by eexists.
  - destruct calls; [done|]. destruct pc as [|[|n]| | | | | | |]; cbn; by eexists.
  - destruct pc; [..|done]; cbn; by eexists.
  - destruct (inv_threads _ _ H i _ Hi).
Qed.

(** The channel is wait-free: in any schedule a thread takes no more steps than the calls it has left
    account for, ten for a send, five for each message of a batch and two, four for the closed test, and
    three and one for each slot for a close, however the others' steps fall; and until it has returned it
    can always take its next step. *)
Theorem spsc_wait_free slot_size capacity allocated calls r ts schedule r' ts' i t :
  reachable slot_size capacity allocated calls r ts -> exec schedule (r, ts) = Some (r', ts') -> ts !! i = Some t ->
  exists t', ts' !! i = Some t' /\
    (length (filter (fun k => k.1 = i) schedule) + steps_left (m_capacity r) t' <= steps_left (m_capacity r) t)%nat /\
    (returned t' = false -> is_Some (thread_step tt r' t')).
Proof.
  intros H%spsc_reachable_inv Hx Hi.
  enough (exists t', ts' !! i = Some t' /\
    (length (filter (fun k => k.1 = i) schedule) + steps_left (m_capacity r) t' <= steps_left (m_capacity r) t)%nat)
    as (t' & Ht' & Hl).
  { exists t'. split; [done|]. split; [done|]. apply (can_step r' ts' i); [|done].
    apply exec_sound in Hx. by apply (spsc_steps_inv (r, ts) (r', ts')). }
  clear H. revert r ts t Hx Hi. induction schedule as [|[j []] schedule IH]; intros r ts t Hx Hi; cbn [exec] in Hx.
  { injection Hx as <- <-. exists t. split; [done|cbn; lia]. }
  unfold exec_step in Hx. cbn in Hx. destruct (ts !! j) as [u|] eqn:Hj; [|done].
  destruct (thread_step tt r u) as [[r1 u']|] eqn:E; [|done]. destruct (step_less r u r1 u' E) as [Ec Hl].
  rewrite filter_cons. destruct (decide (j = i)) as [-> |Hn].
  - rewrite decide_True by done. rewrite Hi in Hj. injection Hj as <-.
    destruct (IH r1 (<[i := u']> ts) u' Hx) as (t' & Ht' & Hle).
    { apply list_lookup_insert_eq. by eapply lookup_lt_Some. }
    exists t'. split; [done|]. rewrite Ec in Hle. cbn. lia.
  - rewrite decide_False by done. destruct (IH r1 (<[j := u']> ts) t Hx) as (t' & Ht' & Hle).
    { by rewrite list_lookup_insert_ne by done. }
    exists t'. split; [done|]. by rewrite Ec in Hle.
Qed.
End Invariant.
#[global] Arguments slot_of : simpl never.

(** ** A run: three sends into two slots, a close, and a consumer that drains *)

Definition sample_calls : list (thread nat) :=
  [Producer [7; 8; 9]%nat [] SpClosed; Consumer [RecvBatch 3; ReceiveClosed] [] [] RcCall; Closer ClExchange].

Lemma spsc_sample_begins : Forall begins sample_calls.
Proof. repeat constructor. Qed.

Definition run (schedule : list (nat * unit)) : ring nat * list (thread nat) :=
  default (empty_ring 2, sample_calls) (exec schedule (empty_ring 2, sample_calls)).

Lemma run_steps schedule : rtc step (empty_ring 2, sample_calls) ((run schedule).1, (run schedule).2).
Proof.
  unfold run. destruct (exec schedule (empty_ring 2, sample_calls)) as [cfg|] eqn:E; cbn; [|apply rtc_refl].
  rewrite <- surjective_pairing. by eapply exec_sound.
Qed.

Lemma spsc_run_reachable schedule : reachable 16 2 true sample_calls (run schedule).1 (run schedule).2.
Proof.
  split; [apply spsc_sample_begins|]. split; [by split; vm_compute; lia|]. exists kNone, (empty_ring 2).
  split; [by vm_compute|apply run_steps].
Qed.

Definition steps (ks : list nat) : list (nat * unit) := (fun i => (i, tt)) <$> ks.

(** The first send and the second, the third as far as its mark, then the close, which finds the mark. *)
Definition sample_schedule : list (nat * unit) :=
  steps (replicate 9 0 ++ replicate 7 1 ++ replicate 9 0 ++ replicate 4 0 ++ [2; 2] ++ replicate 3 0 ++
         replicate 10 1)%nat.

Example sample_end :
  let cfg := run sample_schedule in
  (published cfg.1, m_closed cfg.1, recv_wakes cfg.1,
   (fun t => match t with
             | Producer values results _ => (values, results.*2, [])
             | Consumer _ received answers _ => (received, [], answers)
             | _ => ([], [], [])
             end) <$> cfg.2, forallb returned cfg.2) =
  ([7; 8]%nat, true, 1%nat,
   [([], [kPublished; kPublished; kClosedAfterPublishing], []); ([7; 8]%nat, [], [true]); ([], [], [])], true).
Proof. vm_compute. reflexivity. Qed.

Lemma spsc_delivers_in_order_witness :
  let cfg := run sample_schedule in ~ Undefined ∈ cfg.2 /\ published cfg.1 = [7; 8]%nat.
Proof.
  destruct (spsc_delivers_in_order 16 2 true sample_calls _ _ (spsc_run_reachable sample_schedule)) as (Hu & Hp & _).
  split; [exact Hu|].
  destruct (Hp 0%nat [] [(7, kPublished); (8, kPublished); (9, kClosedAfterPublishing)]%nat SpClosed
    ltac:(vm_compute; reflexivity)) as (_ & _ & E). rewrite (E eq_refl). vm_compute. reflexivity.
Defined.

(** The slots are full, and the producer looks for one. *)
Definition full_schedule : list (nat * unit) := steps (replicate 20 0)%nat.

Lemma spsc_refusals_exact_witness :
  let cfg := run full_schedule in sentN cfg.1 = doneN cfg.1 + m_capacity cfg.1.
Proof.
  pose (cfg := run full_schedule).
  exact (spsc_refusals_exact 16 2 true sample_calls cfg.1 cfg.2 0
    (Producer [9]%nat [(7, kPublished); (8, kPublished)]%nat (SpCheck 2)) cfg.1
    (Producer [] [(7, kPublished); (8, kPublished); (9, kFull)]%nat SpClosed)
    (spsc_run_reachable full_schedule) ltac:(vm_compute; reflexivity) ltac:(vm_compute; reflexivity)).
Defined.

Lemma receive_closed_is_final_witness :
  let cfg := run sample_schedule in m_closed cfg.1 = true /\ published cfg.1 = [7; 8]%nat.
Proof.
  destruct (receive_closed_is_final 16 2 true sample_calls _ _ _ _ 1 [] [7; 8]%nat [true] RcCall
    (spsc_run_reachable sample_schedule) (rtc_refl _ _) ltac:(vm_compute; reflexivity) ltac:(left)) as (Hc & Hp & _).
  split; [exact Hc|symmetry; exact Hp].
Defined.

Lemma close_wakes_receivers_witness : (1 <= recv_wakes (run sample_schedule).1)%nat.
Proof.
  apply (close_wakes_receivers 16 2 true sample_calls _ _ (spsc_run_reachable sample_schedule)); [|by vm_compute].
  apply (bool_decide_unpack _). vm_compute. reflexivity.
Defined.

Lemma spsc_wait_free_witness :
  let cfg := run (take 20 sample_schedule) in
  exists t', (run sample_schedule).2 !! 0%nat = Some t' /\
    (length (filter (fun k => k.1 = 0%nat) (drop 20 sample_schedule)) + steps_left 2 t' <= 16)%nat.
Proof.
  pose (cfg := run (take 20 sample_schedule)). pose (cfg' := run sample_schedule).
  destruct (cfg.2 !! 0%nat) as [t|] eqn:Ht; [|vm_compute in Ht; discriminate].
  destruct (spsc_wait_free 16 2 true sample_calls cfg.1 cfg.2 (drop 20 sample_schedule) cfg'.1 cfg'.2 0 t
    (spsc_run_reachable (take 20 sample_schedule)) ltac:(vm_compute; reflexivity) Ht) as (t' & Ht' & Hl & _).
  exists t'. split; [exact Ht'|]. vm_compute in Ht. injection Ht as <-. exact Hl.
Defined.
