(* ===== verification/TimerWheel.v ===== *)
(** * The timer wheel

    [galay-kernel/common/timer_manager.hpp]: [TimingWheelTimerManager], five wheels of 256, 64, 64, 64
    and 64 slots, with [push], [tick] and the cascades. The clock is an argument of each call; the flags
    of the timers ([done], [cancelled]) belong to their owners and are an argument too. Calls of
    [handleTimeout] are recorded in order; what a timer's callback does, pushing timers from inside
    [tick] included, is not modelled, nor is [push] of a null pointer, which returns at once. *)

From Stdlib Require Import ZArith Lia.
From stdpp Require Import base list.
From S2P Require Import Prelude.
Open Scope Z_scope.

(** A timer whose [getExpireTime] is fixed, in nanoseconds of the steady clock. *)
Record Timer : Type := mkTimer { t_id : nat; m_expireTime : Z }.

#[export] Instance Timer_eq_dec : EqDecision Timer.
Proof. solve_decision. Defined.

Inductive level : Type := L1 | L2 | L3 | L4 | L5.

#[export] Instance level_eq_dec : EqDecision level.
Proof. solve_decision. Defined.

Definition WHEEL1_SPAN : Z := 256.
Definition WHEEL2_SPAN : Z := 16384.
Definition WHEEL3_SPAN : Z := 1048576.
Definition WHEEL4_SPAN : Z := 67108864.
Definition WHEEL5_SPAN : Z := 4294967296.

Definition wheel_size (l : level) : Z := match l with L1 => 256 | _ => 64 end.
Definition wheel_shift (l : level) : Z :=
  match l with L1 => 0 | L2 => 8 | L3 => 14 | L4 => 20 | L5 => 26 end.

Record TimingWheelTimerManager : Type := mkManager {
  m_tickDuration : Z;
  m_currentTick : Z;
  m_wheel : level -> list (list Timer);
  m_size : Z;
  m_startTime : Z;
  handled : list Timer
}.

Definition new_manager (tickDuration now : Z) : TimingWheelTimerManager :=
  mkManager tickDuration 0 (fun l => replicate (Z.to_nat (wheel_size l)) []) 0 now [].

Definition set_clock (start tick : Z) (m : TimingWheelTimerManager) : TimingWheelTimerManager :=
  mkManager (m_tickDuration m) tick (m_wheel m) (m_size m) start (handled m).
Definition set_wheel (l : level) (w : list (list Timer)) (m : TimingWheelTimerManager) : TimingWheelTimerManager :=
  mkManager (m_tickDuration m) (m_currentTick m) (fun l' => if decide (l' = l) then w else m_wheel m l')
    (m_size m) (m_startTime m) (handled m).
Definition set_size (n : Z) (m : TimingWheelTimerManager) : TimingWheelTimerManager :=
  mkManager (m_tickDuration m) (m_currentTick m) (m_wheel m) n (m_startTime m) (handled m).
Definition handleTimeout (t : Timer) (m : TimingWheelTimerManager) : TimingWheelTimerManager :=
  mkManager (m_tickDuration m) (m_currentTick m) (m_wheel m) (m_size m) (m_startTime m) (handled m ++ [t]).

(** [(tick >> shift) & (size - 1)] *)
Definition slot_of (l : level) (tick : Z) : nat :=
  Z.to_nat (Z.land (Z.shiftr tick (wheel_shift l)) (wheel_size l - 1)).

Definition push_back (l : level) (tick : Z) (t : Timer) (m : TimingWheelTimerManager) : TimingWheelTimerManager :=
  set_wheel l (alter (fun ts => ts ++ [t]) (slot_of l tick) (m_wheel m l)) m.

(** The choice of the wheel, the same in [push] and in [cascadeSlot]. *)
Definition place (delayTicks absoluteTick : Z) (t : Timer) (m : TimingWheelTimerManager) : TimingWheelTimerManager :=
  if delayTicks <? WHEEL1_SPAN then push_back L1 absoluteTick t m
  else if delayTicks <? WHEEL2_SPAN then push_back L2 absoluteTick t m
  else if delayTicks <? WHEEL3_SPAN then push_back L3 absoluteTick t m
  else if delayTicks <? WHEEL4_SPAN then push_back L4 absoluteTick t m
  else push_back L5 absoluteTick t m.

Definition push (t : Timer) (now : Z) (m : TimingWheelTimerManager) : bool * TimingWheelTimerManager :=
  let m := if m_size m =? 0 then set_clock now 0 m else m in
  if m_expireTime t <=? now then (true, handleTimeout t m)
  else
    let remainingNs := m_expireTime t - now in
    let delayTicks := wrap64 (remainingNs + m_tickDuration m - 1) / m_tickDuration m in
    let currentTickFromStart := (now - m_startTime m) / m_tickDuration m in
    let absoluteTick := wrap64 (currentTickFromStart + delayTicks) in
    if WHEEL5_SPAN <=? delayTicks then (false, m)
    else (true, set_size (m_size m + 1) (place delayTicks absoluteTick t m)).

(** ** [tick] *)

Section Tick.
Variables (inactive : Timer -> bool) (nowNs : Z).

(** One timer of [cascadeSlot]. *)
Definition cascade_timer (m : TimingWheelTimerManager) (t : Timer) : TimingWheelTimerManager :=
  if inactive t then set_size (m_size m - 1) m
  else if m_expireTime t <=? nowNs then set_size (m_size m - 1) (handleTimeout t m)
  else
    let remainingTicks := (m_expireTime t - nowNs) / m_tickDuration m in
    if remainingTicks =? 0 then set_size (m_size m - 1) (handleTimeout t m)
    else
      let absoluteTick := wrap64 (m_currentTick m + remainingTicks) in
      if remainingTicks <? WHEEL5_SPAN then place remainingTicks absoluteTick t m
      else set_size (m_size m - 1) m.

(** [cascadeWheel2] to [cascadeWheel5], with [cascadeSlot]. *)
Definition cascadeWheel (l : level) (m : TimingWheelTimerManager) : TimingWheelTimerManager :=
  let idx := slot_of l (m_currentTick m) in
  let temp := default [] (m_wheel m l !! idx) in
  foldl cascade_timer (set_wheel l (<[idx := []]> (m_wheel m l)) m) temp.

(** The cascade of a wheel, on the ticks its slots begin at. *)
Definition cascade (l : level) (span : Z) (m : TimingWheelTimerManager) : TimingWheelTimerManager :=
  if (Z.land (m_currentTick m) (span - 1) =? 0) && (0 <? m_currentTick m) then cascadeWheel l m else m.

Definition processWheel1 (m : TimingWheelTimerManager) : TimingWheelTimerManager :=
  let idx := slot_of L1 (m_currentTick m) in
  let slot := default [] (m_wheel m L1 !! idx) in
  foldl (fun m t => set_size (m_size m - 1) (handleTimeout t m))
    (set_wheel L1 (<[idx := []]> (m_wheel m L1)) m) slot.

(** The body of the loop. *)
Definition one_tick (m : TimingWheelTimerManager) : TimingWheelTimerManager :=
  let m := cascade L2 WHEEL1_SPAN m in
  let m := cascade L3 WHEEL2_SPAN m in
  let m := cascade L4 WHEEL3_SPAN m in
  let m := cascade L5 WHEEL4_SPAN m in
  let m := processWheel1 m in
  set_clock (m_startTime m) (m_currentTick m + 1) m.

(** [while (m_currentTick <= targetTick && m_size > 0)] *)
Fixpoint tick_loop (fuel : nat) (targetTick : Z) (m : TimingWheelTimerManager) : option TimingWheelTimerManager :=
  if (m_currentTick m <=? targetTick) && (0 <? m_size m)
  then match fuel with O => None | S fuel => tick_loop fuel targetTick (one_tick m) end
  else Some m.
End Tick.

(** [reset_now] is the time [reset] reads, after the loop. *)
Definition tick (inactive : Timer -> bool) (now reset_now : Z) (m : TimingWheelTimerManager) :
    option TimingWheelTimerManager :=
  if m_size m =? 0 then Some m
  else
    let targetTick := (now - m_startTime m) / m_tickDuration m in
    if targetTick <=? m_currentTick m then Some m
    else
      match tick_loop inactive now (Z.to_nat (targetTick - m_currentTick m + 1)) targetTick m with
      | None => None
      | Some m => Some (if m_size m =? 0 then set_clock reset_now 0 m else m)
      end.

(** ** Where a timer is, and when its slot is visited *)

Definition stored (m : TimingWheelTimerManager) (l : level) (s : nat) (t : Timer) : Prop :=
  exists ts, m_wheel m l !! s = Some ts /\ t ∈ ts.

Definition contents (m : TimingWheelTimerManager) : list Timer :=
  concat (m_wheel m L1) ++ concat (m_wheel m L2) ++ concat (m_wheel m L3) ++ concat (m_wheel m L4) ++
  concat (m_wheel m L5).

(** The slot [s] of wheel [l] is emptied when the current tick is [k]. *)
Definition visit (l : level) (k : Z) (s : nat) : Prop :=
  k mod 2 ^ wheel_shift l = 0 /\ (k / 2 ^ wheel_shift l) mod wheel_size l = Z.of_nat s /\ (l = L1 \/ 0 < k).

(** The tick by which the timer expires, rounded up. *)
Definition due (m : TimingWheelTimerManager) (t : Timer) : Z :=
  (m_expireTime t - m_startTime m) / m_tickDuration m + 1.

Lemma wheel_shift_pos l : 0 < 2 ^ wheel_shift l.
Proof. by destruct l. Qed.

Lemma slot_of_eq l k : slot_of l k = Z.to_nat ((k / 2 ^ wheel_shift l) mod wheel_size l).
Proof.
  unfold slot_of. rewrite Z.shiftr_div_pow2 by (by destruct l).
  assert (wheel_size l - 1 = Z.ones (if decide (l = L1) then 8 else 6)) as -> by (by destruct l).
  rewrite Z.land_ones by (by destruct l). by destruct l.
Qed.

Lemma slot_of_bound l k : (slot_of l k < Z.to_nat (wheel_size l))%nat.
Proof.
  rewrite slot_of_eq. pose proof (Z.mod_pos_bound (k / 2 ^ wheel_shift l) (wheel_size l) ltac:(by destruct l)). lia.
Qed.

Lemma visit_slot l k s : visit l k s -> s = slot_of l k.
Proof. intros (_ & E & _). rewrite slot_of_eq, E. lia. Qed.

(** The slot a tick falls into is visited at the start of its span. *)
Lemma visit_place l tick :
  2 ^ wheel_shift l <= tick \/ l = L1 /\ 0 <= tick ->
  exists k, visit l k (slot_of l tick) /\ tick - 2 ^ wheel_shift l < k <= tick.
Proof.
  intros Ht. pose proof (wheel_shift_pos l) as Hs. exists (tick / 2 ^ wheel_shift l * 2 ^ wheel_shift l).
  pose proof (Z.div_mod tick (2 ^ wheel_shift l) ltac:(lia)). pose proof (Z.mod_pos_bound tick (2 ^ wheel_shift l) Hs).
  split; [|lia]. split_and!.
  - apply Z.mod_mul. lia.
  - rewrite Z.div_mul by lia. rewrite slot_of_eq, Z2Nat.id; [done|]. apply Z.mod_pos_bound. by destruct l.
  - destruct Ht as [Ht|[-> _]]; [|by left]. right. nia.
Qed.

Lemma place_level delay tick t m :
  1 <= delay -> exists l, place delay tick t m = push_back l tick t m /\ 2 ^ wheel_shift l <= delay.
Proof.
  intros Hd. unfold place.
  repeat (match goal with |- context [if ?a <? ?b then _ else _] => destruct (Z.ltb_spec a b) end;
    [eexists; split; [done|cbn; unfold WHEEL1_SPAN, WHEEL2_SPAN, WHEEL3_SPAN, WHEEL4_SPAN in *; lia]|]).
  exists L5. split; [done|]. cbn. unfold WHEEL4_SPAN in *. lia.
Qed.

(** ** Contents *)

Lemma concat_alter (w : list (list Timer)) i t :
  (i < length w)%nat -> concat (alter (fun ts => ts ++ [t]) i w) ≡ₚ t :: concat w.
Proof.
  revert i. induction w as [|ts w IH]; intros [|i] Hi; cbn [length] in Hi; try lia; cbn.
  - rewrite <- app_assoc. cbn. by rewrite Permutation_middle.
  - rewrite IH by lia. by rewrite Permutation_middle.
Qed.

Lemma concat_clear (w : list (list Timer)) i ts :
  w !! i = Some ts -> concat w ≡ₚ ts ++ concat (<[i := []]> w).
Proof.
  revert i. induction w as [|us w IH]; intros [|i] Hi; try done; cbn.
  - by injection Hi as ->.
  - rewrite (IH i Hi). cbn. rewrite !app_assoc. by rewrite (Permutation_app_comm us ts).
Qed.

Lemma contents_set l w m ts :
  ts ++ concat w ≡ₚ concat (m_wheel m l) -> ts ++ contents (set_wheel l w m) ≡ₚ contents m.
Proof.
  intros E. unfold contents, set_wheel. destruct l; cbn -[concat]; rewrite <- E;
    repeat (rewrite <- ?app_assoc; rewrite ?(Permutation_app_comm ts); rewrite <- ?app_assoc); try done.
Qed.

Lemma contents_add l w m ts :
  concat w ≡ₚ ts ++ concat (m_wheel m l) -> contents (set_wheel l w m) ≡ₚ ts ++ contents m.
Proof.
  intros E. unfold contents, set_wheel. destruct l; cbn -[concat]; rewrite E;
    repeat (rewrite <- ?app_assoc; rewrite ?(Permutation_app_comm ts); rewrite <- ?app_assoc); try done.
Qed.

Lemma blen_perm {A} (l k : list A) : l ≡ₚ k -> blen l = blen k.
Proof. intros E. unfold blen. by rewrite E. Qed.

(** ** One visit of a slot *)

Section Visit.
Variables (inactive : Timer -> bool) (nowNs : Z).

(** What a state must satisfy to place timers at all. *)
Record shape (m : TimingWheelTimerManager) : Prop := mkShape {
  sh_tick : 0 < m_tickDuration m < 2 ^ 62;
  sh_len : forall l, length (m_wheel m l) = Z.to_nat (wheel_size l);
  sh_start : 0 <= m_startTime m <= nowNs;
  sh_now : nowNs < 2 ^ 62;
  sh_cur : 0 <= m_currentTick m <= (nowNs - m_startTime m) / m_tickDuration m + 1
}.

(** The range of the expiry times of stored timers. *)
Definition in_range (m : TimingWheelTimerManager) (t : Timer) : Prop :=
  m_expireTime t < 2 ^ 63 /\ (m_expireTime t - nowNs) / m_tickDuration m < WHEEL5_SPAN.

(** The timers of [extra] are taken into [m]: each is placed, handled, or dropped because its owner is
    done with it. *)
Record moved (extra : list Timer) (m m' : TimingWheelTimerManager) : Prop := mkMoved {
  mv_tick : m_tickDuration m' = m_tickDuration m;
  mv_start : m_startTime m' = m_startTime m;
  mv_cur : m_currentTick m' = m_currentTick m;
  mv_len : forall l, length (m_wheel m' l) = length (m_wheel m l);
  mv_size : m_size m' - blen (contents m') = m_size m - blen extra - blen (contents m);
  mv_log : exists dropped, Forall (fun t => inactive t = true) dropped /\
    contents m' ++ handled m' ++ dropped ≡ₚ extra ++ contents m ++ handled m;
  mv_stored : forall l s t, stored m' l s t -> stored m l s t \/
    t ∈ extra /\ exists k, visit l k s /\ m_currentTick m < k <= due m t
}.

Lemma moved_shape extra m m' : moved extra m m' -> shape m -> shape m'.
Proof.
  intros Hm [H1 H2 H3 H4 H5].
  split; rewrite ?(mv_tick _ _ _ Hm), ?(mv_start _ _ _ Hm), ?(mv_cur _ _ _ Hm); try done.
  intros l. by rewrite (mv_len _ _ _ Hm).
Qed.

Lemma moved_due extra m m' t : moved extra m m' -> due m' t = due m t.
Proof. intros Hm. unfold due. by rewrite (mv_tick _ _ _ Hm), (mv_start _ _ _ Hm). Qed.

Lemma moved_refl m : moved [] m m.
Proof.
  split; try done; [rewrite (@blen_nil Timer); lia| |by left]. exists []. by rewrite app_nil_r.
Qed.

Lemma moved_trans e1 e2 m1 m2 m3 : moved e1 m1 m2 -> moved e2 m2 m3 -> moved (e1 ++ e2) m1 m3.
Proof.
  intros H1 H2. assert (forall t, due m2 t = due m1 t) as Hd by (intros; by eapply moved_due).
  destruct H1 as [A1 A2 A3 A4 A5 (d1 & A6 & A6') A7], H2 as [B1 B2 B3 B4 B5 (d2 & B6 & B6') B7]. split.
  - congruence.
  - congruence.
  - congruence.
  - intros l. by rewrite B4, A4.
  - rewrite blen_app. lia.
  - exists (d1 ++ d2). split; [by apply Forall_app|].
    rewrite (Permutation_app_comm d1 d2), (app_assoc (handled m3)), (app_assoc (contents m3)), B6', <- !app_assoc, A6'.
    rewrite !app_assoc. by rewrite (Permutation_app_comm e2 e1).
  - intros l s t Hs. apply B7 in Hs as [Hs|(Ht & k & Hv & Hk)].
    + apply A7 in Hs as [Hs|(Ht & Hk)]; [by left|right]. split; [apply elem_of_app; by left|done].
    + right. split; [apply elem_of_app; by right|]. exists k. split; [done|]. rewrite A3, Hd in Hk. done.
Qed.

Lemma push_back_moved l tick t m k :
  (forall l, length (m_wheel m l) = Z.to_nat (wheel_size l)) ->
  visit l k (slot_of l tick) -> m_currentTick m < k <= due m t -> moved [t] m (push_back l tick t m).
Proof.
  intros Hsh Hv Hk. pose proof (slot_of_bound l tick) as Hb. rewrite <- Hsh in Hb.
  destruct (m_wheel m l !! slot_of l tick) as [ts|] eqn:E; [|apply lookup_ge_None in E; lia].
  assert (contents (push_back l tick t m) ≡ₚ t :: contents m) as Hc.
  { unfold push_back. rewrite (contents_add _ _ _ [t]); [done|]. by apply concat_alter. }
  split; try done.
  - intros l'. cbn. case_decide as Hl; [|done]. subst. by rewrite length_alter.
  - cbn [m_size push_back set_wheel]. rewrite (blen_perm _ _ Hc), !blen_cons, (@blen_nil Timer). lia.
  - exists []. split; [done|]. rewrite app_nil_r, Hc. done.
  - intros l' s t' (ts' & Hs & Ht). cbn in Hs. case_decide as Hl; [subst l'|left; by exists ts'].
    destruct (decide (s = slot_of l tick)) as [->|Hn].
    + rewrite list_lookup_alter_eq, E in Hs. injection Hs as <-. apply elem_of_app in Ht as [Ht|Ht].
      * left. by exists ts.
      * right. split; [done|]. apply list_elem_of_singleton in Ht as ->. by exists k.
    + rewrite list_lookup_alter_ne in Hs by done. left. by exists ts'.
Qed.

Lemma dropped_moved t m : inactive t = true -> moved [t] m (set_size (m_size m - 1) m).
Proof.
  intros Ht. split; [done|done|done|done| | |by left].
  - change (contents (set_size _ m)) with (contents m). cbn [set_size m_size]. rewrite blen_cons, (@blen_nil Timer). lia.
  - exists [t]. split; [by constructor|]. change (contents (set_size _ m)) with (contents m). cbn [set_size handled].
    rewrite (Permutation_app_comm [t]). by rewrite app_assoc.
Qed.

Lemma handled_moved t m : moved [t] m (set_size (m_size m - 1) (handleTimeout t m)).
Proof.
  split; [done|done|done|done| | |by left]; change (contents (set_size _ _)) with (contents m);
    cbn [set_size handleTimeout handled m_size].
  - rewrite blen_cons, (@blen_nil Timer). lia.
  - exists []. split; [done|]. by rewrite app_nil_r, (Permutation_app_comm [t]), !app_assoc.
Qed.

Lemma cascade_timer_moved m t : shape m -> in_range m t -> moved [t] m (cascade_timer inactive nowNs m t).
Proof.
  intros Hsh [He Hr]. unfold cascade_timer. destruct (inactive t) eqn:Hi; [by apply dropped_moved|].
  destruct (Z.leb_spec (m_expireTime t) nowNs) as [|Hlt]; [apply handled_moved|].
  pose proof Hsh as [S1 S2 S3 S4 S5]. set (tk := m_tickDuration m) in *.
  set (rem := (m_expireTime t - nowNs) / tk) in *.
  assert (0 <= rem) by (apply Z.div_pos; lia).
  destruct (Z.eqb_spec rem 0) as [|Hrem]; [apply handled_moved|].
  rewrite (proj2 (Z.ltb_lt rem WHEEL5_SPAN)) by done.
  assert ((nowNs - m_startTime m) / tk <= nowNs) as Hq.
  { transitivity ((nowNs - m_startTime m) / 1); [apply Z.div_le_compat_l; lia|rewrite Z.div_1_r; lia]. }
  unfold WHEEL5_SPAN in Hr. rewrite wrap64_small by lia.
  destruct (place_level rem (m_currentTick m + rem) t m ltac:(lia)) as (l & -> & Hl).
  destruct (visit_place l (m_currentTick m + rem)) as (k & Hv & Hk); [left; lia|].
  apply (push_back_moved _ _ _ _ k); [done|done|]. split; [lia|]. unfold due. fold tk.
  assert ((nowNs - m_startTime m) / tk + rem <= (m_expireTime t - m_startTime m) / tk); [|lia].
  apply Z.div_le_lower_bound; [lia|]. unfold rem.
  pose proof (Z.mul_div_le (nowNs - m_startTime m) tk ltac:(lia)).
  pose proof (Z.mul_div_le (m_expireTime t - nowNs) tk ltac:(lia)). lia.
Qed.

Lemma moved_range extra m m' t : moved extra m m' -> in_range m t -> in_range m' t.
Proof. intros Hm Hr. unfold in_range in *. by rewrite (mv_tick _ _ _ Hm). Qed.

Lemma fold_moved (f : TimingWheelTimerManager -> Timer -> TimingWheelTimerManager) temp m :
  (forall m t, shape m -> in_range m t -> moved [t] m (f m t)) ->
  shape m -> Forall (in_range m) temp -> moved temp m (foldl f m temp).
Proof.
  intros Hf. revert m. induction temp as [|t temp IH]; intros m Hsh Hr; [apply moved_refl|].
  apply Forall_cons in Hr as [Ht Hr]. cbn [foldl]. specialize (Hf m t Hsh Ht) as Hm.
  change (t :: temp) with ([t] ++ temp). eapply moved_trans; [exact Hm|]. apply IH; [by eapply moved_shape|].
  eapply Forall_impl; [exact Hr|]. intros u. by eapply moved_range.
Qed.

(** ** Wheels visited *)

(** The slots of some of the wheels were visited: what was in them has moved, the rest stays. *)
Record visited (ls : level -> bool) (m m' : TimingWheelTimerManager) : Prop := mkVisited {
  vs_tick : m_tickDuration m' = m_tickDuration m;
  vs_start : m_startTime m' = m_startTime m;
  vs_cur : m_currentTick m' = m_currentTick m;
  vs_len : forall l, length (m_wheel m' l) = length (m_wheel m l);
  vs_size : m_size m' - blen (contents m') = m_size m - blen (contents m);
  vs_log : exists dropped, Forall (fun t => inactive t = true) dropped /\
    contents m' ++ handled m' ++ dropped ≡ₚ contents m ++ handled m;
  vs_stored : forall l s t, stored m' l s t ->
    stored m l s t /\ (ls l = true -> ~ visit l (m_currentTick m) s) \/
    (exists l0 s0, stored m l0 s0 t) /\ exists k, visit l k s /\ m_currentTick m < k <= due m t
}.

Lemma visited_trans ls1 ls2 m1 m2 m3 :
  visited ls1 m1 m2 -> visited ls2 m2 m3 -> visited (fun l => ls1 l || ls2 l) m1 m3.
Proof.
  intros [A1 A2 A3 A4 A5 (d1 & A6 & A6') A7] [B1 B2 B3 B4 B5 (d2 & B6 & B6') B7].
  assert (forall l s t, stored m2 l s t -> exists l0 s0, stored m1 l0 s0 t) as Hold.
  { intros l s t Hs. apply A7 in Hs as [[Hs _]|[Hs _]]; [by exists l, s|done]. }
  assert (forall t, due m2 t = due m1 t) as Hd by (intros; unfold due; by rewrite A1, A2).
  split; [congruence|congruence|congruence|intros l; by rewrite B4, A4|lia| |].
  - exists (d1 ++ d2). split; [by apply Forall_app|].
    rewrite (Permutation_app_comm d1 d2), (app_assoc (handled m3)), (app_assoc (contents m3)), B6', <- !app_assoc.
    exact A6'.
  - intros l s t Hs. apply B7 in Hs as [[Hs Hn]|[(l0 & s0 & Hs) Hk]].
    + apply A7 in Hs as [[Hs Hn']|Hk]; [left|by right]. split; [done|]. rewrite A3 in Hn.
      intros [?|?]%orb_true_iff; auto.
    + right. split; [by eapply Hold|]. by rewrite A3, Hd in Hk.
Qed.

Lemma visited_nothing ls m :
  (forall l s, ls l = true -> ~ visit l (m_currentTick m) s) -> visited ls m m.
Proof.
  intros Hn. split; try done; [|by eauto]. exists []. by rewrite app_nil_r.
Qed.

Definition only (l l' : level) : bool := bool_decide (l' = l).

Lemma slot_visited f l m :
  shape m -> (forall l s t, stored m l s t -> in_range m t) ->
  (forall m t, shape m -> in_range m t -> moved [t] m (f m t)) ->
  let idx := slot_of l (m_currentTick m) in
  visited (only l) m (foldl f (set_wheel l (<[idx := []]> (m_wheel m l)) m) (default [] (m_wheel m l !! idx))).
Proof.
  intros Hsh Hr Hf idx. pose proof (slot_of_bound l (m_currentTick m)) as Hb. fold idx in Hb.
  rewrite <- (sh_len _ Hsh) in Hb. destruct (m_wheel m l !! idx) as [temp|] eqn:E; [|apply lookup_ge_None in E; lia].
  change (default [] (Some temp)) with temp. set (m0 := set_wheel l (<[idx := []]> (m_wheel m l)) m).
  assert (temp ++ contents m0 ≡ₚ contents m) as Hc.
  { apply contents_set. by rewrite <- concat_clear. }
  assert (forall l' s t, stored m0 l' s t -> stored m l' s t /\ ~ (l' = l /\ s = idx)) as H0.
  { intros l' s t (ts & Hs & Ht). cbn in Hs. case_decide as Hl; [subst l'|split; [by exists ts|by intros [? _]]].
    destruct (decide (s = idx)) as [->|Hn].
    - rewrite list_lookup_insert_eq in Hs by done. injection Hs as <-. by apply not_elem_of_nil in Ht.
    - rewrite list_lookup_insert_ne in Hs by done. split; [by exists ts|by intros [_ ?]]. }
  assert (forall t, t ∈ temp -> stored m l idx t) as Htemp by (intros t Ht; by exists temp).
  assert (forall l', length (m_wheel m0 l') = length (m_wheel m l')) as Hlen.
  { intros l'. cbn. case_decide as Hl; [|done]. subst l'. by rewrite length_insert. }
  assert (shape m0) as Hsh0.
  { destruct Hsh as [S1 S2 S3 S4 S5]. split; try done. intros l'. by rewrite Hlen. }
  assert (moved temp m0 (foldl f m0 temp)) as [M1 M2 M3 M4 M5 M6 M7].
  { apply fold_moved; [done|done|]. apply Forall_forall. intros t Ht. by eapply Hr, Htemp. }
  split.
  - done.
  - done.
  - done.
  - intros l'. by rewrite M4, Hlen.
  - pose proof (blen_perm _ _ Hc) as Hl. rewrite blen_app in Hl. change (m_size m0) with (m_size m) in M5. lia.
  - destruct M6 as (d & Hd & Hp). exists d. split; [done|]. rewrite Hp, app_assoc. by rewrite Hc.
  - intros l' s t Hs. apply M7 in Hs as [Hs|[Ht Hk]].
    + apply H0 in Hs as [Hs Hn]. left. split; [done|]. intros ->%bool_decide_eq_true_1 Hv. apply Hn.
      split; [done|by apply visit_slot].
    + right. split; [|done]. eauto.
Qed.

Lemma cascade_visited l span m :
  span = 2 ^ wheel_shift l -> l <> L1 -> shape m -> (forall l s t, stored m l s t -> in_range m t) ->
  visited (only l) m (cascade inactive nowNs l span m).
Proof.
  intros Hspan Hl Hsh Hr. unfold cascade. destruct (_ && _) eqn:E.
  - apply slot_visited; [done|done|]. intros. by apply cascade_timer_moved.
  - apply visited_nothing. intros l' s ->%bool_decide_eq_true_1 (Hm & _ & [?|Hp]); [done|].
    rewrite (proj2 (Z.ltb_lt _ _) Hp), andb_true_r in E. apply Z.eqb_neq in E. apply E.
    rewrite Hspan. assert (2 ^ wheel_shift l - 1 = Z.ones (wheel_shift l)) as -> by (by destruct l).
    rewrite Z.land_ones by (by destruct l). done.
Qed.

Lemma visited_shape ls m m' : visited ls m m' -> shape m -> shape m'.
Proof.
  intros Hv [H1 H2 H3 H4 H5].
  split; rewrite ?(vs_tick _ _ _ Hv), ?(vs_start _ _ _ Hv), ?(vs_cur _ _ _ Hv); try done.
  intros l. by rewrite (vs_len _ _ _ Hv).
Qed.

Lemma visited_range ls m m' :
  visited ls m m' -> (forall l s t, stored m l s t -> in_range m t) ->
  forall l s t, stored m' l s t -> in_range m' t.
Proof.
  intros Hv Hr l s t Hs. unfold in_range. rewrite (vs_tick _ _ _ Hv).
  apply (vs_stored _ _ _ Hv) in Hs as [[Hs _]|[(l0 & s0 & Hs) _]]; by eapply Hr.
Qed.

(** Everything that is due at the current tick is out of its slot when the tick is over. *)
Lemma one_tick_visited m :
  shape m -> (forall l s t, stored m l s t -> in_range m t) ->
  exists m', one_tick inactive nowNs m = set_clock (m_startTime m') (m_currentTick m' + 1) m' /\
    visited (fun _ => true) m m'.
Proof.
  intros Hsh Hr. unfold one_tick. eexists. split; [done|].
  set (m2 := cascade inactive nowNs L2 WHEEL1_SPAN m). set (m3 := cascade inactive nowNs L3 WHEEL2_SPAN m2).
  set (m4 := cascade inactive nowNs L4 WHEEL3_SPAN m3). set (m5 := cascade inactive nowNs L5 WHEEL4_SPAN m4).
  assert (visited (only L2) m m2) as V2 by (by apply cascade_visited).
  pose proof (visited_shape _ _ _ V2 Hsh) as S2. pose proof (visited_range _ _ _ V2 Hr) as R2.
  assert (visited (only L3) m2 m3) as V3 by (by apply cascade_visited).
  pose proof (visited_shape _ _ _ V3 S2) as S3. pose proof (visited_range _ _ _ V3 R2) as R3.
  assert (visited (only L4) m3 m4) as V4 by (by apply cascade_visited).
  pose proof (visited_shape _ _ _ V4 S3) as S4. pose proof (visited_range _ _ _ V4 R3) as R4.
  assert (visited (only L5) m4 m5) as V5 by (by apply cascade_visited).
  pose proof (visited_shape _ _ _ V5 S4) as S5. pose proof (visited_range _ _ _ V5 R4) as R5.
  assert (visited (only L1) m5 (processWheel1 m5)) as V1.
  { apply slot_visited; [done|done|]. intros. apply handled_moved. }
  pose proof (visited_trans _ _ _ _ _ (visited_trans _ _ _ _ _ (visited_trans _ _ _ _ _
    (visited_trans _ _ _ _ _ V2 V3) V4) V5) V1) as [A1 A2 A3 A4 A5 A6 A7].
  split; try done. intros l s t Hs. apply A7 in Hs as [[Hs Hn]|Hk]; [left|by right]. split; [done|]. intros _.
  apply Hn. by destruct l.
Qed.
End Visit.

(** ** The invariant *)

Record wheel_inv (now : Z) (m : TimingWheelTimerManager) : Prop := mkInv {
  wi_shape : shape now m;
  wi_size : m_size m = blen (contents m);
  wi_stored : forall l s t, stored m l s t ->
    in_range now m t /\ exists k, visit l k s /\ m_currentTick m <= k <= due m t
}.

Lemma stored_contents m t : (exists l s, stored m l s t) <-> t ∈ contents m.
Proof.
  assert (forall l, (exists s, stored m l s t) <-> t ∈ concat (m_wheel m l)) as Hl.
  { intros l. rewrite list_elem_of_In, in_concat. split.
    - intros (s & ts & Hs & Ht). exists ts. split; apply list_elem_of_In; [by eapply list_elem_of_lookup_2|done].
    - intros (ts & Hs & Ht). apply list_elem_of_In, list_elem_of_lookup in Hs as [s Hs].
      exists s, ts. split; [done|by apply list_elem_of_In]. }
  unfold contents. rewrite !elem_of_app, <- !Hl. split.
  - intros (l & Hs). destruct l; eauto 6.
  - intros [?|[?|[?|[?|?]]]]; eauto.
Qed.

Lemma empty_stored m : contents m = [] -> forall l s t, ~ stored m l s t.
Proof. intros E l s t Hs. assert (t ∈ contents m) as Ht by (apply stored_contents; eauto). rewrite E in Ht. by apply not_elem_of_nil in Ht. Qed.

Lemma div_mono a b c : 0 < c -> a <= b -> a / c <= b / c.
Proof. intros. by apply Z.div_le_mono. Qed.

Lemma wheel_inv_later now now' m : now <= now' < 2 ^ 62 -> wheel_inv now m -> wheel_inv now' m.
Proof.
  intros Hn [[S1 S2 S3 S4 S5] H2 H3]. split; [split; try done; try lia|done|].
  - pose proof (div_mono (now - m_startTime m) (now' - m_startTime m) (m_tickDuration m)). lia.
  - intros l s t Hs. apply H3 in Hs as [[Hr Hr'] Hk]. split; [|done]. split; [done|].
    pose proof (div_mono (m_expireTime t - now') (m_expireTime t - now) (m_tickDuration m)). lia.
Qed.

(** What a call leaves of the timers. *)
Definition kept (inactive : Timer -> bool) (m m' : TimingWheelTimerManager) : Prop :=
  exists dropped, Forall (fun t => inactive t = true) dropped /\
    contents m' ++ handled m' ++ dropped ≡ₚ contents m ++ handled m.

Lemma kept_refl f m : kept f m m.
Proof. exists []. by rewrite app_nil_r. Qed.

Lemma kept_trans f m1 m2 m3 : kept f m1 m2 -> kept f m2 m3 -> kept f m1 m3.
Proof.
  intros (d1 & A1 & A2) (d2 & B1 & B2). exists (d1 ++ d2). split; [by apply Forall_app|].
  by rewrite (Permutation_app_comm d1 d2), (app_assoc (handled m3)), (app_assoc (contents m3)), B2, <- !app_assoc.
Qed.

Lemma one_tick_inv f now m :
  wheel_inv now m -> m_currentTick m <= (now - m_startTime m) / m_tickDuration m ->
  let m' := one_tick f now m in
  wheel_inv now m' /\ m_currentTick m' = m_currentTick m + 1 /\ m_startTime m' = m_startTime m /\
  m_tickDuration m' = m_tickDuration m /\ kept f m m'.
Proof.
  intros [H1 H2 H3] Hc. destruct (one_tick_visited f now m) as (m' & -> & Hv); [done|intros l s t Hs; by eapply H3|].
  cbv zeta. pose proof (visited_shape f now _ _ _ Hv H1) as [S1 S2 S3 S4 S5].
  destruct Hv as [A1 A2 A3 A4 A5 A6 A7]. rewrite A1, A2, A3 in *. split_and!.
  - split.
    + split; cbn; try done; rewrite ?A1, ?A2, ?A3; try done. lia.
    + change (contents (set_clock _ _ m')) with (contents m'). cbn. lia.
    + intros l s t Hs. change (stored m' l s t) in Hs. unfold in_range, due. cbn. rewrite ?A1, ?A2.
      apply A7 in Hs as [[Hs Hn]|[(l0 & s0 & Hs) (k & Hk & Hb)]].
      * apply H3 in Hs as [Hr (k & Hk & Hb)]. split; [done|]. exists k. split; [done|]. unfold due in Hb.
        assert (k <> m_currentTick m) by (intros ->; by apply (Hn eq_refl)). lia.
      * apply H3 in Hs as [Hr _]. split; [done|]. exists k. split; [done|]. unfold due in Hb. lia.
  - done.
  - done.
  - done.
  - exact A6.
Qed.

Lemma tick_loop_inv f now fuel m :
  wheel_inv now m -> let target := (now - m_startTime m) / m_tickDuration m in
  (Z.to_nat (target - m_currentTick m + 1) <= fuel)%nat ->
  exists m', tick_loop f now fuel target m = Some m' /\ wheel_inv now m' /\ kept f m m' /\
    m_startTime m' = m_startTime m /\ m_tickDuration m' = m_tickDuration m /\
    (target < m_currentTick m' \/ m_size m' = 0).
Proof.
  revert m. induction fuel as [|fuel IH]; intros m Hinv target Hf; cbn [tick_loop].
  - destruct (Z.leb_spec (m_currentTick m) target); [lia|]. exists m. cbn [andb].
    split_and!; try done; [apply kept_refl|by left].
  - assert (0 <= m_size m) as Hs by (rewrite (wi_size _ _ Hinv); apply blen_nonneg).
    destruct (Z.leb_spec (m_currentTick m) target) as [Hc|Hc]; cbn [andb];
      [|exists m; split_and!; try done; [apply kept_refl|by left]].
    destruct (Z.ltb_spec 0 (m_size m)) as [Hz|Hz]; [|exists m; split_and!; try done; [apply kept_refl|right; lia]].
    destruct (one_tick_inv f now m Hinv Hc) as (H1 & H2 & H3 & H4 & H5).
    destruct (IH (one_tick f now m) H1) as (m' & Hm & I1 & I2 & I3 & I4 & I5).
    { rewrite H2, H3, H4. fold target. lia. }
    rewrite H3, H4 in Hm, I5. fold target in Hm, I5. exists m'. split_and!; try done; [|congruence|congruence].
    by eapply kept_trans.
Qed.

(** A stored timer is visited no later than two ticks after its expiry. *)
Lemma stored_not_overdue now m t :
  wheel_inv now m -> (now - m_startTime m) / m_tickDuration m <= m_currentTick m -> t ∈ contents m ->
  now - 2 * m_tickDuration m < m_expireTime t.
Proof.
  intros [[S1 _ _ _ _] _ H3] Hc Ht. apply stored_contents in Ht as (l & s & Hs).
  apply H3 in Hs as [_ (k & _ & Hk)]. unfold due in Hk.
  pose proof (Z.mul_div_le (m_expireTime t - m_startTime m) (m_tickDuration m) ltac:(lia)).
  pose proof (Z.mul_succ_div_gt (now - m_startTime m) (m_tickDuration m) ltac:(lia)). nia.
Qed.

Lemma tick_inv f now now' m :
  wheel_inv now m -> now <= now' < 2 ^ 62 ->
  exists m', tick f now now' m = Some m' /\ wheel_inv now' m' /\ kept f m m' /\
    m_tickDuration m' = m_tickDuration m /\
    forall t, t ∈ contents m' -> now - 2 * m_tickDuration m < m_expireTime t.
Proof.
  intros Hinv Hn. unfold tick. destruct (Z.eqb_spec (m_size m) 0) as [Hz|Hz].
  { exists m. split_and!; [done|by eapply wheel_inv_later|apply kept_refl|done|]. intros t Ht.
    rewrite (wi_size _ _ Hinv) in Hz. destruct (contents m) as [|u us]; [by apply not_elem_of_nil in Ht|].
    rewrite blen_cons in Hz. pose proof (blen_nonneg us). lia. }
  set (target := (now - m_startTime m) / m_tickDuration m).
  destruct (Z.leb_spec target (m_currentTick m)) as [Hle|Hgt].
  { exists m. split_and!; [done|by eapply wheel_inv_later|apply kept_refl|done|].
    intros t Ht. by apply (stored_not_overdue now m t). }
  destruct (tick_loop_inv f now (Z.to_nat (target - m_currentTick m + 1)) m Hinv ltac:(done)) as
    (m' & Hl & I1 & I2 & I3 & I4 & I5). fold target in Hl, I5. rewrite Hl.
  destruct (Z.eqb_spec (m_size m') 0) as [Hz'|Hz'].
  - assert (contents m' = []) as He.
    { rewrite (wi_size _ _ I1) in Hz'. destruct (contents m') as [|u us]; [done|].
      rewrite blen_cons in Hz'. pose proof (blen_nonneg us). lia. }
    exists (set_clock now' 0 m'). split_and!; [done| |exact I2|done|intros t Ht; change (t ∈ contents m') in Ht; rewrite He in Ht; by apply not_elem_of_nil in Ht].
    destruct I1 as [[S1 S2 S3 S4 S5] W2 W3]. split; [|done|].
    + split; cbn; try done; try lia. rewrite Z.sub_diag, Z.div_0_l by lia. lia.
    + intros l s t Hs. exfalso. by apply (empty_stored m' He l s t).
  - exists m'. split_and!; [done|by eapply wheel_inv_later|done|done|]. intros t Ht. rewrite <- I4.
    apply (stored_not_overdue now m' t); [done| |done]. rewrite I3, I4. fold target. lia.
Qed.

Lemma push_inv t now m :
  wheel_inv now m -> m_expireTime t < 2 ^ 63 ->
  let r := push t now m in
  wheel_inv now r.2 /\ m_tickDuration r.2 = m_tickDuration m /\
  contents r.2 ++ handled r.2 ≡ₚ (if r.1 then [t] else []) ++ contents m ++ handled m.
Proof.
  intros Hinv He. unfold push.
  assert (exists m0, (if m_size m =? 0 then set_clock now 0 m else m) = m0 /\ wheel_inv now m0 /\
    m_tickDuration m0 = m_tickDuration m /\ contents m0 = contents m /\ handled m0 = handled m) as
    (m0 & -> & Hinv0 & Htk & Hc & Hh).
  { destruct (Z.eqb_spec (m_size m) 0) as [Hz|Hz]; eexists; (split; [done|]); [|done].
    assert (contents m = []) as Hemp.
    { rewrite (wi_size _ _ Hinv) in Hz. destruct (contents m) as [|u us]; [done|].
      rewrite blen_cons in Hz. pose proof (blen_nonneg us). lia. }
    split_and!; try done. destruct Hinv as [[S1 S2 S3 S4 S5] W2 W3]. split; [|done|].
    - split; cbn; try done; try lia. rewrite Z.sub_diag, Z.div_0_l by lia. lia.
    - intros l s u Hs. exfalso. by apply (empty_stored m Hemp l s u). }
  cbv zeta. rewrite <- Htk, <- Hc, <- Hh. clear Hinv Htk Hc Hh m.
  destruct (Z.leb_spec (m_expireTime t) now) as [Hle|Hgt]; cbn [fst snd].
  { split_and!; [|done|].
    - destruct Hinv0 as [[S1 S2 S3 S4 S5] W2 W3]. by split.
    - change (contents (handleTimeout t m0)) with (contents m0). cbn [handleTimeout handled].
      by rewrite app_assoc, (Permutation_app_comm _ [t]). }
  pose proof Hinv0 as [[S1 S2 S3 S4 S5] W2 W3]. set (tk := m_tickDuration m0) in *.
  rewrite (wrap64_small (m_expireTime t - now + tk - 1)) by lia.
  set (delay := (m_expireTime t - now + tk - 1) / tk) in *. set (cur := (now - m_startTime m0) / tk) in *.
  destruct (Z.leb_spec WHEEL5_SPAN delay) as [|Hd]; [by split_and!|]. cbn [fst snd].
  assert (1 <= delay) by (apply Z.div_le_lower_bound; lia).
  assert (0 <= cur <= now) as Hcur.
  { split; [apply Z.div_pos; lia|]. unfold cur.
    transitivity ((now - m_startTime m0) / 1); [apply Z.div_le_compat_l; lia|rewrite Z.div_1_r; lia]. }
  unfold WHEEL5_SPAN in Hd. rewrite wrap64_small by lia.
  destruct (place_level delay (cur + delay) t m0 ltac:(lia)) as (l & -> & Hl).
  destruct (visit_place l (cur + delay)) as (k & Hv & Hk); [left; lia|].
  assert (cur + delay <= due m0 t) as Hdue.
  { unfold due, cur, delay. fold tk.
    pose proof (Z.mul_div_le (now - m_startTime m0) tk ltac:(lia)).
    pose proof (Z.mul_div_le (m_expireTime t - now + tk - 1) tk ltac:(lia)).
    assert ((now - m_startTime m0) / tk + (m_expireTime t - now + tk - 1) / tk - 1 <=
      (m_expireTime t - m_startTime m0) / tk); [|lia]. apply Z.div_le_lower_bound; lia. }
  (* the slot may be visited at the current tick already *)
  pose proof (push_back_moved (fun _ => false) l (cur + delay) t
    (set_clock (m_startTime m0) (m_currentTick m0 - 1) m0) k S2 Hv) as Hm.
  destruct Hm as [M1 M2 M3 M4 M5 (d & M6 & M6') M7].
  { cbn. unfold due in *. cbn. fold tk in Hdue |- *. lia. }
  change (contents (push_back l (cur + delay) t (set_clock (m_startTime m0) (m_currentTick m0 - 1) m0)))
    with (contents (push_back l (cur + delay) t m0)) in *.
  change (contents (set_clock (m_startTime m0) (m_currentTick m0 - 1) m0)) with (contents m0) in *.
  assert (d = []) as -> by (destruct M6; done). rewrite app_nil_r in M6'.
  split_and!.
  - split.
    + split; try done. intros l'. cbn. rewrite <- S2. exact (M4 l').
    + change (contents (set_size _ _)) with (contents (push_back l (cur + delay) t m0)). cbn [set_size m_size].
      cbn [push_back set_wheel m_size set_clock] in M5. rewrite blen_cons, (@blen_nil Timer) in M5. lia.
    + intros l' s u Hs. apply M7 in Hs as [Hs|[Hu Hp]].
      * by apply W3.
      * apply list_elem_of_singleton in Hu as ->. split.
        -- split; [done|]. cbn. fold tk. unfold WHEEL5_SPAN.
           pose proof (div_mono (m_expireTime t - now) (m_expireTime t - now + tk - 1) tk) as Hdm. fold delay in Hdm. lia.
        -- destruct Hp as (k' & Hv' & Hk'). exists k'. split; [done|]. unfold due in *. cbn in *. lia.
  - done.
  - exact M6'.
Qed.

(** ** Sequences of calls *)

Inductive timer_call : Type :=
| Push (t : Timer) (now : Z)
| Tick (inactive : Timer -> bool) (now reset_now : Z).

(** The calls in order, with the timers that [push] accepted. *)
Fixpoint run (calls : list timer_call) (m : TimingWheelTimerManager) : option (TimingWheelTimerManager * list Timer) :=
  match calls with
  | [] => Some (m, [])
  | Push t now :: calls =>
      let '(accepted, m) := push t now m in
      match run calls m with
      | Some (m, ts) => Some (m, if accepted then t :: ts else ts)
      | None => None
      end
  | Tick f now reset_now :: calls =>
      match tick f now reset_now m with None => None | Some m => run calls m end
  end.

(** The clock does not go back, and times stay in range: 2^62 nanoseconds are 146 years. *)
Fixpoint in_time (last : Z) (calls : list timer_call) : Prop :=
  match calls with
  | [] => True
  | Push t now :: calls => last <= now < 2 ^ 62 /\ m_expireTime t < 2 ^ 63 /\ in_time now calls
  | Tick _ now reset_now :: calls => last <= now <= reset_now /\ reset_now < 2 ^ 62 /\ in_time reset_now calls
  end.

(** A timer its owner was done with at one of the ticks. *)
Definition given_up (calls : list timer_call) (t : Timer) : Prop :=
  exists f now reset_now, Tick f now reset_now ∈ calls /\ f t = true.

Lemma run_inv calls last m :
  wheel_inv last m -> in_time last calls ->
  exists m' ts dropped last', run calls m = Some (m', ts) /\ wheel_inv last' m' /\
    m_tickDuration m' = m_tickDuration m /\ Forall (given_up calls) dropped /\
    contents m' ++ handled m' ++ dropped ≡ₚ ts ++ contents m ++ handled m.
Proof.
  revert last m. induction calls as [|[t now|f now now'] calls IH]; intros last m Hinv Ht; cbn [run in_time] in *.
  - exists m, [], [], last. rewrite app_nil_r. by split_and!.
  - destruct Ht as (Hn & He & Ht).
    destruct (push_inv t now m) as (H1 & H2 & H3); [apply (wheel_inv_later last); [lia|done]|lia|].
    destruct (push t now m) as [accepted m1]. cbn [fst snd] in *.
    destruct (IH now m1 H1 Ht) as (m' & ts & d & last' & -> & I1 & I2 & I3 & I4).
    eexists m', _, d, last'. split; [done|]. split_and!; [done|congruence| |].
    + eapply Forall_impl; [exact I3|]. intros u (f & n & n' & Hf & Hu). exists f, n, n'. split; [by right|done].
    + rewrite I4, H3. destruct accepted; cbn; [|done]. symmetry; apply Permutation_middle.
  - destruct Ht as (Hn & Hr & Ht).
    destruct (tick_inv f now now' m) as (m1 & -> & H1 & (d1 & Hd1 & H2) & H3 & _); [apply (wheel_inv_later last); [lia|done]|lia|].
    destruct (IH now' m1 H1 Ht) as (m' & ts & d & last' & -> & I1 & I2 & I3 & I4).
    exists m', ts, (d1 ++ d), last'. split; [done|]. split_and!; [done|congruence| |].
    + apply Forall_app. split.
      * eapply Forall_impl; [exact Hd1|]. intros u Hu. exists f, now, now'. split; [by left|done].
      * eapply Forall_impl; [exact I3|]. intros u (f' & n & n' & Hf & Hu). exists f', n, n'. split; [by right|done].
    + rewrite (Permutation_app_comm d1 d), (app_assoc (handled m')), (app_assoc (contents m')), I4, <- !app_assoc.
      by rewrite H2.
Qed.

Lemma new_manager_stored tick now l s t : ~ stored (new_manager tick now) l s t.
Proof. intros (ts & Hs & Hts). apply lookup_replicate_1 in Hs as [-> _]. by apply not_elem_of_nil in Hts. Qed.

Lemma new_manager_contents tick now : contents (new_manager tick now) = [].
Proof.
  destruct (contents (new_manager tick now)) as [|u us] eqn:E; [done|].
  assert (u ∈ contents (new_manager tick now)) as Hu by (rewrite E; by left).
  apply stored_contents in Hu as (l & s & Hu). by apply new_manager_stored in Hu.
Qed.

Lemma new_manager_inv tick now : 0 < tick < 2 ^ 62 -> 0 <= now < 2 ^ 62 -> wheel_inv now (new_manager tick now).
Proof.
  intros Ht Hn. split.
  - split; cbn [m_tickDuration m_currentTick m_startTime m_wheel new_manager]; [lia| |lia|lia|].
    + intros l. by rewrite length_replicate.
    + rewrite Z.sub_diag, Z.div_0_l by lia. lia.
  - by rewrite new_manager_contents.
  - intros l s t Hst. by apply new_manager_stored in Hst.
Qed.

(** ** Properties *)

(** No timer is lost and none fires twice. On every sequence of [push] and [tick] calls, whatever the
    intervals between them, the calls return, and the timers accepted by [push] are, each once, those
    still in the wheels, those whose [handleTimeout] was called, and those whose owner had cancelled or
    completed them by the time of a tick; [m_size] counts the wheels exactly. *)
Theorem timers_conserved tickDuration start calls :
  0 < tickDuration < 2 ^ 62 -> 0 <= start < 2 ^ 62 -> in_time start calls ->
  exists m accepted dropped, run calls (new_manager tickDuration start) = Some (m, accepted) /\
    accepted ≡ₚ contents m ++ handled m ++ dropped /\ Forall (given_up calls) dropped /\
    m_size m = blen (contents m).
Proof.
  intros Ht Hs Hc.
  destruct (run_inv calls start _ (new_manager_inv tickDuration start Ht Hs) Hc) as (m & ts & d & last' & -> & H1 & _ & H2 & H3).
  exists m, ts, d. split_and!; [done| |done|by apply H1]. rewrite H3, new_manager_contents.
  by rewrite app_nil_r.
Qed.

(** C40: No timer is late by two ticks. Whatever was called before and however long ago, after [tick] at a
    time [now] every timer still in the wheels expires after [now - 2 * tickDuration]; the loop over the
    ticks and all cascades terminate. *)
Theorem no_timer_overdue tickDuration start calls f now reset_now :
  0 < tickDuration < 2 ^ 62 -> 0 <= start < 2 ^ 62 -> in_time start (calls ++ [Tick f now reset_now]) ->
  exists m accepted, run (calls ++ [Tick f now reset_now]) (new_manager tickDuration start) = Some (m, accepted) /\
    forall t, t ∈ contents m -> now - 2 * tickDuration < m_expireTime t.
Proof.
  intros Ht Hs. pose proof (new_manager_inv tickDuration start Ht Hs) as Hinv.
  assert (m_tickDuration (new_manager tickDuration start) = tickDuration) as Htk by done.
  revert Hinv Htk. generalize (new_manager tickDuration start) as m0. clear Hs.
  revert start. induction calls as [|[t n|g n n'] calls IH]; intros start m0 Hinv Htk; cbn [app run in_time].
  - intros (Hn & Hr & _). destruct (tick_inv f now reset_now m0) as (m & -> & _ & _ & _ & Hl);
      [apply (wheel_inv_later start); [lia|done]|lia|]. eexists m, _. split; [done|]. by rewrite <- Htk.
  - intros (Hn & He & Hc). destruct (push_inv t n m0) as (H1 & H2 & _); [apply (wheel_inv_later start); [lia|done]|lia|].
    destruct (push t n m0) as [a m1]. cbn [fst snd] in *.
    destruct (IH n m1 H1 ltac:(congruence) Hc) as (m & ts & -> & Hl). by eexists m, _.
  - intros (Hn & Hr & Hc). destruct (tick_inv g n n' m0) as (m1 & -> & H1 & _ & H3 & _);
      [apply (wheel_inv_later start); [lia|done]|lia|].
    exact (IH n' m1 H1 ltac:(congruence) Hc).
Qed.

(** ** Witnesses and examples *)

Definition sample_calls : list timer_call :=
  [Push (mkTimer 1 1000) 100; Push (mkTimer 2 900000) 150; Push (mkTimer 3 120) 200;
   Tick (fun t => bool_decide (t_id t = 2%nat)) 1030 1031].

Lemma sample_in_time : in_time 100 sample_calls.
Proof. cbn. lia. Qed.

Lemma timers_conserved_witness :
  exists m accepted dropped, run sample_calls (new_manager 10 100) = Some (m, accepted) /\
    accepted ≡ₚ contents m ++ handled m ++ dropped /\ Forall (given_up sample_calls) dropped /\
    m_size m = blen (contents m).
Proof. apply (timers_conserved 10 100 sample_calls); [lia|lia|cbn; lia]. Defined.

Lemma no_timer_overdue_witness :
  exists m accepted, run sample_calls (new_manager 10 100) = Some (m, accepted) /\
    forall t, t ∈ contents m -> 1030 - 2 * 10 < m_expireTime t.
Proof.
  apply (no_timer_overdue 10 100 [Push (mkTimer 1 1000) 100; Push (mkTimer 2 900000) 150; Push (mkTimer 3 120) 200]);
    [lia|lia|cbn; lia].
Defined.

Example sample_run :
  (fun r => (handled r.1, contents r.1, m_size r.1, r.2)) <$> run sample_calls (new_manager 10 100) =
    Some ([mkTimer 3 120; mkTimer 1 1000], [mkTimer 2 900000], 1,
      [mkTimer 1 1000; mkTimer 2 900000; mkTimer 3 120]).
Proof. by vm_compute. Qed.

(** A timer can fire long before it expires: [push] places by the clock while [m_currentTick] still lags
    behind it, so the slot is reached in the pass that catches up. Timer 2 is pushed at time 2000 for
    time 3000 and fires at the tick of time 2010. *)
Example fires_early :
  (fun r => (handled r.1, contents r.1)) <$>
    run [Push (mkTimer 1 50000) 0; Push (mkTimer 2 3000) 2000; Tick (fun _ => false) 2010 2010] (new_manager 10 0) =
    Some ([mkTimer 2 3000], [mkTimer 1 50000]).
Proof. by vm_compute. Qed.
