(* ===== verification/Crc32c.v ===== *)
(** The CRC-32C of MongoDB's wire protocol ([galay-mongo/protoc/crc32c.cc]): the table built at compile
    time, the byte loop of [crc32c] and, as what it stands for, the shift register that takes the message
    one bit at a time, the low bit of each byte first. *)

From Stdlib Require Import ZArith Lia Strings.Byte.
From stdpp Require Import base list numbers strings.
From S2P Require Import Prelude.

Open Scope Z_scope.

(** ** The code *)

Definition kInitialCrc32c : Z := 0xFFFFFFFF.
Definition kCastagnoliReflectedPolynomial : Z := 0x82F63B78.

(** One turn of the inner loop: [mask = 0u - (crc & 1u)], [crc = (crc >> 1) ^ (polynomial & mask)]. *)
Definition table_bit (crc : Z) : Z :=
  let mask := wrap32 (0 - Z.land crc 1) in
  Z.lxor (Z.shiftr crc 1) (Z.land kCastagnoliReflectedPolynomial mask).

Definition table_entry (i : Z) : Z := Nat.iter 8 table_bit i.

Definition makeCrc32cTable : list Z := map table_entry (seqZ 0 256).

Definition kCrc32cTable : list Z := Eval vm_compute in makeCrc32cTable.

(** One turn of the byte loop; [None]: an index outside the table. *)
Definition crc_byte (crc : Z) (b : byte) : option Z :=
  let table_index := Z.land (Z.lxor crc (b2z b)) 0xFF in
  entry ← kCrc32cTable !! Z.to_nat table_index;
  Some (Z.lxor (Z.shiftr crc 8) entry).

Fixpoint crc_bytes (crc : Z) (data : bytes) : option Z :=
  match data with
  | [] => Some crc
  | b :: data => crc ← crc_byte crc b; crc_bytes crc data
  end.

(** [~crc] on 32 bits. *)
Definition not32 (x : Z) : Z := Z.lxor x 0xFFFFFFFF.

Definition crc32c (data : bytes) : option Z := not32 <$> crc_bytes kInitialCrc32c data.

(** ** The shift register *)

(** A 32-bit register that takes one bit of the message: the bit is added to the low one, and when the
    sum is one the polynomial is subtracted. *)
Definition shift_in (crc : Z) (bit : bool) : Z :=
  if xorb (Z.odd crc) bit then Z.lxor (Z.shiftr crc 1) kCastagnoliReflectedPolynomial else Z.shiftr crc 1.

Definition bits_of (b : byte) : list bool := map (fun i => Z.testbit (b2z b) i) (seqZ 0 8).

Definition crc32c_register (data : bytes) : Z :=
  not32 (fold_left shift_in (concat (map bits_of data)) kInitialCrc32c).

(** ** The register as a linear map *)

Definition in32 (x : Z) : Prop := 0 <= x < 2 ^ 32.

Lemma table_bit_eq crc :
  table_bit crc = Z.lxor (Z.shiftr crc 1) (if Z.odd crc then kCastagnoliReflectedPolynomial else 0).
Proof.
  unfold table_bit. change (Z.land crc 1) with (Z.land crc (Z.ones 1)). rewrite Z.land_ones by lia.
  change (2 ^ 1) with 2. rewrite Zmod_odd. by destruct (Z.odd crc).
Qed.

Lemma shift_in_eq crc bit : shift_in crc bit = table_bit (Z.lxor crc (Z.b2z bit)).
Proof.
  rewrite table_bit_eq. unfold shift_in.
  assert (Z.odd (Z.lxor crc (Z.b2z bit)) = xorb (Z.odd crc) bit) as ->.
  { rewrite <- !Z.bit0_odd, Z.lxor_spec. by destruct bit. }
  rewrite Z.shiftr_lxor. replace (Z.shiftr (Z.b2z bit) 1) with 0 by (by destruct bit).
  rewrite Z.lxor_0_r. destruct (xorb _ _); [done|]. by rewrite Z.lxor_0_r.
Qed.

(** The two exclusive ors of four terms regrouped. *)
Lemma lxor_swap a b c d : Z.lxor (Z.lxor a b) (Z.lxor c d) = Z.lxor (Z.lxor a c) (Z.lxor b d).
Proof. rewrite !Z.lxor_assoc. f_equal. rewrite <- !Z.lxor_assoc. f_equal. apply Z.lxor_comm. Qed.

Lemma table_bit_linear a b : table_bit (Z.lxor a b) = Z.lxor (table_bit a) (table_bit b).
Proof.
  rewrite !table_bit_eq, Z.shiftr_lxor, lxor_swap. f_equal.
  rewrite <- !Z.bit0_odd, Z.lxor_spec, !Z.bit0_odd.
  destruct (Z.odd a), (Z.odd b); simpl; rewrite ?Z.lxor_nilpotent, ?Z.lxor_0_r, ?Z.lxor_0_l; done.
Qed.

Lemma table_bits_linear n a b :
  Nat.iter n table_bit (Z.lxor a b) = Z.lxor (Nat.iter n table_bit a) (Nat.iter n table_bit b).
Proof. induction n as [|n IH]; simpl; [done|]. by rewrite IH, table_bit_linear. Qed.

Lemma table_bit_double y : table_bit (2 * y) = y.
Proof.
  rewrite table_bit_eq, Z.odd_mul. simpl. rewrite Z.lxor_0_r.
  rewrite Z.shiftr_div_pow2 by lia. change (2 ^ 1) with 2. by rewrite Z.mul_comm, Z.div_mul.
Qed.

Lemma table_bits_shifted n y : Nat.iter n table_bit (y * 2 ^ Z.of_nat n) = y.
Proof.
  revert y. induction n as [|n IH]; intros y; [simpl; lia|].
  rewrite Nat.iter_succ_r. replace (y * 2 ^ Z.of_nat (S n)) with (2 * (y * 2 ^ Z.of_nat n)).
  - by rewrite table_bit_double.
  - rewrite Nat2Z.inj_succ, Z.pow_succ_r by lia. lia.
Qed.

Lemma lxor_range x y : in32 x -> in32 y -> in32 (Z.lxor x y).
Proof.
  unfold in32. intros Hx Hy. replace (Z.lxor x y) with (Z.lxor x y mod 2 ^ 32); [by apply Z.mod_pos_bound|].
  rewrite <- (Z.mod_small x (2 ^ 32)), <- (Z.mod_small y (2 ^ 32)) at 2 by done.
  apply Z.bits_inj'. intros n Hn. rewrite Z.lxor_spec. destruct (Z.lt_ge_cases n 32).
  - by rewrite !Z.mod_pow2_bits_low, Z.lxor_spec by done.
  - by rewrite !Z.mod_pow2_bits_high by lia.
Qed.

Lemma table_bit_range x : in32 x -> in32 (table_bit x).
Proof.
  intros Hx. rewrite table_bit_eq. apply lxor_range; [|by destruct (Z.odd x)].
  unfold in32 in *. rewrite Z.shiftr_div_pow2 by lia.
  split; [by apply Z.div_pos; lia | apply Z.div_lt_upper_bound; lia].
Qed.

Lemma table_bits_range n x : in32 x -> in32 (Nat.iter n table_bit x).
Proof. intros Hx. induction n as [|n IH]; [done|]. by apply table_bit_range. Qed.

(** The step loses nothing: the polynomial's top bit records the bit that was shifted out. *)
Lemma table_bit_inj x y : in32 x -> in32 y -> table_bit x = table_bit y -> x = y.
Proof.
  unfold in32. intros Hx Hy E.
  assert (Htop : forall z, 0 <= z < 2 ^ 32 -> Z.testbit (table_bit z) 31 = Z.odd z).
  { intros z Hz. rewrite table_bit_eq, Z.lxor_spec, Z.shiftr_spec by lia.
    rewrite <- (Z.mod_small z (2 ^ 32)) at 1 by lia. rewrite Z.mod_pow2_bits_high by lia.
    by destruct (Z.odd z). }
  assert (Hodd : Z.odd x = Z.odd y) by (rewrite <- !Htop by done; by rewrite E).
  rewrite !table_bit_eq, Hodd in E.
  assert (Z.shiftr x 1 = Z.shiftr y 1) as E2.
  { apply (f_equal (fun z => Z.lxor z (if Z.odd y then kCastagnoliReflectedPolynomial else 0))) in E.
    by rewrite !Z.lxor_assoc, Z.lxor_nilpotent, !Z.lxor_0_r in E. }
  rewrite !Z.shiftr_div_pow2 in E2 by lia. change (2 ^ 1) with 2 in E2.
  rewrite (Z.div_mod x 2), (Z.div_mod y 2), E2, !Zmod_odd, Hodd by lia. done.
Qed.

Lemma table_bits_inj n x y : in32 x -> in32 y -> Nat.iter n table_bit x = Nat.iter n table_bit y -> x = y.
Proof.
  intros Hx Hy. induction n as [|n IH]; [done|]. simpl. intros E.
  apply IH, table_bit_inj, E; by apply table_bits_range.
Qed.

Lemma lxor_byte_range crc b : in32 crc -> in32 (Z.lxor crc (b2z b)).
Proof. intros H. apply lxor_range; [done|]. pose proof (b2z_range b). unfold in32. lia. Qed.

(** ** The table-driven loop *)

Lemma kCrc32cTable_eq : kCrc32cTable = makeCrc32cTable.
Proof. vm_compute. reflexivity. Qed.

Lemma table_entry_linear x y : table_entry (Z.lxor x y) = Z.lxor (table_entry x) (table_entry y).
Proof. unfold table_entry. apply table_bits_linear. Qed.

Lemma table_entry_shifted y : table_entry (y * 2 ^ 8) = y.
Proof. unfold table_entry. exact (table_bits_shifted 8 y). Qed.

Lemma table_entry_range x : in32 x -> in32 (table_entry x).
Proof. unfold table_entry. apply table_bits_range. Qed.

Lemma table_entry_inj x y : in32 x -> in32 y -> table_entry x = table_entry y -> x = y.
Proof. unfold table_entry. apply table_bits_inj. Qed.

Lemma crc_table_lookup i : 0 <= i < 256 -> kCrc32cTable !! Z.to_nat i = Some (table_entry i).
Proof.
  intros Hi. rewrite kCrc32cTable_eq. unfold makeCrc32cTable.
  change (map table_entry (seqZ 0 256)) with (table_entry <$> seqZ 0 256).
  rewrite list_lookup_fmap, lookup_seqZ_lt by lia. cbn [fmap option_fmap option_map].
  do 2 f_equal. lia.
Qed.

Lemma table_entry_steps x : table_entry x = Nat.iter 8 table_bit x.
Proof. reflexivity. Qed.

#[local] Opaque table_entry.

(** The low byte looks the table up, the rest is shifted down. *)
Lemma table_entry_split x : table_entry x = Z.lxor (Z.shiftr x 8) (table_entry (x mod 256)).
Proof.
  pose proof (Z.mod_pos_bound x 256 eq_refl).
  rewrite <- (table_entry_shifted (Z.shiftr x 8)) at 1. rewrite <- table_entry_linear. f_equal.
  rewrite Z.lxor_lor by (apply land_mul_pow2_small; lia).
  rewrite <- Z.shiftl_mul_pow2 by lia. rewrite lor_shiftl_add by lia.
  rewrite Z.shiftr_div_pow2 by lia. change (2 ^ 8) with 256. pose proof (Z.div_mod x 256). lia.
Qed.

Definition absorb (crc : Z) (b : byte) : Z := table_entry (Z.lxor crc (b2z b)).

(** A byte of the message is eight turns of the register, and the index is inside the table. *)
Lemma crc_byte_eq crc b : crc_byte crc b = Some (absorb crc b).
Proof.
  unfold crc_byte, absorb. rewrite land_255, crc_table_lookup by (by apply Z.mod_pos_bound).
  cbn [mbind option_bind]. f_equal. rewrite (table_entry_split (Z.lxor crc (b2z b))). f_equal.
  rewrite Z.shiftr_lxor. pose proof (b2z_range b).
  rewrite (Z.shiftr_div_pow2 (b2z b)) by lia.
  rewrite (Z.div_small (b2z b)) by lia. by rewrite Z.lxor_0_r.
Qed.

Lemma crc_bytes_fold (f : Z -> byte -> Z) :
  (forall crc b, crc_byte crc b = Some (f crc b)) ->
  forall data crc, crc_bytes crc data = Some (fold_left f data crc).
Proof.
  intros Hf. induction data as [|b data IH]; intros crc; [reflexivity|].
  cbn [crc_bytes fold_left]. rewrite Hf. cbn [mbind option_bind]. apply IH.
Qed.

(** The value of a string of bits, the lowest first. *)
Fixpoint bits_value (bits : list bool) : Z :=
  match bits with
  | [] => 0
  | b :: bits => Z.lxor (Z.b2z b) (2 * bits_value bits)
  end.

Lemma shift_in_bits bits crc :
  fold_left shift_in bits crc = Nat.iter (length bits) table_bit (Z.lxor crc (bits_value bits)).
Proof.
  revert crc. induction bits as [|b bits IH]; intros crc; [simpl; by rewrite Z.lxor_0_r|].
  cbn [fold_left bits_value length]. rewrite IH, Nat.iter_succ_r, shift_in_eq. f_equal.
  by rewrite <- (Z.lxor_assoc crc), (table_bit_linear (Z.lxor crc _)), table_bit_double.
Qed.

Lemma bits_of_value b : bits_value (bits_of b) = b2z b.
Proof. destruct b; vm_compute; reflexivity. Qed.

Lemma bits_of_length b : length (bits_of b) = 8%nat.
Proof. reflexivity. Qed.

Lemma shift_in_byte crc b : fold_left shift_in (bits_of b) crc = absorb crc b.
Proof.
  rewrite shift_in_bits, bits_of_value, bits_of_length.
  exact (eq_sym (table_entry_steps (Z.lxor crc (b2z b)))).
Qed.

Lemma absorb_range crc b : in32 crc -> in32 (absorb crc b).
Proof. intros. by apply table_entry_range, lxor_byte_range. Qed.

Lemma lxor_cancel_r a b c : Z.lxor a c = Z.lxor b c -> a = b.
Proof.
  intros E. apply (f_equal (fun z => Z.lxor z c)) in E.
  by rewrite !Z.lxor_assoc, Z.lxor_nilpotent, !Z.lxor_0_r in E.
Qed.

Lemma absorb_state_inj x y b : in32 x -> in32 y -> absorb x b = absorb y b -> x = y.
Proof.
  intros Hx Hy E. apply table_entry_inj in E; [|by apply lxor_byte_range..]. by apply lxor_cancel_r in E.
Qed.

Lemma absorb_byte_inj x b b' : in32 x -> absorb x b = absorb x b' -> b = b'.
Proof.
  intros Hx E. apply table_entry_inj in E; [|by apply lxor_byte_range..].
  rewrite !(Z.lxor_comm x) in E. apply lxor_cancel_r in E. by apply b2z_inj.
Qed.

(** Folds of a step that keeps the register in range and loses nothing. *)
Section Fold.
  Context (f : Z -> byte -> Z) (g : Z -> bool -> Z).
  Hypothesis f_range : forall crc b, in32 crc -> in32 (f crc b).
  Hypothesis f_inj : forall x y b, in32 x -> in32 y -> f x b = f y b -> x = y.
  Hypothesis f_bits : forall crc b, fold_left g (bits_of b) crc = f crc b.

Lemma fold_range data crc : in32 crc -> in32 (fold_left f data crc).
Proof. revert crc. induction data as [|b data IH]; intros crc H; [done|]. apply IH, f_range, H. Qed.

Lemma fold_inj data x y : in32 x -> in32 y -> fold_left f data x = fold_left f data y -> x = y.
Proof.
  revert x y. induction data as [|b data IH]; intros x y Hx Hy E; [done|].
  apply (f_inj _ _ b); [done..|]. apply IH; [by apply f_range..|done].
Qed.

Lemma fold_byte p b b' s x :
  (forall y c c', in32 y -> f y c = f y c' -> c = c') ->
  in32 x -> fold_left f (p ++ b :: s) x = fold_left f (p ++ b' :: s) x -> b = b'.
Proof.
  intros Hf Hx E. rewrite !fold_left_app in E. cbn [fold_left] in E.
  assert (in32 (fold_left f p x)) by (by apply fold_range).
  apply fold_inj in E; [|by apply f_range..]. by apply Hf in E.
Qed.

Lemma fold_bits data crc : fold_left g (concat (map bits_of data)) crc = fold_left f data crc.
Proof.
  revert crc. induction data as [|b data IH]; intros crc; [done|].
  cbn [map concat fold_left]. by rewrite fold_left_app, f_bits, IH.
Qed.

End Fold.

Lemma shift_in_bytes data crc : fold_left shift_in (concat (map bits_of data)) crc = fold_left absorb data crc.
Proof. apply fold_bits, shift_in_byte. Qed.

Lemma absorb_all_range data crc : in32 crc -> in32 (fold_left absorb data crc).
Proof. apply fold_range, absorb_range. Qed.

(** ** What a checksum is worth *)

(** the table-driven checksum never leaves its table and, for every message, is the one of the shift
    register over the Castagnoli polynomial that takes the message bit by bit. *)
Theorem crc32c_is_register data : crc32c data = Some (crc32c_register data).
Proof.
  unfold crc32c, crc32c_register. rewrite (crc_bytes_fold absorb crc_byte_eq), shift_in_bytes. reflexivity.
Qed.

Lemma crc32c_range data : in32 (crc32c_register data).
Proof.
  unfold crc32c_register, not32. rewrite shift_in_bytes. by apply lxor_range; [apply absorb_all_range|].
Qed.

(** Two messages that differ in one byte have different checksums. *)
Lemma crc32c_byte_changes p b b' s :
  b <> b' -> crc32c_register (p ++ b :: s) <> crc32c_register (p ++ b' :: s).
Proof.
  unfold crc32c_register, not32. intros Hne E%lxor_cancel_r. apply Hne. rewrite !shift_in_bytes in E.
  revert E. apply (fold_byte absorb absorb_range absorb_state_inj); [apply absorb_byte_inj|done].
Qed.

(** The check value of the CRC catalogue, the checksum of the digits one to nine. *)
Example crc32c_check_value : crc32c (bs "123456789") = Some 0xE3069283.
Proof. vm_compute. reflexivity. Qed.
