(* ===== verification/MongoValue.v ===== *)
(** The values of the MongoDB client ([galay-mongo/base/mongo_value.h] and [mongo_value.cc]):
    [MongoValue] is a variant storage with a type tag beside it, [MongoDocument] a vector of fields in
    insertion order, [MongoArray] a vector of values, [MongoReply] a document with the questions asked of
    a server's answer.

    Copies are deleted in the code and a [shared_ptr] of a value is never shared, so a document is a tree;
    a null pointer is what a move leaves behind. A [double] is its 64-bit pattern, compared and converted
    as the IEEE 754 number it stands for; a cast of the code that is undefined has no result here. *)

From Stdlib Require Import ZArith Lia Strings.Byte Floats.SpecFloat.
From stdpp Require Import base list numbers strings.
From S2P Require Import Prelude.

Open Scope Z_scope.

(** ** Machine numbers *)

(** [static_cast<int32_t>] and [static_cast<int64_t>] of an integer. *)
Definition sint32 (z : Z) : Z := (z + 2 ^ 31) mod 2 ^ 32 - 2 ^ 31.
Definition sint64 (z : Z) : Z := (z + 2 ^ 63) mod 2 ^ 64 - 2 ^ 63.

(** The number a [double] stands for. *)
Definition double_value (bits : Z) : spec_float :=
  let sign := 2 ^ 63 <=? bits in
  let e := Z.shiftr bits 52 mod 2 ^ 11 in
  let m := bits mod 2 ^ 52 in
  if e =? 2047 then (if m =? 0 then S754_infinity sign else S754_nan)
  else if e =? 0 then
    match m with Zpos p => S754_finite sign p (-1074) | _ => S754_zero sign end
  else match m + 2 ^ 52 with Zpos p => S754_finite sign p (e - 1075) | _ => S754_nan end.

Definition double_bits (x : spec_float) : Z :=
  let sign (s : bool) := if s then 2 ^ 63 else 0 in
  match x with
  | S754_zero s => sign s
  | S754_infinity s => sign s + 2047 * 2 ^ 52
  | S754_nan => 2047 * 2 ^ 52 + 2 ^ 51
  | S754_finite s m e =>
      if Zpos m <? 2 ^ 52 then sign s + Zpos m else sign s + (e + 1075) * 2 ^ 52 + (Zpos m - 2 ^ 52)
  end.

(** [static_cast<double>] of an integer, and [static_cast<intN_t>] of a [double]: undefined when the
    truncated number is not one of the type. *)
Definition double_of_int (z : Z) : Z := double_bits (binary_normalize 53 1024 z 0 false).

Definition int_of_double (lo hi : Z) (bits : Z) : option Z :=
  let within z := if (lo <=? z) && (z <=? hi) then Some z else None in
  match double_value bits with
  | S754_zero _ => within 0
  | S754_finite s m e =>
      let q := if 0 <=? e then Zpos m * 2 ^ e else Zpos m / 2 ^ (- e) in
      within (if s then - q else q)
  | _ => None
  end.

Definition one_bits : Z := 0x3FF0000000000000.
Definition tiny_bits : Z := 0x3D719799812DEA11.

(** ** Values *)

Inductive MongoValueType : Type :=
| Type_Null | Type_Bool | Type_Int32 | Type_Int64 | Type_Double | Type_String | Type_Binary
| Type_Document | Type_Array | Type_ObjectId | Type_DateTime | Type_Timestamp.

#[export] Instance MongoValueType_eq_dec : EqDecision MongoValueType.
Proof. solve_decision. Defined.

Inductive Storage (V : Type) : Type :=
| In_null
| In_bool (b : bool)
| In_int32 (n : Z)
| In_int64 (n : Z)
| In_double (bits : Z)
| In_string (s : bytes)
| In_binary (b : bytes)
| In_document (p : option (list (bytes * V)))
| In_array (p : option (list V)).
Arguments In_null {V}.
Arguments In_bool {V}.
Arguments In_int32 {V}.
Arguments In_int64 {V}.
Arguments In_double {V}.
Arguments In_string {V}.
Arguments In_binary {V}.
Arguments In_document {V}.
Arguments In_array {V}.

Inductive MongoValue : Type :=
  mkValue { m_storage : Storage MongoValue; m_type_tag : MongoValueType }.

(** [m_fields] and [m_values]. *)
Abbreviation MongoDocument := (list (bytes * MongoValue)).
Abbreviation MongoArray := (list MongoValue).

(** The constructors; the tag is [Null] unless given. *)
Definition untagged (s : Storage MongoValue) : MongoValue := mkValue s Type_Null.
Definition value_null : MongoValue := untagged In_null.
Definition value_bool (b : bool) : MongoValue := untagged (In_bool b).
Definition value_int32 (n : Z) : MongoValue := untagged (In_int32 n).
Definition value_int64 (n : Z) : MongoValue := untagged (In_int64 n).
Definition value_double (bits : Z) : MongoValue := untagged (In_double bits).
Definition value_string (s : bytes) : MongoValue := untagged (In_string s).
Definition value_binary (b : bytes) : MongoValue := untagged (In_binary b).
Definition value_document (d : MongoDocument) : MongoValue := untagged (In_document (Some d)).
Definition value_array (a : MongoArray) : MongoValue := untagged (In_array (Some a)).
Definition tagged_object_id (oid : bytes) : MongoValue := mkValue (In_string oid) Type_ObjectId.

Definition is_hex (c : Z) : bool :=
  ((48 <=? c) && (c <=? 57)) || ((97 <=? c) && (c <=? 102)) || ((65 <=? c) && (c <=? 70)).

Definition isHexObjectId (oid : bytes) : bool :=
  (blen oid =? 24) && forallb (fun b => is_hex (b2z b)) oid.

(** [None]: "ObjectId must be a 24-character hex string". *)
Definition fromObjectId (oid : bytes) : option MongoValue :=
  if isHexObjectId oid then Some (tagged_object_id oid) else None.
Definition fromDateTime (millis : Z) : MongoValue := mkValue (In_int64 millis) Type_DateTime.
Definition fromTimestamp (ts : Z) : MongoValue := mkValue (In_int64 (sint64 ts)) Type_Timestamp.

Definition type (v : MongoValue) : MongoValueType :=
  match m_type_tag v with
  | Type_ObjectId => Type_ObjectId
  | Type_DateTime => Type_DateTime
  | Type_Timestamp => Type_Timestamp
  | _ =>
      match m_storage v with
      | In_null => Type_Null
      | In_bool _ => Type_Bool
      | In_int32 _ => Type_Int32
      | In_int64 _ => Type_Int64
      | In_double _ => Type_Double
      | In_string _ => Type_String
      | In_binary _ => Type_Binary
      | In_document _ => Type_Document
      | In_array _ => Type_Array
      end
  end.

Definition isBool (v : MongoValue) : bool := match m_storage v with In_bool _ => true | _ => false end.
Definition isString (v : MongoValue) : bool := match m_storage v with In_string _ => true | _ => false end.
Definition isDocument (v : MongoValue) : bool := match m_storage v with In_document _ => true | _ => false end.
Definition isArray (v : MongoValue) : bool := match m_storage v with In_array _ => true | _ => false end.

(** ** Reading a value *)

Definition toBool (v : MongoValue) (default_value : bool) : bool :=
  match m_storage v with
  | In_bool b => b
  | In_int32 n => negb (n =? 0)
  | In_int64 n => negb (n =? 0)
  | In_double x => SFltb (double_value tiny_bits) (SFabs (double_value x))
  | _ => default_value
  end.

Definition toInt32 (v : MongoValue) (default_value : Z) : option Z :=
  match m_storage v with
  | In_int32 n => Some n
  | In_int64 n => Some (sint32 n)
  | In_double x => int_of_double (- 2 ^ 31) (2 ^ 31 - 1) x
  | In_bool b => Some (if b then 1 else 0)
  | _ => Some default_value
  end.

Definition toInt64 (v : MongoValue) (default_value : Z) : option Z :=
  match m_storage v with
  | In_int64 n => Some n
  | In_int32 n => Some n
  | In_double x => int_of_double (- 2 ^ 63) (2 ^ 63 - 1) x
  | In_bool b => Some (if b then 1 else 0)
  | _ => Some default_value
  end.

Definition toDouble (v : MongoValue) (default_value : Z) : Z :=
  match m_storage v with
  | In_double x => x
  | In_int64 n => double_of_int n
  | In_int32 n => double_of_int n
  | In_bool b => if b then one_bits else 0
  | _ => default_value
  end.

Definition toString (v : MongoValue) : bytes := match m_storage v with In_string s => s | _ => [] end.
Definition toBinary (v : MongoValue) : bytes := match m_storage v with In_binary b => b | _ => [] end.
Definition toDocument (v : MongoValue) : MongoDocument :=
  match m_storage v with In_document (Some d) => d | _ => [] end.
Definition toArray (v : MongoValue) : MongoArray :=
  match m_storage v with In_array (Some a) => a | _ => [] end.

(** [asDocument] and [asArray] replace the storage of a value of another kind; the tag stays. *)
Definition asDocument (v : MongoValue) : MongoValue :=
  match m_storage v with
  | In_document (Some _) => v
  | _ => mkValue (In_document (Some [])) (m_type_tag v)
  end.
Definition asArray (v : MongoValue) : MongoValue :=
  match m_storage v with
  | In_array (Some _) => v
  | _ => mkValue (In_array (Some [])) (m_type_tag v)
  end.

(** ** Documents and arrays *)

Definition document_append (d : MongoDocument) (key : bytes) (value : MongoValue) : MongoDocument :=
  d ++ [(key, value)].

Fixpoint document_find (d : MongoDocument) (key : bytes) : option MongoValue :=
  match d with
  | [] => None
  | (name, value) :: d => if decide (name = key) then Some value else document_find d key
  end.

(** The loop of [set]; [None]: the key was not met. *)
Fixpoint assign_existing (d : MongoDocument) (key : bytes) (value : MongoValue) : option MongoDocument :=
  match d with
  | [] => None
  | (name, existing) :: d =>
      if decide (name = key) then Some ((name, value) :: d)
      else cons (name, existing) <$> assign_existing d key value
  end.

Definition document_set (d : MongoDocument) (key : bytes) (value : MongoValue) : MongoDocument :=
  match assign_existing d key value with
  | Some d' => d'
  | None => document_append d key value
  end.

Definition document_has (d : MongoDocument) (key : bytes) : bool :=
  match document_find d key with Some _ => true | None => false end.

Definition getString (d : MongoDocument) (key default_value : bytes) : bytes :=
  match document_find d key with
  | Some v => if isString v then toString v else default_value
  | None => default_value
  end.
Definition getInt32 (d : MongoDocument) (key : bytes) (default_value : Z) : option Z :=
  match document_find d key with Some v => toInt32 v default_value | None => Some default_value end.
Definition getInt64 (d : MongoDocument) (key : bytes) (default_value : Z) : option Z :=
  match document_find d key with Some v => toInt64 v default_value | None => Some default_value end.
Definition getDouble (d : MongoDocument) (key : bytes) (default_value : Z) : Z :=
  match document_find d key with Some v => toDouble v default_value | None => default_value end.
Definition getBool (d : MongoDocument) (key : bytes) (default_value : bool) : bool :=
  match document_find d key with Some v => toBool v default_value | None => default_value end.

Definition array_append (a : MongoArray) (value : MongoValue) : MongoArray := a ++ [value].

(** [None]: "MongoArray index out of range". *)
Definition array_at (a : MongoArray) (index : Z) : option MongoValue :=
  if blen a <=? index then None else nth_error a (Z.to_nat index).

(** ** Copies *)

(** The loops of [MongoArray::clone] and [MongoDocument::clone]. *)
Definition clone_values (clone : MongoValue -> option MongoValue) : MongoArray -> MongoArray -> option MongoArray :=
  fix go (copy values : MongoArray) :=
    match values with
    | [] => Some copy
    | value :: values => match clone value with Some v => go (array_append copy v) values | None => None end
    end.

Definition clone_fields (clone : MongoValue -> option MongoValue) :
  MongoDocument -> MongoDocument -> option MongoDocument :=
  fix go (copy fields : MongoDocument) :=
    match fields with
    | [] => Some copy
    | (name, value) :: fields =>
        match clone value with Some v => go (document_append copy name v) fields | None => None end
    end.

(** [MongoValue::clone]; [None]: [std::get] throws [bad_variant_access]. *)
Fixpoint clone (v : MongoValue) : option MongoValue :=
  match type v with
  | Type_Null => Some value_null
  | Type_Bool => match m_storage v with In_bool b => Some (value_bool b) | _ => None end
  | Type_Int32 => match m_storage v with In_int32 n => Some (value_int32 n) | _ => None end
  | Type_Int64 => match m_storage v with In_int64 n => Some (value_int64 n) | _ => None end
  | Type_Double => match m_storage v with In_double x => Some (value_double x) | _ => None end
  | Type_String => match m_storage v with In_string s => Some (value_string s) | _ => None end
  | Type_Binary => match m_storage v with In_binary b => Some (value_binary b) | _ => None end
  | Type_Document =>
      match v with
      | mkValue (In_document (Some d)) _ => value_document <$> clone_fields clone [] d
      | _ => Some (value_document [])
      end
  | Type_Array =>
      match v with
      | mkValue (In_array (Some a)) _ => value_array <$> clone_values clone [] a
      | _ => Some (value_array [])
      end
  | Type_ObjectId => match m_storage v with In_string s => Some (tagged_object_id s) | _ => None end
  | Type_DateTime => match m_storage v with In_int64 n => Some (fromDateTime n) | _ => None end
  | Type_Timestamp => match m_storage v with In_int64 n => Some (fromTimestamp (wrap64 n)) | _ => None end
  end.

Definition document_clone (d : MongoDocument) : option MongoDocument := clone_fields clone [] d.

(** ** Replies *)

Record MongoReply : Type := mkReply { m_document : MongoDocument }.

Definition reply_ok (r : MongoReply) : bool :=
  match document_find (m_document r) (bs "ok") with
  | None => false
  | Some ok_field =>
      if isBool ok_field then toBool ok_field false
      else SFleb (double_value one_bits) (double_value (toDouble ok_field 0))
  end.

Definition hasCommandError (r : MongoReply) : bool := negb (reply_ok r).

Definition errorCode (r : MongoReply) : option Z := getInt32 (m_document r) (bs "code") 0.

Definition errorMessage (r : MongoReply) : bytes :=
  let message := getString (m_document r) (bs "errmsg") [] in
  match message with [] => getString (m_document r) (bs "$err") [] | _ => message end.

(** ** Values the program builds *)

Definition int32_ok (n : Z) : bool := (- 2 ^ 31 <=? n) && (n <? 2 ^ 31).
Definition int64_ok (n : Z) : bool := (- 2 ^ 63 <=? n) && (n <? 2 ^ 63).

(** The tag fits the storage, numbers have their width, an object identifier is one, no pointer is null,
    and an array has as many elements as a [size_t] can count. *)
Fixpoint value_ok (v : MongoValue) : bool :=
  match v with
  | mkValue s Type_Null =>
      match s with
      | In_int32 n => int32_ok n
      | In_int64 n => int64_ok n
      | In_double x => (0 <=? x) && (x <? 2 ^ 64)
      | In_document (Some d) => forallb (fun f => value_ok f.2) d
      | In_array (Some a) => forallb value_ok a && (blen a <? 2 ^ 64)
      | In_document None | In_array None => false
      | _ => true
      end
  | mkValue (In_string oid) Type_ObjectId => isHexObjectId oid
  | mkValue (In_int64 n) Type_DateTime => int64_ok n
  | mkValue (In_int64 n) Type_Timestamp => int64_ok n
  | _ => false
  end.

Definition document_ok (d : MongoDocument) : bool := forallb (fun f => value_ok f.2) d.

(** Induction over values, documents and arrays. *)
Section Induction.
  Variable P : MongoValue -> Prop.
  Hypothesis P_leaf : forall s t,
    (forall d, s <> In_document (Some d)) -> (forall a, s <> In_array (Some a)) -> P (mkValue s t).
  Hypothesis P_document : forall d t, Forall (fun f => P f.2) d -> P (mkValue (In_document (Some d)) t).
  Hypothesis P_array : forall a t, Forall P a -> P (mkValue (In_array (Some a)) t).

Fixpoint MongoValue_nested (v : MongoValue) : P v :=
  match v with
  | mkValue s t =>
      match s return P (mkValue s t) with
      | In_document (Some d) =>
          P_document d t
            ((fix go (d : MongoDocument) : Forall (fun f => P f.2) d :=
                match d with
                | [] => Forall_nil_2 _
                | f :: d => Forall_cons_2 _ f d (MongoValue_nested f.2) (go d)
                end) d)
      | In_array (Some a) =>
          P_array a t
            ((fix go (a : MongoArray) : Forall P a :=
                match a with
                | [] => Forall_nil_2 _
                | v :: a => Forall_cons_2 _ v a (MongoValue_nested v) (go a)
                end) a)
      | s => P_leaf s t ltac:(discriminate) ltac:(discriminate)
      end
  end.
End Induction.

(** Lifting a fact about the values of a document or array whose values are all [value_ok]. *)
Lemma forallb_Forall_impl {A} (f : A -> bool) (P : A -> Prop) l :
  Forall (fun x => f x = true -> P x) l -> forallb f l = true -> Forall P l.
Proof.
  induction 1 as [|x l Hx _ IH]; simpl; [constructor|]. rewrite andb_true_iff. intros [Ha Hb].
  constructor; auto.
Qed.

(** ** Copies *)

Lemma sint64_wrap64 n : int64_ok n = true -> sint64 (wrap64 n) = n.
Proof.
  unfold int64_ok, sint64, wrap64. rewrite andb_true_iff, Z.leb_le, Z.ltb_lt. intros.
  rewrite Zplus_mod_idemp_l, Z.mod_small; lia.
Qed.

Lemma sint32_small n : int32_ok n = true -> sint32 n = n.
Proof.
  unfold int32_ok, sint32. rewrite andb_true_iff, Z.leb_le, Z.ltb_lt. intros. rewrite Z.mod_small; lia.
Qed.

Lemma clone_fields_eq copy d :
  Forall (fun f => clone f.2 = Some f.2) d -> clone_fields clone copy d = Some (copy ++ d).
Proof.
  intros H. revert copy. induction H as [|[k v] d Hv _ IH]; intros copy; simpl in *.
  - by rewrite app_nil_r.
  - rewrite Hv, IH. unfold document_append. by rewrite <- app_assoc.
Qed.

Lemma clone_values_eq copy a :
  Forall (fun v => clone v = Some v) a -> clone_values clone copy a = Some (copy ++ a).
Proof.
  intros H. revert copy. induction H as [|v a Hv _ IH]; intros copy; simpl in *.
  - by rewrite app_nil_r.
  - rewrite Hv, IH. unfold array_append. by rewrite <- app_assoc.
Qed.

(** A copy of a value the program can build is that value, at every depth, and no [std::get] throws. *)
Theorem clone_identity v : value_ok v = true -> clone v = Some v.
Proof.
  induction v as [s t Hd Ha|d t IH|a t IH] using MongoValue_nested; intros Hok.
  - destruct t; try discriminate; destruct s as [| | | | | | |[d|]|[a|]]; try discriminate; try reflexivity.
    + by edestruct Hd.
    + by edestruct Ha.
    + cbn. unfold fromTimestamp. by rewrite sint64_wrap64.
  - destruct t; try discriminate. cbn in Hok |- *.
    rewrite clone_fields_eq by exact (forallb_Forall_impl _ _ _ IH Hok). reflexivity.
  - destruct t; try discriminate. cbn in Hok |- *. apply andb_true_iff in Hok as [Hok _].
    rewrite clone_values_eq by exact (forallb_Forall_impl _ _ _ IH Hok). reflexivity.
Qed.

Definition sample_document : MongoDocument :=
  [(bs "find", value_string (bs "users"));
   (bs "filter", value_document [(bs "age", value_int32 (-7)); (bs "tags", value_array [value_null; value_bool true])]);
   (bs "since", fromDateTime (-1)); (bs "at", fromTimestamp (2 ^ 64 - 2));
   (bs "_id", tagged_object_id (bs "65f0a1b2c3d4e5f60718293a")); (bs "pi", value_double 0x400921FB54442D18);
   (bs "blob", value_binary [z2b 0; z2b 255])].

Lemma clone_identity_witness : clone (value_document sample_document) = Some (value_document sample_document).
Proof. apply clone_identity. vm_compute. reflexivity. Defined.

(** A value replaced through [asDocument] keeps its tag: [type] and the storage disagree afterwards, and a
    copy throws. *)
Example clone_after_asDocument :
  let v := asDocument (fromDateTime 5) in
  type v = Type_DateTime /\ isDocument v = true /\ clone v = None.
Proof. by vm_compute. Qed.

(** ** Documents as maps *)

Lemma assign_existing_set d key value :
  match assign_existing d key value with
  | Some d' => map fst d' = map fst d /\ document_find d key <> None /\
               forall k, document_find d' k = if decide (k = key) then Some value else document_find d k
  | None => document_find d key = None
  end.
Proof.
  induction d as [|[k v] d IH]; simpl; [done|]. destruct (decide (k = key)) as [->|Hne].
  - split; [done|]. split; [done|]. intros k. simpl. destruct (decide (key = k)), (decide (k = key)); congruence.
  - destruct (assign_existing d key value) as [d'|]; simpl; [|done].
    destruct IH as (Hk & Hf & Hs). split; [by rewrite Hk|]. split; [done|].
    intros k'. simpl. rewrite Hs. destruct (decide (k = k')), (decide (k' = key)); congruence.
Qed.

Lemma document_find_append d key value k :
  document_find (document_append d key value) k =
  match document_find d k with
  | Some v => Some v
  | None => if decide (k = key) then Some value else None
  end.
Proof.
  unfold document_append. induction d as [|[k' v] d IH]; simpl.
  - destruct (decide (key = k)), (decide (k = key)); congruence.
  - destruct (decide (k' = k)); [done|apply IH].
Qed.

Lemma find_key d k : match document_find d k with Some _ => In k (map fst d) | None => True end.
Proof.
  induction d as [|[k' v] d IH]; simpl; [done|]. destruct (decide (k' = k)) as [->|]; [by left|].
  destruct (document_find d k); [by right|done].
Qed.

(** [set] binds its key and no other one; the order of the fields stays, a new field is the last. *)
Theorem document_set_spec d key value :
  (forall k, document_find (document_set d key value) k =
             if decide (k = key) then Some value else document_find d k) /\
  map fst (document_set d key value) = if document_has d key then map fst d else map fst d ++ [key].
Proof.
  unfold document_set, document_has. pose proof (assign_existing_set d key value) as H.
  destruct (assign_existing d key value) as [d'|].
  - destruct H as (Hk & Hf & Hs). split; [done|]. by destruct (document_find d key).
  - rewrite H. split.
    + intros k. rewrite document_find_append. destruct (decide (k = key)) as [->|]; [by rewrite H|].
      by destruct (document_find d k).
    + unfold document_append. by rewrite map_app.
Qed.

(** What the replies of a server say. *)
Example replies :
  let reply v := mkReply [(bs "ok", v); (bs "code", value_double 0x4026000000000000); (bs "$err", value_string (bs "no"))] in
  map (fun v => reply_ok (reply v))
    [value_double one_bits; value_double 0; value_int32 1; value_int64 0; value_bool true;
     value_string (bs "1"); value_double 0x7FF8000000000000]
  = [true; false; true; false; true; false; false] /\
  errorCode (reply value_null) = Some 11 /\ errorMessage (reply value_null) = bs "no" /\
  reply_ok (mkReply []) = false.
Proof. by vm_compute. Qed.

(** Casts: 3.99 truncates, 2^31 has no [int32_t], -2^53 - 1 is rounded to even. *)
Example casts :
  toInt32 (value_double 0x400FEB851EB851EC) 0 = Some 3 /\
  toInt32 (value_double 0x41E0000000000000) 0 = None /\
  toInt32 (value_int64 (2 ^ 32 - 1)) 0 = Some (-1) /\
  toDouble (value_int64 (- 2 ^ 53 - 1)) 0 = 0xC340000000000000 /\
  toBool (value_double 0x3D719799812DEA10) true = false /\ toBool (value_double 0x3D719799812DEA12) true = true.
Proof. by vm_compute. Qed.
