(* ===== verification/Bson.v ===== *)
(** The BSON codec of the MongoDB client ([galay-mongo/protoc/bson.cc]).

    An encoder appends to a byte string and may fail half way: it is a function from the string to the
    string it leaves and the error, if any, so that what a failed call leaves behind is part of the model.
    A decoder reads [data] under a limit [len] that is its own, the buffer may be longer; a read outside the
    buffer is [OutOfBounds]. The nesting of documents is bounded by a fuel, the length of the input; running
    out of it is the error [NestingBound], which no input of that length gives. *)

From Stdlib Require Import ZArith Lia Strings.Byte.
From stdpp Require Import base list numbers strings.
From S2P Require Import Prelude Charconv MongoValue.

Open Scope Z_scope.

Inductive BsonError : Type :=
| EmbeddedNul | ArrayIndex
| TooShort | InvalidLength | Incomplete | NotTerminated
| ReadInt32 | ReadInt64 | CStringRange | CStringTerminator
| StringLength | StringRange | StringTerminator | BinaryLength | BinaryRange
| ObjectIdRange | ObjectIdHex | BoolRange | UnsupportedType (type : Z)
| NestingBound.

(** [BsonType]: the type byte of an element. *)
Definition bson_type (t : MongoValueType) : Z :=
  match t with
  | Type_Double => 0x01
  | Type_String => 0x02
  | Type_Document => 0x03
  | Type_Array => 0x04
  | Type_Binary => 0x05
  | Type_ObjectId => 0x07
  | Type_Bool => 0x08
  | Type_DateTime => 0x09
  | Type_Null => 0x0A
  | Type_Int32 => 0x10
  | Type_Timestamp => 0x11
  | Type_Int64 => 0x12
  end.

Definition kBinarySubtypeGeneric : byte := z2b 0.

(** ** Integers, little end first *)

Definition put_le32 (u : Z) : bytes := [byte_at u 0; byte_at u 8; byte_at u 16; byte_at u 24].
Definition put_le64 (u : Z) : bytes := map (fun i => byte_at u (8 * i)) (seqZ 0 8).

Definition writeInt32LE (out : bytes) (value : Z) : bytes := out ++ put_le32 (wrap32 value).
Definition writeInt64LE (out : bytes) (value : Z) : bytes := out ++ put_le64 (wrap64 value).
Definition writeDoubleLE (out : bytes) (bits : Z) : bytes := writeInt64LE out (sint64 bits).

Definition writeInt32LEAt (out : bytes) (pos : nat) (value : Z) : bytes :=
  write_at out pos (put_le32 (wrap32 value)).

Definition get_le32 (b0 b1 b2 b3 : byte) : Z :=
  Z.lor (Z.lor (Z.lor (b2z b0) (Z.shiftl (b2z b1) 8)) (Z.shiftl (b2z b2) 16)) (Z.shiftl (b2z b3) 24).

Definition readInt32LEUnchecked (data : bytes) (pos : Z) : outcome BsonError Z :=
  b0 <-- rd data pos ;;
  b1 <-- rd data (pos + 1) ;;
  b2 <-- rd data (pos + 2) ;;
  b3 <-- rd data (pos + 3) ;;
  Value (sint32 (get_le32 b0 b1 b2 b3)).

(** [value |= byte << (8 * i)] for [i] from [i] on, [n] times. *)
Fixpoint read_le64_from (data : bytes) (pos i : Z) (n : nat) (value : Z) : outcome BsonError Z :=
  match n with
  | O => Value value
  | S n =>
      b <-- rd data (pos + i) ;;
      read_le64_from data pos (i + 1) n (Z.lor value (Z.shiftl (b2z b) (8 * i)))
  end.

Definition readInt64LEUnchecked (data : bytes) (pos : Z) : outcome BsonError Z :=
  value <-- read_le64_from data pos 0 8 0 ;; Value (sint64 value).

(** ** Encoding *)

(** A step of an encoder: the string it is given, the string it leaves and how it ended. *)
Definition writer : Type := bytes -> bytes * option BsonError.

Definition emit (data : bytes) : writer := fun out => (out ++ data, None).

Definition fail (e : BsonError) : writer := fun out => (out, Some e).

Definition then_write (m k : writer) : writer := fun out =>
  match m out with
  | (out, None) => k out
  | (out, Some e) => (out, Some e)
  end.
Notation "m >>> k" := (then_write m k) (at level 60, right associativity).

(** [if (!ok) { out.resize(base); return unexpected; }]. *)
Definition or_rollback (base : nat) (m : writer) : writer := fun out =>
  match m out with
  | (out, None) => (out, None)
  | (out, Some e) => (take base out, Some e)
  end.

Definition nul : byte := z2b 0.
Definition has_nul (s : bytes) : bool := existsb (fun b => b2z b =? 0) s.

Definition writeCString (value : bytes) : writer :=
  if has_nul value then fail EmbeddedNul else emit (value ++ [nul]).

Definition hex_to_nibble (c : Z) : Z :=
  if (48 <=? c) && (c <=? 57) then c - 48
  else if (97 <=? c) && (c <=? 102) then 10 + (c - 97)
  else if (65 <=? c) && (c <=? 70) then 10 + (c - 65)
  else 0.

(** [for (i = 0; i + 1 < size; i += 2)]. *)
Fixpoint unhex (oid_hex : bytes) : bytes :=
  match oid_hex with
  | hi :: lo :: rest => z2b (Z.lor (Z.shiftl (hex_to_nibble (b2z hi)) 4) (hex_to_nibble (b2z lo))) :: unhex rest
  | _ => []
  end.

(** The room left for a length, and the length written into it once the end is known. *)
Definition length_slot : bytes := [nul; nul; nul; nul].
Definition seal (base : nat) : writer := fun out =>
  let out := out ++ [nul] in
  (writeInt32LEAt out base (sint32 (blen out - Z.of_nat base)), None).

(** The loop over the fields of a document, and the one over the elements of an array, whose keys are
    their indices in decimal ([std::to_chars] into 24 bytes). *)
Definition encode_fields (encodeElement : bytes -> MongoValue -> writer) : MongoDocument -> writer :=
  fix go (fields : MongoDocument) :=
    match fields with
    | [] => emit []
    | (key, value) :: fields => encodeElement key value >>> go fields
    end.

Definition encode_values (encodeElement : bytes -> MongoValue -> writer) : Z -> MongoArray -> writer :=
  fix go (i : Z) (values : MongoArray) :=
    match values with
    | [] => emit []
    | value :: values =>
        let index_key := to_chars i in
        if 24 <? blen index_key then fail ArrayIndex
        else encodeElement index_key value >>> go (i + 1) values
    end.

Definition append_document (encodeElement : bytes -> MongoValue -> writer) (document : MongoDocument) : writer :=
  fun out =>
    let base := length out in
    (emit length_slot >>> or_rollback base (encode_fields encodeElement document) >>> seal base) out.

Definition append_array (encodeElement : bytes -> MongoValue -> writer) (values : MongoArray) : writer :=
  fun out =>
    let base := length out in
    (emit length_slot >>> encode_values encodeElement 0 values >>> seal base) out.

(** [BsonCodec::encodeElement]. The default of [toInt32] and the like is not reached: [type] is the
    storage's. A cast without a result cannot be met either and writes nothing. *)
Fixpoint encodeElement (key : bytes) (value : MongoValue) {struct value} : writer :=
  emit [z2b (bson_type (type value))] >>> writeCString key >>>
  match type value with
  | Type_Double => fun out => (writeDoubleLE out (toDouble value 0), None)
  | Type_String =>
      let text := toString value in
      fun out => (writeInt32LE out (sint32 (blen text + 1)) ++ text ++ [nul], None)
  | Type_Document =>
      match value with
      | mkValue (In_document (Some d)) _ => append_document encodeElement d
      | _ => append_document encodeElement []
      end
  | Type_Array =>
      match value with
      | mkValue (In_array (Some a)) _ => append_array encodeElement a
      | _ => append_array encodeElement []
      end
  | Type_Binary =>
      let binary := toBinary value in
      fun out => (writeInt32LE out (sint32 (blen binary)) ++ [kBinarySubtypeGeneric] ++ binary, None)
  | Type_Bool => emit [z2b (if toBool value false then 1 else 0)]
  | Type_Null => emit []
  | Type_Int32 => fun out => (writeInt32LE out (default 0 (toInt32 value 0)), None)
  | Type_Int64 | Type_DateTime | Type_Timestamp =>
      fun out => (writeInt64LE out (default 0 (toInt64 value 0)), None)
  | Type_ObjectId => emit (unhex (toString value))
  end.

Definition appendDocument (document : MongoDocument) : writer := append_document encodeElement document.

Definition encodeDocument (document : MongoDocument) : BsonError + bytes :=
  match appendDocument document [] with
  | (out, None) => inr out
  | (_, Some e) => inl e
  end.

Definition has_db (document : MongoDocument) : bool := existsb (fun f => bool_decide (f.1 = bs "$db")) document.

Definition appendDocumentWithDatabase (document : MongoDocument) (database : bytes) : writer :=
  fun out =>
    let base := length out in
    (emit length_slot >>>
     or_rollback base (encode_fields encodeElement document) >>>
     (if has_db document then emit []
      else
        emit [z2b (bson_type Type_String)] >>>
        or_rollback base (writeCString (bs "$db")) >>>
        (fun out => (writeInt32LE out (sint32 (blen database + 1)) ++ database ++ [nul], None))) >>>
     seal base) out.

(** ** Decoding *)

Definition readInt32 (data : bytes) (len pos : Z) : outcome BsonError Z :=
  if len <? pos + 4 then Unexpected ReadInt32 else readInt32LEUnchecked data pos.

Definition readInt64 (data : bytes) (len pos : Z) : outcome BsonError Z :=
  if len <? pos + 8 then Unexpected ReadInt64 else readInt64LEUnchecked data pos.

(** The bits of the number read. *)
Definition readDouble (data : bytes) (len pos : Z) : outcome BsonError Z :=
  bits <-- readInt64 data len pos ;; Value (wrap64 bits).

(** [while (pos < len && data[pos] != 0) ++pos], [n] the distance to [len]. *)
Fixpoint scan_nul (data : bytes) (n : nat) (pos : Z) : outcome BsonError Z :=
  match n with
  | O => Value pos
  | S n =>
      c <-- rd data pos ;;
      if b2z c =? 0 then Value pos else scan_nul data n (pos + 1)
  end.

Definition readCString (data : bytes) (len pos : Z) : outcome BsonError (bytes * Z) :=
  if len <=? pos then Unexpected CStringRange
  else
    stop <-- scan_nul data (Z.to_nat (len - pos)) pos ;;
    if len <=? stop then Unexpected CStringTerminator
    else value <-- slice data pos (stop - pos) ;; Value (value, stop + 1).

Definition hex_char (n : Z) : byte := z2b (if n <? 10 then 48 + n else 87 + n).

Fixpoint hex (raw : bytes) : bytes :=
  match raw with
  | [] => []
  | b :: raw => hex_char (Z.shiftr (b2z b) 4) :: hex_char (Z.land (b2z b) 0x0F) :: hex raw
  end.

Definition decodeArrayFromDocument (d : MongoDocument) : MongoArray :=
  fold_left (fun array f => array_append array f.2) d [].

(** [decodeDocument(data, len, consumed)]: the document and the bytes consumed. *)
Definition document_decoder : Type := bytes -> Z -> outcome BsonError (MongoDocument * Z).

Definition decodeElementValue (decodeDocument : document_decoder) (type : Z) (data : bytes) (len pos : Z) :
  outcome BsonError (MongoValue * Z) :=
  if type =? bson_type Type_Double then
    d <-- readDouble data len pos ;; Value (value_double d, pos + 8)
  else if type =? bson_type Type_String then
    str_len <-- readInt32 data len pos ;;
    if str_len <=? 0 then Unexpected StringLength
    else
      let pos := pos + 4 in
      if len <? pos + str_len then Unexpected StringRange
      else
        last <-- rd data (pos + str_len - 1) ;;
        if negb (b2z last =? 0) then Unexpected StringTerminator
        else text <-- slice data pos (str_len - 1) ;; Value (value_string text, pos + str_len)
  else if type =? bson_type Type_Document then
    doc <-- decodeDocument (drop (Z.to_nat pos) data) (len - pos) ;;
    Value (value_document doc.1, pos + doc.2)
  else if type =? bson_type Type_Array then
    doc <-- decodeDocument (drop (Z.to_nat pos) data) (len - pos) ;;
    Value (value_array (decodeArrayFromDocument doc.1), pos + doc.2)
  else if type =? bson_type Type_Binary then
    blob_len <-- readInt32 data len pos ;;
    if blob_len <? 0 then Unexpected BinaryLength
    else
      let pos := pos + 4 in
      if len <? pos + 1 + blob_len then Unexpected BinaryRange
      else
        let pos := pos + 1 in
        binary <-- slice data pos blob_len ;; Value (value_binary binary, pos + blob_len)
  else if type =? bson_type Type_ObjectId then
    if len <? pos + 12 then Unexpected ObjectIdRange
    else
      raw <-- slice data pos 12 ;;
      match fromObjectId (hex raw) with
      | Some v => Value (v, pos + 12)
      | None => Unexpected ObjectIdHex
      end
  else if type =? bson_type Type_Bool then
    if len <? pos + 1 then Unexpected BoolRange
    else b <-- rd data pos ;; Value (value_bool (negb (b2z b =? 0)), pos + 1)
  else if type =? bson_type Type_DateTime then
    ts <-- readInt64 data len pos ;; Value (fromDateTime ts, pos + 8)
  else if type =? bson_type Type_Null then Value (value_null, pos)
  else if type =? bson_type Type_Int32 then
    i32 <-- readInt32 data len pos ;; Value (value_int32 i32, pos + 4)
  else if type =? bson_type Type_Timestamp then
    ts <-- readInt64 data len pos ;; Value (fromTimestamp (wrap64 ts), pos + 8)
  else if type =? bson_type Type_Int64 then
    i64 <-- readInt64 data len pos ;; Value (value_int64 i64, pos + 8)
  else Unexpected (UnsupportedType type).

(** [while (pos < total_len - 1)]: a turn reads at least the type byte, so [total_len] turns are enough. *)
Fixpoint decode_elements (decodeDocument : document_decoder) (turns : nat) (data : bytes) (total_len pos : Z)
    (document : MongoDocument) : outcome BsonError MongoDocument :=
  if total_len - 1 <=? pos then Value document
  else
    match turns with
    | O => Unexpected NestingBound
    | S turns =>
        type <-- rd data pos ;;
        key <-- readCString data total_len (pos + 1) ;;
        value <-- decodeElementValue decodeDocument (b2z type) data total_len key.2 ;;
        decode_elements decodeDocument turns data total_len value.2 (document_append document key.1 value.1)
    end.

Fixpoint decode_document (fuel : nat) : document_decoder := fun data len =>
  match fuel with
  | O => Unexpected NestingBound
  | S fuel =>
      if len <? 5 then Unexpected TooShort
      else
        total_len <-- readInt32 data len 0 ;;
        if total_len <? 5 then Unexpected InvalidLength
        else if len <? total_len then Unexpected Incomplete
        else
          last <-- rd data (total_len - 1) ;;
          if negb (b2z last =? 0) then Unexpected NotTerminated
          else
            document <-- decode_elements (decode_document fuel) (Z.to_nat total_len) data total_len 4 [] ;;
            Value (document, total_len)
  end.

Definition decodeDocument : document_decoder := fun data len => decode_document (S (Z.to_nat len)) data len.

(** ** What the encoders write *)

(** The encoding without buffers: [None] when a key holds a NUL. *)
Definition cat (a b : option bytes) : option bytes := x ← a; y ← b; Some (x ++ y).

Definition cstring (s : bytes) : option bytes := if has_nul s then None else Some (s ++ [nul]).

Definition frame (body : bytes) : bytes := put_le32 (wrap32 (blen body + 5)) ++ body ++ [nul].

Definition element_bytes (payload : MongoValue -> option bytes) (key : bytes) (v : MongoValue) : option bytes :=
  cat (Some [z2b (bson_type (type v))]) (cat (cstring key) (payload v)).

Definition fields_bytes (payload : MongoValue -> option bytes) : MongoDocument -> option bytes :=
  fix go (fields : MongoDocument) :=
    match fields with
    | [] => Some []
    | (key, v) :: fields => cat (element_bytes payload key v) (go fields)
    end.

Definition values_bytes (payload : MongoValue -> option bytes) : Z -> MongoArray -> option bytes :=
  fix go (i : Z) (values : MongoArray) :=
    match values with
    | [] => Some []
    | v :: values => cat (element_bytes payload (to_chars i) v) (go (i + 1) values)
    end.

Definition string_bytes (text : bytes) : bytes := put_le32 (wrap32 (blen text + 1)) ++ text ++ [nul].

Fixpoint payload (v : MongoValue) : option bytes :=
  match v with
  | mkValue s t =>
      match s with
      | In_null => Some []
      | In_bool b => Some [z2b (if b then 1 else 0)]
      | In_int32 n => Some (put_le32 (wrap32 n))
      | In_int64 n => Some (put_le64 (wrap64 n))
      | In_double x => Some (put_le64 x)
      | In_string text => Some (if decide (t = Type_ObjectId) then unhex text else string_bytes text)
      | In_binary b => Some (put_le32 (wrap32 (blen b)) ++ [kBinarySubtypeGeneric] ++ b)
      | In_document (Some d) => frame <$> fields_bytes payload d
      | In_array (Some a) => frame <$> values_bytes payload 0 a
      | _ => None
      end
  end.

Definition document_bytes (d : MongoDocument) : option bytes := frame <$> fields_bytes payload d.

(** [m] appends [r], or fails on a NUL and leaves something behind. *)
Definition writes (m : writer) (r : option bytes) : Prop :=
  forall out,
    match r with
    | Some data => m out = (out ++ data, None)
    | None => exists junk, m out = (out ++ junk, Some EmbeddedNul)
    end.

(** [m] appends [r], or fails on a NUL and leaves nothing. *)
Definition writes_whole (m : writer) (r : option bytes) : Prop :=
  forall out, m out = match r with Some data => (out ++ data, None) | None => (out, Some EmbeddedNul) end.

Lemma writes_emit data : writes (emit data) (Some data).
Proof. done. Qed.

Lemma writes_whole_writes m r : writes_whole m r -> writes m r.
Proof.
  intros H out. rewrite (H out). destruct r; [done|]. exists []. by rewrite app_nil_r.
Qed.

Lemma writes_then m k a b : writes m a -> writes k b -> writes (m >>> k) (cat a b).
Proof.
  intros Hm Hk out. specialize (Hm out). unfold then_write. destruct a as [x|]; simpl.
  - rewrite Hm. specialize (Hk (out ++ x)). destruct b as [y|]; simpl.
    + by rewrite Hk, app_assoc.
    + destruct Hk as [junk ->]. exists (x ++ junk). by rewrite app_assoc.
  - destruct Hm as [junk ->]. by exists junk.
Qed.

Lemma writes_cstring key : writes (writeCString key) (cstring key).
Proof.
  intros out. unfold writeCString, cstring. destruct (has_nul key); [|done].
  exists []. by rewrite app_nil_r.
Qed.

Lemma wrap32_sint32 z : wrap32 (sint32 z) = wrap32 z.
Proof.
  unfold wrap32, sint32. rewrite Zminus_mod_idemp_l. f_equal. lia.
Qed.

Lemma wrap64_sint64 z : wrap64 (sint64 z) = wrap64 z.
Proof.
  unfold wrap64, sint64. rewrite Zminus_mod_idemp_l. f_equal. lia.
Qed.

(** The length is written over its slot. *)
Lemma seal_spec out body :
  seal (length out) (out ++ length_slot ++ body) = (out ++ frame body, None).
Proof.
  unfold seal, writeInt32LEAt. f_equal. rewrite wrap32_sint32, <- !app_assoc.
  rewrite write_at_app by done. unfold frame. f_equal. f_equal. f_equal.
  blen_simpl. change (blen length_slot) with 4. unfold blen at 1. f_equal. lia.
Qed.

Lemma append_framed (m : writer) r :
  writes m r ->
  forall out, exists junk,
  (emit length_slot >>> m >>> seal (length out)) out =
  match r with
  | Some body => (out ++ frame body, None)
  | None => (out ++ length_slot ++ junk, Some EmbeddedNul)
  end.
Proof.
  intros Hm out. unfold then_write at 1. unfold emit at 1. unfold then_write.
  specialize (Hm (out ++ length_slot)). destruct r as [body|].
  - exists []. rewrite Hm, <- app_assoc. apply seal_spec.
  - destruct Hm as [junk ->]. exists junk. by rewrite <- app_assoc.
Qed.

Lemma rollback_framed out m k r :
  writes m r ->
  (emit length_slot >>> or_rollback (length out) m >>> k) out =
  match r with
  | Some body => k (out ++ length_slot ++ body)
  | None => (out, Some EmbeddedNul)
  end.
Proof.
  intros Hm. unfold then_write, or_rollback, emit. specialize (Hm (out ++ length_slot)).
  destruct r as [body|].
  - by rewrite Hm, <- app_assoc.
  - destruct Hm as [junk ->]. by rewrite <- app_assoc, take_app_length.
Qed.

Lemma append_document_spec enc d r :
  writes (encode_fields enc d) r -> writes_whole (append_document enc d) (frame <$> r).
Proof.
  intros H out. unfold append_document. cbv zeta. rewrite (rollback_framed _ _ _ _ H).
  destruct r; simpl; [apply seal_spec|done].
Qed.

Lemma append_array_spec enc a r :
  writes (encode_values enc 0 a) r -> writes (append_array enc a) (frame <$> r).
Proof.
  intros H out. unfold append_array. cbv zeta. destruct (append_framed _ _ H out) as [junk ->].
  destruct r; simpl; [done|]. by exists (length_slot ++ junk).
Qed.

Lemma encode_fields_spec d :
  Forall (fun f => forall key, writes (encodeElement key f.2) (element_bytes payload key f.2)) d ->
  writes (encode_fields encodeElement d) (fields_bytes payload d).
Proof.
  induction 1 as [|[k v] d Hv _ IH]; [apply writes_emit|]. simpl. by apply writes_then.
Qed.

Lemma index_key_fits i : 0 <= i < 2 ^ 64 -> blen (to_chars i) <= 24.
Proof.
  intros Hi. unfold to_chars. destruct (Z.ltb_spec i 0); [lia|].
  apply to_chars_unsigned_width; lia.
Qed.

Lemma encode_values_spec a i :
  Forall (fun v => forall key, writes (encodeElement key v) (element_bytes payload key v)) a ->
  0 <= i -> i + blen a < 2 ^ 64 ->
  writes (encode_values encodeElement i a) (values_bytes payload i a).
Proof.
  intros H. revert i. induction H as [|v a Hv _ IH]; intros i Hi Hl; [apply writes_emit|].
  rewrite blen_cons in Hl. pose proof (blen_nonneg a). cbn [encode_values values_bytes]. cbv zeta.
  pose proof (index_key_fits i ltac:(lia)) as Hk. rewrite (proj2 (Z.ltb_ge 24 _) Hk).
  apply writes_then; [done|]. apply IH; lia.
Qed.

(** The element before its value. *)
Lemma writes_element key v m r :
  writes m r ->
  writes (emit [z2b (bson_type (type v))] >>> writeCString key >>> m)
         (cat (Some [z2b (bson_type (type v))]) (cat (cstring key) r)).
Proof. intros. apply writes_then; [apply writes_emit|]. by apply writes_then; [apply writes_cstring|]. Qed.

Lemma writes_fun (f : bytes -> bytes) data : (forall out, f out = out ++ data) -> writes (fun out => (f out, None)) (Some data).
Proof. intros H out. by rewrite H. Qed.

Lemma encode_leaf s t :
  (forall d, s <> In_document (Some d)) -> (forall a, s <> In_array (Some a)) ->
  value_ok (mkValue s t) = true ->
  forall key, writes (encodeElement key (mkValue s t)) (element_bytes payload key (mkValue s t)).
Proof.
  intros Hd Ha Hok key. unfold element_bytes.
  destruct t; try discriminate; destruct s as [| | | | | | |[d|]|[a|]]; try discriminate;
    try (by edestruct Hd); try (by edestruct Ha);
    apply writes_element; try apply writes_emit; cbn;
    apply writes_fun; intros out; unfold writeDoubleLE, writeInt32LE, writeInt64LE;
    rewrite ?wrap32_sint32, ?wrap64_sint64, <- ?app_assoc; try done.
  apply andb_true_iff in Hok as [?%Z.leb_le ?%Z.ltb_lt]. by rewrite wrap64_small.
Qed.

Lemma encodeElement_spec v :
  value_ok v = true -> forall key, writes (encodeElement key v) (element_bytes payload key v).
Proof.
  induction v as [s t Hd Ha|d t IH|a t IH] using MongoValue_nested; intros Hok key.
  - by apply encode_leaf.
  - destruct t; try discriminate. apply writes_element.
    apply writes_whole_writes, append_document_spec, encode_fields_spec.
    exact (forallb_Forall_impl _ _ _ IH Hok).
  - destruct t; try discriminate. cbn in Hok. apply andb_true_iff in Hok as [Hok Hl%Z.ltb_lt].
    apply writes_element. apply append_array_spec, encode_values_spec; [|lia..].
    exact (forallb_Forall_impl _ _ _ IH Hok).
Qed.

Lemma append_exact d : document_ok d = true -> writes_whole (appendDocument d) (document_bytes d).
Proof.
  intros Hok. apply append_document_spec, encode_fields_spec.
  refine (forallb_Forall_impl _ _ _ _ Hok). apply Forall_forall. intros f _. apply encodeElement_spec.
Qed.

(** [appendDocument] adds to the string exactly the encoding of the document, or, when some key at any
    depth holds a NUL, reports it and leaves the string as it was. *)
Theorem appendDocument_exact d out :
  document_ok d = true ->
  appendDocument d out =
  match document_bytes d with Some data => (out ++ data, None) | None => (out, Some EmbeddedNul) end.
Proof. intros Hok. apply (append_exact d Hok). Qed.

Lemma cat_assoc a b c : cat (cat a b) c = cat a (cat b c).
Proof. destruct a, b, c; simpl; try done. by rewrite app_assoc. Qed.

Lemma cat_nil_r a : cat a (Some []) = a.
Proof. destruct a; simpl; [by rewrite app_nil_r|done]. Qed.

Lemma fields_bytes_app p d e : fields_bytes p (d ++ e) = cat (fields_bytes p d) (fields_bytes p e).
Proof.
  induction d as [|[k v] d IH]; simpl; [by destruct (fields_bytes p e)|]. by rewrite IH, cat_assoc.
Qed.

(** The document a command is sent as. *)
Definition with_database (d : MongoDocument) (database : bytes) : MongoDocument :=
  if has_db d then d else document_append d (bs "$db") (value_string database).

Lemma with_database_ok d database : document_ok d = true -> document_ok (with_database d database) = true.
Proof.
  unfold with_database, document_ok, document_append. destruct (has_db d); [done|].
  intros H. by rewrite forallb_app, H.
Qed.

Lemma then_write_some m k data out : writes m (Some data) -> (m >>> k) out = k (out ++ data).
Proof. intros H. unfold then_write. by rewrite (H out). Qed.

Lemma database_field database :
  fields_bytes payload [(bs "$db", value_string database)] =
  Some ([z2b (bson_type Type_String)] ++ (bs "$db" ++ [nul]) ++ string_bytes database).
Proof.
  cbn [fields_bytes]. rewrite cat_nil_r. unfold element_bytes, cstring.
  change (has_nul (bs "$db")) with false. reflexivity.
Qed.

Lemma with_database_eq d database out :
  document_ok d = true ->
  appendDocumentWithDatabase d database out = appendDocument (with_database d database) out.
Proof.
  intros Hok. rewrite (append_exact _ (with_database_ok d database Hok) out).
  assert (writes (encode_fields encodeElement d) (fields_bytes payload d)) as Hw.
  { apply encode_fields_spec. refine (forallb_Forall_impl _ _ _ _ Hok). apply Forall_forall.
    intros f _. apply encodeElement_spec. }
  unfold appendDocumentWithDatabase. cbv zeta. rewrite (rollback_framed _ _ _ _ Hw).
  unfold with_database, document_bytes. destruct (has_db d).
  - destruct (fields_bytes payload d) as [body|]; [|done].
    rewrite (then_write_some _ _ [] _ (writes_emit _)), app_nil_r. apply seal_spec.
  - unfold document_append. rewrite fields_bytes_app, database_field.
    destruct (fields_bytes payload d) as [body|]; [|done].
    rewrite (then_write_some _ _ ([z2b (bson_type Type_String)] ++ (bs "$db" ++ [nul]) ++ string_bytes database)).
    + rewrite <- !app_assoc. apply (seal_spec out (body ++ _)).
    + intros o. unfold writeCString. change (has_nul (bs "$db")) with false. cbv iota.
      unfold then_write, or_rollback, emit. cbv iota beta.
      unfold writeInt32LE, string_bytes. by rewrite wrap32_sint32, <- !app_assoc.
Qed.

(** [appendDocumentWithDatabase] is [appendDocument] of the document with its [$db] field, that field being
    the last when the document has none: on the string and on the errors alike. *)
Theorem appendDocumentWithDatabase_exact d database out :
  document_ok d = true ->
  appendDocumentWithDatabase d database out = appendDocument (with_database d database) out.
Proof. apply with_database_eq. Qed.

(** ** What the decoder reads *)

(** [data] holds [x] from [pos] on. *)
Definition holds (data : bytes) (pos : Z) (x : bytes) : Prop :=
  exists pre suf, data = pre ++ x ++ suf /\ pos = blen pre.

Lemma holds_app data pos x y : holds data pos (x ++ y) -> holds data pos x /\ holds data (pos + blen x) y.
Proof.
  intros (pre & suf & -> & ->). split.
  - exists pre, (y ++ suf). by rewrite <- app_assoc.
  - exists (pre ++ x), suf. split; [by rewrite <- !app_assoc|by rewrite blen_app].
Qed.

Lemma holds_rd {E} data pos b : holds data pos [b] -> rd data pos = @Value E _ b.
Proof. intros (pre & suf & -> & ->). apply rd_app. Qed.

Lemma holds_slice {E} data pos x : holds data pos x -> slice data pos (blen x) = @Value E _ x.
Proof. intros (pre & suf & -> & ->). apply slice_app. Qed.

Lemma holds_drop data pos x : holds data pos x -> exists suf, drop (Z.to_nat pos) data = x ++ suf.
Proof. intros (pre & suf & -> & ->). exists suf. apply drop_blen. Qed.

Lemma holds_0 x suf : holds (x ++ suf) 0 x.
Proof. by exists [], suf. Qed.

Lemma get_le32_eq b0 b1 b2 b3 :
  get_le32 b0 b1 b2 b3 = b2z b0 + b2z b1 * 256 + b2z b2 * 65536 + b2z b3 * 16777216.
Proof.
  pose proof (get_be32_eq b3 b2 b1 b0) as E. unfold get_be32, get_le32 in *.
  rewrite (Z.lor_comm (Z.lor _ _) (Z.shiftl (b2z b3) 24)), (Z.lor_comm (Z.lor _ _) (Z.shiftl (b2z b2) 16)),
    (Z.lor_comm (b2z b0)), !Z.lor_assoc. lia.
Qed.

Lemma get_put_le32 u :
  0 <= u < 2 ^ 32 -> get_le32 (byte_at u 0) (byte_at u 8) (byte_at u 16) (byte_at u 24) = u.
Proof.
  intros. rewrite get_le32_eq, !b2z_byte_at by lia.
  change (2 ^ 0) with 1. change (2 ^ 8) with 256. change (2 ^ 16) with 65536. change (2 ^ 24) with 16777216.
  Z.div_mod_to_equations; lia.
Qed.

Lemma readInt32_holds data len pos u :
  holds data pos (put_le32 u) -> pos + 4 <= len -> 0 <= u < 2 ^ 32 -> readInt32 data len pos = Value (sint32 u).
Proof.
  intros H Hl Hu. unfold readInt32. rewrite (proj2 (Z.ltb_ge len _) Hl). unfold readInt32LEUnchecked, put_le32 in *.
  apply (holds_app _ _ [_]) in H as [H0 H]. apply (holds_app _ _ [_]) in H as [H1 H].
  apply (holds_app _ _ [_]) in H as [H2 H3]. rewrite !blen_cons, !(@blen_nil byte), !Z.add_0_r in *.
  rewrite (holds_rd _ _ _ H0). simpl.
  replace (pos + 2) with (pos + 1 + 1) by lia. replace (pos + 3) with (pos + 1 + 1 + 1) by lia.
  rewrite (holds_rd _ _ _ H1), (holds_rd _ _ _ H2), (holds_rd _ _ _ H3). simpl. by rewrite get_put_le32.
Qed.

Lemma read_le64_from_holds data pos u n i value :
  holds data (pos + Z.of_nat i) (map (fun i => byte_at u (8 * i)) (seqZ (Z.of_nat i) (Z.of_nat n))) ->
  0 <= u -> value = u mod 2 ^ (8 * Z.of_nat i) ->
  read_le64_from data pos (Z.of_nat i) n value = Value (u mod 2 ^ (8 * Z.of_nat (i + n))).
Proof.
  revert i value. induction n as [|n IH]; intros i value H Hu ->; simpl.
  - by rewrite Nat.add_0_r.
  - rewrite seqZ_cons in H by lia. apply (holds_app _ _ [_]) in H as [H0 H].
    rewrite blen_cons, (@blen_nil byte) in H. rewrite (holds_rd _ _ _ H0). simpl.
    replace (Z.of_nat i + 1) with (Z.of_nat (S i)) by lia.
    replace (i + S n)%nat with (S i + n)%nat by lia. apply IH; [|done|].
    + replace (pos + Z.of_nat i + (1 + 0)) with (pos + Z.of_nat (S i)) in H by lia.
      replace (Z.succ (Z.of_nat i)) with (Z.of_nat (S i)) in H by lia.
      by replace (Z.pred (Z.of_nat (S n))) with (Z.of_nat n) in H by lia.
    + pose proof (Z.mod_pos_bound u (2 ^ (8 * Z.of_nat i)) ltac:(lia)).
      rewrite b2z_byte_at, Z.lor_comm, lor_shiftl_add by lia.
      replace (8 * Z.of_nat (S i)) with (8 * Z.of_nat i + 8) by lia.
      rewrite Z.pow_add_r by lia. change (2 ^ 8) with 256. rewrite Z.rem_mul_r by lia. lia.
Qed.

Lemma readInt64_holds data len pos u :
  holds data pos (put_le64 u) -> pos + 8 <= len -> 0 <= u < 2 ^ 64 -> readInt64 data len pos = Value (sint64 u).
Proof.
  intros H Hl Hu. unfold readInt64. rewrite (proj2 (Z.ltb_ge len _) Hl). unfold readInt64LEUnchecked.
  change 0 with (Z.of_nat 0) at 1. rewrite (read_le64_from_holds data pos u 8 0 0); [|by rewrite Z.add_0_r|lia|by rewrite Z.mod_1_r].
  simpl. rewrite Z.mod_small by lia. done.
Qed.

Lemma scan_nul_spec data s rest n pos :
  holds data pos (s ++ nul :: rest) -> has_nul s = false -> blen s < Z.of_nat n ->
  scan_nul data n pos = Value (pos + blen s).
Proof.
  revert n pos. induction s as [|b s IH]; intros n pos H Hs Hn.
  - rewrite (@blen_nil byte) in Hn |- *. destruct n as [|n]; [lia|]. simpl. apply (holds_app _ _ [nul] rest) in H as [H _].
    rewrite (holds_rd _ _ _ H). simpl. f_equal. lia.
  - rewrite blen_cons in Hn |- *. pose proof (blen_nonneg s). destruct n as [|n]; [lia|]. simpl in Hs |- *.
    apply orb_false_iff in Hs as [Hb Hs]. apply (holds_app _ _ [b]) in H as [H1 H].
    rewrite (holds_rd _ _ _ H1). simpl. rewrite Hb, (IH n); [f_equal; lia| |done|lia].
    by rewrite blen_cons, (@blen_nil byte), Z.add_0_r in H.
Qed.

Lemma readCString_holds data len pos s :
  holds data pos (s ++ [nul]) -> has_nul s = false -> 0 <= pos -> pos + blen s + 1 <= len ->
  readCString data len pos = Value (s, pos + blen s + 1).
Proof.
  intros H Hs Hp Hl. unfold readCString. pose proof (blen_nonneg s).
  rewrite (proj2 (Z.leb_gt len pos)) by lia.
  rewrite (scan_nul_spec data s [] _ pos) by (done || lia). simpl.
  rewrite (proj2 (Z.leb_gt len _)) by lia. apply holds_app in H as [H _].
  replace (pos + blen s - pos) with (blen s) by lia. by rewrite (holds_slice _ _ _ H).
Qed.

(** ** The round trip *)

(** What survives: everything but the case of the digits of an object identifier. *)
Definition lower_hex (b : byte) : byte := if (65 <=? b2z b) && (b2z b <=? 70) then z2b (b2z b + 32) else b.

Fixpoint lower (v : MongoValue) : MongoValue :=
  match v with
  | mkValue s t =>
      let s' :=
        match s with
        | In_string text => In_string (if decide (t = Type_ObjectId) then map lower_hex text else text)
        | In_document (Some d) => In_document (Some (map (fun f => (f.1, lower f.2)) d))
        | In_array (Some a) => In_array (Some (map lower a))
        | s => s
        end in
      mkValue s' t
  end.

Definition lower_document (d : MongoDocument) : MongoDocument := map (fun f => (f.1, lower f.2)) d.

Lemma hex_digit b :
  is_hex (b2z b) = true ->
  0 <= hex_to_nibble (b2z b) < 16 /\ hex_char (hex_to_nibble (b2z b)) = lower_hex b.
Proof. destruct b; vm_compute; intuition discriminate. Qed.

Lemma nibbles h l : 0 <= h < 16 -> 0 <= l < 16 ->
  let b := z2b (Z.lor (Z.shiftl h 4) l) in Z.shiftr (b2z b) 4 = h /\ Z.land (b2z b) 0x0F = l.
Proof.
  intros Hh Hl b. subst b. rewrite lor_shiftl_add, b2z_z2b_small by lia. change (2 ^ 4) with 16. split.
  - rewrite Z.shiftr_div_pow2 by lia. change (2 ^ 4) with 16. Z.div_mod_to_equations; lia.
  - change 0x0F with (Z.ones 4). rewrite Z.land_ones by lia. change (2 ^ 4) with 16.
    Z.div_mod_to_equations; lia.
Qed.

Lemma hex_unhex n s :
  length s = (2 * n)%nat -> forallb (fun b => is_hex (b2z b)) s = true ->
  hex (unhex s) = map lower_hex s /\ length (unhex s) = n.
Proof.
  revert s. induction n as [|n IH]; intros s Hl Hs.
  - by destruct s.
  - destruct s as [|hi [|lo s]]; simpl in Hl; try lia. simpl in Hs.
    apply andb_true_iff in Hs as [Hhi Hs]. apply andb_true_iff in Hs as [Hlo Hs].
    destruct (IH s ltac:(lia) Hs) as [IHh IHl].
    apply hex_digit in Hhi as [Hh Eh]. apply hex_digit in Hlo as [Hl' El].
    destruct (nibbles _ _ Hh Hl') as [E1 E2]. cbn [unhex hex map length].
    by rewrite E1, E2, Eh, El, IHh, IHl.
Qed.

Lemma lower_hex_is_hex b : is_hex (b2z b) = true -> is_hex (b2z (lower_hex b)) = true.
Proof. destruct b; vm_compute; intuition. Qed.

Lemma isHexObjectId_lower s : isHexObjectId s = true -> isHexObjectId (map lower_hex s) = true.
Proof.
  unfold isHexObjectId. rewrite !andb_true_iff. unfold blen. rewrite length_map. intros [? H]. split; [done|].
  rewrite forallb_forall in *. intros b (b' & <- & Hb)%in_map_iff. by apply lower_hex_is_hex, H.
Qed.

Lemma blen_put_le32 u : blen (put_le32 u) = 4.
Proof. reflexivity. Qed.

Lemma blen_put_le64 u : blen (put_le64 u) = 8.
Proof. reflexivity. Qed.

Lemma wrap32_bound z : 0 <= wrap32 z < 2 ^ 32.
Proof. by apply Z.mod_pos_bound. Qed.

Lemma wrap64_bound z : 0 <= wrap64 z < 2 ^ 64.
Proof. by apply Z.mod_pos_bound. Qed.

Lemma sint32_wrap32 n : int32_ok n = true -> sint32 (wrap32 n) = n.
Proof.
  intros H. rewrite <- (sint32_small n H) at 2. unfold sint32, wrap32. by rewrite Zplus_mod_idemp_l.
Qed.

(** A length that fits is read back as it was. *)
Lemma length_wrap n : 0 <= n < 2 ^ 31 -> wrap32 n = n /\ sint32 n = n.
Proof.
  intros. split; [apply wrap32_small; lia|]. apply sint32_small. unfold int32_ok.
  apply andb_true_iff. split; [apply Z.leb_le|apply Z.ltb_lt]; lia.
Qed.

(** [v], written as [p], is read back wherever it stands. *)
Definition reads_back (dec : document_decoder) (v : MongoValue) (p : bytes) : Prop :=
  forall data pos len, holds data pos p -> 0 <= pos -> pos + blen p <= len ->
    decodeElementValue dec (bson_type (type v)) data len pos = Value (lower v, pos + blen p).

(** Cases of [decodeElementValue] on a known type. *)
Ltac element_case := unfold decodeElementValue; cbn [type m_type_tag m_storage bson_type Z.eqb Pos.eqb].

Lemma reads_int32 dec n : int32_ok n = true -> reads_back dec (value_int32 n) (put_le32 (wrap32 n)).
Proof.
  intros Hn data pos len H Hp Hl. rewrite blen_put_le32 in *. element_case.
  rewrite (readInt32_holds _ _ _ _ H Hl (wrap32_bound n)). simpl. by rewrite sint32_wrap32.
Qed.

Lemma reads_int64 dec n t :
  int64_ok n = true -> t = Type_Null \/ t = Type_DateTime \/ t = Type_Timestamp ->
  reads_back dec (mkValue (In_int64 n) t) (put_le64 (wrap64 n)).
Proof.
  intros Hn Ht data pos len H Hp Hl. rewrite blen_put_le64 in *.
  destruct Ht as [->|[->| ->]]; element_case;
    rewrite (readInt64_holds _ _ _ _ H Hl (wrap64_bound n)); simpl; unfold fromTimestamp;
    rewrite ?(sint64_wrap64 _ Hn); reflexivity.
Qed.

Lemma reads_double dec x :
  0 <= x < 2 ^ 64 -> reads_back dec (value_double x) (put_le64 x).
Proof.
  intros Hx data pos len H Hp Hl. rewrite blen_put_le64 in *. element_case. unfold readDouble.
  rewrite (readInt64_holds _ _ _ _ H Hl Hx). simpl. rewrite wrap64_sint64, wrap64_small by done. done.
Qed.

Lemma reads_string dec text :
  blen text + 1 < 2 ^ 31 -> reads_back dec (value_string text) (string_bytes text).
Proof.
  intros Ht data pos len H Hp Hl. pose proof (blen_nonneg text) as Hnn.
  destruct (length_wrap (blen text + 1) ltac:(lia)) as [Hw Hs].
  unfold string_bytes in *. rewrite Hw in *. rewrite !blen_app, blen_put_le32 in *.
  change (blen [nul]) with 1 in *.
  apply holds_app in H as [H0 H]. apply holds_app in H as [H1 H2]. rewrite blen_put_le32 in *. element_case.
  rewrite (readInt32_holds _ _ _ _ H0) by lia. cbn [obind fst snd]. rewrite Hs. cbv zeta.
  rewrite (proj2 (Z.leb_gt (blen text + 1) 0)) by lia.
  rewrite (proj2 (Z.ltb_ge len (pos + 4 + (blen text + 1)))) by lia.
  replace (pos + 4 + (blen text + 1) - 1) with (pos + 4 + blen text) by lia.
  rewrite (holds_rd _ _ _ H2). cbn [obind fst snd]. change (negb (b2z nul =? 0)) with false. cbv iota.
  replace (blen text + 1 - 1) with (blen text) by lia. rewrite (holds_slice _ _ _ H1). simpl.
  f_equal. f_equal. lia.
Qed.

Lemma reads_binary dec b :
  blen b < 2 ^ 31 ->
  reads_back dec (value_binary b) (put_le32 (wrap32 (blen b)) ++ [kBinarySubtypeGeneric] ++ b).
Proof.
  intros Hb data pos len H Hp Hl. pose proof (blen_nonneg b) as Hnn.
  destruct (length_wrap (blen b) ltac:(lia)) as [Hw Hs]. rewrite Hw in *.
  rewrite !blen_app, blen_put_le32 in *. change (blen [kBinarySubtypeGeneric]) with 1 in *.
  apply holds_app in H as [H0 H]. apply holds_app in H as [_ H1]. rewrite blen_put_le32 in *.
  change (blen [kBinarySubtypeGeneric]) with 1 in *. element_case.
  rewrite (readInt32_holds _ _ _ _ H0) by lia. cbn [obind fst snd]. rewrite Hs. cbv zeta.
  rewrite (proj2 (Z.ltb_ge (blen b) 0)) by lia.
  rewrite (proj2 (Z.ltb_ge len (pos + 4 + 1 + blen b))) by lia.
  rewrite (holds_slice _ _ _ H1). simpl. f_equal. f_equal. lia.
Qed.

Lemma reads_object_id dec oid :
  isHexObjectId oid = true -> reads_back dec (tagged_object_id oid) (unhex oid).
Proof.
  intros Ho data pos len H Hp Hl.
  pose proof (isHexObjectId_lower _ Ho) as Hlow. unfold isHexObjectId in Ho.
  apply andb_true_iff in Ho as [Hlen%Z.eqb_eq Hhex].
  destruct (hex_unhex 12 oid) as [Eh El]; [unfold blen in Hlen; lia|done|].
  assert (blen (unhex oid) = 12) as E12 by (unfold blen; lia). rewrite E12 in *. element_case.
  rewrite (proj2 (Z.ltb_ge len (pos + 12))) by lia. rewrite <- E12 at 1. rewrite (holds_slice _ _ _ H).
  cbn [obind fst snd]. unfold fromObjectId. rewrite Eh, Hlow. done.
Qed.

Lemma reads_leaf dec s t p :
  (forall d, s <> In_document (Some d)) -> (forall a, s <> In_array (Some a)) ->
  value_ok (mkValue s t) = true -> payload (mkValue s t) = Some p -> blen p < 2 ^ 31 ->
  reads_back dec (mkValue s t) p.
Proof.
  intros Hd Ha Hok Hp Hl.
  destruct t; try discriminate; destruct s as [|b|n|n|x|text|b|[d|]|[a|]]; try discriminate;
    try (by edestruct Hd); try (by edestruct Ha); cbn [payload] in Hp; apply (inj Some) in Hp; subst p.
  - intros data pos len _ _ _. element_case. by rewrite (@blen_nil byte), Z.add_0_r.
  - intros data pos len H Hpos Hlen. change (blen [_]) with 1 in *. element_case.
    rewrite (proj2 (Z.ltb_ge len (pos + 1))) by lia. rewrite (holds_rd _ _ _ H). by destruct b.
  - by apply reads_int32.
  - apply reads_int64; auto.
  - apply reads_double. apply andb_true_iff in Hok as [?%Z.leb_le ?%Z.ltb_lt]. lia.
  - rewrite decide_False in * by done. apply reads_string. unfold string_bytes in Hl.
    rewrite !blen_app, blen_put_le32 in Hl. change (blen [nul]) with 1 in Hl. lia.
  - apply reads_binary. rewrite !blen_app, blen_put_le32 in Hl.
    change (blen [kBinarySubtypeGeneric]) with 1 in Hl. lia.
  - rewrite decide_True in * by done. by apply reads_object_id.
  - apply reads_int64; auto.
  - apply reads_int64; auto.
Qed.

Lemma cat_some a b x : cat a b = Some x -> exists y z, a = Some y /\ b = Some z /\ x = y ++ z.
Proof. destruct a as [y|], b as [z|]; simpl; try done. intros [= <-]. by exists y, z. Qed.

Lemma bson_type_byte t : b2z (z2b (bson_type t)) = bson_type t.
Proof. by destruct t. Qed.

Lemma element_bytes_some key v x :
  element_bytes payload key v = Some x ->
  exists p, has_nul key = false /\ payload v = Some p /\ x = [z2b (bson_type (type v))] ++ (key ++ [nul]) ++ p.
Proof.
  unfold element_bytes. intros (y & z & [= <-] & (k & p & Hk & Hp & ->)%cat_some & ->)%cat_some. exists p.
  unfold cstring in Hk. destruct (has_nul key); [done|]. by injection Hk as <-.
Qed.

(** [v] is read back by a decoder whose nesting bound is at least the length of what is read. *)
Definition value_reads (v : MongoValue) : Prop :=
  forall fuel p, value_ok v = true -> payload v = Some p -> blen p < 2 ^ 31 -> blen p <= Z.of_nat fuel ->
    reads_back (decode_document fuel) v p.

Lemma elements_read d :
  Forall (fun f => value_reads f.2) d ->
  forall fuel turns data total_len pos body acc,
    document_ok d = true -> fields_bytes payload d = Some body -> holds data pos body -> 0 <= pos ->
    pos + blen body = total_len - 1 -> blen body < 2 ^ 31 -> blen body <= Z.of_nat fuel ->
    blen body <= Z.of_nat turns ->
    decode_elements (decode_document fuel) turns data total_len pos acc = Value (acc ++ lower_document d).
Proof.
  induction 1 as [|[k v] d Hv _ IH]; intros fuel turns data total_len pos body acc Hok Hb H Hp Hl H31 Hf Ht.
  - injection Hb as <-. rewrite (@blen_nil byte) in *. rewrite app_nil_r.
    destruct turns; simpl; rewrite (proj2 (Z.leb_le _ pos)) by lia; done.
  - simpl in Hok. apply andb_true_iff in Hok as [Hokv Hokd].
    apply cat_some in Hb as (x & b & Hx & Hb & ->).
    apply element_bytes_some in Hx as (p & Hk & Hpay & ->).
    apply holds_app in H as [He Hd]. apply holds_app in He as [H0 He]. apply holds_app in He as [H1 H2].
    rewrite !blen_app in *. change (blen [_]) with 1 in *.
    pose proof (blen_nonneg k). pose proof (blen_nonneg p). pose proof (blen_nonneg b).
    destruct turns as [|turns]; [lia|]. simpl decode_elements.
    rewrite (proj2 (Z.leb_gt _ pos)) by lia. rewrite (holds_rd _ _ _ H0). cbn [obind fst snd].
    rewrite (readCString_holds _ _ _ _ H1) by (done || lia). cbn [obind fst snd]. rewrite bson_type_byte.
    replace (pos + 1 + blen k + 1) with (pos + 1 + (blen k + 1)) by lia.
    rewrite (Hv fuel p Hokv Hpay) by (done || lia). cbn [obind fst snd].
    rewrite (IH fuel turns data total_len _ b) by (done || lia || (by replace (pos + 1 + (blen k + 1) + blen p)
      with (pos + (1 + (blen k + 1 + blen p))) by lia)).
    unfold document_append. by rewrite <- app_assoc.
Qed.

Lemma frame_length body : blen (frame body) = blen body + 5.
Proof. unfold frame. rewrite !blen_app, blen_put_le32. change (blen [nul]) with 1. lia. Qed.

Lemma document_read d body suf len fuel :
  Forall (fun f => value_reads f.2) d -> document_ok d = true -> fields_bytes payload d = Some body ->
  blen (frame body) < 2 ^ 31 -> blen (frame body) <= len -> blen (frame body) <= Z.of_nat fuel ->
  decode_document fuel (frame body ++ suf) len = Value (lower_document d, blen (frame body)).
Proof.
  intros Hd Hok Hb H31 Hlen Hf. rewrite frame_length in *. pose proof (blen_nonneg body) as Hnn.
  destruct fuel as [|fuel]; [lia|]. cbn [decode_document].
  destruct (length_wrap (blen body + 5) ltac:(lia)) as [Hw Hs].
  pose proof (holds_0 (frame body) suf) as H. unfold frame in H at 2. rewrite Hw in H.
  apply holds_app in H as [H0 H]. apply holds_app in H as [H1 H2]. rewrite blen_put_le32 in *.
  rewrite (proj2 (Z.ltb_ge len 5)) by lia. rewrite (readInt32_holds _ _ _ _ H0) by lia.
  cbn [obind fst snd]. rewrite Hs. rewrite (proj2 (Z.ltb_ge (blen body + 5) 5)) by lia.
  rewrite (proj2 (Z.ltb_ge len (blen body + 5))) by lia.
  replace (blen body + 5 - 1) with (0 + 4 + blen body) by lia. rewrite (holds_rd _ _ _ H2).
  cbn [obind fst snd]. change (negb (b2z nul =? 0)) with false. cbv iota.
  rewrite (elements_read d Hd fuel _ _ _ 4 body []) by (done || lia). done.
Qed.

(** The document an array is written as. *)
Fixpoint index_fields (i : Z) (a : MongoArray) : MongoDocument :=
  match a with [] => [] | v :: a => (to_chars i, v) :: index_fields (i + 1) a end.

Lemma values_bytes_fields i a : values_bytes payload i a = fields_bytes payload (index_fields i a).
Proof. revert i. induction a as [|v a IH]; intros i; simpl; [done|]. by rewrite IH. Qed.

Lemma index_fields_values i a : map snd (index_fields i a) = a.
Proof. revert i. induction a as [|v a IH]; intros i; simpl; [done|]. by rewrite IH. Qed.

Lemma index_fields_ok i a : document_ok (index_fields i a) = forallb value_ok a.
Proof. revert i. induction a as [|v a IH]; intros i; simpl; [done|]. by rewrite <- (IH (i + 1)). Qed.

Lemma index_fields_Forall (P : MongoValue -> Prop) i a : Forall P a -> Forall (fun f => P f.2) (index_fields i a).
Proof. intros H. revert i. induction H; intros i; simpl; constructor; auto. Qed.

Lemma decodeArrayFromDocument_eq d : decodeArrayFromDocument d = map snd d.
Proof.
  unfold decodeArrayFromDocument, array_append.
  enough (forall acc, fold_left (fun array (f : bytes * MongoValue) => array ++ [f.2]) d acc = acc ++ map snd d) as H
    by apply H.
  induction d as [|f d IH]; intros acc; simpl; [by rewrite app_nil_r|]. by rewrite IH, <- app_assoc.
Qed.

Lemma lower_array d : map snd (lower_document d) = map lower (map snd d).
Proof. unfold lower_document. rewrite !map_map. done. Qed.

(** A nested document, in the middle of its parent. *)
Lemma nested_read d body data pos len fuel :
  Forall (fun f => value_reads f.2) d -> document_ok d = true -> fields_bytes payload d = Some body ->
  blen (frame body) < 2 ^ 31 -> holds data pos (frame body) -> pos + blen (frame body) <= len ->
  blen (frame body) <= Z.of_nat fuel ->
  decode_document fuel (drop (Z.to_nat pos) data) (len - pos) = Value (lower_document d, blen (frame body)).
Proof.
  intros Hd Hok Hb H31 [suf ->]%holds_drop Hlen Hf. by apply document_read; try lia.
Qed.

Lemma values_read v : value_reads v.
Proof.
  induction v as [s t Hd Ha|d t IH|a t IH] using MongoValue_nested; intros fuel p Hok Hp H31 Hf.
  - by apply reads_leaf.
  - destruct t; try discriminate. cbn [payload] in Hp.
    destruct (fields_bytes payload d) as [body|] eqn:Hb; [|done]. apply (inj Some) in Hp. subst p.
    intros data pos len H Hpos Hlen. element_case.
    by rewrite (nested_read d body data pos len fuel IH Hok Hb H31 H Hlen Hf).
  - destruct t; try discriminate. cbn in Hok. apply andb_true_iff in Hok as [Hok _]. cbn [payload] in Hp.
    destruct (values_bytes payload 0 a) as [body|] eqn:Hb; [|done]. apply (inj Some) in Hp. subst p.
    rewrite values_bytes_fields in Hb. rewrite <- (index_fields_ok 0) in Hok.
    intros data pos len H Hpos Hlen. element_case.
    rewrite (nested_read _ body data pos len fuel (index_fields_Forall _ 0 a IH) Hok Hb H31 H Hlen Hf). simpl.
    by rewrite decodeArrayFromDocument_eq, lower_array, index_fields_values.
Qed.

Lemma document_back d data suf :
  document_ok d = true -> document_bytes d = Some data -> blen data < 2 ^ 31 ->
  decodeDocument (data ++ suf) (blen (data ++ suf)) = Value (lower_document d, blen data).
Proof.
  intros Hok Hd H31. unfold document_bytes in Hd. destruct (fields_bytes payload d) as [body|] eqn:Hb; [|done].
  apply (inj Some) in Hd. subst data. pose proof (blen_nonneg suf). rewrite blen_app.
  unfold decodeDocument. apply document_read; try done; try lia.
  apply Forall_forall. intros f _. apply values_read.
Qed.

(** The same, in the middle of a buffer. *)
Lemma nested_document d p data pos len :
  document_ok d = true -> document_bytes d = Some p -> blen p < 2 ^ 31 -> holds data pos p -> pos + blen p <= len ->
  decodeDocument (drop (Z.to_nat pos) data) (len - pos) = Value (lower_document d, blen p).
Proof.
  intros Hok Hd H31 H Hlen. unfold document_bytes in Hd. destruct (fields_bytes payload d) as [body|] eqn:Hb; [|done].
  apply (inj Some) in Hd. subst p. pose proof (blen_nonneg (frame body)).
  apply (nested_read d body); try done; [|lia]. apply Forall_forall. intros f _. apply values_read.
Qed.

(** C18: what [appendDocument] writes, [decodeDocument] reads back where it stands, whatever follows: the same
    fields in the same order at every depth, object identifiers in lower case, and as many bytes consumed
    as were written. *)
Theorem bson_roundtrip d data suf :
  document_ok d = true -> document_bytes d = Some data -> blen data < 2 ^ 31 ->
  appendDocument d [] = (data, None) /\
  decodeDocument (data ++ suf) (blen (data ++ suf)) = Value (lower_document d, blen data).
Proof.
  intros Hok Hd H31. split; [|by apply document_back].
  rewrite (append_exact d Hok []). by rewrite Hd.
Qed.

Lemma bson_roundtrip_witness :
  exists data, appendDocument sample_document [] = (data, None) /\
    decodeDocument (data ++ bs "rest") (blen (data ++ bs "rest")) = Value (lower_document sample_document, blen data).
Proof.
  eexists. apply (bson_roundtrip sample_document _ (bs "rest") ltac:(vm_compute; reflexivity)
    ltac:(vm_compute; reflexivity) ltac:(vm_compute; reflexivity)).
Defined.

(** ** Every input *)

(** [m] returns a value with [P] or an error of the code: it stays inside the buffer and the nesting bound
    is not met. *)
Definition returns {A} (P : A -> Prop) (m : outcome BsonError A) : Prop :=
  match m with
  | Value a => P a
  | Unexpected e => e <> NestingBound
  | OutOfBounds => False
  end.

Lemma returns_bind {A B} (P : A -> Prop) (Q : B -> Prop) m k :
  returns P m -> (forall a, P a -> returns Q (k a)) -> returns Q (obind m k).
Proof. destruct m; simpl; auto. Qed.

Lemma returns_if {A} (Q : A -> Prop) (b : bool) m k :
  (b = true -> returns Q m) -> (b = false -> returns Q k) -> returns Q (if b then m else k).
Proof. destruct b; auto. Qed.

Lemma returns_rd data pos : 0 <= pos < blen data -> returns (fun _ => True) (rd data pos).
Proof. intros H. by destruct (@rd_in BsonError data pos H) as [b ->]. Qed.

Lemma returns_slice data off n :
  0 <= off -> 0 <= n -> off + n <= blen data -> returns (fun x => blen x = n) (slice data off n).
Proof.
  intros Ho Hn Hl. rewrite slice_in by done. simpl. unfold blen in *.
  rewrite length_take, length_drop. lia.
Qed.

Ltac ret_rd := apply (returns_bind (fun _ => True)); [apply returns_rd; lia|intros ? _].

Lemma sint32_ok z : int32_ok (sint32 z) = true.
Proof.
  unfold int32_ok, sint32. pose proof (Z.mod_pos_bound (z + 2 ^ 31) (2 ^ 32) eq_refl).
  apply andb_true_iff. split; [apply Z.leb_le|apply Z.ltb_lt]; lia.
Qed.

Lemma sint64_ok z : int64_ok (sint64 z) = true.
Proof.
  unfold int64_ok, sint64. pose proof (Z.mod_pos_bound (z + 2 ^ 63) (2 ^ 64) eq_refl).
  apply andb_true_iff. split; [apply Z.leb_le|apply Z.ltb_lt]; lia.
Qed.

Lemma int32_ok_range n : int32_ok n = true -> - 2 ^ 31 <= n < 2 ^ 31.
Proof. unfold int32_ok. rewrite andb_true_iff, Z.leb_le, Z.ltb_lt. done. Qed.

Lemma returns_int32 data len pos :
  0 <= pos -> len <= blen data -> returns (fun n => int32_ok n = true /\ pos + 4 <= len) (readInt32 data len pos).
Proof.
  intros Hp Hl. unfold readInt32. apply returns_if; [done|]. intros Hn%Z.ltb_ge. unfold readInt32LEUnchecked.
  do 4 ret_rd. split; [apply sint32_ok|done].
Qed.

Lemma returns_le64 data pos i n value :
  0 <= pos + i -> pos + i + Z.of_nat n <= blen data ->
  returns (fun _ => True) (read_le64_from data pos i n value).
Proof.
  revert i value. induction n as [|n IH]; intros i value Hp Hl; [done|].
  cbn [read_le64_from]. ret_rd. apply IH; lia.
Qed.

Lemma returns_int64 data len pos :
  0 <= pos -> len <= blen data -> returns (fun n => int64_ok n = true /\ pos + 8 <= len) (readInt64 data len pos).
Proof.
  intros Hp Hl. unfold readInt64. apply returns_if; [done|]. intros Hn%Z.ltb_ge. unfold readInt64LEUnchecked.
  apply (returns_bind (fun _ => True)); [apply returns_le64; lia|]. intros z _. split; [apply sint64_ok|done].
Qed.

Lemma holds_nil data pos : 0 <= pos <= blen data -> holds data pos [].
Proof.
  intros Hp. exists (take (Z.to_nat pos) data), (drop (Z.to_nat pos) data). simpl. rewrite take_drop.
  split; [done|]. unfold blen in *. rewrite length_take. lia.
Qed.

Lemma returns_scan data n pos :
  0 <= pos -> pos + Z.of_nat n <= blen data ->
  returns (fun q => pos <= q <= pos + Z.of_nat n /\
                    (exists s, holds data pos s /\ has_nul s = false /\ blen s = q - pos)) (scan_nul data n pos).
Proof.
  revert pos. induction n as [|n IH]; intros pos Hp Hl; cbn [scan_nul].
  - split; [lia|]. exists []. rewrite (@blen_nil byte). split; [apply holds_nil; lia|split; [done|lia]].
  - destruct (@rd_in BsonError data pos ltac:(lia)) as [c Hc]. rewrite Hc. cbn [obind].
    apply returns_if.
    + intros _. split; [lia|]. exists []. rewrite (@blen_nil byte). split; [apply holds_nil; lia|split; [done|lia]].
    + intros Hz. specialize (IH (pos + 1) ltac:(lia) ltac:(lia)).
      destruct (scan_nul data n (pos + 1)) as [q|e|]; simpl in *; [|done..].
      destruct IH as (Hq & s & (pre & suf & Hd & Hpre) & Hs & Hb). split; [lia|].
      exists (c :: s). rewrite blen_cons. split; [|split; [simpl; by rewrite Hz|lia]].
      destruct (list_eq_nil_dec pre) as [->|Hne]; [rewrite (@blen_nil byte) in Hpre; lia|].
      destruct (exists_last Hne) as (pre' & c' & ->). rewrite blen_app in Hpre. change (blen [c']) with 1 in Hpre.
      exists pre', suf. rewrite <- app_assoc in Hd. split; [|lia]. rewrite Hd.
      rewrite (rd_app_at data pre' c' (s ++ suf) pos Hd) in Hc by lia. by injection Hc as ->.
Qed.

Lemma returns_cstring data len pos :
  0 <= pos -> len <= blen data ->
  returns (fun r => has_nul r.1 = false /\ pos < r.2 <= len) (readCString data len pos).
Proof.
  intros Hp Hl. unfold readCString. apply returns_if; [done|]. intros Hn%Z.leb_gt.
  eapply returns_bind; [apply returns_scan; lia|]. intros q [Hq (s & Hs & Hnul & Hb)].
  apply returns_if; [done|]. intros Hq'%Z.leb_gt. rewrite <- Hb, (holds_slice _ _ _ Hs).
  cbn [obind]. split; [done|]. simpl. lia.
Qed.

(** A value of the client: well formed, without a NUL in its keys, its object identifiers in lower case. *)
Definition clean (v : MongoValue) : Prop := value_ok v = true /\ is_Some (payload v) /\ lower v = v.
Definition clean_document (d : MongoDocument) : Prop :=
  document_ok d = true /\ is_Some (fields_bytes payload d) /\ lower_document d = d.

Lemma clean_append d key v :
  clean_document d -> has_nul key = false -> clean v -> clean_document (document_append d key v).
Proof.
  intros (Hok & [x Hx] & Hlow) Hk (Hokv & [p Hp] & Hlowv). unfold document_append. split_and!.
  - unfold document_ok in *. rewrite forallb_app, Hok. simpl. by rewrite Hokv.
  - rewrite fields_bytes_app, Hx. simpl. unfold element_bytes, cstring. rewrite Hk, Hp. simpl. eauto.
  - unfold lower_document in *. rewrite map_app, Hlow. simpl. by rewrite Hlowv.
Qed.

Lemma to_chars_no_nul n : has_nul (to_chars n) = false.
Proof.
  unfold has_nul. apply not_true_is_false. intros (b & Hb & E%Z.eqb_eq)%existsb_exists.
  pose proof (proj1 (List.Forall_forall _ _) (to_chars_digits n) b Hb) as [->|[v Hv]]; [done|].
  revert E Hv. unfold digit_value. intros ->. done.
Qed.

Lemma clean_array d :
  clean_document d -> blen d < 2 ^ 64 -> clean (value_array (map snd d)).
Proof.
  intros (Hok & [x Hx] & Hlow) Hl. split_and!.
  - cbn. apply andb_true_iff. split; [|apply Z.ltb_lt; unfold blen in *; by rewrite length_map].
    rewrite forallb_forall. intros v ([k v'] & <- & Hin)%in_map_iff. unfold document_ok in Hok.
    rewrite forallb_forall in Hok. by apply (Hok _ Hin).
  - cbn [payload value_array untagged]. rewrite values_bytes_fields. clear Hok Hlow Hl. generalize 0 as i.
    revert x Hx. induction d as [|[k v] d IH]; intros x Hx i; simpl; [eauto|].
    apply cat_some in Hx as (y & z & (p & _ & Hp & _)%element_bytes_some & Hz & _).
    destruct (IH z Hz (i + 1)) as [w Hw]. unfold element_bytes, cstring.
    rewrite to_chars_no_nul, Hp. destruct (fields_bytes payload (index_fields (i + 1) (map snd d))); [|done].
    simpl. eauto.
  - cbn. do 3 f_equal. rewrite <- lower_array. by rewrite Hlow.
Qed.

Lemma clean_value_document d : clean_document d -> clean (value_document d).
Proof.
  intros (Hok & [x Hx] & Hlow). split_and!; [done| |].
  - cbn [payload value_document untagged]. rewrite Hx. simpl. eauto.
  - change (value_document (lower_document d) = value_document d). by rewrite Hlow.
Qed.

Lemma clean_object_id raw : blen raw = 12 -> clean (tagged_object_id (hex raw)) /\ isHexObjectId (hex raw) = true.
Proof.
  intros Hl.
  assert (H : forall b, is_hex (b2z (hex_char (Z.shiftr (b2z b) 4))) = true /\
                        is_hex (b2z (hex_char (Z.land (b2z b) 0x0F))) = true /\
                        lower_hex (hex_char (Z.shiftr (b2z b) 4)) = hex_char (Z.shiftr (b2z b) 4) /\
                        lower_hex (hex_char (Z.land (b2z b) 0x0F)) = hex_char (Z.land (b2z b) 0x0F)).
  { intros b. by destruct b; vm_compute. }
  assert (isHexObjectId (hex raw) = true /\ map lower_hex (hex raw) = hex raw) as [Hh Hm].
  { unfold isHexObjectId.
    assert (blen (hex raw) = 2 * blen raw /\ forallb (fun b => is_hex (b2z b)) (hex raw) = true /\
            map lower_hex (hex raw) = hex raw) as (-> & -> & ->); [|by rewrite Hl].
    clear Hl. induction raw as [|b raw (IH1 & IH2 & IH3)]; [done|]. destruct (H b) as (H1 & H2 & H3 & H4).
    cbn [hex forallb map]. rewrite !blen_cons, H1, H2, H3, H4, IH1, IH2, IH3. split_and!; [lia|done|done]. }
  split; [|done]. split_and!; [done|by eexists|]. cbn. by rewrite Hm.
Qed.

(** What a decoder of documents promises to the decoder of elements: every input up to a length. *)
Definition decodes_upto (dec : document_decoder) (bound : Z) : Prop :=
  forall data len, 0 <= len <= blen data -> len <= bound ->
    returns (fun r => clean_document r.1 /\ 5 <= r.2 <= len /\ blen r.1 < 2 ^ 31) (dec data len).

Lemma clean_scalar v : value_ok v = true -> is_Some (payload v) -> lower v = v -> clean v.
Proof. done. Qed.

Lemma returns_nested dec data len pos k (Q : MongoValue * Z -> Prop) :
  decodes_upto dec (len - pos) -> 0 <= pos <= len -> len <= blen data ->
  (forall r, clean_document r.1 -> 5 <= r.2 <= len - pos -> blen r.1 < 2 ^ 31 -> returns Q (k r)) ->
  returns Q (doc <-- dec (drop (Z.to_nat pos) data) (len - pos) ;; k doc).
Proof.
  intros Hdec Hp Hl Hk. eapply returns_bind.
  - apply Hdec; [|lia]. unfold blen in *. rewrite length_drop. lia.
  - intros r (H1 & H2 & H3). by apply Hk.
Qed.

Lemma wrap64_double_ok n : value_ok (value_double (wrap64 n)) = true.
Proof.
  cbn. pose proof (wrap64_bound n). apply andb_true_iff. split; [apply Z.leb_le|apply Z.ltb_lt]; lia.
Qed.

Ltac ret_scalar := split; [by apply clean_scalar; [|eexists|]|simpl; lia].

Lemma returns_element dec type data len pos :
  decodes_upto dec (len - pos) -> 0 <= pos <= len -> len <= blen data ->
  returns (fun r => clean r.1 /\ pos <= r.2 <= len) (decodeElementValue dec type data len pos).
Proof.
  intros Hdec Hp Hl. unfold decodeElementValue.
  repeat match goal with |- returns _ (if type =? _ then _ else _) => apply returns_if; intros _ end.
  - unfold readDouble. apply (returns_bind (fun x => pos + 8 <= len /\ exists n, x = wrap64 n)).
    + eapply returns_bind; [apply returns_int64; lia|]. intros n [_ Hn]. split; [done|by exists n].
    + intros x [Hx [n ->]]. split; [|simpl; lia]. apply clean_scalar; [apply wrap64_double_ok|by eexists|done].
  - eapply returns_bind; [apply returns_int32; lia|]. intros n [Hn%int32_ok_range Hpos]. cbv zeta.
    apply returns_if; [done|]. intros Hn0%Z.leb_gt. apply returns_if; [done|]. intros Hr%Z.ltb_ge. ret_rd.
    apply returns_if; [done|]. intros _. eapply returns_bind; [apply returns_slice; lia|].
    intros text Ht. ret_scalar.
  - apply returns_nested; [done..|]. intros r Hr Hc Hb. split; [by apply clean_value_document|simpl; lia].
  - apply returns_nested; [done..|]. intros r Hr Hc Hb. rewrite decodeArrayFromDocument_eq.
    split; [apply clean_array; [done|lia]|simpl; lia].
  - eapply returns_bind; [apply returns_int32; lia|]. intros n [Hn%int32_ok_range Hpos]. cbv zeta.
    apply returns_if; [done|]. intros Hn0%Z.ltb_ge. apply returns_if; [done|]. intros Hr%Z.ltb_ge.
    eapply returns_bind; [apply returns_slice; lia|]. intros b Hb. ret_scalar.
  - apply returns_if; [done|]. intros Hr%Z.ltb_ge. eapply returns_bind; [apply returns_slice; lia|].
    intros raw Hraw. destruct (clean_object_id raw Hraw) as [Hc Hh]. unfold fromObjectId. rewrite Hh.
    split; [done|simpl; lia].
  - apply returns_if; [done|]. intros Hr%Z.ltb_ge. ret_rd. ret_scalar.
  - eapply returns_bind; [apply returns_int64; lia|]. intros n [Hn Hpos]. ret_scalar.
  - ret_scalar.
  - eapply returns_bind; [apply returns_int32; lia|]. intros n [Hn Hpos]. ret_scalar.
  - eapply returns_bind; [apply returns_int64; lia|]. intros n [Hn Hpos]. split; [|simpl; lia].
    apply clean_scalar; [|by eexists|done]. apply sint64_ok.
  - eapply returns_bind; [apply returns_int64; lia|]. intros n [Hn Hpos]. ret_scalar.
  - done.
Qed.

Lemma returns_elements dec turns data total_len pos d :
  (forall q, pos < q -> decodes_upto dec (total_len - q)) -> 0 <= pos -> total_len <= blen data ->
  total_len - pos <= Z.of_nat turns -> clean_document d -> blen d <= pos <= total_len ->
  returns (fun d' => clean_document d' /\ blen d' <= total_len) (decode_elements dec turns data total_len pos d).
Proof.
  revert pos d. induction turns as [|turns IH]; intros pos d Hdec Hp Hl Ht Hd Hb; cbn [decode_elements];
    (apply returns_if; [intros _; split; [done|lia]|intros Hpos%Z.leb_gt]); [lia|].
  ret_rd. eapply returns_bind; [apply returns_cstring; lia|]. intros [key q] [Hk Hq]. cbn [fst snd] in *.
  eapply returns_bind; [apply returns_element; [apply Hdec; lia|lia|done]|].
  intros [v r] [Hv Hr]. cbn [fst snd] in *. apply IH; try lia.
  - intros q' Hq'. apply Hdec. lia.
  - by apply clean_append.
  - unfold document_append. rewrite blen_app. change (blen [_]) with 1. lia.
Qed.

Lemma returns_document fuel bound : bound <= Z.of_nat fuel -> decodes_upto (decode_document fuel) (bound - 1).
Proof.
  revert bound. induction fuel as [|fuel IH]; intros bound Hf data len Hlen Hb; [lia|]. cbn [decode_document].
  apply returns_if; [done|]. intros H5%Z.ltb_ge.
  eapply returns_bind; [apply returns_int32; lia|]. intros total_len [Ht%int32_ok_range _].
  apply returns_if; [done|]. intros Ht5%Z.ltb_ge. apply returns_if; [done|]. intros Htl%Z.ltb_ge.
  ret_rd. apply returns_if; [done|]. intros _.
  eapply returns_bind.
  - apply returns_elements; try lia.
    + intros q Hq. replace (total_len - q) with (total_len - q + 1 - 1) by lia. apply IH. lia.
    + split_and!; [done|by eexists|done].
    + rewrite (@blen_nil (bytes * MongoValue)). lia.
  - intros d [Hd Hbd]. split_and!; [done|cbn [snd]; lia..|cbn [fst]; lia].
Qed.

Lemma decode_returns data len :
  0 <= len <= blen data ->
  returns (fun r => clean_document r.1 /\ 5 <= r.2 <= len /\ blen r.1 < 2 ^ 31) (decodeDocument data len).
Proof. intros Hlen. apply (returns_document _ (len + 1)); lia. Qed.

(** C21: [decodeDocument] stays inside its buffer and ends on every input: it reports one of the code's errors
    or returns a document it consumed between five and [len] bytes for, well formed at every depth and with
    keys that can be written again. *)
Theorem decodeDocument_total data len :
  0 <= len <= blen data ->
  returns (fun r => document_ok r.1 = true /\ is_Some (document_bytes r.1) /\ lower_document r.1 = r.1 /\
                    5 <= r.2 <= len) (decodeDocument data len).
Proof.
  intros Hlen. pose proof (decode_returns data len Hlen) as H.
  destruct (decodeDocument data len) as [r|e|]; [|done..]. destruct H as ((Hok & [x Hx] & Hlow) & Hc & _).
  split_and!; [done| |done|lia..]. unfold document_bytes. rewrite Hx. by eexists.
Qed.

Lemma decodeDocument_total_witness :
  returns (fun r => document_ok r.1 = true /\ is_Some (document_bytes r.1) /\ lower_document r.1 = r.1 /\
                    5 <= r.2 <= 9) (decodeDocument (bs "garbage??") 9).
Proof. apply decodeDocument_total. split; [lia|]. vm_compute. discriminate. Defined.

(** What was read can be written, and is read again as the same document. *)
Theorem decoded_again data len d n out :
  0 <= len <= blen data -> decodeDocument data len = Value (d, n) ->
  document_bytes d = Some out -> blen out < 2 ^ 31 ->
  encodeDocument d = inr out /\ decodeDocument out (blen out) = Value (d, blen out).
Proof.
  intros Hlen Hd Ho H31. pose proof (decode_returns data len Hlen) as H. rewrite Hd in H.
  destruct H as ((Hok & _ & Hlow) & _). cbn [fst] in *. unfold encodeDocument.
  rewrite (append_exact d Hok []), Ho. split; [done|].
  pose proof (document_back d out [] Hok Ho H31) as Hr. by rewrite app_nil_r, Hlow in Hr.
Qed.

(** ** Longer buffers *)

(** What is read of a buffer does not depend on what lies behind it. *)
Definition agrees {E A} (m m' : outcome E A) : Prop := m = OutOfBounds \/ m' = m.

Lemma agrees_refl {E A} (m : outcome E A) : agrees m m.
Proof. by right. Qed.

Lemma agrees_bind {E A C} (m m' : outcome E A) (k k' : A -> outcome E C) :
  agrees m m' -> (forall a, agrees (k a) (k' a)) -> agrees (obind m k) (obind m' k').
Proof.
  intros [-> | ->] Hk; [by left|]. destruct m as [a|e|]; simpl; [apply Hk|by right|by left].
Qed.

Lemma agrees_if {E A} (b : bool) (m m' k k' : outcome E A) :
  agrees m m' -> agrees k k' -> agrees (if b then m else k) (if b then m' else k').
Proof. by destruct b. Qed.

Lemma agrees_rd {E} d d' i : d `prefix_of` d' -> agrees (@rd E d i) (rd d' i).
Proof.
  intros [x ->]. unfold agrees, rd. destruct (i <? 0); [by left|].
  destruct (nth_error d (Z.to_nat i)) as [b|] eqn:Hd; [right|by left].
  rewrite nth_error_app1; [by rewrite Hd|]. apply nth_error_Some. congruence.
Qed.

Lemma agrees_slice {E} d d' off n : d `prefix_of` d' -> agrees (@slice E d off n) (slice d' off n).
Proof.
  intros [x ->]. unfold agrees, slice. rewrite blen_app. pose proof (blen_nonneg x).
  destruct (Z.leb_spec 0 off), (Z.leb_spec 0 n), (Z.leb_spec (off + n) (blen d)); simpl; try by left.
  right. rewrite (proj2 (Z.leb_le _ _)) by lia. unfold blen in *.
  rewrite drop_app_le, take_app_le by (rewrite ?length_drop; lia). done.
Qed.

Lemma prefix_drop {A} n (d d' : list A) : d `prefix_of` d' -> drop n d `prefix_of` drop n d'.
Proof.
  intros [x ->]. destruct (Nat.le_gt_cases n (length d)) as [Hn|Hn].
  - exists x. by rewrite drop_app_le.
  - rewrite (drop_ge d) by lia. apply prefix_nil.
Qed.

Create HintDb agrees.
#[export] Hint Resolve agrees_refl agrees_bind agrees_if agrees_rd agrees_slice prefix_drop : agrees.

Lemma agrees_int32 data data' len pos :
  data `prefix_of` data' -> agrees (readInt32 data len pos) (readInt32 data' len pos).
Proof. intros H. unfold readInt32, readInt32LEUnchecked. auto 8 with agrees. Qed.

Lemma agrees_le64 data data' pos i n value :
  data `prefix_of` data' -> agrees (read_le64_from data pos i n value) (read_le64_from data' pos i n value).
Proof. intros H. revert i value. induction n as [|n IH]; intros i value; simpl; auto with agrees. Qed.

Lemma agrees_int64 data data' len pos :
  data `prefix_of` data' -> agrees (readInt64 data len pos) (readInt64 data' len pos).
Proof.
  intros H. unfold readInt64, readInt64LEUnchecked. pose proof (agrees_le64 data data' pos 0 8 0 H).
  auto 6 with agrees.
Qed.

Lemma agrees_scan data data' n pos : data `prefix_of` data' -> agrees (scan_nul data n pos) (scan_nul data' n pos).
Proof. intros H. revert pos. induction n as [|n IH]; intros pos; simpl; auto 6 with agrees. Qed.

Lemma agrees_cstring data data' len pos :
  data `prefix_of` data' -> agrees (readCString data len pos) (readCString data' len pos).
Proof.
  intros H. unfold readCString. pose proof (agrees_scan data data' (Z.to_nat (len - pos)) pos H).
  auto 8 with agrees.
Qed.

#[export] Hint Resolve agrees_int32 agrees_int64 agrees_cstring : agrees.

(** A decoder of documents that reads no further. *)
Definition local_decoder (dec : document_decoder) : Prop :=
  forall data data' len, data `prefix_of` data' -> agrees (dec data len) (dec data' len).

Lemma agrees_element dec type data data' len pos :
  local_decoder dec -> data `prefix_of` data' ->
  agrees (decodeElementValue dec type data len pos) (decodeElementValue dec type data' len pos).
Proof.
  intros Hdec H. unfold decodeElementValue, readDouble. cbv zeta.
  pose proof (Hdec _ _ (len - pos) (prefix_drop (Z.to_nat pos) _ _ H)) as Hn.
  repeat match goal with |- agrees (if type =? _ then _ else _) _ => apply agrees_if end;
    auto 12 with agrees.
Qed.

Lemma agrees_elements dec turns data data' total_len pos d :
  local_decoder dec -> data `prefix_of` data' ->
  agrees (decode_elements dec turns data total_len pos d) (decode_elements dec turns data' total_len pos d).
Proof.
  intros Hdec H. revert pos d. induction turns as [|turns IH]; intros pos d; cbn [decode_elements];
    (apply agrees_if; [apply agrees_refl|]); [apply agrees_refl|].
  apply agrees_bind; [by apply agrees_rd|]. intros type. apply agrees_bind; [by apply agrees_cstring|].
  intros key. apply agrees_bind; [by apply agrees_element|]. intros v. apply IH.
Qed.

Lemma agrees_document fuel : local_decoder (decode_document fuel).
Proof.
  induction fuel as [|fuel IH]; intros data data' len H; cbn [decode_document]; [apply agrees_refl|].
  apply agrees_if; [apply agrees_refl|]. apply agrees_bind; [by apply agrees_int32|]. intros total_len.
  apply agrees_if; [apply agrees_refl|]. apply agrees_if; [apply agrees_refl|].
  apply agrees_bind; [by apply agrees_rd|]. intros last. apply agrees_if; [apply agrees_refl|].
  apply agrees_bind; [by apply agrees_elements|]. intros d. apply agrees_refl.
Qed.

Lemma agrees_decode data data' len :
  data `prefix_of` data' -> agrees (decodeDocument data len) (decodeDocument data' len).
Proof. apply agrees_document. Qed.

(** ** Departures *)

(** An element may take the document's terminator for its last byte: eleven bytes, one less than the
    encoding of the document they are read as. *)
Example decode_unterminated :
  let data := put_le32 11 ++ [z2b 0x10] ++ bs "a" ++ [nul] ++ put_le32 1 in
  decodeDocument data 11 = Value ([(bs "a", value_int32 1)], 11) /\
  (blen <$> document_bytes [(bs "a", value_int32 1)]) = Some 12.
Proof. by vm_compute. Qed.

(** The subtype of binary data is skipped and written back as the generic one: a UUID does not survive. *)
Example binary_subtype_lost :
  let data subtype := put_le32 15 ++ [z2b 0x05] ++ bs "u" ++ [nul] ++ put_le32 2 ++ [z2b subtype] ++ bs "id" ++ [nul] in
  match decodeDocument (data 4) (blen (data 4)) with
  | Value (d, _) => encodeDocument d = inr (data 0)
  | _ => False
  end.
Proof. by vm_compute. Qed.

(** A key with a NUL three levels down: nothing is left of the command. *)
Example append_rolls_back :
  let d := [(bs "a", value_int32 1);
            (bs "b", value_array [value_document [(bs "ok", value_null); (z2b 0 :: bs "bad", value_null)]])] in
  appendDocument d (bs "before") = (bs "before", Some EmbeddedNul).
Proof. by vm_compute. Qed.

(** Errors of the decoder. *)
Example decode_errors :
  let decode data := match decodeDocument data (blen data) with Unexpected e => Some e | _ => None end in
  map decode
    [bs "xyz"; put_le32 4 ++ [nul]; put_le32 9 ++ [nul]; put_le32 5 ++ bs "x";
     put_le32 8 ++ [z2b 0x13; z2b 97; nul; nul]; put_le32 7 ++ [z2b 0x0A; z2b 97; nul];
     put_le32 12 ++ [z2b 0x02; z2b 97; nul] ++ put_le32 0 ++ [nul]]
  = [Some TooShort; Some InvalidLength; Some Incomplete; Some NotTerminated;
     Some (UnsupportedType 0x13); None; Some StringLength].
Proof. by vm_compute. Qed.
