(* ===== verification/MongoProtocol.v ===== *)
(** MongoDB messages ([galay-mongo/protoc/mongo_protocol.cc]) and the builder of pipelines
    ([galay-mongo/protoc/builder.cc]): OP_MSG frames around BSON documents, with their CRC-32C when the
    flags ask for it.

    The loop over the sections of a message is bounded by the message's length, which is more than the
    turns it takes; the bound being met is the error [SectionBound], which no message gives. *)

From Stdlib Require Import ZArith Lia Strings.Byte.
From stdpp Require Import base list numbers strings.
From S2P Require Import Prelude MongoValue Bson Crc32c.

Open Scope Z_scope.

Definition kMongoOpReply : Z := 1.
Definition kMongoOpCompressed : Z := 2012.
Definition kMongoOpMsg : Z := 2013.
Definition kChecksumPresentFlag : Z := 0x01.

Record MongoMessageHeader : Type := mkHeader {
  message_length : Z;
  request_id : Z;
  response_to : Z;
  op_code : Z
}.

Record MongoMessage : Type := mkMessage { header : MongoMessageHeader; body : MongoDocument; flags : Z }.

(** The [MongoError]s of the decoder, each for its text; all but [CompressedMessage], which is
    [MONGO_ERROR_UNSUPPORTED], are [MONGO_ERROR_PROTOCOL]. *)
Inductive MongoError : Type :=
| MessageTooShort | MessageLength | MessageIncomplete | CompressedMessage | UnsupportedOpCode (op : Z)
| ChecksumMissing | ChecksumMismatch | BodyError (e : BsonError)
| SectionHeader | SectionSize | SectionIncomplete | UnknownSection (kind : Z) | BodyMissing
| HeaderIncomplete | SectionBound.

(** ** Encoding *)

Definition appendInt32LE (value : Z) : writer := emit (put_le32 (wrap32 value)).

(** The two encoders differ in how the body is appended. *)
Definition op_msg (append_body : writer) (request_id flags : Z) : writer := fun out =>
  let base := length out in
  (emit (replicate 16 nul) >>>
   appendInt32LE flags >>>
   emit [nul] >>>
   or_rollback base append_body >>>
   (fun out =>
      let out' := writeInt32LEAt out base (sint32 (blen out - Z.of_nat base)) in
      let out' := writeInt32LEAt out' (base + 4) request_id in
      let out' := writeInt32LEAt out' (base + 8) 0 in
      (writeInt32LEAt out' (base + 12) kMongoOpMsg, None))) out.

Definition appendOpMsg (request_id : Z) (body : MongoDocument) (flags : Z) : writer :=
  op_msg (appendDocument body) request_id flags.

Definition encodeOpMsg (request_id : Z) (body : MongoDocument) (flags : Z) : BsonError + bytes :=
  match appendOpMsg request_id body flags [] with
  | (out, None) => inr out
  | (_, Some e) => inl e
  end.

Definition appendOpMsgWithDatabase (request_id : Z) (body : MongoDocument) (database : bytes) (flags : Z) : writer :=
  op_msg (appendDocumentWithDatabase body database) request_id flags.

(** ** Decoding *)

Definition readUint32LE (data : bytes) (pos : Z) : outcome MongoError Z :=
  b0 <-- rd data pos ;;
  b1 <-- rd data (pos + 1) ;;
  b2 <-- rd data (pos + 2) ;;
  b3 <-- rd data (pos + 3) ;;
  Value (get_le32 b0 b1 b2 b3).

Definition readInt32LE (data : bytes) (pos : Z) : outcome MongoError Z :=
  b0 <-- rd data pos ;;
  b1 <-- rd data (pos + 1) ;;
  b2 <-- rd data (pos + 2) ;;
  b3 <-- rd data (pos + 3) ;;
  Value (sint32 (get_le32 b0 b1 b2 b3)).

Definition document_section (data : bytes) (len : Z) : outcome MongoError (MongoDocument * Z) :=
  match decodeDocument data len with
  | Value r => Value r
  | Unexpected e => Unexpected (BodyError e)
  | OutOfBounds => OutOfBounds
  end.

(** [while (pos < parseable_end)]: [found] is [message.body] once a body has been seen. *)
Fixpoint decode_sections (turns : nat) (data : bytes) (parseable_end pos : Z) (found : option MongoDocument) :
  outcome MongoError (option MongoDocument) :=
  if parseable_end <=? pos then Value found
  else
    match turns with
    | O => Unexpected SectionBound
    | S turns =>
        section_kind <-- rd data pos ;;
        let pos := pos + 1 in
        if b2z section_kind =? 0 then
          document <-- document_section (drop (Z.to_nat pos) data) (parseable_end - pos) ;;
          decode_sections turns data parseable_end (pos + document.2) (Some document.1)
        else if b2z section_kind =? 1 then
          if parseable_end <? pos + 4 then Unexpected SectionHeader
          else
            section_size <-- readInt32LE data pos ;;
            if section_size <=? 4 then Unexpected SectionSize
            else if parseable_end <? pos + section_size then Unexpected SectionIncomplete
            else decode_sections turns data parseable_end (pos + section_size) found
        else Unexpected (UnknownSection (b2z section_kind))
    end.

Definition checksum_present (flags : Z) : bool := negb (Z.land flags kChecksumPresentFlag =? 0).

(** The comparison of the last four bytes with the checksum of what precedes them. *)
Definition verify_checksum (data : bytes) (message_size : Z) : outcome MongoError unit :=
  if message_size <? 25 then Unexpected ChecksumMissing
  else
    expected <-- readUint32LE data (message_size - 4) ;;
    covered <-- slice data 0 (message_size - 4) ;;
    match crc32c covered with
    | Some actual => if actual =? expected then Value tt else Unexpected ChecksumMismatch
    | None => OutOfBounds
    end.

Definition decodeMessage (data : bytes) (len : Z) : outcome MongoError MongoMessage :=
  if len <? 16 then Unexpected MessageTooShort
  else
    message_length <-- readInt32LE data 0 ;;
    request_id <-- readInt32LE data 4 ;;
    response_to <-- readInt32LE data 8 ;;
    op_code <-- readInt32LE data 12 ;;
    if message_length <? 21 then Unexpected MessageLength
    else if len <? message_length then Unexpected MessageIncomplete
    else if op_code =? kMongoOpCompressed then Unexpected CompressedMessage
    else if negb (op_code =? kMongoOpMsg) then Unexpected (UnsupportedOpCode op_code)
    else
      flags <-- readInt32LE data 16 ;;
      _ <-- (if checksum_present flags then verify_checksum data message_length else Value tt) ;;
      let parseable_end := if checksum_present flags then message_length - 4 else message_length in
      found <-- decode_sections (Z.to_nat message_length) data parseable_end 20 None ;;
      match found with
      | None => Unexpected BodyMissing
      | Some body => Value (mkMessage (mkHeader message_length request_id response_to op_code) body flags)
      end.

(** [extractMessage(data, len, consumed)]: [consumed] is assigned before the message is decoded. *)
Definition extractMessage (data : bytes) (len consumed : Z) : Z * outcome MongoError MongoMessage :=
  if len <? 4 then (consumed, Unexpected HeaderIncomplete)
  else
    match readInt32LE data 0 with
    | Value message_length =>
        if message_length <? 16 then (consumed, Unexpected MessageLength)
        else if len <? message_length then (consumed, Unexpected MessageIncomplete)
        else (message_length, decodeMessage data message_length)
    | Unexpected e => (consumed, Unexpected e)
    | OutOfBounds => (consumed, OutOfBounds)
    end.

Definition message_clone (m : MongoMessage) : option MongoMessage :=
  copy ← document_clone (body m); Some (mkMessage (header m) copy (flags m)).

Definition makeCommand (db command_name : bytes) (command_value : MongoValue) (arguments : MongoDocument) :
  MongoDocument :=
  let command := document_append [] command_name command_value in
  let command := fold_left (fun command f => document_append command f.1 f.2) arguments command in
  document_set command (bs "$db") (value_string db).

(** ** The builder of pipelines *)

Record MongoCommandBuilder : Type := mkBuilder { m_commands : list MongoDocument }.

Definition builder_append (b : MongoCommandBuilder) (command : MongoDocument) : MongoCommandBuilder :=
  mkBuilder (m_commands b ++ [command]).

Definition builder_append_command (b : MongoCommandBuilder) (command_name : bytes) (command_value : MongoValue)
    (arguments : MongoDocument) : MongoCommandBuilder :=
  let command := document_append [] command_name command_value in
  builder_append b (fold_left (fun command f => document_append command f.1 f.2) arguments command).

Definition appendPing (b : MongoCommandBuilder) : MongoCommandBuilder :=
  builder_append_command b (bs "ping") (value_int32 1) [].

Definition builder_clear (b : MongoCommandBuilder) : MongoCommandBuilder := mkBuilder [].

Definition max_request_id : Z := 2 ^ 31 - 1.

Definition pipeline_request_id (first_request_id i : Z) : Z :=
  let id := first_request_id + i in
  if max_request_id <? id then 1 + ((id - 1) mod max_request_id) else id.

Fixpoint append_commands (database : bytes) (first_request_id i : Z) (commands : list MongoDocument) : writer :=
  match commands with
  | [] => emit []
  | command :: commands =>
      appendOpMsgWithDatabase (pipeline_request_id first_request_id i) command database 0 >>>
      append_commands database first_request_id (i + 1) commands
  end.

Definition encodePipeline (database : bytes) (first_request_id : Z) (commands : list MongoDocument) :
  BsonError + bytes :=
  match commands with
  | [] => inr []
  | _ =>
      let first_request_id := if first_request_id <=? 0 then 1 else first_request_id in
      match append_commands database first_request_id 0 commands [] with
      | (encoded, None) => inr encoded
      | (_, Some e) => inl e
      end
  end.

Definition builder_encodePipeline (b : MongoCommandBuilder) (database : bytes) (first_request_id : Z) :
  BsonError + bytes := encodePipeline database first_request_id (m_commands b).

(** ** What the encoders write *)

Definition op_msg_bytes (request_id flags : Z) (body : bytes) : bytes :=
  put_le32 (wrap32 (blen body + 21)) ++ put_le32 (wrap32 request_id) ++ put_le32 (wrap32 0) ++
  put_le32 (wrap32 kMongoOpMsg) ++ put_le32 (wrap32 flags) ++ [nul] ++ body.

Definition message_bytes (request_id flags : Z) (body : MongoDocument) : option bytes :=
  op_msg_bytes request_id flags <$> document_bytes body.

(** Overwriting one of the four words of a header. *)
Lemma write_word out a b c (v : Z) n :
  n = (length out + length a)%nat -> length b = 4%nat ->
  writeInt32LEAt (out ++ a ++ b ++ c) n v = out ++ a ++ put_le32 (wrap32 v) ++ c.
Proof.
  intros -> Hb. unfold writeInt32LEAt. rewrite !(app_assoc out a). apply write_at_app; [|by rewrite Hb].
  by rewrite length_app.
Qed.

Lemma header_written out w rid :
  (let base := length out in
   let o := out ++ replicate 16 nul ++ w in
   let out' := writeInt32LEAt o base (sint32 (blen o - Z.of_nat base)) in
   let out' := writeInt32LEAt out' (base + 4) rid in
   let out' := writeInt32LEAt out' (base + 8) 0 in
   writeInt32LEAt out' (base + 12) kMongoOpMsg) =
  out ++ put_le32 (wrap32 (blen w + 16)) ++ put_le32 (wrap32 rid) ++ put_le32 (wrap32 0) ++
  put_le32 (wrap32 kMongoOpMsg) ++ w.
Proof.
  cbv zeta. change (replicate 16 nul) with (length_slot ++ length_slot ++ length_slot ++ length_slot).
  rewrite <- !app_assoc.
  assert (H0 : forall c v, writeInt32LEAt (out ++ length_slot ++ c) (length out) v = out ++ put_le32 (wrap32 v) ++ c).
  { intros c v. apply (write_word out [] length_slot); simpl; lia. }
  rewrite H0.
  rewrite (write_word out (put_le32 _) length_slot) by (cbn [length put_le32]; lia || done).
  rewrite (app_assoc (put_le32 _) (put_le32 (wrap32 rid))).
  rewrite (write_word out (put_le32 _ ++ put_le32 _) length_slot) by (cbn [length put_le32 app]; lia || done).
  rewrite (app_assoc (put_le32 _ ++ put_le32 _) (put_le32 _)).
  rewrite (write_word out ((put_le32 _ ++ put_le32 _) ++ put_le32 _) length_slot)
    by (cbn [length put_le32 app]; lia || done).
  rewrite wrap32_sint32, <- !app_assoc. do 4 f_equal.
  rewrite !blen_app. change (blen length_slot) with 4. unfold blen. lia.
Qed.

Lemma op_msg_spec append_body rid fl r :
  writes_whole append_body r -> writes_whole (op_msg append_body rid fl) (op_msg_bytes rid fl <$> r).
Proof.
  intros Hb out. unfold op_msg. cbv zeta.
  unfold appendInt32LE. rewrite !(then_write_some _ _ _ _ (writes_emit _)).
  unfold then_write, or_rollback. rewrite Hb. destruct r as [b|]; cbn [fmap option_fmap option_map].
  - rewrite <- !app_assoc. f_equal.
    etransitivity; [exact (header_written out (put_le32 (wrap32 fl) ++ [nul] ++ b) rid)|].
    unfold op_msg_bytes. rewrite !blen_app, blen_put_le32. change (blen [nul]) with 1.
    do 4 f_equal. lia.
  - by rewrite <- !app_assoc, take_app_length.
Qed.

Lemma appendDocumentWithDatabase_whole d database :
  document_ok d = true ->
  writes_whole (appendDocumentWithDatabase d database) (document_bytes (with_database d database)).
Proof.
  intros Hok out. rewrite (with_database_eq d database out Hok).
  apply (append_exact _ (with_database_ok d database Hok)).
Qed.

(** ** What the decoder reads *)

Lemma readInt32LE_holds data pos u :
  holds data pos (put_le32 u) -> 0 <= u < 2 ^ 32 -> readInt32LE data pos = Value (sint32 u).
Proof.
  intros H Hu. unfold readInt32LE, put_le32 in *.
  apply (holds_app _ _ [_]) in H as [H0 H]. apply (holds_app _ _ [_]) in H as [H1 H].
  apply (holds_app _ _ [_]) in H as [H2 H3]. rewrite !blen_cons, !(@blen_nil byte), !Z.add_0_r in *.
  rewrite (holds_rd _ _ _ H0). cbn [obind].
  replace (pos + 2) with (pos + 1 + 1) by lia. replace (pos + 3) with (pos + 1 + 1 + 1) by lia.
  rewrite (holds_rd _ _ _ H1), (holds_rd _ _ _ H2), (holds_rd _ _ _ H3). cbn [obind].
  by rewrite get_put_le32.
Qed.

Lemma op_msg_bytes_length rid fl b : blen (op_msg_bytes rid fl b) = blen b + 21.
Proof. unfold op_msg_bytes. rewrite !blen_app, !blen_put_le32. change (blen [nul]) with 1. lia. Qed.

Lemma sections_done turns data stop found : decode_sections turns data stop stop found = Value found.
Proof. destruct turns; cbn [decode_sections]; by rewrite (proj2 (Z.leb_le stop stop)) by lia. Qed.

(** The words of an encoded message. *)
Lemma op_msg_holds rid fl b suf :
  let data := op_msg_bytes rid fl b ++ suf in
  holds data 0 (put_le32 (wrap32 (blen b + 21))) /\ holds data 4 (put_le32 (wrap32 rid)) /\
  holds data 8 (put_le32 (wrap32 0)) /\ holds data 12 (put_le32 (wrap32 kMongoOpMsg)) /\
  holds data 16 (put_le32 (wrap32 fl)) /\ holds data 20 [nul] /\ holds data 21 b.
Proof.
  intros data. pose proof (holds_0 (op_msg_bytes rid fl b) suf) as H. unfold op_msg_bytes in H at 2.
  repeat match type of H with holds _ _ (_ ++ _) => apply holds_app in H as [? H] end.
  rewrite !blen_put_le32 in *. by split_and!.
Qed.

Lemma decode_op_msg rid fl d b suf len :
  document_ok d = true -> document_bytes d = Some b -> blen b + 21 < 2 ^ 31 -> blen b + 21 <= len ->
  int32_ok rid = true -> int32_ok fl = true -> checksum_present fl = false ->
  decodeMessage (op_msg_bytes rid fl b ++ suf) len =
  Value (mkMessage (mkHeader (blen b + 21) rid 0 kMongoOpMsg) (lower_document d) fl).
Proof.
  intros Hok Hb H31 Hlen Hrid Hfl Hck. pose proof (blen_nonneg b) as Hnn.
  destruct (length_wrap (blen b + 21) ltac:(lia)) as [Hw Hs].
  destruct (op_msg_holds rid fl b suf) as (H0 & H4 & H8 & H12 & H16 & H20 & H21).
  set (data := op_msg_bytes rid fl b ++ suf) in *. unfold decodeMessage.
  rewrite (proj2 (Z.ltb_ge len 16)) by lia.
  rewrite (readInt32LE_holds _ _ _ H0), (readInt32LE_holds _ _ _ H4), (readInt32LE_holds _ _ _ H8),
    (readInt32LE_holds _ _ _ H12), (readInt32LE_holds _ _ _ H16) by apply wrap32_bound.
  cbn [obind]. rewrite Hw, Hs, !sint32_wrap32 by done.
  rewrite (proj2 (Z.ltb_ge (blen b + 21) 21)), (proj2 (Z.ltb_ge len (blen b + 21))) by lia.
  change (sint32 (wrap32 0)) with 0. cbn [Z.eqb Pos.eqb kMongoOpMsg kMongoOpCompressed negb].
  rewrite Hck. cbn [obind].
  destruct (Z.to_nat (blen b + 21)) as [|turns] eqn:Ht; [lia|]. cbn [decode_sections].
  rewrite (proj2 (Z.leb_gt (blen b + 21) 20)) by lia. rewrite (holds_rd _ _ _ H20). cbn [obind].
  change (b2z nul =? 0) with true. cbv iota zeta. change (20 + 1) with 21. unfold document_section.
  rewrite (nested_document d b _ _ _ Hok Hb ltac:(lia) H21) by lia. cbn [obind fst snd].
  rewrite (Z.add_comm 21), sections_done. done.
Qed.

(** Numbers of 32 bits that are not negative are read back as they are. *)
Lemma extract_op_msg rid fl d b suf consumed :
  document_ok d = true -> document_bytes d = Some b -> blen b + 21 < 2 ^ 31 ->
  int32_ok rid = true -> int32_ok fl = true -> checksum_present fl = false ->
  let data := op_msg_bytes rid fl b ++ suf in
  extractMessage data (blen data) consumed =
  (blen b + 21, Value (mkMessage (mkHeader (blen b + 21) rid 0 kMongoOpMsg) (lower_document d) fl)).
Proof.
  intros Hok Hb H31 Hrid Hfl Hck data. pose proof (blen_nonneg b). pose proof (blen_nonneg suf).
  destruct (length_wrap (blen b + 21) ltac:(lia)) as [Hw Hs].
  destruct (op_msg_holds rid fl b suf) as (Hlen & _). unfold extractMessage.
  assert (blen data = blen b + 21 + blen suf) as -> by (subst data; by rewrite blen_app, op_msg_bytes_length).
  rewrite (proj2 (Z.ltb_ge _ 4)) by lia. subst data.
  rewrite (readInt32LE_holds _ _ _ Hlen) by apply wrap32_bound. rewrite Hw, Hs.
  rewrite (proj2 (Z.ltb_ge _ 16)), (proj2 (Z.ltb_ge _ (blen b + 21))) by lia. f_equal.
  apply decode_op_msg; try done; lia.
Qed.

(** an OP_MSG the encoder appends is extracted again from the front of whatever stream it heads: its
    length consumed, the request id and flags it was given, the command with its database; and while some
    of it is missing, nothing is consumed. *)
Theorem op_msg_extracted rid fl command database msg :
  document_ok command = true -> message_bytes rid fl (with_database command database) = Some msg ->
  blen msg < 2 ^ 31 -> int32_ok rid = true -> int32_ok fl = true -> checksum_present fl = false ->
  (forall out, appendOpMsgWithDatabase rid command database fl out = (out ++ msg, None)) /\
  (forall suf consumed,
     extractMessage (msg ++ suf) (blen (msg ++ suf)) consumed =
     (blen msg, Value (mkMessage (mkHeader (blen msg) rid 0 kMongoOpMsg)
                                 (lower_document (with_database command database)) fl))) /\
  (forall p q consumed, msg = p ++ q -> q <> [] ->
     extractMessage p (blen p) consumed = (consumed, Unexpected (if blen p <? 4 then HeaderIncomplete else MessageIncomplete))).
Proof.
  intros Hok Hm H31 Hrid Hfl Hck. pose proof (with_database_ok _ database Hok) as Hok'.
  unfold message_bytes in Hm. destruct (document_bytes (with_database command database)) as [b|] eqn:Hb; [|done].
  apply (inj Some) in Hm. subst msg. rewrite op_msg_bytes_length in *. pose proof (blen_nonneg b).
  split_and!.
  - intros out. unfold appendOpMsgWithDatabase.
    rewrite (op_msg_spec _ rid fl _ (appendDocumentWithDatabase_whole command database Hok) out). by rewrite Hb.
  - intros suf consumed. by apply extract_op_msg.
  - intros p q consumed Hpq Hq. unfold extractMessage. apply blen_pos in Hq.
    assert (blen p + blen q = blen b + 21) as Hl by (rewrite <- (op_msg_bytes_length rid fl), Hpq; by rewrite blen_app).
    destruct (Z.ltb_spec (blen p) 4); [done|].
    assert (holds p 0 (put_le32 (wrap32 (blen b + 21)))) as Hhd.
    { exists [], (drop 4 p). split; [|done]. unfold op_msg_bytes in Hpq.
      apply (f_equal (take 4)) in Hpq. rewrite (take_app_le p) in Hpq by (unfold blen in *; lia).
      cbn [app]. rewrite <- (take_drop 4 p) at 1. rewrite <- Hpq. reflexivity. }
    rewrite (readInt32LE_holds _ _ _ Hhd) by apply wrap32_bound.
    destruct (length_wrap (blen b + 21) ltac:(lia)) as [Hw Hs]. rewrite Hw, Hs.
    by rewrite (proj2 (Z.ltb_ge _ 16)), (proj2 (Z.ltb_lt (blen p) _)) by lia.
Qed.

(** ** Pipelines *)

Fixpoint pipeline_bytes (database : bytes) (first i : Z) (commands : list MongoDocument) : option bytes :=
  match commands with
  | [] => Some []
  | command :: commands =>
      cat (message_bytes (pipeline_request_id first i) 0 (with_database command database))
          (pipeline_bytes database first (i + 1) commands)
  end.

Lemma append_commands_spec database first i commands :
  Forall (fun c => document_ok c = true) commands ->
  writes (append_commands database first i commands) (pipeline_bytes database first i commands).
Proof.
  intros H. revert i. induction H as [|c commands Hc _ IH]; intros i; [apply writes_emit|].
  cbn [append_commands pipeline_bytes]. apply writes_then; [|apply IH].
  by apply writes_whole_writes, op_msg_spec, appendDocumentWithDatabase_whole.
Qed.

Lemma pipeline_request_id_eq first i :
  1 <= first <= max_request_id -> 0 <= i ->
  pipeline_request_id first i = 1 + (first - 1 + i) mod max_request_id.
Proof.
  intros Hf Hi. unfold pipeline_request_id. destruct (Z.ltb_spec max_request_id (first + i)).
  - do 2 f_equal. lia.
  - rewrite Z.mod_small by lia. lia.
Qed.

Lemma pipeline_request_id_range first i :
  1 <= first <= max_request_id -> 0 <= i -> 1 <= pipeline_request_id first i <= max_request_id.
Proof.
  intros Hf Hi. rewrite pipeline_request_id_eq by done.
  pose proof (Z.mod_pos_bound (first - 1 + i) max_request_id eq_refl). lia.
Qed.

(** Ids repeat only after all of them were used. *)
Lemma pipeline_request_id_inj first i j :
  1 <= first <= max_request_id -> 0 <= i -> i < j < i + max_request_id ->
  pipeline_request_id first i <> pipeline_request_id first j.
Proof.
  intros Hf Hi Hj. rewrite !pipeline_request_id_eq by lia. intros E.
  assert ((first - 1 + i) mod max_request_id = (first - 1 + j) mod max_request_id) as E' by lia.
  pose proof (Z.div_mod (first - 1 + i) max_request_id ltac:(done)).
  pose proof (Z.div_mod (first - 1 + j) max_request_id ltac:(done)). rewrite E' in *.
  set (a := (first - 1 + i) / max_request_id) in *. set (c := (first - 1 + j) / max_request_id) in *.
  unfold max_request_id in *. nia.
Qed.

(** What a server that cuts the stream into [n] messages sees. *)
Fixpoint split_messages (n : nat) (data : bytes) : outcome MongoError (list MongoMessage) :=
  match n with
  | O => Value []
  | S n =>
      let '(consumed, message) := extractMessage data (blen data) 0 in
      m <-- message ;; ms <-- split_messages n (drop (Z.to_nat consumed) data) ;; Value (m :: ms)
  end.

(** The request a command becomes. *)
Definition is_request (database : bytes) (id : Z) (command : MongoDocument) (m : MongoMessage) : Prop :=
  request_id (header m) = id /\ response_to (header m) = 0 /\ op_code (header m) = kMongoOpMsg /\
  flags m = 0 /\ body m = lower_document (with_database command database).

Lemma split_pipeline database first commands i out suf :
  Forall (fun c => document_ok c = true) commands ->
  Forall (fun c => forall b, document_bytes (with_database c database) = Some b -> blen b + 21 < 2 ^ 31) commands ->
  1 <= first <= max_request_id -> 0 <= i -> pipeline_bytes database first i commands = Some out ->
  exists ms, split_messages (length commands) (out ++ suf) = Value ms /\
    Forall2 (fun c m => is_request database (request_id (header m)) c m) commands ms /\
    map (fun m => request_id (header m)) ms = map (pipeline_request_id first) (seqZ i (blen commands)).
Proof.
  intros Hok Hsz Hf. revert i out. induction Hok as [|c commands Hc _ IH]; intros i out Hi Hout.
  - injection Hout as <-. exists []. repeat split; constructor.
  - apply Forall_cons in Hsz as [Hc' Hsz]. apply cat_some in Hout as (msg & rest & Hm & Hr & ->).
    unfold message_bytes in Hm. destruct (document_bytes (with_database c database)) as [b|] eqn:Hb; [|done].
    apply (inj Some) in Hm. subst msg. cbn [length split_messages]. rewrite <- app_assoc.
    pose proof (pipeline_request_id_range first i Hf Hi) as Hid.
    rewrite (extract_op_msg _ 0 _ b (rest ++ suf) 0 (with_database_ok _ _ Hc) Hb (Hc' b eq_refl))
      by (done || (unfold int32_ok; apply andb_true_iff; split; [apply Z.leb_le|apply Z.ltb_lt];
                   unfold max_request_id in *; lia)).
    cbn [obind]. rewrite <- (op_msg_bytes_length (pipeline_request_id first i) 0 b), drop_blen.
    destruct (IH Hsz (i + 1) rest ltac:(lia) Hr) as (ms & -> & Hms & Hids). cbn [obind].
    eexists. split; [done|]. split.
    + constructor; [|done]. by split_and!.
    + cbn [map header request_id]. rewrite Hids, blen_cons.
      pose proof (blen_nonneg commands). rewrite (seqZ_cons i) by lia. cbn [map]. f_equal. f_equal.
      f_equal; lia.
Qed.

(** C19: an encoded pipeline is cut back into its commands, in order, each with its database and under an id of
    its own: positive, consecutive from the first one given and starting again at one after the last. *)
Theorem pipeline_framed database first commands out suf :
  Forall (fun c => document_ok c = true) commands ->
  Forall (fun c => forall b, document_bytes (with_database c database) = Some b -> blen b + 21 < 2 ^ 31) commands ->
  int32_ok first = true -> blen commands <= max_request_id ->
  encodePipeline database first commands = inr out ->
  exists ms, split_messages (length commands) (out ++ suf) = Value ms /\
    Forall2 (fun c m => is_request database (request_id (header m)) c m) commands ms /\
    map (fun m => request_id (header m)) ms =
      map (pipeline_request_id (Z.max 1 first)) (seqZ 0 (blen commands)) /\
    Forall (fun m => 1 <= request_id (header m) <= max_request_id) ms /\
    NoDup (map (fun m => request_id (header m)) ms).
Proof.
  intros Hok Hsz Hfirst Hn He. apply int32_ok_range in Hfirst.
  assert (1 <= Z.max 1 first <= max_request_id) as Hf by (unfold max_request_id; lia).
  assert (pipeline_bytes database (Z.max 1 first) 0 commands = Some out) as Hp.
  { unfold encodePipeline in He. destruct commands as [|c commands]; [by injection He as <-|].
    replace (if first <=? 0 then 1 else first) with (Z.max 1 first) in He by (destruct (Z.leb_spec first 0); lia).
    pose proof (append_commands_spec database (Z.max 1 first) 0 (c :: commands) Hok []) as Hw.
    destruct (pipeline_bytes _ _ _ _) as [x|]; [rewrite Hw in He; by injection He as ->|].
    destruct Hw as [junk Hw]. by rewrite Hw in He. }
  destruct (split_pipeline database _ commands 0 out suf Hok Hsz Hf ltac:(lia) Hp) as (ms & Hs & Hr & Hids).
  exists ms. split_and!; try done.
  - apply Forall_map with (P := fun id => 1 <= id <= max_request_id). rewrite Hids.
    apply Forall_fmap, Forall_forall. intros i Hi%elem_of_seqZ.
    apply pipeline_request_id_range; [done|lia].
  - rewrite Hids. apply (NoDup_fmap_2_strong (pipeline_request_id (Z.max 1 first))); [|apply NoDup_seqZ].
    intros i j Hi%elem_of_seqZ Hj%elem_of_seqZ E. destruct (Z.lt_trichotomy i j) as [Hlt|[->|Hlt]]; [|done|].
    + exfalso. apply (pipeline_request_id_inj (Z.max 1 first) i j); lia || done.
    + exfalso. apply (pipeline_request_id_inj (Z.max 1 first) j i); lia || done.
Qed.

(** ** Every message *)

(** [m] returns a value with [P] or an error of the code. *)
Definition message_returns {A} (P : A -> Prop) (m : outcome MongoError A) : Prop :=
  match m with
  | Value a => P a
  | Unexpected e => e <> SectionBound /\ e <> BodyError NestingBound
  | OutOfBounds => False
  end.

Lemma message_bind {A B} (P : A -> Prop) (Q : B -> Prop) m k :
  message_returns P m -> (forall a, P a -> message_returns Q (k a)) -> message_returns Q (obind m k).
Proof. destruct m; simpl; auto. Qed.

Lemma message_if {A} (Q : A -> Prop) (b : bool) m k :
  (b = true -> message_returns Q m) -> (b = false -> message_returns Q k) -> message_returns Q (if b then m else k).
Proof. destruct b; auto. Qed.

Lemma message_rd data pos : 0 <= pos < blen data -> message_returns (fun _ => True) (rd data pos).
Proof. intros H. by destruct (@rd_in MongoError data pos H) as [b ->]. Qed.

Ltac msg_rd := apply (message_bind (fun _ => True)); [apply message_rd; lia|intros ? _].
Ltac msg_if := apply message_if; [done|].

Lemma message_int32 data pos :
  0 <= pos -> pos + 4 <= blen data -> message_returns (fun n => - 2 ^ 31 <= n < 2 ^ 31) (readInt32LE data pos).
Proof.
  intros Hp Hl. unfold readInt32LE. do 4 msg_rd. simpl. apply int32_ok_range, sint32_ok.
Qed.

Ltac msg_int32 := eapply message_bind; [apply message_int32; lia|].

Lemma message_document data len :
  0 <= len <= blen data ->
  message_returns (fun r => document_ok r.1 = true /\ 5 <= r.2 <= len) (document_section data len).
Proof.
  intros Hl. pose proof (decode_returns data len Hl) as H. unfold document_section.
  destruct (decodeDocument data len) as [r|e|]; [|split; [done|by intros [= ->]]|done].
  destruct H as ((Hok & _) & Hr & _). done.
Qed.

Lemma message_sections turns data stop pos found :
  0 <= pos <= stop -> stop <= blen data -> stop - pos <= Z.of_nat turns ->
  (forall d, found = Some d -> document_ok d = true) ->
  message_returns (fun r => forall d, r = Some d -> document_ok d = true) (decode_sections turns data stop pos found).
Proof.
  revert pos found. induction turns as [|turns IH]; intros pos found Hp Hs Ht Hf; cbn [decode_sections];
    (apply message_if; [done|intros Hpos%Z.leb_gt]); [lia|].
  msg_rd. apply message_if; [intros _|intros _; apply message_if; [intros _|done]].
  - eapply message_bind; [apply message_document|].
    + unfold blen in *. rewrite length_drop. lia.
    + intros r [Hok Hr]. apply IH; try lia. by intros d [= <-].
  - msg_if. intros H4%Z.ltb_ge. msg_int32. intros n Hn. msg_if. intros Hn4%Z.leb_gt.
    msg_if. intros Hin%Z.ltb_ge. apply IH; try lia. done.
Qed.

Lemma message_checksum data size :
  size <= blen data -> message_returns (fun _ => 25 <= size) (verify_checksum data size).
Proof.
  intros Hs. unfold verify_checksum. msg_if. intros H25%Z.ltb_ge.
  apply (message_bind (fun _ => True)).
  - unfold readUint32LE. by do 4 msg_rd.
  - intros e _. rewrite slice_in by lia. cbn [obind]. rewrite crc32c_is_register. by apply message_if.
Qed.

(** [decodeMessage] reads inside its buffer and ends on every input, with an error or with a message that
    has a header of the right kind, lies within what was given and has a well-formed body. *)
Theorem decodeMessage_total data len :
  0 <= len <= blen data ->
  message_returns (fun m => 21 <= message_length (header m) <= len /\ op_code (header m) = kMongoOpMsg /\
                            document_ok (body m) = true) (decodeMessage data len).
Proof.
  intros Hl. unfold decodeMessage. msg_if. intros H16%Z.ltb_ge.
  msg_int32. intros size Hsize. msg_int32. intros rid _. msg_int32. intros rto _. msg_int32. intros op _.
  msg_if. intros H21%Z.ltb_ge. msg_if. intros Hlen%Z.ltb_ge. msg_if. intros _.
  msg_if. intros Hop%negb_false_iff%Z.eqb_eq. msg_int32. intros fl _.
  apply (message_bind (fun _ => 20 <= (if checksum_present fl then size - 4 else size))).
  - destruct (checksum_present fl); [|simpl; lia].
    pose proof (message_checksum data size ltac:(lia)) as H. destruct (verify_checksum data size); simpl in *; try done. lia.
  - intros _ Hstop. eapply message_bind; [apply message_sections with (pos := 20)|].
    + destruct (checksum_present fl); lia.
    + destruct (checksum_present fl); lia.
    + destruct (checksum_present fl); lia.
    + done.
    + intros [d|] Hd; [|done]. split_and!; [done|done|done|by apply Hd].
Qed.

(** ** Damage *)

(** Two buffers that agree up to [n]. *)
Lemma rd_agree p q q' i : i < blen p -> @rd MongoError (p ++ q) i = rd (p ++ q') i.
Proof.
  intros Hi. unfold rd. destruct (Z.ltb_spec i 0); [done|].
  rewrite !nth_error_app1 by (unfold blen in Hi; lia). done.
Qed.

Lemma rd_agree_after p b b' s i : blen p < i -> @rd MongoError (p ++ b :: s) i = rd (p ++ b' :: s) i.
Proof.
  intros Hi. pose proof (blen_nonneg p). unfold rd. destruct (Z.ltb_spec i 0); [done|].
  rewrite !nth_error_app2 by (unfold blen in Hi; lia).
  destruct (Z.to_nat i - length p)%nat eqn:E; [unfold blen in Hi; lia|done].
Qed.

Lemma readInt32LE_agree p q q' i : i + 4 <= blen p -> readInt32LE (p ++ q) i = readInt32LE (p ++ q') i.
Proof.
  intros Hi. unfold readInt32LE.
  by rewrite (rd_agree p q q' i), (rd_agree p q q' (i + 1)), (rd_agree p q q' (i + 2)), (rd_agree p q q' (i + 3)) by lia.
Qed.

Lemma slice_prefix p b s n :
  0 <= n <= blen (p ++ b :: s) ->
  @slice MongoError (p ++ b :: s) 0 n =
  Value (if n <=? blen p then take (Z.to_nat n) p else p ++ b :: take (Z.to_nat (n - blen p - 1)) s).
Proof.
  intros Hn. rewrite slice_in by lia. rewrite drop_0. f_equal. destruct (Z.leb_spec n (blen p)).
  - rewrite take_app_le by (unfold blen in *; lia). done.
  - rewrite take_app_ge by (unfold blen in *; lia). f_equal.
    replace (Z.to_nat n - length p)%nat with (S (Z.to_nat (n - blen p - 1))) by (unfold blen in *; lia). done.
Qed.

Lemma readUint32LE_inv data i u :
  readUint32LE data i = Value u ->
  exists b0 b1 b2 b3, rd data i = @Value MongoError _ b0 /\ rd data (i + 1) = @Value MongoError _ b1 /\
    rd data (i + 2) = @Value MongoError _ b2 /\ rd data (i + 3) = @Value MongoError _ b3 /\ u = get_le32 b0 b1 b2 b3.
Proof.
  unfold readUint32LE. intros H.
  destruct (rd data i) as [b0| |]; [|done..]. destruct (rd data (i + 1)) as [b1| |]; [|done..].
  destruct (rd data (i + 2)) as [b2| |]; [|done..]. destruct (rd data (i + 3)) as [b3| |]; [|done..].
  injection H as <-. by exists b0, b1, b2, b3.
Qed.

Lemma readUint32LE_in data i : 0 <= i -> i + 4 <= blen data -> exists u, readUint32LE data i = Value u.
Proof.
  intros Hi Hl. unfold readUint32LE.
  destruct (@rd_in MongoError data i ltac:(lia)) as [? ->], (@rd_in MongoError data (i + 1) ltac:(lia)) as [? ->],
    (@rd_in MongoError data (i + 2) ltac:(lia)) as [? ->], (@rd_in MongoError data (i + 3) ltac:(lia)) as [? ->].
  cbn [obind]. eauto.
Qed.

Lemma get_le32_inj a0 a1 a2 a3 b0 b1 b2 b3 :
  get_le32 a0 a1 a2 a3 = get_le32 b0 b1 b2 b3 -> a0 = b0 /\ a1 = b1 /\ a2 = b2 /\ a3 = b3.
Proof.
  rewrite !get_le32_eq. intros E.
  pose proof (b2z_range a0). pose proof (b2z_range a1). pose proof (b2z_range a2). pose proof (b2z_range a3).
  pose proof (b2z_range b0). pose proof (b2z_range b1). pose proof (b2z_range b2). pose proof (b2z_range b3).
  split_and!; apply b2z_inj; lia.
Qed.

(** One of the four bytes of a word changed. *)
Lemma word_damaged p b b' s i u :
  i <= blen p < i + 4 -> readUint32LE (p ++ b :: s) i = Value u -> readUint32LE (p ++ b' :: s) i = Value u -> b = b'.
Proof.
  intros Hi (a0 & a1 & a2 & a3 & H0 & H1 & H2 & H3 & ->)%readUint32LE_inv
    (c0 & c1 & c2 & c3 & K0 & K1 & K2 & K3 & (<- & <- & <- & <-)%get_le32_inj)%readUint32LE_inv.
  pose proof (@rd_app MongoError p b s) as Hb. pose proof (@rd_app MongoError p b' s) as Hb'.
  assert (i = blen p \/ i + 1 = blen p \/ i + 2 = blen p \/ i + 3 = blen p) as [E|[E|[E|E]]] by lia;
    rewrite E in *; congruence.
Qed.

Lemma checksum_damaged p b b' s size :
  b <> b' -> size <= blen (p ++ b :: s) -> blen p < size ->
  verify_checksum (p ++ b :: s) size = Value tt -> verify_checksum (p ++ b' :: s) size = Unexpected ChecksumMismatch.
Proof.
  intros Hne Hs Hp H. pose proof (blen_nonneg p). unfold verify_checksum in *.
  destruct (Z.ltb_spec size 25); [done|].
  assert (blen (p ++ b' :: s) = blen (p ++ b :: s)) as Hl by (by rewrite !blen_app, !blen_cons).
  rewrite slice_prefix in H |- * by lia.
  destruct (readUint32LE (p ++ b :: s) (size - 4)) as [u|e|] eqn:Hu; [|done..]. cbn [obind] in H.
  rewrite crc32c_is_register in H. destruct (Z.eqb_spec (crc32c_register (if size - 4 <=? blen p then take (Z.to_nat (size - 4)) p
      else p ++ b :: take (Z.to_nat (size - 4 - blen p - 1)) s)) u) as [Hc|]; [|done].
  assert (exists u', readUint32LE (p ++ b' :: s) (size - 4) = Value u') as [u' Hu'].
  { apply readUint32LE_in; lia. }
  rewrite Hu'. cbn [obind]. rewrite crc32c_is_register. destruct (Z.leb_spec (size - 4) (blen p)).
  - destruct (Z.eqb_spec (crc32c_register (take (Z.to_nat (size - 4)) p)) u') as [Hc'|]; [|done].
    exfalso. apply Hne. rewrite <- Hc' in Hu'. rewrite <- Hc in Hu. apply (word_damaged p b b' s (size - 4) _ ltac:(lia) Hu Hu').
  - assert (u' = u) as ->.
    { unfold readUint32LE in Hu, Hu'. rewrite !(rd_agree_after p b' b s) in Hu' by lia. congruence. }
    destruct (Z.eqb_spec (crc32c_register (p ++ b' :: take (Z.to_nat (size - 4 - blen p - 1)) s)) u) as [Hc'|]; [|done].
    exfalso. rewrite <- Hc in Hc'. symmetry in Hc'. by apply crc32c_byte_changes in Hc'.
Qed.

(** C20: a message that carries a checksum and was accepted is rejected, for its checksum, once any one byte
    behind its flags is changed, in the body as in the checksum itself. *)
Theorem damage_detected p b b' s len m :
  decodeMessage (p ++ b :: s) len = Value m -> checksum_present (flags m) = true ->
  0 <= len <= blen (p ++ b :: s) -> 20 <= blen p < message_length (header m) -> b <> b' ->
  decodeMessage (p ++ b' :: s) len = Unexpected ChecksumMismatch.
Proof.
  intros H Hck Hl Hp Hne. unfold decodeMessage in *. destruct (Z.ltb_spec len 16); [done|].
  rewrite !(readInt32LE_agree p (b' :: s) (b :: s)) by lia.
  destruct (readInt32LE (p ++ b :: s) 0) as [size|e|] eqn:E0; [|done..].
  destruct (readInt32LE (p ++ b :: s) 4) as [rid|e|]; [|done..].
  destruct (readInt32LE (p ++ b :: s) 8) as [rto|e|]; [|done..].
  destruct (readInt32LE (p ++ b :: s) 12) as [op|e|]; [|done..]. cbn [obind] in *.
  destruct (Z.ltb_spec size 21); [done|]. destruct (Z.ltb_spec len size); [done|].
  destruct (op =? kMongoOpCompressed); [done|]. destruct (negb (op =? kMongoOpMsg)); [done|].
  destruct (readInt32LE (p ++ b :: s) 16) as [fl|e|]; [|done..]. cbn [obind] in *.
  destruct (checksum_present fl) eqn:Hfl.
  - destruct (verify_checksum (p ++ b :: s) size) as [[]|e|] eqn:Hv; [|done..]. cbn [obind] in H.
    destruct (decode_sections _ _ _ _ _) as [[d|]|e|]; [|done..]. injection H as <-. cbn [header message_length] in Hp.
    by rewrite (checksum_damaged p b b' s size Hne ltac:(lia) ltac:(lia) Hv).
  - cbn [obind] in H. destruct (decode_sections _ _ _ _ _) as [[d|]|e|]; [|done..]. injection H as <-.
    cbn [flags] in Hck. congruence.
Qed.

(** What is decoded does not depend on what lies behind the message. *)
Lemma agrees_word data data' pos :
  data `prefix_of` data' -> agrees (readInt32LE data pos) (readInt32LE data' pos).
Proof. intros H. unfold readInt32LE. auto 8 with agrees. Qed.

Lemma agrees_section data data' len :
  data `prefix_of` data' -> agrees (document_section data len) (document_section data' len).
Proof.
  intros H. unfold document_section. destruct (agrees_decode data data' len H) as [-> | ->]; [by left|].
  apply agrees_refl.
Qed.

Lemma agrees_sections turns data data' stop pos found :
  data `prefix_of` data' ->
  agrees (decode_sections turns data stop pos found) (decode_sections turns data' stop pos found).
Proof.
  intros H. revert pos found. induction turns as [|turns IH]; intros pos found; cbn [decode_sections];
    (apply agrees_if; [apply agrees_refl|]); [apply agrees_refl|].
  apply agrees_bind; [by apply agrees_rd|]. intros kind. apply agrees_if.
  - apply agrees_bind; [by apply agrees_section, prefix_drop|]. intros d. apply IH.
  - apply agrees_if; [|apply agrees_refl]. apply agrees_if; [apply agrees_refl|].
    apply agrees_bind; [by apply agrees_word|]. intros n. apply agrees_if; [apply agrees_refl|].
    apply agrees_if; [apply agrees_refl|]. apply IH.
Qed.

Lemma agrees_checksum data data' size :
  data `prefix_of` data' -> agrees (verify_checksum data size) (verify_checksum data' size).
Proof. intros H. unfold verify_checksum, readUint32LE. auto 12 with agrees. Qed.

Lemma agrees_message data data' len :
  data `prefix_of` data' -> agrees (decodeMessage data len) (decodeMessage data' len).
Proof.
  intros H. unfold decodeMessage. apply agrees_if; [apply agrees_refl|].
  do 4 (apply agrees_bind; [by apply agrees_word|]; intros ?).
  do 4 (apply agrees_if; [apply agrees_refl|]).
  apply agrees_bind; [by apply agrees_word|]. intros fl.
  apply agrees_bind; [destruct (checksum_present fl); [by apply agrees_checksum|apply agrees_refl]|]. intros _.
  apply agrees_bind; [by apply agrees_sections|]. intros found. apply agrees_refl.
Qed.

(** A message decoded from its octets is decoded from any buffer they head. *)
Lemma decode_in_buffer w data m :
  w `prefix_of` data -> decodeMessage w (blen w) = Value m -> decodeMessage data (blen w) = Value m.
Proof. intros Hp Hm. destruct (agrees_message w data (blen w) Hp); congruence. Qed.

(** And the other way round: what lies behind it cannot make it one. *)
Lemma decode_of_buffer w data m :
  w `prefix_of` data -> decodeMessage data (blen w) = Value m -> decodeMessage w (blen w) = Value m.
Proof.
  intros Hp Hm. pose proof (decodeMessage_total w (blen w) ltac:(pose proof (blen_nonneg w); lia)) as Ht.
  destruct (agrees_message w data (blen w) Hp) as [E|E]; [by rewrite E in Ht|congruence].
Qed.

(** ** Commands *)

(** A command names its database once, whatever its arguments hold, so that no encoder adds another one;
    [message_clone] is the message. *)
Lemma fold_append (arguments command : MongoDocument) :
  fold_left (fun command f => document_append command f.1 f.2) arguments command = command ++ arguments.
Proof.
  revert command. induction arguments as [|[k v] arguments IH]; intros command; simpl; [by rewrite app_nil_r|].
  rewrite IH. unfold document_append. by rewrite <- app_assoc.
Qed.

Lemma has_db_keys d : has_db d = existsb (fun k => bool_decide (k = bs "$db")) (map fst d).
Proof. unfold has_db. induction d as [|f d IH]; simpl; [done|]. by rewrite IH. Qed.

Theorem makeCommand_database db name value arguments :
  let command := makeCommand db name value arguments in
  document_find command (bs "$db") = Some (value_string db) /\
  (forall other, with_database command other = command) /\
  (name <> bs "$db" -> document_find command name = Some value).
Proof.
  cbv zeta. unfold makeCommand. rewrite fold_append. cbn [app document_append].
  destruct (document_set_spec ((name, value) :: arguments) (bs "$db") (value_string db)) as [Hf Hk].
  split_and!.
  - rewrite Hf. by rewrite decide_True.
  - intros other. unfold with_database. rewrite has_db_keys, Hk.
    enough (existsb (fun k => bool_decide (k = bs "$db"))
      (if document_has ((name, value) :: arguments) (bs "$db") then map fst ((name, value) :: arguments)
       else map fst ((name, value) :: arguments) ++ [bs "$db"]) = true) as -> by done.
    unfold document_has. pose proof (find_key ((name, value) :: arguments) (bs "$db")) as H.
    destruct (document_find _ _).
    + apply existsb_exists. exists (bs "$db"). split; [by apply H|by apply bool_decide_eq_true].
    + rewrite existsb_app. apply orb_true_iff. right. by vm_compute.
  - intros Hne. rewrite Hf, decide_False by done. cbn. by rewrite decide_True.
Qed.

(** ** Examples *)

Definition sample_commands : list MongoDocument :=
  [[(bs "ping", value_int32 1)];
   [(bs "find", value_string (bs "users")); (bs "$db", value_string (bs "shop")); (bs "filter", value_document sample_document)]].

Lemma op_msg_extracted_witness :
  exists msg,
    message_bytes 7 0 (with_database [(bs "ping", value_int32 1)] (bs "admin")) = Some msg /\
    extractMessage (msg ++ bs "tail") (blen (msg ++ bs "tail")) 0 =
    (blen msg, Value (mkMessage (mkHeader (blen msg) 7 0 kMongoOpMsg)
                 (lower_document (with_database [(bs "ping", value_int32 1)] (bs "admin"))) 0)).
Proof.
  eexists. split; [vm_compute; reflexivity|].
  refine (proj1 (proj2 (op_msg_extracted 7 0 [(bs "ping", value_int32 1)] (bs "admin") _ _ _ _ _ _ _)) (bs "tail") 0);
    vm_compute; reflexivity.
Defined.

Lemma pipeline_framed_witness :
  exists out ms, encodePipeline (bs "admin") (2 ^ 31 - 1) sample_commands = inr out /\
    split_messages 2 (out ++ bs "x") = Value ms /\ map (fun m => request_id (header m)) ms = [2 ^ 31 - 1; 1].
Proof.
  eexists.
  destruct (pipeline_framed (bs "admin") (2 ^ 31 - 1) sample_commands
    ltac:(let r := eval vm_compute in (encodePipeline (bs "admin") (2 ^ 31 - 1) sample_commands) in
          match r with inr ?o => exact o end) (bs "x")) as (ms & Hs & _ & Hids & _).
  - repeat constructor.
  - repeat constructor; intros b Hb; vm_compute in Hb; injection Hb as <-; vm_compute; reflexivity.
  - vm_compute. reflexivity.
  - vm_compute. discriminate.
  - vm_compute. reflexivity.
  - exists ms. split; [vm_compute; reflexivity|]. split; [exact Hs|]. rewrite Hids. vm_compute. reflexivity.
Defined.

Lemma decodeMessage_total_witness :
  message_returns (fun m => 21 <= message_length (header m) <= 30 /\ op_code (header m) = kMongoOpMsg /\
                            document_ok (body m) = true) (decodeMessage (replicate 30 (z2b 40)) 30).
Proof. apply decodeMessage_total. split; [lia|]. vm_compute. discriminate. Defined.

(** A message with a checksum, as a server sends it. *)
Definition with_checksum (request_id : Z) (body : bytes) : bytes :=
  let covered := put_le32 (blen body + 25) ++ put_le32 request_id ++ put_le32 0 ++ put_le32 kMongoOpMsg ++
                 put_le32 1 ++ [nul] ++ body in
  covered ++ put_le32 (crc32c_register covered).

Definition pong : bytes := match document_bytes [(bs "ok", value_double one_bits)] with Some b => b | None => [] end.

Lemma damage_detected_witness :
  let data := with_checksum 3 pong in
  decodeMessage (take 30 data ++ z2b 0xFF :: drop 31 data) (blen data) = Unexpected ChecksumMismatch.
Proof.
  cbv zeta.
  refine (damage_detected (take 30 (with_checksum 3 pong)) (nth 30 (with_checksum 3 pong) nul) (z2b 0xFF)
    (drop 31 (with_checksum 3 pong)) (blen (with_checksum 3 pong))
    (mkMessage (mkHeader 42 3 0 kMongoOpMsg) [(bs "ok", value_double one_bits)] 1) _ _ _ _ _);
    try (vm_compute; reflexivity); try (vm_compute; split; discriminate || reflexivity); vm_compute; discriminate.
Defined.

(** The flag that announces a checksum is written as it is given, but no checksum is: what [encodeOpMsg]
    makes of it [decodeMessage] rejects. *)
Example checksum_flag_without_checksum :
  match encodeOpMsg 1 [(bs "ping", value_int32 1)] kChecksumPresentFlag with
  | inr out => decodeMessage out (blen out)
  | inl _ => Unexpected BodyMissing
  end = Unexpected ChecksumMismatch.
Proof. by vm_compute. Qed.

(** Of two body sections the second one wins; OP_MSG has one. *)
Example second_body_wins :
  let data := put_le32 44 ++ put_le32 1 ++ put_le32 0 ++ put_le32 kMongoOpMsg ++ put_le32 0 ++
              [nul] ++ pong ++ [nul] ++ frame [] in
  match decodeMessage data (blen data) with Value m => body m = [] | _ => False end.
Proof. by vm_compute. Qed.

Example extract_errors :
  let r data := (extractMessage data (blen data) 9).1 in
  let e data := match (extractMessage data (blen data) 9).2 with Unexpected e => Some e | _ => None end in
  let m op := put_le32 21 ++ put_le32 1 ++ put_le32 0 ++ put_le32 op ++ put_le32 0 ++ [z2b 2] in
  map (fun d => (r d, e d))
    [bs "abc"; put_le32 15; put_le32 22 ++ drop 4 (m 2013); m 2012; m 1; m 2013; put_le32 16 ++ drop 4 (m 2013)]
  = [(9, Some HeaderIncomplete); (9, Some MessageLength); (9, Some MessageIncomplete); (21, Some CompressedMessage);
     (21, Some (UnsupportedOpCode 1)); (21, Some (UnknownSection 2)); (16, Some MessageLength)].
Proof. by vm_compute. Qed.
