(* ===== verification/MongoClient.v ===== *)
(** The asynchronous MongoDB client ([galay-mongo/async/client.cc]): request ids, the cached ping, the
    coroutines [sendSegments], [recvMessage], [command] and [pipeline].

    A coroutine is a function of the client and of a [world]: the octets the peer has sent and nobody has
    read, the octets written so far, and the answers the I/O layer will still give, one per [co_await] of
    a read or a write. A coroutine that awaits an answer which is not there is [Blocked]. The client is
    written against the interface of the receive ring. *)

From Stdlib Require Import ZArith Lia Strings.Byte Floats.SpecFloat.
From stdpp Require Import base list numbers strings.
From S2P Require Import Prelude RingBuffer MongoValue Bson Crc32c MongoProtocol.

Open Scope Z_scope.

Definition kAsyncMaxMessageSize : Z := 128 * 1024 * 1024.

(** ** Errors *)

Inductive IoFailure : Type := IoTimeout | IoDisconnect | IoOther.

Inductive ClientError : Type :=
| NotConnected | ConnectionFailed | EmptyPipeline | PipelineTooLong | EncodeError (e : BsonError) | EmptyIovecs | BadTemplate
| Timeout | ConnectionClosed | SendError | RecvError | NoSpace
| ResponseLength | ResponseTooLong | ProtocolError (e : MongoError)
| ResponseMismatch | InvalidResponseTo | UnknownResponse | WrongSlot | DuplicateResponse
| ServerError (code : option Z) (message : bytes).

Definition mapIoError (e : IoFailure) (fallback : ClientError) : ClientError :=
  match e with IoTimeout => Timeout | IoDisconnect => ConnectionClosed | IoOther => fallback end.

Definition makeServerError (reply : MongoReply) (default_message : bytes) : ClientError :=
  ServerError (errorCode reply) (match errorMessage reply with [] => default_message | message => message end).

(** ** The receive window as a message *)

(** [std::memcpy] of the buffers into one place, up to [need] octets. *)
Fixpoint copy_iovecs (iovecs : list bytes) (need : Z) : bytes :=
  match iovecs with
  | [] => []
  | iov :: iovecs =>
      if need <=? 0 then []
      else let chunk := Z.min (blen iov) need in take (Z.to_nat chunk) iov ++ copy_iovecs iovecs (need - chunk)
  end.

(** [DecodeView]: the data and the length of the message in front of it. *)
Definition prepareDecodeView (read_iovecs : list bytes) (parse_buffer : bytes) :
  outcome MongoError ((ClientError + option (bytes * Z)) * bytes) :=
  match read_iovecs with
  | [] => Value (inr None, parse_buffer)
  | first :: _ =>
      let total_len := foldr Z.add 0 (map blen read_iovecs) in
      if total_len <? 4 then Value (inr None, parse_buffer)
      else
        msg_len <-- readInt32LE (if 4 <=? blen first then first else copy_iovecs read_iovecs 4) 0 ;;
        if msg_len <? 16 then Value (inl ResponseLength, parse_buffer)
        else if kAsyncMaxMessageSize <? msg_len then Value (inl ResponseTooLong, parse_buffer)
        else if total_len <? msg_len then Value (inr None, parse_buffer)
        else if msg_len <=? blen first then Value (inr (Some (first, msg_len)), parse_buffer)
        else
          let parse_buffer :=
            if blen parse_buffer <? msg_len
            then parse_buffer ++ replicate (Z.to_nat (msg_len - blen parse_buffer)) nul else parse_buffer in
          let parse_buffer := write_at parse_buffer 0 (copy_iovecs read_iovecs msg_len) in
          Value (inr (Some (parse_buffer, msg_len)), parse_buffer)
  end.

(** [fillSendIovecsFromSegments]. *)
Fixpoint fill_send_iovecs (segments : list bytes) (skip : Z) : list bytes :=
  match segments with
  | [] => []
  | segment :: segments =>
      if blen segment =? 0 then fill_send_iovecs segments skip
      else if blen segment <=? skip then fill_send_iovecs segments (skip - blen segment)
      else drop (Z.to_nat skip) segment :: fill_send_iovecs segments 0
  end.

(** [std::abs(x - 1.0) < 1e-12]. *)
Definition near_one (x : Z) : bool :=
  SFltb (SFabs (SFsub 53 1024 (double_value x) (double_value one_bits))) (double_value tiny_bits).

Definition isSimplePingCommand (command : MongoDocument) (database : bytes) : bool :=
  if (blen command =? 0) || (2 <? blen command) then false
  else
    match document_find command (bs "ping") with
    | None => false
    | Some ping =>
        let shape_ok :=
          match document_find command (bs "$db") with
          | Some db => (blen command =? 2) && isString db && bool_decide (toString db = database)
          | None => blen command =? 1
          end in
        if negb shape_ok then false
        else
          match m_storage ping with
          | In_int32 n => n =? 1
          | In_int64 n => n =? 1
          | In_double x => near_one x
          | _ => false
          end
    end.

(** ** Coroutines *)

(** An answer of the I/O layer: it is ready for up to [k] octets, or has failed, or the task it ran in has. *)
Inductive io_event : Type := Ready (k : Z) | Eof | IoFails (e : IoFailure) | TaskFails.

Record world : Type := mkWorld { incoming : bytes; outgoing : bytes; events : list io_event }.

Section Client.
Context {B : Type} `{ByteRing B}.

Record AsyncMongoClient : Type := mkClient {
  m_ring_buffer : B;
  m_decode_scratch : bytes;
  m_ping_template_db : bytes;
  m_ping_encoded_template : bytes;
  m_next_request_id : Z;
  m_is_closed : bool
}.

Definition set_ring (r : B) (scratch : bytes) (c : AsyncMongoClient) : AsyncMongoClient :=
  mkClient r scratch (m_ping_template_db c) (m_ping_encoded_template c) (m_next_request_id c) (m_is_closed c).
Definition set_template (db template : bytes) (c : AsyncMongoClient) : AsyncMongoClient :=
  mkClient (m_ring_buffer c) (m_decode_scratch c) db template (m_next_request_id c) (m_is_closed c).
Definition set_next_request_id (n : Z) (c : AsyncMongoClient) : AsyncMongoClient :=
  mkClient (m_ring_buffer c) (m_decode_scratch c) (m_ping_template_db c) (m_ping_encoded_template c) n (m_is_closed c).

Definition new_client (ring : B) : AsyncMongoClient := mkClient ring [] [] [] 1 true.

(** How a coroutine ends; [Broken] is a read outside a buffer or the bound of a loop of the model. *)
Inductive run_result (A : Type) : Type :=
| Returned (r : ClientError + A) (c : AsyncMongoClient) (w : world)
| Blocked (c : AsyncMongoClient) (w : world)
| Broken.
Arguments Returned {A} r c w.
Arguments Blocked {A} c w.
Arguments Broken {A}.

Definition co (A : Type) : Type := AsyncMongoClient -> world -> run_result A.

Definition co_return {A} (r : ClientError + A) : co A := fun c w => Returned r c w.

Definition co_then {A C} (m : co A) (k : A -> co C) : co C := fun c w =>
  match m c w with
  | Returned (inr a) c w => k a c w
  | Returned (inl e) c w => Returned (inl e) c w
  | Blocked c w => Blocked c w
  | Broken => Broken
  end.

(** [reserveRequestIdBlock]. *)
Definition reserveRequestIdBlock (count : Z) (c : AsyncMongoClient) : Z * AsyncMongoClient :=
  let count := if count =? 0 then 1 else count in
  let next := if m_next_request_id c <=? 0 then 1 else m_next_request_id c in
  let first := if max_request_id <? next + count - 1 then 1 else next in
  let next_candidate := first + count in
  (first, set_next_request_id (if max_request_id <? next_candidate then 1 else next_candidate) c).

Definition nextRequestId (c : AsyncMongoClient) : Z * AsyncMongoClient := reserveRequestIdBlock 1 c.

Definition tryParseMessage (c : AsyncMongoClient) :
  outcome MongoError ((ClientError + option MongoMessage) * AsyncMongoClient) :=
  match rb_read_iovecs (m_ring_buffer c) with
  | [] => Value (inr None, c)
  | read_iovecs =>
      view <-- prepareDecodeView read_iovecs (m_decode_scratch c) ;;
      let c := set_ring (m_ring_buffer c) view.2 c in
      match view.1 with
      | inl e => Value (inl e, c)
      | inr None => Value (inr None, c)
      | inr (Some (data, msg_len)) =>
          match decodeMessage data msg_len with
          | Value message =>
              Value (inr (Some message), set_ring (rb_consume msg_len (m_ring_buffer c)) (m_decode_scratch c) c)
          | Unexpected e => Value (inl (ProtocolError e), c)
          | OutOfBounds => OutOfBounds
          end
      end
  end.

(** The loop of [recvMessage]: a turn that does not return takes one answer. *)
Fixpoint recv_loop (io_error_type : ClientError) (evs : list io_event) (c : AsyncMongoClient)
    (inc out : bytes) : run_result MongoMessage :=
  match tryParseMessage c with
  | OutOfBounds | Unexpected _ => Broken
  | Value (inl e, c) => Returned (inl e) c (mkWorld inc out evs)
  | Value (inr (Some message), c) => Returned (inr message) c (mkWorld inc out evs)
  | Value (inr None, c) =>
      match rb_write_iovecs (m_ring_buffer c) with
      | [] => Returned (inl NoSpace) c (mkWorld inc out evs)
      | window =>
          match evs with
          | [] => Blocked c (mkWorld inc out [])
          | IoFails e :: evs => Returned (inl (mapIoError e io_error_type)) c (mkWorld inc out evs)
          | TaskFails :: evs => Returned (inl io_error_type) c (mkWorld inc out evs)
          | Eof :: evs => Returned (inl ConnectionClosed) c (mkWorld inc out evs)
          | Ready k :: evs =>
              let n := Z.to_nat (Z.min k (foldr Z.add 0 window)) in
              match take n inc with
              | [] => Returned (inl ConnectionClosed) c (mkWorld inc out evs)
              | data =>
                  recv_loop io_error_type evs (set_ring (rb_receive data (m_ring_buffer c)) (m_decode_scratch c) c)
                    (drop n inc) out
              end
          end
      end
  end.

Definition recvMessage (io_error_type : ClientError) : co MongoMessage := fun c w =>
  recv_loop io_error_type (events w) c (incoming w) (outgoing w).

(** The loop of [sendSegments]. *)
Fixpoint send_loop (segments : list bytes) (total_len sent : Z) (evs : list io_event) (c : AsyncMongoClient)
    (inc out : bytes) : run_result unit :=
  if total_len <=? sent then Returned (inr tt) c (mkWorld inc out evs)
  else
    match fill_send_iovecs segments sent with
    | [] => Returned (inl EmptyIovecs) c (mkWorld inc out evs)
    | iovecs =>
        match evs with
        | [] => Blocked c (mkWorld inc out [])
        | IoFails e :: evs => Returned (inl (mapIoError e SendError)) c (mkWorld inc out evs)
        | TaskFails :: evs => Returned (inl SendError) c (mkWorld inc out evs)
        | Eof :: evs => Returned (inl ConnectionClosed) c (mkWorld inc out evs)
        | Ready k :: evs =>
            match take (Z.to_nat k) (concat iovecs) with
            | [] => Returned (inl ConnectionClosed) c (mkWorld inc out evs)
            | written => send_loop segments total_len (sent + blen written) evs c inc (out ++ written)
            end
        end
    end.

Definition sendSegments (segments : list bytes) : co unit := fun c w =>
  send_loop segments (foldr Z.add 0 (map blen segments)) 0 (events w) c (incoming w) (outgoing w).

(** [writeInt32LE] into four octets. *)
Definition request_id_le (id : Z) : bytes := put_le32 (wrap32 id).

(** The request of [command] under an id: the segments to send. *)
Definition command_segments (request_id : Z) (database : bytes) (command : MongoDocument) (c : AsyncMongoClient) :
  (ClientError + list bytes) * AsyncMongoClient :=
  if isSimplePingCommand command database then
    let stale := match m_ping_encoded_template c with [] => true | _ => negb (bool_decide (m_ping_template_db c = database)) end in
    let '(encoded, c) :=
      if stale then
        let '(template, encoded) := appendOpMsgWithDatabase 0 command database 0 [] in
        (encoded, set_template database template c)
      else (None, c) in
    match encoded with
    | Some e => (inl (EncodeError e), c)
    | None =>
        let template := m_ping_encoded_template c in
        if blen template <? 8 then (inl BadTemplate, c)
        else (inr [take 4 template; request_id_le request_id; drop 8 template], c)
    end
  else
    match appendOpMsgWithDatabase request_id command database 0 [] with
    | (_, Some e) => (inl (EncodeError e), c)
    | (encoded_request, None) => (inr [encoded_request], c)
    end.

Definition check_reply (message : MongoMessage) (default_message : bytes) : ClientError + MongoReply :=
  let reply := mkReply (body message) in
  if reply_ok reply then inr reply else inl (makeServerError reply default_message).

Definition command (database : bytes) (cmd : MongoDocument) : co MongoReply := fun c w =>
  if m_is_closed c then Returned (inl NotConnected) c w
  else
    let '(request_id, c) := nextRequestId c in
    let '(segments, c) := command_segments request_id database cmd c in
    match segments with
    | inl e => Returned (inl e) c w
    | inr segments =>
        co_then (sendSegments segments) (fun _ =>
        co_then (recvMessage RecvError) (fun message =>
          if negb (response_to (header message) =? request_id) then co_return (inl ResponseMismatch)
          else co_return (check_reply message (bs "Mongo command failed")))) c w
    end.

Definition ping (database : bytes) : co MongoReply := command database [(bs "ping", value_int32 1)].

(** [MongoPipelineResponse]. *)
Record MongoPipelineResponse : Type := mkResponse {
  pr_request_id : Z;
  pr_reply : option MongoReply;
  pr_error : option ClientError
}.

Definition empty_responses (first_request_id count : Z) : list MongoPipelineResponse :=
  map (fun i => mkResponse (sint32 (first_request_id + i)) None None) (seqZ 0 count).

Definition answered (slot : MongoPipelineResponse) : bool :=
  match pr_reply slot, pr_error slot with None, None => false | _, _ => true end.

Definition fill_slot (slot : MongoPipelineResponse) (message : MongoMessage) : MongoPipelineResponse :=
  match check_reply message (bs "Mongo pipeline command failed") with
  | inr reply => mkResponse (pr_request_id slot) (Some reply) (pr_error slot)
  | inl e => mkResponse (pr_request_id slot) (pr_reply slot) (Some e)
  end.

(** What a reply does to the responses. *)
Definition place_reply (first_request_id : Z) (responses : list MongoPipelineResponse) (message : MongoMessage) :
  ClientError + list MongoPipelineResponse :=
  let response_to := response_to (header message) in
  if response_to <=? 0 then inl InvalidResponseTo
  else
    let index := response_to - first_request_id in
    if (index <? 0) || (blen responses <=? index) then inl UnknownResponse
    else
      match responses !! Z.to_nat index with
      | None => inl UnknownResponse
      | Some slot =>
          if negb (pr_request_id slot =? response_to) then inl WrongSlot
          else if answered slot then inl DuplicateResponse
          else inr (<[Z.to_nat index := fill_slot slot message]> responses)
      end.

(** [while (received < responses.size())]. *)
Fixpoint pipeline_replies (missing : nat) (first_request_id : Z) (responses : list MongoPipelineResponse) :
  co (list MongoPipelineResponse) :=
  match missing with
  | O => co_return (inr responses)
  | S missing =>
      co_then (recvMessage RecvError) (fun message =>
        match place_reply first_request_id responses message with
        | inl e => co_return (inl e)
        | inr responses => pipeline_replies missing first_request_id responses
        end)
  end.

Definition pipeline (database : bytes) (commands : list MongoDocument) : co (list MongoPipelineResponse) := fun c w =>
  if m_is_closed c then Returned (inl NotConnected) c w
  else if blen commands =? 0 then Returned (inl EmptyPipeline) c w
  else if 2 ^ 31 - 1 <? blen commands then Returned (inl PipelineTooLong) c w
  else
    let '(first_request_id, c) := reserveRequestIdBlock (blen commands) c in
    let responses := empty_responses first_request_id (blen commands) in
    match encodePipeline database first_request_id commands with
    | inl e => Returned (inl (EncodeError e)) c w
    | inr encoded_batch =>
        co_then (sendSegments [encoded_batch]) (fun _ =>
          pipeline_replies (length commands) first_request_id responses) c w
    end.
End Client.
Arguments AsyncMongoClient B : clear implicits.
Arguments run_result B A : clear implicits.
Arguments Returned {B A} r c w.
Arguments Blocked {B A} c w.
Arguments Broken {B A}.

(** ** The receive window *)

Lemma copy_iovecs_eq iovecs need : 0 <= need -> copy_iovecs iovecs need = take (Z.to_nat need) (concat iovecs).
Proof.
  revert need. induction iovecs as [|iov iovecs IH]; intros need Hn; cbn [copy_iovecs concat]; [by rewrite take_nil|].
  destruct (Z.leb_spec need 0) as [Hz|Hz]; [by replace (Z.to_nat need) with 0%nat by lia|]. cbv zeta.
  rewrite IH by lia. rewrite take_app. f_equal.
  - destruct (Z.min_spec (blen iov) need) as [[Hm ->]|[_ ->]]; [|done]. unfold blen in *. rewrite !take_ge by lia. done.
  - f_equal. unfold blen. lia.
Qed.

Lemma iovecs_total (iovecs : list bytes) : foldr Z.add 0 (map blen iovecs) = blen (concat iovecs).
Proof. induction iovecs as [|iov iovecs IH]; cbn [map foldr concat]; [done|]. by rewrite blen_app, IH. Qed.

(** A reply as it comes: its length in front, within the bounds, decoded as [m]. *)
Record reply_wire (m : MongoMessage) (w : bytes) : Prop := {
  rw_len : holds w 0 (put_le32 (blen w));
  rw_size : 16 <= blen w <= kAsyncMaxMessageSize;
  rw_message : decodeMessage w (blen w) = Value m
}.

Lemma header_word w data m :
  reply_wire m w -> take 4 w `prefix_of` data -> readInt32LE data 0 = Value (blen w).
Proof.
  intros [(pre & suf & Hw & Hp) Hs _] [x ->]. unfold kAsyncMaxMessageSize in Hs.
  destruct pre; [|rewrite blen_cons in Hp; pose proof (blen_nonneg pre); lia]. cbn [app] in Hw.
  assert (take 4 w = put_le32 (blen w)) as -> by (rewrite Hw at 1; reflexivity).
  rewrite (readInt32LE_holds _ _ (blen w)) by (apply holds_0 || lia).
  by destruct (length_wrap (blen w) ltac:(lia)) as [_ ->].
Qed.

Lemma first_prefix (first : bytes) iovecs n :
  0 <= n <= blen first -> take (Z.to_nat n) (concat (first :: iovecs)) `prefix_of` first.
Proof.
  intros Hn. cbn [concat]. rewrite take_app_le by (unfold blen in Hn; lia).
  exists (drop (Z.to_nat n) first). by rewrite take_drop.
Qed.

(** The word read in front of a window that holds at least four octets. *)
Lemma window_word m w (first : bytes) iovecs :
  reply_wire m w -> take 4 w `prefix_of` concat (first :: iovecs) ->
  readInt32LE (if 4 <=? blen first then first else copy_iovecs (first :: iovecs) 4) 0 = Value (blen w).
Proof.
  intros Hw Hp. assert (take 4 w = take (Z.to_nat 4) (concat (first :: iovecs))) as E.
  { destruct Hp as [x ->]. destruct Hw as [_ Hs _]. assert (length (take 4 w) = 4%nat) as Hl.
    { rewrite length_take. unfold blen in Hs. lia. }
    change (Z.to_nat 4) with 4%nat. rewrite <- Hl at 2. by rewrite take_app_length. }
  destruct (Z.leb_spec 4 (blen first)).
  - apply (header_word w first m Hw). rewrite E. by apply first_prefix.
  - apply (header_word w _ m Hw). rewrite copy_iovecs_eq by lia. by rewrite <- E.
Qed.

(** A window that holds a whole reply: a buffer headed by it. *)
Lemma view_full m w x iovecs scratch :
  reply_wire m w -> concat iovecs = w ++ x -> iovecs <> [] ->
  exists data scratch', w `prefix_of` data /\
    prepareDecodeView iovecs scratch = Value (inr (Some (data, blen w)), scratch').
Proof.
  intros Hw Hc Hne. destruct iovecs as [|first iovecs]; [done|]. cbn [prepareDecodeView].
  rewrite iovecs_total, Hc, blen_app. pose proof (blen_nonneg x). pose proof (rw_size m w Hw) as Hs.
  rewrite (proj2 (Z.ltb_ge _ 4)) by lia.
  rewrite (window_word m w first iovecs Hw).
  2:{ rewrite Hc. exists (drop 4 w ++ x). by rewrite app_assoc, take_drop. }
  cbn [obind]. rewrite (proj2 (Z.ltb_ge (blen w) 16)), (proj2 (Z.ltb_ge _ (blen w))),
    (proj2 (Z.ltb_ge _ (blen w))) by lia.
  assert (take (Z.to_nat (blen w)) (concat (first :: iovecs)) = w) as Ht.
  { rewrite Hc. unfold blen. by rewrite Nat2Z.id, take_app_length. }
  destruct (Z.leb_spec (blen w) (blen first)) as [Hf|Hf].
  - exists first, scratch. split; [|done]. rewrite <- Ht at 1. apply first_prefix. lia.
  - cbv zeta. eexists _, _. split; [|done]. rewrite copy_iovecs_eq, Ht by lia.
    unfold write_at. cbn [take app]. by eexists.
Qed.

(** A window that holds only a part of one. *)
Lemma view_short m p q iovecs scratch :
  reply_wire m (p ++ q) -> q <> [] -> concat iovecs = p ->
  prepareDecodeView iovecs scratch = Value (inr None, scratch).
Proof.
  intros Hw Hq%blen_pos Hc. destruct iovecs as [|first iovecs]; [done|]. cbn [prepareDecodeView].
  rewrite iovecs_total, Hc. destruct (Z.ltb_spec (blen p) 4); [done|]. pose proof (rw_size m _ Hw) as Hs.
  rewrite (window_word m (p ++ q) first iovecs Hw).
  2:{ rewrite Hc. rewrite take_app_le by (unfold blen in *; lia). exists (drop 4 p). by rewrite take_drop. }
  cbn [obind]. rewrite blen_app in *. rewrite (proj2 (Z.ltb_ge _ 16)), (proj2 (Z.ltb_ge kAsyncMaxMessageSize _)) by lia.
  by rewrite (proj2 (Z.ltb_lt (blen p) _)) by lia.
Qed.

(** Where two cuts of a stream lie. *)
Lemma app_cut_le {A} (a b p q : list A) :
  a ++ b = p ++ q -> blen p <= blen a -> exists x, a = p ++ x /\ x ++ b = q.
Proof.
  intros E Hl. apply app_eq_inv in E as [(k & -> & ->)|(k & -> & ->)]; [by exists k|].
  rewrite blen_app in Hl. assert (k = []) as -> by (apply nil_length_inv; unfold blen in Hl; lia).
  exists []. by rewrite !app_nil_r.
Qed.

Lemma app_cut_gt {A} (a b p q : list A) :
  a ++ b = p ++ q -> blen a < blen p -> exists x, p = a ++ x /\ b = x ++ q /\ x <> [].
Proof.
  intros E Hl. apply app_eq_inv in E as [(k & -> & ->)|(k & -> & ->)].
  - rewrite blen_app in Hl. pose proof (blen_nonneg k). lia.
  - exists k. split_and!; [done|done|]. intros ->. rewrite app_nil_r in Hl. lia.
Qed.

(** ** Receiving and sending *)

Definition ready (e : io_event) : Prop := match e with Ready k => 0 < k | _ => False end.

Section Proofs.
Context {B : Type} `{ByteRing B} {laws : ByteRingLaws B}.
#[local] Abbreviation client := (AsyncMongoClient B).

(** What receiving may change of a client: the octets in the ring and the scratch. *)
Definition received_by (c c' : client) : Prop :=
  m_ping_template_db c' = m_ping_template_db c /\ m_ping_encoded_template c' = m_ping_encoded_template c /\
  m_next_request_id c' = m_next_request_id c /\ m_is_closed c' = m_is_closed c /\
  rb_ok (m_ring_buffer c') /\ rb_capacity (m_ring_buffer c') = rb_capacity (m_ring_buffer c).

Lemma received_refl c : rb_ok (m_ring_buffer c) -> received_by c c.
Proof. intros Hok. unfold received_by. by split_and!. Qed.

Lemma received_trans c1 c2 c3 : received_by c1 c2 -> received_by c2 c3 -> received_by c1 c3.
Proof.
  unfold received_by. intros (? & ? & ? & ? & ? & ?) (? & ? & ? & ? & ? & ?). split_and!; congruence.
Qed.

Lemma try_full m w x c :
  rb_ok (m_ring_buffer c) -> reply_wire m w -> rb_view (m_ring_buffer c) = w ++ x ->
  exists c', tryParseMessage c = Value (inr (Some m), c') /\ received_by c c' /\ rb_view (m_ring_buffer c') = x.
Proof.
  intros Hok Hw Hv. unfold tryParseMessage. pose proof (rb_read_concat _ Hok) as Hc. rewrite Hv in Hc.
  destruct (rb_read_iovecs (m_ring_buffer c)) as [|first iovecs] eqn:Ei.
  { apply (f_equal blen) in Hc. rewrite blen_app in Hc. change (blen (concat [])) with 0 in Hc.
    pose proof (rw_size m w Hw). pose proof (blen_nonneg x). lia. }
  destruct (view_full m w x (first :: iovecs) (m_decode_scratch c) Hw Hc ltac:(done)) as (data & scratch & Hp & ->).
  cbn [obind fst snd]. rewrite (decode_in_buffer w data m Hp (rw_message m w Hw)).
  eexists. split; [done|]. cbn [set_ring m_ring_buffer m_decode_scratch].
  destruct (rb_consume_view (m_ring_buffer c) (blen w) Hok (blen_nonneg w)) as (Hok' & Hcap & Hv').
  split; [by split_and!|]. cbn. by rewrite Hv', Hv, drop_blen.
Qed.

Lemma try_short m q c :
  rb_ok (m_ring_buffer c) -> reply_wire m (rb_view (m_ring_buffer c) ++ q) -> q <> [] ->
  exists c', tryParseMessage c = Value (inr None, c') /\ received_by c c' /\ m_ring_buffer c' = m_ring_buffer c.
Proof.
  intros Hok Hw Hq. unfold tryParseMessage. pose proof (rb_read_concat _ Hok) as Hc.
  destruct (rb_read_iovecs (m_ring_buffer c)) as [|first iovecs] eqn:Ei.
  { exists c. split; [done|]. split; [by apply received_refl|done]. }
  rewrite (view_short m _ q _ _ Hw Hq Hc). cbn [obind fst snd]. eexists. split; [done|].
  split; [by split_and!|done].
Qed.

(** One read of [Ready k]. *)
Lemma ring_read_turn c inc k q rest (window := rb_write_iovecs (m_ring_buffer c)) :
  rb_ok (m_ring_buffer c) -> 0 < k -> q <> [] -> inc = q ++ rest ->
  blen (rb_view (m_ring_buffer c)) < rb_capacity (m_ring_buffer c) ->
  let n := Z.to_nat (Z.min k (foldr Z.add 0 window)) in
  let r := rb_receive (take n inc) (m_ring_buffer c) in
  window <> [] /\ take n inc <> [] /\ rb_ok r /\ rb_capacity r = rb_capacity (m_ring_buffer c) /\
  rb_view r = rb_view (m_ring_buffer c) ++ take n inc.
Proof.
  intros Hok Hk Hq Hi Hroom n r. destruct (rb_write_total _ Hok) as [Ht [Hw _]].
  destruct (rb_receive_view (m_ring_buffer c) (take n inc) Hok) as (Hr1 & Hr2 & Hr3).
  assert (0 < Z.min k (foldr Z.add 0 window)) by (subst window; lia).
  assert (0 < blen inc) by (rewrite Hi, blen_app; apply blen_pos in Hq; pose proof (blen_nonneg rest); lia).
  split_and!; [subst window; intros E; specialize (Hw E); lia| |done|done|].
  - intros E. apply (f_equal length) in E. rewrite length_take in E. unfold blen in *. cbn [length] in E. lia.
  - subst r. rewrite Hr3. f_equal. apply take_ge. rewrite length_take. subst n window. lia.
Qed.

(** However the octets of a reply arrive, the reply is returned and what follows it is left. *)
Lemma recv_delivers m w err evs c inc out rest :
  reply_wire m w -> rb_ok (m_ring_buffer c) -> rb_view (m_ring_buffer c) ++ inc = w ++ rest ->
  blen w <= rb_capacity (m_ring_buffer c) -> Forall ready evs ->
  blen w - blen (rb_view (m_ring_buffer c)) <= blen evs ->
  exists c' inc' evs', recv_loop err evs c inc out = Returned (inr m) c' (mkWorld inc' out evs') /\
    received_by c c' /\ rb_view (m_ring_buffer c') ++ inc' = rest /\
    Forall ready evs' /\ blen evs - blen evs' <= Z.max 0 (blen w - blen (rb_view (m_ring_buffer c))).
Proof.
  intros Hw. revert c inc. induction evs as [|e evs IH]; intros c inc Hok E Hcap Hev Hlen;
    (destruct (Z.le_gt_cases (blen w) (blen (rb_view (m_ring_buffer c)))) as [Hfull|Hshort];
      [destruct (app_cut_le _ _ _ _ E Hfull) as (x & Hx & Hrest);
       destruct (try_full m w x c Hok Hw Hx) as (c' & Ht & Hr & Hv);
       cbn [recv_loop]; rewrite Ht; eexists c', inc, _; split; [done|]; split_and!; [done|by rewrite Hv|done|lia]|]).
  - unfold blen at 3 in Hlen. cbn [length] in Hlen. lia.
  - destruct (app_cut_gt _ _ _ _ E Hshort) as (q & -> & Hinc & Hq).
    destruct (try_short m q c Hok Hw Hq) as (c1 & Ht & Hr1 & Hring).
    cbn [recv_loop]. rewrite Ht. apply Forall_cons in Hev as [He Hev]. destruct e as [k| | |]; try done.
    rewrite blen_app in Hcap. pose proof (blen_pos q Hq) as Hq0. cbn [ready] in He.
    destruct (ring_read_turn c1 inc k q rest) as (Hwin & Hdata & Hok2 & Hcap2 & Hv2);
      [by rewrite Hring|done|done|done|rewrite Hring; lia|]. rewrite Hring in *.
    destruct (rb_write_iovecs (m_ring_buffer c)) as [|v vs] eqn:Ew; [done|]. rewrite <- Ew in *.
    set (n := Z.to_nat (Z.min k (foldr Z.add 0 (rb_write_iovecs (m_ring_buffer c))))) in *.
    destruct (take n inc) as [|b data] eqn:Ed; [done|]. rewrite <- Ed in *.
    set (c2 := set_ring (rb_receive (take n inc) (m_ring_buffer c)) (m_decode_scratch c1) c1).
    assert (received_by c c2) as Hr2.
    { destruct Hr1 as (H1 & H2 & H3 & H4 & _). by split_and!. }
    assert (0 < blen (take n inc)) as Hpos by (by apply blen_pos; rewrite Ed).
    rewrite blen_cons in Hlen.
    destruct (IH c2 (drop n inc)) as (c' & inc' & evs' & Hrun & Hr3 & Hrest & Hev' & Hused).
    + done.
    + cbn [c2 set_ring m_ring_buffer]. rewrite Hv2, <- app_assoc, take_drop. done.
    + cbn [c2 set_ring m_ring_buffer]. by rewrite Hcap2, blen_app.
    + done.
    + cbn [c2 set_ring m_ring_buffer]. rewrite Hv2, !blen_app. rewrite blen_app in Hlen. lia.
    + exists c', inc', evs'. split; [exact Hrun|]. split_and!; [by eapply received_trans|done|done|].
      cbn [c2 set_ring m_ring_buffer] in Hused. rewrite Hv2, !blen_app in Hused. rewrite blen_cons, blen_app. lia.
Qed.

(** What a window that gives a message gives. *)
Lemma view_inv iovecs scratch data n scratch' :
  prepareDecodeView iovecs scratch = Value (inr (Some (data, n)), scratch') ->
  exists w x, concat iovecs = w ++ x /\ blen w = n /\ w `prefix_of` data.
Proof.
  destruct iovecs as [|first iovecs]; [done|]. cbn [prepareDecodeView]. rewrite iovecs_total.
  destruct (Z.ltb_spec (blen (concat (first :: iovecs))) 4); [done|].
  destruct (readInt32LE _ 0) as [len| |]; [|done..]. cbn [obind].
  destruct (Z.ltb_spec len 16); [done|]. destruct (Z.ltb_spec kAsyncMaxMessageSize len); [done|].
  destruct (Z.ltb_spec (blen (concat (first :: iovecs))) len) as [|Hlen]; [done|]. intros E.
  exists (take (Z.to_nat len) (concat (first :: iovecs))), (drop (Z.to_nat len) (concat (first :: iovecs))).
  split; [by rewrite take_drop|]. rewrite copy_iovecs_eq in E by lia.
  split; [destruct (len <=? blen first); injection E as _ <- _; unfold blen in *; rewrite length_take; lia|].
  destruct (Z.leb_spec len (blen first)); injection E as <- _ _; [by apply first_prefix; lia|].
  unfold write_at. cbn [take app]. by eexists.
Qed.

Lemma try_inv m c c' : rb_ok (m_ring_buffer c) -> tryParseMessage c = Value (inr (Some m), c') ->
  exists w, rb_view (m_ring_buffer c) = w ++ rb_view (m_ring_buffer c') /\ decodeMessage w (blen w) = Value m /\
    received_by c c'.
Proof.
  intros Hok. unfold tryParseMessage. pose proof (rb_read_concat _ Hok) as Hc.
  destruct (rb_read_iovecs (m_ring_buffer c)) as [|first iovecs]; [done|]. rewrite <- Hc.
  destruct (prepareDecodeView _ _) as [[[e|[[data n]|]] scratch]| |] eqn:Ev; try done. cbn [obind fst snd].
  apply view_inv in Ev as (w & x & E & <- & Hp).
  destruct (decodeMessage data (blen w)) as [m'| |] eqn:Ed; [|done..]. intros [= <- <-].
  cbn [set_ring m_ring_buffer m_decode_scratch].
  destruct (rb_consume_view (m_ring_buffer c) (blen w) Hok (blen_nonneg w)) as (Hok' & Hcap & Hv').
  exists w. split_and!; [by rewrite Hv', <- Hc, E, drop_blen|by eapply decode_of_buffer|by split_and!].
Qed.

Lemma try_none c c' : rb_ok (m_ring_buffer c) -> tryParseMessage c = Value (inr None, c') ->
  received_by c c' /\ m_ring_buffer c' = m_ring_buffer c.
Proof.
  intros Hok. unfold tryParseMessage. destruct (rb_read_iovecs (m_ring_buffer c)) as [|first iovecs].
  { intros [= <-]. split; [by apply received_refl|done]. }
  destruct (prepareDecodeView _ _) as [[[e|[[data n]|]] scratch]| |]; try done; cbn [obind fst snd].
  - by destruct (decodeMessage data n).
  - intros [= <-]. split; [by split_and!|done].
Qed.

(** A message that is returned was in front of what came over the connection, and what follows it is left. *)
Lemma recv_sound m err evs c inc out c' w' : rb_ok (m_ring_buffer c) ->
  recv_loop err evs c inc out = Returned (inr m) c' w' ->
  exists w, rb_view (m_ring_buffer c) ++ inc = w ++ rb_view (m_ring_buffer c') ++ incoming w' /\
    decodeMessage w (blen w) = Value m /\ received_by c c' /\ outgoing w' = out.
Proof.
  revert c inc. induction evs as [|e evs IH]; intros c inc Hok; cbn [recv_loop];
    destruct (tryParseMessage c) as [[[e0|[m'|]] c1]| |] eqn:Et; try done.
  1, 3: intros [= -> -> <-]; destruct (try_inv m c c' Hok Et) as (w & -> & Hd & Hr); exists w;
    cbn [incoming outgoing]; by rewrite <- app_assoc.
  { by destruct (rb_write_iovecs (m_ring_buffer c1)). }
  destruct (try_none c c1 Hok Et) as [Hr1 Hring]. rewrite Hring.
  destruct (rb_write_iovecs (m_ring_buffer c)) as [|v vs] eqn:Ew; [done|]. destruct e as [k| | |]; try done.
  rewrite <- Ew. set (n := Z.to_nat _). destruct (take n inc) as [|b data] eqn:Ed; [done|]. rewrite <- Ed.
  destruct (rb_receive_view (m_ring_buffer c) (take n inc) Hok) as (Hok2 & Hcap2 & Hv2).
  intros (w & E & Hd & Hr & Ho)%IH; [|done]. cbn [set_ring m_ring_buffer] in *. exists w. split_and!; [|done| |done].
  - rewrite <- E, Hv2, <- app_assoc. f_equal. destruct (rb_write_total _ Hok) as [Ht _]. rewrite (take_ge (take n inc)).
    + by rewrite take_drop.
    + rewrite length_take. subst n. rewrite Ht. lia.
  - eapply received_trans; [|exact Hr]. destruct Hr1 as (H1 & H2 & H3 & H4 & _). by split_and!.
Qed.

(** Sending leaves the client and what is to come as they are. *)
Lemma send_sound segments total sent evs (c : client) inc out c' w' :
  send_loop segments total sent evs c inc out = Returned (inr tt) c' w' -> c' = c /\ incoming w' = inc.
Proof.
  revert sent out. induction evs as [|e evs IH]; intros sent out; cbn [send_loop];
    destruct (total <=? sent); try (by intros [= <- <-]); destruct (fill_send_iovecs segments sent); try done.
  destruct e as [k| | |]; try done. destruct (take _ _); [done|]. apply IH.
Qed.

Lemma fill_send_iovecs_concat segments skip :
  0 <= skip -> concat (fill_send_iovecs segments skip) = drop (Z.to_nat skip) (concat segments).
Proof.
  revert skip. induction segments as [|s segments IH]; intros skip Hs; cbn [fill_send_iovecs concat]; [by rewrite drop_nil|].
  destruct (Z.eqb_spec (blen s) 0) as [E|E].
  - destruct s; [by rewrite IH|]. rewrite blen_cons in E. pose proof (blen_nonneg s). lia.
  - destruct (Z.leb_spec (blen s) skip).
    + rewrite IH by lia. rewrite drop_app_ge by (unfold blen in *; lia). f_equal. unfold blen. lia.
    + cbn [concat]. rewrite IH by lia. rewrite drop_app_le by (unfold blen in *; lia). done.
Qed.

(** However the writes are split, what is written is the segments. *)
Lemma send_delivers segments sent evs (c : client) inc out :
  0 <= sent -> Forall ready evs -> blen (concat segments) - sent <= blen evs ->
  exists evs', send_loop segments (foldr Z.add 0 (map blen segments)) sent evs c inc out =
    Returned (inr tt) c (mkWorld inc (out ++ drop (Z.to_nat sent) (concat segments)) evs') /\
    Forall ready evs' /\ blen evs - blen evs' <= Z.max 0 (blen (concat segments) - sent).
Proof.
  rewrite iovecs_total. revert sent out. induction evs as [|e evs IH]; intros sent out Hs Hev Hlen;
    (cbn [send_loop]; destruct (Z.leb_spec (blen (concat segments)) sent) as [Hd|Hd];
     [eexists; split; [rewrite drop_ge, app_nil_r by (unfold blen in *; lia); done|split; [done|lia]]|]).
  - unfold blen at 2 in Hlen. cbn [length] in Hlen. lia.
  - pose proof (fill_send_iovecs_concat segments sent Hs) as Hf.
    assert (0 < blen (drop (Z.to_nat sent) (concat segments))) as Hne.
    { unfold blen in *. rewrite length_drop. lia. }
    destruct (fill_send_iovecs segments sent) as [|iov iovecs] eqn:Ei.
    { cbn [concat] in Hf. rewrite <- Hf in Hne. by rewrite (@blen_nil byte) in Hne. }
    apply Forall_cons in Hev as [He Hev]. destruct e as [k| | |]; try done. cbn [ready] in He. rewrite Hf.
    destruct (take (Z.to_nat k) (drop (Z.to_nat sent) (concat segments))) as [|b written] eqn:Ew.
    { apply (f_equal length) in Ew. rewrite length_take in Ew. unfold blen in Hne. cbn [length] in Ew. lia. }
    rewrite <- Ew. set (d := take (Z.to_nat k) (drop (Z.to_nat sent) (concat segments))) in *.
    assert (0 < blen d) by (apply blen_pos; by rewrite Ew). rewrite blen_cons in Hlen.
    destruct (IH (sent + blen d) (out ++ d)) as (evs' & Hrun & Hev' & Hused); [lia|done|lia|].
    exists evs'. split; [|split; [done|rewrite blen_cons; lia]]. rewrite Hrun. do 2 f_equal.
    rewrite <- app_assoc. f_equal. subst d. set (l := drop (Z.to_nat sent) (concat segments)) in *.
    replace (drop (Z.to_nat (sent + blen (take (Z.to_nat k) l))) (concat segments))
      with (drop (length (take (Z.to_nat k) l)) l).
    { rewrite length_take. destruct (Nat.min_spec (Z.to_nat k) (length l)) as [[_ ->]|[Hk ->]]; [by rewrite take_drop|].
      rewrite (take_ge l) by lia. by rewrite drop_ge, app_nil_r. }
    subst l. rewrite drop_drop. f_equal. unfold blen. lia.
Qed.

(** ** Request ids *)

Lemma reserve_spec count (c : client) :
  0 <= count <= max_request_id -> m_next_request_id c <= max_request_id ->
  let n := Z.max 1 count in
  let first := (reserveRequestIdBlock count c).1 in
  let next := m_next_request_id (reserveRequestIdBlock count c).2 in
  1 <= first /\ first + n - 1 <= max_request_id /\ 1 <= next <= max_request_id /\
  (next = first + n \/ next = 1) /\ (first = m_next_request_id c \/ first = 1).
Proof.
  intros Hc Hn n first next. subst n first next. unfold reserveRequestIdBlock. cbv zeta.
  replace (if count =? 0 then 1 else count) with (Z.max 1 count) by (destruct (Z.eqb_spec count 0); lia).
  cbn [fst snd set_next_request_id m_next_request_id]. unfold max_request_id in *.
  set (nx := if m_next_request_id c <=? 0 then 1 else m_next_request_id c).
  assert (1 <= nx <= 2 ^ 31 - 1 /\ (nx = m_next_request_id c \/ nx = 1)) as [Hnx Hor]
    by (subst nx; destruct (Z.leb_spec (m_next_request_id c) 0); lia).
  clearbody nx. set (fi := if _ <? nx + Z.max 1 count - 1 then 1 else nx).
  assert (1 <= fi /\ fi + Z.max 1 count - 1 <= 2 ^ 31 - 1 /\ (fi = nx \/ fi = 1)) as (? & ? & ?)
    by (subst fi; destruct (Z.ltb_spec (2 ^ 31 - 1) (nx + Z.max 1 count - 1)); lia).
  clearbody fi. destruct (Z.ltb_spec (2 ^ 31 - 1) (fi + Z.max 1 count)); lia.
Qed.

Lemma request_id_block count (c : client) :
  0 <= count <= max_request_id -> m_next_request_id c <= max_request_id ->
  1 <= (reserveRequestIdBlock count c).1 /\
  (reserveRequestIdBlock count c).1 + Z.max 1 count - 1 <= max_request_id.
Proof. intros Hc Hn. by destruct (reserve_spec count c Hc Hn) as (? & ? & _). Qed.

(** a block of request ids is positive and lies below 2^31, without wrapping inside; the next block starts
    behind it, or at one. *)
Theorem request_ids count (c : client) :
  0 <= count <= max_request_id -> m_next_request_id c <= max_request_id ->
  let n := Z.max 1 count in
  let first := (reserveRequestIdBlock count c).1 in
  let next := m_next_request_id (reserveRequestIdBlock count c).2 in
  1 <= first /\ first + n - 1 <= max_request_id /\ 1 <= next <= max_request_id /\
  (next = first + n \/ next = 1) /\ (first = m_next_request_id c \/ first = 1).
Proof. apply reserve_spec. Qed.

(** ** A command *)

(** The cached ping: none, or the message, under id 0, of a ping of the database it is kept for. *)
Definition template_ok (c : client) : Prop :=
  m_ping_encoded_template c = [] \/
  exists p, isSimplePingCommand p (m_ping_template_db c) = true /\
    message_bytes 0 0 (with_database p (m_ping_template_db c)) = Some (m_ping_encoded_template c).

(** What is sent for a command: itself, or, for a ping, a ping. *)
Definition stands_for (database : bytes) (sent cmd : MongoDocument) : Prop :=
  sent = cmd \/ (isSimplePingCommand sent database = true /\ isSimplePingCommand cmd database = true).

Lemma request_id_patched rid b :
  take 4 (op_msg_bytes 0 0 b) ++ request_id_le rid ++ drop 8 (op_msg_bytes 0 0 b) = op_msg_bytes rid 0 b.
Proof. reflexivity. Qed.

Lemma message_bytes_some rid d b : document_bytes d = Some b -> message_bytes rid 0 d = Some (op_msg_bytes rid 0 b).
Proof. intros E. unfold message_bytes. by rewrite E. Qed.

Lemma message_bytes_inv rid d x :
  message_bytes rid 0 d = Some x -> exists b, document_bytes d = Some b /\ x = op_msg_bytes rid 0 b.
Proof. unfold message_bytes. destruct (document_bytes d) as [b|]; [|done]. intros [= <-]. eauto. Qed.

Lemma append_request rid cmd database b :
  document_ok cmd = true -> document_bytes (with_database cmd database) = Some b ->
  appendOpMsgWithDatabase rid cmd database 0 [] = (op_msg_bytes rid 0 b, None).
Proof.
  intros Hok Hb. unfold appendOpMsgWithDatabase.
  rewrite (op_msg_spec _ rid 0 _ (appendDocumentWithDatabase_whole cmd database Hok) []). by rewrite Hb.
Qed.

(** Two clients that differ in the cached ping. *)
Definition same_but_template (c c' : client) : Prop :=
  m_ring_buffer c' = m_ring_buffer c /\ m_decode_scratch c' = m_decode_scratch c /\
  m_next_request_id c' = m_next_request_id c /\ m_is_closed c' = m_is_closed c.

Lemma template_segments rid database p b :
  document_bytes (with_database p database) = Some b ->
  (blen (op_msg_bytes 0 0 b) <? 8) = false /\
  concat [take 4 (op_msg_bytes 0 0 b); request_id_le rid; drop 8 (op_msg_bytes 0 0 b)] = op_msg_bytes rid 0 b.
Proof.
  intros _. split; [rewrite op_msg_bytes_length; pose proof (blen_nonneg b); by apply Z.ltb_ge; lia|].
  cbn [concat]. rewrite app_nil_r. apply request_id_patched.
Qed.

Lemma command_segments_spec rid database cmd c b :
  document_ok cmd = true -> document_bytes (with_database cmd database) = Some b -> template_ok c ->
  exists sent segments c', command_segments rid database cmd c = (inr segments, c') /\
    message_bytes rid 0 (with_database sent database) = Some (concat segments) /\
    stands_for database sent cmd /\ template_ok c' /\ same_but_template c c'.
Proof.
  intros Hok Hb Ht. unfold command_segments. destruct (isSimplePingCommand cmd database) eqn:Hp.
  - rewrite (append_request 0 cmd database b Hok Hb).
    assert (forall p b c', m_ping_encoded_template c' = op_msg_bytes 0 0 b -> isSimplePingCommand p database = true ->
      document_bytes (with_database p database) = Some b -> template_ok c' -> same_but_template c c' ->
      exists sent segments c2,
        (let template := m_ping_encoded_template c' in
         if blen template <? 8 then (inl BadTemplate, c')
         else (inr [take 4 template; request_id_le rid; drop 8 template], c')) = (@inr ClientError _ segments, c2) /\
        message_bytes rid 0 (with_database sent database) = Some (concat segments) /\
        stands_for database sent cmd /\ template_ok c2 /\ same_but_template c c2) as Hsend.
    { intros p bp c' Ht' Hpp Hbp Hok' Hsame. cbv zeta. rewrite Ht'.
      destruct (template_segments rid database p bp Hbp) as [-> Hc]. eexists p, _, c'. split; [done|].
      rewrite Hc, (message_bytes_some rid _ _ Hbp). split_and!; try done. by right. }
    assert (template_ok (set_template database (op_msg_bytes 0 0 b) c)) as Hnew.
    { right. exists cmd. split; [done|]. by apply message_bytes_some. }
    destruct (m_ping_encoded_template c) as [|b0 t0] eqn:Et.
    { by apply (Hsend cmd b (set_template database (op_msg_bytes 0 0 b) c)). }
    destruct Ht as [|(p & Hpp & Hpm)]; [congruence|]. rewrite Et in Hpm.
    case_bool_decide as Hdb; cbn [negb].
    + rewrite Hdb in *. apply message_bytes_inv in Hpm as (bp & Hbp & Hx). rewrite <- Et in Hx.
      apply (Hsend p bp c); try done. right. exists p. rewrite Hdb, Hx. split; [done|]. by apply message_bytes_some.
    + by apply (Hsend cmd b (set_template database (op_msg_bytes 0 0 b) c)).
  - rewrite (append_request rid cmd database b Hok Hb). eexists cmd, _, c. split; [done|]. cbn [concat].
    rewrite app_nil_r. split_and!; [by apply message_bytes_some|by left|done|done].
Qed.

(** C15: a command: however the socket splits writes and reads, what is sent is the command (for a ping, a ping)
    with its database under the next request id, what is returned is the reply the server gave under that id,
    and what follows the reply is left for the next command. *)
Theorem command_delivers database cmd (c : client) m w inc out rest :
  rb_ok (m_ring_buffer c) -> m_is_closed c = false -> template_ok c ->
  document_ok cmd = true -> is_Some (document_bytes (with_database cmd database)) ->
  reply_wire m w -> response_to (header m) = (nextRequestId c).1 ->
  rb_view (m_ring_buffer c) ++ inc = w ++ rest -> blen w <= rb_capacity (m_ring_buffer c) ->
  exists sent request, stands_for database sent cmd /\
    message_bytes (nextRequestId c).1 0 (with_database sent database) = Some request /\
    forall evs, Forall ready evs -> blen request + blen w <= blen evs ->
      exists c' inc' evs', command database cmd c (mkWorld inc out evs) =
          Returned (check_reply m (bs "Mongo command failed")) c' (mkWorld inc' (out ++ request) evs') /\
        rb_ok (m_ring_buffer c') /\ rb_view (m_ring_buffer c') ++ inc' = rest /\
        template_ok c' /\ m_is_closed c' = false.
Proof.
  intros Hring Hopen Ht Hok [b Hb] Hw Hid E Hcap.
  destruct (nextRequestId c) as [rid c1] eqn:Hn. cbn [fst] in *.
  assert (c1 = set_next_request_id (m_next_request_id c1) c) as Hc1.
  { unfold nextRequestId, reserveRequestIdBlock in Hn. injection Hn as _ <-. done. }
  destruct (command_segments_spec rid database cmd c1 b Hok Hb) as (sent & segments & c2 & Hseg & Hreq & Hst & Ht2 & Hsame).
  { rewrite Hc1. done. }
  exists sent, (concat segments). split_and!; [done|done|]. intros evs Hev Hlen.
  destruct Hsame as (Hr2 & _ & _ & Hcl2). rewrite Hc1 in Hr2, Hcl2. cbn [set_next_request_id m_ring_buffer m_is_closed] in *.
  unfold command. rewrite Hopen, Hn, Hseg. unfold co_then at 1, sendSegments. cbn [incoming outgoing events].
  pose proof (blen_nonneg w). pose proof (blen_nonneg (rb_view (m_ring_buffer c))).
  destruct (send_delivers segments 0 evs c2 inc out) as (evs1 & -> & Hev1 & Hu1); [lia|done|lia|].
  change (Z.to_nat 0) with 0%nat. rewrite drop_0. unfold co_then, recvMessage. cbn [incoming outgoing events].
  destruct (recv_delivers m w RecvError evs1 c2 inc (out ++ concat segments) rest)
    as (c3 & inc' & evs' & -> & (Hd & Htm & _ & Hcl & Hok3 & _) & Hrest & _);
    [done|by rewrite Hr2|by rewrite Hr2|by rewrite Hr2|done|rewrite Hr2; pose proof (blen_nonneg (concat segments)); lia|].
  exists c3, inc', evs'. rewrite Hid, Z.eqb_refl. split_and!; [done|done|done| |congruence].
  unfold template_ok in *. by rewrite Hd, Htm.
Qed.

(** Whatever happens on the connection, a command that returns a reply returns one the server gave to it. *)
Theorem command_reply_is_its_own database cmd (c c' : client) w w' reply :
  command database cmd c w = Returned (inr reply) c' w' ->
  exists message c1 evs inc out c2 w2,
    recv_loop RecvError evs c1 inc out = Returned (inr message) c2 w2 /\
    response_to (header message) = (nextRequestId c).1 /\ reply = mkReply (body message) /\ reply_ok reply = true.
Proof.
  unfold command. destruct (m_is_closed c); [done|]. destruct (nextRequestId c) as [rid c1].
  destruct (command_segments rid database cmd c1) as [[e|segments] c2]; [done|].
  unfold co_then, recvMessage. destruct (sendSegments segments c2 w) as [[e|[]] c3 w3|c3 w3|]; try done.
  destruct (recv_loop RecvError (events w3) c3 (incoming w3) (outgoing w3)) as [[e|m] c4 w4|c4 w4|] eqn:Hr; try done.
  destruct (Z.eqb_spec (response_to (header m)) rid) as [Hid|]; [|done]. cbn [negb]. unfold co_return, check_reply.
  destruct (reply_ok (mkReply (body m))) eqn:Hok; [|done]. intros [= <- _ _].
  exists m, c3, (events w3), (incoming w3), (outgoing w3), c4, w4. by split_and!.
Qed.

(** ** A pipeline *)

Definition reply_id (r : MongoMessage * bytes) : Z := response_to (header r.1).

Definition empty_slot (id : Z) : MongoPipelineResponse := mkResponse id None None.

(** The responses once the replies [got] are in: each in the place of its id, the other places empty. *)
Definition responses_after (first n : Z) (got : list (MongoMessage * bytes)) (responses : list MongoPipelineResponse) : Prop :=
  blen responses = n /\
  forall i, 0 <= i < n ->
    (exists r, r ∈ got /\ reply_id r = first + i /\
       responses !! Z.to_nat i = Some (fill_slot (empty_slot (first + i)) r.1)) \/
    ((forall r, r ∈ got -> reply_id r <> first + i) /\ responses !! Z.to_nat i = Some (empty_slot (first + i))).

Lemma empty_responses_after first n :
  1 <= first -> first + n - 1 <= max_request_id -> 0 <= n -> responses_after first n [] (empty_responses first n).
Proof.
  unfold max_request_id. intros Hf Hm Hn. unfold responses_after, empty_responses, blen.
  rewrite length_map, length_seqZ. split; [lia|]. intros i Hi. right. split; [intros r Hr; by apply elem_of_nil in Hr|].
  change (map ?f ?l) with (f <$> l). rewrite list_lookup_fmap, lookup_seqZ_lt by lia.
  cbn [fmap option_fmap option_map]. unfold empty_slot. do 2 f_equal.
  rewrite sint32_small; [lia|]. unfold int32_ok. apply andb_true_iff. split; [apply Z.leb_le|apply Z.ltb_lt]; lia.
Qed.

(** A reply not seen before goes to its place and nowhere else. *)
Lemma place_reply_spec first n got responses r :
  responses_after first n got responses -> 1 <= first -> first <= reply_id r < first + n ->
  (forall r', r' ∈ got -> reply_id r' <> reply_id r) ->
  exists responses', place_reply first responses r.1 = inr responses' /\ responses_after first n (got ++ [r]) responses'.
Proof.
  intros [Hl Hr] Hf Hid Hnew. unfold place_reply. change (response_to (header r.1)) with (reply_id r). cbv zeta.
  rewrite (proj2 (Z.leb_gt (reply_id r) 0)), (proj2 (Z.ltb_ge (reply_id r - first) 0)), Hl,
    (proj2 (Z.leb_gt n (reply_id r - first))) by lia. cbn [orb].
  set (k := reply_id r - first). assert (reply_id r = first + k) as Ek by lia.
  destruct (Hr k ltac:(lia)) as [(r' & Hin & E & _)|[_ Hslot]]; [exfalso; apply (Hnew r' Hin); lia|].
  rewrite Hslot. cbn [empty_slot pr_request_id answered pr_reply pr_error]. rewrite Ek, Z.eqb_refl. cbn [negb].
  eexists. split; [done|]. unfold responses_after. split.
  - unfold blen in *. by rewrite length_insert.
  - intros i Hi. destruct (decide (i = k)) as [->|Hne].
    + left. exists r. split; [apply elem_of_app; right; by apply list_elem_of_singleton|]. split; [done|].
      apply list_lookup_insert_eq. unfold blen in Hl. lia.
    + rewrite list_lookup_insert_ne by lia. destruct (Hr i Hi) as [(r' & Hin & E & Hs)|[Hno Hs]].
      * left. exists r'. split; [apply elem_of_app; by left|done].
      * right. split; [|done]. intros r' [Hin|Hin%list_elem_of_singleton]%elem_of_app; [by apply Hno|].
        subst r'. lia.
Qed.

(** Replies in any order fill the places of their ids. *)
Lemma replies_fill first n replies got responses (c : client) evs inc out rest :
  Forall (fun r => reply_wire r.1 r.2 /\ blen r.2 <= rb_capacity (m_ring_buffer c)) replies ->
  Forall (fun r => first <= reply_id r < first + n) replies -> 1 <= first ->
  NoDup (map reply_id (got ++ replies)) -> responses_after first n got responses ->
  rb_ok (m_ring_buffer c) -> rb_view (m_ring_buffer c) ++ inc = concat (map snd replies) ++ rest ->
  Forall ready evs -> blen (concat (map snd replies)) <= blen evs ->
  exists responses' c' inc' evs', pipeline_replies (length replies) first responses c (mkWorld inc out evs) =
      Returned (inr responses') c' (mkWorld inc' out evs') /\
    responses_after first n (got ++ replies) responses' /\ received_by c c' /\
    rb_view (m_ring_buffer c') ++ inc' = rest.
Proof.
  intros Hw Hid Hf. revert got responses c evs inc Hw.
  induction replies as [|r replies IH]; intros got responses c evs inc Hw Hnd Hr Hring E Hev Hlen.
  - exists responses, c, inc, evs. rewrite app_nil_r. split_and!; [done|done|by apply received_refl|done].
  - apply Forall_cons in Hw as [[Hw Hcap] Hws]. apply Forall_cons in Hid as [Hid Hids].
    cbn [map concat] in E, Hlen. rewrite <- app_assoc in E. rewrite blen_app in Hlen.
    pose proof (blen_nonneg (concat (map snd replies))) as Hnn.
    pose proof (blen_nonneg (rb_view (m_ring_buffer c))) as Hnn2. pose proof (blen_nonneg r.2) as Hnn3.
    cbn [length pipeline_replies]. unfold co_then, recvMessage. cbn [incoming outgoing events].
    destruct (recv_delivers r.1 r.2 RecvError evs c inc out _ Hw Hring E Hcap Hev ltac:(lia))
      as (c1 & inc1 & evs1 & -> & Hrec & E1 & Hev1 & Hused).
    destruct (place_reply_spec first n got responses r Hr Hf Hid) as (responses1 & -> & Hr1).
    { intros r' Hin E'. rewrite map_app in Hnd. apply NoDup_app in Hnd as (_ & Hdis & _).
      apply (Hdis (reply_id r')); [by apply list_elem_of_fmap_2|]. rewrite E'. apply list_elem_of_here. }
    pose proof Hrec as (_ & _ & _ & _ & Hring1 & Hcap1).
    destruct (IH Hids (got ++ [r]) responses1 c1 evs1 inc1) as (responses' & c' & inc' & evs' & Hrun & Hr' & Hrec' & E');
      try done.
    + eapply Forall_impl; [exact Hws|]. intros r' [? ?]. split; [done|]. by rewrite Hcap1.
    + by rewrite <- app_assoc.
    + lia.
    + exists responses', c', inc', evs'. rewrite <- app_assoc in Hr'.
      split_and!; [exact Hrun|done|by eapply received_trans|done].
Qed.

Lemma pipeline_encodes database first commands :
  Forall (fun c => document_ok c = true) commands ->
  Forall (fun c => is_Some (document_bytes (with_database c database))) commands ->
  exists out, encodePipeline database first commands = inr out.
Proof.
  intros Hok Hb. unfold encodePipeline. destruct commands as [|c commands]; [by eexists|]. cbv zeta.
  set (f := if first <=? 0 then 1 else first).
  pose proof (append_commands_spec database f 0 (c :: commands) Hok []) as H0.
  assert (forall i, is_Some (pipeline_bytes database f i (c :: commands))) as Hs.
  { clear H0. induction Hb as [|c' cs [b Hc] _ IH]; intros i; cbn [pipeline_bytes]; [by eexists|].
    rewrite (message_bytes_some _ _ _ Hc). apply Forall_cons in Hok as [_ Hok].
    destruct (IH Hok (i + 1)) as [x ->]. by eexists. }
  destruct (Hs 0) as [x Hx]. rewrite Hx in H0. rewrite H0. by eexists.
Qed.

(** C14: a pipeline: in whatever order the server answers and however the socket splits the octets, what is sent
    is the encoded batch, and the answers come back in the order of the commands, each the reply given under
    its command's request id. *)
Theorem pipeline_delivers database commands (c : client) replies inc out rest :
  rb_ok (m_ring_buffer c) -> m_is_closed c = false -> m_next_request_id c <= max_request_id ->
  0 < blen commands <= max_request_id ->
  Forall (fun cmd => document_ok cmd = true) commands ->
  Forall (fun cmd => is_Some (document_bytes (with_database cmd database))) commands ->
  let first := (reserveRequestIdBlock (blen commands) c).1 in
  Forall (fun r => reply_wire r.1 r.2 /\ blen r.2 <= rb_capacity (m_ring_buffer c)) replies ->
  map reply_id replies ≡ₚ seqZ first (blen commands) ->
  rb_view (m_ring_buffer c) ++ inc = concat (map snd replies) ++ rest ->
  exists batch, encodePipeline database first commands = inr batch /\
    forall evs, Forall ready evs -> blen batch + blen (concat (map snd replies)) <= blen evs ->
      exists responses c' inc' evs', pipeline database commands c (mkWorld inc out evs) =
          Returned (inr responses) c' (mkWorld inc' (out ++ batch) evs') /\
        length responses = length commands /\
        (forall i, 0 <= i < blen commands -> exists r, r ∈ replies /\ reply_id r = first + i /\
           responses !! Z.to_nat i = Some (fill_slot (empty_slot (first + i)) r.1)) /\
        rb_ok (m_ring_buffer c') /\ rb_view (m_ring_buffer c') ++ inc' = rest.
Proof.
  intros Hring Hopen Hnext Hn Hok Hb first Hw Hperm E.
  destruct (request_id_block (blen commands) c ltac:(lia) Hnext) as (Hf1 & Hf2).
  fold first in Hf1, Hf2. replace (Z.max 1 (blen commands)) with (blen commands) in Hf2 by lia.
  destruct (pipeline_encodes database first commands Hok Hb) as [batch Hbatch]. exists batch. split; [done|].
  intros evs Hev Hlen. unfold pipeline.
  rewrite Hopen, (proj2 (Z.eqb_neq (blen commands) 0)), (proj2 (Z.ltb_ge (2 ^ 31 - 1) _)) by (unfold max_request_id in *; lia).
  destruct (reserveRequestIdBlock (blen commands) c) as [f c1] eqn:Hres. cbn [fst] in first. subst first. rewrite Hbatch.
  assert (m_ring_buffer c1 = m_ring_buffer c) as Hr1.
  { unfold reserveRequestIdBlock in Hres. by injection Hres as _ <-. }
  unfold co_then at 1, sendSegments. cbn [incoming outgoing events].
  pose proof (blen_nonneg (concat (map snd replies))) as Hnn.
  destruct (send_delivers [batch] 0 evs c1 inc out) as (evs1 & -> & Hev1 & Hu1);
    [lia|done|cbn [concat]; rewrite app_nil_r; lia|].
  change (Z.to_nat 0) with 0%nat. rewrite drop_0. cbn [concat] in *. rewrite app_nil_r in *.
  pose proof (blen_nonneg batch) as Hnb.
  assert (Hlen' : length replies = length commands).
  { apply Permutation_length in Hperm. rewrite length_map, length_seqZ in Hperm. unfold blen in Hperm. lia. }
  rewrite <- Hlen'.
  destruct (replies_fill f (blen commands) replies [] (empty_responses f (blen commands)) c1 evs1 inc (out ++ batch) rest)
    as (responses & c' & inc' & evs' & Hrun & [Hl Hr] & (_ & _ & _ & _ & Hring' & _) & Hrest).
  - by rewrite Hr1.
  - apply Forall_forall. intros r Hin. apply (list_elem_of_fmap_2 reply_id) in Hin.
    rewrite Hperm in Hin. apply elem_of_seqZ in Hin. lia.
  - done.
  - cbn [app]. rewrite Hperm. apply NoDup_seqZ.
  - apply empty_responses_after; lia.
  - by rewrite Hr1.
  - by rewrite Hr1.
  - done.
  - lia.
  - exists responses, c', inc', evs'. split_and!; [exact Hrun|unfold blen in Hl; lia| |done|done].
    intros i Hi. destruct (Hr i Hi) as [(r & Hin & Hid & Hs)|[Hno _]]; [by exists r|].
    exfalso. assert (f + i ∈ map reply_id replies) as Hin by (rewrite Hperm; apply elem_of_seqZ; lia).
    apply list_elem_of_fmap in Hin as (r & Hid & Hin). by apply (Hno r Hin).
Qed.
End Proofs.

(** ** On concrete input *)

(** A server's answer to the request [id]. *)
Definition answer_bytes (id : Z) (d : MongoDocument) : bytes :=
  match document_bytes d with
  | Some b => put_le32 (blen b + 21) ++ put_le32 900 ++ put_le32 id ++ put_le32 kMongoOpMsg ++ put_le32 0 ++ [nul] ++ b
  | None => []
  end.

Definition answer_message (id : Z) (d : MongoDocument) : MongoMessage :=
  mkMessage (mkHeader (blen (answer_bytes id d)) 900 id kMongoOpMsg) d 0.

Definition ok_document (n : Z) : MongoDocument := [(bs "ok", value_double one_bits); (bs "n", value_int32 n)].
Definition error_document : MongoDocument :=
  [(bs "ok", value_double 0); (bs "code", value_int32 59); (bs "errmsg", value_string (bs "no such command"))].

Definition open_client (capacity : Z) : AsyncMongoClient MmapRingBufferImpl :=
  mkClient (new_mmap capacity) [] [] [] 1 false.

Definition find_users : MongoDocument := [(bs "find", value_string (bs "users"))].

Definition evs7 (n : nat) : list io_event := replicate n (Ready 7).

Lemma answer_wire id d :
  (blen (answer_bytes id d) <=? 200) = true -> (16 <=? blen (answer_bytes id d)) = true ->
  take 4 (answer_bytes id d) = put_le32 (blen (answer_bytes id d)) ->
  decodeMessage (answer_bytes id d) (blen (answer_bytes id d)) = Value (answer_message id d) ->
  reply_wire (answer_message id d) (answer_bytes id d) /\ blen (answer_bytes id d) <= 200.
Proof.
  intros Hl%Z.leb_le H16%Z.leb_le H4 Hd. split; [|done]. split; [|unfold kAsyncMaxMessageSize; lia|done].
  exists [], (drop 4 (answer_bytes id d)). rewrite <- H4. cbn [app]. by rewrite take_drop.
Qed.

Lemma request_ids_witness :
  let c := mkClient (new_mmap 8) [] [] [] (2 ^ 31 - 3) false in
  1 <= (reserveRequestIdBlock 5 c).1 /\ (reserveRequestIdBlock 5 c).1 = 1.
Proof.
  cbv zeta. split; [|vm_compute; reflexivity].
  apply (request_ids 5 (mkClient (new_mmap 8) [] [] [] (2 ^ 31 - 3) false)); unfold max_request_id; cbn; lia.
Defined.

Lemma command_delivers_witness :
  exists request, forall evs, Forall ready evs -> blen request + blen (answer_bytes 1 (ok_document 3)) <= blen evs ->
    exists c' inc' evs', command (bs "shop") find_users (open_client 200) (mkWorld (answer_bytes 1 (ok_document 3)) [] evs) =
      Returned (inr (mkReply (ok_document 3))) c' (mkWorld inc' request evs').
Proof.
  destruct (answer_wire 1 (ok_document 3)) as [Hw Hl]; [vm_compute; reflexivity..|].
  destruct (command_delivers (bs "shop") find_users (open_client 200) (answer_message 1 (ok_document 3))
    (answer_bytes 1 (ok_document 3)) (answer_bytes 1 (ok_document 3)) [] []) as (sent & request & _ & _ & Hrun).
  - apply ring_ok_empty.
  - reflexivity.
  - left. reflexivity.
  - reflexivity.
  - vm_compute. eexists. reflexivity.
  - exact Hw.
  - reflexivity.
  - rewrite app_nil_r. reflexivity.
  - exact Hl.
  - exists request. intros evs Hev Hlen. destruct (Hrun evs Hev Hlen) as (c' & inc' & evs' & Hrun' & _).
    exists c', inc', evs'. exact Hrun'.
Defined.

Lemma returned_inv {B A} (r : run_result B A) :
  (match r with Returned (inr _) _ _ => true | _ => false end) = true ->
  exists a c w, r = Returned (inr a) c w.
Proof. destruct r as [[e|a] c w|c w|]; try discriminate. eauto. Qed.

Lemma sample_run_returns :
  exists reply c' w',
    command (bs "shop") find_users (open_client 200) (mkWorld (answer_bytes 1 (ok_document 3)) [] (evs7 40)) =
    Returned (inr reply) c' w'.
Proof. apply returned_inv. vm_compute. reflexivity. Qed.

Lemma command_reply_is_its_own_witness :
  exists reply c' w',
    command (bs "shop") find_users (open_client 200) (mkWorld (answer_bytes 1 (ok_document 3)) [] (evs7 40)) =
      Returned (inr reply) c' w' /\
    exists message c1 evs inc out c2 w2,
      recv_loop RecvError evs c1 inc out = Returned (inr message) c2 w2 /\
      response_to (header message) = (nextRequestId (open_client 200)).1 /\
      reply = mkReply (body message) /\ reply_ok reply = true.
Proof.
  destruct sample_run_returns as (reply & c' & w' & E). exists reply, c', w'. split; [exact E|].
  exact (command_reply_is_its_own _ _ _ _ _ _ reply E).
Defined.

Lemma pipeline_delivers_witness :
  let replies := [(answer_message 2 error_document, answer_bytes 2 error_document);
                  (answer_message 1 (ok_document 3), answer_bytes 1 (ok_document 3))] in
  exists batch, encodePipeline (bs "shop") 1 [find_users; find_users] = inr batch /\
    forall evs, Forall ready evs -> blen batch + blen (concat (map snd replies)) <= blen evs ->
      exists responses c' inc' evs',
        pipeline (bs "shop") [find_users; find_users] (open_client 200)
          (mkWorld (concat (map snd replies)) [] evs) = Returned (inr responses) c' (mkWorld inc' batch evs') /\
        length responses = 2%nat.
Proof.
  intros replies.
  destruct (answer_wire 1 (ok_document 3)) as [Hw1 Hl1]; [vm_compute; reflexivity..|].
  destruct (answer_wire 2 error_document) as [Hw2 Hl2]; [vm_compute; reflexivity..|].
  destruct (pipeline_delivers (bs "shop") [find_users; find_users] (open_client 200) replies
    (concat (map snd replies)) [] []) as (batch & Hb & Hrun).
  - apply ring_ok_empty.
  - reflexivity.
  - vm_compute. discriminate.
  - vm_compute. split; [reflexivity|discriminate].
  - repeat constructor.
  - repeat constructor; vm_compute; eexists; reflexivity.
  - subst replies. apply Forall_cons. split; [split; [exact Hw2|exact Hl2]|].
    apply Forall_cons. split; [split; [exact Hw1|exact Hl1]|apply Forall_nil_2].
  - change (map reply_id replies) with [2; 1]. change (seqZ _ (blen [find_users; find_users])) with [1; 2].
    apply perm_swap.
  - rewrite app_nil_r. reflexivity.
  - exists batch. split; [exact Hb|]. intros evs Hev Hlen.
    destruct (Hrun evs Hev Hlen) as (responses & c' & inc' & evs' & Hr & Hlr & _). exists responses, c', inc', evs'.
    split; [exact Hr|exact Hlr].
Defined.

(** Answers out of order, one of them an error, in reads of seven octets. *)
Example pipeline_out_of_order :
  match pipeline (bs "shop") [find_users; find_users; [(bs "ping", value_int32 1)]] (open_client 200)
          (mkWorld (answer_bytes 3 (ok_document 0) ++ answer_bytes 1 (ok_document 5) ++ answer_bytes 2 error_document) [] (evs7 200)) with
  | Returned (inr responses) _ _ =>
      responses = [mkResponse 1 (Some (mkReply (ok_document 5))) None;
                   mkResponse 2 None (Some (ServerError (Some 59) (bs "no such command")));
                   mkResponse 3 (Some (mkReply (ok_document 0))) None]
  | _ => False
  end.
Proof. by vm_compute. Qed.

(** After a command that timed out the answers are one behind for good: each following command reads the
    answer to the one before it and fails. *)
Example late_reply_desyncs :
  let run c w := command (bs "shop") find_users c w in
  let next (r : run_result MmapRingBufferImpl MongoReply) :=
    match r with
    | Returned (inl e) c w => (Some e, c, w)
    | Returned (inr _) c w | Blocked c w => (None, c, w)
    | Broken => (None, open_client 0, mkWorld [] [] [])
    end in
  let answers w id evs := mkWorld (incoming w ++ answer_bytes id (ok_document id)) [] evs in
  let '(e1, c1, w1) := next (run (open_client 200) (mkWorld [] [] (Ready 999 :: [IoFails IoTimeout]))) in
  let w1 := mkWorld (incoming w1 ++ answer_bytes 1 (ok_document 1)) [] [] in
  let '(e2, c2, w2) := next (run c1 (answers w1 2 (evs7 60))) in
  let '(e3, c3, w3) := next (run c2 (answers w2 3 (evs7 60))) in
  [e1; e2; e3] = [Some Timeout; Some ResponseMismatch; Some ResponseMismatch].
Proof. by vm_compute. Qed.

(** A reply that the ring cannot hold is refused although it is far below [kAsyncMaxMessageSize], and stays in
    front: the next command fails the same way. *)
Example message_larger_than_ring :
  match command (bs "shop") find_users (open_client 40) (mkWorld (answer_bytes 1 (ok_document 3)) [] (evs7 60)) with
  | Returned (inl e) c w =>
      e = NoSpace /\
      match command (bs "shop") find_users c w with Returned (inl e) _ _ => e = NoSpace | _ => False end
  | _ => False
  end.
Proof. by vm_compute. Qed.

(** Errors before anything is sent. *)
Example refused_calls :
  let closed := mkClient (new_mmap 8) [] [] [] 1 true in
  let error {A} (r : run_result MmapRingBufferImpl A) :=
    match r with Returned (inl e) _ w => Some (e, outgoing w) | _ => None end in
  let w := mkWorld [] [] (evs7 3) in
  error (command (bs "db") find_users closed w) = Some (NotConnected, []) /\
  error (pipeline (bs "db") [] (open_client 8) w) = Some (EmptyPipeline, []) /\
  error (command (bs "db") [(bs "a" ++ [nul], value_null)] (open_client 8) w) = Some (EncodeError EmbeddedNul, []) /\
  error (command (bs "db") find_users (open_client 200) (mkWorld [] [] (Ready 99 :: [Eof]))) =
    Some (ConnectionClosed, match message_bytes 1 0 (with_database find_users (bs "db")) with Some x => x | None => [] end).
Proof. by vm_compute. Qed.
