(* ===== verification/Base64.v ===== *)
(** Base64, [galay-utils/encoding/base64.hpp]: the encoder into a buffer of the final size, with both
    alphabets and with line breaks (PEM, MIME), the decoder with and without line breaks, and the test whether
    a text can be decoded. The encoder is proved to be that of RFC 4648, stated on bits, the decoder to invert
    it through line breaks, and the test to say when the decoder gives up. *)
From Stdlib Require Import ZArith Lia List Bool.
From stdpp Require Import base list numbers option strings.
From S2P Require Import Prelude.
Open Scope Z_scope.

(** ** Tables *)

(** [base64_chars[url ? 1 : 0]]. *)
Definition base64_chars (url : bool) : bytes :=
  bs "ABCDEFGHIJKLMNOPQRSTUVWXYZabcdefghijklmnopqrstuvwxyz0123456789" ++ (if url then bs "-_" else bs "+/").

Definition decode_table : list Z :=
  [0xFF; 0xFF; 0xFF; 0xFF; 0xFF; 0xFF; 0xFF; 0xFF; 0xFF; 0xFF; 0xFF; 0xFF; 0xFF; 0xFF; 0xFF; 0xFF;
   0xFF; 0xFF; 0xFF; 0xFF; 0xFF; 0xFF; 0xFF; 0xFF; 0xFF; 0xFF; 0xFF; 0xFF; 0xFF; 0xFF; 0xFF; 0xFF;
   0xFF; 0xFF; 0xFF; 0xFF; 0xFF; 0xFF; 0xFF; 0xFF; 0xFF; 0xFF; 0xFF; 0x3E; 0xFF; 0x3E; 0xFF; 0x3F;
   0x34; 0x35; 0x36; 0x37; 0x38; 0x39; 0x3A; 0x3B; 0x3C; 0x3D; 0xFF; 0xFF; 0xFF; 0xFF; 0xFF; 0xFF;
   0xFF; 0x00; 0x01; 0x02; 0x03; 0x04; 0x05; 0x06; 0x07; 0x08; 0x09; 0x0A; 0x0B; 0x0C; 0x0D; 0x0E;
   0x0F; 0x10; 0x11; 0x12; 0x13; 0x14; 0x15; 0x16; 0x17; 0x18; 0x19; 0xFF; 0xFF; 0xFF; 0xFF; 0x3F;
   0xFF; 0x1A; 0x1B; 0x1C; 0x1D; 0x1E; 0x1F; 0x20; 0x21; 0x22; 0x23; 0x24; 0x25; 0x26; 0x27; 0x28;
   0x29; 0x2A; 0x2B; 0x2C; 0x2D; 0x2E; 0x2F; 0x30; 0x31; 0x32; 0x33; 0xFF; 0xFF; 0xFF; 0xFF; 0xFF;
   0xFF; 0xFF; 0xFF; 0xFF; 0xFF; 0xFF; 0xFF; 0xFF; 0xFF; 0xFF; 0xFF; 0xFF; 0xFF; 0xFF; 0xFF; 0xFF;
   0xFF; 0xFF; 0xFF; 0xFF; 0xFF; 0xFF; 0xFF; 0xFF; 0xFF; 0xFF; 0xFF; 0xFF; 0xFF; 0xFF; 0xFF; 0xFF;
   0xFF; 0xFF; 0xFF; 0xFF; 0xFF; 0xFF; 0xFF; 0xFF; 0xFF; 0xFF; 0xFF; 0xFF; 0xFF; 0xFF; 0xFF; 0xFF;
   0xFF; 0xFF; 0xFF; 0xFF; 0xFF; 0xFF; 0xFF; 0xFF; 0xFF; 0xFF; 0xFF; 0xFF; 0xFF; 0xFF; 0xFF; 0xFF;
   0xFF; 0xFF; 0xFF; 0xFF; 0xFF; 0xFF; 0xFF; 0xFF; 0xFF; 0xFF; 0xFF; 0xFF; 0xFF; 0xFF; 0xFF; 0xFF;
   0xFF; 0xFF; 0xFF; 0xFF; 0xFF; 0xFF; 0xFF; 0xFF; 0xFF; 0xFF; 0xFF; 0xFF; 0xFF; 0xFF; 0xFF; 0xFF;
   0xFF; 0xFF; 0xFF; 0xFF; 0xFF; 0xFF; 0xFF; 0xFF; 0xFF; 0xFF; 0xFF; 0xFF; 0xFF; 0xFF; 0xFF; 0xFF;
   0xFF; 0xFF; 0xFF; 0xFF; 0xFF; 0xFF; 0xFF; 0xFF; 0xFF; 0xFF; 0xFF; 0xFF; 0xFF; 0xFF; 0xFF; 0xFF].

Definition invalid_char : Z := 0xFF.

(** [std::isspace] in the "C" locale. *)
Definition is_decode_whitespace (c : byte) : bool :=
  (b2z c =? 32) || ((9 <=? b2z c) && (b2z c <=? 13)).

(** The table has an entry for every octet; the one for an octet of no meaning is [invalid_char]. *)
Definition pos_of_char (c : byte) : Z := nth (Z.to_nat (b2z c)) decode_table invalid_char.

(** ** Decoding *)

(** [char_array_4[i]] of an array of four, and [c != '=' && c != '.']. *)
Definition at4 (chunk : bytes) (i : nat) : byte := nth i chunk Byte.x00.
Definition not_fill (c : byte) : bool := negb (bool_decide (c = z2b 61)) && negb (bool_decide (c = z2b 46)).

Definition can_decode_chunk (char_array_4 : bytes) (chars_in_chunk : Z) : bool :=
  let pos i := pos_of_char (at4 char_array_4 i) in
  if chars_in_chunk =? 0 then true
  else if chars_in_chunk =? 1 then false
  else if (pos 0%nat =? invalid_char) || (pos 1%nat =? invalid_char) then false
  else if (2 <? chars_in_chunk) && not_fill (at4 char_array_4 2) then
    if pos 2%nat =? invalid_char then false
    else if (3 <? chars_in_chunk) && not_fill (at4 char_array_4 3) then negb (pos 3%nat =? invalid_char)
    else true
  else true.

(** What [append_decode_chunk] appends to [ret]; [None]: it returns false. *)
Definition append_decode_chunk (char_array_4 : bytes) (chars_in_chunk : Z) : option bytes :=
  let pos i := pos_of_char (at4 char_array_4 i) in
  if chars_in_chunk =? 0 then Some []
  else if chars_in_chunk =? 1 then None
  else
    let pos_of_char_0 := pos 0%nat in
    let pos_of_char_1 := pos 1%nat in
    if (pos_of_char_0 =? invalid_char) || (pos_of_char_1 =? invalid_char) then None
    else
      let emit_second := (2 <? chars_in_chunk) && not_fill (at4 char_array_4 2) in
      let pos_of_char_2 := if emit_second then pos 2%nat else 0 in
      if emit_second && (pos_of_char_2 =? invalid_char) then None
      else
        let emit_third := emit_second && (3 <? chars_in_chunk) && not_fill (at4 char_array_4 3) in
        let pos_of_char_3 := if emit_third then pos 3%nat else 0 in
        if emit_third && (pos_of_char_3 =? invalid_char) then None
        else
          Some ([z2b (Z.shiftl pos_of_char_0 2 + Z.shiftr (Z.land pos_of_char_1 0x30) 4)] ++
                (if emit_second
                 then [z2b (Z.shiftl (Z.land pos_of_char_1 0x0F) 4 + Z.shiftr (Z.land pos_of_char_2 0x3C) 2)]
                 else []) ++
                (if emit_third then [z2b (Z.shiftl (Z.land pos_of_char_2 0x03) 6 + pos_of_char_3)] else [])).

(** [unsigned char char_array_4[4] = {}] with the characters left copied in. *)
Definition zero_array : bytes := replicate 4 Byte.x00.
Definition last_chunk (rest : bytes) : bytes := write_at zero_array 0 rest.

(** The loop over chunks of four characters of the text as it stands. *)
Fixpoint decode_chunks (encoded_string ret : bytes) : option bytes :=
  match encoded_string with
  | [] => Some ret
  | a :: b :: c :: d :: rest =>
      match append_decode_chunk [a; b; c; d] 4 with
      | Some out => decode_chunks rest (ret ++ out)
      | None => None
      end
  | rest =>
      match append_decode_chunk (last_chunk rest) (blen rest) with
      | Some out => Some (ret ++ out)
      | None => None
      end
  end.

(** The loop that leaves white space out; the array keeps what it held of the chunk before. *)
Fixpoint decode_skipping (encoded_string char_array_4 : bytes) (chars_in_chunk : nat) (ret : bytes) : option bytes :=
  match encoded_string with
  | [] =>
      match append_decode_chunk char_array_4 (Z.of_nat chars_in_chunk) with
      | Some out => Some (ret ++ out)
      | None => None
      end
  | ch :: rest =>
      if is_decode_whitespace ch then decode_skipping rest char_array_4 chars_in_chunk ret
      else
        let char_array_4 := <[chars_in_chunk := ch]> char_array_4 in
        if decide (S chars_in_chunk = 4)%nat then
          match append_decode_chunk char_array_4 4 with
          | Some out => decode_skipping rest char_array_4 0 (ret ++ out)
          | None => None
          end
        else decode_skipping rest char_array_4 (S chars_in_chunk) ret
  end.

Definition decode_loop (encoded_string : bytes) (remove_linebreaks : bool) : option bytes :=
  match encoded_string with
  | [] => Some []
  | _ =>
      if remove_linebreaks then decode_skipping encoded_string zero_array 0 []
      else decode_chunks encoded_string []
  end.

(** A text that cannot be decoded gives the empty string. *)
Definition Base64Decode (s : bytes) (remove_linebreaks : bool) : bytes := default [] (decode_loop s remove_linebreaks).

Fixpoint can_decode_chunks (encoded_string : bytes) : bool :=
  match encoded_string with
  | [] => true
  | a :: b :: c :: d :: rest => can_decode_chunk [a; b; c; d] 4 && can_decode_chunks rest
  | rest => can_decode_chunk (last_chunk rest) (blen rest)
  end.

Fixpoint can_decode_skipping (encoded_string char_array_4 : bytes) (chars_in_chunk : nat) : bool :=
  match encoded_string with
  | [] => can_decode_chunk char_array_4 (Z.of_nat chars_in_chunk)
  | ch :: rest =>
      if is_decode_whitespace ch then can_decode_skipping rest char_array_4 chars_in_chunk
      else
        let char_array_4 := <[chars_in_chunk := ch]> char_array_4 in
        if decide (S chars_in_chunk = 4)%nat then
          can_decode_chunk char_array_4 4 && can_decode_skipping rest char_array_4 0
        else can_decode_skipping rest char_array_4 (S chars_in_chunk)
  end.

Definition Base64CanDecode (s : bytes) (remove_linebreaks : bool) : bool :=
  match s with
  | [] => true
  | _ =>
      if remove_linebreaks then can_decode_skipping s zero_array 0
      else if blen s mod 4 =? 1 then false
      else can_decode_chunks s
  end.

(** ** Encoding *)

(** [base64_chars_selected[i]] and [ret[output_pos++] = c; ...]; [None]: outside the array. *)
Definition char_at (url : bool) (i : Z) : option byte := base64_chars url !! Z.to_nat i.

Fixpoint put_chars (ret : bytes) (output_pos : nat) (chars : list (option byte)) : option (bytes * nat) :=
  match chars with
  | [] => Some (ret, output_pos)
  | c :: chars =>
      match c with
      | Some c =>
          if decide (output_pos < length ret)%nat then put_chars (<[output_pos := c]> ret) (S output_pos) chars
          else None
      | None => None
      end
  end.

(** The loop and what follows it. *)
Fixpoint encode_groups (url : bool) (bytes_to_encode ret : bytes) (output_pos : nat) : option bytes :=
  let char_at := char_at url in
  match bytes_to_encode with
  | x :: y :: z :: rest =>
      let first := b2z x in
      let second := b2z y in
      let third := b2z z in
      match put_chars ret output_pos
              [char_at (Z.shiftr (Z.land first 0xFC) 2);
               char_at (Z.shiftl (Z.land first 0x03) 4 + Z.shiftr (Z.land second 0xF0) 4);
               char_at (Z.shiftl (Z.land second 0x0F) 2 + Z.shiftr (Z.land third 0xC0) 6);
               char_at (Z.land third 0x3F)] with
      | Some (ret, output_pos) => encode_groups url rest ret output_pos
      | None => None
      end
  | [x] =>
      let first := b2z x in
      fst <$> put_chars ret output_pos
        [char_at (Z.shiftr (Z.land first 0xFC) 2); char_at (Z.shiftl (Z.land first 0x03) 4);
         Some (z2b 61); Some (z2b 61)]
  | [x; y] =>
      let first := b2z x in
      let second := b2z y in
      fst <$> put_chars ret output_pos
        [char_at (Z.shiftr (Z.land first 0xFC) 2);
         char_at (Z.shiftl (Z.land first 0x03) 4 + Z.shiftr (Z.land second 0xF0) 4);
         char_at (Z.shiftl (Z.land second 0x0F) 2); Some (z2b 61)]
  | [] => Some ret
  end.

Definition Base64Encode (data : bytes) (url : bool) : option bytes :=
  let encoded_size := (blen data + 2) / 3 * 4 in
  encode_groups url data (replicate (Z.to_nat encoded_size) Byte.x00) 0.

(** [while (pos < str.length())]; a turn takes at least one character. *)
Fixpoint break_lines (turns : nat) (distance : nat) (str : bytes) : option bytes :=
  match str with
  | [] => Some []
  | _ =>
      match turns with
      | O => None
      | S turns =>
          let chunk := take distance str in
          let rest := drop distance str in
          match break_lines turns distance rest with
          | Some result => Some (chunk ++ (match rest with [] => [] | _ => [z2b 10] end) ++ result)
          | None => None
          end
      end
  end.

Definition insert_linebreaks (str : bytes) (distance : Z) : option bytes :=
  if (blen str =? 0) || (distance =? 0) then Some str
  else
    let num_breaks := (blen str - 1) / distance in
    if num_breaks =? 0 then Some str
    else break_lines (length str) (Z.to_nat distance) str.

Definition encode_with_line_breaks (line_length : Z) (s : bytes) : option bytes :=
  match Base64Encode s false with Some encoded => insert_linebreaks encoded line_length | None => None end.
Definition Base64EncodePem (s : bytes) : option bytes := encode_with_line_breaks 64 s.
Definition Base64EncodeMime (s : bytes) : option bytes := encode_with_line_breaks 76 s.

(** ** Encoding, as RFC 4648 describes it: groups of six bits *)

Definition bits_msb (b : byte) : list bool := map (fun i => Z.testbit (b2z b) (7 - i)) (seqZ 0 8).

Definition bits_number (bits : list bool) : Z := fold_left (fun n bit => 2 * n + Z.b2z bit) bits 0.

(** Groups of six; the last one filled up with zeros. *)
Fixpoint sextets (bits : list bool) : list Z :=
  match bits with
  | [] => []
  | b0 :: b1 :: b2 :: b3 :: b4 :: b5 :: rest => bits_number [b0; b1; b2; b3; b4; b5] :: sextets rest
  | rest => [bits_number (take 6 (rest ++ replicate 6 false))]
  end.

Definition sym (url : bool) (i : Z) : byte := default Byte.x00 (char_at url i).

Definition rfc4648 (url : bool) (data : bytes) : bytes :=
  map (sym url) (sextets (concat (map bits_msb data))) ++
  replicate (Z.to_nat ((3 - blen data mod 3) mod 3)) (z2b 61).

(** ** Facts of the tables, by evaluation *)

Lemma forall_byte (P : byte -> bool) : forallb P (map z2b (seqZ 0 256)) = true -> forall b, P b = true.
Proof.
  rewrite forallb_forall. intros H b. apply H, in_map_iff. exists (b2z b). split; [apply z2b_b2z|].
  apply list_elem_of_In, elem_of_seqZ. pose proof (b2z_range b). lia.
Qed.

Lemma forall_sextet (P : Z -> bool) : forallb P (seqZ 0 64) = true -> forall i, 0 <= i < 64 -> P i = true.
Proof. rewrite forallb_forall. intros H i Hi. apply H, list_elem_of_In, elem_of_seqZ. lia. Qed.

Lemma char_at_sym url i : 0 <= i < 64 -> char_at url i = Some (sym url i).
Proof.
  intros Hi. unfold sym. destruct (char_at url i) eqn:E; [done|]. exfalso.
  assert (forall url, forallb (fun i => bool_decide (is_Some (char_at url i))) (seqZ 0 64) = true) as Hall
    by (intros []; vm_compute; reflexivity).
  pose proof (forall_sextet _ (Hall url) i Hi) as Hs. cbv beta in Hs. rewrite E in Hs. by apply bool_decide_eq_true, is_Some_None in Hs.
Qed.

Lemma sym_facts url i : 0 <= i < 64 ->
  pos_of_char (sym url i) = i /\ not_fill (sym url i) = true /\ is_decode_whitespace (sym url i) = false.
Proof.
  intros Hi.
  assert (forall url, forallb (fun i => (pos_of_char (sym url i) =? i) && not_fill (sym url i) &&
                                        negb (is_decode_whitespace (sym url i))) (seqZ 0 64) = true) as Hall
    by (intros []; vm_compute; reflexivity).
  pose proof (forall_sextet _ (Hall url) i Hi) as Hs. cbv beta in Hs.
  apply andb_prop in Hs as [Hs Hw]. apply andb_prop in Hs as [Hp Hf].
  split_and!; [lia|done|by apply negb_true_iff].
Qed.

(** The bit operations of the two loops are divisions. *)
Lemma byte_parts b (x := b2z b) :
  (Z.shiftr (Z.land x 0xFC) 2 = x / 4 /\ Z.land x 0x03 = x mod 4) /\
  (Z.shiftr (Z.land x 0xF0) 4 = x / 16 /\ Z.land x 0x0F = x mod 16) /\
  (Z.shiftr (Z.land x 0xC0) 6 = x / 64 /\ Z.land x 0x3F = x mod 64).
Proof.
  pose proof (forall_byte (fun b => let x := b2z b in
    ((Z.shiftr (Z.land x 0xFC) 2 =? x / 4) && (Z.land x 0x03 =? x mod 4)) &&
    ((Z.shiftr (Z.land x 0xF0) 4 =? x / 16) && (Z.land x 0x0F =? x mod 16)) &&
    ((Z.shiftr (Z.land x 0xC0) 6 =? x / 64) && (Z.land x 0x3F =? x mod 64))) ltac:(vm_compute; reflexivity) b) as H.
  cbv beta zeta in H. rewrite !andb_true_iff, !Z.eqb_eq in H. tauto.
Qed.

Lemma sextet_parts s : 0 <= s < 64 ->
  Z.shiftr (Z.land s 0x30) 4 = s / 16 /\ Z.land s 0x0F = s mod 16 /\
  Z.shiftr (Z.land s 0x3C) 2 = s / 4 /\ Z.land s 0x03 = s mod 4.
Proof.
  intros Hs. pose proof (forall_sextet (fun s =>
    ((Z.shiftr (Z.land s 0x30) 4 =? s / 16) && (Z.land s 0x0F =? s mod 16)) &&
    ((Z.shiftr (Z.land s 0x3C) 2 =? s / 4) && (Z.land s 0x03 =? s mod 4))) ltac:(vm_compute; reflexivity) s Hs) as H.
  rewrite !andb_true_iff, !Z.eqb_eq in H. tauto.
Qed.

(** ** The text of a group *)

Definition head1 (x : byte) : Z := b2z x / 4.
Definition head2 (x y : byte) : Z := b2z x mod 4 * 16 + b2z y / 16.
Definition head3 (y z : byte) : Z := b2z y mod 16 * 4 + b2z z / 64.
Definition head4 (z : byte) : Z := b2z z mod 64.

Fixpoint encode_text (url : bool) (data : bytes) : bytes :=
  match data with
  | x :: y :: z :: rest =>
      [sym url (head1 x); sym url (head2 x y); sym url (head3 y z); sym url (head4 z)] ++ encode_text url rest
  | [x] => [sym url (head1 x); sym url (head2 x Byte.x00); z2b 61; z2b 61]
  | [x; y] => [sym url (head1 x); sym url (head2 x y); sym url (head3 y Byte.x00); z2b 61]
  | [] => []
  end.

(** Induction three octets at a time. *)
Lemma triple_ind (P : bytes -> Prop) :
  P [] -> (forall x, P [x]) -> (forall x y, P [x; y]) ->
  (forall x y z rest, P rest -> P (x :: y :: z :: rest)) -> forall data, P data.
Proof.
  intros H0 H1 H2 H3. fix go 1. intros [|x [|y [|z rest]]]; [done|done|done|]. apply H3, go.
Qed.

Lemma heads_range x y z :
  0 <= head1 x < 64 /\ 0 <= head2 x y < 64 /\ 0 <= head3 y z < 64 /\ 0 <= head4 z < 64.
Proof.
  unfold head1, head2, head3, head4. pose proof (b2z_range x). pose proof (b2z_range y). pose proof (b2z_range z).
  Z.div_mod_to_equations. lia.
Qed.

Lemma put_chars_fill chars : forall pre k,
  put_chars (pre ++ replicate (length chars + k) Byte.x00) (length pre) (map Some chars) =
  Some (pre ++ chars ++ replicate k Byte.x00, (length pre + length chars)%nat).
Proof.
  induction chars as [|c chars IH]; intros pre k; simpl; [by rewrite Nat.add_0_r|].
  rewrite decide_True by (rewrite length_app; simpl; lia).
  rewrite insert_app_r_alt, Nat.sub_diag by lia. simpl.
  replace (pre ++ c :: replicate (length chars + k) Byte.x00)
    with ((pre ++ [c]) ++ replicate (length chars + k) Byte.x00) by (by rewrite <- app_assoc).
  replace (S (length pre)) with (length (pre ++ [c])) by (rewrite length_app; simpl; lia).
  rewrite IH, <- !app_assoc, length_app. simpl. do 2 f_equal. lia.
Qed.

Lemma put_chars_group pre chars cs k n :
  cs = map Some chars -> n = (length chars + k)%nat ->
  put_chars (pre ++ replicate n Byte.x00) (length pre) cs =
  Some ((pre ++ chars) ++ replicate k Byte.x00, length (pre ++ chars)).
Proof. intros -> ->. by rewrite put_chars_fill, <- app_assoc, length_app. Qed.

Lemma encode_groups_text url data : forall pre,
  encode_groups url data (pre ++ replicate (length (encode_text url data)) Byte.x00) (length pre) =
  Some (pre ++ encode_text url data).
Proof.
  pose proof byte_parts as P.
  induction data as [|x|x y|x y z rest IH] using triple_ind; intros pre; cbn [encode_groups encode_text].
  - done.
  - destruct (P x) as ((-> & ->) & _). destruct (heads_range x Byte.x00 Byte.x00) as (? & R & _).
    rewrite (put_chars_group _ [sym url (head1 x); sym url (head2 x Byte.x00); z2b 61; z2b 61] _ 0) by
      (simpl; rewrite <- ?char_at_sym by done; unfold head1, head2; rewrite ?Z.shiftl_mul_pow2 by lia;
       try change (b2z Byte.x00 / 16) with 0; rewrite ?Z.add_0_r; done).
    cbn [fmap option_fmap option_map fst]. simpl replicate. by rewrite app_nil_r.
  - destruct (P x) as ((-> & ->) & _). destruct (P y) as (_ & (-> & ->) & _).
    destruct (heads_range x y Byte.x00) as (? & ? & R & _).
    rewrite (put_chars_group _ [sym url (head1 x); sym url (head2 x y); sym url (head3 y Byte.x00); z2b 61] _ 0) by
      (simpl; rewrite <- ?char_at_sym by done; unfold head1, head2, head3; rewrite ?Z.shiftl_mul_pow2 by lia;
       try change (b2z Byte.x00 / 64) with 0; rewrite ?Z.add_0_r; done).
    cbn [fmap option_fmap option_map fst]. simpl replicate. by rewrite app_nil_r.
  - destruct (P x) as ((-> & ->) & _). destruct (P y) as (_ & (-> & ->) & _).
    destruct (P z) as (_ & _ & (-> & ->)). destruct (heads_range x y z) as (? & ? & ? & ?).
    rewrite (put_chars_group _ [sym url (head1 x); sym url (head2 x y); sym url (head3 y z); sym url (head4 z)] _
               (length (encode_text url rest))) by
      (simpl; rewrite <- ?char_at_sym by done; unfold head1, head2, head3, head4;
       rewrite ?Z.shiftl_mul_pow2 by lia; done).
    rewrite IH, <- app_assoc. done.
Qed.

Lemma encode_text_length url data : blen (encode_text url data) = (blen data + 2) / 3 * 4.
Proof.
  induction data as [|x|x y|x y z rest IH] using triple_ind; [reflexivity..|].
  cbn [encode_text]. rewrite blen_app, IH, !blen_cons, blen_nil.
  replace (1 + (1 + (1 + blen rest)) + 2) with (blen rest + 2 + 1 * 3) by lia.
  rewrite Z.div_add by lia. lia.
Qed.

Lemma Base64Encode_text data url : Base64Encode data url = Some (encode_text url data).
Proof.
  unfold Base64Encode. rewrite <- encode_text_length with (url := url).
  unfold blen. rewrite Nat2Z.id. apply (encode_groups_text url data []).
Qed.

(** ** Bits and heads *)

Lemma bits_msb_number b (t := fun i => Z.b2z (Z.testbit (b2z b) i)) :
  b2z b / 4 = ((((t 7 * 2 + t 6) * 2 + t 5) * 2 + t 4) * 2 + t 3) * 2 + t 2 /\
  b2z b mod 4 = t 1 * 2 + t 0 /\
  b2z b / 16 = ((t 7 * 2 + t 6) * 2 + t 5) * 2 + t 4 /\ b2z b mod 16 = ((t 3 * 2 + t 2) * 2 + t 1) * 2 + t 0 /\
  b2z b / 64 = t 7 * 2 + t 6 /\
  b2z b mod 64 = ((((t 5 * 2 + t 4) * 2 + t 3) * 2 + t 2) * 2 + t 1) * 2 + t 0.
Proof.
  pose proof (forall_byte (fun b => let t := fun i => Z.b2z (Z.testbit (b2z b) i) in
    (b2z b / 4 =? ((((t 7 * 2 + t 6) * 2 + t 5) * 2 + t 4) * 2 + t 3) * 2 + t 2) &&
    (b2z b mod 4 =? t 1 * 2 + t 0) &&
    (b2z b / 16 =? ((t 7 * 2 + t 6) * 2 + t 5) * 2 + t 4) &&
    (b2z b mod 16 =? ((t 3 * 2 + t 2) * 2 + t 1) * 2 + t 0) &&
    (b2z b / 64 =? t 7 * 2 + t 6) &&
    (b2z b mod 64 =? ((((t 5 * 2 + t 4) * 2 + t 3) * 2 + t 2) * 2 + t 1) * 2 + t 0))
    ltac:(vm_compute; reflexivity) b) as H.
  cbv beta zeta in H. rewrite !andb_true_iff, !Z.eqb_eq in H. subst t. tauto.
Qed.

Lemma bits_number_six b0 b1 b2 b3 b4 b5 : bits_number [b0; b1; b2; b3; b4; b5] =
  32 * Z.b2z b0 + 16 * Z.b2z b1 + 8 * Z.b2z b2 + 4 * Z.b2z b3 + 2 * Z.b2z b4 + Z.b2z b5.
Proof. unfold bits_number. simpl fold_left. lia. Qed.

Lemma bits_msb_list b (t := Z.testbit (b2z b)) : bits_msb b = [t 7; t 6; t 5; t 4; t 3; t 2; t 1; t 0].
Proof. reflexivity. Qed.

Lemma sextets_triple x y z bits :
  sextets (bits_msb x ++ bits_msb y ++ bits_msb z ++ bits) =
  [head1 x; head2 x y; head3 y z; head4 z] ++ sextets bits.
Proof.
  destruct (bits_msb_number x) as (X1 & X2 & _), (bits_msb_number y) as (_ & _ & Y1 & Y2 & _),
    (bits_msb_number z) as (_ & _ & _ & _ & Z1 & Z2).
  unfold head1, head2, head3, head4. rewrite X1, X2, Y1, Y2, Z1, Z2, !bits_msb_list.
  cbn [app sextets]. rewrite !bits_number_six. f_equal; [lia|]. f_equal; [lia|]. f_equal; [lia|]. f_equal. lia.
Qed.

Lemma sextets_single x : sextets (bits_msb x ++ []) = [head1 x; head2 x Byte.x00].
Proof.
  destruct (bits_msb_number x) as (X1 & X2 & _).
  unfold head1, head2. rewrite X1, X2, !bits_msb_list. change (b2z Byte.x00 / 16) with 0.
  cbn [app sextets take replicate]. rewrite !bits_number_six. f_equal; [lia|]. f_equal. simpl Z.b2z. lia.
Qed.

Lemma sextets_pair x y :
  sextets (bits_msb x ++ bits_msb y ++ []) = [head1 x; head2 x y; head3 y Byte.x00].
Proof.
  destruct (bits_msb_number x) as (X1 & X2 & _), (bits_msb_number y) as (_ & _ & Y1 & Y2 & _).
  unfold head1, head2, head3. rewrite X1, X2, Y1, Y2, !bits_msb_list. change (b2z Byte.x00 / 64) with 0.
  cbn [app sextets take replicate]. rewrite !bits_number_six. f_equal; [lia|]. f_equal; [lia|]. f_equal.
  simpl Z.b2z. lia.
Qed.

Lemma rfc4648_text url data : rfc4648 url data = encode_text url data.
Proof.
  unfold rfc4648. induction data as [|x|x y|x y z rest IH] using triple_ind.
  - reflexivity.
  - change (concat (map bits_msb [x])) with (bits_msb x ++ []). rewrite sextets_single. reflexivity.
  - change (concat (map bits_msb [x; y])) with (bits_msb x ++ bits_msb y ++ []). rewrite sextets_pair. reflexivity.
  - change (concat (map bits_msb (x :: y :: z :: rest)))
      with (bits_msb x ++ bits_msb y ++ bits_msb z ++ concat (map bits_msb rest)).
    rewrite !blen_cons, sextets_triple.
    replace (1 + (1 + (1 + blen rest))) with (blen rest + 1 * 3) by lia. rewrite Z.mod_add by lia.
    rewrite map_app, <- app_assoc, IH. reflexivity.
Qed.

(** ** Decoding inverts encoding *)

(** Decides the tests on how full a chunk is, which are on constants. *)
Ltac chunk_tests :=
  change (not_fill (z2b 61)) with false;
  cbn [andb orb Z.ltb Z.compare Pos.compare Pos.compare_cont Z.eqb Pos.eqb].

Lemma append_full a b c d :
  0 <= a < 64 -> 0 <= b < 64 -> 0 <= c < 64 -> 0 <= d < 64 -> forall url,
  append_decode_chunk [sym url a; sym url b; sym url c; sym url d] 4 =
  Some [z2b (a * 4 + b / 16); z2b (b mod 16 * 16 + c / 4); z2b (c mod 4 * 64 + d)].
Proof.
  intros Ha Hb Hc Hd url.
  destruct (sym_facts url a Ha) as (Pa & _), (sym_facts url b Hb) as (Pb & _),
    (sym_facts url c Hc) as (Pc & Fc & _), (sym_facts url d Hd) as (Pd & Fd & _).
  destruct (sextet_parts b Hb) as (B1 & B2 & _), (sextet_parts c Hc) as (_ & _ & C1 & C2).
  unfold append_decode_chunk, at4. simpl nth. rewrite Pa, Pb, Pc, Pd, Fc, Fd. chunk_tests.
  rewrite B1, B2, C1, C2, !Z.shiftl_mul_pow2 by lia. unfold invalid_char.
  do 4 (rewrite (proj2 (Z.eqb_neq _ 255)) by lia). reflexivity.
Qed.

Lemma append_two a b : 0 <= a < 64 -> 0 <= b < 64 -> forall url,
  append_decode_chunk [sym url a; sym url b; z2b 61; z2b 61] 4 = Some [z2b (a * 4 + b / 16)].
Proof.
  intros Ha Hb url. destruct (sym_facts url a Ha) as (Pa & _), (sym_facts url b Hb) as (Pb & _).
  destruct (sextet_parts b Hb) as (B1 & _).
  unfold append_decode_chunk, at4. simpl nth. rewrite Pa, Pb. chunk_tests. rewrite B1, !Z.shiftl_mul_pow2 by lia. unfold invalid_char.
  do 2 (rewrite (proj2 (Z.eqb_neq _ 255)) by lia). reflexivity.
Qed.

Lemma append_three a b c : 0 <= a < 64 -> 0 <= b < 64 -> 0 <= c < 64 -> forall url,
  append_decode_chunk [sym url a; sym url b; sym url c; z2b 61] 4 =
  Some [z2b (a * 4 + b / 16); z2b (b mod 16 * 16 + c / 4)].
Proof.
  intros Ha Hb Hc url. destruct (sym_facts url a Ha) as (Pa & _), (sym_facts url b Hb) as (Pb & _),
    (sym_facts url c Hc) as (Pc & Fc & _).
  destruct (sextet_parts b Hb) as (B1 & B2 & _), (sextet_parts c Hc) as (_ & _ & C1 & _).
  unfold append_decode_chunk, at4. simpl nth. rewrite Pa, Pb, Pc, Fc. chunk_tests.
  rewrite B1, B2, C1, !Z.shiftl_mul_pow2 by lia.
  unfold invalid_char. do 3 (rewrite (proj2 (Z.eqb_neq _ 255)) by lia). reflexivity.
Qed.

(** The octets the heads came from. *)
Lemma heads_join x y z :
  z2b (head1 x * 4 + head2 x y / 16) = x /\ z2b (head2 x y mod 16 * 16 + head3 y z / 4) = y /\
  z2b (head3 y z mod 4 * 64 + head4 z) = z.
Proof.
  assert (forall b n, n = b2z b -> z2b n = b) as J by (intros b n ->; apply z2b_b2z).
  unfold head1, head2, head3, head4.
  pose proof (b2z_range x). pose proof (b2z_range y). pose proof (b2z_range z).
  split_and!; apply J; Z.div_mod_to_equations; lia.
Qed.

Lemma decode_encode_text url data : forall ret, decode_chunks (encode_text url data) ret = Some (ret ++ data).
Proof.
  induction data as [|x|x y|x y z rest IH] using triple_ind; intros ret; cbn [encode_text app decode_chunks].
  - by rewrite app_nil_r.
  - destruct (heads_range x Byte.x00 Byte.x00) as (? & ? & _).
    destruct (heads_join x Byte.x00 Byte.x00) as (E & _). rewrite append_two, E by done. done.
  - destruct (heads_range x y Byte.x00) as (? & ? & ? & _).
    destruct (heads_join x y Byte.x00) as (E1 & E2 & _). rewrite append_three, E1, E2 by done. done.
  - destruct (heads_range x y z) as (? & ? & ? & ?). destruct (heads_join x y z) as (E1 & E2 & E3).
    rewrite append_full, E1, E2, E3 by done. rewrite IH, <- app_assoc. done.
Qed.

(** ** White space, and the test *)

Definition dense (s : bytes) : bytes := List.filter (fun c => negb (is_decode_whitespace c)) s.

Lemma can_decode_chunk_spec chunk n :
  can_decode_chunk chunk n = match append_decode_chunk chunk n with Some _ => true | None => false end.
Proof.
  unfold can_decode_chunk, append_decode_chunk.
  destruct (n =? 0); [done|]. destruct (n =? 1); [done|].
  destruct ((pos_of_char (at4 chunk 0) =? invalid_char) || (pos_of_char (at4 chunk 1) =? invalid_char)); [done|].
  destruct ((2 <? n) && not_fill (at4 chunk 2)); [|done]. cbn [andb].
  destruct (pos_of_char (at4 chunk 2) =? invalid_char); [done|].
  destruct ((3 <? n) && not_fill (at4 chunk 3)); [|done].
  by destruct (pos_of_char (at4 chunk 3) =? invalid_char).
Qed.

(** Induction four characters at a time. *)
Lemma quad_ind (P : bytes -> Prop) :
  P [] -> (forall a, P [a]) -> (forall a b, P [a; b]) -> (forall a b c, P [a; b; c]) ->
  (forall a b c d rest, P rest -> P (a :: b :: c :: d :: rest)) -> forall s, P s.
Proof.
  intros H0 H1 H2 H3 H4. fix go 1. intros [|a [|b [|c [|d rest]]]]; [done|done|done|done|]. apply H4, go.
Qed.

Lemma can_decode_chunks_spec s : forall ret,
  can_decode_chunks s = match decode_chunks s ret with Some _ => true | None => false end.
Proof.
  induction s as [|a|a b|a b c|a b c d rest IH] using quad_ind; intros ret; cbn [can_decode_chunks decode_chunks];
    rewrite ?can_decode_chunk_spec; [done|by destruct append_decode_chunk..|].
  destruct append_decode_chunk as [out|]; [apply IH|done].
Qed.

Lemma odd_length_fails s : forall ret, blen s mod 4 = 1 -> decode_chunks s ret = None.
Proof.
  induction s as [|a|a b|a b c|a b c d rest IH] using quad_ind; intros ret; cbn [decode_chunks]; try done.
  rewrite !blen_cons. replace (1 + (1 + (1 + (1 + blen rest)))) with (blen rest + 1 * 4) by lia.
  rewrite Z.mod_add by lia. intros. destruct append_decode_chunk; auto.
Qed.

Lemma append_stale a b c d : append_decode_chunk [a; b; c; d] 3 = append_decode_chunk (last_chunk [a; b; c]) 3.
Proof.
  change (last_chunk [a; b; c]) with [a; b; c; Byte.x00]. unfold append_decode_chunk.
  change (at4 [a; b; c; Byte.x00] 0) with (at4 [a; b; c; d] 0). change (at4 [a; b; c; Byte.x00] 1) with (at4 [a; b; c; d] 1).
  change (at4 [a; b; c; Byte.x00] 2) with (at4 [a; b; c; d] 2).
  change (3 <? 3) with false. rewrite !andb_false_r. reflexivity.
Qed.

(** The loops that skip white space do what the others do without it. *)
Lemma skipping_dense s : forall chunk n ret, length chunk = 4%nat -> (n < 4)%nat ->
  decode_skipping s chunk n ret = decode_chunks (take n chunk ++ dense s) ret /\
  can_decode_skipping s chunk n = can_decode_chunks (take n chunk ++ dense s).
Proof.
  induction s as [|ch rest IH]; intros chunk n ret Hl Hn.
  - destruct chunk as [|a [|b [|c [|d [|]]]]]; try done.
    destruct n as [|[|[|[|n]]]]; [|split; reflexivity|split; reflexivity| |lia].
    2: { cbn [decode_skipping decode_chunks take app dense List.filter can_decode_skipping can_decode_chunks].
         change (Z.of_nat 3) with 3. change (blen [a; b; c]) with 3. rewrite !can_decode_chunk_spec.
         by rewrite (append_stale a b c d). }
    cbn [decode_skipping decode_chunks take app dense List.filter can_decode_skipping can_decode_chunks].
    split; [|done]. transitivity (Some (ret ++ [])); [done|by rewrite app_nil_r].
  - cbn [decode_skipping can_decode_skipping dense List.filter].
    destruct (is_decode_whitespace ch); cbn [negb]; [by apply IH|].
    destruct chunk as [|a [|b [|c [|d [|]]]]]; try done.
    destruct n as [|[|[|[|n]]]]; [| | | |lia].
    + rewrite !decide_False by lia. apply (IH [ch; b; c; d] 1%nat ret); simpl; lia.
    + rewrite !decide_False by lia. apply (IH [a; ch; c; d] 2%nat ret); simpl; lia.
    + rewrite !decide_False by lia. apply (IH [a; b; ch; d] 3%nat ret); simpl; lia.
    + rewrite !decide_True by lia. cbn [insert list_insert take app decode_chunks can_decode_chunks].
      destruct append_decode_chunk as [out|] eqn:E.
      * destruct (IH [a; b; c; ch] 0%nat (ret ++ out)) as [E1 E2]; [done|lia|]. by rewrite E1, E2.
      * by rewrite can_decode_chunk_spec, E.
Qed.

(** [Base64CanDecode] says whether the decoder, called the same way, gives up. *)
Theorem can_decode_says s remove_linebreaks :
  Base64CanDecode s remove_linebreaks = match decode_loop s remove_linebreaks with Some _ => true | None => false end.
Proof.
  unfold Base64CanDecode, decode_loop. destruct s as [|c s]; [done|]. set (t := c :: s).
  destruct remove_linebreaks.
  - destruct (skipping_dense t zero_array 0 []) as [-> ->]; [done|lia|]. apply can_decode_chunks_spec.
  - destruct (Z.eqb_spec (blen t mod 4) 1) as [E|_]; [by rewrite odd_length_fails|]. apply can_decode_chunks_spec.
Qed.

Lemma decode_loop_dense s : decode_loop s true = decode_chunks (dense s) [].
Proof.
  unfold decode_loop. destruct s as [|c s]; [done|]. by destruct (skipping_dense (c :: s) zero_array 0 []) as [-> _]; [|lia|].
Qed.

Lemma encode_text_dense url data : dense (encode_text url data) = encode_text url data.
Proof.
  assert (forall i rest, 0 <= i < 64 -> dense (sym url i :: rest) = sym url i :: dense rest) as D.
  { intros i rest Hi. destruct (sym_facts url i Hi) as (_ & _ & W). unfold dense. cbn [List.filter]. by rewrite W. }
  induction data as [|x|x y|x y z rest IH] using triple_ind; cbn [encode_text app]; [done| | |].
  - destruct (heads_range x Byte.x00 Byte.x00) as (? & ? & _). by rewrite !D by done.
  - destruct (heads_range x y Byte.x00) as (? & ? & ? & _). by rewrite !D by done.
  - destruct (heads_range x y z) as (? & ? & ? & ?). by rewrite !D, IH by done.
Qed.

(** ** Lines *)

Definition line_feed : byte := z2b 10.

(** Lines with a line feed between them. *)
Fixpoint joined (lines : list bytes) : bytes :=
  match lines with
  | [] => []
  | [line] => line
  | line :: lines => line ++ [line_feed] ++ joined lines
  end.

Lemma break_lines_spec distance turns : (0 < distance)%nat -> forall str, (length str <= turns)%nat ->
  exists lines, break_lines turns distance str = Some (joined lines) /\ concat lines = str /\
    Forall (fun l => 0 < length l <= distance)%nat lines.
Proof.
  intros Hd. induction turns as [|turns IH]; intros [|c str] Hl; simpl in Hl; try lia;
    try (exists []; by split_and!).
  cbn [break_lines]. set (s := c :: str) in *.
  assert (length s = S (length str)) as Hs by done.
  assert (0 < length (take distance s) <= distance)%nat by (rewrite length_take; lia).
  destruct (IH (drop distance s)) as (lines & -> & E & HF); [rewrite length_drop; lia|].
  exists (take distance s :: lines). split_and!; [|simpl; rewrite E; apply take_drop|by constructor].
  destruct lines as [|l lines].
  - simpl in E. rewrite <- E. simpl. by rewrite app_nil_r.
  - assert (drop distance s <> []) as Hn by (rewrite <- E; inversion HF; destruct l; simpl in *; [lia|done]).
    destruct (drop distance s); done.
Qed.

Lemma dense_app s t : dense (s ++ t) = dense s ++ dense t.
Proof. apply List.filter_app. Qed.

Lemma dense_joined lines : dense (joined lines) = dense (concat lines).
Proof.
  induction lines as [|l lines IH]; [done|]. simpl concat. rewrite dense_app, <- IH.
  destruct lines as [|k lines]; [by rewrite app_nil_r|].
  change (joined (l :: k :: lines)) with (l ++ [line_feed] ++ joined (k :: lines)).
  rewrite !dense_app. done.
Qed.

Lemma insert_linebreaks_spec distance str : 0 < distance ->
  exists lines, insert_linebreaks str distance = Some (joined lines) /\ concat lines = str /\
    Forall (fun l => 0 < blen l <= distance) lines.
Proof.
  intros Hd. unfold insert_linebreaks. pose proof (blen_nonneg str).
  assert (0 < blen str <= distance -> exists lines, Some str = Some (joined lines) /\ concat lines = str /\
    Forall (fun l => 0 < blen l <= distance) lines) as Short.
  { intros. exists [str]. split_and!; [done|apply app_nil_r|constructor; [done|constructor]]. }
  destruct (Z.eqb_spec (blen str) 0) as [E|E]; cbn [orb].
  { destruct str; [exists []; by split_and!|]. rewrite blen_cons in E. unfold blen in E. lia. }
  rewrite (proj2 (Z.eqb_neq distance 0)) by lia.
  destruct (Z.eqb_spec ((blen str - 1) / distance) 0) as [E'|_].
  { apply Short. apply Z.div_small_iff in E'; lia. }
  destruct (break_lines_spec (Z.to_nat distance) (length str) ltac:(lia) str (le_n _)) as (lines & -> & Ec & HF).
  exists lines. split_and!; [done|done|]. eapply Forall_impl; [done|]. unfold blen. intros l ?. simpl in *. lia.
Qed.

(** ** The codec *)

Lemma rfc4648_decodes url data :
  Base64CanDecode (rfc4648 url data) false = true /\ Base64Decode (rfc4648 url data) false = data.
Proof.
  rewrite rfc4648_text, can_decode_says. unfold Base64Decode.
  assert (decode_loop (encode_text url data) false = Some data) as ->; [|done].
  unfold decode_loop. destruct (encode_text url data) as [|c s] eqn:He.
  - destruct data as [|x [|y [|z rest]]]; done.
  - rewrite <- He. apply decode_encode_text.
Qed.

(** C23: The encoder writes exactly what RFC 4648 says, into a buffer of exactly that size, for either alphabet;
    the decoder gives the data back from it, and from it with any white space put in, and both are announced
    decodable. *)
Theorem base64_roundtrip url data :
  Base64Encode data url = Some (rfc4648 url data) /\ blen (rfc4648 url data) = (blen data + 2) / 3 * 4 /\
  Base64CanDecode (rfc4648 url data) false = true /\ Base64Decode (rfc4648 url data) false = data /\
  (forall text, dense text = rfc4648 url data -> Base64CanDecode text true = true /\ Base64Decode text true = data).
Proof.
  destruct (rfc4648_decodes url data) as [-> ->]. rewrite rfc4648_text, Base64Encode_text, encode_text_length.
  split_and!; try done. intros text Ht. unfold Base64Decode.
  by rewrite can_decode_says, decode_loop_dense, Ht, decode_encode_text.
Qed.

(** The PEM and MIME forms are the encoding cut into lines of 64 and 76 characters at most, and decode to
    the data when line breaks are to be removed. *)
Theorem base64_lines data :
  exists pem mime, Base64EncodePem data = Some (joined pem) /\ Base64EncodeMime data = Some (joined mime) /\
    concat pem = rfc4648 false data /\ concat mime = rfc4648 false data /\
    Forall (fun l => 0 < blen l <= 64) pem /\ Forall (fun l => 0 < blen l <= 76) mime /\
    Base64Decode (joined pem) true = data /\ Base64Decode (joined mime) true = data.
Proof.
  unfold Base64EncodePem, Base64EncodeMime, encode_with_line_breaks. rewrite Base64Encode_text.
  destruct (insert_linebreaks_spec 64 (encode_text false data)) as (pem & -> & Ep & Fp); [lia|].
  destruct (insert_linebreaks_spec 76 (encode_text false data)) as (mime & -> & Em & Fm); [lia|].
  exists pem, mime. rewrite rfc4648_text. unfold Base64Decode.
  by rewrite !decode_loop_dense, !dense_joined, Ep, Em, encode_text_dense, decode_encode_text.
Qed.

(** ** Examples *)

Example base64_vectors :
  map (fun s => Base64Encode s false) [bs "f"; bs "fo"; bs "foo"; bs "foobar"] =
    [Some (bs "Zg=="); Some (bs "Zm8="); Some (bs "Zm9v"); Some (bs "Zm9vYmFy")] /\
  Base64Decode (bs "Zm9v YmFy") true = bs "foobar".
Proof. vm_compute. done. Qed.

(** What RFC 4648 makes an error is accepted: padding inside a text and a character that means nothing behind
    it, bits left over that are not zero, both alphabets at once. *)
Example base64_lenient :
  Base64CanDecode (bs "Zg==Zm9v") false = true /\ Base64Decode (bs "Zg==Zm9v") false = bs "ffoo" /\
  Base64CanDecode (bs "Zg=!") false = true /\ Base64CanDecode (bs "Zh==") false = true /\
  Base64Decode (bs "+-/_") false = Base64Decode (bs "++//") false.
Proof. vm_compute. done. Qed.
