(* ===== verification/Sha256.v ===== *)
(** SHA-256 and HMAC ([galay-utils/crypto/hmac.hpp]) and PBKDF2 ([galay-utils/crypto/pbkdf2.hpp]). The hash is
    fed two segments through a block buffer it fills, flushes and pads in place; it is proved to be the hash of
    their concatenation as FIPS 180-4 defines it: pad the message, cut it into blocks, compress them in turn.
    HMAC and PBKDF2 are proved to be RFC 2104 and RFC 8018 over it. *)
From Stdlib Require Import ZArith Lia List Bool.
From stdpp Require Import base list numbers option strings.
From S2P Require Import Prelude.
Open Scope Z_scope.

(** ** The compression function *)

(** The constants of the rounds, a row of eight words to a number. *)
Definition table_row (row : Z) : list Z := map (fun i => wrap32 (Z.shiftr row (32 * (7 - i)))) (seqZ 0 8).

Definition K : list Z := Eval vm_compute in concat (map table_row
  [0x428a2f9871374491b5c0fbcfe9b5dba53956c25b59f111f1923f82a4ab1c5ed5;
   0xd807aa9812835b01243185be550c7dc372be5d7480deb1fe9bdc06a7c19bf174;
   0xe49b69c1efbe47860fc19dc6240ca1cc2de92c6f4a7484aa5cb0a9dc76f988da;
   0x983e5152a831c66db00327c8bf597fc7c6e00bf3d5a7914706ca635114292967;
   0x27b70a852e1b21384d2c6dfc53380d13650a7354766a0abb81c2c92e92722c85;
   0xa2bfe8a1a81a664bc24b8b70c76c51a3d192e819d6990624f40e3585106aa070;
   0x19a4c1161e376c082748774c34b0bcb5391c0cb34ed8aa4a5b9cca4f682e6ff3;
   0x748f82ee78a5636f84c878148cc7020890befffaa4506cebbef9a3f7c67178f2]).

Definition rotr (x n : Z) : Z := Z.lor (Z.shiftr x n) (wrap32 (Z.shiftl x (32 - n))).
Definition not_word (x : Z) : Z := Z.lxor x 0xFFFFFFFF.
Definition ch (x y z : Z) : Z := Z.lxor (Z.land x y) (Z.land (not_word x) z).
Definition maj (x y z : Z) : Z := Z.lxor (Z.lxor (Z.land x y) (Z.land x z)) (Z.land y z).
Definition sigma0 (x : Z) : Z := Z.lxor (Z.lxor (rotr x 2) (rotr x 13)) (rotr x 22).
Definition sigma1 (x : Z) : Z := Z.lxor (Z.lxor (rotr x 6) (rotr x 11)) (rotr x 25).
Definition gamma0 (x : Z) : Z := Z.lxor (Z.lxor (rotr x 7) (rotr x 18)) (Z.shiftr x 3).
Definition gamma1 (x : Z) : Z := Z.lxor (Z.lxor (rotr x 17) (rotr x 19)) (Z.shiftr x 10).

(** [block[4 * i .. 4 * i + 3]] as a word; [None]: outside the block. *)
Definition block_word (block : bytes) (i : nat) : option Z :=
  b0 ← block !! (i * 4)%nat; b1 ← block !! (i * 4 + 1)%nat; b2 ← block !! (i * 4 + 2)%nat;
  b3 ← block !! (i * 4 + 3)%nat; Some (get_be32 b0 b1 b2 b3).

(** [w[0..15]]. *)
Definition message_words (block : bytes) : option (list Z) := mapM (block_word block) (seq 0 16).

(** [for (i = 16; i < 64; ++i)]: [w] holds the words below [i]. *)
Fixpoint expand_words (turns : nat) (w : list Z) : option (list Z) :=
  match turns with
  | O => Some w
  | S turns =>
      let i := length w in
      w2 ← w !! (i - 2)%nat; w7 ← w !! (i - 7)%nat; w15 ← w !! (i - 15)%nat; w16 ← w !! (i - 16)%nat;
      expand_words turns (w ++ [wrap32 (gamma1 w2 + w7 + gamma0 w15 + w16)])
  end.

(** The working variables a to h, and the state. *)
Record vars : Type := mkVars { va : Z; vb : Z; vc : Z; vd : Z; ve : Z; vf : Z; vg : Z; vh : Z }.

Definition round (v : vars) (k w : Z) : vars :=
  let t1 := wrap32 (vh v + sigma1 (ve v) + ch (ve v) (vf v) (vg v) + k + w) in
  let t2 := wrap32 (sigma0 (va v) + maj (va v) (vb v) (vc v)) in
  mkVars (wrap32 (t1 + t2)) (va v) (vb v) (vc v) (wrap32 (vd v + t1)) (ve v) (vf v) (vg v).

(** [for (i = 0; i < 64; ++i)]. *)
Fixpoint rounds (turns i : nat) (w : list Z) (v : vars) : option vars :=
  match turns with
  | O => Some v
  | S turns => k ← K !! i; wi ← w !! i; rounds turns (S i) w (round v k wi)
  end.

Definition add_vars (s v : vars) : vars :=
  mkVars (wrap32 (va s + va v)) (wrap32 (vb s + vb v)) (wrap32 (vc s + vc v)) (wrap32 (vd s + vd v))
         (wrap32 (ve s + ve v)) (wrap32 (vf s + vf v)) (wrap32 (vg s + vg v)) (wrap32 (vh s + vh v)).

Definition transform (state : vars) (block : bytes) : option vars :=
  w16 ← message_words block; w ← expand_words 48 w16; v ← rounds 64 0 w state; Some (add_vars state v).

(** ** The hash of two segments *)

Definition initial_state : vars :=
  mkVars 0x6a09e667 0xbb67ae85 0x3c6ef372 0xa54ff53a 0x510e527f 0x9b05688c 0x1f83d9ab 0x5be0cd19.

Record hasher : Type := mkHasher { h_state : vars; h_block : bytes; h_buffered : nat }.

(** [std::memcpy(block.data() + off, data, n)]; [None]: outside the block. *)
Definition copy_in (block : bytes) (off : nat) (data : bytes) : option bytes :=
  if decide (off + length data <= length block)%nat then Some (write_at block off data) else None.

(** [while (length >= 64)]: every turn takes 64 octets. *)
Fixpoint whole_blocks (turns : nat) (state : vars) (data : bytes) : option (vars * bytes) :=
  if decide (64 <= length data)%nat then
    match turns with
    | O => None
    | S turns => state ← transform state (take 64 data); whole_blocks turns state (drop 64 data)
    end
  else Some (state, data).

(** The first part of [append]: filling up a block begun before. *)
Definition fill_block (h : hasher) (data : bytes) : option (hasher * bytes) :=
  if decide (h_buffered h = 0%nat) then Some (h, data)
  else
    let available := (64 - h_buffered h)%nat in
    let copied := if decide (length data < available)%nat then length data else available in
    block ← copy_in (h_block h) (h_buffered h) (take copied data);
    let buffered := (h_buffered h + copied)%nat in
    let data := drop copied data in
    if decide (buffered = 64%nat) then
      state ← transform (h_state h) block; Some (mkHasher state block 0, data)
    else Some (mkHasher (h_state h) block buffered, data).

Definition append (h : hasher) (data : bytes) : option hasher :=
  hd ← fill_block h data;
  sd ← whole_blocks (length data) (h_state hd.1) hd.2;
  if decide (length sd.2 = 0%nat) then Some (mkHasher sd.1 (h_block hd.1) (h_buffered hd.1))
  else block ← copy_in (h_block hd.1) 0 sd.2; Some (mkHasher sd.1 block (length sd.2)).

(** [block[buffered++] = 0x80] and the zeros; when the length does not fit, a block is compressed first. *)
Definition pad_block (h : hasher) : option hasher :=
  block ← copy_in (h_block h) (h_buffered h) [z2b 0x80];
  let buffered := S (h_buffered h) in
  if decide (56 < buffered)%nat then
    block ← copy_in block buffered (replicate (64 - buffered) Byte.x00);
    state ← transform (h_state h) block; Some (mkHasher state (replicate 64 Byte.x00) buffered)
  else block ← copy_in block buffered (replicate (56 - buffered) Byte.x00); Some (mkHasher (h_state h) block buffered).

Definition length_octets (total_bits : Z) : bytes := map (fun i => byte_at total_bits (i * 8)) (reverse (seqZ 0 8)).

Definition digest (s : vars) : bytes :=
  concat (map put_be32 [va s; vb s; vc s; vd s; ve s; vf s; vg s; vh s]).

Definition hashSegments (first second : bytes) : option bytes :=
  h ← append (mkHasher initial_state (replicate 64 Byte.x00) 0) first;
  h ← append h second;
  h ← pad_block h;
  let total_bits := wrap64 (wrap64 (Z.shiftl (blen first) 3) + wrap64 (Z.shiftl (blen second) 3)) in
  block ← copy_in (h_block h) 56 (length_octets total_bits);
  state ← transform (h_state h) block;
  Some (digest state).

Definition sha256_hash (data : bytes) : option bytes := hashSegments data [].

(** ** HMAC *)

Definition xor_pad (c : Z) (b : byte) : byte := z2b (Z.lxor (b2z b) c).

Definition key_block (key : bytes) : option bytes :=
  let keyBlock := replicate 64 Byte.x00 in
  if decide (64 < length key)%nat then hashedKey ← sha256_hash key; copy_in keyBlock 0 (take 32 hashedKey)
  else copy_in keyBlock 0 key.

Definition hmacSha256 (key data : bytes) : option bytes :=
  keyBlock ← key_block key;
  let ipad := map (xor_pad 0x36) keyBlock in
  let opad := map (xor_pad 0x5c) keyBlock in
  inner_hash ← hashSegments ipad data;
  hashSegments opad inner_hash.

(** ** PBKDF2 *)

Definition xor_bytes (t u : bytes) : bytes := zip_with (fun a b => z2b (Z.lxor (b2z a) (b2z b))) t u.

(** [for (iteration = 1; iteration < iterations; ++iteration)]. *)
Fixpoint stretch (turns : nat) (password u t : bytes) : option bytes :=
  match turns with
  | O => Some t
  | S turns => u ← hmacSha256 password u; stretch turns password u (xor_bytes t u)
  end.

(** [for (block_index = 1; block_index <= block_count; ++block_index)]. *)
Fixpoint derive_blocks (turns : nat) (block_index : Z) (password salt : bytes) (iterations : Z) (output : bytes) :
  option bytes :=
  match turns with
  | O => Some output
  | S turns =>
      u ← hmacSha256 password (salt ++ put_be32 block_index);
      t ← stretch (Z.to_nat (iterations - 1)) password u u;
      derive_blocks turns (block_index + 1) password salt iterations (output ++ t)
  end.

(** [output.resize(output_len)] only shortens: the blocks hold at least as many octets. *)
Definition pbkdf2 (password salt : bytes) (iterations output_len : Z) : option bytes :=
  if (iterations =? 0) || (output_len =? 0) then Some []
  else
    let block_count := wrap32 ((output_len + 32 - 1) / 32) in
    output ← derive_blocks (Z.to_nat block_count) 1 password salt iterations [];
    Some (take (Z.to_nat output_len) output ++ replicate (Z.to_nat output_len - length output) Byte.x00).

Definition hex_digest (h : option bytes) : Z :=
  match h with Some d => fold_left (fun n b => 256 * n + b2z b) d 0 | None => 0 end.

Example sha256_vectors :
  map (fun s => hex_digest (sha256_hash s)) [bs "abc"; []] =
  [0xba7816bf8f01cfea414140de5dae2223b00361a396177a9cb410ff61f20015ad;
   0xe3b0c44298fc1c149afbf4c8996fb92427ae41e4649b934ca495991b7852b855].
Proof. vm_compute. reflexivity. Qed.

(** ** FIPS 180-4 *)

(** The words of a block, the message schedule and the compression of one block. *)
Fixpoint words (block : bytes) : list Z :=
  match block with
  | b0 :: b1 :: b2 :: b3 :: rest => get_be32 b0 b1 b2 b3 :: words rest
  | _ => []
  end.

Definition next_word (w : list Z) (t : nat) : list Z :=
  w ++ [wrap32 (gamma1 (w !!! (t - 2)%nat) + w !!! (t - 7)%nat + gamma0 (w !!! (t - 15)%nat) + w !!! (t - 16)%nat)].

Definition schedule (block : bytes) : list Z := fold_left next_word (seq 16 48) (words block).

Definition compress (s : vars) (block : bytes) : vars :=
  add_vars s (fold_left (fun v kw => round v kw.1 kw.2) (zip K (schedule block)) s).

(** Compression of the whole blocks of an input, in turn. *)
Fixpoint run_blocks (n : nat) (s : vars) (data : bytes) : vars :=
  match n with
  | O => s
  | S n => run_blocks n (compress s (take 64 data)) (drop 64 data)
  end.
Definition run (s : vars) (data : bytes) : vars := run_blocks (length data / 64) s data.

(** The message, a one, as many zeros as make the last block whole, and the length in bits. *)
Definition pad (m : bytes) : bytes :=
  m ++ [z2b 0x80] ++ replicate (Z.to_nat ((55 - blen m) mod 64)) Byte.x00 ++ length_octets (8 * blen m).

Definition fips_sha256 (m : bytes) : bytes := digest (run initial_state (pad m)).

(** ** The compression function is total on blocks *)

Lemma words_spec block : length block = 64%nat -> message_words block = Some (words block) /\ length (words block) = 16%nat.
Proof.
  intros Hl. do 64 (destruct block as [|? block]; [discriminate|]).
  destruct block; [|discriminate]. split; reflexivity.
Qed.

Lemma lookup_ok (l : list Z) i : (i < length l)%nat -> l !! i = Some (l !!! i).
Proof. intros. by apply list_lookup_lookup_total_lt. Qed.

Lemma expand_words_spec turns : forall w, (16 <= length w)%nat ->
  expand_words turns w = Some (fold_left next_word (seq (length w) turns) w) /\
  length (fold_left next_word (seq (length w) turns) w) = (length w + turns)%nat.
Proof.
  induction turns as [|turns IH]; intros w Hw; simpl; [split; [done|lia]|].
  rewrite !lookup_ok by lia. simpl.
  destruct (IH (next_word w (length w))) as [E L]; [unfold next_word; rewrite length_app; lia|].
  assert (length (next_word w (length w)) = S (length w)) as Hn
    by (unfold next_word; rewrite length_app; simpl; lia).
  rewrite Hn in E, L. split; [exact E|rewrite L; lia].
Qed.

Lemma rounds_spec turns : forall i w v, (i + turns <= length w)%nat -> (i + turns <= 64)%nat ->
  rounds turns i w v =
  Some (fold_left (fun v kw => round v kw.1 kw.2) (zip (take turns (drop i K)) (take turns (drop i w))) v).
Proof.
  induction turns as [|turns IH]; intros i w v Hw Hk; [done|].
  assert (i < length K)%nat as HK by (change (length K) with 64%nat; lia).
  assert (i < length w)%nat as HW by lia.
  cbn [rounds]. rewrite (lookup_ok K i), (lookup_ok w i) by done.
  rewrite (drop_S _ _ _ (lookup_ok K i HK)), (drop_S _ _ _ (lookup_ok w i HW)). cbn [mbind option_bind]. rewrite IH by lia. done.
Qed.

Lemma transform_words e t ws s : (16 <= length ws)%nat -> (t <= 64)%nat -> (t <= length ws + e)%nat ->
  (w ← expand_words e ws; v ← rounds t 0 w s; Some (add_vars s v)) =
  Some (add_vars s (fold_left (fun v kw => round v kw.1 kw.2)
    (zip (take t K) (take t (fold_left next_word (seq (length ws) e) ws))) s)).
Proof.
  intros Hw Ht Hl. destruct (expand_words_spec e ws Hw) as [-> L]. cbn [mbind option_bind].
  rewrite rounds_spec by lia. by rewrite !drop_0.
Qed.

Lemma transform_spec s block : length block = 64%nat -> transform s block = Some (compress s block).
Proof.
  intros Hl. unfold transform, compress, schedule. destruct (words_spec block Hl) as [-> H16].
  destruct (expand_words_spec 48 (words block)) as [_ L]; [lia|].
  cbn [mbind option_bind]. rewrite transform_words by lia. rewrite H16 in *.
  rewrite !take_ge by (rewrite ?L; try change (length K) with 64%nat; lia). reflexivity.
Qed.

(** ** Runs of blocks *)

Lemma run_blocks_app n m s data :
  run_blocks (n + m) s data = run_blocks m (run_blocks n s data) (drop (n * 64) data).
Proof.
  revert s data. induction n as [|n IH]; intros s data; [done|].
  simpl run_blocks. rewrite IH, drop_drop. done.
Qed.

Lemma run_blocks_prefix n s a b : (n * 64 <= length a)%nat -> run_blocks n s (a ++ b) = run_blocks n s a.
Proof.
  revert s a. induction n as [|n IH]; intros s a Hn; [done|]. simpl.
  rewrite take_app_le, drop_app_le by lia. apply IH. rewrite length_drop. lia.
Qed.

Lemma run_app k s a b : length a = (k * 64)%nat -> run s (a ++ b) = run (run s a) b.
Proof.
  intros Ha. unfold run. rewrite length_app, Ha, Nat.add_comm, Nat.div_add, Nat.div_mul by lia.
  rewrite Nat.add_comm, run_blocks_app, run_blocks_prefix by lia. f_equal.
  by rewrite drop_app_length' by lia.
Qed.

Lemma run_short s data : (length data < 64)%nat -> run s data = s.
Proof. intros. unfold run. by rewrite Nat.div_small. Qed.

Lemma run_one s data : length data = 64%nat -> run s data = compress s data.
Proof. intros Hl. unfold run. rewrite Hl. simpl. by rewrite take_ge by lia. Qed.

Lemma whole_blocks_spec turns : forall s data, (length data <= turns)%nat ->
  exists k p q, data = p ++ q /\ length p = (k * 64)%nat /\ (length q < 64)%nat /\
    whole_blocks turns s data = Some (run s p, q).
Proof.
  induction turns as [|turns IH]; intros s data Hl.
  - exists 0%nat, [], data. split_and!; [done|done|lia|]. simpl. rewrite decide_False by lia. done.
  - simpl. case_decide as Hd.
    + rewrite transform_spec by (rewrite length_take; lia). cbn [mbind option_bind].
      destruct (IH (compress s (take 64 data)) (drop 64 data)) as (k & p & q & E & Hp & Hq & ->);
        [rewrite length_drop; lia|].
      assert (length (take 64 data) = 64%nat) as H64 by (rewrite length_take; lia).
      exists (S k), (take 64 data ++ p), q. split_and!; [by rewrite <- app_assoc, <- E, take_drop| |done|].
      { rewrite length_app. lia. }
      by rewrite (run_app 1), (run_one s) by lia.
    + exists 0%nat, [], data. split_and!; [done|done|lia|done].
Qed.

(** ** The buffer *)

(** What the hasher stands for: whole blocks compressed, and what follows them at the front of the buffer. *)
Definition absorbed (h : hasher) (a r : bytes) : Prop :=
  (exists k, length a = (k * 64)%nat) /\ h_state h = run initial_state a /\ h_buffered h = length r /\
  (length r < 64)%nat /\ exists tail, h_block h = r ++ tail /\ length (h_block h) = 64%nat.

Lemma copy_in_spec r b tail data n :
  n = length r -> length data = length b -> copy_in (r ++ b ++ tail) n data = Some (r ++ data ++ tail).
Proof.
  intros -> Hl. unfold copy_in. rewrite decide_True by (rewrite !length_app; lia). by rewrite write_at_app.
Qed.

(** Room for [n] octets behind what a buffer holds. *)
Lemma split_tail (tail : bytes) n : (n <= length tail)%nat -> exists b rest, tail = b ++ rest /\ length b = n.
Proof. intros. exists (take n tail), (drop n tail). rewrite take_drop, length_take. split; [done|lia]. Qed.

Lemma finish_append h a data turns : absorbed h a [] -> (length data <= turns)%nat ->
  exists h' a' r', (sd ← whole_blocks turns (h_state h) data;
     if decide (length sd.2 = 0%nat) then Some (mkHasher sd.1 (h_block h) 0)
     else block ← copy_in (h_block h) 0 sd.2; Some (mkHasher sd.1 block (length sd.2))) = Some h' /\
    absorbed h' a' r' /\ a' ++ r' = a ++ data.
Proof.
  intros ((k & Ha) & Hs & _ & _ & tail & Eb & Lb) Ht.
  destruct (whole_blocks_spec turns (h_state h) data Ht) as (j & p & q & -> & Hp & Hq & ->).
  cbn [mbind option_bind fst snd]. simpl in Eb. rewrite Eb in *.
  assert (run (h_state h) p = run initial_state (a ++ p)) as Er by (by rewrite Hs, (run_app k)).
  assert (exists k', length (a ++ p) = (k' * 64)%nat) as Hk by (exists (k + j)%nat; rewrite length_app; lia).
  case_decide as Hd.
  - apply nil_length_inv in Hd as ->. eexists _, (a ++ p), []. split; [done|]. rewrite !app_nil_r. split; [|done].
    split_and!; [done|done|done|simpl; lia|by exists tail].
  - destruct (split_tail tail (length q)) as (b & rest & -> & Hb); [lia|].
    rewrite (copy_in_spec [] b rest q) by done. cbn [mbind option_bind].
    eexists _, (a ++ p), q. split; [done|]. split; [|by rewrite <- app_assoc].
    split_and!; [done|done|done|done|]. exists rest. split; [done|]. simpl. rewrite !length_app in *. lia.
Qed.

Lemma append_spec h a r data : absorbed h a r ->
  exists h' a' r', append h data = Some h' /\ absorbed h' a' r' /\ a' ++ r' = (a ++ r) ++ data.
Proof.
  intros Hh. unfold append, fill_block. pose proof Hh as ((k & Ha) & Hs & Hn & Hr & tail & Eb & Lb).
  case_decide as H0.
  { rewrite Hn in H0. apply nil_length_inv in H0 as ->. rewrite app_nil_r.
    cbn [mbind option_bind fst snd]. rewrite Hn. by apply finish_append. }
  set (copied := if decide (length data < 64 - h_buffered h)%nat then length data else (64 - h_buffered h)%nat).
  assert (copied <= length data /\ copied <= 64 - length r)%nat as [Hc1 Hc2]
    by (unfold copied; rewrite Hn; case_decide; lia).
  assert (length (take copied data) = copied) as Ht by (rewrite length_take; lia).
  rewrite Eb in Lb. rewrite length_app in Lb.
  destruct (split_tail tail copied) as (b & rest & -> & Hb); [lia|]. rewrite Eb, Hn.
  rewrite (copy_in_spec r b rest) by (try done; lia). cbn [mbind option_bind]. rewrite length_app in Lb.
  case_decide as Hfull.
  - assert (rest = []) as -> by (apply nil_length_inv; lia). rewrite app_nil_r.
    assert (length (r ++ take copied data) = 64%nat) as H64 by (rewrite length_app; lia).
    rewrite transform_spec by done. cbn [mbind option_bind fst snd h_buffered h_state h_block].
    destruct (finish_append (mkHasher (compress (h_state h) (r ++ take copied data)) (r ++ take copied data) 0)
                (a ++ r ++ take copied data) (drop copied data) (length data)) as (h' & a' & r' & E & Hh' & Er).
    { split_and!; [exists (S k); rewrite length_app; lia| |done|simpl; lia|].
      - cbn [h_state]. by rewrite (run_app k), run_one, Hs.
      - by exists (r ++ take copied data). }
    { rewrite length_drop. lia. }
    exists h', a', r'. split; [exact E|]. split; [done|]. by rewrite Er, <- !app_assoc, take_drop.
  - assert (copied = length data) as Hcd by (unfold copied in *; rewrite Hn in *; case_decide; lia).
    rewrite Hcd, drop_all, take_ge by lia. cbn [mbind option_bind fst snd].
    destruct (whole_blocks_spec (length data) (h_state h) []) as (j & p & q & Epq & _ & _ & Ew); [simpl; lia|].
    symmetry in Epq. apply app_eq_nil in Epq as [-> ->]. cbn [h_state h_block h_buffered]. rewrite Ew.
    cbn [mbind option_bind fst snd]. rewrite decide_True by done. rewrite run_short by (simpl; lia).
    eexists _, a, (r ++ data). split; [done|]. split; [|by rewrite app_assoc].
    split_and!; [by exists k|done|cbn [h_buffered]; rewrite length_app; lia|rewrite length_app; lia|].
    exists rest. cbn [h_block]. split; [by rewrite <- app_assoc|]. rewrite !length_app. lia.
Qed.

(** ** Padding *)

Lemma length_octets_length n : length (length_octets n) = 8%nat.
Proof. reflexivity. Qed.

Lemma length_octets_mod n : length_octets (wrap64 n) = length_octets n.
Proof.
  unfold length_octets. apply map_ext_in. intros i Hi.
  assert (0 <= i < 8) as Hr by (change (reverse (seqZ 0 8)) with [7; 6; 5; 4; 3; 2; 1; 0] in Hi; simpl in Hi; lia).
  apply b2z_inj. rewrite !b2z_byte_at by lia. unfold wrap64.
  assert (2 ^ 64 = 2 ^ (i * 8) * (256 * 2 ^ (56 - i * 8))) as ->
    by (change 256 with (2 ^ 8); rewrite <- !Z.pow_add_r by lia; f_equal; lia).
  assert (0 < 2 ^ (i * 8)) by (apply Z.pow_pos_nonneg; lia).
  assert (0 < 2 ^ (56 - i * 8)) by (apply Z.pow_pos_nonneg; lia).
  generalize dependent (2 ^ (i * 8)). generalize dependent (2 ^ (56 - i * 8)). intros c Hc b Hb.
  rewrite Z.rem_mul_r, (Z.mul_comm b), Z.div_add, (Z.div_small (n mod b)) by (try apply Z.mod_pos_bound; lia).
  rewrite Z.add_0_l, Z.rem_mul_r, (Z.mul_comm 256), Z.mod_add, Z.mod_mod by lia. done.
Qed.

(** The last blocks, from what is in the buffer. *)
Lemma finish_spec h a r lens : absorbed h a r -> length lens = 8%nat ->
  (h ← pad_block h; block ← copy_in (h_block h) 56 lens; state ← transform (h_state h) block; Some (digest state)) =
  Some (digest (run initial_state ((a ++ r) ++ [z2b 0x80] ++
    replicate (Z.to_nat ((55 - blen (a ++ r)) mod 64)) Byte.x00 ++ lens))).
Proof.
  intros ((k & Ha) & Hs & Hn & Hr & tail & Eb & Lb) Hl. unfold pad_block.
  rewrite Eb in Lb. rewrite length_app in Lb. rewrite Eb, Hn.
  destruct (split_tail tail 1) as (b & rest & -> & Hb); [lia|]. rewrite length_app in Lb.
  rewrite (copy_in_spec r b rest) by done. cbn [mbind option_bind]. rewrite <- app_assoc.
  replace ((55 - blen (a ++ r)) mod 64) with ((55 - blen r) mod 64) by
    (rewrite blen_app; unfold blen; rewrite Ha, Nat2Z.inj_mul;
     replace (55 - (Z.of_nat k * Z.of_nat 64 + Z.of_nat (length r)))
       with (55 - Z.of_nat (length r) + (- Z.of_nat k) * 64) by lia; by rewrite Z.mod_add by lia).
  assert (length (r ++ [z2b 0x80]) = S (length r)) as Hr1 by (rewrite length_app; simpl; lia).
  case_decide as H56.
  - destruct (split_tail rest (64 - S (length r))) as (zs & slot & -> & Hz); [lia|]. rewrite length_app in Lb.
    assert (slot = []) as -> by (apply nil_length_inv; lia).
    rewrite (app_assoc r), (copy_in_spec (r ++ [z2b 0x80]) zs [])
      by (rewrite ?length_replicate; done || lia).
    cbn [mbind option_bind]. rewrite app_nil_r, transform_spec
      by (rewrite !length_app, length_replicate; simpl; lia).
    cbn [mbind option_bind h_block h_state].
    change (replicate 64 Byte.x00) with (replicate 56 Byte.x00 ++ replicate 8 Byte.x00 ++ []).
    rewrite (copy_in_spec (replicate 56 Byte.x00) (replicate 8 Byte.x00) [] lens) by (rewrite ?length_replicate; done).
    cbn [mbind option_bind]. rewrite app_nil_r, transform_spec
      by (rewrite !length_app, length_replicate; simpl; lia).
    cbn [mbind option_bind]. rewrite Hs. do 2 f_equal.
    replace (Z.to_nat ((55 - blen r) mod 64)) with ((64 - S (length r)) + 56)%nat
      by (replace (55 - blen r) with (119 - blen r + (-1) * 64) by lia; rewrite Z.mod_add by lia;
          rewrite Z.mod_small by (unfold blen; lia); unfold blen; lia).
    rewrite replicate_add, <- !app_assoc, (run_app k) by done.
    rewrite !app_assoc, <- (app_assoc _ (replicate 56 _)).
    rewrite (run_app 1), (run_one _ (_ ++ lens)), (run_one (run initial_state a))
      by (rewrite !length_app, !length_replicate; simpl; lia). done.
  - destruct (split_tail rest (56 - S (length r))) as (zs & slot & -> & Hz); [lia|]. rewrite length_app in Lb.
    rewrite (app_assoc r), (copy_in_spec (r ++ [z2b 0x80]) zs slot)
      by (rewrite ?length_replicate; done || lia).
    cbn [mbind option_bind h_block h_state]. rewrite app_assoc, <- (app_nil_r slot).
    rewrite (copy_in_spec _ slot [] lens) by (rewrite ?length_app, ?length_replicate; simpl; lia).
    cbn [mbind option_bind]. rewrite app_nil_r, transform_spec
      by (rewrite !length_app, length_replicate; simpl; lia).
    cbn [mbind option_bind]. rewrite Hs. do 2 f_equal.
    replace (Z.to_nat ((55 - blen r) mod 64)) with (56 - S (length r))%nat
      by (rewrite Z.mod_small by (unfold blen; lia); unfold blen; lia).
    rewrite <- !app_assoc, (run_app k) by done. rewrite (run_one (run initial_state a)); [done|].
    rewrite !length_app, length_replicate. simpl. lia.
Qed.

(** ** The hash, HMAC and PBKDF2 *)

Lemma new_hasher : absorbed (mkHasher initial_state (replicate 64 Byte.x00) 0) [] [].
Proof. split_and!; [by exists 0%nat|done|done|simpl; lia|by exists (replicate 64 Byte.x00)]. Qed.

(** Whatever the lengths of the two segments, the hash is the one FIPS 180-4 gives for their concatenation:
    no octet is read or written outside the input and the buffer, and the padding is right at every length. *)
Lemma hashSegments_spec first second : hashSegments first second = Some (fips_sha256 (first ++ second)).
Proof.
  unfold hashSegments. destruct (append_spec _ _ _ first new_hasher) as (h1 & a1 & r1 & -> & H1 & E1).
  cbn [mbind option_bind]. destruct (append_spec h1 a1 r1 second H1) as (h2 & a2 & r2 & -> & H2 & E2).
  cbn [mbind option_bind].
  rewrite (finish_spec h2 a2 r2) by (done || apply length_octets_length). rewrite E2, E1.
  unfold fips_sha256, pad.
  replace (wrap64 (wrap64 (Z.shiftl (blen first) 3) + wrap64 (Z.shiftl (blen second) 3)))
    with (wrap64 (8 * blen (first ++ second))).
  { by rewrite length_octets_mod, app_nil_l. }
  unfold wrap64. rewrite !Z.shiftl_mul_pow2, <- Z.add_mod, blen_app by lia. f_equal. lia.
Qed.

Lemma digest_length s : length (digest s) = 32%nat.
Proof. reflexivity. Qed.

(** RFC 2104. *)
Definition rfc2104_key (key : bytes) : bytes :=
  let key := if decide (64 < length key)%nat then fips_sha256 key else key in
  key ++ replicate (64 - length key) Byte.x00.
Definition hmac (key data : bytes) : bytes :=
  fips_sha256 (map (xor_pad 0x5c) (rfc2104_key key) ++ fips_sha256 (map (xor_pad 0x36) (rfc2104_key key) ++ data)).

Lemma key_block_spec key : key_block key = Some (rfc2104_key key).
Proof.
  assert (forall k : bytes, (length k <= 64)%nat ->
    copy_in (replicate 64 Byte.x00) 0 k = Some (k ++ replicate (64 - length k) Byte.x00)) as Short.
  { intros k Hk. replace (replicate 64 Byte.x00) with ([] ++ replicate (length k) Byte.x00 ++ replicate (64 - length k) Byte.x00).
    - by rewrite copy_in_spec by (rewrite ?length_replicate; done).
    - rewrite <- replicate_add. simpl app. f_equal. lia. }
  unfold key_block, rfc2104_key, sha256_hash. case_decide as Hl.
  - rewrite hashSegments_spec, app_nil_r. cbn [mbind option_bind].
    rewrite take_ge by (unfold fips_sha256; rewrite digest_length; lia).
    apply Short. unfold fips_sha256. rewrite digest_length. lia.
  - apply Short. lia.
Qed.

Lemma hmac_spec key data : hmacSha256 key data = Some (hmac key data).
Proof.
  unfold hmacSha256. rewrite key_block_spec. cbn [mbind option_bind].
  rewrite hashSegments_spec. cbn [mbind option_bind]. by rewrite hashSegments_spec.
Qed.

Lemma hmac_length key data : length (hmac key data) = 32%nat.
Proof. apply digest_length. Qed.

(** RFC 8018: the exclusive or of [c] iterates of the pseudo-random function, for block after block. *)
Fixpoint iterates (password : bytes) (c : nat) (u : bytes) : list bytes :=
  match c with O => [] | S c => let u := hmac password u in u :: iterates password c u end.

Definition rfc8018_block (password salt : bytes) (c : Z) (i : Z) : bytes :=
  fold_left xor_bytes (iterates password (Z.to_nat (c - 1)) (hmac password (salt ++ put_be32 i)))
    (hmac password (salt ++ put_be32 i)).

Definition rfc8018 (password salt : bytes) (c dkLen : Z) : bytes :=
  take (Z.to_nat dkLen) (concat (map (rfc8018_block password salt c) (seqZ 1 ((dkLen + 31) / 32)))).

Lemma stretch_spec turns password : forall u t,
  stretch turns password u t = Some (fold_left xor_bytes (iterates password turns u) t).
Proof.
  induction turns as [|turns IH]; intros u t; [done|]. simpl. rewrite hmac_spec. cbn [mbind option_bind]. apply IH.
Qed.

Lemma derive_blocks_spec turns password salt c : forall i output,
  derive_blocks turns i password salt c output =
  Some (output ++ concat (map (rfc8018_block password salt c) (seqZ i (Z.of_nat turns)))).
Proof.
  induction turns as [|turns IH]; intros i output; [simpl; by rewrite app_nil_r|].
  rewrite seqZ_cons by lia. cbn [derive_blocks]. rewrite hmac_spec. cbn [mbind option_bind].
  rewrite stretch_spec. cbn [mbind option_bind]. rewrite IH.
  replace (Z.pred (Z.of_nat (S turns))) with (Z.of_nat turns) by lia.
  replace (Z.succ i) with (i + 1) by lia. simpl map. simpl concat. by rewrite <- app_assoc.
Qed.

Lemma xor_bytes_length t u : length t = length u -> length (xor_bytes t u) = length u.
Proof. intros. unfold xor_bytes. rewrite length_zip_with. lia. Qed.

Lemma rfc8018_block_length password salt c i : length (rfc8018_block password salt c i) = 32%nat.
Proof.
  unfold rfc8018_block. generalize (hmac password (salt ++ put_be32 i)) at 1 as u.
  assert (forall n u t, length t = 32%nat -> length (fold_left xor_bytes (iterates password n u) t) = 32%nat) as L.
  { induction n as [|n IH]; intros u t Ht; [done|]. simpl. apply IH.
    rewrite xor_bytes_length; rewrite hmac_length; done. }
  intros u. apply L, hmac_length.
Qed.

(** C22: SHA-256 of two segments is what FIPS 180-4 gives for their concatenation, at every length and cut: no
    octet is read or written outside the input and the block buffer, and the padding is right; and HMAC is
    RFC 2104 over it, for keys of every length. *)
Theorem hash_and_hmac_exact first second key data :
  hashSegments first second = Some (fips_sha256 (first ++ second)) /\ hmacSha256 key data = Some (hmac key data) /\
  length (hmac key data) = 32%nat.
Proof. by rewrite hashSegments_spec, hmac_spec. Qed.

Lemma pbkdf2_spec password salt iterations output_len :
  0 < iterations -> 0 <= output_len <= (2 ^ 32 - 1) * 32 ->
  pbkdf2 password salt iterations output_len = Some (rfc8018 password salt iterations output_len) /\
  blen (rfc8018 password salt iterations output_len) = output_len.
Proof.
  intros Hi Ho. set (blocks := fun n => concat (map (rfc8018_block password salt iterations) (seqZ 1 n))).
  assert (forall n, length (blocks (Z.of_nat n)) = (n * 32)%nat) as L.
  { induction n as [|n IH]; [done|]. unfold blocks in *. replace (Z.of_nat (S n)) with (Z.of_nat n + 1) by lia.
    rewrite seqZ_app, map_app, concat_app, length_app, IH by lia. simpl.
    rewrite app_nil_r, rfc8018_block_length. lia. }
  assert (0 <= (output_len + 31) / 32 < 2 ^ 32) as Hb.
  { split; [apply Z.div_pos; lia|apply Z.div_lt_upper_bound; lia]. }
  assert (output_len <= (output_len + 31) / 32 * 32) as Hr by (Z.div_mod_to_equations; lia).
  specialize (L (Z.to_nat ((output_len + 31) / 32))). rewrite Z2Nat.id in L by lia.
  assert (length (rfc8018 password salt iterations output_len) = Z.to_nat output_len) as Hlen.
  { unfold rfc8018. fold (blocks ((output_len + 31) / 32)). rewrite length_take, L. lia. }
  split; [|unfold blen; rewrite Hlen; lia].
  unfold pbkdf2. rewrite (proj2 (Z.eqb_neq iterations 0)) by lia. cbn [orb].
  destruct (Z.eqb_spec output_len 0) as [->|]; [by unfold rfc8018|].
  replace (output_len + 32 - 1) with (output_len + 31) by lia. rewrite wrap32_small by done.
  rewrite derive_blocks_spec, Z2Nat.id by lia. cbn [mbind option_bind app].
  fold (blocks ((output_len + 31) / 32)). rewrite L.
  replace (Z.to_nat output_len - _)%nat with 0%nat by lia. simpl replicate. by rewrite app_nil_r.
Qed.

(** The derived key is the one of RFC 8018, whatever the password, the salt and the number of iterations,
    up to the length that RFC allows; and it has the length asked for. *)
Theorem pbkdf2_is_rfc8018 password salt iterations output_len :
  0 < iterations -> 0 <= output_len <= (2 ^ 32 - 1) * 32 ->
  pbkdf2 password salt iterations output_len = Some (rfc8018 password salt iterations output_len) /\
  blen (rfc8018 password salt iterations output_len) = output_len.
Proof. apply pbkdf2_spec. Qed.

Lemma pbkdf2_is_rfc8018_witness :
  pbkdf2 (bs "password") (bs "salt") 1 20 = Some (rfc8018 (bs "password") (bs "salt") 1 20) /\
  blen (rfc8018 (bs "password") (bs "salt") 1 20) = 20.
Proof. apply (pbkdf2_is_rfc8018 (bs "password") (bs "salt") 1 20); lia. Defined.

(** FIPS 180-4 (two blocks), RFC 4231 (test cases 1 and 6) and the vectors known for PBKDF2 over SHA-256. *)
Example crypto_vectors :
  hex_digest (sha256_hash (bs "abcdbcdecdefdefgefghfghighijhijkijkljklmklmnlmnomnopnopq")) =
    0x248d6a61d20638b8e5c026930c3e6039a33ce45964ff2167f6ecedd419db06c1 /\
  hex_digest (hmacSha256 (replicate 20 (z2b 0x0b)) (bs "Hi There")) =
    0xb0344c61d8db38535ca8afceaf0bf12b881dc200c9833da726e9376c2e32cff7 /\
  hex_digest (hmacSha256 (replicate 131 (z2b 0xaa)) (bs "Test Using Larger Than Block-Size Key - Hash Key First")) =
    0x60e431591ee0b67f0d8a26aacbf5b77f8e0bc6213728c5140546040f0ee37f54 /\
  hex_digest (pbkdf2 (bs "password") (bs "salt") 2 32) =
    0xae4d0c95af6b46d32d0adff928f06dd02a303f8ef3c251dfd6e2d85a95474c43.
Proof. vm_compute. done. Qed.
