(* ===== verification/MongoAuth.v ===== *)
(** Connecting the asynchronous MongoDB client, [galay-mongo/async/client.cc]: the hello message and the SCRAM-SHA-256
    conversation, a machine of four phases that every reply drives on. A server that knows the keys of RFC 5802
    is shown to accept the proof the client sends and to be accepted by it, however the socket cuts the octets,
    for a password that SASLprep leaves alone; and a client that reports an authenticated connection has
    received over it the signature made with the keys of its password. *)
From Stdlib Require Import ZArith Lia Strings.Byte Floats.SpecFloat.
From stdpp Require Import base list numbers strings gmap.
From S2P Require Import Prelude Charconv RingBuffer MongoValue Bson Crc32c MongoProtocol MongoClient Base64 Sha256.
Open Scope Z_scope.

(** ** Errors *)

Inductive AuthError : Type :=
| AuthClient (e : ClientError) | ReplicaSetUnsupported | CredentialsIncomplete | AuthEncode (e : BsonError)
| ConversationIdMissing | ConversationIdType | ConversationIdValue | PayloadMissing
| ServerFirstInvalid | ServerNonceMismatch | IterationCountInvalid | SaltInvalid | DerivationFailed | SignatureEncoding
| ServerFinalError (text : bytes) | VerifierMissing | SignatureMismatch | NotFinished.

(** ** SCRAM messages *)

Definition comma : byte := z2b 44.
Definition equals : byte := z2b 61.

Definition escapeScramUsername (username : bytes) : bytes :=
  concat (map (fun ch => if decide (ch = equals) then bs "=3D" else if decide (ch = comma) then bs "=2C" else [ch]) username).

(** The items [parseScramPayload] looks at: what stands before every comma, and what is left at the end. *)
Fixpoint scram_items (payload item : bytes) : list bytes :=
  match payload with
  | [] => match item with [] => [] | _ => [item] end
  | c :: payload => if decide (c = comma) then item :: scram_items payload [] else scram_items payload (item ++ [c])
  end.

(** [item.find('=')] with what stands before and behind it. *)
Fixpoint at_equals (item : bytes) : option (bytes * bytes) :=
  match item with
  | [] => None
  | c :: item =>
      if decide (c = equals) then Some ([], item)
      else match at_equals item with Some (key, value) => Some (c :: key, value) | None => None end
  end.

Definition add_item (kv : gmap bytes bytes) (item : bytes) : gmap bytes bytes :=
  match at_equals item with
  | Some ([], _) | None => kv
  | Some (key, value) => <[key := value]> kv
  end.

Definition parseScramPayload (payload : bytes) : gmap bytes bytes := fold_left add_item (scram_items payload []) ∅.

(** ** Wrappers of the cryptographic routines; [None]: outside a buffer. *)

Definition base64Encode (data : bytes) : option bytes :=
  match data with [] => Some [] | _ => Base64Encode data false end.

(** [None]: "base64 decode failed". *)
Definition base64Decode (text : bytes) : option bytes :=
  match text with
  | [] => Some []
  | _ => if Base64CanDecode text false then Some (Base64Decode text false) else None
  end.

Definition xorBytes (a b : bytes) : bytes :=
  map (fun i => z2b (Z.lxor (b2z (nth i a Byte.x00)) (b2z (nth i b Byte.x00)))) (seq 0 (Nat.min (length a) (length b))).

(** [generateClientNonce], on the octets the system's generator gives. *)
Definition generateClientNonce (random_bytes : bytes) : option bytes := base64Encode random_bytes.

(** ** Fields of replies *)

(** Casting a double out of range to an [int64_t] is undefined. *)
Definition readConversationId (doc : MongoDocument) : outcome AuthError Z :=
  match document_find doc (bs "conversationId") with
  | None => Unexpected ConversationIdMissing
  | Some field =>
      value <--
        match m_storage field with
        | In_int32 _ => match toInt32 field 0 with Some n => Value n | None => OutOfBounds end
        | In_int64 _ => match toInt64 field 0 with Some n => Value n | None => OutOfBounds end
        | In_double _ =>
            match int_of_double (- 2 ^ 63) (2 ^ 63 - 1) (toDouble field 0) with Some n => Value n | None => OutOfBounds end
        | _ => Unexpected ConversationIdType
        end ;;
      if (value <=? 0) || (2 ^ 31 - 1 <? value) then Unexpected ConversationIdValue else Value (sint32 value)
  end.

Definition isBinary (v : MongoValue) : bool := match m_storage v with In_binary _ => true | _ => false end.

Definition readBinaryPayloadAsString (doc : MongoDocument) : outcome AuthError bytes :=
  match document_find doc (bs "payload") with
  | None => Unexpected PayloadMissing
  | Some payload_field => if isBinary payload_field then Value (toBinary payload_field) else Unexpected PayloadMissing
  end.

(** What the preprocessor knows of the platform. *)
Record Platform : Type := mkPlatform { os_type : bytes; os_name : bytes; architecture : option bytes }.

Definition buildClientMetadata (platform : Platform) (app_name : bytes) : MongoDocument :=
  let driver := document_append (document_append [] (bs "name") (value_string (bs "galay-mongo")))
                                (bs "version") (value_string (bs "1.1.1")) in
  let os := document_append (document_append [] (bs "type") (value_string (os_type platform)))
                            (bs "name") (value_string (os_name platform)) in
  let os := match architecture platform with
            | Some a => document_append os (bs "architecture") (value_string a)
            | None => os
            end in
  let client := match app_name with
                | [] => []
                | _ => document_append [] (bs "application")
                         (value_document (document_append [] (bs "name") (value_string app_name)))
                end in
  document_append (document_append client (bs "driver") (value_document driver)) (bs "os") (value_document os).

(** ** Configuration and state of the flow *)

Inductive MongoReadPreference : Type :=
| kPrimary | kPrimaryPreferred | kSecondary | kSecondaryPreferred | kNearest.
#[export] Instance read_preference_eq_dec : EqDecision MongoReadPreference.
Proof. solve_decision. Defined.

Record MongoConfig : Type := mkConfig {
  host : bytes; port : Z; username : bytes; password : bytes; config_database : bytes; auth_database : bytes;
  hello_database : bytes; app_name : bytes; seeds : list (bytes * Z); replica_set_name : bytes;
  read_preference : MongoReadPreference
}.

Inductive AuthPhase : Type := HelloReply | SaslStartReply | SaslContinueReply | SaslFinalReply.

Record ConnectFlowState : Type := mkFlow {
  auth_db : bytes;
  auth_client_nonce : bytes;
  auth_client_first_bare : bytes;
  auth_expected_server_signature : bytes;
  encoded_request : bytes;
  auth_conversation_id : Z;
  auth_phase : AuthPhase;
  auth_enabled : bool
}.

Definition new_flow : ConnectFlowState := mkFlow [] [] [] [] [] 0 HelloReply false.
Definition set_auth (db : bytes) (enabled : bool) (s : ConnectFlowState) : ConnectFlowState :=
  mkFlow db (auth_client_nonce s) (auth_client_first_bare s) (auth_expected_server_signature s) (encoded_request s)
    (auth_conversation_id s) (auth_phase s) enabled.
Definition set_first (nonce first_bare : bytes) (s : ConnectFlowState) : ConnectFlowState :=
  mkFlow (auth_db s) nonce first_bare (auth_expected_server_signature s) (encoded_request s)
    (auth_conversation_id s) (auth_phase s) (auth_enabled s).
Definition set_signature (conversation_id : Z) (signature : bytes) (s : ConnectFlowState) : ConnectFlowState :=
  mkFlow (auth_db s) (auth_client_nonce s) (auth_client_first_bare s) signature (encoded_request s)
    conversation_id (auth_phase s) (auth_enabled s).
Definition set_request (encoded : bytes) (phase : AuthPhase) (s : ConnectFlowState) : ConnectFlowState :=
  mkFlow (auth_db s) (auth_client_nonce s) (auth_client_first_bare s) (auth_expected_server_signature s) encoded
    (auth_conversation_id s) phase (auth_enabled s).

Definition endpoint (config : MongoConfig) : bytes * Z :=
  match seeds config with seed :: _ => seed | [] => (host config, port config) end.

(** ** The documents sent *)

Definition hello_document (platform : Platform) (config : MongoConfig) : MongoDocument :=
  document_append (document_append (document_append (document_append []
    (bs "hello") (value_int32 1)) (bs "helloOk") (value_bool true))
    (bs "$db") (value_string (match hello_database config with [] => bs "admin" | db => db end)))
    (bs "client") (value_document (buildClientMetadata platform (app_name config))).

Definition sasl_start_document (payload auth_db : bytes) : MongoDocument :=
  document_append (document_append (document_append (document_append (document_append []
    (bs "saslStart") (value_int32 1)) (bs "mechanism") (value_string (bs "SCRAM-SHA-256")))
    (bs "payload") (value_binary payload)) (bs "autoAuthorize") (value_int32 1)) (bs "$db") (value_string auth_db).

Definition sasl_continue_document (conversation_id : Z) (payload auth_db : bytes) : MongoDocument :=
  document_append (document_append (document_append (document_append []
    (bs "saslContinue") (value_int32 1)) (bs "conversationId") (value_int32 conversation_id))
    (bs "payload") (value_binary payload)) (bs "$db") (value_string auth_db).

(** ** The keys *)

Definition pbkdf2HmacSha256 (password salt : bytes) (iterations : Z) : outcome AuthError bytes :=
  if iterations <=? 0 then Unexpected DerivationFailed
  else match pbkdf2 password salt (wrap32 iterations) 32 with Some key => Value key | None => OutOfBounds end.

(** The proof of the client, and the signature it expects of the server. *)
Definition scram_answers (salted_password auth_message : bytes) : option (bytes * bytes) :=
  client_key ← hmacSha256 salted_password (bs "Client Key");
  stored_key ← sha256_hash client_key;
  client_signature ← hmacSha256 stored_key auth_message;
  server_key ← hmacSha256 salted_password (bs "Server Key");
  server_signature ← hmacSha256 server_key auth_message;
  signature_text ← base64Encode server_signature;
  proof_text ← base64Encode (xorBytes client_key client_signature);
  Some (proof_text, signature_text).

Definition defined {A} (m : option A) : outcome AuthError A :=
  match m with Some a => Value a | None => OutOfBounds end.

(** [handleSaslStartReply] up to its request: the conversation, the signature expected and the final message. *)
Definition answer_server_first (password nonce first_bare : bytes) (doc : MongoDocument) :
  outcome AuthError (Z * bytes * bytes) :=
  conversation_id <-- readConversationId doc ;;
  server_first_message <-- readBinaryPayloadAsString doc ;;
  let kv := parseScramPayload server_first_message in
  match kv !! bs "r", kv !! bs "s", kv !! bs "i" with
  | Some server_nonce, Some salt_text, Some iter_text =>
      if negb (bool_decide (take (length nonce) server_nonce = nonce)) then Unexpected ServerNonceMismatch
      else
        match from_chars 10 (- 2 ^ 31) (2 ^ 31 - 1) iter_text with
        | Parsed iterations _ =>
            if iterations <=? 0 then Unexpected IterationCountInvalid
            else
              match base64Decode salt_text with
              | None => Unexpected SaltInvalid
              | Some salt =>
                  let client_final_without_proof := bs "c=biws,r=" ++ server_nonce in
                  let auth_message :=
                    first_bare ++ [comma] ++ server_first_message ++ [comma] ++ client_final_without_proof in
                  salted_password <-- pbkdf2HmacSha256 password salt iterations ;;
                  answers <-- defined (scram_answers salted_password auth_message) ;;
                  if bool_decide (answers.2 = []) then Unexpected SignatureEncoding
                  else Value (conversation_id, answers.2, client_final_without_proof ++ bs ",p=" ++ answers.1)
              end
        | _ => Unexpected IterationCountInvalid
        end
  | _, _, _ => Unexpected ServerFirstInvalid
  end.

(** The part of [handleSaslContinueReply] that judges the server; true: it is done. *)
Definition check_server_final (expected_signature : bytes) (doc : MongoDocument) : outcome AuthError bool :=
  server_final <-- readBinaryPayloadAsString doc ;;
  let kv := parseScramPayload server_final in
  match kv !! bs "e" with
  | Some error => Unexpected (ServerFinalError error)
  | None =>
      match kv !! bs "v" with
      | None => Unexpected VerifierMissing
      | Some verifier =>
          if negb (bool_decide (verifier = expected_signature)) then Unexpected SignatureMismatch
          else Value (getBool doc (bs "done") false)
      end
  end.

(** ** The flow *)

(** How [m_socket.connect] and the socket options after it end. *)
Inductive dial_answer : Type := Dialled | DialFails (e : IoFailure) | DialTaskFails | DialPending.

Section Flow.
Context {B : Type} `{ByteRing B}.
#[local] Abbreviation client := (AsyncMongoClient B).
#[local] Abbreviation turn A := (outcome AuthError A * ConnectFlowState * client)%type.

(** [encoded_request.clear()], [appendOpMsg] under a new request id, and the next phase. *)
Definition make_request (document : MongoDocument) (phase : AuthPhase) (s : ConnectFlowState) (c : client) : turn bool :=
  let '(request_id, c) := nextRequestId c in
  match appendOpMsg request_id document 0 [] with
  | (encoded, None) => (Value false, set_request encoded phase s, c)
  | (encoded, Some e) => (Unexpected (AuthEncode e), set_request encoded (auth_phase s) s, c)
  end.

Definition initialize (platform : Platform) (config : MongoConfig) (s : ConnectFlowState) (c : client) : turn bool :=
  let enabled := negb (bool_decide (username config = [])) || negb (bool_decide (password config = [])) in
  let db := match auth_database config with
            | [] => match config_database config with [] => bs "admin" | db => db end
            | db => db
            end in
  let s := set_auth db enabled s in
  if (bool_decide (username config = []) && negb (bool_decide (password config = []))) ||
     (negb (bool_decide (username config = [])) && bool_decide (password config = []))
  then (Unexpected CredentialsIncomplete, s, c)
  else make_request (hello_document platform config) HelloReply s c.

Definition handleHelloReply (random_bytes : bytes) (config : MongoConfig) (s : ConnectFlowState) (c : client) : turn bool :=
  if negb (auth_enabled s) then (Value true, s, c)
  else
    match generateClientNonce random_bytes with
    | None => (OutOfBounds, s, c)
    | Some nonce =>
        let first_bare := bs "n=" ++ escapeScramUsername (username config) ++ bs ",r=" ++ nonce in
        let s := set_first nonce first_bare s in
        make_request (sasl_start_document (bs "n,," ++ first_bare) (auth_db s)) SaslStartReply s c
    end.

Definition handleSaslStartReply (config : MongoConfig) (reply : MongoReply) (s : ConnectFlowState) (c : client) : turn bool :=
  match answer_server_first (password config) (auth_client_nonce s) (auth_client_first_bare s) (m_document reply) with
  | Value (conversation_id, signature, client_final_message) =>
      let s := set_signature conversation_id signature s in
      make_request (sasl_continue_document conversation_id client_final_message (auth_db s)) SaslContinueReply s c
  | Unexpected e => (Unexpected e, s, c)
  | OutOfBounds => (OutOfBounds, s, c)
  end.

Definition handleSaslContinueReply (reply : MongoReply) (s : ConnectFlowState) (c : client) : turn bool :=
  match check_server_final (auth_expected_server_signature s) (m_document reply) with
  | Value true => (Value true, s, c)
  | Value false =>
      make_request (sasl_continue_document (auth_conversation_id s) [] (auth_db s)) SaslFinalReply s c
  | Unexpected e => (Unexpected e, s, c)
  | OutOfBounds => (OutOfBounds, s, c)
  end.

Definition handleSaslFinalReply (reply : MongoReply) (s : ConnectFlowState) (c : client) : turn bool :=
  if getBool (m_document reply) (bs "done") false then (Value true, s, c) else (Unexpected NotFinished, s, c).

(** The machine: what a reply does in each phase; true: connected. *)
Definition handleReply (random_bytes : bytes) (config : MongoConfig) (reply : MongoReply) (s : ConnectFlowState)
    (c : client) : turn bool :=
  match auth_phase s with
  | HelloReply => handleHelloReply random_bytes config s c
  | SaslStartReply => handleSaslStartReply config reply s c
  | SaslContinueReply => handleSaslContinueReply reply s c
  | SaslFinalReply => handleSaslFinalReply reply s c
  end.

(** How [connect] ends. [Undefined]: a cast or a read the language leaves undefined; [OutOfTurns]: the bound of the
    loop of the model. *)
Inductive connect_result : Type :=
| Connected (c : client) (w : world)
| Failed (e : AuthError) (c : client) (w : world)
| Waiting
| Undefined
| OutOfTurns.

Definition set_open (c : client) : client :=
  mkClient (m_ring_buffer c) (m_decode_scratch c) (m_ping_template_db c) (m_ping_encoded_template c)
    (m_next_request_id c) false.

(** [while (true)]: send the request, take a reply, hand it to the flow. *)
Fixpoint connect_loop (turns : nat) (random_bytes : bytes) (config : MongoConfig) (s : ConnectFlowState)
    (c : client) (w : world) : connect_result :=
  match turns with
  | O => OutOfTurns
  | S turns =>
      match co_then (sendSegments [encoded_request s]) (fun _ => recvMessage RecvError) c w with
      | Returned (inl e) c w => Failed (AuthClient e) c w
      | Returned (inr message) c w =>
          match check_reply message (bs "Mongo connect/auth command failed") with
          | inl e => Failed (AuthClient e) c w
          | inr reply =>
              match handleReply random_bytes config reply s c with
              | (Value true, s, c) => Connected (set_open c) w
              | (Value false, s, c) => connect_loop turns random_bytes config s c w
              | (Unexpected e, s, c) => Failed e c w
              | (OutOfBounds, s, c) => Undefined
              end
          end
      | Blocked _ _ => Waiting
      | Broken => Undefined
      end
  end.

(** A turn that does not end moves to a later phase, of which there are four. *)
Definition connect (platform : Platform) (random_bytes : bytes) (dial : bytes -> Z -> dial_answer)
    (config : MongoConfig) (c : client) (w : world) : connect_result :=
  if (1 <? blen (seeds config)) || negb (bool_decide (replica_set_name config = [])) || negb (bool_decide (read_preference config = kPrimary))
  then Failed ReplicaSetUnsupported c w
  else
    let c := set_ring (rb_clear (m_ring_buffer c)) [] c in
    match initialize platform config new_flow c with
    | (Unexpected e, s, c) => Failed e c w
    | (OutOfBounds, s, c) => Undefined
    | (Value _, s, c) =>
        match dial (endpoint config).1 (endpoint config).2 with
        | DialFails e => Failed (AuthClient (mapIoError e ConnectionFailed)) c w
        | DialTaskFails => Failed (AuthClient ConnectionFailed) c w
        | DialPending => Waiting
        | Dialled => connect_loop 4 random_bytes config s c w
        end
    end.
End Flow.
Arguments connect_result B : clear implicits.
Arguments Connected {B} c w.
Arguments Failed {B} e c w.
Arguments Waiting {B}.
Arguments Undefined {B}.
Arguments OutOfTurns {B}.

(** ** RFC 5802 *)

(** SaltedPassword, of a password that is normalized. *)
Definition salted_password (password salt : bytes) (iterations : Z) : bytes := rfc8018 password salt iterations 32.
Definition client_key (salted : bytes) : bytes := hmac salted (bs "Client Key").
Definition stored_key (salted : bytes) : bytes := fips_sha256 (client_key salted).
Definition server_signature (salted auth_message : bytes) : bytes := hmac (hmac salted (bs "Server Key")) auth_message.

(** What a server that stores [stored] checks of a proof. *)
Definition proof_accepted (stored auth_message proof : bytes) : Prop :=
  fips_sha256 (xor_bytes proof (hmac stored auth_message)) = stored.

Lemma xorBytes_spec a : forall b, xorBytes a b = xor_bytes a b.
Proof.
  induction a as [|x a IH]; intros [|y b]; try done. unfold xorBytes in *. cbn [length Nat.min seq map].
  rewrite <- seq_shift, map_map. cbn [nth xor_bytes zip_with]. f_equal. apply IH.
Qed.

Lemma xor_octet x y : z2b (Z.lxor (b2z (z2b (Z.lxor (b2z x) (b2z y)))) (b2z y)) = x.
Proof.
  rewrite b2z_z2b_small by (apply lxor_octet; apply b2z_range).
  rewrite Z.lxor_assoc, Z.lxor_nilpotent, Z.lxor_0_r. apply z2b_b2z.
Qed.

Lemma xor_bytes_undone a : forall b, length a = length b -> xor_bytes (xor_bytes a b) b = a.
Proof.
  induction a as [|x a IH]; intros [|y b] Hl; try done. cbn [xor_bytes zip_with]. rewrite xor_octet. f_equal.
  apply IH. by injection Hl.
Qed.

Lemma base64Encode_spec data : base64Encode data = Some (rfc4648 false data).
Proof. unfold base64Encode. destruct data; [done|]. by rewrite Base64Encode_text, <- rfc4648_text. Qed.

Lemma sha256_hash_spec data : sha256_hash data = Some (fips_sha256 data).
Proof. unfold sha256_hash. by rewrite hashSegments_spec, app_nil_r. Qed.

(** The steps of [scram_answers] over any routines that do not fail. *)
Lemma answers_steps (mac : bytes -> bytes -> option bytes) (hash text : bytes -> option bytes) mac' hash' text'
    salted client_word server_word message :
  (forall key data, mac key data = Some (mac' key data)) -> (forall data, hash data = Some (hash' data)) ->
  (forall data, text data = Some (text' data)) ->
  (client_key ← mac salted client_word; stored_key ← hash client_key; client_signature ← mac stored_key message;
   server_key ← mac salted server_word; server_signature ← mac server_key message;
   signature_text ← text server_signature; proof_text ← text (xorBytes client_key client_signature);
   Some (proof_text, signature_text)) =
  Some (text' (xorBytes (mac' salted client_word) (mac' (hash' (mac' salted client_word)) message)),
        text' (mac' (mac' salted server_word) message)).
Proof.
  intros Hm Hh Ht. repeat (progress rewrite ?Hm, ?Hh, ?Ht; cbn [mbind option_bind]). done.
Qed.

(** The text the client sends is the encoding of a proof the server accepts, and the one it waits for the encoding
    of the signature the server gives. *)
Lemma scram_answers_spec salted auth_message :
  exists proof, scram_answers salted auth_message =
    Some (rfc4648 false proof, rfc4648 false (server_signature salted auth_message)) /\
    proof_accepted (stored_key salted) auth_message proof.
Proof.
  exists (xorBytes (client_key salted) (hmac (stored_key salted) auth_message)). split.
  - exact (answers_steps hmacSha256 sha256_hash base64Encode hmac fips_sha256 (rfc4648 false) salted _ _ auth_message
             hmac_spec sha256_hash_spec base64Encode_spec).
  - unfold proof_accepted. rewrite xorBytes_spec, xor_bytes_undone; [done|].
    unfold client_key. by rewrite !hmac_length.
Qed.

(** ** Payloads *)

Definition no_comma (s : bytes) : Prop := Forall (fun c => c <> comma) s.

Lemma scram_items_end s : no_comma s -> forall item, item ++ s <> [] -> scram_items s item = [item ++ s].
Proof.
  induction 1 as [|c s Hc Hs IH]; intros item Hne; cbn [scram_items].
  - rewrite app_nil_r in *. by destruct item.
  - rewrite decide_False by done. rewrite IH by (by rewrite <- app_assoc). by rewrite <- app_assoc.
Qed.

Lemma scram_items_comma s rest : no_comma s -> forall item,
  scram_items (s ++ [comma] ++ rest) item = (item ++ s) :: scram_items rest [].
Proof.
  induction 1 as [|c s Hc Hs IH]; intros item; cbn [app scram_items].
  - rewrite decide_True by done. by rewrite app_nil_r.
  - rewrite decide_False by done. cbn [app] in IH. rewrite IH. by rewrite <- app_assoc.
Qed.

Lemma no_comma_text url data : no_comma (rfc4648 url data).
Proof.
  assert (forall i, 0 <= i < 64 -> sym url i <> comma) as S.
  { intros i Hi E. assert (forall url, forallb (fun i => negb (bool_decide (sym url i = comma))) (seqZ 0 64) = true) as Hall
      by (intros []; vm_compute; reflexivity).
    pose proof (forall_sextet _ (Hall url) i Hi) as Hs. cbv beta in Hs. by rewrite bool_decide_eq_true_2 in Hs. }
  rewrite rfc4648_text. unfold no_comma.
  induction data as [|x|x y|x y z rest IH] using triple_ind; cbn [encode_text app];
    [constructor|..]; match goal with
    | |- context [head3 ?a ?b] => destruct (heads_range x a b) as (? & ? & ? & ?)
    | _ => destruct (heads_range x Byte.x00 Byte.x00) as (? & ? & ? & ?)
    end; repeat (constructor; [by apply S || done|]); done.
Qed.

Lemma number_no_comma n : no_comma (to_chars n).
Proof.
  eapply Forall_impl; [apply to_chars_digits|]. intros c [-> |[v Hv]]; [done|]. intros ->. by vm_compute in Hv.
Qed.

(** The first message of a server, and what the client finds in it. *)
Definition server_first_message (server_nonce salt_text iterations_text : bytes) : bytes :=
  bs "r=" ++ server_nonce ++ [comma] ++ bs "s=" ++ salt_text ++ [comma] ++ bs "i=" ++ iterations_text.

Lemma parse_server_first r s i (kv := parseScramPayload (server_first_message r s i)) :
  no_comma r -> no_comma s -> no_comma i -> kv !! bs "r" = Some r /\ kv !! bs "s" = Some s /\ kv !! bs "i" = Some i.
Proof.
  intros Hr Hs Hi. subst kv. unfold parseScramPayload, server_first_message.
  assert (forall k v, k <> comma -> no_comma v -> no_comma ([k; equals] ++ v)) as Item by (intros; by repeat constructor).
  rewrite (app_assoc (bs "r=")), scram_items_comma by (by apply Item).
  rewrite (app_assoc (bs "s=")), scram_items_comma by (by apply Item).
  rewrite scram_items_end by (done || by apply Item).
  change (fold_left add_item _ ∅) with (<[bs "i" := i]> (<[bs "s" := s]> (<[bs "r" := r]> (∅ : gmap bytes bytes)))).
  split_and!.
  - rewrite !lookup_insert_ne, lookup_insert_eq by done. done.
  - rewrite lookup_insert_ne, lookup_insert_eq by done. done.
  - by rewrite lookup_insert_eq.
Qed.

Lemma parse_verifier v (kv := parseScramPayload (bs "v=" ++ v)) : no_comma v -> kv !! bs "e" = None /\ kv !! bs "v" = Some v.
Proof.
  intros Hv. subst kv. unfold parseScramPayload. rewrite scram_items_end by (done || by repeat constructor).
  change (fold_left add_item _ ∅) with (<[bs "v" := v]> (∅ : gmap bytes bytes)).
  by rewrite lookup_insert_eq, lookup_insert_ne.
Qed.

(** ** The answer to the first message of an honest server *)

Definition auth_message (first_bare server_first server_nonce : bytes) : bytes :=
  first_bare ++ [comma] ++ server_first ++ [comma] ++ bs "c=biws,r=" ++ server_nonce.

Lemma base64Decode_spec data : base64Decode (rfc4648 false data) = Some data.
Proof.
  unfold base64Decode. destruct (rfc4648_decodes false data) as [E1 E2]. rewrite E1, E2.
  destruct (rfc4648 false data) eqn:E; [|done]. by rewrite <- E2.
Qed.

Lemma derivation_spec password salt iterations : 0 < iterations < 2 ^ 31 ->
  pbkdf2HmacSha256 password salt iterations = Value (salted_password password salt iterations).
Proof.
  intros Hi. unfold pbkdf2HmacSha256. rewrite (proj2 (Z.leb_gt iterations 0)), wrap32_small by lia.
  by destruct (pbkdf2_spec password salt iterations 32) as [-> _]; [lia..|].
Qed.

Lemma iterations_spec i : 0 < i < 2 ^ 31 -> exists ptr, from_chars 10 (- 2 ^ 31) (2 ^ 31 - 1) (to_chars i) = Parsed i ptr.
Proof.
  intros Hi. exists (blen (to_chars i)). pose proof (from_chars_to_chars (- 2 ^ 31) (2 ^ 31 - 1) i []) as E.
  rewrite app_nil_r in E. apply E; [lia|lia|done].
Qed.

Lemma answer_spec password nonce first_bare doc cid ext salt i
    (server_nonce := nonce ++ ext)
    (server_first := server_first_message server_nonce (rfc4648 false salt) (to_chars i))
    (salted := salted_password password salt i) (message := auth_message first_bare server_first server_nonce) :
  readConversationId doc = Value cid -> readBinaryPayloadAsString doc = Value server_first ->
  0 < i < 2 ^ 31 -> no_comma server_nonce ->
  exists proof, proof_accepted (stored_key salted) message proof /\
    answer_server_first password nonce first_bare doc =
    Value (cid, rfc4648 false (server_signature salted message),
           (bs "c=biws,r=" ++ server_nonce) ++ bs ",p=" ++ rfc4648 false proof).
Proof.
  intros Hc Hp Hi Hn. unfold answer_server_first. rewrite Hc. cbn [obind]. rewrite Hp. cbn [obind].
  destruct (parse_server_first server_nonce (rfc4648 false salt) (to_chars i)) as (Er & Es & Ei);
    [done|apply no_comma_text|apply number_no_comma|].
  fold server_first in Er, Es, Ei. rewrite Er, Es, Ei.
  rewrite (bool_decide_eq_true_2 (take _ server_nonce = nonce)) by apply take_app_length. cbn [negb].
  destruct (iterations_spec i Hi) as [ptr ->]. rewrite (proj2 (Z.leb_gt i 0)), base64Decode_spec, derivation_spec by lia.
  cbn [obind]. destruct (scram_answers_spec salted message) as (proof & E & Hacc). exists proof. split; [done|].
  fold salted. change (scram_answers salted _) with (scram_answers salted message). rewrite E. cbn [defined obind fst snd].
  rewrite bool_decide_eq_false_2; [done|].
  intros En. apply (f_equal (fun t => Base64Decode t false)) in En.
  destruct (rfc4648_decodes false (server_signature salted message)) as [_ D]. rewrite D in En.
  apply (f_equal length) in En. unfold server_signature in En. rewrite hmac_length in En. discriminate En.
Qed.

(** ** The requests can be encoded *)

Definition encodable (d : MongoDocument) : Prop := document_ok d = true /\ is_Some (document_bytes d).

Lemma hello_encodable platform config : encodable (hello_document platform config).
Proof.
  unfold hello_document, buildClientMetadata. split.
  - by destruct (architecture platform), (app_name config), (hello_database config).
  - destruct (architecture platform), (app_name config), (hello_database config); eexists; reflexivity.
Qed.

Lemma start_encodable payload db : encodable (sasl_start_document payload db).
Proof. split; [done|]. eexists. reflexivity. Qed.

Lemma continue_encodable cid payload db : 0 < cid < 2 ^ 31 -> encodable (sasl_continue_document cid payload db).
Proof.
  intros Hc. split; [|eexists; reflexivity].
  unfold document_ok, sasl_continue_document, document_append. cbn [app forallb snd value_ok value_int32 untagged].
  assert (int32_ok cid = true) as -> by (unfold int32_ok; lia). done.
Qed.

Lemma conversation_id_range doc cid : readConversationId doc = Value cid -> 0 < cid < 2 ^ 31.
Proof.
  unfold readConversationId. destruct (document_find doc (bs "conversationId")) as [f|]; [|done].
  match goal with |- (value <-- ?m ;; _) = _ -> _ => destruct m as [v| |]; [|done..] end. cbn [obind].
  destruct (Z.leb_spec v 0); [done|]. destruct (Z.ltb_spec (2 ^ 31 - 1) v); [done|]. cbn [orb]. intros [= <-].
  unfold sint32. rewrite Z.mod_small by lia. lia.
Qed.

(** The request ids a client gives out one by one. *)
Definition id_step (next : Z) : Z * Z :=
  let first := if (next <=? 0) || (max_request_id <? next) then 1 else next in
  (first, if max_request_id <? first + 1 then 1 else first + 1).

Fixpoint ids_from (k : nat) (next : Z) : list Z :=
  match k with O => [] | S k => (id_step next).1 :: ids_from k (id_step next).2 end.

(** The octets of the requests for these documents, under the next ids. *)
Definition requests_for (next : Z) (documents : list MongoDocument) (requests : list bytes) : Prop :=
  Forall2 (fun p x => message_bytes p.1 0 p.2 = Some x) (zip (ids_from (length documents) next) documents) requests.

Lemma requests_exist next documents : Forall encodable documents -> exists requests, requests_for next documents requests.
Proof.
  intros Hd. revert next. induction Hd as [|d documents [_ [b Hb]] _ IH]; intros next; [by exists []; constructor|].
  destruct (IH (id_step next).2) as [requests Hr]. exists (op_msg_bytes (id_step next).1 0 b :: requests).
  constructor; [by apply message_bytes_some|exact Hr].
Qed.

Lemma requests_for_cons next d documents requests : requests_for next (d :: documents) requests ->
  exists x rest, requests = x :: rest /\ message_bytes (id_step next).1 0 d = Some x /\
    requests_for (id_step next).2 documents rest.
Proof. unfold requests_for. intros Hr. apply Forall2_cons_inv_l in Hr as (x & rest & Hx & Hr & ->). eauto. Qed.

Section Connect.
Context {B : Type} `{ByteRing B} {laws : ByteRingLaws B}.
#[local] Abbreviation client := (AsyncMongoClient B).

Lemma nextRequestId_step (c : client) :
  nextRequestId c = ((id_step (m_next_request_id c)).1, set_next_request_id (id_step (m_next_request_id c)).2 c).
Proof.
  unfold nextRequestId, reserveRequestIdBlock, id_step. cbn [Z.eqb].
  destruct (Z.leb_spec (m_next_request_id c) 0); cbn [orb].
  - reflexivity.
  - replace (m_next_request_id c + 1 - 1) with (m_next_request_id c) by lia. done.
Qed.

Lemma make_request_spec document phase s (c : client) request :
  document_ok document = true -> message_bytes (nextRequestId c).1 0 document = Some request ->
  make_request document phase s c = (Value false, set_request request phase s, (nextRequestId c).2).
Proof.
  intros Hok Hb. unfold make_request. destruct (nextRequestId c) as [rid c1]. unfold appendOpMsg. cbn [fst snd] in *.
  rewrite (op_msg_spec _ rid 0 _ (append_exact document Hok) []). unfold message_bytes in Hb. by rewrite Hb.
Qed.

(** A turn of the loop, with a connection that is ready and a server that answers. *)
Lemma connect_turn turns random_bytes config s (c : client) m w evs inc out rest :
  rb_ok (m_ring_buffer c) -> reply_wire m w -> reply_ok (mkReply (body m)) = true ->
  rb_view (m_ring_buffer c) ++ inc = w ++ rest -> blen w <= rb_capacity (m_ring_buffer c) ->
  Forall ready evs -> blen (encoded_request s) + blen w <= blen evs ->
  exists c2 inc' evs', connect_loop (S turns) random_bytes config s c (mkWorld inc out evs) =
      match handleReply random_bytes config (mkReply (body m)) s c2 with
      | (Value true, s', c) => Connected (set_open c) (mkWorld inc' (out ++ encoded_request s) evs')
      | (Value false, s', c) => connect_loop turns random_bytes config s' c (mkWorld inc' (out ++ encoded_request s) evs')
      | (Unexpected e, s', c) => Failed e c (mkWorld inc' (out ++ encoded_request s) evs')
      | (OutOfBounds, _, _) => Undefined
      end /\
    received_by c c2 /\ rb_view (m_ring_buffer c2) ++ inc' = rest /\ Forall ready evs' /\
    blen evs - blen evs' <= blen (encoded_request s) + blen w.
Proof.
  intros Hring Hw Hr E Hcap Hev Hlen. cbn [connect_loop]. unfold co_then, sendSegments. cbn [incoming outgoing events].
  pose proof (blen_nonneg w). pose proof (blen_nonneg (rb_view (m_ring_buffer c))).
  pose proof (blen_nonneg (encoded_request s)).
  assert (concat [encoded_request s] = encoded_request s) as Hone by apply app_nil_r.
  destruct (send_delivers [encoded_request s] 0 evs c inc out) as (evs1 & -> & Hev1 & Hu1);
    [lia|done|rewrite Hone; lia|]. rewrite Hone in *.
  change (Z.to_nat 0) with 0%nat. rewrite drop_0. unfold recvMessage. cbn [incoming outgoing events].
  destruct (recv_delivers m w RecvError evs1 c inc (out ++ encoded_request s) rest)
    as (c2 & inc' & evs' & -> & Hrec & Hrest & Hev' & Hu2); [done|done|done|done|done|lia|].
  exists c2, inc', evs'. split; [|split_and!; try done; lia]. unfold check_reply. by rewrite Hr.
Qed.

(** What is left for the turns to come. *)
Definition carried (c c' : client) : Prop :=
  rb_ok (m_ring_buffer c') /\ rb_capacity (m_ring_buffer c') = rb_capacity (m_ring_buffer c) /\
  m_next_request_id c' = (id_step (m_next_request_id c)).2.

(** A turn whose reply makes the flow send another request, and the one that ends it. *)
Lemma turn_requests turns random_bytes config s s' (c : client) m w evs inc out rest document phase request :
  rb_ok (m_ring_buffer c) -> reply_wire m w -> reply_ok (mkReply (body m)) = true ->
  rb_view (m_ring_buffer c) ++ inc = w ++ rest -> blen w <= rb_capacity (m_ring_buffer c) ->
  Forall ready evs -> blen (encoded_request s) + blen w <= blen evs ->
  (forall c2 : client, handleReply random_bytes config (mkReply (body m)) s c2 = make_request document phase s' c2) ->
  document_ok document = true -> message_bytes (id_step (m_next_request_id c)).1 0 document = Some request ->
  exists c2 inc' evs', connect_loop (S turns) random_bytes config s c (mkWorld inc out evs) =
      connect_loop turns random_bytes config (set_request request phase s') c2
        (mkWorld inc' (out ++ encoded_request s) evs') /\
    carried c c2 /\ rb_view (m_ring_buffer c2) ++ inc' = rest /\ Forall ready evs' /\
    blen evs - blen evs' <= blen (encoded_request s) + blen w.
Proof.
  intros Hring Hw Hr E Hcap Hev Hlen Hh Hok Hreq.
  destruct (connect_turn turns random_bytes config s c m w evs inc out rest Hring Hw Hr E Hcap Hev Hlen)
    as (c2 & inc' & evs' & -> & (_ & _ & Hn & _ & Hok2 & Hcap2) & Hrest & Hev' & Hu).
  rewrite Hh, (make_request_spec document phase s' c2 request Hok) by (by rewrite nextRequestId_step, Hn).
  exists (nextRequestId c2).2, inc', evs'. split; [done|]. rewrite nextRequestId_step.
  cbn [snd set_next_request_id m_ring_buffer m_next_request_id]. split_and!; try done. by rewrite Hn.
Qed.

Lemma turn_connects turns random_bytes config s (c : client) m w evs inc out rest :
  rb_ok (m_ring_buffer c) -> reply_wire m w -> reply_ok (mkReply (body m)) = true ->
  rb_view (m_ring_buffer c) ++ inc = w ++ rest -> blen w <= rb_capacity (m_ring_buffer c) ->
  Forall ready evs -> blen (encoded_request s) + blen w <= blen evs ->
  (forall c2 : client, handleReply random_bytes config (mkReply (body m)) s c2 = (Value true, s, c2)) ->
  exists c2 inc' evs', connect_loop (S turns) random_bytes config s c (mkWorld inc out evs) =
      Connected c2 (mkWorld inc' (out ++ encoded_request s) evs') /\
    m_is_closed c2 = false /\ rb_ok (m_ring_buffer c2) /\ rb_view (m_ring_buffer c2) ++ inc' = rest.
Proof.
  intros Hring Hw Hr E Hcap Hev Hlen Hh.
  destruct (connect_turn turns random_bytes config s c m w evs inc out rest Hring Hw Hr E Hcap Hev Hlen)
    as (c2 & inc' & evs' & -> & (_ & _ & _ & _ & Hok2 & _) & Hrest & _). rewrite Hh. by eexists _, inc', evs'.
Qed.
End Connect.

(** ** A server that knows the password *)

(** The names of RFC 5802 for what passes between a client with this nonce and a server with this salt, number of
    iterations and nonce of its own. [normalize] is SASLprep, which the server applies to the password it
    stores and the client does not. *)
Section Conversation.
Variables (normalize : bytes -> bytes) (config : MongoConfig) (random_bytes salt ext : bytes) (iterations : Z).

Definition client_nonce : bytes := rfc4648 false random_bytes.
Definition server_nonce : bytes := client_nonce ++ ext.
Definition client_first_bare : bytes := bs "n=" ++ escapeScramUsername (username config) ++ bs ",r=" ++ client_nonce.
Definition server_first : bytes := server_first_message server_nonce (rfc4648 false salt) (to_chars iterations).
Definition salted : bytes := salted_password (normalize (password config)) salt iterations.
Definition exchanged : bytes := auth_message client_first_bare server_first server_nonce.
Definition client_final (proof : bytes) : bytes := (bs "c=biws,r=" ++ server_nonce) ++ bs ",p=" ++ rfc4648 false proof.
Definition server_final : bytes := bs "v=" ++ rfc4648 false (server_signature salted exchanged).
Definition authentication_db : bytes :=
  match auth_database config with
  | [] => match config_database config with [] => bs "admin" | db => db end
  | db => db
  end.

(** The replies of the server: to the hello, to the two steps, and, unless it says it is done, to one more. *)
Record honest_replies (conversation_id : Z) (replies : list MongoMessage) (done : bool) : Prop := {
  hr_ok : Forall (fun m => reply_ok (mkReply (body m)) = true) replies;
  hr_steps : exists hello first final more, replies = hello :: first :: final :: more /\
    readConversationId (body first) = Value conversation_id /\
    readBinaryPayloadAsString (body first) = Value server_first /\
    readBinaryPayloadAsString (body final) = Value server_final /\
    getBool (body final) (bs "done") false = done /\
    match more with
    | [] => done = true
    | [last] => done = false /\ getBool (body last) (bs "done") false = true
    | _ => False
    end
}.

(** The documents the client sends. *)
Definition conversation (platform : Platform) (conversation_id : Z) (proof : bytes) (done : bool) : list MongoDocument :=
  [hello_document platform config; sasl_start_document (bs "n,," ++ client_first_bare) authentication_db;
   sasl_continue_document conversation_id (client_final proof) authentication_db] ++
  (if done then [] else [sasl_continue_document conversation_id [] authentication_db]).
End Conversation.

(** The client asks for one server, with a user and a password. *)
Record connectable (config : MongoConfig) : Prop := {
  ca_one : blen (seeds config) <= 1;
  ca_set : replica_set_name config = [];
  ca_primary : read_preference config = kPrimary;
  ca_user : username config <> [];
  ca_password : password config <> []
}.

Lemma check_final_spec signature doc : readBinaryPayloadAsString doc = Value (bs "v=" ++ rfc4648 false signature) ->
  check_server_final (rfc4648 false signature) doc = Value (getBool doc (bs "done") false).
Proof.
  intros Hp. unfold check_server_final. rewrite Hp. cbn [obind].
  destruct (parse_verifier (rfc4648 false signature) (no_comma_text _ _)) as [-> ->].
  by rewrite bool_decide_eq_true_2.
Qed.

Lemma conversation_encodable config random_bytes ext platform cid proof done : 0 < cid < 2 ^ 31 ->
  Forall encodable (conversation config random_bytes ext platform cid proof done).
Proof.
  intros Hc. unfold conversation. cbn [app]. apply Forall_cons; split; [apply hello_encodable|].
  apply Forall_cons; split; [apply start_encodable|]. apply Forall_cons; split; [by apply continue_encodable|].
  destruct done; [constructor|]. apply Forall_cons; split; [by apply continue_encodable|constructor].
Qed.

Section Honest.
Context {B : Type} `{ByteRing B} {laws : ByteRingLaws B}.
#[local] Abbreviation client := (AsyncMongoClient B).

(** What each phase does with the reply an honest server gives in it. *)
Lemma hello_step config random_bytes reply s (c : client) : auth_phase s = HelloReply -> auth_enabled s = true ->
  handleReply random_bytes config reply s c =
  make_request (sasl_start_document (bs "n,," ++ client_first_bare config random_bytes) (auth_db s)) SaslStartReply
    (set_first (client_nonce random_bytes) (client_first_bare config random_bytes) s) c.
Proof.
  intros Hp He. unfold handleReply, handleHelloReply, generateClientNonce. rewrite Hp, He, base64Encode_spec. done.
Qed.

Lemma start_step config random_bytes reply conversation_id signature final s (c : client) :
  answer_server_first (password config) (client_nonce random_bytes) (client_first_bare config random_bytes)
    (m_document reply) = Value (conversation_id, signature, final) ->
  auth_phase s = SaslStartReply ->
  auth_client_nonce s = client_nonce random_bytes -> auth_client_first_bare s = client_first_bare config random_bytes ->
  handleReply random_bytes config reply s c =
  make_request (sasl_continue_document conversation_id final (auth_db s)) SaslContinueReply
    (set_signature conversation_id signature s) c.
Proof. intros Ha Hp Hn Hb. unfold handleReply, handleSaslStartReply. by rewrite Hp, Hn, Hb, Ha. Qed.

Lemma final_step config random_bytes reply signature s (c : client) :
  readBinaryPayloadAsString (m_document reply) = Value (bs "v=" ++ rfc4648 false signature) ->
  auth_phase s = SaslContinueReply -> auth_expected_server_signature s = rfc4648 false signature ->
  handleReply random_bytes config reply s c =
  if getBool (m_document reply) (bs "done") false then (Value true, s, c)
  else make_request (sasl_continue_document (auth_conversation_id s) [] (auth_db s)) SaslFinalReply s c.
Proof.
  intros Hr Hp Hs. unfold handleReply, handleSaslContinueReply. rewrite Hp, Hs, check_final_spec by done.
  by destruct (getBool _ _ _).
Qed.

Lemma last_step config random_bytes reply s (c : client) :
  getBool (m_document reply) (bs "done") false = true -> auth_phase s = SaslFinalReply ->
  handleReply random_bytes config reply s c = (Value true, s, c).
Proof. intros Hd Hp. unfold handleReply, handleSaslFinalReply. by rewrite Hp, Hd. Qed.

Lemma initialize_spec platform config (c : client) request : connectable config ->
  message_bytes (id_step (m_next_request_id c)).1 0 (hello_document platform config) = Some request ->
  exists c2, initialize platform config new_flow c =
    (Value false, set_request request HelloReply (set_auth (authentication_db config) true new_flow), c2) /\
    m_ring_buffer c2 = m_ring_buffer c /\ m_next_request_id c2 = (id_step (m_next_request_id c)).2.
Proof.
  intros [_ _ _ Hu Hw] Hr. unfold initialize. rewrite !bool_decide_eq_false_2 by done. cbn [negb orb andb].
  rewrite (make_request_spec _ _ _ c request) by (apply hello_encodable || by rewrite nextRequestId_step).
  eexists. split; [done|]. by rewrite nextRequestId_step.
Qed.

(** The loop from the second step on, which an honest server answers with its signature. *)
Lemma connect_from_final turns config random_bytes signature s (c : client) final w more requests inc out rest evs
    (done := getBool (body final) (bs "done") false) :
  auth_phase s = SaslContinueReply -> auth_expected_server_signature s = rfc4648 false signature ->
  0 < auth_conversation_id s < 2 ^ 31 ->
  readBinaryPayloadAsString (body final) = Value (bs "v=" ++ rfc4648 false signature) ->
  match more with
  | [] => done = true
  | [(last, _)] => done = false /\ getBool (body last) (bs "done") false = true
  | _ => False
  end ->
  requests_for (m_next_request_id c)
    (if done then [] else [sasl_continue_document (auth_conversation_id s) [] (auth_db s)]) requests ->
  Forall (fun r => reply_ok (mkReply (body r.1)) = true /\ reply_wire r.1 r.2 /\ blen r.2 <= rb_capacity (m_ring_buffer c))
    ((final, w) :: more) ->
  rb_ok (m_ring_buffer c) -> rb_view (m_ring_buffer c) ++ inc = w ++ concat (map snd more) ++ rest ->
  Forall ready evs -> blen (encoded_request s ++ concat requests) + blen (w ++ concat (map snd more)) <= blen evs ->
  exists c' inc' evs', connect_loop (S (S turns)) random_bytes config s c (mkWorld inc out evs) =
      Connected c' (mkWorld inc' (out ++ encoded_request s ++ concat requests) evs') /\
    m_is_closed c' = false /\ rb_ok (m_ring_buffer c') /\ rb_view (m_ring_buffer c') ++ inc' = rest.
Proof.
  intros Hp Hs Hc Hr Hmore Hreq Hall Hring E Hev Hlen. apply Forall_cons in Hall as [(Hok & Hw & Hcap) Hall].
  rewrite !blen_app in Hlen. pose proof (blen_nonneg (concat requests)). pose proof (blen_nonneg (concat (map snd more))).
  pose proof (fun c : client => final_step config random_bytes (mkReply (body final)) signature s c Hr Hp Hs) as Step.
  cbn [m_document] in Step. fold done in Step. destruct more as [|[last w'] [|]]; [| |done].
  - rewrite Hmore in *. inversion Hreq; subst requests.
    destruct (turn_connects (S turns) random_bytes config s c final w evs inc out rest)
      as (c' & inc' & evs' & Er & ?); try done; [cbn [concat map] in *; lia|].
    exists c', inc', evs'. split; [|done]. simpl concat. by rewrite app_nil_r.
  - destruct Hmore as [Hd Hlast]. rewrite Hd in *. inversion Hreq as [|? request ? ? Hq Hnil]; subst.
    inversion Hnil; subst. cbn [concat map snd app] in *. rewrite ?app_nil_r in *. clear Hreq Hnil.
    apply Forall_cons in Hall as [(Hok' & Hw' & Hcap') _].
    destruct (turn_requests (S turns) random_bytes config s s c final w evs inc out (w' ++ rest)
                (sasl_continue_document (auth_conversation_id s) [] (auth_db s)) SaslFinalReply request)
      as (c2 & inc2 & evs2 & Er2 & (Hring2 & Hcap2 & _) & E2 & Hev2 & Hu2); try done; [lia|by apply continue_encodable|].
    destruct (turn_connects turns random_bytes config (set_request request SaslFinalReply s) c2 last w' evs2 inc2
                (out ++ encoded_request s) rest) as (c' & inc' & evs' & Er & ?);
      try done; [by rewrite Hcap2|cbn [set_request encoded_request]; lia|by intros; apply last_step|].
    exists c', inc', evs'. rewrite Er2, Er, <- app_assoc. done.
Qed.

Lemma connect_starts platform random_bytes dial config (c : client) w request : connectable config ->
  dial (endpoint config).1 (endpoint config).2 = Dialled -> rb_ok (m_ring_buffer c) ->
  message_bytes (id_step (m_next_request_id c)).1 0 (hello_document platform config) = Some request ->
  exists c2, connect platform random_bytes dial config c w =
      connect_loop 4 random_bytes config
        (set_request request HelloReply (set_auth (authentication_db config) true new_flow)) c2 w /\
    carried c c2 /\ rb_view (m_ring_buffer c2) = [].
Proof.
  intros Hca Hd Hring Hr. unfold connect. pose proof Hca as [H1 H2 H3 _ _].
  rewrite (proj2 (Z.ltb_ge 1 _)) by done. rewrite H2, H3, !bool_decide_eq_true_2 by done. cbn [negb orb].
  destruct (rb_clear_view (m_ring_buffer c) Hring) as (Hok & Hcap & Hv).
  destruct (initialize_spec platform config (set_ring (rb_clear (m_ring_buffer c)) [] c) request Hca Hr)
    as (c2 & -> & Er & En). rewrite Hd. exists c2. split; [done|]. unfold carried. rewrite Er, En. by split_and!.
Qed.

Lemma Forall_both {A C} (f : A -> C) (P : C -> Prop) (Q : A -> Prop) l :
  Forall P (map f l) -> Forall Q l -> Forall (fun x => P (f x) /\ Q x) l.
Proof.
  intros Hp Hq. induction Hq as [|x l Hx Hl IH]; [constructor|]. apply Forall_cons in Hp as [Hp1 Hp].
  constructor; [done|by apply IH].
Qed.

Lemma honest_answer normalize config random_bytes salt ext iterations doc cid :
  normalize (password config) = password config ->
  readConversationId doc = Value cid ->
  readBinaryPayloadAsString doc = Value (server_first random_bytes salt ext iterations) ->
  0 < iterations < 2 ^ 31 -> no_comma ext ->
  exists proof,
    proof_accepted (stored_key (salted normalize config salt iterations)) (exchanged config random_bytes salt ext iterations) proof /\
    answer_server_first (password config) (client_nonce random_bytes) (client_first_bare config random_bytes) doc =
    Value (cid, rfc4648 false (server_signature (salted normalize config salt iterations)
                                 (exchanged config random_bytes salt ext iterations)), client_final random_bytes ext proof).
Proof.
  intros Hn Hc Hp Hi He. unfold salted. rewrite Hn. apply answer_spec; [done|exact Hp|done|]. apply Forall_app. split; [apply no_comma_text|done].
Qed.

(** The first three steps of the conversation, up to the reply that carries the signature. *)
Lemma connect_first_steps platform random_bytes dial config (c : client) m0 w0 m1 w1 conversation_id signature final
    r0 r1 r2 inc out rest evs :
  connectable config -> dial (endpoint config).1 (endpoint config).2 = Dialled -> rb_ok (m_ring_buffer c) ->
  0 < conversation_id < 2 ^ 31 ->
  answer_server_first (password config) (client_nonce random_bytes) (client_first_bare config random_bytes) (body m1) =
    Value (conversation_id, signature, final) ->
  (forall m w, (m, w) ∈ [(m0, w0); (m1, w1)] ->
     reply_ok (mkReply (body m)) = true /\ reply_wire m w /\ blen w <= rb_capacity (m_ring_buffer c)) ->
  let next := m_next_request_id c in
  message_bytes (id_step next).1 0 (hello_document platform config) = Some r0 ->
  message_bytes (id_step (id_step next).2).1 0
    (sasl_start_document (bs "n,," ++ client_first_bare config random_bytes) (authentication_db config)) = Some r1 ->
  message_bytes (id_step (id_step (id_step next).2).2).1 0
    (sasl_continue_document conversation_id final (authentication_db config)) = Some r2 ->
  inc = w0 ++ w1 ++ rest -> Forall ready evs -> blen (r0 ++ r1) + blen (w0 ++ w1) <= blen evs ->
  exists s c2 inc' evs', connect platform random_bytes dial config c (mkWorld inc out evs) =
      connect_loop 2 random_bytes config s c2 (mkWorld inc' (out ++ r0 ++ r1) evs') /\
    (auth_phase s = SaslContinueReply /\ auth_expected_server_signature s = signature /\
     auth_conversation_id s = conversation_id /\ auth_db s = authentication_db config /\ encoded_request s = r2) /\
    rb_ok (m_ring_buffer c2) /\ rb_capacity (m_ring_buffer c2) = rb_capacity (m_ring_buffer c) /\
    m_next_request_id c2 = (id_step (id_step (id_step next).2).2).2 /\
    rb_view (m_ring_buffer c2) ++ inc' = rest /\ Forall ready evs' /\
    blen evs - blen evs' <= blen (r0 ++ r1) + blen (w0 ++ w1).
Proof.
  intros Hca Hdial Hring Hrange Hans Hm next R0 R1 R2 -> Hev Hlen. rewrite !blen_app in *.
  destruct (Hm m0 w0) as (Hok0 & Hw0 & Hc0); [by left|]. destruct (Hm m1 w1) as (Hok1 & Hw1 & Hc1); [by right; left|].
  pose proof (blen_nonneg r1). pose proof (blen_nonneg w1).
  destruct (connect_starts platform random_bytes dial config c (mkWorld (w0 ++ w1 ++ rest) out evs) r0 Hca Hdial Hring R0)
    as (ca & -> & (Hra & Hcapa & Hna) & Hva).
  destruct (turn_requests 3 random_bytes config (set_request r0 HelloReply (set_auth (authentication_db config) true new_flow))
              (set_first (client_nonce random_bytes) (client_first_bare config random_bytes)
                 (set_request r0 HelloReply (set_auth (authentication_db config) true new_flow)))
              ca m0 w0 evs (w0 ++ w1 ++ rest) out (w1 ++ rest)
              (sasl_start_document (bs "n,," ++ client_first_bare config random_bytes) (authentication_db config))
              SaslStartReply r1)
    as (cb & incb & evsb & -> & (Hrb & Hcapb & Hnb) & Eb & Hevb & Hub);
    try done; [by rewrite Hva|by rewrite Hcapa|cbn [encoded_request set_request]; lia|by intros; rewrite hello_step|by rewrite Hna|].
  cbn [encoded_request set_request] in Hub. cbn [encoded_request set_request set_auth set_first].
  destruct (turn_requests 2 random_bytes config
              (set_request r1 SaslStartReply (set_first (client_nonce random_bytes) (client_first_bare config random_bytes)
                 (set_request r0 HelloReply (set_auth (authentication_db config) true new_flow))))
              (set_signature conversation_id signature
                (set_request r1 SaslStartReply (set_first (client_nonce random_bytes) (client_first_bare config random_bytes)
                 (set_request r0 HelloReply (set_auth (authentication_db config) true new_flow)))))
              cb m1 w1 evsb incb (out ++ r0) rest
              (sasl_continue_document conversation_id final (authentication_db config)) SaslContinueReply r2)
    as (cc & incc & evsc & -> & (Hrc & Hcapc & Hnc) & Ec & Hevc & Huc);
    try done; [by rewrite Hcapb, Hcapa|cbn [encoded_request set_request]; lia
              |by intros; rewrite (start_step _ _ _ conversation_id signature final)|by apply continue_encodable
              |by rewrite Hnb, Hna|].
  cbn [encoded_request set_request] in Huc. cbn [encoded_request set_request].
  eexists _, cc, incc, evsc. rewrite <- app_assoc. split; [done|]. split; [done|].
  split_and!; try done; [by rewrite Hcapc, Hcapb, Hcapa|by rewrite Hnc, Hnb, Hna|lia].
Qed.

(** C16: Authentication: however the socket cuts the octets, a client with the right password and a server that
    follows RFC 5802 connect, if SASLprep leaves the password as it is, for the client does not apply it. The client sends its messages and no others, under its next request ids, with a proof
    the server accepts, and leaves what follows the last reply. *)
Theorem scram_connects normalize platform random_bytes dial config (c : client) salt ext iterations conversation_id done replies
    inc out rest :
  connectable config -> dial (endpoint config).1 (endpoint config).2 = Dialled ->
  no_comma ext -> 0 < iterations < 2 ^ 31 -> rb_ok (m_ring_buffer c) ->
  normalize (password config) = password config ->
  honest_replies normalize config random_bytes salt ext iterations conversation_id (map fst replies) done ->
  Forall (fun r => reply_wire r.1 r.2 /\ blen r.2 <= rb_capacity (m_ring_buffer c)) replies ->
  inc = concat (map snd replies) ++ rest ->
  exists proof requests,
    proof_accepted (stored_key (salted normalize config salt iterations)) (exchanged config random_bytes salt ext iterations) proof /\
    requests_for (m_next_request_id c) (conversation config random_bytes ext platform conversation_id proof done) requests /\
    forall evs, Forall ready evs -> blen (concat requests) + blen (concat (map snd replies)) <= blen evs ->
      exists c' inc' evs', connect platform random_bytes dial config c (mkWorld inc out evs) =
          Connected c' (mkWorld inc' (out ++ concat requests) evs') /\
        m_is_closed c' = false /\ rb_ok (m_ring_buffer c') /\ rb_view (m_ring_buffer c') ++ inc' = rest.
Proof.
  intros Hca Hdial Hext Hit Hring Hnorm [Hoks (m0 & m1 & m2 & more & Em & Hcid & Hsf & Hfin & Hdone & Hmore)] Hall ->.
  destruct replies as [|[? w0] [|[? w1] [|[? w2] tail]]]; try done. injection Em as -> -> -> Em.
  destruct (honest_answer normalize config random_bytes salt ext iterations (body m1) conversation_id Hnorm Hcid Hsf Hit Hext)
    as (proof & Hacc & Hans). unfold server_final in Hfin.
  set (signature := server_signature _ _) in *. clearbody signature.
  pose proof (conversation_id_range _ _ Hcid) as Hrange.
  pose proof (Forall_both fst _ _ _ Hoks Hall) as Hgood. cbv beta in Hgood.
  destruct (requests_exist (m_next_request_id c) (conversation config random_bytes ext platform conversation_id proof done))
    as [requests Hreq]; [by apply conversation_encodable|].
  exists proof, requests. split_and!; [exact Hacc|exact Hreq|]. intros evs Hev Hlen.
  unfold conversation in Hreq. cbn [app] in Hreq.
  apply requests_for_cons in Hreq as (r0 & requests1 & -> & R0 & Hreq).
  apply requests_for_cons in Hreq as (r1 & requests2 & -> & R1 & Hreq).
  apply requests_for_cons in Hreq as (r2 & requests3 & -> & R2 & Hreq).
  cbn [map concat snd] in *. rewrite <- !app_assoc. rewrite !blen_app in Hlen.
  pose proof Hgood as Hgood2. do 2 apply Forall_cons in Hgood2 as [_ Hgood2].
  rewrite Forall_forall in Hgood.
  pose proof (blen_nonneg r2). pose proof (blen_nonneg w2). pose proof (blen_nonneg (concat requests3)).
  pose proof (blen_nonneg (concat (map snd tail))).
  destruct (connect_first_steps platform random_bytes dial config c m0 w0 m1 w1 conversation_id (rfc4648 false signature)
              (client_final random_bytes ext proof) r0 r1 r2
              (w0 ++ w1 ++ w2 ++ concat (map snd tail) ++ rest) out (w2 ++ concat (map snd tail) ++ rest) evs
              Hca Hdial Hring Hrange Hans) as (s & c2 & inc' & evs' & -> & (Hp & Hs & Hc & Hdb & Hq) & Hring2 & Hcap2 & Hn & E & Hev' & Hu);
    [|eassumption..|reflexivity|eassumption|rewrite !blen_app; lia|].
  { intros m w Hin. apply (Hgood (m, w)). apply list_elem_of_In in Hin. apply list_elem_of_In.
    destruct Hin as [<- |[<- |[]]]; simpl; tauto. }
  rewrite !blen_app in Hu.
  destruct (connect_from_final 0 config random_bytes signature s c2 m2 w2 tail requests3 inc' (out ++ r0 ++ r1) rest evs' Hp Hs)
    as (c' & inc2 & evs2 & -> & ?);
    [by rewrite Hc|eassumption| | |by rewrite Hcap2|eassumption..|rewrite Hq, !blen_app; lia|].
  - rewrite <- Em in Hmore. rewrite Hdone. destruct tail as [|[] [|]]; exact Hmore.
  - rewrite Hdone, Hn, Hc, Hdb. by destruct done.
  - exists c', inc2, evs2. rewrite Hq, <- !app_assoc. split; [reflexivity|assumption].
Qed.

(** ** What a connection means *)

(** What a connection has still to give: the octets in the ring and those to come. *)
Definition stream (c : client) (w : world) : bytes := rb_view (m_ring_buffer c) ++ incoming w.

(** [wire] is the message [m] as it comes. *)
Definition carries (wire : bytes) (m : MongoMessage) : Prop := decodeMessage wire (blen wire) = Value m.

Lemma make_request_phase document phase s (c : client) b s' c' :
  make_request document phase s c = (Value b, s', c') ->
  b = false /\ m_ring_buffer c' = m_ring_buffer c /\ exists encoded, s' = set_request encoded phase s.
Proof.
  unfold make_request. rewrite nextRequestId_step.
  destruct (appendOpMsg _ document 0 []) as [encoded [e|]]; [done|]. intros [= <- <- <-]. eauto.
Qed.

Lemma reply_keeps_ring random_bytes config reply s (c : client) b s' c' :
  handleReply random_bytes config reply s c = (Value b, s', c') -> m_ring_buffer c' = m_ring_buffer c.
Proof.
  unfold handleReply, handleHelloReply, handleSaslStartReply, handleSaslContinueReply, handleSaslFinalReply.
  destruct (auth_phase s).
  - destruct (auth_enabled s); cbn [negb]; [|by intros [= _ _ <-]]. destruct (generateClientNonce random_bytes); [|done].
    by intros (_ & ? & _)%make_request_phase.
  - destruct (answer_server_first _ _ _ _) as [[[? ?] ?]| |]; [|done..]. by intros (_ & ? & _)%make_request_phase.
  - destruct (check_server_final _ _) as [[]| |]; [by intros [= _ _ <-]| |done..].
    by intros (_ & ? & _)%make_request_phase.
  - destruct (getBool _ _ _); [by intros [= _ _ <-]|done].
Qed.

(** A turn that does not fail takes one message from the front of the stream. *)
Lemma loop_step turns random_bytes config s (c : client) w c' w' : rb_ok (m_ring_buffer c) ->
  connect_loop (S turns) random_bytes config s c w = Connected c' w' ->
  exists wire m rest c1 s1 c2, stream c w = wire ++ rest /\ carries wire m /\
    (handleReply random_bytes config (mkReply (body m)) s c1 = (Value true, s1, c2) \/
     exists w1, handleReply random_bytes config (mkReply (body m)) s c1 = (Value false, s1, c2) /\
       rb_ok (m_ring_buffer c2) /\ stream c2 w1 = rest /\
       connect_loop turns random_bytes config s1 c2 w1 = Connected c' w').
Proof.
  intros Hok. cbn [connect_loop]. unfold co_then. destruct (sendSegments _ c w) as [[e|u] c0 w0|?|] eqn:Es; try done.
  unfold sendSegments in Es. destruct u. apply send_sound in Es as [-> Hin].
  destruct (recvMessage RecvError c w0) as [[e|m] c1 w1|?|] eqn:Er; try done. unfold recvMessage in Er.
  apply recv_sound in Er as (wire & E & Hm & (_ & _ & _ & _ & Hok1 & _) & _); [|done]. rewrite Hin in E.
  unfold check_reply. destruct (reply_ok (mkReply (body m))); [|done].
  destruct (handleReply random_bytes config (mkReply (body m)) s c1) as [[[[]|e|] s1] c2] eqn:Eh; try done; intros El;
    exists wire, m, (stream c1 w1), c1, s1, c2; (split; [exact E|split; [exact Hm|]]); [by left|right].
  apply reply_keeps_ring in Eh as Hring. exists w1. unfold stream. by rewrite Hring.
Qed.

Lemma connected_from_continue turns random_bytes config s (c : client) w c' w' : rb_ok (m_ring_buffer c) ->
  connect_loop turns random_bytes config s c w = Connected c' w' -> auth_phase s = SaslContinueReply ->
  exists final_wire final rest b, stream c w = final_wire ++ rest /\ carries final_wire final /\
    check_server_final (auth_expected_server_signature s) (body final) = Value b.
Proof.
  destruct turns as [|turns]; [done|]. intros Hok E Hp.
  apply loop_step in E as (wire & m & rest & c1 & s1 & c2 & Hs & Hm & E); [|done].
  assert (exists b, handleReply random_bytes config (mkReply (body m)) s c1 = (Value b, s1, c2)) as [b Eh]
    by (destruct E as [E|(? & E & _)]; eauto).
  unfold handleReply, handleSaslContinueReply in Eh. rewrite Hp in Eh. cbn [m_document] in Eh.
  destruct (check_server_final _ (body m)) as [v|e|] eqn:Ec; [|done|done]. by exists wire, m, rest, v.
Qed.

Lemma connected_from_start turns random_bytes config s (c : client) w c' w' : rb_ok (m_ring_buffer c) ->
  connect_loop turns random_bytes config s c w = Connected c' w' -> auth_phase s = SaslStartReply ->
  exists first_wire first final_wire final rest conversation_id signature message b,
    stream c w = first_wire ++ final_wire ++ rest /\ carries first_wire first /\ carries final_wire final /\
    answer_server_first (password config) (auth_client_nonce s) (auth_client_first_bare s) (body first) =
      Value (conversation_id, signature, message) /\
    check_server_final signature (body final) = Value b.
Proof.
  destruct turns as [|turns]; [done|]. intros Hok E Hp.
  apply loop_step in E as (wire & m & rest & c1 & s1 & c2 & Hs & Hm & E); [|done].
  unfold handleReply, handleSaslStartReply in E. rewrite Hp in E. cbn [m_document] in E.
  destruct (answer_server_first _ _ _ (body m)) as [[[cid signature] message]|e|] eqn:Ea;
    [|destruct E as [|(? & ? & _)]; done..].
  destruct E as [E|(w1 & Eh & Hok2 & Hrest & E)]; [by apply make_request_phase in E as [? _]|].
  apply make_request_phase in Eh as (_ & _ & encoded & ->).
  apply connected_from_continue in E as (final_wire & final & rest' & b & Hs' & Hm' & Ec); [|done|done].
  exists wire, m, final_wire, final, rest', cid, signature, message, b. rewrite Hs, <- Hrest, Hs'. by split_and!.
Qed.

Lemma connected_from_hello turns random_bytes config s (c : client) w c' w' : rb_ok (m_ring_buffer c) ->
  connect_loop turns random_bytes config s c w = Connected c' w' -> auth_phase s = HelloReply -> auth_enabled s = true ->
  exists hello_wire hello first_wire first final_wire final rest conversation_id signature message b,
    stream c w = hello_wire ++ first_wire ++ final_wire ++ rest /\
    carries hello_wire hello /\ carries first_wire first /\ carries final_wire final /\
    answer_server_first (password config) (client_nonce random_bytes) (client_first_bare config random_bytes) (body first) =
      Value (conversation_id, signature, message) /\
    check_server_final signature (body final) = Value b.
Proof.
  destruct turns as [|turns]; [done|]. intros Hok E Hp Hen.
  apply loop_step in E as (wire & m & rest & c1 & s1 & c2 & Hs & Hm & E); [|done]. rewrite hello_step in E by done.
  destruct E as [E|(w1 & Eh & Hok2 & Hrest & E)]; [by apply make_request_phase in E as [? _]|].
  apply make_request_phase in Eh as (_ & _ & encoded & ->).
  apply connected_from_start in E as (fw & f & lw & l & rest' & cid & sig & msg & b & Hs' & ? & ? & Ha & Hc); [|done|done].
  exists wire, m, fw, f, lw, l, rest', cid, sig, msg, b. rewrite Hs, <- Hrest, Hs'.
  split; [reflexivity|]. split; [exact Hm|]. split_and!; [assumption|assumption|exact Ha|exact Hc].
Qed.

(** What the two messages of the server must have been. *)
Lemma answer_inv password nonce first_bare doc conversation_id signature final :
  answer_server_first password nonce first_bare doc = Value (conversation_id, signature, final) ->
  exists sf sn st it salt iterations ptr,
    readBinaryPayloadAsString doc = Value sf /\ parseScramPayload sf !! bs "r" = Some sn /\
    take (length nonce) sn = nonce /\ parseScramPayload sf !! bs "s" = Some st /\ base64Decode st = Some salt /\
    parseScramPayload sf !! bs "i" = Some it /\ from_chars 10 (- 2 ^ 31) (2 ^ 31 - 1) it = Parsed iterations ptr /\
    0 < iterations /\
    signature = rfc4648 false (server_signature (salted_password password salt iterations) (auth_message first_bare sf sn)).
Proof.
  unfold answer_server_first. destruct (readConversationId doc) as [cid| |]; try done. cbn [obind].
  destruct (readBinaryPayloadAsString doc) as [sf| |]; try done. cbn [obind].
  destruct (parseScramPayload sf !! bs "r") as [sn|] eqn:Er; [|done].
  destruct (parseScramPayload sf !! bs "s") as [st|] eqn:Es; [|done].
  destruct (parseScramPayload sf !! bs "i") as [it|] eqn:Ei; [|done].
  case_bool_decide as Hn; [|done]. cbn [negb].
  destruct (from_chars 10 (- 2 ^ 31) (2 ^ 31 - 1) it) as [iterations ptr| |] eqn:Ef; try done.
  destruct (Z.leb_spec iterations 0); [done|]. destruct (base64Decode st) as [salt|] eqn:Eb; [|done].
  pose proof (from_chars_range _ _ _ _ _ _ Ef). rewrite derivation_spec by lia. cbn [obind].
  fold (auth_message first_bare sf sn).
  destruct (scram_answers_spec (salted_password password salt iterations) (auth_message first_bare sf sn)) as (proof & E & _).
  change (first_bare ++ [comma] ++ sf ++ [comma] ++ bs "c=biws,r=" ++ sn) with (auth_message first_bare sf sn).
  rewrite E. cbn [defined obind fst snd]. case_bool_decide; [done|]. intros [= _ <- _].
  exists sf, sn, st, it, salt, iterations, ptr. by split_and!.
Qed.

Lemma check_inv signature doc b : check_server_final signature doc = Value b ->
  exists fin, readBinaryPayloadAsString doc = Value fin /\ parseScramPayload fin !! bs "e" = None /\
    parseScramPayload fin !! bs "v" = Some signature.
Proof.
  unfold check_server_final. destruct (readBinaryPayloadAsString doc) as [fin| |]; try done. cbn [obind].
  destruct (parseScramPayload fin !! bs "e") eqn:Ee; [done|].
  destruct (parseScramPayload fin !! bs "v") as [v|] eqn:Ev; [|done]. case_bool_decide as Hv; [|done]. intros _.
  exists fin. split_and!; [reflexivity|exact Ee|by rewrite Ev, Hv].
Qed.

(** C17: Whatever comes over the socket, a client that reports a connection with a user has received, in this
    connection and in this order, a reply to its hello, a first message with a nonce that starts with its own,
    and a final one with the signature that takes the keys of the password to make, over its own first message
    and the very message received before. *)
Theorem connected_is_authenticated platform random_bytes dial config (c : client) w c' w' :
  rb_ok (m_ring_buffer c) ->
  connect platform random_bytes dial config c w = Connected c' w' -> username config <> [] ->
  exists hello_wire hello first_wire first final_wire final rest sf fin server_nonce salt_text iterations_text salt
      iterations ptr,
    incoming w = hello_wire ++ first_wire ++ final_wire ++ rest /\
    carries hello_wire hello /\ carries first_wire first /\ carries final_wire final /\
    readBinaryPayloadAsString (body first) = Value sf /\
    parseScramPayload sf !! bs "r" = Some server_nonce /\
    take (length (client_nonce random_bytes)) server_nonce = client_nonce random_bytes /\
    parseScramPayload sf !! bs "s" = Some salt_text /\ base64Decode salt_text = Some salt /\
    parseScramPayload sf !! bs "i" = Some iterations_text /\
    from_chars 10 (- 2 ^ 31) (2 ^ 31 - 1) iterations_text = Parsed iterations ptr /\ 0 < iterations /\
    readBinaryPayloadAsString (body final) = Value fin /\ parseScramPayload fin !! bs "e" = None /\
    parseScramPayload fin !! bs "v" =
      Some (rfc4648 false (server_signature (salted_password (password config) salt iterations)
                             (auth_message (client_first_bare config random_bytes) sf server_nonce))).
Proof.
  intros Hok. unfold connect. destruct (_ || _); [done|]. intros E Hu. unfold initialize in E.
  rewrite bool_decide_eq_false_2 in E by done. cbn [negb orb andb] in E.
  destruct (bool_decide (password config = [])); [done|].
  destruct (make_request _ _ _ _) as [[[b| |] s1] c2] eqn:Em; try done.
  apply make_request_phase in Em as (_ & Hring & encoded & ->). destruct (dial _ _); try done.
  cbn [set_ring m_ring_buffer] in Hring. destruct (rb_clear_view (m_ring_buffer c) Hok) as (Hok' & _ & Hv).
  rewrite <- Hring in Hok', Hv.
  apply connected_from_hello in E as
    (hw & hello & fw & first & lw & final & rest & cid & signature & message & b' & Hs & ? & ? & ? & Ha & Hc); [|done..].
  unfold stream in Hs. rewrite Hv in Hs. cbn [app] in Hs.
  apply answer_inv in Ha as (sf & sn & st & it & salt & iterations & ptr & ? & ? & ? & ? & ? & ? & ? & ? & ->).
  apply check_inv in Hc as (fin & ? & ? & ?).
  exists hw, hello, fw, first, lw, final, rest, sf, fin, sn, st, it, salt, iterations, ptr. split_and!; assumption.
Qed.

(** ** The loop ends *)

Definition turns_left (phase : AuthPhase) : nat :=
  match phase with HelloReply => 4 | SaslStartReply => 3 | SaslContinueReply => 2 | SaslFinalReply => 1 end.

Lemma phases_advance random_bytes config reply s (c : client) s' c' :
  handleReply random_bytes config reply s c = (Value false, s', c') ->
  (turns_left (auth_phase s') < turns_left (auth_phase s))%nat.
Proof.
  unfold handleReply, handleHelloReply, handleSaslStartReply, handleSaslContinueReply, handleSaslFinalReply.
  destruct (auth_phase s) eqn:Hp.
  - destruct (auth_enabled s); [|done]. cbn [negb]. destruct (generateClientNonce random_bytes); [|done].
    intros E. apply make_request_phase in E as (_ & _ & e & ->). simpl. lia.
  - destruct (answer_server_first _ _ _ _) as [[[? ?] ?]| |]; [|done..].
    intros E. apply make_request_phase in E as (_ & _ & e & ->). simpl. lia.
  - destruct (check_server_final _ _) as [[]| |]; [done| |done..].
    intros E. apply make_request_phase in E as (_ & _ & e & ->). simpl. lia.
  - by destruct (getBool _ _ _).
Qed.

(** The conversation ends after four replies at most: the bound of the model's loop is never met. *)
Theorem connect_ends platform random_bytes dial config (c : client) w :
  connect platform random_bytes dial config c w <> OutOfTurns.
Proof.
  assert (forall turns s (c : client) w, (turns_left (auth_phase s) <= turns)%nat ->
    connect_loop turns random_bytes config s c w <> OutOfTurns) as L.
  { induction turns as [|turns IH]; intros s c0 w0 Hs; [destruct (auth_phase s); simpl in Hs; lia|].
    cbn [connect_loop]. destruct (co_then _ _ c0 w0) as [[e|m] c1 w1|?|]; try done.
    destruct (check_reply m _) as [e|reply]; [done|].
    destruct (handleReply random_bytes config reply s c1) as [[[[]| |] s'] c2] eqn:Eh; try done.
    apply phases_advance in Eh. apply IH. lia. }
  unfold connect. destruct (_ || _); [done|].
  destruct (initialize platform config new_flow _) as [[[b| |] s] c2]; try done.
  destruct (dial _ _); try done. apply L. destruct (auth_phase s); simpl; lia.
Qed.
End Honest.

(** ** On concrete input *)

Definition linux : Platform := mkPlatform (bs "Linux") (bs "Linux") (Some (bs "x86_64")).
Definition pencil : MongoConfig :=
  mkConfig (bs "localhost") 27017 (bs "user,=") (bs "pencil") (bs "shop") [] [] (bs "till") [] [] kPrimary.
Definition set_password (password : bytes) (config : MongoConfig) : MongoConfig :=
  mkConfig (host config) (port config) (username config) password (config_database config) (auth_database config)
    (hello_database config) (app_name config) (seeds config) (replica_set_name config) (read_preference config).

(** Two of the mappings of SASLprep, RFC 4013: a no-break space becomes a space, a soft hyphen nothing. *)
Fixpoint saslprep (text : bytes) : bytes :=
  match text with
  | c :: tail =>
      match tail with
      | d :: rest =>
          if decide (c = z2b 0xC2 /\ d = z2b 0xA0) then z2b 32 :: saslprep rest
          else if decide (c = z2b 0xC2 /\ d = z2b 0xAD) then saslprep rest
          else c :: saslprep tail
      | [] => [c]
      end
  | [] => []
  end.

Definition sample_random : bytes := map (fun n => z2b (11 * Z.of_nat n)) (seq 0 18).
Definition dials (host : bytes) (port : Z) : dial_answer := Dialled.

Definition step_document (payload : bytes) (finished : bool) : MongoDocument :=
  [(bs "conversationId", value_int32 1); (bs "done", value_bool finished); (bs "payload", value_binary payload);
   (bs "ok", value_double one_bits)].

(** What a server with the salt [salt] answers that stretches keys once; its nonce ends in [srv]. *)
Definition sample_documents : list MongoDocument :=
  [ok_document 1; step_document (server_first sample_random (bs "salt") (bs "srv") 1) false;
   step_document (server_final saslprep pencil sample_random (bs "salt") (bs "srv") 1) false; step_document [] true].

Definition sample_replies : list (MongoMessage * bytes) :=
  zip_with (fun id d => (answer_message id d, answer_bytes id d)) [1; 2; 3; 4] sample_documents.

Lemma sample_wires :
  Forall (fun r => reply_wire r.1 r.2 /\ blen r.2 <= rb_capacity (new_mmap 400)) sample_replies.
Proof.
  assert (forall id d, forallb (fun b => b) [blen (answer_bytes id d) <=? 400; 16 <=? blen (answer_bytes id d);
    bool_decide (take 4 (answer_bytes id d) = put_le32 (blen (answer_bytes id d)))] = true ->
    decodeMessage (answer_bytes id d) (blen (answer_bytes id d)) = Value (answer_message id d) ->
    reply_wire (answer_message id d) (answer_bytes id d) /\ blen (answer_bytes id d) <= 400) as W.
  { intros id d Hb Hd. cbn [forallb] in Hb. apply andb_prop in Hb as [Hl%Z.leb_le Hb].
    apply andb_prop in Hb as [H16%Z.leb_le Hb]. apply andb_prop in Hb as [H4%bool_decide_eq_true _].
    split; [|exact Hl]. split; [|unfold kAsyncMaxMessageSize; lia|exact Hd].
    exists [], (drop 4 (answer_bytes id d)). rewrite <- H4. cbn [app]. by rewrite take_drop. }
  unfold sample_replies, sample_documents. cbn [zip_with].
  repeat (apply Forall_cons; split; [apply W; vm_compute; reflexivity|]). apply Forall_nil_2.
Qed.

Lemma sample_honest : honest_replies saslprep pencil sample_random (bs "salt") (bs "srv") 1 1 (map fst sample_replies) false.
Proof.
  split; [repeat (apply Forall_cons; split; [vm_compute; reflexivity|]); apply Forall_nil_2|].
  eexists _, _, _, _. split; [reflexivity|]. repeat (split; [vm_compute; reflexivity|]). vm_compute. reflexivity.
Qed.

Lemma scram_connects_witness :
  exists proof requests, length requests = 4%nat /\
    proof_accepted (stored_key (salted saslprep pencil (bs "salt") 1)) (exchanged pencil sample_random (bs "salt") (bs "srv") 1) proof /\
    forall evs, Forall ready evs -> blen (concat requests) + blen (concat (map snd sample_replies)) <= blen evs ->
      exists c' inc' evs', connect linux sample_random dials pencil (open_client 400)
          (mkWorld (concat (map snd sample_replies) ++ []) [] evs) =
        Connected c' (mkWorld inc' (concat requests) evs').
Proof.
  destruct (scram_connects saslprep linux sample_random dials pencil (open_client 400) (bs "salt") (bs "srv") 1 1 false
    sample_replies (concat (map snd sample_replies) ++ []) [] []) as (proof & requests & Hp & Hr & Hrun).
  - split; [discriminate|reflexivity|reflexivity|discriminate|discriminate].
  - reflexivity.
  - repeat constructor; discriminate.
  - lia.
  - apply ring_ok_empty.
  - vm_compute. reflexivity.
  - exact sample_honest.
  - exact sample_wires.
  - reflexivity.
  - exists proof, requests. split; [|split; [exact Hp|]].
    + apply Forall2_length in Hr. symmetry. exact Hr.
    + intros evs Hev Hlen. destruct (Hrun evs Hev Hlen) as (c' & inc' & evs' & E & _). exists c', inc', evs'. exact E.
Defined.

Lemma connected_inv {B} (r : connect_result B) :
  match r with Connected _ _ => true | _ => false end = true -> exists c w, r = Connected c w.
Proof. destruct r; try discriminate. eauto. Qed.

Lemma sample_connects : exists c' w',
  connect linux sample_random dials pencil (open_client 400)
    (mkWorld (concat (map snd sample_replies)) [] (replicate 60 (Ready 97))) = Connected c' w'.
Proof. apply connected_inv. vm_compute. reflexivity. Qed.

Lemma connected_is_authenticated_witness :
  exists hello_wire hello first_wire first final_wire final rest fin v,
    concat (map snd sample_replies) = hello_wire ++ first_wire ++ final_wire ++ rest /\
    carries hello_wire hello /\ carries first_wire first /\ carries final_wire final /\
    readBinaryPayloadAsString (body final) = Value fin /\ parseScramPayload fin !! bs "v" = Some v.
Proof.
  destruct sample_connects as (c' & w' & E).
  assert (rb_ok (m_ring_buffer (open_client 400))) as Hok by (apply ring_ok_empty).
  destruct (connected_is_authenticated linux sample_random dials pencil _ _ _ _ Hok E)
    as (hw & hello & fw & first & lw & final & rest & sf & fin & sn & st & it & salt & iterations & ptr &
        Hs & H1 & H2 & H3 & _ & _ & _ & _ & _ & _ & _ & _ & Hf & _ & Hv); [discriminate|].
  exists hw, hello, fw, first, lw, final, rest, fin. eexists.
  split; [exact Hs|]. split; [exact H1|]. split; [exact H2|]. split; [exact H3|]. split; [exact Hf|exact Hv].
Defined.

(** The number of iterations may be followed by anything, and a reply to another request is taken as the answer. *)
Example iterations_lenient :
  exists a b, answer_server_first (bs "pencil") (bs "abc") (bs "n=user,r=abc")
    (step_document (bs "r=abcsrv,s=c2FsdA==,i=1 or so") false) = Value (1, a, b).
Proof. eexists _, _. vm_compute. reflexivity. Qed.

Example reply_ids_ignored :
  match connect linux sample_random dials pencil (open_client 400)
          (mkWorld (concat (zip_with answer_bytes [77; 77; 0; 5] sample_documents)) [] (replicate 60 (Ready 97))) with
  | Connected _ _ => True
  | _ => False
  end.
Proof. vm_compute. reflexivity. Qed.

(** A server that does not know the password, and one that answers with another client's nonce. *)
Example impostors_refused :
  let try documents := match connect linux sample_random dials pencil (open_client 400)
      (mkWorld (concat (zip_with answer_bytes [1; 2; 3; 4] documents)) [] (replicate 60 (Ready 97))) with
    | Failed e c _ => Some (e, m_is_closed c) | _ => None end in
  let other := set_password (bs "crayon") pencil in
  try [ok_document 1; step_document (server_first sample_random (bs "salt") (bs "srv") 1) false;
       step_document (server_final saslprep other sample_random (bs "salt") (bs "srv") 1) true] = Some (SignatureMismatch, false) /\
  try [ok_document 1; step_document (bs "r=abc,s=c2FsdA==,i=1") false] = Some (ServerNonceMismatch, false) /\
  try [ok_document 1; step_document (bs "e=other-error") false] = Some (ServerFirstInvalid, false) /\
  try [error_document] = Some (AuthClient (ServerError (Some 59) (bs "no such command")), false).
Proof. vm_compute. repeat split. Qed.

(** A password with a soft hyphen: the server stores the keys of the password without it, RFC 5802, 2.2, and the
    client makes its proof and judges the server with it. *)
Example unprepared_password_refused :
  let config := set_password (bs "pen" ++ [z2b 0xC2; z2b 0xAD] ++ bs "cil") pencil in
  let documents :=
    [ok_document 1; step_document (server_first sample_random (bs "salt") (bs "srv") 1) false;
     step_document (server_final saslprep config sample_random (bs "salt") (bs "srv") 1) true] in
  match connect linux sample_random dials config (open_client 400)
          (mkWorld (concat (zip_with answer_bytes [1; 2; 3] documents)) [] (replicate 60 (Ready 97))) with
  | Failed e _ _ => e = SignatureMismatch
  | _ => False
  end.
Proof. vm_compute. reflexivity. Qed.
